(* ===== verification/_CoqProject ===== *)
-Q . S2P
Prelude.v
Envelope.v
Ring.v
Cursor.v
Deferred.v
RingCore.v
Budget.v
Activation.v
Proto.v
Subs.v
AttachStore.v
Conn.v
Publish.v
Router.v
Text.v
Approval.v
Grants.v
Buffer.v
Wiring.v
Planes.v
Page.v
Paging.v
Completion.v
Completing.v
Mqtt.v
Access.v
TokenBucket.v
Directory.v
Identity.v
Serve.v
Serving.v
Registry.v
Session.v
Attach.v
Attached.v
Flush.v
Lifecycle.v
Retention.v
Retaining.v
DbStore.v
Durable.v
Bus.v
Delivery.v
Publishing.v
Feeding.v
Delivering.v
