(* ===== verification/Prelude.v ===== *)
(** * Brenn: verification of the message-bus core

    Brenn is a message bus with a backend, attachers that hold one connection to it, and
    guest components that run in activations and publish. This library models the parts of
    it that decide what is kept, what is delivered, what is lost, who may do what and who is
    told: the shared queue crate, the address, envelope and grant vocabulary, the publish
    budgets, the activation model, the attachment protocol with both of its ends, the
    messenger behind it with its in-memory and durable retention, the access policies and
    the rules that approve a tool call. Paths below are under [src/].

    ** How the parts interact

    A channel's non-durable state is one [RingCore] (brenn-queue/src/store.rs): a bounded
    ring of numbered messages, one cursor per subscriber, and a set of messages parked
    until a release time. An attacher holds such a core per channel in its [ChannelStores]
    (attach/client/src/store.rs). What fills a store is either the wire (conn.rs brings an
    attachment up, subs.rs keeps subscriptions and accepts delivered rows) or the confined
    router (router.rs), which mints messages for the channels that never cross the wire.
    What leaves is a flush per activation through the outboxes (publish.rs), under the
    batch law of the protocol (attach/proto/src/lib.rs), after the per-activation gate
    (brenn-budget/src/gate.rs) has admitted each publish.

    At the other end of the wire a session (attach/server/src/session.rs) opens on a common
    version (socket.rs), serves its subscriptions from retained rings behind opaque cursors
    (subscription.rs, cursor.rs), admits publishes, flushes and alerts under its profile and
    its token buckets (publish.rs, brenn-lib/src/token_bucket.rs), and leaves through the
    registry (registry.rs) that counts an attacher's sessions. What it may deliver is
    decided by the access policy (brenn-lib/src/access), whose MQTT matchers are
    brenn-lib/src/mqtt and whose capabilities come from the grant words
    (brenn-envelope/src/grants.rs); which channels exist and who subscribes is the
    directory (brenn-lib/src/messaging/directory.rs).

    Behind the sessions is the messenger (brenn-messaging/src). Every publish, whoever makes
    it, passes one ladder of gates (publish/mod.rs): shape, authority, access list, body,
    reply address, then the budgets and rates it spends. What passes is committed to the
    channel's store, a table or a ring by the channel's class (brenn-messaging-store/src):
    the in-memory store wraps a [RingCore], the durable one keeps rows. Then it is fed to the
    attached sessions, and the dispatcher is kicked; the dispatcher's sweeps release what has
    come due and wake who is owed (lib.rs).

    Theorems compose the two ends where the code makes them meet: [Serving] feeds the
    server's deliveries to the client's [Subs], and [Flush] feeds the client's batches to
    the server's checks.

    One attacher is modelled from the inside: the page that runs a surface (surface/kernel).
    Its wiring is a document of bindings (surface/schema/src/bindings.rs), read and indexed
    once (kernel/src/bindings.rs). Its registrations (registry.rs) hold a position in the
    store of each channel an instance reads and a reference on its subscription; its scheduler
    (activation.rs) picks a ready instance in rotation, serves its windows from the stores,
    charges what was lost, and hands it a publish buffer (publish_buffer.rs) seeded with its
    budgets, whose content leaves as one flush.

    ** Files

    - [Prelude] (this file): outcomes of Rust calls ([result], [panics]), 64-bit integers,
      list lengths, runs of sequence numbers, ordered vectors, the [brenn] hint databases
      and the shared tactics.
    - [Envelope]: brenn-envelope/src/{lib,addressing,channel_model}.rs. Schemes,
      capabilities, reserved names, the tag vocabularies, derived channel identities.
      Theorems: splitting an address is inverse to prefixing, canonicalisation is
      idempotent, reserved names are exactly the four segments, the tag spellings round
      trip, an auto channel's id does not depend on declaration order.
    - [Ring]: brenn-queue/src/ring.rs. [RingSpec] is the abstract specification (the whole
      numbered history and how much of its tail is kept) and [ring_refines_history] the
      refinement; [replay_lossless_iff_no_gap] characterises the resume answer.
    - [Cursor]: brenn-queue/src/cursor.rs. What a window presents as new, and what an
      advance reports lost.
    - [Deferred]: brenn-queue/src/deferred.rs. The sorted vector refines a finite map.
    - [RingCore]: brenn-queue/src/store.rs. [CoreRun] runs a channel through any sequence
      of operations, a window and its advance being two of them; the invariant holds
      throughout, and the ledger theorem says that no loss is silent, and that what is
      counted twice is exactly what an eviction reported between the two.
    - [Budget]: brenn-budget/src/{lib,gate,refusal}.rs. What an activation's accepted
      publishes and ops come to over any sequence of guest calls, token conservation, refusals that charge nothing, and that a guest
      cannot read its wiring from the answers.
    - [Activation]: brenn-activation/src/{lib,schedule,sync}.rs.
    - [Proto]: attach/proto/src/lib.rs. Negotiation, and that a legal batch fits the
      advertised frame cap.
    - [Subs]: attach/client/src/subs.rs. [SubsPeer] is the peer's law on subscribe and
      unsubscribe; the frames sent obey it over every history.
    - [AttachStore]: attach/client/src/store.rs, a client of the [RingCore] theorems.
    - [Conn]: attach/client/src/{conn,lib}.rs. [ConnRun] closes the machine with its timer.
    - [Publish]: attach/client/src/publish.rs. [OutboxInv] is the outbox invariant and
      [OutboxRun] its preservation over every call.
    - [Router]: attach/client/src/router.rs and transport/clock.rs. The embedder's rules
      are the class [PlanePolicy], which may unwind; [plane_contract] is what a policy owes
      for the router not to, and [RouterRun] proves that whatever a plane's guard enforces
      then holds of every message on the plane.
    - [Text]: characters, splitting and UTF-8 boundaries, as the next files use them.
    - [Approval]: brenn-approval-rules/src/lib.rs. The shell splitter is proved equal to a
      reading of the command by a grammar, and a compound command is approved exactly when
      every piece of it that is not blank is covered and some piece is not blank.
    - [Grants]: brenn-envelope/src/grants.rs. The grant words and what each carries.
    - [Mqtt]: brenn-lib/src/mqtt/{address,config}.rs and access/mqtt_match.rs. Addresses
      round trip, and filter coverage is containment of what is matched.
    - [Access]: brenn-lib/src/access and the tool grants. The policies the builders resolve
      are well formed, hold what was authored, and keep reserved channels out of reach.
    - [TokenBucket]: brenn-lib/src/token_bucket.rs. Spending over any window is bounded,
      suppression is reported exactly, waiting is rewarded; [metered] is the ledger a client
      of a bucket carries.
    - [Directory]: brenn-lib/src/messaging/{directory,config}.rs. The two indexes stay one.
    - [Serve]: attach/server/src/{subscription,cursor,profile}.rs. Retention is the class
      [RetentionStore] with the contract [RetentionLaws], which [Ring] discharges.
    - [Serving]: theorems about [Serve]: whatever sequence of pushes, nudges and appends
      drives a session, the client accepts every frame, and each position is delivered or
      told as lost; a resume is exact or says it is not.
    - [Registry]: attach/server/src/registry.rs, and the steps a route takes on it as a
      relation; caps, quiet and last-detach over every interleaving of sessions.
    - [Session]: attach/server/src/publish.rs and the dispatch and alerts of session.rs. The
      bus is the class [Messenger].
    - [Attach]: attach/server/src/socket.rs and the loop of session.rs: handshake, opening,
      wakes, teardown, writer task.
    - [Attached], [Flush], [Lifecycle]: theorems about the two: the rates an attachment
      keeps to, that a publish is answered once, the order in which a flush reaches any bus,
      that what a page's buffer and outbox compose is never refused, when an attachment
      opens, how it ends and what its end says, what silence reaps it, and what the writer
      writes in which order.

    - [Identity]: brenn-lib/src/messaging/identity.rs. Who a principal is, spelled as one
      string: each spelling reads back as what it was built from, and two attachers' scopes
      share no principal.
    - [Retention]: brenn-messaging-store/src/store/{mod,ring,registry}.rs, with the clock
      conversions. [Retaining] proves the store is its channel core with names, that it never
      unwinds on a well-formed run, what its wake source answers, and that a parked message
      is seen by no read.
    - [DbStore]: the rows of brenn-messaging-store/src/db and the durable store of
      store/db.rs over them. [Durable] relates the rows of a channel to a [RingCore] by the
      relation [sim] and proves that each operation of the store, the collector's included,
      is an operation of the core: so the ledger of losses, the replay and the release of a
      durable channel are those of a ring, up to the second its times are kept to. Stored
      times are text, compared as text: what is proved is for the years 0000 to 9999, and
      what a time outside them does is proved beside it.
    - [Bus]: the state of the messenger, the subscriber registry and the publish pipeline
      (brenn-messaging/src/{lib,publish/mod}.rs, store/targets.rs, tombstone.rs, gates.rs).
      [Publishing] inverts the pipeline step by step; [Feeding] proves that a publish is
      denied exactly outside its policy and then costs nothing, that a reply address tells
      nothing of what exists, that budgets bound sends, and that what a session is fed is
      what retention holds.
    - [Delivery]: the flushes of attachers and components (publish/mod.rs, live.rs), the
      sweeps and the activation windows (lib.rs). [Delivering] proves that a flush lands in
      call order, each entry on the channel it names, and accounts for every entry; that an
      entry whose target is gone costs itself alone; and that a release sweep leaves parked,
      on every channel, exactly what is not due, and answers the exact time of the next.

    - [Buffer]: surface/kernel/src/publish_buffer.rs, with what a surface may bind
      (surface/schema/src/lib.rs) and the wire form of an entry (flush.rs). Whatever a
      component calls, nothing unwinds and the flush it leaves is one the protocol admits.
    - [Wiring]: surface/schema/src/{bindings,lib}.rs and surface/kernel/src/bindings.rs.
      [CallGraph] proves the three-colour search for a cycle of calls, [Indexed] that the
      indexes answer as scans of the document do.
    - [Planes]: surface/kernel/src/planes.rs, the page's [PlanePolicy]: a component cannot
      speak on a reserved plane in another's name, over every run of the router, and a page
      that has been wired does not unwind there.
    - [Page]: surface/kernel/src/{registry,activation}.rs. [Paging] proves how long the
      rotation can keep an instance waiting, sync calls between turns counted ([Rotation]), what a loss costs ([Ladder]), that a pass makes the table,
      the positions and the subscriptions agree with the wiring ([Agreement]), and that every
      instance the wiring declares then assembles ([Assembly]).
    - [Completion]: surface/kernel/src/{outbound,flush}.rs. [Completing] proves that an ok
      activation's buffer commits whole and in call order on both sides, and that a page whose
      contract has not moved never refuses its own flush.

    ** Conventions

    A Rust function that can unwind returns [panics]; a theorem that one "never unwinds"
    exhibits the [Returns]. Mutable state is passed explicitly, a [&mut self] method
    returning the new state. A [u64] is an [N] and every [+=] on one is [u64_add], which
    wraps at 2^64 (a release build; in a debug build the same point unwinds), so each
    theorem that needs a counter to have room says so. [usize] is 64 bits wide. A
    [saturating_] operation saturates. Strings are byte strings. A [BTreeMap] is a [gmap]
    iterated in key order; a [HashMap] is a [gmap] whose iteration order no theorem
    depends on. Clocks and sockets are what they yield: a function that reads one takes the
    reading, and one that loops on one takes the sequence.

    Loops are structural recursions or folds over the collection they drain, with two
    exceptions: the shell splitter of [Approval] advances by one to several bytes a turn and
    takes as fuel the length of its input, which [split_bash_command_terminates] proves is
    enough; the walk of the call graph in [Wiring] uses up an edge or finishes a node at every
    turn and takes as fuel [walk_fuel], which [call_cycle_is_found_iff_there_is_one] proves is
    enough on every table.

    Third-party code is a parameter: [Chrono] and [UuidLib] in [Envelope], the JSON parser
    of frames in [Conn] and [Session], the encoded sizes of frames in [Proto], the
    embedder's key order in [Publish] and policy in [Router], the regex engine and JSON
    values in [Approval], the cursor token's encoding in [Serve], the order of instants and
    the escaping of characters in [Session], instants in seconds and as RFC 3339 text
    ([ChronoSecs], with the laws [ChronoLine]) in [Retention], the adapter that fronts the attached sessions ([WakeRouter]) in [Bus], the
    quoting of a string ([DebugStr]) in [Buffer], an envelope's JSON ([EnvelopeJson]) in
    [Page], the two plane bodies' ([PlaneJson]) in [Planes], a frame's length and a report's
    body ([FrameJson], [ReportJson]) in [Completion]. The
    bus behind a session is an argument of [Session], the class [Messenger]. Each hypothesis
    on one of these is discharged by a concrete instance in a witness.

    The database is the rows of the tables it holds; a statement is a function on them and a
    transaction one step, which is what SQLite's single mutex-guarded connection makes it. A
    call of the messenger is one step too, except that [publish_batch_from_attacher] takes
    as arguments what the rest of the process does while it waits for the lock and while it
    feeds its durable rows.

    ** Not modelled

    The I/O shells (attach/client/src/driver.rs and transport/, except the clock's epoch
    conversion; the websocket upgrade and the HTTP routes), JSON encoding, log lines and
    diagnostics text beyond which panic, refusal or rule it is, the migrations of the
    database, its ingress rows and its full-text index, the messenger's listings, queries,
    conversations and reload, the dispatcher's timer loop, the rest of the surface kernel (its
    turn, its entry points, its DOM host) and the frontend, the WASM host, the configuration
    language, and the provider crates. *)

From stdpp Require Export base tactics numbers list strings gmap fin_maps.
From stdpp Require Export sorting.
From Stdlib Require Export Lia.

#[global] Set Default Goal Selector "!".

#[export] Set Warnings "-clear-no-such-hyp".

Declare Scope brenn_scope.
Delimit Scope brenn_scope with brenn.
#[global] Open Scope brenn_scope.
#[local] Open Scope N_scope.

Create HintDb brenn.
Create Rewrite HintDb brenn.

(** ** Rust outcomes *)

(** [Result<A, E>]. *)
Inductive result (A E : Type) : Type :=
| Ok (a : A)
| Err (e : E).
Arguments Ok {A E} a.
Arguments Err {A E} e.

(** A call that returns, or one that unwinds: [assert!], [expect], [panic!]. *)
Inductive panics (A : Type) : Type :=
| Returns (a : A)
| Panics (why : string).
Arguments Returns {A} a.
Arguments Panics {A} why.

(** Whether a call came back, and with what, for witnesses that evaluate one. *)
Definition returned {A} (x : panics A) : bool := match x with Returns _ => true | Panics _ => false end.
Definition result_of {A} (fallback : A) (x : panics A) : A := match x with Returns v => v | Panics _ => fallback end.

Lemma returned_result {A} (fallback : A) (x : panics A) : returned x = true → x = Returns (result_of fallback x).
Proof. by destruct x. Qed.

#[export] Instance panics_ret : MRet panics := @Returns.
#[export] Instance panics_bind : MBind panics := λ A B f m,
  match m with
  | Returns a => f a
  | Panics why => Panics why
  end.
#[export] Instance panics_fmap : FMap panics := λ A B f m,
  match m with
  | Returns a => Returns (f a)
  | Panics why => Panics why
  end.

(** [assert!(b, why)]. *)
Definition rust_assert (b : bool) (why : string) : panics unit :=
  if b then Returns () else Panics why.

(** [Option::expect]. *)
Definition rust_expect {A} (o : option A) (why : string) : panics A :=
  match o with
  | Some a => Returns a
  | None => Panics why
  end.

(** A call that came back, run backwards. *)
Lemma bind_Returns {A B} (x : panics A) (f : A → panics B) b :
  x ≫= f = Returns b ↔ ∃ a, x = Returns a ∧ f a = Returns b.
Proof. destruct x; simpl; naive_solver. Qed.

Lemma expect_Returns {A} (o : option A) why a : rust_expect o why = Returns a ↔ o = Some a.
Proof. destruct o; simpl; naive_solver. Qed.

Lemma assert_Returns b why u : rust_assert b why = Returns u ↔ b = true.
Proof. destruct b, u; simpl; naive_solver. Qed.

(** ** Machine integers

    [u64] and [usize] are 64 bits wide here. Values are [N]; every operation that
    can leave the range says what it does there. Plain [+] and [-] wrap, which is
    what an optimised build does (a checked build panics instead, and the two agree
    wherever the result is in range). *)

Definition u64_max : N := 18446744073709551615.
Definition u32_max : N := 4294967295.
Definition usize_max : N := u64_max.

Definition u64_add (a b : N) : N := (a + b) mod (u64_max + 1).
Definition u64_sub (a b : N) : N := if b <=? a then a - b else a + (u64_max + 1) - b.
Definition u64_saturating_add (a b : N) : N := N.min (a + b) u64_max.
Definition u64_saturating_sub (a b : N) : N := a - b.
Definition u64_saturating_mul (a b : N) : N := N.min (a * b) u64_max.
Definition u32_saturating_add (a b : N) : N := N.min (a + b) u32_max.

(** [usize::try_from(n).unwrap_or(usize::MAX)]. *)
Definition usize_saturating (n : N) : N := N.min n usize_max.

(** [Vec::len], [VecDeque::len], read at the width of a counter. *)
Definition len {A} (l : list A) : N := N.of_nat (length l).

#[global] Arguments len : simpl never.
#[global] Arguments u64_add : simpl never.
#[global] Arguments u64_sub : simpl never.
#[global] Arguments u64_saturating_add : simpl never.
#[global] Arguments u64_saturating_sub : simpl never.
#[global] Arguments u64_saturating_mul : simpl never.

Lemma u64_add_small a b : a + b ≤ u64_max → u64_add a b = a + b.
Proof. intros ?. apply N.mod_small. lia. Qed.

Lemma u64_sub_small a b : b ≤ a → u64_sub a b = a - b.
Proof. intros ?. unfold u64_sub. destruct (N.leb_spec b a); lia. Qed.

Lemma u64_add_le_max a b : u64_add a b ≤ u64_max.
Proof.
  unfold u64_add.
  pose proof (N.mod_upper_bound (a + b) (u64_max + 1)). lia.
Qed.

Lemma len_nil {A} : len (@nil A) = 0.
Proof. done. Qed.

Lemma len_cons {A} (x : A) l : len (x :: l) = len l + 1.
Proof. unfold len. simpl. lia. Qed.

Lemma len_app {A} (l k : list A) : len (l ++ k) = len l + len k.
Proof. unfold len. rewrite length_app. lia. Qed.

Lemma len_drop {A} n (l : list A) : len (drop n l) = len l - N.of_nat n.
Proof. unfold len. rewrite length_drop. lia. Qed.

Lemma len_fmap {A B} (f : A → B) (l : list A) : len (f <$> l) = len l.
Proof. unfold len. by rewrite length_fmap. Qed.

Lemma len_filter_le {A} (P : A → Prop) `{∀ x, Decision (P x)} (l : list A) :
  len (filter P l) ≤ len l.
Proof. unfold len. pose proof (length_filter P l). lia. Qed.

Lemma len_zero_nil {A} (l : list A) : len l = 0 → l = [].
Proof. destruct l; [done|]. rewrite len_cons. lia. Qed.

#[export] Hint Rewrite @len_nil @len_cons @len_app @len_drop @len_fmap : brenn.

(** ** Dense ascending runs *)

(** [run s n] is [s, s+1, ..., s+n-1]. *)
Fixpoint run (s : N) (n : nat) : list N :=
  match n with
  | O => []
  | S n => s :: run (s + 1) n
  end.

Lemma length_run s n : length (run s n) = n.
Proof. revert s. induction n as [|n IH]; intros s; simpl; [done|]. by rewrite IH. Qed.

Lemma run_app s n m : run s (n + m) = run s n ++ run (s + N.of_nat n) m.
Proof.
  revert s. induction n as [|n IH]; intros s; simpl.
  - by rewrite N.add_0_r.
  - rewrite IH. by replace (s + 1 + N.of_nat n) with (s + N.pos (Pos.of_succ_nat n)) by lia.
Qed.

Lemma run_snoc s n : run s (S n) = run s n ++ [s + N.of_nat n].
Proof. replace (S n) with (n + 1)%nat by lia. by rewrite run_app. Qed.

Lemma drop_run k s n : drop k (run s n) = run (s + N.of_nat k) (n - k).
Proof.
  revert s n. induction k as [|k IH]; intros s n; simpl.
  - by rewrite N.add_0_r, Nat.sub_0_r.
  - destruct n as [|n]; simpl; [done|].
    rewrite IH. by replace (s + 1 + N.of_nat k) with (s + N.pos (Pos.of_succ_nat k)) by lia.
Qed.

Lemma elem_of_run x s n : x ∈ run s n ↔ s ≤ x ∧ x < s + N.of_nat n.
Proof.
  revert s. induction n as [|n IH]; intros s; simpl.
  - split; [by intros ?%not_elem_of_nil|lia].
  - rewrite elem_of_cons, IH. lia.
Qed.

Lemma lookup_run s n i x : run s n !! i = Some x → x = s + N.of_nat i ∧ (i < n)%nat.
Proof.
  revert s i. induction n as [|n IH]; intros s [|i]; simpl; try done.
  - intros [= <-]. lia.
  - intros ?%IH. lia.
Qed.

(** ** List lemmas shared by the components *)

Section lists.
Context {A : Type}.
Implicit Types (l k : list A).

Lemma filter_all (P : A → Prop) `{∀ x, Decision (P x)} l :
  Forall P l → filter P l = l.
Proof. induction 1; [done|]. by rewrite filter_cons_True, IHForall. Qed.

Lemma filter_none (P : A → Prop) `{∀ x, Decision (P x)} l :
  Forall (λ x, ¬ P x) l → filter P l = [].
Proof. induction 1; [done|]. by rewrite filter_cons_False. Qed.

Lemma drop_suffix n l : drop n l `suffix_of` l.
Proof. exists (take n l). by rewrite take_drop. Qed.

Lemma suffix_drop l k : l `suffix_of` k → l = drop (length k - length l) k.
Proof.
  intros [p ->]. rewrite length_app.
  replace (length p + length l - length l)%nat with (length p) by lia.
  by rewrite drop_app_length.
Qed.

Lemma list_find_from_start (P : A → Prop) `{∀ x, Decision (P x)} l i x :
  list_find P l = Some (i, x) → l !! i = Some x ∧ P x.
Proof. intros (?&?&?)%list_find_Some. done. Qed.
End lists.

Lemma filter_ext_in {A} (P Q : A → Prop) `{!∀ x, Decision (P x), !∀ x, Decision (Q x)} (l : list A) :
  (∀ x, x ∈ l → P x ↔ Q x) → filter P l = filter Q l.
Proof.
  induction l as [|x l IH]; intros Hl; [done|]. rewrite !filter_cons, IH by (intros; apply Hl; by right).
  destruct (decide (P x)), (decide (Q x)); [done| | |done]; exfalso; destruct (Hl x); [by left|tauto|by left|tauto].
Qed.

(** ** Vectors: [Vec::insert], [Vec::remove], [slice::partition_point] *)

Definition vec_insert {A} (i : nat) (x : A) (l : list A) : list A := take i l ++ x :: drop i l.
Definition vec_remove {A} (i : nat) (l : list A) : list A := take i l ++ drop (S i) l.

(** The length of the longest prefix satisfying [p]: what a partitioned slice's
    [partition_point] and an iterator's [take_while().count()] return. *)
Fixpoint prefix_count {A} (p : A → bool) (l : list A) : nat :=
  match l with
  | [] => O
  | x :: l => if p x then S (prefix_count p l) else O
  end.

Section vectors.
Context {A : Type}.
Implicit Types (l : list A) (x : A) (p : A → bool) (R : relation A).

Lemma vec_insert_perm i x l : vec_insert i x l ≡ₚ x :: l.
Proof.
  unfold vec_insert. rewrite <-(take_drop i l) at 3. symmetry. apply Permutation_middle.
Qed.

Lemma vec_remove_perm i l x : l !! i = Some x → x :: vec_remove i l ≡ₚ l.
Proof.
  intros Hi. unfold vec_remove. rewrite <-(take_drop_middle l i x Hi) at 3.
  apply Permutation_middle.
Qed.

Lemma prefix_count_le p l : (prefix_count p l ≤ length l)%nat.
Proof. induction l as [|x l IH]; simpl; [lia|]. destruct (p x); lia. Qed.

Lemma take_prefix_count p l : Forall (λ x, p x = true) (take (prefix_count p l) l).
Proof.
  induction l as [|x l IH]; simpl; [constructor|]. destruct (p x) eqn:Hp; simpl; [|constructor].
  by constructor.
Qed.

Lemma drop_prefix_count p l x rest :
  drop (prefix_count p l) l = x :: rest → p x = false.
Proof.
  induction l as [|y l IH]; simpl; [done|]. destruct (p y) eqn:Hp; simpl; [done|].
  by intros [= -> _].
Qed.

Lemma StronglySorted_app_iff R l k :
  StronglySorted R (l ++ k) ↔
  StronglySorted R l ∧ StronglySorted R k ∧ Forall (λ x, Forall (R x) k) l.
Proof.
  induction l as [|x l IH]; simpl.
  - split; [intros ?|intros (_&?&_)]; [|done]. split_and!; [constructor|done|constructor].
  - split.
    + intros Hs. apply StronglySorted_inv in Hs as [Hs Hx].
      apply IH in Hs as (?&?&?). apply Forall_app in Hx as [? ?].
      split_and!; [by constructor|done|by constructor].
    + intros (Hl&Hk&Hf). apply StronglySorted_inv in Hl as [? ?].
      apply Forall_cons in Hf as [? ?].
      constructor; [by apply IH|by apply Forall_app].
Qed.

Lemma StronglySorted_drop R n l : StronglySorted R l → StronglySorted R (drop n l).
Proof. rewrite <-(take_drop n l) at 1. intros (_&?&_)%StronglySorted_app_iff. done. Qed.

Lemma StronglySorted_remove R i l : StronglySorted R l → StronglySorted R (vec_remove i l).
Proof.
  unfold vec_remove. rewrite <-(take_drop i l) at 1.
  intros (?&Hd&Hf)%StronglySorted_app_iff. apply StronglySorted_app_iff.
  replace (S i) with (i + 1)%nat by lia. rewrite <-drop_drop.
  split_and!; [done|by apply StronglySorted_drop|].
  eapply Forall_impl; [exact Hf|]. intros x Hx. by apply Forall_drop.
Qed.

(** In a sorted list, a downward-closed test splits the list at its prefix. *)
Lemma drop_prefix_sorted R p l :
  StronglySorted R l → (∀ x y, R x y → p x = false → p y = false) →
  Forall (λ x, p x = false) (drop (prefix_count p l) l).
Proof.
  intros Hs Hmono. pose proof (StronglySorted_drop R (prefix_count p l) l Hs) as Hd.
  destruct (drop _ l) as [|x rest] eqn:Hx; [constructor|].
  pose proof (drop_prefix_count _ _ _ _ Hx). apply StronglySorted_inv in Hd as [_ Hd].
  constructor; [done|]. eapply Forall_impl; [exact Hd|]. naive_solver.
Qed.
End vectors.

(** ** Tactics *)

(** Case on the boolean comparison that drives the current branch. *)
Ltac case_bool :=
  match goal with
  | |- context [N.leb ?a ?b] => destruct (N.leb_spec a b)
  | |- context [N.ltb ?a ?b] => destruct (N.ltb_spec a b)
  | |- context [N.eqb ?a ?b] => destruct (N.eqb_spec a b)
  | H : context [N.leb ?a ?b] |- _ => destruct (N.leb_spec a b)
  | H : context [N.ltb ?a ?b] |- _ => destruct (N.ltb_spec a b)
  | H : context [N.eqb ?a ?b] |- _ => destruct (N.eqb_spec a b)
  end.

(** Lengths to arithmetic, then [lia]. *)
Ltac len_lia := autorewrite with brenn in *; unfold len in *; simpl in *; lia.
