(* ===== verification/Envelope.v ===== *)
(** * Channel addresses and envelopes ([brenn-envelope/src/{lib,addressing,channel_model}.rs])

    The address vocabulary every component reads: schemes and their capabilities,
    reserved names, the urgency and noise ladders, the message envelope. Strings are
    byte strings, which is what the Rust [str] is; every test the source makes on a
    [char] is on an ASCII one, where the two readings agree. [Chrono] and [UuidLib] stand
    for the two third-party types an envelope carries. *)

From S2P Require Import Prelude.
From Stdlib Require Import Ascii.

#[local] Open Scope string_scope.
#[local] Open Scope N_scope.

(** ** Third-party types *)

(** [chrono::DateTime<Utc>], as far as the code uses it. *)
Class Chrono (DateTime : Type) := {
  from_timestamp_millis : Z → option DateTime;
  timestamp_millis : DateTime → Z;
}.

(** Documented behaviour of [chrono]: the constructor inverts the accessor. *)
Class ChronoLaws (DateTime : Type) `{Chrono DateTime} : Prop := {
  from_timestamp_millis_inv z d : from_timestamp_millis z = Some d → timestamp_millis d = z;
}.

(** [uuid::Uuid], as far as the addressing code uses it. *)
Class UuidLib (Uuid : Type) := {
  NAMESPACE_DNS : Uuid;
  new_v5 : Uuid → string → Uuid;
  uuid_to_string : Uuid → string;
}.

(** ** [str] operations *)

(** [str::strip_prefix]. *)
Fixpoint strip_prefix (p s : string) : option string :=
  match p, s with
  | EmptyString, _ => Some s
  | String a p, String b s => if Ascii.eqb a b then strip_prefix p s else None
  | String _ _, EmptyString => None
  end.

(** [str::starts_with(char)]. *)
Definition starts_with_char (s : string) (c : ascii) : bool :=
  match s with
  | EmptyString => false
  | String a _ => Ascii.eqb a c
  end.

(** [str::ends_with(char)]. *)
Fixpoint ends_with_char (s : string) (c : ascii) : bool :=
  match s with
  | EmptyString => false
  | String a EmptyString => Ascii.eqb a c
  | String _ s => ends_with_char s c
  end.

(** [str::len]: bytes. *)
Definition str_len (s : string) : N := N.of_nat (String.length s).

(** [chars().all(p)]. *)
Fixpoint string_all (p : ascii → bool) (s : string) : bool :=
  match s with
  | EmptyString => true
  | String a s => p a && string_all p s
  end.

Lemma strip_prefix_Some p s r : strip_prefix p s = Some r ↔ s = p +:+ r.
Proof.
  revert s. induction p as [|a p IH]; intros s.
  { split; [by intros [= ->]|by intros ->]. }
  change (String a p +:+ r) with (String a (p +:+ r)).
  destruct s as [|b s]; simpl; [done|]. destruct (Ascii.eqb_spec a b) as [->|Hne].
  - rewrite IH. split; [by intros ->|by intros [= ->]].
  - split; [done|by intros [= -> _]].
Qed.

Lemma string_app_inj (p r r' : string) : p +:+ r = p +:+ r' → r = r'.
Proof. induction p as [|a p IH]; simpl; [done|]. intros [= ?]. auto. Qed.

(** Instances to evaluate the definitions at: instants as their own milliseconds within
    a calendar range, and UUIDs as the derivation path that minted them. *)
Module EvalInstances.
#[export] Instance millis_chrono : Chrono Z := {|
  from_timestamp_millis z := if (Z.abs z <=? 8000000000000000)%Z then Some z else None;
  timestamp_millis z := z;
|}.

#[export] Instance millis_chrono_laws : ChronoLaws Z.
Proof. split. intros z d. simpl. by destruct (_ <=? _)%Z; intros [= ->]. Qed.

#[export] Instance path_uuid : UuidLib string := {|
  NAMESPACE_DNS := "dns";
  new_v5 ns name := ns +:+ "/" +:+ name;
  uuid_to_string u := u;
|}.
End EvalInstances.

Module Envelope.

(** ** Address scheme *)

Definition BRENN_ADDRESS_PREFIX : string := "brenn:".
Definition WEBHOOK_ADDRESS_PREFIX : string := "webhook:".
Definition MQTT_ADDRESS_PREFIX : string := "mqtt:".
Definition EPHEMERAL_ADDRESS_PREFIX : string := "ephemeral:".
Definition PWA_PUSH_ADDRESS_PREFIX : string := "pwa_push:".
Definition LOCAL_ADDRESS_PREFIX : string := "local:".
Definition SURFACE_SUB_IDENTITY_SEP : ascii := "#".

(** [surface_sub_identity]. *)
Definition surface_sub_identity (participant inst : string) : string :=
  participant +:+ String SURFACE_SUB_IDENTITY_SEP inst.

Inductive ChannelScheme := Brenn | Ephemeral | Local | Mqtt | Webhook | PwaPush.

#[export] Instance ChannelScheme_eq_dec : EqDecision ChannelScheme.
Proof. solve_decision. Defined.

Record ChannelCapabilities := mkCaps { durable : bool; transportable : bool }.

Definition DURABLE_TRANSPORTABLE : ChannelCapabilities := mkCaps true true.
Definition TRANSPORTABLE : ChannelCapabilities := mkCaps false true.
Definition CONFINED : ChannelCapabilities := mkCaps false false.

(** [ChannelScheme::split]. *)
Definition split_address (address : string) : option (ChannelScheme * string) :=
  match strip_prefix BRENN_ADDRESS_PREFIX address with
  | Some rest => Some (Brenn, rest)
  | None =>
      match strip_prefix EPHEMERAL_ADDRESS_PREFIX address with
      | Some rest => Some (Ephemeral, rest)
      | None =>
          match strip_prefix LOCAL_ADDRESS_PREFIX address with
          | Some rest => Some (Local, rest)
          | None =>
              match strip_prefix MQTT_ADDRESS_PREFIX address with
              | Some rest => Some (Mqtt, rest)
              | None =>
                  match strip_prefix WEBHOOK_ADDRESS_PREFIX address with
                  | Some rest => Some (Webhook, rest)
                  | None =>
                      (λ rest, (PwaPush, rest)) <$> strip_prefix PWA_PUSH_ADDRESS_PREFIX address
                  end
              end
          end
      end
  end.

(** [ChannelScheme::of]. *)
Definition scheme_of (address : string) : option ChannelScheme := fst <$> split_address address.

(** [ChannelScheme::prefix]. *)
Definition prefix (s : ChannelScheme) : string :=
  match s with
  | Brenn => BRENN_ADDRESS_PREFIX
  | Ephemeral => EPHEMERAL_ADDRESS_PREFIX
  | Local => LOCAL_ADDRESS_PREFIX
  | Mqtt => MQTT_ADDRESS_PREFIX
  | Webhook => WEBHOOK_ADDRESS_PREFIX
  | PwaPush => PWA_PUSH_ADDRESS_PREFIX
  end.

(** [ChannelScheme::as_str]. *)
Definition scheme_as_str (s : ChannelScheme) : string :=
  match s with
  | Brenn => "brenn"
  | Ephemeral => "ephemeral"
  | Local => "local"
  | Mqtt => "mqtt"
  | Webhook => "webhook"
  | PwaPush => "pwa_push"
  end.

(** [ChannelScheme::parse]. *)
Definition scheme_parse (s : string) : option ChannelScheme :=
  if String.eqb s "brenn" then Some Brenn
  else if String.eqb s "ephemeral" then Some Ephemeral
  else if String.eqb s "local" then Some Local
  else if String.eqb s "mqtt" then Some Mqtt
  else if String.eqb s "webhook" then Some Webhook
  else if String.eqb s "pwa_push" then Some PwaPush
  else None.

(** [ChannelScheme::capabilities]. *)
Definition capabilities (s : ChannelScheme) : option ChannelCapabilities :=
  match s with
  | Brenn | Mqtt | Webhook => Some DURABLE_TRANSPORTABLE
  | Ephemeral => Some TRANSPORTABLE
  | Local => Some CONFINED
  | PwaPush => None
  end.

(** [channel_capabilities]. *)
Definition channel_capabilities (address : string) : option ChannelCapabilities :=
  s ← scheme_of address; capabilities s.

(** [is_local_channel]. *)
Definition is_local_channel (address : string) : bool :=
  match channel_capabilities address with
  | Some caps => negb (transportable caps)
  | None => false
  end.

(** ** Urgency and noise *)

Inductive Urgency := VeryLow | Low | Normal | High.

#[export] Instance Urgency_eq_dec : EqDecision Urgency.
Proof. solve_decision. Defined.

(** [Urgency::as_str]. *)
Definition urgency_as_str (u : Urgency) : string :=
  match u with
  | VeryLow => "very-low"
  | Low => "low"
  | Normal => "normal"
  | High => "high"
  end.

(** [Urgency::parse]. *)
Definition urgency_parse (s : string) : option Urgency :=
  if String.eqb s "very-low" then Some VeryLow
  else if String.eqb s "low" then Some Low
  else if String.eqb s "normal" then Some Normal
  else if String.eqb s "high" then Some High
  else None.

(** [Urgency::rank]. *)
Definition urgency_rank (u : Urgency) : Z :=
  match u with
  | VeryLow => 0
  | Low => 1
  | Normal => 2
  | High => 3
  end%Z.

Inductive NoiseLevel := Silent | Metered | Alarm | Fatal.
Inductive NoiseLevelParseError := mkNoiseLevelParseError.

(** [NoiseLevel::from_str]. *)
Definition noise_from_str (s : string) : result NoiseLevel NoiseLevelParseError :=
  if String.eqb s "silent" then Ok Silent
  else if String.eqb s "metered" then Ok Metered
  else if String.eqb s "alarm" then Ok Alarm
  else if String.eqb s "fatal" then Ok Fatal
  else Err mkNoiseLevelParseError.

(** [NoiseLevel::as_str]. *)
Definition noise_as_str (l : NoiseLevel) : string :=
  match l with
  | Silent => "silent"
  | Metered => "metered"
  | Alarm => "alarm"
  | Fatal => "fatal"
  end.

(** [NoiseLevel::is_backend_enactable]. *)
Definition is_backend_enactable (l : NoiseLevel) : bool :=
  match l with Fatal => false | _ => true end.

Inductive Impetus := Replenish.

(** [Impetus::as_str]. *)
Definition impetus_as_str (i : Impetus) : string := match i with Replenish => "replenish" end.

(** [Impetus::parse]. *)
Definition impetus_parse (s : string) : option Impetus :=
  if String.eqb s "replenish" then Some Replenish else None.

(** ** Epoch-millisecond times and the envelope *)

Definition i64_max : N := 9223372036854775807.

(** [utc_from_epoch_ms]. *)
Definition utc_from_epoch_ms `{Chrono DateTime} (ms : N) : option DateTime :=
  if ms <=? i64_max then from_timestamp_millis (Z.of_N ms) else None.

(** [MessageEnvelope]. *)
Record MessageEnvelope (Uuid DateTime : Type) := mkEnvelope {
  message_id : Uuid;
  source : string;
  channel : string;
  env_sender : string;
  publish_ts : DateTime;
  body : string;
  reply_to : option string;
  delivery_deadline : option DateTime;
  deliver_after : option DateTime;
  impetus : option Impetus;
  urgency : Urgency;
  envelope_type : ChannelScheme;
}.
Arguments mkEnvelope {Uuid DateTime}.
Arguments message_id {Uuid DateTime}.
Arguments source {Uuid DateTime}.
Arguments channel {Uuid DateTime}.
Arguments env_sender {Uuid DateTime}.
Arguments publish_ts {Uuid DateTime}.
Arguments body {Uuid DateTime}.
Arguments reply_to {Uuid DateTime}.
Arguments delivery_deadline {Uuid DateTime}.
Arguments deliver_after {Uuid DateTime}.
Arguments impetus {Uuid DateTime}.
Arguments urgency {Uuid DateTime}.
Arguments envelope_type {Uuid DateTime}.

(** ** Reserved names *)

Definition RESERVED_CHANNEL_SEGMENTS : list string := ["tools"; "tool-results"; "tool-requests"].
Definition AUTO_CHANNEL_SEGMENT : string := "auto".

(** The boundary test of [is_reserved_channel] and [is_auto_channel_name]:
    [strip_prefix(seg).is_some_and(|rest| rest starts with '.' or '/')]. *)
Definition at_boundary (seg address : string) : bool :=
  match strip_prefix seg address with
  | Some rest => starts_with_char rest "." || starts_with_char rest "/"
  | None => false
  end.

(** [is_reserved_channel]. *)
Definition is_reserved_channel (address : string) : bool :=
  existsb (λ seg, String.eqb address seg || at_boundary seg address) RESERVED_CHANNEL_SEGMENTS.

(** [in_a_tool_namespace]. *)
Definition in_a_tool_namespace (name : string) : bool :=
  existsb (λ seg, match strip_prefix seg name with
                  | Some rest => starts_with_char rest "/"
                  | None => false
                  end) RESERVED_CHANNEL_SEGMENTS.

(** [is_auto_channel_name]. *)
Definition is_auto_channel_name (name : string) : bool :=
  String.eqb name AUTO_CHANNEL_SEGMENT || at_boundary AUTO_CHANNEL_SEGMENT name.

(** [is_reserved_channel_name]. *)
Definition is_reserved_channel_name (name : string) : bool :=
  is_reserved_channel name || is_auto_channel_name name.

Definition MATCHER_BOUNDARIES : list ascii := ["/"; "."]%char.
Definition TUNING_BOUNDARIES : list ascii := ["/"; "."; ":"]%char.

(** [ends_at_matcher_boundary]. *)
Definition ends_at_matcher_boundary (pattern : string) : bool :=
  existsb (ends_with_char pattern) MATCHER_BOUNDARIES.

(** [ends_at_tuning_boundary]. *)
Definition ends_at_tuning_boundary (pattern : string) : bool :=
  existsb (ends_with_char pattern) TUNING_BOUNDARIES.

(** [char::is_ascii_alphanumeric]. *)
Definition is_ascii_alphanumeric (c : ascii) : bool :=
  let n := N_of_ascii c in
  ((48 <=? n) && (n <=? 57)) || ((65 <=? n) && (n <=? 90)) || ((97 <=? n) && (n <=? 122)).

(** [is_unreserved_char]. *)
Definition is_unreserved_char (c : ascii) : bool :=
  is_ascii_alphanumeric c ||
  (Ascii.eqb c "." || Ascii.eqb c "_" || Ascii.eqb c "~" || Ascii.eqb c "-").

(** [is_unreserved_name]. *)
Definition is_unreserved_name (name : string) : bool :=
  negb (String.eqb name "") && string_all is_unreserved_char name.

(** [canonical_address]. *)
Definition canonical_address (name : string) : string := BRENN_ADDRESS_PREFIX +:+ name.

(** [canonicalize_channel_address]. *)
Definition canonicalize_channel_address (address : string) : string :=
  match scheme_of address with
  | Some _ => address
  | None => canonical_address address
  end.

(** ** Derived identities *)

Section uuids.
Context `{UuidLib Uuid}.

(** A pinned UUIDv5 namespace: [Uuid::new_v5(&Uuid::NAMESPACE_DNS, seed)]. *)
Definition namespace (seed : string) : Uuid := new_v5 NAMESPACE_DNS seed.

Definition webhook_channel_uuid_from_slug (slug : string) : Uuid :=
  new_v5 (namespace "brenn.webhook-channel") slug.
Definition mqtt_channel_uuid_from_address (address : string) : Uuid :=
  new_v5 (namespace "brenn.mqtt-channel") address.
Definition ephemeral_channel_uuid_from_name (name : string) : Uuid :=
  new_v5 (namespace "brenn.ephemeral-channel") name.
Definition local_channel_uuid_from_name (name : string) : Uuid :=
  new_v5 (namespace "brenn.local-channel") name.

(** [nondurable_channel_uuid]. *)
Definition nondurable_channel_uuid (s : ChannelScheme) (name : string) : panics Uuid :=
  match s with
  | Ephemeral => Returns (ephemeral_channel_uuid_from_name name)
  | Local => Returns (local_channel_uuid_from_name name)
  | _ => Panics "nondurable_channel_uuid called with durable scheme"
  end.

(** The byte-wise order [sort_unstable] sorts [&str] by. *)
Definition str_le (a b : string) : Prop := String.leb a b = true.
#[global] Instance str_le_dec : RelDecision str_le.
Proof. intros a b. unfold str_le. apply _. Defined.

(** [sorted.join(sep)]. *)
Fixpoint join (sep : string) (l : list string) : string :=
  match l with
  | [] => ""
  | [s] => s
  | s :: l => s +:+ sep +:+ join sep l
  end.

Definition newline : string := String (ascii_of_N 10) "".

(** [auto_channel_cid]. *)
Definition auto_channel_cid (endpoint_refs : list string) : Uuid :=
  let sorted := merge_sort str_le endpoint_refs in
  let key := join newline sorted in
  new_v5 (namespace "brenn.auto-channel") key.

(** [auto_channel_name]. *)
Definition auto_channel_name (cid : Uuid) : string :=
  AUTO_CHANNEL_SEGMENT +:+ "." +:+ uuid_to_string cid.

Definition durable_auto_channel_uuid (bare_name : string) : Uuid :=
  new_v5 (namespace "brenn.auto-channel-durable") bare_name.
Definition tool_channel_uuid_from_address (address : string) : Uuid :=
  new_v5 (namespace "brenn.tool-channel") address.
Definition chat_channel_uuid_from_address (address : string) : Uuid :=
  new_v5 (namespace "brenn.chat-channel") address.
End uuids.

(** ** Channel block presence rules *)

Inductive ChannelDepthKey := PushDepth | RetainDepth | StandingRetainDepth.
Inductive ChannelBlockRole := Declaring | Tuning.

(** [ChannelDepthKey::word]. *)
Definition depth_word (k : ChannelDepthKey) : string :=
  match k with
  | PushDepth => "push_depth"
  | RetainDepth => "retain_depth"
  | StandingRetainDepth => "standing_retain_depth"
  end.

(** [depth_required]. *)
Definition depth_required (key : ChannelDepthKey) (role : ChannelBlockRole) (durable : bool) : bool :=
  match role with
  | Tuning => true
  | Declaring =>
      match key with
      | PushDepth | RetainDepth => true
      | StandingRetainDepth => durable
      end
  end.

(** [standing_admitted]. *)
Definition standing_admitted (durable : bool) : bool := durable.
(** [sink_admitted]. *)
Definition sink_admitted (durable : bool) : bool := durable.

(** ** Lemmas *)

Lemma split_prefix s rest : split_address (prefix s +:+ rest) = Some (s, rest).
Proof. by destruct s. Qed.

Lemma split_address_Some a s rest : split_address a = Some (s, rest) ↔ a = prefix s +:+ rest.
Proof.
  split; [|intros ->; apply split_prefix]. unfold split_address.
  repeat case_match; try intros [= <- <-]; try (by apply strip_prefix_Some).
  intros (r&Hr&[= -> ->])%fmap_Some. by apply strip_prefix_Some.
Qed.

Lemma scheme_of_Some a s : scheme_of a = Some s ↔ ∃ rest, a = prefix s +:+ rest.
Proof.
  unfold scheme_of. rewrite fmap_Some. split.
  - intros ([s' rest]&Hs&->). exists rest. by apply split_address_Some.
  - intros (rest&->). exists (s, rest). by rewrite split_prefix.
Qed.

Lemma is_local_iff a : is_local_channel a = true ↔ scheme_of a = Some Local.
Proof. unfold is_local_channel, channel_capabilities. destruct (scheme_of a) as [[]|]; simpl; done. Qed.

Lemma scheme_of_canonical a : is_Some (scheme_of (canonicalize_channel_address a)).
Proof.
  unfold canonicalize_channel_address. destruct (scheme_of a) eqn:E; [by rewrite E|].
  exists Brenn. apply scheme_of_Some. by exists a.
Qed.

(** *** The order of [&str] *)

Lemma compare_lt_trans a b c :
  String.compare a b = Lt → String.compare b c = Lt → String.compare a c = Lt.
Proof.
  revert b c. induction a as [|x a IH]; intros [|y b] [|z c]; simpl; try done.
  unfold Ascii.compare.
  destruct (N.compare_spec (N_of_ascii x) (N_of_ascii y)) as [Hxy|Hxy|Hxy]; try done;
    destruct (N.compare_spec (N_of_ascii y) (N_of_ascii z)) as [Hyz|Hyz|Hyz]; try done;
    destruct (N.compare_spec (N_of_ascii x) (N_of_ascii z)) as [Hxz|Hxz|Hxz]; try done; try lia.
  apply IH.
Qed.

#[export] Instance str_le_trans : Transitive str_le.
Proof.
  unfold str_le, String.leb. intros a b c.
  destruct (String.compare a b) eqn:Hab; [|
    destruct (String.compare b c) eqn:Hbc; [| |done]|done].
  - apply String.compare_eq_iff in Hab as ->. done.
  - apply String.compare_eq_iff in Hbc as <-. by rewrite Hab.
  - by rewrite (compare_lt_trans _ _ _ Hab Hbc).
Qed.

#[export] Instance str_le_total : Total str_le.
Proof. intros a b. apply String.leb_total. Qed.

#[export] Instance str_le_antisymm : AntiSymm (=) str_le.
Proof. intros a b. apply String.leb_antisym. Qed.

(** Sorting forgets the order its input came in. *)
Lemma merge_sort_perm (l k : list string) : l ≡ₚ k → merge_sort str_le l = merge_sort str_le k.
Proof.
  intros Hlk. apply (StronglySorted_unique str_le).
  - apply StronglySorted_merge_sort; apply _.
  - apply StronglySorted_merge_sort; apply _.
  - by rewrite !merge_sort_Permutation.
Qed.

(** The leading segment of a name: the text before its first [.] or [/]. *)
Fixpoint first_segment (s : string) : string :=
  match s with
  | EmptyString => ""
  | String a s =>
      if Ascii.eqb a "." || Ascii.eqb a "/" then "" else String a (first_segment s)
  end.

Definition boundary_free (s : string) : bool :=
  string_all (λ a, negb (Ascii.eqb a "." || Ascii.eqb a "/")) s.

Lemma segment_test seg name :
  boundary_free seg = true →
  (String.eqb name seg || at_boundary seg name = true ↔ first_segment name = seg).
Proof.
  unfold at_boundary. revert name. induction seg as [|a seg IH]; intros name Hb.
  - simpl. destruct name as [|c name]; simpl; [done|].
    destruct (Ascii.eqb c "." || Ascii.eqb c "/"); done.
  - simpl in Hb. apply andb_true_iff in Hb as [Ha Hb]. apply negb_true_iff in Ha.
    destruct name as [|c name]; [done|]. simpl. destruct (Ascii.eqb_spec a c) as [<-|Hne].
    + rewrite Ascii.eqb_refl, Ha, (IH name Hb). split; [by intros ->|by intros [= ->]].
    + destruct (Ascii.eqb_spec c a); [done|]. simpl. split; [done|].
      destruct (Ascii.eqb c "." || Ascii.eqb c "/"); [done|]. intros Heq. by injection Heq.
Qed.
End Envelope.

Module EnvelopeProps.
Import Envelope EvalInstances.

(** An address has at most one reading: splitting succeeds with a scheme and a
    remainder exactly when the address is that scheme's prefix followed by that remainder,
    so classifying and re-prefixing are mutually inverse. A channel is confined exactly
    when its address is a [local:] one, and an address with no capabilities is unprefixed
    or egress-only. *)
Theorem address_split_roundtrip a :
  (∀ s rest, split_address a = Some (s, rest) ↔ a = prefix s +:+ rest) ∧
  (is_local_channel a = true ↔ ∃ rest, a = LOCAL_ADDRESS_PREFIX +:+ rest) ∧
  (channel_capabilities a = None ↔ scheme_of a = None ∨ scheme_of a = Some PwaPush).
Proof.
  split_and!.
  - intros s rest. apply split_address_Some.
  - rewrite is_local_iff. apply scheme_of_Some.
  - unfold channel_capabilities. destruct (scheme_of a) as [[]|]; simpl; naive_solver.
Qed.

(** Canonicalising always yields a classified address, changes nothing that is
    already classified, is idempotent, and never turns an unclassified address into
    anything but a durable [brenn:] one. *)
Theorem canonicalize_is_canonical a :
  is_Some (scheme_of (canonicalize_channel_address a)) ∧
  canonicalize_channel_address (canonicalize_channel_address a) = canonicalize_channel_address a ∧
  (∀ s, scheme_of a = Some s → canonicalize_channel_address a = a) ∧
  (scheme_of a = None → split_address (canonicalize_channel_address a) = Some (Brenn, a)).
Proof.
  split_and!.
  - apply scheme_of_canonical.
  - destruct (scheme_of_canonical a) as [s Hs]. unfold canonicalize_channel_address at 1.
    by rewrite Hs.
  - intros s Hs. unfold canonicalize_channel_address. by rewrite Hs.
  - intros Hn. unfold canonicalize_channel_address. rewrite Hn. apply (split_prefix Brenn).
Qed.

(** A name is reserved exactly when its leading segment, the text before the first
    [.] or [/], is one of the four reserved ones; in particular a sibling name such as
    [toolsmith] is not, and every anonymous auto channel's own name is. *)
Theorem reserved_name_iff_reserved_segment `{UuidLib Uuid} name (cid : Uuid) :
  (is_reserved_channel_name name = true ↔
     first_segment name ∈ ["tools"; "tool-results"; "tool-requests"; "auto"]) ∧
  is_reserved_channel_name (auto_channel_name cid) = true.
Proof.
  assert (Hiff : ∀ n, is_reserved_channel_name n = true ↔
    first_segment n ∈ ["tools"; "tool-results"; "tool-requests"; "auto"]).
  { intros n. unfold is_reserved_channel_name, is_reserved_channel, is_auto_channel_name.
    cbn [existsb RESERVED_CHANNEL_SEGMENTS]. rewrite !orb_true_iff, <-!orb_true_iff.
    rewrite !elem_of_cons, elem_of_nil.
    rewrite <-(segment_test "tools"), <-(segment_test "tool-results"),
      <-(segment_test "tool-requests"), <-(segment_test "auto") by done.
    rewrite !orb_true_iff. naive_solver. }
  split; [apply Hiff|]. apply Hiff. unfold auto_channel_name. simpl. set_solver.
Qed.

(** The wire and database spellings are exact inverses of their parsers, for
    schemes, urgencies, noise levels and impetus alike: every value prints to a string
    that parses back to it, and no other string parses to it. *)
Theorem tags_roundtrip :
  (∀ t s, scheme_parse t = Some s ↔ t = scheme_as_str s) ∧
  (∀ t u, urgency_parse t = Some u ↔ t = urgency_as_str u) ∧
  (∀ t l, noise_from_str t = Ok l ↔ t = noise_as_str l) ∧
  (∀ t i, impetus_parse t = Some i ↔ t = impetus_as_str i).
Proof.
  unfold scheme_parse, urgency_parse, noise_from_str, impetus_parse. split_and!; intros t x.
  all: split; [|by intros ->; destruct x].
  all: repeat (match goal with |- context [String.eqb ?s ?k] => destruct (String.eqb_spec s k) end;
    [by destruct x|]); discriminate.
Qed.

(** An auto channel's connection id depends on the set of endpoints joined, not on
    the order they were declared in. *)
Theorem auto_channel_cid_order_independent `{UuidLib Uuid} (refs refs' : list string) :
  refs ≡ₚ refs' → auto_channel_cid refs = auto_channel_cid (Uuid := Uuid) refs'.
Proof. intros Hp. unfold auto_channel_cid. by rewrite (merge_sort_perm _ _ Hp). Qed.

Lemma canonicalize_is_canonical_witness :
  scheme_of "kitchen" = None ∧
  split_address (canonicalize_channel_address "kitchen") = Some (Brenn, "kitchen").
Proof.
  assert (scheme_of "kitchen" = None) as Hn by reflexivity. split; [exact Hn|].
  destruct (canonicalize_is_canonical "kitchen") as (_&_&_&Hc). exact (Hc Hn).
Defined.

Lemma auto_channel_cid_order_independent_witness :
  ["b"; "a"] ≡ₚ ["a"; "b"] ∧ auto_channel_cid ["b"; "a"] = auto_channel_cid (Uuid := string) ["a"; "b"].
Proof.
  assert (["b"; "a"] ≡ₚ ["a"; "b"]) as Hp by constructor.
  split; [exact Hp|]. exact (auto_channel_cid_order_independent _ _ Hp).
Defined.
End EnvelopeProps.
