(* ===== verification/Ring.v ===== *)
(** * The retained ring ([brenn-queue/src/ring.rs])

    A bounded drop-oldest window of recent messages with dense sequence numbers and
    the replay/gap computation a resuming subscriber is answered with. [Ring] holds
    the data and the operations; [RingSpec] holds the abstract specification (the
    whole history of the epoch plus how much of its tail is kept) and the refinement
    of the operations to it. *)

From S2P Require Import Prelude.

#[local] Open Scope N_scope.

Module Ring.

(** [Retained<M>]. *)
Record Retained (M : Type) := mkRetained { seq : N; message : M }.
Arguments mkRetained {M}.
Arguments seq {M}.
Arguments message {M}.

(** [Resume<Ep>]. *)
Record Resume (Ep : Type) := mkResume { resume_epoch : Ep; resume_seq : N }.
Arguments mkResume {Ep}.
Arguments resume_epoch {Ep}.
Arguments resume_seq {Ep}.

Inductive GapReason := EpochChanged | BeyondRetained | ResumeAhead.

Inductive ReplayDecision := Fresh | UpToDate | Exact | Gap (reason : GapReason).

(** [Replay<M>]. *)
Record Replay (M : Type) := mkReplay {
  messages : list (Retained M);
  decision : ReplayDecision;
}.
Arguments mkReplay {M}.
Arguments messages {M}.
Arguments decision {M}.

Record Append := mkAppend { append_seq : N; append_evicted : N }.

(** [RetainedRing<M, Ep>]. *)
Record RetainedRing (M Ep : Type) := mkRing {
  epoch : Ep;
  depth : N;
  next_seq : N;
  entries : list (Retained M);
}.
Arguments mkRing {M Ep}.
Arguments epoch {M Ep}.
Arguments depth {M Ep}.
Arguments next_seq {M Ep}.
Arguments entries {M Ep}.

#[export] Instance GapReason_eq_dec : EqDecision GapReason.
Proof. solve_decision. Defined.
#[export] Instance ReplayDecision_eq_dec : EqDecision ReplayDecision.
Proof. solve_decision. Defined.
#[export] Instance Retained_eq_dec {M} `{EqDecision M} : EqDecision (Retained M).
Proof. solve_decision. Defined.

Section operations.
Context {M Ep : Type} `{EqDecision Ep}.
Implicit Types (r : RetainedRing M Ep) (m : M).

(** [RetainedRing::new]. *)
Definition new (e : Ep) (d : N) : RetainedRing M Ep := mkRing e d 1 [].

(** The loop of [trim]: [while len > depth { pop_front(); evicted += 1 }]. *)
Fixpoint trim_loop (d : N) (es : list (Retained M)) (evicted : N) : list (Retained M) * N :=
  match es with
  | [] => ([], evicted)
  | _ :: rest =>
      if d <? len es then trim_loop d rest (u64_add evicted 1) else (es, evicted)
  end.

(** [RetainedRing::trim]. *)
Definition trim r : RetainedRing M Ep * N :=
  let '(es, evicted) := trim_loop (depth r) (entries r) 0 in
  (mkRing (epoch r) (depth r) (next_seq r) es, evicted).

(** [RetainedRing::set_depth]. *)
Definition set_depth r (d : N) : RetainedRing M Ep :=
  (trim (mkRing (epoch r) d (next_seq r) (entries r))).1.

(** [RetainedRing::is_empty]. *)
Definition is_empty r : bool := match entries r with [] => true | _ => false end.

(** [RetainedRing::newest_seq]. *)
Definition newest_seq r : N := u64_sub (next_seq r) 1.

(** [RetainedRing::oldest_seq]. *)
Definition oldest_seq r : option N := seq <$> head (entries r).

(** [RetainedRing::append]. *)
Definition append r m : RetainedRing M Ep * Append :=
  let s := next_seq r in
  let bumped := u64_add (next_seq r) 1 in
  if depth r =? 0
  then (mkRing (epoch r) (depth r) bumped (entries r), mkAppend s 0)
  else
    let '(r', evicted) :=
      trim (mkRing (epoch r) (depth r) bumped (entries r ++ [mkRetained s m])) in
    (r', mkAppend s evicted).

(** [RetainedRing::tail]. *)
Definition tail r (n : N) : list (Retained M) :=
  let take := N.min (usize_saturating n) (len (entries r)) in
  drop (N.to_nat (len (entries r) - take)) (entries r).

(** [RetainedRing::offset_after]. *)
Definition offset_after r (s : N) : N :=
  match entries r with
  | [] => 0
  | front :: _ =>
      let skip := u64_saturating_sub (u64_saturating_add s 1) (seq front) in
      N.min (usize_saturating skip) (len (entries r))
  end.

(** [RetainedRing::since]. *)
Definition since r (s : N) : list (Retained M) :=
  drop (N.to_nat (offset_after r s)) (entries r).

(** [RetainedRing::primed_from]. *)
Definition primed_from r (d : N) : N :=
  match tail r d with
  | first :: _ => u64_sub (seq first) 1
  | [] => newest_seq r
  end.

(** [RetainedRing::replay]. *)
Definition replay r (resume : option (Resume Ep)) : Replay M :=
  match resume with
  | None => mkReplay (entries r) Fresh
  | Some res =>
      if decide (resume_epoch res ≠ epoch r) then mkReplay (entries r) (Gap EpochChanged)
      else
        let newest := newest_seq r in
        if newest <? resume_seq res then mkReplay (entries r) (Gap ResumeAhead)
        else if resume_seq res =? newest then mkReplay [] UpToDate
        else
          match entries r with
          | oldest :: _ =>
              if seq oldest <=? u64_add (resume_seq res) 1
              then mkReplay (since r (resume_seq res)) Exact
              else mkReplay (entries r) (Gap BeyondRetained)
          | [] => mkReplay (entries r) (Gap BeyondRetained)
          end
  end.
End operations.

(** The ring invariant: dense, ending at the newest assigned seq, within depth. *)
Record wf {M Ep} (r : RetainedRing M Ep) : Prop := {
  wf_next : 1 ≤ next_seq r ≤ u64_max;
  wf_len : len (entries r) < next_seq r;
  wf_dense : seq <$> entries r = run (next_seq r - len (entries r)) (length (entries r));
  wf_depth : len (entries r) ≤ depth r;
}.

Section invariant.
Context {M Ep : Type} `{EqDecision Ep}.
Implicit Types (r : RetainedRing M Ep) (m : M).

Lemma new_wf e d : wf (@new M Ep e d).
Proof. split; simpl; rewrite ?len_nil; [unfold u64_max; lia|lia|done|lia]. Qed.

(** The eviction loop drops exactly the excess over the bound. *)
Lemma trim_loop_spec d (es : list (Retained M)) ev :
  ev + len es ≤ u64_max →
  trim_loop d es ev = (drop (N.to_nat (len es - d)) es, ev + (len es - d)).
Proof.
  revert ev. induction es as [|e es IH]; intros ev Hev; simpl.
  - rewrite (@len_nil (Retained M)). f_equal; lia.
  - rewrite len_cons in *. destruct (N.ltb_spec d (len es + 1)) as [Hd|Hd].
    + rewrite u64_add_small by lia. rewrite IH by lia.
      replace (N.to_nat (len es + 1 - d)) with (S (N.to_nat (len es - d))) by lia.
      simpl. f_equal; lia.
    + replace (len es + 1 - d) with 0 by lia. f_equal; lia.
Qed.

Lemma trim_spec r :
  len (entries r) ≤ u64_max →
  trim r =
    (mkRing (epoch r) (depth r) (next_seq r)
       (drop (N.to_nat (len (entries r) - depth r)) (entries r)),
     len (entries r) - depth r).
Proof. intros ?. unfold trim. rewrite trim_loop_spec by lia. f_equal. Qed.

(** Dropping oldest entries keeps a dense run dense. *)
Lemma drop_dense (es : list (Retained M)) next k :
  len es < next →
  seq <$> es = run (next - len es) (length es) →
  seq <$> drop k es = run (next - len (drop k es)) (length (drop k es)).
Proof.
  intros Hlen Hdense. rewrite fmap_drop, Hdense, drop_run, length_drop, len_drop.
  unfold len in *. destruct (decide (k ≤ length es)%nat); [f_equal; lia|].
  by replace (length es - k)%nat with O by lia.
Qed.

Lemma set_depth_spec r d :
  wf r →
  set_depth r d =
    mkRing (epoch r) d (next_seq r) (drop (N.to_nat (len (entries r) - d)) (entries r)).
Proof. intros [? ? ? ?]. unfold set_depth. rewrite trim_spec; simpl; [done|lia]. Qed.

Lemma set_depth_wf r d : wf r → wf (set_depth r d).
Proof.
  intros Hwf. rewrite set_depth_spec by done. destruct Hwf as [? ? ? ?].
  split; simpl.
  - lia.
  - rewrite len_drop. lia.
  - by apply drop_dense.
  - rewrite len_drop. lia.
Qed.

(** What [append] leaves, with the arithmetic resolved. *)
Lemma append_spec r m :
  wf r → next_seq r < u64_max →
  append r m =
    (mkRing (epoch r) (depth r) (next_seq r + 1)
       (drop (N.to_nat (len (entries r) + 1 - depth r))
          (entries r ++ [mkRetained (next_seq r) m])),
     mkAppend (next_seq r)
       (if depth r =? 0 then 0 else len (entries r) + 1 - depth r)).
Proof.
  intros [? ? ? ?] Hmax. unfold append. rewrite u64_add_small by lia.
  destruct (N.eqb_spec (depth r) 0) as [Hd|Hd].
  - rewrite Hd in *. assert (entries r = []) as -> by (apply len_zero_nil; lia). done.
  - rewrite trim_spec by (simpl; len_lia). simpl.
    by rewrite len_app, len_cons, len_nil, N.add_0_l.
Qed.

Lemma append_wf r m : wf r → next_seq r < u64_max → wf (append r m).1.
Proof.
  intros Hwf Hmax. rewrite append_spec by done. destruct Hwf as [? Hlt Hdense ?].
  assert (len (entries r ++ [mkRetained (next_seq r) m]) = len (entries r) + 1) as Hlen
    by (unfold len; rewrite length_app; simpl; lia).
  split; simpl.
  - lia.
  - rewrite len_drop. lia.
  - apply drop_dense; [lia|].
    rewrite fmap_app, Hdense, Hlen, length_app. simpl.
    replace (next_seq r + 1 - (len (entries r) + 1)) with (next_seq r - len (entries r)) by lia.
    rewrite Nat.add_1_r, run_snoc.
    by replace (next_seq r - len (entries r) + N.of_nat (length (entries r)))
      with (next_seq r) by (unfold len in *; lia).
  - rewrite len_drop. lia.
Qed.

(** *** Readings of the invariant *)

Lemma newest_seq_wf r : wf r → newest_seq r = next_seq r - 1.
Proof. intros [? ? ? ?]. apply u64_sub_small. lia. Qed.

Lemma head_seq_wf r e es :
  wf r → entries r = e :: es → seq e = next_seq r - len (entries r).
Proof. intros [? ? Hd ?] He. rewrite He in *. simpl in Hd. congruence. Qed.

Lemma lookup_seq_wf r i e :
  wf r → entries r !! i = Some e → seq e = next_seq r - len (entries r) + N.of_nat i.
Proof.
  intros [? ? Hd ?] He.
  assert ((seq <$> entries r) !! i = Some (seq e)) as Hs by by rewrite list_lookup_fmap, He.
  rewrite Hd in Hs. by apply lookup_run in Hs as [-> ?].
Qed.

Lemma elem_seq_wf r e :
  wf r → e ∈ entries r → next_seq r - len (entries r) ≤ seq e < next_seq r.
Proof.
  intros Hwf (i&Hi)%list_elem_of_lookup. pose proof (lookup_lt_Some _ _ _ Hi).
  apply lookup_seq_wf in Hi; [|done]. destruct Hwf. unfold len in *. lia.
Qed.
End invariant.

End Ring.

(** ** The abstract channel history and the refinement to it *)
Module RingSpec.
Import Ring.

Section spec.
Context {M Ep : Type} `{EqDecision Ep}.
Implicit Types (r : RetainedRing M Ep) (m : M) (H : list M).

(** Every message of the epoch with the seq it was assigned: 1, 2, 3, ... *)
Definition numbered H : list (Retained M) := zip_with mkRetained (run 1 (length H)) H.

(** The specification state: everything ever appended, how much of its tail is
    still kept, and the bound on that. *)
Record spec := mkSpec { hist : list M; kept : N; bound : N }.

Inductive ring_op := AppendOp (m : M) | SetDepthOp (d : N).

Definition spec_step (s : spec) (op : ring_op) : spec :=
  match op with
  | AppendOp m => mkSpec (hist s ++ [m]) (N.min (kept s + 1) (bound s)) (bound s)
  | SetDepthOp d => mkSpec (hist s) (N.min (kept s) d) d
  end.

Definition ring_step r (op : ring_op) : RetainedRing M Ep :=
  match op with
  | AppendOp m => (append r m).1
  | SetDepthOp d => set_depth r d
  end.

(** The ring implements the specification: its entries are the kept tail of the
    numbered history. *)
Record refines r (s : spec) : Prop := {
  ref_next : next_seq r = len (hist s) + 1;
  ref_depth : depth r = bound s;
  ref_entries : entries r = drop (N.to_nat (len (hist s) - kept s)) (numbered (hist s));
  ref_kept : kept s ≤ len (hist s);
  ref_bound : kept s ≤ bound s;
  ref_range : len (hist s) < u64_max;
}.

Lemma length_numbered H : length (numbered H) = length H.
Proof. unfold numbered. rewrite length_zip_with, length_run. lia. Qed.

Lemma seq_numbered H : seq <$> numbered H = run 1 (length H).
Proof.
  unfold numbered. apply fmap_zip_with_l; [done|]. by rewrite length_run.
Qed.

Lemma numbered_snoc H m :
  numbered (H ++ [m]) = numbered H ++ [mkRetained (len H + 1) m].
Proof.
  unfold numbered. rewrite length_app. simpl. rewrite Nat.add_1_r, run_snoc.
  rewrite zip_with_app by (by rewrite length_run). simpl.
  by rewrite N.add_comm.
Qed.

Lemma lookup_numbered H i e :
  numbered H !! i = Some e → seq e = 1 + N.of_nat i ∧ (i < length H)%nat.
Proof.
  intros Hi. assert ((seq <$> numbered H) !! i = Some (seq e)) as Hs
    by by rewrite list_lookup_fmap, Hi.
  rewrite seq_numbered in Hs. by apply lookup_run in Hs.
Qed.

Lemma elem_of_numbered H e : e ∈ numbered H → 1 ≤ seq e ≤ len H.
Proof.
  intros (i&Hi)%list_elem_of_lookup. apply lookup_numbered in Hi. unfold len. lia.
Qed.

Lemma refines_len r s : refines r s → len (entries r) = kept s.
Proof.
  intros [? ? -> ? ? ?]. rewrite len_drop. unfold len at 1. rewrite length_numbered.
  unfold len in *. lia.
Qed.

Lemma refines_wf r s : refines r s → wf r.
Proof.
  intros Href. pose proof (refines_len _ _ Href) as Hlen.
  destruct Href as [Hn Hd He ? ? ?]. split; [lia|lia| |lia].
  assert (length (entries r) = N.to_nat (kept s)) as Hl by (unfold len in Hlen; lia).
  rewrite Hl, Hlen, He, fmap_drop, seq_numbered, drop_run, Hn.
  f_equal; unfold len in *; lia.
Qed.

Lemma new_refines e d : refines (@new M Ep e d) (mkSpec [] 0 d).
Proof. split; simpl; try done; rewrite ?len_nil; unfold u64_max; lia. Qed.

Lemma append_refines r s m :
  refines r s → len (hist s) + 1 < u64_max →
  refines (append r m).1 (spec_step s (AppendOp m)).
Proof.
  intros Href Hmax. pose proof (refines_wf _ _ Href) as Hwf.
  pose proof (refines_len _ _ Href) as Hlen. destruct Href as [Hn Hd He ? ? ?].
  rewrite append_spec by (done || lia).
  assert (len (hist s ++ [m]) = len (hist s) + 1) as Hl
    by (unfold len; rewrite length_app; simpl; lia).
  split; simpl; rewrite ?Hl; try lia.
  rewrite Hlen, He, Hn, numbered_snoc.
  rewrite <-(drop_app_le (numbered (hist s)) [mkRetained (len (hist s) + 1) m])
    by (rewrite length_numbered; unfold len; lia).
  rewrite drop_drop. f_equal. lia.
Qed.

Lemma set_depth_refines r s d : refines r s → refines (set_depth r d) (spec_step s (SetDepthOp d)).
Proof.
  intros Href. pose proof (refines_wf _ _ Href) as Hwf.
  pose proof (refines_len _ _ Href) as Hlen. destruct Href as [Hn Hd He ? ? ?].
  rewrite set_depth_spec by done. split; simpl; try done; try lia.
  rewrite Hlen, He, drop_drop. f_equal. lia.
Qed.

(** How many appends a run performs. *)
Fixpoint appends (ops : list ring_op) : N :=
  match ops with
  | [] => 0
  | AppendOp _ :: ops => appends ops + 1
  | SetDepthOp _ :: ops => appends ops
  end.

Lemma run_refines ops r s :
  refines r s → len (hist s) + appends ops < u64_max →
  refines (foldl ring_step r ops) (foldl spec_step s ops).
Proof.
  revert r s. induction ops as [|[m|d] ops IH]; intros r s Href Hmax; simpl; [done| |].
  - simpl in Hmax. apply IH; [apply append_refines; [done|lia]|].
    simpl. rewrite len_app, len_cons, len_nil. lia.
  - apply IH; [by apply set_depth_refines|]. exact Hmax.
Qed.

(** Reading after a position is the arithmetic cut: the same entries a scan of the
    window would pick. *)
Lemma since_filter r s :
  wf r → s ≤ u64_max → since r s = filter (λ e, s < seq e) (entries r).
Proof.
  intros Hwf Hs. unfold since, offset_after.
  destruct (entries r) as [|e es] eqn:He; [done|]. rewrite <-He.
  pose proof (head_seq_wf _ _ _ Hwf He) as Hh.
  pose proof Hwf as [Hn Hl _ _].
  set (k := N.to_nat _).
  assert (Hk : s < u64_max → N.of_nat k = N.min (s + 1 - (next_seq r - len (entries r))) (len (entries r))).
  { intros ?. unfold k, usize_saturating, usize_max, u64_saturating_sub, u64_saturating_add. lia. }
  assert (Hk' : s = u64_max → N.of_nat k = len (entries r)).
  { intros ->. unfold k, usize_saturating, usize_max, u64_saturating_sub, u64_saturating_add. lia. }
  rewrite <-(take_drop k (entries r)) at 2. rewrite filter_app.
  rewrite (filter_none _ (take k _)), (filter_all _ (drop k _)); [done| |].
  - apply Forall_lookup_2. intros i x. rewrite lookup_drop. intros Hi.
    pose proof (lookup_lt_Some _ _ _ Hi). apply lookup_seq_wf in Hi; [|done].
    unfold len in *. destruct (decide (s = u64_max)); lia.
  - apply Forall_lookup_2. intros i x [Hi ?]%lookup_take_Some.
    pose proof (lookup_lt_Some _ _ _ Hi). apply lookup_seq_wf in Hi; [|done].
    unfold len in *. destruct (decide (s = u64_max)); lia.
Qed.
End spec.

Arguments ring_op : clear implicits.
Arguments spec : clear implicits.
End RingSpec.

Module RingProps.
Import Ring RingSpec.

Section props.
Context {M Ep : Type} `{EqDecision Ep}.
Implicit Types (r : RetainedRing M Ep).

Lemma numbered_inj (H : list M) e e' :
  e ∈ numbered H → e' ∈ numbered H → seq e = seq e' → e = e'.
Proof.
  intros (i&Hi)%list_elem_of_lookup (j&Hj)%list_elem_of_lookup Heq.
  pose proof (lookup_numbered _ _ _ Hi). pose proof (lookup_numbered _ _ _ Hj).
  assert (i = j) as -> by lia. congruence.
Qed.

(** The kept tail is exactly the history at or above the frontier. *)
Lemma elem_of_kept r s e :
  refines r s →
  e ∈ entries r ↔ e ∈ numbered (hist s) ∧ len (hist s) - kept s < seq e.
Proof.
  intros [? ? -> ? ? ?]. rewrite list_elem_of_lookup. split.
  - intros (i&Hi). rewrite lookup_drop in Hi. split; [by eapply list_elem_of_lookup_2|].
    apply lookup_numbered in Hi. unfold len in *. lia.
  - intros [(i&Hi)%list_elem_of_lookup Hlt].
    pose proof (lookup_numbered _ _ _ Hi) as [Hs ?].
    exists (i - N.to_nat (len (hist s) - kept s))%nat. rewrite lookup_drop.
    rewrite <-Hi. f_equal. unfold len in *. lia.
Qed.

Lemma filter_history r s p :
  refines r s → len (hist s) - kept s ≤ p →
  filter (λ e, p < seq e) (entries r) = filter (λ e, p < seq e) (numbered (hist s)).
Proof.
  intros Href Hp. pose proof Href as [? ? He ? ? ?]. rewrite He.
  set (k := N.to_nat _). rewrite <-(take_drop k (numbered (hist s))) at 2.
  rewrite filter_app, (filter_none _ (take k _)); [done|].
  apply Forall_lookup_2. intros i x [Hi ?]%lookup_take_Some.
  apply lookup_numbered in Hi. lia.
Qed.

Lemma first_owed_missing r s p :
  refines r s → p < len (hist s) - kept s →
  ∃ e, e ∈ numbered (hist s) ∧ p < seq e ∧ e ∉ entries r.
Proof.
  intros Href Hp.
  destruct (lookup_lt_is_Some_2 (numbered (hist s)) (N.to_nat p)) as [e He].
  { rewrite length_numbered. unfold len in *. lia. }
  pose proof (lookup_numbered _ _ _ He) as [Hs ?].
  exists e. split; [by eapply list_elem_of_lookup_2|]. split; [lia|].
  rewrite (elem_of_kept _ _ _ Href). intros [_ ?]. lia.
Qed.

(** A replay within the epoch, decided on positions alone. *)
Lemma replay_by_position r s (res : Resume Ep) :
  refines r s → resume_epoch res = epoch r →
  replay r (Some res) =
    if len (hist s) <? resume_seq res then mkReplay (entries r) (Gap ResumeAhead)
    else if resume_seq res =? len (hist s) then mkReplay [] UpToDate
    else if len (hist s) - kept s <=? resume_seq res
         then mkReplay (since r (resume_seq res)) Exact
         else mkReplay (entries r) (Gap BeyondRetained).
Proof.
  intros Href Hep. pose proof (refines_wf _ _ Href) as Hwf.
  pose proof (refines_len _ _ Href) as Hlen. pose proof Href as [Hn Hd He Hk Hb Hr].
  unfold replay. rewrite decide_False by (intros ?; done).
  rewrite newest_seq_wf, Hn, N.add_sub by done.
  destruct (N.ltb_spec (len (hist s)) (resume_seq res)) as [|Hle]; [done|].
  destruct (N.eqb_spec (resume_seq res) (len (hist s))) as [|Hne]; [done|].
  rewrite u64_add_small by lia. destruct (entries r) as [|o es] eqn:Hes.
  - rewrite len_nil in Hlen. case_bool; [lia|done].
  - pose proof (head_seq_wf _ _ _ Hwf Hes) as ->. rewrite Hes, Hlen, Hn.
    repeat case_bool; done || lia.
Qed.

(** C2: After any sequence of appends and depth retunes (fewer appends than the
    64-bit counter holds) the ring is exactly the kept tail of the whole numbered
    history: seqs are dense from 1, the window is the newest suffix, and how long it
    is follows the drop-oldest bound. *)
Theorem ring_refines_history (e : Ep) d ops :
  appends ops < u64_max →
  refines (foldl ring_step (new e d) ops) (foldl spec_step (mkSpec (M := M) [] 0 d) ops).
Proof. intros. apply run_refines; [apply new_refines|]. simpl. by rewrite len_nil. Qed.

(** C10: A replay is lossless exactly when it says so. It answers [UpToDate] or
    [Exact] iff the resume position is of this epoch, was assigned, and every message
    after it is still retained; it then hands over precisely the history after the
    position. Every gap hands over the whole window and names its true cause. *)
Theorem replay_lossless_iff_no_gap r s (res : Resume Ep) :
  refines r s →
  let a := replay r (Some res) in
  ((decision a = UpToDate ∨ decision a = Exact) ↔
     resume_epoch res = epoch r ∧ resume_seq res ≤ len (hist s) ∧
     ∀ e, e ∈ numbered (hist s) → resume_seq res < seq e → e ∈ entries r) ∧
  ((decision a = UpToDate ∨ decision a = Exact) →
     messages a = filter (λ e, resume_seq res < seq e) (numbered (hist s))) ∧
  ∀ why, decision a = Gap why →
    messages a = entries r ∧
    match why with
    | EpochChanged => resume_epoch res ≠ epoch r
    | ResumeAhead => resume_epoch res = epoch r ∧ len (hist s) < resume_seq res
    | BeyondRetained => resume_epoch res = epoch r ∧
        ∃ e, e ∈ numbered (hist s) ∧ resume_seq res < seq e ∧ e ∉ entries r
    end.
Proof.
  intros Href. cbv zeta. destruct (decide (resume_epoch res = epoch r)) as [Hep|Hep].
  2:{ unfold replay. rewrite decide_True by done. naive_solver. }
  rewrite (replay_by_position r s) by done. pose proof Href as [Hn Hd He Hk Hb Hr].
  destruct (N.ltb_spec (len (hist s)) (resume_seq res)) as [Hlt|Hle]; simpl.
  { split_and!; [|naive_solver|naive_solver]. split; [naive_solver|]. intros (_&?&_). lia. }
  destruct (N.eqb_spec (resume_seq res) (len (hist s))) as [Heq|Hne]; simpl.
  { assert (Hnone : ∀ e, e ∈ numbered (hist s) → ¬ resume_seq res < seq e)
      by (intros e ?%elem_of_numbered; lia).
    split_and!; [naive_solver lia| |naive_solver].
    intros _. symmetry. apply filter_none, Forall_forall. naive_solver. }
  destruct (N.leb_spec (len (hist s) - kept s) (resume_seq res)) as [Hc|Hc]; simpl.
  - rewrite since_filter by (eauto using refines_wf || lia).
    rewrite (filter_history _ _ _ Href Hc).
    split_and!; [|done|naive_solver]. split; [|naive_solver].
    intros _. split_and!; [done|lia|]. intros e Hin ?.
    apply (elem_of_kept _ _ _ Href). split; [done|lia].
  - destruct (first_owed_missing _ _ _ Href Hc) as (e&?&?&?).
    split_and!; [|naive_solver|naive_solver]. split; [naive_solver|].
    intros (_&_&Hall). naive_solver.
Qed.
End props.

(** Three appends under a depth of two. *)
Definition ex_ops : list (ring_op N) := [AppendOp 10; AppendOp 20; AppendOp 30].
Definition ex_ring : RetainedRing N N := foldl ring_step (new 7 2) ex_ops.

Lemma ring_refines_history_witness :
  appends ex_ops < u64_max ∧
  refines (foldl ring_step (new 7 2) ex_ops) (foldl spec_step (mkSpec [] 0 2) ex_ops) ∧
  entries ex_ring = [mkRetained 2 20; mkRetained 3 30].
Proof.
  split_and!; [vm_compute; reflexivity| |vm_compute; reflexivity].
  apply ring_refines_history. vm_compute. reflexivity.
Defined.

Lemma ex_ring_refines : refines ex_ring (mkSpec [10; 20; 30] 2 2).
Proof. apply (run_refines ex_ops (new 7 2) (mkSpec [] 0 2)); [apply new_refines|done]. Qed.

Lemma replay_lossless_iff_no_gap_witness :
  refines ex_ring (mkSpec [10; 20; 30] 2 2) ∧
  messages (replay ex_ring (Some (mkResume 7 2))) = [mkRetained 3 30] ∧
  decision (replay ex_ring (Some (mkResume 7 0))) = Gap BeyondRetained.
Proof.
  split; [exact ex_ring_refines|].
  destruct (replay_lossless_iff_no_gap ex_ring _ (mkResume 7 2) ex_ring_refines) as (_&Hm&_).
  split; [|vm_compute; reflexivity].
  rewrite Hm by (right; vm_compute; reflexivity). vm_compute. reflexivity.
Defined.

End RingProps.
