(* ===== verification/Cursor.v ===== *)
(** * The subscriber cursor ([brenn-queue/src/cursor.rs])

    One subscriber's position on a shared retained ring: the window it is served, the
    boundary where its unseen messages begin, and what an advance passed over. *)

From S2P Require Import Prelude Ring.

#[local] Open Scope N_scope.

Module Cursor.
Import Ring.

(** [Window<M>]. *)
Record Window (M : Type) := mkWindow {
  win_entries : list (Retained M);
  new_from : N;
  push_enabled : bool;
}.
Arguments mkWindow {M}.
Arguments win_entries {M}.
Arguments new_from {M}.
Arguments push_enabled {M}.

Record Advance := mkAdvance { dropped : N; noise_charge : N }.

Record SubscriberCursor := mkCursor { next_owed : N; push_depth : N }.

#[export] Instance SubscriberCursor_eq_dec : EqDecision SubscriberCursor.
Proof. solve_decision. Defined.

Section window_ops.
Context {M : Type}.
Implicit Types (w : Window M).

(** [Window::advance_span]. *)
Definition advance_span w : option (N * N) :=
  if negb (push_enabled w) then None
  else
    l ← last (win_entries w);
    f ← head (win_entries w);
    Some (seq l, seq f).

(** [Window::new_len]. *)
Definition new_len w : N := u64_sub (len (win_entries w)) (new_from w).

(** [Window::new_entries]: the slice [entries[new_from..]]. *)
Definition new_entries w : list (Retained M) := drop (N.to_nat (new_from w)) (win_entries w).
End window_ops.

(** The counting loop of [new_boundary]. *)
Fixpoint boundary_loop (seqs : list N) (owed : N) (n unseen : N) : N * N :=
  match seqs with
  | [] => (n, unseen)
  | s :: rest =>
      boundary_loop rest owed (u64_add n 1) (if owed <=? s then u64_add unseen 1 else unseen)
  end.

(** [new_boundary]. *)
Definition new_boundary (seqs : list N) (owed push_limit : N) : N :=
  let '(n, unseen) := boundary_loop seqs owed 0 0 in
  u64_sub n (N.min unseen (usize_saturating push_limit)).

Section ring_reads.
Context {M Ep : Type} `{EqDecision Ep}.
Implicit Types (r : RetainedRing M Ep) (c : SubscriberCursor).

(** [frontier]. *)
Definition frontier r : N :=
  match oldest_seq r with
  | Some s => s
  | None => u64_add (newest_seq r) 1
  end.

(** [retention_frontier]. *)
Definition retention_frontier r : N := frontier r.

(** [SubscriberCursor::new]. *)
Definition cursor_new (last_seen pd : N) : SubscriberCursor :=
  mkCursor (u64_add last_seen 1) pd.

(** [SubscriberCursor::primed]. *)
Definition primed r (pd : N) : SubscriberCursor := cursor_new (primed_from r pd) pd.

(** [SubscriberCursor::primed_at_least]. *)
Definition primed_at_least r (pd floor : N) : SubscriberCursor :=
  let c := primed r pd in
  mkCursor (N.max (next_owed c) floor) (push_depth c).

(** [SubscriberCursor::set_push_depth]. *)
Definition set_push_depth c (pd : N) : SubscriberCursor := mkCursor (next_owed c) pd.

(** [SubscriberCursor::is_push_enabled]. *)
Definition is_push_enabled c : bool := 0 <? push_depth c.

(** [SubscriberCursor::has_deliverable]. *)
Definition has_deliverable c r : bool :=
  is_push_enabled c && negb (is_empty r) && (next_owed c <=? newest_seq r).

(** [SubscriberCursor::evicted_since]. *)
Definition evicted_since c r (old_frontier : N) : N :=
  if negb (is_push_enabled c) then 0
  else u64_saturating_sub (frontier r) (N.max (next_owed c) old_frontier).

(** [SubscriberCursor::window]. *)
Definition window c r (push_limit retain_limit : N) : Window M :=
  let es := tail r (N.max push_limit retain_limit) in
  mkWindow es (new_boundary (seq <$> es) (next_owed c) push_limit) (0 <? push_limit).

(** [SubscriberCursor::advance]. *)
Definition advance c r (through seen_floor : N) : panics (SubscriberCursor * Advance) :=
  _ ← rust_assert (is_push_enabled c) "cursor: advance over a sampled subscriber";
  _ ← rust_assert (seen_floor <=? u64_saturating_add through 1)
        "cursor: seen_floor is above the window it came from";
  let a := mkAdvance
    (u64_saturating_sub seen_floor (next_owed c))
    (u64_saturating_sub seen_floor (N.max (next_owed c) (frontier r))) in
  Returns
    (if next_owed c <=? through then mkCursor (u64_add through 1) (push_depth c) else c, a).
End ring_reads.

(** [gap_suffix]. *)
Definition gap_suffix {M} (w : list (Retained M)) (resume_at : N) : list (Retained M) * N :=
  let suffix := filter (λ e, resume_at < seq e) w in
  let lost :=
    match suffix with
    | e :: _ => u64_sub (u64_sub (seq e) resume_at) 1
    | [] => 0
    end in
  (suffix, lost).

Section lemmas.
Context {M Ep : Type} `{EqDecision Ep}.
Implicit Types (r : RetainedRing M Ep) (c : SubscriberCursor).

Lemma frontier_wf r : wf r → frontier r = next_seq r - len (entries r).
Proof.
  intros Hwf. unfold frontier, oldest_seq. destruct (entries r) as [|e es] eqn:He; simpl.
  - pose proof Hwf as [? ? _ _]. rewrite newest_seq_wf by done.
    rewrite u64_add_small, len_nil by lia. lia.
  - by rewrite <-He, (head_seq_wf _ _ _ Hwf He).
Qed.

Lemma frontier_bounds r : wf r → 1 ≤ frontier r ≤ next_seq r.
Proof. intros Hwf. rewrite frontier_wf by done. destruct Hwf. lia. Qed.

Lemma len_tail r n : wf r → len (tail r n) = N.min n (len (entries r)).
Proof.
  intros [? ? _ _]. unfold tail. rewrite len_drop. unfold usize_saturating, usize_max. lia.
Qed.

Lemma tail_drop r n :
  wf r → tail r n = drop (N.to_nat (len (entries r) - n)) (entries r).
Proof.
  intros [? ? _ _]. unfold tail, usize_saturating, usize_max. f_equal. lia.
Qed.

(** Filtering a suffix of the window by position is another suffix. *)
Lemma filter_owed_drop r p j :
  wf r →
  filter (λ e, p ≤ seq e) (drop j (entries r)) =
  drop (Nat.max j (N.to_nat (p - frontier r))) (entries r).
Proof.
  intros Hwf. rewrite frontier_wf by done. set (k := N.to_nat (p - _)).
  pose proof Hwf as [? Hl _ _].
  rewrite <-(take_drop (k - j) (drop j (entries r))), filter_app, drop_drop.
  replace (j + (k - j))%nat with (Nat.max j k) by lia.
  rewrite (filter_none _ (take _ _)), (filter_all _ (drop _ _)); [done| |].
  - apply Forall_lookup_2. intros i x. rewrite lookup_drop. intros Hi.
    apply lookup_seq_wf in Hi; [|done]. lia.
  - apply Forall_lookup_2. intros i x [Hi ?]%lookup_take_Some.
    rewrite lookup_drop in Hi. apply lookup_seq_wf in Hi; [|done]. lia.
Qed.

Lemma boundary_loop_spec (es : list (Retained M)) owed n u :
  n + len es ≤ u64_max → u + len es ≤ u64_max →
  boundary_loop (seq <$> es) owed n u =
    (n + len es, u + len (filter (λ e, owed ≤ seq e) es)).
Proof.
  revert n u. induction es as [|e es IH]; intros n u Hn Hu; simpl.
  - f_equal; unfold len; simpl; lia.
  - rewrite len_cons in *. rewrite u64_add_small by lia.
    destruct (N.leb_spec owed (seq e)).
    + rewrite u64_add_small, IH, filter_cons_True, len_cons by (done || lia). f_equal; lia.
    + rewrite IH, filter_cons_False by lia. f_equal; lia.
Qed.

Lemma window_new_from c r pl rl :
  wf r →
  new_from (window c r pl rl) =
    len (tail r (N.max pl rl)) -
    N.min (len (filter (λ e, next_owed c ≤ seq e) (tail r (N.max pl rl)))) pl.
Proof.
  intros Hwf. pose proof Hwf as [? Hlt _ _]. simpl. unfold new_boundary.
  pose proof (len_tail r (N.max pl rl) Hwf).
  rewrite boundary_loop_spec by lia. rewrite !N.add_0_l.
  pose proof (len_filter_le (λ e, next_owed c ≤ seq e) (tail r (N.max pl rl))).
  rewrite u64_sub_small by (unfold usize_saturating; lia).
  f_equal. unfold usize_saturating, usize_max. lia.
Qed.
End lemmas.

End Cursor.

Module CursorProps.
Import Ring Cursor.

Section props.
Context {M Ep : Type} `{EqDecision Ep}.
Implicit Types (r : RetainedRing M Ep) (c : SubscriberCursor).

Lemma drop_clamp {A} (l : list A) n : drop n l = drop (Nat.min n (length l)) l.
Proof.
  destruct (Nat.le_ge_cases n (length l)); [by rewrite Nat.min_l|].
  rewrite Nat.min_r, !drop_ge by lia. done.
Qed.

(** What a push-enabled reader was handed for the first time, new or context. *)
Definition served_unseen c (w : Window M) : N :=
  len (filter (λ e, next_owed c ≤ seq e) (win_entries w)).

Lemma window_span c r pl rl :
  wf r → 0 < pl → entries r ≠ [] →
  advance_span (window c r pl rl) =
    Some (next_seq r - 1, next_seq r - N.min (N.max pl rl) (len (entries r))).
Proof.
  intros Hwf Hpl Hne. unfold advance_span. simpl.
  destruct (N.ltb_spec 0 pl); [|lia]. simpl. rewrite tail_drop by done.
  set (k := N.to_nat (len (entries r) - N.max pl rl)).
  assert (Hlen : 0 < len (entries r)) by (destruct (entries r); [done|rewrite len_cons; lia]).
  assert (Hk : (k < length (entries r))%nat) by (unfold k, len in *; lia).
  rewrite last_lookup, length_drop, lookup_drop.
  destruct (lookup_lt_is_Some_2 (entries r) (k + Nat.pred (length (entries r) - k)))
    as [l Hl]; [lia|]. rewrite Hl. simpl.
  rewrite head_lookup, lookup_drop.
  destruct (lookup_lt_is_Some_2 (entries r) (k + 0)) as [f Hf]; [lia|]. rewrite Hf. simpl.
  rewrite (lookup_seq_wf _ _ _ Hwf Hl), (lookup_seq_wf _ _ _ Hwf Hf).
  destruct Hwf as [? ? _ _]. unfold k, len in *. do 2 f_equal; lia.
Qed.

Lemma window_span_empty c r pl rl : entries r = [] → advance_span (window c r pl rl) = None.
Proof.
  intros He. unfold advance_span. simpl. unfold tail. rewrite He, drop_nil. simpl.
  by destruct (0 <? pl).
Qed.

Lemma served_unseen_window c r pl rl :
  wf r → next_owed c ≤ next_seq r →
  served_unseen c (window c r pl rl) =
    next_seq r - N.max (next_owed c) (next_seq r - N.min (N.max pl rl) (len (entries r))).
Proof.
  intros Hwf Hc. unfold served_unseen. simpl. rewrite tail_drop, filter_owed_drop by done.
  rewrite len_drop, frontier_wf by done. destruct Hwf as [? ? _ _]. lia.
Qed.

Lemma new_entries_window c r pl rl :
  wf r → new_entries (window c r pl rl) = filter (λ e, next_owed c ≤ seq e) (tail r pl).
Proof.
  intros Hwf. unfold new_entries. rewrite window_new_from by done.
  change (win_entries _) with (tail r (N.max pl rl)).
  rewrite !tail_drop, !filter_owed_drop, !len_drop, !drop_drop by done.
  rewrite (drop_clamp _ (_ + _)), (drop_clamp _ (Nat.max _ _)).
  f_equal. unfold len in *. lia.
Qed.

(** The new part of a window is exactly the unseen messages among the newest
    [push_limit] retained ones, whatever the retain limit: a late reader acts on the
    freshest messages, nothing already passed is presented as new, and the rest of
    the widest requested span rides along as context. *)
Theorem window_new_is_newest_unseen c r pl rl :
  wf r →
  win_entries (window c r pl rl) = tail r (N.max pl rl) ∧
  new_entries (window c r pl rl) = filter (λ e, next_owed c ≤ seq e) (tail r pl).
Proof. intros Hwf. split; [done|]. by apply new_entries_window. Qed.

(** Serving a cursor accounts for every message it was owed: the messages the
    window showed it plus the drops the advance reports are exactly the span it moved
    over, and the drops split into what evictions already retired (below the frontier)
    and the noise charged now, with no overlap. The advance itself never unwinds. *)
Lemma serve_accounts_for_every_owed_message c r pl rl :
  wf r → 0 < push_depth c → 1 ≤ next_owed c ≤ next_seq r → 0 < pl → entries r ≠ [] →
  ∃ through floor a,
    advance_span (window c r pl rl) = Some (through, floor) ∧
    advance c r through floor = Returns (mkCursor (next_seq r) (push_depth c), a) ∧
    served_unseen c (window c r pl rl) + dropped a = next_seq r - next_owed c ∧
    noise_charge a + (N.max (frontier r) (next_owed c) - next_owed c) = dropped a.
Proof.
  intros Hwf Hpd Howed Hpl Hne. rewrite window_span, served_unseen_window by (done || lia).
  do 3 eexists. split; [done|]. unfold advance, is_push_enabled. simpl.
  assert (Hlen : 0 < len (entries r)) by (destruct (entries r); [done|rewrite len_cons; lia]).
  pose proof (frontier_wf _ Hwf) as Hf. destruct Hwf as [? ? _ _].
  destruct (N.ltb_spec 0 (push_depth c)); [|lia]. simpl. unfold u64_saturating_add.
  destruct (N.leb_spec (next_seq r - N.min (N.max pl rl) (len (entries r)))
    (N.min (next_seq r - 1 + 1) u64_max)); [|lia]. simpl.
  split.
  { f_equal. destruct (N.leb_spec (next_owed c) (next_seq r - 1)).
    - rewrite u64_add_small by lia. by replace (next_seq r - 1 + 1) with (next_seq r) by lia.
    - destruct c as [o d]. simpl in *. by replace o with (next_seq r) by lia. }
  unfold u64_saturating_sub. simpl. lia.
Qed.

(** Cutting a gap window to what a resuming consumer does not hold counts every
    position lost: the suffix above the resume point plus the reported loss is the
    whole span from the resume point to the newest message. *)
Theorem gap_suffix_counts_every_lost_position r p :
  wf r → p + 1 < next_seq r → entries r ≠ [] →
  let '(suffix, lost) := gap_suffix (entries r) p in
  suffix ≠ [] ∧
  seq <$> suffix = run (p + 1 + lost) (length suffix) ∧
  len suffix + lost = newest_seq r - p.
Proof.
  intros Hwf Hp Hne. unfold gap_suffix.
  assert (Hf : filter (λ e, p < seq e) (entries r) =
    drop (N.to_nat (p + 1 - frontier r)) (entries r)).
  { pose proof (filter_owed_drop r (p + 1) 0 Hwf) as Hd. rewrite drop_0 in Hd.
    rewrite Nat.max_0_l in Hd. rewrite <-Hd. apply list_filter_iff. intros. lia. }
  assert (Hlen : 0 < len (entries r)) by (destruct (entries r); [done|rewrite len_cons; lia]).
  rewrite Hf. set (k := N.to_nat _). rewrite newest_seq_wf by done.
  pose proof (frontier_wf _ Hwf) as Hfr. pose proof Hwf as [? Hl Hdense _].
  pose proof (drop_dense (entries r) (next_seq r) k Hl Hdense) as Hrun.
  assert (Hk : (k < length (entries r))%nat) by (unfold k, len in *; lia).
  assert (Hdl : len (drop k (entries r)) = len (entries r) - N.of_nat k) by apply len_drop.
  destruct (drop k (entries r)) as [|e es] eqn:Hd; [rewrite len_nil in Hdl; lia|].
  assert (seq e = next_seq r - len (e :: es)) as He by (simpl in Hrun; congruence).
  assert (N.of_nat k = p + 1 - frontier r) as Hkn by (unfold k; lia).
  rewrite (u64_sub_small (seq e)), u64_sub_small by lia. split_and!; [done| |lia].
  rewrite Hrun. f_equal. lia.
Qed.
End props.

Import RingProps.
Definition ex_cursor : SubscriberCursor := mkCursor 1 4.

Lemma ex_ring_wf : wf ex_ring.
Proof. exact (RingSpec.refines_wf _ _ ex_ring_refines). Qed.

Lemma window_new_is_newest_unseen_witness :
  wf ex_ring ∧ new_entries (window ex_cursor ex_ring 1 2) = [mkRetained 3 30].
Proof.
  split; [exact ex_ring_wf|].
  destruct (window_new_is_newest_unseen ex_cursor ex_ring 1 2 ex_ring_wf) as [_ Hn].
  rewrite Hn. vm_compute. reflexivity.
Defined.

Lemma gap_suffix_counts_every_lost_position_witness :
  wf ex_ring ∧ 0 + 1 < next_seq ex_ring ∧ entries ex_ring ≠ [] ∧
  (gap_suffix (entries ex_ring) 0).1 ≠ [] ∧ (gap_suffix (entries ex_ring) 0).2 = 1.
Proof.
  assert (entries ex_ring ≠ []) as Hne by (vm_compute; discriminate).
  assert (0 + 1 < next_seq ex_ring) as Hlt by (vm_compute; reflexivity).
  pose proof (gap_suffix_counts_every_lost_position ex_ring 0 ex_ring_wf Hlt Hne) as Hg.
  destruct (gap_suffix (entries ex_ring) 0) as [su lo] eqn:Heq. destruct Hg as (Hs&_&_).
  split_and!; [exact ex_ring_wf|done|done|done|].
  vm_compute in Heq. by inversion Heq.
Defined.
End CursorProps.
