(* ===== verification/Deferred.v ===== *)
(** * The deferred set ([brenn-queue/src/deferred.rs])

    Messages published with a future release time, parked until it arrives. The
    vector is kept sorted by [(release_at, id)]; [DeferredSpec] shows it implements a
    finite map from identities to parked messages whose release order is the sort
    order. *)

From S2P Require Import Prelude.

#[local] Open Scope N_scope.

Module Deferred.

(** [Deferred<M>]. *)
Record Deferred (M : Type) := mkDeferred {
  id : N;
  sender : string;
  release_at : N;
  payload : M;
}.
Arguments mkDeferred {M}.
Arguments id {M}.
Arguments sender {M}.
Arguments release_at {M}.
Arguments payload {M}.

Record QuotaExceeded := mkQuotaExceeded { quota_cap : N }.
Inductive NoSuchDeferred := mkNoSuchDeferred (missing : N).

(** [DeferredSet<M>]. *)
Record DeferredSet (M : Type) := mkSet {
  cap : option N;
  next_id : N;
  parked : list (Deferred M);
}.
Arguments mkSet {M}.
Arguments cap {M}.
Arguments next_id {M}.
Arguments parked {M}.

Section operations.
Context {M : Type}.
Implicit Types (s : DeferredSet M) (e : Deferred M).

(** [DeferredSet::new]. *)
Definition set_new (c : option N) : DeferredSet M := mkSet c 1 [].

(** [DeferredSet::set_cap]. *)
Definition set_cap s (c : option N) : DeferredSet M := mkSet c (next_id s) (parked s).

(** The tuple comparison [(e.release_at, e.id) < (release_at, id)]. *)
Definition before e (at_ i : N) : bool :=
  (release_at e <? at_) || ((release_at e =? at_) && (id e <? i)).

(** [DeferredSet::position_for]. *)
Definition position_for (es : list (Deferred M)) (at_ i : N) : nat :=
  prefix_count (λ e, before e at_ i) es.

(** [DeferredSet::park]. *)
Definition park s (who : string) (m : M) (at_ : N)
    : DeferredSet M * result N QuotaExceeded :=
  let full :=
    match cap s with
    | Some c => c <=? len (parked s)
    | None => false
    end in
  if full then (s, Err (mkQuotaExceeded (default 0 (cap s))))
  else
    let i := next_id s in
    let e := mkDeferred i who at_ m in
    let pos := position_for (parked s) at_ i in
    (mkSet (cap s) (u64_add (next_id s) 1) (vec_insert pos e (parked s)), Ok i).

(** [DeferredSet::next_release]. *)
Definition next_release s : option N := release_at <$> head (parked s).

(** [DeferredSet::release_due]. *)
Definition release_due s (now : N) : DeferredSet M * list (Deferred M) :=
  let due := prefix_count (λ e, release_at e <=? now) (parked s) in
  (mkSet (cap s) (next_id s) (drop due (parked s)), take due (parked s)).

(** [DeferredSet::for_sender]. *)
Definition for_sender s (who : string) : list (Deferred M) :=
  filter (λ e, sender e = who) (parked s).

(** [DeferredSet::get]. *)
Definition get s (i : N) : option (Deferred M) :=
  snd <$> list_find (λ e, id e = i) (parked s).

(** [entries.iter().position(|e| e.id == id)]. *)
Definition position s (i : N) : option nat :=
  fst <$> list_find (λ e, id e = i) (parked s).

(** [DeferredSet::cancel]. *)
Definition cancel s (i : N) : DeferredSet M * option (Deferred M) :=
  match list_find (λ e, id e = i) (parked s) with
  | None => (s, None)
  | Some (at_, e) => (mkSet (cap s) (next_id s) (vec_remove at_ (parked s)), Some e)
  end.

(** The payload assignment [entries[at].message = message]. *)
Definition with_payload e (m : option M) : Deferred M :=
  mkDeferred (id e) (sender e) (release_at e) (default (payload e) m).

(** [DeferredSet::edit]. *)
Definition edit s (i : N) (m : option M) (at_ : option N)
    : DeferredSet M * result unit NoSuchDeferred :=
  match list_find (λ e, id e = i) (parked s) with
  | None => (s, Err (mkNoSuchDeferred i))
  | Some (pos, e) =>
      let e' := with_payload e m in
      let es := <[pos := e']> (parked s) in
      match at_ with
      | None => (mkSet (cap s) (next_id s) es, Ok ())
      | Some t =>
          let es := vec_remove pos es in
          let moved := mkDeferred (id e') (sender e') t (payload e') in
          (mkSet (cap s) (next_id s) (vec_insert (position_for es t i) moved es), Ok ())
      end
  end.
End operations.

(** Strictly earlier in release order. *)
Definition released_before {M} (a b : Deferred M) : Prop :=
  release_at a < release_at b ∨ (release_at a = release_at b ∧ id a < id b).

(** The set invariant: sorted by [(release_at, id)], identities unique and below the
    next one to be minted. *)
Record wf {M} (s : DeferredSet M) : Prop := {
  wf_sorted : StronglySorted released_before (parked s);
  wf_ids : NoDup (id <$> parked s);
  wf_minted : Forall (λ e, id e < next_id s) (parked s);
  wf_range : next_id s ≤ u64_max;
}.

Section invariant.
Context {M : Type}.
Implicit Types (s : DeferredSet M) (e : Deferred M) (es : list (Deferred M)).

Lemma before_spec e t i :
  before e t i = true ↔ release_at e < t ∨ (release_at e = t ∧ id e < i).
Proof. unfold before. rewrite orb_true_iff, andb_true_iff. rewrite !N.ltb_lt, N.eqb_eq. done. Qed.

Lemma insert_sorted es e :
  StronglySorted released_before es → id e ∉ id <$> es →
  StronglySorted released_before (vec_insert (position_for es (release_at e) (id e)) e es).
Proof.
  intros Hs Hfresh. unfold vec_insert, position_for.
  set (p := λ e', before e' (release_at e) (id e)). set (n := prefix_count p es).
  pose proof (take_prefix_count p es) as Htake. fold n in Htake.
  assert (Hdrop : Forall (λ x, p x = false) (drop n es)).
  { apply (drop_prefix_sorted released_before); [done|]. unfold p, released_before.
    intros x y Hxy Hx. apply not_true_iff_false in Hx. apply not_true_iff_false.
    rewrite before_spec in *. lia. }
  pose proof (take_drop n es) as Htd. rewrite <-Htd in Hs, Hfresh.
  apply StronglySorted_app_iff in Hs as (?&?&Hf). rewrite fmap_app in Hfresh.
  apply StronglySorted_app_iff. split_and!; [done| |].
  - constructor; [done|]. rewrite Forall_forall in Hdrop |- *. intros x Hx.
    specialize (Hdrop _ Hx). apply not_true_iff_false in Hdrop. unfold p in Hdrop.
    rewrite before_spec in Hdrop. unfold released_before.
    assert (id x ≠ id e) by (intros Heq; apply Hfresh; rewrite <-Heq;
      apply elem_of_app; right; by apply list_elem_of_fmap_2). lia.
  - rewrite Forall_forall in Hf, Htake |- *. intros x Hx. constructor; [|by apply Hf].
    specialize (Htake _ Hx). unfold p in Htake. rewrite before_spec in Htake. done.
Qed.

Lemma set_new_wf c : wf (@set_new M c).
Proof. split; simpl; [constructor|constructor|constructor|unfold u64_max; lia]. Qed.

Lemma set_cap_wf s c : wf s → wf (set_cap s c).
Proof. intros [? ? ? ?]. by split. Qed.

Lemma wf_fresh s : wf s → next_id s ∉ id <$> parked s.
Proof.
  intros [_ _ Hm _] (e&He&Hin)%list_elem_of_fmap. rewrite Forall_forall in Hm.
  specialize (Hm _ Hin). lia.
Qed.

Lemma park_wf s who m t : wf s → next_id s < u64_max → wf (park s who m t).1.
Proof.
  intros Hwf Hmax. unfold park. case_match; [done|]. simpl.
  rewrite u64_add_small by lia. pose proof (wf_fresh _ Hwf) as Hfresh.
  destruct Hwf as [? ? ? ?]. split; simpl; [|rewrite vec_insert_perm|rewrite vec_insert_perm|lia].
  - apply (insert_sorted _ (mkDeferred (next_id s) who t m)); done.
  - simpl. by constructor.
  - constructor; [simpl; lia|]. eapply Forall_impl; [done|]. simpl. lia.
Qed.

Lemma release_due_wf s now : wf s → wf (release_due s now).1.
Proof.
  intros [? Hid Hm ?]. unfold release_due. split; simpl.
  - by apply StronglySorted_drop.
  - rewrite <-(take_drop (prefix_count (λ e, release_at e <=? now) (parked s)) (parked s)) in Hid.
    rewrite fmap_app in Hid. by apply NoDup_app in Hid as (_&_&?).
  - by apply Forall_drop.
  - done.
Qed.

Lemma remove_ids (es : list (Deferred M)) pos e :
  es !! pos = Some e → NoDup (id <$> es) →
  NoDup (id <$> vec_remove pos es) ∧ id e ∉ id <$> vec_remove pos es.
Proof.
  intros Hpos. rewrite <-(vec_remove_perm pos es e Hpos) at 1. simpl.
  by intros [? ?]%NoDup_cons.
Qed.

Lemma remove_Forall (P : Deferred M → Prop) es pos e :
  es !! pos = Some e → Forall P es → P e ∧ Forall P (vec_remove pos es).
Proof.
  intros Hpos. rewrite <-(vec_remove_perm pos es e Hpos) at 1. by intros [? ?]%Forall_cons.
Qed.

Lemma cancel_wf s i : wf s → wf (cancel s i).1.
Proof.
  intros [? Hid Hm ?]. unfold cancel.
  destruct (list_find _ _) as [[pos e]|] eqn:Hf; [|by split].
  apply list_find_from_start in Hf as [Hpos _]. split; simpl; [| | |done].
  - by apply StronglySorted_remove.
  - by apply (remove_ids _ pos e).
  - by apply (remove_Forall _ _ pos e).
Qed.

(** Replacing a payload in place moves nothing in the order. *)
Lemma insert_same_key_sorted es pos e m :
  es !! pos = Some e → StronglySorted released_before es →
  StronglySorted released_before (<[pos := with_payload e m]> es).
Proof.
  intros Hpos Hs. rewrite insert_take_drop by (by eapply lookup_lt_Some).
  rewrite <-(take_drop_middle es pos e Hpos) in Hs.
  apply StronglySorted_app_iff in Hs as (?&Hd&Hf). apply StronglySorted_inv in Hd as [? Hd].
  apply StronglySorted_app_iff. split_and!; [done|by constructor|].
  eapply Forall_impl; [exact Hf|]. intros x [? ?]%Forall_cons. by constructor.
Qed.

Lemma insert_payload_ids es pos e m :
  es !! pos = Some e → id <$> (<[pos := with_payload e m]> es) = id <$> es.
Proof.
  intros Hpos. rewrite list_fmap_insert. apply list_insert_id. simpl.
  by rewrite list_lookup_fmap, Hpos.
Qed.

Lemma edit_wf s i m t : wf s → wf (edit s i m t).1.
Proof.
  intros [Hso Hid Hm ?]. unfold edit.
  destruct (list_find _ _) as [[pos e]|] eqn:Hf; [|by split].
  apply list_find_from_start in Hf as [Hpos Hi].
  set (es := <[pos := with_payload e m]> (parked s)).
  assert (Hids : id <$> es = id <$> parked s) by (by apply insert_payload_ids).
  assert (Hso' : StronglySorted released_before es) by (by apply insert_same_key_sorted).
  assert (Hm' : Forall (λ e, id e < next_id s) es).
  { rewrite <-Forall_fmap with (f := id) (P := λ i, i < next_id s), Hids, Forall_fmap. done. }
  assert (Hpos' : es !! pos = Some (with_payload e m))
    by (apply list_lookup_insert_eq; by eapply lookup_lt_Some).
  destruct t as [t|]; simpl; [|split; simpl; rewrite ?Hids; done].
  rewrite <-Hids in Hid. destruct (remove_ids es pos _ Hpos' Hid) as [Hnd Hnin].
  destruct (remove_Forall _ es pos _ Hpos' Hm') as [Hme Hmr]. simpl in Hnin, Hme.
  subst i. split; simpl; [|rewrite vec_insert_perm|rewrite vec_insert_perm|done].
  - apply (insert_sorted _ (mkDeferred (id e) (sender e) t (default (payload e) m)));
      [by apply StronglySorted_remove|done].
  - simpl. by constructor.
  - by constructor.
Qed.
End invariant.

#[export] Hint Resolve set_new_wf set_cap_wf park_wf release_due_wf cancel_wf edit_wf : brenn.

End Deferred.

(** ** The abstract specification: a finite map of parked messages *)
Module DeferredSpec.
Import Deferred.

Section spec.
Context {M : Type}.
Implicit Types (s : DeferredSet M) (e : Deferred M).

Definition keyed (es : list (Deferred M)) : list (N * Deferred M) := (λ e, (id e, e)) <$> es.

Definition contents s : gmap N (Deferred M) := list_to_map (keyed (parked s)).

(** The specification of an edit: new payload, new release time, same identity. *)
Definition rescheduled (m : option M) (t : option N) e : Deferred M :=
  mkDeferred (id e) (sender e) (default (release_at e) t) (default (payload e) m).

Definition at_cap s : Prop := match cap s with Some c => c ≤ len (parked s) | None => False end.

Lemma fst_keyed es : fst <$> keyed es = id <$> es.
Proof. unfold keyed. rewrite <-list_fmap_compose. done. Qed.

Lemma lookup_contents s i e :
  NoDup (id <$> parked s) → contents s !! i = Some e ↔ e ∈ parked s ∧ id e = i.
Proof.
  intros Hnd. unfold contents. rewrite <-elem_of_list_to_map by (by rewrite fst_keyed).
  unfold keyed. rewrite list_elem_of_fmap. naive_solver.
Qed.

Lemma contents_ext s s' :
  NoDup (id <$> parked s) → parked s ≡ₚ parked s' → contents s = contents s'.
Proof.
  intros Hnd Hp. unfold contents. apply list_to_map_proper; [by rewrite fst_keyed|].
  unfold keyed. by rewrite Hp.
Qed.

Lemma get_contents s i : wf s → get s i = contents s !! i.
Proof.
  intros [_ Hnd _ _]. unfold get. destruct (list_find _ _) as [[k e]|] eqn:Hf; simpl.
  - apply list_find_from_start in Hf as [Hk Hi]. symmetry. apply lookup_contents; [done|].
    split; [by eapply list_elem_of_lookup_2|done].
  - apply list_find_None in Hf. rewrite Forall_forall in Hf. symmetry.
    apply eq_None_not_Some. intros [e He]. apply lookup_contents in He; naive_solver.
Qed.

Lemma list_find_contents s i :
  wf s →
  match list_find (λ e, id e = i) (parked s) with
  | Some (k, e) => parked s !! k = Some e ∧ id e = i ∧ contents s !! i = Some e
  | None => contents s !! i = None
  end.
Proof.
  intros Hwf. pose proof (get_contents s i Hwf) as Hg. unfold get in Hg.
  destruct (list_find _ _) as [[k e]|] eqn:Hf; simpl in Hg; [|done].
  apply list_find_from_start in Hf as [? ?]. done.
Qed.

Lemma contents_park s who m t :
  wf s → ¬ at_cap s →
  (park s who m t).2 = Ok (next_id s) ∧
  contents (park s who m t).1 = <[next_id s := mkDeferred (next_id s) who t m]> (contents s).
Proof.
  intros Hwf Hcap. unfold park, at_cap in *.
  assert (match cap s with Some c => c <=? len (parked s) | None => false end = false) as ->.
  { destruct (cap s); [|done]. apply N.leb_gt. lia. }
  simpl. split; [done|]. pose proof (wf_fresh _ Hwf). destruct Hwf as [? ? ? ?].
  unfold contents at 1. simpl. unfold keyed. rewrite (list_to_map_proper _
    (keyed (mkDeferred (next_id s) who t m :: parked s))); [done| |].
  - change (_ <$> vec_insert ?a ?b ?c) with (keyed (vec_insert a b c)).
    rewrite fst_keyed, vec_insert_perm. simpl. by constructor.
  - unfold keyed. by rewrite vec_insert_perm.
Qed.

Lemma contents_cancel s i :
  wf s → (cancel s i).2 = contents s !! i ∧ contents (cancel s i).1 = delete i (contents s).
Proof.
  intros Hwf. pose proof (list_find_contents s i Hwf) as Hf. unfold cancel.
  destruct (list_find _ _) as [[k e]|]; simpl.
  - destruct Hf as (Hk&Hi&He). split; [done|]. destruct Hwf as [? Hnd ? ?].
    destruct (remove_ids _ _ _ Hk Hnd) as [? Hnin].
    apply map_eq. intros j. apply option_eq. intros x.
    rewrite lookup_delete_Some, !lookup_contents by done. simpl.
    rewrite <-(vec_remove_perm k (parked s) e Hk) at 2. rewrite elem_of_cons.
    split; [|naive_solver]. intros [Hx Hid]. split; [|naive_solver].
    intros ->. apply Hnin. rewrite Hi, <-Hid. by apply list_elem_of_fmap_2.
  - split; [done|]. by rewrite delete_id.
Qed.

Lemma edit_perm s i m t k e :
  list_find (λ e, id e = i) (parked s) = Some (k, e) →
  parked (edit s i m t).1 ≡ₚ rescheduled m t e :: vec_remove k (parked s).
Proof.
  intros Hf. unfold edit. rewrite Hf. apply list_find_from_start in Hf as [Hk Hi].
  assert (Hl : (k < length (parked s))%nat) by (by eapply lookup_lt_Some).
  assert (Hrem : vec_remove k (<[k := with_payload e m]> (parked s)) = vec_remove k (parked s)).
  { unfold vec_remove. rewrite take_insert_ge, drop_insert_lt by lia. done. }
  destruct t as [t|]; simpl.
  - rewrite vec_insert_perm, Hrem. done.
  - rewrite <-Hrem. symmetry. apply (vec_remove_perm k _ (rescheduled m None e)).
    by apply list_lookup_insert_eq.
Qed.

Lemma contents_edit s i m t :
  wf s →
  contents (edit s i m t).1 = alter (rescheduled m t) i (contents s) ∧
  ((edit s i m t).2 = Ok () ↔ is_Some (contents s !! i)).
Proof.
  intros Hwf. pose proof (list_find_contents s i Hwf) as Hf.
  destruct (list_find _ _) as [[k e]|] eqn:Hfind.
  - destruct Hf as (Hk&Hi&He). split.
    2:{ unfold edit. rewrite Hfind, He. destruct t; simpl; naive_solver. }
    pose proof (edit_wf s i m t Hwf) as [_ Hnd' _ _].
    pose proof (edit_perm s i m t k e Hfind) as Hperm. destruct Hwf as [_ Hnd _ _].
    destruct (remove_ids _ _ _ Hk Hnd) as [? Hnin].
    apply map_eq. intros j. apply option_eq. intros x.
    rewrite lookup_contents, Hperm, elem_of_cons by done.
    rewrite lookup_alter. case_decide as Hij; [subst j|].
    + rewrite He. simpl. split; [|naive_solver]. intros [[->|Hx] Hid]; [done|].
      destruct Hnin. rewrite Hi, <-Hid. by apply list_elem_of_fmap_2.
    + rewrite lookup_contents by done.
      rewrite <-(vec_remove_perm k (parked s) e Hk) at 2. rewrite elem_of_cons.
      naive_solver.
  - unfold edit. rewrite Hfind, Hf. simpl. split; [|naive_solver].
    apply map_eq. intros j. rewrite lookup_alter. case_decide; [subst|done]. by rewrite Hf.
Qed.

Lemma release_due_split s now :
  wf s →
  (release_due s now).2 = filter (λ e, release_at e ≤ now) (parked s) ∧
  parked (release_due s now).1 = filter (λ e, ¬ release_at e ≤ now) (parked s).
Proof.
  intros [Hs _ _ _]. unfold release_due. simpl.
  set (p := λ e, release_at e <=? now). set (n := prefix_count p (parked s)).
  assert (Ht : Forall (λ e, release_at e ≤ now) (take n (parked s))).
  { eapply Forall_impl; [apply take_prefix_count|]. unfold p. intros x ?%N.leb_le. done. }
  assert (Hd : Forall (λ e, ¬ release_at e ≤ now) (drop n (parked s))).
  { eapply Forall_impl; [apply (drop_prefix_sorted released_before); [done|]|].
    - unfold p, released_before. intros x y ? ?%N.leb_gt. apply N.leb_gt. lia.
    - unfold p. intros x ?%N.leb_gt. lia. }
  pose proof (take_drop n (parked s)) as Htd. rewrite <-Htd at 2 4. rewrite !filter_app.
  rewrite (filter_all _ _ Ht), (filter_all _ _ Hd).
  rewrite (filter_none _ _ Hd), app_nil_r, filter_none; [done|].
  eapply Forall_impl; [exact Ht|]. naive_solver.
Qed.
End spec.
End DeferredSpec.

Module DeferredProps.
Import Deferred DeferredSpec.

Section props.
Context {M : Type}.
Implicit Types (s : DeferredSet M).

(** C8: The sorted vector implements a finite map of parked messages keyed by
    identity. A park under the cap adds one fresh identity and stays within the cap; at
    the cap it is refused and changes nothing; a cancel removes exactly the named entry
    and answers it; an edit rewrites exactly the named entry's payload and time, keeping
    its identity and sender, and errs precisely when nothing of that identity is held. *)
Theorem deferred_set_refines_map s :
  wf s →
  (∀ i, get s i = contents s !! i) ∧
  (∀ who m t, at_cap s →
     (park s who m t).1 = s ∧ ∃ c, cap s = Some c ∧ (park s who m t).2 = Err (mkQuotaExceeded c)) ∧
  (∀ who m t, ¬ at_cap s →
     contents s !! next_id s = None ∧
     (park s who m t).2 = Ok (next_id s) ∧
     contents (park s who m t).1 =
       <[next_id s := mkDeferred (next_id s) who t m]> (contents s) ∧
     ∀ c, cap s = Some c → len (parked (park s who m t).1) ≤ c) ∧
  (∀ i, (cancel s i).2 = contents s !! i ∧ contents (cancel s i).1 = delete i (contents s)) ∧
  (∀ i m t, contents (edit s i m t).1 = alter (rescheduled m t) i (contents s) ∧
     ((edit s i m t).2 = Ok () ↔ is_Some (contents s !! i))).
Proof.
  intros Hwf. split_and!.
  - intros i. by apply get_contents.
  - intros who m t Hcap. unfold at_cap, park in *. destruct (cap s) as [c|]; [|done].
    destruct (N.leb_spec c (len (parked s))); [|lia]. eauto.
  - intros who m t Hcap. destruct (contents_park s who m t Hwf Hcap) as [Hok Hc].
    split_and!; [|done|done|].
    + apply eq_None_not_Some. intros [e He]. pose proof (wf_fresh _ Hwf) as Hf.
      destruct Hwf as [_ Hnd _ _]. apply lookup_contents in He as [Hin Hi]; [|done].
      apply Hf. rewrite <-Hi. by apply list_elem_of_fmap_2.
    + intros c Hc'. unfold at_cap, park in *. rewrite Hc' in *.
      destruct (N.leb_spec c (len (parked s))); [lia|]. simpl.
      unfold len in *. rewrite vec_insert_perm. simpl. lia.
  - intros i. by apply contents_cancel.
  - intros i m t. by apply contents_edit.
Qed.

(** A release pass takes exactly the entries due at or before [now], in release
    order with equal times in identity order, leaves exactly the others, and afterwards
    the next deadline is strictly later than [now]. *)
Theorem release_due_takes_exactly_the_due s now :
  wf s →
  let '(s', due) := release_due s now in
  due = filter (λ e, release_at e ≤ now) (parked s) ∧
  parked s' = filter (λ e, ¬ release_at e ≤ now) (parked s) ∧
  StronglySorted released_before due ∧
  ∀ t, next_release s' = Some t → now < t.
Proof.
  intros Hwf. destruct (release_due_split s now Hwf) as [Hd Hr].
  destruct (release_due s now) as [s' due] eqn:E. simpl in *. split_and!; [done|done| |].
  - destruct Hwf as [Hs _ _ _]. unfold release_due in E. injection E as _ <-.
    rewrite <-(take_drop (prefix_count (λ e, release_at e <=? now) (parked s)) (parked s)) in Hs.
    by apply StronglySorted_app_iff in Hs as (?&_&_).
  - intros t. unfold next_release. rewrite Hr.
    destruct (filter (λ e, ¬ release_at e ≤ now) (parked s)) as [|e es] eqn:Hf; simpl; [done|].
    intros [= <-].
    assert (e ∈ filter (λ e, ¬ release_at e ≤ now) (parked s)) as Hin
      by (rewrite Hf; set_solver). apply list_elem_of_filter in Hin as [? _]. lia.
Qed.
End props.

Definition ex_set : DeferredSet N :=
  (park (park (park (set_new (Some 3)) "a" 1 50).1 "b" 2 20).1 "a" 3 20).1.

Lemma ex_set_wf : wf ex_set.
Proof. unfold ex_set. repeat (apply park_wf; [|vm_compute; reflexivity]). apply set_new_wf. Qed.

Lemma deferred_set_refines_map_witness :
  wf ex_set ∧ (cancel ex_set 2).2 = contents ex_set !! 2 ∧ is_Some (contents ex_set !! 2).
Proof.
  destruct (deferred_set_refines_map ex_set ex_set_wf) as (_&_&_&Hc&_).
  split_and!; [exact ex_set_wf|apply Hc|]. vm_compute. eexists. reflexivity.
Defined.

Lemma release_due_takes_exactly_the_due_witness :
  wf ex_set ∧ id <$> (release_due ex_set 30).2 = [2; 3].
Proof.
  pose proof (release_due_takes_exactly_the_due ex_set 30 ex_set_wf) as Hr.
  destruct (release_due ex_set 30) as [s' due] eqn:E. destruct Hr as (Hdue&_).
  split; [exact ex_set_wf|]. simpl. rewrite Hdue. vm_compute. reflexivity.
Defined.
End DeferredProps.
