(* ===== verification/RingCore.v ===== *)
(** * One channel's non-durable state ([brenn-queue/src/store.rs])

    [RingCore] composes the retained ring, one cursor per subscriber and the deferred
    set. Hash-map iteration order is not specified by the source, so overflow reports
    are read up to permutation. [CoreRun] runs the operations in any order, a window
    ([OpWindow]) and the advance over it ([OpAdvance]) being separate, as they are for the
    hosts. [CoreProps] proves the channel invariant over every operation and the accounting
    theorem over whole runs. *)

From S2P Require Import Prelude Ring Cursor Deferred.

#[local] Open Scope N_scope.

Module Core.
Import Ring Cursor.

(** [CursorOverflow<S>]. *)
Record CursorOverflow (S : Type) := mkOverflow { subscriber : S; evicted : N }.
Arguments mkOverflow {S}.
Arguments subscriber {S}.
Arguments evicted {S}.

(** [AppendReport<S>]. *)
Record AppendReport (S : Type) := mkAppendReport {
  report_seq : N;
  report_overflow : list (CursorOverflow S);
}.
Arguments mkAppendReport {S}.
Arguments report_seq {S}.
Arguments report_overflow {S}.

(** [ReleaseReport<M, S>]. *)
Record ReleaseReport (M S : Type) := mkReleaseReport {
  released : list (Retained M);
  release_overflow : list (CursorOverflow S);
}.
Arguments mkReleaseReport {M S}.
Arguments released {M S}.
Arguments release_overflow {M S}.

Inductive Attached := Created | Existing.

(** [OwnedDeferred<'a, M>]. *)
Inductive OwnedDeferred (M : Type) :=
| Owned (i : N) (entry : Deferred.Deferred M)
| WrongSender (owner : string)
| PastCutoff (release_at : N)
| NotFound.
Arguments Owned {M}.
Arguments WrongSender {M}.
Arguments PastCutoff {M}.
Arguments NotFound {M}.

(** [RingCore<M, Ep, S>]. *)
Record RingCore (M Ep S : Type) `{Countable S} := mkCore {
  ring : RetainedRing M Ep;
  deferred : Deferred.DeferredSet M;
  cursors : gmap S SubscriberCursor;
}.
Arguments mkCore {M Ep S _ _}.
Arguments ring {M Ep S _ _}.
Arguments deferred {M Ep S _ _}.
Arguments cursors {M Ep S _ _}.

Section merge.
Context {S : Type} `{EqDecision S}.

(** One iteration of [merge_overflow]'s loop. *)
Definition merge_event (into : list (CursorOverflow S)) (ev : CursorOverflow S)
    : list (CursorOverflow S) :=
  match list_find (λ e, subscriber e = subscriber ev) into with
  | Some (i, e) => <[i := mkOverflow (subscriber e) (u64_add (evicted e) (evicted ev))]> into
  | None => into ++ [ev]
  end.

(** [merge_overflow]. *)
Definition merge_overflow (into more : list (CursorOverflow S)) : list (CursorOverflow S) :=
  foldl merge_event into more.
End merge.

Section operations.
Context {M Ep S : Type} `{EqDecision Ep, Countable S}.
Implicit Types (c : RingCore M Ep S) (m : M) (s : S).

Definition with_ring c (r : RetainedRing M Ep) : RingCore M Ep S :=
  mkCore r (deferred c) (cursors c).
Definition with_cursors c (cs : gmap S SubscriberCursor) : RingCore M Ep S :=
  mkCore (ring c) (deferred c) cs.
Definition with_deferred c (d : Deferred.DeferredSet M) : RingCore M Ep S :=
  mkCore (ring c) d (cursors c).

(** [RingCore::new]. *)
Definition core_new (e : Ep) (d : N) : RingCore M Ep S :=
  mkCore (new e d) (Deferred.set_new (Some d)) ∅.

(** [RingCore::overflow_since]. *)
Definition overflow_since c (f : N) : list (CursorOverflow S) :=
  omap (λ p : S * SubscriberCursor,
    let n := evicted_since p.2 (ring c) f in
    if 0 <? n then Some (mkOverflow p.1 n) else None)
    (map_to_list (cursors c)).

(** [RingCore::set_depth]. *)
Definition core_set_depth c (d : N) : RingCore M Ep S * list (CursorOverflow S) :=
  let f := retention_frontier (ring c) in
  let c' := mkCore (set_depth (ring c) d) (Deferred.set_cap (deferred c) (Some d)) (cursors c) in
  (c', overflow_since c' f).

(** [RingCore::append]. *)
Definition core_append c m : RingCore M Ep S * AppendReport S :=
  let f := retention_frontier (ring c) in
  let '(r', a) := append (ring c) m in
  let c' := with_ring c r' in
  if append_evicted a =? 0 then (c', mkAppendReport (append_seq a) [])
  else (c', mkAppendReport (append_seq a) (overflow_since c' f)).

(** [RingCore::attach]. *)
Definition attach c s (pd : N) : RingCore M Ep S * Attached :=
  if pd =? 0 then (with_cursors c (delete s (cursors c)), Existing)
  else
    match cursors c !! s with
    | Some cur => (with_cursors c (<[s := set_push_depth cur pd]> (cursors c)), Existing)
    | None => (with_cursors c (<[s := primed (ring c) pd]> (cursors c)), Created)
    end.

(** [RingCore::attach_from]. *)
Definition attach_from c s (pd floor_next_owed : N) : panics (RingCore M Ep S * Attached) :=
  _ ← rust_assert (0 <? pd) "ring: attach_from with a sampled push depth";
  let hd := newest_seq (ring c) in
  _ ← rust_assert (floor_next_owed <=? u64_add hd 1)
        "ring: attach_from floor is above the next seq";
  Returns
    match cursors c !! s with
    | Some cur => (with_cursors c (<[s := set_push_depth cur pd]> (cursors c)), Existing)
    | None =>
        (with_cursors c (<[s := primed_at_least (ring c) pd floor_next_owed]> (cursors c)),
         Created)
    end.

(** [RingCore::detach]. *)
Definition detach c s : RingCore M Ep S * option SubscriberCursor :=
  (with_cursors c (delete s (cursors c)), cursors c !! s).

(** [RingCore::is_attached]. *)
Definition is_attached c s : bool := bool_decide (is_Some (cursors c !! s)).

(** [RingCore::has_deliverable]. *)
Definition core_has_deliverable c s : bool :=
  match cursors c !! s with
  | Some cur => has_deliverable cur (ring c)
  | None => false
  end.

(** [RingCore::window]. *)
Definition core_window c s (push_limit retain_limit : N)
    : RingCore M Ep S * option (Window M) :=
  match cursors c !! s with
  | None =>
      if 0 <? push_limit then (c, None)
      else
        let es := tail (ring c) retain_limit in
        (c, Some (mkWindow es (len es) false))
  | Some cur =>
      let cur' := if 0 <? push_limit then set_push_depth cur push_limit else cur in
      (with_cursors c (<[s := cur']> (cursors c)),
       Some (window cur' (ring c) push_limit retain_limit))
  end.

(** [RingCore::advance]. *)
Definition core_advance c s (through seen_floor : N)
    : panics (RingCore M Ep S * option Advance) :=
  match cursors c !! s with
  | None => Returns (c, None)
  | Some cur =>
      '(cur', a) ← advance cur (ring c) through seen_floor;
      Returns (with_cursors c (<[s := cur']> (cursors c)), Some a)
  end.

(** [RingCore::park]. *)
Definition core_park c (who : string) m (t : N)
    : RingCore M Ep S * result N Deferred.QuotaExceeded :=
  let '(d, r) := Deferred.park (deferred c) who m t in (with_deferred c d, r).

(** [RingCore::next_release]. *)
Definition core_next_release c : option N := Deferred.next_release (deferred c).

(** The loop of [release_due]: append each due entry, merging what it cost. *)
Fixpoint release_loop c (due : list (Deferred.Deferred M)) (out : list (Retained M))
    (over : list (CursorOverflow S)) : RingCore M Ep S * ReleaseReport M S :=
  match due with
  | [] => (c, mkReleaseReport out over)
  | e :: rest =>
      let '(c', rep) := core_append c (Deferred.payload e) in
      release_loop c' rest (out ++ [mkRetained (report_seq rep) (Deferred.payload e)])
        (merge_overflow over (report_overflow rep))
  end.

(** [RingCore::release_due]. *)
Definition core_release_due c (now : N) : RingCore M Ep S * ReleaseReport M S :=
  let '(d, due) := Deferred.release_due (deferred c) now in
  release_loop (with_deferred c d) due [] [].

(** [RingCore::deferred_for_sender]. *)
Definition deferred_for_sender c (who : string) : list (Deferred.Deferred M) :=
  Deferred.for_sender (deferred c) who.

(** [RingCore::deferred_at]. *)
Definition deferred_at c (now : N) : list (Deferred.Deferred M) :=
  filter (λ e, now < Deferred.release_at e) (Deferred.parked (deferred c)).

(** [RingCore::owned_deferred]. *)
Definition owned_deferred c (who : string) (matches : M → bool) (cutoff : N)
    : OwnedDeferred M :=
  match list_find (λ e, matches (Deferred.payload e) = true) (Deferred.parked (deferred c)) with
  | None => NotFound
  | Some (_, e) =>
      if decide (Deferred.sender e ≠ who) then WrongSender (Deferred.sender e)
      else if Deferred.release_at e <=? cutoff then PastCutoff (Deferred.release_at e)
      else Owned (Deferred.id e) e
  end.

(** [RingCore::deferred_entry]. *)
Definition deferred_entry c (i : N) : option (Deferred.Deferred M) :=
  Deferred.get (deferred c) i.

(** [RingCore::cancel_deferred]. *)
Definition cancel_deferred c (i : N) : RingCore M Ep S * option (Deferred.Deferred M) :=
  let '(d, r) := Deferred.cancel (deferred c) i in (with_deferred c d, r).

(** [RingCore::edit_deferred]. *)
Definition edit_deferred c (i : N) (m : option M) (t : option N)
    : RingCore M Ep S * result unit Deferred.NoSuchDeferred :=
  let '(d, r) := Deferred.edit (deferred c) i m t in (with_deferred c d, r).
End operations.

(** The channel invariant. A position always belongs to a push-enabled subscriber and
    never runs ahead of the next seq; the parked cap is the retained depth. *)
Record wf {M Ep S} `{Countable S} (c : RingCore M Ep S) : Prop := {
  wf_ring : Ring.wf (ring c);
  wf_deferred : Deferred.wf (deferred c);
  wf_cap : Deferred.cap (deferred c) = Some (depth (ring c));
  wf_cursors : map_Forall (λ _ cur, 0 < push_depth cur ∧ 1 ≤ next_owed cur ≤ next_seq (ring c))
                 (cursors c);
}.

End Core.

Module CoreFacts.
Import Ring Cursor Core.

Section facts.
Context {M Ep S : Type} `{EqDecision Ep, Countable S}.
Implicit Types (c : RingCore M Ep S) (r : RetainedRing M Ep) (m : M) (s : S).

Lemma primed_next_owed r pd :
  Ring.wf r → next_owed (primed r pd) = next_seq r - N.min pd (len (entries r)).
Proof.
  intros Hwf. unfold primed, primed_from. rewrite tail_drop by done.
  pose proof Hwf as [? ? Hdense _]. set (k := N.to_nat _).
  pose proof (drop_dense (entries r) (next_seq r) k ltac:(done) Hdense) as Hrun.
  pose proof (len_drop k (entries r)) as Hl.
  assert (N.of_nat k = len (entries r) - pd) by (unfold k; lia).
  destruct (drop k (entries r)) as [|e es]; simpl.
  - rewrite len_nil in Hl. rewrite newest_seq_wf by done. rewrite u64_add_small by lia. lia.
  - assert (seq e = next_seq r - len (e :: es)) as He by (simpl in Hrun; congruence).
    rewrite u64_sub_small by (rewrite len_cons in *; lia).
    rewrite u64_add_small by (rewrite len_cons in *; lia). rewrite len_cons in *. lia.
Qed.

Lemma next_seq_set_depth r d : Ring.wf r → next_seq (set_depth r d) = next_seq r.
Proof. intros. by rewrite set_depth_spec. Qed.

Lemma depth_set_depth r d : Ring.wf r → depth (set_depth r d) = d.
Proof. intros. by rewrite set_depth_spec. Qed.

Lemma frontier_set_depth r d :
  Ring.wf r → frontier (set_depth r d) = N.max (frontier r) (next_seq r - d).
Proof.
  intros Hwf. rewrite !frontier_wf by auto using set_depth_wf.
  rewrite set_depth_spec by done. simpl. rewrite len_drop. destruct Hwf. lia.
Qed.

Lemma next_seq_append r m :
  Ring.wf r → next_seq r < u64_max → next_seq (append r m).1 = next_seq r + 1.
Proof. intros. by rewrite append_spec. Qed.

Lemma depth_append r m :
  Ring.wf r → next_seq r < u64_max → depth (append r m).1 = depth r.
Proof. intros. by rewrite append_spec. Qed.

Lemma frontier_append r m :
  Ring.wf r → next_seq r < u64_max →
  frontier (append r m).1 = N.max (frontier r) (next_seq r + 1 - depth r).
Proof.
  intros Hwf ?. rewrite !frontier_wf by auto using append_wf.
  rewrite append_spec by done. simpl. rewrite len_drop, len_app, len_cons, len_nil.
  destruct Hwf. lia.
Qed.

(** An append that evicts nothing leaves the frontier alone, unless the ring retains
    nothing at all. *)
Lemma append_evicted_zero r m :
  Ring.wf r → next_seq r < u64_max → 0 < depth r →
  append_evicted (append r m).2 = 0 ↔ frontier (append r m).1 = frontier r.
Proof.
  intros Hwf ? ?. rewrite frontier_append by done. rewrite append_spec by done. simpl.
  rewrite frontier_wf by done. destruct Hwf. case_bool; lia.
Qed.

(** *** Overflow reports *)

(** What a list of reports says one subscriber lost. *)
Definition evicted_of s (l : list (CursorOverflow S)) : N :=
  foldr (λ o acc, if decide (subscriber o = s) then evicted o + acc else acc) 0 l.

Lemma evicted_of_app s l k : evicted_of s (l ++ k) = evicted_of s l + evicted_of s k.
Proof. induction l as [|o l IH]; simpl; [lia|]. case_decide; lia. Qed.

#[global] Instance evicted_of_proper s : Proper ((≡ₚ) ==> (=)) (evicted_of s).
Proof. induction 1; simpl; repeat case_decide; lia. Qed.

Lemma evicted_of_absent s (l : list (S * SubscriberCursor)) f :
  s ∉ l.*1 →
  evicted_of s (omap (λ p : S * SubscriberCursor,
    if 0 <? f p.2 then Some (mkOverflow p.1 (f p.2)) else None) l) = 0.
Proof.
  induction l as [|[s' cur] l IH]; simpl; [done|].
  intros [? ?]%not_elem_of_cons. destruct (0 <? f cur); simpl; [|by apply IH].
  rewrite decide_False by done. by apply IH.
Qed.

Lemma evicted_of_charges s (cs : gmap S SubscriberCursor) (g : SubscriberCursor → N) :
  evicted_of s (omap (λ p : S * SubscriberCursor,
    if 0 <? g p.2 then Some (mkOverflow p.1 (g p.2)) else None) (map_to_list cs)) =
  match cs !! s with Some cur => g cur | None => 0 end.
Proof.
  destruct (cs !! s) as [cur|] eqn:Hs.
  - rewrite <-(map_to_list_delete _ _ _ Hs).
    assert (s ∉ (map_to_list (delete s cs)).*1) as Hnin.
    { intros ([s' cur']&->&Hin)%list_elem_of_fmap. apply elem_of_map_to_list in Hin.
      simpl in Hin. by rewrite lookup_delete_eq in Hin. }
    pose proof (evicted_of_absent s _ g Hnin) as Habs. unfold omap in Habs. simpl.
    destruct (N.ltb_spec 0 (g cur)); simpl; rewrite ?decide_True by done; rewrite Habs; lia.
  - apply (evicted_of_absent s _ g). intros ([s' cur']&->&Hin)%list_elem_of_fmap.
    apply elem_of_map_to_list in Hin. simpl in Hs. congruence.
Qed.

(** The report names each attached subscriber with exactly what the retirement cost
    it, and nobody else. *)
Lemma evicted_of_overflow_since c f s :
  evicted_of s (overflow_since c f) =
    match cursors c !! s with
    | Some cur => evicted_since cur (ring c) f
    | None => 0
    end.
Proof. apply (evicted_of_charges s (cursors c) (λ cur, evicted_since cur (ring c) f)). Qed.

Lemma evicted_since_spec cur r f :
  0 < push_depth cur → evicted_since cur r f = frontier r - N.max (next_owed cur) f.
Proof.
  intros. unfold evicted_since, is_push_enabled. destruct (N.ltb_spec 0 (push_depth cur)); [done|lia].
Qed.

Lemma merge_event_total s into ev :
  evicted_of s into + evicted_of s [ev] ≤ u64_max →
  evicted_of s (merge_event into ev) = evicted_of s into + evicted_of s [ev].
Proof.
  intros Hmax. unfold merge_event.
  destruct (list_find _ into) as [[i e]|] eqn:Hf; [|by rewrite evicted_of_app].
  apply list_find_from_start in Hf as [Hi He].
  rewrite insert_take_drop by (by eapply lookup_lt_Some).
  rewrite <-(take_drop_middle into i e Hi) in Hmax |- * at 3.
  rewrite !evicted_of_app in *. simpl in *. rewrite He in *.
  case_decide; [|lia]. rewrite u64_add_small by lia. lia.
Qed.

Lemma merge_overflow_total s into more :
  evicted_of s into + evicted_of s more ≤ u64_max →
  evicted_of s (merge_overflow into more) = evicted_of s into + evicted_of s more.
Proof.
  unfold merge_overflow. revert into. induction more as [|ev more IH]; intros into Hmax; [simpl; lia|].
  assert (evicted_of s (ev :: more) = evicted_of s [ev] + evicted_of s more) as Hc
    by (simpl; case_decide; lia).
  rewrite Hc in *. pose proof (merge_event_total s into ev ltac:(lia)) as Hm.
  change (foldl merge_event into (ev :: more)) with (foldl merge_event (merge_event into ev) more).
  rewrite IH; lia.
Qed.
End facts.
End CoreFacts.

(** ** Runs of a channel: invariant, ledger, accounting *)
Module CoreRun.
Import Ring Cursor CursorProps Core CoreFacts.

Section run.
Context {M Ep S : Type} `{EqDecision Ep, Countable S}.
Implicit Types (c : RingCore M Ep S) (m : M) (s : S).

(** Serving a subscriber: cut its window, then advance over the window's span. *)
Definition serve c s (pl rl : N)
    : panics (RingCore M Ep S * option (Window M * option Advance)) :=
  match core_window c s pl rl with
  | (c', None) => Returns (c', None)
  | (c', Some w) =>
      match advance_span w with
      | None => Returns (c', Some (w, None))
      | Some (through, floor) =>
          '(c'', a) ← core_advance c' s through floor;
          Returns (c'', Some (w, a))
      end
  end.

(** Every operation of a channel that changes its state. *)
Inductive core_op :=
| OpAppend (m : M)
| OpSetDepth (d : N)
| OpAttach (s : S) (pd : N)
| OpAttachFrom (s : S) (pd floor : N)
| OpDetach (s : S)
| OpWindow (s : S) (pl rl : N)
| OpAdvance (s : S) (through seen_floor : N)
| OpPark (who : string) (m : M) (t : N)
| OpRelease (now : N)
| OpCancel (i : N)
| OpEdit (i : N) (m : option M) (t : option N).

(** What an advance over the span [seen_floor..through] of a window means for a position:
    the messages of the span it had not passed, and those among them already retired. *)
Definition span_unseen (cur : SubscriberCursor) (through seen_floor : N) : N :=
  through + 1 - N.max seen_floor (next_owed cur).
Definition span_retired c (cur : SubscriberCursor) (through seen_floor : N) : N :=
  N.min (through + 1) (frontier (ring c)) - N.max seen_floor (next_owed cur).

(** What one subscriber was told: messages shown by the windows it advanced over, drops its
    advances reported, losses the evictions reported, noise its advances charged, and the
    messages shown whose eviction came between their window and its advance. *)
Record ledger := mkLedger { shown : N; lost : N; reported : N; noise : N; crossed : N }.
Definition no_entry : ledger := mkLedger 0 0 0 0 0.
Definition eviction_entry (n : N) : ledger := mkLedger 0 0 n 0 0.
Definition add_ledger (a b : ledger) : ledger :=
  mkLedger (shown a + shown b) (lost a + lost b) (reported a + reported b) (noise a + noise b)
    (crossed a + crossed b).

Definition advanced_entry (before : RingCore M Ep S) s0 s (through seen_floor : N) (r : option Advance) : ledger :=
  match r, cursors before !! s with
  | Some a, Some cur =>
      if decide (s = s0) then
        mkLedger (span_unseen cur through seen_floor) (dropped a) 0 (noise_charge a)
          (span_retired before cur through seen_floor)
      else no_entry
  | _, _ => no_entry
  end.

(** One operation, with what it told subscriber [s0]. *)
Definition core_step s0 c (op : core_op) : panics (RingCore M Ep S * ledger) :=
  match op with
  | OpAppend m =>
      let '(c', rep) := core_append c m in
      Returns (c', eviction_entry (evicted_of s0 (report_overflow rep)))
  | OpSetDepth d =>
      let '(c', over) := core_set_depth c d in
      Returns (c', eviction_entry (evicted_of s0 over))
  | OpAttach s pd => Returns ((attach c s pd).1, no_entry)
  | OpAttachFrom s pd floor =>
      '(c', _) ← attach_from c s pd floor; Returns (c', no_entry)
  | OpDetach s => Returns ((detach c s).1, no_entry)
  | OpWindow s pl rl => Returns ((core_window c s pl rl).1, no_entry)
  | OpAdvance s through seen_floor =>
      '(c', r) ← core_advance c s through seen_floor;
      Returns (c', advanced_entry c s0 s through seen_floor r)
  | OpPark who m t => Returns ((core_park c who m t).1, no_entry)
  | OpRelease now =>
      let '(c', rep) := core_release_due c now in
      Returns (c', eviction_entry (evicted_of s0 (release_overflow rep)))
  | OpCancel i => Returns ((cancel_deferred c i).1, no_entry)
  | OpEdit i m t => Returns ((edit_deferred c i m t).1, no_entry)
  end.

(** The counters have room for the operation, an inherited position is one this ring
    reached, and an advance covers a span of messages the ring has numbered (the documented
    preconditions of [attach_from] and [advance]). *)
Definition op_ok c (op : core_op) : Prop :=
  match op with
  | OpAppend _ => next_seq (ring c) < u64_max
  | OpAttachFrom _ pd floor => 0 < pd ∧ 1 ≤ floor ≤ next_seq (ring c)
  | OpAdvance _ through seen_floor => seen_floor ≤ through + 1 ∧ through < next_seq (ring c)
  | OpPark _ _ _ => Deferred.next_id (deferred c) < u64_max
  | OpRelease now =>
      next_seq (ring c) + len (Deferred.release_due (deferred c) now).2 ≤ u64_max
  | _ => True
  end.

(** *** Preservation of the channel invariant *)

Lemma core_new_wf e d : wf (core_new (M := M) (S := S) e d : RingCore M Ep S).
Proof.
  split; simpl; [apply new_wf|apply Deferred.set_new_wf|done|apply map_Forall_empty].
Qed.

(** Changing only the positions. *)
Lemma with_cursors_wf c cs :
  wf c →
  map_Forall (λ _ cur, 0 < push_depth cur ∧ 1 ≤ next_owed cur ≤ next_seq (ring c)) cs →
  wf (with_cursors c cs).
Proof. intros [? ? ? ?] ?. by split. Qed.

Lemma insert_cursor_wf c s cur :
  wf c → 0 < push_depth cur → 1 ≤ next_owed cur ≤ next_seq (ring c) →
  wf (with_cursors c (<[s := cur]> (cursors c))).
Proof.
  intros Hwf ? ?. apply with_cursors_wf; [done|]. destruct Hwf as [? ? ? ?].
  by apply map_Forall_insert_2.
Qed.

(** Changing only what is parked, under the same cap. *)
Lemma with_deferred_wf c d :
  wf c → Deferred.wf d → Deferred.cap d = Deferred.cap (deferred c) → wf (with_deferred c d).
Proof. intros [? ? ? ?] ? ?. split; simpl; congruence || done. Qed.

Lemma core_append_wf c m : wf c → next_seq (ring c) < u64_max → wf (core_append c m).1.
Proof.
  intros [Hr Hd Hc Hcur] Hmax. unfold core_append.
  pose proof (append_wf _ m Hr Hmax) as Hr'. pose proof (next_seq_append _ m Hr Hmax) as Hn.
  pose proof (depth_append _ m Hr Hmax) as Hdep.
  destruct (append (ring c) m) as [r' a]. simpl in *.
  assert (wf (with_ring c r')) by (split; simpl; [done|done|congruence|];
    eapply map_Forall_impl; [done|]; simpl; intros; lia).
  by destruct (append_evicted a =? 0).
Qed.

Lemma core_set_depth_wf c d : wf c → wf (core_set_depth c d).1.
Proof.
  intros [Hr Hd Hc Hcur]. split; simpl.
  - by apply set_depth_wf.
  - by apply Deferred.set_cap_wf.
  - by rewrite depth_set_depth.
  - by rewrite next_seq_set_depth.
Qed.

Lemma primed_bounds c pd :
  wf c → 1 ≤ next_owed (primed (ring c) pd) ≤ next_seq (ring c).
Proof. intros [Hr _ _ _]. rewrite primed_next_owed by done. destruct Hr. lia. Qed.

Lemma attach_wf c s pd : wf c → wf (attach c s pd).1.
Proof.
  intros Hwf. unfold attach. destruct (N.eqb_spec pd 0); simpl.
  - apply with_cursors_wf; [done|]. destruct Hwf. by apply map_Forall_delete.
  - destruct (cursors c !! s) as [cur|] eqn:Hs; apply insert_cursor_wf; simpl; try lia; try done.
    + destruct Hwf as [_ _ _ Hcur]. by apply Hcur in Hs as [_ ?].
    + by apply primed_bounds.
Qed.

Lemma attach_from_wf c s pd f :
  wf c → 0 < pd → 1 ≤ f ≤ next_seq (ring c) →
  ∃ c' a, attach_from c s pd f = Returns (c', a) ∧ wf c'.
Proof.
  intros Hwf Hpd Hf. unfold attach_from. destruct (N.ltb_spec 0 pd); [|lia]. simpl.
  pose proof Hwf as [Hr _ _ Hcur]. rewrite newest_seq_wf by done. destruct Hr as [? _ _ _].
  rewrite u64_add_small by lia.
  destruct (N.leb_spec f (next_seq (ring c) - 1 + 1)); [|lia]. simpl.
  destruct (cursors c !! s) as [cur|] eqn:Hs; do 2 eexists; (split; [done|]);
    apply insert_cursor_wf; simpl; try lia; try done.
  - by apply Hcur in Hs as [_ ?].
  - pose proof (primed_bounds c pd Hwf) as Hp. simpl in Hp. lia.
Qed.

(** *** Serving *)

Lemma core_window_wf c s pl rl : wf c → wf (core_window c s pl rl).1.
Proof.
  intros Hwf. unfold core_window. destruct (cursors c !! s) as [cur|] eqn:Hs; simpl.
  - destruct Hwf as [Hr ? ? Hcur]. pose proof (Hcur _ _ Hs) as [? ?].
    apply insert_cursor_wf; [by split| |]; destruct (N.ltb_spec 0 pl); done.
  - by destruct (0 <? pl).
Qed.

(** A position over a wf ring takes any span the ring has numbered. *)
Lemma core_advance_spec c s th fl cur :
  wf c → fl ≤ th + 1 → th < next_seq (ring c) → cursors c !! s = Some cur →
  core_advance c s th fl =
    Returns (with_cursors c (<[s := mkCursor (N.max (next_owed cur) (th + 1)) (push_depth cur)]> (cursors c)),
      Some (mkAdvance (fl - next_owed cur) (fl - N.max (next_owed cur) (frontier (ring c))))).
Proof.
  intros [Hr _ _ Hcur] Hfl Hth Hs. pose proof (Hcur _ _ Hs) as [Hpd Ho]. destruct Hr as [? _ _ _].
  unfold core_advance. rewrite Hs. unfold advance, is_push_enabled, u64_saturating_add.
  destruct (N.ltb_spec 0 (push_depth cur)); [|lia]. simpl.
  destruct (N.leb_spec fl (N.min (th + 1) u64_max)); [|lia]. simpl. unfold u64_saturating_sub.
  do 4 f_equal. destruct (N.leb_spec (next_owed cur) th).
  - rewrite u64_add_small by lia. f_equal. lia.
  - destruct cur as [o d]. simpl in *. f_equal. lia.
Qed.

Lemma core_advance_wf c s th fl :
  wf c → fl ≤ th + 1 → th < next_seq (ring c) →
  ∃ c' r, core_advance c s th fl = Returns (c', r) ∧ wf c'.
Proof.
  intros Hwf Hfl Hth. destruct (cursors c !! s) as [cur|] eqn:Hs.
  - rewrite (core_advance_spec c s th fl cur) by done. do 2 eexists. split; [done|].
    pose proof (wf_cursors _ Hwf _ _ Hs) as [? ?]. apply insert_cursor_wf; simpl; [done|done|lia].
  - unfold core_advance. rewrite Hs. eauto.
Qed.

(** The four ways a serve can go. *)
Lemma serve_cases c s pl rl :
  wf c →
  match cursors c !! s with
  | None =>
      serve c s pl rl = Returns (c, if 0 <? pl then None
        else Some (mkWindow (tail (ring c) rl) (len (tail (ring c) rl)) false, None))
  | Some cur =>
      let cur' := if 0 <? pl then set_push_depth cur pl else cur in
      let w := window cur' (ring c) pl rl in
      if (0 <? pl) && negb (is_empty (ring c)) then
        ∃ a, serve c s pl rl =
          Returns (with_cursors c (<[s := mkCursor (next_seq (ring c)) pl]> (cursors c)),
                   Some (w, Some a)) ∧
          served_unseen cur w + dropped a = next_seq (ring c) - next_owed cur ∧
          noise_charge a + (N.max (frontier (ring c)) (next_owed cur) - next_owed cur) = dropped a
      else serve c s pl rl =
        Returns (with_cursors c (<[s := cur']> (cursors c)), Some (w, None))
  end.
Proof.
  intros Hwf. pose proof Hwf as [Hr _ _ Hcur]. unfold serve, core_window.
  destruct (cursors c !! s) as [cur|] eqn:Hs; [|by destruct (0 <? pl)].
  pose proof (Hcur _ _ Hs) as [Hpd Howed]. cbv zeta.
  destruct (N.ltb_spec 0 pl) as [Hpl|Hpl]; simpl.
  2:{ unfold advance_span. simpl. destruct (N.ltb_spec 0 pl); [lia|done]. }
  unfold is_empty. destruct (entries (ring c)) as [|e es] eqn:He; simpl.
  { by rewrite window_span_empty. }
  assert (entries (ring c) ≠ []) as Hne by (by rewrite He).
  destruct (serve_accounts_for_every_owed_message (set_push_depth cur pl) (ring c) pl rl)
    as (th&fl&a&Hspan&Hadv&Hshown&Hnoise); simpl; try done.
  simpl in *. rewrite Hspan. unfold core_advance. simpl. rewrite lookup_insert_eq, Hadv.
  simpl. exists a. by rewrite insert_insert_eq.
Qed.

Lemma serve_wf c s pl rl : wf c → ∃ c' r, serve c s pl rl = Returns (c', r) ∧ wf c'.
Proof.
  intros Hwf. pose proof (serve_cases c s pl rl Hwf) as Hc. pose proof Hwf as [Hr _ _ Hcur].
  destruct (cursors c !! s) as [cur|] eqn:Hs; [|eauto].
  pose proof (Hcur _ _ Hs) as [Hpd Howed]. cbv zeta in Hc.
  destruct (N.ltb_spec 0 pl) as [Hpl|Hpl]; simpl in Hc.
  - destruct (is_empty (ring c)); simpl in Hc.
    + do 2 eexists. split; [exact Hc|]. by apply insert_cursor_wf.
    + destruct Hc as (a&Ha&_). do 2 eexists. split; [exact Ha|].
      apply insert_cursor_wf; simpl; [done|lia|]. destruct Hr as [? _ _ _]. lia.
  - do 2 eexists. split; [exact Hc|]. by apply insert_cursor_wf.
Qed.

(** *** Release passes *)

Lemma core_append_frame c m :
  cursors (core_append c m).1 = cursors c ∧ deferred (core_append c m).1 = deferred c ∧
  ring (core_append c m).1 = (append (ring c) m).1.
Proof.
  unfold core_append. destruct (append (ring c) m) as [r' a]. by destruct (append_evicted a =? 0).
Qed.

Lemma core_append_seq c m :
  wf c → next_seq (ring c) < u64_max → report_seq (core_append c m).2 = next_seq (ring c).
Proof.
  intros [Hr _ _ _] Hmax. unfold core_append. rewrite append_spec by done. simpl.
  by destruct (_ =? 0).
Qed.

(** What an append costs one subscriber, on a ring that retains anything at all. *)
Lemma core_append_cost c m s cur :
  wf c → next_seq (ring c) < u64_max → 0 < depth (ring c) → cursors c !! s = Some cur →
  evicted_of s (report_overflow (core_append c m).2) =
    frontier (ring (core_append c m).1) - N.max (next_owed cur) (frontier (ring c)).
Proof.
  intros [Hr _ _ Hcur] Hmax Hdep Hs. pose proof (Hcur _ _ Hs) as [Hpd _].
  pose proof (append_evicted_zero _ m Hr Hmax Hdep) as Hz. unfold core_append.
  destruct (append (ring c) m) as [r' a]. simpl in *.
  destruct (N.eqb_spec (append_evicted a) 0) as [H0|H0]; simpl.
  - apply Hz in H0. rewrite H0. lia.
  - rewrite evicted_of_overflow_since. simpl. rewrite Hs. by rewrite evicted_since_spec.
Qed.

Lemma release_loop_spec c due out over :
  wf c → next_seq (ring c) + len due ≤ u64_max →
  let '(c', rep) := release_loop c due out over in
  wf c' ∧ cursors c' = cursors c ∧ deferred c' = deferred c ∧
  depth (ring c') = depth (ring c) ∧ next_seq (ring c') = next_seq (ring c) + len due ∧
  frontier (ring c) ≤ frontier (ring c') ∧
  ring c' = foldl (λ r e, (append r (Deferred.payload e)).1) (ring c) due ∧
  released rep = out ++ zip_with mkRetained (run (next_seq (ring c)) (length due))
                          (Deferred.payload <$> due).
Proof.
  revert c out over. induction due as [|e due IH]; intros c out over Hwf Hmax; simpl.
  { rewrite len_nil, app_nil_r. split_and!; done || lia. }
  rewrite len_cons in Hmax. assert (Hlt : next_seq (ring c) < u64_max) by lia.
  pose proof (core_append_wf c (Deferred.payload e) Hwf Hlt) as Hwf'.
  pose proof (core_append_frame c (Deferred.payload e)) as (Hcs&Hdf&Hrg).
  pose proof (core_append_seq c (Deferred.payload e) Hwf Hlt) as Hseq.
  destruct (core_append c (Deferred.payload e)) as [c1 rep]. simpl in *.
  pose proof Hwf as [Hr _ _ _].
  pose proof (next_seq_append _ (Deferred.payload e) Hr Hlt) as Hn.
  pose proof (depth_append _ (Deferred.payload e) Hr Hlt) as Hd.
  pose proof (frontier_append _ (Deferred.payload e) Hr Hlt) as Hf.
  rewrite <-Hrg in Hn, Hd, Hf.
  specialize (IH c1 (out ++ [mkRetained (report_seq rep) (Deferred.payload e)])
    (merge_overflow over (report_overflow rep)) Hwf' ltac:(lia)).
  destruct (release_loop c1 due _ _) as [c' rep'].
  destruct IH as (?&?&?&?&?&?&Hring&Hrel). rewrite len_cons.
  split_and!; try congruence || lia.
  rewrite Hrel, <-app_assoc, Hn, Hseq. done.
Qed.

Lemma release_loop_cost c due out over s cur :
  wf c → next_seq (ring c) + len due ≤ u64_max → 0 < depth (ring c) →
  cursors c !! s = Some cur → evicted_of s over ≤ frontier (ring c) →
  let '(c', rep) := release_loop c due out over in
  evicted_of s (release_overflow rep) =
    evicted_of s over + (frontier (ring c') - N.max (next_owed cur) (frontier (ring c))).
Proof.
  revert c out over. induction due as [|e due IH]; intros c out over Hwf Hmax Hdep Hs Hover;
    simpl; [lia|].
  rewrite len_cons in Hmax. assert (Hlt : next_seq (ring c) < u64_max) by lia.
  pose proof (core_append_wf c (Deferred.payload e) Hwf Hlt) as Hwf'.
  pose proof (core_append_frame c (Deferred.payload e)) as (Hcs&Hdf&Hrg).
  pose proof (core_append_cost c (Deferred.payload e) s cur Hwf Hlt Hdep Hs) as Hcost.
  destruct (core_append c (Deferred.payload e)) as [c1 rep]. simpl in *.
  pose proof Hwf as [Hr _ _ _].
  pose proof (next_seq_append _ (Deferred.payload e) Hr Hlt) as Hn.
  pose proof (depth_append _ (Deferred.payload e) Hr Hlt) as Hd.
  pose proof (frontier_append _ (Deferred.payload e) Hr Hlt) as Hf.
  rewrite <-Hrg in Hn, Hd, Hf. pose proof Hwf' as [Hr1 _ _ _].
  pose proof (frontier_bounds _ Hr1) as Hb. destruct Hr1 as [Hn1 _ _ _].
  assert (Hm : evicted_of s (merge_overflow over (report_overflow rep)) =
    evicted_of s over + evicted_of s (report_overflow rep)).
  { apply merge_overflow_total. lia. }
  specialize (IH c1 (out ++ [mkRetained (report_seq rep) (Deferred.payload e)])
    (merge_overflow over (report_overflow rep)) Hwf' ltac:(lia) ltac:(lia)
    ltac:(congruence) ltac:(lia)).
  pose proof (release_loop_spec c1 due (out ++ [mkRetained (report_seq rep) (Deferred.payload e)])
    (merge_overflow over (report_overflow rep)) Hwf' ltac:(lia)) as Hspec.
  destruct (release_loop c1 due _ _) as [c' rep'].
  destruct Hspec as (_&_&_&_&_&Hfr&_&_). rewrite IH, Hm, Hcost. lia.
Qed.

(** *** One step *)

Lemma core_release_wf c now :
  wf c → op_ok c (OpRelease now) → wf (core_release_due c now).1.
Proof.
  intros Hwf Hok. unfold op_ok in Hok. unfold core_release_due.
  pose proof (Deferred.release_due_wf (deferred c) now (wf_deferred _ Hwf)) as Hd.
  destruct (Deferred.release_due (deferred c) now) as [d due] eqn:Hrel.
  simpl in Hok, Hd. assert (Hcap : Deferred.cap d = Deferred.cap (deferred c)).
  { unfold Deferred.release_due in Hrel. by injection Hrel as <- _. }
  pose proof (with_deferred_wf _ _ Hwf Hd Hcap) as Hwf'.
  pose proof (release_loop_spec (with_deferred c d) due [] [] Hwf' Hok) as Hspec.
  destruct (release_loop _ due [] []). by destruct Hspec.
Qed.

Lemma core_step_wf s0 c op :
  wf c → op_ok c op → ∃ c' l, core_step s0 c op = Returns (c', l) ∧ wf c'.
Proof.
  intros Hwf Hok. pose proof (wf_deferred _ Hwf) as Hd.
  destruct op as [m|d|s pd|s pd f|s|s pl rl|s th fl|who m t|now|i|i m t]; simpl in Hok |- *.
  - pose proof (core_append_wf c m Hwf Hok). destruct (core_append c m). eauto.
  - pose proof (core_set_depth_wf c d Hwf). eauto.
  - eauto using attach_wf.
  - destruct (attach_from_wf c s pd f) as (c'&a&->&?); naive_solver.
  - do 2 eexists. split; [done|]. apply with_cursors_wf; [done|].
    apply map_Forall_delete, Hwf.
  - eauto using core_window_wf.
  - destruct Hok as [Hfl Hth]. destruct (core_advance_wf c s th fl Hwf Hfl Hth) as (c'&r&->&?). simpl. eauto.
  - pose proof (Deferred.park_wf _ who m t Hd Hok) as Hp.
    do 2 eexists. split; [done|]. unfold core_park. revert Hp. unfold Deferred.park.
    case_match; intros Hp; by apply with_deferred_wf.
  - pose proof (core_release_wf c now Hwf Hok). destruct (core_release_due c now). eauto.
  - pose proof (Deferred.cancel_wf _ i Hd) as Hp.
    do 2 eexists. split; [done|]. unfold cancel_deferred. revert Hp. unfold Deferred.cancel.
    repeat case_match; intros Hp; by apply with_deferred_wf.
  - pose proof (Deferred.edit_wf _ i m t Hd) as Hp.
    do 2 eexists. split; [done|]. unfold edit_deferred. revert Hp. unfold Deferred.edit.
    repeat case_match; intros Hp; by apply with_deferred_wf.
Qed.

(** *** Runs *)

(** A sequence of operations, adding up what they told [s0]. *)
Fixpoint core_run s0 c (ops : list core_op) : panics (RingCore M Ep S * ledger) :=
  match ops with
  | [] => Returns (c, no_entry)
  | op :: ops =>
      '(c1, l1) ← core_step s0 c op;
      '(c2, l2) ← core_run s0 c1 ops;
      Returns (c2, add_ledger l1 l2)
  end.

(** Every operation of the sequence meets its precondition when its turn comes. *)
Fixpoint run_ok s0 c (ops : list core_op) : Prop :=
  match ops with
  | [] => True
  | op :: ops =>
      op_ok c op ∧
      match core_step s0 c op with
      | Returns (c1, _) => run_ok s0 c1 ops
      | Panics _ => True
      end
  end.

Lemma core_run_wf s0 c ops :
  wf c → run_ok s0 c ops → ∃ c' l, core_run s0 c ops = Returns (c', l) ∧ wf c'.
Proof.
  revert c. induction ops as [|op ops IH]; intros c Hwf; simpl; [eauto|].
  intros [Hok Hrest]. destruct (core_step_wf s0 c op Hwf Hok) as (c1&l1&Hs&Hwf1).
  rewrite Hs in Hrest |- *. destruct (IH c1 Hwf1 Hrest) as (c2&l2&Hr&?).
  simpl. rewrite Hr. simpl. eauto.
Qed.

(** What [s0] already lost below the frontier and no advance has told it yet. *)
Definition pending c (cur : SubscriberCursor) : N := frontier (ring c) - next_owed cur.

(** The operation leaves [s0] its position and the channel a retained window. *)
Definition keeps s0 (op : core_op) : Prop :=
  match op with
  | OpAttach s pd => s = s0 → 0 < pd
  | OpDetach s => s ≠ s0
  | OpSetDepth d => 0 < d
  | _ => True
  end.

(** The account of a transition: the position moves over exactly what was shown or
    lost, and every loss is reported by the eviction that retired it or charged as
    noise by the advance that passed over it, once; the evictions report beyond that only
    what a window had already shown when they came. *)
Definition accounts s0 (c : RingCore M Ep S) cur (c' : RingCore M Ep S) l : Prop :=
  0 < depth (ring c') ∧
  ∃ cur', cursors c' !! s0 = Some cur' ∧
    next_owed cur' = next_owed cur + shown l + lost l ∧
    reported l + noise l + pending c cur = lost l + crossed l + pending c' cur'.

Lemma accounts_frame s0 c cur c' cur' :
  0 < depth (ring c') → ring c' = ring c → cursors c' !! s0 = Some cur' →
  next_owed cur' = next_owed cur → accounts s0 c cur c' no_entry.
Proof.
  intros ? Hr ? Ho. split; [done|]. exists cur'. unfold pending. rewrite Hr, Ho. simpl.
  split_and!; done || lia.
Qed.

Lemma accounts_evicting s0 c cur c' n :
  0 < depth (ring c') → cursors c' !! s0 = Some cur →
  frontier (ring c) ≤ frontier (ring c') →
  n = frontier (ring c') - N.max (next_owed cur) (frontier (ring c)) →
  accounts s0 c cur c' (eviction_entry n).
Proof. intros ? ? ? ->. split; [done|]. exists cur. unfold pending. simpl. split_and!; done || lia. Qed.

(** The frontier never moves back. *)
Lemma core_append_accounts s0 c m cur :
  wf c → next_seq (ring c) < u64_max → 0 < depth (ring c) → cursors c !! s0 = Some cur →
  accounts s0 c cur (core_append c m).1
    (eviction_entry (evicted_of s0 (report_overflow (core_append c m).2))).
Proof.
  intros Hwf Hmax Hdep Hs. pose proof (core_append_frame c m) as (Hcs&_&Hrg).
  pose proof Hwf as [Hr _ _ _].
  apply accounts_evicting; rewrite ?Hcs; try done.
  - by rewrite Hrg, depth_append.
  - rewrite Hrg, frontier_append by done. lia.
  - by apply core_append_cost.
Qed.

Lemma core_set_depth_accounts s0 c d cur :
  wf c → 0 < d → cursors c !! s0 = Some cur →
  accounts s0 c cur (core_set_depth c d).1
    (eviction_entry (evicted_of s0 (core_set_depth c d).2)).
Proof.
  intros [Hr _ _ Hcur] Hd Hs. pose proof (Hcur _ _ Hs) as [Hpd _].
  apply accounts_evicting; simpl; [by rewrite depth_set_depth|done| |].
  - rewrite frontier_set_depth by done. lia.
  - rewrite evicted_of_overflow_since. simpl. rewrite Hs. by rewrite evicted_since_spec.
Qed.

Lemma core_release_accounts s0 c now cur :
  wf c → op_ok c (OpRelease now) → 0 < depth (ring c) → cursors c !! s0 = Some cur →
  accounts s0 c cur (core_release_due c now).1
    (eviction_entry (evicted_of s0 (release_overflow (core_release_due c now).2))).
Proof.
  intros Hwf Hok Hdep Hs. unfold op_ok in Hok. unfold core_release_due.
  pose proof (Deferred.release_due_wf (deferred c) now (wf_deferred _ Hwf)) as Hd.
  destruct (Deferred.release_due (deferred c) now) as [d due] eqn:Hrel.
  simpl in Hok, Hd. assert (Hcap : Deferred.cap d = Deferred.cap (deferred c)).
  { unfold Deferred.release_due in Hrel. by injection Hrel as <- _. }
  pose proof (with_deferred_wf _ _ Hwf Hd Hcap) as Hwf'.
  pose proof (release_loop_spec (with_deferred c d) due [] [] Hwf' Hok) as Hspec.
  pose proof (release_loop_cost (with_deferred c d) due [] [] s0 cur Hwf' Hok Hdep Hs
    (N.le_0_l _)) as Hcost.
  destruct (release_loop _ due [] []) as [c' rep].
  destruct Hspec as (_&Hcs&_&Hdp&_&Hfr&_&_). simpl in *.
  apply accounts_evicting; [by rewrite Hdp|congruence|done|done].
Qed.

Lemma window_accounts s0 c s pl rl cur :
  0 < depth (ring c) → cursors c !! s0 = Some cur →
  accounts s0 c cur (core_window c s pl rl).1 no_entry.
Proof.
  intros Hdep Hs0. unfold core_window. destruct (cursors c !! s) as [cur1|] eqn:Hs.
  2: { destruct (0 <? pl); by eapply accounts_frame. }
  destruct (decide (s = s0)) as [->|Hne]; simplify_eq.
  - eapply accounts_frame; simpl; [done|done|by rewrite lookup_insert_eq|]. by destruct (0 <? pl).
  - eapply accounts_frame; try done. simpl. by rewrite lookup_insert_ne.
Qed.

Lemma advance_accounts s0 c s th fl cur :
  wf c → op_ok c (OpAdvance s th fl) → 0 < depth (ring c) → cursors c !! s0 = Some cur →
  ∃ c' r, core_advance c s th fl = Returns (c', r) ∧ accounts s0 c cur c' (advanced_entry c s0 s th fl r).
Proof.
  intros Hwf [Hfl Hth] Hdep Hs0. unfold advanced_entry. destruct (cursors c !! s) as [cur1|] eqn:Hs.
  2: { unfold core_advance. rewrite Hs. do 2 eexists. split; [done|]. by eapply accounts_frame. }
  rewrite (core_advance_spec c s th fl cur1) by done. do 2 eexists. split; [done|]. simpl.
  destruct (decide (s = s0)) as [->|Hne].
  - simplify_eq. split; [done|]. eexists. simpl. rewrite lookup_insert_eq. split; [done|].
    unfold pending, span_unseen, span_retired. simpl. split; lia.
  - eapply accounts_frame; try done. simpl. by rewrite lookup_insert_ne.
Qed.

Lemma attach_accounts s0 c s pd cur :
  keeps s0 (OpAttach s pd) → 0 < depth (ring c) → cursors c !! s0 = Some cur →
  accounts s0 c cur (attach c s pd).1 no_entry.
Proof.
  simpl. intros Hk Hdep Hs0. unfold attach. destruct (N.eqb_spec pd 0).
  - assert (s ≠ s0) by (intros ->; specialize (Hk eq_refl); lia).
    eapply accounts_frame; simpl; try done. by rewrite lookup_delete_ne.
  - destruct (decide (s = s0)) as [->|Hne].
    + rewrite Hs0. eapply accounts_frame; simpl; [done|done|by rewrite lookup_insert_eq|done].
    + destruct (cursors c !! s); (eapply accounts_frame; simpl; try done; by rewrite lookup_insert_ne).
Qed.

Lemma attach_from_accounts s0 c s pd f cur c' a :
  attach_from c s pd f = Returns (c', a) → 0 < depth (ring c) → cursors c !! s0 = Some cur →
  accounts s0 c cur c' no_entry.
Proof.
  unfold attach_from. intros Hat Hdep Hs0. destruct (0 <? pd); [|done]. simpl in Hat.
  destruct (f <=? _); [|done]. simpl in Hat. injection Hat as Hat.
  destruct (decide (s = s0)) as [->|Hne].
  - rewrite Hs0 in Hat. simplify_eq.
    eapply accounts_frame; simpl; [done|done|by rewrite lookup_insert_eq|done].
  - destruct (cursors c !! s); simplify_eq;
      (eapply accounts_frame; simpl; try done; by rewrite lookup_insert_ne).
Qed.

Lemma core_step_accounts s0 c op cur :
  wf c → op_ok c op → keeps s0 op → 0 < depth (ring c) → cursors c !! s0 = Some cur →
  ∃ c' l, core_step s0 c op = Returns (c', l) ∧ accounts s0 c cur c' l.
Proof.
  intros Hwf Hok Hk Hdep Hs0.
  destruct op as [m|d|s pd|s pd f|s|s pl rl|s th fl|who m t|now|i|i m t]; cbn [core_step].
  - pose proof (core_append_accounts s0 c m cur Hwf Hok Hdep Hs0).
    destruct (core_append c m). eauto.
  - pose proof (core_set_depth_accounts s0 c d cur Hwf Hk Hs0).
    destruct (core_set_depth c d). eauto.
  - eauto using attach_accounts.
  - destruct (attach_from_wf c s pd f) as (c'&a&Ha&?); [naive_solver..|].
    rewrite Ha. simpl. eauto using attach_from_accounts.
  - do 2 eexists. split; [done|]. eapply accounts_frame; simpl; try done.
    by rewrite lookup_delete_ne.
  - eauto using window_accounts.
  - destruct (advance_accounts s0 c s th fl cur Hwf Hok Hdep Hs0) as (c'&r&->&?). simpl. eauto.
  - do 2 eexists. split; [done|]. unfold core_park.
    destruct (Deferred.park _ _ _ _). by eapply accounts_frame.
  - pose proof (core_release_accounts s0 c now cur Hwf Hok Hdep Hs0).
    destruct (core_release_due c now). eauto.
  - do 2 eexists. split; [done|]. unfold cancel_deferred.
    destruct (Deferred.cancel _ _). by eapply accounts_frame.
  - do 2 eexists. split; [done|]. unfold edit_deferred.
    destruct (Deferred.edit _ _ _ _). by eapply accounts_frame.
Qed.

Lemma core_run_accounts s0 ops c cur :
  wf c → 0 < depth (ring c) → cursors c !! s0 = Some cur →
  run_ok s0 c ops → Forall (keeps s0) ops →
  ∃ c' l cur', core_run s0 c ops = Returns (c', l) ∧ cursors c' !! s0 = Some cur' ∧
    next_owed cur' = next_owed cur + shown l + lost l ∧
    reported l + noise l + pending c cur = lost l + crossed l + pending c' cur'.
Proof.
  revert c cur. induction ops as [|op ops IH]; intros c cur Hwf Hdep Hs0 Hok Hkeeps; simpl.
  { do 3 eexists. split; [done|]. split; [done|]. simpl. lia. }
  apply Forall_cons in Hkeeps as [Hk Hkeeps]. destruct Hok as [Hok Hrest].
  destruct (core_step_accounts s0 c op cur Hwf Hok Hk Hdep Hs0)
    as (c1&l1&Hstep&Hdep1&cur1&Hs1&Ho1&Ha1).
  destruct (core_step_wf s0 c op Hwf Hok) as (c1'&l1'&Hstep'&Hwf1).
  rewrite Hstep in Hstep', Hrest |- *. injection Hstep' as <- <-. simpl.
  destruct (IH c1 cur1 Hwf1 Hdep1 Hs1 Hrest Hkeeps) as (c2&l2&cur2&Hrun&Hs2&Ho2&Ha2).
  rewrite Hrun. simpl. do 3 eexists. split; [done|]. split; [done|]. simpl. lia.
Qed.

(** *** What a window shows *)

(** Counting the positions of a dense window between two bounds. *)
Lemma dense_between (es : list (Retained M)) f a b :
  seq <$> es = run f (length es) →
  len (filter (λ e, a ≤ seq e ∧ seq e < b) es) = N.min (f + len es) b - N.max f a.
Proof.
  revert f. induction es as [|e es IH]; intros f; simpl; [unfold len; simpl; lia|].
  intros [= He Hes]. specialize (IH _ Hes). rewrite len_cons. subst f.
  destruct (decide (a ≤ seq e ∧ seq e < b)).
  - rewrite filter_cons_True, len_cons, IH by done. lia.
  - rewrite filter_cons_False, IH by done. lia.
Qed.

Lemma dense_above (es : list (Retained M)) f a :
  seq <$> es = run f (length es) →
  len (filter (λ e, a ≤ seq e) es) = f + len es - N.max f a.
Proof.
  revert f. induction es as [|e es IH]; intros f; simpl; [unfold len; simpl; lia|].
  intros [= He Hes]. specialize (IH _ Hes). rewrite len_cons. subst f.
  destruct (decide (a ≤ seq e)).
  - rewrite filter_cons_True, len_cons, IH by done. lia.
  - rewrite filter_cons_False, IH by done. lia.
Qed.

(** A window with a span holds consecutive messages, the newest the channel has. *)
Lemma window_span_dense c s pl rl w th fl :
  wf c → (core_window c s pl rl).2 = Some w → advance_span w = Some (th, fl) →
  seq <$> win_entries w = run fl (length (win_entries w)) ∧ fl + len (win_entries w) = th + 1 ∧
  th + 1 = next_seq (ring c).
Proof.
  intros [Hr _ _ Hcur] Hw Hspan. unfold core_window in Hw.
  destruct (cursors c !! s) as [cur|]; simpl in Hw.
  2: { by destruct (0 <? pl); simplify_eq/=. }
  injection Hw as <-. set (cur' := if 0 <? pl then set_push_depth cur pl else cur) in *.
  assert (Hpl : 0 < pl).
  { unfold advance_span in Hspan. simpl in Hspan. by destruct (N.ltb_spec 0 pl). }
  destruct (decide (entries (ring c) = [])) as [He|Hne]; [by rewrite window_span_empty in Hspan|].
  rewrite window_span in Hspan by done. injection Hspan as <- <-.
  change (win_entries _) with (tail (ring c) (N.max pl rl)).
  pose proof (len_tail (ring c) (N.max pl rl) Hr) as Hlen. pose proof Hr as [? Hlt Hd _].
  rewrite Hlen. split; [|lia]. rewrite tail_drop in * by done.
  rewrite (drop_dense _ (next_seq (ring c))) by done. by rewrite Hlen.
Qed.

(** What advancing over a window's span books as shown is the window's own unseen entries,
    and as crossed, those among them retired by then. *)
Lemma window_booked c s pl rl w th fl :
  wf c → (core_window c s pl rl).2 = Some w → advance_span w = Some (th, fl) →
  op_ok c (OpAdvance s th fl) ∧
  ∀ c1 cur1,
    len (filter (λ e, next_owed cur1 ≤ seq e) (win_entries w)) = span_unseen cur1 th fl ∧
    len (filter (λ e, next_owed cur1 ≤ seq e ∧ seq e < frontier (ring c1)) (win_entries w))
      = span_retired c1 cur1 th fl.
Proof.
  intros Hwf Hw Hspan. destruct (window_span_dense _ _ _ _ _ _ _ Hwf Hw Hspan) as (Hd&Hl&Hn).
  split; [simpl; lia|]. intros c1 cur1. unfold span_unseen, span_retired.
  rewrite (dense_between _ _ _ _ Hd), (dense_above _ _ _ Hd), Hl. lia.
Qed.

(** Nothing a window holds is retired while the ring is as it was. *)
Lemma window_none_retired c s pl rl w (cur : SubscriberCursor) :
  wf c → (core_window c s pl rl).2 = Some w →
  len (filter (λ e, next_owed cur ≤ seq e ∧ seq e < frontier (ring c)) (win_entries w)) = 0.
Proof.
  intros [Hr _ _ _] Hw.
  assert (Hsub : ∃ n, win_entries w = tail (ring c) n).
  { unfold core_window in Hw. destruct (cursors c !! s); simpl in Hw; [injection Hw as <-; eauto|].
    destruct (0 <? pl); [done|]. injection Hw as <-. eauto. }
  destruct Hsub as [n ->]. rewrite filter_none; [done|]. rewrite tail_drop by done.
  apply Forall_lookup_2. intros i x. rewrite lookup_drop. intros Hi.
  apply lookup_seq_wf in Hi; [|done]. rewrite frontier_wf by done. lia.
Qed.

(** An advance books its span. *)
Lemma advance_books s0 c cur th fl c' l :
  cursors c !! s0 = Some cur → core_step s0 c (OpAdvance s0 th fl) = Returns (c', l) →
  shown l = span_unseen cur th fl ∧ crossed l = span_retired c cur th fl.
Proof.
  intros Hs. cbn [core_step]. unfold core_advance, advanced_entry. rewrite Hs.
  destruct (advance cur (ring c) th fl) as [[cur' a]|]; simpl; [|done]. intros [= _ <-].
  by rewrite decide_True.
Qed.

Lemma add_ledger_assoc a b d : add_ledger a (add_ledger b d) = add_ledger (add_ledger a b) d.
Proof. unfold add_ledger. simpl. f_equal; lia. Qed.

(** A run in two parts. *)
Lemma core_run_app s0 c ops ops' :
  core_run s0 c (ops ++ ops') =
    ('(c1, l1) ← core_run s0 c ops; '(c2, l2) ← core_run s0 c1 ops';
     Returns (c2, add_ledger l1 l2)).
Proof.
  revert c. induction ops as [|op ops IH]; intros c; simpl.
  - destruct (core_run s0 c ops') as [[c2 l2]|]; [|done]. simpl. by destruct l2.
  - destruct (core_step s0 c op) as [[c1 l1]|]; [|done]. simpl. rewrite IH.
    destruct (core_run s0 c1 ops) as [[c2 l2]|]; [|done]. simpl.
    destruct (core_run s0 c2 ops') as [[c3 l3]|]; [|done]. simpl. by rewrite add_ledger_assoc.
Qed.

End run.
End CoreRun.

Module CoreProps.
Import Ring Cursor CursorProps Core CoreFacts CoreRun.

Section props.
Context {M Ep S : Type} `{EqDecision Ep, Countable S}.
Implicit Types (c : RingCore M Ep S) (m : M) (s : S).

(** A channel started empty never unwinds and keeps its invariant whatever
    operations it is driven through: the ring stays dense and bounded by its depth, the
    parked set sorted with unique identities under a cap equal to the depth, and every
    position push-enabled and at most the next seq. The only preconditions are that the
    64-bit counters have room and that an inherited floor is one this ring reached. *)
Theorem channel_runs_keep_invariant (e : Ep) d s0 (ops : list (@core_op M S)) :
  run_ok s0 (core_new e d) ops →
  ∃ c l, core_run s0 (core_new (M := M) e d) ops = Returns (c, l) ∧ wf c.
Proof. apply core_run_wf, core_new_wf. Qed.

(** C1: No loss is silent. Over any run of a channel's operations, windows cut and advanced
    over at separate times included, that keeps a subscriber attached on a channel of
    positive depth, its position moves over exactly the messages the windows it advanced over
    showed plus the drops its advances reported. Those drops, plus what is still pending
    below the frontier, are exactly the losses the evictions reported when they happened plus
    the noise the advances charged, less the messages crossed: those a window had already
    shown when an eviction, coming before the window's advance, reported them. What an
    advance over a window books as shown is the number of entries of that window its position
    had not passed, and as crossed, the number of those the ring no longer held; so a window
    advanced over before anything is evicted leaves nothing counted twice. *)
Theorem channel_run_accounts_for_every_loss s0 ops c cur :
  wf c → 0 < depth (ring c) → cursors c !! s0 = Some cur →
  run_ok s0 c ops → Forall (keeps s0) ops →
  (∃ c' l cur', core_run s0 c ops = Returns (c', l) ∧ cursors c' !! s0 = Some cur' ∧
    next_owed cur' = next_owed cur + shown l + lost l ∧
    reported l + noise l + pending c cur = lost l + crossed l + pending c' cur') ∧
  (∀ pl rl w th fl, (core_window c s0 pl rl).2 = Some w → advance_span w = Some (th, fl) →
    op_ok c (OpAdvance s0 th fl) ∧ span_retired c cur th fl = 0 ∧
    ∀ c1 cur1 c2 l, cursors c1 !! s0 = Some cur1 → core_step s0 c1 (OpAdvance s0 th fl) = Returns (c2, l) →
      shown l = len (filter (λ e, next_owed cur1 ≤ seq e) (win_entries w)) ∧
      crossed l = len (filter (λ e, next_owed cur1 ≤ seq e ∧ seq e < frontier (ring c1)) (win_entries w))).
Proof.
  intros Hwf Hdep Hs Hok Hk. split; [by apply core_run_accounts|].
  intros pl rl w th fl Hw Hspan. destruct (window_booked _ _ _ _ _ _ _ Hwf Hw Hspan) as [Hadv Hb].
  split; [done|]. split.
  - rewrite <-(proj2 (Hb c cur)). by apply (window_none_retired c s0 pl rl w cur).
  - intros c1 cur1 c2 l Hs1. destruct (Hb c1 cur1) as [-> ->]. by apply advance_books.
Qed.

(** A release pass is a batch of appends. Everything due at or before [now] enters
    retention in release order, one fresh consecutive seq each, exactly as the same
    payloads appended one by one would; nothing due stays parked and no position moves. *)
Theorem release_enters_retention_as_appends c now :
  wf c → op_ok c (OpRelease now) →
  let due := (Deferred.release_due (deferred c) now).2 in
  let '(c', rep) := core_release_due c now in
  ring c' = foldl (λ r e, (append r (Deferred.payload e)).1) (ring c) due ∧
  released rep = zip_with mkRetained (run (next_seq (ring c)) (length due))
                   (Deferred.payload <$> due) ∧
  deferred_at c now = Deferred.parked (deferred c') ∧
  cursors c' = cursors c.
Proof.
  intros Hwf Hok. unfold op_ok in Hok. unfold core_release_due, deferred_at.
  pose proof (Deferred.release_due_wf (deferred c) now (wf_deferred _ Hwf)) as Hd.
  pose proof (DeferredSpec.release_due_split _ now (wf_deferred _ Hwf)) as Hsplit.
  destruct (Deferred.release_due (deferred c) now) as [d due] eqn:Hrel.
  simpl in Hok, Hd, Hsplit. assert (Hcap : Deferred.cap d = Deferred.cap (deferred c)).
  { unfold Deferred.release_due in Hrel. by injection Hrel as <- _. }
  pose proof (with_deferred_wf _ _ Hwf Hd Hcap) as Hwf'.
  pose proof (release_loop_spec (with_deferred c d) due [] [] Hwf' Hok) as Hspec.
  destruct (release_loop _ due [] []) as [c' rep]. cbv zeta. simpl.
  destruct Hspec as (_&Hcs&Hdf&_&_&_&Hring&Hout). rewrite Hdf. simpl.
  split_and!; try done. destruct Hsplit as [_ ->]. apply list_filter_iff. intros. lia.
Qed.

(** Authority over a parked message. A name resolves to [Owned] exactly when the
    first parked message it matches is the caller's own and still releases after the
    cutoff; the identity answered is then the one a cancel removes. Another sender's
    message is never answered as owned, and a due one is never cancellable. *)
Theorem owned_deferred_is_authority c who matches cutoff :
  wf c →
  (∀ i e, owned_deferred c who matches cutoff = Owned i e →
     Deferred.sender e = who ∧ cutoff < Deferred.release_at e ∧
     matches (Deferred.payload e) = true ∧
     e ∈ deferred_for_sender c who ∧
     deferred_entry c i = Some e ∧ (cancel_deferred c i).2 = Some e) ∧
  (owned_deferred c who matches cutoff = NotFound ↔
     Forall (λ e, matches (Deferred.payload e) = false) (Deferred.parked (deferred c))) ∧
  (∀ owner, owned_deferred c who matches cutoff = WrongSender owner → owner ≠ who).
Proof.
  intros Hwf. pose proof (wf_deferred _ Hwf) as Hd. unfold owned_deferred.
  destruct (list_find _ _) as [[k e]|] eqn:Hf.
  - apply list_find_from_start in Hf as [Hk Hm]. pose proof (list_elem_of_lookup_2 _ _ _ Hk) as Hin.
    split_and!.
    + intros i e'. case_decide as Hs; [done|].
      destruct (N.leb_spec (Deferred.release_at e) cutoff); [done|]. intros [= <- <-].
      assert (He : DeferredSpec.contents (deferred c) !! Deferred.id e = Some e).
      { apply DeferredSpec.lookup_contents; [|done]. by destruct Hd. }
      split_and!; try done.
      * unfold deferred_for_sender, Deferred.for_sender. by apply list_elem_of_filter.
      * unfold deferred_entry. by rewrite DeferredSpec.get_contents.
      * unfold cancel_deferred. destruct (DeferredSpec.contents_cancel _ (Deferred.id e) Hd) as [Hc _].
        destruct (Deferred.cancel _ _). simpl in *. congruence.
    + split; [repeat case_match; done|]. rewrite Forall_forall. intros Hall.
      apply Hall in Hin. congruence.
    + intros owner. case_decide; [by intros [= <-]|by destruct (_ <=? _)].
  - apply list_find_None in Hf. split_and!; [done| |done]. split; [|done]. intros _.
    eapply Forall_impl; [exact Hf|]. intros e He. by apply not_true_iff_false.
Qed.

(** Attaching is a delivery point. A subscriber that first attaches with a positive
    depth is shown the newest [push_depth] retained messages as new by its first window
    and has lost none of what its position covers; attaching again moves nothing, and a
    sampled attach leaves no position at all. *)
Theorem attach_primes_behind_the_tail c s pd rl :
  wf c →
  (0 < pd → cursors c !! s = None →
     ∃ w, (core_window (attach c s pd).1 s pd rl).2 = Some w ∧
       (attach c s pd).2 = Created ∧ new_entries w = tail (ring c) pd) ∧
  (0 < pd → ∀ cur, cursors c !! s = Some cur →
     (attach c s pd).2 = Existing ∧
     next_owed <$> cursors (attach c s pd).1 !! s = Some (next_owed cur)) ∧
  is_attached (attach c s 0).1 s = false ∧ core_has_deliverable (attach c s 0).1 s = false.
Proof.
  intros Hwf. pose proof (wf_ring _ Hwf) as Hr. split_and!.
  - intros Hpd Hs. unfold attach. destruct (N.eqb_spec pd 0); [lia|]. rewrite Hs.
    unfold core_window. cbn [fst snd with_cursors cursors ring]. rewrite lookup_insert_eq.
    destruct (N.ltb_spec 0 pd); [|lia]. eexists. split; [done|]. split; [done|].
    rewrite new_entries_window by done. cbn [next_owed set_push_depth].
    rewrite primed_next_owed by done.
    rewrite tail_drop, filter_owed_drop by done. f_equal.
    rewrite frontier_wf by done. destruct Hr. lia.
  - intros Hpd cur Hs. unfold attach. destruct (N.eqb_spec pd 0); [lia|]. rewrite Hs. simpl.
    split; [done|]. by rewrite lookup_insert_eq.
  - unfold attach, is_attached. simpl. rewrite lookup_delete_eq.
    apply bool_decide_eq_false. by intros [? ?].
  - unfold attach, core_has_deliverable. simpl. by rewrite lookup_delete_eq.
Qed.
End props.

(** A channel of depth 2 with one subscriber owed two messages and one message parked. *)
Definition ex_start : RingCore N N string := (attach (core_new 7 2) "reader" 4).1.
Definition ex_ops : list (@core_op N string) :=
  [OpAppend 10; OpAppend 20; OpAppend 30; OpPark "a" 40 500; OpWindow "reader" 1 0; OpAdvance "reader" 3 3;
   OpWindow "reader" 4 4; OpRelease 500; OpWindow "reader" 4 4; OpSetDepth 1; OpAppend 50;
   OpAdvance "reader" 4 3; OpWindow "reader" 4 4; OpAdvance "reader" 5 5].
Definition ex_core : RingCore N N string :=
  (core_park (core_append (core_append ex_start 10).1 20).1 "a" 30 500).1.

Lemma ex_start_wf : wf ex_start.
Proof. apply attach_wf, core_new_wf. Qed.

Lemma ex_core_wf : wf ex_core.
Proof.
  assert (wf (core_append (core_append ex_start 10).1 20).1) as Hwf.
  { apply core_append_wf; [apply core_append_wf; [apply ex_start_wf|]|]; vm_compute; reflexivity. }
  destruct (core_step_wf "reader" _ (OpPark "a" 30 500) Hwf) as (c'&l&Heq&Hc).
  { vm_compute. reflexivity. }
  cbn [core_step] in Heq. unfold ex_core. injection Heq as Heq _. by rewrite Heq.
Qed.

Lemma channel_runs_keep_invariant_witness :
  run_ok "reader" (core_new 7 2) (OpAttach "reader" 4 :: ex_ops) ∧
  ∃ c l, core_run "reader" (core_new (M := N) 7 2) (OpAttach "reader" 4 :: ex_ops) = Returns (c, l)
    ∧ wf c.
Proof.
  assert (Hok : run_ok "reader" (core_new 7 2) (OpAttach "reader" 4 :: ex_ops)).
  { vm_compute. repeat split; discriminate. }
  split; [exact Hok|]. exact (channel_runs_keep_invariant 7 2 "reader" _ Hok).
Defined.

Lemma channel_run_accounts_for_every_loss_witness :
  ∃ c' l, core_run "reader" ex_start ex_ops = Returns (c', l) ∧
    (shown l, lost l, reported l, noise l, crossed l) = (3, 2, 2, 1, 1).
Proof.
  assert (Hok : run_ok "reader" ex_start ex_ops) by (vm_compute; repeat split; discriminate).
  assert (Hk : Forall (keeps "reader") ex_ops)
    by (repeat constructor; simpl; (done || (vm_compute; reflexivity))).
  destruct (channel_run_accounts_for_every_loss "reader" ex_ops ex_start (mkCursor 1 4)
    ex_start_wf) as [(c'&l&cur'&Hrun&_) _]; [vm_compute; reflexivity|vm_compute; reflexivity|done|done|].
  exists c', l. split; [exact Hrun|]. vm_compute in Hrun. by injection Hrun as _ <-.
Defined.

Lemma release_enters_retention_as_appends_witness :
  wf ex_core ∧ released (core_release_due ex_core 600).2 = [mkRetained 3 30].
Proof.
  pose proof (release_enters_retention_as_appends ex_core 600 ex_core_wf) as Hr.
  destruct (core_release_due ex_core 600) as [c' rep] eqn:E. split; [exact ex_core_wf|].
  destruct Hr as (_&Hrel&_); [vm_compute; discriminate|]. simpl. rewrite Hrel.
  vm_compute. reflexivity.
Defined.

Lemma owned_deferred_is_authority_witness :
  wf ex_core ∧ ∃ e, owned_deferred ex_core "a" (N.eqb 30) 100 = Owned 1 e ∧
    (cancel_deferred ex_core 1).2 = Some e ∧
    owned_deferred ex_core "b" (N.eqb 30) 100 = WrongSender "a".
Proof.
  split; [exact ex_core_wf|].
  destruct (owned_deferred_is_authority ex_core "a" (N.eqb 30) 100 ex_core_wf) as (Ho&_&_).
  exists (Deferred.mkDeferred 1 "a" 500 30).
  split; [vm_compute; reflexivity|]. split; [|vm_compute; reflexivity].
  apply Ho. vm_compute. reflexivity.
Defined.

Lemma attach_primes_behind_the_tail_witness :
  wf ex_core ∧ ∃ w, (core_window (attach ex_core "late" 1).1 "late" 1 2).2 = Some w ∧
    new_entries w = [mkRetained 2 20].
Proof.
  split; [exact ex_core_wf|].
  destruct (attach_primes_behind_the_tail ex_core "late" 1 2 ex_core_wf) as (Hp&_&_).
  destruct Hp as (w&Hw&_&Hn); [vm_compute; reflexivity|vm_compute; reflexivity|].
  exists w. split; [exact Hw|]. rewrite Hn. vm_compute. reflexivity.
Defined.

(** The account needs a positive depth. On a channel of depth zero an append retires the
    message it carries without reporting it (its ring evicted nothing it had held), and an
    advance that later passes over the retired span excludes it from the noise on the
    ground that an eviction reported it: the loss is in nobody's book but [lost]. *)
Definition depth_zero_start : RingCore N N string := (attach (core_new 7 0) "reader" 4).1.
Definition depth_zero_ops : list (@core_op N string) :=
  [OpAppend 10; OpSetDepth 5; OpAppend 20; OpWindow "reader" 4 0; OpAdvance "reader" 2 2].

Theorem depth_zero_loss_reported_nowhere :
  ∃ c', core_run "reader" depth_zero_start depth_zero_ops =
    Returns (c', mkLedger 1 1 0 0 0) ∧ cursors c' !! "reader" = Some (mkCursor 3 4).
Proof. eexists. split; vm_compute; reflexivity. Qed.
End CoreProps.
