(* ===== verification/Budget.v ===== *)
(** * Publish budgets ([brenn-budget/src/{lib,gate,refusal}.rs])

    Token-bucket arithmetic, the per-activation gate every publish and control op of a
    guest passes through, and what a guest is told about a refusal. [BudgetProps] states
    the ceilings, the conservation of tokens, and that a guest cannot read its own wiring
    out of the gate's answers. *)

From S2P Require Import Prelude Envelope.

#[local] Open Scope N_scope.

Module Budget.
Import Envelope.

Definition MILLITOKENS_PER_PUBLISH : N := 1000.
Definition MAX_PUBLISHES_PER_ACTIVATION : N := 256.
Definition MAX_PUBLISH_BYTES_PER_ACTIVATION : N := 4 * 1024 * 1024.
Definition MAX_PUBLISH_CALLS_PER_ACTIVATION : N := 512.

(** [SinkBudget]. *)
Record SinkBudget := mkSinkBudget { fill_mt : N; capacity_mt : N }.

(** [grant_input_mt]. *)
Definition grant_input_mt (ports : list (N * N)) : N :=
  foldl u64_saturating_add 0 ((λ p : N * N, u64_saturating_mul p.1 p.2) <$> ports).

(** [seed_sink_budget]. *)
Definition seed_sink_budget (carry_mt : N) (budget : SinkBudget) (grant : N) : N :=
  u64_saturating_add (u64_saturating_add (N.min carry_mt (capacity_mt budget)) (fill_mt budget)) grant.

(** [GateRefusal]. *)
Inductive GateRefusal :=
| CallCap (cap : N)
| BodyTooLarge (length max : N)
| UnrepresentableDeliverAfter (ms : N)
| SinkExhausted
| EntryCap (cap : N)
| ByteCap (cap : N)
| OpCap (cap : N).

(** [ActivationGate<K>]. *)
Record ActivationGate (K : Type) `{Countable K} := mkGate {
  max_body_bytes : N;
  sinks : gmap K N;
  calls : N;
  entries : N;
  dropped : N;
  ops : N;
  bytes : N;
}.
Arguments mkGate {K _ _}.
Arguments max_body_bytes {K _ _}.
Arguments sinks {K _ _}.
Arguments calls {K _ _}.
Arguments entries {K _ _}.
Arguments dropped {K _ _}.
Arguments ops {K _ _}.
Arguments bytes {K _ _}.

(** [PublishCheck<'a, K>]. *)
Record PublishCheck (K : Type) := mkCheck {
  sink : K;
  body_len : N;
  check_after : option N;
  entry_addend : N;
}.
Arguments mkCheck {K}.
Arguments sink {K}.
Arguments body_len {K}.
Arguments check_after {K}.
Arguments entry_addend {K}.

Section gate.
Context `{Countable K} `{Chrono DateTime}.
Implicit Types (g : ActivationGate K) (k : K).

(** [check_deliver_after]. *)
Definition check_deliver_after (da : option N) : result unit GateRefusal :=
  match da with
  | Some ms =>
      match utc_from_epoch_ms ms with
      | None => Err (UnrepresentableDeliverAfter ms)
      | Some _ => Ok ()
      end
  | None => Ok ()
  end.

(** [ActivationGate::new]. *)
Definition gate_new (max : N) (s : gmap K N) : ActivationGate K := mkGate max s 0 0 0 0 0.

(** [ActivationGate::charge_call]. *)
Definition charge_call g : ActivationGate K * result unit GateRefusal :=
  let g' := mkGate (max_body_bytes g) (sinks g) (u64_add (calls g) 1) (entries g) (dropped g)
              (ops g) (bytes g) in
  if MAX_PUBLISH_CALLS_PER_ACTIVATION <? calls g'
  then (g', Err (CallCap MAX_PUBLISH_CALLS_PER_ACTIVATION))
  else (g', Ok ()).

(** [ActivationGate::admit_publish]. *)
Definition admit_publish g (c : PublishCheck K) : panics (ActivationGate K * result unit GateRefusal) :=
  if max_body_bytes g <? body_len c
  then Returns (g, Err (BodyTooLarge (body_len c) (max_body_bytes g)))
  else
    match check_deliver_after (check_after c) with
    | Err e => Returns (g, Err e)
    | Ok _ =>
        match sinks g !! sink c with
        | None => Panics "activation gate: no sink budget"
        | Some remaining =>
            if remaining <? MILLITOKENS_PER_PUBLISH then Returns (g, Err SinkExhausted)
            else if MAX_PUBLISHES_PER_ACTIVATION <=? u64_add (entries g) (entry_addend c)
            then Returns (g, Err (EntryCap MAX_PUBLISHES_PER_ACTIVATION))
            else if MAX_PUBLISH_BYTES_PER_ACTIVATION <? u64_add (bytes g) (body_len c)
            then Returns (g, Err (ByteCap MAX_PUBLISH_BYTES_PER_ACTIVATION))
            else Returns
              (mkGate (max_body_bytes g)
                 (<[sink c := u64_sub remaining MILLITOKENS_PER_PUBLISH]> (sinks g))
                 (calls g) (u64_add (entries g) 1) (dropped g) (ops g)
                 (u64_add (bytes g) (body_len c)), Ok ())
        end
    end.

(** [ActivationGate::admit_publish_without_sink]. *)
Definition admit_publish_without_sink g (blen : N) (da : option N) (addend : N)
    : ActivationGate K * result unit GateRefusal :=
  if max_body_bytes g <? blen then (g, Err (BodyTooLarge blen (max_body_bytes g)))
  else
    match check_deliver_after da with
    | Err e => (g, Err e)
    | Ok _ =>
        if MAX_PUBLISHES_PER_ACTIVATION <=? u64_add (entries g) addend
        then (g, Err (EntryCap MAX_PUBLISHES_PER_ACTIVATION))
        else if MAX_PUBLISH_BYTES_PER_ACTIVATION <? u64_add (bytes g) blen
        then (g, Err (ByteCap MAX_PUBLISH_BYTES_PER_ACTIVATION))
        else
          (mkGate (max_body_bytes g) (sinks g) (calls g) (u64_add (entries g) 1)
             (u64_add (dropped g) 1) (ops g) (u64_add (bytes g) blen), Ok ())
    end.

(** [ActivationGate::entries_at_ceiling]. *)
Definition entries_at_ceiling g (addend : N) : bool :=
  MAX_PUBLISHES_PER_ACTIVATION <=? u64_add (entries g) addend.

(** The tail of [admit_op]: the op slot. *)
Definition take_op g (b : N) : ActivationGate K :=
  mkGate (max_body_bytes g) (sinks g) (calls g) (entries g) (dropped g) (u64_add (ops g) 1) b.

(** [ActivationGate::admit_op]. *)
Definition admit_op g (edit_body_len : option N) : ActivationGate K * result unit GateRefusal :=
  if MAX_PUBLISHES_PER_ACTIVATION <=? ops g then (g, Err (OpCap MAX_PUBLISHES_PER_ACTIVATION))
  else
    match edit_body_len with
    | Some l =>
        if max_body_bytes g <? l then (g, Err (BodyTooLarge l (max_body_bytes g)))
        else if MAX_PUBLISH_BYTES_PER_ACTIVATION <? u64_add (bytes g) l
        then (g, Err (ByteCap MAX_PUBLISH_BYTES_PER_ACTIVATION))
        else (take_op g (u64_add (bytes g) l), Ok ())
    | None => (take_op g (bytes g), Ok ())
    end.

(** [ActivationGate::charge_sink_on_attempt]. *)
Definition charge_sink_on_attempt g k : ActivationGate K * result unit GateRefusal :=
  match sinks g !! k with
  | None => (g, Ok ())
  | Some remaining =>
      if remaining <? MILLITOKENS_PER_PUBLISH then (g, Err SinkExhausted)
      else
        (mkGate (max_body_bytes g) (<[k := u64_sub remaining MILLITOKENS_PER_PUBLISH]> (sinks g))
           (calls g) (entries g) (dropped g) (ops g) (bytes g), Ok ())
  end.

(** [ActivationGate::into_sinks]. *)
Definition into_sinks g : gmap K N := sinks g.
End gate.

(** ** Refusals *)

Inductive PayloadFault :=
| FaultBodyTooLarge (length max : N)
| FaultUnrepresentableDeliverAfter (ms : N).
Inductive PublishRefusalKind := InvalidPayload (fault : PayloadFault) | PublishQuotaExceeded.
Inductive DeferRefusalKind := InvalidDeliverAfter | DeferQuotaExceeded.

(** [publish_refusal_kind]. *)
Definition publish_refusal_kind (r : GateRefusal) : PublishRefusalKind :=
  match r with
  | BodyTooLarge l m => InvalidPayload (FaultBodyTooLarge l m)
  | UnrepresentableDeliverAfter ms => InvalidPayload (FaultUnrepresentableDeliverAfter ms)
  | CallCap _ | SinkExhausted | EntryCap _ | ByteCap _ | OpCap _ => PublishQuotaExceeded
  end.

(** [defer_refusal_kind]. *)
Definition defer_refusal_kind (r : GateRefusal) : DeferRefusalKind :=
  match r with
  | UnrepresentableDeliverAfter _ => InvalidDeliverAfter
  | CallCap _ | BodyTooLarge _ _ | SinkExhausted | EntryCap _ | ByteCap _ | OpCap _ =>
      DeferQuotaExceeded
  end.
End Budget.

(** ** Sequences of gate calls *)
Module GateRun.
Import Envelope Budget.

Section run.
Context `{Countable K} `{Chrono DateTime}.
Implicit Types (g : ActivationGate K) (k : K).

(** Every call a host can make of a gate. *)
Inductive gate_call :=
| ChargeCall
| Publish (c : PublishCheck K)
| PublishNoSink (blen : N) (da : option N) (addend : N)
| ControlOp (edit_body_len : option N)
| ChargeSink (k : K).

Definition gate_step g (c : gate_call) : panics (ActivationGate K * result unit GateRefusal) :=
  match c with
  | ChargeCall => Returns (charge_call g)
  | Publish c => admit_publish g c
  | PublishNoSink l da a => Returns (admit_publish_without_sink g l da a)
  | ControlOp l => Returns (admit_op g l)
  | ChargeSink k => Returns (charge_sink_on_attempt g k)
  end.

Fixpoint gate_run g (cs : list gate_call)
    : panics (ActivationGate K * list (result unit GateRefusal)) :=
  match cs with
  | [] => Returns (g, [])
  | c :: cs =>
      '(g1, r) ← gate_step g c;
      '(g2, rs) ← gate_run g1 cs;
      Returns (g2, r :: rs)
  end.

(** The gate's ceilings. The body cap leaves the byte counter room below the machine
    width, as any cap a slice length can exceed does. *)
Record gate_ok g : Prop := {
  ok_entries : entries g ≤ MAX_PUBLISHES_PER_ACTIVATION;
  ok_ops : ops g ≤ MAX_PUBLISHES_PER_ACTIVATION;
  ok_bytes : bytes g ≤ MAX_PUBLISH_BYTES_PER_ACTIVATION;
  ok_dropped : dropped g ≤ entries g;
  ok_cap : max_body_bytes g + MAX_PUBLISH_BYTES_PER_ACTIVATION ≤ u64_max;
}.

(** What the host promises of a call: a published port's sink is seeded, and the
    entries it counts outside the gate fit a counter. *)
Definition call_ok g (c : gate_call) : Prop :=
  match c with
  | Publish c => is_Some (sinks g !! sink c) ∧ entry_addend c + MAX_PUBLISHES_PER_ACTIVATION ≤ u64_max
  | PublishNoSink _ _ a => a + MAX_PUBLISHES_PER_ACTIVATION ≤ u64_max
  | _ => True
  end.

(** Tokens an answered call spends from sink [k]. *)
Definition spent k (c : gate_call) (r : result unit GateRefusal) : N :=
  match r, c with
  | Ok _, Publish c => if decide (sink c = k) then MILLITOKENS_PER_PUBLISH else 0
  | Ok _, ChargeSink k' => if decide (k' = k) then MILLITOKENS_PER_PUBLISH else 0
  | _, _ => 0
  end.

(** Every way a publish can be judged, in the order the checks fire. *)
Lemma admit_publish_inv g c g' r :
  gate_ok g → call_ok g (Publish c) → admit_publish g c = Returns (g', r) →
  (∃ e, r = Err e ∧ g' = g) ∨
  (∃ remaining, r = Ok () ∧ sinks g !! sink c = Some remaining ∧
     MILLITOKENS_PER_PUBLISH ≤ remaining ∧ entries g + entry_addend c < MAX_PUBLISHES_PER_ACTIVATION ∧
     bytes g + body_len c ≤ MAX_PUBLISH_BYTES_PER_ACTIVATION ∧
     g' = mkGate (max_body_bytes g) (<[sink c := remaining - MILLITOKENS_PER_PUBLISH]> (sinks g))
            (calls g) (entries g + 1) (dropped g) (ops g) (bytes g + body_len c)).
Proof.
  intros [He Ho Hb Hd Hc] [_ Ha]. unfold admit_publish.
  destruct (N.ltb_spec (max_body_bytes g) (body_len c)); [naive_solver|].
  destruct (check_deliver_after _); [|naive_solver].
  destruct (sinks g !! sink c) as [remaining|] eqn:Hs; [|done].
  destruct (N.ltb_spec remaining MILLITOKENS_PER_PUBLISH); [naive_solver|].
  assert (u64_add (entries g) 1 = entries g + 1) as Hadd.
  { apply u64_add_small. unfold MAX_PUBLISHES_PER_ACTIVATION, u64_max in *. lia. }
  rewrite (u64_add_small (entries g) (entry_addend c)) by lia.
  rewrite (u64_add_small (bytes g)) by lia. rewrite Hadd, u64_sub_small by done.
  destruct (N.leb_spec MAX_PUBLISHES_PER_ACTIVATION (entries g + entry_addend c)); [naive_solver|].
  destruct (N.ltb_spec MAX_PUBLISH_BYTES_PER_ACTIVATION (bytes g + body_len c)); [naive_solver|].
  intros [= <- <-]. right. exists remaining. done.
Qed.

Lemma admit_without_sink_inv g l da a g' r :
  gate_ok g → a + MAX_PUBLISHES_PER_ACTIVATION ≤ u64_max →
  admit_publish_without_sink g l da a = (g', r) →
  (∃ e, r = Err e ∧ g' = g) ∨
  (r = Ok () ∧ entries g + a < MAX_PUBLISHES_PER_ACTIVATION ∧
     bytes g + l ≤ MAX_PUBLISH_BYTES_PER_ACTIVATION ∧
     g' = mkGate (max_body_bytes g) (sinks g) (calls g) (entries g + 1) (dropped g + 1) (ops g)
            (bytes g + l)).
Proof.
  intros [He Ho Hb Hd Hc] Ha. unfold admit_publish_without_sink.
  destruct (N.ltb_spec (max_body_bytes g) l); [naive_solver|].
  destruct (check_deliver_after _); [|naive_solver].
  assert (MAX_PUBLISHES_PER_ACTIVATION + 1 ≤ u64_max) by done.
  rewrite (u64_add_small (entries g) a), (u64_add_small (bytes g)), (u64_add_small (entries g) 1),
    (u64_add_small (dropped g)) by lia.
  destruct (N.leb_spec MAX_PUBLISHES_PER_ACTIVATION (entries g + a)); [naive_solver|].
  destruct (N.ltb_spec MAX_PUBLISH_BYTES_PER_ACTIVATION (bytes g + l)); naive_solver.
Qed.

Lemma admit_op_inv g l g' r :
  gate_ok g → admit_op g l = (g', r) →
  (∃ e, r = Err e ∧ g' = g) ∨
  (r = Ok () ∧ ops g < MAX_PUBLISHES_PER_ACTIVATION ∧
     bytes g + default 0 l ≤ MAX_PUBLISH_BYTES_PER_ACTIVATION ∧
     g' = mkGate (max_body_bytes g) (sinks g) (calls g) (entries g) (dropped g) (ops g + 1)
            (bytes g + default 0 l)).
Proof.
  intros [He Ho Hb Hd Hc]. unfold admit_op, take_op.
  destruct (N.leb_spec MAX_PUBLISHES_PER_ACTIVATION (ops g)); [naive_solver|].
  assert (MAX_PUBLISHES_PER_ACTIVATION + 1 ≤ u64_max) by done.
  rewrite (u64_add_small (ops g)) by lia. destruct l as [l|]; simpl.
  - destruct (N.ltb_spec (max_body_bytes g) l); [naive_solver|].
    rewrite (u64_add_small (bytes g)) by lia.
    destruct (N.ltb_spec MAX_PUBLISH_BYTES_PER_ACTIVATION (bytes g + l)); naive_solver.
  - rewrite N.add_0_r. naive_solver.
Qed.

Lemma charge_sink_inv g k g' r :
  charge_sink_on_attempt g k = (g', r) →
  (g' = g ∧ (r = Err SinkExhausted ∨ (r = Ok () ∧ sinks g !! k = None))) ∨
  (∃ remaining, r = Ok () ∧ sinks g !! k = Some remaining ∧ MILLITOKENS_PER_PUBLISH ≤ remaining ∧
     g' = mkGate (max_body_bytes g) (<[k := remaining - MILLITOKENS_PER_PUBLISH]> (sinks g))
            (calls g) (entries g) (dropped g) (ops g) (bytes g)).
Proof.
  unfold charge_sink_on_attempt. destruct (sinks g !! k) as [remaining|]; [|naive_solver].
  destruct (N.ltb_spec remaining MILLITOKENS_PER_PUBLISH); [naive_solver|].
  rewrite u64_sub_small by done. intros [= <- <-]. right. exists remaining. done.
Qed.

Lemma gate_step_total g c : call_ok g c → ∃ g' r, gate_step g c = Returns (g', r).
Proof.
  destruct c as [|c|l da a|l|k]; simpl;
    [destruct (charge_call g)| |destruct (admit_publish_without_sink g l da a)
    |destruct (admit_op g l)|destruct (charge_sink_on_attempt g k)]; eauto.
  intros [[t Ht] _]. unfold admit_publish. rewrite Ht. repeat case_match; eauto.
Qed.

Lemma gate_step_ok g c g' r :
  gate_ok g → call_ok g c → gate_step g c = Returns (g', r) → gate_ok g'.
Proof.
  intros Hg Hc. pose proof Hg as [He Ho Hb Hd Hm].
  destruct c as [|c|l da a|l|k]; simpl; intros Hs.
  - injection Hs as Hs. unfold charge_call in Hs.
    destruct (MAX_PUBLISH_CALLS_PER_ACTIVATION <? _); injection Hs as <- _; by split.
  - apply admit_publish_inv in Hs as [(e&_&->)|(t&_&_&_&?&?&->)]; [done| |done|done].
    split; simpl; lia.
  - injection Hs as Hs. apply admit_without_sink_inv in Hs as [(e&_&->)|(_&?&?&->)]; [done| |done|done].
    split; simpl; lia.
  - injection Hs as Hs. apply admit_op_inv in Hs as [(e&_&->)|(_&?&?&->)]; [done| |done].
    split; simpl; lia.
  - injection Hs as Hs. by apply charge_sink_inv in Hs as [[-> _]|(t&_&_&_&->)].
Qed.

(** A bucket loses exactly what the answer says was spent from it. *)
Lemma gate_step_tokens g c g' r k :
  gate_ok g → call_ok g c → gate_step g c = Returns (g', r) →
  match sinks g !! k with
  | Some t => ∃ t', sinks g' !! k = Some t' ∧ t = t' + spent k c r
  | None => sinks g' !! k = None
  end.
Proof.
  intros Hg Hc Hs.
  assert (Hsame : sinks g' = sinks g → spent k c r = 0 →
    match sinks g !! k with
    | Some t => ∃ t', sinks g' !! k = Some t' ∧ t = t' + spent k c r
    | None => sinks g' !! k = None
    end).
  { intros -> ->. destruct (sinks g !! k) as [t|]; [|done]. exists t. split; [done|lia]. }
  assert (Hpaid : ∀ k' t, sinks g !! k' = Some t → MILLITOKENS_PER_PUBLISH ≤ t →
    sinks g' = <[k' := t - MILLITOKENS_PER_PUBLISH]> (sinks g) →
    spent k c r = (if decide (k' = k) then MILLITOKENS_PER_PUBLISH else 0) →
    match sinks g !! k with
    | Some t => ∃ t', sinks g' !! k = Some t' ∧ t = t' + spent k c r
    | None => sinks g' !! k = None
    end).
  { intros k' t Ht Hle -> ->. destruct (decide (k' = k)) as [->|Hne].
    - rewrite Ht, lookup_insert_eq. eexists. split; [done|lia].
    - rewrite lookup_insert_ne by done. destruct (sinks g !! k) as [u|]; [|done].
      exists u. split; [done|lia]. }
  destruct c as [|c|l da a|l|k']; simpl in Hs, Hsame, Hpaid |- *.
  - injection Hs as Hs. unfold charge_call in Hs.
    destruct (MAX_PUBLISH_CALLS_PER_ACTIVATION <? _); injection Hs as <- <-; by apply Hsame.
  - apply admit_publish_inv in Hs as [(e&->&->)|(t&->&Ht&Hle&_&_&->)]; [|by eapply Hpaid|done|done].
    by apply Hsame.
  - injection Hs as Hs. apply admit_without_sink_inv in Hs as [(e&->&->)|(->&_&_&->)];
      [by apply Hsame|by apply Hsame|done|done].
  - injection Hs as Hs. apply admit_op_inv in Hs as [(e&->&->)|(->&_&_&->)];
      [by apply Hsame|by apply Hsame|done].
  - injection Hs as Hs. apply charge_sink_inv in Hs as [[-> [->|[-> Hn]]]|(t&->&Ht&Hle&->)].
    + by apply Hsame.
    + destruct (decide (k' = k)) as [<-|Hne]; [by rewrite Hn|]. apply Hsame; [done|].
      simpl. by rewrite decide_False.
    + by eapply Hpaid.
Qed.

Lemma call_ok_step g c g' r c' :
  gate_ok g → call_ok g c → gate_step g c = Returns (g', r) → call_ok g c' → call_ok g' c'.
Proof.
  intros Hg Hc Hs. destruct c' as [|c'|l da a|l|k]; try done. simpl. intros [[t Ht] ?].
  split; [|done]. pose proof (gate_step_tokens g c g' r (sink c') Hg Hc Hs) as Htok.
  rewrite Ht in Htok. destruct Htok as (t'&->&_). done.
Qed.

(** Total tokens a run spent from sink [k]. *)
Fixpoint run_spent k (cs : list gate_call) (rs : list (result unit GateRefusal)) : N :=
  match cs, rs with
  | c :: cs, r :: rs => spent k c r + run_spent k cs rs
  | _, _ => 0
  end.

(** What the host buffers on an answered call: a publish, a control op, and the bytes of
    the body either carries. *)
Record buffered := mkBuffered { b_publishes : N; b_dropped : N; b_ops : N; b_bytes : N }.

Definition buffers (c : gate_call) (r : result unit GateRefusal) : buffered :=
  match r, c with
  | Ok _, Publish c => mkBuffered 1 0 0 (body_len c)
  | Ok _, PublishNoSink l _ _ => mkBuffered 1 1 0 l
  | Ok _, ControlOp l => mkBuffered 0 0 1 (default 0 l)
  | _, _ => mkBuffered 0 0 0 0
  end.

Definition add_buffered (a b : buffered) : buffered :=
  mkBuffered (b_publishes a + b_publishes b) (b_dropped a + b_dropped b) (b_ops a + b_ops b)
    (b_bytes a + b_bytes b).

Fixpoint run_buffers (cs : list gate_call) (rs : list (result unit GateRefusal)) : buffered :=
  match cs, rs with
  | c :: cs, r :: rs => add_buffered (buffers c r) (run_buffers cs rs)
  | _, _ => mkBuffered 0 0 0 0
  end.

(** No accepted body is longer than the body cap. *)
Definition body_within (max : N) (c : gate_call) (r : result unit GateRefusal) : Prop :=
  match r, c with
  | Ok _, Publish c => body_len c ≤ max
  | Ok _, PublishNoSink l _ _ => l ≤ max
  | Ok _, ControlOp (Some l) => l ≤ max
  | _, _ => True
  end.

(** The gate's counters are what was buffered. *)
Definition counted g : buffered := mkBuffered (entries g) (dropped g) (ops g) (bytes g).

Lemma gate_step_counts g c g' r :
  gate_ok g → call_ok g c → gate_step g c = Returns (g', r) →
  counted g' = add_buffered (counted g) (buffers c r) ∧ max_body_bytes g' = max_body_bytes g.
Proof.
  intros Hg Hc. unfold counted, add_buffered. destruct c as [|c|l da a|l|k]; simpl; intros Hs.
  - injection Hs as Hs. unfold charge_call in Hs.
    destruct (MAX_PUBLISH_CALLS_PER_ACTIVATION <? _); injection Hs as <- <-; simpl; by rewrite !N.add_0_r.
  - apply admit_publish_inv in Hs as [(e&->&->)|(t&->&_&_&_&_&->)]; [| |done|done]; simpl; by rewrite !N.add_0_r.
  - injection Hs as Hs. apply admit_without_sink_inv in Hs as [(e&->&->)|(->&_&_&->)]; [| |done|done]; simpl;
      by rewrite !N.add_0_r.
  - injection Hs as Hs. apply admit_op_inv in Hs as [(e&->&->)|(->&_&_&->)]; [| |done]; simpl; by rewrite !N.add_0_r.
  - injection Hs as Hs. apply charge_sink_inv in Hs as [[-> [->|[-> _]]]|(t&->&_&_&->)]; simpl; by rewrite !N.add_0_r.
Qed.

Lemma gate_step_body g c g' r : gate_step g c = Returns (g', r) → body_within (max_body_bytes g) c r.
Proof.
  destruct c as [|c|l da a|l|k]; simpl; [by destruct r| | | |by destruct r].
  - unfold admit_publish. destruct (N.ltb_spec (max_body_bytes g) (body_len c)) as [|Hb]; [by intros [= _ <-]|].
    intros _. by destruct r.
  - unfold admit_publish_without_sink. destruct (N.ltb_spec (max_body_bytes g) l) as [|Hb]; [by intros [= _ <-]|].
    intros _. by destruct r.
  - unfold admit_op. destruct l as [l|]; [|by destruct r]. destruct (_ <=? _); [by intros [= _ <-]|].
    destruct (N.ltb_spec (max_body_bytes g) l) as [|Hb]; [by intros [= _ <-]|]. intros _. by destruct r.
Qed.

(** The calls the ceiling let through. *)
Definition let_through (c : gate_call) (r : result unit GateRefusal) : N :=
  match r, c with Ok _, ChargeCall => 1 | _, _ => 0 end.

Fixpoint run_calls (cs : list gate_call) (rs : list (result unit GateRefusal)) : N :=
  match cs, rs with
  | c :: cs, r :: rs => let_through c r + run_calls cs rs
  | _, _ => 0
  end.

Lemma gate_step_calls g c g' r :
  gate_step g c = Returns (g', r) → calls g < u64_max →
  calls g ≤ calls g' ≤ calls g + 1 ∧
  calls g + let_through c r ≤ N.max (calls g) (N.min (calls g') MAX_PUBLISH_CALLS_PER_ACTIVATION).
Proof.
  intros Hs Hlt. destruct c as [|c|l da a|l|k]; simpl in Hs.
  - injection Hs as Hs. unfold charge_call in Hs. simpl in Hs. rewrite u64_add_small in Hs by lia.
    destruct (N.ltb_spec MAX_PUBLISH_CALLS_PER_ACTIVATION (calls g + 1)); injection Hs as <- <-; simpl; lia.
  - unfold admit_publish in Hs. repeat (case_match; [try done|]); simplify_eq; simpl;
      repeat case_match; simplify_eq; simpl; lia.
  - unfold admit_publish_without_sink in Hs. repeat case_match; simplify_eq; simpl; lia.
  - unfold admit_op, take_op in Hs. repeat case_match; simplify_eq; simpl; lia.
  - unfold charge_sink_on_attempt in Hs. repeat case_match; simplify_eq; simpl; lia.
Qed.

Lemma gate_run_calls g cs g' rs :
  gate_run g cs = Returns (g', rs) → calls g + len cs < u64_max →
  run_calls cs rs ≤ MAX_PUBLISH_CALLS_PER_ACTIVATION - N.min (calls g) MAX_PUBLISH_CALLS_PER_ACTIVATION.
Proof.
  revert g g' rs. induction cs as [|c cs IH]; intros g g' rs; simpl.
  { intros [= <- <-] _. simpl. lia. }
  rewrite len_cons. destruct (gate_step g c) as [[g1 r]|] eqn:Hs; [|done]. simpl.
  destruct (gate_run g1 cs) as [[g2 rs']|] eqn:Hr; [|done]. intros [= <- <-] Hlt. simpl.
  destruct (gate_step_calls g c g1 r Hs) as [Hc Hl]; [lia|].
  specialize (IH g1 g2 rs' Hr ltac:(lia)). unfold let_through in *. repeat case_match; lia.
Qed.

Lemma gate_run_spec g cs :
  gate_ok g → Forall (call_ok g) cs →
  ∃ g' rs, gate_run g cs = Returns (g', rs) ∧ gate_ok g' ∧
    counted g' = add_buffered (counted g) (run_buffers cs rs) ∧
    Forall2 (body_within (max_body_bytes g)) cs rs ∧
    ∀ k t, sinks g !! k = Some t → ∃ t', sinks g' !! k = Some t' ∧ t = t' + run_spent k cs rs.
Proof.
  revert g. induction cs as [|c cs IH]; intros g Hg Hcs; simpl.
  { do 2 eexists. split; [done|]. split; [done|]. split.
    { unfold add_buffered, counted. simpl. by rewrite !N.add_0_r. }
    split; [constructor|]. intros k t Ht. exists t. split; [done|lia]. }
  apply Forall_cons in Hcs as [Hc Hcs]. destruct (gate_step_total g c Hc) as (g1&r&Hs).
  rewrite Hs. simpl. pose proof (gate_step_ok _ _ _ _ Hg Hc Hs) as Hg1.
  destruct (gate_step_counts _ _ _ _ Hg Hc Hs) as [Hcnt Hmax].
  destruct (IH g1 Hg1) as (g2&rs&Hrun&Hg2&Hb&Hw&Htok).
  { eapply Forall_impl; [exact Hcs|]. intros c'. by apply (call_ok_step g c g1 r). }
  rewrite Hrun. simpl. do 2 eexists. split; [done|]. split; [done|]. split.
  { rewrite Hb, Hcnt. unfold add_buffered. simpl. f_equal; lia. }
  split; [constructor; [by eapply gate_step_body|by rewrite <-Hmax]|]. intros k t Ht.
  pose proof (gate_step_tokens g c g1 r k Hg Hc Hs) as Hk. rewrite Ht in Hk.
  destruct Hk as (t1&Ht1&->). destruct (Htok k t1 Ht1) as (t2&Ht2&->).
  exists t2. split; [done|lia].
Qed.

(** The guest-visible part of a gate: everything but the buckets and the host's own
    drop count. *)
Definition guest_view g : N * N * N * N * N :=
  (max_body_bytes g, calls g, entries g, ops g, bytes g).

Lemma foldl_saturating l a :
  foldl u64_saturating_add (N.min a u64_max) l = N.min (a + foldr N.add 0 l) u64_max.
Proof.
  revert a. induction l as [|x l IH]; intros a; simpl; [by rewrite N.add_0_r|].
  replace (u64_saturating_add (N.min a u64_max) x) with (N.min (a + x) u64_max)
    by (unfold u64_saturating_add; lia).
  rewrite IH. by rewrite N.add_assoc.
Qed.

Lemma sum_saturating_mul ports :
  N.min (foldr N.add 0 ((λ p : N * N, u64_saturating_mul p.1 p.2) <$> ports)) u64_max =
  N.min (foldr N.add 0 ((λ p : N * N, p.1 * p.2) <$> ports)) u64_max.
Proof.
  induction ports as [|[a n] ports IH]; [done|]. rewrite !fmap_cons. cbn [foldr fst snd].
  revert IH. generalize (foldr N.add 0 ((λ p : N * N, u64_saturating_mul p.1 p.2) <$> ports)).
  generalize (foldr N.add 0 ((λ p : N * N, p.1 * p.2) <$> ports)).
  unfold u64_saturating_mul. lia.
Qed.
End run.
#[global] Arguments gate_call K : clear implicits.
End GateRun.

Module BudgetProps.
Import Envelope Budget GateRun.

Section props.
Context `{Countable K} `{Chrono DateTime}.
Implicit Types (g : ActivationGate K) (k : K).

(** C7: Whatever calls a guest makes, in whatever order, the publishes one activation has
    accepted never exceed 256, its control ops 256, their bodies together 4 MiB and each
    body the cap; at most 512 calls pass the ceiling; the gate never unwinds while
    published ports are seeded; its counters end at exactly what it accepted; and tokens
    are conserved: each sink ends with what it was seeded with less 1000 millitokens per
    accepted publish or attempt. *)
Theorem gate_bounds_every_activation max (seeded : gmap K N) (cs : list (gate_call K)) :
  max + MAX_PUBLISH_BYTES_PER_ACTIVATION ≤ u64_max → len cs < u64_max →
  Forall (call_ok (gate_new max seeded)) cs →
  ∃ g rs, gate_run (gate_new max seeded) cs = Returns (g, rs) ∧
    b_publishes (run_buffers cs rs) ≤ 256 ∧ b_ops (run_buffers cs rs) ≤ 256 ∧
    b_bytes (run_buffers cs rs) ≤ 4194304 ∧ Forall2 (body_within max) cs rs ∧
    run_calls cs rs ≤ 512 ∧ counted g = run_buffers cs rs ∧
    ∀ k t, seeded !! k = Some t →
      ∃ t', into_sinks g !! k = Some t' ∧ t = t' + run_spent k cs rs.
Proof.
  intros Hmax Hlen Hcs. destruct (gate_run_spec (gate_new max seeded) cs) as (g&rs&Hrun&[]&Hcnt&Hw&Ht).
  - split; simpl; unfold MAX_PUBLISHES_PER_ACTIVATION, MAX_PUBLISH_BYTES_PER_ACTIVATION in *; lia.
  - done.
  - assert (Hc : counted g = run_buffers cs rs) by (rewrite Hcnt; by destruct (run_buffers cs rs)).
    exists g, rs. rewrite <-Hc. split_and!; try done.
    apply (gate_run_calls (gate_new max seeded) cs g rs Hrun). simpl. lia.
Qed.

(** A refusal is free: a refused publish, sink-less publish, control op or attempt
    leaves the gate exactly as it was; only the call ceiling counts what it refuses. *)
Theorem gate_refusal_charges_nothing g c g' e :
  gate_ok g → call_ok g c → gate_step g c = Returns (g', Err e) →
  g' = g ∨ (c = ChargeCall ∧ sinks g' = sinks g ∧ entries g' = entries g ∧
            ops g' = ops g ∧ bytes g' = bytes g).
Proof.
  intros Hg Hc. destruct c as [|c|l da a|l|k]; simpl; intros Hs; [right|left..].
  - injection Hs as Hs. unfold charge_call in Hs.
    destruct (MAX_PUBLISH_CALLS_PER_ACTIVATION <? _); [|done]. by injection Hs as <- _.
  - apply admit_publish_inv in Hs as [(e'&_&->)|(t&?&_)]; done.
  - injection Hs as Hs. apply admit_without_sink_inv in Hs as [(e'&_&->)|(?&_)]; done.
  - injection Hs as Hs. apply admit_op_inv in Hs as [(e'&_&->)|(?&_)]; done.
  - injection Hs as Hs. apply charge_sink_inv in Hs as [[-> _]|(t&?&_)]; done.
Qed.

(** A guest cannot read its own wiring out of the gate. Two gates a guest cannot
    tell apart give the same verdict to the same publish whether its port is wired to a
    solvent sink or left unwired, and afterwards it still cannot tell them apart. *)
Theorem unwired_port_is_indistinguishable g1 g2 k t l da a :
  guest_view g1 = guest_view g2 → sinks g1 !! k = Some t → MILLITOKENS_PER_PUBLISH ≤ t →
  ∃ g1' r, admit_publish g1 (mkCheck k l da a) = Returns (g1', r) ∧
    (admit_publish_without_sink g2 l da a).2 = r ∧
    guest_view g1' = guest_view (admit_publish_without_sink g2 l da a).1.
Proof.
  destruct g1 as [m s c e d o b], g2 as [m2 s2 c2 e2 d2 o2 b2]. unfold guest_view. simpl.
  intros [= <- <- <- <- <-] Ht Hle. unfold admit_publish, admit_publish_without_sink. simpl.
  destruct (m <? l); [by do 2 eexists|]. destruct (check_deliver_after da); [|by do 2 eexists].
  rewrite Ht. destruct (N.ltb_spec t MILLITOKENS_PER_PUBLISH); [lia|].
  destruct (_ <=? _); [by do 2 eexists|]. destruct (_ <? _); by do 2 eexists.
Qed.

(** What a publish is told depends only on its argument: it is called invalid
    exactly when its body is over the cap or its release time is not representable,
    whatever the gate has already admitted; every other refusal is a spent budget. *)
Theorem invalid_payload_is_about_the_argument g c g' e :
  gate_ok g → call_ok g (Publish c) → admit_publish g c = Returns (g', Err e) →
  (∃ fault, publish_refusal_kind e = InvalidPayload fault) ↔
    (max_body_bytes g < body_len c ∨
     ∃ ms, check_after c = Some ms ∧ utc_from_epoch_ms (DateTime := DateTime) ms = None).
Proof.
  intros Hg [[t Ht] Ha]. unfold admit_publish, check_deliver_after.
  destruct (N.ltb_spec (max_body_bytes g) (body_len c)) as [Hb|Hb].
  { intros [= _ <-]. naive_solver. }
  rewrite Ht. destruct (check_after c) as [ms|] eqn:Hda.
  - destruct (utc_from_epoch_ms ms) as [d|] eqn:Hu.
    + repeat case_match; intros [= _ <-]; simpl; split; try naive_solver; naive_solver lia.
    + intros [= _ <-]. simpl. naive_solver.
  - repeat case_match; intros [= _ <-]; simpl; split; naive_solver lia.
Qed.

(** The call ceiling admits the first 512 calls of an activation and refuses every
    later one, counting the refused ones too. *)
Theorem call_ceiling_admits_first_512 max (seeded : gmap K N) n :
  N.of_nat n < u64_max →
  let g := Nat.iter n (λ g, (charge_call g).1) (gate_new max seeded) in
  calls g = N.of_nat n ∧ ((charge_call g).2 = Ok () ↔ N.of_nat n < 512).
Proof.
  intros Hn. cbv zeta.
  assert (Hc : calls (Nat.iter n (λ g, (charge_call g).1) (gate_new max seeded)) = N.of_nat n).
  { induction n as [|n IH]; [done|]. simpl. unfold charge_call at 1.
    set (g := Nat.iter n _ _) in *.
    destruct (MAX_PUBLISH_CALLS_PER_ACTIVATION <? _); simpl; rewrite IH, u64_add_small; lia. }
  split; [done|]. set (g := Nat.iter n _ _) in *. unfold charge_call. simpl.
  rewrite Hc, u64_add_small by lia. unfold MAX_PUBLISH_CALLS_PER_ACTIVATION.
  destruct (N.ltb_spec 512 (N.of_nat n + 1)); simpl; split; (done || lia).
Qed.
End props.

(** Seeding is exact up to the counter's width: the input grant is the sum over ports
    of amplification times new messages, and a bucket starts with its carry clamped to
    capacity plus fill plus grant, each saturating at the top rather than wrapping. *)
Theorem seeding_saturates_exactly carry fill cap ports :
  grant_input_mt ports = N.min (foldr N.add 0 ((λ p : N * N, p.1 * p.2) <$> ports)) u64_max ∧
  seed_sink_budget carry (mkSinkBudget fill cap) (grant_input_mt ports) =
    N.min (N.min carry cap + fill + foldr N.add 0 ((λ p : N * N, p.1 * p.2) <$> ports)) u64_max.
Proof.
  assert (Hg : grant_input_mt ports =
    N.min (foldr N.add 0 ((λ p : N * N, p.1 * p.2) <$> ports)) u64_max).
  { unfold grant_input_mt. change 0 with (N.min 0 u64_max) at 1.
    rewrite foldl_saturating, N.add_0_l. apply sum_saturating_mul. }
  split; [done|]. rewrite Hg. unfold seed_sink_budget, u64_saturating_add. simpl. lia.
Qed.

Import EvalInstances.

(** A gate with one seeded port and a small body cap. *)
Definition ex_gate : ActivationGate string := gate_new 16 {["out" := 2500]}.

Lemma ex_gate_ok : gate_ok ex_gate.
Proof. split; vm_compute; discriminate. Qed.

Lemma gate_bounds_every_activation_witness :
  ∃ g rs, gate_run ex_gate [ChargeCall; Publish (mkCheck "out" 9 None 0); ControlOp (Some 17);
      Publish (mkCheck "out" 9 None 0); Publish (mkCheck "out" 1 None 0)] = Returns (g, rs) ∧
    rs = [Ok (); Ok (); Err (BodyTooLarge 17 16); Ok (); Err SinkExhausted].
Proof.
  destruct (gate_bounds_every_activation 16 {["out" := 2500]} [ChargeCall;
    Publish (mkCheck "out" 9 None 0); ControlOp (Some 17); Publish (mkCheck "out" 9 None 0);
    Publish (mkCheck "out" 1 None 0)]) as (g&rs&Hrun&_).
  - vm_compute. discriminate.
  - vm_compute. reflexivity.
  - repeat constructor; simpl; (done || (vm_compute; discriminate) || (eexists; vm_compute; reflexivity)).
  - exists g, rs. split; [exact Hrun|]. vm_compute in Hrun. by injection Hrun as _ <-.
Defined.

Lemma gate_refusal_charges_nothing_witness :
  gate_step ex_gate (ControlOp (Some 17)) = Returns (ex_gate, Err (BodyTooLarge 17 16)) ∧
  (ex_gate = ex_gate ∨ (@ControlOp string (Some 17) = ChargeCall ∧ sinks ex_gate = sinks ex_gate ∧
     entries ex_gate = entries ex_gate ∧ ops ex_gate = ops ex_gate ∧ bytes ex_gate = bytes ex_gate)).
Proof.
  assert (Hs : gate_step ex_gate (ControlOp (Some 17)) = Returns (ex_gate, Err (BodyTooLarge 17 16)))
    by reflexivity.
  split; [exact Hs|].
  exact (gate_refusal_charges_nothing ex_gate (ControlOp (Some 17)) ex_gate _ ex_gate_ok I Hs).
Defined.

Lemma unwired_port_is_indistinguishable_witness :
  ∃ g1' r, admit_publish ex_gate (mkCheck "out" 9 None 0) = Returns (g1', r) ∧
    (admit_publish_without_sink (K := string) (gate_new 16 ∅) 9 None 0).2 = r.
Proof.
  destruct (unwired_port_is_indistinguishable ex_gate (gate_new 16 ∅) "out" 2500 9 None 0)
    as (g1'&r&Ha&Hr&_); [reflexivity|vm_compute; reflexivity|vm_compute; discriminate|].
  exists g1', r. split; [exact Ha|exact Hr].
Defined.

Lemma invalid_payload_is_about_the_argument_witness :
  ∃ fault, publish_refusal_kind (UnrepresentableDeliverAfter u64_max) = InvalidPayload fault.
Proof.
  assert (Hc : call_ok ex_gate (Publish (mkCheck "out" 9 (Some u64_max) 0))).
  { split; [eexists; vm_compute; reflexivity|vm_compute; discriminate]. }
  apply (invalid_payload_is_about_the_argument ex_gate (mkCheck "out" 9 (Some u64_max) 0) ex_gate
    (UnrepresentableDeliverAfter u64_max) ex_gate_ok Hc); [vm_compute; reflexivity|].
  right. exists u64_max. split; [reflexivity|vm_compute; reflexivity].
Defined.
End BudgetProps.
