(* ===== verification/Activation.v ===== *)
(** * The activation model ([brenn-activation/src/{lib,schedule,sync}.rs])

    What a component is handed, when it runs, and how a sync call is answered. *)

From S2P Require Import Prelude Envelope.

#[local] Open Scope string_scope.
#[local] Open Scope N_scope.
#[local] Open Scope list_scope.

Module Activation.
Import Envelope.

Definition WINDOW_DEPTH_CEILING : N := 1000.

(** [DeferredEntry]. *)
Record DeferredEntry := mkDeferredEntry {
  index : N;
  entry_payload : string;
  entry_deliver_after : N;
}.

(** [DeferredWindow]. *)
Record DeferredWindow := mkDeferredWindow {
  deferred_port : string;
  deferred_entries : list DeferredEntry;
}.

(** [PortWindow<E>]. *)
Record PortWindow (E : Type) := mkPortWindow {
  port : string;
  envelopes : list E;
  new_from : N;
  dropped : N;
}.
Arguments mkPortWindow {E}.
Arguments port {E}.
Arguments envelopes {E}.
Arguments new_from {E}.
Arguments dropped {E}.

(** [Activation<E>]. *)
Record Activation (E : Type) := mkActivation {
  ports : list (PortWindow E);
  deferred : list DeferredWindow;
  now : option N;
  sync : option string;
}.
Arguments mkActivation {E}.
Arguments ports {E}.
Arguments deferred {E}.
Arguments now {E}.
Arguments sync {E}.

Section windows.
Context {E : Type}.
Implicit Types (w : PortWindow E) (a : Activation E).

(** [PortWindow::new_envelopes]: the slice [envelopes[new_from..]], which unwinds when
    the index is past the end. *)
Definition new_envelopes w : panics (list E) :=
  if new_from w <=? len (envelopes w) then Returns (drop (N.to_nat (new_from w)) (envelopes w))
  else Panics "range start index out of range for slice".

(** [PortWindow::new_len]. *)
Definition new_len w : N := u64_saturating_sub (len (envelopes w)) (new_from w).

(** [PortWindow::latest_new]. *)
Definition latest_new w : panics (option E) := last <$> new_envelopes w.

(** Whether [PortWindow::latest_wins_misconfiguration] has a report to make. *)
Definition latest_wins_misconfigured w : bool := negb (new_len w <=? 1).

(** [Activation::total_dropped]. *)
Definition total_dropped a : N :=
  foldl (λ acc w, u64_saturating_add acc (dropped w)) 0 (ports a).

(** [Activation::sync_window]. *)
Definition sync_window a : panics (option (PortWindow E)) :=
  match sync a with
  | None => Returns None
  | Some p =>
      Some <$> rust_expect (snd <$> list_find (λ w, port w = p) (ports a))
        "a sync-call activation carries the window of the port it names"
  end.

(** [Activation::sync_request]. *)
Definition sync_request a : panics (option (string * E)) :=
  ow ← sync_window a;
  match ow with
  | None => Returns None
  | Some w =>
      new ← new_envelopes w;
      match new with
      | [request] => Returns (Some (port w, request))
      | _ => Panics "a sync-call activation's window carries the one live request"
      end
  end.

(** [Activation::delivered_windows]. *)
Definition delivered_windows a : list (PortWindow E) :=
  filter (λ w, Some (port w) ≠ sync a) (ports a).
End windows.

(** ** The async gate *)

Inductive MountDebt := Unwired | Owed | Settled.
#[export] Instance MountDebt_eq_dec : EqDecision MountDebt.
Proof. solve_decision. Defined.

(** [PortReadiness]. *)
Record PortReadiness := mkReadiness { allowed : bool; push_enabled : bool; deliverable : bool }.

(** [PortReadiness::is_ready]. *)
Definition is_ready (p : PortReadiness) : bool := allowed p && push_enabled p && deliverable p.

Inductive Wake := Mount | Delivery | Sync.

(** [readiness]. *)
Definition readiness (mount : MountDebt) (any_port_ready : bool) : option Wake :=
  if decide (mount = Owed) then Some Mount
  else if any_port_ready then Some Delivery else None.

(** ** Sync calls *)

Definition SYNC_CHANNEL_PREFIX : string := "local:brenn/sync/".

(** [sync_channel]. *)
Definition sync_channel (p : string) : string := SYNC_CHANNEL_PREFIX +:+ p.

(** [sync_request] of [sync.rs]: the minted request envelope. *)
Definition mint_sync_request {Uuid DateTime} (inst p b : string) (mid : Uuid) (ts : DateTime)
    : MessageEnvelope Uuid DateTime :=
  mkEnvelope mid inst (sync_channel p) inst ts b None None None None Normal Local.

(** [within_body_cap]. *)
Definition within_body_cap (reply : string) (cap : N) : bool := str_len reply <=? cap.

Inductive SyncRefusal := ReEntrant | Unregistered | RefusalFailed | RefusalUnwired | Unmounted.
Inductive SyncAnswer :=
| AnswerOk (reply : option string)
| AnswerErr (account : string)
| Trap
| AnswerRefused (why : SyncRefusal).
Inductive CallDisposition := CallFailed | CallRefused.

(** [call_disposition]. *)
Definition call_disposition (answer : SyncAnswer)
    : panics (result (option string) CallDisposition) :=
  match answer with
  | AnswerOk reply => Returns (Ok reply)
  | AnswerErr _ | Trap => Returns (Err CallFailed)
  | AnswerRefused ReEntrant => Panics "call was refused re-entrant"
  | AnswerRefused _ => Returns (Err CallRefused)
  end.
End Activation.

Module ActivationProps.
Import Envelope Activation.

Section props.
Context {E : Type}.
Implicit Types (a : Activation E) (bound : list (PortWindow E)).

(** On a sync-call activation, assembled as the bound ports' windows followed by
    the one-request window of a port that is not bound, a component reads the request
    exactly once: the request accessor answers it, the delivery fold is exactly the bound
    windows, and neither unwinds. On an async activation there is no request and the
    fold is every window. *)
Theorem sync_request_is_read_exactly_once a bound p (request : E) :
  ports a = bound ++ [mkPortWindow p [request] 0 0] → sync a = Some p → p ∉ port <$> bound →
  sync_request a = Returns (Some (p, request)) ∧ delivered_windows a = bound ∧
  sync_request (mkActivation bound (deferred a) (now a) None) = Returns None ∧
  delivered_windows (mkActivation bound (deferred a) (now a) None) = bound.
Proof.
  intros Hports Hsync Hfresh.
  assert (Hnone : Forall (λ w, port w ≠ p) bound).
  { apply Forall_forall. intros w Hw <-. by apply Hfresh, list_elem_of_fmap_2. }
  split_and!; [| |done|].
  - unfold sync_request, sync_window. rewrite Hsync, Hports.
    rewrite list_find_app_r by (by apply list_find_None). simpl. by rewrite decide_True.
  - unfold delivered_windows. rewrite Hports, Hsync, filter_app, filter_all.
    + rewrite filter_cons_False, filter_nil, app_nil_r; [done|]. simpl. naive_solver.
    + eapply Forall_impl; [exact Hnone|]. naive_solver.
  - unfold delivered_windows. apply filter_all, Forall_forall. done.
Qed.
End props.

Definition ex_bound : list (PortWindow N) := [mkPortWindow "in" [1; 2] 1 0].
Definition ex_call : Activation N :=
  mkActivation (ex_bound ++ [mkPortWindow "ask" [9] 0 0]) [] None (Some "ask").

Lemma sync_request_is_read_exactly_once_witness :
  sync_request ex_call = Returns (Some ("ask", 9)) ∧ delivered_windows ex_call = ex_bound.
Proof.
  assert (Hf : "ask" ∉ port <$> ex_bound) by (simpl; set_solver).
  destruct (sync_request_is_read_exactly_once ex_call ex_bound "ask" 9 eq_refl eq_refl Hf)
    as (Hr&Hd&_). split; [exact Hr|exact Hd].
Defined.

(** A request envelope a host mints for a sync call is confined by its address and asks
    for no deferral, deadline or impetus. *)
Lemma sync_request_is_confined {Uuid DateTime} inst p b (mid : Uuid) (ts : DateTime) :
  let env := mint_sync_request inst p b mid ts in
  is_local_channel (channel env) = true ∧ scheme_of (channel env) = Some (envelope_type env) ∧
  deliver_after env = None ∧ delivery_deadline env = None ∧ impetus env = None.
Proof. split_and!; reflexivity. Qed.
End ActivationProps.
