(* ===== verification/Proto.v ===== *)
(** * The attachment protocol ([attach/proto/src/lib.rs])

    The frames of both directions, version negotiation, and the law a batch must obey.
    The JSON text of a frame is the serializer's; what the frame cap relies on of it is
    stated as hypotheses on encoded sizes. *)

From S2P Require Import Prelude Envelope.

#[local] Open Scope N_scope.

Module Proto.
Import Envelope.

(** [VersionRange]. *)
Record VersionRange := mkRange { min : N; max : N }.

(** [VersionRange::exactly]. *)
Definition exactly (version : N) : VersionRange := mkRange version version.

Definition SUPPORTED_VERSIONS : VersionRange := exactly 4.

(** [negotiate]. *)
Definition negotiate (a b : VersionRange) : option N :=
  let agreed := N.min (max a) (max b) in
  if N.max (min a) (min b) <=? agreed then Some agreed else None.

(** [Cursor]: opaque, stored and echoed. *)
Inductive Cursor := mkToken (token : string).
#[export] Instance Cursor_eq_dec : EqDecision Cursor.
Proof. solve_decision. Defined.

(** [BatchEntry]. *)
Record BatchEntry := mkEntry {
  entry_channel : string;
  entry_body : string;
  entry_urgency : Urgency;
  entry_deliver_after : option N;
}.

(** [DeferredOpKind]. *)
Inductive DeferredOpKind :=
| Cancel
| Edit (body : option string) (deliver_after : option N).

(** [BatchDeferredOp]. *)
Record BatchDeferredOp (Uuid : Type) := mkDeferredOp {
  op_channel : string;
  op_message_id : Uuid;
  op_kind : DeferredOpKind;
}.
Arguments mkDeferredOp {Uuid}.
Arguments op_channel {Uuid}.
Arguments op_message_id {Uuid}.
Arguments op_kind {Uuid}.

Inductive AlertSeverity := Info | Warning | Critical.

(** [AlertSeverity::from_wire_str]. *)
Definition severity_from_wire_str (s : string) : option AlertSeverity :=
  if String.eqb s "info" then Some Info
  else if String.eqb s "warning" then Some Warning
  else if String.eqb s "critical" then Some Critical
  else None.

(** [ClientFrame]. *)
Inductive ClientFrame (Uuid : Type) :=
| ClientHello (versions : VersionRange) (ident : string)
| Subscribe (channel : string) (push_depth retain_depth : N) (resume : option Cursor)
| Unsubscribe (channel : string)
| Publish (channel : string) (attribution : option string) (body : string) (urgency : Urgency)
    (correlation : option N)
| PublishBatch (attribution : option string) (correlation : N) (publishes : list BatchEntry)
    (deferred_ops : list (BatchDeferredOp Uuid))
| Alert (attribution : option string) (severity : AlertSeverity) (title body : string).
Arguments ClientHello {Uuid}.
Arguments Subscribe {Uuid}.
Arguments Unsubscribe {Uuid}.
Arguments Publish {Uuid}.
Arguments PublishBatch {Uuid}.
Arguments Alert {Uuid}.

(** [DeliverRow]. *)
Record DeliverRow (Uuid DateTime : Type) := mkRow {
  row_envelope : MessageEnvelope Uuid DateTime;
  row_seq : N;
  row_cursor : Cursor;
  row_dropped : N;
}.
Arguments mkRow {Uuid DateTime}.
Arguments row_envelope {Uuid DateTime}.
Arguments row_seq {Uuid DateTime}.
Arguments row_cursor {Uuid DateTime}.
Arguments row_dropped {Uuid DateTime}.

(** [DeferredViewEntry]. *)
Record DeferredViewEntry (Uuid : Type) := mkViewEntry {
  view_message_id : Uuid;
  view_body : string;
  view_deliver_after : N;
}.
Arguments mkViewEntry {Uuid}.
Arguments view_message_id {Uuid}.
Arguments view_body {Uuid}.
Arguments view_deliver_after {Uuid}.

Inductive GapReason := EpochChanged | BeyondRetained.
Record GapInfo := mkGap { reason : GapReason }.
Inductive SubscribeOutcome := SubscribeOk | Unavailable.
Inductive PublishOutcome := PublishOk | RateLimited | BodyTooLarge (length max : N) | Failed.
Inductive PublishBatchOutcome := BatchOk | BatchRateLimited.

(** [ServerFrame]. *)
Inductive ServerFrame (Uuid DateTime : Type) :=
| ServerHello (versions : VersionRange) (ident : string)
| Welcome (version : N) (participant_id session_id : string)
    (heartbeat_secs max_body_bytes max_frame_bytes : N) (alert_granted : bool)
| Heartbeat
| SubscribeResult (channel : string) (outcome : SubscribeOutcome) (replay_count : N)
    (gap : option GapInfo)
| Deliver (channel : string) (rows : list (DeliverRow Uuid DateTime))
| PublishResult (correlation : option N) (outcome : PublishOutcome)
| PublishBatchResult (correlation : N) (outcome : PublishBatchOutcome)
| DeferredView (channel : string) (attribution : option string)
    (entries : list (DeferredViewEntry Uuid)).
Arguments ServerHello {Uuid DateTime}.
Arguments Welcome {Uuid DateTime}.
Arguments Heartbeat {Uuid DateTime}.
Arguments SubscribeResult {Uuid DateTime}.
Arguments Deliver {Uuid DateTime}.
Arguments PublishResult {Uuid DateTime}.
Arguments PublishBatchResult {Uuid DateTime}.
Arguments DeferredView {Uuid DateTime}.

Definition PUBLISH_FRAME_OVERHEAD_BYTES : N := 8 * 1024.
Definition JSON_ESCAPE_EXPANSION : N := 6.
Definition MAX_BATCH_OPS : N := 512.
Definition BATCH_OP_OVERHEAD_BYTES : N := 256.
Definition MAX_ALERT_TITLE_BYTES : N := 256.
Definition MAX_ALERT_BODY_BYTES : N := 4 * 1024.

(** [BatchIllegal]. *)
Inductive BatchIllegal :=
| TooManyOps (ops cap : N)
| TooManyBytes (bytes cap : N).

Section law.
Context {Uuid : Type}.
Implicit Types (e : BatchEntry) (o : BatchDeferredOp Uuid).

(** The bytes one publish charges: [entry.channel.len() + entry.body.len()]. *)
Definition entry_charge e : N := u64_add (str_len (entry_channel e)) (str_len (entry_body e)).

(** The bytes one control op charges. *)
Definition op_charge o : N :=
  u64_add (str_len (op_channel o))
    match op_kind o with
    | Cancel => 0
    | Edit b _ => match b with Some b => str_len b | None => 0 end
    end.

(** [batch_charged_bytes]. *)
Definition batch_charged_bytes (publishes : list BatchEntry)
    (deferred_ops : list (BatchDeferredOp Uuid)) : N :=
  let entries := foldl u64_add 0 (entry_charge <$> publishes) in
  let ops := foldl u64_add 0 (op_charge <$> deferred_ops) in
  u64_add entries ops.

(** [check_batch_legality]. *)
Definition check_batch_legality (publishes : list BatchEntry)
    (deferred_ops : list (BatchDeferredOp Uuid)) (max_body_bytes : N) : result unit BatchIllegal :=
  let ops := u64_add (len publishes) (len deferred_ops) in
  if MAX_BATCH_OPS <? ops then Err (TooManyOps ops MAX_BATCH_OPS)
  else
    let bytes := batch_charged_bytes publishes deferred_ops in
    if max_body_bytes <? bytes then Err (TooManyBytes bytes max_body_bytes) else Ok ().
End law.

(** [usize::checked_mul] and [usize::checked_add]. *)
Definition checked_mul (a b : N) : option N := if a * b <=? usize_max then Some (a * b) else None.
Definition checked_add (a b : N) : option N := if a + b <=? usize_max then Some (a + b) else None.

(** [max_client_frame_bytes]. *)
Definition max_client_frame_bytes (max_body_bytes : N) : panics N :=
  rust_expect
    (scaled ← checked_mul max_body_bytes JSON_ESCAPE_EXPANSION;
     scaled ← checked_add scaled (MAX_BATCH_OPS * BATCH_OP_OVERHEAD_BYTES);
     checked_add scaled PUBLISH_FRAME_OVERHEAD_BYTES)
    "max_body_bytes too large: WS frame-cap derivation overflowed usize".

Definition sum (l : list N) : N := foldr N.add 0 l.

(** Unwrapped charges. *)
Definition entry_bytes (e : BatchEntry) : N := str_len (entry_channel e) + str_len (entry_body e).
Definition op_bytes {Uuid} (o : BatchDeferredOp Uuid) : N :=
  str_len (op_channel o) +
  match op_kind o with Edit (Some b) _ => str_len b | _ => 0 end.

Lemma foldl_u64_add l acc : acc + sum l ≤ u64_max → foldl u64_add acc l = acc + sum l.
Proof.
  revert acc. induction l as [|x l IH]; intros acc; simpl; [lia|]. intros Hle.
  rewrite u64_add_small by lia. rewrite IH; lia.
Qed.

Lemma sum_fmap_ext {A} (f g : A → N) (l : list A) :
  sum (g <$> l) ≤ u64_max → (∀ x, g x ≤ u64_max → f x = g x) → sum (f <$> l) = sum (g <$> l).
Proof.
  intros Hle Hfg. induction l as [|x l IH]; [done|]. rewrite !fmap_cons in *. simpl in *.
  rewrite (Hfg x), IH; lia.
Qed.

Lemma batch_charged_exact {Uuid} ps (os : list (BatchDeferredOp Uuid)) :
  sum (entry_bytes <$> ps) + sum (op_bytes <$> os) ≤ u64_max →
  batch_charged_bytes ps os = sum (entry_bytes <$> ps) + sum (op_bytes <$> os).
Proof.
  intros Hle. unfold batch_charged_bytes.
  assert (He : sum (entry_charge <$> ps) = sum (entry_bytes <$> ps)).
  { apply sum_fmap_ext; [lia|]. intros e ?. unfold entry_charge, entry_bytes in *.
    by rewrite u64_add_small. }
  assert (Ho : sum (op_charge <$> os) = sum (op_bytes <$> os)).
  { apply sum_fmap_ext; [lia|]. intros [c i [|[b|] d]] ?; unfold op_charge, op_bytes in *; simpl in *;
      by rewrite u64_add_small. }
  rewrite !foldl_u64_add by lia. rewrite u64_add_small by lia. lia.
Qed.

Lemma sum_fmap_le {A} (f g : A → N) (a b : N) (l : list A) :
  (∀ x, f x ≤ a * g x + b) → sum (f <$> l) ≤ a * sum (g <$> l) + b * len l.
Proof.
  intros Hfg. induction l as [|x l IH]; [simpl; lia|]. specialize (Hfg x).
  change (sum (f <$> x :: l)) with (f x + sum (f <$> l)).
  change (sum (g <$> x :: l)) with (g x + sum (g <$> l)).
  rewrite len_cons, !N.mul_add_distr_l. lia.
Qed.

Lemma max_client_frame_bytes_Returns m c :
  max_client_frame_bytes m = Returns c ↔
  c = m * JSON_ESCAPE_EXPANSION + MAX_BATCH_OPS * BATCH_OP_OVERHEAD_BYTES
      + PUBLISH_FRAME_OVERHEAD_BYTES ∧ c ≤ usize_max.
Proof.
  unfold max_client_frame_bytes, checked_mul, checked_add.
  repeat (case_bool; simpl); split; try (intros [= <-]); try (intros [-> ?]); (done || lia || auto).
Qed.
End Proto.

Module ProtoProps.
Import Envelope Proto.

(** Both ends compute the same version from the two ranges: negotiation is symmetric,
    answers the highest version inside both ranges, and answers nothing exactly when no
    version is in both (a reversed range included). *)
Theorem negotiate_is_highest_common a b :
  negotiate a b = negotiate b a ∧
  match negotiate a b with
  | Some v =>
      (min a ≤ v ≤ max a ∧ min b ≤ v ≤ max b) ∧
      ∀ w, min a ≤ w ≤ max a → min b ≤ w ≤ max b → w ≤ v
  | None => ∀ w, ¬ (min a ≤ w ≤ max a ∧ min b ≤ w ≤ max b)
  end.
Proof.
  unfold negotiate. split; [by rewrite N.min_comm, (N.max_comm (min a))|].
  case_bool; [split; [lia|intros; lia]|intros w; lia].
Qed.

Section frames.
Context {Uuid : Type}.
Variable entry_size : BatchEntry → N.
Variable op_size : BatchDeferredOp Uuid → N.
Variable shell_size : N.
(** What the frame cap takes of the JSON encoder: a charged byte encodes to at most six,
    the uncharged fields of one operation fit its allowance, and everything outside the
    two lists fits the base allowance. *)
Hypothesis entry_size_bound :
  ∀ e, entry_size e ≤ JSON_ESCAPE_EXPANSION * entry_bytes e + BATCH_OP_OVERHEAD_BYTES.
Hypothesis op_size_bound :
  ∀ o, op_size o ≤ JSON_ESCAPE_EXPANSION * op_bytes o + BATCH_OP_OVERHEAD_BYTES.
Hypothesis shell_size_bound : shell_size ≤ PUBLISH_FRAME_OVERHEAD_BYTES.

Definition frame_size (ps : list BatchEntry) (os : list (BatchDeferredOp Uuid)) : N :=
  shell_size + sum (entry_size <$> ps) + sum (op_size <$> os).

(** A legal batch is a frame the peer will read: on every attachment whose body cap
    admits a frame cap at all, a batch that passes the legality law encodes within the
    advertised cap, so a conforming flush is never taken for tampering. The law itself
    is exact: it passes precisely the batches of at most 512 operations whose channels
    and bodies fit the body cap. *)
Theorem legal_batch_fits_frame_cap ps os m cap :
  len ps + len os ≤ u64_max → sum (entry_bytes <$> ps) + sum (op_bytes <$> os) ≤ u64_max →
  max_client_frame_bytes m = Returns cap →
  (check_batch_legality ps os m = Ok () ↔
     len ps + len os ≤ 512 ∧ sum (entry_bytes <$> ps) + sum (op_bytes <$> os) ≤ m) ∧
  (check_batch_legality ps os m = Ok () → frame_size ps os ≤ cap).
Proof.
  intros Hlen Hsum Hcap. apply max_client_frame_bytes_Returns in Hcap as [-> _].
  assert (Hlaw : check_batch_legality ps os m = Ok () ↔
    len ps + len os ≤ 512 ∧ sum (entry_bytes <$> ps) + sum (op_bytes <$> os) ≤ m).
  { unfold check_batch_legality. rewrite u64_add_small by done. rewrite batch_charged_exact by done.
    unfold MAX_BATCH_OPS. repeat case_bool; split; (done || lia || auto). }
  split; [done|]. intros [Hops Hbytes]%Hlaw. unfold frame_size.
  pose proof (sum_fmap_le entry_size entry_bytes _ _ ps entry_size_bound).
  pose proof (sum_fmap_le op_size op_bytes _ _ os op_size_bound).
  unfold MAX_BATCH_OPS, JSON_ESCAPE_EXPANSION, BATCH_OP_OVERHEAD_BYTES in *. lia.
Qed.
End frames.

Lemma legal_batch_fits_frame_cap_witness :
  check_batch_legality (Uuid := N) [mkEntry "brenn:a" "hello" Normal None]
    [mkDeferredOp "brenn:a" 1 Cancel] 64 = Ok () ∧
  frame_size (Uuid := N) (λ e, 6 * entry_bytes e + 200) (λ o, 6 * op_bytes o + 100) 80
    [mkEntry "brenn:a" "hello" Normal None] [mkDeferredOp "brenn:a" 1 Cancel] ≤ 139648.
Proof.
  assert (Hl : check_batch_legality (Uuid := N) [mkEntry "brenn:a" "hello" Normal None]
    [mkDeferredOp "brenn:a" 1 Cancel] 64 = Ok ()) by (vm_compute; reflexivity).
  split; [exact Hl|].
  refine (proj2 (legal_batch_fits_frame_cap (Uuid := N) (λ e, 6 * entry_bytes e + 200)
    (λ o, 6 * op_bytes o + 100) 80 _ _ _ _ _ 64 139648 _ _ _) Hl).
  - intros e. unfold JSON_ESCAPE_EXPANSION, BATCH_OP_OVERHEAD_BYTES. lia.
  - intros o. unfold JSON_ESCAPE_EXPANSION, BATCH_OP_OVERHEAD_BYTES. lia.
  - vm_compute. discriminate.
  - vm_compute. discriminate.
  - vm_compute. discriminate.
  - vm_compute. reflexivity.
Defined.
End ProtoProps.
