(* ===== verification/Subs.v ===== *)
(** * Wire subscriptions ([attach/client/src/subs.rs])

    Which channels an attachment is subscribed to and where each stream stands.
    [SubsPeer] is the peer's side of the protocol law; [SubsProps] proves that whatever
    the embedder and the peer do, the frames sent obey it. *)

From S2P Require Import Prelude Envelope Proto.

#[local] Open Scope string_scope.
#[local] Open Scope N_scope.
#[local] Open Scope list_scope.

(** A [BTreeMap<String, _>] is iterated in address order. *)
Definition address_order {V} (m : gmap string V) : list string :=
  merge_sort Envelope.str_le (map_to_list m).*1.

Lemma elem_of_address_order {V} (m : gmap string V) k : k ∈ address_order m ↔ is_Some (m !! k).
Proof.
  unfold address_order. rewrite merge_sort_Permutation, list_elem_of_fmap. split.
  - intros ([k' v]&->&Hin). exists v. by apply elem_of_map_to_list.
  - intros [v Hv]. exists (k, v). split; [done|]. by apply elem_of_map_to_list.
Qed.

Lemma NoDup_address_order {V} (m : gmap string V) : NoDup (address_order m).
Proof. unfold address_order. rewrite merge_sort_Permutation. apply NoDup_fst_map_to_list. Qed.

Module Subs.
Import Envelope Proto.

(** [SubscriptionDepths]. *)
Record SubscriptionDepths := mkDepths { push_depth : N; retain_depth : N }.
#[export] Instance SubscriptionDepths_eq_dec : EqDecision SubscriptionDepths.
Proof. solve_decision. Defined.

Inductive ResumePolicy := Resume | Cursorless.
#[export] Instance ResumePolicy_eq_dec : EqDecision ResumePolicy.
Proof. solve_decision. Defined.

Inductive WireState := Unsubscribed | Pending | Active.
#[export] Instance WireState_eq_dec : EqDecision WireState.
Proof. solve_decision. Defined.

(** [ChannelSubscription]. *)
Record ChannelSubscription := mkSub {
  refcount : N;
  depths : SubscriptionDepths;
  resume_policy : ResumePolicy;
  wire : WireState;
  token : option Cursor;
  span_hw : option N;
  has_been_active : bool;
  straggler_reported : bool;
  stated : option (SubscriptionDepths * ResumePolicy);
}.

(** [Subscriptions]. *)
Record Subscriptions := mkSubs {
  channels : gmap string ChannelSubscription;
  live : bool;
}.

(** [SubscribeAck]. *)
Record SubscribeAck (Uuid : Type) := mkAck {
  ack_frames : list (ClientFrame Uuid);
  ack_live : bool;
  ack_replay_count : N;
  ack_gap : option GapInfo;
}.
Arguments mkAck {Uuid}.
Arguments ack_frames {Uuid}.
Arguments ack_live {Uuid}.
Arguments ack_replay_count {Uuid}.
Arguments ack_gap {Uuid}.

(** [SubscribeSettlement]. *)
Inductive SubscribeSettlement (Uuid : Type) :=
| Opened (ack : SubscribeAck Uuid)
| SettledUnavailable.
Arguments Opened {Uuid}.
Arguments SettledUnavailable {Uuid}.

(** [DeliverDisposition]. *)
Inductive DeliverDisposition :=
| Accept (dropped : N)
| Discard (first : bool) (dropped : N).

Section operations.
Context {Uuid DateTime : Type}.
Implicit Types (s : Subscriptions) (e : ChannelSubscription) (c : string).

Definition with_channels s (m : gmap string ChannelSubscription) : Subscriptions := mkSubs m (live s).

(** [ChannelSubscription::prepare_subscribe]. *)
Definition prepare_subscribe e : ChannelSubscription * option Cursor :=
  (mkSub (refcount e) (depths e) (resume_policy e) Pending (token e) None (has_been_active e)
     (straggler_reported e) (Some (depths e, resume_policy e)),
   match resume_policy e with Resume => token e | Cursorless => None end).

(** [ChannelSubscription::subscribe_frame]. *)
Definition subscribe_frame e c : ChannelSubscription * ClientFrame Uuid :=
  let '(e', resume) := prepare_subscribe e in
  (e', Subscribe c (push_depth (depths e)) (retain_depth (depths e)) resume).

(** [unsubscribe_frame]. *)
Definition unsubscribe_frame c : ClientFrame Uuid := Unsubscribe c.

(** [Subscriptions::new]. *)
Definition subs_new : Subscriptions := mkSubs ∅ false.

(** [Subscriptions::acquire]. *)
Definition acquire s c (d : SubscriptionDepths) (rp : ResumePolicy)
    : panics (Subscriptions * list (ClientFrame Uuid)) :=
  _ ← rust_assert (negb (is_local_channel c))
        "attach client: channel is confined and never crosses the wire";
  _ ← rust_assert ((0 <? push_depth d) || (0 <? retain_depth d))
        "attach client: subscription states no depth on either knob";
  let e := default (mkSub 0 d rp Unsubscribed None None false false None) (channels s !! c) in
  let e :=
    if refcount e =? 0 then
      mkSub (refcount e) d rp (wire e) (token e) (span_hw e) (has_been_active e)
        (straggler_reported e) (stated e)
    else e in
  _ ← rust_assert (bool_decide (depths e = d) && bool_decide (resume_policy e = rp))
        "attach client: channel re-acquired with a different subscription";
  let e := mkSub (u32_saturating_add (refcount e) 1) (depths e) (resume_policy e) (wire e)
             (token e) (span_hw e) (has_been_active e) (straggler_reported e) (stated e) in
  match wire e, live s with
  | Unsubscribed, true =>
      let '(e', f) := subscribe_frame e c in
      Returns (with_channels s (<[c := e']> (channels s)), [f])
  | _, _ => Returns (with_channels s (<[c := e]> (channels s)), [])
  end.

(** [Subscriptions::forget_if_spent]. *)
Definition forget_if_spent s c : Subscriptions :=
  match channels s !! c with
  | Some e =>
      if (refcount e =? 0) && bool_decide (wire e = Unsubscribed) && negb (has_been_active e)
      then with_channels s (delete c (channels s))
      else s
  | None => s
  end.

(** [Subscriptions::release]. *)
Definition release s c : panics (Subscriptions * list (ClientFrame Uuid)) :=
  e ← rust_expect (channels s !! c) "attach client: release of unsubscribed channel";
  _ ← rust_assert (negb (refcount e =? 0)) "attach client: refcount underflow";
  let n := refcount e - 1 in
  let e1 := mkSub n (depths e) (resume_policy e) (wire e) (token e) (span_hw e)
              (has_been_active e) (straggler_reported e) (stated e) in
  if 0 <? n then Returns (with_channels s (<[c := e1]> (channels s)), [])
  else
    let e2 w := mkSub n (depths e) (resume_policy e) w None (span_hw e)
                  (has_been_active e) (straggler_reported e) (stated e) in
    let '(e', frames) :=
      match wire e with
      | Active => (e2 Unsubscribed, [unsubscribe_frame c])
      | w => (e2 w, [])
      end in
    Returns (forget_if_spent (with_channels s (<[c := e']> (channels s))) c, frames).

(** [Subscriptions::go_live]. *)
Definition go_live s : Subscriptions := mkSubs (channels s) true.

(** One iteration of [resubscribe_survivors]. *)
Definition resubscribe_one (acc : gmap string ChannelSubscription * list (ClientFrame Uuid)) c
    : gmap string ChannelSubscription * list (ClientFrame Uuid) :=
  let '(m, frames) := acc in
  match m !! c with
  | Some e =>
      if (0 <? refcount e) && bool_decide (wire e = Unsubscribed) then
        let '(e', f) := subscribe_frame e c in (<[c := e']> m, frames ++ [f])
      else acc
  | None => acc
  end.

(** [Subscriptions::resubscribe_survivors]. *)
Definition resubscribe_survivors s : Subscriptions * list (ClientFrame Uuid) :=
  let '(m, frames) := foldl resubscribe_one (channels s, []) (address_order (channels s)) in
  (with_channels s m, frames).

(** [Subscriptions::on_attached]. *)
Definition on_attached s : Subscriptions * list (ClientFrame Uuid) :=
  resubscribe_survivors (go_live s).

(** What [on_detached] leaves of one entry. *)
Definition detached_entry e : ChannelSubscription :=
  mkSub (refcount e) (depths e) (resume_policy e) Unsubscribed (token e) None false false (stated e).

(** [Subscriptions::on_detached]. *)
Definition on_detached s : Subscriptions :=
  mkSubs (detached_entry <$> filter (λ p : string * ChannelSubscription, 0 < refcount p.2) (channels s))
    false.

(** [Subscriptions::on_subscribe_result]. *)
Definition on_subscribe_result s c (outcome : SubscribeOutcome) (replay_count : N)
    (gap : option GapInfo) : Subscriptions * result (SubscribeSettlement Uuid) string :=
  match channels s !! c with
  | Some e =>
      if decide (wire e = Pending) then
        match outcome with
        | Unavailable =>
            let e' := mkSub 0 (depths e) (resume_policy e) Unsubscribed (token e) None
                        (has_been_active e) (straggler_reported e) None in
            (with_channels s (<[c := e']> (channels s)), Ok SettledUnavailable)
        | SubscribeOk =>
            let e1 w := mkSub (refcount e) (depths e) (resume_policy e) w (token e) (span_hw e)
                          true false (stated e) in
            let restated := negb (bool_decide (stated e = Some (depths e, resume_policy e))) in
            let '(e', frames, lv) :=
              if refcount e =? 0 then (e1 Unsubscribed, [unsubscribe_frame c], false)
              else if restated then
                let '(e', f) := subscribe_frame (e1 (wire e)) c in
                (e', [unsubscribe_frame c; f], false)
              else (e1 Active, [], true) in
            (with_channels s (<[c := e']> (channels s)),
             Ok (Opened (mkAck frames lv replay_count gap)))
        end
      else (s, Err "SubscribeResult for a channel not pending")
  | None => (s, Err "SubscribeResult for a channel not pending")
  end.

(** The row loop of [on_deliver]: each [seq] must exceed the high-water. *)
Fixpoint take_rows (hw : option N) (rows : list (DeliverRow Uuid DateTime)) : option (option N) :=
  match rows with
  | [] => Some hw
  | row :: rows =>
      match hw with
      | Some seen => if row_seq row <=? seen then None else take_rows (Some (row_seq row)) rows
      | None => take_rows (Some (row_seq row)) rows
      end
  end.

(** [Subscriptions::on_deliver]. *)
Definition on_deliver s c (rows : list (DeliverRow Uuid DateTime))
    : Subscriptions * result DeliverDisposition string :=
  match rows with
  | [] => (s, Err "Deliver with no rows")
  | head :: rest =>
      if existsb (λ row, negb (row_dropped row =? 0)) rest
      then (s, Err "Deliver reports dropped past its first row")
      else
        let dropped := row_dropped head in
        let last := default head (list.last rest) in
        match channels s !! c with
        | Some e =>
            if has_been_active e then
              if decide (wire e = Active) then
                match take_rows (span_hw e) rows with
                | None => (s, Err "Deliver seq regression")
                | Some hw =>
                    let tok := match resume_policy e with
                               | Resume => Some (row_cursor last)
                               | Cursorless => token e
                               end in
                    let e' := mkSub (refcount e) (depths e) (resume_policy e) (wire e) tok hw
                                (has_been_active e) (straggler_reported e) (stated e) in
                    (with_channels s (<[c := e']> (channels s)), Ok (Accept dropped))
                end
              else
                let e' := mkSub (refcount e) (depths e) (resume_policy e) (wire e) (token e)
                            (span_hw e) (has_been_active e) true (stated e) in
                (with_channels s (<[c := e']> (channels s)),
                 Ok (Discard (negb (straggler_reported e)) dropped))
            else (s, Err "Deliver on a channel never active on this attachment")
        | None => (s, Err "Deliver on a channel never active on this attachment")
        end
  end.

(** [Subscriptions::is_active], [::refcount], [::depths], [::held_channels]. *)
Definition is_active s c : bool :=
  match channels s !! c with Some e => bool_decide (wire e = Active) | None => false end.
Definition refcount_of s c : N :=
  match channels s !! c with Some e => refcount e | None => 0 end.
Definition depths_of s c : option SubscriptionDepths := depths <$> channels s !! c.
Definition held_channels s : list string :=
  filter (λ c, 0 < refcount_of s c) (address_order (channels s)).
End operations.
End Subs.

(** ** The peer's side *)
Module SubsPeer.
Import Envelope Proto Subs.

Inductive PeerChannel := Asked | Open.

Section peer.
Context {Uuid DateTime : Type}.
Implicit Types (s : Subscriptions) (p : gmap string PeerChannel) (c : string).

(** The protocol law on one client frame, at the peer that reads frames in order: a
    subscribe needs a channel that is neither open nor being opened, an unsubscribe one
    that is open. [None] is a violation, which kills the connection. *)
Definition peer_frame p (f : ClientFrame Uuid) : option (gmap string PeerChannel) :=
  match f with
  | Subscribe c _ _ _ => match p !! c with None => Some (<[c := Asked]> p) | Some _ => None end
  | Unsubscribe c => match p !! c with Some Open => Some (delete c p) | _ => None end
  | _ => None
  end.

Definition peer_frames p (fs : list (ClientFrame Uuid)) : option (gmap string PeerChannel) :=
  foldl (λ op f, p ← op; peer_frame p f) (Some p) fs.

(** Everything that can happen to an attachment's subscriptions. *)
Inductive event :=
| EAcquire (c : string) (d : SubscriptionDepths) (rp : ResumePolicy)
| ERelease (c : string)
| EGoLive
| EResubscribe
| EDetached
| EResult (c : string) (o : SubscribeOutcome) (n : N) (g : option GapInfo)
| EDeliver (c : string) (rows : list (DeliverRow Uuid DateTime)).

Definition settlement_frames (r : result (SubscribeSettlement Uuid) string) : list (ClientFrame Uuid) :=
  match r with Ok (Opened ack) => ack_frames ack | _ => [] end.

(** The client's answer to an event: its next state and the frames it sends. *)
Definition sub_step s (ev : event) : panics (Subscriptions * list (ClientFrame Uuid)) :=
  match ev with
  | EAcquire c d rp => acquire s c d rp
  | ERelease c => release s c
  | EGoLive => Returns (go_live s, [])
  | EResubscribe => Returns (resubscribe_survivors s)
  | EDetached => Returns (on_detached s, [])
  | EResult c o n g =>
      let '(s', r) := on_subscribe_result s c o n g in Returns (s', settlement_frames r)
  | EDeliver c rows => let '(s', _) := on_deliver s c rows in Returns (s', [])
  end.

(** What the event itself means at the peer, before it reads the client's answer. *)
Definition peer_event p (ev : event) : gmap string PeerChannel :=
  match ev with
  | EDetached => ∅
  | EResult c SubscribeOk _ _ => <[c := Open]> p
  | EResult c Unavailable _ _ => delete c p
  | _ => p
  end.

(** The peer answers only subscribes it was sent, and the embedder resubscribes only on
    a live attachment. *)
Definition admissible s p (ev : event) : Prop :=
  match ev with
  | EResult c _ _ _ => p !! c = Some Asked
  | EResubscribe => live s = true
  | _ => True
  end.

Definition wire_peer (w : WireState) : option PeerChannel :=
  match w with Unsubscribed => None | Pending => Some Asked | Active => Some Open end.

Definition wire_in (m : gmap string ChannelSubscription) c : WireState :=
  match m !! c with Some e => wire e | None => Unsubscribed end.

(** Client and peer agree channel by channel, and nothing is open off an attachment. *)
Definition agree s p : Prop :=
  (∀ c, p !! c = wire_peer (wire_in (channels s) c)) ∧ (live s = false → p = ∅).

Lemma wire_in_insert m c e c' :
  wire_in (<[c := e]> m) c' = if decide (c = c') then wire e else wire_in m c'.
Proof.
  unfold wire_in. destruct (decide (c = c')) as [->|Hne];
    [by rewrite lookup_insert_eq|by rewrite lookup_insert_ne].
Qed.

(** Rewriting an entry without touching its wire state moves nothing at the peer. *)
Lemma agree_same_wire s p c e :
  agree s p → wire e = wire_in (channels s) c →
  agree (with_channels s (<[c := e]> (channels s))) p.
Proof.
  intros [Ha Hl] Hw. split; [|done]. intros c'. simpl. rewrite wire_in_insert.
  case_decide; subst; [by rewrite Hw|done].
Qed.

Lemma agree_subscribed s p c e :
  agree s p → live s = true → wire e = Pending →
  agree (with_channels s (<[c := e]> (channels s))) (<[c := Asked]> p).
Proof.
  intros [Ha Hl] Hlive Hw. split; [|simpl; congruence]. intros c'. simpl.
  rewrite wire_in_insert. case_decide; subst;
    [by rewrite lookup_insert_eq, Hw|by rewrite lookup_insert_ne].
Qed.

Lemma agree_unsubscribed s p c e :
  agree s p → wire e = Unsubscribed →
  agree (with_channels s (<[c := e]> (channels s))) (delete c p).
Proof.
  intros [Ha Hl] Hw. split; [|intros Hd; simpl in Hd; rewrite (Hl Hd); apply delete_empty].
  intros c'. simpl. rewrite wire_in_insert. case_decide; subst;
    [by rewrite lookup_delete_eq, Hw|by rewrite lookup_delete_ne].
Qed.

Lemma agree_opened s p c e :
  agree s p → live s = true → wire e = Active →
  agree (with_channels s (<[c := e]> (channels s))) (<[c := Open]> p).
Proof.
  intros [Ha Hl] Hlive Hw. split; [|simpl; congruence]. intros c'. simpl.
  rewrite wire_in_insert. case_decide; subst;
    [by rewrite lookup_insert_eq, Hw|by rewrite lookup_insert_ne].
Qed.

(** Forgetting a spent entry leaves its channel closed, as it was. *)
Lemma agree_forget s p c : agree s p → agree (forget_if_spent s c) p.
Proof.
  intros [Ha Hl]. unfold forget_if_spent.
  destruct (channels s !! c) as [e|] eqn:He; [|by split].
  destruct (_ && _ && _) eqn:Hb; [|by split]. split; [|done]. intros c'. simpl.
  rewrite Ha. f_equal. unfold wire_in. destruct (decide (c = c')) as [<-|Hne].
  - rewrite lookup_delete_eq, He. rewrite !andb_true_iff, bool_decide_eq_true in Hb. naive_solver.
  - by rewrite lookup_delete_ne.
Qed.

Lemma agree_live_asked s p c x : agree s p → p !! c = Some x → live s = true.
Proof. intros [_ Hl] Hp. destruct (live s); [done|]. by rewrite Hl in Hp. Qed.

Lemma acquire_obeys s p c d rp s' fs :
  agree s p → acquire s c d rp = Returns (s', fs) →
  ∃ p', peer_frames p fs = Some p' ∧ agree s' p'.
Proof.
  intros Ha. unfold acquire. destruct (negb _); [|done]. simpl. destruct (_ || _); [|done]. simpl.
  set (e1 := if _ =? 0 then _ else _).
  assert (Hw : wire e1 = wire_in (channels s) c).
  { unfold e1, wire_in. destruct (channels s !! c) as [e|]; simpl; [|done]. by destruct (_ =? 0). }
  destruct (_ && _); [|done]. simpl. pose proof Ha as [Hp _]. specialize (Hp c).
  destruct (wire e1) eqn:Hw1; simpl.
  - destruct (live s) eqn:Hlive; intros [= <- <-].
    + rewrite <-Hw in Hp. simpl in Hp. unfold peer_frames. simpl. rewrite Hp.
      eexists. split; [done|]. by apply agree_subscribed.
    + eexists. split; [done|]. apply agree_same_wire; [done|]. simpl. congruence.
  - intros [= <- <-]. eexists. split; [done|]. apply agree_same_wire; [done|]. simpl. congruence.
  - intros [= <- <-]. eexists. split; [done|]. apply agree_same_wire; [done|]. simpl. congruence.
Qed.

Lemma release_obeys s p c s' fs :
  agree s p → release s c = Returns (s', fs) → ∃ p', peer_frames p fs = Some p' ∧ agree s' p'.
Proof.
  intros Ha. unfold release. destruct (channels s !! c) as [e|] eqn:He; [|done]. simpl.
  destruct (negb _); [|done]. simpl. pose proof Ha as [Hp _]. specialize (Hp c).
  assert (Hw : wire_in (channels s) c = wire e) by (unfold wire_in; by rewrite He).
  rewrite Hw in Hp. destruct (0 <? _).
  { intros [= <- <-]. eexists. split; [done|]. by apply agree_same_wire. }
  destruct (wire e) eqn:Hwe; intros [= <- <-]; simpl in Hp.
  - eexists. split; [done|]. apply agree_forget, agree_same_wire; [done|]. simpl. congruence.
  - eexists. split; [done|]. apply agree_forget, agree_same_wire; [done|]. simpl. congruence.
  - unfold peer_frames. simpl. rewrite Hp. eexists. split; [done|].
    by apply agree_forget, agree_unsubscribed.
Qed.

(** The resubscribe loop sends one subscribe per closed channel. *)
Lemma resubscribe_obeys s p cs m fs p0 :
  live s = true → agree (with_channels s m) p → peer_frames p0 fs = Some p →
  let '(m', fs') := foldl resubscribe_one (m, fs) cs in
  ∃ p', peer_frames p0 fs' = Some p' ∧ agree (with_channels s m') p'.
Proof.
  intros Hlive. revert m fs p. induction cs as [|c cs IH]; intros m fs p Ha Hfs; simpl; [eauto|].
  destruct (m !! c) as [e|] eqn:He; [|by eapply IH].
  destruct (_ && _) eqn:Hb; [|by eapply IH]. apply andb_true_iff in Hb as [_ Hb].
  apply bool_decide_eq_true in Hb.
  eapply (IH _ _ (<[c := Asked]> p)).
  - by apply (agree_subscribed (with_channels s m) p c).
  - unfold peer_frames in *. rewrite foldl_app, Hfs. simpl.
    destruct Ha as [Hp _]. rewrite (Hp c). simpl. unfold wire_in. by rewrite He, Hb.
Qed.

Lemma result_obeys s p c o n g :
  agree s p → p !! c = Some Asked →
  let '(s', r) := on_subscribe_result s c o n g in
  ∃ p', peer_frames (peer_event p (EResult c o n g)) (settlement_frames r) = Some p' ∧ agree s' p'.
Proof.
  intros Ha Hc. pose proof (agree_live_asked _ _ _ _ Ha Hc) as Hlive.
  pose proof Ha as [Hp _]. specialize (Hp c). rewrite Hc in Hp. unfold wire_in in Hp.
  unfold on_subscribe_result. destruct (channels s !! c) as [e|] eqn:He; [|done].
  destruct (wire e) eqn:Hw; try done. simpl. destruct o; simpl.
  - destruct (refcount e =? 0); simpl.
    { unfold peer_frames. simpl. rewrite lookup_insert_eq, delete_insert_eq.
      eexists. split; [done|]. by apply agree_unsubscribed. }
    destruct (negb _); simpl.
    + unfold peer_frames. simpl. rewrite lookup_insert_eq. simpl.
      rewrite lookup_delete_eq. eexists. split; [done|]. rewrite delete_insert_eq, insert_delete_eq.
      by apply agree_subscribed.
    + eexists. split; [done|]. by apply agree_opened.
  - eexists. split; [done|]. by apply agree_unsubscribed.
Qed.

Lemma deliver_obeys s p c (rows : list (DeliverRow Uuid DateTime)) :
  agree s p → agree (on_deliver s c rows).1 p.
Proof.
  intros Ha. unfold on_deliver. destruct rows as [|hd rest]; [done|]. destruct (existsb _ _); [done|].
  destruct (channels s !! c) as [e|] eqn:He; [|done]. destruct (has_been_active e); [|done].
  assert (wire e = wire_in (channels s) c) by (unfold wire_in; by rewrite He).
  destruct (decide (wire e = Active)); [destruct (take_rows _ _); [|done]|]; by apply agree_same_wire.
Qed.

Lemma detached_obeys s p : agree s p → agree (on_detached s) ∅.
Proof.
  intros _. split; [|done]. intros c. rewrite lookup_empty. unfold wire_in, on_detached. simpl.
  rewrite lookup_fmap. by destruct (filter _ _ !! c).
Qed.

Lemma sub_step_obeys s p ev s' fs :
  agree s p → admissible s p ev → sub_step s ev = Returns (s', fs) →
  ∃ p', peer_frames (peer_event p ev) fs = Some p' ∧ agree s' p'.
Proof.
  intros Ha Hadm. destruct ev as [c d rp|c| | | |c o n g|c rows]; cbn [sub_step]; intros Hs.
  - by eapply acquire_obeys.
  - by eapply release_obeys.
  - injection Hs as <- <-. eexists. split; [done|]. destruct Ha as [Hp _]. by split.
  - injection Hs as Hs.
    pose proof (resubscribe_obeys s p (address_order (channels s)) (channels s) [] p Hadm Ha eq_refl)
      as Hr. unfold resubscribe_survivors in Hs. destruct (foldl _ _ _) as [m fs'].
    injection Hs as <- <-. exact Hr.
  - injection Hs as <- <-. eexists. split; [done|]. by eapply detached_obeys.
  - pose proof (result_obeys s p c o n g Ha Hadm) as Hr.
    destruct (on_subscribe_result s c o n g) as [s1 r]. by injection Hs as <- <-.
  - pose proof (deliver_obeys s p c rows Ha) as Hd.
    destruct (on_deliver s c rows) as [s1 r]. injection Hs as <- <-. eauto.
Qed.

(** A trace of admissible events that never unwound, with what the peer made of it. *)
Inductive trace : Subscriptions → gmap string PeerChannel → Prop :=
| trace_start : trace subs_new ∅
| trace_step s p ev s' fs p' :
    trace s p → admissible s p ev → sub_step s ev = Returns (s', fs) →
    peer_frames (peer_event p ev) fs = Some p' → trace s' p'.

Lemma trace_agree s p : trace s p → agree s p.
Proof.
  induction 1 as [|s p ev s' fs p' _ IH Hadm Hs Hp]; [by split|].
  destruct (sub_step_obeys s p ev s' fs IH Hadm Hs) as (p1&Hp1&Ha). congruence.
Qed.
End peer.
#[global] Arguments event : clear implicits.
#[global] Arguments trace : clear implicits.
End SubsPeer.

Module SubsProps.
Import Envelope Proto Subs SubsPeer.

Section props.
Context {Uuid DateTime : Type}.
Implicit Types (s : Subscriptions) (p : gmap string PeerChannel) (c : string)
  (rows : list (DeliverRow Uuid DateTime)).

(** C5: The client never breaks the subscription law. After any history of acquires,
    releases, reconnects, answers and deliveries, whatever frames the next event makes it
    send are legal at a peer reading them in order: it never subscribes a channel that is
    open or being opened, never unsubscribes one that is not open, and sends nothing off
    an attachment. The channels it calls active are exactly the ones the peer holds
    open. *)
Theorem frames_never_violate_the_protocol s p (ev : event Uuid DateTime) s' fs :
  trace Uuid DateTime s p → admissible s p ev → sub_step s ev = Returns (s', fs) →
  is_Some (peer_frames (Uuid := Uuid) (peer_event p ev) fs) ∧
  (live s = false → fs = []) ∧
  ∀ c, is_active s c = true ↔ p !! c = Some Open.
Proof.
  intros Ht Hadm Hs. pose proof (trace_agree s p Ht) as Ha. split_and!.
  - destruct (sub_step_obeys s p ev s' fs Ha Hadm Hs) as (p'&->&_). done.
  - intros Hl. destruct ev as [c d rp|c| | | |c o n g|c rows]; simpl in Hadm; try congruence.
    + simpl in Hs. unfold acquire in Hs. rewrite Hl in Hs.
      destruct (negb _); [|done]. simpl in Hs. destruct (_ || _); [|done]. simpl in Hs.
      destruct (_ && _); [|done]. simpl in Hs. destruct (wire _); congruence.
    + simpl in Hs. unfold release in Hs. destruct Ha as [Hp Hempty]. specialize (Hp c).
      rewrite (Hempty Hl), lookup_empty in Hp. unfold wire_in in Hp.
      destruct (channels s !! c) as [e|]; [|done]. simpl in Hs.
      destruct (negb _); [|done]. simpl in Hs. destruct (0 <? _); [congruence|].
      destruct (wire e); (done || congruence).
    + simpl in Hs. congruence.
    + simpl in Hs. congruence.
    + destruct Ha as [_ Hempty]. by rewrite (Hempty Hl) in Hadm.
    + simpl in Hs. destruct (on_deliver s c rows). congruence.
  - intros c. destruct Ha as [Hp _]. rewrite Hp. unfold is_active, wire_in.
    destruct (channels s !! c) as [e|]; [|done]. rewrite bool_decide_eq_true.
    destruct (wire e); done.
Qed.

Lemma take_rows_Some hw rows hw' :
  take_rows hw rows = Some hw' →
  StronglySorted N.lt (row_seq <$> rows) ∧
  (∀ seen, hw = Some seen → Forall (λ r, seen < row_seq r) rows) ∧
  (∀ r, last rows = Some r → hw' = Some (row_seq r)).
Proof.
  revert hw. induction rows as [|row rows IH]; intros hw; simpl.
  { intros _. split_and!; [constructor|constructor|done]. }
  intros Ht. assert (Hrest : take_rows (Some (row_seq row)) rows = Some hw' ∧
    ∀ seen, hw = Some seen → seen < row_seq row).
  { destruct hw as [seen|]; [|done]. destruct (N.leb_spec (row_seq row) seen); [done|].
    split; [done|]. by intros ? [= <-]. }
  destruct Hrest as [Hrest Hseen]. destruct (IH _ Hrest) as (Hs&Hf&Hl).
  specialize (Hf _ eq_refl). split_and!.
  - constructor; [done|]. by apply Forall_fmap.
  - intros seen ->. specialize (Hseen _ eq_refl). constructor; [done|].
    eapply Forall_impl; [exact Hf|]. simpl. lia.
  - intros r. destruct rows as [|r' rows].
    + intros [= <-]. simpl in Hrest. congruence.
    + intros Hlast. by apply Hl.
Qed.

Lemma take_rows_None hw rows :
  take_rows hw rows = None → ¬ (StronglySorted N.lt (row_seq <$> rows) ∧
    ∀ seen, hw = Some seen → Forall (λ r, seen < row_seq r) rows).
Proof.
  revert hw. induction rows as [|row rows IH]; intros hw; simpl; [done|].
  intros Ht [[Hs Hall]%StronglySorted_inv Hf].
  assert (Hrest : take_rows (Some (row_seq row)) rows = None).
  { destruct hw as [seen|]; [|done]. specialize (Hf _ eq_refl). apply Forall_cons in Hf as [? _].
    destruct (N.leb_spec (row_seq row) seen); [lia|done]. }
  apply (IH _ Hrest). split; [done|]. intros seen [= <-]. exact (proj1 (Forall_fmap row_seq _ rows) Hall).
Qed.

(** A delivery pass is taken whole or not at all. A refused pass changes nothing; a
    straggler moves neither the span nor the cursor; and an active channel accepts a
    well-formed pass exactly when its sequence numbers strictly increase from the span's
    high-water, which then becomes the last row's, as does the resume cursor of a
    resuming channel. *)
Theorem deliver_is_atomic s c rows e row :
  channels s !! c = Some e → has_been_active e = true → last rows = Some row →
  Forall (λ r, row_dropped r = 0) (tail rows) →
  let '(s', r) := on_deliver s c rows in
  (∀ why, r = Err why → s' = s) ∧
  (wire e ≠ Active → ∃ first d e', r = Ok (Discard first d) ∧ channels s' !! c = Some e' ∧
     span_hw e' = span_hw e ∧ token e' = token e ∧ wire e' = wire e) ∧
  (wire e = Active →
     (∃ d, r = Ok (Accept d)) ↔
     (StronglySorted N.lt (row_seq <$> rows) ∧
      ∀ seen, span_hw e = Some seen → Forall (λ r, seen < row_seq r) rows)) ∧
  (∀ d, r = Ok (Accept d) → ∃ e', channels s' !! c = Some e' ∧
     span_hw e' = Some (row_seq row) ∧
     token e' = match resume_policy e with Resume => Some (row_cursor row) | Cursorless => token e end).
Proof.
  intros He Hact Hlast Hdrop. unfold on_deliver. destruct rows as [|hd rest]; [done|].
  assert (Hex : existsb (λ r, negb (row_dropped r =? 0)) rest = false).
  { simpl in Hdrop. clear Hlast. induction Hdrop as [|r rest Hr _ IH]; [done|]. simpl.
    by rewrite Hr, IH. }
  assert (Hlast' : default hd (last rest) = row).
  { destruct rest as [|r rest]; simpl in *; [congruence|]. by rewrite Hlast. }
  rewrite Hex, He, Hact, Hlast'. case_decide as Hw.
  - destruct (take_rows (span_hw e) (hd :: rest)) as [hw|] eqn:Ht.
    + destruct (take_rows_Some _ _ _ Ht) as (Hs&Hf&Hl). split_and!; [done|done|naive_solver|].
      intros d _. eexists. simpl. rewrite lookup_insert_eq. split; [done|]. simpl. auto.
    + pose proof (take_rows_None _ _ Ht) as Hno. split_and!; [done|done| |done].
      intros _. split; [by intros [d ?]|done].
  - split_and!; [done| |done|done]. intros _. do 3 eexists. split; [done|]. simpl.
    rewrite lookup_insert_eq. done.
Qed.

Lemma resubscribe_grows cs m (fs : list (ClientFrame Uuid)) f :
  f ∈ fs → f ∈ (foldl resubscribe_one (m, fs) cs).2.
Proof.
  revert m fs. induction cs as [|c cs IH]; intros m fs Hf; simpl; [done|].
  destruct (m !! c) as [e|]; [|by apply IH]. destruct (_ && _); [|by apply IH].
  apply IH. set_solver.
Qed.

Lemma resubscribe_emits cs m (fs : list (ClientFrame Uuid)) c e :
  c ∈ cs → m !! c = Some e → 0 < refcount e → wire e = Unsubscribed →
  (subscribe_frame e c).2 ∈ (foldl resubscribe_one (m, fs) cs).2.
Proof.
  revert m fs. induction cs as [|c' cs IH]; intros m fs Hin Hm Hr Hw; [by apply not_elem_of_nil in Hin|].
  simpl. destruct (decide (c' = c)) as [->|Hne].
  - rewrite Hm. destruct (N.ltb_spec 0 (refcount e)); [|lia].
    rewrite bool_decide_true by done. simpl. apply resubscribe_grows. set_solver.
  - apply elem_of_cons in Hin as [->|Hin]; [done|].
    destruct (m !! c') as [e'|]; [|by apply IH]. destruct (_ && _); [|by apply IH].
    apply IH; [done| |done|done]. by rewrite lookup_insert_ne.
Qed.

(** A transport blip is lossless. If a held, resuming channel accepted a pass, the
    attachment is lost and another comes up, the subscribe then sent for the channel
    presents exactly the cursor of the last row accepted, at the depths it was held at. *)
Theorem blip_resumes_from_last_accepted s c rows e row s' d :
  channels s !! c = Some e → resume_policy e = Resume → 0 < refcount e → last rows = Some row →
  on_deliver s c rows = (s', Ok (Accept d)) →
  @Subscribe Uuid c (push_depth (depths e)) (retain_depth (depths e)) (Some (row_cursor row))
    ∈ (on_attached (on_detached s')).2.
Proof.
  intros He Hrp Hrc Hlast Hd.
  assert (Hs' : ∃ hw b st, channels s' !! c = Some (mkSub (refcount e) (depths e) Resume Active
    (Some (row_cursor row)) hw true b st)).
  { unfold on_deliver in Hd. destruct rows as [|hd rest]; [done|].
    destruct (existsb _ _); [done|]. rewrite He, Hrp in Hd.
    destruct (has_been_active e) eqn:Hh; [|done]. case_decide as Hw; [|done].
    destruct (take_rows _ _); [|done]. injection Hd as <- _. simpl. rewrite lookup_insert_eq, Hw.
    do 3 eexists. do 3 f_equal. destruct rest as [|r rest]; simpl in *; [congruence|].
    by rewrite Hlast. }
  destruct Hs' as (hw&b&st&Hs').
  set (e2 := detached_entry (mkSub (refcount e) (depths e) Resume Active
    (Some (row_cursor row)) hw true b st)).
  assert (Hm : channels (on_detached s') !! c = Some e2).
  { unfold on_detached. simpl. rewrite lookup_fmap.
    rewrite map_lookup_filter, Hs'. simpl. by rewrite option_guard_True. }
  unfold on_attached, resubscribe_survivors. cbn [go_live channels].
  pose proof (resubscribe_emits (address_order (channels (on_detached s')))
    (channels (on_detached s')) [] c e2) as Hem.
  destruct (foldl _ _ _) as [m fs]. simpl in Hem |- *. apply Hem; try done.
  apply elem_of_address_order. exists e2. exact Hm.
Qed.
End props.

(** A channel opened by the peer, and one delivery pass on it. *)
Definition ex_depths : SubscriptionDepths := mkDepths 4 8.
Definition ex_row (n : N) (t : string) : DeliverRow N N :=
  mkRow (mkEnvelope n "src" "brenn:a" "who" 0 "hi" None None None None Normal Brenn) n (mkToken t) 0.
Definition ex_subs : Subscriptions :=
  mkSubs {["brenn:a" := mkSub 1 ex_depths Resume Active None None true false
                          (Some (ex_depths, Resume))]} true.

Lemma ex_trace : trace N N ex_subs {["brenn:a" := Open]}.
Proof.
  refine (trace_step _ _ (EResult "brenn:a" SubscribeOk 0 None) _ [] _ _ _ _ _).
  { refine (trace_step _ _ EResubscribe _ [_] _ _ _ _ _).
    { refine (trace_step _ _ EGoLive _ [] _ _ _ _ _).
      { refine (trace_step _ _ (EAcquire "brenn:a" ex_depths Resume) _ [] _ trace_start I _ eq_refl).
        vm_compute. reflexivity. }
      { exact I. }
      { vm_compute. reflexivity. }
      { vm_compute. reflexivity. } }
    { vm_compute. reflexivity. }
    { vm_compute. reflexivity. }
    { vm_compute. reflexivity. } }
  { vm_compute. reflexivity. }
  { vm_compute. reflexivity. }
  { vm_compute. reflexivity. }
Qed.

Lemma frames_never_violate_the_protocol_witness :
  is_Some (peer_frames (Uuid := N) {["brenn:a" := Open]} [Unsubscribe "brenn:a"]).
Proof.
  pose proof (frames_never_violate_the_protocol (Uuid := N) (DateTime := N) ex_subs
    {["brenn:a" := Open]} (ERelease "brenn:a")) as Hf.
  destruct (sub_step ex_subs (ERelease (Uuid := N) (DateTime := N) "brenn:a")) as [[s' fs]|why] eqn:E;
    [|vm_compute in E; discriminate].
  destruct (Hf s' fs ex_trace I eq_refl) as [Hok _].
  vm_compute in E. injection E as _ <-. exact Hok.
Defined.

Lemma deliver_is_atomic_witness :
  ∃ d, (on_deliver ex_subs "brenn:a" [ex_row 1 "t1"; ex_row 2 "t2"]).2 = Ok (Accept d).
Proof.
  pose proof (deliver_is_atomic ex_subs "brenn:a" [ex_row 1 "t1"; ex_row 2 "t2"]
    (mkSub 1 ex_depths Resume Active None None true false (Some (ex_depths, Resume)))
    (ex_row 2 "t2") eq_refl eq_refl eq_refl) as Hd.
  destruct (on_deliver ex_subs "brenn:a" [ex_row 1 "t1"; ex_row 2 "t2"]) as [s' r].
  destruct Hd as (_&_&Hacc&_); [repeat constructor|].
  apply (Hacc eq_refl). split; [repeat constructor|done].
Defined.

Lemma blip_resumes_from_last_accepted_witness :
  @Subscribe N "brenn:a" 4 8 (Some (mkToken "t2")) ∈
    (on_attached (on_detached (on_deliver ex_subs "brenn:a" [ex_row 1 "t1"; ex_row 2 "t2"]).1)).2.
Proof.
  destruct (on_deliver ex_subs "brenn:a" [ex_row 1 "t1"; ex_row 2 "t2"]) as [s' r] eqn:E.
  assert (r = Ok (Accept 0)) as -> by (vm_compute in E; congruence).
  refine (blip_resumes_from_last_accepted ex_subs "brenn:a" [ex_row 1 "t1"; ex_row 2 "t2"]
    (mkSub 1 ex_depths Resume Active None None true false (Some (ex_depths, Resume)))
    (ex_row 2 "t2") s' 0 eq_refl eq_refl _ eq_refl E).
  vm_compute. reflexivity.
Defined.
End SubsProps.
