(* ===== verification/AttachStore.v ===== *)
(** * Attacher-side retention ([attach/client/src/store.rs])

    One [ChannelStore] per channel: a [RingCore] of envelopes plus the drops the peer
    reported from upstream, and [ChannelStores], every channel an attachment retains. The
    theorems here are clients of the channel theorems of [RingCore]. *)

From S2P Require Import Prelude Envelope Ring Cursor Deferred RingCore Proto Subs.

#[local] Open Scope string_scope.
#[local] Open Scope N_scope.
#[local] Open Scope list_scope.

Module Store.
Import Ring Cursor Core Envelope.

(** [DeferOp]. *)
Inductive DeferOp :=
| OpCancel
| OpEdit (body : option string) (deliver_after : option N).

(** [DeferOpOutcome]. *)
Inductive DeferOpOutcome :=
| Applied
| NotParked (deliver_after : option N)
| OutcomeWrongSender (owner : string).

(** [ServedWindow]. *)
Record ServedWindow (Uuid DateTime : Type) := mkServed {
  served_envelopes : list (MessageEnvelope Uuid DateTime);
  served_new_from : N;
  served_dropped : N;
  served_counted : N;
}.
Arguments mkServed {Uuid DateTime}.
Arguments served_envelopes {Uuid DateTime}.
Arguments served_new_from {Uuid DateTime}.
Arguments served_dropped {Uuid DateTime}.
Arguments served_counted {Uuid DateTime}.

(** [ChannelStore<K>]. *)
Record ChannelStore (Uuid DateTime K : Type) `{Countable K} := mkStore {
  core : RingCore (MessageEnvelope Uuid DateTime) Uuid K;
  server_drops : gmap K N;
}.
Arguments mkStore {Uuid DateTime K _ _}.
Arguments core {Uuid DateTime K _ _}.
Arguments server_drops {Uuid DateTime K _ _}.

(** [ChannelStores<K>]. *)
Record ChannelStores (Uuid DateTime K : Type) `{Countable K} := mkStores {
  stores_epoch : Uuid;
  stores : gmap string (ChannelStore Uuid DateTime K);
}.
Arguments mkStores {Uuid DateTime K _ _}.
Arguments stores_epoch {Uuid DateTime K _ _}.
Arguments stores {Uuid DateTime K _ _}.

Section store.
Context {Uuid DateTime K : Type} `{EqDecision Uuid, Countable K}.
Implicit Types (st : ChannelStore Uuid DateTime K) (env : MessageEnvelope Uuid DateTime) (k : K).

(** [ChannelStore::new]. *)
Definition store_new (e : Uuid) (d : N) : ChannelStore Uuid DateTime K := mkStore (core_new e d) ∅.

(** [ChannelStore::retune]. *)
Definition retune st (d : N) : ChannelStore Uuid DateTime K * list (CursorOverflow K) :=
  let '(c, over) := core_set_depth (core st) d in (mkStore c (server_drops st), over).

(** [ChannelStore::depth] and [::epoch]. *)
Definition store_depth st : N := depth (ring (core st)).
Definition store_epoch st : Uuid := epoch (ring (core st)).

(** [ChannelStore::holds]. *)
Definition holds st env : bool :=
  existsb (λ e, bool_decide (message_id (message e) = message_id env)) (entries (ring (core st))).

(** [ChannelStore::insert]. *)
Definition insert st env : ChannelStore Uuid DateTime K * list (CursorOverflow K) :=
  if holds st env then (st, [])
  else
    let '(c, rep) := core_append (core st) env in
    (mkStore c (server_drops st), report_overflow rep).

(** [ChannelStore::append_minted]. *)
Definition append_minted st env : panics (ChannelStore Uuid DateTime K * list (CursorOverflow K)) :=
  _ ← rust_assert (negb (holds st env))
        "attach client: freshly minted envelope is already retained";
  let '(c, rep) := core_append (core st) env in
  Returns (mkStore c (server_drops st), report_overflow rep).

(** [ChannelStore::attach]. *)
Definition store_attach st k (pd : N) : ChannelStore Uuid DateTime K * Attached :=
  let '(c, a) := attach (core st) k pd in (mkStore c (server_drops st), a).

(** [ChannelStore::detach]. *)
Definition store_detach st k : ChannelStore Uuid DateTime K :=
  mkStore (detach (core st) k).1 (delete k (server_drops st)).

(** [ChannelStore::readers]. *)
Definition readers st : list K := (map_to_list (cursors (core st))).*1.

(** [ChannelStore::has_deliverable]. *)
Definition store_has_deliverable st k : bool := core_has_deliverable (core st) k.

(** [ChannelStore::any_deliverable]. *)
Definition store_any_deliverable st (names : K → bool) : bool :=
  existsb (λ p : K * SubscriberCursor, names p.1 && has_deliverable p.2 (ring (core st)))
    (map_to_list (cursors (core st))).

(** [ChannelStore::serve]. *)
Definition serve st k (d : Subs.SubscriptionDepths)
    : panics (ChannelStore Uuid DateTime K * option (ServedWindow Uuid DateTime)) :=
  match core_window (core st) k (Subs.push_depth d) (Subs.retain_depth d) with
  | (c1, None) => Returns (mkStore c1 (server_drops st), None)
  | (c1, Some w) =>
      '(c2, adv) ←
        match advance_span w with
        | None => Returns (c1, None)
        | Some (through, seen_floor) => core_advance c1 k through seen_floor
        end;
      let from_peer := default 0 (server_drops st !! k) in
      let envs := message <$> win_entries w in
      Returns
        (mkStore c2 (delete k (server_drops st)),
         Some (mkServed envs (new_from w)
           (u64_add match adv with Some a => dropped a | None => 0 end from_peer)
           (u64_add match adv with Some a => noise_charge a | None => 0 end from_peer)))
  end.

(** One iteration of [count_server_drops]. *)
Definition count_one (n : N) (drops : gmap K N) k : gmap K N :=
  <[k := u64_saturating_add (default 0 (drops !! k)) n]> drops.

(** [ChannelStore::count_server_drops]. *)
Definition count_server_drops st (n : N) : ChannelStore Uuid DateTime K :=
  if n =? 0 then st
  else mkStore (core st) (foldl (count_one n) (server_drops st) (map_to_list (cursors (core st))).*1).

(** [ChannelStore::retained]. *)
Definition retained st : list (MessageEnvelope Uuid DateTime * N) :=
  (λ e, (message e, seq e)) <$> entries (ring (core st)).

(** [ChannelStore::park]. *)
Definition store_park st (who : string) env (t : N)
    : ChannelStore Uuid DateTime K * result N Deferred.QuotaExceeded :=
  let '(c, r) := core_park (core st) who env t in (mkStore c (server_drops st), r).

(** [ChannelStore::next_release]. *)
Definition store_next_release st : option N := core_next_release (core st).

(** [ChannelStore::release_due]. *)
Definition store_release_due st (now : N)
    : ChannelStore Uuid DateTime K * ReleaseReport (MessageEnvelope Uuid DateTime) K :=
  let '(c, rep) := core_release_due (core st) now in (mkStore c (server_drops st), rep).

(** [ChannelStore::deferred_for_sender]. *)
Definition store_deferred_for_sender st (who : string)
    : list (Deferred.Deferred (MessageEnvelope Uuid DateTime)) :=
  deferred_for_sender (core st) who.

(** [ChannelStore::parked_senders]. *)
Definition parked_senders st : list string := Deferred.sender <$> deferred_at (core st) 0.

(** [ChannelStore::parked]. *)
Definition store_parked st : list (MessageEnvelope Uuid DateTime * N) :=
  (λ e, (Deferred.payload e, Deferred.release_at e)) <$> deferred_at (core st) 0.

(** The struct update [MessageEnvelope { body, ..entry.message.clone() }]. *)
Definition with_body env (b : string) : MessageEnvelope Uuid DateTime :=
  mkEnvelope (message_id env) (source env) (channel env) (env_sender env) (publish_ts env) b
    (reply_to env) (delivery_deadline env) (deliver_after env) (impetus env) (urgency env)
    (envelope_type env).

(** [ChannelStore::apply_defer_op]. *)
Definition apply_defer_op st (who : string) (mid : Uuid) (op : DeferOp) (now : N)
    : panics (ChannelStore Uuid DateTime K * DeferOpOutcome) :=
  match owned_deferred (core st) who (λ m, bool_decide (message_id m = mid)) now with
  | PastCutoff t => Returns (st, NotParked (Some t))
  | NotFound => Returns (st, NotParked None)
  | WrongSender owner => Returns (st, OutcomeWrongSender owner)
  | Owned i e =>
      let replacement :=
        match op with
        | OpCancel => None
        | OpEdit b _ => with_body (Deferred.payload e) <$> b
        end in
      match op with
      | OpCancel =>
          let '(c, r) := cancel_deferred (core st) i in
          _ ← rust_expect r "attach client: the entry just resolved is still parked";
          Returns (mkStore c (server_drops st), Applied)
      | OpEdit _ t =>
          let '(c, r) := edit_deferred (core st) i replacement t in
          _ ← rust_assert (match r with Ok _ => true | Err _ => false end)
                "attach client: the entry just resolved is still parked";
          Returns (mkStore c (server_drops st), Applied)
      end
  end.
End store.

Section stores.
Context {Uuid DateTime K : Type} `{EqDecision Uuid, Countable K}.
Implicit Types (ss : ChannelStores Uuid DateTime K) (c : string).

Definition with_stores ss (m : gmap string (ChannelStore Uuid DateTime K)) : ChannelStores Uuid DateTime K :=
  mkStores (stores_epoch ss) m.

(** [ChannelStores::new]. *)
Definition stores_new (e : Uuid) : ChannelStores Uuid DateTime K := mkStores e ∅.

(** [ChannelStores::ensure]. *)
Definition ensure ss c (d : N) : ChannelStores Uuid DateTime K * list (CursorOverflow K) :=
  let st := default (store_new (stores_epoch ss) d) (stores ss !! c) in
  let '(st', over) := retune st d in
  (with_stores ss (<[c := st']> (stores ss)), over).

(** [ChannelStores::retain]. *)
Definition retain ss (keep : string → bool)
    : ChannelStores Uuid DateTime K * list (string * ChannelStore Uuid DateTime K) :=
  let gone := filter (λ c, keep c = false) (address_order (stores ss)) in
  (with_stores ss (foldl (λ m c, delete c m) (stores ss) gone),
   omap (λ c, (λ st, (c, st)) <$> stores ss !! c) gone).

(** [ChannelStores::get]. *)
Definition stores_get ss c : option (ChannelStore Uuid DateTime K) := stores ss !! c.

(** [ChannelStores::channels]. *)
Definition stores_channels ss : list string := address_order (stores ss).

(** [ChannelStores::detach_matching]. *)
Definition detach_matching ss (names : K → bool) : ChannelStores Uuid DateTime K :=
  with_stores ss
    ((λ st, foldl store_detach st (filter (λ k, names k = true) (readers st))) <$> stores ss).

(** [ChannelStores::any_deliverable]. *)
Definition any_deliverable ss (names : K → bool) : bool :=
  existsb (λ p : string * ChannelStore Uuid DateTime K, store_any_deliverable p.2 names)
    (map_to_list (stores ss)).

(** [Iterator::min] over the deadlines. *)
Definition min_opt (a b : option N) : option N :=
  match a, b with
  | Some x, Some y => Some (N.min x y)
  | Some x, None => Some x
  | None, b => b
  end.

(** [ChannelStores::next_release]. *)
Definition stores_next_release ss : option N :=
  foldr (λ c acc, min_opt (st ← stores ss !! c; store_next_release st) acc) None
    (address_order (stores ss)).

(** One channel of [release_due]. *)
Definition release_one (now : N)
    (acc : gmap string (ChannelStore Uuid DateTime K) *
           list (string * ReleaseReport (MessageEnvelope Uuid DateTime) K)) c :=
  let '(m, out) := acc in
  match m !! c with
  | Some st =>
      match store_next_release st with
      | Some t =>
          if t <=? now then
            let '(st', rep) := store_release_due st now in (<[c := st']> m, out ++ [(c, rep)])
          else acc
      | None => acc
      end
  | None => acc
  end.

(** [ChannelStores::release_due]. *)
Definition stores_release_due ss (now : N)
    : ChannelStores Uuid DateTime K *
      list (string * ReleaseReport (MessageEnvelope Uuid DateTime) K) :=
  let '(m, out) := foldl (release_one now) (stores ss, []) (address_order (stores ss)) in
  (with_stores ss m, out).
End stores.
End Store.

Module StoreFacts.
Import Ring Cursor CursorProps Core CoreFacts CoreRun Envelope Store.

Section facts.
Context {Uuid DateTime K : Type} `{EqDecision Uuid, Countable K}.
Implicit Types (st : ChannelStore Uuid DateTime K) (env : MessageEnvelope Uuid DateTime) (k : K).

Lemma holds_spec st env :
  holds st env = true ↔ message_id env ∈ (λ e, message_id (message e)) <$> entries (ring (core st)).
Proof.
  unfold holds. rewrite existsb_exists, list_elem_of_fmap. split.
  - intros (e&Hin&He%bool_decide_eq_true). exists e. split; [done|]. by apply list_elem_of_In.
  - intros (e&He&Hin). exists e. split; [by apply list_elem_of_In|]. by apply bool_decide_eq_true.
Qed.

Lemma entries_append_suffix (r : RetainedRing (MessageEnvelope Uuid DateTime) Uuid) env :
  Ring.wf r → next_seq r < u64_max →
  ∃ n, entries (append r env).1 = drop n (entries r ++ [mkRetained (next_seq r) env]).
Proof. intros. rewrite append_spec by done. simpl. eauto. Qed.

(** Serving a store is serving its channel, with the peer's count drained alongside. *)
Lemma serve_core st k d :
  Store.serve st k d =
    '(c, r) ← CoreRun.serve (core st) k (Subs.push_depth d) (Subs.retain_depth d);
    match r with
    | None => Returns (mkStore c (server_drops st), None)
    | Some (w, adv) =>
        let from_peer := default 0 (server_drops st !! k) in
        Returns (mkStore c (delete k (server_drops st)),
          Some (mkServed (message <$> win_entries w) (new_from w)
            (u64_add match adv with Some a => dropped a | None => 0 end from_peer)
            (u64_add match adv with Some a => noise_charge a | None => 0 end from_peer)))
    end.
Proof.
  unfold Store.serve, CoreRun.serve. destruct (core_window _ _ _ _) as [c1 [w|]]; [|done].
  destruct (advance_span w) as [[through floor]|]; [|done].
  destruct (core_advance c1 k through floor) as [[c2 a]|why]; done.
Qed.

(** Nothing due, nothing moved. *)
Lemma release_nothing_due st now :
  (∀ t, store_next_release st = Some t → now < t) → (store_release_due st now).1 = st.
Proof.
  unfold store_next_release, core_next_release, Deferred.next_release, store_release_due,
    core_release_due, Deferred.release_due.
  destruct st as [[r [cap nid es] cs] drops]. simpl. intros Hnd.
  assert (Deferred.parked (Deferred.mkSet cap nid es) = es) by done.
  assert (prefix_count (λ e, Deferred.release_at e <=? now) es = O) as ->.
  { destruct es as [|e es]; [done|]. simpl. specialize (Hnd _ eq_refl).
    by destruct (N.leb_spec (Deferred.release_at e) now); [lia|]. }
  done.
Qed.

Lemma next_release_after st now t :
  wf (core st) → op_ok (core st) (CoreRun.OpRelease now) →
  store_next_release (store_release_due st now).1 = Some t → now < t.
Proof.
  intros Hwf Hok. unfold store_release_due, store_next_release, core_next_release, core_release_due.
  pose proof (DeferredSpec.release_due_split _ now (wf_deferred _ Hwf)) as [_ Hrest].
  pose proof (Deferred.release_due_wf (deferred (core st)) now (wf_deferred _ Hwf)) as Hd.
  unfold op_ok in Hok.
  destruct (Deferred.release_due (deferred (core st)) now) as [d due] eqn:Hrel.
  simpl in Hrest, Hok, Hd. assert (Hcap : Deferred.cap d = Deferred.cap (deferred (core st))).
  { unfold Deferred.release_due in Hrel. by injection Hrel as <- _. }
  pose proof (release_loop_spec _ due [] [] (with_deferred_wf _ _ Hwf Hd Hcap) Hok) as Hspec.
  destruct (release_loop _ due [] []) as [c' rep]. destruct Hspec as (_&_&Hdf&_). simpl.
  rewrite Hdf. simpl. unfold Deferred.next_release. rewrite Hrest.
  destruct (filter (λ e, ¬ Deferred.release_at e ≤ now) _) as [|e es] eqn:Hf; [done|].
  intros [= <-]. assert (e ∈ e :: es) as Hin by set_solver. rewrite <-Hf in Hin.
  apply list_elem_of_filter in Hin as [? _]. lia.
Qed.

(** A control op in terms of the entry it resolves to. *)
Lemma apply_defer_op_cases st who mid op now :
  wf (core st) →
  match owned_deferred (core st) who (λ m, bool_decide (message_id m = mid)) now with
  | PastCutoff t => apply_defer_op st who mid op now = Returns (st, NotParked (Some t))
  | NotFound => apply_defer_op st who mid op now = Returns (st, NotParked None)
  | WrongSender owner => apply_defer_op st who mid op now = Returns (st, OutcomeWrongSender owner)
  | Owned i e =>
      ∃ st', apply_defer_op st who mid op now = Returns (st', Applied) ∧ wf (core st') ∧
        ring (core st') = ring (core st) ∧ cursors (core st') = cursors (core st) ∧
        DeferredSpec.contents (deferred (core st)) !! i = Some e ∧
        e ∈ Deferred.parked (deferred (core st)) ∧
        Deferred.sender e = who ∧ message_id (Deferred.payload e) = mid ∧ now < Deferred.release_at e ∧
        DeferredSpec.contents (deferred (core st')) =
          match op with
          | OpCancel => delete i (DeferredSpec.contents (deferred (core st)))
          | OpEdit b t => alter (DeferredSpec.rescheduled (with_body (Deferred.payload e) <$> b) t) i
              (DeferredSpec.contents (deferred (core st)))
          end
  end.
Proof.
  intros Hwf. pose proof (wf_deferred _ Hwf) as Hd. unfold apply_defer_op.
  destruct (owned_deferred _ _ _ _) as [i e| | |] eqn:Hown; try done.
  unfold owned_deferred in Hown. destruct (list_find _ _) as [[j e0]|] eqn:Hf; [|done].
  apply list_find_from_start in Hf as [Hj Hm%bool_decide_eq_true].
  pose proof (list_elem_of_lookup_2 _ _ _ Hj) as Hin.
  case_decide as Hs; [done|]. destruct (N.leb_spec (Deferred.release_at e0) now); [done|].
  injection Hown as <- <-.
  assert (He : DeferredSpec.contents (deferred (core st)) !! Deferred.id e0 = Some e0).
  { apply DeferredSpec.lookup_contents; [|done]. by destruct Hd. }
  destruct op as [|b t].
  - destruct (DeferredSpec.contents_cancel _ (Deferred.id e0) Hd) as [Hc1 Hc2].
    pose proof (Deferred.cancel_wf _ (Deferred.id e0) Hd) as Hcwf.
    assert (Hcap : Deferred.cap (Deferred.cancel (deferred (core st)) (Deferred.id e0)).1 =
      Deferred.cap (deferred (core st))) by (unfold Deferred.cancel; by repeat case_match).
    unfold cancel_deferred. destruct (Deferred.cancel _ _) as [dset r]. simpl in *.
    rewrite Hc1, He. simpl. eexists. split_and!; [done|by apply with_deferred_wf|done..].
  - destruct (DeferredSpec.contents_edit _ (Deferred.id e0) (with_body (Deferred.payload e0) <$> b) t Hd)
      as [Hc1 Hc2].
    pose proof (Deferred.edit_wf _ (Deferred.id e0) (with_body (Deferred.payload e0) <$> b) t Hd) as Hcwf.
    assert (Hcap : Deferred.cap (Deferred.edit (deferred (core st)) (Deferred.id e0)
      (with_body (Deferred.payload e0) <$> b) t).1 = Deferred.cap (deferred (core st)))
      by (unfold Deferred.edit; by repeat case_match).
    unfold edit_deferred. destruct (Deferred.edit _ _ _ _) as [dset r]. simpl in *.
    assert (r = Ok ()) as -> by (apply Hc2; by rewrite He). simpl. eexists.
    split_and!; [done|by apply with_deferred_wf|done..].
Qed.

(** *** Every channel at once *)

(** Whether channel [c] has something due. *)
Definition due_at (m : gmap string (ChannelStore Uuid DateTime K)) (now : N) (c : string) : bool :=
  match m !! c with
  | Some st => match store_next_release st with Some t => t <=? now | None => false end
  | None => false
  end.

Lemma release_one_state now m out c :
  let '(m', out') := release_one now (m, out) c in
  (m' !! c = (λ st, (store_release_due st now).1) <$> m !! c) ∧
  (∀ c', c' ≠ c → m' !! c' = m !! c') ∧
  out'.*1 = out.*1 ++ (if due_at m now c then [c] else []).
Proof.
  unfold release_one, due_at. destruct (m !! c) as [st|] eqn:Hc; simpl.
  2:{ rewrite Hc, app_nil_r. done. }
  destruct (store_next_release st) as [t|] eqn:Ht.
  - destruct (N.leb_spec t now).
    + destruct (store_release_due st now) as [st' rep]. simpl. rewrite lookup_insert_eq, fmap_app.
      split_and!; [done| |done]. intros c' ?. by rewrite lookup_insert_ne.
    + rewrite Hc, app_nil_r. split_and!; try done. simpl. f_equal. symmetry.
      apply release_nothing_due. rewrite Ht. by intros ? [= <-].
  - rewrite Hc, app_nil_r. split_and!; try done. simpl. f_equal. symmetry.
    apply release_nothing_due. by rewrite Ht.
Qed.

Lemma release_fold now cs m out :
  NoDup cs →
  let '(m', out') := foldl (release_one now) (m, out) cs in
  (∀ c, m' !! c = if decide (c ∈ cs) then (λ st, (store_release_due st now).1) <$> m !! c
                  else m !! c) ∧
  out'.*1 = out.*1 ++ filter (λ c, due_at m now c = true) cs.
Proof.
  revert m out. induction cs as [|c cs IH]; intros m out Hnd.
  { cbn [foldl]. rewrite filter_nil, app_nil_r. split; [|done]. intros c.
    by rewrite decide_False by (apply not_elem_of_nil). }
  apply NoDup_cons in Hnd as [Hc Hnd]. cbn [foldl].
  pose proof (release_one_state now m out c) as Hone.
  destruct (release_one now (m, out) c) as [m1 out1]. destruct Hone as (Hm&Hother&Hout).
  specialize (IH m1 out1 Hnd). destruct (foldl (release_one now) (m1, out1) cs) as [m' out'].
  destruct IH as [Hm' Hout']. split.
  - intros c'. rewrite Hm'. destruct (decide (c' = c)) as [->|Hne].
    + rewrite decide_False by done. rewrite decide_True by set_solver. done.
    + rewrite Hother by done. destruct (decide (c' ∈ cs)).
      * by rewrite decide_True by set_solver.
      * by rewrite decide_False by set_solver.
  - rewrite Hout', Hout, <-app_assoc. f_equal.
    rewrite (filter_ext_in (λ x, due_at m1 now x = true) (λ x, due_at m now x = true)).
    + rewrite filter_cons. by destruct (due_at m now c).
    + intros c' Hin. unfold due_at. rewrite Hother; [done|]. by intros ->.
Qed.

(** What a channel's turn adds to the answer is what its own store released, and only a
    store with something parked has a turn. *)
Lemma release_one_reports now m out c x :
  x ∈ (release_one now (m, out) c).2 →
  x ∈ out ∨ x.1 = c ∧ ∃ st, m !! c = Some st ∧ x.2 = (store_release_due st now).2 ∧
    Deferred.parked (deferred (core st)) ≠ [].
Proof.
  unfold release_one. destruct (m !! c) as [st|]; [|by left].
  destruct (store_next_release st) as [t|] eqn:Ht; [|by left]. case_match; [|by left].
  destruct (store_release_due st now) as [st' rep] eqn:Hr.
  intros [?| ->%list_elem_of_singleton]%elem_of_app; [by left|right]. split; [done|]. exists st. rewrite Hr.
  split_and!; [done|done|]. intros He. unfold store_next_release, core_next_release, Deferred.next_release in Ht.
  by rewrite He in Ht.
Qed.

Lemma release_fold_reports now cs m out x :
  NoDup cs → x ∈ (foldl (release_one now) (m, out) cs).2 →
  x ∈ out ∨ x.1 ∈ cs ∧ ∃ st, m !! x.1 = Some st ∧ x.2 = (store_release_due st now).2 ∧
    Deferred.parked (deferred (core st)) ≠ [].
Proof.
  revert m out. induction cs as [|c cs IH]; intros m out Hnd; [by left|].
  apply NoDup_cons in Hnd as [Hc Hnd]. cbn [foldl].
  pose proof (release_one_reports now m out c x) as Hone. pose proof (release_one_state now m out c) as Hst.
  destruct (release_one now (m, out) c) as [m1 out1]. destruct Hst as (_&Hother&_). simpl in Hone.
  intros [Hx|(Hin&st&Hst&Hrest)]%(IH m1 out1 Hnd).
  - destruct (Hone Hx) as [?|[<- Hr]]; [by left|right]. split; [by left|exact Hr].
  - right. split; [by right|]. exists st. rewrite <-Hother; [done|]. intros Hxc. by rewrite Hxc in Hin.
Qed.

(** The soonest deadline is some channel's. *)
Lemma next_release_some (ss : ChannelStores Uuid DateTime K) t :
  stores_next_release ss = Some t →
  (∃ c st, stores ss !! c = Some st ∧ store_next_release st = Some t) ∧
  ∀ c st t', stores ss !! c = Some st → store_next_release st = Some t' → t ≤ t'.
Proof.
  unfold stores_next_release. intros Ht.
  assert (Hgen : ∀ cs t, foldr (λ c acc, min_opt (st ← stores ss !! c; store_next_release st) acc) None cs
      = Some t →
    (∃ c st, stores ss !! c = Some st ∧ store_next_release st = Some t) ∧
    ∀ c st t', c ∈ cs → stores ss !! c = Some st → store_next_release st = Some t' → t ≤ t').
  { clear Ht t. intros cs. induction cs as [|c cs IH]; intros t; [done|]. cbn [foldr].
    destruct (foldr _ None cs) as [u|] eqn:Hu.
    - destruct (IH u eq_refl) as [Hex Hall].
      destruct (stores ss !! c) as [st|] eqn:Hc; simpl.
      + destruct (store_next_release st) as [v|] eqn:Hv; simpl; intros [= <-].
        * split.
          { destruct (N.min_spec v u) as [[_ ->]|[_ ->]]; [by exists c, st|done]. }
          intros c' st' t' [->|Hin]%elem_of_cons Hc' Ht'; [simplify_eq; lia|].
          specialize (Hall _ _ _ Hin Hc' Ht'). lia.
        * split; [done|]. intros c' st' t' [->|Hin]%elem_of_cons Hc' Ht'; [congruence|]. eauto.
      + intros [= <-]. split; [done|]. intros c' st' t' [->|Hin]%elem_of_cons Hc' Ht'; [congruence|]. eauto.
    - assert (Hnone : ∀ c st t', c ∈ cs → stores ss !! c = Some st → store_next_release st = Some t' → False).
      { clear IH. induction cs as [|c1 cs IH]; intros c' st' t' Hin Hc' Ht'; [by apply not_elem_of_nil in Hin|].
        cbn [foldr] in Hu. apply elem_of_cons in Hin as [->|Hin].
        - rewrite Hc' in Hu. simpl in Hu. rewrite Ht' in Hu. by destruct (foldr _ None cs).
        - eapply IH; [|done..].
          by destruct (st ← stores ss !! c1; store_next_release st), (foldr _ None cs). }
      destruct (stores ss !! c) as [st|] eqn:Hc; simpl; [|done].
      destruct (store_next_release st) as [v|] eqn:Hv; simpl; intros [= <-].
      split; [by exists c, st|]. intros c' st' t' [->|Hin]%elem_of_cons Hc' Ht'; [simplify_eq; lia|].
      exfalso. eauto. }
  destruct (Hgen _ _ Ht) as [Hex Hall]. split; [done|]. intros c st t' Hc. apply (Hall c st t'); [|done].
  apply elem_of_address_order. by rewrite Hc.
Qed.
End facts.
End StoreFacts.

Module StoreProps.
Import Ring Cursor CursorProps Core CoreFacts CoreRun Envelope Store StoreFacts.

Section props.
Context {Uuid DateTime K : Type} `{EqDecision Uuid, Countable K}.
Implicit Types (st : ChannelStore Uuid DateTime K) (env : MessageEnvelope Uuid DateTime) (k : K).

(** The identities a store retains, oldest first. *)
Definition retained_ids st : list Uuid := (λ e, message_id (message e)) <$> entries (ring (core st)).

(** Intake is idempotent by message identity. Retention never holds one identity
    twice; an envelope it already holds is refused without a trace, and one it does not
    is retained under the next seq as the newest message. *)
Theorem insert_is_idempotent_by_identity st env :
  wf (core st) → next_seq (ring (core st)) < u64_max → 0 < store_depth st →
  NoDup (retained_ids st) →
  let st' := (insert st env).1 in
  wf (core st') ∧ NoDup (retained_ids st') ∧ insert st' env = (st', []) ∧
  (message_id env ∈ retained_ids st → insert st env = (st, [])) ∧
  (message_id env ∉ retained_ids st →
     last (entries (ring (core st'))) = Some (mkRetained (next_seq (ring (core st))) env)).
Proof.
  intros Hwf Hmax Hdep Hnd. cbv zeta. pose proof (wf_ring _ Hwf) as Hr.
  destruct (holds st env) eqn:Hh.
  - assert (Hst : insert st env = (st, [])) by (unfold insert; by rewrite Hh).
    rewrite Hst. simpl. split_and!; try done. intros Hn. by apply holds_spec in Hh.
  - assert (Hn : message_id env ∉ retained_ids st).
    { intros Hin. apply (holds_spec st env) in Hin. congruence. }
    unfold insert. rewrite Hh.
    pose proof (core_append_wf (core st) env Hwf Hmax) as Hwf'.
    pose proof (core_append_frame (core st) env) as (_&_&Hrg).
    destruct (core_append (core st) env) as [c rep]. simpl in *.
    destruct (entries_append_suffix (ring (core st)) env Hr Hmax) as [n Hent].
    assert (Hent' := Hent). rewrite append_spec in Hent' by done. simpl in Hent'.
    set (full := entries (ring (core st)) ++ [mkRetained (next_seq (ring (core st))) env]) in *.
    assert (Hlast : last (entries (ring c)) = Some (mkRetained (next_seq (ring (core st))) env)).
    { rewrite Hrg, append_spec by done. simpl. rewrite drop_app_le.
      - by rewrite last_snoc.
      - unfold store_depth in Hdep. unfold len. lia. }
    split_and!; [done| | |done|done].
    + unfold retained_ids. simpl. rewrite Hrg, Hent, fmap_drop. unfold full. rewrite fmap_app. simpl.
      assert (NoDup (retained_ids st ++ [message_id env])) as Hfull.
      { apply NoDup_app. split_and!; [done| |apply NoDup_singleton].
        intros x Hx Hx'. apply list_elem_of_singleton in Hx' as ->. done. }
      eapply sublist_NoDup; [exact Hfull|]. apply sublist_drop.
    + assert (holds (mkStore c (server_drops st)) env = true) as ->; [|done].
      apply holds_spec. simpl. apply last_Some_elem_of in Hlast.
      apply list_elem_of_fmap. eexists. split; [|exact Hlast]. done.
Qed.

(** One serve reports each loss exactly once. What it reports dropped is what its
    position moved over unshown plus the peer's own count, and what it counts as noise
    excludes precisely what evictions had already reported; both are then settled, so
    serving again at once reports nothing lost and presents nothing as new. *)
Theorem serve_reports_each_loss_once st k d cur :
  wf (core st) → cursors (core st) !! k = Some cur → 0 < Subs.push_depth d →
  entries (ring (core st)) ≠ [] →
  next_seq (ring (core st)) + default 0 (server_drops st !! k) ≤ u64_max →
  ∃ st1 w1 st2 w2 unseen,
    Store.serve st k d = Returns (st1, Some w1) ∧
    served_dropped w1 + unseen =
      next_seq (ring (core st)) - next_owed cur + default 0 (server_drops st !! k) ∧
    served_counted w1 + pending (core st) cur = served_dropped w1 ∧
    Store.serve st1 k d = Returns (st2, Some w2) ∧
    served_dropped w2 = 0 ∧ served_counted w2 = 0 ∧
    served_new_from w2 = len (served_envelopes w2).
Proof.
  intros Hwf Hk Hpd Hne Hmax. pose proof Hwf as [Hr _ _ Hcur].
  pose proof (Hcur _ _ Hk) as [Hpush Howed].
  assert (Hem : is_empty (ring (core st)) = false)
    by (unfold is_empty; by destruct (entries (ring (core st)))).
  set (pl := Subs.push_depth d) in *. set (rl := Subs.retain_depth d).
  pose proof (serve_cases (core st) k pl rl Hwf) as H1. rewrite Hk in H1. cbv zeta in H1.
  destruct (N.ltb_spec 0 pl) as [_|]; [|lia]. rewrite Hem in H1. simpl in H1.
  destruct H1 as (a1&Hs1&Hsh1&Hn1).
  set (c1 := with_cursors (core st) (<[k := mkCursor (next_seq (ring (core st))) pl]> (cursors (core st)))) in *.
  assert (Hwf1 : wf c1).
  { apply insert_cursor_wf; simpl; [done|lia|]. destruct Hr. lia. }
  pose proof (serve_cases c1 k pl rl Hwf1) as H2.
  assert (Hk1 : cursors c1 !! k = Some (mkCursor (next_seq (ring (core st))) pl))
    by (apply lookup_insert_eq).
  rewrite Hk1 in H2. cbv zeta in H2. destruct (N.ltb_spec 0 pl) as [_|]; [|lia].
  change (ring c1) with (ring (core st)) in H2. rewrite Hem in H2. simpl in H2.
  destruct H2 as (a2&Hs2&Hsh2&Hn2).
  assert (Hd2 : dropped a2 = 0) by lia.
  assert (Hc2 : noise_charge a2 = 0) by lia.
  set (w1 := window (set_push_depth cur pl) (ring (core st)) pl rl) in *.
  set (w2 := window (set_push_depth (mkCursor (next_seq (ring (core st))) pl) pl) (ring (core st)) pl rl) in *.
  exists (mkStore c1 (delete k (server_drops st))). do 3 eexists. exists (served_unseen cur w1).
  rewrite (serve_core st). fold pl rl. rewrite Hs1. cbn [mbind panics_bind].
  split; [done|]. simpl. rewrite !u64_add_small by lia.
  split; [lia|]. split; [unfold pending; lia|].
  rewrite serve_core. fold pl rl. cbn [core server_drops]. rewrite Hs2. cbn [mbind panics_bind].
  split; [done|]. simpl. rewrite lookup_delete_eq. simpl. rewrite Hd2, Hc2.
  split; [done|]. split; [done|].
  unfold w2. rewrite len_fmap. simpl. rewrite len_tail by done.
  transitivity (new_from (window (mkCursor (next_seq (ring (core st))) pl) (ring (core st)) pl rl)); [done|].
  rewrite window_new_from by done. simpl.
  rewrite len_tail, tail_drop, filter_owed_drop, len_drop, frontier_wf by done.
  destruct Hr. lia.
Qed.

(** A control op touches only its caller's own schedule. It never unwinds, keeps the
    channel invariant, moves no retained message and no position, changes nothing unless
    it answers [Applied], and leaves every message parked by another sender exactly as it
    was. *)
Theorem defer_op_touches_only_its_owner st who mid op now :
  wf (core st) →
  ∃ st' o, apply_defer_op st who mid op now = Returns (st', o) ∧ wf (core st') ∧
    ring (core st') = ring (core st) ∧ cursors (core st') = cursors (core st) ∧
    (o ≠ Applied → st' = st) ∧
    (o = Applied → ∃ e, e ∈ store_deferred_for_sender st who ∧
       message_id (Deferred.payload e) = mid ∧ now < Deferred.release_at e) ∧
    ∀ i e, Deferred.sender e ≠ who →
      DeferredSpec.contents (deferred (core st')) !! i = Some e ↔
      DeferredSpec.contents (deferred (core st)) !! i = Some e.
Proof.
  intros Hwf. pose proof (apply_defer_op_cases st who mid op now Hwf) as Hc.
  destruct (owned_deferred _ _ _ _) as [i e| | |];
    [|rewrite Hc; do 2 eexists; split_and!; done..].
  destruct Hc as (st'&->&Hwf'&Hr&Hcs&He&Hin&Hs&Hm&Hrel&Hcont). exists st', Applied.
  split_and!; try done.
  - intros _. exists e. split_and!; [|done|done]. apply list_elem_of_filter. done.
  - intros j e' Hs'. rewrite Hcont. destruct op as [|b t].
    + destruct (decide (i = j)) as [<-|Hne]; [|by rewrite lookup_delete_ne].
      rewrite lookup_delete_eq, He. split; [done|]. intros [= <-]. done.
    + destruct (decide (i = j)) as [<-|Hne]; [|by rewrite lookup_alter_ne].
      rewrite lookup_alter_eq, He. simpl. split; [|by intros [= <-]].
      intros [= Heq]. exfalso. apply Hs'. rewrite <-Heq. by unfold DeferredSpec.rescheduled.
Qed.

(** One release pass settles every channel. Each channel ends exactly as its own
    release pass leaves it, whether or not it had anything due; the report names exactly
    the channels that did, in address order; and afterwards no deadline anywhere is at or
    before [now]. *)
Theorem release_pass_covers_every_channel (ss : ChannelStores Uuid DateTime K) now :
  (∀ c st, stores ss !! c = Some st → wf (core st) ∧ op_ok (core st) (CoreRun.OpRelease now)) →
  let '(ss', out) := stores_release_due ss now in
  (∀ c, stores ss' !! c = (λ st, (store_release_due st now).1) <$> stores ss !! c) ∧
  out.*1 = filter (λ c, due_at (stores ss) now c = true) (stores_channels ss) ∧
  ∀ t, stores_next_release ss' = Some t → now < t.
Proof.
  intros Hok. unfold stores_release_due.
  pose proof (release_fold now (address_order (stores ss)) (stores ss) []
    (NoDup_address_order (stores ss))) as Hfold.
  destruct (foldl (release_one now) (stores ss, []) _) as [m out]. destruct Hfold as [Hm Hout].
  assert (Hall : ∀ c, m !! c = (λ st, (store_release_due st now).1) <$> stores ss !! c).
  { intros c. rewrite Hm. case_decide as Hc; [done|]. rewrite elem_of_address_order in Hc.
    apply eq_None_not_Some in Hc. by rewrite Hc. }
  split_and!; [done|done|]. intros t Ht. apply next_release_some in Ht as [(c&st&Hc&Hst) _].
  simpl in Hc. rewrite Hall in Hc. apply fmap_Some in Hc as (st0&Hst0&->).
  destruct (Hok _ _ Hst0). by eapply next_release_after.
Qed.
End props.

(** *** Evaluation at small stores *)

Definition ex_env (n : N) : MessageEnvelope N N :=
  mkEnvelope n "src" "local:a" "who" 0 "hi" None None None None Normal Local.
Definition ex_store : ChannelStore N N string :=
  count_server_drops
    (insert (insert (insert (store_attach (store_new 7 2) "r" 4).1 (ex_env 1)).1 (ex_env 2)).1 (ex_env 3)).1 5.
Definition ex_parked : ChannelStore N N string :=
  (store_park (store_park ex_store "a" (ex_env 8) 50).1 "b" (ex_env 9) 60).1.

Lemma ex_store_wf : wf (core ex_store).
Proof.
  unfold ex_store, count_server_drops. simpl.
  assert (H0 : wf (core (store_attach (store_new (DateTime := N) 7 2) "r" 4).1)).
  { apply (attach_wf (core_new 7 2) "r" 4), core_new_wf. }
  assert (Hi : ∀ (st : ChannelStore N N string) env, wf (core st) → next_seq (ring (core st)) < u64_max →
    wf (core (insert st env).1)).
  { intros st env Hwf Hlt. unfold insert. destruct (holds st env); [done|].
    pose proof (core_append_wf (core st) env Hwf Hlt). by destruct (core_append (core st) env). }
  apply Hi; [apply Hi; [apply Hi; [exact H0|]|]|]; vm_compute; reflexivity.
Qed.

Lemma park_core_wf (st : ChannelStore N N string) who env t :
  wf (core st) → Deferred.next_id (deferred (core st)) < u64_max → wf (core (store_park st who env t).1).
Proof.
  intros Hwf Hlt. destruct (core_step_wf "r" (core st) (CoreRun.OpPark who env t) Hwf Hlt) as (c'&l&Hs&Hc).
  simpl in Hs. injection Hs as Hs _. unfold store_park.
  destruct (core_park (core st) who env t) as [c r]. simpl in *. congruence.
Qed.

Lemma ex_parked_wf : wf (core ex_parked).
Proof. repeat (apply park_core_wf; [|vm_compute; reflexivity]). exact ex_store_wf. Qed.

Lemma insert_is_idempotent_by_identity_witness :
  insert (insert ex_store (ex_env 4)).1 (ex_env 4) = ((insert ex_store (ex_env 4)).1, []).
Proof.
  destruct (insert_is_idempotent_by_identity ex_store (ex_env 4) ex_store_wf) as (_&_&Hi&_);
    [vm_compute; reflexivity|vm_compute; reflexivity| |exact Hi].
  vm_compute. repeat constructor; set_solver.
Defined.

Lemma serve_reports_each_loss_once_witness :
  ∃ st1 w1, Store.serve ex_store "r" (Subs.mkDepths 1 0) = Returns (st1, Some w1) ∧
    served_dropped w1 = 7 ∧ served_counted w1 = 6.
Proof.
  destruct (serve_reports_each_loss_once ex_store "r" (Subs.mkDepths 1 0) (mkCursor 1 4) ex_store_wf)
    as (st1&w1&st2&w2&u&Hs&_); [vm_compute; reflexivity|vm_compute; reflexivity|vm_compute; discriminate
    |vm_compute; discriminate|].
  exists st1, w1. split; [exact Hs|]. vm_compute in Hs. injection Hs as _ <-. split; reflexivity.
Defined.

Lemma defer_op_touches_only_its_owner_witness :
  ∃ st' o, apply_defer_op ex_parked "a" 8 OpCancel 10 = Returns (st', o) ∧ o = Applied.
Proof.
  destruct (defer_op_touches_only_its_owner ex_parked "a" 8 OpCancel 10 ex_parked_wf) as (st'&o&Ha&_).
  exists st', o. split; [exact Ha|]. vm_compute in Ha. by injection Ha as _ <-.
Defined.

Lemma release_pass_covers_every_channel_witness :
  (stores_release_due (mkStores 7 {["local:a" := ex_parked]}) 55).2.*1 = ["local:a"].
Proof.
  pose proof (release_pass_covers_every_channel (mkStores 7 {["local:a" := ex_parked]}) 55) as Hr.
  destruct (stores_release_due (mkStores 7 {["local:a" := ex_parked]}) 55) as [ss' out] eqn:E.
  destruct Hr as (_&Hout&_).
  - intros c st. simpl. intros [<- <-]%lookup_singleton_Some. split; [exact ex_parked_wf|].
    vm_compute. discriminate.
  - simpl. rewrite Hout. vm_compute. reflexivity.
Defined.

(** A reader demoted to sampled holds no position, and its unserved peer count stays
    behind: the next sampled serve, which advances nothing, still reports it. *)
Theorem demoted_reader_still_reports_peer_drops :
  ∃ st w, Store.serve (store_attach ex_store "r" 0).1 "r" (Subs.mkDepths 0 1) = Returns (st, Some w) ∧
    served_dropped w = 5 ∧ is_attached (core (store_attach ex_store "r" 0).1) "r" = false.
Proof. do 2 eexists. split; [vm_compute; reflexivity|]. split; vm_compute; reflexivity. Qed.

(** An edit may move a release to the epoch itself; until the next pass takes it the
    entry is parked, and the cross-sender reads leave it out. *)
Theorem epoch_release_missing_from_parked_reads :
  ∃ st, apply_defer_op ex_parked "a" 8 (OpEdit None (Some 0)) 10 = Returns (st, Applied) ∧
    length (store_deferred_for_sender st "a") = 1%nat ∧ parked_senders st = ["b"].
Proof. eexists. split; [vm_compute; reflexivity|]. split; vm_compute; reflexivity. Qed.
End StoreProps.
