(* ===== verification/Conn.v ===== *)
(** * The connection lifecycle ([attach/client/src/{conn,lib}.rs])

    A sans-I/O state machine: connect, negotiate, hold the attachment live against an
    inbound-silence rule, back off. The JSON parser is a parameter. [ConnRun] drives the
    machine together with the timer its effects arm. *)

From S2P Require Import Prelude Envelope Proto.

#[local] Open Scope string_scope.
#[local] Open Scope N_scope.
#[local] Open Scope list_scope.

Module Conn.
Import Envelope Proto.

(** [DetachReason]. *)
Inductive DetachReason :=
| LivenessTimeout
| TransportClosed (code : option N) (reason : string).

(** [AttachmentFacts]. *)
Record AttachmentFacts := mkFacts {
  fact_version : N;
  fact_participant_id : string;
  fact_session_id : string;
  fact_heartbeat_secs : N;
  fact_max_body_bytes : N;
  fact_max_frame_bytes : N;
  fact_alert_granted : bool;
}.

(** [ConnEvent]. *)
Inductive ConnEvent :=
| Attached (facts : AttachmentFacts)
| Detached (reason : DetachReason)
| Fatal (detail : string)
| Incompatible (ours theirs : VersionRange)
| PeerClosedTerminal (code : N) (reason : string).

(** [ConnEffect]. *)
Inductive ConnEffect (Uuid : Type) :=
| Connect (url : string)
| CloseTransport
| SetWakeup (deadline : option N)
| SendFrame (frame : ClientFrame Uuid)
| Emit (event : ConnEvent).
Arguments Connect {Uuid}.
Arguments CloseTransport {Uuid}.
Arguments SetWakeup {Uuid}.
Arguments SendFrame {Uuid}.
Arguments Emit {Uuid}.

(** [ConnInput]. *)
Inductive ConnInput :=
| Opened
| ConnectFailed
| Disconnected (code : option N) (reason : string)
| TextFrame (text : string)
| BinaryFrame
| HostFatal (detail : string)
| Tick.

(** [ConnStep]. *)
Record ConnStep (Uuid DateTime : Type) := mkStep {
  effects : list (ConnEffect Uuid);
  routed : option (ServerFrame Uuid DateTime);
}.
Arguments mkStep {Uuid DateTime}.
Arguments effects {Uuid DateTime}.
Arguments routed {Uuid DateTime}.

Inductive ConnState := Connecting | Negotiating | AwaitingWelcome | Active | Backoff | Terminal.
#[export] Instance ConnState_eq_dec : EqDecision ConnState.
Proof. solve_decision. Defined.

(** [Millis::saturating_add_ms]. *)
Definition saturating_add_ms (t ms : N) : N := u64_saturating_add t ms.

(** [Connection]. [jitter] is the generator's state. *)
Record Connection := mkConn {
  url : string;
  ident : string;
  initial_backoff_ms : N;
  max_backoff_ms : N;
  connect_timeout_ms : N;
  liveness_multiplier : N;
  terminal_close_codes : list N;
  liveness_ms : N;
  state : ConnState;
  backoff_step : N;
  deadline : N;
  version : option N;
  jitter : N;
}.

(** [ConnConfig], its durations already in milliseconds. *)
Record ConnConfig := mkConfig {
  cfg_url : string;
  cfg_ident : string;
  cfg_initial_backoff : N;
  cfg_max_backoff : N;
  cfg_connect_timeout : N;
  cfg_liveness_multiplier : N;
  cfg_backoff_jitter_seed : N;
  cfg_terminal_close_codes : list N;
}.

(** ** Field updates *)
Definition set_state (c : Connection) (s : ConnState) : Connection :=
  mkConn (url c) (ident c) (initial_backoff_ms c) (max_backoff_ms c) (connect_timeout_ms c)
    (liveness_multiplier c) (terminal_close_codes c) (liveness_ms c) s (backoff_step c)
    (deadline c) (version c) (jitter c).
Definition set_deadline (c : Connection) (d : N) : Connection :=
  mkConn (url c) (ident c) (initial_backoff_ms c) (max_backoff_ms c) (connect_timeout_ms c)
    (liveness_multiplier c) (terminal_close_codes c) (liveness_ms c) (state c) (backoff_step c)
    d (version c) (jitter c).
Definition set_version (c : Connection) (v : option N) : Connection :=
  mkConn (url c) (ident c) (initial_backoff_ms c) (max_backoff_ms c) (connect_timeout_ms c)
    (liveness_multiplier c) (terminal_close_codes c) (liveness_ms c) (state c) (backoff_step c)
    (deadline c) v (jitter c).
Definition set_backoff_step (c : Connection) (n : N) : Connection :=
  mkConn (url c) (ident c) (initial_backoff_ms c) (max_backoff_ms c) (connect_timeout_ms c)
    (liveness_multiplier c) (terminal_close_codes c) (liveness_ms c) (state c) n
    (deadline c) (version c) (jitter c).
Definition set_liveness_ms (c : Connection) (n : N) : Connection :=
  mkConn (url c) (ident c) (initial_backoff_ms c) (max_backoff_ms c) (connect_timeout_ms c)
    (liveness_multiplier c) (terminal_close_codes c) n (state c) (backoff_step c)
    (deadline c) (version c) (jitter c).
Definition set_jitter (c : Connection) (n : N) : Connection :=
  mkConn (url c) (ident c) (initial_backoff_ms c) (max_backoff_ms c) (connect_timeout_ms c)
    (liveness_multiplier c) (terminal_close_codes c) (liveness_ms c) (state c) (backoff_step c)
    (deadline c) (version c) n.

(** ** The jitter generator *)

Definition wrapping_mul (a b : N) : N := (a * b) mod (u64_max + 1).

(** [SplitMix64::next_u64]: the next state and the draw. *)
Definition next_u64 (st : N) : N * N :=
  let st := u64_add st 0x9E3779B97F4A7C15 in
  let z := st in
  let z := wrapping_mul (N.lxor z (N.shiftr z 30)) 0xBF58476D1CE4E5B9 in
  let z := wrapping_mul (N.lxor z (N.shiftr z 27)) 0x94D049BB133111EB in
  (st, N.lxor z (N.shiftr z 31)).

(** The doubling loop of [backoff_delay_ms]. *)
Fixpoint backoff_loop (n : nat) (nominal max : N) : N :=
  match n with
  | O => nominal
  | S n =>
      let nominal := u64_saturating_mul nominal 2 in
      if max <=? nominal then nominal else backoff_loop n nominal max
  end.

(** [Connection::backoff_delay_ms]. *)
Definition backoff_delay_ms (c : Connection) : Connection * N :=
  let nominal := backoff_loop (N.to_nat (backoff_step c)) (initial_backoff_ms c) (max_backoff_ms c) in
  let nominal := N.min nominal (max_backoff_ms c) in
  let half := nominal / 2 in
  let '(st, draw) := next_u64 (jitter c) in
  (set_jitter c st, u64_add (u64_sub nominal half) (draw mod (u64_add half 1))).

Section machine.
Context {Uuid DateTime : Type}.
Variable parse_frame : string → result (ServerFrame Uuid DateTime) string.
Implicit Types (c : Connection).

Abbreviation step := (ConnStep Uuid DateTime).
Abbreviation effect := (ConnEffect Uuid).

(** [ConnStep::effects] and [ConnStep::none]. *)
Definition step_effects (es : list effect) : step := mkStep es None.
Definition step_none : step := step_effects [].

(** [Connection::begin_connect]. *)
Definition begin_connect c (now : N) : Connection * list effect :=
  let c := set_deadline (set_state c Connecting) (saturating_add_ms now (connect_timeout_ms c)) in
  (c, [Connect (url c); SetWakeup (Some (deadline c))]).

(** [Connection::enter_backoff]. *)
Definition enter_backoff c (now : N) : Connection * list effect :=
  let c := set_version c None in
  let '(c, delay) := backoff_delay_ms c in
  let c := set_backoff_step c (u32_saturating_add (backoff_step c) 1) in
  let c := set_deadline (set_state c Backoff) (saturating_add_ms now delay) in
  (c, [SetWakeup (Some (deadline c))]).

(** [Connection::start]. *)
Definition start (cfg : ConnConfig) (now : N) : panics (Connection * list effect) :=
  _ ← rust_assert (0 <? cfg_liveness_multiplier cfg)
        "attach client: a liveness multiplier of zero tolerates no inbound silence";
  let c := mkConn (cfg_url cfg) (cfg_ident cfg) (cfg_initial_backoff cfg) (cfg_max_backoff cfg)
             (cfg_connect_timeout cfg) (cfg_liveness_multiplier cfg) (cfg_terminal_close_codes cfg)
             0 Backoff 0 now None (cfg_backoff_jitter_seed cfg) in
  Returns (begin_connect c now).

(** [Connection::is_active]. *)
Definition is_active c : bool := bool_decide (state c = Active).

(** [Connection::go_fatal]. *)
Definition go_fatal c (detail : string) : Connection * list effect :=
  (set_state c Terminal, [CloseTransport; Emit (Fatal detail); SetWakeup None]).

(** [Connection::close]. *)
Definition close c : Connection * list effect :=
  (set_state c Terminal, [CloseTransport; SetWakeup None]).

(** [Connection::on_disconnected]. *)
Definition on_disconnected c (code : option N) (reason : string) (now : N)
    : Connection * list effect :=
  let drop_ :=
    let '(c', es) := enter_backoff c now in
    (c', Emit (Detached (TransportClosed code reason)) :: es) in
  match code with
  | Some k =>
      if decide (k ∈ terminal_close_codes c) then
        (set_state c Terminal, [Emit (PeerClosedTerminal k reason); SetWakeup None])
      else drop_
  | None => drop_
  end.

(** [Connection::arm_liveness]. *)
Definition arm_liveness c (now : N) : Connection * N :=
  let c := set_deadline c (saturating_add_ms now (liveness_ms c)) in (c, deadline c).

Definition fatal_step c (detail : string) : Connection * step :=
  let '(c, es) := go_fatal c detail in (c, step_effects es).

(** [Connection::on_text_negotiating]. *)
Definition on_text_negotiating c (text : string) : Connection * step :=
  match parse_frame text with
  | Err detail => fatal_step c detail
  | Ok (ServerHello versions _) =>
      match negotiate SUPPORTED_VERSIONS versions with
      | Some v => (set_state (set_version c (Some v)) AwaitingWelcome, step_none)
      | None =>
          (set_state c Terminal,
           step_effects [CloseTransport; Emit (Incompatible SUPPORTED_VERSIONS versions);
                         SetWakeup None])
      end
  | Ok _ => fatal_step c "expected Hello as the first server frame"
  end.

(** [Connection::on_text_awaiting_welcome]. *)
Definition on_text_awaiting_welcome c (text : string) (now : N) : panics (Connection * step) :=
  match parse_frame text with
  | Err detail => Returns (fatal_step c detail)
  | Ok (Welcome v participant session hb max_body max_frame alert) =>
      agreed ← rust_expect (version c) "attach client: negotiated version";
      if negb (v =? agreed) then
        Returns (fatal_step c "Welcome states a version the handshake did not agree")
      else if hb =? 0 then Returns (fatal_step c "Welcome states a zero heartbeat interval")
      else
        let c := set_state (set_backoff_step c 0) Active in
        let c := set_liveness_ms c
                   (u64_saturating_mul (u64_saturating_mul hb (liveness_multiplier c)) 1000) in
        let '(c, d) := arm_liveness c now in
        Returns (c, step_effects
          [Emit (Attached (mkFacts v participant session hb max_body max_frame alert));
           SetWakeup (Some d)])
  | Ok _ => Returns (fatal_step c "expected Welcome after the version handshake")
  end.

(** [Connection::on_text_active]. *)
Definition on_text_active c (text : string) (now : N) : Connection * step :=
  match parse_frame text with
  | Err detail => fatal_step c detail
  | Ok (ServerHello _ _) => fatal_step c "second Hello frame"
  | Ok (Welcome _ _ _ _ _ _ _) => fatal_step c "second Welcome frame"
  | Ok Heartbeat =>
      let '(c, d) := arm_liveness c now in (c, step_effects [SetWakeup (Some d)])
  | Ok frame =>
      let '(c, d) := arm_liveness c now in (c, mkStep [SetWakeup (Some d)] (Some frame))
  end.

(** The tick of a state that retries on its deadline, [before] going ahead of the backoff. *)
Definition on_deadline c (now : N) (before : list effect) : Connection * step :=
  if deadline c <=? now then
    let '(c', es) := enter_backoff c now in (c', step_effects (before ++ es))
  else (c, step_effects [SetWakeup (Some (deadline c))]).

(** [Connection::on_input]. The last case is every straggler: an input the transport this
    state owns cannot have sent. *)
Definition on_input c (input : ConnInput) (now : N) : panics (Connection * step) :=
  match state c, input with
  | _, HostFatal detail => Returns (fatal_step c detail)
  | Terminal, _ => Returns (c, step_none)
  | Connecting, Opened =>
      Returns (set_state c Negotiating,
               step_effects [SendFrame (ClientHello SUPPORTED_VERSIONS (ident c))])
  | Connecting, ConnectFailed =>
      let '(c, es) := enter_backoff c now in Returns (c, step_effects es)
  | (Negotiating | AwaitingWelcome | Active), Disconnected code reason =>
      let '(c, es) := on_disconnected c code reason now in Returns (c, step_effects es)
  | Negotiating, TextFrame text => Returns (on_text_negotiating c text)
  | AwaitingWelcome, TextFrame text => on_text_awaiting_welcome c text now
  | Active, TextFrame text => Returns (on_text_active c text now)
  | (Negotiating | AwaitingWelcome | Active), BinaryFrame =>
      Returns (fatal_step c "unexpected binary frame from peer")
  | (Connecting | Negotiating | AwaitingWelcome), Tick =>
      Returns (on_deadline c now [CloseTransport])
  | Active, Tick =>
      Returns (on_deadline c now [CloseTransport; Emit (Detached LivenessTimeout)])
  | Backoff, Tick =>
      if deadline c <=? now then
        let '(c, es) := begin_connect c now in Returns (c, step_effects es)
      else Returns (c, step_effects [SetWakeup (Some (deadline c))])
  | _, _ => Returns (c, step_none)
  end.
End machine.
End Conn.

(** ** The machine with its timer *)
Module ConnRun.
Import Envelope Proto Conn.

Section run.
Context {Uuid DateTime : Type}.
Variable parse_frame : string → result (ServerFrame Uuid DateTime) string.
Implicit Types (c : Connection).

(** The deadline the effects leave armed. *)
Definition arm (armed : option N) (e : ConnEffect Uuid) : option N :=
  match e with SetWakeup d => d | _ => armed end.

(** The machine and the driver's timer. *)
Record driven := mkDriven { conn : Connection; armed : option N }.

(** One input at the driver: a tick means the armed timer has just fired. *)
Definition drive (d : driven) (input : ConnInput) (now : N) : panics (driven * ConnStep Uuid DateTime) :=
  let before := match input with Tick => None | _ => armed d end in
  '(c, st) ← on_input parse_frame (conn d) input now;
  Returns (mkDriven c (foldl arm before (effects st)), st).

Inductive reachable : driven → Prop :=
| reach_start cfg now c es :
    start cfg now = Returns (c, es) → reachable (mkDriven c (foldl arm None es))
| reach_step d input now d' st :
    reachable d → drive d input now = Returns (d', st) → reachable d'.

(** A version is agreed exactly while one is in force, and a live deadline is always
    the one armed. *)
Record ok (d : driven) : Prop := {
  ok_armed : match state (conn d) with
             | Terminal => True
             | _ => armed d = Some (deadline (conn d))
             end;
  ok_version : match state (conn d) with
               | AwaitingWelcome | Active =>
                   ∃ v theirs, version (conn d) = Some v ∧ negotiate SUPPORTED_VERSIONS theirs = Some v
               | Terminal => True
               | _ => version (conn d) = None
               end;
}.

Lemma enter_backoff_spec c now :
  state (enter_backoff (Uuid := Uuid) c now).1 = Backoff ∧
  version (enter_backoff (Uuid := Uuid) c now).1 = None ∧
  (enter_backoff (Uuid := Uuid) c now).2 =
    [SetWakeup (Some (deadline (enter_backoff (Uuid := Uuid) c now).1))].
Proof. unfold enter_backoff, backoff_delay_ms. destruct (next_u64 _). done. Qed.

Lemma on_disconnected_spec c code reason now :
  let '(c', es) := on_disconnected (Uuid := Uuid) c code reason now in
  (state c' = Terminal ∧ ∀ a, foldl arm a es = None) ∨
  (state c' = Backoff ∧ version c' = None ∧ ∀ a, foldl arm a es = Some (deadline c')).
Proof.
  unfold on_disconnected. pose proof (enter_backoff_spec c now) as (Hs&Hv&He).
  destruct (enter_backoff c now) as [c' es]. simpl in *. subst es.
  destruct code as [k|]; [case_decide|]; naive_solver.
Qed.

Lemma on_deadline_spec c now before :
  (∀ e, e ∈ before → ∀ a, arm a e = a) →
  let '(c', st) := on_deadline (Uuid := Uuid) (DateTime := DateTime) c now before in
  (c' = c ∧ effects st = [SetWakeup (Some (deadline c))]) ∨
  (state c' = Backoff ∧ version c' = None ∧ ∀ a, foldl arm a (effects st) = Some (deadline c')).
Proof.
  intros Hb. unfold on_deadline. destruct (deadline c <=? now); [right|by left].
  pose proof (enter_backoff_spec c now) as (Hs&Hv&He).
  destruct (enter_backoff c now) as [c' es]. simpl in *. subst es.
  split_and!; try done. intros a. by rewrite foldl_app.
Qed.

(** After a handler: the state it leaves, with what its effects armed. *)
Definition leaves_ok (a : option N) (r : Connection * ConnStep Uuid DateTime) : Prop :=
  ok (mkDriven r.1 (foldl arm a (effects r.2))).

Lemma fatal_ok a c detail : leaves_ok a (fatal_step c detail).
Proof. by split. Qed.

Lemma backing_off_ok a c' st :
  state c' = Backoff → version c' = None → (∀ a, foldl arm a (effects st) = Some (deadline c')) →
  leaves_ok a (c', st).
Proof. intros Hs Hv Ha. split; simpl; by rewrite Hs. Qed.

Lemma disconnected_ok a c code reason now :
  leaves_ok a (let '(c, es) := on_disconnected c code reason now in (c, step_effects es)).
Proof.
  pose proof (on_disconnected_spec c code reason now) as Hd.
  destruct (on_disconnected c code reason now) as [c' es].
  destruct Hd as [[Hs _]|(Hs&Hv&Ha)]; [|by apply backing_off_ok]. split; simpl; by rewrite Hs.
Qed.

Lemma deadline_ok c now before :
  ok (mkDriven c (Some (deadline c))) → (∀ e, e ∈ before → ∀ a, arm a e = a) →
  leaves_ok None (on_deadline c now before).
Proof.
  intros Hok Hb. pose proof (on_deadline_spec c now before Hb) as Hd.
  destruct (on_deadline c now before) as [c' st].
  destruct Hd as [[-> He]|(Hs&Hv&Ha)]; [|by apply backing_off_ok].
  unfold leaves_ok. simpl. by rewrite He.
Qed.

Lemma negotiating_ok c text :
  state c = Negotiating → leaves_ok (Some (deadline c)) (on_text_negotiating parse_frame c text).
Proof.
  intros Hst. unfold on_text_negotiating.
  destruct (parse_frame text) as [[]|]; try apply fatal_ok.
  destruct (negotiate SUPPORTED_VERSIONS versions) as [v|] eqn:Hn; split; simpl; eauto.
Qed.

Lemma awaiting_welcome_ok a c text now r :
  (∃ v theirs, version c = Some v ∧ negotiate SUPPORTED_VERSIONS theirs = Some v) →
  on_text_awaiting_welcome parse_frame c text now = Returns r → leaves_ok a r.
Proof.
  intros (v&theirs&Hv&Hn). unfold on_text_awaiting_welcome.
  destruct (parse_frame text) as [[]|]; try (intros [= <-]; apply fatal_ok).
  rewrite Hv. simpl. destruct (negb _); [intros [= <-]; apply fatal_ok|].
  destruct (_ =? 0); intros [= <-]; [apply fatal_ok|]. split; simpl; eauto.
Qed.

Lemma active_ok a c text now :
  state c = Active → ok (mkDriven c (Some (deadline c))) →
  leaves_ok a (on_text_active parse_frame c text now).
Proof.
  intros Hst [_ Hv]. simpl in Hv. unfold on_text_active.
  destruct (parse_frame text) as [[]|]; try apply fatal_ok; split; simpl; rewrite ?Hst in *; eauto.
Qed.

Lemma on_input_ok c input now r :
  state c ≠ Terminal → ok (mkDriven c (Some (deadline c))) →
  on_input parse_frame c input now = Returns r →
  leaves_ok (match input with Tick => None | _ => Some (deadline c) end) r.
Proof.
  intros Hnt Hok. assert (Hsame : leaves_ok (Some (deadline c)) (c, step_none)) by exact Hok.
  pose proof (disconnected_ok (Some (deadline c)) c) as Hdisc.
  pose proof (deadline_ok c now [CloseTransport] Hok ltac:(set_solver)) as Hdl.
  pose proof (deadline_ok c now [CloseTransport; Emit (Detached LivenessTimeout)] Hok
    ltac:(set_solver)) as Hdl'.
  pose proof (enter_backoff_spec c now) as (Hbs&Hbv&Hbe). pose proof Hok as [_ Hver]. simpl in Hver.
  unfold on_input. destruct (state c) eqn:Hst, input as [| |code reason|text| |detail|];
    try done; try (intros [= <-]; (exact Hsame || apply fatal_ok || apply Hdl || apply Hdl')).
  - intros [= <-]. split; simpl; done.
  - destruct (enter_backoff c now) as [c' es]. simpl in *. intros [= <-]. subst es.
    by apply backing_off_ok.
  - specialize (Hdisc code reason now). destruct (on_disconnected c code reason now).
    by intros [= <-].
  - intros [= <-]. by apply negotiating_ok.
  - specialize (Hdisc code reason now). destruct (on_disconnected c code reason now).
    by intros [= <-].
  - by apply awaiting_welcome_ok.
  - specialize (Hdisc code reason now). destruct (on_disconnected c code reason now).
    by intros [= <-].
  - intros [= <-]. by apply active_ok.
  - destruct (deadline c <=? now); intros [= <-]; [split; simpl; done|].
    unfold leaves_ok. simpl. exact Hok.
Qed.

Lemma drive_ok d input now d' st : ok d → drive d input now = Returns (d', st) → ok d'.
Proof.
  destruct d as [c a]. intros Hok. unfold drive. simpl.
  destruct (decide (state c = Terminal)) as [Ht|Hnt].
  - unfold on_input. rewrite Ht. destruct input; intros [= <- <-]; split; simpl; by rewrite ?Ht.
  - assert (a = Some (deadline c)) as ->.
    { destruct Hok as [Harm _]. simpl in Harm. by destruct (state c). }
    destruct (on_input parse_frame c input now) as [[c' st']|why] eqn:Hin; [|done].
    intros [= <- <-]. exact (on_input_ok c input now (c', st') Hnt Hok Hin).
Qed.

Lemma start_ok cfg now c es : start cfg now = Returns (c, es) → ok (mkDriven c (foldl arm None es)).
Proof. unfold start. destruct (0 <? _); [|done]. intros [= <- <-]. by split. Qed.

Lemma reachable_ok d : reachable d → ok d.
Proof. induction 1; [by eapply start_ok|by eapply drive_ok]. Qed.

Lemma drive_total d input now : ok d → ∃ d' st, drive d input now = Returns (d', st).
Proof.
  destruct d as [c a]. intros [_ Hver]. simpl in Hver. unfold drive, on_input. simpl.
  destruct (state c) eqn:Hst, input as [| |code reason|text| |detail|]; simpl; eauto;
    try (destruct (enter_backoff c now); simpl; eauto; fail);
    try (destruct (on_disconnected c code reason now); simpl; eauto; fail);
    try (destruct (on_deadline c now _); simpl; eauto; fail);
    try (destruct (on_text_negotiating parse_frame c text); simpl; eauto; fail);
    try (destruct (on_text_active parse_frame c text now); simpl; eauto; fail);
    try (destruct (deadline c <=? now); simpl; eauto; fail).
  destruct Hver as (v&theirs&Hv&_). unfold on_text_awaiting_welcome. rewrite Hv.
  destruct (parse_frame text) as [[]|]; simpl; eauto. destruct (negb _); simpl; eauto.
  destruct (_ =? 0); simpl; eauto.
Qed.

(** *** The backoff schedule *)

Lemma backoff_loop_min n i m :
  m ≤ u64_max → N.min (backoff_loop n i m) m = N.min (i * 2 ^ N.of_nat n) m.
Proof.
  intros Hm. revert i. induction n as [|n IH]; intros i; [simpl; by rewrite N.mul_1_r|].
  rewrite Nat2N.inj_succ, N.pow_succ_r', N.mul_assoc. cbn [backoff_loop].
  assert (1 ≤ 2 ^ N.of_nat n) as Hpos by (pose proof (N.pow_nonzero 2 (N.of_nat n)); lia).
  unfold u64_saturating_mul. destruct (N.leb_spec m (N.min (i * 2) u64_max)) as [Hle|Hgt].
  - assert (m ≤ i * 2 * 2 ^ N.of_nat n) by nia. lia.
  - replace (N.min (i * 2) u64_max) with (i * 2) by lia. apply IH.
Qed.
End run.
End ConnRun.

Module ConnProps.
Import Envelope Proto Conn ConnRun.

Section props.
Context {Uuid DateTime : Type}.
Variable parse_frame : string → result (ServerFrame Uuid DateTime) string.
Implicit Types (c : Connection) (d : driven).
#[local] Arguments drive {Uuid DateTime}.
#[local] Arguments reachable {Uuid DateTime}.

(** C6: The connection never unwinds and never stalls. From every state it can reach,
    whatever the peer, the transport or the timer does next and however late, it answers
    without panicking, and unless it is then terminal its own deadline is the one armed,
    so a silent peer can never leave it waiting for ever. *)
Theorem connection_never_unwinds_or_stalls d input now :
  reachable parse_frame d →
  ∃ d' st, drive parse_frame d input now = Returns (d', st) ∧
    (state (conn d') = Terminal ∨ armed d' = Some (deadline (conn d'))).
Proof.
  intros Hr. pose proof (reachable_ok parse_frame d Hr) as Hok.
  destruct (drive_total parse_frame d input now Hok) as (d'&st&Hd).
  exists d', st. split; [done|]. destruct (drive_ok parse_frame d input now d' st Hok Hd) as [Ha _].
  destruct (state (conn d')); auto.
Qed.

Lemma not_attached_backoff c now f :
  Emit (Attached f) ∉ (enter_backoff (Uuid := Uuid) c now).2.
Proof. pose proof (enter_backoff_spec (Uuid := Uuid) c now) as (_&_&->). set_solver. Qed.

(** The only handlers that announce or route anything. *)
Lemma on_input_announces c input now c' st f :
  on_input parse_frame c input now = Returns (c', st) →
  Emit (Attached f) ∈ effects st → ∃ text, state c = AwaitingWelcome ∧ input = TextFrame text.
Proof.
  unfold on_input. pose proof (not_attached_backoff c now f) as Hb.
  destruct (state c) eqn:Hst, input as [| |code reason|text| |detail|]; eauto; intros Hin Hem; exfalso;
    revert Hin Hem;
    unfold on_disconnected, on_deadline, on_text_negotiating, on_text_active, fatal_step, go_fatal,
      begin_connect, step_none, step_effects;
    try destruct (parse_frame _) as [[]|]; simpl; destruct (enter_backoff c now) as [cb es];
    simpl in Hb; repeat case_match; intros [= <- <-]; set_solver.
Qed.

Lemma on_input_routes c input now c' st fr :
  on_input parse_frame c input now = Returns (c', st) →
  routed st = Some fr → ∃ text, state c = Active ∧ input = TextFrame text.
Proof.
  unfold on_input. destruct (state c) eqn:Hst, input as [| |code reason|text| |detail|]; eauto;
    intros Hin Hem; exfalso; revert Hin Hem;
    unfold on_disconnected, on_deadline, on_text_negotiating, on_text_awaiting_welcome, fatal_step,
      go_fatal, begin_connect, step_none, step_effects;
    try destruct (parse_frame _) as [[]|]; simpl; destruct (enter_backoff (Uuid := Uuid) c now) as [cb es];
    try destruct (version c); simpl; repeat case_match; try done; by intros [= <- <-].
Qed.

(** An attachment is announced only after agreement. The machine emits [Attached]
    exactly on a [Welcome] that echoes the version both ends' ranges negotiate to and
    states a nonzero heartbeat; it is then active with the backoff schedule reset. Frames
    reach the planes above only while it is active, and never a handshake frame. *)
Theorem attached_only_after_agreement d input now d' st :
  reachable parse_frame d → drive parse_frame d input now = Returns (d', st) →
  (∀ f, Emit (Attached f) ∈ effects st →
     state (conn d) = AwaitingWelcome ∧ state (conn d') = Active ∧
     (∃ theirs, negotiate SUPPORTED_VERSIONS theirs = Some (fact_version f)) ∧
     0 < fact_heartbeat_secs f ∧ backoff_step (conn d') = 0) ∧
  (∀ fr, routed st = Some fr →
     state (conn d) = Active ∧ state (conn d') = Active ∧
     match fr with ServerHello _ _ | Welcome _ _ _ _ _ _ _ | Heartbeat => False | _ => True end).
Proof.
  intros Hr Hd. pose proof (reachable_ok parse_frame d Hr) as [_ Hver]. unfold drive in Hd.
  destruct (on_input parse_frame (conn d) input now) as [[c' st']|why] eqn:Hin; [|done].
  injection Hd as <- <-. simpl. split.
  - intros f Hf. destruct (on_input_announces _ _ _ _ _ _ Hin Hf) as (text&Hst&->).
    split; [done|]. unfold on_input in Hin. rewrite Hst in Hin, Hver.
    destruct Hver as (v&theirs&Hv&Hn). unfold on_text_awaiting_welcome in Hin. revert Hin Hf.
    destruct (parse_frame text) as [[]|]; try (intros [= <- <-]; simpl; set_solver). rewrite Hv. simpl.
    destruct (N.eqb_spec version0 v); simpl; [|intros [= <- <-]; simpl; set_solver].
    destruct (N.eqb_spec heartbeat_secs 0); intros [= <- <-]; simpl; [set_solver|].
    intros Hf. assert (f = mkFacts version0 participant_id session_id heartbeat_secs max_body_bytes
      max_frame_bytes alert_granted) as -> by set_solver. subst. simpl. split_and!; eauto; lia.
  - intros fr Hfr. destruct (on_input_routes _ _ _ _ _ _ Hin Hfr) as (text&Hst&->).
    unfold on_input in Hin. rewrite Hst in Hin. unfold on_text_active in Hin. revert Hin Hfr.
    split; [done|]. revert Hin Hfr.
    destruct (parse_frame text) as [[]|]; intros [= <- <-]; simpl; intros [= <-]; done.
Qed.

(** A terminal connection never comes back: no input of any kind takes it out of the
    terminal state or arms its timer, and every input but a host-side fatal is absorbed
    without an effect. *)
Theorem terminal_is_forever c inputs now :
  state c = Terminal →
  ∀ res, foldl (λ r i, '(c, _) ← r; on_input parse_frame c i now)
          (Returns (c, step_none)) inputs = Returns res →
  state res.1 = Terminal ∧
  ((∀ detail, HostFatal detail ∉ inputs) → res = (c, step_none)).
Proof.
  intros Ht. assert (Hgen : ∀ c st, state c = Terminal →
    ∀ res, foldl (λ r i, '(c, _) ← r; on_input parse_frame c i now) (Returns (c, st)) inputs = Returns res →
    state res.1 = Terminal ∧
    ((∀ detail, HostFatal detail ∉ inputs) → st = step_none → res = (c, step_none))).
  { clear Ht c. induction inputs as [|i inputs IH]; intros c st Ht res; simpl.
    { intros [= <-]. split; [done|]. by intros _ ->. }
    unfold on_input at 2. rewrite Ht.
    destruct i as [| |code reason|text| |detail|]; simpl;
      try (intros Hf; destruct (IH _ _ Ht _ Hf) as [H1 H2]; split; [done|];
           intros Hn _; apply H2; [set_solver|done]; fail).
    intros Hf. destruct (IH (set_state c Terminal) _ eq_refl _ Hf) as [H1 _]. split; [done|].
    intros Hn. exfalso. apply (Hn detail). set_solver. }
  intros res Hf. destruct (Hgen c step_none Ht res Hf) as [H1 H2]. split; [done|]. auto.
Qed.

(** A terminal connection is not wholly silent: a host-side fatal is answered again. *)
Theorem terminal_host_fatal_not_absorbed c detail now :
  state c = Terminal →
  on_input parse_frame c (HostFatal detail) now =
    Returns (set_state c Terminal,
      step_effects [CloseTransport; Emit (Fatal detail); SetWakeup None]).
Proof. intros Ht. unfold on_input. by rewrite Ht. Qed.

(** Silence is measured from the last frame. An active connection that has just
    taken a frame at [t] and stays active is reaped by a tick exactly when the liveness
    window has passed since [t], and an earlier tick only re-arms it. *)
Theorem reaped_exactly_after_silence c text t now c' st :
  state c = Active → on_text_active parse_frame c text t = (c', st) → state c' = Active →
  ∃ c'' st', on_input parse_frame c' Tick now = Returns (c'', st') ∧
    (Emit (Detached LivenessTimeout) ∈ effects st' ↔ N.min (t + liveness_ms c) u64_max ≤ now) ∧
    (now < N.min (t + liveness_ms c) u64_max → c'' = c').
Proof.
  intros Hst Ht Hact. assert (Hc : deadline c' = N.min (t + liveness_ms c) u64_max).
  { unfold on_text_active in Ht. destruct (parse_frame text) as [[]|]; by injection Ht as <- _. }
  unfold on_input. rewrite Hact. unfold on_deadline. rewrite Hc.
  destruct (N.leb_spec (N.min (t + liveness_ms c) u64_max) now).
  - destruct (enter_backoff c' now) as [cb es]. do 2 eexists. split; [done|]. simpl.
    split; [|lia]. split; [done|]. intros _. set_solver.
  - do 2 eexists. split; [done|]. simpl. split; [|done]. split; [set_solver|lia].
Qed.

(** The retry schedule is capped doubling with equal jitter: the deadline a backoff
    arms lies between half and all of [min(max, initial * 2^step)] after now, rounding the
    half up, so an attacher never retries sooner than half its step nor later than it. *)
Theorem backoff_is_capped_doubling_with_jitter c now :
  max_backoff_ms c ≤ u64_max →
  let nominal := N.min (initial_backoff_ms c * 2 ^ backoff_step c) (max_backoff_ms c) in
  let '(c', _) := enter_backoff (Uuid := Uuid) c now in
  ∃ delay, deadline c' = N.min (now + delay) u64_max ∧ nominal - nominal / 2 ≤ delay ≤ nominal ∧
    backoff_step c' = N.min (backoff_step c + 1) u32_max.
Proof.
  intros Hm. cbv zeta. unfold enter_backoff, backoff_delay_ms. cbn [jitter set_version].
  destruct (next_u64 (jitter c)) as [s draw]. simpl.
  rewrite backoff_loop_min, N2Nat.id by done. set (nominal := N.min _ _).
  assert (Hn : nominal ≤ u64_max) by (unfold nominal; lia).
  clearbody nominal. assert (Hh : 2 * (nominal / 2) ≤ nominal) by (apply N.Div0.mul_div_le).
  assert (Hh1 : nominal / 2 + 1 ≤ u64_max) by (unfold u64_max in *; lia).
  set (h := nominal / 2) in *. clearbody h.
  assert (Hr : draw mod (h + 1) < h + 1) by (apply N.mod_upper_bound; lia).
  rewrite (u64_add_small h 1) by exact Hh1. rewrite u64_sub_small by lia.
  set (j := draw mod (h + 1)) in *. clearbody j. rewrite (u64_add_small (nominal - h) j) by lia.
  exists (nominal - h + j). split_and!; [done|lia|lia|done].
Qed.
End props.

(** A parser of four one-word frames, and a configuration to run the machine at. *)
Definition ex_parse (t : string) : result (ServerFrame N N) string :=
  if String.eqb t "hello" then Ok (ServerHello (mkRange 3 5) "peer")
  else if String.eqb t "welcome" then Ok (Welcome 4 "surface:k" "s1" 10 65536 600000 true)
  else if String.eqb t "beat" then Ok Heartbeat
  else Err "unparseable server frame".
Definition ex_config : ConnConfig := mkConfig "ws://h" "build" 500 30000 10000 3 42 [4001].

(** The machine after opening, and after opening and negotiating, at time 5. *)
Definition ex_conn (st : ConnState) (v : option N) : Connection :=
  mkConn "ws://h" "build" 500 30000 10000 3 [4001] 0 st 0 10000 v 42.
Definition ex_live : Connection :=
  mkConn "ws://h" "build" 500 30000 10000 3 [4001] 30000 Active 0 30005 (Some 4) 42.

Lemma ex_reachable :
  reachable ex_parse (mkDriven (ex_conn AwaitingWelcome (Some 4)) (Some 10000)).
Proof.
  refine (reach_step ex_parse (mkDriven (ex_conn Negotiating None) (Some 10000)) (TextFrame "hello") 5 _ _ _ _).
  - refine (reach_step ex_parse (mkDriven (ex_conn Connecting None) (Some 10000)) Opened 5 _ _ _ _).
    + exact (reach_start ex_parse ex_config 0 (ex_conn Connecting None) _ eq_refl).
    + reflexivity.
  - reflexivity.
Qed.

Lemma connection_never_unwinds_or_stalls_witness :
  ∃ d' st, drive ex_parse (mkDriven (ex_conn AwaitingWelcome (Some 4)) (Some 10000)) Tick 99999 = Returns (d', st).
Proof.
  destruct (connection_never_unwinds_or_stalls ex_parse _ Tick 99999 ex_reachable) as (d'&st&Hd&_).
  exists d', st. exact Hd.
Defined.

Lemma attached_only_after_agreement_witness :
  ∃ theirs, negotiate SUPPORTED_VERSIONS theirs = Some 4.
Proof.
  destruct (drive ex_parse (mkDriven (ex_conn AwaitingWelcome (Some 4)) (Some 10000)) (TextFrame "welcome") 5)
    as [[d' st]|] eqn:E; [|discriminate].
  destruct (attached_only_after_agreement ex_parse _ _ _ _ _ ex_reachable E) as [Ha _].
  injection E as <- <-.
  destruct (Ha (mkFacts 4 "surface:k" "s1" 10 65536 600000 true)) as (_&_&Hn&_); [|exact Hn].
  simpl. set_solver.
Defined.

Lemma terminal_is_forever_witness :
  state (ex_conn Terminal None) = Terminal ∧
  foldl (λ r i, '(c, _) ← r; on_input ex_parse c i 7)
    (Returns (ex_conn Terminal None, step_none)) [Tick; Opened] = Returns (ex_conn Terminal None, step_none).
Proof.
  assert (Hf : foldl (λ r i, '(c, _) ← r; on_input ex_parse c i 7)
    (Returns (ex_conn Terminal None, step_none)) [Tick; Opened] = Returns (ex_conn Terminal None, step_none))
    by reflexivity.
  destruct (terminal_is_forever ex_parse (ex_conn Terminal None) [Tick; Opened] 7 eq_refl _ Hf) as [Ht _].
  split; [exact Ht|exact Hf].
Defined.

Lemma terminal_host_fatal_not_absorbed_witness :
  on_input ex_parse (ex_conn Terminal None) (HostFatal "clock") 7 =
    Returns (ex_conn Terminal None, step_effects [CloseTransport; Emit (Fatal "clock"); SetWakeup None]).
Proof. exact (terminal_host_fatal_not_absorbed ex_parse (ex_conn Terminal None) "clock" 7 eq_refl). Defined.

Lemma reaped_exactly_after_silence_witness :
  ∃ c' st c'' st', on_text_active ex_parse ex_live "beat" 100 = (c', st) ∧
    on_input ex_parse c' Tick 30100 = Returns (c'', st') ∧
    Emit (Detached LivenessTimeout) ∈ effects st'.
Proof.
  destruct (on_text_active ex_parse ex_live "beat" 100) as [c' st] eqn:E.
  destruct (reaped_exactly_after_silence ex_parse ex_live "beat" 100 30100 c' st eq_refl E)
    as (c''&st'&Hi&Hd&_); [by injection E as <- _|].
  exists c', st, c'', st'. split; [reflexivity|]. split; [exact Hi|].
  apply Hd. vm_compute. discriminate.
Defined.

Lemma backoff_is_capped_doubling_with_jitter_witness :
  max_backoff_ms ex_live ≤ u64_max ∧
  ∃ delay, deadline (enter_backoff (Uuid := N) ex_live 100).1 = N.min (100 + delay) u64_max ∧
    250 ≤ delay ≤ 500.
Proof.
  assert (Hm : max_backoff_ms ex_live ≤ u64_max) by (vm_compute; discriminate). split; [exact Hm|].
  pose proof (backoff_is_capped_doubling_with_jitter (Uuid := N) ex_live 100 Hm) as Hb.
  destruct (enter_backoff (Uuid := N) ex_live 100) as [c' es]. destruct Hb as (delay&Hd&Hr&_).
  exists delay. split; [exact Hd|]. exact Hr.
Defined.
End ConnProps.
