(* ===== verification/Publish.v ===== *)
(** * The publish plane ([attach/client/src/publish.rs])

    Outstanding publishes, the per-registrant atomic-flush outboxes, and the mirror of
    what the peer says is parked. [OutboxInv] is the outbox invariant every operation
    keeps. The embedder's key order is a parameter; only its decidability is used. *)

From S2P Require Import Prelude Envelope Proto.

#[local] Open Scope string_scope.
#[local] Open Scope N_scope.
#[local] Open Scope list_scope.

Module Publish.
Import Envelope Proto.

Definition RETRY_INTERVAL_MS : N := 1000.

(** [PublishRequest]. *)
Record PublishRequest := mkRequest {
  req_channel : string;
  req_attribution : option string;
  req_body : string;
  req_urgency : Urgency;
}.

(** [publish_frame]. *)
Definition publish_frame {Uuid} (r : PublishRequest) (correlation : option N) : ClientFrame Uuid :=
  Proto.Publish (req_channel r) (req_attribution r) (req_body r) (req_urgency r) correlation.

Section pending_publishes.
Context {Uuid T : Type}.

(** [PendingPublishes<T>]: correlation to tag. *)
Definition PendingPublishes : Type := gmap N T.

(** [PendingPublishes::send]. *)
Definition send (p : PendingPublishes) (correlation : N) (tag : T) (r : PublishRequest)
    : panics (PendingPublishes * ClientFrame Uuid) :=
  _ ← rust_assert (bool_decide (p !! correlation = None))
        "attach client: duplicate pending publish correlation";
  Returns (<[correlation := tag]> p, publish_frame r (Some correlation)).

(** [PendingPublishes::on_result]. *)
Definition on_result (p : PendingPublishes) (correlation : option N)
    : PendingPublishes * result T string :=
  match correlation with
  | None => (p, Err "PublishResult with no correlation")
  | Some c =>
      match p !! c with
      | Some tag => (delete c p, Ok tag)
      | None => (p, Err "PublishResult with unknown correlation")
      end
  end.

(** The sort key of [fail_all]. *)
Definition by_correlation (a b : N * T) : Prop := a.1 ≤ b.1.
#[global] Instance by_correlation_dec : RelDecision by_correlation.
Proof. intros a b. unfold by_correlation. apply _. Defined.

(** [PendingPublishes::fail_all]. *)
Definition fail_all (p : PendingPublishes) : PendingPublishes * list (N * T) :=
  (∅, merge_sort by_correlation (map_to_list p)).
End pending_publishes.

(** [FlushBatch]. *)
Record FlushBatch (Uuid : Type) := mkBatch {
  batch_entries : list BatchEntry;
  batch_ops : list (BatchDeferredOp Uuid);
}.
Arguments mkBatch {Uuid}.
Arguments batch_entries {Uuid}.
Arguments batch_ops {Uuid}.

(** [FlushBatch::is_empty]. *)
Definition batch_is_empty {Uuid} (b : FlushBatch Uuid) : bool :=
  match batch_entries b, batch_ops b with [], [] => true | _, _ => false end.

Inductive TimerChange := Arm (deadline : N) | Disarm.

(** [OutboxSteps<K>]. *)
Record OutboxSteps (Uuid K : Type) := mkSteps {
  frames : list (ClientFrame Uuid);
  steps_dropped : list K;
  retry_change : option TimerChange;
}.
Arguments mkSteps {Uuid K}.
Arguments frames {Uuid K}.
Arguments steps_dropped {Uuid K}.
Arguments retry_change {Uuid K}.

(** [Discarded]. *)
Record Discarded := mkDiscarded { flushes : N; discarded_change : option TimerChange }.

(** [BatchAnswer<K>]. *)
Record BatchAnswer (Uuid K : Type) := mkAnswer {
  answer_steps : OutboxSteps Uuid K;
  answer_registrant : K;
  answer_lost : option (FlushBatch Uuid);
}.
Arguments mkAnswer {Uuid K}.
Arguments answer_steps {Uuid K}.
Arguments answer_registrant {Uuid K}.
Arguments answer_lost {Uuid K}.

(** [Outbox]. *)
Record Outbox (Uuid : Type) := mkOutbox {
  generation : N;
  attribution : option string;
  depth : N;
  parked : list (FlushBatch Uuid);
  in_flight : option N;
  dropped : N;
  discarded : bool;
  rate_limited : N;
}.
Arguments mkOutbox {Uuid}.
Arguments generation {Uuid}.
Arguments attribution {Uuid}.
Arguments depth {Uuid}.
Arguments parked {Uuid}.
Arguments in_flight {Uuid}.
Arguments dropped {Uuid}.
Arguments discarded {Uuid}.
Arguments rate_limited {Uuid}.

(** [PendingBatch<K>]. *)
Record PendingBatch (Uuid K : Type) := mkPending {
  pending_key : K;
  pending_generation : N;
  pending_batch : FlushBatch Uuid;
}.
Arguments mkPending {Uuid K}.
Arguments pending_key {Uuid K}.
Arguments pending_generation {Uuid K}.
Arguments pending_batch {Uuid K}.

(** [Outboxes<K>]. *)
Record Outboxes (Uuid K : Type) `{Countable K} := mkOutboxes {
  registrants : gmap K (Outbox Uuid);
  pending : gmap N (PendingBatch Uuid K);
  next_correlation : N;
  next_generation : N;
  body_cap : option N;
  retry_armed : bool;
}.
Arguments mkOutboxes {Uuid K _ _}.
Arguments registrants {Uuid K _ _}.
Arguments pending {Uuid K _ _}.
Arguments next_correlation {Uuid K _ _}.
Arguments next_generation {Uuid K _ _}.
Arguments body_cap {Uuid K _ _}.
Arguments retry_armed {Uuid K _ _}.

Section outboxes.
Context {Uuid K : Type} `{Countable K} (kle : relation K) `{!RelDecision kle}.
Implicit Types (o : Outboxes Uuid K) (b : FlushBatch Uuid) (k : K) (x : Outbox Uuid).

Abbreviation steps := (OutboxSteps Uuid K).

(** ** Field updates *)
Definition with_registrants o (m : gmap K (Outbox Uuid)) : Outboxes Uuid K :=
  mkOutboxes m (pending o) (next_correlation o) (next_generation o) (body_cap o) (retry_armed o).
Definition with_armed o (a : bool) : Outboxes Uuid K :=
  mkOutboxes (registrants o) (pending o) (next_correlation o) (next_generation o) (body_cap o) a.
Definition with_body_cap o (c : option N) : Outboxes Uuid K :=
  mkOutboxes (registrants o) (pending o) (next_correlation o) (next_generation o) c (retry_armed o).
Definition with_pending o (p : gmap N (PendingBatch Uuid K)) : Outboxes Uuid K :=
  mkOutboxes (registrants o) p (next_correlation o) (next_generation o) (body_cap o) (retry_armed o).
Definition put_parked x (q : list (FlushBatch Uuid)) (d : N) : Outbox Uuid :=
  mkOutbox (generation x) (attribution x) (depth x) q (in_flight x) d (discarded x) (rate_limited x).
Definition put_in_flight x (f : option N) : Outbox Uuid :=
  mkOutbox (generation x) (attribution x) (depth x) (parked x) f (dropped x) (discarded x)
    (rate_limited x).

(** Every open outbox's key, in key order. *)
Definition keys o : list K := merge_sort kle (map_to_list (registrants o)).*1.

(** [Outboxes::new]. *)
Definition outboxes_new : Outboxes Uuid K := mkOutboxes ∅ ∅ 0 0 None false.

(** [Outboxes::blocked]. *)
Definition blocked o : bool :=
  match body_cap o with
  | None => false
  | Some _ =>
      existsb (λ p : K * Outbox Uuid,
        match in_flight p.2, parked p.2 with None, _ :: _ => true | _, _ => false end)
        (map_to_list (registrants o))
  end.

(** [Outboxes::retry_wakeup]. *)
Definition retry_wakeup o (now : N) : Outboxes Uuid K * option TimerChange :=
  let bl := blocked o in
  if Bool.eqb bl (retry_armed o) then (o, None)
  else (with_armed o bl,
        Some (if bl then Arm (u64_saturating_add now RETRY_INTERVAL_MS) else Disarm)).

(** Closing an operation: state the timer's change on its steps. *)
Definition settle o (now : N) (fs : list (ClientFrame Uuid)) (ds : list K) : Outboxes Uuid K * steps :=
  let '(o', t) := retry_wakeup o now in (o', mkSteps fs ds t).

(** [Outboxes::disarm_retry]. *)
Definition disarm_retry o : Outboxes Uuid K * option TimerChange :=
  if negb (retry_armed o) then (o, None) else (with_armed o false, Some Disarm).

(** [Outboxes::register]. *)
Definition register o k (attr : option string) (d : N) : panics (Outboxes Uuid K) :=
  _ ← rust_assert (0 <? d) "attach client: an outbox depth of zero holds no flush";
  let g := next_generation o in
  _ ← rust_assert (bool_decide (registrants o !! k = None))
        "attach client: registrant already has an outbox";
  Returns (mkOutboxes (<[k := mkOutbox g attr d [] None 0 false 0]> (registrants o)) (pending o)
             (next_correlation o) (u64_add g 1) (body_cap o) (retry_armed o)).

(** [Outboxes::deregister]. *)
Definition deregister o k : panics (Outboxes Uuid K * list (FlushBatch Uuid)) :=
  x ← rust_expect (registrants o !! k)
        "attach client: deregister of an unregistered registrant";
  Returns (with_registrants o (delete k (registrants o)), parked x).

(** [Outboxes::discard_parked]. *)
Definition discard_parked o k (now : N) : panics (Outboxes Uuid K * Discarded) :=
  x ← rust_expect (registrants o !! k)
        "attach client: discarding the queue of an unregistered registrant";
  let n := len (parked x) in
  let x' := mkOutbox (generation x) (attribution x) (depth x) [] (in_flight x) (dropped x) true
              (rate_limited x) in
  let '(o', t) := retry_wakeup (with_registrants o (<[k := x']> (registrants o))) now in
  Returns (o', mkDiscarded n t).

(** [Outboxes::wire_free_for]. *)
Definition wire_free_for o k : panics bool :=
  match body_cap o with
  | None => Returns false
  | Some _ =>
      x ← rust_expect (registrants o !! k)
            "attach client: a flush implies a registered registrant";
      Returns (match parked x, in_flight x with [], None => true | _, _ => false end)
  end.

(** The drop-oldest loop of [park]. *)
Fixpoint park_loop k (d : N) (q : list (FlushBatch Uuid)) (dr : N) (ds : list K)
    : list (FlushBatch Uuid) * N * list K :=
  match q with
  | [] => (q, dr, ds)
  | _ :: rest => if d <? len q then park_loop k d rest (u64_add dr 1) (ds ++ [k]) else (q, dr, ds)
  end.

(** [Outboxes::park]. *)
Definition park o k b (at_head : bool) : panics (Outboxes Uuid K * list K) :=
  x ← rust_expect (registrants o !! k)
        "attach client: parking a flush for an unregistered registrant";
  let q := if at_head then b :: parked x else parked x ++ [b] in
  let '(q', dr, ds) := park_loop k (depth x) q (dropped x) [] in
  Returns (with_registrants o (<[k := put_parked x q' dr]> (registrants o)), ds).

(** [Outboxes::batch_frame]. *)
Definition batch_frame o k b : panics (Outboxes Uuid K * ClientFrame Uuid) :=
  cap ← rust_expect (body_cap o) "attach client: composing a batch off an attachment";
  _ ← rust_assert (match check_batch_legality (batch_entries b) (batch_ops b) cap with
                   | Ok _ => true
                   | Err _ => false
                   end) "attach client: illegal PublishBatch";
  let c := next_correlation o in
  x ← rust_expect (registrants o !! k)
        "attach client: sending a flush for an unregistered registrant";
  _ ← rust_assert (match in_flight x with None => true | Some _ => false end)
        "attach client: registrant already has a flush on the wire";
  Returns
    (mkOutboxes (<[k := put_in_flight x (Some c)]> (registrants o))
       (<[c := mkPending k (generation x) b]> (pending o)) (u64_add c 1) (next_generation o)
       (body_cap o) (retry_armed o),
     PublishBatch (attribution x) c (batch_entries b) (batch_ops b)).

(** [Outboxes::pump]. *)
Definition pump o k : panics (Outboxes Uuid K * list (ClientFrame Uuid)) :=
  match body_cap o with
  | None => Returns (o, [])
  | Some _ =>
      x ← rust_expect (registrants o !! k) "attach client: pumping an unregistered registrant";
      match in_flight x, parked x with
      | Some _, _ => Returns (o, [])
      | None, [] => Returns (o, [])
      | None, b :: q =>
          let o1 := with_registrants o (<[k := put_parked x q (dropped x)]> (registrants o)) in
          '(o2, f) ← batch_frame o1 k b;
          Returns (o2, [f])
      end
  end.

(** [Outboxes::flush]. *)
Definition flush o k b (now : N) : panics (Outboxes Uuid K * steps) :=
  _ ← rust_assert (negb (batch_is_empty b))
        "attach client: a flush with neither entries nor ops is not a batch";
  _ ← rust_expect (registrants o !! k) "attach client: a flush implies a registered registrant";
  free ← wire_free_for o k;
  if (free : bool) then
    '(o1, f) ← batch_frame o k b;
    Returns (settle o1 now [f] [])
  else
    '(o1, ds) ← park o k b false;
    Returns (settle o1 now [] ds).

(** [Outboxes::refuse_flush]. *)
Definition refuse_flush o k (now : N) : panics (Outboxes Uuid K * steps) :=
  x ← rust_expect (registrants o !! k)
        "attach client: refusing a flush for an unregistered registrant";
  let x' := put_parked x (parked x) (u64_add (dropped x) 1) in
  Returns (settle (with_registrants o (<[k := x']> (registrants o))) now [] [k]).

(** One registrant of [on_attached]: re-validate its queue, then pump it. *)
Definition attach_one (survives : K → FlushBatch Uuid → bool)
    (acc : panics (Outboxes Uuid K * list (ClientFrame Uuid) * list K)) k :=
  '(o, fs, ds) ← acc;
  x ← rust_expect (registrants o !! k) "attach client: key from this map";
  let kept := filter (λ b, survives k b = true) (parked x) in
  let n := len (parked x) - len kept in
  let x' := put_parked x kept (N.iter n (λ d, u64_add d 1) (dropped x)) in
  let o1 := with_registrants o (<[k := x']> (registrants o)) in
  '(o2, fs') ← pump o1 k;
  Returns (o2, fs ++ fs', ds ++ replicate (N.to_nat n) k).

(** [Outboxes::on_attached]. *)
Definition on_attached o (cap : N) (now : N) (survives : K → FlushBatch Uuid → bool)
    : panics (Outboxes Uuid K * steps) :=
  let o := with_body_cap o (Some cap) in
  '(o1, fs, ds) ← foldl (attach_one survives) (Returns (o, [], [])) (keys o);
  Returns (settle o1 now fs ds).

(** [Outboxes::on_detached]. *)
Definition on_detached o : Outboxes Uuid K * steps :=
  let o1 := mkOutboxes ((λ x, put_in_flight x None) <$> registrants o) ∅ (next_correlation o)
              (next_generation o) None (retry_armed o) in
  let '(o2, t) := disarm_retry o1 in (o2, mkSteps [] [] t).

(** [Outboxes::on_batch_result]. *)
Definition on_batch_result o (c : N) (outcome : PublishBatchOutcome) (now : N)
    : panics (Outboxes Uuid K * result (BatchAnswer Uuid K) string) :=
  match pending o !! c with
  | None => Returns (o, Err "PublishBatchResult for unknown correlation")
  | Some pb =>
      let k := pending_key pb in
      let b := pending_batch pb in
      let o := with_pending o (delete c (pending o)) in
      let gone :=
        Returns (o, Ok (mkAnswer (mkSteps [] [] None) k
          (match outcome with BatchOk => None | BatchRateLimited => Some b end))) in
      match registrants o !! k with
      | None => gone
      | Some x =>
          if negb (generation x =? pending_generation pb) then gone
          else
            let x1 := put_in_flight x None in
            match outcome with
            | BatchOk =>
                '(o2, fs) ← pump (with_registrants o (<[k := x1]> (registrants o))) k;
                let '(o3, st) := settle o2 now fs [] in Returns (o3, Ok (mkAnswer st k None))
            | BatchRateLimited =>
                let x2 := mkOutbox (generation x1) (attribution x1) (depth x1) (parked x1) None
                            (dropped x1) (discarded x1) (u64_add (rate_limited x1) 1) in
                let o1 := with_registrants o (<[k := x2]> (registrants o)) in
                if discarded x2 then
                  let '(o3, st) := settle o1 now [] [] in Returns (o3, Ok (mkAnswer st k (Some b)))
                else
                  '(o2, ds) ← park o1 k b true;
                  let '(o3, st) := settle o2 now [] ds in Returns (o3, Ok (mkAnswer st k None))
            end
      end
  end.

(** One registrant of a sweep: [steps.frames.extend(self.pump(&key))]. *)
Definition pump_one (acc : panics (Outboxes Uuid K * list (ClientFrame Uuid))) k :=
  '(o, fs) ← acc;
  '(o', fs') ← pump o k;
  Returns (o', fs ++ fs').

(** [Outboxes::on_retry_tick]. *)
Definition on_retry_tick o (now : N) : panics (Outboxes Uuid K * steps) :=
  '(o1, fs) ← foldl pump_one (Returns (o, [])) (keys o);
  Returns (settle o1 now fs []).

(** [Outboxes::parked_len], [::dropped_count], [::rate_limited_count]. *)
Definition parked_len o k : N := match registrants o !! k with Some x => len (parked x) | None => 0 end.
Definition dropped_count o k : N := match registrants o !! k with Some x => dropped x | None => 0 end.
Definition rate_limited_count o k : N :=
  match registrants o !! k with Some x => rate_limited x | None => 0 end.
End outboxes.

(** ** The parked-set mirror *)

Section views.
Context {Uuid : Type}.

(** [DeferredViews]. *)
Definition DeferredViews : Type := gmap (string * option string) (list (DeferredViewEntry Uuid)).

(** [DeferredViews::on_view]. *)
Definition on_view (v : DeferredViews) (ch : string) (attr : option string)
    (es : list (DeferredViewEntry Uuid)) : DeferredViews := <[(ch, attr) := es]> v.

(** [DeferredViews::get]. *)
Definition view_get (v : DeferredViews) (ch : string) (attr : option string)
    : list (DeferredViewEntry Uuid) := default [] (v !! (ch, attr)).

(** [DeferredViews::clear]. *)
Definition view_clear (v : DeferredViews) : DeferredViews := ∅.
End views.
End Publish.

(** ** The outbox invariant *)
Module OutboxInv.
Import Envelope Proto Publish.

Section inv.
Context {Uuid K : Type} `{Countable K} (kle : relation K) `{!RelDecision kle}.
Implicit Types (o : Outboxes Uuid K) (b : FlushBatch Uuid) (k : K) (x : Outbox Uuid).

(** A flush the live attachment's law admits. *)
Definition legal_in (cap : option N) b : Prop :=
  match cap with
  | Some c => check_batch_legality (batch_entries b) (batch_ops b) c = Ok ()
  | None => True
  end.

(** What holds at every point of an operation: a registration's marker and the
    correlation table name each other, so at most one flush per registration is on the
    wire; queues are within their caps; what is outstanding is legal; off an attachment
    nothing is outstanding. [L] is the set of registrants whose queues have been
    validated against the live contract: all of them, except part-way through the
    re-validation sweep of [on_attached]. *)
Record inv (L : K → Prop) o : Prop := {
  inv_flight k x c : registrants o !! k = Some x → in_flight x = Some c →
    ∃ b, pending o !! c = Some (mkPending k (generation x) b);
  inv_pending c pb x : pending o !! c = Some pb → registrants o !! pending_key pb = Some x →
    generation x = pending_generation pb → in_flight x = Some c;
  inv_fresh c pb : pending o !! c = Some pb →
    c < next_correlation o ∧ pending_generation pb < next_generation o ∧
    legal_in (body_cap o) (pending_batch pb);
  inv_outbox k x : registrants o !! k = Some x →
    generation x < next_generation o ∧ 0 < depth x ∧ len (parked x) ≤ depth x ∧
    (L k → Forall (legal_in (body_cap o)) (parked x));
  inv_off : body_cap o = None → pending o = ∅;
}.
Definition everyone (k : K) : Prop := True.

(** Between operations a blocked queue always has the retry timer armed. *)
Record ok o : Prop := {
  ok_inv : inv everyone o;
  ok_armed : blocked o = true → retry_armed o = true;
}.

Definition blocked_at x : bool :=
  match in_flight x, parked x with None, _ :: _ => true | _, _ => false end.

Lemma blocked_spec o :
  blocked o = true ↔ is_Some (body_cap o) ∧ ∃ k x, registrants o !! k = Some x ∧ blocked_at x = true.
Proof.
  unfold blocked. destruct (body_cap o) as [cap|]; [|split; [done|by intros [[] _]]].
  rewrite existsb_exists. split.
  - intros ([k x]&Hin&Hb). split; [done|]. exists k, x. split; [|done].
    apply list_elem_of_In, elem_of_map_to_list in Hin. done.
  - intros (_&k&x&Hk&Hb). exists (k, x). split; [|done].
    by apply list_elem_of_In, elem_of_map_to_list.
Qed.

Lemma with_armed_inv L o a : inv L o → inv L (with_armed o a).
Proof. intros []. by split. Qed.

Lemma settle_ok o now fs ds :
  inv everyone o → ok (settle o now fs ds).1 ∧ frames (settle o now fs ds).2 = fs ∧
    steps_dropped (settle o now fs ds).2 = ds ∧
    registrants (settle o now fs ds).1 = registrants o ∧
    next_correlation (settle o now fs ds).1 = next_correlation o ∧
    body_cap (settle o now fs ds).1 = body_cap o ∧
    retry_armed (settle o now fs ds).1 = blocked o.
Proof.
  intros Hi. unfold settle, retry_wakeup.
  destruct (Bool.eqb (blocked o) (retry_armed o)) eqn:He; simpl.
  - apply eqb_prop in He. split_and!; try done. split; [done|congruence].
  - split_and!; try done. split; [by apply with_armed_inv|done].
Qed.

(** Replacing an outbox by one of the same registration with the same marker. *)
Lemma update_inv (L L' : K → Prop) o k x x' :
  inv L o → registrants o !! k = Some x → generation x' = generation x →
  in_flight x' = in_flight x → depth x' = depth x → len (parked x') ≤ depth x →
  (L' k → Forall (legal_in (body_cap o)) (parked x')) → (∀ j, j ≠ k → L' j → L j) →
  inv L' (with_registrants o (<[k := x']> (registrants o))).
Proof.
  intros [Hf Hp Hfr Ho Hoff] Hk Hg Hfl Hd Hlen Hleg HL. split; simpl; try done.
  - intros k' y c. destruct (decide (k = k')) as [<-|Hne].
    + rewrite lookup_insert_eq. intros [= <-] Hc. rewrite Hfl in Hc.
      destruct (Hf _ _ _ Hk Hc) as [b Hb]. exists b. by rewrite Hg.
    + rewrite lookup_insert_ne by done. apply Hf.
  - intros c pb y Hc. destruct (decide (k = pending_key pb)) as [->|Hne].
    + rewrite lookup_insert_eq. intros [= <-] Hge. rewrite Hfl. apply (Hp c pb x); [done|done|congruence].
    + rewrite lookup_insert_ne by done. by apply Hp.
  - intros k' y. destruct (decide (k = k')) as [<-|Hne].
    + rewrite lookup_insert_eq. intros [= <-]. destruct (Ho _ _ Hk) as (?&?&_).
      rewrite Hg, Hd. done.
    + rewrite lookup_insert_ne by done. intros (?&?&?&Hl)%Ho. split_and!; try done.
      intros ?. by apply Hl, HL.
Qed.

Lemma batch_frame_spec L o k x b cap :
  inv L o → body_cap o = Some cap → legal_in (Some cap) b → registrants o !! k = Some x →
  in_flight x = None → next_correlation o < u64_max →
  ∃ o', batch_frame o k b =
      Returns (o', PublishBatch (attribution x) (next_correlation o) (batch_entries b) (batch_ops b)) ∧
    inv L o' ∧ registrants o' = <[k := put_in_flight x (Some (next_correlation o))]> (registrants o) ∧
    pending o' = <[next_correlation o := mkPending k (generation x) b]> (pending o) ∧
    body_cap o' = body_cap o ∧ next_correlation o' = next_correlation o + 1 ∧
    next_generation o' = next_generation o.
Proof.
  intros [Hf Hp Hfr Ho Hoff] Hcap Hleg Hk Hnone Hmax. unfold batch_frame.
  rewrite Hcap in Hfr, Ho |- *. simpl. simpl in Hleg. rewrite Hleg. simpl. rewrite Hk. simpl. rewrite Hnone. simpl.
  eexists. split; [done|]. rewrite u64_add_small by lia.
  split; [|done]. split; simpl.
  - intros k' y c. destruct (decide (k = k')) as [<-|Hne].
    + rewrite lookup_insert_eq. intros [= <-] [= <-]. simpl. rewrite lookup_insert_eq. eauto.
    + rewrite lookup_insert_ne by done. intros Hy Hc. destruct (Hf _ _ _ Hy Hc) as [b' Hb'].
      exists b'. rewrite lookup_insert_ne; [done|]. pose proof (Hfr _ _ Hb') as [? _]. lia.
  - intros c pb y. destruct (decide (c = next_correlation o)) as [->|Hne].
    + rewrite lookup_insert_eq. intros [= <-]. simpl. rewrite lookup_insert_eq. by intros [= <-].
    + rewrite lookup_insert_ne by done. intros Hc. destruct (decide (k = pending_key pb)) as [->|Hk'].
      * rewrite lookup_insert_eq. intros [= <-] Hg. simpl in Hg.
        rewrite (Hp c pb x Hc Hk Hg) in Hnone. done.
      * rewrite lookup_insert_ne by done. by apply Hp.
  - intros c pb. destruct (decide (c = next_correlation o)) as [->|Hne].
    + rewrite lookup_insert_eq. intros [= <-]. simpl. destruct (Ho _ _ Hk). split_and!; [lia|done|done].
    + rewrite lookup_insert_ne by done. intros (?&?&Hl)%Hfr. split_and!; [lia|done|done].
  - intros k' y. destruct (decide (k = k')) as [<-|Hne].
    + rewrite lookup_insert_eq. intros [= <-]. simpl. exact (Ho _ _ Hk).
    + rewrite lookup_insert_ne by done. apply Ho.
  - done.
Qed.

(** ** Pumping *)

Definition batch_correlation (f : ClientFrame Uuid) : option N :=
  match f with PublishBatch _ c _ _ => Some c | _ => None end.

(** The frames composed between two states carry the consecutive correlations between
    their allocators. *)
Definition grows o o' (fs : list (ClientFrame Uuid)) : Prop :=
  batch_correlation <$> fs = Some <$> run (next_correlation o) (length fs) ∧
  next_correlation o' = next_correlation o + len fs.

Lemma grows_nil o o' : next_correlation o' = next_correlation o → grows o o' [].
Proof. intros Hn. split; [done|]. rewrite Hn, len_nil. lia. Qed.

Lemma grows_one o o' attr es ops :
  next_correlation o' = next_correlation o + 1 →
  grows o o' [PublishBatch attr (next_correlation o) es ops].
Proof. intros Hn. by split. Qed.

Lemma grows_app o o1 o2 fs1 fs2 : grows o o1 fs1 → grows o1 o2 fs2 → grows o o2 (fs1 ++ fs2).
Proof.
  intros [H1 E1] [H2 E2]. split.
  - rewrite fmap_app, H1, H2, length_app, run_app, fmap_app, E1. done.
  - rewrite E2, E1, len_app. lia.
Qed.

(** What pumping the registrants [ks] does to the plane. *)
Record swept (ks : list K) o o' (fs : list (ClientFrame Uuid)) : Prop := {
  swept_grows : grows o o' fs;
  swept_few : len fs ≤ len ks;
  swept_cap : body_cap o' = body_cap o;
  swept_keys j : is_Some (registrants o' !! j) ↔ is_Some (registrants o !! j);
  swept_free j x : is_Some (body_cap o) → j ∈ ks → registrants o' !! j = Some x → blocked_at x = false;
  swept_rest j : j ∉ ks → registrants o' !! j = registrants o !! j;
}.

Lemma swept_nil o : swept [] o o [].
Proof. split; try done; [by apply grows_nil|]. intros ? ? _ Hin. by apply not_elem_of_nil in Hin. Qed.

Lemma swept_cons k ks o o1 o2 fs1 fs2 :
  swept [k] o o1 fs1 → swept ks o1 o2 fs2 → k ∉ ks → swept (k :: ks) o o2 (fs1 ++ fs2).
Proof.
  intros [G1 F1 C1 K1 U1 R1] [G2 F2 C2 K2 U2 R2] Hk. split.
  - by eapply grows_app.
  - rewrite len_app, len_cons. rewrite len_cons, len_nil in F1. lia.
  - congruence.
  - intros j. by rewrite K2, K1.
  - intros j x Hc Hin Hx. destruct (decide (j ∈ ks)) as [Hj|Hj].
    + apply (U2 j); [by rewrite C1|done|done].
    + apply elem_of_cons in Hin as [->|?]; [|done]. apply (U1 k); [done|set_solver|].
      by rewrite <-R2.
  - intros j Hj. rewrite R2, R1; set_solver.
Qed.

(** An update of [k]'s outbox in front of its pump is part of the pump. *)
Lemma swept_pre k x x' o o' fs :
  registrants o !! k = Some x →
  swept [k] (with_registrants o (<[k := x']> (registrants o))) o' fs → swept [k] o o' fs.
Proof.
  intros Hk [G F C Ks U R]. split; try done.
  - intros j. rewrite Ks. simpl. rewrite lookup_insert_is_Some. destruct (decide (k = j)) as [<-|]; [|tauto].
    rewrite Hk. split; [eauto|by left].
  - intros j Hj. rewrite R by done. simpl. rewrite lookup_insert_ne; [done|set_solver].
Qed.

(** [pump] composes one frame exactly when the queue's head is free to go, and leaves the
    registrant unblocked. *)
Lemma pump_spec (L : K → Prop) o k :
  inv L o → L k → is_Some (registrants o !! k) → next_correlation o < u64_max →
  ∃ o' fs, pump o k = Returns (o', fs) ∧ inv L o' ∧ swept [k] o o' fs.
Proof.
  intros Hi HL [x Hx] Hmax. unfold pump. destruct (body_cap o) as [cap|] eqn:Hcap.
  2:{ exists o, []. split_and!; try done. split; try done; [by apply grows_nil|].
      rewrite Hcap. by intros ? ? []. }
  rewrite Hx. simpl.
  assert (Hstay : blocked_at x = false → swept [k] o o []).
  { intros Hb. split; try done; [by apply grows_nil|]. intros j y _ ->%list_elem_of_singleton. congruence. }
  unfold blocked_at in Hstay. destruct (in_flight x) as [c|] eqn:Hfl.
  { exists o, []. split_and!; auto. }
  destruct (parked x) as [|b q] eqn:Hq.
  { exists o, []. split_and!; auto. }
  destruct (inv_outbox _ _ Hi _ _ Hx) as (_&_&Hlen&Hleg). specialize (Hleg HL).
  rewrite Hq, len_cons in Hlen. rewrite Hq in Hleg. apply Forall_cons in Hleg as [Hb Hleg].
  set (x1 := put_parked x q (dropped x)).
  set (o1 := with_registrants o (<[k := x1]> (registrants o))).
  assert (Hi1 : inv L o1) by (apply (update_inv L L o k x); simpl; auto; lia).
  destruct (batch_frame_spec L o1 k x1 b cap) as (o2&->&Hi2&Hr2&_&Hc2&Hn2&_); simpl; auto.
  { by rewrite Hcap in Hb. }
  { by rewrite lookup_insert_eq. }
  exists o2, [PublishBatch (attribution x) (next_correlation o) (batch_entries b) (batch_ops b)].
  split_and!; try done. apply (swept_pre k x x1); [done|]. split; try done.
  - intros j. rewrite Hr2. simpl. rewrite insert_insert_eq, !lookup_insert_is_Some. tauto.
  - intros j y _ ->%list_elem_of_singleton. rewrite Hr2, lookup_insert_eq. by intros [= <-].
  - intros j Hj. rewrite Hr2, lookup_insert_ne; [done|set_solver].
Qed.

(** ** Sweeps *)

Lemma elem_of_keys o k : k ∈ keys kle o ↔ is_Some (registrants o !! k).
Proof.
  unfold keys. rewrite merge_sort_Permutation, list_elem_of_fmap. split.
  - intros ([j x]&->&Hin%elem_of_map_to_list). by exists x.
  - intros [x Hx]. exists (k, x). split; [done|]. by apply elem_of_map_to_list.
Qed.

Lemma NoDup_keys o : NoDup (keys kle o).
Proof. unfold keys. rewrite merge_sort_Permutation. apply NoDup_fst_map_to_list. Qed.

Lemma pump_sweep o fs0 ks :
  inv everyone o → NoDup ks → (∀ k, k ∈ ks → is_Some (registrants o !! k)) →
  next_correlation o + len ks ≤ u64_max →
  ∃ o' fs, foldl pump_one (Returns (o, fs0)) ks = Returns (o', fs0 ++ fs) ∧
    inv everyone o' ∧ swept ks o o' fs.
Proof.
  revert o fs0. induction ks as [|k ks IH]; intros o fs0 Hi Hnd Hin Hmax.
  { exists o, []. rewrite app_nil_r. split_and!; try done. apply swept_nil. }
  apply NoDup_cons in Hnd as [Hk Hnd]. rewrite len_cons in Hmax.
  destruct (pump_spec everyone o k) as (o1&fs1&Hp&Hi1&S1); [done|done|set_solver|lia|].
  destruct (IH o1 (fs0 ++ fs1)) as (o2&fs2&Hf&Hi2&S2); [done|done| | |].
  { intros j Hj. apply (swept_keys _ _ _ _ S1). set_solver. }
  { destruct S1 as [[_ ->] Hfew _ _ _ _]. rewrite len_cons, len_nil in Hfew. lia. }
  exists o2, (fs1 ++ fs2). cbn [foldl pump_one mbind panics_bind]. rewrite Hp. cbn.
  rewrite Hf, app_assoc. split_and!; try done. by eapply swept_cons.
Qed.

(** The re-validation sweep validates the registrants it has passed. *)
Lemma attach_sweep (L : K → Prop) (survives : K → FlushBatch Uuid → bool) cap o fs0 ds0 ks :
  inv L o → body_cap o = Some cap → NoDup ks →
  (∀ k, k ∈ ks → is_Some (registrants o !! k)) →
  (∀ k b, survives k b = true → legal_in (Some cap) b) →
  next_correlation o + len ks ≤ u64_max →
  ∃ o' fs ds, foldl (attach_one survives) (Returns (o, fs0, ds0)) ks = Returns (o', fs0 ++ fs, ds) ∧
    inv (λ j, L j ∨ j ∈ ks) o' ∧ swept ks o o' fs.
Proof.
  intros Hi Hcap Hnd Hin Hs Hmax. revert L o fs0 ds0 Hi Hcap Hnd Hin Hmax.
  induction ks as [|k ks IH]; intros L o fs0 ds0 Hi Hcap Hnd Hin Hmax.
  { exists o, [], ds0. rewrite app_nil_r. split_and!; [done| |apply swept_nil].
    destruct Hi as [? ? ? Ho ?]. split; try done. intros j x (?&?&?&Hl)%Ho. split_and!; try done.
    intros [?|[]%not_elem_of_nil]. by apply Hl. }
  apply NoDup_cons in Hnd as [Hk Hnd]. rewrite len_cons in Hmax.
  destruct (Hin k) as [x Hx]; [by left|].
  cbn [foldl attach_one mbind panics_bind]. rewrite Hx. cbn [rust_expect mbind panics_bind].
  set (kept := filter (λ b, survives k b = true) (parked x)).
  set (x1 := put_parked x kept _). set (o1 := with_registrants o _).
  destruct (inv_outbox _ _ Hi _ _ Hx) as (_&_&Hlen&_).
  assert (Hi1 : inv (λ j, L j ∨ j = k) o1).
  { apply (update_inv L _ o k x); simpl; auto.
    - etrans; [|exact Hlen]. unfold len, kept. pose proof (length_filter (λ b, survives k b = true) (parked x)). lia.
    - intros _. rewrite Hcap. apply Forall_forall. intros b [Hb _]%list_elem_of_filter. by apply (Hs k).
    - tauto. }
  destruct (pump_spec _ o1 k Hi1) as (o2&fs2&Hp&Hi2&S2); [by right| |simpl; lia|].
  { simpl. rewrite lookup_insert_eq. eauto. }
  apply (swept_pre k x) in S2; [|done].
  set (ds1 := ds0 ++ _).
  destruct (IH _ o2 (fs0 ++ fs2) ds1 Hi2) as (o3&fs3&ds3&Hf&Hi3&S3).
  { by rewrite (swept_cap _ _ _ _ S2). }
  { done. }
  { intros j Hj. apply (swept_keys _ _ _ _ S2). set_solver. }
  { destruct S2 as [[_ ->] Hfew _ _ _ _]. rewrite len_cons, len_nil in Hfew. lia. }
  exists o3, (fs2 ++ fs3), ds3. rewrite Hp. cbn. rewrite Hf, app_assoc. split_and!; [done| |by eapply swept_cons].
  destruct Hi3 as [? ? ? Ho ?]. split; try done. intros j y (?&?&?&Hl)%Ho. split_and!; try done.
  intros Hj. apply Hl. set_solver.
Qed.

(** ** Parking *)

(** The drop-oldest loop keeps the newest [d] flushes and counts every one it drops. *)
Lemma park_loop_spec k d (q : list (FlushBatch Uuid)) dr ds :
  let n := (length q - N.to_nat d)%nat in
  ∃ dr', park_loop k d q dr ds = (drop n q, dr', ds ++ replicate n k) ∧
    (dr + N.of_nat n ≤ u64_max → dr' = dr + N.of_nat n).
Proof.
  revert dr ds. induction q as [|b q IH]; intros dr ds; cbn [park_loop].
  { exists dr. simpl. rewrite app_nil_r. split; [done|lia]. }
  destruct (N.ltb_spec d (len (b :: q))) as [Hlt|Hge].
  - destruct (IH (u64_add dr 1) (ds ++ [k])) as (dr'&->&Hdr).
    assert (length (b :: q) - N.to_nat d = S (length q - N.to_nat d))%nat as ->
      by (unfold len in Hlt; simpl in *; lia).
    exists dr'. split; [by rewrite <-app_assoc|]. intros Hle. rewrite Hdr; rewrite u64_add_small; lia.
  - assert (length (b :: q) - N.to_nat d = 0)%nat as -> by (unfold len in Hge; simpl in *; lia).
    exists dr. rewrite app_nil_r. split; [done|lia].
Qed.

Definition queued x b (at_head : bool) : list (FlushBatch Uuid) :=
  if at_head then b :: parked x else parked x ++ [b].

Lemma park_spec o k x b at_head :
  inv everyone o → registrants o !! k = Some x → legal_in (body_cap o) b →
  let q := queued x b at_head in
  let n := (length q - N.to_nat (depth x))%nat in
  ∃ o' dr, park o k b at_head = Returns (o', replicate n k) ∧ inv everyone o' ∧
    registrants o' = <[k := put_parked x (drop n q) dr]> (registrants o) ∧
    (dropped x + N.of_nat n ≤ u64_max → dr = dropped x + N.of_nat n) ∧
    next_correlation o' = next_correlation o ∧ body_cap o' = body_cap o ∧ pending o' = pending o.
Proof.
  intros Hi Hx Hb q n. unfold park. rewrite Hx. cbn [rust_expect mbind panics_bind].
  fold (queued x b at_head). fold q.
  destruct (park_loop_spec k (depth x) q (dropped x) []) as (dr&->&Hdr). fold n in Hdr |- *.
  eexists _, dr. split; [reflexivity|]. split; [|done].
  destruct (inv_outbox _ _ Hi _ _ Hx) as (_&_&Hlen&Hleg). specialize (Hleg I).
  apply (update_inv everyone _ o k x); simpl; auto.
  - unfold len, n. rewrite length_drop. lia.
  - intros _. apply Forall_drop. unfold q, queued. destruct at_head; [|apply Forall_app; split]; auto.
Qed.

(** Dropping a registration leaves its outstanding flush unowned. *)
Lemma delete_inv o k : inv everyone o → inv everyone (with_registrants o (delete k (registrants o))).
Proof.
  intros [Hf Hp Hfr Ho Hoff]. split; simpl; try done.
  - intros j x c [_ Hj]%lookup_delete_Some. by apply Hf.
  - intros c pb x Hc [_ Hj]%lookup_delete_Some. by apply Hp.
  - intros j x [_ Hj]%lookup_delete_Some. by apply Ho.
Qed.

(** An answered registration is idle again. *)
Lemma answer_inv o c pb x :
  inv everyone o → pending o !! c = Some pb → registrants o !! pending_key pb = Some x →
  generation x = pending_generation pb →
  inv everyone (with_registrants (with_pending o (delete c (pending o)))
    (<[pending_key pb := put_in_flight x None]> (registrants o))).
Proof.
  intros [Hf Hp Hfr Ho Hoff] Hc Hx Hg. split; simpl.
  - intros j y c'. destruct (decide (pending_key pb = j)) as [<-|Hne].
    + rewrite lookup_insert_eq. by intros [= <-].
    + rewrite lookup_insert_ne by done. intros Hj Hfl. destruct (Hf _ _ _ Hj Hfl) as [b Hb].
      exists b. rewrite lookup_delete_ne; [done|]. intros ->. rewrite Hb in Hc; injection Hc as <-; done.
  - intros c' pb' y [Hne Hc']%lookup_delete_Some.
    destruct (decide (pending_key pb = pending_key pb')) as [He|Hk].
    + rewrite He, lookup_insert_eq. intros [= <-] Hg'. simpl in Hg'. rewrite He in Hx.
      pose proof (Hp c' pb' x Hc' Hx Hg') as H1. rewrite <-He in Hx.
      rewrite (Hp c pb x Hc Hx Hg) in H1. congruence.
    + rewrite lookup_insert_ne by done. by apply Hp.
  - intros c' pb' [_ Hc']%lookup_delete_Some. by apply Hfr in Hc'.
  - intros j y. destruct (decide (pending_key pb = j)) as [<-|Hne].
    + rewrite lookup_insert_eq. intros [= <-]. exact (Ho _ _ Hx).
    + rewrite lookup_insert_ne by done. apply Ho.
  - intros Ho'. rewrite (Hoff Ho') in Hc. done.
Qed.

(** An answer to a registration that is gone only clears the correlation. *)
Lemma gone_inv o c pb :
  inv everyone o → pending o !! c = Some pb →
  (∀ x, registrants o !! pending_key pb = Some x → generation x ≠ pending_generation pb) →
  inv everyone (with_pending o (delete c (pending o))).
Proof.
  intros [Hf Hp Hfr Ho Hoff] Hc Hgone. split; simpl; try done.
  - intros j y c' Hj Hfl. destruct (Hf _ _ _ Hj Hfl) as [b Hb]. exists b.
    rewrite lookup_delete_ne; [done|]. intros ->. rewrite Hb in Hc. injection Hc as <-. by apply (Hgone y).
  - intros c' pb' y [_ Hc']%lookup_delete_Some. by apply Hp.
  - intros c' pb' [_ Hc']%lookup_delete_Some. by apply Hfr in Hc'.
  - intros Ho'. rewrite (Hoff Ho') in Hc. done.
Qed.
End inv.
End OutboxInv.

(** ** Runs of the outbox plane *)
Module OutboxRun.
Import Envelope Proto Publish OutboxInv.

(** One call on the plane. *)
Inductive Event (Uuid K : Type) :=
| EvRegister (k : K) (attr : option string) (d : N)
| EvDeregister (k : K)
| EvDiscard (k : K) (now : N)
| EvFlush (k : K) (b : FlushBatch Uuid) (now : N)
| EvRefuse (k : K) (now : N)
| EvAttached (cap now : N) (survives : K → FlushBatch Uuid → bool)
| EvDetached
| EvResult (c : N) (outcome : PublishBatchOutcome) (now : N)
| EvTick (now : N).
Arguments EvRegister {Uuid K}.
Arguments EvDeregister {Uuid K}.
Arguments EvDiscard {Uuid K}.
Arguments EvFlush {Uuid K}.
Arguments EvRefuse {Uuid K}.
Arguments EvAttached {Uuid K}.
Arguments EvDetached {Uuid K}.
Arguments EvResult {Uuid K}.
Arguments EvTick {Uuid K}.

Section run.
Context {Uuid K : Type} `{Countable K} (kle : relation K) `{!RelDecision kle}.
Implicit Types (o : Outboxes Uuid K) (b : FlushBatch Uuid) (k : K) (x : Outbox Uuid).

(** The call, and the frames it put on the wire. *)
Definition step o (e : Event Uuid K) : panics (Outboxes Uuid K * list (ClientFrame Uuid)) :=
  match e with
  | EvRegister k attr d => o' ← register o k attr d; Returns (o', [])
  | EvDeregister k => '(o', _) ← deregister o k; Returns (o', [])
  | EvDiscard k now => '(o', _) ← discard_parked o k now; Returns (o', [])
  | EvFlush k b now => '(o', st) ← flush o k b now; Returns (o', frames st)
  | EvRefuse k now => '(o', st) ← refuse_flush o k now; Returns (o', frames st)
  | EvAttached cap now survives => '(o', st) ← on_attached kle o cap now survives; Returns (o', frames st)
  | EvDetached => let '(o', st) := on_detached o in Returns (o', frames st)
  | EvResult c outcome now =>
      '(o', r) ← on_batch_result o c outcome now;
      Returns (o', match r with Ok a => frames (answer_steps a) | Err _ => [] end)
  | EvTick now => '(o', st) ← on_retry_tick kle o now; Returns (o', frames st)
  end.

(** The caller's obligations: registrations are opened once and named only while open, a
    flush is non-empty and legal under the live contract, an attachment comes up only
    while none is and its re-check is at least the batch law, and the 64-bit allocators
    have room. An answer needs nothing of the peer. *)
Definition pre o (e : Event Uuid K) : Prop :=
  match e with
  | EvRegister k _ d => 0 < d ∧ registrants o !! k = None ∧ next_generation o < u64_max
  | EvDeregister k | EvDiscard k _ | EvRefuse k _ => is_Some (registrants o !! k)
  | EvFlush k b _ => is_Some (registrants o !! k) ∧ batch_is_empty b = false ∧
      legal_in (body_cap o) b ∧ next_correlation o < u64_max
  | EvAttached cap _ survives => body_cap o = None ∧
      (∀ k b, survives k b = true → legal_in (Some cap) b) ∧
      next_correlation o + len (keys kle o) ≤ u64_max
  | EvDetached => True
  | EvResult _ _ _ => next_correlation o < u64_max
  | EvTick _ => next_correlation o + len (keys kle o) ≤ u64_max
  end.

Fixpoint run_events o (es : list (Event Uuid K)) : panics (Outboxes Uuid K * list (ClientFrame Uuid)) :=
  match es with
  | [] => Returns (o, [])
  | e :: es =>
      '(o1, fs1) ← step o e;
      '(o2, fs2) ← run_events o1 es;
      Returns (o2, fs1 ++ fs2)
  end.

Fixpoint admissible o (es : list (Event Uuid K)) : Prop :=
  match es with
  | [] => True
  | e :: es => pre o e ∧ ∀ o1 fs1, step o e = Returns (o1, fs1) → admissible o1 es
  end.

(** What one call guarantees. *)
Definition good o (m : panics (Outboxes Uuid K * list (ClientFrame Uuid))) : Prop :=
  ∃ o' fs, m = Returns (o', fs) ∧ ok o' ∧ grows o o' fs.

Lemma good_settle o o1 now fs ds :
  inv everyone o1 → grows o o1 fs →
  good o (let '(o', st) := settle o1 now fs ds in Returns (o', frames st)).
Proof.
  intros Hi [Hg1 Hg2]. pose proof (settle_ok o1 now fs ds Hi) as (Hok&Hfs&_&_&Hn&_).
  destruct (settle o1 now fs ds) as [o' st]; simpl in *. exists o', (frames st). rewrite Hfs.
  split_and!; try done. split; [done|congruence].
Qed.

Lemma step_register o k attr d : ok o → pre o (EvRegister k attr d) → good o (step o (EvRegister k attr d)).
Proof.
  intros [[Hf Hp Hfr Ho Hoff] Harm] (Hd&Hk&Hg). simpl. unfold register.
  rewrite (proj2 (N.ltb_lt 0 d) Hd). simpl. rewrite bool_decide_true by done. simpl.
  rewrite u64_add_small by lia. eexists _, []. split; [done|]. split; [|by apply grows_nil].
  split; [split; simpl; try done|].
  - intros j y c. destruct (decide (k = j)) as [<-|Hne].
    + rewrite lookup_insert_eq. by intros [= <-].
    + rewrite lookup_insert_ne by done. apply Hf.
  - intros c pb y Hc. destruct (decide (k = pending_key pb)) as [->|Hne].
    + rewrite lookup_insert_eq. intros [= <-] Hge. simpl in Hge.
      apply Hfr in Hc as (_&?&_). lia.
    + rewrite lookup_insert_ne by done. by apply Hp.
  - intros c pb (?&?&?)%Hfr. split_and!; [done|lia|done].
  - intros j y. destruct (decide (k = j)) as [<-|Hne].
    + rewrite lookup_insert_eq. intros [= <-]. simpl. split_and!; [lia|done|unfold len; simpl; lia|by constructor].
    + rewrite lookup_insert_ne by done. intros (?&?&?&?)%Ho. split_and!; try done; lia.
  - rewrite blocked_spec. intros (Hc&j&y&Hj&Hb). simpl in *. apply Harm, blocked_spec. split; [done|].
    exists j, y. split; [|done]. apply lookup_insert_Some in Hj as [[_ <-]|[_ ?]]; done.
Qed.

Lemma step_deregister o k : ok o → pre o (EvDeregister k) → good o (step o (EvDeregister k)).
Proof.
  intros [Hi Harm] [x Hx]. simpl. unfold deregister. rewrite Hx. simpl.
  eexists _, []. split; [done|]. split; [|by apply grows_nil].
  split; [by apply delete_inv|]. rewrite blocked_spec. simpl. intros (Hc&j&y&[_ Hj]%lookup_delete_Some&Hb).
  apply Harm, blocked_spec. split; [done|]. by exists j, y.
Qed.

Lemma step_discard o k now : ok o → pre o (EvDiscard k now) → good o (step o (EvDiscard k now)).
Proof.
  intros [Hi Harm] [x Hx]. simpl. unfold discard_parked. rewrite Hx. simpl.
  set (o1 := with_registrants o _).
  destruct (good_settle o o1 now [] []) as (o'&fs&Hs&Hok).
  - apply (update_inv everyone _ o k x); simpl; auto; try done. rewrite len_nil. lia.
  - by apply grows_nil.
  - unfold settle in Hs. destruct (retry_wakeup o1 now) as [o2 t]. simpl in *.
    injection Hs as <- <-. by exists o2, [].
Qed.

Lemma step_refuse o k now : ok o → pre o (EvRefuse k now) → good o (step o (EvRefuse k now)).
Proof.
  intros [Hi Harm] [x Hx]. simpl. unfold refuse_flush. rewrite Hx. simpl.
  apply good_settle; [|by apply grows_nil].
  destruct (inv_outbox _ _ Hi _ _ Hx) as (?&?&?&Hl).
  apply (update_inv everyone _ o k x); simpl; auto.
Qed.

Lemma wire_free_spec o k x :
  registrants o !! k = Some x →
  wire_free_for o k = Returns (match body_cap o, parked x, in_flight x with
                               | Some _, [], None => true | _, _, _ => false end).
Proof. intros Hx. unfold wire_free_for. destruct (body_cap o); [|done]. rewrite Hx. done. Qed.

(** Both branches of [flush]: compose the frame, or queue behind what is there. *)
Lemma flush_cases o k b now x :
  ok o → pre o (EvFlush k b now) → registrants o !! k = Some x →
  let n := (length (parked x ++ [b]) - N.to_nat (depth x))%nat in
  ∃ o1 fs ds, flush o k b now = Returns (settle o1 now fs ds) ∧ inv everyone o1 ∧ grows o o1 fs ∧
    ((wire_free_for o k = Returns true ∧
      fs = [PublishBatch (attribution x) (next_correlation o) (batch_entries b) (batch_ops b)] ∧ ds = [] ∧
      registrants o1 = <[k := put_in_flight x (Some (next_correlation o))]> (registrants o)) ∨
     (wire_free_for o k = Returns false ∧ fs = [] ∧ ds = replicate n k ∧
      ∃ dr, registrants o1 = <[k := put_parked x (drop n (parked x ++ [b])) dr]> (registrants o) ∧
        (dropped x + N.of_nat n ≤ u64_max → dr = dropped x + N.of_nat n))).
Proof.
  intros [Hi _] (_&Hne&Hleg&Hmax) Hx n. unfold flush. rewrite Hne. cbn [negb rust_assert mbind panics_bind].
  rewrite Hx. cbn [rust_expect mbind panics_bind].
  rewrite (wire_free_spec o k x Hx). cbn [mbind panics_bind].
  destruct (body_cap o) as [cap|] eqn:Hcap; [destruct (parked x) as [|? ?] eqn:Hq;
    [destruct (in_flight x) as [c|] eqn:Hfl|]|]; cycle 1.
  { destruct (batch_frame_spec everyone o k x b cap) as (o2&->&Hi2&Hr2&_&_&Hn2&_); auto.
    eexists o2, _, []. split; [done|]. split_and!; [done|by apply grows_one|]. left. done. }
  all: destruct (park_spec o k x b false Hi Hx) as (o2&dr&->&Hi2&Hr2&Hdr&Hn2&_); [by rewrite Hcap|].
  all: unfold queued in *; rewrite ?Hq in *.
  all: eexists o2, [], _; split; [reflexivity|]; split_and!; [done|by apply grows_nil|]; right.
  all: split_and!; try done; by exists dr.
Qed.

Lemma step_flush o k b now : ok o → pre o (EvFlush k b now) → good o (step o (EvFlush k b now)).
Proof.
  intros Hok Hpre. pose proof Hpre as [[x Hx] _]. simpl.
  destruct (flush_cases o k b now x Hok Hpre Hx) as (o1&fs&ds&->&Hi&Hg&_).
  by apply good_settle.
Qed.

Lemma with_cap_inv o cap : inv everyone o → body_cap o = None → inv (λ _, False) (with_body_cap o (Some cap)).
Proof.
  intros [Hf Hp Hfr Ho Hoff] Hnone. pose proof (Hoff Hnone) as Hp0. split; simpl; try done.
  - intros c pb. by rewrite Hp0, lookup_empty.
  - intros j x (?&?&?&_)%Ho. done.
Qed.

(** The whole sweep of [on_attached], and of [on_retry_tick]. *)
Lemma attached_sweep o cap now survives :
  ok o → pre o (EvAttached cap now survives) →
  ∃ o1 fs ds, on_attached kle o cap now survives = Returns (settle o1 now fs ds) ∧
    inv everyone o1 ∧ swept (keys kle o) (with_body_cap o (Some cap)) o1 fs.
Proof.
  intros [Hi _] (Hnone&Hs&Hmax). unfold on_attached. set (o0 := with_body_cap o (Some cap)).
  destruct (attach_sweep _ survives cap o0 [] [] (keys kle o0) (with_cap_inv o cap Hi Hnone))
    as (o1&fs&ds&->&Hi1&Hsw); try done.
  - apply NoDup_keys.
  - intros k. apply elem_of_keys.
  - exists o1, fs, ds. split_and!; try done. destruct Hi1 as [? ? ? Ho ?]. split; try done.
    intros k x Hk. destruct (Ho _ _ Hk) as (?&?&?&Hl). split_and!; try done. intros _. apply Hl.
    right. apply elem_of_keys, (swept_keys _ _ _ _ Hsw). by exists x.
Qed.

Lemma tick_sweep o now :
  ok o → pre o (EvTick now) →
  ∃ o1 fs, on_retry_tick kle o now = Returns (settle o1 now fs []) ∧
    inv everyone o1 ∧ swept (keys kle o) o o1 fs.
Proof.
  intros [Hi _] Hmax. unfold on_retry_tick.
  destruct (pump_sweep o [] (keys kle o) Hi) as (o1&fs&->&Hi1&Hsw); try done.
  - apply NoDup_keys.
  - intros k. apply elem_of_keys.
  - by exists o1, fs.
Qed.

Lemma swept_unblocked o o1 fs : swept (keys kle o) o o1 fs → blocked o1 = false.
Proof.
  intros Hsw. apply not_true_iff_false. rewrite blocked_spec. intros (Hc&k&x&Hk&Hb).
  rewrite (swept_free _ _ _ _ Hsw k x) in Hb; [done| | |done].
  - by rewrite <-(swept_cap _ _ _ _ Hsw).
  - apply elem_of_keys, (swept_keys _ _ _ _ Hsw). by exists x.
Qed.

Lemma detached_inv o : inv everyone o → ok (on_detached o).1 ∧ grows o (on_detached o).1 [] ∧
  frames (on_detached o).2 = [].
Proof.
  intros [Hf Hp Hfr Ho Hoff]. unfold on_detached, disarm_retry.
  assert (Hi : ∀ a, inv everyone (mkOutboxes ((λ x, put_in_flight x None) <$> registrants o) ∅
    (next_correlation o) (next_generation o) None a)).
  { intros a. split; simpl; try done.
    - intros k x c. rewrite lookup_fmap_Some. intros (y&<-&_). done.
    - intros k x. rewrite lookup_fmap_Some. intros (y&<-&(?&?&?&_)%Ho). split_and!; try done.
      intros _. by apply Forall_true. }
  destruct (retry_armed o); simpl; (split_and!; [|by apply grows_nil|done]); (split; [apply Hi|done]).
Qed.

Lemma step_result o c outcome now :
  ok o → pre o (EvResult c outcome now) → good o (step o (EvResult c outcome now)).
Proof.
  intros [Hi Harm] Hmax. simpl in Hmax. simpl. unfold on_batch_result.
  destruct (pending o !! c) as [pb|] eqn:Hc; cycle 1.
  { exists o, []. split_and!; [done|by split|by apply grows_nil]. }
  assert (Hgone : (∀ x, registrants o !! pending_key pb = Some x → generation x ≠ pending_generation pb) →
    ok (with_pending o (delete c (pending o)))).
  { intros Hg. split; [by eapply gone_inv|exact Harm]. }
  cbn [registrants with_pending].
  destruct (registrants o !! pending_key pb) as [x|] eqn:Hx; cycle 1.
  { eexists _, []. split_and!; [done|by apply Hgone|by apply grows_nil]. }
  destruct (N.eqb_spec (generation x) (pending_generation pb)) as [Hg|Hg]; cbn [negb]; cycle 1.
  { eexists _, []. split_and!; [done|apply Hgone; intros ? [= <-]; done|by apply grows_nil]. }
  pose proof (answer_inv o c pb x Hi Hc Hx Hg) as Hi1.
  destruct (inv_fresh _ _ Hi _ _ Hc) as (_&_&Hleg).
  destruct outcome.
  - set (o1 := with_registrants _ _) in Hi1 |- *.
    destruct (pump_spec everyone o1 (pending_key pb) Hi1) as (o2&fs&->&Hi2&[Hgr _ _ _ _ _]); [done| |done|].
    { simpl. rewrite lookup_insert_eq. eauto. }
    cbn [mbind panics_bind].
    pose proof (good_settle o o2 now fs [] Hi2 Hgr) as (o3&fs3&Hs&Hok).
    destruct (settle o2 now fs []) as [? ?]. by exists o3, fs3.
  - set (o1 := with_registrants _ _). set (x1 := put_in_flight x None) in *.
    set (x2 := mkOutbox _ _ _ _ _ _ _ _).
    assert (Hi2 : inv everyone o1).
    { pose proof (update_inv everyone everyone _ (pending_key pb) x1 x2 Hi1) as Hu. simpl in Hu.
      rewrite insert_insert_eq, lookup_insert_eq in Hu.
      destruct (inv_outbox _ _ Hi _ _ Hx) as (?&?&?&?). apply Hu; auto. }
    destruct (discarded x2).
    + pose proof (good_settle o o1 now [] [] Hi2 (grows_nil _ _ eq_refl)) as (o3&fs3&Hs&Hok).
      destruct (settle o1 now [] []) as [? ?]. by exists o3, fs3.
    + destruct (park_spec o1 (pending_key pb) x2 (pending_batch pb) true Hi2) as (o2&dr&->&Hi3&_&_&Hn&_).
      { simpl. by rewrite lookup_insert_eq. }
      { done. }
      cbn [mbind panics_bind]. set (ds := replicate _ _).
      pose proof (good_settle o o2 now [] ds Hi3 (grows_nil _ _ Hn)) as (o3&fs3&Hs&Hok).
      destruct (settle o2 now [] ds) as [? ?]. by exists o3, fs3.
Qed.

Lemma step_good o e : ok o → pre o e → good o (step o e).
Proof.
  intros Hok Hpre. destruct e.
  - by apply step_register.
  - by apply step_deregister.
  - by apply step_discard.
  - by apply step_flush.
  - by apply step_refuse.
  - destruct (attached_sweep _ _ _ _ Hok Hpre) as (o1&fs&ds&Hs&Hi&[Hg _ _ _ _ _]). simpl. rewrite Hs.
    by apply good_settle.
  - destruct (detached_inv o (ok_inv _ Hok)) as (?&?&?). simpl.
    destruct (on_detached o) as [o' st]. simpl in *. exists o', (frames st). split_and!; try done. congruence.
  - by apply step_result.
  - destruct (tick_sweep _ _ Hok Hpre) as (o1&fs&Hs&Hi&[Hg _ _ _ _ _]). simpl. rewrite Hs.
    by apply good_settle.
Qed.

Lemma new_ok : ok (outboxes_new : Outboxes Uuid K).
Proof. split; [split|]; simpl; try done; intros *; by rewrite lookup_empty. Qed.

Lemma run_good o es : ok o → admissible o es → good o (run_events o es).
Proof.
  revert o. induction es as [|e es IH]; intros o Hok Had.
  { exists o, []. split_and!; [done|done|by apply grows_nil]. }
  destruct Had as [Hpre Hrest].
  destruct (step_good o e Hok Hpre) as (o1&fs1&Hs&Hok1&Hg1).
  destruct (IH o1 Hok1 (Hrest _ _ Hs)) as (o2&fs2&Hr&Hok2&Hg2).
  exists o2, (fs1 ++ fs2). cbn [run_events]. rewrite Hs. cbn. rewrite Hr. cbn.
  split_and!; [done|done|by eapply grows_app].
Qed.
End run.
End OutboxRun.

Module PublishProps.
Import Envelope Proto Publish OutboxInv OutboxRun.

Section props.
Context {Uuid K : Type} `{Countable K} (kle : relation K) `{!RelDecision kle}.
Implicit Types (o : Outboxes Uuid K) (b : FlushBatch Uuid) (k : K) (x : Outbox Uuid).

(** C4: no run of outbox calls whose caller meets its obligations ever unwinds, whatever
    the peer answers: it leaves at most one flush per registration on the wire, every
    queue within its cap and legal under the live contract, and the retry timer armed
    whenever a queue is blocked, and the batches it put on the wire carry the
    correlations 0, 1, 2, ... with none reused, across every reconnect. *)
Theorem outbox_plane_never_unwinds (es : list (Event Uuid K)) :
  admissible kle outboxes_new es →
  ∃ o fs, run_events kle outboxes_new es = Returns (o, fs) ∧ ok o ∧
    batch_correlation <$> fs = Some <$> run 0 (length fs).
Proof.
  intros Had. destruct (run_good kle outboxes_new es new_ok Had) as (o&fs&Hr&Hok&[Hg _]).
  by exists o, fs.
Qed.

(** a flush either goes out at once as the registration's only outstanding batch,
    which needs an attachment, an idle wire and an empty queue, or joins the back of its
    queue; a queue over its cap then loses its oldest flushes and nothing else, each
    counted and named to the caller, and no other registrant is touched. *)
Theorem flush_sends_or_drops_oldest o k b now x :
  ok o → pre kle o (EvFlush k b now) → registrants o !! k = Some x →
  dropped x + len (parked x) < u64_max →
  let n := (length (parked x ++ [b]) - N.to_nat (depth x))%nat in
  let free := match body_cap o, parked x, in_flight x with Some _, [], None => true | _, _, _ => false end in
  ∃ o' st, flush o k b now = Returns (o', st) ∧
    frames st = (if free then
      [PublishBatch (attribution x) (next_correlation o) (batch_entries b) (batch_ops b)] else []) ∧
    steps_dropped st = (if free then [] else replicate n k) ∧
    registrants o' = <[k := if free then put_in_flight x (Some (next_correlation o))
      else put_parked x (drop n (parked x ++ [b])) (dropped x + N.of_nat n)]> (registrants o).
Proof.
  intros Hok Hpre Hx Hmax n free.
  destruct (flush_cases kle o k b now x Hok Hpre Hx) as (o1&fs&ds&->&Hi&_&Hc).
  rewrite (wire_free_spec o k x Hx) in Hc. fold free in Hc.
  pose proof (settle_ok o1 now fs ds Hi) as (_&Hfs&Hds&Hr&_).
  destruct (settle o1 now fs ds) as [o' st]. exists o', st. simpl in Hfs, Hds, Hr.
  split; [done|]. rewrite Hfs, Hds, Hr.
  destruct Hc as [([= ->]&->&->&->)|([= ->]&->&->&dr&->&Hdr)]; [done|].
  rewrite Hdr; [done|]. rewrite length_app. unfold len in Hmax. simpl. lia.
Qed.

(** a retry tick leaves no queue waiting on it: every head that could go out has, one
    per registrant at most, so nothing is blocked and the timer is off. *)
Theorem retry_tick_leaves_nothing_blocked o now :
  ok o → pre kle o (EvTick now) →
  ∃ o' st, on_retry_tick kle o now = Returns (o', st) ∧ ok o' ∧ blocked o' = false ∧
    retry_armed o' = false ∧ len (frames st) ≤ len (keys kle o) ∧ steps_dropped st = [].
Proof.
  intros Hok Hpre. destruct (tick_sweep kle o now Hok Hpre) as (o1&fs&->&Hi&Hsw).
  pose proof (settle_ok o1 now fs [] Hi) as (Hok'&Hfs&Hds&Hr&_&Hcap&Harm).
  pose proof (swept_unblocked kle o o1 fs Hsw) as Hb.
  destruct (settle o1 now fs []) as [o' st]. exists o', st. simpl in *. rewrite Hfs, Hds.
  split_and!; try done; [|congruence|apply Hsw].
  revert Hb. unfold blocked. by rewrite Hr, Hcap.
Qed.
End props.

(** ** Witnesses *)

Definition ex_batch (body : string) : FlushBatch N := mkBatch [mkEntry "brenn:a" body Normal None] [].
Definition ex_survives (k : N) (b : FlushBatch N) : bool :=
  match check_batch_legality (batch_entries b) (batch_ops b) 64 with Ok _ => true | Err _ => false end.
(** Queue three flushes off the wire behind a cap of two, attach, and be told to slow down. *)
Definition ex_events : list (Event N N) :=
  [EvRegister 7 (Some "app") 2; EvFlush 7 (ex_batch "one") 10; EvFlush 7 (ex_batch "two") 11;
   EvFlush 7 (ex_batch "three") 12; EvAttached 64 20 ex_survives; EvResult 0 BatchRateLimited 30;
   EvTick 1030; EvResult 1 BatchOk 1040; EvDetached].
Definition ex_prefix (n : nat) : Outboxes N N :=
  match run_events N.le outboxes_new (take n ex_events) with Returns (o, _) => o | Panics _ => outboxes_new end.

Lemma ex_survives_legal k b : ex_survives k b = true → legal_in (Some 64) b.
Proof. unfold ex_survives, legal_in. destruct (check_batch_legality _ _ _) as [[]|]; done. Qed.

Lemma ex_admissible : admissible N.le outboxes_new ex_events.
Proof.
  unfold ex_events; repeat (split; [|intros ? ? Hs; vm_compute in Hs; injection Hs as <- <-]).
  all: try exact I.
  all: cbn [pre]; split_and?; try exact ex_survives_legal; try exact I; try (vm_compute; reflexivity).
  all: try (vm_compute; discriminate).
  all: try (vm_compute; eexists; reflexivity).
Qed.

Lemma outbox_plane_never_unwinds_witness :
  ∃ o fs, run_events N.le outboxes_new ex_events = Returns (o, fs) ∧ ok o ∧
    batch_correlation <$> fs = Some <$> run 0 (length fs).
Proof. apply outbox_plane_never_unwinds. exact ex_admissible. Defined.

Lemma admissible_take n (o : Outboxes N N) es : admissible N.le o es → admissible N.le o (take n es).
Proof.
  revert n o. induction es as [|e es IH]; intros [|n] o; try done.
  intros [Hp Hr]. split; [done|]. intros o1 fs1 Hs. apply IH. by eapply Hr.
Qed.

Lemma ex_prefix_ok n : ok (ex_prefix n).
Proof.
  unfold ex_prefix.
  destruct (run_good N.le outboxes_new (take n ex_events) new_ok
    (admissible_take n _ _ ex_admissible)) as (o&fs&->&Hok&_).
  exact Hok.
Qed.

(** The third flush overruns the cap of two: the first is dropped. *)
Lemma flush_sends_or_drops_oldest_witness :
  ∃ o' st, flush (ex_prefix 3) 7 (ex_batch "three") 12 = Returns (o', st) ∧ steps_dropped st = [7].
Proof.
  destruct (flush_sends_or_drops_oldest N.le (ex_prefix 3) 7 (ex_batch "three") 12
    (mkOutbox 0 (Some "app") 2 [ex_batch "one"; ex_batch "two"] None 0 false 0)
    (ex_prefix_ok 3)) as (o'&st&Hf&_&Hd&_).
  - split_and!; try (vm_compute; reflexivity); vm_compute; first [exact I|eexists; reflexivity].
  - vm_compute. reflexivity.
  - vm_compute. reflexivity.
  - exists o', st. split; [exact Hf|]. rewrite Hd. reflexivity.
Defined.

(** After the rate-limited answer the queue is blocked and the timer armed. *)
Lemma retry_tick_leaves_nothing_blocked_witness :
  blocked (ex_prefix 6) = true ∧ retry_armed (ex_prefix 6) = true ∧
  ∃ o' st, on_retry_tick N.le (ex_prefix 6) 1030 = Returns (o', st) ∧ blocked o' = false.
Proof.
  split; [vm_compute; reflexivity|]. split; [vm_compute; reflexivity|].
  destruct (retry_tick_leaves_nothing_blocked N.le (ex_prefix 6) 1030 (ex_prefix_ok 6))
    as (o'&st&Ht&_&Hb&_).
  - vm_compute. discriminate.
  - exists o', st. split; [exact Ht|exact Hb].
Defined.
End PublishProps.
