(* ===== verification/Router.v ===== *)
(** * The confined router ([attach/client/src/router.rs], [transport/clock.rs])

    The attacher's own pub/sub for channels that never cross the wire: it mints, guards,
    retains, parks, releases and edits. The embedder's rules are the class [PlanePolicy];
    the theorems hold of every instance. *)

From S2P Require Import Prelude Envelope Ring Cursor Deferred RingCore Proto Subs AttachStore.

#[local] Open Scope string_scope.
#[local] Open Scope N_scope.
#[local] Open Scope list_scope.

Module Router.
Import Envelope Proto Cursor Core Store.

(** ** [transport/clock.rs] *)

(** [checked_epoch_ms]. *)
Definition checked_epoch_ms {DateTime} `{Chrono DateTime} (ts : DateTime) : result N string :=
  if (0 <=? timestamp_millis ts)%Z then Ok (Z.to_N (timestamp_millis ts))
  else Err "the clock reads before the Unix epoch".

(** [epoch_ms]. *)
Definition epoch_ms {DateTime} `{Chrono DateTime} (ts : DateTime) : panics N :=
  match checked_epoch_ms ts with
  | Ok ms => Returns ms
  | Err detail => Panics detail
  end.

(** ** Data *)

(** [MessageStamp]. *)
Record MessageStamp (Uuid DateTime : Type) := mkStamp {
  stamp_message_id : Uuid;
  stamp_publish_ts : DateTime;
}.
Arguments mkStamp {Uuid DateTime}.
Arguments stamp_message_id {Uuid DateTime}.
Arguments stamp_publish_ts {Uuid DateTime}.

Inductive Origin := Attacher | Sub (sub : string).

Inductive GuardedBody := Carry (body : string) | GuardRefused (reason : string).

(** [PlanePolicy]: the three questions, over the policy's own state. A policy may unwind
    where it judges a body and where it records a message. *)
Class PlanePolicy (P Uuid DateTime : Type) := {
  admits : P → string → Origin → bool;
  guard : P → string → Origin → string → panics GuardedBody;
  observe : P → MessageEnvelope Uuid DateTime → panics P;
}.

(** [RouteRequest]. *)
Record RouteRequest (Uuid DateTime : Type) := mkRoute {
  route_channel : string;
  route_origin : Origin;
  route_body : string;
  route_stamp : MessageStamp Uuid DateTime;
  route_urgency : Urgency;
  route_deliver_after : option N;
}.
Arguments mkRoute {Uuid DateTime}.
Arguments route_channel {Uuid DateTime}.
Arguments route_origin {Uuid DateTime}.
Arguments route_body {Uuid DateTime}.
Arguments route_stamp {Uuid DateTime}.
Arguments route_urgency {Uuid DateTime}.
Arguments route_deliver_after {Uuid DateTime}.

(** [RouteOutcome<K>]. *)
Inductive RouteOutcome (K : Type) :=
| Routed (overflow : list (CursorOverflow K))
| Parked (release_at : N)
| ScheduleDropped (cap : N)
| RouteRefused (reason : string)
| NoIdentity.
Arguments Routed {K}.
Arguments Parked {K}.
Arguments ScheduleDropped {K}.
Arguments RouteRefused {K}.
Arguments NoIdentity {K}.

(** [ReleasedChannel<K>]. *)
Record ReleasedChannel (Uuid DateTime K : Type) := mkReleased {
  released_channel : string;
  released_envelopes : list (MessageEnvelope Uuid DateTime);
  released_overflow : list (CursorOverflow K);
}.
Arguments mkReleased {Uuid DateTime K}.
Arguments released_channel {Uuid DateTime K}.
Arguments released_envelopes {Uuid DateTime K}.
Arguments released_overflow {Uuid DateTime K}.

Inductive ReleaseTimer := ArmRelease (at_ms : N) | DisarmRelease.

(** [DeferOpRequest]. *)
Record DeferOpRequest (Uuid : Type) := mkOpRequest {
  op_channel : string;
  op_origin : Origin;
  op_message_id : Uuid;
  op_op : DeferOp;
  op_now : N;
}.
Arguments mkOpRequest {Uuid}.
Arguments op_channel {Uuid}.
Arguments op_origin {Uuid}.
Arguments op_message_id {Uuid}.
Arguments op_op {Uuid}.
Arguments op_now {Uuid}.

(** [DeferOpAnswer]. *)
Inductive DeferOpAnswer :=
| AnswerApplied
| AnswerNotParked (deliver_after : option N)
| AnswerRefused (reason : string).

(** [LocalRouter<P>]. *)
Record LocalRouter (P : Type) := mkRouter {
  policy : P;
  principal : option string;
  release_armed : option N;
}.
Arguments mkRouter {P}.
Arguments policy {P}.
Arguments principal {P}.
Arguments release_armed {P}.

(** [LocalRouter::sender]. *)
Definition sender (principal : string) (o : Origin) : string :=
  match o with
  | Attacher => principal
  | Sub sub => surface_sub_identity principal sub
  end.

Section router.
Context {P Uuid DateTime K : Type} `{EqDecision Uuid, Countable K, Chrono DateTime}.
Context `{!PlanePolicy P Uuid DateTime}.
Implicit Types (r : LocalRouter P) (ss : ChannelStores Uuid DateTime K).

(** [LocalRouter::new]. *)
Definition router_new (p : P) : LocalRouter P := mkRouter p None None.

(** [LocalRouter::set_principal]. *)
Definition set_principal r (p : string) : panics (LocalRouter P) :=
  _ ← rust_assert (negb (bool_decide (p = "")))
        "attach client: the confined router was given an empty principal";
  Returns (mkRouter (policy r) (Some p) (release_armed r)).

Definition with_policy r (p : P) : LocalRouter P := mkRouter p (principal r) (release_armed r).

(** [store_for], [store_ref] and [unhosted]. *)
Definition store_for ss (c : string) : panics (ChannelStore Uuid DateTime K) :=
  rust_expect (stores ss !! c) "attach client: no store hosts the confined channel".

(** Writing back through the borrow [store_for] answers. *)
Definition put_store ss (c : string) (st : ChannelStore Uuid DateTime K) : ChannelStores Uuid DateTime K :=
  with_stores ss (<[c := st]> (stores ss)).

(** The envelope [route] mints. *)
Definition mint (p : string) (req : RouteRequest Uuid DateTime) (b : string) : MessageEnvelope Uuid DateTime :=
  mkEnvelope (stamp_message_id (route_stamp req)) p (route_channel req) (sender p (route_origin req))
    (stamp_publish_ts (route_stamp req)) b None None None None (route_urgency req) Local.

(** [deliver_after.filter(|at| *at > epoch_ms(stamp.publish_ts))]. *)
Definition still_ahead (req : RouteRequest Uuid DateTime) : panics (option N) :=
  match route_deliver_after req with
  | None => Returns None
  | Some t =>
      ms ← epoch_ms (stamp_publish_ts (route_stamp req));
      Returns (if ms <? t then Some t else None)
  end.

(** [LocalRouter::route]. *)
Definition route r ss (req : RouteRequest Uuid DateTime)
    : panics (LocalRouter P * ChannelStores Uuid DateTime K * RouteOutcome K) :=
  let c := route_channel req in
  _ ← rust_assert (is_local_channel c)
        "attach client: the confined router was handed a channel which is not confined";
  _ ← rust_assert (admits (policy r) c (route_origin req))
        "attach client: the origin does not publish on this channel";
  match principal r with
  | None => Returns (r, ss, NoIdentity)
  | Some p =>
      judged ← guard (policy r) c (route_origin req) (route_body req);
      match judged with
      | GuardRefused reason => Returns (r, ss, RouteRefused reason)
      | Carry b =>
          let env := mint p req b in
          ahead ← still_ahead req;
          match (ahead : option N) with
          | Some t =>
              st ← store_for ss c;
              let '(st', res) := store_park st (env_sender env) env t in
              Returns (r, put_store ss c st',
                match res with
                | Ok _ => Parked t
                | Err q => ScheduleDropped (Deferred.quota_cap q)
                end)
          | None =>
              observed ← observe (policy r) env;
              st ← store_for ss c;
              '(st', over) ← append_minted st env;
              Returns (with_policy r observed, put_store ss c st', Routed over)
          end
      end
  end.

(** [LocalRouter::release_wakeup]. *)
Definition release_wakeup r ss : LocalRouter P * option ReleaseTimer :=
  let next := stores_next_release ss in
  if decide (next = release_armed r) then (r, None)
  else (mkRouter (policy r) (principal r) next,
        Some (match next with Some t => ArmRelease t | None => DisarmRelease end)).

(** [for envelope in &released { self.policy.observe(envelope) }]. *)
Definition observe_all (p : P) (envs : list (MessageEnvelope Uuid DateTime)) : panics P :=
  foldl (λ acc env, p ← acc; observe p env) (Returns p) envs.

(** [LocalRouter::release_due]. *)
Definition router_release_due r ss (now : N)
    : panics (LocalRouter P * ChannelStores Uuid DateTime K * list (ReleasedChannel Uuid DateTime K)) :=
  let '(ss', out) := stores_release_due ss now in
  let all := (λ x, mkReleased x.1 (Ring.message <$> released x.2) (release_overflow x.2)) <$> out in
  p ← foldl (λ acc x, p ← acc; observe_all p (released_envelopes x)) (Returns (policy r)) all;
  Returns (with_policy r p, ss', all).

(** [LocalRouter::parked_for]. *)
Definition parked_for r ss (c : string) (o : Origin) : panics (list (DeferredViewEntry Uuid)) :=
  _ ← rust_assert (is_local_channel c)
        "attach client: the confined router was asked for a schedule which is not confined";
  match principal r with
  | None => Returns []
  | Some p =>
      st ← store_for ss c;
      Returns ((λ e, mkViewEntry (message_id (Deferred.payload e)) (body (Deferred.payload e))
                       (Deferred.release_at e))
               <$> store_deferred_for_sender st (sender p o))
  end.

(** The guard of [apply_op]: an edit's replacement body is guarded as a publish's is. *)
Definition guard_op r (c : string) (o : Origin) (op : DeferOp) : panics (result DeferOp string) :=
  match op with
  | OpEdit (Some b) t =>
      judged ← guard (policy r) c o b;
      Returns (match judged with
               | Carry b' => Ok (OpEdit (Some b') t)
               | GuardRefused reason => Err reason
               end)
  | op => Returns (Ok op)
  end.

(** [LocalRouter::apply_op]. *)
Definition apply_op r ss (req : DeferOpRequest Uuid)
    : panics (ChannelStores Uuid DateTime K * DeferOpAnswer) :=
  let c := op_channel req in
  _ ← rust_assert (is_local_channel c)
        "attach client: the confined router was handed an op on a channel which is not confined";
  _ ← rust_assert (admits (policy r) c (op_origin req))
        "attach client: the origin does not publish on this channel";
  match principal r with
  | None => Returns (ss, AnswerNotParked None)
  | Some p =>
      guarded ← guard_op r c (op_origin req) (op_op req);
      match (guarded : result DeferOp string) with
      | Err reason => Returns (ss, AnswerRefused reason)
      | Ok op =>
          st ← store_for ss c;
          '(st', o) ← apply_defer_op st (sender p (op_origin req)) (op_message_id req) op (op_now req);
          match o with
          | Applied => Returns (put_store ss c st', AnswerApplied)
          | NotParked t => Returns (put_store ss c st', AnswerNotParked t)
          | OutcomeWrongSender _ =>
              Panics "attach client: the schedule this router showed carried an id it does not own"
          end
      end
  end.
End router.
End Router.

(** ** Runs of the router *)
Module RouterRun.
Import Envelope Proto Ring Cursor Core CoreFacts CoreRun Store StoreFacts Router.

(** One call on the router. *)
Inductive RouterEvent (Uuid DateTime : Type) :=
| EvPrincipal (p : string)
| EvRoute (req : RouteRequest Uuid DateTime)
| EvApply (req : DeferOpRequest Uuid)
| EvRelease (now : N).
Arguments EvPrincipal {Uuid DateTime}.
Arguments EvRoute {Uuid DateTime}.
Arguments EvApply {Uuid DateTime}.
Arguments EvRelease {Uuid DateTime}.

Section run.
Context {P Uuid DateTime K : Type} `{EqDecision Uuid, Countable K, Chrono DateTime}.
Context `{!PlanePolicy P Uuid DateTime}.
(** What the plane's guard enforces about the bodies it carries. *)
Context (Q : string → Origin → string → Prop).
(** Where the policy has what it needs to answer. *)
Context (ready : P → Prop).
Implicit Types (r : LocalRouter P) (ss : ChannelStores Uuid DateTime K)
  (st : ChannelStore Uuid DateTime K) (env : MessageEnvelope Uuid DateTime).

Definition router_step (s : LocalRouter P * ChannelStores Uuid DateTime K)
    (e : RouterEvent Uuid DateTime) : panics (LocalRouter P * ChannelStores Uuid DateTime K) :=
  let '(r, ss) := s in
  match e with
  | EvPrincipal p => r' ← set_principal r p; Returns (r', ss)
  | EvRoute req => '(r', ss', _) ← route r ss req; Returns (r', ss')
  | EvApply req => '(ss', _) ← apply_op r ss req; Returns (r, ss')
  | EvRelease now => '(r', ss', _) ← router_release_due r ss now; Returns (r', ss')
  end.

Definition parked_of st : list (Deferred.Deferred (MessageEnvelope Uuid DateTime)) :=
  Deferred.parked (deferred (core st)).

(** An id no message on the channel carries. *)
Definition fresh_id st (mid : Uuid) : Prop :=
  (∀ e, e ∈ entries (ring (core st)) → message_id (message e) ≠ mid) ∧
  (∀ e, e ∈ parked_of st → message_id (Deferred.payload e) ≠ mid).

(** The caller's obligations: a confined, hosted channel and an admitted origin, a freshly
    minted identity and a clock past the epoch on a publish, an op naming an identity the
    origin's own view carries or one nothing parked carries any more, and room in the
    64-bit allocators. *)
Definition router_pre (s : LocalRouter P * ChannelStores Uuid DateTime K)
    (e : RouterEvent Uuid DateTime) : Prop :=
  let '(r, ss) := s in
  match e with
  | EvPrincipal p => p ≠ ""
  | EvRoute req =>
      is_local_channel (route_channel req) = true ∧
      admits (policy r) (route_channel req) (route_origin req) = true ∧
      (0 <= timestamp_millis (stamp_publish_ts (route_stamp req)))%Z ∧
      ∃ st, stores ss !! route_channel req = Some st ∧
        fresh_id st (stamp_message_id (route_stamp req)) ∧
        next_seq (ring (core st)) < u64_max ∧ Deferred.next_id (deferred (core st)) < u64_max
  | EvApply req =>
      is_local_channel (op_channel req) = true ∧
      admits (policy r) (op_channel req) (op_origin req) = true ∧
      ∃ st view, stores ss !! op_channel req = Some st ∧
        parked_for r ss (op_channel req) (op_origin req) = Returns view ∧
        (op_message_id req ∈ view_message_id <$> view ∨
         ∀ e, e ∈ parked_of st → message_id (Deferred.payload e) ≠ op_message_id req)
  | EvRelease now => ∀ c st, stores ss !! c = Some st → is_local_channel c = true →
      op_ok (core st) (CoreRun.OpRelease now)
  end.

Fixpoint router_run s (es : list (RouterEvent Uuid DateTime)) :=
  match es with
  | [] => Returns s
  | e :: es => s' ← router_step s e; router_run s' es
  end.

Fixpoint router_admissible s (es : list (RouterEvent Uuid DateTime)) : Prop :=
  match es with
  | [] => True
  | e :: es => router_pre s e ∧ ∀ s', router_step s e = Returns s' → router_admissible s' es
  end.

(** A message addressed to the channel carries a body the guard admitted from the very
    origin its sender names. *)
Definition guarded_msg (c : string) env : Prop :=
  channel env = c ∧ ∃ p o, env_sender env = sender p o ∧ Q c o (body env).

(** What a policy owes the router: the bodies it carries have [Q]; where it is ready it has
    an answer for every origin it admits, and it records any message whose body it could have
    carried, and is ready still. A policy that never unwinds is ready everywhere. *)
Record plane_contract : Prop := {
  guard_sound (p : P) c o raw b : guard p c o raw = Returns (Carry b) → Q c o b;
  guard_answers (p : P) c o raw : ready p → admits p c o = true → ∃ g, guard p c o raw = Returns g;
  observe_answers (p : P) env : ready p → guarded_msg (channel env) env →
    ∃ p', observe p env = Returns p' ∧ ready p';
}.
Context (Hpolicy : plane_contract).

(** A confined channel's store: everything retained or parked is guarded, every parked
    message is owned by the sender its envelope names, and identities are not reused. *)
Record guarded (c : string) st : Prop := {
  guarded_wf : wf (core st);
  guarded_ring e : e ∈ entries (ring (core st)) → guarded_msg c (message e);
  guarded_parked e : e ∈ parked_of st →
    Deferred.sender e = env_sender (Deferred.payload e) ∧ guarded_msg c (Deferred.payload e);
  guarded_unique e e' : e ∈ parked_of st → e' ∈ parked_of st →
    message_id (Deferred.payload e) = message_id (Deferred.payload e') → e = e';
}.

(** Every confined channel is guarded, and nothing is parked on any other. *)
Record guarded_all ss : Prop := {
  confined_guarded c st : stores ss !! c = Some st → is_local_channel c = true → guarded c st;
  wire_unparked c st : stores ss !! c = Some st → is_local_channel c = false → parked_of st = [];
}.

Lemma put_store_guarded ss c st :
  guarded_all ss → is_local_channel c = true → guarded c st → guarded_all (put_store ss c st).
Proof.
  intros [Hss Hw] Hl Hst. split; intros c' st'; simpl; intros [[<- <-]|[_ ?]]%lookup_insert_Some Hl'.
  - done.
  - by apply Hss.
  - by rewrite Hl in Hl'.
  - by eapply Hw.
Qed.

Lemma elem_of_appended (x : Retained (MessageEnvelope Uuid DateTime))
    (rg : RetainedRing (MessageEnvelope Uuid DateTime) Uuid) env :
  Ring.wf rg → next_seq rg < u64_max → x ∈ entries (append rg env).1 →
  x ∈ entries rg ∨ message x = env.
Proof.
  intros Hr Hlt Hx. destruct (entries_append_suffix rg env Hr Hlt) as [n Hn]. rewrite Hn in Hx.
  assert (Hx' : x ∈ entries rg ++ [mkRetained (next_seq rg) env]).
  { rewrite <-(take_drop n (_ ++ _)). apply elem_of_app. by right. }
  apply elem_of_app in Hx' as [?|Hx']; [by left|]. apply list_elem_of_singleton in Hx' as ->. by right.
Qed.

(** Retaining a guarded message. *)
Lemma append_guarded c st env :
  guarded c st → guarded_msg c env → next_seq (ring (core st)) < u64_max →
  (∀ e, e ∈ entries (ring (core st)) → message_id (message e) ≠ message_id env) →
  ∃ st' over, append_minted st env = Returns (st', over) ∧ guarded c st'.
Proof.
  intros [Hwf Hring Hpk Hun] Henv Hlt Hfresh. unfold append_minted.
  assert (holds st env = false) as ->.
  { apply not_true_iff_false. rewrite holds_spec, list_elem_of_fmap. intros (e&He&Hin). by apply (Hfresh e). }
  cbn [negb rust_assert mbind panics_bind].
  pose proof (core_append_wf (core st) env Hwf Hlt) as Hwf'.
  pose proof (core_append_frame (core st) env) as (_&Hdf&Hrg).
  destruct (core_append (core st) env) as [c1 rep]. simpl in *. do 2 eexists. split; [done|].
  split; simpl; [done| | |].
  - intros e. rewrite Hrg. intros [?| ->]%elem_of_appended; [by apply Hring|done|by destruct Hwf|done].
  - unfold parked_of. simpl. rewrite Hdf. apply Hpk.
  - unfold parked_of. simpl. rewrite Hdf. apply Hun.
Qed.

(** Parking a guarded message. *)
Lemma park_guarded c st env t :
  guarded c st → guarded_msg c env → Deferred.next_id (deferred (core st)) < u64_max →
  (∀ e, e ∈ parked_of st → message_id (Deferred.payload e) ≠ message_id env) →
  guarded c (store_park st (env_sender env) env t).1.
Proof.
  intros [Hwf Hring Hpk Hun] Henv Hlt Hfresh.
  pose proof (Deferred.park_wf (deferred (core st)) (env_sender env) env t (wf_deferred _ Hwf) Hlt) as Hd.
  unfold store_park, core_park.
  assert (Hmem : ∀ e, e ∈ Deferred.parked (Deferred.park (deferred (core st)) (env_sender env) env t).1 →
    e ∈ parked_of st ∨ (Deferred.sender e = env_sender env ∧ Deferred.payload e = env ∧
      Deferred.id e = Deferred.next_id (deferred (core st)) ∧ Deferred.release_at e = t)).
  { intros e. unfold Deferred.park. case_match; [by left|]. simpl. rewrite vec_insert_perm.
    intros [->|?]%elem_of_cons; [by right|by left]. }
  assert (Hcap : Deferred.cap (Deferred.park (deferred (core st)) (env_sender env) env t).1 =
    Deferred.cap (deferred (core st))) by (unfold Deferred.park; by repeat case_match).
  destruct (Deferred.park _ _ _ _) as [d res]. simpl in *. split; simpl; [by apply with_deferred_wf|done| |].
  - intros e [?|(Hs&Hp&_)]%Hmem; [by apply Hpk|]. by rewrite Hs, Hp.
  - intros e e' [He|(Hs&Hp&Hi&Ht)]%Hmem [He'|(Hs'&Hp'&Hi'&Ht')]%Hmem Heq.
    + by apply Hun.
    + destruct (Hfresh e He). by rewrite Heq, Hp'.
    + destruct (Hfresh e' He'). by rewrite <-Heq, Hp.
    + destruct e, e'; simpl in *; congruence.
Qed.

Lemma elem_of_released (due : list (Deferred.Deferred (MessageEnvelope Uuid DateTime))) (x : Retained (MessageEnvelope Uuid DateTime))
    (rg : RetainedRing (MessageEnvelope Uuid DateTime) Uuid) :
  Ring.wf rg → next_seq rg + len due ≤ u64_max →
  x ∈ entries (foldl (λ rg e, (append rg (Deferred.payload e)).1) rg due) →
  x ∈ entries rg ∨ ∃ e, e ∈ due ∧ message x = Deferred.payload e.
Proof.
  revert rg. induction due as [|e due IH]; intros rg Hr Hmax; [by left|]. rewrite len_cons in Hmax.
  assert (Hlt : next_seq rg < u64_max) by lia. cbn [foldl].
  pose proof (next_seq_append rg (Deferred.payload e) Hr Hlt) as Hn.
  intros [Hx|(e'&?&?)]%IH; [|right; exists e'; set_solver|by apply append_wf|lia].
  apply elem_of_appended in Hx as [?|?]; [by left| |done|done]. right. exists e. set_solver.
Qed.

Lemma release_guarded c st now :
  guarded c st → op_ok (core st) (CoreRun.OpRelease now) → guarded c (store_release_due st now).1.
Proof.
  intros [Hwf Hring Hpk Hun] Hok. unfold store_release_due, core_release_due.
  pose proof (DeferredSpec.release_due_split _ now (wf_deferred _ Hwf)) as [Hdue Hrest].
  pose proof (Deferred.release_due_wf (deferred (core st)) now (wf_deferred _ Hwf)) as Hd.
  unfold op_ok in Hok.
  destruct (Deferred.release_due (deferred (core st)) now) as [d due] eqn:Hrel. simpl in Hok, Hd, Hdue, Hrest.
  assert (Hcap : Deferred.cap d = Deferred.cap (deferred (core st))).
  { unfold Deferred.release_due in Hrel. by injection Hrel as <- _. }
  pose proof (release_loop_spec _ due [] [] (with_deferred_wf _ _ Hwf Hd Hcap) Hok) as Hspec.
  destruct (release_loop _ due [] []) as [c' rep]. destruct Hspec as (Hwf'&_&Hdf&_&_&_&Hrg&_). simpl in *.
  assert (Hmem : ∀ e, e ∈ Deferred.parked (deferred c') → e ∈ parked_of st).
  { intros e. rewrite Hdf, Hrest. by intros [_ ?]%list_elem_of_filter. }
  split; simpl; [done| | |].
  - intros e. rewrite Hrg. intros [?|(e'&He'&->)]%elem_of_released; [by apply Hring| |by destruct Hwf|done].
    rewrite Hdue in He'. apply list_elem_of_filter in He' as [_ He']. by apply Hpk.
  - intros e He%Hmem. by apply Hpk.
  - intros e e' He%Hmem He'%Hmem. by apply Hun.
Qed.

(** Where a message of identity [mid] can only be the caller's own, resolving it never
    meets another sender's. *)
Lemma owned_never_foreign st who mid now :
  (∀ e, e ∈ parked_of st → message_id (Deferred.payload e) = mid → Deferred.sender e = who) →
  ∀ owner, owned_deferred (core st) who (λ m, bool_decide (message_id m = mid)) now ≠ WrongSender owner.
Proof.
  intros Hown owner. unfold owned_deferred. destruct (list_find _ _) as [[j e]|] eqn:Hf; [|done].
  apply list_find_from_start in Hf as [Hj%list_elem_of_lookup_2 Hm%bool_decide_eq_true].
  case_decide as Hs; [|by case_match]. by destruct (Hs (Hown e Hj Hm)).
Qed.

(** A control op on one's own message keeps the channel guarded. *)
Lemma apply_guarded c st p o mid op now :
  guarded c st → (∀ b t, op = OpEdit (Some b) t → Q c o b) →
  (∀ e, e ∈ parked_of st → message_id (Deferred.payload e) = mid → Deferred.sender e = sender p o) →
  ∃ st' ans, apply_defer_op st (sender p o) mid op now = Returns (st', ans) ∧ guarded c st' ∧
    ∀ owner, ans ≠ OutcomeWrongSender owner.
Proof.
  intros Hg Hop Hown. pose proof Hg as [Hwf Hring Hpk Hun].
  pose proof (apply_defer_op_cases st (sender p o) mid op now Hwf) as Hc.
  pose proof (owned_never_foreign st (sender p o) mid now Hown) as Hnf.
  destruct (owned_deferred _ _ _ _) as [i e|owner| |];
    [|by destruct (Hnf owner)|rewrite Hc; by do 2 eexists|rewrite Hc; by do 2 eexists].
  destruct Hc as (st'&->&Hwf'&Hr&Hcs&He&Hin&Hs&Hm&Hrel&Hcont). exists st', Applied.
  split_and!; [done| |done].
  assert (Hlk : ∀ s (x : Deferred.Deferred (MessageEnvelope Uuid DateTime)), wf (core s) →
    x ∈ parked_of s ↔ DeferredSpec.contents (deferred (core s)) !! Deferred.id x = Some x).
  { intros s x [_ [_ Hnd _ _] _ _]. rewrite DeferredSpec.lookup_contents by done. naive_solver. }
  assert (Hid : Deferred.id e = i).
  { destruct Hwf as [_ [_ Hnd _ _] _ _]. by apply DeferredSpec.lookup_contents in He as [_ ?]. }
  (* Every message parked afterwards was parked before, the edited one under its new body. *)
  assert (Hmem : ∀ x, x ∈ parked_of st' → (x ∈ parked_of st ∧ x ≠ e) ∨
    ∃ b t, op = OpEdit b t ∧ x = DeferredSpec.rescheduled (with_body (Deferred.payload e) <$> b) t e).
  { intros x. rewrite !Hlk, Hcont by done. destruct op as [|b t].
    - intros [Hne ?]%lookup_delete_Some. left. split; [done|]. congruence.
    - destruct (decide (i = Deferred.id x)) as [Heq|Hne].
      + rewrite <-Heq, lookup_alter_eq, He. intros [= <-]. right. eauto.
      + rewrite lookup_alter_ne by done. left. split; [done|]. congruence. }
  split; [done|rewrite Hr; done| |].
  - intros x [[? _]|(b&t&Hedit&->)]%Hmem; [by apply Hpk|]. destruct (Hpk e Hin) as [Hse Hgm]. simpl.
    destruct b as [b|]; [|done]. split; [done|]. split; [by destruct Hgm|]. exists p, o. simpl. rewrite <-Hse. split; [done|].
    by eapply Hop.
  - assert (Hmid : ∀ b t, message_id (Deferred.payload
      (DeferredSpec.rescheduled (with_body (Deferred.payload e) <$> b) t e)) = message_id (Deferred.payload e))
      by (by intros [b|] t).
    intros x y [[Hx Hxe]|(b&t&Hedit&->)]%Hmem [[Hy Hye]|(b'&t'&Hedit'&->)]%Hmem Heq.
    + by apply Hun.
    + rewrite Hmid in Heq. by destruct (Hxe (Hun x e Hx Hin Heq)).
    + rewrite Hmid in Heq. symmetry in Heq. by destruct (Hye (Hun y e Hy Hin Heq)).
    + rewrite Hedit in Hedit'. by injection Hedit' as -> ->.
Qed.

(** What the origin was shown is its own. *)
Lemma view_is_own r ss c st p o view mid :
  guarded c st → principal r = Some p → stores ss !! c = Some st →
  parked_for r ss c o = Returns view → mid ∈ view_message_id <$> view →
  ∃ e, e ∈ parked_of st ∧ Deferred.sender e = sender p o ∧ message_id (Deferred.payload e) = mid ∧
    ∀ e', e' ∈ parked_of st → message_id (Deferred.payload e') = mid → e' = e.
Proof.
  intros Hg Hp Hst. unfold parked_for, store_for. destruct (is_local_channel c); [|done]. simpl.
  rewrite Hp, Hst. simpl. intros [= <-] (v&->&(e&->&[Hs Hin]%list_elem_of_filter)%list_elem_of_fmap)%list_elem_of_fmap.
  exists e. split_and!; [done|done|done|]. intros e' He' Hm. by apply (guarded_unique _ _ Hg).
Qed.

(** An identity only [e] carries resolves to [e]. *)
Lemma owned_unique st who mid now e :
  e ∈ parked_of st → message_id (Deferred.payload e) = mid → Deferred.sender e = who →
  (∀ e', e' ∈ parked_of st → message_id (Deferred.payload e') = mid → e' = e) →
  owned_deferred (core st) who (λ m, bool_decide (message_id m = mid)) now =
    if Deferred.release_at e <=? now then PastCutoff (Deferred.release_at e) else Owned (Deferred.id e) e.
Proof.
  intros Hin Hm Hs Hu. unfold owned_deferred. destruct (list_find _ _) as [[j e0]|] eqn:Hf.
  - apply list_find_from_start in Hf as [Hj%list_elem_of_lookup_2 Hm0%bool_decide_eq_true].
    rewrite (Hu e0 Hj Hm0). by rewrite decide_False by (intros Hn; by apply Hn).
  - apply list_find_None in Hf. rewrite Forall_forall in Hf. destruct (Hf e Hin).
    by rewrite bool_decide_true.
Qed.

Lemma put_store_same ss c st : stores ss !! c = Some st → put_store ss c st = ss.
Proof. intros Hc. unfold put_store, with_stores. rewrite insert_id by done. by destruct ss. Qed.

Lemma step_route r ss req :
  guarded_all ss → ready (policy r) → router_pre (r, ss) (EvRoute req) →
  ∃ r' ss' out, route r ss req = Returns (r', ss', out) ∧ guarded_all ss' ∧ ready (policy r').
Proof.
  intros Hall Hrd (Hl&Ha&Hts&st&Hst&[Hf1 Hf2]&Hseq&Hnid). unfold route. rewrite Hl, Ha.
  cbn [rust_assert mbind panics_bind]. destruct (principal r) as [p|]; [|by do 3 eexists].
  destruct (guard_answers Hpolicy (policy r) _ _ (route_body req) Hrd Ha) as [[b|reason] Hgd];
    rewrite Hgd; cbn [mbind panics_bind]; [|by do 3 eexists].
  pose proof (confined_guarded _ Hall _ _ Hst Hl) as Hg.
  assert (Henv : guarded_msg (route_channel req) (mint p req b)).
  { split; [done|]. exists p, (route_origin req). split; [done|]. by eapply guard_sound. }
  assert (Hahead : ∃ a, still_ahead req = Returns a).
  { unfold still_ahead, epoch_ms, checked_epoch_ms. destruct (route_deliver_after req); [|eauto].
    rewrite (proj2 (Z.leb_le _ _) Hts). simpl. eauto. }
  destruct Hahead as [a ->]. cbn [mbind panics_bind]. unfold store_for. rewrite Hst.
  destruct a as [t|]; cbn [rust_expect mbind panics_bind].
  - pose proof (park_guarded _ st (mint p req b) t Hg Henv Hnid Hf2) as Hg'.
    destruct (store_park _ _ _ _) as [st' res]. do 3 eexists. split; [done|]. split; [by apply put_store_guarded|done].
  - destruct (observe_answers Hpolicy (policy r) (mint p req b) Hrd Henv) as (p'&->&Hrd'). cbn [mbind panics_bind].
    destruct (append_guarded _ st (mint p req b) Hg Henv Hseq Hf1) as (st'&over&->&Hg').
    do 3 eexists. split; [done|]. split; [by apply put_store_guarded|done].
Qed.

(** Judging an op: a ready policy answers, and a body it writes has [Q]. *)
Lemma guard_op_good r c o op :
  ready (policy r) → admits (policy r) c o = true →
  ∃ g, guard_op r c o op = Returns g ∧ ∀ b t, g = Ok (OpEdit (Some b) t) → Q c o b.
Proof.
  intros Hrd Ha. unfold guard_op. destruct op as [|[b0|] t0]; try (eexists; by split).
  destruct (guard_answers Hpolicy (policy r) c o b0 Hrd Ha) as [g Hgd]. rewrite Hgd. eexists. split; [done|].
  intros b t. destruct g as [b1|]; [|done]. intros [= -> _]. by eapply guard_sound.
Qed.

Lemma step_apply r ss req :
  guarded_all ss → ready (policy r) → router_pre (r, ss) (EvApply req) →
  ∃ ss' ans, apply_op r ss req = Returns (ss', ans) ∧ guarded_all ss'.
Proof.
  intros Hall Hrd (Hl&Ha&st&view&Hst&Hview&Hmid). unfold apply_op. rewrite Hl, Ha.
  cbn [rust_assert mbind panics_bind]. destruct (principal r) as [p|] eqn:Hp; [|by do 2 eexists].
  destruct (guard_op_good r _ _ (op_op req) Hrd Ha) as (g&->&Hsound). cbn [mbind panics_bind].
  destruct g as [op|reason]; [|by do 2 eexists].
  unfold store_for. rewrite Hst. cbn [rust_expect mbind panics_bind].
  pose proof (confined_guarded _ Hall _ _ Hst Hl) as Hg.
  destruct (apply_guarded (op_channel req) st p (op_origin req) (op_message_id req) op (op_now req) Hg)
    as (st'&ans&->&Hg'&Hno).
  { intros b t ->. by eapply Hsound. }
  { intros e He Hm. destruct Hmid as [Hin|Hnone]; [|by destruct (Hnone e He)].
    destruct (view_is_own _ _ _ _ _ _ _ _ Hg Hp Hst Hview Hin) as (e0&_&Hs&_&Hu).
    by rewrite (Hu e He Hm). }
  cbn [mbind panics_bind]. destruct ans; [| |by destruct (Hno owner)];
    (do 2 eexists; split; [done|by apply put_store_guarded]).
Qed.

Lemma observe_all_good p envs :
  ready p → Forall (λ env, guarded_msg (channel env) env) envs →
  ∃ p', observe_all p envs = Returns p' ∧ ready p'.
Proof.
  unfold observe_all. intros Hrd Hall. revert p Hrd.
  induction Hall as [|env envs Henv _ IH]; intros p Hrd; [by exists p|]. cbn [foldl mbind panics_bind].
  destruct (observe_answers Hpolicy p env Hrd Henv) as (p1&->&Hrd1). by apply IH.
Qed.

(** What a guarded store releases was parked on it. *)
Lemma released_guarded c st now env :
  guarded c st → op_ok (core st) (CoreRun.OpRelease now) →
  env ∈ message <$> released (store_release_due st now).2 → guarded_msg (channel env) env.
Proof.
  intros [Hwf _ Hpk _] Hok. unfold store_release_due, core_release_due.
  pose proof (DeferredSpec.release_due_split _ now (wf_deferred _ Hwf)) as [Hdue _].
  pose proof (Deferred.release_due_wf (deferred (core st)) now (wf_deferred _ Hwf)) as Hd.
  unfold op_ok in Hok.
  destruct (Deferred.release_due (deferred (core st)) now) as [d due] eqn:Hrel. simpl in Hok, Hd, Hdue.
  assert (Hcap : Deferred.cap d = Deferred.cap (deferred (core st))).
  { unfold Deferred.release_due in Hrel. by injection Hrel as <- _. }
  pose proof (release_loop_spec _ due [] [] (with_deferred_wf _ _ Hwf Hd Hcap) Hok) as Hspec.
  destruct (release_loop _ due [] []) as [c' rep]. destruct Hspec as (_&_&_&_&_&_&_&Hout). simpl. rewrite Hout.
  intros (x&->&Hx)%list_elem_of_fmap. simpl in Hx. apply elem_of_zip_with in Hx as (s&e&->&_&He). simpl.
  apply list_elem_of_fmap in He as (dm&->&Hdm). rewrite Hdue in Hdm.
  apply list_elem_of_filter in Hdm as [_ Hdm]. destruct (Hpk dm Hdm) as [_ Hg]. pose proof Hg as [-> _]. done.
Qed.

Lemma step_release r ss now :
  guarded_all ss → ready (policy r) → router_pre (r, ss) (EvRelease now) →
  ∃ r' ss' out, router_release_due r ss now = Returns (r', ss', out) ∧ guarded_all ss' ∧ ready (policy r').
Proof.
  intros Hall Hrd Hpre. unfold router_release_due, stores_release_due.
  pose proof (release_fold now (address_order (stores ss)) (stores ss) []
    (NoDup_address_order (stores ss))) as Hfold.
  pose proof (λ x, release_fold_reports now (address_order (stores ss)) (stores ss) [] x
    (NoDup_address_order (stores ss))) as Hreps.
  destruct (foldl (release_one now) (stores ss, []) _) as [m out]. destruct Hfold as [Hm _]. simpl in Hreps.
  assert (Hobs : Forall (λ x, Forall (λ env, guarded_msg (channel env) env) (released_envelopes x))
    ((λ x, mkReleased x.1 (message <$> released x.2) (release_overflow x.2)) <$> out)).
  { apply Forall_fmap, Forall_forall. intros x Hx. simpl. apply Forall_forall. intros env Henv.
    destruct (Hreps x Hx) as [[]%not_elem_of_nil|(_&st&Hst&Hr&Hne)]. rewrite Hr in Henv.
    destruct (is_local_channel x.1) eqn:Hl; [|by destruct Hne; apply (wire_unparked _ Hall x.1)].
    apply (released_guarded x.1 st now); [by apply Hall|by apply (Hpre x.1)|done]. }
  assert (Hfold : ∀ p, ready p → ∃ p', foldl (λ acc x, p ← acc; observe_all p (released_envelopes x)) (Returns p)
    ((λ x, mkReleased x.1 (message <$> released x.2) (release_overflow x.2)) <$> out) = Returns p' ∧ ready p').
  { induction Hobs as [|x l Hx _ IH]; intros p Hp; [by exists p|]. cbn [foldl mbind panics_bind].
    destruct (observe_all_good p _ Hp Hx) as (p1&->&Hp1). by apply IH. }
  destruct (Hfold (policy r) Hrd) as (p'&->&Hrd'). cbn [mbind panics_bind].
  do 3 eexists. split; [done|]. split; [|done].
  assert (Hin : ∀ c st, m !! c = Some st → ∃ st0, stores ss !! c = Some st0 ∧ st = (store_release_due st0 now).1).
  { intros c st Hc. rewrite Hm in Hc. case_decide as Hin; [by apply fmap_Some in Hc|].
    rewrite elem_of_address_order, Hc in Hin. by destruct Hin. }
  split; intros c st Hc Hl; simpl in Hc; destruct (Hin c st Hc) as (st0&Hst0&->).
  - apply release_guarded; [by apply Hall|by apply (Hpre c)].
  - pose proof (wire_unparked _ Hall c st0 Hst0 Hl) as Hno. rewrite release_nothing_due; [done|].
    intros t. unfold store_next_release, core_next_release, Deferred.next_release. unfold parked_of in Hno. by rewrite Hno.
Qed.

Lemma router_step_good s e :
  guarded_all s.2 → ready (policy s.1) → router_pre s e →
  ∃ s', router_step s e = Returns s' ∧ guarded_all s'.2 ∧ ready (policy s'.1).
Proof.
  destruct s as [r ss]. intros Hall Hrd Hpre. destruct e as [p|req|req|now]; cbn [router_step].
  - unfold set_principal. simpl in Hpre. rewrite bool_decide_false by done. by eexists.
  - destruct (step_route r ss req Hall Hrd Hpre) as (?&?&?&->&?). by eexists.
  - destruct (step_apply r ss req Hall Hrd Hpre) as (?&?&->&?). by eexists.
  - destruct (step_release r ss now Hall Hrd Hpre) as (?&?&?&->&?). by eexists.
Qed.

Lemma router_run_good s es :
  guarded_all s.2 → ready (policy s.1) → router_admissible s es →
  ∃ s', router_run s es = Returns s' ∧ guarded_all s'.2 ∧ ready (policy s'.1).
Proof.
  revert s. induction es as [|e es IH]; intros s Hall Hrd Had; [by exists s|]. destruct Had as [Hpre Hrest].
  destruct (router_step_good s e Hall Hrd Hpre) as (s1&Hs&Hall1&Hrd1). cbn [router_run]. rewrite Hs.
  by apply IH; [| |apply Hrest].
Qed.
End run.
End RouterRun.

Module RouterProps.
Import Envelope Proto Ring Cursor Core CoreFacts CoreRun Store StoreFacts Router RouterRun.

Section props.
Context {P Uuid DateTime K : Type} `{EqDecision Uuid, Countable K, Chrono DateTime}.
Context `{!PlanePolicy P Uuid DateTime}.
Implicit Types (r : LocalRouter P) (ss : ChannelStores Uuid DateTime K).

(** C3: a plane's guard cannot be walked around. Whatever property [Q] of a body the
    guard enforces for a channel and an origin, under a policy that answers for the origins
    it admits and records what it carried, no run of publishes, edits, cancels, releases and
    re-attachments unwinds or leaves any message on a confined channel, retained or still
    parked, which is not addressed to it or whose body lacks [Q] for an origin the message's
    own sender names; every parked message stays owned by that sender; and the policy can
    answer still. *)
Theorem guard_covers_every_path (Q : string → Origin → string → Prop) (ready : P → Prop) r ss es :
  plane_contract Q ready → guarded_all Q ss → ready (policy r) → router_admissible (r, ss) es →
  ∃ r' ss', router_run (r, ss) es = Returns (r', ss') ∧ guarded_all Q ss' ∧ ready (policy r').
Proof.
  intros Hq Hall Hrd Had. destruct (router_run_good Q ready Hq (r, ss) es Hall Hrd Had) as ([r' ss']&Hr&Hg). eauto.
Qed.

(** an op on an entry its origin was shown unwinds only where the guard does, and its answer
    is decided by the guard and the cutoff alone: a refused replacement body changes nothing,
    an entry already due is not parked any more and changes nothing, and anything else is
    applied, after which a cancelled entry is gone from the origin's view. *)
Theorem shown_entry_is_decided_by_the_cutoff (Q : string → Origin → string → Prop) r ss req p view v :
  guarded_all Q ss → is_local_channel (op_channel req) = true →
  admits (policy r) (op_channel req) (op_origin req) = true → principal r = Some p →
  parked_for r ss (op_channel req) (op_origin req) = Returns view →
  v ∈ view → view_message_id v = op_message_id req →
  match guard_op r (op_channel req) (op_origin req) (op_op req) with
  | Panics why => apply_op r ss req = Panics why
  | Returns (Err reason) => apply_op r ss req = Returns (ss, AnswerRefused reason)
  | Returns (Ok op) =>
      if view_deliver_after v <=? op_now req
      then apply_op r ss req = Returns (ss, AnswerNotParked (Some (view_deliver_after v)))
      else ∃ ss' view', apply_op r ss req = Returns (ss', AnswerApplied) ∧
        parked_for r ss' (op_channel req) (op_origin req) = Returns view' ∧
        (op_op req = OpCancel → op_message_id req ∉ view_message_id <$> view')
  end.
Proof.
  intros Hall Hl Ha Hp Hview Hv Hmid. unfold apply_op. rewrite Hl, Ha.
  cbn [rust_assert mbind panics_bind]. rewrite Hp.
  destruct (guard_op _ _ _ _) as [[op|reason]|why] eqn:Hgo; [|done|done]. cbn [mbind panics_bind].
  pose proof Hview as Hview'. unfold parked_for, store_for in Hview'. rewrite Hl, Hp in Hview'. simpl in Hview'.
  destruct (stores ss !! op_channel req) as [st|] eqn:Hst; [|done]. simpl in Hview'.
  pose proof (confined_guarded _ _ Hall _ _ Hst Hl) as Hg. injection Hview' as <-.
  apply list_elem_of_fmap in Hv as (e&->&[Hs Hin]%list_elem_of_filter). simpl in *.
  assert (Hu : ∀ e', e' ∈ parked_of st → message_id (Deferred.payload e') = op_message_id req → e' = e).
  { intros e' He' Hm. apply (guarded_unique _ _ _ Hg); [done|done|congruence]. }
  unfold store_for. rewrite Hst. cbn [rust_expect mbind panics_bind].
  pose proof (apply_defer_op_cases st (sender p (op_origin req)) (op_message_id req) op (op_now req)
    (guarded_wf _ _ _ Hg)) as Hc.
  rewrite (owned_unique st _ _ _ e Hin Hmid Hs Hu) in Hc.
  destruct (Deferred.release_at e <=? op_now req).
  - rewrite Hc. cbn [mbind panics_bind]. by rewrite put_store_same.
  - destruct Hc as (st'&->&[_ [_ Hnd _ _] _ _]&_&_&He&_&_&_&_&Hcont). cbn [mbind panics_bind].
    eexists (put_store ss (op_channel req) st'), _. split; [done|].
    split; [unfold parked_for, store_for; rewrite Hl, Hp; simpl; by rewrite lookup_insert_eq|].
    intros Hcan (v&Hm'&(e'&->&[_ Hin']%list_elem_of_filter)%list_elem_of_fmap)%list_elem_of_fmap.
    simpl in Hm'. rewrite Hcan in Hgo. injection Hgo as <-.
    assert (Hc' : DeferredSpec.contents (deferred (core st')) !! Deferred.id e' = Some e')
      by (by apply DeferredSpec.lookup_contents).
    rewrite Hcont in Hc'. apply lookup_delete_Some in Hc' as [Hne Hc'].
    pose proof (guarded_wf _ _ _ Hg) as [_ [_ Hnd0 _ _] _ _].
    apply DeferredSpec.lookup_contents in Hc' as [Hin0 _]; [|done]. by rewrite (Hu e' Hin0 (eq_sym Hm')) in Hne.
Qed.
End props.

(** ** Witnesses *)

(** A plane that refuses the empty body and counts what its readers saw. *)
#[local] Instance ex_policy : PlanePolicy N N Z := {|
  admits _ c _ := String.eqb c "local:a";
  guard _ _ _ b := Returns (if String.eqb b "" then GuardRefused "empty" else Carry b);
  observe n _ := Returns (n + 1);
|}.
#[local] Existing Instance EvalInstances.millis_chrono.

Definition ex_nonempty (c : string) (o : Origin) (b : string) : Prop := b ≠ "".
Definition ex_route (mid : N) (who : string) (t : option N) : RouteRequest N Z :=
  mkRoute "local:a" (Sub who) "hi" (mkStamp mid 100%Z) Normal t.
Definition ex_start : LocalRouter N * ChannelStores N Z string :=
  (router_new 0, mkStores 7 {["local:a" := store_new 7 4]}).
(** Publish, schedule twice, edit one and cancel the other, then let time pass. *)
Definition ex_run : list (RouterEvent N Z) :=
  [EvPrincipal "host"; EvRoute (ex_route 1 "x" None); EvRoute (ex_route 2 "x" (Some 150));
   EvRoute (ex_route 3 "y" (Some 160));
   EvApply (mkOpRequest "local:a" (Sub "x") 2 (OpEdit (Some "bye") (Some 170)) 120);
   EvApply (mkOpRequest "local:a" (Sub "y") 3 OpCancel 130); EvRelease 200].

Lemma ex_contract : plane_contract (P := N) (Uuid := N) (DateTime := Z) ex_nonempty (λ _, True).
Proof.
  split; simpl.
  - intros _ c o raw b. destruct (String.eqb_spec raw ""); [done|]. by intros [= <-].
  - eauto.
  - eauto.
Qed.

Lemma ex_start_guarded : guarded_all ex_nonempty ex_start.2.
Proof.
  split; intros c st Hc Hl; unfold ex_start in Hc; simpl in Hc; apply lookup_singleton_Some in Hc as [<- <-]; [|done].
  split; simpl; try (intros * []%not_elem_of_nil). apply core_new_wf.
Qed.

Definition freshb (st : ChannelStore N Z string) (mid : N) : bool :=
  forallb (λ e, negb (message_id (message e) =? mid)) (entries (ring (core st))) &&
  forallb (λ e, negb (message_id (Deferred.payload e) =? mid)) (parked_of st).

Lemma freshb_spec st mid : freshb st mid = true → fresh_id st mid.
Proof.
  unfold freshb. rewrite andb_true_iff, !forallb_forall. intros [H1 H2].
  split; intros e He%list_elem_of_In; [specialize (H1 e He)|specialize (H2 e He)];
    apply N.eqb_neq, negb_true_iff; done.
Qed.

(** The obligations, as a test. *)
Definition preb (s : LocalRouter N * ChannelStores N Z string) (e : RouterEvent N Z) : bool :=
  let '(r, ss) := s in
  match e with
  | EvPrincipal p => negb (String.eqb p "")
  | EvRoute req =>
      is_local_channel (route_channel req) && admits (policy r) (route_channel req) (route_origin req) &&
      (0 <=? timestamp_millis (stamp_publish_ts (route_stamp req)))%Z &&
      match stores ss !! route_channel req with
      | Some st => freshb st (stamp_message_id (route_stamp req)) &&
          (next_seq (ring (core st)) <? u64_max) && (Deferred.next_id (deferred (core st)) <? u64_max)
      | None => false
      end
  | EvApply req =>
      is_local_channel (op_channel req) && admits (policy r) (op_channel req) (op_origin req) &&
      match stores ss !! op_channel req, parked_for r ss (op_channel req) (op_origin req) with
      | Some _, Returns view => bool_decide (op_message_id req ∈ view_message_id <$> view)
      | _, _ => false
      end
  | EvRelease now =>
      forallb (λ p : string * ChannelStore N Z string,
        next_seq (ring (core p.2)) + len (Deferred.release_due (deferred (core p.2)) now).2 <=? u64_max)
        (map_to_list (stores ss))
  end.

Lemma preb_spec s e : preb s e = true → router_pre s e.
Proof.
  destruct s as [r ss], e as [p|req|req|now]; cbn [preb router_pre].
  - destruct (String.eqb_spec p ""); done.
  - rewrite !andb_true_iff, Z.leb_le. intros [[[Hl Ha] Ht] Hst].
    destruct (stores ss !! route_channel req) as [st|]; [|done].
    rewrite !andb_true_iff, !N.ltb_lt in Hst. destruct Hst as [[Hf%freshb_spec Hs] Hn].
    split_and!; [done|done|done|]. by exists st.
  - rewrite !andb_true_iff. intros [[Hl Ha] Hst]. split_and!; [done|done|].
    destruct (stores ss !! op_channel req) as [st|]; [|done].
    destruct (parked_for r ss _ _) as [view|]; [|done]. apply bool_decide_eq_true in Hst.
    exists st, view. by split_and!; [| |left].
  - rewrite forallb_forall. intros Hall c st Hc _.
    apply N.leb_le, (Hall (c, st)), list_elem_of_In, elem_of_map_to_list. done.
Qed.

Fixpoint run_ok (s : LocalRouter N * ChannelStores N Z string) (es : list (RouterEvent N Z)) : bool :=
  match es with
  | [] => true
  | e :: es => preb s e && match router_step s e with Returns s' => run_ok s' es | Panics _ => true end
  end.

Lemma run_ok_spec s es : run_ok s es = true → router_admissible s es.
Proof.
  revert s. induction es as [|e es IH]; intros s; [done|]. cbn [run_ok].
  intros [Hp Hr]%andb_true_iff. split; [by apply preb_spec|]. intros s' Hs. rewrite Hs in Hr. by apply IH.
Qed.

Lemma ex_run_admissible : router_admissible ex_start ex_run.
Proof. apply run_ok_spec. vm_compute. reflexivity. Qed.

Lemma guard_covers_every_path_witness :
  ∃ r' ss', router_run ex_start ex_run = Returns (r', ss') ∧ guarded_all ex_nonempty ss'.
Proof.
  destruct (guard_covers_every_path ex_nonempty (λ _, True) ex_start.1 ex_start.2 ex_run) as (r'&ss'&Hr&Hg&_).
  - exact ex_contract.
  - exact ex_start_guarded.
  - exact I.
  - exact ex_run_admissible.
  - exists r', ss'. by split.
Defined.

Lemma router_admissible_take n (s : LocalRouter N * ChannelStores N Z string) es :
  router_admissible s es → router_admissible s (take n es).
Proof.
  revert n s. induction es as [|e es IH]; intros [|n] s; try done.
  intros [Hp Hr]. split; [done|]. intros s' Hs. apply IH. by apply Hr.
Qed.

(** The state once both messages are scheduled. *)
Definition ex_scheduled : LocalRouter N * ChannelStores N Z string :=
  match router_run ex_start (take 4 ex_run) with Returns s => s | Panics _ => ex_start end.

Lemma ex_scheduled_guarded : guarded_all ex_nonempty ex_scheduled.2.
Proof.
  unfold ex_scheduled.
  destruct (router_run_good ex_nonempty (λ _, True) ex_contract ex_start (take 4 ex_run) ex_start_guarded I
    (router_admissible_take 4 _ _ ex_run_admissible)) as (s&->&Hg&_).
  exact Hg.
Qed.

Lemma shown_entry_is_decided_by_the_cutoff_witness :
  ∃ ss', apply_op ex_scheduled.1 ex_scheduled.2 (mkOpRequest "local:a" (Sub "y") 3 OpCancel 130)
    = Returns (ss', AnswerApplied).
Proof.
  pose proof (shown_entry_is_decided_by_the_cutoff ex_nonempty ex_scheduled.1 ex_scheduled.2
    (mkOpRequest "local:a" (Sub "y") 3 OpCancel 130) "host" [mkViewEntry 3 "hi" 160]
    (mkViewEntry 3 "hi" 160) ex_scheduled_guarded) as Hs.
  destruct Hs as (ss'&_&Ha&_); try (vm_compute; reflexivity).
  - left.
  - exists ss'. exact Ha.
Defined.
End RouterProps.
