(* ===== verification/Text.v ===== *)
(** * Strings as bytes

    The parts of Rust's [str] the modelled code uses: byte access, slicing (which unwinds
    off a character boundary), [trim] and [split_whitespace] over Unicode white space,
    [split] at an ASCII character. A [&str] is the list of its bytes; the encoding
    invariant of [str] enters as [utf8_shaped], which every valid UTF-8 text satisfies. *)

From S2P Require Import Prelude.
From Stdlib Require Import Ascii.
From Stdlib Require String.

#[local] Open Scope list_scope.

Module Text.

Abbreviation bytes := (list ascii).

Definition str (s : string) : bytes := String.list_ascii_of_string s.
Definition unstr (b : bytes) : string := String.string_of_list_ascii b.

Lemma str_unstr b : str (unstr b) = b.
Proof. apply String.list_ascii_of_string_of_list_ascii. Qed.

Lemma unstr_str s : unstr (str s) = s.
Proof. apply String.string_of_list_ascii_of_string. Qed.

(** A byte by its code. *)
Definition chr (n : N) : ascii := ascii_of_N n.
Definition ord (c : ascii) : N := N_of_ascii c.

(** ** Encoding *)

Definition is_ascii (c : ascii) : bool := (ord c <? 128)%N.
(** A continuation byte, [0b10xxxxxx]. *)
Definition is_cont (c : ascii) : bool := ((128 <=? ord c) && (ord c <? 192))%N.

(** The bytes have the shape of UTF-8 with [k] continuation bytes owed. *)
Fixpoint shaped_from (k : nat) (b : bytes) : bool :=
  match b with
  | [] => Nat.eqb k 0
  | c :: b =>
      match k with
      | S k => is_cont c && shaped_from k b
      | O =>
          if is_ascii c then shaped_from 0 b
          else if ((194 <=? ord c) && (ord c <? 224))%N then shaped_from 1 b
          else if ((224 <=? ord c) && (ord c <? 240))%N then shaped_from 2 b
          else if ((240 <=? ord c) && (ord c <? 245))%N then shaped_from 3 b
          else false
      end
  end.
Definition utf8_shaped (b : bytes) : bool := shaped_from 0 b.

(** [str::is_char_boundary]. *)
Definition is_char_boundary (b : bytes) (i : nat) : bool :=
  Nat.eqb i 0 || Nat.eqb i (length b) ||
  match b !! i with
  | Some c => negb (is_cont c)
  | None => false
  end.

(** [&s[from..to]]. *)
Definition slice (b : bytes) (from to : nat) : panics bytes :=
  if Nat.leb from to && Nat.leb to (length b) && is_char_boundary b from && is_char_boundary b to
  then Returns (take (to - from) (drop from b))
  else Panics "byte index out of range or not a char boundary".

(** ** White space

    [char::is_whitespace] on the encoded character: U+0009-000D, U+0020, U+0085, U+00A0,
    U+1680, U+2000-200A, U+2028, U+2029, U+202F, U+205F, U+3000. *)
Definition ws1 (a : ascii) : bool :=
  (((9 <=? ord a) && (ord a <=? 13)) || (ord a =? 32))%N.
Definition ws2 (a b : ascii) : bool :=
  ((ord a =? 194) && ((ord b =? 133) || (ord b =? 160)))%N.
Definition ws3 (a b c : ascii) : bool :=
  (((ord a =? 225) && (ord b =? 154) && (ord c =? 128))
   || ((ord a =? 226) && (ord b =? 128) &&
       (((128 <=? ord c) && (ord c <=? 138)) || (ord c =? 168) || (ord c =? 169) || (ord c =? 175)))
   || ((ord a =? 226) && (ord b =? 129) && (ord c =? 159))
   || ((ord a =? 227) && (ord b =? 128) && (ord c =? 128)))%N.

(** [str::trim_start]. *)
Fixpoint trim_start (l : bytes) : bytes :=
  match l with
  | [] => []
  | a :: l1 =>
      if ws1 a then trim_start l1 else
      match l1 with
      | [] => l
      | b :: l2 =>
          if ws2 a b then trim_start l2 else
          match l2 with
          | [] => l
          | c :: l3 => if ws3 a b c then trim_start l3 else l
          end
      end
  end.

(** [str::trim_end], on the bytes read backwards. *)
Fixpoint trim_end_rev (l : bytes) : bytes :=
  match l with
  | [] => []
  | a :: l1 =>
      if ws1 a then trim_end_rev l1 else
      match l1 with
      | [] => l
      | b :: l2 =>
          if ws2 b a then trim_end_rev l2 else
          match l2 with
          | [] => l
          | c :: l3 => if ws3 c b a then trim_end_rev l3 else l
          end
      end
  end.

(** [str::trim]. *)
Definition trim (b : bytes) : bytes := rev (trim_end_rev (rev (trim_start b))).

Definition flush_word (cur : bytes) (ws : list bytes) : list bytes :=
  match cur with [] => ws | _ => rev cur :: ws end.

(** [str::split_whitespace], with the word being read in [cur], backwards. *)
Fixpoint words (cur : bytes) (l : bytes) : list bytes :=
  match l with
  | [] => flush_word cur []
  | a :: l1 =>
      if ws1 a then flush_word cur (words [] l1) else
      match l1 with
      | [] => flush_word (a :: cur) []
      | b :: l2 =>
          if ws2 a b then flush_word cur (words [] l2) else
          match l2 with
          | [] => words (a :: cur) l1
          | c :: l3 => if ws3 a b c then flush_word cur (words [] l3) else words (a :: cur) l1
          end
      end
  end.
Definition split_whitespace (b : bytes) : list bytes := words [] b.

(** [str::split(c)] at an ASCII character: always at least one piece. *)
Fixpoint split_at (c : ascii) (l : bytes) : list bytes :=
  match l with
  | [] => [[]]
  | a :: l =>
      if Ascii.eqb a c then [] :: split_at c l
      else match split_at c l with
           | p :: ps => (a :: p) :: ps
           | [] => [[a]]
           end
  end.

(** [join] with a one-byte separator. *)
Fixpoint join_with (c : ascii) (ps : list bytes) : bytes :=
  match ps with
  | [] => []
  | [p] => p
  | p :: ps => p ++ c :: join_with c ps
  end.
End Text.

Module TextProps.
Import Text.

Lemma shaped_from_app k l r :
  shaped_from k (l ++ r) = true →
  ∃ k', shaped_from k' r = true ∧ (r = [] → k' = 0) .
Proof.
  revert k. induction l as [|c l IH]; intros k; simpl.
  - intros Hs. exists k. split; [done|]. intros ->. simpl in Hs. by apply Nat.eqb_eq.
  - destruct k; [repeat case_match; try done; apply IH|].
    intros [_ ?]%andb_prop. eauto.
Qed.

(** After an ASCII byte a character starts. *)
Lemma shaped_after_ascii l c r :
  utf8_shaped (l ++ c :: r) = true → is_ascii c = true →
  match r with d :: _ => is_cont d = false | [] => True end.
Proof.
  intros (k&Hk&_)%shaped_from_app Hc. simpl in Hk. destruct k.
  - rewrite Hc in Hk. destruct r as [|d r]; [done|]. simpl in Hk.
    unfold is_ascii, is_cont in *. repeat case_match; try done; repeat case_bool; simpl; try done; lia.
  - apply andb_prop in Hk as [Hk _]. unfold is_ascii, is_cont in *. repeat case_bool; try done; lia.
Qed.

Lemma ascii_not_cont c : is_ascii c = true → is_cont c = false.
Proof. unfold is_ascii, is_cont. intros. repeat case_bool; try done; lia. Qed.

Lemma split_at_nonempty c l : split_at c l ≠ [].
Proof. destruct l as [|a l]; simpl; [done|]. repeat case_match; done. Qed.

Lemma join_split_at c l : join_with c (split_at c l) = l.
Proof.
  induction l as [|a l IH]; simpl; [done|].
  pose proof (split_at_nonempty c l). destruct (split_at c l) as [|p ps]; [done|].
  destruct (Ascii.eqb_spec a c) as [->|]; simpl.
  - destruct ps; simpl in *; by rewrite <-IH.
  - destruct ps; simpl in *; by rewrite <-IH.
Qed.

Lemma split_at_pieces c l : Forall (λ p, c ∉ p) (split_at c l).
Proof.
  induction l as [|a l IH]; simpl.
  - constructor; [by intros ?%not_elem_of_nil|constructor].
  - destruct (Ascii.eqb_spec a c) as [->|Hne].
    + constructor; [by intros ?%not_elem_of_nil|done].
    + destruct (split_at c l) as [|p ps]; apply Forall_cons in IH || clear IH.
      * constructor; [|done]. set_solver.
      * destruct IH as [Hp Hps]. constructor; [|done]. set_solver.
Qed.

Lemma split_at_none c p : c ∉ p → split_at c p = [p].
Proof.
  induction p as [|a p IH]; simpl; [done|]. intros [Hne Hp]%not_elem_of_cons.
  destruct (Ascii.eqb_spec a c) as [->|]; [done|]. by rewrite IH.
Qed.

Lemma split_at_cons c p l : c ∉ p → split_at c (p ++ c :: l) = p :: split_at c l.
Proof.
  induction p as [|a p IH]; simpl; intros Hp.
  - by rewrite Ascii.eqb_refl.
  - apply not_elem_of_cons in Hp as [Hne Hp].
    destruct (Ascii.eqb_spec a c) as [->|]; [done|]. by rewrite IH.
Qed.

Lemma split_join c ps : ps ≠ [] → Forall (λ p, c ∉ p) ps → split_at c (join_with c ps) = ps.
Proof.
  intros Hne Hps. induction Hps as [|p ps Hp Hps IH]; [done|]. destruct ps as [|q ps].
  - simpl. by apply split_at_none.
  - change (split_at c (p ++ c :: join_with c (q :: ps)) = p :: q :: ps).
    rewrite split_at_cons by done. by rewrite IH.
Qed.
End TextProps.
