(* ===== verification/Approval.v ===== *)
(** * Approval rules ([brenn-approval-rules/src/lib.rs])

    Which tool invocations run without asking the user. A Bash command line is cut at its
    shell operators by a quote-aware scanner and every piece must be matched by a rule;
    other tools are matched on their serialised input. The regular-expression engine and
    the JSON library are the classes [RegexLib] and [JsonLib]. *)

From S2P Require Import Prelude Text.
From Stdlib Require Import Ascii.

#[local] Open Scope list_scope.

(** [regex]: [RegexBuilder::new(p).size_limit(n).build()], [Regex::is_match] and
    [regex::escape]. *)
Class RegexLib := {
  Regex : Type;
  build : string → N → option Regex;
  is_match : Regex → string → bool;
  escape : string → string;
}.

(** [serde_json]: [Value::get], [Value::as_str], [to_string] and the macro call
    [json!({"command": c})], whose member reads back. *)
Class JsonLib := {
  Value : Type;
  get : Value → string → option Value;
  as_str : Value → option string;
  to_string : Value → string;
  json_command : string → Value;
  get_json_command c : (get (json_command c) "command" ≫= as_str) = Some c;
}.

Module Approval.
Import Text.

(** [ApprovalMatch]. *)
Inductive ApprovalMatch :=
| GlobalTool
| ConfigRule (pattern : string)
| AlwaysAllowRule (pattern : string)
| NoMatch.

(** [ApprovalMatch::is_approved]. *)
Definition is_approved (m : ApprovalMatch) : bool :=
  match m with
  | NoMatch => false
  | _ => true
  end.

(** [ApprovalMatch::description]. *)
Definition description (m : ApprovalMatch) : string :=
  match m with
  | GlobalTool => "global read-only tool"
  | ConfigRule _ => "config rule"
  | AlwaysAllowRule _ => "always-allow rule"
  | NoMatch => "no match"
  end.

Definition MAX_PATTERN_LEN : N := 512.
Definition REGEX_SIZE_LIMIT : N := 10000.

Definition MULTI_SUBCOMMAND_TOOLS : list string :=
  ["git"; "cargo"; "npm"; "npx"; "gh"; "docker"; "podman"; "make"; "kubectl"; "systemctl";
   "journalctl"; "apt"; "dnf"; "pip"; "uv"]%string.

Definition GLOBAL_AUTO_APPROVE_TOOLS : list string :=
  ["Read"; "Glob"; "Grep"; "ToolSearch"]%string.

(** [ApprovalRuleConfig]. *)
Record ApprovalRuleConfig := mkConfig { tool : string; cfg_pattern : string }.

(** ** The Bash splitter *)

(** [BashSplit]. *)
Inductive BashSplit :=
| Simple (cmd : bytes)
| Compound (cmds : list bytes)
| Unparseable.

(** The scanner's quoting state. *)
Inductive State := Unquoted | SingleQuoted | DoubleQuoted.

#[export] Instance State_eq_dec : EqDecision State.
Proof. solve_decision. Defined.

(** How one turn of the scanning loop ends. *)
Inductive Step :=
| Bail
| Next (state : State) (i : nat) (splits : list (nat * nat)).

(** [i + 1 < len && bytes[i + 1] == c]. *)
Definition next_is (b : bytes) (i : nat) (c : ascii) : bool :=
  match b !! (i + 1) with
  | Some d => Ascii.eqb d c
  | None => false
  end.

(** The escape arm: skip the escaped byte, give up on a trailing backslash. *)
Definition skip_escaped (b : bytes) (state : State) (i : nat) (splits : list (nat * nat)) : Step :=
  if Nat.leb (length b) (i + 1) then Bail else Next state (i + 2) splits.

(** The [State::Unquoted] arm. *)
Definition step_unquoted (b : bytes) (c : ascii) (i : nat) (splits : list (nat * nat)) : Step :=
  let go := Next Unquoted in
  if Ascii.eqb c "\" then skip_escaped b Unquoted i splits
  else if Ascii.eqb c "'" then Next SingleQuoted (i + 1) splits
  else if Ascii.eqb c (chr 34) then Next DoubleQuoted (i + 1) splits
  else if Ascii.eqb c "`" || Ascii.eqb c "(" || Ascii.eqb c ")" then Bail
  else if Ascii.eqb c "$" && next_is b i "(" then Bail
  else if Ascii.eqb c "<" && (next_is b i "<" || next_is b i "(") then Bail
  else if Ascii.eqb c "<" && next_is b i "&" then go (i + 2) splits
  else if Ascii.eqb c ">" && next_is b i "(" then Bail
  else if Ascii.eqb c ">" && next_is b i "&" then go (i + 2) splits
  else if Ascii.eqb c ">" && next_is b i "|" then go (i + 2) splits
  else if Ascii.eqb c "&" && next_is b i "&" then go (i + 2) (splits ++ [(i + 2, 2)])
  else if Ascii.eqb c "&" && next_is b i ">" then go (i + 1) splits
  else if Ascii.eqb c "&" then go (i + 1) (splits ++ [(i + 1, 1)])
  else if Ascii.eqb c "|" && next_is b i "|" then go (i + 2) (splits ++ [(i + 2, 2)])
  else if Ascii.eqb c "|" && next_is b i "&" then go (i + 2) (splits ++ [(i + 2, 2)])
  else if Ascii.eqb c "|" then go (i + 1) (splits ++ [(i + 1, 1)])
  else if Ascii.eqb c ";" || Ascii.eqb c (chr 10) then go (i + 1) (splits ++ [(i + 1, 1)])
  else go (i + 1) splits.

(** The [State::SingleQuoted] arm. *)
Definition step_single (c : ascii) (i : nat) (splits : list (nat * nat)) : Step :=
  Next (if Ascii.eqb c "'" then Unquoted else SingleQuoted) (i + 1) splits.

(** The [State::DoubleQuoted] arm. *)
Definition step_double (b : bytes) (c : ascii) (i : nat) (splits : list (nat * nat)) : Step :=
  if Ascii.eqb c "\" then skip_escaped b DoubleQuoted i splits
  else if Ascii.eqb c (chr 34) then Next Unquoted (i + 1) splits
  else if Ascii.eqb c "`" then Bail
  else if Ascii.eqb c "$" && next_is b i "(" then Bail
  else Next DoubleQuoted (i + 1) splits.

(** One turn of the loop body at the byte [c = bytes[i]]. *)
Definition scan_step (b : bytes) (c : ascii) (state : State) (i : nat) (splits : list (nat * nat)) : Step :=
  match state with
  | Unquoted => step_unquoted b c i splits
  | SingleQuoted => step_single c i splits
  | DoubleQuoted => step_double b c i splits
  end.

(** How the whole loop ends: the early return, the state and splits it leaves, or more
    turns than [fuel] allows. *)
Inductive Scan :=
| Bailed
| Scanned (state : State) (splits : list (nat * nat))
| Out_of_fuel.

(** [while i < len { .. }], for at most [fuel] turns. *)
Fixpoint scan (fuel : nat) (b : bytes) (state : State) (i : nat) (splits : list (nat * nat)) : Scan :=
  match b !! i with
  | None => Scanned state splits
  | Some c =>
      match fuel with
      | O => Out_of_fuel
      | S fuel =>
          match scan_step b c state i splits with
          | Bail => Bailed
          | Next state i splits => scan fuel b state i splits
          end
      end
  end.

(** The sub-command extraction loop. [next_start - next_op_len] on [usize]. *)
Fixpoint extract (b : bytes) (splits : list (nat * nat)) : panics (list bytes) :=
  match splits with
  | [] => Returns []
  | (start, _) :: rest =>
      stop ← (match rest with
              | (next_start, next_op_len) :: _ =>
                  _ ← rust_assert (Nat.leb next_op_len next_start) "attempt to subtract with overflow";
                  Returns (next_start - next_op_len)
              | [] => Returns (length b)
              end);
      piece ← slice b start stop;
      cmds ← extract b rest;
      Returns (match trim piece with [] => cmds | subcmd => subcmd :: cmds end)
  end.

(** [split_bash_command]. One turn of the loop per byte is enough fuel
    ([split_bash_command_terminates]). *)
Definition split_bash_command (command : bytes) : panics BashSplit :=
  match scan (length command) command Unquoted 0 [(0, 0)] with
  | Out_of_fuel => Panics "the scan does not terminate"
  | Bailed => Returns Unparseable
  | Scanned state splits =>
      if negb (bool_decide (state = Unquoted)) then Returns Unparseable
      else if Nat.eqb (length splits) 1 then Returns (Simple (trim command))
      else
        cmds ← extract command splits;
        Returns (match cmds with
                 | [] => Unparseable
                 | [cmd] => Simple cmd
                 | _ => Compound cmds
                 end)
  end.

(** ** Rules *)

Section Rules.
Context `{RegexLib} `{JsonLib}.

(** [CompiledRule]. *)
Record CompiledRule := mkRule {
  tool_name : string;
  pattern_src : string;
  regex : Regex;
}.

(** What [CompiledRule::compile] refuses. *)
Inductive CompileError :=
| TooLong (bytes : N)
| InvalidRegex.

(** [format!("^(?:{pattern})$")]. *)
Definition anchored (pattern : string) : string := "^(?:" +:+ pattern +:+ ")$".

(** [CompiledRule::compile]. *)
Definition compile (name pattern : string) : result CompiledRule CompileError :=
  if (MAX_PATTERN_LEN <? N.of_nat (String.length pattern))%N
  then Err (TooLong (N.of_nat (String.length pattern)))
  else match build (anchored pattern) REGEX_SIZE_LIMIT with
       | Some r => Ok (mkRule name pattern r)
       | None => Err InvalidRegex
       end.

(** [tool_input.get("command").and_then(|v| v.as_str())]. *)
Definition command_of (input : Value) : option string := get input "command" ≫= as_str.

(** [extract_match_string]. *)
Definition extract_match_string (name : string) (input : Value) : string :=
  match (if String.eqb name "Bash" then command_of input else None) with
  | Some cmd => cmd
  | None => to_string input
  end.

(** [CompiledRule::matches]. *)
Definition rule_matches (rule : CompiledRule) (name : string) (input : Value) : bool :=
  if negb (String.eqb (tool_name rule) name) then false
  else is_match (regex rule) (extract_match_string name input).

(** [ApprovalRuleSet]. *)
Record ApprovalRuleSet := mkRuleSet {
  global_tools : gset string;
  static_rules : list CompiledRule;
  dynamic_rules : list CompiledRule;
}.

(** The [filter_map] of [ApprovalRuleSet::new]: a rule that does not compile is skipped. *)
Definition compile_all (rules : list (string * string)) : list CompiledRule :=
  omap (λ '(name, pattern), match compile name pattern with Ok r => Some r | Err _ => None end) rules.

(** [ApprovalRuleSet::new]. *)
Definition new (global_extra : list string) (static_configs : list ApprovalRuleConfig)
    (db_rules : list (string * string)) : ApprovalRuleSet :=
  mkRuleSet (list_to_set GLOBAL_AUTO_APPROVE_TOOLS ∪ list_to_set global_extra)
    (compile_all ((λ cfg, (tool cfg, cfg_pattern cfg)) <$> static_configs))
    (compile_all db_rules).

(** [ApprovalRuleSet::check_single]. *)
Definition check_single (rs : ApprovalRuleSet) (name : string) (input : Value) : ApprovalMatch :=
  match list_find (λ r, rule_matches r name input = true) (static_rules rs) with
  | Some (_, r) => ConfigRule (pattern_src r)
  | None =>
      match list_find (λ r, rule_matches r name input = true) (dynamic_rules rs) with
      | Some (_, r) => AlwaysAllowRule (pattern_src r)
      | None => NoMatch
      end
  end.

(** The loop of [ApprovalRuleSet::check] over a compound command. *)
Fixpoint check_cmds (rs : ApprovalRuleSet) (name : string) (i : nat) (first_match : ApprovalMatch)
    (cmds : list bytes) : ApprovalMatch :=
  match cmds with
  | [] => first_match
  | cmd :: cmds =>
      let m := check_single rs name (json_command (unstr cmd)) in
      if negb (is_approved m) then NoMatch
      else check_cmds rs name (S i) (if Nat.eqb i 0 then m else first_match) cmds
  end.

(** [ApprovalRuleSet::check]. *)
Definition check (rs : ApprovalRuleSet) (name : string) (input : Value) : panics ApprovalMatch :=
  if bool_decide (name ∈ global_tools rs) then Returns GlobalTool
  else match (if String.eqb name "Bash" then command_of input else None) with
  | Some command =>
      split ← split_bash_command (str command);
      Returns (match split with
               | Simple cmd => check_single rs name (json_command (unstr cmd))
               | Compound cmds => check_cmds rs name 0 NoMatch cmds
               | Unparseable => NoMatch
               end)
  | None => Returns (check_single rs name input)
  end.

(** [ApprovalRuleSet::matches]. *)
Definition matches (rs : ApprovalRuleSet) (name : string) (input : Value) : panics bool :=
  is_approved <$> check rs name input.

(** [ApprovalRuleSet::add_dynamic]. *)
Definition add_dynamic (rs : ApprovalRuleSet) (rule : CompiledRule) : ApprovalRuleSet :=
  mkRuleSet (global_tools rs) (static_rules rs) (dynamic_rules rs ++ [rule]).

(** [simple_command_pattern]. *)
Definition simple_command_pattern (command : bytes) : string :=
  match split_whitespace command with
  | [] => ".*"
  | program :: rest =>
      match (if bool_decide (unstr program ∈ MULTI_SUBCOMMAND_TOOLS) then head rest else None) with
      | Some subcommand => escape (unstr program) +:+ " " +:+ escape (unstr subcommand) +:+ "\b.*"
      | None => escape (unstr program) +:+ "\b.*"
      end
  end.

(** [default_patterns]. *)
Definition default_patterns (name : string) (input : Value) : panics (list string) :=
  if negb (String.eqb name "Bash") then Returns [".*"%string]
  else match command_of input with
  | None => Returns [".*"%string]
  | Some command =>
      split ← split_bash_command (str command);
      Returns (match split with
               | Simple cmd => [simple_command_pattern cmd]
               | Compound cmds => simple_command_pattern <$> cmds
               | Unparseable => [escape command]
               end)
  end.
End Rules.

(** [ApprovalRuleRow]. *)
Record ApprovalRuleRow := mkRow {
  id : Z;
  app_slug : string;
  conversation_id : option Z;
  row_tool_name : string;
  pattern : string;
}.
End Approval.

(** ** The specification of the splitter

    [lex] reads a command line left to right as tokens of one or two bytes, each either
    kept in the piece being read or an operator that ends it. It has no positions: a
    reading is the first piece and the operator and piece pairs after it. *)
Module Lexing.
Import Text Approval.

(** A token keeps its bytes, moving to a quoting state, or is an operator; [two] says
    that it takes the following byte as well. *)
Inductive token :=
| Keep (state : State) (two : bool)
| Operator (two : bool).

Definition operators : list bytes :=
  str <$> ["&&"; "||"; "|&"; "&"; "|"; ";"; String (chr 10) EmptyString]%string.

Definition is_byte (d : option ascii) (c : ascii) : bool :=
  match d with Some d => Ascii.eqb d c | None => false end.

(** The token a plain byte starts, by the byte after it. *)
Definition token_unquoted (c : ascii) (d : option ascii) : option token :=
  if Ascii.eqb c "\" then match d with Some _ => Some (Keep Unquoted true) | None => None end
  else if Ascii.eqb c "'" then Some (Keep SingleQuoted false)
  else if Ascii.eqb c (chr 34) then Some (Keep DoubleQuoted false)
  else if Ascii.eqb c "`" || Ascii.eqb c "(" || Ascii.eqb c ")" then None
  else if Ascii.eqb c "$" then if is_byte d "(" then None else Some (Keep Unquoted false)
  else if Ascii.eqb c "<" then
    if is_byte d "<" || is_byte d "(" then None else Some (Keep Unquoted (is_byte d "&"))
  else if Ascii.eqb c ">" then
    if is_byte d "(" then None else Some (Keep Unquoted (is_byte d "&" || is_byte d "|"))
  else if Ascii.eqb c "&" then
    if is_byte d ">" then Some (Keep Unquoted false) else Some (Operator (is_byte d "&"))
  else if Ascii.eqb c "|" then Some (Operator (is_byte d "|" || is_byte d "&"))
  else if Ascii.eqb c ";" || Ascii.eqb c (chr 10) then Some (Operator false)
  else Some (Keep Unquoted false).

Definition token_double (c : ascii) (d : option ascii) : option token :=
  if Ascii.eqb c "\" then match d with Some _ => Some (Keep DoubleQuoted true) | None => None end
  else if Ascii.eqb c (chr 34) then Some (Keep Unquoted false)
  else if Ascii.eqb c "`" then None
  else if Ascii.eqb c "$" && is_byte d "(" then None
  else Some (Keep DoubleQuoted false).

Definition token_at (st : State) (c : ascii) (d : option ascii) : option token :=
  match st with
  | Unquoted => token_unquoted c d
  | SingleQuoted => Some (Keep (if Ascii.eqb c "'" then Unquoted else SingleQuoted) false)
  | DoubleQuoted => token_double c d
  end.

(** A reading: the first piece, then each operator with the piece after it. *)
Abbreviation reading := (bytes * list (bytes * bytes))%type.

Definition kept (cs : bytes) (r : reading) : reading := (cs ++ r.1, r.2).
Definition cut (op : bytes) (r : reading) : reading := ([], (op, r.1) :: r.2).

Definition put_token (t : token) (cs : bytes) (r : reading) : reading :=
  match t with
  | Keep _ _ => kept cs r
  | Operator _ => cut cs r
  end.

Definition token_two (t : token) : bool :=
  match t with Keep _ two => two | Operator two => two end.
Definition token_state (t : token) : State :=
  match t with Keep st _ => st | Operator _ => Unquoted end.

Fixpoint lex (st : State) (b : bytes) : option reading :=
  match b with
  | [] => if decide (st = Unquoted) then Some ([], []) else None
  | c :: b1 =>
      match token_at st c (head b1) with
      | None => None
      | Some t =>
          if token_two t then
            match b1 with
            | d :: b2 => put_token t [c; d] <$> lex (token_state t) b2
            | [] => None
            end
          else put_token t [c] <$> lex (token_state t) b1
      end
  end.

(** The sub-commands of a reading: the trimmed pieces, blank ones dropped when there is
    an operator. *)
Definition nonblank (ps : list bytes) : list bytes := filter (λ p, p ≠ []) (trim <$> ps).
Definition pieces (r : reading) : list bytes := r.1 :: (snd <$> r.2).
Definition subcommands (r : reading) : list bytes :=
  match r.2 with
  | [] => [trim r.1]
  | _ => nonblank (pieces r)
  end.

Definition classify (r : option reading) : BashSplit :=
  match subcommands <$> r with
  | Some [cmd] => Simple cmd
  | Some (cmd :: cmds) => Compound (cmd :: cmds)
  | _ => Unparseable
  end.

(** The text of a reading. *)
Definition text (r : reading) : bytes := r.1 ++ concat ((λ '(op, p), op ++ p) <$> r.2).

(** Where the operators of a reading end, counted from [i], with their lengths. *)
Fixpoint marks (i : nat) (p : bytes) (rest : list (bytes * bytes)) : list (nat * nat) :=
  match rest with
  | [] => []
  | (op, q) :: rest =>
      let j := i + length p + length op in
      (j, length op) :: marks j q rest
  end.
End Lexing.

Module LexingProps.
Import Text TextProps Approval Lexing.

(** Case on what a byte is compared with, as far as the comparisons matter. *)
Ltac by_byte c :=
  repeat match goal with
  | |- context [Ascii.eqb c ?x] => destruct (Ascii.eqb_spec c x) as [->|]; simpl
  end.

Ltac list_member :=
  repeat first [apply list_elem_of_here | apply list_elem_of_further].

(** *** Tokens *)

Definition width (t : token) : nat := if token_two t then 2 else 1.

Lemma scan_step_token b c st i s :
  scan_step b c st i s =
  match token_at st c (b !! (i + 1)) with
  | None => Bail
  | Some t =>
      Next (token_state t) (i + width t)
        (s ++ match t with Operator _ => [(i + width t, width t)] | Keep _ _ => [] end)
  end.
Proof.
  assert (Hskip : ∀ st', skip_escaped b st' i s =
    match b !! (i + 1) with Some _ => Next st' (i + 2) s | None => Bail end).
  { intros st'. unfold skip_escaped. destruct (b !! (i + 1)) eqn:Hb.
    - apply lookup_lt_Some in Hb. destruct (Nat.leb_spec (length b) (i + 1)); [lia|done].
    - apply lookup_ge_None in Hb. destruct (Nat.leb_spec (length b) (i + 1)); [done|lia]. }
  destruct st; simpl.
  - unfold step_unquoted, token_unquoted, next_is, is_byte. rewrite Hskip.
    destruct (b !! (i + 1)) as [d|]; by_byte c; try (by_byte d); by rewrite ?app_nil_r.
  - unfold step_single. by rewrite app_nil_r.
  - unfold step_double, token_double, next_is, is_byte. rewrite Hskip.
    destruct (b !! (i + 1)) as [d|]; by_byte c; try (by_byte d); by rewrite ?app_nil_r.
Qed.

Lemma token_two_next st c t : token_at st c None = Some t → token_two t = false.
Proof.
  destruct st; simpl; unfold token_unquoted, token_double; simpl;
    intros; repeat (case_match; simplify_eq/=; try done).
Qed.

(** The reading after a token. *)
Lemma lex_cons st c b t r :
  token_at st c (head b) = Some t →
  lex st (c :: b) = Some r ↔
  ∃ r', lex (token_state t) (drop (width t) (c :: b)) = Some r' ∧
        r = put_token t (take (width t) (c :: b)) r'.
Proof.
  intros Ht. cbn [lex]. rewrite Ht. unfold width. destruct (token_two t) eqn:H2.
  - destruct b as [|d b]; [apply token_two_next in Ht; congruence|].
    rewrite fmap_Some. cbn [drop take]. naive_solver.
  - rewrite fmap_Some. cbn [drop take]. naive_solver.
Qed.

Lemma lex_none st c b : token_at st c (head b) = None → lex st (c :: b) = None.
Proof. intros Ht. cbn [lex]. by rewrite Ht. Qed.

Lemma lex_ind (P : State → bytes → Prop) :
  (∀ st, P st []) →
  (∀ st c b, token_at st c (head b) = None → P st (c :: b)) →
  (∀ st c b t, token_at st c (head b) = Some t →
     P (token_state t) (drop (width t) (c :: b)) → P st (c :: b)) →
  ∀ st b, P st b.
Proof.
  intros Hnil Hbad Hstep st b. remember (length b) as n eqn:Hn. revert st b Hn.
  induction (Nat.lt_wf_0 n) as [n _ IH]. intros st [|c b] ->; [done|].
  destruct (token_at st c (head b)) as [t|] eqn:Ht; [|by apply Hbad].
  eapply Hstep; [exact Ht|]. eapply IH; [|done].
  rewrite length_drop. unfold width. simpl. destruct (token_two t); lia.
Qed.

Lemma head_drop (b : bytes) i c : b !! i = Some c → head (drop (S i) b) = b !! (i + 1).
Proof. intros _. replace (i + 1) with (S i + 0) by lia. rewrite <-lookup_drop. by destruct (drop (S i) b). Qed.

Lemma width_pos t : 1 ≤ width t ≤ 2.
Proof. unfold width. destruct (token_two t); lia. Qed.

(** A token never runs past the end. *)
Lemma token_width_fits st c (b : bytes) t :
  token_at st c (head b) = Some t → width t ≤ length (c :: b).
Proof.
  intros Ht. unfold width. destruct (token_two t) eqn:H2; [|simpl; lia].
  destruct b; [apply token_two_next in Ht; congruence|simpl; lia].
Qed.

(** *** The scan follows the reading *)

Lemma scan_follows fuel b st i s :
  length b - i ≤ fuel →
  match lex st (drop i b) with
  | Some r => scan fuel b st i s = Scanned Unquoted (s ++ marks i r.1 r.2)
  | None => scan fuel b st i s = Bailed ∨
            ∃ st' s', st' ≠ Unquoted ∧ scan fuel b st i s = Scanned st' s'
  end.
Proof.
  revert st i s. induction fuel as [|fuel IH]; intros st i s Hf.
  - rewrite drop_ge by lia. assert (b !! i = None) as Hb by (apply lookup_ge_None; lia). simpl.
    rewrite Hb. destruct (decide (st = Unquoted)) as [->|]; [by rewrite app_nil_r|]. eauto.
  - destruct (b !! i) as [c|] eqn:Hb.
    2:{ simpl. rewrite Hb. apply lookup_ge_None in Hb. rewrite drop_ge by lia. simpl.
        destruct (decide (st = Unquoted)) as [->|]; [by rewrite app_nil_r|]. eauto. }
    cbn [scan]. rewrite Hb, scan_step_token, <-(head_drop _ _ _ Hb).
    rewrite (drop_S _ _ _ Hb). pose proof (lookup_lt_Some _ _ _ Hb).
    destruct (token_at st c (head (drop (S i) b))) as [t|] eqn:Ht.
    2:{ rewrite lex_none by done. by left. }
    pose proof (width_pos t).
    specialize (IH (token_state t) (i + width t)
      (s ++ match t with Operator _ => [(i + width t, width t)] | Keep _ _ => [] end) ltac:(lia)).
    destruct (lex st (c :: drop (S i) b)) as [r|] eqn:Hl.
    + apply (lex_cons _ _ _ _ _ Ht) in Hl as (r'&Hr'&->).
      rewrite <-(drop_S _ _ _ Hb), drop_drop in Hr'. rewrite Hr' in IH. rewrite IH. f_equal.
      assert (length (take (width t) (drop i b)) = width t) as Hw.
      { rewrite length_take. pose proof (token_width_fits _ _ _ _ Ht) as Hfit.
        rewrite <-(drop_S _ _ _ Hb) in Hfit. lia. }
      rewrite <-(drop_S _ _ _ Hb). destruct t; cbn [put_token kept cut fst snd marks]; cbn [token_state] in *.
      * rewrite app_nil_r. f_equal. destruct r'.2 as [|[op q] rest]; simpl; [done|].
        rewrite length_app, Hw. by replace (i + width (Keep state two) + length r'.1)
          with (i + (width (Keep state two) + length r'.1)) by lia.
      * rewrite <-app_assoc, Hw. simpl. by rewrite Nat.add_0_r.
    + destruct (lex (token_state t) (drop (i + width t) b)) as [r|] eqn:Hr; [|done].
      exfalso. rewrite <-drop_drop, (drop_S _ _ _ Hb) in Hr.
      assert (lex st (c :: drop (S i) b) = Some (put_token t (take (width t) (c :: drop (S i) b)) r)) as Hx
        by (apply (lex_cons _ _ _ _ _ Ht); eauto).
      congruence.
Qed.

(** *** Readings *)

Lemma text_put t cs r : text (put_token t cs r) = cs ++ text r.
Proof. destruct t; unfold text; simpl; by rewrite <-?app_assoc. Qed.

(** A reading loses no byte. *)
Lemma lex_text st b r : lex st b = Some r → text r = b.
Proof.
  revert st b r. apply (lex_ind (λ st b, ∀ r, lex st b = Some r → text r = b));
    [intros st r Hl|intros st c b Ht r Hl|intros st c b t Ht IH r Hl].
  - simpl in Hl. case_decide; by simplify_eq.
  - rewrite lex_none in Hl by done. done.
  - apply (lex_cons _ _ _ _ _ Ht) in Hl as (r'&Hr'&->).
    rewrite text_put, (IH _ Hr'). apply take_drop.
Qed.

Lemma operator_bytes st c b two :
  token_at st c (head b) = Some (Operator two) →
  take (width (Operator two)) (c :: b) ∈ operators ∧
  (c = "&" ∨ c = "|" ∨ c = ";" ∨ c = chr 10)%char.
Proof.
  intros Ht. destruct st; [|done|].
  2:{ simpl in Ht. unfold token_double in Ht. repeat (case_match; simplify_eq/=). }
  simpl in Ht. unfold token_unquoted in Ht.
  repeat match type of Ht with
  | context [Ascii.eqb c ?x] => destruct (Ascii.eqb_spec c x) as [->|]; simpl in Ht
  end; try (by repeat (case_match; simplify_eq/=)).
  - destruct b as [|d b]; simpl in Ht; [|destruct (Ascii.eqb_spec d ">"); [done|];
      destruct (Ascii.eqb_spec d "&") as [->|]]; injection Ht as <-; (split; [|tauto]); simpl; list_member.
  - destruct b as [|d b]; simpl in Ht; [|destruct (Ascii.eqb_spec d "|") as [->|];
      [|destruct (Ascii.eqb_spec d "&") as [->|]]]; injection Ht as <-; (split; [|tauto]); simpl; list_member.
  - injection Ht as <-. split; [|tauto]. simpl; list_member.
  - injection Ht as <-. split; [|tauto]. simpl; list_member.
Qed.

Lemma lex_operators st b r : lex st b = Some r → Forall (λ x, x.1 ∈ operators) r.2.
Proof.
  revert st b r.
  apply (lex_ind (λ st b, ∀ r, lex st b = Some r → Forall (λ x, x.1 ∈ operators) r.2));
    [intros st r Hl|intros st c b Ht r Hl|intros st c b t Ht IH r Hl].
  - simpl in Hl. case_decide; by simplify_eq.
  - rewrite lex_none in Hl by done. done.
  - apply (lex_cons _ _ _ _ _ Ht) in Hl as (r'&Hr'&->). specialize (IH _ Hr').
    destruct t as [st' two|two]; cbn [put_token kept cut snd]; [done|].
    constructor; [|done]. by destruct (operator_bytes _ _ _ _ Ht).
Qed.

(** *** A piece read on its own *)

Definition op_head (d : ascii) : Prop := (d = "&" ∨ d = "|" ∨ d = ";" ∨ d = chr 10)%char.

(** A reading with an empty first piece is empty or starts at an operator. *)
Lemma lex_empty_piece st b r :
  lex st b = Some r → r.1 = [] → b = [] ∨ ∃ d b', b = d :: b' ∧ op_head d.
Proof.
  intros Hl Hr. destruct b as [|c b]; [by left|]. right. exists c, b. split; [done|].
  destruct (token_at st c (head b)) as [t|] eqn:Ht; [|by rewrite lex_none in Hl].
  apply (lex_cons _ _ _ _ _ Ht) in Hl as (r'&_&->). destruct t as [st' two|two].
  - exfalso. pose proof (width_pos (Keep st' two)). simpl in Hr.
    destruct (width (Keep st' two)); [lia|done].
  - by destruct (operator_bytes _ _ _ _ Ht).
Qed.

(** A kept byte before an operator is kept at the end of the text too. *)
Lemma token_before_operator st c d st' :
  op_head d → token_at st c (Some d) = Some (Keep st' false) →
  token_at st c None = Some (Keep st' false).
Proof.
  intros Hd. destruct st; simpl; unfold token_unquoted, token_double;
    destruct Hd as [->|[->|[->| ->]]]; by_byte c; try done; simpl; congruence.
Qed.

Lemma token_kept_local st c (b p : bytes) rest t :
  token_at st c (head b) = Some t → token_two t = false → (∃ st', t = Keep st' false) →
  (p = [] → b = [] ∨ ∃ d b', b = d :: b' ∧ op_head d) → b = p ++ rest →
  token_at st c (head p) = Some t.
Proof.
  intros Ht _ [st' ->] Hp ->. destruct p as [|x p]; [|done].
  destruct (Hp eq_refl) as [Hb|(d&b'&Hb&Hd)]; simpl in *.
  - by rewrite Hb in Ht.
  - rewrite Hb in Ht. by eapply token_before_operator.
Qed.

Lemma lex_piece_cons st c (b : bytes) t r :
  token_at st c (head b) = Some t → (∃ st' two, t = Keep st' two) →
  lex (token_state t) (drop (width t) (c :: b)) = Some r →
  lex (token_state t) r.1 = Some (r.1, []) →
  lex st (take (width t) (c :: b) ++ r.1) = Some (take (width t) (c :: b) ++ r.1, []).
Proof.
  intros Ht (st'&two&->) Hl Hr. pose proof (lex_text _ _ _ Hl) as Htext.
  unfold width in *. cbn [token_two token_state] in *. destruct two.
  - destruct b as [|d b]; [by apply token_two_next in Ht|]. rewrite ?take_0, ?drop_0 in *. cbn [take drop app] in *.
    apply (lex_cons st c (d :: r.1) _ _ Ht). by exists (r.1, []).
  - cbn [take drop app] in *.
    assert (token_at st c (head r.1) = Some (Keep st' false)) as Ht'.
    { eapply (token_kept_local st c b r.1); eauto using lex_empty_piece. }
    apply (lex_cons _ _ _ _ _ Ht'). exists (r.1, []). split; [done|]. by destruct r.1.
Qed.

(** Every piece of a reading reads, alone, as one piece: no operator is left in it. *)
Lemma lex_pieces st b r :
  lex st b = Some r →
  lex st r.1 = Some (r.1, []) ∧ Forall (λ x, lex Unquoted x.2 = Some (x.2, [])) r.2.
Proof.
  revert st b r. apply (lex_ind (λ st b, ∀ r, lex st b = Some r →
    lex st r.1 = Some (r.1, []) ∧ Forall (λ x, lex Unquoted x.2 = Some (x.2, [])) r.2));
    [intros st r Hl|intros st c b Ht r Hl|intros st c b t Ht IH r Hl].
  - simpl in Hl. case_decide as Hst; simplify_eq. done.
  - by rewrite lex_none in Hl.
  - apply (lex_cons _ _ _ _ _ Ht) in Hl as (r'&Hr'&->). destruct (IH _ Hr') as [Hp Hrest].
    destruct t as [st' two|two]; cbn [put_token kept cut fst snd].
    + split; [|done]. eapply lex_piece_cons; eauto.
    + split; [|by constructor]. assert (st = Unquoted) as ->; [|done].
      destruct st; [done|done|]. simpl in Ht. unfold token_double in Ht.
      repeat (case_match; simplify_eq/=).
Qed.

(** *** Extraction *)

Lemma operator_ascii op : op ∈ operators → op ≠ [] ∧ Forall (λ c, is_ascii c = true) op.
Proof.
  assert (Forall (λ op, op ≠ [] ∧ Forall (λ c, is_ascii c = true) op) operators) as Hf.
  { repeat (constructor; [split; [done|by repeat constructor]|]). constructor. }
  rewrite Forall_forall in Hf. apply Hf.
Qed.

Lemma boundary_at (l r : bytes) :
  match r with d :: _ => is_cont d = false | [] => True end → is_char_boundary (l ++ r) (length l) = true.
Proof.
  intros Hr. unfold is_char_boundary. rewrite length_app. destruct r as [|d r].
  - simpl. rewrite Nat.add_0_r, Nat.eqb_refl. by rewrite orb_true_r.
  - rewrite lookup_app_r by lia. rewrite Nat.sub_diag. simpl. rewrite Hr. by rewrite orb_true_r.
Qed.

(** After an operator, a boundary. *)
Lemma boundary_after_op l op r :
  utf8_shaped (l ++ op ++ r) = true → op ∈ operators →
  is_char_boundary (l ++ op ++ r) (length (l ++ op)) = true.
Proof.
  intros Hu [Hne Hop]%operator_ascii. rewrite app_assoc. apply boundary_at.
  destruct op as [|c op] using rev_ind; [done|]. clear IHop.
  apply Forall_app in Hop as [_ Hc]. apply Forall_cons in Hc as [Hc _].
  rewrite <-app_assoc, app_assoc in Hu. simpl in Hu. by eapply shaped_after_ascii.
Qed.

Lemma slice_middle (l p r : bytes) :
  is_char_boundary (l ++ p ++ r) (length l) = true →
  is_char_boundary (l ++ p ++ r) (length (l ++ p)) = true →
  slice (l ++ p ++ r) (length l) (length (l ++ p)) = Returns p.
Proof.
  intros H1 H2. unfold slice. rewrite H1, H2, !length_app.
  destruct (Nat.leb_spec (length l) (length l + length p)); [|lia].
  destruct (Nat.leb_spec (length l + length p) (length l + (length p + length r))); [|lia].
  simpl. rewrite drop_app_length.
  replace (length l + length p - length l) with (length p) by lia. by rewrite take_app_length.
Qed.

Lemma filter_trim_cons (p : bytes) ps :
  nonblank (p :: ps) = match trim p with [] => nonblank ps | c :: q => (c :: q) :: nonblank ps end.
Proof.
  unfold nonblank. simpl. rewrite filter_cons. by destruct (trim p).
Qed.

Lemma op_boundary (l op r : bytes) :
  op ∈ operators → is_char_boundary (l ++ op ++ r) (length l) = true.
Proof.
  intros [Hne Hop]%operator_ascii. apply boundary_at. destruct op as [|c op]; [done|].
  apply Forall_cons in Hop as [Hc _]. by apply ascii_not_cont.
Qed.

Lemma slice_middle_end (l p : bytes) :
  is_char_boundary (l ++ p) (length l) = true →
  slice (l ++ p) (length l) (length (l ++ p)) = Returns p.
Proof.
  intros H1. rewrite <-(app_nil_r p) in H1 |- * at 1. apply slice_middle; [done|].
  rewrite app_assoc. by apply (boundary_at (l ++ p) []).
Qed.

Lemma text_nil p : text (p, []) = p.
Proof. apply app_nil_r. Qed.

Lemma text_cons p op q rest : text (p, (op, q) :: rest) = p ++ op ++ text (q, rest).
Proof. unfold text. simpl. by rewrite <-app_assoc. Qed.

Lemma extract_cons b start k ns nl rest p :
  nl ≤ ns → slice b start (ns - nl) = Returns p →
  extract b ((start, k) :: (ns, nl) :: rest) =
  (cmds ← extract b ((ns, nl) :: rest);
   Returns (match trim p with [] => cmds | subcmd => subcmd :: cmds end)).
Proof.
  intros Hle Hs. cbn [extract]. destruct (Nat.leb_spec nl ns); [|lia].
  cbn [rust_assert mbind panics_bind]. by rewrite Hs.
Qed.

(** The extraction cuts the text back into the pieces of the reading. *)
Lemma extract_pieces rest : ∀ l p k,
  Forall (λ x, x.1 ∈ operators) rest → utf8_shaped (l ++ text (p, rest)) = true →
  is_char_boundary (l ++ text (p, rest)) (length l) = true →
  extract (l ++ text (p, rest)) ((length l, k) :: marks (length l) p rest) =
  Returns (nonblank (pieces (p, rest))).
Proof.
  induction rest as [|[op q] rest IH]; intros l p k Hops Hu Hb.
  - rewrite text_nil in *. cbn [extract marks mbind panics_bind].
    rewrite slice_middle_end by done.
    cbn [mbind panics_bind]. unfold pieces. cbn [fst snd fmap list_fmap].
    rewrite filter_trim_cons. by destruct (trim p).
  - apply Forall_cons in Hops as [Hop Hops]. cbn [fst] in Hop.
    rewrite text_cons in *. set (r := text (q, rest)) in *.
    cbn [marks]. rewrite (extract_cons _ _ _ _ _ _ p); [|lia|].
    2:{ replace (length l + length p + length op - length op) with (length (l ++ p))
          by (rewrite length_app; lia).
        apply slice_middle; [done|]. rewrite app_assoc. by apply op_boundary. }
    replace (length l + length p + length op) with (length ((l ++ p) ++ op))
      by (rewrite !length_app; lia).
    replace (l ++ p ++ op ++ r) with (((l ++ p) ++ op) ++ r) in * by by rewrite <-!app_assoc.
    unfold r in *. rewrite IH; [|done|done|].
    + unfold pieces. cbn [fst snd fmap list_fmap]. rewrite (filter_trim_cons p). by destruct (trim p).
    + rewrite <-app_assoc. apply boundary_after_op; [|done]. by rewrite app_assoc.
Qed.
End LexingProps.

Module ApprovalProps.
Import Text TextProps Approval Lexing LexingProps.

Lemma split_is_classify command :
  utf8_shaped command = true → split_bash_command command = Returns (classify (lex Unquoted command)).
Proof.
  intros Hu. unfold split_bash_command.
  pose proof (scan_follows (length command) command Unquoted 0 [(0, 0)] ltac:(lia)) as Hs.
  rewrite drop_0 in Hs. destruct (lex Unquoted command) as [[p rest]|] eqn:Hl.
  - rewrite Hs. pose proof (lex_text _ _ _ Hl) as Ht. pose proof (lex_operators _ _ _ Hl) as Ho.
    cbn [fst snd app] in *. destruct rest as [|[op q] rest].
    + cbn [marks]. rewrite text_nil in Ht. by subst p.
    + rewrite bool_decide_true by done. cbn [negb length marks Nat.eqb].
      pose proof (extract_pieces _ [] p 0 Ho) as He. rewrite Ht in He. cbn [app length marks] in He.
      rewrite He by done. unfold classify. cbn [fmap option_fmap option_map subcommands snd].
      cbn [mbind panics_bind]. by destruct (nonblank _) as [|? [|??]].
  - destruct Hs as [->|(st'&s'&Hst&->)]; [done|].
    by rewrite bool_decide_false.
Qed.

Lemma scan_fuel b fuel : ∀ st i s n,
  length b - i ≤ fuel → scan (fuel + n) b st i s = scan fuel b st i s ∧ scan fuel b st i s ≠ Out_of_fuel.
Proof.
  induction fuel as [|fuel IH]; intros st i s n Hf.
  - assert (b !! i = None) as Hb by (apply lookup_ge_None; lia).
    destruct n; simpl; by rewrite Hb.
  - simpl. destruct (b !! i) as [c|]; [|done]. rewrite scan_step_token.
    destruct (token_at st c (b !! (i + 1))) as [t|]; [|done].
    pose proof (width_pos t). apply IH. lia.
Qed.

(** Whether a rule of the set covers a sub-command. *)
Section Covered.
Context `{RegexLib} `{JsonLib}.
Implicit Types (rs : ApprovalRuleSet).

Definition covers (r : CompiledRule) (cmd : bytes) : Prop :=
  tool_name r = "Bash"%string ∧ is_match (regex r) (unstr cmd) = true.

Definition covered rs (cmd : bytes) : Prop :=
  ∃ r, r ∈ static_rules rs ++ dynamic_rules rs ∧ covers r cmd.

Lemma rule_matches_bash r cmd :
  rule_matches r "Bash" (json_command (unstr cmd)) = true ↔ covers r cmd.
Proof.
  unfold rule_matches, covers, extract_match_string, command_of. simpl.
  rewrite get_json_command. destruct (String.eqb_spec (tool_name r) "Bash") as [->|]; simpl; naive_solver.
Qed.

Lemma check_single_approved rs name input :
  is_approved (check_single rs name input) = true ↔
  ∃ r, r ∈ static_rules rs ++ dynamic_rules rs ∧ rule_matches r name input = true.
Proof.
  unfold check_single. setoid_rewrite elem_of_app.
  destruct (list_find _ (static_rules rs)) as [[i r]|] eqn:Hs.
  - apply list_find_Some in Hs as (Hi&Hr&_). split; [intros _|done].
    exists r. split; [left; by eapply list_elem_of_lookup_2|done].
  - apply list_find_None in Hs. rewrite Forall_forall in Hs.
    destruct (list_find _ (dynamic_rules rs)) as [[i r]|] eqn:Hd.
    + apply list_find_Some in Hd as (Hi&Hr&_). split; [intros _|done].
      exists r. split; [right; by eapply list_elem_of_lookup_2|done].
    + apply list_find_None in Hd. rewrite Forall_forall in Hd.
      split; [done|]. intros (r&[Hr|Hr]&Hm); exfalso; naive_solver.
Qed.

Lemma check_single_covered rs cmd :
  is_approved (check_single rs "Bash" (json_command (unstr cmd))) = true ↔ covered rs cmd.
Proof. rewrite check_single_approved. unfold covered. by setoid_rewrite rule_matches_bash. Qed.

Lemma check_cmds_approved rs cmds : ∀ i m,
  is_approved (check_cmds rs "Bash" i m cmds) = true ↔
  Forall (covered rs) cmds ∧ ((i = 0 ∧ cmds ≠ []) ∨ is_approved m = true).
Proof.
  induction cmds as [|cmd cmds IH]; intros i m; cbn [check_cmds].
  - split; [by intros ?; split; [constructor|right]|by intros [_ [[_ ?]|?]]].
  - rewrite Forall_cons, <-(check_single_covered rs cmd).
    destruct (is_approved (check_single rs "Bash" (json_command (unstr cmd)))) eqn:Hm; simpl.
    + rewrite IH. destruct i; simpl; [rewrite Hm|]; naive_solver.
    + naive_solver.
Qed.

(** What an approved Bash invocation is. *)
Lemma check_bash_spec rs input command :
  "Bash"%string ∉ global_tools rs → command_of input = Some command →
  utf8_shaped (str command) = true →
  ∃ m, check rs "Bash" input = Returns m ∧
    (is_approved m = true ↔
     ∃ r, lex Unquoted (str command) = Some r ∧ subcommands r ≠ [] ∧ Forall (covered rs) (subcommands r)).
Proof.
  intros Hg Hc Hu. unfold check. rewrite bool_decide_false by done. simpl. rewrite Hc.
  rewrite split_is_classify by done. eexists. split; [done|]. unfold classify.
  destruct (lex Unquoted (str command)) as [r|]; simpl; [|split; [done|by intros (?&?&_)]].
  destruct (subcommands r) as [|c [|d cs]] eqn:Hr; simpl.
  - split; [done|]. intros (?&[= <-]&?&_). congruence.
  - rewrite check_single_covered. rewrite <-(Forall_singleton (covered rs)), <-Hr.
    split; [intros ?; exists r; by rewrite Hr in *|by intros (?&[= <-]&_&?)].
  - pose proof (check_cmds_approved rs (c :: d :: cs) 0 NoMatch) as Hx. cbn [check_cmds] in Hx.
    rewrite Hx, <-Hr. split; [intros [? _]; exists r; by rewrite Hr in *|].
    intros (?&[= <-]&?&?). split; [done|]. left. done.
Qed.

(** A rule that came through [compile]: bounded, and matched against the whole text. *)
Definition rule_wf (r : CompiledRule) : Prop :=
  (N.of_nat (String.length (pattern_src r)) ≤ MAX_PATTERN_LEN)%N ∧
  build (anchored (pattern_src r)) REGEX_SIZE_LIMIT = Some (regex r).

Definition rules_wf rs : Prop := Forall rule_wf (static_rules rs ++ dynamic_rules rs).

Lemma compile_wf name pattern r :
  compile name pattern = Ok r → rule_wf r ∧ tool_name r = name ∧ pattern_src r = pattern.
Proof.
  unfold compile, rule_wf. case_bool; [done|]. destruct (build _ _) as [x|] eqn:Hb; [|done].
  intros [= <-]. simpl. split; [|done]. by split.
Qed.

Lemma compile_all_wf rules : Forall rule_wf (compile_all rules).
Proof.
  apply Forall_forall. intros r Hr. unfold compile_all in Hr.
  apply list_elem_of_omap in Hr as ([name pat]&_&Hr). destruct (compile name pat) eqn:Hc; [|done].
  simplify_eq. by destruct (compile_wf _ _ _ Hc).
Qed.

(** (approval) every rule a set can hold is anchored and bounded: each rule of a set
    built by [new] has a source of at most 512 bytes and the matcher the engine built, under
    the size limit, for [^(?:source)$]; adding a rule that [compile] accepted keeps that so.
    An unanchored or oversized pattern cannot enter, whatever the configuration and the
    database hold. *)
Theorem rule_sets_hold_only_anchored_rules global_extra static_configs db_rules added :
  Forall (λ r, ∃ name pattern, compile name pattern = Ok r) added →
  rules_wf (foldl add_dynamic (new global_extra static_configs db_rules) added).
Proof.
  intros Hadd.
  assert (∀ rs, rules_wf rs → rules_wf (foldl add_dynamic rs added)) as Hkeep.
  { induction Hadd as [|r added (name&pat&Hc) _ IH]; intros rs Hrs; simpl; [done|].
    apply IH. unfold rules_wf, add_dynamic in *. simpl. rewrite app_assoc.
    apply Forall_app. split; [done|]. constructor; [|constructor].
    by destruct (compile_wf _ _ _ Hc). }
  apply Hkeep. unfold rules_wf, new. simpl. apply Forall_app. split; apply compile_all_wf.
Qed.

(** C36: (approval) a Bash command runs unasked only when all of it is allowed. On any text,
    [check] returns; and unless Bash itself is a global tool it approves exactly when the
    text reads as pieces and shell operators and either it has no operator and the whole
    trimmed text, blank or not, is matched by some rule for Bash, static or dynamic, or it
    has one, some piece is not blank, and every piece that is not blank is matched by some
    such rule. One uncovered piece, or a construct the scanner gives up on, is enough to
    refuse. *)
Theorem bash_approved_iff_every_piece_covered rs input command :
  "Bash"%string ∉ global_tools rs → command_of input = Some command →
  utf8_shaped (str command) = true →
  ∃ m, check rs "Bash" input = Returns m ∧
    (is_approved m = true ↔
     ∃ r, lex Unquoted (str command) = Some r ∧ text r = str command ∧
          ((r.2 = [] ∧ covered rs (trim (str command))) ∨
           (r.2 ≠ [] ∧ nonblank (pieces r) ≠ [] ∧ Forall (covered rs) (nonblank (pieces r))))).
Proof.
  intros Hg Hc Hu. destruct (check_bash_spec rs input command Hg Hc Hu) as (m&Hm&Hiff).
  exists m. split; [done|]. rewrite Hiff. split.
  - intros (r&Hl&Hne&Hall). exists r. split; [done|]. pose proof (lex_text _ _ _ Hl) as Ht. split; [done|].
    unfold text in Ht. unfold subcommands in Hne, Hall. destruct r as [p [|op rest]]; [left|by right].
    simpl in Ht, Hall. rewrite app_nil_r in Ht. subst p. by apply Forall_cons in Hall as [Hall _].
  - intros (r&Hl&Ht&Hr). exists r. split; [done|]. unfold text in Ht. unfold subcommands.
    destruct r as [p [|op rest]]; destruct Hr as [[Hop Hr]|[Hop Hr]]; try done.
    simpl in Ht |- *. rewrite app_nil_r in Ht. subst p. split; [done|by constructor].
Qed.

(** (approval) an always-allow rule offered for a command the splitter gives up on can
    never take effect: the pattern offered is the literal command, but no rule set without
    Bash as a global tool, whatever rules it holds, approves that command. *)
Theorem offered_rule_for_unparseable_is_dead rs input command :
  "Bash"%string ∉ global_tools rs → command_of input = Some command →
  split_bash_command (str command) = Returns Unparseable →
  default_patterns "Bash" input = Returns [escape command] ∧
  ∀ added, check (foldl add_dynamic rs added) "Bash" input = Returns NoMatch.
Proof.
  intros Hg Hc Hs. unfold default_patterns. simpl. rewrite Hc, Hs. split; [done|].
  intros added. unfold check. rewrite bool_decide_false.
  - simpl. by rewrite Hc, Hs.
  - revert rs Hg. induction added as [|r added IH]; intros rs Hg; simpl; [done|]. by apply IH.
Qed.

Lemma list_find_app_Some {A} (P : A → Prop) `{∀ x, Decision (P x)} l k r :
  list_find P l = Some r → list_find P (l ++ k) = Some r.
Proof.
  destruct r as [i x]. intros (Hi&Hx&Hb)%list_find_Some. apply list_find_Some.
  split_and!; [by apply lookup_app_l_Some|done|]. intros j y Hj Hlt. eapply Hb; [|done].
  rewrite lookup_app_l in Hj; [done|]. apply lookup_lt_Some in Hi. lia.
Qed.

Lemma add_dynamic_keeps_single rs r name input :
  is_approved (check_single rs name input) = true →
  check_single (add_dynamic rs r) name input = check_single rs name input.
Proof.
  unfold check_single, add_dynamic. simpl. destruct (list_find _ (static_rules rs)) as [[i x]|]; [done|].
  destruct (list_find _ (dynamic_rules rs)) as [[i x]|] eqn:Hd; [|done].
  intros _. by rewrite (list_find_app_Some _ _ _ _ Hd).
Qed.

(** Adding a rule never changes an approval already given, nor its reason. *)
Theorem add_dynamic_never_revokes rs r name input m :
  check rs name input = Returns m → is_approved m = true →
  check (add_dynamic rs r) name input = Returns m.
Proof.
  unfold check. change (global_tools (add_dynamic rs r)) with (global_tools rs).
  destruct (bool_decide _); [done|]. destruct (if String.eqb name "Bash" then _ else _) as [cmd|].
  - destruct (split_bash_command (str cmd)) as [[c|cs|]|]; try done; simpl; intros [= <-] Ha; f_equal.
    + by apply add_dynamic_keeps_single.
    + revert Ha. generalize 0 as i. generalize NoMatch as m.
      induction cs as [|c cs IH]; intros m i; cbn [check_cmds]; [done|].
      destruct (is_approved (check_single rs name (json_command (unstr c)))) eqn:Hc; simpl; [|done].
      rewrite add_dynamic_keeps_single by done. rewrite Hc. simpl. apply IH.
  - intros [= <-] Ha. f_equal. by apply add_dynamic_keeps_single.
Qed.
End Covered.

(** (approval) the scanning loop terminates: from any state and position, on any bytes,
    it ends within one turn per byte left, and more turns change nothing. *)
Theorem split_bash_command_terminates b st i s n :
  scan (length b - i) b st i s ≠ Out_of_fuel ∧
  scan (length b - i + n) b st i s = scan (length b - i) b st i s.
Proof. destruct (scan_fuel b (length b - i) st i s n); [lia|done]. Qed.

(** (approval) the splitter is its reading. On any text the index-and-split-points
    routine returns, no slice or subtraction unwinding, what the left-to-right reading says:
    unparseable when there is none, otherwise its sub-commands. The reading accounts for
    every byte of the text as pieces and operators of the seven, and each piece read on its
    own is one piece, so no operator is left inside a sub-command. *)
Theorem split_bash_command_is_its_reading command :
  utf8_shaped command = true →
  split_bash_command command = Returns (classify (lex Unquoted command)) ∧
  ∀ r, lex Unquoted command = Some r →
    text r = command ∧ Forall (λ x, x.1 ∈ operators) r.2 ∧
    Forall (λ p, lex Unquoted p = Some (p, [])) (pieces r).
Proof.
  intros Hu. split; [by apply split_is_classify|]. intros r Hr.
  destruct (lex_pieces _ _ _ Hr) as [Hp Hrest].
  split_and!; [by eapply lex_text|by eapply lex_operators|].
  constructor; [done|]. by apply Forall_fmap.
Qed.

Lemma lex_single_quoted w : "'"%char ∉ w → lex SingleQuoted (w ++ ["'"%char]) = Some (w ++ ["'"%char], []).
Proof.
  induction w as [|c w IH]; intros Hw; [done|]. apply not_elem_of_cons in Hw as [Hc Hw].
  cbn [app lex token_at]. destruct (Ascii.eqb_spec c "'") as [->|]; [done|].
  cbn [token_two token_state]. by rewrite IH.
Qed.

Lemma trim_end_quote w : trim_end_rev ("'"%char :: w) = "'"%char :: w.
Proof.
  cbn [trim_end_rev]. change (ws1 "'") with false. simpl.
  destruct w as [|b [|c w]]; [done| |];
    replace (ws2 b "'") with false by (unfold ws2; simpl; by rewrite andb_false_r); [done|].
  replace (ws3 c b "'") with false; [done|].
  unfold ws3. simpl. by rewrite !andb_false_r.
Qed.

Lemma utf8_quoted w : utf8_shaped w = true → utf8_shaped (w ++ ["'"%char]) = true.
Proof.
  unfold utf8_shaped. generalize 0 as k. induction w as [|c w IH]; intros k; simpl.
  - intros ->%Nat.eqb_eq. done.
  - destruct k; [repeat case_match; try done; apply IH|].
    intros [-> ?]%andb_prop. by apply IH.
Qed.

(** The text [echo $'\''] as bash reads it is a complete command: the [$'..'] word is an
    escaped quote. *)
Definition ansi_c_word : bytes := str "echo $'\''".

(** (approval) ANSI-C quoting hides a command. Bash ends the word [$'\''] at its third
    quote, so in [echo $'\''w'] the text [w] is shell code; the splitter takes the second
    quote for the closing one and [w] for quoted text. For every [w] without a quote, such as
    [ ; rm -rf / #], the whole text is one simple command, which a rule for [echo] covers. *)
Theorem ansi_c_quoting_hides_a_command w :
  "'"%char ∉ w → utf8_shaped w = true →
  split_bash_command (ansi_c_word ++ w ++ ["'"%char]) =
  Returns (Simple (ansi_c_word ++ w ++ ["'"%char])).
Proof.
  intros Hw Hu. assert (utf8_shaped (ansi_c_word ++ w ++ ["'"%char]) = true) as Hu'.
  { change (utf8_shaped (w ++ ["'"%char]) = true). by apply utf8_quoted. }
  rewrite split_is_classify by done.
  assert (lex Unquoted (ansi_c_word ++ w ++ ["'"%char]) = Some (ansi_c_word ++ w ++ ["'"%char], [])) as ->.
  { simpl.
    by rewrite lex_single_quoted. }
  change (classify _) with (Simple (trim (ansi_c_word ++ w ++ ["'"%char]))). do 2 f_equal. unfold trim.
  change (trim_start (ansi_c_word ++ w ++ ["'"%char])) with (ansi_c_word ++ w ++ ["'"%char]).
  rewrite (app_assoc ansi_c_word), (rev_app_distr (ansi_c_word ++ w)).
  change (rev ["'"%char]) with ["'"%char]. cbn [app]. rewrite trim_end_quote. cbn [rev].
  by rewrite rev_involutive.
Qed.

(** *** Witnesses *)

(** Literal patterns: a built pattern matches the text it anchors. *)
#[local] Instance literal_regex : RegexLib := {|
  Regex := string;
  build p _ := Some p;
  is_match p s := String.eqb p (anchored s);
  escape s := s;
|}.

Inductive json := JStr (s : string) | JObj (key : string) (member : json).

#[local] Program Instance tree_json : JsonLib := {|
  Value := json;
  get v k := match v with
             | JObj key m => if String.eqb key k then Some m else None
             | JStr _ => None
             end;
  as_str v := match v with JStr s => Some s | JObj _ _ => None end;
  to_string v := match v with JStr s => s | JObj _ _ => "{}"%string end;
  json_command c := JObj "command" (JStr c);
|}.
Next Obligation. done. Qed.

Definition demo_rules : ApprovalRuleSet :=
  new [] [mkConfig "Bash" "git status"; mkConfig "Bash" "ls -l"] [].

Lemma rule_sets_hold_only_anchored_rules_witness :
  rules_wf (foldl add_dynamic demo_rules [mkRule "Bash" "pwd" "^(?:pwd)$"%string]).
Proof.
  apply (rule_sets_hold_only_anchored_rules [] [mkConfig "Bash" "git status"; mkConfig "Bash" "ls -l"] []).
  constructor; [|constructor]. by exists "Bash"%string, "pwd"%string.
Defined.

Lemma bash_approved_iff_every_piece_covered_witness :
  ∃ m, check demo_rules "Bash" (json_command "git status && ls -l;") = Returns m ∧
    (is_approved m = true ↔
     ∃ r, lex Unquoted (str "git status && ls -l;") = Some r ∧ text r = str "git status && ls -l;" ∧
          ((r.2 = [] ∧ covered demo_rules (trim (str "git status && ls -l;"))) ∨
           (r.2 ≠ [] ∧ nonblank (pieces r) ≠ [] ∧ Forall (covered demo_rules) (nonblank (pieces r))))).
Proof.
  apply (bash_approved_iff_every_piece_covered demo_rules (json_command "git status && ls -l;"));
    [by refine (bool_decide_unpack _ _); vm_compute|done|done].
Defined.

Example demo_approved :
  check demo_rules "Bash" (json_command "git status && ls -l;") = Returns (ConfigRule "git status").
Proof. vm_compute. reflexivity. Qed.

Example demo_refused :
  check demo_rules "Bash" (json_command "git status | sh") = Returns NoMatch.
Proof. vm_compute. reflexivity. Qed.

Lemma offered_rule_for_unparseable_is_dead_witness :
  default_patterns "Bash" (json_command "echo $(date)") = Returns ["echo $(date)"%string] ∧
  ∀ added, check (foldl add_dynamic demo_rules added) "Bash" (json_command "echo $(date)") = Returns NoMatch.
Proof.
  apply (offered_rule_for_unparseable_is_dead demo_rules (json_command "echo $(date)") "echo $(date)");
    [by refine (bool_decide_unpack _ _); vm_compute|done|vm_compute; reflexivity].
Defined.

Lemma split_bash_command_is_its_reading_witness :
  let c := str "a 2>&1 |& b" in
  split_bash_command c = Returns (classify (lex Unquoted c)) ∧
  ∀ r, lex Unquoted c = Some r →
    text r = c ∧ Forall (λ x, x.1 ∈ operators) r.2 ∧
    Forall (λ p, lex Unquoted p = Some (p, [])) (pieces r).
Proof. apply (split_bash_command_is_its_reading (str "a 2>&1 |& b")). reflexivity. Defined.

Lemma ansi_c_quoting_hides_a_command_witness :
  split_bash_command (ansi_c_word ++ str " ; rm -rf / #" ++ ["'"%char]) =
  Returns (Simple (ansi_c_word ++ str " ; rm -rf / #" ++ ["'"%char])).
Proof.
  apply (ansi_c_quoting_hides_a_command (str " ; rm -rf / #")); [|reflexivity].
  by refine (bool_decide_unpack _ _); vm_compute.
Defined.
End ApprovalProps.
