(* ===== verification/Grants.v ===== *)
(** * The grant vocabularies ([brenn-envelope/src/grants.rs])

    The words a configuration grants capabilities and transport rights in, the unified
    capability an enforcement point asks about, and the maps between them. Each vocabulary
    has a module of its own, since the source's variants share names. *)

From S2P Require Import Prelude Envelope.

#[local] Open Scope list_scope.

(** A closed vocabulary: its members, in listing order, and the word each is written as. *)
Class Vocabulary (A : Type) := {
  vocab_eq :: EqDecision A;
  ALL : list A;
  word : A → string;
}.

(** [parse]: the member a word spells, [ALL.into_iter().find(|g| g.word() == word)]. *)
Definition parse {A} `{Vocabulary A} (w : string) : option A :=
  snd <$> list_find (λ g, word g = w) ALL.

(** What makes a vocabulary's words a spelling: every member is listed, no two share one. *)
Class VocabularyLaws A `{Vocabulary A} : Prop := {
  all_listed : ∀ g : A, g ∈ ALL;
  word_inj : ∀ g h : A, word g = word h → g = h;
}.

Lemma parse_word {A} `{VocabularyLaws A} (w : string) (g : A) : parse w = Some g ↔ word g = w.
Proof.
  unfold parse. split.
  - intros ([i h]&Hf&[= ->])%fmap_Some. by apply list_find_Some in Hf as (_&?&_).
  - intros Hw. destruct (list_find (λ h : A, word h = w) ALL) as [[i h]|] eqn:Hf.
    + apply list_find_Some in Hf as (_&Hh&_). simpl. f_equal. apply word_inj. congruence.
    + apply list_find_None in Hf. rewrite Forall_forall in Hf. by destruct (Hf g (all_listed g)).
Qed.

(** Discharges the laws of a vocabulary by going through its members. *)
Ltac vocabulary :=
  split; [intros []; simpl; repeat first [apply list_elem_of_here | apply list_elem_of_further]
         |intros [] []; simpl; congruence].

Module CG.
(** [ComponentGrant]. *)
Inductive ComponentGrant :=
| Ports | Store | Log | Alert | Config | Mqtt | Tools | Calls | Provides | Takeover | Dom | PageDom.

#[global] Instance ComponentGrant_eq_dec : EqDecision ComponentGrant.
Proof. solve_decision. Defined.

(** [ComponentHost]. *)
Inductive ComponentHost := Surface | TopLevel.

(** [ComponentGrant::ALL]. *)
Definition component_all : list ComponentGrant :=
  [Ports; Store; Log; Alert; Config; Mqtt; Tools; Calls; Provides; Takeover; Dom; PageDom].

(** [ComponentGrant::word]. *)
Definition component_word (g : ComponentGrant) : string :=
  match g with
  | Ports => "ports" | Store => "store" | Log => "log" | Alert => "alert" | Config => "config"
  | Mqtt => "mqtt" | Tools => "tools" | Calls => "calls" | Provides => "provides"
  | Takeover => "takeover" | Dom => "dom" | PageDom => "page-dom"
  end.

#[global] Instance component_vocabulary : Vocabulary ComponentGrant :=
  {| ALL := component_all; word := component_word |}.

#[global] Instance component_vocabulary_laws : VocabularyLaws ComponentGrant.
Proof. vocabulary. Qed.

(** [ComponentGrant::parse]. *)
Definition component_parse (w : string) : option ComponentGrant := parse w.

(** [ComponentGrant::wit_import]. *)
Definition wit_import (g : ComponentGrant) : option string :=
  match g with
  | Ports => Some "brenn:processor/ports@0.1.0"
  | Store => Some "brenn:processor/store@0.1.0"
  | Log => Some "brenn:processor/log@0.1.0"
  | Alert => Some "brenn:processor/alert@0.1.0"
  | Config => Some "brenn:processor/config@0.1.0"
  | Mqtt => Some "brenn:processor/mqtt@0.1.0"
  | Tools => Some "brenn:processor/tools@0.1.0"
  | Calls => Some "brenn:processor/calls@0.1.0"
  | Provides => Some "brenn:processor/provides@0.1.0"
  | Dom => Some "brenn:processor/dom@0.1.0"
  | PageDom => Some "brenn:processor/page-dom@0.1.0"
  | Takeover => None
  end%string.

(** [ComponentGrant::illegal_on]: the reason a host cannot implement a grant. *)
Definition illegal_on (g : ComponentGrant) (host : ComponentHost) : option string :=
  match host, g with
  | Surface, Store =>
      Some "`store` is backend-only in v1; a surface-hosted component cannot be granted it"
  | Surface, Mqtt =>
      Some "`mqtt` is backend-only in v1; a surface-hosted component cannot be granted it"
  | Surface, Tools => Some "`tools` is backend-only in v1: the surface host links no tools interface"
  | Surface, Provides =>
      Some "`provides` is backend-only: the surface host links no tool substrate to serve requests from"
  | TopLevel, Takeover => Some "`takeover` is a page capability; a top-level consumer has no page"
  | TopLevel, Dom => Some "`dom` is a page capability; a top-level consumer has no page to mutate"
  | TopLevel, PageDom =>
      Some "`page-dom` is a page capability; a top-level consumer has no page to arrange"
  | _, _ => None
  end%string.
End CG.

Module Planes.
(** [Plane]. *)
Inductive Plane := Subscribe | Publish.

#[global] Instance Plane_eq_dec : EqDecision Plane.
Proof. solve_decision. Defined.

(** [Plane::ALL]. *)
Definition plane_all : list Plane := [Subscribe; Publish].

(** [Plane::word]. *)
Definition plane_word (p : Plane) : string :=
  match p with Subscribe => "subscribe" | Publish => "publish" end.

#[global] Instance plane_vocabulary : Vocabulary Plane := {| ALL := plane_all; word := plane_word |}.

#[global] Instance plane_vocabulary_laws : VocabularyLaws Plane.
Proof. vocabulary. Qed.

(** [Plane::parse]. *)
Definition plane_parse (w : string) : option Plane := parse w.
End Planes.

Module Caps.
(** [AppCapability]. *)
Inductive AppCapability :=
| MessagingPublish | MessagingSubscribe | DynamicSubscribe | EphemeralPublish | EphemeralSubscribe
| LocalPublish | LocalSubscribe | MqttPublish | MqttSubscribe | Webhook | PwaPush | MintImpetus
| WasmStore | WasmLog | WasmAlert | WasmConfig | SurfaceAlert | Integration.

#[global] Instance AppCapability_eq_dec : EqDecision AppCapability.
Proof. solve_decision. Defined.

(** [AppCapability::ALL]. *)
Definition capability_all : list AppCapability :=
  [MessagingPublish; MessagingSubscribe; DynamicSubscribe; EphemeralPublish; EphemeralSubscribe;
   LocalPublish; LocalSubscribe; MqttPublish; MqttSubscribe; Webhook; PwaPush; MintImpetus;
   WasmStore; WasmLog; WasmAlert; WasmConfig; SurfaceAlert; Integration].

(** [AppCapability::word]. *)
Definition capability_word (c : AppCapability) : string :=
  match c with
  | MessagingPublish => "messaging_publish"
  | MessagingSubscribe => "messaging_subscribe"
  | DynamicSubscribe => "dynamic_subscribe"
  | EphemeralPublish => "ephemeral_publish"
  | EphemeralSubscribe => "ephemeral_subscribe"
  | LocalPublish => "local_publish"
  | LocalSubscribe => "local_subscribe"
  | MqttPublish => "mqtt_publish"
  | MqttSubscribe => "mqtt_subscribe"
  | Webhook => "webhook"
  | PwaPush => "pwa_push"
  | MintImpetus => "mint_impetus"
  | WasmStore => "wasm_store"
  | WasmLog => "wasm_log"
  | WasmAlert => "wasm_alert"
  | WasmConfig => "wasm_config"
  | SurfaceAlert => "surface_alert"
  | Integration => "integration"
  end.

#[global] Instance capability_vocabulary : Vocabulary AppCapability :=
  {| ALL := capability_all; word := capability_word |}.

#[global] Instance capability_vocabulary_laws : VocabularyLaws AppCapability.
Proof. vocabulary. Qed.

(** [AppCapability::parse]. *)
Definition capability_parse (w : string) : option AppCapability := parse w.

(** [AppCapability::llm_authorable]. *)
Definition llm_authorable (c : AppCapability) : result unit string :=
  match c with
  | MessagingPublish | MessagingSubscribe | DynamicSubscribe | EphemeralPublish
  | EphemeralSubscribe | LocalPublish | MqttPublish | MqttSubscribe | Webhook | PwaPush => Ok ()
  | WasmStore | WasmLog | WasmAlert | WasmConfig =>
      Err "WASM-host caps are authored as `ComponentGrant` on a component"
  | Integration => Err "`integration` is reserved"
  | SurfaceAlert => Err "attacher alert is authored as `AttachGrant` on a `[[surface]]` or `[[remote]]`"
  | MintImpetus => Err "no LLM-reachable API sets impetus"
  | LocalSubscribe => Err "no local delivery path to a conversation in v1"
  end%string.

(** [AppCapability::transport]. *)
Definition capability_transport (c : AppCapability) : option (Planes.Plane * Envelope.ChannelScheme) :=
  match c with
  | MessagingPublish => Some (Planes.Publish, Envelope.Brenn)
  | MessagingSubscribe => Some (Planes.Subscribe, Envelope.Brenn)
  | EphemeralPublish => Some (Planes.Publish, Envelope.Ephemeral)
  | EphemeralSubscribe => Some (Planes.Subscribe, Envelope.Ephemeral)
  | LocalPublish => Some (Planes.Publish, Envelope.Local)
  | LocalSubscribe => Some (Planes.Subscribe, Envelope.Local)
  | MqttPublish => Some (Planes.Publish, Envelope.Mqtt)
  | MqttSubscribe => Some (Planes.Subscribe, Envelope.Mqtt)
  | Webhook => Some (Planes.Subscribe, Envelope.Webhook)
  | DynamicSubscribe | PwaPush | MintImpetus | WasmStore | WasmLog | WasmAlert | WasmConfig
  | SurfaceAlert | Integration => None
  end.
End Caps.

Module AG.
(** [AttachGrant]. *)
Inductive AttachGrant := Subscribe | Publish | EphemeralSubscribe | EphemeralPublish | Alert.

#[global] Instance AttachGrant_eq_dec : EqDecision AttachGrant.
Proof. solve_decision. Defined.

(** [AttachGrant::ALL]. *)
Definition attach_all : list AttachGrant :=
  [Subscribe; Publish; EphemeralSubscribe; EphemeralPublish; Alert].

(** [AttachGrant::word]. *)
Definition attach_word (g : AttachGrant) : string :=
  match g with
  | Subscribe => "subscribe"
  | Publish => "publish"
  | EphemeralSubscribe => "ephemeral_subscribe"
  | EphemeralPublish => "ephemeral_publish"
  | Alert => "alert"
  end.

#[global] Instance attach_vocabulary : Vocabulary AttachGrant := {| ALL := attach_all; word := attach_word |}.

#[global] Instance attach_vocabulary_laws : VocabularyLaws AttachGrant.
Proof. vocabulary. Qed.

(** [AttachGrant::parse]. *)
Definition attach_parse (w : string) : option AttachGrant := parse w.

(** [AttachGrant::transport]. *)
Definition attach_transport (g : AttachGrant) : option (Planes.Plane * Envelope.ChannelScheme) :=
  match g with
  | Subscribe => Some (Planes.Subscribe, Envelope.Brenn)
  | Publish => Some (Planes.Publish, Envelope.Brenn)
  | EphemeralSubscribe => Some (Planes.Subscribe, Envelope.Ephemeral)
  | EphemeralPublish => Some (Planes.Publish, Envelope.Ephemeral)
  | Alert => None
  end.

(** [AttachGrant::app_capability]. *)
Definition attach_capability (g : AttachGrant) : Caps.AppCapability :=
  match g with
  | Subscribe => Caps.MessagingSubscribe
  | Publish => Caps.MessagingPublish
  | EphemeralSubscribe => Caps.EphemeralSubscribe
  | EphemeralPublish => Caps.EphemeralPublish
  | Alert => Caps.SurfaceAlert
  end.
End AG.

Module Grants.
Import CG.

(** [ComponentGrant::app_capability]. *)
Definition component_capability (g : ComponentGrant) : option Caps.AppCapability :=
  match g with
  | Ports => Some Caps.MessagingPublish
  | Store => Some Caps.WasmStore
  | Log => Some Caps.WasmLog
  | Alert => Some Caps.WasmAlert
  | Config => Some Caps.WasmConfig
  | Mqtt => Some Caps.MqttPublish
  | Tools | Calls | Provides | Takeover | Dom | PageDom => None
  end.

(** [EntityKind]. *)
Inductive EntityKind :=
| KSurface
| KAgent
| KComponent (host : ComponentHost)
| KRemote.

(** [EntityKind::label]. *)
Definition label (k : EntityKind) : string :=
  match k with
  | KSurface => "surface"
  | KAgent => "agent"
  | KComponent Surface => "component"
  | KComponent TopLevel => "consumer"
  | KRemote => "remote"
  end.

(** [bindable_schemes]. *)
Definition bindable_schemes (k : EntityKind) (p : Planes.Plane) : list Envelope.ChannelScheme :=
  match k, p with
  | KSurface, _ => [Envelope.Brenn; Envelope.Ephemeral; Envelope.Local]
  | KComponent TopLevel, Planes.Subscribe =>
      [Envelope.Brenn; Envelope.Ephemeral; Envelope.Local; Envelope.Webhook; Envelope.Mqtt]
  | KComponent Surface, _ | KComponent TopLevel, Planes.Publish =>
      [Envelope.Brenn; Envelope.Ephemeral; Envelope.Local]
  | KAgent, Planes.Subscribe => [Envelope.Brenn; Envelope.Ephemeral; Envelope.Webhook; Envelope.Mqtt]
  | KAgent, Planes.Publish | KRemote, _ => []
  end.
End Grants.

Module GrantsProps.
Import CG Grants.

(** (grants) the words are a spelling: in each of the four vocabularies a word parses
    to a member exactly when it is that member's word, so no word is ambiguous, none is
    lost, and anything else is refused. *)
Theorem grant_words_roundtrip w :
  (∀ g, component_parse w = Some g ↔ component_word g = w) ∧
  (∀ g, AG.attach_parse w = Some g ↔ AG.attach_word g = w) ∧
  (∀ p, Planes.plane_parse w = Some p ↔ Planes.plane_word p = w) ∧
  (∀ c, Caps.capability_parse w = Some c ↔ Caps.capability_word c = w).
Proof. split_and!; intros g; exact (parse_word w g). Qed.

(** Distinct grants become distinct capabilities, so a duplicate capability is a
    duplicate grant. *)
Lemma component_capability_inj g h c :
  component_capability g = Some c → component_capability h = Some c → g = h.
Proof. destruct g, h; simpl; congruence. Qed.

Lemma attach_capability_inj g h : AG.attach_capability g = AG.attach_capability h → g = h.
Proof. destruct g, h; simpl; congruence. Qed.

(** An attach right reaches the transport its capability names. *)
Lemma attach_transport_agrees g :
  AG.attach_transport g = Caps.capability_transport (AG.attach_capability g).
Proof. by destruct g. Qed.

(** A grant that a host can implement links an interface or is the one the page's own
    binding gates, and none is illegal on both hosts. *)
Lemma grant_has_a_home g :
  (illegal_on g Surface = None ∨ illegal_on g TopLevel = None) ∧
  (wit_import g = None ↔ g = Takeover).
Proof. destruct g; simpl; naive_solver. Qed.
End GrantsProps.
