(* ===== verification/Buffer.v ===== *)
(** * The page's publish buffer ([surface/kernel/src/publish_buffer.rs])

    One activation of a component on a surface page publishes into one buffer: the gate of
    [Budget] with the page's own checks around it, and the entries it accepted. Nothing
    leaves before the activation returns ok; then [take] hands over what [flush.rs] sends.
    [BufferRun] drives a buffer through any sequence of calls a component can make;
    [BufferProps] proves that the buffer and its gate never disagree and that what an ok
    activation flushes is a batch the protocol's law admits. *)

From S2P Require Import Prelude Envelope Ring Cursor Deferred RingCore Budget Activation Proto AttachStore Text.

#[local] Open Scope N_scope.
#[local] Open Scope list_scope.

(** [format!("{s:?}")] of a text. *)
Class DebugStr := debug_str : string → string.

Module Buffer.
Import Envelope Proto Store Budget.

(** *** Addresses a page may bind ([surface/schema/src/lib.rs]) *)

(** [surface_bindable]. *)
Definition surface_bindable (s : ChannelScheme) : bool :=
  match s with
  | Brenn | Ephemeral | Local => true
  | Mqtt | Webhook | PwaPush => false
  end.

(** [surface_bindable_address]. *)
Definition surface_bindable_address (channel : string) : bool :=
  match scheme_of channel with Some s => surface_bindable s | None => false end.

(** [channel_is_transportable]. *)
Definition channel_is_transportable (channel : string) : panics bool :=
  _ ← rust_assert (surface_bindable_address channel) "surface client: unbindable channel address reached the kernel";
  caps ← rust_expect (channel_capabilities channel) "every surface-bindable scheme carries capabilities";
  Returns (transportable caps).

(** *** Reports ([outbound.rs]) *)

Definition MARKER : string := "…[truncated]".
Definition MAX_PORT_NAME_REPORT_BYTES : N := 256.

(** The loop of [truncate_report_field]: back to a character boundary. *)
Fixpoint boundary_at_most (b : Text.bytes) (e : nat) : nat :=
  match e with
  | O => O
  | S e' => if Text.is_char_boundary b e then e else boundary_at_most b e'
  end.

(** [truncate_report_field]. *)
Definition truncate_report_field (value : string) (cap : N) : panics string :=
  _ ← rust_assert (str_len MARKER <? cap) "surface client: report-field cap is smaller than the truncation marker";
  Returns (if str_len value <=? cap then value
           else let b := Text.str value in
                Text.unstr (take (boundary_at_most b (N.to_nat (cap - str_len MARKER))) b) +:+ MARKER).

(** [port_for_report]. *)
Definition port_for_report `{DebugStr} (port : string) : panics string :=
  truncate_report_field (debug_str port) MAX_PORT_NAME_REPORT_BYTES.

(** *** What a component is told ([surface/contract/src/lib.rs]) *)

(** [PublishError], [DeferError], [CallError]. *)
Inductive PublishError := PublishNotPermitted | PublishInvalidPayload | PublishQuota.
Inductive DeferError := DeferNotPermitted | DeferOutOfRange | DeferQuota | DeferInvalidTime.
Inductive CallError :=
| CallNotPermitted
| CallUnwired
| CallWasRefused
| CallHasFailed
| CallInvalidPayload (fault : PayloadFault)
| CallQuota.

(** [PortFault<E>]. *)
Inductive PortFault (E : Type) := FaultRefused (e : E) | Undeclared (port : string).
Arguments FaultRefused {E}.
Arguments Undeclared {E}.

(** [publish_error]. *)
Definition publish_error (r : GateRefusal) : PortFault PublishError :=
  FaultRefused (match publish_refusal_kind r with
                | InvalidPayload _ => PublishInvalidPayload
                | PublishQuotaExceeded => PublishQuota
                end).

(** [call_error]; the account it gives of a bad payload is left as the fault. *)
Definition call_error (r : GateRefusal) : CallError :=
  match publish_refusal_kind r with
  | InvalidPayload fault => CallInvalidPayload fault
  | PublishQuotaExceeded => CallQuota
  end.

(** [defer_error]. *)
Definition defer_error (r : GateRefusal) : PortFault DeferError :=
  FaultRefused (match defer_refusal_kind r with
                | InvalidDeliverAfter => DeferInvalidTime
                | DeferQuotaExceeded => DeferQuota
                end).

(** *** Data *)

(** [BufferedPublish]. *)
Record BufferedPublish := mkBuffered {
  bf_port : string;
  bf_channel : string;
  bf_body : string;
  bf_urgency : Urgency;
  bf_urgency_override : option Urgency;
  bf_deliver_after : option N;
}.

(** [BufferedDeferOp]. *)
Record BufferedDeferOp (Uuid : Type) := mkBufferedOp {
  bo_port : string;
  bo_channel : string;
  bo_message_id : Uuid;
  bo_kind : DeferOp;
}.
Arguments mkBufferedOp {Uuid}.
Arguments bo_port {Uuid}.
Arguments bo_channel {Uuid}.
Arguments bo_message_id {Uuid}.
Arguments bo_kind {Uuid}.

(** [BufferedFlush]. *)
Record BufferedFlush (Uuid : Type) := mkBufferedFlush {
  bfl_publishes : list BufferedPublish;
  bfl_defer_ops : list (BufferedDeferOp Uuid);
  bfl_carry : gmap string N;
}.
Arguments mkBufferedFlush {Uuid}.
Arguments bfl_publishes {Uuid}.
Arguments bfl_defer_ops {Uuid}.
Arguments bfl_carry {Uuid}.

(** [OutputSpec]. *)
Record OutputSpec := mkOutput { out_channel : string; out_default_urgency : Urgency }.

(** [PublishBuffer]. *)
Record PublishBuffer (Uuid : Type) := mkBuffer {
  outputs : gmap string OutputSpec;
  declared_out_ports : gset string;
  gate : ActivationGate string;
  deferred_ids : gmap string (list Uuid);
  buf_entries : list BufferedPublish;
  defer_ops : list (BufferedDeferOp Uuid);
}.
Arguments mkBuffer {Uuid}.
Arguments outputs {Uuid}.
Arguments declared_out_ports {Uuid}.
Arguments gate {Uuid}.
Arguments deferred_ids {Uuid}.
Arguments buf_entries {Uuid}.
Arguments defer_ops {Uuid}.

(** [Admission]. *)
Inductive Admission := Buffered | Dropped.

(** [Admission::of]. *)
Definition admission_of (before after : N) : Admission := if before <? after then Dropped else Buffered.

Section buffer.
Context {Uuid DateTime : Type} `{Chrono DateTime} `{DebugStr}.
Implicit Types (b : PublishBuffer Uuid).

Definition with_gate b (g : ActivationGate string) : PublishBuffer Uuid :=
  mkBuffer (outputs b) (declared_out_ports b) g (deferred_ids b) (buf_entries b) (defer_ops b).
Definition push_entry b (e : BufferedPublish) : PublishBuffer Uuid :=
  mkBuffer (outputs b) (declared_out_ports b) (gate b) (deferred_ids b) (buf_entries b ++ [e]) (defer_ops b).
Definition push_op b (o : BufferedDeferOp Uuid) : PublishBuffer Uuid :=
  mkBuffer (outputs b) (declared_out_ports b) (gate b) (deferred_ids b) (buf_entries b) (defer_ops b ++ [o]).

(** [PublishBuffer::new]. *)
Definition buffer_new (outs : gmap string OutputSpec) (declared : gset string) (sink_mt : gmap string N)
    (max_body : N) (parked : gmap string (list Uuid)) : PublishBuffer Uuid :=
  mkBuffer outs declared (gate_new max_body sink_mt) parked [] [].

(** The bytes an edit's replacement body charges. *)
Definition edit_charge (k : DeferOp) : N :=
  match k with OpEdit (Some body) _ => str_len body | _ => 0 end.

(** The two sums of [batch_charge]. *)
Definition sum_charge {A} (channel_of : A → string) (charge : A → N) (l : list A) : panics N :=
  foldl (λ acc x,
    n ← acc;
    t ← channel_is_transportable (channel_of x);
    Returns (if (t : bool) then u64_add n (charge x) else n)) (Returns 0) l.

(** [PublishBuffer::batch_charge]. *)
Definition batch_charge b : panics N :=
  entries ← sum_charge bf_channel (λ e, u64_add (str_len (bf_channel e)) (str_len (bf_body e))) (buf_entries b);
  ops ← sum_charge bo_channel (λ o, u64_add (str_len (bo_channel o)) (edit_charge (bo_kind o))) (defer_ops b);
  Returns (u64_add entries ops).

(** [PublishBuffer::overruns_batch_budget]. *)
Definition overruns_batch_budget b (channel : string) (charge : N) : panics bool :=
  t ← channel_is_transportable channel;
  if negb t then Returns false
  else n ← batch_charge b; Returns (max_body_bytes (gate b) <? u64_add n charge).

(** [PublishBuffer::dropped]. *)
Definition buffer_dropped b : N := dropped (gate b).

(** [PublishBuffer::admit_call]. *)
Definition admit_call b (payload : string) : PublishBuffer Uuid * result unit CallError :=
  let '(g, r) := charge_call (gate b) in
  let b := with_gate b g in
  match r with
  | Err e => (b, Err (call_error e))
  | Ok _ =>
      let cap := max_body_bytes g in
      if negb (Activation.within_body_cap payload cap) then (b, Err (call_error (BodyTooLarge (str_len payload) cap)))
      else (b, Ok ())
  end.

(** [PublishBuffer::publish_unwired]. *)
Definition publish_unwired b (port body : string) (deliver_after : option N)
    : panics (PublishBuffer Uuid * result unit (PortFault PublishError)) :=
  if negb (bool_decide (port ∈ declared_out_ports b)) then
    name ← port_for_report port; Returns (b, Err (Undeclared name))
  else
    let '(g, r) := admit_publish_without_sink (gate b) (str_len body) deliver_after 0 in
    Returns (with_gate b g, match r with Ok _ => Ok () | Err e => Err (publish_error e) end).

(** [PublishBuffer::publish_inner]. *)
Definition publish_inner b (port body : string) (urgency_override : option Urgency) (deliver_after : option N)
    : panics (PublishBuffer Uuid * result unit (PortFault PublishError)) :=
  let '(g, r) := charge_call (gate b) in
  let b := with_gate b g in
  match r with
  | Err e => Returns (b, Err (publish_error e))
  | Ok _ =>
      match outputs b !! port with
      | None => publish_unwired b port body deliver_after
      | Some spec =>
          let urgency := default (out_default_urgency spec) urgency_override in
          let charge := u64_add (str_len (out_channel spec)) (str_len body) in
          over ← (if str_len body <=? max_body_bytes (gate b) then overruns_batch_budget b (out_channel spec) charge
                  else Returns false);
          if (over : bool) then Returns (b, Err (FaultRefused PublishQuota))
          else
            '(g, r) ← admit_publish (gate b) (mkCheck port (str_len body) deliver_after 0);
            match r with
            | Err e => Returns (with_gate b g, Err (publish_error e))
            | Ok _ =>
                Returns (push_entry (with_gate b g)
                           (mkBuffered port (out_channel spec) body urgency urgency_override deliver_after), Ok ())
            end
      end
  end.

(** [PublishBuffer::publish], [publish_deferred], [publish_with_urgency]. *)
Definition buffer_publish b (port body : string) := publish_inner b port body None None.
Definition publish_deferred b (port body : string) (deliver_after : N) := publish_inner b port body None (Some deliver_after).
Definition publish_with_urgency b (port body : string) (u : Urgency) := publish_inner b port body (Some u) None.

(** [PublishBuffer::defer_inner]. *)
Definition defer_inner b (port : string) (index : N) (kind : DeferOp)
    : panics (PublishBuffer Uuid * result unit (PortFault DeferError)) :=
  match check_deliver_after (DateTime := DateTime) (match kind with OpEdit _ da => da | OpCancel => None end) with
  | Err e => Returns (b, Err (defer_error e))
  | Ok _ =>
      let '(g, r) := charge_call (gate b) in
      let b := with_gate b g in
      match r with
      | Err e => Returns (b, Err (defer_error e))
      | Ok _ =>
          match outputs b !! port with
          | None =>
              if negb (bool_decide (port ∈ declared_out_ports b)) then
                name ← port_for_report port; Returns (b, Err (Undeclared name))
              else Returns (b, Err (FaultRefused DeferOutOfRange))
          | Some spec =>
              match (ids ← deferred_ids b !! port; ids !! N.to_nat index) with
              | None => Returns (b, Err (FaultRefused DeferOutOfRange))
              | Some message_id =>
                  let edit_body_len := match kind with OpEdit (Some body) _ => Some (str_len body) | _ => None end in
                  let charge := u64_add (str_len (out_channel spec)) (default 0 edit_body_len) in
                  over ← (if match edit_body_len with Some l => l <=? max_body_bytes (gate b) | None => true end
                          then overruns_batch_budget b (out_channel spec) charge else Returns false);
                  if (over : bool) then Returns (b, Err (FaultRefused DeferQuota))
                  else
                    let '(g, r) := admit_op (gate b) edit_body_len in
                    match r with
                    | Err e => Returns (with_gate b g, Err (defer_error e))
                    | Ok _ => Returns (push_op (with_gate b g) (mkBufferedOp port (out_channel spec) message_id kind), Ok ())
                    end
              end
          end
      end
  end.

(** [PublishBuffer::defer_cancel], [PublishBuffer::defer_edit]. *)
Definition defer_cancel b (port : string) (index : N) := defer_inner b port index OpCancel.
Definition defer_edit b (port : string) (index : N) (body : option string) (deliver_after : option N) :=
  defer_inner b port index (OpEdit body deliver_after).

(** [PublishBuffer::len]. *)
Definition buffer_len b : N := len (buf_entries b).

(** [PublishBuffer::take]. *)
Definition buffer_take b : panics (BufferedFlush Uuid) :=
  _ ← rust_assert (entries (gate b) =? u64_add (len (buf_entries b)) (dropped (gate b)))
        "every buffered publish must have been admitted by the gate";
  Returns (mkBufferedFlush (buf_entries b) (defer_ops b) (into_sinks (gate b))).

(** [PublishBuffer::into_carry]. *)
Definition into_carry b : gmap string N := into_sinks (gate b).

(** *** What an ok activation sends ([flush.rs]) *)

(** [wire_op]. *)
Definition wire_op (o : BufferedDeferOp Uuid) : BatchDeferredOp Uuid :=
  mkDeferredOp (bo_channel o) (bo_message_id o)
    (match bo_kind o with OpCancel => Cancel | OpEdit body da => Edit body da end).

(** The transportable entry of [route_publishes]. *)
Definition wire_entry (e : BufferedPublish) : BatchEntry :=
  mkEntry (bf_channel e) (bf_body e) (bf_urgency e) (bf_deliver_after e).
End buffer.
End Buffer.

(** ** Sequences of component calls *)
Module BufferRun.
Import Envelope Proto Store Budget GateRun Buffer.

(** Every call a component can make of its buffer. *)
Inductive component_call :=
| CallPeer (payload : string)
| CallPublish (port body : string)
| CallPublishDeferred (port body : string) (deliver_after : N)
| CallPublishUrgent (port body : string) (u : Urgency)
| CallCancel (port : string) (index : N)
| CallEdit (port : string) (index : N) (body : option string) (deliver_after : option N).

(** What it is told. *)
Inductive component_answer :=
| CallAnswer (r : result unit CallError)
| PublishAnswer (r : result unit (PortFault PublishError))
| DeferAnswer (r : result unit (PortFault DeferError)).

Definition accepted (a : component_answer) : bool :=
  match a with
  | CallAnswer (Ok _) | PublishAnswer (Ok _) | DeferAnswer (Ok _) => true
  | _ => false
  end.

(** Whether a bindable channel's messages leave the page. *)
Definition on_wire (channel : string) : bool := negb (is_local_channel channel).

Definition wire_entries (l : list BufferedPublish) : list BatchEntry :=
  wire_entry <$> filter (λ e, on_wire (bf_channel e)) l.
Definition wire_ops {Uuid} (l : list (BufferedDeferOp Uuid)) : list (BatchDeferredOp Uuid) :=
  wire_op <$> filter (λ o, on_wire (bo_channel o)) l.

Section run.
Context {Uuid DateTime : Type} `{Chrono DateTime} `{DebugStr}.
Implicit Types (b : PublishBuffer Uuid).

Definition component_step b (c : component_call) : panics (PublishBuffer Uuid * component_answer) :=
  match c with
  | CallPeer payload => let '(b, r) := admit_call b payload in Returns (b, CallAnswer r)
  | CallPublish port body =>
      '(b, r) ← buffer_publish (DateTime := DateTime) b port body; Returns (b, PublishAnswer r)
  | CallPublishDeferred port body da =>
      '(b, r) ← publish_deferred (DateTime := DateTime) b port body da; Returns (b, PublishAnswer r)
  | CallPublishUrgent port body u =>
      '(b, r) ← publish_with_urgency (DateTime := DateTime) b port body u; Returns (b, PublishAnswer r)
  | CallCancel port index =>
      '(b, r) ← defer_cancel (DateTime := DateTime) b port index; Returns (b, DeferAnswer r)
  | CallEdit port index body da =>
      '(b, r) ← defer_edit (DateTime := DateTime) b port index body da; Returns (b, DeferAnswer r)
  end.

Fixpoint component_run b (cs : list component_call) : panics (PublishBuffer Uuid * list component_answer) :=
  match cs with
  | [] => Returns (b, [])
  | c :: cs =>
      '(b, a) ← component_step b c;
      '(b, answers) ← component_run b cs;
      Returns (b, a :: answers)
  end.

(** The bytes the buffered work will charge the wire batch. *)
Definition wire_charge b : N :=
  sum (entry_bytes <$> wire_entries (buf_entries b)) + sum (op_bytes <$> wire_ops (defer_ops b)).

(** What the core promises of a seeding: every bound output has a bindable channel of a
    length memory can hold beside two bodies, and a budget. *)
Record seeded (outs : gmap string OutputSpec) (sink_mt : gmap string N) (max_body : N) : Prop := {
  seed_cap : max_body + MAX_PUBLISH_BYTES_PER_ACTIVATION ≤ u64_max;
  seed_bound port spec : outs !! port = Some spec →
    surface_bindable_address (out_channel spec) = true ∧
    str_len (out_channel spec) + 2 * max_body ≤ u64_max ∧
    is_Some (sink_mt !! port);
}.

(** The buffer and its gate agree, and the wire's share fits one batch. *)
Record buffer_ok b : Prop := {
  bok_gate : gate_ok (gate b);
  bok_seeded : seeded (outputs b) (sinks (gate b)) (max_body_bytes (gate b));
  bok_entries : entries (gate b) = len (buf_entries b) + dropped (gate b);
  bok_ops : ops (gate b) = len (defer_ops b);
  bok_bindable_entries : Forall (λ e, surface_bindable_address (bf_channel e) = true) (buf_entries b);
  bok_bindable_ops : Forall (λ o, surface_bindable_address (bo_channel o) = true) (defer_ops b);
  bok_charge : wire_charge b ≤ max_body_bytes (gate b);
}.

Lemma transportable_returns channel :
  surface_bindable_address channel = true → channel_is_transportable channel = Returns (on_wire channel).
Proof.
  unfold channel_is_transportable, surface_bindable_address, on_wire, is_local_channel, channel_capabilities.
  destruct (scheme_of channel) as [[]|]; done.
Qed.

Lemma sum_cons x l : sum (x :: l) = x + sum l.
Proof. done. Qed.

Lemma sum_app l k : sum (l ++ k) = sum l + sum k.
Proof. induction l as [|x l IH]; [done|]. simpl app. rewrite !sum_cons, IH. lia. Qed.

(** A filtered sum the source folds one guarded term at a time. *)
Lemma sum_charge_exact {A} (chan : A → string) (charge bound : A → N) (l : list A) (acc : N) :
  Forall (λ x, surface_bindable_address (chan x) = true) l →
  (∀ x, bound x ≤ u64_max → charge x = bound x) →
  acc + sum (bound <$> filter (λ x, on_wire (chan x)) l) ≤ u64_max →
  foldl (λ a x, n ← a; t ← channel_is_transportable (chan x);
                Returns (if (t : bool) then u64_add n (charge x) else n)) (Returns acc) l =
  Returns (acc + sum (bound <$> filter (λ x, on_wire (chan x)) l)).
Proof.
  intros Hb Hc. revert acc. induction Hb as [|x l Hx Hb IH]; intros acc; [simpl; by rewrite N.add_0_r|].
  rewrite filter_cons. cbn [foldl mbind panics_bind]. rewrite transportable_returns by done. cbn [mbind panics_bind].
  destruct (on_wire (chan x)) eqn:Hw; [|by apply IH].
  rewrite decide_True, fmap_cons, sum_cons by done. intros Hle.
  rewrite Hc, u64_add_small by lia. rewrite IH by lia. f_equal. lia.
Qed.

Lemma batch_charge_exact b : buffer_ok b → batch_charge b = Returns (wire_charge b).
Proof.
  intros [? [Hcap _] _ _ He Ho Hle]. unfold wire_charge, wire_entries, wire_ops in *.
  rewrite <- !list_fmap_compose in *. unfold batch_charge, sum_charge.
  rewrite (sum_charge_exact bf_channel _ (entry_bytes ∘ wire_entry)); [|done| |lia].
  2: { intros e ?. by apply u64_add_small. }
  simpl. rewrite (sum_charge_exact bo_channel _ (op_bytes ∘ wire_op)); [|done| |lia].
  2: { intros [p c m [|[]]] ?; by apply u64_add_small. }
  simpl. rewrite u64_add_small by lia. done.
Qed.

(** The budget question, answered: whether the new charge still fits. *)
Lemma overruns_exact b channel charge :
  buffer_ok b → surface_bindable_address channel = true → charge + max_body_bytes (gate b) ≤ u64_max →
  overruns_batch_budget b channel charge =
  Returns (on_wire channel && (max_body_bytes (gate b) <? wire_charge b + charge)).
Proof.
  intros Hb Hc Hle. unfold overruns_batch_budget. rewrite transportable_returns by done. simpl.
  destruct (on_wire channel); [|done]. simpl. rewrite batch_charge_exact by done. simpl.
  pose proof (bok_charge _ Hb). rewrite u64_add_small by lia. done.
Qed.

(** The question as both paths ask it: only of a body inside the cap. *)
Lemma budget_asked b channel l :
  buffer_ok b → surface_bindable_address channel = true →
  str_len channel + 2 * max_body_bytes (gate b) ≤ u64_max →
  ∃ t, (if l <=? max_body_bytes (gate b)
        then overruns_batch_budget b channel (u64_add (str_len channel) l) else Returns false) = Returns t ∧
    (t = false → l ≤ max_body_bytes (gate b) → on_wire channel = true →
     wire_charge b + (str_len channel + l) ≤ max_body_bytes (gate b)).
Proof.
  intros Hb Hbind Hlen. destruct (N.leb_spec l (max_body_bytes (gate b))); [|exists false; split; [done|lia]].
  rewrite u64_add_small by lia. rewrite overruns_exact by (done || lia). eexists. split; [done|].
  intros Ht _ Hw. rewrite Hw in Ht. by apply N.ltb_ge in Ht.
Qed.

(** A gate moved on without touching the buffered work. *)
Lemma with_gate_ok b g :
  buffer_ok b → gate_ok g → max_body_bytes g = max_body_bytes (gate b) →
  (∀ k, is_Some (sinks (gate b) !! k) → is_Some (sinks g !! k)) →
  entries g = len (buf_entries b) + dropped g → ops g = len (defer_ops b) →
  buffer_ok (with_gate b g).
Proof.
  intros [Hg [Hcap Hout] He Ho Hbe Hbo Hc] Hg' Hm Hs He' Ho'.
  split; simpl; try done; [|by rewrite Hm]. split; rewrite Hm; [done|].
  intros port spec Hp. destruct (Hout port spec Hp) as (?&?&?). auto.
Qed.

Lemma charge_call_ok b g r :
  buffer_ok b → charge_call (gate b) = (g, r) →
  buffer_ok (with_gate b g) ∧ sinks g = sinks (gate b) ∧ max_body_bytes g = max_body_bytes (gate b) ∧
  dropped g = dropped (gate b).
Proof.
  intros Hb Hc. assert (Hg : gate_ok g).
  { by eapply (gate_step_ok (DateTime := DateTime) _ ChargeCall); [apply Hb|done|simpl; by rewrite Hc]. }
  unfold charge_call in Hc. split.
  - apply with_gate_ok; try done; destruct (_ <? _); injection Hc as <- <-; simpl; try done; apply Hb.
  - destruct (_ <? _); injection Hc as <- <-; done.
Qed.

Lemma port_for_report_returns port : ∃ name, port_for_report port = Returns name.
Proof. unfold port_for_report, truncate_report_field. change (rust_assert _ _) with (Returns ()). simpl. eauto. Qed.

Lemma wire_entries_app l k : wire_entries (l ++ k) = wire_entries l ++ wire_entries k.
Proof. unfold wire_entries. by rewrite filter_app, fmap_app. Qed.

Lemma wire_ops_app (l k : list (BufferedDeferOp Uuid)) : wire_ops (l ++ k) = wire_ops l ++ wire_ops k.
Proof. unfold wire_ops. by rewrite filter_app, fmap_app. Qed.

Lemma sum_wire_entry e :
  sum (entry_bytes <$> wire_entries [e]) =
  if on_wire (bf_channel e) then str_len (bf_channel e) + str_len (bf_body e) else 0.
Proof.
  unfold wire_entries. rewrite filter_cons, filter_nil. destruct (on_wire (bf_channel e)); [|done].
  rewrite decide_True by done. cbn [fmap list_fmap sum foldr]. by rewrite N.add_0_r.
Qed.

Lemma sum_wire_op (o : BufferedDeferOp Uuid) :
  sum (op_bytes <$> wire_ops [o]) =
  if on_wire (bo_channel o) then str_len (bo_channel o) + edit_charge (bo_kind o) else 0.
Proof.
  unfold wire_ops. rewrite filter_cons, filter_nil. destruct (on_wire (bo_channel o)); [|done].
  rewrite decide_True by done. cbn [fmap list_fmap sum foldr]. rewrite N.add_0_r.
  by destruct o as [p c m [|[]]].
Qed.

(** Accepted work joins the buffer when the wire's share still fits. *)
Lemma push_entry_ok b g e :
  buffer_ok b → gate_ok g → max_body_bytes g = max_body_bytes (gate b) →
  (∀ k, is_Some (sinks (gate b) !! k) → is_Some (sinks g !! k)) →
  entries g = len (buf_entries b) + 1 + dropped g → ops g = len (defer_ops b) →
  surface_bindable_address (bf_channel e) = true →
  (on_wire (bf_channel e) = true →
     wire_charge b + (str_len (bf_channel e) + str_len (bf_body e)) ≤ max_body_bytes (gate b)) →
  buffer_ok (push_entry (with_gate b g) e).
Proof.
  intros [Hg [Hcap Hout] He Ho Hbe Hbo Hc] Hg' Hm Hs He' Ho' Hbind Hfit. split; simpl; try done.
  - split; rewrite Hm; [done|]. intros port spec Hp. destruct (Hout port spec Hp) as (?&?&?). auto.
  - rewrite len_app. exact He'.
  - by apply Forall_app_2; [|apply Forall_singleton].
  - unfold wire_charge in *. simpl. rewrite wire_entries_app, fmap_app, sum_app, sum_wire_entry, Hm.
    destruct (on_wire (bf_channel e)); [specialize (Hfit eq_refl)|]; lia.
Qed.

Lemma push_op_ok b g o :
  buffer_ok b → gate_ok g → max_body_bytes g = max_body_bytes (gate b) → sinks g = sinks (gate b) →
  entries g = len (buf_entries b) + dropped g → ops g = len (defer_ops b) + 1 →
  surface_bindable_address (bo_channel o) = true →
  (on_wire (bo_channel o) = true →
     wire_charge b + (str_len (bo_channel o) + edit_charge (bo_kind o)) ≤ max_body_bytes (gate b)) →
  buffer_ok (push_op (with_gate b g) o).
Proof.
  intros [Hg Hseed He Ho Hbe Hbo Hc] Hg' Hm Hs He' Ho' Hbind Hfit. split; simpl; try done.
  - by rewrite Hm, Hs.
  - by rewrite len_app.
  - by apply Forall_app_2; [|apply Forall_singleton].
  - unfold wire_charge in *. simpl. rewrite wire_ops_app, fmap_app, sum_app, sum_wire_op, Hm.
    destruct (on_wire (bo_channel o)); [specialize (Hfit eq_refl)|]; lia.
Qed.

#[local] Ltac answers := eexists _, _; split; [reflexivity|]; split_and!; done.

(** A publish moves the gate, and joins the buffered work when its port is wired. *)
Lemma publish_inner_spec b port body ov da :
  buffer_ok b →
  ∃ b' r, publish_inner (DateTime := DateTime) b port body ov da = Returns (b', r) ∧ buffer_ok b' ∧
    outputs b' = outputs b ∧ declared_out_ports b' = declared_out_ports b ∧
    deferred_ids b' = deferred_ids b ∧ max_body_bytes (gate b') = max_body_bytes (gate b) ∧
    defer_ops b' = defer_ops b ∧
    match r with
    | Err _ => buf_entries b' = buf_entries b ∧ sinks (gate b') = sinks (gate b) ∧ dropped (gate b') = dropped (gate b)
    | Ok _ =>
        match outputs b !! port with
        | Some spec =>
            buf_entries b' = buf_entries b ++
              [mkBuffered port (out_channel spec) body (default (out_default_urgency spec) ov) ov da] ∧
            dropped (gate b') = dropped (gate b)
        | None => buf_entries b' = buf_entries b ∧ port ∈ declared_out_ports b ∧
                  dropped (gate b') = dropped (gate b) + 1
        end
    end.
Proof.
  intros Hb. unfold publish_inner. destruct (charge_call (gate b)) as [g r] eqn:Hcall.
  destruct (charge_call_ok _ _ _ Hb Hcall) as (Hb1&Hs1&Hm1&Hd1). destruct r; [|answers].
  clear Hcall. pose proof (bok_gate _ Hb1) as Hg1. simpl in Hg1.
  simpl outputs. destruct (outputs b !! port) as [spec|] eqn:Hport.
  - destruct (seed_bound _ _ _ (bok_seeded _ Hb1) _ _ Hport) as (Hbind&Hlen&Hsink). simpl in Hlen, Hsink.
    destruct (budget_asked _ _ (str_len body) Hb1 Hbind Hlen) as (t&->&Hfits). simpl in Hfits.
    simpl. destruct t; [answers|]. specialize (Hfits eq_refl).
    set (c := mkCheck port (str_len body) da 0).
    assert (Hc : call_ok g (Publish c)) by (by split; [exact Hsink|]).
    destruct (gate_step_total (DateTime := DateTime) _ _ Hc) as (g2&r2&Hadm).
    pose proof (gate_step_ok _ _ _ _ Hg1 Hc Hadm) as Hg2. simpl in Hadm. rewrite Hadm. simpl.
    assert (Hbody : ∀ v, r2 = Ok v → str_len body ≤ max_body_bytes g).
    { intros v ->. unfold admit_publish in Hadm. simpl in Hadm.
      by destruct (N.ltb_spec (max_body_bytes g) (str_len body)). }
    apply admit_publish_inv in Hadm as [(e&->&->)|(rem&->&Hr&Hle&He&Hbytes&->)]; [answers| |done|done].
    eexists _, _. split; [reflexivity|]. split_and!; try done. apply push_entry_ok; try done.
    + intros k. simpl. destruct (decide (k = port)) as [->|]; [rewrite lookup_insert_eq; eauto|by rewrite lookup_insert_ne].
    + simpl. pose proof (bok_entries _ Hb1) as Hn. simpl in Hn. lia.
    + exact (bok_ops _ Hb1).
    + simpl. intros Hw. by apply Hfits; [eapply Hbody|].
  - unfold publish_unwired. destruct (port_for_report_returns port) as [name ->]. simpl.
    case_bool_decide as Hdecl; simpl; [|answers].
    destruct (admit_publish_without_sink g (str_len body) da 0) as [g2 r2] eqn:Hadm.
    assert (Hg2 : gate_ok g2).
    { eapply (gate_step_ok (DateTime := DateTime) g (PublishNoSink (str_len body) da 0) g2 r2); [done|done|].
      simpl. by rewrite Hadm. }
    apply admit_without_sink_inv in Hadm as [(e&->&->)|(->&He&Hbytes&->)]; [answers| |done|done].
    eexists _, _. split; [reflexivity|]. split_and!; simpl; try done; [|lia]. apply (with_gate_ok (with_gate b g)); try done.
    + simpl. pose proof (bok_entries _ Hb1) as Hn. simpl in Hn. lia.
    + exact (bok_ops _ Hb1).
Qed.

(** A control op moves the gate and joins the ops, naming the message the snapshot shows. *)
Lemma defer_inner_spec b port index kind :
  buffer_ok b →
  ∃ b' r, defer_inner (DateTime := DateTime) b port index kind = Returns (b', r) ∧ buffer_ok b' ∧
    outputs b' = outputs b ∧ declared_out_ports b' = declared_out_ports b ∧
    deferred_ids b' = deferred_ids b ∧ max_body_bytes (gate b') = max_body_bytes (gate b) ∧
    buf_entries b' = buf_entries b ∧ sinks (gate b') = sinks (gate b) ∧ dropped (gate b') = dropped (gate b) ∧
    match r with
    | Err _ => defer_ops b' = defer_ops b
    | Ok _ => ∃ spec ids mid, outputs b !! port = Some spec ∧ deferred_ids b !! port = Some ids ∧
        ids !! N.to_nat index = Some mid ∧
        defer_ops b' = defer_ops b ++ [mkBufferedOp port (out_channel spec) mid kind]
    end.
Proof.
  intros Hb. unfold defer_inner. destruct (check_deliver_after _); [|answers].
  destruct (charge_call (gate b)) as [g r] eqn:Hcall.
  destruct (charge_call_ok _ _ _ Hb Hcall) as (Hb1&Hs1&Hm1&Hd1). destruct r; [|answers].
  clear Hcall. pose proof (bok_gate _ Hb1) as Hg1. simpl in Hg1.
  simpl outputs. simpl deferred_ids. destruct (outputs b !! port) as [spec|] eqn:Hport.
  2: { destruct (port_for_report_returns port) as [name ->]. simpl. case_bool_decide; simpl; answers. }
  destruct (deferred_ids b !! port) as [ids|] eqn:Hids; simpl; [|answers].
  destruct (ids !! N.to_nat index) as [mid|] eqn:Hmid; [|answers].
  destruct (seed_bound _ _ _ (bok_seeded _ Hb1) _ _ Hport) as (Hbind&Hlen&_). simpl in Hlen.
  set (blen := match kind with OpEdit (Some body) _ => Some (str_len body) | _ => None end).
  assert (Hcharge : edit_charge kind = default 0 blen) by (by subst blen; destruct kind as [|[]]).
  assert (Hf : match blen with Some l => l <=? max_body_bytes g | None => true end =
               (default 0 blen <=? max_body_bytes g)) by (by destruct blen; simpl; [|symmetry; apply N.leb_le; lia]).
  rewrite Hf. destruct (budget_asked _ _ (default 0 blen) Hb1 Hbind Hlen) as (t&Ht&Hfits). simpl in Ht, Hfits.
  rewrite Ht. clear Hf Ht. simpl. destruct t; [answers|]. specialize (Hfits eq_refl).
  destruct (admit_op g blen) as [g2 r2] eqn:Hadm.
  assert (Hg2 : gate_ok g2).
  { eapply (gate_step_ok (DateTime := DateTime) g (ControlOp blen) g2 r2); [done|done|]. simpl. by rewrite Hadm. }
  assert (Hbody : ∀ v, r2 = Ok v → default 0 blen ≤ max_body_bytes g).
  { intros v ->. unfold admit_op in Hadm. destruct (_ <=? _); [done|]. destruct blen as [l|]; simpl; [|lia].
    by destruct (N.ltb_spec (max_body_bytes g) l). }
  apply admit_op_inv in Hadm as [(e&->&->)|(->&He&Hbytes&->)]; [answers| |done].
  eexists _, _. split; [reflexivity|]. split_and!; simpl; try done; [|by eauto 10].
  apply (push_op_ok (with_gate b g)); try done.
  - exact (bok_entries _ Hb1).
  - simpl. pose proof (bok_ops _ Hb1) as Hn. simpl in Hn. lia.
  - simpl. rewrite Hcharge. intros Hw. by apply Hfits; [eapply Hbody|].
Qed.

Lemma admit_call_spec b payload :
  buffer_ok b →
  ∃ b' r, admit_call b payload = (b', r) ∧ buffer_ok b' ∧
    outputs b' = outputs b ∧ declared_out_ports b' = declared_out_ports b ∧
    deferred_ids b' = deferred_ids b ∧ max_body_bytes (gate b') = max_body_bytes (gate b) ∧
    buf_entries b' = buf_entries b ∧ sinks (gate b') = sinks (gate b) ∧
    dropped (gate b') = dropped (gate b) ∧ defer_ops b' = defer_ops b.
Proof.
  intros Hb. unfold admit_call. destruct (charge_call (gate b)) as [g r] eqn:Hcall.
  destruct (charge_call_ok _ _ _ Hb Hcall) as (Hb1&Hs1&Hm1&Hd1).
  destruct r; [|answers]. destruct (negb _); answers.
Qed.

(** Nothing an activation was seeded with changes under its calls. *)
Definition same_seeding b b' : Prop :=
  outputs b' = outputs b ∧ declared_out_ports b' = declared_out_ports b ∧
  deferred_ids b' = deferred_ids b ∧ max_body_bytes (gate b') = max_body_bytes (gate b).

(** What an answered call adds to the buffered publishes, given what it was seeded with. *)
Definition entry_added (outs : gmap string OutputSpec) (ca : component_call * component_answer) : option BufferedPublish :=
  if negb (accepted ca.2) then None
  else
    let entry port body ov da :=
      (λ spec, mkBuffered port (out_channel spec) body (default (out_default_urgency spec) ov) ov da) <$> outs !! port in
    match ca.1 with
    | CallPublish port body => entry port body None None
    | CallPublishDeferred port body da => entry port body None (Some da)
    | CallPublishUrgent port body u => entry port body (Some u) None
    | _ => None
    end.

(** What it adds to the buffered control ops. *)
Definition op_added (outs : gmap string OutputSpec) (parked : gmap string (list Uuid))
    (ca : component_call * component_answer) : option (BufferedDeferOp Uuid) :=
  if negb (accepted ca.2) then None
  else
    let op port index kind :=
      spec ← outs !! port; ids ← parked !! port; mid ← ids !! N.to_nat index;
      Some (mkBufferedOp port (out_channel spec) mid kind) in
    match ca.1 with
    | CallCancel port index => op port index OpCancel
    | CallEdit port index body da => op port index (OpEdit body da)
    | _ => None
    end.

#[local] Ltac publishes port body ov da Hb :=
  let b' := fresh "b'" in let r := fresh "r" in let Hr := fresh "Hr" in
  destruct (publish_inner_spec _ port body ov da Hb) as (b'&r&->&?&?&?&?&?&?&Hr);
  eexists _, _; split; [reflexivity|]; unfold same_seeding, entry_added, op_added; simpl;
  destruct r; simpl; [destruct (outputs _ !! port)|]; destruct_and? Hr; simpl; rewrite ?app_nil_r; done.

#[local] Ltac defers port index kind Hb :=
  let b' := fresh "b'" in let r := fresh "r" in let Hr := fresh "Hr" in
  destruct (defer_inner_spec _ port index kind Hb) as (b'&r&->&?&?&?&?&?&?&?&?&Hr);
  eexists _, _; split; [reflexivity|]; unfold same_seeding, entry_added, op_added; simpl;
  destruct r; simpl; [destruct Hr as (?&?&?&->&->&Hr&?); simpl; rewrite Hr|]; simpl; rewrite ?app_nil_r; done.

Lemma component_step_ok b c :
  buffer_ok b →
  ∃ b' a, component_step b c = Returns (b', a) ∧ buffer_ok b' ∧ same_seeding b b' ∧
    buf_entries b' = buf_entries b ++ option_list (entry_added (outputs b) (c, a)) ∧
    defer_ops b' = defer_ops b ++ option_list (op_added (outputs b) (deferred_ids b) (c, a)) ∧
    (accepted a = false → sinks (gate b') = sinks (gate b) ∧ dropped (gate b') = dropped (gate b)).
Proof.
  intros Hb. destruct c as [payload|port body|port body da|port body u|port index|port index body da]; simpl;
    unfold buffer_publish, publish_deferred, publish_with_urgency, defer_cancel, defer_edit.
  - destruct (admit_call_spec b payload Hb) as (b'&r&->&Hb'&?&?&?&?&He&Hs&Hd&Ho).
    eexists _, _. split; [reflexivity|]. unfold same_seeding, entry_added, op_added.
    rewrite He, Ho. destruct r; simpl; rewrite !app_nil_r; done.
  - publishes port body (None : option Urgency) (None : option N) Hb.
  - publishes port body (None : option Urgency) (Some da) Hb.
  - publishes port body (Some u) (None : option N) Hb.
  - defers port index OpCancel Hb.
  - defers port index (OpEdit body da) Hb.
Qed.

Lemma component_run_ok b cs :
  buffer_ok b →
  ∃ b' answers, component_run b cs = Returns (b', answers) ∧ buffer_ok b' ∧ same_seeding b b' ∧
    length answers = length cs ∧
    buf_entries b' = buf_entries b ++ omap (entry_added (outputs b)) (zip cs answers) ∧
    defer_ops b' = defer_ops b ++ omap (op_added (outputs b) (deferred_ids b)) (zip cs answers).
Proof.
  revert b. induction cs as [|c cs IH]; intros b Hb.
  { eexists _, _. split; [reflexivity|]. by rewrite !app_nil_r. }
  destruct (component_step_ok b c Hb) as (b1&a&Hs&Hb1&(Ho&Hd&Hp&Hm)&He&Hops&_).
  destruct (IH b1 Hb1) as (b2&answers&Hr&Hb2&(Ho2&Hd2&Hp2&Hm2)&Hlen&He2&Hops2).
  exists b2, (a :: answers). simpl component_run. rewrite Hs. simpl. rewrite Hr. simpl. split; [done|]. split; [done|].
  split; [by split_and!; etrans|]. split; [by f_equal|].
  rewrite He2, Hops2, He, Hops, Ho, Hp, <- !app_assoc. simpl.
  by destruct (entry_added _ _), (op_added _ _ _).
Qed.

Lemma buffer_new_ok outs declared sink_mt max_body parked :
  seeded outs sink_mt max_body → buffer_ok (buffer_new outs declared sink_mt max_body parked).
Proof.
  intros Hs. split; simpl; try done.
  - split; simpl; try done. apply Hs.
  - unfold wire_charge. simpl. apply N.le_0_l.
Qed.

Lemma take_returns b :
  buffer_ok b → buffer_take b = Returns (mkBufferedFlush (buf_entries b) (defer_ops b) (sinks (gate b))).
Proof.
  intros [Hg _ He _ _ _ _]. unfold buffer_take. pose proof (ok_entries _ Hg).
  rewrite u64_add_small, He, N.eqb_refl; [done|].
  unfold MAX_PUBLISHES_PER_ACTIVATION, u64_max in *. lia.
Qed.

Lemma buffered_batch_legal b :
  buffer_ok b →
  check_batch_legality (wire_entries (buf_entries b)) (wire_ops (defer_ops b)) (max_body_bytes (gate b)) = Ok ().
Proof.
  intros [Hg [Hcap _] He Ho _ _ Hc]. destruct Hg as [Hge Hgo _ _ _]. unfold wire_charge in Hc.
  assert (len (wire_entries (buf_entries b)) ≤ len (buf_entries b)) as Hl1.
  { unfold wire_entries. rewrite len_fmap. unfold len. pose proof (length_filter (λ e, on_wire (bf_channel e)) (buf_entries b)). lia. }
  assert (len (wire_ops (defer_ops b)) ≤ len (defer_ops b)) as Hl2.
  { unfold wire_ops. rewrite len_fmap. unfold len. pose proof (length_filter (λ o, on_wire (bo_channel o)) (defer_ops b)). lia. }
  unfold MAX_PUBLISHES_PER_ACTIVATION in *. unfold check_batch_legality.
  rewrite batch_charged_exact, u64_add_small by (unfold u64_max in *; lia).
  unfold MAX_BATCH_OPS. rewrite (proj2 (N.ltb_ge 512 _)), (proj2 (N.ltb_ge _ _)) by lia. done.
Qed.

(** *** What the gate saw of the buffered work *)

Definition buffered_bytes b : N :=
  sum (str_len ∘ bf_body <$> buf_entries b) + sum (edit_charge ∘ bo_kind <$> defer_ops b).
Definition op_time (k : DeferOp) : option N := match k with OpEdit _ da => da | OpCancel => None end.

Definition bound_on b (channel : string) : Prop :=
  ∃ port spec, outputs b !! port = Some spec ∧ channel = out_channel spec.

(** The bodies were counted, every release time passed the gate's check, and every channel is
    the one a bound port names. *)
Record gated b : Prop := {
  gd_bytes : buffered_bytes b ≤ bytes (gate b);
  gd_entries : Forall (λ e, check_deliver_after (DateTime := DateTime) (bf_deliver_after e) = Ok () ∧ bound_on b (bf_channel e))
                 (buf_entries b);
  gd_ops : Forall (λ o, check_deliver_after (DateTime := DateTime) (op_time (bo_kind o)) = Ok () ∧ bound_on b (bo_channel o))
             (defer_ops b);
}.

Lemma gated_gate b g : gated b → bytes (gate b) ≤ bytes g → gated (with_gate b g).
Proof. intros [Hb He Ho] Hle. unfold buffered_bytes in Hb. split; [unfold buffered_bytes; simpl; lia|done|done]. Qed.

Lemma charge_call_bytes (g g' : ActivationGate string) r : charge_call g = (g', r) → bytes g' = bytes g.
Proof. unfold charge_call. by destruct (_ <? _); intros [= <- _]. Qed.

Lemma gated_publish b port body ov da b' r :
  buffer_ok b → gated b → publish_inner (DateTime := DateTime) b port body ov da = Returns (b', r) → gated b'.
Proof.
  intros Hb Hg. unfold publish_inner. destruct (charge_call (gate b)) as [g rc] eqn:Hcall.
  destruct (charge_call_ok _ _ _ Hb Hcall) as (Hb1&_&_&_). pose proof (charge_call_bytes _ _ _ Hcall) as Hby.
  assert (gated (with_gate b g)) as Hg1 by (apply gated_gate; [done|lia]).
  destruct rc; [|by intros [= <- _]]. simpl outputs. destruct (outputs b !! port) as [spec|] eqn:Hport.
  - cbv zeta. match goal with |- context [mbind _ (if ?c then ?x else ?y)] => destruct (if c then x else y) as [[]|] end; [by intros [= <- _]| |done]. cbn [mbind panics_bind].
    destruct (seed_bound _ _ _ (bok_seeded _ Hb1) _ _ Hport) as (_&_&Hsink).
    destruct (admit_publish _ _) as [[g2 r2]|] eqn:Hadm; [|done]. cbn [mbind panics_bind].
    assert (Hda : ∀ v, r2 = Ok v → check_deliver_after (DateTime := DateTime) da = Ok ()).
    { intros v ->. unfold admit_publish in Hadm. simpl in Hadm. destruct (_ <? _); [done|].
      by destruct (check_deliver_after da) as [[]|]. }
    apply admit_publish_inv in Hadm as [(e&->&->)|(rem&->&_&_&_&_&->)]; [..|apply Hb1|by split].
    { intros [= <- _]. exact Hg1. }
    intros [= <- _]. destruct Hg1 as [H1 H2 H3]. split; simpl.
    + unfold buffered_bytes in *. simpl in *. rewrite fmap_app, sum_app. cbn [fmap list_fmap sum foldr compose bf_body]. lia.
    + apply Forall_app. split; [exact H2|]. apply Forall_singleton. split; [by eapply Hda|]. by exists port, spec.
    + exact H3.
  - unfold publish_unwired. destruct (port_for_report_returns port) as [name ->]. cbn [mbind panics_bind].
    destruct (negb _); [by intros [= <- _]|].
    destruct (admit_publish_without_sink _ _ _ _) as [g2 r2] eqn:Hadm.
    apply admit_without_sink_inv in Hadm as [(e&->&->)|(->&_&_&->)]; [..|apply Hb1|done]; intros [= <- _];
      (apply (gated_gate (with_gate b g)); [done|simpl; lia]).
Qed.

Lemma gated_defer b port index kind b' r :
  buffer_ok b → gated b → defer_inner (DateTime := DateTime) b port index kind = Returns (b', r) → gated b'.
Proof.
  intros Hb Hg. unfold defer_inner. destruct (check_deliver_after _) as [[]|] eqn:Hda; [|by intros [= <- _]].
  destruct (charge_call (gate b)) as [g rc] eqn:Hcall.
  destruct (charge_call_ok _ _ _ Hb Hcall) as (Hb1&_&_&_). pose proof (charge_call_bytes _ _ _ Hcall) as Hby.
  assert (gated (with_gate b g)) as Hg1 by (apply gated_gate; [done|lia]).
  destruct rc; [|by intros [= <- _]]. simpl outputs. destruct (outputs b !! port) as [spec|] eqn:Hport.
  2: { destruct (negb _); [|by intros [= <- _]]. destruct (port_for_report_returns port) as [name ->]. by intros [= <- _]. }
  simpl deferred_ids. destruct (deferred_ids b !! port) as [ids|]; simpl; [|by intros [= <- _]].
  destruct (ids !! N.to_nat index) as [mid|]; [|by intros [= <- _]].
  cbv zeta. match goal with |- context [mbind _ (if ?c then ?x else ?y)] => destruct (if c then x else y) as [[]|] end; [by intros [= <- _]| |done]. cbn [mbind panics_bind].
  destruct (admit_op _ _) as [g2 r2] eqn:Hadm.
  apply admit_op_inv in Hadm as [(e&->&->)|(->&_&_&->)]; [..|apply Hb1]; [by intros [= <- _]|].
  intros [= <- _]. destruct Hg1 as [H1 H2 H3]. split; simpl.
  - unfold buffered_bytes in *. simpl in *. rewrite fmap_app, sum_app. cbn [fmap list_fmap sum foldr compose bo_kind].
    assert (edit_charge kind = default 0 match kind with OpEdit (Some body) _ => Some (str_len body) | _ => None end) as ->
      by (by destruct kind as [|[]]). lia.
  - exact H2.
  - apply Forall_app. split; [exact H3|]. apply Forall_singleton. split; [exact Hda|]. by exists port, spec.
Qed.

Lemma gated_step b c b' a :
  buffer_ok b → gated b → component_step b c = Returns (b', a) → gated b'.
Proof.
  intros Hb Hg. destruct c; simpl;
    unfold buffer_publish, publish_deferred, publish_with_urgency, defer_cancel, defer_edit.
  - unfold admit_call. destruct (charge_call (gate b)) as [g rc] eqn:Hcall. pose proof (charge_call_bytes _ _ _ Hcall).
    destruct rc; [destruct (negb _)|]; intros [= <- _]; (apply gated_gate; [done|lia]).
  - destruct (publish_inner _ _ _ _ _) as [[b1 r]|] eqn:Hp; [|done]. intros [= <- _]. by eapply gated_publish.
  - destruct (publish_inner _ _ _ _ _) as [[b1 r]|] eqn:Hp; [|done]. intros [= <- _]. by eapply gated_publish.
  - destruct (publish_inner _ _ _ _ _) as [[b1 r]|] eqn:Hp; [|done]. intros [= <- _]. by eapply gated_publish.
  - destruct (defer_inner _ _ _ _) as [[b1 r]|] eqn:Hp; [|done]. intros [= <- _]. by eapply gated_defer.
  - destruct (defer_inner _ _ _ _) as [[b1 r]|] eqn:Hp; [|done]. intros [= <- _]. by eapply gated_defer.
Qed.

Lemma gated_run cs : ∀ b b' answers,
  buffer_ok b → gated b → component_run b cs = Returns (b', answers) → buffer_ok b' ∧ gated b'.
Proof.
  induction cs as [|c cs IH]; intros b b' answers Hb Hg; simpl; [by intros [= <- _]|].
  destruct (component_step_ok b c Hb) as (b1&a&Hs&Hb1&_). rewrite Hs. simpl.
  destruct (component_run b1 cs) as [[b2 an]|] eqn:Hr; [|done]. intros [= <- _].
  eapply (IH b1); [exact Hb1|by apply (gated_step b c b1 a)|exact Hr].
Qed.

Lemma gated_new outs declared sink_mt max_body (parked : gmap string (list Uuid)) :
  gated (buffer_new outs declared sink_mt max_body parked).
Proof. split; simpl; [done|constructor|constructor]. Qed.
End run.
End BufferRun.

Module BufferProps.
Import Envelope Proto Store Budget GateRun Buffer BufferRun.

Section props.
Context {Uuid DateTime : Type} `{Chrono DateTime} `{DebugStr}.

(** C30: (page buffer) Whatever a component calls, and however often, no call of its publish
    buffer unwinds, the hand-over of an ok activation returns (the gate's count and the
    buffered entries agree), and what it hands over is a batch the protocol's law admits:
    the frame composed from the work bound for the wire is never refused for its size,
    although no call was told so before. *)
Theorem buffered_flush_is_always_legal (outs : gmap string OutputSpec) (declared : gset string)
    (sink_mt : gmap string N) (max_body : N) (parked : gmap string (list Uuid)) (cs : list component_call) :
  seeded outs sink_mt max_body →
  ∃ b answers flush,
    component_run (DateTime := DateTime) (buffer_new outs declared sink_mt max_body parked) cs = Returns (b, answers) ∧
    buffer_take b = Returns flush ∧
    check_batch_legality (wire_entries (bfl_publishes flush)) (wire_ops (bfl_defer_ops flush)) max_body = Ok () ∧
    len (bfl_publishes flush) ≤ 256 ∧ len (bfl_defer_ops flush) ≤ 256.
Proof.
  intros Hs. pose proof (buffer_new_ok outs declared sink_mt max_body parked Hs) as Hb.
  destruct (component_run_ok (DateTime := DateTime) _ cs Hb) as (b&answers&Hr&Hb'&(_&_&_&Hm)&_).
  exists b, answers, (mkBufferedFlush (buf_entries b) (defer_ops b) (sinks (gate b))).
  split; [done|]. split; [by apply take_returns|]. simpl in Hm |- *. rewrite <- Hm.
  split; [by apply buffered_batch_legal|].
  destruct Hb' as [[He Ho _ _ _] _ Hn Hk _ _ _]. unfold MAX_PUBLISHES_PER_ACTIVATION in *. lia.
Qed.

(** (page buffer) What an ok activation hands over is exactly the calls it was told
    were accepted, in call order: one entry per accepted publish on a wired port, with the
    channel and the urgency the port resolved to at the call, one op per accepted control
    op, naming the message its snapshot index shows, and nothing of a refused call. *)
Theorem buffer_holds_exactly_what_it_accepted (outs : gmap string OutputSpec) (declared : gset string)
    (sink_mt : gmap string N) (max_body : N) (parked : gmap string (list Uuid)) (cs : list component_call)
    (b : PublishBuffer Uuid) (answers : list component_answer) :
  seeded outs sink_mt max_body →
  component_run (DateTime := DateTime) (buffer_new outs declared sink_mt max_body parked) cs = Returns (b, answers) →
  buffer_take b = Returns (mkBufferedFlush (omap (entry_added outs) (zip cs answers))
                             (omap (op_added outs parked) (zip cs answers)) (into_carry b)).
Proof.
  intros Hs Hrun. pose proof (buffer_new_ok outs declared sink_mt max_body parked Hs) as Hb.
  destruct (component_run_ok (DateTime := DateTime) _ cs Hb) as (b'&answers'&Hr&Hb'&_&_&He&Ho).
  rewrite Hr in Hrun. injection Hrun as -> ->. rewrite take_returns by done. by rewrite He, Ho.
Qed.
End props.

(** A page with one wired output on the wire, one confined, one declared and unwired. *)
Definition demo_outs : gmap string OutputSpec :=
  {[ "out" := mkOutput "brenn:room" Normal; "near" := mkOutput "local:bar" High ]}.
Definition demo_sinks : gmap string N := {[ "out" := 2000; "near" := 1000 ]}.
Definition demo_calls : list component_call :=
  [CallPublish "out" "hi"; CallPublishUrgent "near" "there" Low; CallPublish "spare" "lost";
   CallCancel "out" 0; CallPublish "out" "far too long a body"].

#[local] Instance demo_debug : DebugStr := λ s, s.
#[local] Instance demo_chrono : Chrono Z := { from_timestamp_millis := Some; timestamp_millis := λ z, z }.

Lemma demo_seeded : seeded demo_outs demo_sinks 30.
Proof.
  split; [done|]. intros port spec. unfold demo_outs, demo_sinks.
  rewrite lookup_insert_Some, lookup_singleton_Some. intros [[<- <-]|[_ [<- <-]]]; (split; [done|]; split; [vm_compute; discriminate|eauto]).
Qed.

Definition demo_buffer : PublishBuffer nat :=
  buffer_new demo_outs {["out"; "near"; "spare"]} demo_sinks 30 {["out" := [7%nat]]}.

(** The answers alone, so that no map is ever printed back. *)
Lemma demo_answers :
  match component_run (DateTime := Z) demo_buffer demo_calls with Returns (_, a) => Some a | Panics _ => None end =
  Some [PublishAnswer (Ok ()); PublishAnswer (Ok ()); PublishAnswer (Ok ()); DeferAnswer (Ok ());
        PublishAnswer (Err (FaultRefused PublishQuota))].
Proof. reflexivity. Qed.

Lemma buffered_flush_is_always_legal_witness :
  match component_run (DateTime := Z) demo_buffer demo_calls with
  | Returns (b, answers) =>
      accepted <$> answers = [true; true; true; true; false] ∧
      ∃ flush, buffer_take b = Returns flush ∧
        check_batch_legality (wire_entries (bfl_publishes flush)) (wire_ops (bfl_defer_ops flush)) 30 = Ok ()
  | Panics _ => False
  end.
Proof.
  destruct (buffered_flush_is_always_legal (DateTime := Z) demo_outs {["out"; "near"; "spare"]} demo_sinks 30
    {["out" := [7%nat]]} demo_calls demo_seeded) as (b&answers&flush&Hr&Ht&Hl&_).
  pose proof demo_answers as Ha. fold demo_buffer in Hr. rewrite Hr in Ha |- *. injection Ha as ->.
  split; [reflexivity|]. exists flush. exact (conj Ht Hl).
Defined.

Lemma buffer_holds_exactly_what_it_accepted_witness :
  match component_run (DateTime := Z) demo_buffer demo_calls with
  | Returns (b, _) =>
      buffer_take b = Returns (mkBufferedFlush
        [mkBuffered "out" "brenn:room" "hi" Normal None None; mkBuffered "near" "local:bar" "there" Low (Some Low) None]
        [mkBufferedOp "out" "brenn:room" 7%nat OpCancel] (into_carry b))
  | Panics _ => False
  end.
Proof.
  pose proof demo_answers as Ha. destruct (component_run (DateTime := Z) demo_buffer demo_calls) as [[b answers]|] eqn:Hr;
    [|discriminate Ha]. injection Ha as ->.
  exact (buffer_holds_exactly_what_it_accepted (DateTime := Z) demo_outs {["out"; "near"; "spare"]} demo_sinks 30
    {["out" := [7%nat]]} demo_calls b _ demo_seeded Hr).
Defined.
End BufferProps.
