(* ===== verification/Wiring.v ===== *)
(** * A surface's wiring ([surface/schema/src/{bindings,lib}.rs], [surface/kernel/src/bindings.rs])

    The bindings document a page runs on: the components it mounts, the channel behind each
    of their ports, the calls they may raise on each other. [Wiring] holds the document, its
    validation with the search for a cycle of calls, and the indexes a page builds over a
    valid one; [CallGraph] proves the search, [Indexed] the indexes, [WiringProps] states what
    a page may rely on. Reading the JSON is [serde]'s; an unusable document is modelled as the
    rule it breaks, not as the rendered sentence. *)

From S2P Require Import Prelude Envelope Ring Cursor Deferred RingCore Budget Activation Proto Subs AttachStore Text Grants Buffer.

#[local] Open Scope N_scope.
#[local] Open Scope list_scope.

Module Wiring.
Import Envelope Proto Subs Buffer.

(** [LogLevel]. *)
Inductive LogLevel := Trace | Debugging | Info | Warn | ErrorLevel.

(** *** Entries ([surface/schema/src/lib.rs]) *)

(** [LocalChannel]. *)
Record LocalChannel := mkLocalChannel { lc_channel : string; lc_ring_depth : N }.

(** [ComponentEntry]. *)
Record ComponentEntry := mkComponent {
  ce_instance : string;
  ce_kind : string;
  ce_parked_batch_depth : N;
  ce_grants : list CG.ComponentGrant;
  ce_declared_out_ports : list string;
  ce_sync_ports : list string;
  ce_call_ports : list string;
  ce_config : gmap string string;
}.

(** [Binding]. *)
Record Binding := mkBinding {
  b_channel : string;
  b_instance : string;
  b_port : string;
  b_push_depth : N;
  b_retain_depth : N;
  b_noise : NoiseLevel;
}.

(** [OutputBinding]. *)
Record OutputBinding := mkOutputBinding {
  o_channel : string;
  o_instance : string;
  o_port : string;
  o_urgency : Urgency;
  o_fill_mt : N;
  o_capacity_mt : N;
}.

(** [CallBinding]. *)
Record CallBinding := mkCallBinding {
  c_instance : string;
  c_port : string;
  c_target_instance : string;
  c_target_port : string;
}.

(** [ReservedLocalChannel]. *)
Record ReservedLocalChannel := mkReserved {
  r_address : string;
  r_ring_depth : N;
  r_kernel_publish_only : bool;
  r_requires_takeover_grant : bool;
}.

Definition LOCAL_THEME_CHANNEL : string := "local:brenn/theme".
Definition LOCAL_TAKEOVER_CHANNEL : string := "local:brenn/takeover".
Definition LOCAL_LINK_STATE_CHANNEL : string := "local:brenn/link-state".
Definition LOCAL_SURFACE_STATE_CHANNEL : string := "local:brenn/surface-state".
Definition LOCAL_TOAST_CHANNEL : string := "local:brenn/toast".
Definition LOCAL_OVERLAY_STATE_CHANNEL : string := "local:brenn/overlay-state".

Definition RESERVED_LOCAL_CHANNELS : list ReservedLocalChannel :=
  [mkReserved LOCAL_THEME_CHANNEL 1 false false;
   mkReserved LOCAL_TAKEOVER_CHANNEL 1 false true;
   mkReserved LOCAL_LINK_STATE_CHANNEL 1 true false;
   mkReserved LOCAL_SURFACE_STATE_CHANNEL 1 true false;
   mkReserved LOCAL_TOAST_CHANNEL 0 true false;
   mkReserved LOCAL_OVERLAY_STATE_CHANNEL 1 false true].

(** [reserved_local_channel]. *)
Definition reserved_local_channel (address : string) : option ReservedLocalChannel :=
  snd <$> list_find (λ c, r_address c = address) RESERVED_LOCAL_CHANNELS.

(** *** The document ([surface/schema/src/bindings.rs]) *)

Definition BINDINGS_DOCUMENT_VERSION : N := 5.
Definition STATUS_INTERVAL_SECS_MIN : N := 5.
Definition STATUS_INTERVAL_SECS_MAX : N := 3600.

(** [PlatformSection]. *)
Record PlatformSection := mkPlatform {
  p_geometry_channel : string;
  p_status_channel : string;
  p_status_interval_secs : N;
  p_error_channel : option string;
  p_error_report_floor : option LogLevel;
}.

(** [BindingsDocument]. *)
Record BindingsDocument := mkDocument {
  d_v : N;
  d_components : list ComponentEntry;
  d_subscriptions : list Binding;
  d_outputs : list OutputBinding;
  d_calls : list CallBinding;
  d_local_channels : list LocalChannel;
  d_chrome_instance : string;
  d_platform : PlatformSection;
}.

(** [BindingsError], by the rule a document breaks. *)
Inductive BindingsError :=
| DoesNotParse
| UnknownVersion (v : N)
| InstanceTwice (instance : string)
| UnsortedPorts (instance : string)
| UnsortedSync (instance : string)
| UnsortedCalls (instance : string)
| OutputTwice (instance port : string)
| InputTwice (instance port : string)
| OutputUndeclared (instance port : string)
| CallTwice (instance port : string)
| CallerUnknown (instance port : string)
| CallUndeclared (instance port : string)
| CalleeUnknown (instance port target : string)
| CalleeUndeclared (instance port target target_port : string)
| CallCycle (cycle : list string)
| LocalTwice (channel : string)
| Unbindable (channel : string)
| LocalWithoutRouter (channel : string)
| ReservedDepth (channel : string) (depth contract : N)
| BoundInstanceUnknown (instance port channel : string)
| ChromeUnknown (instance : string)
| ChannelWithoutFloor (channel : string)
| FloorWithoutChannel (floor : LogLevel)
| PlatformUnwireable (field channel : string)
| StatusInterval (secs : N)
| UnusablePush (instance port channel : string) (depth : N)
| UnusableRetain (instance port channel : string) (depth : N).

(** A sequence of checks with [?] after each: the first refusal is the answer. *)
Fixpoint first_err {E} (l : list (result unit E)) : result unit E :=
  match l with
  | [] => Ok ()
  | Ok _ :: l => first_err l
  | Err e :: _ => Err e
  end.

(** A loop that inserts each key into a set and refuses the first one already there. *)
Fixpoint refuse_repeats {A K E} `{Countable K} (key : A → K) (err : A → E) (seen : gset K) (l : list A)
    : result unit E :=
  match l with
  | [] => Ok ()
  | x :: l => if decide (key x ∈ seen) then Err (err x) else refuse_repeats key err ({[key x]} ∪ seen) l
  end.

(** A condition and the refusal it costs. *)
Definition refuse_if {E} (b : bool) (e : E) : result unit E := if b then Err e else Ok ().

(** [windows(2).any(|w| w[0] >= w[1])]. *)
Fixpoint unsorted (l : list string) : bool :=
  match l with
  | a :: (b :: _) as l' => match String.compare a b with Lt => unsorted l' | _ => true end
  | _ => false
  end.

(** Collecting pairs into a map: a later entry replaces an earlier one. *)
Definition collect {A} (l : list (string * A)) : gmap string A :=
  foldl (λ m kv, <[kv.1 := kv.2]> m) ∅ l.

(** *** Cycles of calls *)

(** The adjacency [call_cycle] builds: [out.entry(..).or_default().push(..)]. *)
Definition call_targets (calls : list CallBinding) : gmap string (list string) :=
  foldl (λ out c, <[c_instance c := default [] (out !! c_instance c) ++ [c_target_instance c]]> out) ∅ calls.

(** The walk's state; the stack is kept with its top first. Colours: 0 unvisited, 1 on the
    current path, 2 finished. *)
Record walk := mkWalk {
  colour : gmap string N;
  path : list string;
  stack : list (string * nat);
}.

Inductive walk_step := Walking (w : walk) | Walked (w : walk) | Found (cycle : list string).

Definition colour_of (w : walk) (n : string) : N := default 0 (colour w !! n).

(** One turn of the inner loop of [call_cycle]. *)
Definition walk_turn (out : gmap string (list string)) (w : walk) : panics walk_step :=
  match stack w with
  | [] => Returns (Walked w)
  | (node, edge) :: rest =>
      match (targets ← out !! node; targets !! edge) with
      | None => Returns (Walking (mkWalk (<[node := 2]> (colour w)) (take (length (path w) - 1) (path w)) rest))
      | Some target =>
          let stack' := (node, S edge) :: rest in
          let c := colour_of w target in
          if c =? 1 then
            from ← rust_expect (fst <$> list_find (λ n, n = target) (path w)) "a node coloured on-path is on the path";
            Returns (Found (drop from (path w) ++ [target]))
          else if c =? 2 then Returns (Walking (mkWalk (colour w) (path w) stack'))
          else Returns (Walking (mkWalk (<[target := 1]> (colour w)) (path w ++ [target]) ((target, 0%nat) :: stack')))
      end
  end.

(** The inner loop; [None] when the fuel runs out. *)
Fixpoint walk_loop (out : gmap string (list string)) (fuel : nat) (w : walk) : panics (option (walk_step)) :=
  match fuel with
  | O => Returns None
  | S fuel =>
      s ← walk_turn out w;
      match s with
      | Walking w => walk_loop out fuel w
      | s => Returns (Some s)
      end
  end.

(** The outer loop of [call_cycle]: a walk from every caller not reached yet. *)
Fixpoint walk_starts (out : gmap string (list string)) (fuel : nat) (w : walk) (starts : list string)
    : panics (option (option (list string))) :=
  match starts with
  | [] => Returns (Some None)
  | start :: starts =>
      if negb (colour_of w start =? 0) then walk_starts out fuel w starts
      else
        r ← walk_loop out fuel (mkWalk (<[start := 1]> (colour w)) (path w ++ [start]) [(start, 0%nat)]);
        match r with
        | None => Returns None
        | Some (Found cycle) => Returns (Some (Some cycle))
        | Some (Walked w) | Some (Walking w) => walk_starts out fuel w starts
        end
  end.

(** Every turn uses up an edge or finishes a node, and every node is on some call. *)
Definition walk_fuel (calls : list CallBinding) : nat := S (3 * length calls).

(** [call_cycle]. *)
Definition call_cycle (calls : list CallBinding) : panics (option (list string)) :=
  r ← walk_starts (call_targets calls) (walk_fuel calls) (mkWalk ∅ [] []) (c_instance <$> calls);
  rust_expect r "the walk ends".

(** [BindingsDocument::validate], up to the search for a cycle. *)
Definition validate_ports (d : BindingsDocument) : result unit BindingsError :=
  let declared := collect ((λ c, (ce_instance c, ce_declared_out_ports c)) <$> d_components d) in
  let sync := collect ((λ c, (ce_instance c, ce_sync_ports c)) <$> d_components d) in
  first_err
    [refuse_repeats ce_instance (λ c, InstanceTwice (ce_instance c)) ∅ (d_components d);
     first_err ((λ c, first_err
       [refuse_if (unsorted (ce_declared_out_ports c)) (UnsortedPorts (ce_instance c));
        refuse_if (unsorted (ce_sync_ports c)) (UnsortedSync (ce_instance c));
        refuse_if (unsorted (ce_call_ports c)) (UnsortedCalls (ce_instance c))]) <$> d_components d);
     refuse_repeats (λ b, (o_instance b, o_port b)) (λ b, OutputTwice (o_instance b) (o_port b)) ∅ (d_outputs d);
     refuse_repeats (λ b, (b_instance b, b_port b)) (λ b, InputTwice (b_instance b) (b_port b)) ∅ (d_subscriptions d);
     first_err ((λ b,
       match declared !! o_instance b with
       | Some ports => refuse_if (negb (bool_decide (o_port b ∈ ports))) (OutputUndeclared (o_instance b) (o_port b))
       | None => Ok ()
       end) <$> d_outputs d);
     refuse_repeats (λ c, (c_instance c, c_port c)) (λ c, CallTwice (c_instance c) (c_port c)) ∅ (d_calls d);
     first_err ((λ c,
       match list_find (λ e, ce_instance e = c_instance c) (d_components d) with
       | None => Err (CallerUnknown (c_instance c) (c_port c))
       | Some (_, caller) =>
           if negb (bool_decide (c_port c ∈ ce_call_ports caller)) then Err (CallUndeclared (c_instance c) (c_port c))
           else
             match sync !! c_target_instance c with
             | None => Err (CalleeUnknown (c_instance c) (c_port c) (c_target_instance c))
             | Some ports =>
                 refuse_if (negb (bool_decide (c_target_port c ∈ ports)))
                   (CalleeUndeclared (c_instance c) (c_port c) (c_target_instance c) (c_target_port c))
             end
       end) <$> d_calls d)].

(** [BindingsDocument::validate], after it. *)
Definition validate_channels (d : BindingsDocument) : result unit BindingsError :=
  let declares instance := bool_decide (Exists (λ c, ce_instance c = instance) (d_components d)) in
  let p := d_platform d in
  first_err
    [refuse_repeats lc_channel (λ lc, LocalTwice (lc_channel lc)) ∅ (d_local_channels d);
     first_err ((λ channel, first_err
       [refuse_if (negb (surface_bindable_address channel)) (Unbindable channel);
        refuse_if (is_local_channel channel &&
                   negb (bool_decide (Exists (λ lc, lc_channel lc = channel) (d_local_channels d))))
          (LocalWithoutRouter channel)]) <$> ((b_channel <$> d_subscriptions d) ++ (o_channel <$> d_outputs d)));
     first_err ((λ lc,
       match reserved_local_channel (lc_channel lc) with
       | Some r => refuse_if (negb (lc_ring_depth lc =? r_ring_depth r))
                     (ReservedDepth (lc_channel lc) (lc_ring_depth lc) (r_ring_depth r))
       | None => Ok ()
       end) <$> d_local_channels d);
     first_err ((λ '(instance, port, channel), refuse_if (negb (declares instance)) (BoundInstanceUnknown instance port channel)) <$>
       (((λ b, (b_instance b, b_port b, b_channel b)) <$> d_subscriptions d) ++
        ((λ b, (o_instance b, o_port b, o_channel b)) <$> d_outputs d)));
     refuse_if (negb (declares (d_chrome_instance d))) (ChromeUnknown (d_chrome_instance d));
     match p_error_channel p, p_error_report_floor p with
     | Some _, Some _ | None, None => Ok ()
     | Some channel, None => Err (ChannelWithoutFloor channel)
     | None, Some floor => Err (FloorWithoutChannel floor)
     end;
     first_err ((λ '(field, channel),
       refuse_if (negb (surface_bindable_address channel) || is_local_channel channel) (PlatformUnwireable field channel)) <$>
       ([("geometry_channel"%string, p_geometry_channel p); ("status_channel"%string, p_status_channel p)] ++
        option_list (pair "error_channel"%string <$> p_error_channel p)));
     refuse_if (negb ((STATUS_INTERVAL_SECS_MIN <=? p_status_interval_secs p) &&
                      (p_status_interval_secs p <=? STATUS_INTERVAL_SECS_MAX))) (StatusInterval (p_status_interval_secs p))].

(** [BindingsDocument::validate]. *)
Definition validate (d : BindingsDocument) : panics (result unit BindingsError) :=
  match validate_ports d with
  | Err e => Returns (Err e)
  | Ok _ =>
      cycle ← call_cycle (d_calls d);
      Returns (match cycle with Some cycle => Err (CallCycle cycle) | None => validate_channels d end)
  end.

(** [BindingsDocument::parse], past the JSON. *)
Definition parse_document (d : option BindingsDocument) : panics (result BindingsDocument BindingsError) :=
  match d with
  | None => Returns (Err DoesNotParse)
  | Some d =>
      if negb (d_v d =? BINDINGS_DOCUMENT_VERSION) then Returns (Err (UnknownVersion (d_v d)))
      else
        r ← validate d;
        Returns (match r with Ok _ => Ok d | Err e => Err e end)
  end.

(** *** The indexes ([surface/kernel/src/bindings.rs]) *)

(** [AppliedBindings]. *)
Record AppliedBindings := mkApplied {
  a_body : string;
  a_doc : BindingsDocument;
  a_components : gmap string nat;
  a_outputs : gmap string (gmap string nat);
  a_inputs_by_channel : gmap string (list nat);
  a_wire_depths : gmap string SubscriptionDepths;
  a_store_depths : gmap string N;
  a_declared_out_ports : gmap string (gset string);
  a_calls : gmap string (gmap string nat);
  a_grants : gmap string (list CG.ComponentGrant);
}.

(** [check_sizable_within]; the bound is the target's [usize::MAX]. *)
Definition check_sizable_within (b : Binding) (max : N) : result unit BindingsError :=
  first_err [refuse_if (max <? b_push_depth b) (UnusablePush (b_instance b) (b_port b) (b_channel b) (b_push_depth b));
             refuse_if (max <? b_retain_depth b) (UnusableRetain (b_instance b) (b_port b) (b_channel b) (b_retain_depth b))].

(** A map from keys to positions, refusing a key inserted twice. *)
Definition index_keys {A} (key : A → string) (why : string) (l : list A) : panics (gmap string nat) :=
  foldl (λ acc '(i, x),
    m ← acc;
    _ ← rust_assert (bool_decide (m !! key x = None)) why;
    Returns (<[key x := i]> m)) (Returns ∅) (imap pair l).

(** The same, one level down: [entry(outer).or_default().insert(inner, i)]. *)
Definition index_pairs {A} (outer inner : A → string) (why : string) (l : list A) : panics (gmap string (gmap string nat)) :=
  foldl (λ acc '(i, x),
    m ← acc;
    let ports := default ∅ (m !! outer x) in
    _ ← rust_assert (bool_decide (ports !! inner x = None)) why;
    Returns (<[outer x := <[inner x := i]> ports]> m)) (Returns ∅) (imap pair l).

(** The three tables the inputs build, with the ports seen so far. *)
Record InputTables := mkTables {
  t_seen : gset (string * string);
  t_inputs : gmap string (list nat);
  t_wire : gmap string SubscriptionDepths;
  t_store : gmap string N;
}.

(** One turn of [index]'s loop over the subscriptions. *)
Definition index_input (max : N) (t : InputTables) (i : nat) (b : Binding) : panics (result InputTables BindingsError) :=
  _ ← rust_assert (bool_decide ((b_instance b, b_port b) ∉ t_seen t)) "surface client: bindings document binds input port twice";
  match check_sizable_within b max with
  | Err e => Returns (Err e)
  | Ok _ =>
      let inputs := <[b_channel b := default [] (t_inputs t !! b_channel b) ++ [i]]> (t_inputs t) in
      let store := <[b_channel b := N.max (default 0 (t_store t !! b_channel b))
                                      (N.max (b_push_depth b) (b_retain_depth b))]> (t_store t) in
      w ← channel_is_transportable (b_channel b);
      let stated := default (mkDepths 0 0) (t_wire t !! b_channel b) in
      let wire := if (w : bool)
        then <[b_channel b := mkDepths (N.max (push_depth stated) (b_push_depth b))
                                (N.max (retain_depth stated) (b_retain_depth b))]> (t_wire t)
        else t_wire t in
      Returns (Ok (mkTables ({[(b_instance b, b_port b)]} ∪ t_seen t) inputs wire store))
  end.

Definition index_inputs (max : N) (t : InputTables) (l : list Binding) : panics (result InputTables BindingsError) :=
  foldl (λ acc '(i, b),
    r ← acc;
    match r with Err e => Returns (Err e) | Ok t => index_input max t i b end) (Returns (Ok t)) (imap pair l).

(** The local channels' floors, refusing an address declared twice. *)
Definition index_locals (l : list LocalChannel) : panics (gset string * gmap string N) :=
  foldl (λ acc lc,
    '(seen, store) ← acc;
    _ ← rust_assert (bool_decide (lc_channel lc ∉ (seen : gset string))) "surface client: bindings document declares local channel twice";
    Returns ({[lc_channel lc]} ∪ seen,
             <[lc_channel lc := N.max (default 0 ((store : gmap string N) !! lc_channel lc)) (lc_ring_depth lc)]> store))
    (Returns (∅, ∅)) l.

(** A reserved plane's contract depth under a store the document declares. *)
Definition floor_reserved (store : gmap string N) : gmap string N :=
  foldl (λ m r, alter (N.max (r_ring_depth r)) (r_address r) m) store RESERVED_LOCAL_CHANNELS.

(** [AppliedBindings::index]. *)
Definition index (max : N) (body : string) (d : BindingsDocument) : panics (result AppliedBindings BindingsError) :=
  components ← index_keys ce_instance "surface client: bindings document declares component instance twice" (d_components d);
  outputs ← index_pairs o_instance o_port "surface client: bindings document binds output port twice" (d_outputs d);
  calls ← index_pairs c_instance c_port "surface client: bindings document binds call port twice" (d_calls d);
  '(_, store) ← index_locals (d_local_channels d);
  r ← index_inputs max (mkTables ∅ ∅ ∅ store) (d_subscriptions d);
  match r with
  | Err e => Returns (Err e)
  | Ok t =>
      Returns (Ok (mkApplied body d components outputs (t_inputs t) (t_wire t) (floor_reserved (t_store t))
        (collect ((λ c, (ce_instance c, list_to_set (ce_declared_out_ports c))) <$> d_components d))
        calls
        (collect ((λ c, (ce_instance c, ce_grants c)) <$> d_components d))))
  end.

(** [AppliedBindings::apply], past the JSON. *)
Definition apply_document (max : N) (body : string) (d : option BindingsDocument) : panics (result AppliedBindings BindingsError) :=
  r ← parse_document d;
  match r with Err e => Returns (Err e) | Ok d => index max body d end.

(** [&v[i]]. *)
Definition nth_checked {A} (l : list A) (i : nat) : panics A := rust_expect (l !! i) "index out of bounds".

(** [Option::map] with a body that may unwind. *)
Definition map_checked {A B} (f : A → panics B) (o : option A) : panics (option B) :=
  match o with Some a => b ← f a; Returns (Some b) | None => Returns None end.

(** [AppliedBindings::component]. *)
Definition component (a : AppliedBindings) (instance : string) : panics (option ComponentEntry) :=
  map_checked (nth_checked (d_components (a_doc a))) (a_components a !! instance).

(** [AppliedBindings::is_declared_instance]. *)
Definition is_declared_instance (a : AppliedBindings) (instance : string) : bool :=
  bool_decide (is_Some (a_components a !! instance)).

(** [AppliedBindings::instance_granted]. *)
Definition instance_granted (a : AppliedBindings) (instance : string) (grant : CG.ComponentGrant) : bool :=
  match a_grants a !! instance with Some held => bool_decide (grant ∈ held) | None => false end.

(** [AppliedBindings::output]. *)
Definition applied_output (a : AppliedBindings) (instance port : string) : panics (option OutputBinding) :=
  map_checked (nth_checked (d_outputs (a_doc a))) (ports ← a_outputs a !! instance; ports !! port).

(** [AppliedBindings::outputs_of]. *)
Definition outputs_of (a : AppliedBindings) (instance : string) : list OutputBinding :=
  filter (λ b, o_instance b = instance) (d_outputs (a_doc a)).

(** [AppliedBindings::declared_out_ports]. *)
Definition declared_ports (a : AppliedBindings) (instance : string) : panics (gset string) :=
  rust_expect (a_declared_out_ports a !! instance) "surface client: no declared port vocabulary for instance".

(** [AppliedBindings::call_target]. *)
Definition call_target (a : AppliedBindings) (instance port : string) : panics (option CallBinding) :=
  map_checked (nth_checked (d_calls (a_doc a))) (ports ← a_calls a !! instance; ports !! port).

(** [AppliedBindings::inputs_of]. *)
Definition inputs_of (a : AppliedBindings) (instance : string) : list Binding :=
  filter (λ b, b_instance b = instance) (d_subscriptions (a_doc a)).

(** [AppliedBindings::inputs_on]. *)
Definition inputs_on (a : AppliedBindings) (channel : string) : panics (list Binding) :=
  foldr (λ i acc, b ← nth_checked (d_subscriptions (a_doc a)) i; l ← acc; Returns (b :: l)) (Returns [])
    (default [] (a_inputs_by_channel a !! channel)).

(** [AppliedBindings::wire_depths], [AppliedBindings::store_depth]. *)
Definition wire_depths (a : AppliedBindings) (channel : string) : option SubscriptionDepths := a_wire_depths a !! channel.
Definition store_depth (a : AppliedBindings) (channel : string) : option N := a_store_depths a !! channel.

(** [AppliedBindings::same_wiring_as]. *)
Definition same_wiring_as (a b : AppliedBindings) : bool := bool_decide (a_body a = a_body b).
End Wiring.

(** ** The search for a cycle *)
Module CallGraph.
Import Wiring.
#[local] Open Scope nat_scope.

Section graph.
Context (calls : list CallBinding).
Implicit Types (w : walk) (n t : string).

(** One call may raise the next: the graph the rule is about. *)
Definition calls_on (x y : string) : Prop := ∃ c, c ∈ calls ∧ c_instance c = x ∧ c_target_instance c = y.

Fixpoint chain (l : list string) : Prop :=
  match l with
  | x :: (y :: _) as l' => calls_on x y ∧ chain l'
  | _ => True
  end.

(** A chain of calls that returns to where it began. *)
Definition cycle_of_calls (l : list string) : Prop := chain l ∧ ∃ x m, l = x :: m ++ [x].

Definition out : gmap string (list string) := call_targets calls.
Definition targets n : list string := default [] (out !! n).
Definition deg n : nat := length (targets n).
Definition nodes : list string := remove_dups ((c_instance <$> calls) ++ (c_target_instance <$> calls)).
Definition black w n : Prop := colour_of w n = 2%N.

(** The frames of the stack, each with the node above it: what a frame has walked past is
    finished, or is the node above; each node calls the one above. *)
Fixpoint frames_ok w (above : option string) (st : list (string * nat)) : Prop :=
  match st with
  | [] => True
  | (n, e) :: rest =>
      (∀ i t, i < e → targets n !! i = Some t → black w t ∨ above = Some t) ∧
      (∀ t, above = Some t → calls_on n t) ∧ frames_ok w (Some n) rest
  end.

Record walk_ok w : Prop := {
  wk_path : path w = reverse (fst <$> stack w);
  wk_nodup : NoDup (fst <$> stack w);
  wk_grey n : colour_of w n = 1%N ↔ n ∈ fst <$> stack w;
  wk_colours n : (colour_of w n ≤ 2)%N;
  wk_frames : frames_ok w None (stack w);
  wk_closed n t : black w n → calls_on n t → black w t;
  wk_acyclic n : black w n → ¬ tc calls_on n n;
  wk_nodes n : n ∈ fst <$> stack w → n ∈ nodes;
}.

Definition stays_coloured w w' : Prop := ∀ n, colour_of w n ≠ 0%N → colour_of w' n ≠ 0%N.

(** The edges still to walk and the nodes still to finish. *)
Definition measure w : nat :=
  sum_list_with (S ∘ deg) (filter (λ n, colour_of w n = 0%N) nodes) +
  sum_list_with (λ f, S (deg f.1 - f.2)) (stack w).

Lemma call_targets_snoc (l : list CallBinding) c :
  call_targets (l ++ [c]) =
  <[c_instance c := default [] (call_targets l !! c_instance c) ++ [c_target_instance c]]> (call_targets l).
Proof. unfold call_targets. by rewrite foldl_app. Qed.

Lemma targets_spec n t : t ∈ targets n ↔ calls_on n t.
Proof.
  unfold targets, out, calls_on. induction calls as [|c l IH] using rev_ind.
  - change (call_targets []) with (∅ : gmap string (list string)). rewrite lookup_empty. simpl.
    setoid_rewrite elem_of_nil. naive_solver.
  - rewrite call_targets_snoc. setoid_rewrite elem_of_app. setoid_rewrite list_elem_of_singleton.
    destruct (decide (c_instance c = n)) as [<-|Hne].
    + rewrite lookup_insert_eq. simpl. rewrite elem_of_app, list_elem_of_singleton, IH. naive_solver.
    + rewrite lookup_insert_ne by done. rewrite IH. naive_solver.
Qed.

Lemma calls_on_nodes n t : calls_on n t → n ∈ nodes ∧ t ∈ nodes.
Proof.
  intros (c&Hc&<-&<-). unfold nodes. rewrite !elem_of_remove_dups, !elem_of_app.
  split; [left|right]; by apply list_elem_of_fmap_2.
Qed.
Lemma sum_ext_in {A} (f g : A → nat) (l : list A) :
  (∀ x, x ∈ l → g x = f x) → sum_list_with g l = sum_list_with f l.
Proof.
  induction l as [|x l IH]; intros Hl; [done|]. simpl.
  rewrite (Hl x), IH; [done| |by left]. intros y ?. apply Hl. by right.
Qed.

Lemma sum_bump {A} `{EqDecision A} (f g : A → nat) k (l : list A) :
  NoDup l → (∀ x, x ≠ k → g x = f x) → g k ≤ S (f k) → sum_list_with g l ≤ S (sum_list_with f l).
Proof.
  intros Hnd Hne Hk. induction Hnd as [|x l Hx Hnd IH]; simpl; [lia|].
  destruct (decide (x = k)) as [->|Hxk]; [|rewrite (Hne x Hxk); lia].
  rewrite (sum_ext_in f g l); [lia|]. intros y Hy. apply Hne. by intros ->.
Qed.

Lemma sum_filter_split {A} (f : A → nat) (P P' : A → Prop) `{!∀ x, Decision (P x), !∀ x, Decision (P' x)} (t : A) (l : list A) :
  NoDup l → t ∈ l → P t → (∀ x, P' x ↔ P x ∧ x ≠ t) →
  sum_list_with f (filter P l) = sum_list_with f (filter P' l) + f t.
Proof.
  intros Hnd Ht HP Hiff. induction Hnd as [|x l Hx Hnd IH]; [by apply elem_of_nil in Ht|].
  rewrite !filter_cons. apply elem_of_cons in Ht as [<-|Ht].
  - rewrite decide_True, decide_False by (done || rewrite Hiff; naive_solver). simpl.
    rewrite (filter_ext_in P P'); [lia|]. intros y Hy. rewrite Hiff. split; [|tauto].
    intros. split; [done|]. by intros ->.
  - assert (x ≠ t) by (by intros ->). specialize (IH Ht).
    destruct (decide (P x)) as [HPx|HPx].
    + rewrite decide_True by (by apply Hiff). simpl. lia.
    + rewrite decide_False by (by rewrite Hiff; intros [? _]). done.
Qed.

Lemma deg_sum (U : list string) : NoDup U → sum_list_with deg U ≤ length calls.
Proof.
  intros Hnd. unfold deg, targets, out. induction calls as [|c l IH] using rev_ind.
  - clear Hnd. induction U as [|x U IH]; [done|]. simpl. by rewrite IH.
  - rewrite length_app. simpl. rewrite Nat.add_1_r. etrans; [|apply le_n_S; exact IH].
    apply (sum_bump _ _ (c_instance c)); [done| |].
    + intros x ?. rewrite call_targets_snoc, lookup_insert_ne by done. done.
    + rewrite call_targets_snoc, lookup_insert_eq. simpl. rewrite length_app. simpl. lia.
Qed.

Lemma length_remove_dups (l : list string) : length (remove_dups l) ≤ length l.
Proof. induction l as [|x l IH]; simpl; [done|]. case_decide; simpl; lia. Qed.

Lemma measure_init : measure (mkWalk ∅ [] []) < walk_fuel calls.
Proof.
  unfold measure, walk_fuel. simpl. rewrite Nat.add_0_r.
  rewrite filter_all by (by apply Forall_true).
  assert (Hn : length nodes ≤ 2 * length calls).
  { unfold nodes. etrans; [apply length_remove_dups|]. rewrite length_app, !length_fmap. lia. }
  pose proof (deg_sum nodes (NoDup_remove_dups _)).
  assert (sum_list_with (S ∘ deg) nodes = length nodes + sum_list_with deg nodes) as ->; [|simpl; lia].
  generalize nodes as l. induction l as [|x l IH]; [done|]. simpl. rewrite IH. lia.
Qed.

Lemma chain_snoc l x y : chain (l ++ [x]) → calls_on x y → chain (l ++ [x; y]).
Proof.
  induction l as [|z l IH]; intros Hc Hxy; [done|]. destruct l as [|z' l]; simpl in *; [tauto|].
  destruct Hc. split; [done|]. by apply IH.
Qed.

Lemma chain_drop k l : chain l → chain (drop k l).
Proof.
  revert l. induction k as [|k IH]; intros [|x l] Hc; [done|done|done|]. apply IH. destruct l; [done|]. by destruct Hc.
Qed.

Lemma frames_mono w w' above st :
  (∀ n, black w n → black w' n) → frames_ok w above st → frames_ok w' above st.
Proof. intros Hb. revert above. induction st as [|[n e] st IH]; intros above; simpl; naive_solver. Qed.

Lemma frames_chain w above st :
  frames_ok w above st → chain (reverse (fst <$> st) ++ option_list above).
Proof.
  revert above. induction st as [|[n e] st IH]; intros above; [by destruct above|].
  intros (_&Hab&Hst). simpl. rewrite reverse_cons, <- app_assoc. specialize (IH _ Hst). simpl in IH.
  destruct above as [t|]; simpl; [|done]. apply chain_snoc; [done|]. by apply Hab.
Qed.

Lemma closed_reach w n t : walk_ok w → black w n → rtc calls_on n t → black w t.
Proof. intros Hw Hn Hr. induction Hr; [done|]. eauto using wk_closed. Qed.

Lemma colour_insert colours p st n c m :
  colour_of (mkWalk (<[n := c]> colours) p st) m = if decide (n = m) then c else default 0%N (colours !! m).
Proof.
  unfold colour_of. simpl. case_decide as Hd; [subst; by rewrite lookup_insert_eq|by rewrite lookup_insert_ne].
Qed.

(** A node whose every target is finished is finished: no cycle goes through it. *)
Lemma finish_ok w n e rest :
  walk_ok w → stack w = (n, e) :: rest → targets n !! e = None →
  let w' := mkWalk (<[n := 2%N]> (colour w)) (take (length (path w) - 1) (path w)) rest in
  walk_ok w' ∧ measure w' < measure w ∧ stays_coloured w w'.
Proof.
  intros Hw Hst Hnone w'. pose proof Hw as [Hp Hnd Hg Hc Hf Hcl Hac Hno].
  rewrite Hst in Hp, Hnd, Hf, Hno. simpl in Hp, Hnd, Hf, Hno. apply NoDup_cons in Hnd as [Hn Hnd].
  destruct Hf as (Hwalked&_&Hf).
  assert (Hgn : colour_of w n = 1%N) by (apply Hg; rewrite Hst; by left).
  assert (Hcol : ∀ m, colour_of w' m = if decide (n = m) then 2%N else colour_of w m) by (intros; apply colour_insert).
  assert (Hmono : ∀ m, black w m → black w' m).
  { intros m Hm. unfold black. rewrite Hcol. by case_decide. }
  assert (Hdone : ∀ t, calls_on n t → black w t).
  { intros t Ht%targets_spec. apply list_elem_of_lookup in Ht as [i Hi].
    destruct (Hwalked i t) as [?|?]; [|done|done|done]. apply lookup_ge_None in Hnone. apply lookup_lt_Some in Hi. lia. }
  split; [split; simpl|split; [|intros m; rewrite Hcol; by case_decide]].
  - rewrite Hp, reverse_cons, length_app. simpl. rewrite Nat.add_sub. apply take_app_length.
  - done.
  - intros m. rewrite Hcol. case_decide as Hd; [subst m; by split|]. rewrite Hg, Hst. simpl.
    rewrite elem_of_cons. naive_solver.
  - intros m. rewrite Hcol. case_decide; [done|apply Hc].
  - destruct rest as [|[m e'] rest]; [done|]. destruct Hf as (Hw2&Hab&Hf2). split; [|split].
    + intros i t Hi Ht. left. destruct (Hw2 i t Hi Ht) as [?|[= <-]]; [by apply Hmono|]. unfold black. by rewrite Hcol, decide_True.
    + done.
    + by eapply frames_mono.
  - intros m t Hm Hmt. unfold black in Hm. rewrite Hcol in Hm. apply Hmono. case_decide; [subst m; by apply Hdone|by eapply Hcl].
  - intros m Hm Hcyc. unfold black in Hm. rewrite Hcol in Hm. case_decide as Hd; [subst m|by eapply Hac].
    assert (∃ t, calls_on n t ∧ rtc calls_on t n) as (t&Hnt&Htn).
    { inversion Hcyc; subst; [by exists n|]. eauto using tc_rtc. }
    assert (Hb : black w n) by (by eapply closed_reach; [|apply Hdone|]). unfold black in Hb. congruence.
  - intros m Hm. apply Hno. by right.
  - unfold measure. rewrite Hst. simpl.
    rewrite (filter_ext_in (λ m, colour_of w' m = 0%N) (λ m, colour_of w m = 0%N)); [lia|].
    intros m _. rewrite Hcol. case_decide; [subst; rewrite Hgn|]; done.
Qed.

(** An edge to a finished node is walked past. *)
Lemma past_ok w n e rest t :
  walk_ok w → stack w = (n, e) :: rest → targets n !! e = Some t → black w t →
  let w' := mkWalk (colour w) (path w) ((n, S e) :: rest) in
  walk_ok w' ∧ measure w' < measure w ∧ stays_coloured w w'.
Proof.
  intros Hw Hst Ht Hb w'. pose proof Hw as [Hp Hnd Hg Hc Hf Hcl Hac Hno].
  rewrite Hst in Hp, Hnd, Hf, Hno. setoid_rewrite Hst in Hg. simpl in *. destruct Hf as (Hwalked&_&Hf).
  split; [split; simpl; try done|split; [|by intros ?]].
  - split; [|split; [done|by apply (frames_mono w)]].
    intros i u Hi Hu. destruct (decide (i = e)) as [->|]; [left; by simplify_eq|apply (Hwalked i u); [lia|done]].
  - unfold measure. rewrite Hst. simpl. pose proof (lookup_lt_Some _ _ _ Ht). fold (deg n) in *.
    change (colour_of w') with (colour_of w). lia.
Qed.

(** An edge to an unvisited node is entered. *)
Lemma enter_ok w n e rest t :
  walk_ok w → stack w = (n, e) :: rest → targets n !! e = Some t → colour_of w t = 0%N →
  let w' := mkWalk (<[t := 1%N]> (colour w)) (path w ++ [t]) ((t, 0) :: (n, S e) :: rest) in
  walk_ok w' ∧ measure w' < measure w ∧ stays_coloured w w'.
Proof.
  intros Hw Hst Ht Hwhite w'. pose proof Hw as [Hp Hnd Hg Hc Hf Hcl Hac Hno].
  assert (Hnt : calls_on n t) by (by apply targets_spec, list_elem_of_lookup; exists e).
  assert (Hcol : ∀ m, colour_of w' m = if decide (t = m) then 1%N else colour_of w m) by (intros; apply colour_insert).
  assert (Hblack : ∀ m, black w' m ↔ black w m).
  { intros m. unfold black. rewrite Hcol. case_decide; [subst; rewrite Hwhite|]; done. }
  assert (Hnew : t ∉ fst <$> stack w) by (rewrite <- Hg, Hwhite; done).
  rewrite Hst in Hp, Hnd, Hf, Hno, Hnew. setoid_rewrite Hst in Hg. simpl in *. destruct Hf as (Hwalked&_&Hf).
  split; [split; simpl|split; [|intros m; rewrite Hcol; by case_decide]].
  - by rewrite Hp, !reverse_cons.
  - by apply NoDup_cons.
  - intros m. rewrite Hcol, (elem_of_cons _ m t). case_decide as Hd; [subst m; naive_solver|]. rewrite Hg. naive_solver.
  - intros m. rewrite Hcol. case_decide; [done|apply Hc].
  - split; [lia|]. split; [done|]. split; [|split].
    + intros i u Hi Hu. destruct (decide (i = e)) as [->|]; [right; by simplify_eq|].
      left. apply Hblack. destruct (Hwalked i u) as [?|?]; [lia|done|done|done].
    + by intros ? [= <-].
    + eapply frames_mono; [|done]. intros. by apply Hblack.
  - intros m u. rewrite !Hblack. apply Hcl.
  - intros m. rewrite Hblack. apply Hac.
  - intros m [->|Hm]%elem_of_cons; [by eapply calls_on_nodes|by apply Hno].
  - unfold measure. rewrite Hst. simpl.
    rewrite (sum_filter_split _ (λ m, colour_of w m = 0%N) (λ m, colour_of w' m = 0%N) t nodes).
    + pose proof (lookup_lt_Some _ _ _ Ht). unfold compose. fold (deg n) in *. lia.
    + apply NoDup_remove_dups.
    + by eapply calls_on_nodes.
    + done.
    + intros m. rewrite Hcol. case_decide; naive_solver.
Qed.

(** An edge back onto the path closes a cycle of calls. *)
Lemma found_ok w n e rest t from :
  walk_ok w → stack w = (n, e) :: rest → targets n !! e = Some t → path w !! from = Some t →
  cycle_of_calls (drop from (path w) ++ [t]).
Proof.
  intros [Hp _ _ _ Hf _ _ _] Hst Ht Hfrom.
  assert (Hnt : calls_on n t) by (by apply targets_spec, list_elem_of_lookup; exists e).
  assert (Hch : chain (path w ++ [t])).
  { rewrite Hst in Hf. destruct Hf as (_&_&Hf). apply frames_chain in Hf. rewrite Hp, Hst. simpl.
    rewrite reverse_cons, <- app_assoc. by apply chain_snoc. }
  pose proof (lookup_lt_Some _ _ _ Hfrom). split.
  - apply (chain_drop from) in Hch. by rewrite drop_app_le in Hch by lia.
  - exists t, (drop (S from) (path w)). by rewrite (drop_S _ t from).
Qed.

Definition step_ok w (s : walk_step) : Prop :=
  match s with
  | Walking w' => walk_ok w' ∧ measure w' < measure w ∧ stays_coloured w w'
  | Walked w' => w' = w ∧ stack w = []
  | Found cycle => cycle_of_calls cycle
  end.

Lemma turn_ok w : walk_ok w → ∃ s, walk_turn out w = Returns s ∧ step_ok w s.
Proof.
  intros Hw. unfold walk_turn. destruct (stack w) as [|[n e] rest] eqn:Hst; [eexists; by split|].
  assert (Hl : (out !! n ≫= λ ts, ts !! e) = targets n !! e) by (unfold targets; by destruct (out !! n)).
  rewrite Hl. destruct (targets n !! e) as [t|] eqn:Ht; [|eexists; split; [done|]; by eapply finish_ok].
  destruct (N.eqb_spec (colour_of w t) 1) as [Hgrey|Hng].
  - pose proof (wk_path _ Hw) as Hp. apply (wk_grey _ Hw) in Hgrey.
    destruct (list_find_elem_of (λ x, x = t) (path w) t) as [[from x] Hfind]; [by rewrite Hp, elem_of_reverse|done|].
    rewrite Hfind. simpl. eexists. split; [done|].
    apply list_find_Some in Hfind as (Hfrom&->&_). by eapply found_ok.
  - destruct (N.eqb_spec (colour_of w t) 2) as [Hb|Hnb]; eexists; (split; [done|]).
    + by eapply past_ok.
    + eapply enter_ok; [done..|]. pose proof (wk_colours _ Hw t). lia.
Qed.

Lemma loop_ok fuel w :
  walk_ok w → measure w < fuel →
  ∃ s, walk_loop out fuel w = Returns (Some s) ∧
    match s with
    | Walking _ => False
    | Walked w' => walk_ok w' ∧ stack w' = [] ∧ measure w' ≤ measure w ∧ stays_coloured w w'
    | Found cycle => cycle_of_calls cycle
    end.
Proof.
  revert w. induction fuel as [|fuel IH]; intros w Hw Hm; [lia|]. simpl.
  destruct (turn_ok w Hw) as (s&->&Hs). simpl. destruct s as [w'|w'|cycle]; simpl in Hs.
  - destruct Hs as (Hw'&Hlt&Hcol). destruct (IH w' Hw') as (s&Hs&Hok); [lia|]. exists s. split; [done|].
    destruct s; [done| |done]. destruct Hok as (?&?&?&Hcol'). split_and!; [done|done|lia|].
    intros n Hn. by apply Hcol', Hcol.
  - destruct Hs as [-> ?]. eexists. split; [done|]. split_and!; [done|done|done|]. intros n Hn. exact Hn.
  - eexists. by split.
Qed.

(** A walk from a fresh caller. *)
Lemma entry_ok w n :
  walk_ok w → stack w = [] → colour_of w n = 0%N → n ∈ nodes →
  let w' := mkWalk (<[n := 1%N]> (colour w)) (path w ++ [n]) [(n, 0)] in
  walk_ok w' ∧ measure w' ≤ measure w ∧ stays_coloured w w' ∧ colour_of w' n ≠ 0%N.
Proof.
  intros [Hp _ Hg Hc _ Hcl Hac _] Hst Hwhite Hn w'. rewrite Hst in Hp. setoid_rewrite Hst in Hg.
  assert (Hcol : ∀ m, colour_of w' m = if decide (n = m) then 1%N else colour_of w m) by (intros; apply colour_insert).
  assert (Hblack : ∀ m, black w' m ↔ black w m).
  { intros m. unfold black. rewrite Hcol. case_decide; [subst; rewrite Hwhite|]; done. }
  split; [split; simpl|split; [|split]].
  - by rewrite Hp.
  - apply NoDup_singleton.
  - intros m. rewrite Hcol, list_elem_of_singleton. case_decide as Hd; [naive_solver|].
    rewrite Hg, elem_of_nil. naive_solver.
  - intros m. rewrite Hcol. case_decide; [done|apply Hc].
  - split; [lia|done].
  - intros m u. rewrite !Hblack. apply Hcl.
  - intros m. rewrite Hblack. apply Hac.
  - by intros m ->%list_elem_of_singleton.
  - unfold measure. rewrite Hst. simpl.
    rewrite (sum_filter_split _ (λ m, colour_of w m = 0%N) (λ m, colour_of w' m = 0%N) n nodes); [unfold compose; lia| | |done|].
    + apply NoDup_remove_dups.
    + done.
    + intros m. rewrite Hcol. case_decide; naive_solver.
  - intros m. rewrite Hcol. by case_decide.
  - by rewrite Hcol, decide_True.
Qed.

Lemma starts_ok fuel starts w :
  walk_ok w → stack w = [] → measure w < fuel → (∀ n, n ∈ starts → n ∈ nodes) →
  ∃ r, walk_starts out fuel w starts = Returns (Some r) ∧
    match r with
    | Some cycle => cycle_of_calls cycle
    | None => ∃ w', walk_ok w' ∧ stack w' = [] ∧ stays_coloured w w' ∧ ∀ n, n ∈ starts → colour_of w' n ≠ 0%N
    end.
Proof.
  revert w. induction starts as [|n starts IH]; intros w Hw Hst Hm Hin.
  { eexists. split; [done|]. exists w. split_and!; [done|done|by intros n Hn|]. by intros n ?%elem_of_nil. }
  assert (Hin' : ∀ m, m ∈ starts → m ∈ nodes) by (intros; apply Hin; by right). simpl.
  destruct (N.eqb_spec (colour_of w n) 0) as [Hz|Hnz]; simpl.
  - destruct (entry_ok w n Hw Hst Hz) as (Hw1&Hm1&Hcol1&Hn1); [apply Hin; by left|].
    destruct (loop_ok fuel _ Hw1) as (s&->&Hs); [lia|]. simpl. destruct s as [|w2|cycle]; [done| |eexists; by split].
    destruct Hs as (Hw2&Hst2&Hm2&Hcol2). destruct (IH w2 Hw2 Hst2) as (r&Hr&Hok); [lia|done|].
    exists r. split; [done|]. destruct r as [cycle|]; [done|]. destruct Hok as (w3&Hw3&Hst3&Hcol3&Hdone).
    exists w3. split_and!; [done|done|by intros m ?; apply Hcol3, Hcol2, Hcol1|].
    intros m [->|Hm']%elem_of_cons; [by apply Hcol3, Hcol2|by apply Hdone].
  - destruct (IH w Hw Hst Hm Hin') as (r&Hr&Hok). exists r. split; [done|]. destruct r as [cycle|]; [done|].
    destruct Hok as (w3&Hw3&Hst3&Hcol3&Hdone). exists w3. split_and!; [done|done|done|].
    intros m [->|Hm']%elem_of_cons; [by apply Hcol3|by apply Hdone].
Qed.

Lemma cycle_reaches l : cycle_of_calls l → ∃ n, tc calls_on n n.
Proof.
  intros [Hc (x&m&->)]. exists x. revert Hc. generalize x at 1 3 as y. induction m as [|z m IH]; intros y; simpl.
  - intros [? _]. by constructor.
  - intros [? Hc]. eapply tc_l; [done|]. apply IH. exact Hc.
Qed.

(** The search ends, and finds a cycle exactly when the calls have one. *)
Lemma call_cycle_spec :
  ∃ r, call_cycle calls = Returns r ∧
    match r with
    | Some cycle => cycle_of_calls cycle
    | None => ∀ n, ¬ tc calls_on n n
    end.
Proof.
  assert (Hw : walk_ok (mkWalk ∅ [] [])).
  { split; simpl; try done; [apply NoDup_nil_2|intros n; rewrite elem_of_nil; by split|by intros n ?%elem_of_nil]. }
  destruct (starts_ok (walk_fuel calls) (c_instance <$> calls) _ Hw eq_refl measure_init) as (r&Hr&Hok).
  { intros n Hn. unfold nodes. rewrite elem_of_remove_dups, elem_of_app. by left. }
  unfold call_cycle. fold out. rewrite Hr. simpl. exists r. split; [done|]. destruct r as [cycle|]; [done|].
  destruct Hok as (w&Hw'&Hst&_&Hdone). intros n Hn.
  assert (∃ t, calls_on n t) as (t&c&Hc&Hcn&_) by (inversion Hn; eauto).
  assert (Hcol : colour_of w n ≠ 0%N) by (apply Hdone; rewrite <- Hcn; by apply list_elem_of_fmap_2).
  refine (wk_acyclic _ Hw' n _ Hn). unfold black. pose proof (wk_colours _ Hw' n).
  assert (colour_of w n ≠ 1%N); [|lia]. rewrite (wk_grey _ Hw'), Hst. by intros ?%elem_of_nil.
Qed.
End graph.
End CallGraph.

(** ** The indexes *)
Module Indexed.
Import Envelope Proto Subs Buffer BufferRun Wiring CallGraph.

Lemma first_err_Ok {E} (l : list (result unit E)) : first_err l = Ok () ↔ Forall (λ r, r = Ok ()) l.
Proof.
  induction l as [|[[]|e] l IH]; simpl; [by split; [constructor|]| |].
  - rewrite Forall_cons, IH. tauto.
  - rewrite Forall_cons. split; [done|]. by intros [? _].
Qed.

Lemma first_err_fmap {A E} (f : A → result unit E) (l : list A) :
  first_err (f <$> l) = Ok () ↔ ∀ x, x ∈ l → f x = Ok ().
Proof. rewrite first_err_Ok, Forall_fmap, Forall_forall. done. Qed.

Lemma refuse_if_Ok {E} b (e : E) : refuse_if b e = Ok () ↔ b = false.
Proof. by destruct b. Qed.

Lemma refuse_repeats_Ok {A K E} `{Countable K} (key : A → K) (err : A → E) seen (l : list A) :
  refuse_repeats key err seen l = Ok () ↔ NoDup (key <$> l) ∧ ∀ x, x ∈ l → key x ∉ seen.
Proof.
  revert seen. induction l as [|x l IH]; intros seen; simpl.
  { split; [|done]. intros _. split; [apply NoDup_nil_2|]. by intros x ?%elem_of_nil. }
  rewrite NoDup_cons. case_decide as Hd.
  - split; [done|]. intros [_ Hn]. destruct (Hn x); [by left|done].
  - rewrite IH. split.
    + intros [Hnd Hn]. split_and!; [|done|].
      * intros (y&Hy&Hin)%list_elem_of_fmap. apply (Hn y Hin). set_solver.
      * intros y [->|Hin]%elem_of_cons; [done|]. specialize (Hn y Hin). set_solver.
    + intros [[Hx Hnd] Hn]. split; [done|]. intros y Hin. rewrite elem_of_union, elem_of_singleton.
      intros [Heq|Hs]; [|by eapply Hn; [right|]]. apply Hx. rewrite <- Heq. by apply list_elem_of_fmap_2.
Qed.

Lemma imap_pair_snoc {A} (l : list A) x : imap pair (l ++ [x]) = imap pair l ++ [(length l, x)].
Proof. rewrite imap_app. simpl. by rewrite Nat.add_0_r. Qed.

Lemma NoDup_snoc {A} (l : list A) x : NoDup (l ++ [x]) → NoDup l ∧ x ∉ l.
Proof. rewrite NoDup_app. intros (?&Hn&_). split; [done|]. intros Hx. apply (Hn x Hx). by left. Qed.

Lemma index_keys_spec {A} (key : A → string) why (l : list A) :
  NoDup (key <$> l) →
  ∃ m, index_keys key why l = Returns m ∧ ∀ k i, m !! k = Some i ↔ ∃ x, l !! i = Some x ∧ key x = k.
Proof.
  unfold index_keys. induction l as [|x l IH] using rev_ind; intros Hnd.
  { exists ∅. split; [done|]. intros k i. rewrite lookup_empty. split; [done|]. by intros (x&?&_). }
  rewrite fmap_app in Hnd. apply NoDup_snoc in Hnd as [Hnd Hx]. destruct (IH Hnd) as (m&Hm&Hspec).
  assert (Hnone : m !! key x = None).
  { destruct (m !! key x) as [i|] eqn:Hi; [|done]. apply Hspec in Hi as (y&Hy&Hk). destruct Hx. rewrite <- Hk.
    by eapply list_elem_of_fmap_2, list_elem_of_lookup_2. }
  exists (<[key x := length l]> m). rewrite imap_pair_snoc, foldl_app, Hm. simpl. rewrite Hnone.
  split; [done|]. intros k i. destruct (decide (key x = k)) as [<-|Hne].
  - rewrite lookup_insert_eq. split.
    + intros [= <-]. exists x. by rewrite list_lookup_middle.
    + intros (y&Hy&Hk). destruct (decide (i = length l)) as [->|]; [done|]. destruct Hx. rewrite <- Hk.
      apply list_elem_of_fmap_2. pose proof (lookup_lt_Some _ _ _ Hy) as Hlt. rewrite length_app in Hlt. simpl in Hlt.
      rewrite lookup_app_l in Hy by lia. by eapply list_elem_of_lookup_2.
  - rewrite lookup_insert_ne, Hspec by done. split; intros (y&Hy&Hk); exists y; (split; [|done]).
    + by apply lookup_app_l_Some.
    + apply lookup_snoc_Some in Hy as [[? ?]|[? ->]]; [done|by subst].
Qed.

Lemma index_pairs_spec {A} (outer inner : A → string) why (l : list A) :
  NoDup ((λ x, (outer x, inner x)) <$> l) →
  ∃ m, index_pairs outer inner why l = Returns m ∧
    ∀ o p i, (ports ← m !! o; ports !! p) = Some i ↔ ∃ x, l !! i = Some x ∧ outer x = o ∧ inner x = p.
Proof.
  unfold index_pairs. induction l as [|x l IH] using rev_ind; intros Hnd.
  { exists ∅. split; [done|]. intros o p i. rewrite lookup_empty. split; [done|]. by intros (x&?&_). }
  rewrite fmap_app in Hnd. apply NoDup_snoc in Hnd as [Hnd Hx]. destruct (IH Hnd) as (m&Hm&Hspec).
  set (ports := default ∅ (m !! outer x)).
  assert (Hports : ∀ p, ports !! p = (ports ← m !! outer x; ports !! p)) by (intros p; subst ports; by destruct (m !! outer x)).
  assert (Hnone : ports !! inner x = None).
  { rewrite Hports. destruct (_ ≫= _) as [i|] eqn:Hi; [|done]. apply Hspec in Hi as (y&Hy&Ho&Hp). destruct Hx.
    apply list_elem_of_fmap. exists y. rewrite Ho, Hp. split; [done|]. by eapply list_elem_of_lookup_2. }
  exists (<[outer x := <[inner x := length l]> ports]> m). rewrite imap_pair_snoc, foldl_app, Hm. simpl.
  fold ports. rewrite Hnone. split; [done|]. intros o p i.
  assert (Hsnoc : (∃ y, (l ++ [x]) !! i = Some y ∧ outer y = o ∧ inner y = p) ↔
    (∃ y, l !! i = Some y ∧ outer y = o ∧ inner y = p) ∨ (i = length l ∧ outer x = o ∧ inner x = p)).
  { setoid_rewrite lookup_snoc_Some. split; [intros (y&[[? ?]|[? ->]]&?&?); naive_solver|].
    intros [(y&Hy&?&?)|(->&?&?)]; [|naive_solver]. exists y. pose proof (lookup_lt_Some _ _ _ Hy). naive_solver. }
  rewrite Hsnoc, <- Hspec. destruct (decide (outer x = o)) as [<-|Hne].
  2: { rewrite lookup_insert_ne by done. naive_solver. }
  rewrite lookup_insert_eq. simpl. rewrite <- Hports. destruct (decide (inner x = p)) as [<-|Hne].
  - rewrite lookup_insert_eq, Hnone. naive_solver.
  - rewrite lookup_insert_ne by done. naive_solver.
Qed.

(** An index that answers exactly the positions of the entries wanted is the scan for them. *)
Lemma scan_matches {A} (P : A → Prop) `{!∀ x, Decision (P x)} (l : list A) (o : option nat) :
  (∀ i, o = Some i ↔ ∃ x, l !! i = Some x ∧ P x) →
  map_checked (nth_checked l) o = Returns (snd <$> list_find P l).
Proof.
  intros Ho. destruct (list_find P l) as [[i x]|] eqn:Hf.
  - apply list_find_Some in Hf as (Hi&HP&_). assert (o = Some i) as -> by (apply Ho; eauto). simpl.
    unfold nth_checked. by rewrite Hi.
  - apply list_find_None in Hf. destruct o as [i|]; [|done]. destruct (proj1 (Ho i) eq_refl) as (x&Hx&HP).
    rewrite Forall_forall in Hf. destruct (Hf x); [by eapply list_elem_of_lookup_2|done].
Qed.

(** What the bindings of a channel ask of its store and of its subscription. *)
Definition on_channel (channel : string) (l : list Binding) : list Binding := filter (λ b, b_channel b = channel) l.
Definition max_of (l : list N) : N := foldr N.max 0 l.
Definition deepest (b : Binding) : N := N.max (b_push_depth b) (b_retain_depth b).
Definition demands (d : BindingsDocument) (channel : string) : list N :=
  (lc_ring_depth <$> filter (λ lc, lc_channel lc = channel) (d_local_channels d)) ++
  (deepest <$> on_channel channel (d_subscriptions d)).
Definition demanded (d : BindingsDocument) (channel : string) : option N :=
  match demands d channel with
  | [] => None
  | l => Some (max_of (option_list (r_ring_depth <$> reserved_local_channel channel) ++ l))
  end.
Definition stated (d : BindingsDocument) (channel : string) : option SubscriptionDepths :=
  match on_channel channel (d_subscriptions d) with
  | [] => None
  | l => if on_wire channel then Some (mkDepths (max_of (b_push_depth <$> l)) (max_of (b_retain_depth <$> l))) else None
  end.
Definition unsizable (max : N) (b : Binding) : Prop := max < b_push_depth b ∨ max < b_retain_depth b.

Lemma max_of_app l k : max_of (l ++ k) = N.max (max_of l) (max_of k).
Proof. induction l as [|x l IH]; simpl; [lia|]. fold (max_of (l ++ k)). rewrite IH. unfold max_of. lia. Qed.

Lemma max_fmap_snoc {A} (f : A → N) l x : max_of (f <$> l ++ [x]) = N.max (max_of (f <$> l)) (f x).
Proof. rewrite fmap_app, max_of_app. unfold max_of at 2. simpl. lia. Qed.

Lemma check_sizable_spec b max :
  match check_sizable_within b max with Ok _ => ¬ unsizable max b | Err _ => unsizable max b end.
Proof.
  unfold check_sizable_within, refuse_if, unsizable. simpl.
  destruct (N.ltb_spec max (b_push_depth b)); simpl; [by left|].
  destruct (N.ltb_spec max (b_retain_depth b)); simpl; [by right|lia].
Qed.

(** The tables after the bindings walked so far. *)
Record tables_ok (store : gmap string N) (l : list Binding) (t : InputTables) : Prop := {
  tb_seen k : k ∈ t_seen t ↔ k ∈ (λ b, (b_instance b, b_port b)) <$> l;
  tb_inputs channel : default [] (t_inputs t !! channel) = (imap pair l ≫= λ '(i, b), if decide (b_channel b = channel) then [i] else []);
  tb_store channel : t_store t !! channel =
    match on_channel channel l with
    | [] => store !! channel
    | bs => Some (N.max (default 0 (store !! channel)) (max_of (deepest <$> bs)))
    end;
  tb_wire channel : t_wire t !! channel =
    match on_channel channel l with
    | [] => None
    | bs => if on_wire channel then Some (mkDepths (max_of (b_push_depth <$> bs)) (max_of (b_retain_depth <$> bs))) else None
    end;
}.

Lemma on_channel_snoc channel l b :
  on_channel channel (l ++ [b]) = on_channel channel l ++ (if decide (b_channel b = channel) then [b] else []).
Proof. unfold on_channel. rewrite filter_app, filter_cons, filter_nil. done. Qed.

Lemma index_input_ok max store l t b :
  tables_ok store l t → surface_bindable_address (b_channel b) = true →
  (b_instance b, b_port b) ∉ (λ b, (b_instance b, b_port b)) <$> l →
  ∃ r, index_input max t (length l) b = Returns r ∧
    match r with
    | Err _ => unsizable max b
    | Ok t' => ¬ unsizable max b ∧ tables_ok store (l ++ [b]) t'
    end.
Proof.
  intros [Hs Hi Hst Hw] Hbind Hnew. unfold index_input. rewrite bool_decide_eq_true_2 by (by rewrite Hs). simpl.
  pose proof (check_sizable_spec b max) as Hsize. destruct (check_sizable_within b max) as [?|e]; [|by eexists].
  rewrite transportable_returns by done. simpl. eexists. split; [done|]. split; [done|]. split; simpl.
  - intros k. rewrite fmap_app, elem_of_app, <- Hs. simpl. rewrite list_elem_of_singleton. set_solver.
  - intros ch. rewrite imap_pair_snoc, bind_app. simpl. rewrite app_nil_r, <- Hi.
    case_decide as Hd; [subst ch; by rewrite lookup_insert_eq|rewrite lookup_insert_ne by done; by rewrite app_nil_r].
  - intros ch. rewrite on_channel_snoc. case_decide as Hd.
    + subst ch. rewrite lookup_insert_eq, Hst. fold (deepest b).
      destruct (on_channel (b_channel b) l) as [|x bs]; [unfold max_of; simpl; f_equal; lia|].
      trans (Some (N.max (default 0 (store !! b_channel b)) (max_of (deepest <$> (x :: bs) ++ [b])))); [|done].
      rewrite max_fmap_snoc. generalize (max_of (deepest <$> x :: bs)) as n. intros n. simpl. f_equal. lia.
    + by rewrite lookup_insert_ne, Hst, app_nil_r by done.
  - intros ch. rewrite on_channel_snoc. case_decide as Hd.
    + subst ch. destruct (on_wire (b_channel b)) eqn:How; [|rewrite Hw, How; by destruct (on_channel (b_channel b) l)].
      rewrite lookup_insert_eq, Hw, How.
      destruct (on_channel (b_channel b) l) as [|x bs]; [unfold max_of; simpl; do 2 f_equal; lia|].
      trans (Some (mkDepths (max_of (b_push_depth <$> (x :: bs) ++ [b])) (max_of (b_retain_depth <$> (x :: bs) ++ [b])))); [|done].
      by rewrite !max_fmap_snoc.
    + rewrite app_nil_r, <- Hw. destruct (on_wire (b_channel b)); [|done]. by rewrite lookup_insert_ne.
Qed.

Lemma index_inputs_spec max store l :
  NoDup ((λ b, (b_instance b, b_port b)) <$> l) → Forall (λ b, surface_bindable_address (b_channel b) = true) l →
  ∃ r, index_inputs max (mkTables ∅ ∅ ∅ store) l = Returns r ∧
    match r with
    | Err _ => ∃ b, b ∈ l ∧ unsizable max b
    | Ok t => (∀ b, b ∈ l → ¬ unsizable max b) ∧ tables_ok store l t
    end.
Proof.
  unfold index_inputs. induction l as [|b l IH] using rev_ind; intros Hnd Hbind.
  { eexists. split; [done|]. split; [by intros b ?%elem_of_nil|].
    split; intros; simpl; rewrite ?lookup_empty; [set_solver|done..]. }
  rewrite fmap_app in Hnd. apply NoDup_snoc in Hnd as [Hnd Hb]. apply Forall_app in Hbind as [Hbind Hbb].
  rewrite Forall_singleton in Hbb. destruct (IH Hnd Hbind) as (r&Hr&Hok).
  rewrite imap_pair_snoc, foldl_app, Hr. simpl. destruct r as [t|e].
  - destruct Hok as [Hall Ht]. destruct (index_input_ok max store l t b Ht Hbb Hb) as (r&->&Hok). exists r. split; [done|].
    destruct r as [t'|e]; [|exists b; split; [|done]; apply elem_of_app; right; by left].
    destruct Hok as [Hb' Ht']. split; [|done].
    intros x [?|Hx]%elem_of_app; [by apply Hall|]. by apply list_elem_of_singleton in Hx as ->.
  - eexists. split; [done|]. destruct Hok as (x&Hx&Hu). exists x. split; [|done]. apply elem_of_app. by left.
Qed.

(** The positions of a channel's bindings lead back to them, in order. *)
Lemma positions_lead_back (l : list Binding) (P : Binding → Prop) `{!∀ b, Decision (P b)} :
  foldr (λ i acc, b ← nth_checked l i; r ← acc; Returns (b :: r)) (Returns [])
    (imap pair l ≫= λ '(i, b), if decide (P b) then [i] else []) = Returns (filter P l).
Proof.
  assert (Hgen : ∀ pre k, l = pre ++ k →
    foldr (λ i acc, b ← nth_checked l i; r ← acc; Returns (b :: r)) (Returns [])
      (imap (λ i b, (length pre + i, b)%nat) k ≫= λ '(i, b), if decide (P b) then [i] else []) = Returns (filter P k)).
  { intros pre k. revert pre. induction k as [|b k IH]; intros pre Hl; [done|]. simpl. rewrite Nat.add_0_r.
    assert (Himap : imap ((λ i b, (length pre + i, b)%nat) ∘ S) k = imap (λ i x, (length (pre ++ [b]) + i, x)%nat) k).
    { apply imap_ext. intros i x _. rewrite length_app. simpl. f_equal. lia. }
    specialize (IH (pre ++ [b])). rewrite <- app_assoc in IH. specialize (IH Hl).
    setoid_rewrite Himap. rewrite filter_cons. case_decide; simpl; [|exact IH].
    assert (Hb : nth_checked l (length pre) = Returns b) by (unfold nth_checked; by rewrite Hl, list_lookup_middle).
    rewrite Hb. cbn [mbind panics_bind]. change (list_bind (nat * Binding)%type nat) with (@mbind list _ (nat * Binding)%type nat).
    by rewrite IH. }
  exact (Hgen [] l eq_refl).
Qed.

Lemma index_locals_spec (l : list LocalChannel) :
  NoDup (lc_channel <$> l) →
  ∃ seen store, index_locals l = Returns (seen, store) ∧
    (∀ channel, channel ∈ seen ↔ channel ∈ lc_channel <$> l) ∧
    ∀ channel, store !! channel =
      match filter (λ lc, lc_channel lc = channel) l with
      | [] => None
      | ls => Some (max_of (lc_ring_depth <$> ls))
      end.
Proof.
  unfold index_locals. induction l as [|lc l IH] using rev_ind; intros Hnd.
  { exists ∅, ∅. split; [done|]. split; [set_solver|]. done. }
  rewrite fmap_app in Hnd. apply NoDup_snoc in Hnd as [Hnd Hx]. destruct (IH Hnd) as (seen&store&Hr&Hseen&Hst).
  rewrite foldl_app, Hr. simpl. rewrite bool_decide_eq_true_2 by (by rewrite Hseen). simpl.
  eexists _, _. split; [done|]. split.
  - intros ch. rewrite fmap_app, elem_of_app, <- Hseen. simpl. rewrite list_elem_of_singleton. set_solver.
  - intros ch. rewrite filter_app, filter_cons, filter_nil. case_decide as Hd.
    + subst ch. rewrite lookup_insert_eq, Hst.
      assert (filter (λ x, lc_channel x = lc_channel lc) l = []) as ->.
      { destruct (filter _ l) as [|y r] eqn:Hf; [done|]. destruct Hx.
        assert (y ∈ filter (λ x, lc_channel x = lc_channel lc) l) as [Hy Hin]%list_elem_of_filter by (rewrite Hf; by left).
        rewrite <- Hy. by apply list_elem_of_fmap_2. }
      unfold max_of. simpl. f_equal. lia.
    + by rewrite lookup_insert_ne, Hst, app_nil_r by done.
Qed.

Lemma floor_spec (rs : list ReservedLocalChannel) (m : gmap string N) channel :
  NoDup (r_address <$> rs) →
  foldl (λ m r, alter (N.max (r_ring_depth r)) (r_address r) m) m rs !! channel =
  match snd <$> list_find (λ r, r_address r = channel) rs with
  | Some r => N.max (r_ring_depth r) <$> m !! channel
  | None => m !! channel
  end.
Proof.
  revert m. induction rs as [|r rs IH]; intros m Hnd; [done|]. apply NoDup_cons in Hnd as [Hr Hnd].
  simpl. rewrite IH by done. case_decide as Hd; simpl.
  - assert (list_find (λ r, r_address r = channel) rs = None) as ->.
    { apply list_find_None, Forall_forall. intros x Hx Hxc. apply Hr. rewrite Hd, <- Hxc. by apply list_elem_of_fmap_2. }
    simpl. by rewrite Hd, lookup_alter_eq.
  - destruct (list_find _ rs) as [[i x]|]; simpl; by rewrite lookup_alter_ne.
Qed.

Lemma floor_reserved_spec m channel :
  floor_reserved m !! channel =
  match reserved_local_channel channel with
  | Some r => N.max (r_ring_depth r) <$> m !! channel
  | None => m !! channel
  end.
Proof.
  apply floor_spec. apply (bool_decide_unpack (NoDup _)). vm_compute. done.
Qed.

Lemma collect_lookup {A} (l : list (string * A)) k :
  NoDup (fst <$> l) → collect l !! k = snd <$> (snd <$> list_find (λ kv, kv.1 = k) l).
Proof.
  unfold collect. induction l as [|[k' a] l IH] using rev_ind; intros Hnd; [done|].
  rewrite fmap_app in Hnd. apply NoDup_snoc in Hnd as [Hnd Hx]. rewrite foldl_app. simpl.
  destruct (decide (k' = k)) as [->|Hne].
  - rewrite lookup_insert_eq. assert (list_find (λ kv, kv.1 = k) l = None) as Hn.
    { apply list_find_None, Forall_forall. intros [k2 a2] Hin Heq. apply Hx. simpl in *. subst. by apply (list_elem_of_fmap_2 fst _ (k, a2)). }
    rewrite (list_find_app_r (λ kv, kv.1 = k)) by done. simpl. by rewrite decide_True.
  - rewrite lookup_insert_ne, IH by done. destruct (list_find (λ kv, kv.1 = k) l) as [[i x]|] eqn:Hf.
    + by rewrite (list_find_app_l _ _ [(k', a)] _ _ Hf).
    + rewrite (list_find_app_r (λ kv, kv.1 = k)) by done. simpl. by rewrite decide_False.
Qed.

Lemma collect_fmap {A B} (key : A → string) (f : A → B) (l : list A) k :
  NoDup (key <$> l) →
  collect ((λ x, (key x, f x)) <$> l) !! k = f <$> (snd <$> list_find (λ x, key x = k) l).
Proof.
  intros Hnd. rewrite collect_lookup by (by rewrite <- list_fmap_compose). clear Hnd.
  rewrite list_find_fmap. unfold compose. simpl. by destruct (list_find _ l) as [[i x]|].
Qed.

(** What an accepted document promises. *)
Record valid_wiring (d : BindingsDocument) : Prop := {
  v_instances : NoDup (ce_instance <$> d_components d);
  v_outputs : NoDup ((λ b, (o_instance b, o_port b)) <$> d_outputs d);
  v_inputs : NoDup ((λ b, (b_instance b, b_port b)) <$> d_subscriptions d);
  v_calls : NoDup ((λ c, (c_instance c, c_port c)) <$> d_calls d);
  v_locals : NoDup (lc_channel <$> d_local_channels d);
  v_bindable channel : channel ∈ (b_channel <$> d_subscriptions d) ++ (o_channel <$> d_outputs d) →
    surface_bindable_address channel = true;
  v_routed channel : channel ∈ (b_channel <$> d_subscriptions d) ++ (o_channel <$> d_outputs d) →
    is_local_channel channel = true → channel ∈ lc_channel <$> d_local_channels d;
  v_readers b : b ∈ d_subscriptions d → ∃ c, c ∈ d_components d ∧ ce_instance c = b_instance b;
  v_writers o : o ∈ d_outputs d →
    ∃ c, c ∈ d_components d ∧ ce_instance c = o_instance o ∧ o_port o ∈ ce_declared_out_ports c;
  v_callers c : c ∈ d_calls d →
    ∃ e t, e ∈ d_components d ∧ ce_instance e = c_instance c ∧ c_port c ∈ ce_call_ports e ∧
           t ∈ d_components d ∧ ce_instance t = c_target_instance c ∧ c_target_port c ∈ ce_sync_ports t;
  v_acyclic n : ¬ tc (calls_on (d_calls d)) n n;
}.

Lemma find_component d instance c :
  (snd <$> list_find (λ c, ce_instance c = instance) (d_components d)) = Some c →
  c ∈ d_components d ∧ ce_instance c = instance.
Proof.
  intros Hf. destruct (list_find _ _) as [[i x]|] eqn:He; [|done]. injection Hf as ->.
  apply list_find_Some in He as (Hi&?&_). split; [by eapply list_elem_of_lookup_2|done].
Qed.

Lemma declares_spec d instance :
  negb (bool_decide (Exists (λ c, ce_instance c = instance) (d_components d))) = false →
  ∃ c, c ∈ d_components d ∧ ce_instance c = instance.
Proof. rewrite negb_false_iff, bool_decide_eq_true, Exists_exists. done. Qed.

Lemma valid_calls d c :
  NoDup (ce_instance <$> d_components d) →
  match list_find (λ e, ce_instance e = c_instance c) (d_components d) with
  | None => Err (CallerUnknown (c_instance c) (c_port c))
  | Some (_, caller) =>
      if negb (bool_decide (c_port c ∈ ce_call_ports caller)) then Err (CallUndeclared (c_instance c) (c_port c))
      else
        match collect ((λ c, (ce_instance c, ce_sync_ports c)) <$> d_components d) !! c_target_instance c with
        | None => Err (CalleeUnknown (c_instance c) (c_port c) (c_target_instance c))
        | Some ports =>
            refuse_if (negb (bool_decide (c_target_port c ∈ ports)))
              (CalleeUndeclared (c_instance c) (c_port c) (c_target_instance c) (c_target_port c))
        end
  end = Ok () →
  ∃ e t, e ∈ d_components d ∧ ce_instance e = c_instance c ∧ c_port c ∈ ce_call_ports e ∧
         t ∈ d_components d ∧ ce_instance t = c_target_instance c ∧ c_target_port c ∈ ce_sync_ports t.
Proof.
  intros Hnd. rewrite (collect_fmap ce_instance ce_sync_ports) by done.
  destruct (list_find (λ e, ce_instance e = c_instance c) (d_components d)) as [[i e]|] eqn:He; [|done].
  case_bool_decide as Hp; [|done]. simpl negb.
  destruct (snd <$> list_find (λ x, ce_instance x = c_target_instance c) (d_components d)) as [t|] eqn:Ht; [|done].
  simpl. rewrite refuse_if_Ok, negb_false_iff, bool_decide_eq_true. intros Hq.
  apply find_component in Ht as [? ?]. apply list_find_Some in He as (Hi&?&_).
  exists e, t. split_and!; try done. by eapply list_elem_of_lookup_2.
Qed.

Lemma validate_spec d : ∃ r, validate d = Returns r ∧ (r = Ok () → valid_wiring d).
Proof.
  unfold validate. destruct (validate_ports d) as [[]|e] eqn:Hports; [|by eexists].
  destruct (call_cycle_spec (d_calls d)) as (cycle&->&Hcyc). simpl. eexists. split; [done|].
  destruct cycle as [cycle|]; [done|]. unfold validate_ports in Hports. unfold validate_channels.
  rewrite first_err_Ok, !Forall_cons in *. destruct Hports as (H1&_&H3&H4&H5&H6&H7&_).
  intros (H8&H9&_&H11&_).
  apply refuse_repeats_Ok in H1 as [H1 _]. apply refuse_repeats_Ok in H3 as [H3 _].
  apply refuse_repeats_Ok in H4 as [H4 _]. apply refuse_repeats_Ok in H6 as [H6 _]. apply refuse_repeats_Ok in H8 as [H8 _].
  assert (Hchan : ∀ ch, ch ∈ (b_channel <$> d_subscriptions d) ++ (o_channel <$> d_outputs d) →
    surface_bindable_address ch = true ∧ (is_local_channel ch = true → ch ∈ lc_channel <$> d_local_channels d)).
  { intros ch Hch. rewrite first_err_fmap in H9. specialize (H9 ch Hch). simpl in H9.
    destruct (surface_bindable_address ch); [|done]. split; [done|]. intros Hl. rewrite Hl in H9. simpl in H9.
    case_bool_decide as Hex; [|done]. apply Exists_exists in Hex as (lc&?&<-). by apply list_elem_of_fmap_2. }
  rewrite first_err_fmap in H11. split; try done; [by apply Hchan|by apply Hchan| | |].
  - intros b Hb. apply declares_spec, (refuse_if_Ok _ (BoundInstanceUnknown (b_instance b) (b_port b) (b_channel b))).
    apply (H11 (b_instance b, b_port b, b_channel b)), elem_of_app. left. by apply (list_elem_of_fmap_2 (λ b, (b_instance b, b_port b, b_channel b))).
  - intros o Ho. rewrite first_err_fmap in H5. specialize (H5 o Ho). simpl in H5.
    assert (∃ c, c ∈ d_components d ∧ ce_instance c = o_instance o) as (c0&Hc0&Hi0).
    { apply declares_spec, (refuse_if_Ok _ (BoundInstanceUnknown (o_instance o) (o_port o) (o_channel o))).
      apply (H11 (o_instance o, o_port o, o_channel o)), elem_of_app. right. by apply (list_elem_of_fmap_2 (λ b, (o_instance b, o_port b, o_channel b))). }
    rewrite (collect_fmap ce_instance ce_declared_out_ports) in H5 by done.
    destruct (snd <$> list_find (λ x, ce_instance x = o_instance o) (d_components d)) as [c|] eqn:Hc; simpl in H5.
    + apply refuse_if_Ok in H5. rewrite negb_false_iff, bool_decide_eq_true in H5.
      apply find_component in Hc as [? ?]. by exists c.
    + destruct (list_find _ _) as [[]|] eqn:Hn in Hc; [done|]. apply list_find_None in Hn. rewrite Forall_forall in Hn.
      destruct (Hn c0 Hc0). done.
  - intros c Hc. rewrite first_err_fmap in H7. by apply valid_calls, H7.
Qed.

(** Every index answers as a scan of the document would. *)
Record applied_ok (d : BindingsDocument) (a : AppliedBindings) : Prop := {
  ap_doc : a_doc a = d;
  ap_component i : component a i = Returns (snd <$> list_find (λ c, ce_instance c = i) (d_components d));
  ap_output i p : applied_output a i p =
    Returns (snd <$> list_find (λ o, o_instance o = i ∧ o_port o = p) (d_outputs d));
  ap_call i p : call_target a i p = Returns (snd <$> list_find (λ c, c_instance c = i ∧ c_port c = p) (d_calls d));
  ap_inputs channel : inputs_on a channel = Returns (on_channel channel (d_subscriptions d));
  ap_store channel : store_depth a channel = demanded d channel;
  ap_wire channel : wire_depths a channel = stated d channel;
  ap_ports i : a_declared_out_ports a !! i =
    (λ c, list_to_set (ce_declared_out_ports c)) <$> (snd <$> list_find (λ c, ce_instance c = i) (d_components d));
  ap_grants i : a_grants a !! i = ce_grants <$> (snd <$> list_find (λ c, ce_instance c = i) (d_components d));
}.

Lemma demanded_spec d store t channel :
  (∀ channel, store !! channel =
    match filter (λ lc, lc_channel lc = channel) (d_local_channels d) with
    | [] => None
    | ls => Some (max_of (lc_ring_depth <$> ls))
    end) →
  tables_ok store (d_subscriptions d) t → floor_reserved (t_store t) !! channel = demanded d channel.
Proof.
  intros Hst Ht. rewrite floor_reserved_spec, (tb_store _ _ _ Ht), Hst.
  set (ls := filter _ (d_local_channels d)). set (bs := on_channel channel (d_subscriptions d)).
  set (floor := option_list (r_ring_depth <$> reserved_local_channel channel)).
  assert (Hd : demands d channel ≠ [] → demanded d channel =
    Some (N.max (max_of floor) (N.max (max_of (lc_ring_depth <$> ls)) (max_of (deepest <$> bs))))).
  { unfold demanded. destruct (demands d channel) eqn:E; [done|]. intros _. rewrite <- E. unfold demands.
    by rewrite !max_of_app. }
  assert (Hn : demands d channel = [] ↔ ls = [] ∧ bs = []).
  { unfold demands. fold ls bs. destruct ls, bs; simpl; naive_solver. }
  assert (Hf : ∀ n, Some (N.max (max_of floor) n) = match reserved_local_channel channel with
    | Some r => Some (N.max (r_ring_depth r) n) | None => Some n end).
  { intros n. subst floor. unfold max_of. destruct (reserved_local_channel channel); simpl; f_equal; lia. }
  destruct (decide (demands d channel = [])) as [He|Hne].
  - unfold demanded. rewrite He. apply Hn in He as [-> ->]. by destruct (reserved_local_channel channel).
  - rewrite Hd, Hf by done. assert (¬ (ls = [] ∧ bs = [])) as Hn' by (by rewrite <- Hn). clear - Hn'.
    destruct bs as [|b bs], ls as [|lc ls]; [by destruct Hn'| | |]; rewrite ?fmap_nil; change (max_of []) with 0;
      repeat (match goal with |- context [max_of ?l] => generalize (max_of l); intros end);
      destruct (reserved_local_channel channel); simpl; f_equal; lia.
Qed.

Lemma index_spec max body d :
  valid_wiring d →
  ∃ r, index max body d = Returns r ∧
    match r with
    | Err _ => ∃ b, b ∈ d_subscriptions d ∧ unsizable max b
    | Ok a => (∀ b, b ∈ d_subscriptions d → ¬ unsizable max b) ∧ applied_ok d a
    end.
Proof.
  intros Hv. unfold index.
  destruct (index_keys_spec ce_instance "surface client: bindings document declares component instance twice" _ (v_instances _ Hv))
    as (comps&->&Hcomps). cbn [mbind panics_bind].
  destruct (index_pairs_spec o_instance o_port "surface client: bindings document binds output port twice" _ (v_outputs _ Hv))
    as (outs&->&Houts). cbn [mbind panics_bind].
  destruct (index_pairs_spec c_instance c_port "surface client: bindings document binds call port twice" _ (v_calls _ Hv))
    as (calls&->&Hcalls). cbn [mbind panics_bind].
  destruct (index_locals_spec _ (v_locals _ Hv)) as (seen&store&->&_&Hstore). cbn [mbind panics_bind].
  destruct (index_inputs_spec max store _ (v_inputs _ Hv)) as (r&->&Hr).
  { apply Forall_forall. intros b Hb. apply (v_bindable _ Hv), elem_of_app. left. by apply list_elem_of_fmap_2. }
  cbn [mbind panics_bind]. destruct r as [t|e]; [|by eexists]. destruct Hr as [Hsize Ht].
  eexists. split; [done|]. split; [done|]. pose proof (v_instances _ Hv). split; simpl.
  - done.
  - intros i. apply scan_matches. apply Hcomps.
  - intros i p. apply scan_matches. apply Houts.
  - intros i p. apply scan_matches. apply Hcalls.
  - intros ch. unfold inputs_on. simpl. rewrite (tb_inputs _ _ _ Ht). apply positions_lead_back.
  - intros ch. by apply (demanded_spec d store).
  - intros ch. apply (tb_wire _ _ _ Ht).
  - intros i. by apply (collect_fmap ce_instance (λ c, list_to_set (ce_declared_out_ports c))).
  - intros i. by apply (collect_fmap ce_instance ce_grants).
Qed.

Lemma parse_valid dj d : parse_document dj = Returns (Ok d) → dj = Some d ∧ valid_wiring d.
Proof.
  unfold parse_document. destruct dj as [d'|]; [|done]. destruct (negb _); [done|].
  destruct (validate_spec d') as (r&->&Hv). simpl. destruct r as [[]|e]; [|done]. intros [= ->]. auto.
Qed.

Lemma applied_inv max body dj a :
  apply_document max body dj = Returns (Ok a) →
  ∃ d, dj = Some d ∧ valid_wiring d ∧ applied_ok d a ∧ ∀ b, b ∈ d_subscriptions d → ¬ unsizable max b.
Proof.
  unfold apply_document. destruct (parse_document dj) as [[d|e]|] eqn:Hp; [|done|done]. simpl.
  apply parse_valid in Hp as [-> Hv]. destruct (index_spec max body d Hv) as (r&->&Hr). intros [= ->].
  destruct Hr. by exists d.
Qed.

Lemma find_some_component d i c :
  c ∈ d_components d → ce_instance c = i → NoDup (ce_instance <$> d_components d) →
  (snd <$> list_find (λ c, ce_instance c = i) (d_components d)) = Some c.
Proof.
  intros Hc Hi Hnd. destruct (list_find_elem_of (λ c, ce_instance c = i) _ c Hc Hi) as [[k x] Hf]. rewrite Hf. simpl. f_equal.
  apply list_find_Some in Hf as (Hk&Hx&_). apply list_elem_of_lookup in Hc as [j Hj].
  assert (k = j) as ->; [|congruence].
  eapply NoDup_lookup; [exact Hnd|by rewrite list_lookup_fmap, Hk|rewrite list_lookup_fmap, Hj; simpl; congruence].
Qed.

Lemma declared_reader d a b :
  valid_wiring d → applied_ok d a → b ∈ d_subscriptions d → is_declared_instance a (b_instance b) = true.
Proof.
  intros Hv Ha Hb. destruct (v_readers _ Hv b Hb) as (c&Hc&Hi). apply bool_decide_eq_true.
  pose proof (ap_component _ _ Ha (b_instance b)) as Hcomp.
  rewrite (find_some_component _ _ _ Hc Hi (v_instances _ Hv)) in Hcomp. unfold component in Hcomp.
  by destruct (a_components a !! b_instance b).
Qed.

Lemma declared_writer d a o :
  valid_wiring d → applied_ok d a → o ∈ d_outputs d →
  ∃ ports, declared_ports a (o_instance o) = Returns ports ∧ o_port o ∈ ports.
Proof.
  intros Hv Ha Ho. destruct (v_writers _ Hv o Ho) as (c&Hc&Hi&Hp). unfold declared_ports.
  rewrite (ap_ports _ _ Ha), (find_some_component _ _ _ Hc Hi (v_instances _ Hv)). simpl. eexists. split; [done|].
  by apply elem_of_list_to_set.
Qed.

Lemma max_of_le l x : x ∈ l → x ≤ max_of l.
Proof. induction 1 as [|x y l _ IH]; unfold max_of in *; simpl; lia. Qed.

Lemma demanded_le d channel x :
  x ∈ demands d channel → ∃ depth, demanded d channel = Some depth ∧ x ≤ depth.
Proof.
  intros Hx. unfold demanded. destruct (demands d channel) as [|y l] eqn:He; [by apply elem_of_nil in Hx|].
  eexists. split; [done|]. apply max_of_le, elem_of_app. by right.
Qed.

Lemma demanded_covers d a b :
  applied_ok d a → b ∈ d_subscriptions d →
  ∃ depth, store_depth a (b_channel b) = Some depth ∧ b_push_depth b ≤ depth ∧ b_retain_depth b ≤ depth.
Proof.
  intros Ha Hb. rewrite (ap_store _ _ Ha). destruct (demanded_le d (b_channel b) (deepest b)) as (depth&->&Hle).
  - apply elem_of_app. right. apply list_elem_of_fmap_2. by apply list_elem_of_filter.
  - exists depth. unfold deepest in Hle. split; [done|lia].
Qed.

Lemma demanded_local d a channel :
  applied_ok d a → channel ∈ lc_channel <$> d_local_channels d → is_Some (store_depth a channel).
Proof.
  intros Ha (lc&->&Hlc)%list_elem_of_fmap. rewrite (ap_store _ _ Ha).
  destruct (demanded_le d (lc_channel lc) (lc_ring_depth lc)) as (depth&->&_); [|done].
  apply elem_of_app. left. apply list_elem_of_fmap_2. by apply list_elem_of_filter.
Qed.
End Indexed.

Module WiringProps.
Import Envelope Proto Subs Buffer BufferRun Wiring CallGraph Indexed.

(** C39: (page wiring) The search for a cycle of calls ends on every call table, whatever its
    length; what it spells out is a chain of wired calls that returns to its first caller,
    and it answers nothing exactly when no caller can reach itself. *)
Theorem call_cycle_is_found_iff_there_is_one (calls : list CallBinding) :
  ∃ r, call_cycle calls = Returns r ∧
    (∀ cycle, r = Some cycle → cycle_of_calls calls cycle) ∧
    (r = None ↔ ∀ n, ¬ tc (calls_on calls) n n).
Proof.
  destruct (call_cycle_spec calls) as (r&Hr&Hok). exists r. split; [done|]. destruct r as [cycle|]; [|done].
  split; [by intros ? [= <-]|]. split; [done|]. intros Hn. destruct (cycle_reaches calls cycle Hok) as [n Hcyc].
  by destruct (Hn n).
Qed.

(** C13: (page wiring) A document the reader accepted never unwinds the page that indexes it:
    it is refused exactly for a depth this build cannot allocate, and otherwise every bound
    channel is one a surface may bind, has a store at least as deep as each window bound to
    it, and every output port is in its component's declared vocabulary. *)
Theorem accepted_wiring_is_indexed (max : N) (body : string) (dj : option BindingsDocument) (d : BindingsDocument) :
  parse_document dj = Returns (Ok d) →
  ∃ r, apply_document max body dj = Returns r ∧
    ((∃ e, r = Err e) ↔ ∃ b, b ∈ d_subscriptions d ∧ (max < b_push_depth b ∨ max < b_retain_depth b)) ∧
    ∀ a, r = Ok a →
      (∀ b, b ∈ d_subscriptions d →
         surface_bindable_address (b_channel b) = true ∧ is_declared_instance a (b_instance b) = true ∧
         ∃ depth, store_depth a (b_channel b) = Some depth ∧ b_push_depth b ≤ depth ∧ b_retain_depth b ≤ depth) ∧
      (∀ o, o ∈ d_outputs d →
         surface_bindable_address (o_channel o) = true ∧
         (is_local_channel (o_channel o) = true → is_Some (store_depth a (o_channel o))) ∧
         ∃ ports, declared_ports a (o_instance o) = Returns ports ∧ o_port o ∈ ports).
Proof.
  intros Hp. unfold apply_document. rewrite Hp. apply parse_valid in Hp as [-> Hv]. simpl.
  destruct (index_spec max body d Hv) as (r&Hi&Hr). rewrite Hi. exists r. split; [done|]. split.
  { destruct r as [a|e]; [|naive_solver]. destruct Hr as [Hr _]. unfold unsizable in Hr. naive_solver. }
  intros a ->. destruct Hr as [_ Ha]. split.
  - intros b Hb. split; [apply (v_bindable _ Hv), elem_of_app; left; by apply list_elem_of_fmap_2|].
    split; [by apply (declared_reader d)|by apply (demanded_covers d)].
  - intros o Ho. assert (o_channel o ∈ (b_channel <$> d_subscriptions d) ++ (o_channel <$> d_outputs d)) as Hin.
    { apply elem_of_app. right. by apply list_elem_of_fmap_2. }
    split; [by apply (v_bindable _ Hv)|]. split; [|by apply (declared_writer d)].
    intros Hl. by apply (demanded_local d), (v_routed _ Hv).
Qed.

(** (page wiring) Every index a page builds answers as a scan of the document would:
    an instance's entry, the binding behind an output port, the peer behind a call port, the
    bindings on a channel in declaration order, the depth of a channel's store (the deepest of
    its local declaration, of the windows bound to it and of a reserved plane's floor), and the
    depths to state on the wire (the deepest of each, on a channel that crosses it). *)
Theorem indexes_answer_as_scans (max : N) (body : string) (dj : option BindingsDocument) (a : AppliedBindings) :
  apply_document max body dj = Returns (Ok a) →
  ∃ d, dj = Some d ∧ a_doc a = d ∧
    (∀ i, component a i = Returns (snd <$> list_find (λ c, ce_instance c = i) (d_components d))) ∧
    (∀ i p, applied_output a i p = Returns (snd <$> list_find (λ o, o_instance o = i ∧ o_port o = p) (d_outputs d))) ∧
    (∀ i p, call_target a i p = Returns (snd <$> list_find (λ c, c_instance c = i ∧ c_port c = p) (d_calls d))) ∧
    (∀ channel, inputs_on a channel = Returns (filter (λ b, b_channel b = channel) (d_subscriptions d))) ∧
    (∀ channel, store_depth a channel = demanded d channel) ∧
    (∀ channel, wire_depths a channel = stated d channel).
Proof.
  intros Ha. destruct (applied_inv _ _ _ _ Ha) as (d&->&_&[]&_). exists d. split_and!; done.
Qed.

(** Two components: one reads and writes a channel of the bus and calls the other, which reads
    a page-local channel. *)
Definition demo_document : BindingsDocument :=
  mkDocument 5
    [mkComponent "bar" "protobar" 4 [] ["alt"; "out"]%string [] ["ask"]%string ∅;
     mkComponent "clock" "clock" 4 [] ["out"]%string ["press"]%string [] ∅]
    [mkBinding "brenn:room" "bar" "in" 2 3 Metered; mkBinding "local:bar" "clock" "tick" 1 5 Silent;
     mkBinding "brenn:room" "clock" "news" 4 0 Silent]
    [mkOutputBinding "brenn:room" "bar" "out" Normal 1000 4000; mkOutputBinding "local:bar" "clock" "out" Low 1000 1000]
    [mkCallBinding "bar" "ask" "clock" "press"]
    [mkLocalChannel "local:bar" 2]
    "bar" (mkPlatform "brenn:geometry" "brenn:status" 60 None None).

Lemma demo_parses : parse_document (Some demo_document) = Returns (Ok demo_document).
Proof. vm_compute. reflexivity. Qed.

(** A caller that reaches itself through a peer is spelled out from where the walk met it. *)
Example demo_cycle :
  call_cycle [mkCallBinding "a" "p" "b" "s"; mkCallBinding "b" "p" "c" "s"; mkCallBinding "c" "p" "b" "s"] =
  Returns (Some ["b"; "c"; "b"]%string).
Proof. vm_compute. reflexivity. Qed.

Lemma accepted_wiring_is_indexed_witness :
  ∃ a, apply_document 4294967295 "body" (Some demo_document) = Returns (Ok a) ∧
    (∃ depth, store_depth a "local:bar" = Some depth ∧ 1 ≤ depth ∧ 5 ≤ depth).
Proof.
  destruct (accepted_wiring_is_indexed 4294967295 "body" (Some demo_document) demo_document demo_parses) as (r&Hr&Herr&Hok).
  destruct r as [a|e].
  - exists a. split; [exact Hr|]. destruct (Hok a eq_refl) as [Hin _].
    destruct (Hin (mkBinding "local:bar" "clock" "tick" 1 5 Silent)) as (_&_&depth&Hd&Hp&Hd2); [right; left|].
    exists depth. auto.
  - exfalso. destruct (proj1 Herr (ex_intro _ e eq_refl)) as (b&Hb&Hu). simpl in Hb.
    repeat (apply elem_of_cons in Hb as [->|Hb]; [simpl in Hu; lia|]). by apply elem_of_nil in Hb.
Defined.

Lemma indexes_answer_as_scans_witness :
  match apply_document 4294967295 "body" (Some demo_document) with
  | Returns (Ok a) =>
      store_depth a "brenn:room" = Some 4 ∧ wire_depths a "brenn:room" = Some (mkDepths 4 3) ∧
      wire_depths a "local:bar" = None ∧
      call_target a "bar" "ask" = Returns (Some (mkCallBinding "bar" "ask" "clock" "press"))
  | _ => False
  end.
Proof.
  destruct (apply_document 4294967295 "body" (Some demo_document)) as [[a|e]|why] eqn:Ha.
  - destruct (indexes_answer_as_scans _ _ _ _ Ha) as (d&[= <-]&_&_&_&Hcall&_&Hst&Hw).
    rewrite Hst, !Hw, Hcall. split_and!; reflexivity.
  - exfalso. assert (match apply_document 4294967295 "body" (Some demo_document) with Returns (Ok _) => true | _ => false end = true) as Hc
      by (vm_compute; reflexivity). by rewrite Ha in Hc.
  - exfalso. assert (match apply_document 4294967295 "body" (Some demo_document) with Returns (Ok _) => true | _ => false end = true) as Hc
      by (vm_compute; reflexivity). by rewrite Ha in Hc.
Defined.
End WiringProps.
