(* ===== verification/Planes.v ===== *)
(** * The reserved planes of a page ([surface/kernel/src/planes.rs])

    The surface's answers to the confined router's three questions: who may write a plane,
    what a body must look like, and what a message that became visible tells the kernel.
    The JSON of the two bodies is the class [PlaneJson]. Judging a report of the overlay and
    recording one read the wiring and unwind on a page that has none. [PlaneRun] closes the
    policy with the router and with new wirings. *)

From S2P Require Import Prelude Envelope Ring Cursor Deferred RingCore Proto Subs AttachStore Router Text Grants Buffer Wiring.
From Stdlib Require Import Strings.Ascii Strings.Byte.

#[local] Open Scope string_scope.
#[local] Open Scope N_scope.
#[local] Open Scope list_scope.

Module Planes.
Import Envelope Proto Router Buffer Wiring.

(** [TakeoverAction], [TakeoverMode]. *)
Inductive TakeoverAction := Request | Release.
Inductive TakeoverMode := Takeover | Overlay.

(** [TakeoverBody]. *)
Record TakeoverBody := mkTakeover {
  tk_v : Byte.byte;
  tk_action : TakeoverAction;
  tk_mode : TakeoverMode;
  tk_instance : string;
}.

(** [OverlayStateBody]. *)
Record OverlayStateBody := mkOverlay {
  ov_v : Byte.byte;
  ov_holder : option string;
  ov_since_stamp : N;
}.

(** [serde_json] on the two bodies; parsing undoes printing. *)
Class PlaneJson := {
  overlay_from : string → option OverlayStateBody;
  takeover_from : string → option TakeoverBody;
  takeover_to : TakeoverBody → string;
}.
Class PlaneJsonLaws `{PlaneJson} : Prop := {
  takeover_reads_back t : takeover_from (takeover_to t) = Some t;
}.

(** [OverlayReport]. *)
Record OverlayReport (DateTime : Type) := mkReport { rp_holder : string; rp_since : DateTime }.
Arguments mkReport {DateTime}.
Arguments rp_holder {DateTime}.
Arguments rp_since {DateTime}.

(** [PlaneWiring]. *)
Record PlaneWiring := mkWiring { pw_chrome_instance : string; pw_instances : gset string }.

(** [SurfacePlanes]. *)
Record SurfacePlanes (DateTime : Type) := mkPlanes {
  pl_wiring : option PlaneWiring;
  pl_overlay : option (OverlayReport DateTime);
}.
Arguments mkPlanes {DateTime}.
Arguments pl_wiring {DateTime}.
Arguments pl_overlay {DateTime}.

(** [is_reserved_local_namespace]. *)
Definition is_reserved_local_namespace (address : string) : bool := String.prefix "local:brenn/" address.

(** [is_undefined_reserved]. *)
Definition is_undefined_reserved (channel : string) : bool :=
  is_reserved_local_namespace channel && bool_decide (reserved_local_channel channel = None).

Section planes.
Context {Uuid DateTime : Type} `{PlaneJson}.
Implicit Types (p : SurfacePlanes DateTime) (env : MessageEnvelope Uuid DateTime).

(** [SurfacePlanes::new]. *)
Definition planes_new : SurfacePlanes DateTime := mkPlanes None None.

(** [SurfacePlanes::apply]. *)
Definition planes_apply p (a : AppliedBindings) : SurfacePlanes DateTime :=
  let wiring := mkWiring (d_chrome_instance (a_doc a)) (list_to_set (ce_instance <$> d_components (a_doc a))) in
  let overlay := match pl_overlay p with
    | Some o => if negb (bool_decide (rp_holder o ∈ pw_instances wiring)) then None else Some o
    | None => None
    end in
  mkPlanes (Some wiring) overlay.

(** [SurfacePlanes::wiring]. *)
Definition wiring p : panics PlaneWiring :=
  rust_expect (pl_wiring p) "surface client: a confined publish implies applied bindings".

(** [SurfacePlanes::refuse_overlay_state]. *)
Definition refuse_overlay_state p (instance body : string) : panics (option string) :=
  w ← wiring p;
  if negb (bool_decide (pw_chrome_instance w = instance)) then Returns (Some "only the surface's chrome instance may publish it")
  else
    match overlay_from body with
    | None => Returns (Some "unparseable body")
    | Some parsed =>
        Returns (match ov_holder parsed with
                 | Some holder => if negb (bool_decide (holder ∈ pw_instances w)) then Some "holder is not a declared instance" else None
                 | None => None
                 end)
    end.

(** [inject_takeover_instance]. *)
Definition inject_takeover_instance (body instance : string) : result string string :=
  match takeover_from body with
  | Some parsed => Ok (takeover_to (mkTakeover (tk_v parsed) (tk_action parsed) (tk_mode parsed) instance))
  | None => Err "unparseable body"
  end.

(** [SurfacePlanes::admits]. *)
Definition planes_admits (channel : string) (origin : Origin) : bool :=
  let kernel_only := match reserved_local_channel channel with Some r => r_kernel_publish_only r | None => false end in
  match origin with
  | Attacher => kernel_only
  | Sub _ => negb kernel_only && negb (is_undefined_reserved channel)
  end.

(** [SurfacePlanes::guard], which unwinds where the kernel has no business. *)
Definition planes_guard p (channel : string) (origin : Origin) (body : string) : panics GuardedBody :=
  if bool_decide (channel = LOCAL_OVERLAY_STATE_CHANNEL) || bool_decide (channel = LOCAL_TAKEOVER_CHANNEL) then
    match origin with
    | Attacher => Panics "surface client: the kernel does not publish on this plane"
    | Sub instance =>
        if bool_decide (channel = LOCAL_OVERLAY_STATE_CHANNEL) then
          refusal ← refuse_overlay_state p instance body;
          Returns (match refusal with Some reason => GuardRefused reason | None => Carry body end)
        else
          Returns (match inject_takeover_instance body instance with
                   | Ok body => Carry body
                   | Err reason => GuardRefused reason
                   end)
    end
  else Returns (Carry body).

(** [SurfacePlanes::observe]. *)
Definition planes_observe p env : panics (SurfacePlanes DateTime) :=
  if negb (bool_decide (channel env = LOCAL_OVERLAY_STATE_CHANNEL)) then Returns p
  else
    parsed ← rust_expect (overlay_from (body env)) "surface client: a body on the overlay plane parsed when it was accepted";
    match ov_holder parsed with
    | Some holder =>
        w ← wiring p;
        if negb (bool_decide (holder ∈ pw_instances w)) then Returns p
        else Returns (mkPlanes (pl_wiring p) (Some (mkReport holder (publish_ts env))))
    | None => Returns (mkPlanes (pl_wiring p) None)
    end.

(** The policy the router is handed. *)
Definition surface_planes : PlanePolicy (SurfacePlanes DateTime) Uuid DateTime := {|
  admits _ c o := planes_admits c o;
  guard := planes_guard;
  observe := planes_observe;
|}.
End planes.

#[export] Existing Instance surface_planes.
End Planes.

(** ** The policy under the router *)
Module PlaneRun.
Import Envelope Proto Router RouterRun Buffer Wiring Planes Ring Core Store.

(** What the two guarded planes carry: a takeover names the component that published it, a
    report of the overlay parses. *)
Definition plane_law `{PlaneJson} (c : string) (o : Origin) (b : string) : Prop :=
  (c = LOCAL_TAKEOVER_CHANNEL → ∃ instance t, o = Sub instance ∧ takeover_from b = Some t ∧ tk_instance t = instance) ∧
  (c = LOCAL_OVERLAY_STATE_CHANNEL → is_Some (overlay_from b)).

(** The kernel reports no holder its wiring does not declare. *)
Definition reports_declared {DateTime} (p : SurfacePlanes DateTime) : Prop :=
  ∀ o, pl_overlay p = Some o → ∃ w, pl_wiring p = Some w ∧ rp_holder o ∈ pw_instances w.

Section run.
Context {Uuid DateTime K : Type} `{EqDecision Uuid, Countable K, Chrono DateTime} `{PlaneJson, !PlaneJsonLaws}.
Implicit Types (p : SurfacePlanes DateTime) (ss : ChannelStores Uuid DateTime K) (env : MessageEnvelope Uuid DateTime).

Abbreviation PlaneState := (LocalRouter (SurfacePlanes DateTime) * ChannelStores Uuid DateTime K)%type.

(** A page applies a wiring, or asks something of its router. *)
Inductive PlaneEvent := Rewire (a : AppliedBindings) | OnRouter (e : RouterEvent Uuid DateTime).

Definition plane_step (s : PlaneState) (e : PlaneEvent) : panics PlaneState :=
  match e with
  | Rewire a => Returns (with_policy s.1 (planes_apply (policy s.1) a), s.2)
  | OnRouter e => router_step s e
  end.

(** Whether some wiring has been applied. *)
Definition wired p : Prop := is_Some (pl_wiring p).

(** The router's own obligations; and nothing but a name is given to it before the first
    wiring. *)
Definition plane_pre (s : PlaneState) (e : PlaneEvent) : Prop :=
  match e with
  | Rewire _ => True
  | OnRouter e => router_pre s e ∧ (wired (policy s.1) ∨ ∃ who, e = EvPrincipal who)
  end.

Fixpoint plane_run (s : PlaneState) (es : list PlaneEvent) : panics PlaneState :=
  match es with [] => Returns s | e :: es => s' ← plane_step s e; plane_run s' es end.

Fixpoint plane_admissible (s : PlaneState) (es : list PlaneEvent) : Prop :=
  match es with
  | [] => True
  | e :: es => plane_pre s e ∧ ∀ s', plane_step s e = Returns s' → plane_admissible s' es
  end.

Lemma planes_guard_sound p c o raw b : planes_guard p c o raw = Returns (Carry b) → plane_law c o b.
Proof.
  unfold planes_guard, plane_law. destruct (decide (c = LOCAL_OVERLAY_STATE_CHANNEL)) as [->|Hov].
  - rewrite bool_decide_eq_true_2 by done. simpl. destruct o as [|i]; [done|]. unfold refuse_overlay_state.
    destruct (wiring p) as [w|]; [|done]. simpl. case_bool_decide; [|done]. simpl.
    destruct (overlay_from raw) as [parsed|] eqn:Hp; [|done]. simpl. intros Hc. split; [done|]. intros _.
    assert (raw = b) as <- by (repeat case_match; by simplify_eq). by rewrite Hp.
  - rewrite (bool_decide_eq_false_2 (c = LOCAL_OVERLAY_STATE_CHANNEL)) by done. simpl.
    destruct (decide (c = LOCAL_TAKEOVER_CHANNEL)) as [->|Htk].
    + rewrite bool_decide_eq_true_2 by done. destruct o as [|i]; [done|]. unfold inject_takeover_instance.
      destruct (takeover_from raw) as [t|]; [|done]. intros [= <-]. split; [|done]. intros _.
      eexists _, _. split; [done|]. rewrite takeover_reads_back. done.
    + rewrite bool_decide_eq_false_2 by done. intros _. done.
Qed.

Lemma planes_guard_returns p c o b : planes_admits c o = true → wired p → ∃ g, planes_guard p c o b = Returns g.
Proof.
  intros Ha [w Hw]. unfold planes_guard. case_bool_decide as Hov; [|case_bool_decide as Htk; [|by eexists]]; simpl.
  - destruct o as [|i]; [subst; vm_compute in Ha; done|]. unfold refuse_overlay_state, wiring. rewrite Hw. simpl.
    by repeat case_match; eexists.
  - destruct o as [|i]; [subst; vm_compute in Ha; done|]. by eexists.
Qed.

Lemma planes_observe_returns p env :
  (channel env = LOCAL_OVERLAY_STATE_CHANNEL → is_Some (overlay_from (body env))) → wired p →
  ∃ p', planes_observe p env = Returns p' ∧ pl_wiring p' = pl_wiring p.
Proof.
  intros Hp [w Hw]. unfold planes_observe. case_bool_decide as Hc; simpl; [|by eexists]. destruct (Hp Hc) as [parsed ->]. simpl.
  destruct (ov_holder parsed); [|by eexists]. unfold wiring. rewrite Hw. simpl. case_bool_decide; by eexists.
Qed.

(** The surface's policy answers for whatever it admits, once it is wired. *)
Lemma planes_contract : plane_contract (P := SurfacePlanes DateTime) (Uuid := Uuid) plane_law wired.
Proof.
  split; simpl.
  - intros p c o raw b. apply planes_guard_sound.
  - intros p c o raw Hw Ha. by apply planes_guard_returns.
  - intros p env Hw [_ (who&o&_&_&Ho)]. destruct (planes_observe_returns p env Ho Hw) as (p'&Hp&He).
    exists p'. split; [done|]. unfold wired. by rewrite He.
Qed.

(** Before that, a component's report of the overlay unwinds. *)
Lemma unwired_report_unwinds p i b :
  pl_wiring p = None →
  planes_guard p LOCAL_OVERLAY_STATE_CHANNEL (Sub i) b = Panics "surface client: a confined publish implies applied bindings".
Proof. intros Hw. unfold planes_guard, refuse_overlay_state, wiring. by rewrite Hw. Qed.

Lemma observe_declared p p' env : reports_declared p → planes_observe p env = Returns p' → reports_declared p'.
Proof.
  intros Hp Ho. unfold planes_observe in Ho.
  case_bool_decide; simpl in Ho; [|by injection Ho as <-]. destruct (overlay_from (body env)) as [parsed|]; [|done]. simpl in Ho.
  destruct (ov_holder parsed) as [h|]; [|by injection Ho as <-]. unfold wiring in Ho.
  destruct (pl_wiring p) as [w|] eqn:Hw; [|done]. simpl in Ho. case_bool_decide; simpl in Ho; injection Ho as <-; [|done].
  intros o [= <-]. by exists w.
Qed.

(** A fold of calls that keep [Inv] keeps it. *)
Lemma fold_keeps {A} (Inv : SurfacePlanes DateTime → Prop) (f : SurfacePlanes DateTime → A → panics (SurfacePlanes DateTime)) l p p' :
  (∀ p p' x, Inv p → f p x = Returns p' → Inv p') → Inv p →
  foldl (λ acc x, p ← acc; f p x) (Returns p) l = Returns p' → Inv p'.
Proof.
  intros Hf. revert p. induction l as [|x l IH]; intros p Hp; [by intros [= <-]|]. cbn [foldl mbind panics_bind].
  destruct (f p x) as [p1|why] eqn:Hx; [by apply IH, (Hf p p1 x)|]. clear IH. by induction l.
Qed.

Lemma apply_declared p a : reports_declared p → reports_declared (planes_apply p a).
Proof.
  intros _ o. unfold planes_apply. simpl. destruct (pl_overlay p) as [x|]; [|done]. case_bool_decide as Hin; [|done].
  intros [= <-]. by eexists.
Qed.

Lemma router_step_declared (s s' : PlaneState) e :
  reports_declared (policy s.1) → router_step s e = Returns s' → reports_declared (policy s'.1).
Proof.
  destruct s as [r ss]. intros Hp. destruct e as [who|req|req|now]; cbn [router_step].
  - unfold set_principal. destruct (rust_assert _ _); [|done]. simpl. by intros [= <-].
  - unfold route. destruct (rust_assert (is_local_channel _) _); [|done]. cbn [mbind panics_bind].
    destruct (rust_assert _ _); [|done]. cbn [mbind panics_bind]. destruct (principal r); [|by intros [= <-]].
    destruct (guard _ _ _ _) as [[|]|]; cbn [mbind panics_bind]; [|by intros [= <-]|done]. destruct (still_ahead req) as [[t|]|]; [| |done]; cbn [mbind panics_bind].
    + destruct (store_for ss _); [|done]. cbn [mbind panics_bind]. destruct (store_park _ _ _ _). by intros [= <-].
    + destruct (observe _ _) as [p'|] eqn:Ho; [|done]. cbn [mbind panics_bind].
      destruct (store_for ss _); [|done]. cbn [mbind panics_bind]. destruct (append_minted _ _) as [[st' over]|]; [|done].
      intros [= <-]. exact (observe_declared _ _ _ Hp Ho).
  - destruct (apply_op r ss req) as [[ss' o]|]; [|done]. by intros [= <-].
  - unfold router_release_due. destruct (stores_release_due ss now) as [ss' out].
    destruct (foldl _ _ _) as [p'|] eqn:Hf; [|done]. intros [= <-]. simpl in Hp |- *.
    revert Hf. apply (fold_keeps reports_declared); [|done].
    intros p p1 x Hp1. unfold observe_all.
    apply (fold_keeps reports_declared observe); [|done]. intros p2 p3 env. by apply observe_declared.
Qed.

(** One step keeps the two planes lawful and the report honest, and what is wired stays so. *)
Lemma plane_step_good (s : PlaneState) e :
  guarded_all plane_law s.2 → reports_declared (policy s.1) → plane_pre s e →
  ∃ s', plane_step s e = Returns s' ∧ guarded_all plane_law s'.2 ∧ reports_declared (policy s'.1) ∧
    (wired (policy s.1) ∨ (∃ a, e = Rewire a) → wired (policy s'.1)).
Proof.
  intros Hg Hd Hpre. destruct e as [a|e]; simpl.
  - eexists. split; [done|]. split; [done|]. split; [by apply apply_declared|]. intros _. by eexists.
  - destruct Hpre as [Hpre [Hw|[who ->]]].
    + destruct (router_step_good plane_law wired planes_contract s e Hg Hw Hpre) as (s'&Hs&Hg'&Hw'). exists s'.
      split; [done|]. split; [done|]. split; [by eapply router_step_declared|done].
    + destruct s as [r ss]. simpl in Hpre |- *. unfold set_principal. rewrite bool_decide_false by done. simpl.
      eexists. split; [done|]. split; [done|]. split; [done|]. by intros [?|[? ?]].
Qed.

Lemma plane_run_good (s : PlaneState) es :
  guarded_all plane_law s.2 → reports_declared (policy s.1) → plane_admissible s es →
  ∃ s', plane_run s es = Returns s' ∧ guarded_all plane_law s'.2 ∧ reports_declared (policy s'.1) ∧
    (wired (policy s.1) ∨ (∃ a, Rewire a ∈ es) → wired (policy s'.1)).
Proof.
  revert s. induction es as [|e es IH]; intros s Hg Hd Had.
  { exists s. split_and!; try done. by intros [?|[? []%not_elem_of_nil]]. }
  destruct Had as [Hpre Hrest].
  destruct (plane_step_good s e Hg Hd Hpre) as (s1&Hs&Hg1&Hd1&Hw1). cbn [plane_run]. rewrite Hs.
  destruct (IH s1 Hg1 Hd1 (Hrest s1 Hs)) as (s2&Hr&Hg2&Hd2&Hw2). exists s2. split_and!; try done.
  intros [Hw|(a&[He|Ha]%elem_of_cons)]; apply Hw2; [left; by apply Hw1; left|left; by apply Hw1; right; exists a|right; by exists a].
Qed.
End run.
End PlaneRun.

Module PlanesProps.
Import Envelope Proto Router RouterRun Buffer Wiring Planes PlaneRun Ring Core Store.

Section props.
Context {Uuid DateTime K : Type} `{EqDecision Uuid, Countable K, Chrono DateTime} `{PlaneJson, !PlaneJsonLaws}.
Implicit Types (ss : ChannelStores Uuid DateTime K).

(** C23: (page planes) A page's reserved planes cannot be forged. Over any run of publishes,
    schedules, edits, cancels, releases, re-attachments and new wirings in which nothing is
    published, edited or released before the first wiring, no run unwinds; every takeover on
    its plane, retained or still parked, names exactly the component whose sub-identity sent
    it, whatever the component wrote there; and the holder the kernel reports is one its
    wiring declares. A page wired at the start or on the way is wired at the end, and there
    recording anything the overlay plane retains or has parked returns, as does judging any
    body for a writer the plane admits. On a page not wired yet, judging a component's report
    of the overlay unwinds. *)
Theorem planes_cannot_be_forged (r : LocalRouter (SurfacePlanes DateTime)) ss (es : list PlaneEvent) :
  guarded_all plane_law ss → reports_declared (policy r) → plane_admissible (r, ss) es →
  ∃ r' ss', plane_run (r, ss) es = Returns (r', ss') ∧
    (∀ st m, stores ss' !! LOCAL_TAKEOVER_CHANNEL = Some st →
       m ∈ message <$> entries (ring (core st)) ∨ m ∈ Deferred.payload <$> parked_of st →
       ∃ p t, takeover_from (body m) = Some t ∧ env_sender m = surface_sub_identity p (tk_instance t)) ∧
    reports_declared (policy r') ∧
    (wired (policy r) ∨ (∃ a, Rewire a ∈ es) →
       wired (policy r') ∧
       (∀ st m, stores ss' !! LOCAL_OVERLAY_STATE_CHANNEL = Some st →
          m ∈ message <$> entries (ring (core st)) ∨ m ∈ Deferred.payload <$> parked_of st →
          ∃ p', planes_observe (policy r') m = Returns p') ∧
       (∀ c o b, planes_admits c o = true → ∃ g, planes_guard (policy r') c o b = Returns g)) ∧
    (pl_wiring (policy r') = None → ∀ i b,
       planes_guard (policy r') LOCAL_OVERLAY_STATE_CHANNEL (Sub i) b =
         Panics "surface client: a confined publish implies applied bindings").
Proof.
  intros Hg Hd Had. destruct (plane_run_good (r, ss) es Hg Hd Had) as ([r' ss']&Hr&Hg'&Hd'&Hw'). exists r', ss'.
  assert (Hlaw : ∀ c st m, stores ss' !! c = Some st → is_local_channel c = true →
    m ∈ message <$> entries (ring (core st)) ∨ m ∈ Deferred.payload <$> parked_of st → guarded_msg plane_law c m).
  { intros c st m Hst Hl [(e&->&He)%list_elem_of_fmap|(e&->&He)%list_elem_of_fmap]; pose proof (confined_guarded _ _ Hg' c st Hst Hl) as Hgc.
    - by apply (guarded_ring _ _ _ Hgc).
    - by apply (guarded_parked _ _ _ Hgc). }
  split; [done|]. split; [|split; [done|split]].
  - intros st m Hst Hm. destruct (Hlaw _ st m Hst eq_refl Hm) as (_&p&o&Hs&Ht&_).
    destruct (Ht eq_refl) as (i&t&->&Hp&<-). by exists p, t.
  - intros Hwired. pose proof (Hw' Hwired) as Hw. split; [done|]. split.
    + intros st m Hst Hm. destruct (Hlaw _ st m Hst eq_refl Hm) as (_&who&o&_&_&Ho).
      destruct (planes_observe_returns (policy r') m) as (p'&Hp&_); [intros _; by apply Ho|done|by exists p'].
    + intros c o b Ha. by apply planes_guard_returns.
  - intros Hn i b. by apply unwired_report_unwinds.
Qed.
End props.

(** A takeover body as three letters and a name, an overlay report as the holder's name. *)
#[local] Instance demo_plane_json : PlaneJson := {|
  overlay_from s := if String.eqb s "" then None else Some (mkOverlay x01 (if String.eqb s "-" then None else Some s) 0);
  takeover_from s := match s with
    | String v (String k (String m i)) =>
        Some (mkTakeover (Ascii.byte_of_ascii v) (if Ascii.eqb k "r"%char then Request else Release)
                (if Ascii.eqb m "t"%char then Takeover else Overlay) i)
    | _ => None
    end;
  takeover_to t := String (Ascii.ascii_of_byte (tk_v t)) (String (match tk_action t with Request => "r"%char | Release => "l"%char end)
                     (String (match tk_mode t with Takeover => "t"%char | Overlay => "o"%char end) (tk_instance t)));
|}.
#[local] Instance demo_plane_laws : PlaneJsonLaws.
Proof.
  split. intros [v k m i]. unfold takeover_from, takeover_to. simpl. rewrite Ascii.byte_of_ascii_of_byte. by destruct k, m.
Qed.
#[local] Existing Instance EvalInstances.millis_chrono.

Definition demo_planes : LocalRouter (SurfacePlanes Z) * ChannelStores N Z string :=
  (router_new planes_new, mkStores 7 (<[LOCAL_TAKEOVER_CHANNEL := store_new 7 1]> {[LOCAL_OVERLAY_STATE_CHANNEL := store_new 7 1]})).

(** The page is named and wired; the clock asks for the screen in the bar's name, and chrome
    reports the bar as holding it. *)
Definition demo_plane_run : list (@PlaneEvent N Z) :=
  [OnRouter (EvPrincipal "surface:hall");
   Rewire (mkApplied "" WiringProps.demo_document ∅ ∅ ∅ ∅ ∅ ∅ ∅ ∅);
   OnRouter (EvRoute (mkRoute LOCAL_TAKEOVER_CHANNEL (Sub "clock") "1rtbar" (mkStamp 1 100%Z) Normal None));
   OnRouter (EvRoute (mkRoute LOCAL_OVERLAY_STATE_CHANNEL (Sub "bar") "bar" (mkStamp 2 110%Z) Normal None))].

Lemma plane_admissible_step (s : LocalRouter (SurfacePlanes Z) * ChannelStores N Z string) e es :
  plane_pre s e → returned (plane_step s e) = true → plane_admissible (result_of s (plane_step s e)) es →
  plane_admissible s (e :: es).
Proof. intros Hp Hr Hes. split; [done|]. intros s' Hs. by rewrite Hs in Hes. Qed.

Lemma demo_plane_admissible : plane_admissible demo_planes demo_plane_run.
Proof.
  assert (Hempty : ∀ st : ChannelStore N Z string, st = store_new 7 1 → ∀ mid : N, fresh_id st mid ∧ next_seq (ring (core st)) < u64_max ∧
    Deferred.next_id (deferred (core st)) < u64_max).
  { intros st -> mid. split; [split; intros e He; by apply elem_of_nil in He|]. split; vm_compute; reflexivity. }
  apply plane_admissible_step; [split; [done|right; by eexists]|vm_compute; reflexivity|].
  apply plane_admissible_step; [done|vm_compute; reflexivity|].
  apply plane_admissible_step; [|vm_compute; reflexivity|].
  { split; [|left; by eexists]. split; [reflexivity|]. split; [vm_compute; reflexivity|]. split; [vm_compute; discriminate|].
    eexists. split; [vm_compute; reflexivity|]. by apply Hempty. }
  apply plane_admissible_step; [|vm_compute; reflexivity|exact I].
  split; [|left; by eexists]. split; [reflexivity|]. split; [vm_compute; reflexivity|]. split; [vm_compute; discriminate|].
  eexists. split; [vm_compute; reflexivity|]. by apply Hempty.
Qed.

Lemma planes_cannot_be_forged_witness :
  ∃ r' ss', plane_run demo_planes demo_plane_run = Returns (r', ss') ∧
    (∀ st m, stores ss' !! LOCAL_TAKEOVER_CHANNEL = Some st → m ∈ message <$> entries (ring (core st)) →
       ∃ p t, takeover_from (body m) = Some t ∧ env_sender m = surface_sub_identity p (tk_instance t)) ∧
    reports_declared (policy r').
Proof.
  destruct (planes_cannot_be_forged demo_planes.1 demo_planes.2 demo_plane_run) as (r'&ss'&Hr&Ht&Hd&_&_).
  - split; intros c st Hc _; unfold demo_planes in Hc; simpl in Hc;
      (assert (st = store_new 7 1) as -> by (by apply lookup_insert_Some in Hc as [[_ <-]|[_ [_ <-]%lookup_singleton_Some]])); [|done].
    split; simpl; try (intros * []%not_elem_of_nil). apply CoreRun.core_new_wf.
  - intros o. discriminate.
  - exact demo_plane_admissible.
  - exists r', ss'. split; [exact Hr|]. split; [|exact Hd]. intros st m Hst Hm. apply (Ht st m Hst). by left.
Defined.

(** Before the page is wired, chrome's report of the overlay unwinds. *)
Example unwired_outcome :
  plane_run demo_planes
    [OnRouter (EvPrincipal "surface:hall");
     OnRouter (EvRoute (mkRoute LOCAL_OVERLAY_STATE_CHANNEL (Sub "bar") "bar" (mkStamp 2 110%Z) Normal None))] =
  Panics "surface client: a confined publish implies applied bindings".
Proof. vm_compute. reflexivity. Qed.

(** What the clock wrote as the bar's is carried as its own, and the overlay is the bar's. *)
Example demo_plane_outcome :
  match plane_run demo_planes demo_plane_run with
  | Returns (r, ss) =>
      rp_holder <$> pl_overlay (policy r) = Some "bar" ∧
      (λ st, body ∘ message <$> entries (ring (core st))) <$> stores ss !! LOCAL_TAKEOVER_CHANNEL = Some ["1rtclock"]
  | Panics _ => False
  end.
Proof. vm_compute. split; reflexivity. Qed.
End PlanesProps.
