(* ===== verification/Page.v ===== *)
(** * A page's components ([surface/kernel/src/{registry,activation}.rs])

    Which component instances a page delivers to, the positions and subscription references
    each holds because of it ([Registrations]), and the scheduler around their activations
    ([Schedules]): readiness, assembly, the loudness ladder, the seeding of the publish
    buffer. Encoding an envelope for a component is the class [EnvelopeJson]; log lines are
    left out. The theorems are in [PageProps] of [Paging]. *)

From S2P Require Import Prelude Envelope Ring Cursor Deferred RingCore Budget Activation Proto Subs AttachStore Publish Router Text Grants Buffer Wiring.

#[local] Open Scope N_scope.
#[local] Open Scope list_scope.

(** [MessageEnvelope::to_envelope_json]. *)
Class EnvelopeJson (Uuid DateTime : Type) := to_envelope_json : Envelope.MessageEnvelope Uuid DateTime → string.

(** ** Registrations ([registry.rs]) *)
Module Registrations.
Import Envelope Proto Subs Core Store Buffer Wiring.

(** [BindingKey]. *)
Record BindingKey := mkKey { bk_instance : string; bk_port : string }.
#[export] Instance BindingKey_eq_dec : EqDecision BindingKey.
Proof. solve_decision. Defined.
#[export] Instance BindingKey_countable : Countable BindingKey :=
  inj_countable' (λ k, (bk_instance k, bk_port k)) (λ p, mkKey p.1 p.2) (λ k, match k with mkKey _ _ => eq_refl end).

(** [Registration]. *)
Record Registration := mkRegistration {
  reg_generation : N;
  reg_subs : list string;
  reg_failed : bool;
}.

(** [Registrations]. *)
Record Registrations := mkRegistrations {
  reg_entries : gmap string Registration;
  next_generation : N;
}.

(** [StoreReconcile]. *)
Record StoreReconcile := mkReconcile {
  retired : list (string * list (CursorOverflow BindingKey));
  lost_schedules : list (string * list string);
}.

Section registrations.
Context {Uuid DateTime : Type} `{EqDecision Uuid}.
Implicit Types (r : Registrations) (a : AppliedBindings).

(** [SurfaceStores]. *)
Definition SurfaceStores : Type := ChannelStores Uuid DateTime BindingKey.
Implicit Types (ss : SurfaceStores).

(** [new_stores]. *)
Definition new_stores (epoch : Uuid) : SurfaceStores :=
  foldl (λ ss plane, (ensure ss (r_address plane) (r_ring_depth plane)).1) (stores_new epoch) RESERVED_LOCAL_CHANNELS.

(** [reconcile_stores]. *)
Definition reconcile_stores a ss : SurfaceStores * StoreReconcile :=
  let '(ss, dropped) := retain ss (λ channel,
    bool_decide (is_Some (store_depth a channel)) || bool_decide (is_Some (reserved_local_channel channel))) in
  let lost := omap (λ '(channel, store),
    match parked_senders store with [] => None | senders => Some (channel, senders) end) dropped in
  let '(ss, retired) := foldl (λ '(ss, retired) channel,
    match store_depth a channel with
    | Some depth =>
        let '(ss, overflow) := ensure ss channel depth in
        (ss, match overflow with [] => retired | _ => retired ++ [(channel, overflow)] end)
    | None => (ss, retired)
    end) (ss, []) (address_order (a_store_depths a)) in
  (ss, mkReconcile retired lost).

(** [Registrations::new]. *)
Definition registrations_new : Registrations := mkRegistrations ∅ 0.

(** [Registrations::is_registered]. *)
Definition is_registered r (instance : string) : bool := bool_decide (is_Some (reg_entries r !! instance)).

(** [Registrations::is_failed]. *)
Definition is_failed r (instance : string) : bool :=
  match reg_entries r !! instance with Some e => reg_failed e | None => false end.

(** [Registrations::generation]. *)
Definition generation_of r (instance : string) : option N := reg_generation <$> reg_entries r !! instance.

(** The positions a binding table gives an instance. *)
Definition positions a (instance : string) : list (string * BindingKey * N) :=
  (λ b, (b_channel b, mkKey instance (b_port b), b_push_depth b)) <$> inputs_of a instance.

(** The channels an instance wants a reference on, one per input binding that crosses the wire. *)
Fixpoint wanted_of (l : list Binding) : panics (list string) :=
  match l with
  | [] => Returns []
  | b :: l =>
      w ← channel_is_transportable (b_channel b);
      rest ← wanted_of l;
      Returns (if (w : bool) then b_channel b :: rest else rest)
  end.

(** The readers of one store whose binding vanished, detached. *)
Definition detach_stale (instance : string) (failed : bool) (pos : list (string * BindingKey * N)) (channel : string)
    (st : ChannelStore Uuid DateTime BindingKey) : ChannelStore Uuid DateTime BindingKey :=
  foldl store_detach st
    (filter (λ held, bk_instance held = instance ∧
       (failed = true ∨ ¬ Exists (λ p : string * BindingKey * N, p.1.1 = channel ∧ p.1.2 = held) pos)) (readers st)).

(** The instance's positions, attached. *)
Definition attach_all (pos : list (string * BindingKey * N)) ss : panics SurfaceStores :=
  foldl (λ acc '(channel, key, depth),
    ss ← acc;
    st ← rust_expect (stores ss !! channel) "surface client: bound channel has no store — the store reconcile runs first";
    Returns (with_stores ss (<[channel := (store_attach st key depth).1]> (stores ss)))) (Returns ss) pos.

(** The multiset diff of [reconcile]: what is left over of the held references, and what
    was not matched. *)
Fixpoint diff_refs (restate wanted held : list string) : list string * list string :=
  match wanted with
  | [] => (held, [])
  | channel :: wanted =>
      match (if bool_decide (channel ∈ restate) then None else fst <$> list_find (λ c, c = channel) held) with
      | Some pos => diff_refs restate wanted (delete pos held)
      | None => let '(spare, missing) := diff_refs restate wanted held in (spare, channel :: missing)
      end
  end.

(** What one pass over the table has gathered. *)
Record Pass := mkPass {
  ps_regs : gmap string Registration;
  ps_stores : SurfaceStores;
  ps_release : list string;
  ps_acquire : list string;
}.

(** One instance of [reconcile]. *)
Definition reconcile_instance a (restate : list string) (instance : string) (p : Pass) : panics Pass :=
  entry ← rust_expect (ps_regs p !! instance) "surface client: the instance came from this table";
  wanted ← wanted_of (inputs_of a instance);
  let pos := positions a instance in
  let swept := with_stores (ps_stores p)
    (map_imap (λ channel st, Some (detach_stale instance (reg_failed entry) pos channel st)) (stores (ps_stores p))) in
  ss ← (if reg_failed entry then Returns swept else attach_all pos swept);
  let '(spare, missing) := diff_refs restate wanted (reg_subs entry) in
  Returns (mkPass (<[instance := mkRegistration (reg_generation entry) wanted (reg_failed entry)]> (ps_regs p)) ss
             (ps_release p ++ spare) (ps_acquire p ++ missing)).

(** The references released, then the ones taken, with the frames each costs. *)
Definition release_all (channels : list string) (subs : Subscriptions) : panics (Subscriptions * list (ClientFrame Uuid)) :=
  foldl (λ acc channel,
    '(subs, frames) ← acc;
    '(subs, fs) ← release subs channel;
    Returns (subs, frames ++ fs)) (Returns (subs, [])) channels.

Definition acquire_all a (channels : list string) (subs : Subscriptions) : panics (Subscriptions * list (ClientFrame Uuid)) :=
  foldl (λ acc channel,
    '(subs, frames) ← acc;
    depths ← rust_expect (wire_depths a channel) "surface client: a bound transportable channel states wire depths";
    '(subs, fs) ← acquire subs channel depths Resume;
    Returns (subs, frames ++ fs)) (Returns (subs, [])) channels.

(** The channels whose fold changed. *)
Definition restated a (subs : Subscriptions) : list string :=
  filter (λ channel, match wire_depths a channel with
                     | Some folded => negb (bool_decide (depths_of subs channel = Some folded))
                     | None => false
                     end = true) (held_channels subs).

(** [Registrations::reconcile]. *)
Definition reconcile r a ss (subs : Subscriptions)
    : panics (Registrations * SurfaceStores * Subscriptions * list (ClientFrame Uuid)) :=
  let restate := restated a subs in
  p ← foldl (λ acc instance, p ← acc; reconcile_instance a restate instance p)
        (Returns (mkPass (reg_entries r) ss [] [])) (address_order (reg_entries r));
  '(subs, released) ← release_all (ps_release p) subs;
  '(subs, acquired) ← acquire_all a (ps_acquire p) subs;
  Returns (mkRegistrations (ps_regs p) (next_generation r), ps_stores p, subs, released ++ acquired).

(** [Registrations::register]. *)
Definition register r (instance : string) (wiring : option AppliedBindings) ss (subs : Subscriptions)
    : panics (Registrations * SurfaceStores * Subscriptions * list (ClientFrame Uuid)) :=
  _ ← rust_assert (bool_decide (reg_entries r !! instance = None)) "surface client: instance registered twice";
  let r := mkRegistrations (<[instance := mkRegistration (next_generation r) [] false]> (reg_entries r))
             (u64_add (next_generation r) 1) in
  match wiring with
  | Some a => reconcile r a ss subs
  | None => Returns (r, ss, subs, [])
  end.

(** [Registrations::deregister]. *)
Definition deregister r (instance : string) ss (subs : Subscriptions)
    : panics (Registrations * SurfaceStores * Subscriptions * list (ClientFrame Uuid)) :=
  reg ← rust_expect (reg_entries r !! instance) "surface client: deregistration of unregistered instance";
  let ss := detach_matching ss (λ reader, bool_decide (bk_instance reader = instance)) in
  '(subs, frames) ← release_all (reg_subs reg) subs;
  Returns (mkRegistrations (delete instance (reg_entries r)) (next_generation r), ss, subs, frames).

(** [Registrations::fail]. *)
Definition fail r (instance : string) ss : panics (Registrations * SurfaceStores * bool) :=
  reg ← rust_expect (reg_entries r !! instance) "surface client: failing unregistered instance";
  if reg_failed reg then Returns (r, ss, false)
  else
    Returns (mkRegistrations (<[instance := mkRegistration (reg_generation reg) (reg_subs reg) true]> (reg_entries r))
               (next_generation r),
             detach_matching ss (λ reader, bool_decide (bk_instance reader = instance)), true).
End registrations.
Arguments SurfaceStores : clear implicits.
End Registrations.

(** ** Schedules ([activation.rs]) *)
Module Schedules.
Import Envelope Proto Subs Core Store Publish Router Budget Activation Buffer Wiring Registrations.

(** The order of [NoiseLevel]. *)
Definition noise_rank (n : NoiseLevel) : N :=
  match n with Silent => 0 | Metered => 1 | Alarm => 2 | Fatal => 3 end.
Definition noise_ge (a b : NoiseLevel) : bool := noise_rank b <=? noise_rank a.

(** [InFlight]. *)
Record InFlight := mkInFlight { fl_sync : option string }.

(** [InstanceSchedule]. *)
Record InstanceSchedule := mkSchedule {
  is_in_flight : option InFlight;
  is_mount : MountDebt;
  is_entry_errs : N;
  is_carry_mt : gmap string N;
  is_metered_drops : gmap string N;
  is_deferred_dropped : N;
  is_deferred_races : N;
}.

(** [Schedules]. *)
Record Schedules := mkSchedules {
  sc_instances : gmap string InstanceSchedule;
  dispatch_cursor : option string;
}.

(** [DropAnnouncement]. *)
Record DropAnnouncement := mkAnnouncement {
  an_instance : string;
  an_port : string;
  an_channel : string;
  an_dropped : N;
}.

(** [DropVerdicts]. *)
Record DropVerdicts := mkVerdicts { announce : list DropAnnouncement; fatal : list DropAnnouncement }.

(** [DropCharge]. *)
Record DropCharge := mkCharge {
  ch_port : string;
  ch_channel : string;
  ch_noise : NoiseLevel;
  ch_counted : N;
  ch_announced : N;
}.

(** [DropVerdicts::is_quiet]. *)
Definition is_quiet (v : DropVerdicts) : bool :=
  match announce v, fatal v with [], [] => true | _, _ => false end.

(** [DropVerdicts::kills]. *)
Definition kills (v : DropVerdicts) (instance : string) : bool :=
  existsb (λ held, bool_decide (an_instance held = instance)) (fatal v).

(** [DropVerdicts::merge]. *)
Definition merge (v other : DropVerdicts) : DropVerdicts :=
  foldl (λ v kill, if kills v (an_instance kill) then v else mkVerdicts (announce v) (fatal v ++ [kill]))
    (mkVerdicts (announce v ++ announce other) (fatal v)) (fatal other).

Definition no_verdicts : DropVerdicts := mkVerdicts [] [].

(** Field updates. *)
Definition with_in_flight (s : InstanceSchedule) (f : option InFlight) : InstanceSchedule :=
  mkSchedule f (is_mount s) (is_entry_errs s) (is_carry_mt s) (is_metered_drops s) (is_deferred_dropped s) (is_deferred_races s).
Definition with_mount (s : InstanceSchedule) (m : MountDebt) : InstanceSchedule :=
  mkSchedule (is_in_flight s) m (is_entry_errs s) (is_carry_mt s) (is_metered_drops s) (is_deferred_dropped s) (is_deferred_races s).
Definition with_carry (s : InstanceSchedule) (c : gmap string N) : InstanceSchedule :=
  mkSchedule (is_in_flight s) (is_mount s) (is_entry_errs s) c (is_metered_drops s) (is_deferred_dropped s) (is_deferred_races s).
Definition with_metered (s : InstanceSchedule) (m : gmap string N) : InstanceSchedule :=
  mkSchedule (is_in_flight s) (is_mount s) (is_entry_errs s) (is_carry_mt s) m (is_deferred_dropped s) (is_deferred_races s).
Definition with_instances (sc : Schedules) (m : gmap string InstanceSchedule) : Schedules := mkSchedules m (dispatch_cursor sc).

(** [Schedules::new]. *)
Definition schedules_new : Schedules := mkSchedules ∅ None.

(** [Schedules::track]. *)
Definition track (sc : Schedules) (instance : string) (wired : bool) : panics Schedules :=
  _ ← rust_assert (bool_decide (sc_instances sc !! instance = None)) "surface client: already scheduled";
  Returns (with_instances sc (<[instance := mkSchedule None (if wired then Owed else Unwired) 0 ∅ ∅ 0 0]> (sc_instances sc))).

(** [Schedules::wire_mounts]. *)
Definition wire_mounts (sc : Schedules) : Schedules :=
  with_instances sc ((λ s, if decide (is_mount s = Unwired) then with_mount s Owed else s) <$> sc_instances sc).

(** [Schedules::mount_debt]. *)
Definition mount_debt (sc : Schedules) (instance : string) : MountDebt :=
  match sc_instances sc !! instance with Some s => is_mount s | None => Settled end.

(** [Schedules::owes_mount_activation]. *)
Definition owes_mount_activation (sc : Schedules) (instance : string) : bool := bool_decide (mount_debt sc instance = Owed).

(** [Schedules::forget]. *)
Definition forget (sc : Schedules) (instance : string) : panics Schedules :=
  _ ← rust_assert (bool_decide (is_Some (sc_instances sc !! instance))) "surface client: forgetting unscheduled instance";
  Returns (with_instances sc (delete instance (sc_instances sc))).

(** [Schedules::in_flight], [Schedules::in_flight_sync], [Schedules::any_in_flight]. *)
Definition in_flight (sc : Schedules) (instance : string) : bool :=
  match sc_instances sc !! instance with Some s => bool_decide (is_Some (is_in_flight s)) | None => false end.
Definition in_flight_sync (sc : Schedules) (instance : string) : option string :=
  s ← sc_instances sc !! instance; f ← is_in_flight s; fl_sync f.
Definition any_in_flight (sc : Schedules) : bool :=
  existsb (λ p : string * InstanceSchedule, bool_decide (is_Some (is_in_flight p.2))) (map_to_list (sc_instances sc)).

(** [Schedules::count_deferred_drop], [Schedules::count_deferred_race]. *)
Definition count_deferred_drop (sc : Schedules) (instance : string) : Schedules :=
  with_instances sc (alter (λ s, mkSchedule (is_in_flight s) (is_mount s) (is_entry_errs s) (is_carry_mt s) (is_metered_drops s)
    (u64_add (is_deferred_dropped s) 1) (is_deferred_races s)) instance (sc_instances sc)).
Definition count_deferred_race (sc : Schedules) (instance : string) : Schedules :=
  with_instances sc (alter (λ s, mkSchedule (is_in_flight s) (is_mount s) (is_entry_errs s) (is_carry_mt s) (is_metered_drops s)
    (is_deferred_dropped s) (u64_add (is_deferred_races s) 1)) instance (sc_instances sc)).

(** [Schedules::schedule_mut], through which the completions write. *)
Definition on_schedule (sc : Schedules) (instance : string) (f : InstanceSchedule → InstanceSchedule) : panics Schedules :=
  s ← rust_expect (sc_instances sc !! instance) "surface client: unscheduled instance";
  Returns (with_instances sc (<[instance := f s]> (sc_instances sc))).

(** [Schedules::finish_ok], [Schedules::finish_err], [Schedules::finish_terminal]. *)
Definition finish_ok (sc : Schedules) (instance : string) (carry : gmap string N) : panics Schedules :=
  on_schedule sc instance (λ s, with_carry (with_in_flight s None) carry).
Definition finish_err (sc : Schedules) (instance : string) (carry : gmap string N) : panics Schedules :=
  on_schedule sc instance (λ s, mkSchedule None (is_mount s) (u64_add (is_entry_errs s) 1) carry (is_metered_drops s)
    (is_deferred_dropped s) (is_deferred_races s)).
Definition finish_terminal (sc : Schedules) (instance : string) : panics Schedules :=
  on_schedule sc instance (λ s, with_in_flight s None).

(** One charge of [enact_charges]. *)
Definition enact_charge (instance : string) (acc : Schedules * DropVerdicts) (c : DropCharge) : Schedules * DropVerdicts :=
  let '(sc, v) := acc in
  let sc := if noise_ge (ch_noise c) Metered && (0 <? ch_counted c)
    then with_instances sc (alter (λ s, with_metered s
           (<[ch_port c := u64_add (default 0 (is_metered_drops s !! ch_port c)) (ch_counted c)]> (is_metered_drops s)))
           instance (sc_instances sc))
    else sc in
  let announcement := mkAnnouncement instance (ch_port c) (ch_channel c) (ch_announced c) in
  let v := if noise_ge (ch_noise c) Fatal && (0 <? ch_counted c) && negb (kills v instance)
    then mkVerdicts (announce v) (fatal v ++ [announcement]) else v in
  let v := if noise_ge (ch_noise c) Alarm && (0 <? ch_announced c)
    then mkVerdicts (announce v ++ [announcement]) (fatal v) else v in
  (sc, v).

(** [Schedules::enact_charges]. *)
Definition enact_charges (sc : Schedules) (instance : string) (charges : list DropCharge) : Schedules * DropVerdicts :=
  foldl (enact_charge instance) (sc, no_verdicts) charges.

(** [binding_noise]. *)
Definition binding_noise (a : AppliedBindings) (instance port : string) : option NoiseLevel :=
  b_noise ∘ snd <$> list_find (λ b, b_port b = port) (inputs_of a instance).

(** The order of [BindingKey]: by instance, then by port. *)
Definition key_le (x y : CursorOverflow BindingKey) : Prop :=
  match String.compare (bk_instance (subscriber x)) (bk_instance (subscriber y)) with
  | Lt => True
  | Eq => str_le (bk_port (subscriber x)) (bk_port (subscriber y))
  | Gt => False
  end.
#[export] Instance key_le_dec : RelDecision key_le.
Proof. intros x y. unfold key_le. destruct (String.compare _ _); apply _. Defined.

(** [Schedules::charge_overflow]. *)
Definition charge_overflow (sc : Schedules) (a : AppliedBindings) (channel : string)
    (overflow : list (CursorOverflow BindingKey)) : Schedules * DropVerdicts :=
  foldl (λ '(sc, v) o,
    let key := subscriber o in
    match binding_noise a (bk_instance key) (bk_port key) with
    | None => (sc, v)
    | Some noise =>
        let '(sc, v') := enact_charges sc (bk_instance key)
          [mkCharge (bk_port key) channel noise (evicted o) (if noise_ge noise Fatal then evicted o else 0)] in
        (sc, merge v v')
    end) (sc, no_verdicts) (merge_sort key_le overflow).

Section assembly.
Context {Uuid DateTime P : Type} `{EqDecision Uuid, Chrono DateTime, EnvelopeJson Uuid DateTime}.
Context `{!PlanePolicy P Uuid DateTime}.
Implicit Types (sc : Schedules) (r : Registrations).

(** [Schedules::ready]. *)
Definition runnable sc r : list string :=
  filter (λ instance, in_flight sc instance = false ∧ is_registered r instance = true ∧ is_failed r instance = false)
    (address_order (sc_instances sc)).

Definition is_ready_now sc (ss : SurfaceStores Uuid DateTime) (instance : string) : bool :=
  bool_decide (is_Some (readiness (mount_debt sc instance)
    (any_deliverable ss (λ key, bool_decide (bk_instance key = instance))))).

Definition ready sc r (ss : SurfaceStores Uuid DateTime) : option string :=
  let all := runnable sc r in
  let start := match dispatch_cursor sc with
               | Some last => length (filter (λ instance, str_le instance last) all)
               | None => 0%nat
               end in
  snd <$> list_find (λ instance, is_ready_now sc ss instance = true) (drop start all ++ take start all).

(** [ActivationCtx]. *)
Record ActivationCtx := mkCtx {
  cx_bindings : AppliedBindings;
  cx_stores : SurfaceStores Uuid DateTime;
  cx_router : LocalRouter P;
  cx_views : @DeferredViews Uuid;
  cx_max_body_bytes : N;
  cx_now_ms : N;
}.

(** [ReadyActivation]. *)
Record ReadyActivation := mkReady {
  ra_instance : string;
  ra_generation : N;
  ra_activation : Activation string;
  ra_buffer : PublishBuffer Uuid;
  ra_drops : DropVerdicts;
}.

(** One input of [window_ports]. *)
Definition window_port (instance : string) (ss : SurfaceStores Uuid DateTime) (b : Binding)
    : panics (SurfaceStores Uuid DateTime * PortWindow string * list DropCharge) :=
  st ← rust_expect (stores ss !! b_channel b) "surface client: the port is bound to a channel which has no store";
  '(st, served) ← serve st (mkKey instance (b_port b)) (mkDepths (b_push_depth b) (b_retain_depth b));
  served ← rust_expect served "surface client: a push-enabled port holds no position";
  let charges := if (0 <? served_counted served) || (0 <? served_dropped served)
    then [mkCharge (b_port b) (b_channel b) (b_noise b) (served_counted served) (served_dropped served)] else [] in
  _ ← rust_assert (served_new_from served <=? 4294967295) "surface client: a window's depth is a config-bounded page-memory value";
  Returns (with_stores ss (<[b_channel b := st]> (stores ss)),
           mkPortWindow (b_port b) (to_envelope_json <$> served_envelopes served) (served_new_from served) (served_dropped served),
           charges).

(** [window_ports]. *)
Definition window_ports (instance : string) (a : AppliedBindings) (ss : SurfaceStores Uuid DateTime)
    : panics (SurfaceStores Uuid DateTime * list (PortWindow string) * list DropCharge) :=
  foldl (λ acc b,
    '(ss, ports, charges) ← acc;
    '(ss, w, cs) ← window_port instance ss b;
    Returns (ss, ports ++ [w], charges ++ cs)) (Returns (ss, [], [])) (inputs_of a instance).

(** One output of [deferred_windows]. *)
Definition deferred_window (instance : string) (cx : ActivationCtx) (o : OutputBinding)
    : panics (DeferredWindow * list Uuid) :=
  w ← channel_is_transportable (o_channel o);
  parked ← (if (w : bool) then Returns (view_get (cx_views cx) (o_channel o) (Some instance))
            else parked_for (cx_router cx) (cx_stores cx) (o_channel o) (Sub instance));
  _ ← rust_assert (len parked <=? 4294967296) "surface client: a deferred set is bounded by its channel's depth";
  Returns (mkDeferredWindow (o_port o)
             (imap (λ i e, mkDeferredEntry (N.of_nat i) (view_body e) (view_deliver_after e)) parked),
           view_message_id <$> parked).

(** [deferred_windows]. *)
Definition deferred_windows (instance : string) (cx : ActivationCtx)
    : panics (list DeferredWindow * gmap string (list Uuid)) :=
  foldl (λ acc o,
    '(windows, ids) ← acc;
    '(w, port_ids) ← deferred_window instance cx o;
    Returns (windows ++ [w], <[o_port o := port_ids]> ids)) (Returns ([], ∅)) (outputs_of (cx_bindings cx) instance).

(** [Schedules::seed_buffer]. *)
Definition seed_buffer sc (instance : string) (ports : list (PortWindow string)) (ids : gmap string (list Uuid))
    (cx : ActivationCtx) : panics (PublishBuffer Uuid) :=
  let grant := grant_input_mt ((λ w, (MILLITOKENS_PER_PUBLISH, new_len w)) <$> ports) in
  s ← rust_expect (sc_instances sc !! instance) "surface client: seeding a buffer for an unscheduled instance";
  let carry := is_carry_mt s in
  let outs := outputs_of (cx_bindings cx) instance in
  let outputs := foldl (λ m o, <[o_port o := mkOutput (o_channel o) (o_urgency o)]> m) ∅ outs in
  let sink_mt := foldl (λ m o, <[o_port o :=
    seed_sink_budget (default 0 (carry !! o_port o)) (mkSinkBudget (o_fill_mt o) (o_capacity_mt o)) grant]> m) ∅ outs in
  declared ← declared_ports (cx_bindings cx) instance;
  Returns (buffer_new outputs declared sink_mt (cx_max_body_bytes cx) ids).

(** [Schedules::assemble_windows]. *)
Definition assemble_windows sc (instance : string) (generation : N)
    (sync : option (string * MessageEnvelope Uuid DateTime)) (cx : ActivationCtx)
    : panics (Schedules * SurfaceStores Uuid DateTime * ReadyActivation) :=
  s ← rust_expect (sc_instances sc !! instance) "surface client: assembling for unscheduled instance";
  _ ← rust_assert (bool_decide (is_in_flight s = None)) "surface client: already has an activation in flight";
  let s := with_mount (with_in_flight s (Some (mkInFlight (fst <$> sync)))) Settled in
  let sc := mkSchedules (<[instance := s]> (sc_instances sc)) (Some instance) in
  '(ss, ports, charges) ← window_ports instance (cx_bindings cx) (cx_stores cx);
  let cx := mkCtx (cx_bindings cx) ss (cx_router cx) (cx_views cx) (cx_max_body_bytes cx) (cx_now_ms cx) in
  let '(sc, drops) := enact_charges sc instance charges in
  '(deferred, ids) ← deferred_windows instance cx;
  let ports := match sync with
    | Some (port, request) => ports ++ [mkPortWindow port [to_envelope_json request] 0 0]
    | None => ports
    end in
  buffer ← seed_buffer sc instance ports ids cx;
  Returns (sc, ss, mkReady instance generation (mkActivation ports deferred (Some (cx_now_ms cx)) (fst <$> sync)) buffer drops).

(** [Schedules::assemble], [Schedules::assemble_sync]. *)
Definition assemble sc (instance : string) (generation : N) (cx : ActivationCtx) :=
  assemble_windows sc instance generation None cx.
Definition assemble_sync sc (instance : string) (generation : N) (sync_port : string)
    (request : MessageEnvelope Uuid DateTime) (cx : ActivationCtx) :=
  assemble_windows sc instance generation (Some (sync_port, request)) cx.
End assembly.
End Schedules.
