(* ===== verification/Paging.v ===== *)
(** * What a page's components may rely on

    Theorems about [Page]: [Rotation] on the order in which ready instances run and what a
    sync call does to it,
    [Ladder] on what a loss costs, [Agreement] on the registration table, the positions and
    the subscription references agreeing with the wiring. *)

From S2P Require Import Prelude Envelope Ring Cursor Deferred RingCore Budget Activation Proto Subs AttachStore Publish Router Text Grants Buffer Wiring Page.

#[local] Open Scope N_scope.
#[local] Open Scope list_scope.

(** ** The rotation *)
Module Rotation.
Import Envelope Proto Subs Core Store Publish Router Activation Buffer Wiring Registrations Schedules.

(** Before [last] was handed out, or after: an instance comes up again only behind every
    one that follows it. *)
Definition passed (last : option string) (x : string) : bool :=
  match last with Some l => bool_decide (str_le x l) | None => false end.

(** The order instances come up in when the rotation resumes after [last]. *)
Definition rot_le (last : option string) (x y : string) : Prop :=
  match passed last x, passed last y with
  | false, true => True
  | true, false => False
  | _, _ => str_le x y
  end.

Lemma str_le_refl x : str_le x x.
Proof. destruct (str_le_total x x); done. Qed.

Lemma not_str_le x y : ¬ str_le x y → str_le y x ∧ y ≠ x.
Proof.
  intros Hn. destruct (str_le_total x y) as [?|?]; [done|]. split; [done|]. intros ->. by apply Hn, str_le_refl.
Qed.

Lemma sorted_partition (l : list string) (last : string) :
  StronglySorted str_le l →
  take (length (filter (λ x, str_le x last) l)) l = filter (λ x, str_le x last) l ∧
  drop (length (filter (λ x, str_le x last) l)) l = filter (λ x, ¬ str_le x last) l.
Proof.
  induction 1 as [|x l Hs IH Hx]; [done|]. rewrite !filter_cons. destruct (decide (str_le x last)) as [Hle|Hgt].
  - rewrite decide_False by tauto. simpl. destruct IH as [-> ->]. done.
  - rewrite (decide_True (P := ¬ str_le x last)) by done.
    assert (Hall : Forall (λ y, ¬ str_le y last) l).
    { eapply Forall_impl; [exact Hx|]. intros y Hxy Hy. apply Hgt. by etrans. }
    assert (filter (λ y, str_le y last) l = []) as Hnil.
    { clear - Hall. induction Hall as [|y l Hy _ IHl]; [done|]. by rewrite filter_cons, decide_False. }
    rewrite Hnil. simpl. split; [done|]. f_equal. symmetry. by apply filter_all.
Qed.

Lemma StronglySorted_filter (R : relation string) (Q : string → Prop) `{!∀ x, Decision (Q x)} (l : list string) :
  StronglySorted R l → StronglySorted R (filter Q l).
Proof.
  induction 1 as [|x l Hs IH Hx]; [constructor|]. rewrite filter_cons. destruct (decide (Q x)); [|done].
  constructor; [done|]. apply Forall_forall. intros y [_ Hy]%list_elem_of_filter. rewrite Forall_forall in Hx. by apply Hx.
Qed.

Lemma StronglySorted_weaken (R R' : relation string) (l : list string) :
  StronglySorted R l → (∀ x y, x ∈ l → y ∈ l → R x y → R' x y) → StronglySorted R' l.
Proof.
  induction 1 as [|x l Hs IH Hx]; intros Himp; [constructor|]. constructor.
  - apply IH. intros y z Hy Hz. apply Himp; by right.
  - apply Forall_forall. intros y Hy. rewrite Forall_forall in Hx. apply Himp; [by left|by right|by apply Hx].
Qed.

Lemma address_order_sorted {V} (m : gmap string V) : StronglySorted str_le (address_order m).
Proof. apply StronglySorted_merge_sort; apply _. Qed.

Section pick.
Context {Uuid DateTime : Type} `{EqDecision Uuid}.
Implicit Types (sc : Schedules) (r : Registrations) (ss : SurfaceStores Uuid DateTime).

(** An instance the gate would run now. *)
Definition could_run sc r ss (x : string) : Prop :=
  x ∈ runnable sc r ∧ is_ready_now sc ss x = true.

Definition rotated sc r : list string :=
  let start := match dispatch_cursor sc with
               | Some last => length (filter (λ instance, str_le instance last) (runnable sc r))
               | None => 0%nat
               end in
  drop start (runnable sc r) ++ take start (runnable sc r).

Lemma runnable_sorted sc r : StronglySorted str_le (runnable sc r).
Proof. apply StronglySorted_filter, address_order_sorted. Qed.

Lemma elem_of_rotated sc r x : x ∈ rotated sc r ↔ x ∈ runnable sc r.
Proof.
  unfold rotated. set (n := match dispatch_cursor sc with Some _ => _ | None => _ end).
  rewrite <- (take_drop n (runnable sc r)) at 3. rewrite !elem_of_app. tauto.
Qed.

Lemma rotated_sorted sc r : StronglySorted (rot_le (dispatch_cursor sc)) (rotated sc r).
Proof.
  unfold rotated. pose proof (runnable_sorted sc r) as Hs. destruct (dispatch_cursor sc) as [last|].
  - destruct (sorted_partition _ last Hs) as [-> ->]. apply StronglySorted_app_2.
    + intros x y [Hx _]%list_elem_of_filter [Hy _]%list_elem_of_filter. unfold rot_le, passed.
      by rewrite bool_decide_eq_false_2, bool_decide_eq_true_2 by done.
    + eapply StronglySorted_weaken; [by apply StronglySorted_filter|].
      intros x y [Hx _]%list_elem_of_filter [Hy _]%list_elem_of_filter Hxy. unfold rot_le, passed.
      by rewrite !bool_decide_eq_false_2 by done.
    + eapply StronglySorted_weaken; [by apply StronglySorted_filter|].
      intros x y [Hx _]%list_elem_of_filter [Hy _]%list_elem_of_filter Hxy. unfold rot_le, passed.
      by rewrite !bool_decide_eq_true_2 by done.
  - rewrite drop_0, take_0, app_nil_r. eapply StronglySorted_weaken; [done|]. done.
Qed.

(** The pick is the first runnable, ready instance in rotation order. *)
Lemma ready_spec sc r ss :
  match ready sc r ss with
  | Some i => could_run sc r ss i ∧ ∀ x, could_run sc r ss x → rot_le (dispatch_cursor sc) i x
  | None => ∀ x, ¬ could_run sc r ss x
  end.
Proof.
  change (ready sc r ss) with (snd <$> list_find (λ i, is_ready_now sc ss i = true) (rotated sc r)).
  destruct (list_find _ _) as [[k i]|] eqn:Hf; simpl.
  - apply list_find_Some in Hf as (Hk&Hi&Hfirst). split.
    + split; [|done]. apply elem_of_rotated. by eapply list_elem_of_lookup_2.
    + intros x [Hx Hrx]. apply elem_of_rotated, list_elem_of_lookup in Hx as [j Hj].
      destruct (decide (j < k)%nat) as [Hlt|Hge]; [by destruct (Hfirst j x Hj Hlt)|].
      destruct (decide (j = k)) as [->|Hne].
      { assert (x = i) as -> by congruence. unfold rot_le. destruct (passed _ i); apply str_le_refl. }
      pose proof (rotated_sorted sc r) as Hs. rewrite <- (take_drop_middle _ _ _ Hk) in Hs.
      apply StronglySorted_app_1_r in Hs. inversion Hs as [|? ? _ Hall]; subst. rewrite Forall_forall in Hall.
      apply Hall. apply (list_elem_of_lookup_2 _ (j - S k)). rewrite lookup_drop. rewrite <- Hj. f_equal. lia.
  - intros x [Hx Hrx]. apply list_find_None in Hf. rewrite Forall_forall in Hf.
    by apply (Hf x); [apply elem_of_rotated|].
Qed.
End pick.

#[local] Instance rot_le_dec last x y : Decision (rot_le last x y).
Proof. unfold rot_le. destruct (passed last x), (passed last y); apply _. Defined.

(** How many of [U] come up before [x] when the rotation resumes after [last]. *)
Definition ahead (U : list string) (last : option string) (x : string) : nat :=
  length (filter (λ u, rot_le last u x ∧ u ≠ x) U).

Lemma length_filter_mono {A} (Q Q' : A → Prop) `{!∀ x, Decision (Q x), !∀ x, Decision (Q' x)} (l : list A) :
  (∀ x, Q x → Q' x) → (length (filter Q l) ≤ length (filter Q' l))%nat.
Proof.
  intros Himp. induction l as [|x l IH]; [done|]. rewrite !filter_cons.
  destruct (decide (Q x)) as [Hq|]; [rewrite decide_True by auto; simpl; lia|]. destruct (decide (Q' x)); simpl; lia.
Qed.

Lemma length_filter_strict {A} (Q Q' : A → Prop) `{!∀ x, Decision (Q x), !∀ x, Decision (Q' x)} (l : list A) y :
  (∀ x, Q x → Q' x) → y ∈ l → Q' y → ¬ Q y → (length (filter Q l) < length (filter Q' l))%nat.
Proof.
  intros Himp Hy Hq' Hq. induction l as [|x l IH]; [by apply elem_of_nil in Hy|]. rewrite !filter_cons.
  apply elem_of_cons in Hy as [<-|Hy].
  - rewrite decide_False, decide_True by done. simpl. apply Nat.lt_succ_r. by apply length_filter_mono.
  - specialize (IH Hy). destruct (decide (Q x)) as [Hx|]; [rewrite decide_True by auto; simpl; lia|].
    destruct (decide (Q' x)); simpl; lia.
Qed.

(** Finitely many addresses are ordered as numbers are. *)
Lemma order_embeds (L : list string) :
  ∃ f : string → nat, ∀ a b, a ∈ L → b ∈ L → (str_le a b ↔ (f a ≤ f b)%nat) ∧ (a = b ↔ f a = f b).
Proof.
  exists (λ a, length (filter (λ z, ¬ str_le a z) L)).
  assert (Hmono : ∀ a b, str_le a b → (length (filter (λ z, ¬ str_le a z) L) ≤ length (filter (λ z, ¬ str_le b z) L))%nat).
  { intros a b Hab. apply length_filter_mono. intros z Hz Hbz. apply Hz. by etrans. }
  assert (Hstrict : ∀ a b, b ∈ L → ¬ str_le a b →
    (length (filter (λ z, ¬ str_le b z) L) < length (filter (λ z, ¬ str_le a z) L))%nat).
  { intros a b Hb Hab. apply (length_filter_strict _ _ _ b); [|done|done|].
    - intros z Hz Haz. apply Hz. apply not_str_le in Hab as [? _]. by etrans.
    - intros Hn. apply Hn, str_le_refl. }
  intros a b Ha Hb. assert (Hiff : str_le a b ↔ (length (filter (λ z, ¬ str_le a z) L) ≤ length (filter (λ z, ¬ str_le b z) L))%nat).
  { split; [apply Hmono|]. intros Hle. destruct (decide (str_le a b)) as [?|Hn]; [done|]. specialize (Hstrict a b Hb Hn). lia. }
  split; [done|]. split; [by intros ->|]. intros Heq. apply (anti_symm str_le); [apply Hiff; lia|].
  destruct (decide (str_le b a)) as [?|Hn]; [done|]. specialize (Hstrict b a Ha Hn). lia.
Qed.

Lemma rot_le_lia last i x u (f : string → nat) L :
  (∀ a b, a ∈ L → b ∈ L → (str_le a b ↔ (f a ≤ f b)%nat) ∧ (a = b ↔ f a = f b)) →
  L = [i; x; u] ++ option_list last →
  rot_le last i x → i ≠ x → rot_le (Some i) u x → u ≠ x → rot_le last u x ∧ u ≠ i.
Proof.
  intros Hf -> Hle Hne Hu Hux.
  assert (Hi : i ∈ [i; x; u] ++ option_list last) by (by left).
  assert (Hx : x ∈ [i; x; u] ++ option_list last) by (right; by left).
  assert (Hu' : u ∈ [i; x; u] ++ option_list last) by (do 2 right; by left).
  destruct (Hf i x Hi Hx) as [Eix Nix]. destruct (Hf u x Hu' Hx) as [Eux Nux]. destruct (Hf u i Hu' Hi) as [Eui Nui].
  destruct (Hf x i Hx Hi) as [Exi _].
  unfold rot_le, passed in *. destruct last as [l|].
  - assert (Hl : l ∈ [i; x; u] ++ option_list (Some l)) by (do 3 right; by left).
    destruct (Hf i l Hi Hl) as [Eil _]. destruct (Hf x l Hx Hl) as [Exl _]. destruct (Hf u l Hu' Hl) as [Eul _].
    repeat case_bool_decide; rewrite ?Eix, ?Eux, ?Eui, ?Exi, ?Eil, ?Exl, ?Eul, ?Nix, ?Nux, ?Nui in *; lia.
  - repeat case_bool_decide; rewrite ?Eix, ?Eux, ?Eui, ?Exi, ?Nix, ?Nux, ?Nui in *; lia.
Qed.

Lemma ahead_step U last i x :
  i ∈ U → i ≠ x → rot_le last i x → (ahead U (Some i) x < ahead U last x)%nat.
Proof.
  intros Hi Hne Hle. unfold ahead. apply (length_filter_strict _ _ _ i); [|done|done|].
  - intros u [Hu Hux]. destruct (order_embeds ([i; x; u] ++ option_list last)) as [f Hf].
    split; [|done]. by eapply (rot_le_lia last i x u f).
  - intros [Hii _]. unfold rot_le, passed in Hii. rewrite (bool_decide_eq_true_2 (str_le i i)) in Hii by apply str_le_refl.
    case_bool_decide as Hxi; [|done]. apply Hne. by apply (anti_symm str_le).
Qed.

Lemma ahead_bound U last x : x ∈ U → (ahead U last x < length U)%nat.
Proof.
  intros Hx. unfold ahead. rewrite <- (filter_all (λ _, True) U) at 2 by (by apply Forall_true).
  apply (length_filter_strict _ _ _ x); [done|done|done|]. by intros [_ ?].
Qed.

Lemma enact_charges_cursor sc instance charges :
  dispatch_cursor (enact_charges sc instance charges).1 = dispatch_cursor sc.
Proof.
  unfold enact_charges. generalize no_verdicts as v. revert sc. induction charges as [|c cs IH]; intros sc v; [done|].
  simpl. rewrite IH. by destruct (_ && _).
Qed.

Section turns.
Context {Uuid DateTime P : Type} `{EqDecision Uuid, Chrono DateTime, EnvelopeJson Uuid DateTime}.
Context `{!PlanePolicy P Uuid DateTime}.
Implicit Types (sc : Schedules) (r : Registrations) (ss : SurfaceStores Uuid DateTime).

Lemma assemble_advances sc i gen sync (cx : @ActivationCtx Uuid DateTime P) sc' ss' ra :
  assemble_windows sc i gen sync cx = Returns (sc', ss', ra) → dispatch_cursor sc' = Some i ∧ ra_instance ra = i.
Proof.
  unfold assemble_windows. destruct (sc_instances sc !! i) as [s|]; [|done]. simpl. case_bool_decide; [|done]. simpl.
  destruct (window_ports _ _ _) as [[[ss1 ports] charges]|]; [|done]. simpl.
  destruct (enact_charges _ i charges) as [sc1 drops] eqn:He. pose proof (enact_charges_cursor (mkSchedules
    (<[i := with_mount (with_in_flight s (Some (mkInFlight (fst <$> sync)))) Settled]> (sc_instances sc)) (Some i)) i charges) as Hc.
  rewrite He in Hc. simpl in Hc. destruct (deferred_windows _ _) as [[deferred ids]|]; [|done]. simpl.
  destruct (seed_buffer _ _ _ _ _) as [buffer|]; [|done]. simpl. by intros [= <- <- <-].
Qed.

(** One assembly of a page: the states it was asked in, the live request when it answers a
    sync call, and what it handed out. *)
Record turn := mkTurn {
  tn_sc : Schedules;
  tn_regs : Registrations;
  tn_stores : SurfaceStores Uuid DateTime;
  tn_call : option (string * MessageEnvelope Uuid DateTime);
  tn_sc' : Schedules;
  tn_ready : @ReadyActivation Uuid;
}.

Definition is_call (t : turn) : bool := bool_decide (is_Some (tn_call t)).
Definition calls_in (turns : list turn) : nat := length (filter (λ t, is_call t = true) turns).
Definition dispatches_in (turns : list turn) : nat := length (filter (λ t, is_call t = false) turns).

(** What a turn assembles: the instance the rotation picks, at a time [x] could run, or
    whichever instance a sync call names. *)
Definition taken (x : string) (t : turn) : Prop :=
  match tn_call t with
  | None =>
      could_run (tn_sc t) (tn_regs t) (tn_stores t) x ∧
      ∃ i gen cx ss', ready (tn_sc t) (tn_regs t) (tn_stores t) = Some i ∧
        assemble (P := P) (tn_sc t) i gen cx = Returns (tn_sc' t, ss', tn_ready t)
  | Some (port, request) =>
      ∃ i gen cx ss', assemble_sync (P := P) (tn_sc t) i gen port request cx = Returns (tn_sc' t, ss', tn_ready t)
  end.

(** A page running: between two turns the tables move as they will, except for the rotation,
    which only an assembly moves, and [x] could run whenever the rotation is asked. *)
Fixpoint dispatching (U : list string) (x : string) (last : option string) (turns : list turn) : Prop :=
  match turns with
  | [] => True
  | t :: turns =>
      dispatch_cursor (tn_sc t) = last ∧
      (∀ i, is_Some (sc_instances (tn_sc t) !! i) → i ∈ U) ∧
      taken x t ∧ dispatching U x (dispatch_cursor (tn_sc' t)) turns
  end.

Lemma could_run_tracked sc r ss i : could_run sc r ss i → is_Some (sc_instances sc !! i).
Proof. intros [[_ Hi]%list_elem_of_filter _]. by apply elem_of_address_order. Qed.

(** Until [x] is handed out, a dispatch brings it one nearer and a call sets it back at most
    a whole round. *)
Lemma dispatching_bounded U x last turns :
  x ∈ U → dispatching U x last turns → x ∉ ra_instance ∘ tn_ready <$> turns →
  (dispatches_in turns ≤ ahead U last x + calls_in turns * pred (length U))%nat.
Proof.
  intros HxU. revert last. induction turns as [|t turns IH]; intros last; [simpl; unfold dispatches_in; simpl; lia|].
  cbn [dispatching]. rewrite fmap_cons. intros (Hlast&HU&Ht&Hrest) [Hne Hnot]%not_elem_of_cons.
  specialize (IH _ Hrest Hnot). unfold taken in Ht. unfold compose in Hne.
  unfold dispatches_in, calls_in in *. rewrite !filter_cons. destruct (tn_call t) as [[port request]|] eqn:Hcall.
  - destruct Ht as (i&gen&cx&ss'&Ha). apply assemble_advances in Ha as [Hc Hi]. rewrite Hc in IH.
    assert (is_call t = true) as -> by (unfold is_call; by rewrite Hcall).
    pose proof (ahead_bound U (Some i) x HxU). cbn [decide]. repeat case_decide; try done. cbn [length]. lia.
  - destruct Ht as (Hx&i&gen&cx&ss'&Hr&Ha). apply assemble_advances in Ha as [Hc Hi]. rewrite Hi in Hne. rewrite Hc in IH.
    assert (is_call t = false) as -> by (unfold is_call; by rewrite Hcall).
    pose proof (ready_spec (tn_sc t) (tn_regs t) (tn_stores t)) as Hspec. rewrite Hr, Hlast in Hspec.
    destruct Hspec as [Hir Hfirst]. repeat case_decide; try done. cbn [length].
    assert (ahead U (Some i) x < ahead U last x)%nat; [|lia].
    apply (ahead_step U last i x); [apply HU; by eapply could_run_tracked|done|by apply Hfirst].
Qed.
End turns.
End Rotation.

(** ** The loudness ladder *)
Module Ladder.
Import Envelope Core Registrations Wiring Schedules.

(** The lifetime count against one binding ([Schedules::metered_drops]). *)
Definition metered_drops (sc : Schedules) (instance port : string) : N :=
  default 0 (s ← sc_instances sc !! instance; is_metered_drops s !! port).

(** What a set of charges adds to it. *)
Definition charged (port : string) (cs : list DropCharge) : N :=
  Proto.sum (ch_counted <$> filter (λ c, ch_port c = port ∧ noise_ge (ch_noise c) Metered = true) cs).

Definition announced (instance : string) (cs : list DropCharge) : list DropAnnouncement :=
  (λ c, mkAnnouncement instance (ch_port c) (ch_channel c) (ch_announced c)) <$>
  filter (λ c, noise_ge (ch_noise c) Alarm = true ∧ 0 < ch_announced c) cs.

Definition killing (c : DropCharge) : Prop := noise_ge (ch_noise c) Fatal = true ∧ 0 < ch_counted c.
#[export] Instance killing_dec c : Decision (killing c).
Proof. unfold killing. apply _. Defined.

(** Everything of a schedule but its drop counts. *)
Definition unmetered (s : InstanceSchedule) : InstanceSchedule := with_metered s ∅.

(** What [enact_charges] leaves of the table, and says, after a prefix of the charges. *)
Record enacted (instance : string) (sc : Schedules) (cs : list DropCharge) (sc' : Schedules) (v : DropVerdicts) : Prop := {
  en_cursor : dispatch_cursor sc' = dispatch_cursor sc;
  en_tracked i : unmetered <$> sc_instances sc' !! i = unmetered <$> sc_instances sc !! i;
  en_others i port : i ≠ instance → metered_drops sc' i port = metered_drops sc i port;
  en_counted port : is_Some (sc_instances sc !! instance) → metered_drops sc instance port + charged port cs ≤ u64_max →
    metered_drops sc' instance port = metered_drops sc instance port + charged port cs;
  en_announced : announce v = announced instance cs;
  en_fatal : fatal v = (λ c, mkAnnouncement instance (ch_port c) (ch_channel c) (ch_announced c)) <$>
                         option_list (snd <$> list_find killing cs);
}.

Lemma charged_snoc port cs c :
  charged port (cs ++ [c]) = charged port cs + (if decide (ch_port c = port ∧ noise_ge (ch_noise c) Metered = true) then ch_counted c else 0).
Proof.
  unfold charged. rewrite filter_app, filter_cons, filter_nil, fmap_app.
  assert (Happ : ∀ l k, Proto.sum (l ++ k) = Proto.sum l + Proto.sum k) by apply Buffer.BufferRun.sum_app. rewrite Happ.
  case_decide; unfold Proto.sum; simpl; lia.
Qed.

Lemma kills_own instance cs (v : DropVerdicts) :
  fatal v = (λ c, mkAnnouncement instance (ch_port c) (ch_channel c) (ch_announced c)) <$> option_list (snd <$> list_find killing cs) →
  kills v instance = bool_decide (is_Some (list_find killing cs)).
Proof.
  intros Hf. unfold kills. rewrite Hf. destruct (list_find killing cs) as [[i c]|]; simpl; [|done].
  by rewrite bool_decide_eq_true_2.
Qed.

(** The table after one charge. *)
Definition metered_by (instance : string) (sc : Schedules) (c : DropCharge) : Schedules :=
  if noise_ge (ch_noise c) Metered && (0 <? ch_counted c)
  then with_instances sc (alter (λ s, with_metered s
         (<[ch_port c := u64_add (default 0 (is_metered_drops s !! ch_port c)) (ch_counted c)]> (is_metered_drops s)))
         instance (sc_instances sc))
  else sc.

Lemma metered_by_spec instance sc c :
  let sc2 := metered_by instance sc c in
  dispatch_cursor sc2 = dispatch_cursor sc ∧
  (∀ i, unmetered <$> sc_instances sc2 !! i = unmetered <$> sc_instances sc !! i) ∧
  (∀ i port, metered_drops sc2 i port =
     if decide (i = instance ∧ port = ch_port c ∧ is_Some (sc_instances sc !! i) ∧ noise_ge (ch_noise c) Metered = true ∧ 0 < ch_counted c)
     then u64_add (metered_drops sc i port) (ch_counted c) else metered_drops sc i port).
Proof.
  unfold metered_by. destruct (noise_ge (ch_noise c) Metered) eqn:Hn; simpl.
  2: { split_and!; [done|done|]. intros. rewrite decide_False; [done|]. intros (_&_&_&?&_). done. }
  destruct (N.ltb_spec 0 (ch_counted c)) as [Hpos|Hz].
  2: { split_and!; [done|done|]. intros. rewrite decide_False; [done|]. intros (_&_&_&_&?). lia. }
  split; [done|]. split.
  - intros i. simpl. destruct (decide (instance = i)) as [<-|Hne]; [|by rewrite lookup_alter_ne].
    rewrite lookup_alter_eq. by destruct (sc_instances sc !! instance) as [[]|].
  - intros i port. unfold metered_drops. simpl. destruct (decide (instance = i)) as [<-|Hne].
    + rewrite lookup_alter_eq. destruct (sc_instances sc !! instance) as [s|] eqn:Hs; simpl.
      * destruct (decide (ch_port c = port)) as [<-|Hp].
        -- rewrite lookup_insert_eq, decide_True by eauto 10. done.
        -- rewrite lookup_insert_ne by done. rewrite decide_False; [done|]. by intros (_&?&_).
      * rewrite decide_False; [done|]. by intros (_&_&[? ?]&_).
    + rewrite lookup_alter_ne by done. rewrite decide_False; [done|]. by intros (?&_).
Qed.

Lemma announced_snoc instance cs c :
  announced instance (cs ++ [c]) = announced instance cs ++
    (if noise_ge (ch_noise c) Alarm && (0 <? ch_announced c)
     then [mkAnnouncement instance (ch_port c) (ch_channel c) (ch_announced c)] else []).
Proof.
  unfold announced. rewrite filter_app, fmap_app, filter_cons, filter_nil. f_equal.
  case_decide as Hd; [destruct Hd as [-> Hp%N.ltb_lt]; by rewrite Hp|].
  destruct (noise_ge (ch_noise c) Alarm); [|done]. destruct (N.ltb_spec 0 (ch_announced c)); [by destruct Hd|done].
Qed.

Lemma killing_bool {A} c (x y : A) :
  (if decide (killing c) then x else y) = if noise_ge (ch_noise c) Fatal && (0 <? ch_counted c) then x else y.
Proof.
  destruct (decide (killing c)) as [[Hn Hc]|Hk].
  - rewrite Hn. by destruct (N.ltb_spec 0 (ch_counted c)); [|lia].
  - destruct (noise_ge (ch_noise c) Fatal) eqn:Hn; [|done]. destruct (N.ltb_spec 0 (ch_counted c)); [by destruct Hk|done].
Qed.

Lemma find_killing_snoc cs c :
  list_find killing (cs ++ [c]) =
  match list_find killing cs with
  | Some x => Some x
  | None => if decide (killing c) then Some (length cs, c) else None
  end.
Proof.
  destruct (list_find killing cs) as [[i x]|] eqn:Hf; [by apply list_find_app_l|].
  rewrite list_find_app_r by done. simpl. by destruct (decide (killing c)).
Qed.

Lemma enact_charge_enacted instance sc cs sc' v c :
  enacted instance sc cs sc' v →
  enacted instance sc (cs ++ [c]) (enact_charge instance (sc', v) c).1 (enact_charge instance (sc', v) c).2.
Proof.
  intros [Hcur Htr Hoth Hcnt Han Hfa]. unfold enact_charge. rewrite (kills_own _ _ _ Hfa). fold (metered_by instance sc' c).
  destruct (metered_by_spec instance sc' c) as (H1&H2&H3). set (sc2 := metered_by instance sc' c) in *.
  set (a := mkAnnouncement instance (ch_port c) (ch_channel c) (ch_announced c)).
  split; simpl.
  - by rewrite H1.
  - intros i. by rewrite H2.
  - intros i port Hne. rewrite H3, decide_False by (by intros [? _]). by apply Hoth.
  - intros port Hin Hle. rewrite H3. rewrite charged_snoc in Hle |- *.
    assert (Hs : is_Some (sc_instances sc' !! instance)).
    { specialize (Htr instance). destruct Hin as [s Hs]. rewrite Hs in Htr. by destruct (sc_instances sc' !! instance). }
    destruct (decide (ch_port c = port ∧ noise_ge (ch_noise c) Metered = true)) as [[<- Hm]|Hno].
    + destruct (N.eq_0_gt_0_cases (ch_counted c)) as [Hz|Hpos].
      * rewrite decide_False by (intros (_&_&_&_&?); lia). rewrite Hcnt by (done || lia). lia.
      * rewrite decide_True by done. rewrite Hcnt, u64_add_small by (done || lia). lia.
    + rewrite decide_False by (by intros (_&->&_&?&_); destruct Hno). rewrite Hcnt by (done || lia). lia.
  - rewrite announced_snoc, <- Han. fold a.
    destruct (noise_ge (ch_noise c) Alarm && _), (noise_ge (ch_noise c) Fatal && _ && _); simpl; by rewrite ?app_nil_r.
  - rewrite find_killing_snoc, killing_bool. fold a.
    destruct (noise_ge (ch_noise c) Alarm && _), (list_find killing cs) as [[i x]|], (noise_ge (ch_noise c) Fatal && _);
      simpl; by rewrite Hfa.
Qed.

Lemma enact_charges_enacted instance sc cs :
  enacted instance sc cs (enact_charges sc instance cs).1 (enact_charges sc instance cs).2.
Proof.
  unfold enact_charges. induction cs as [|c cs IH] using rev_ind.
  - split; simpl; try done. intros port _ _. unfold charged. simpl. lia.
  - rewrite foldl_app. simpl. destruct (foldl _ _ cs) as [sc' v]. by apply enact_charge_enacted.
Qed.

Lemma merge_fatal_NoDup v w : NoDup (an_instance <$> fatal v) → NoDup (an_instance <$> fatal (merge v w)).
Proof.
  unfold merge. generalize (announce v ++ announce w) as l. intros l.
  assert (Hgen : ∀ u ks, NoDup (an_instance <$> fatal u) →
    NoDup (an_instance <$> fatal (foldl (λ v kill, if kills v (an_instance kill) then v else mkVerdicts (announce v) (fatal v ++ [kill])) u ks))).
  { intros u ks. revert u. induction ks as [|k ks IH]; intros u Hu; [done|]. simpl. apply IH.
    destruct (kills u (an_instance k)) eqn:Hk; [done|]. simpl. rewrite fmap_app. apply NoDup_app. split; [done|]. split.
    - intros x (y&->&Hy)%list_elem_of_fmap Hx%list_elem_of_singleton. unfold kills in Hk.
      assert (existsb (λ held, bool_decide (an_instance held = an_instance k)) (fatal u) = true) as Ht; [|congruence].
      apply existsb_exists. exists y. split; [by apply list_elem_of_In|by apply bool_decide_eq_true].
    - apply NoDup_singleton. }
  intros Hv. by apply Hgen.
Qed.

Lemma charge_overflow_kills_once sc a channel overflow :
  NoDup (an_instance <$> fatal (charge_overflow sc a channel overflow).2).
Proof.
  unfold charge_overflow. assert (Hgen : ∀ l sc v, NoDup (an_instance <$> fatal v) →
    NoDup (an_instance <$> fatal (foldl (λ '(sc, v) o,
      match binding_noise a (bk_instance (subscriber o)) (bk_port (subscriber o)) with
      | None => (sc, v)
      | Some noise =>
          let '(sc, v') := enact_charges sc (bk_instance (subscriber o))
            [mkCharge (bk_port (subscriber o)) channel noise (evicted o) (if noise_ge noise Fatal then evicted o else 0)] in
          (sc, merge v v')
      end) (sc, v) l).2)); [|apply Hgen; apply NoDup_nil_2].
  intros l. induction l as [|o l IH]; intros sc' v Hv; [done|]. cbn [foldl].
  destruct (binding_noise a _ _) as [noise|]; [|by apply IH].
  destruct (enact_charges sc' (bk_instance (subscriber o)) _) as [sc2 v2]. apply IH. by apply merge_fatal_NoDup.
Qed.
End Ladder.

(** ** The page agrees with its wiring *)
Module Agreement.
Import Envelope Proto Subs Ring Cursor Core Store Buffer BufferRun Wiring Indexed Registrations.
#[local] Open Scope N_scope.

(** Occurrences of a channel in a list of references. *)
Definition occ (channel : string) (l : list string) : nat := length (filter (λ c, c = channel) l).
Definition subs_of (m : gmap string Registration) (instance : string) : list string :=
  match m !! instance with Some e => reg_subs e | None => [] end.

(** The references the whole table holds on a channel. *)
Definition ref_total (m : gmap string Registration) (channel : string) : nat :=
  sum_list_with (λ i, occ channel (subs_of m i)) (address_order m).

(** The references an instance's bindings ask for. *)
Definition wanted (a : AppliedBindings) (instance : string) : list string :=
  b_channel <$> filter (λ b, on_wire (b_channel b)) (inputs_of a instance).

Lemma occ_cons channel x l : occ channel (x :: l) = ((if decide (x = channel) then 1 else 0) + occ channel l)%nat.
Proof. unfold occ. rewrite filter_cons. by case_decide. Qed.

Lemma occ_app channel l k : occ channel (l ++ k) = (occ channel l + occ channel k)%nat.
Proof. unfold occ. by rewrite filter_app, length_app. Qed.

Lemma occ_elem channel l : channel ∈ l ↔ (0 < occ channel l)%nat.
Proof.
  induction l as [|x l IH]; [by rewrite elem_of_nil; unfold occ; simpl; lia|].
  rewrite elem_of_cons, occ_cons, IH. case_decide; subst; naive_solver lia.
Qed.

#[local] Instance occ_perm channel : Proper ((≡ₚ) ==> (=)) (occ channel).
Proof. intros l k Hlk. unfold occ. by rewrite Hlk. Qed.

Lemma sum_perm {A} (f : A → nat) (l k : list A) : l ≡ₚ k → sum_list_with f l = sum_list_with f k.
Proof. induction 1; simpl; lia. Qed.

Lemma address_order_insert_new {V} (m : gmap string V) i x : m !! i = None → address_order (<[i := x]> m) ≡ₚ i :: address_order m.
Proof. intros Hn. unfold address_order. rewrite !merge_sort_Permutation, map_to_list_insert by done. done. Qed.

Lemma ref_total_delete m i e channel :
  m !! i = Some e → ref_total m channel = (occ channel (reg_subs e) + ref_total (delete i m) channel)%nat.
Proof.
  intros Hi. assert (Hm : address_order m ≡ₚ i :: address_order (delete i m)).
  { rewrite <- (insert_delete_id m i e Hi) at 1. apply address_order_insert_new, lookup_delete_eq. }
  unfold ref_total. rewrite (sum_perm _ _ _ Hm). simpl.
  unfold subs_of at 1. rewrite Hi. f_equal. apply CallGraph.sum_ext_in. intros j Hj.
  unfold subs_of. rewrite lookup_delete_ne; [done|]. intros <-. apply elem_of_address_order in Hj as [? Hj].
  by rewrite lookup_delete_eq in Hj.
Qed.

Lemma ref_total_insert m i e channel :
  (ref_total (<[i := e]> m) channel + occ channel (subs_of m i) = occ channel (reg_subs e) + ref_total m channel)%nat.
Proof.
  rewrite (ref_total_delete (<[i := e]> m) i e) by apply lookup_insert_eq. rewrite delete_insert_eq.
  unfold subs_of. destruct (m !! i) as [e0|] eqn:Hi.
  - rewrite (ref_total_delete m i e0 channel Hi). lia.
  - rewrite delete_id by done. unfold occ at 2. simpl. lia.
Qed.

Lemma diff_refs_spec restate want held :
  let '(spare, missing) := diff_refs restate want held in
  ∀ channel, (occ channel want + occ channel spare = occ channel held + occ channel missing)%nat ∧
    (occ channel missing ≤ occ channel want)%nat ∧
    (channel ∈ restate → occ channel spare = occ channel held).
Proof.
  revert held. induction want as [|c want IH]; intros held; simpl.
  { intros channel. change (occ channel []) with O. split; [lia|]. split; [lia|done]. }
  case_bool_decide as Hr; [|destruct (list_find (λ x, x = c) held) as [[pos x]|] eqn:Hf]; simpl.
  - specialize (IH held). destruct (diff_refs restate want held) as [spare missing]. intros channel.
    destruct (IH channel) as (H1&H2&H3). rewrite !occ_cons. split; [lia|]. split; [lia|done].
  - apply list_find_Some in Hf as (Hpos&->&_). specialize (IH (delete pos held)).
    destruct (diff_refs restate want (delete pos held)) as [spare missing]. intros channel.
    destruct (IH channel) as (H1&H2&H3). rewrite (delete_Permutation held pos c Hpos), !occ_cons.
    split; [lia|]. split; [case_decide; lia|]. intros Hch. rewrite (H3 Hch). case_decide; [subst; done|lia].
  - specialize (IH held). destruct (diff_refs restate want held) as [spare missing]. intros channel.
    destruct (IH channel) as (H1&H2&H3). rewrite !occ_cons. split; [lia|]. split; [lia|done].
Qed.

Lemma wanted_of_spec l :
  Forall (λ b, surface_bindable_address (b_channel b) = true) l →
  wanted_of l = Returns (b_channel <$> filter (λ b, on_wire (b_channel b)) l).
Proof.
  induction 1 as [|b l Hb _ IH]; [done|]. simpl. rewrite transportable_returns by done. simpl. rewrite IH. simpl.
  rewrite filter_cons. by destruct (on_wire (b_channel b)).
Qed.

Section positions.
Context {Uuid DateTime : Type} `{EqDecision Uuid}.
Implicit Types (ss : SurfaceStores Uuid DateTime) (st : ChannelStore Uuid DateTime BindingKey) (k : BindingKey).

(** A binding's position in its channel's store, and the ring it is a position in. *)
Definition cursor_at ss (channel : string) k : option SubscriberCursor :=
  st ← stores ss !! channel; cursors (core st) !! k.
Definition ring_at ss (channel : string) : option (RetainedRing (MessageEnvelope Uuid DateTime) Uuid) :=
  ring ∘ core <$> stores ss !! channel.

(** Where attaching at depth [pd] leaves a position. *)
Definition attached_at (r : RetainedRing (MessageEnvelope Uuid DateTime) Uuid) (old : option SubscriberCursor) (pd : N)
    : option SubscriberCursor :=
  if pd =? 0 then None
  else Some (match old with Some cur => set_push_depth cur pd | None => primed r pd end).

Lemma store_attach_cursor st k pd k' :
  ring (core (store_attach st k pd).1) = ring (core st) ∧
  cursors (core (store_attach st k pd).1) !! k' =
    if decide (k = k') then attached_at (ring (core st)) (cursors (core st) !! k) pd else cursors (core st) !! k'.
Proof.
  unfold store_attach, attach, attached_at. destruct (pd =? 0); simpl.
  - split; [done|]. case_decide; [subst; by rewrite lookup_delete_eq|by rewrite lookup_delete_ne].
  - destruct (cursors (core st) !! k) eqn:Hk; simpl; (split; [done|]);
      (case_decide; [subst; by rewrite lookup_insert_eq|by rewrite lookup_insert_ne]).
Qed.

Lemma detach_fold st (ks : list BindingKey) :
  ring (core (foldl store_detach st ks)) = ring (core st) ∧
  ∀ k, cursors (core (foldl store_detach st ks)) !! k = if decide (k ∈ ks) then None else cursors (core st) !! k.
Proof.
  revert st. induction ks as [|x ks IH]; intros st; cbn [foldl].
  { split; [done|]. intros k. case_decide as Hd; [by apply elem_of_nil in Hd|done]. }
  destruct (IH (store_detach st x)) as [Hr Hc]. split; [done|]. intros k. rewrite Hc.
  change (cursors (core (store_detach st x))) with (delete x (cursors (core st))).
  destruct (decide (k ∈ ks)) as [Hin|Hin]; [by rewrite decide_True by (by right)|].
  destruct (decide (x = k)) as [->|Hne].
  - rewrite lookup_delete_eq, decide_True by (by left). done.
  - rewrite lookup_delete_ne by done. rewrite decide_False; [done|]. by rewrite elem_of_cons; intros [->|?].
Qed.

(** The binding an instance reads a channel through, at a port. *)
Definition binding_at (l : list Binding) (channel port : string) : option Binding :=
  snd <$> list_find (λ b, b_port b = port ∧ b_channel b = channel) l.

Lemma readers_spec st k : k ∈ readers st ↔ is_Some (cursors (core st) !! k).
Proof.
  unfold readers. rewrite list_elem_of_fmap. split.
  - intros ([k' c]&->&Hin). exists c. by apply elem_of_map_to_list.
  - intros [c Hc]. exists (k, c). split; [done|]. by apply elem_of_map_to_list.
Qed.

Lemma binding_at_positions l instance channel k :
  bk_instance k = instance →
  is_Some (binding_at l channel (bk_port k)) ↔
  Exists (λ p : string * BindingKey * N, p.1.1 = channel ∧ p.1.2 = k)
    ((λ b, (b_channel b, mkKey instance (b_port b), b_push_depth b)) <$> l).
Proof.
  intros <-. rewrite Exists_fmap, Exists_exists. unfold binding_at. split.
  - destruct (list_find _ l) as [[i b]|] eqn:Hf; [|by intros [? ?]]. intros _.
    apply list_find_Some in Hf as (Hi&[Hp Hc]&_). exists b. split; [by eapply list_elem_of_lookup_2|]. simpl.
    split; [done|]. rewrite Hp. by destruct k.
  - intros (b&Hb&Hc&Hk). simpl in *. destruct (list_find_elem_of (λ b, b_port b = bk_port k ∧ b_channel b = channel) l b Hb) as [[i x] Hf];
      [by rewrite <- Hk|]. rewrite Hf. by eexists.
Qed.

Lemma swept_positions l instance failed ss :
  let ss' := with_stores ss (map_imap (λ channel st, Some (detach_stale instance failed
    ((λ b, (b_channel b, mkKey instance (b_port b), b_push_depth b)) <$> l) channel st)) (stores ss)) in
  (∀ channel, is_Some (stores ss' !! channel) ↔ is_Some (stores ss !! channel)) ∧
  (∀ channel, ring_at ss' channel = ring_at ss channel) ∧
  ∀ channel k, cursor_at ss' channel k =
    if decide (bk_instance k = instance ∧ (failed = true ∨ binding_at l channel (bk_port k) = None))
    then None else cursor_at ss channel k.
Proof.
  simpl. split; [|split].
  - intros channel. rewrite map_lookup_imap. destruct (stores ss !! channel); simpl; split; intros [? ?]; (done || by eexists).
  - intros channel. unfold ring_at. simpl. rewrite map_lookup_imap. destruct (stores ss !! channel) as [st|]; [|done]. simpl.
    unfold compose. f_equal. apply detach_fold.
  - intros channel k. unfold cursor_at. simpl. rewrite map_lookup_imap. destruct (stores ss !! channel) as [st|]; simpl.
    2: { by case_decide. }
    unfold detach_stale. rewrite (proj2 (detach_fold st _)).
    destruct (decide (bk_instance k = instance ∧ (failed = true ∨ binding_at l channel (bk_port k) = None))) as [Hd|Hd].
    + destruct Hd as [Hi Hgone]. case_decide as Hin; [done|]. destruct (cursors (core st) !! k) as [c|] eqn:Hc; [|done].
      destruct Hin. apply list_elem_of_filter. split; [|by apply readers_spec; eexists]. split; [done|].
      destruct Hgone as [?|Hn]; [by left|]. right. rewrite <- (binding_at_positions l instance channel k Hi), Hn. by intros [? ?].
    + case_decide as Hin; [|done]. apply list_elem_of_filter in Hin as [[Hi Hgone] _]. destruct Hd. split; [done|].
      destruct Hgone as [?|Hn]; [by left|]. right. rewrite <- (binding_at_positions l instance channel k Hi) in Hn.
      destruct (binding_at l channel (bk_port k)); [destruct Hn; by eexists|done].
Qed.

Lemma binding_at_snoc l b channel port :
  b_port b ∉ b_port <$> l →
  binding_at (l ++ [b]) channel port =
    if decide (b_port b = port ∧ b_channel b = channel) then Some b else binding_at l channel port.
Proof.
  intros Hnew. unfold binding_at. destruct (list_find _ l) as [[i x]|] eqn:Hf.
  - rewrite (list_find_app_l _ _ _ _ _ Hf). case_decide as Hd; [|done].
    apply list_find_Some in Hf as (Hi&[Hp _]&_). destruct Hd as [Hb _]. destruct Hnew. rewrite Hb, <- Hp.
    by eapply list_elem_of_fmap_2, list_elem_of_lookup_2.
  - rewrite (list_find_app_r (λ b, b_port b = port ∧ b_channel b = channel)) by done. simpl. by case_decide.
Qed.

(** What the wiring makes of a position. *)
Definition placed (r : option (RetainedRing (MessageEnvelope Uuid DateTime) Uuid)) (old : option SubscriberCursor)
    (b : option Binding) : option SubscriberCursor :=
  r ← r; b ← b; attached_at r old (b_push_depth b).

Lemma attach_all_spec l instance ss :
  NoDup (b_port <$> l) → (∀ b, b ∈ l → is_Some (stores ss !! b_channel b)) →
  ∃ ss', attach_all ((λ b, (b_channel b, mkKey instance (b_port b), b_push_depth b)) <$> l) ss = Returns ss' ∧
    (∀ channel, is_Some (stores ss' !! channel) ↔ is_Some (stores ss !! channel)) ∧
    (∀ channel, ring_at ss' channel = ring_at ss channel) ∧
    ∀ channel k, cursor_at ss' channel k =
      if decide (bk_instance k = instance ∧ is_Some (binding_at l channel (bk_port k)))
      then placed (ring_at ss channel) (cursor_at ss channel k) (binding_at l channel (bk_port k))
      else cursor_at ss channel k.
Proof.
  unfold attach_all. induction l as [|b l IH] using rev_ind; intros Hnd Hin.
  { exists ss. split_and!; [done|done|done|]. intros channel k. case_decide as Hd; [|done]. by destruct Hd as [_ [? ?]]. }
  rewrite fmap_app in Hnd. apply NoDup_snoc in Hnd as [Hnd Hb].
  destruct IH as (ss1&Hr&Hdom&Hring&Hcur); [done|intros x ?; apply Hin, elem_of_app; by left|].
  rewrite fmap_app, foldl_app, Hr. simpl.
  assert (is_Some (stores ss1 !! b_channel b)) as [st Hst] by (apply Hdom, Hin, elem_of_app; right; by left).
  rewrite Hst. simpl. eexists. split; [done|].
  assert (Hatt := store_attach_cursor st (mkKey instance (b_port b)) (b_push_depth b)). split; [|split].
  - intros channel. rewrite <- Hdom. simpl. destruct (decide (b_channel b = channel)) as [<-|Hne].
    + rewrite lookup_insert_eq, Hst. split; intros _; by eexists.
    + by rewrite lookup_insert_ne.
  - intros channel. rewrite <- Hring. unfold ring_at. simpl. destruct (decide (b_channel b = channel)) as [<-|Hne].
    + rewrite lookup_insert_eq, Hst. simpl. unfold compose. f_equal. by apply (Hatt (mkKey instance (b_port b))).
    + by rewrite lookup_insert_ne.
  - intros channel k. rewrite binding_at_snoc by done. unfold cursor_at at 1. simpl.
    destruct (decide (b_port b = bk_port k ∧ b_channel b = channel)) as [[Hp <-]|Hno].
    + rewrite lookup_insert_eq. simpl. rewrite (proj2 (Hatt k)).
      assert (Hc1 : cursors (core st) !! k = cursor_at ss1 (b_channel b) k) by (unfold cursor_at; by rewrite Hst).
      destruct (decide (bk_instance k = instance)) as [Hi|Hi].
      * assert (mkKey instance (b_port b) = k) as Hkk by (destruct k; simpl in *; congruence).
        rewrite decide_True by done. rewrite decide_True by (by split; [|eexists]). rewrite Hkk, Hc1, Hcur.
        assert (binding_at l (b_channel b) (bk_port k) = None) as Hn.
        { unfold binding_at. destruct (list_find _ l) as [[j x]|] eqn:Hf; [|done]. apply list_find_Some in Hf as (Hj&[Hpx _]&_).
          destruct Hb. rewrite Hp, <- Hpx. by eapply list_elem_of_fmap_2, list_elem_of_lookup_2. }
        rewrite Hn, decide_False by (by intros [_ [? ?]]). unfold placed. rewrite <- Hring. unfold ring_at. rewrite Hst. done.
      * rewrite decide_False by (by intros <-). rewrite decide_False by (by intros [? _]).
        rewrite Hc1, Hcur, decide_False by (by intros [? _]). done.
    + assert (Hsame : (st0 ← <[b_channel b := (store_attach st (mkKey instance (b_port b)) (b_push_depth b)).1]> (stores ss1) !! channel;
        cursors (core st0) !! k) = cursor_at ss1 channel k).
      { unfold cursor_at. destruct (decide (b_channel b = channel)) as [<-|Hne]; [|by rewrite lookup_insert_ne].
        rewrite lookup_insert_eq, Hst. simpl. rewrite (proj2 (Hatt k)), decide_False; [done|]. intros <-. by destruct Hno. }
      simpl in Hsame. rewrite Hsame. apply Hcur.
Qed.

(** One instance's positions, rewritten: its own are what the bindings place, a sibling's are
    untouched, and no ring moves. *)
Lemma instance_positions l instance failed ss :
  NoDup (b_port <$> l) → (∀ b, b ∈ l → is_Some (stores ss !! b_channel b)) →
  let pos := (λ b, (b_channel b, mkKey instance (b_port b), b_push_depth b)) <$> l in
  let swept := with_stores ss (map_imap (λ channel st, Some (detach_stale instance failed pos channel st)) (stores ss)) in
  ∃ ss', (if failed then Returns swept else attach_all pos swept) = Returns ss' ∧
    (∀ channel, is_Some (stores ss' !! channel) ↔ is_Some (stores ss !! channel)) ∧
    (∀ channel, ring_at ss' channel = ring_at ss channel) ∧
    ∀ channel k, cursor_at ss' channel k =
      if decide (bk_instance k = instance)
      then if failed then None else placed (ring_at ss channel) (cursor_at ss channel k) (binding_at l channel (bk_port k))
      else cursor_at ss channel k.
Proof.
  intros Hnd Hin pos swept. destruct (swept_positions l instance failed ss) as (Hdom&Hring&Hcur).
  fold pos in Hdom, Hring, Hcur. fold swept in Hdom, Hring, Hcur. destruct failed.
  - exists swept. split_and!; [done|done|done|]. intros channel k. rewrite Hcur.
    destruct (decide (bk_instance k = instance)); [by rewrite decide_True by auto|by rewrite decide_False by (by intros [? _])].
  - destruct (attach_all_spec l instance swept Hnd) as (ss'&Hr&Hdom'&Hring'&Hcur'); [intros b Hb; by apply Hdom, Hin|].
    exists ss'. split; [done|]. split; [intros; by rewrite Hdom'|]. split; [intros; by rewrite Hring'|].
    intros channel k. rewrite Hcur', Hring. destruct (decide (bk_instance k = instance)) as [Hi|Hi].
    2: { rewrite decide_False by (by intros [? _]). rewrite Hcur, decide_False by (by intros [? _]). done. }
    destruct (binding_at l channel (bk_port k)) as [b|] eqn:Hb.
    + rewrite decide_True by (by split; [|eexists]). rewrite Hcur, Hb, decide_False; [done|]. by intros [_ [?|?]].
    + rewrite decide_False by (by intros [_ [? ?]]). rewrite Hcur, Hb, decide_True by auto. unfold placed. by destruct (ring_at ss channel).
Qed.
End positions.

(** *** References *)

(** What a channel's subscription states. *)
Definition statement (s : Subscriptions) (channel : string) : option (SubscriptionDepths * ResumePolicy) :=
  (λ e, (depths e, resume_policy e)) <$> channels s !! channel.

Section references.
Context {Uuid : Type}.

Lemma release_spec s c :
  0 < refcount_of s c →
  ∃ s' (fs : list (ClientFrame Uuid)), release s c = Returns (s', fs) ∧
    ∀ c', refcount_of s' c' = (if decide (c' = c) then refcount_of s c - 1 else refcount_of s c') ∧
      (0 < refcount_of s' c' → statement s' c' = statement s c').
Proof.
  intros Hpos. unfold release. assert (∃ e, channels s !! c = Some e ∧ refcount_of s c = refcount e) as (e&He&Hrc).
  { unfold refcount_of in *. destruct (channels s !! c) as [e|]; [by exists e|lia]. }
  rewrite He. simpl. rewrite Hrc in *. destruct (N.eqb_spec (refcount e) 0) as [?|_]; [lia|]. simpl.
  destruct (N.ltb_spec 0 (refcount e - 1)) as [Hmore|Hlast].
  - eexists _, _. split; [done|]. intros c'. unfold refcount_of, statement. simpl.
    destruct (decide (c' = c)) as [->|Hne]; [rewrite lookup_insert_eq, He|rewrite lookup_insert_ne by done]; done.
  - assert (Hn : refcount e - 1 = 0) by lia. rewrite Hn.
    destruct (match wire e with Active => _ | _ => _ end) as [e' fs] eqn:Hw.
    assert (Hz : refcount e' = 0) by (destruct (wire e); by injection Hw as <- _).
    eexists _, _. split; [done|]. intros c'.
    assert (Hfor : ∀ c', refcount_of (forget_if_spent (with_channels s (<[c := e']> (channels s))) c) c' =
        (if decide (c' = c) then 0 else refcount_of s c') ∧
        (c' ≠ c → statement (forget_if_spent (with_channels s (<[c := e']> (channels s))) c) c' = statement s c')).
    { intros x. unfold forget_if_spent. simpl. rewrite lookup_insert_eq.
      destruct (_ && _ && _); unfold refcount_of, statement; simpl; destruct (decide (x = c)) as [->|Hne].
      - by rewrite lookup_delete_eq.
      - by rewrite lookup_delete_ne, lookup_insert_ne by done.
      - by rewrite lookup_insert_eq, Hz.
      - by rewrite lookup_insert_ne by done. }
    destruct (Hfor c') as [Hr Hs]. split; [done|]. rewrite Hr. destruct (decide (c' = c)); [lia|]. intros _. by apply Hs.
Qed.

Lemma acquire_spec s c (d : SubscriptionDepths) rp :
  is_local_channel c = false → 0 < Subs.push_depth d ∨ 0 < Subs.retain_depth d →
  (refcount_of s c = 0 ∨ statement s c = Some (d, rp)) → refcount_of s c < u32_max →
  ∃ s' (fs : list (ClientFrame Uuid)), acquire s c d rp = Returns (s', fs) ∧
    statement s' c = Some (d, rp) ∧
    ∀ c', refcount_of s' c' = (if decide (c' = c) then refcount_of s c + 1 else refcount_of s c') ∧
      (c' ≠ c → statement s' c' = statement s c').
Proof.
  intros Hl Hd Hst Hmax. unfold acquire. rewrite Hl. simpl.
  assert (((0 <? Subs.push_depth d) || (0 <? Subs.retain_depth d)) = true) as ->.
  { apply orb_true_iff. rewrite !N.ltb_lt. done. } simpl.
  set (e0 := default _ (channels s !! c)). set (e1 := if refcount e0 =? 0 then _ else e0).
  assert (He1 : refcount e1 = refcount_of s c ∧ depths e1 = d ∧ resume_policy e1 = rp).
  { subst e1 e0. unfold refcount_of, statement in *. destruct (channels s !! c) as [e|]; simpl in *; [|done].
    destruct (N.eqb_spec (refcount e) 0); simpl; [done|]. destruct Hst as [?|Hst]; [lia|]. by injection Hst as -> ->. }
  destruct He1 as (Hr1&Hd1&Hp1). rewrite !bool_decide_eq_true_2 by done. simpl.
  assert (Hsat : u32_saturating_add (refcount e1) 1 = refcount_of s c + 1).
  { unfold u32_saturating_add. rewrite Hr1. unfold u32_max in *. lia. }
  assert (Hput : ∀ e2, refcount e2 = refcount_of s c + 1 → depths e2 = d → resume_policy e2 = rp →
    statement (with_channels s (<[c := e2]> (channels s))) c = Some (d, rp) ∧
    ∀ c', refcount_of (with_channels s (<[c := e2]> (channels s))) c' =
       (if decide (c' = c) then refcount_of s c + 1 else refcount_of s c') ∧
      (c' ≠ c → statement (with_channels s (<[c := e2]> (channels s))) c' = statement s c')).
  { intros e2 H1 H2 H3. unfold statement, refcount_of. simpl. rewrite lookup_insert_eq. simpl. split; [by rewrite H2, H3|].
    intros c'. destruct (decide (c' = c)) as [->|Hne]; [by rewrite lookup_insert_eq|by rewrite lookup_insert_ne]. }
  rewrite Hsat. destruct (wire e1), (live s); eexists _, _; (split; [done|]); apply Hput; simpl; congruence.
Qed.

Lemma release_all_spec R s :
  (∀ c, N.of_nat (occ c R) ≤ refcount_of s c) →
  ∃ s' (fs : list (ClientFrame Uuid)), release_all R s = Returns (s', fs) ∧
    ∀ c, refcount_of s' c = refcount_of s c - N.of_nat (occ c R) ∧
      (0 < refcount_of s' c → statement s' c = statement s c).
Proof.
  unfold release_all. induction R as [|x R IH] using rev_ind; intros Hle.
  { eexists _, _. split; [done|]. intros c. change (occ c []) with O. split; [lia|done]. }
  destruct IH as (s1&fs1&Hr&Hs1).
  { intros c. specialize (Hle c). rewrite occ_app in Hle. lia. }
  rewrite foldl_app, Hr. simpl. destruct (release_spec s1 x) as (s2&fs2&Hr2&Hs2).
  { rewrite (proj1 (Hs1 x)). specialize (Hle x). rewrite occ_app, occ_cons, decide_True in Hle by done. lia. }
  rewrite Hr2. simpl. eexists _, _. split; [done|]. intros c. destruct (Hs2 c) as [Hc Hst], (Hs1 c) as [Hc1 Hst1].
  rewrite occ_app, occ_cons. change (occ c []) with O. split.
  - rewrite Hc. destruct (decide (c = x)) as [->|Hne]; [rewrite decide_True by done|rewrite decide_False by done];
      rewrite ?(proj1 (Hs1 x)), ?Hc1; lia.
  - intros Hpos. rewrite Hst by done. apply Hst1. rewrite Hc in Hpos. destruct (decide (c = x)) as [->|]; lia.
Qed.

Lemma acquire_all_spec a A s :
  (∀ c, c ∈ A → is_local_channel c = false ∧ ∃ d, wire_depths a c = Some d ∧ (0 < Subs.push_depth d ∨ 0 < Subs.retain_depth d) ∧
     (refcount_of s c = 0 ∨ statement s c = Some (d, Subs.Resume))) →
  (∀ c, c ∈ A → refcount_of s c + N.of_nat (occ c A) ≤ u32_max) →
  ∃ s' (fs : list (ClientFrame Uuid)), acquire_all a A s = Returns (s', fs) ∧
    ∀ c, refcount_of s' c = refcount_of s c + N.of_nat (occ c A) ∧
      statement s' c = if decide (c ∈ A) then (λ d, (d, Subs.Resume)) <$> wire_depths a c else statement s c.
Proof.
  unfold acquire_all. induction A as [|x A IH] using rev_ind; intros HA Hmax.
  { eexists _, _. split; [done|]. intros c. change (occ c []) with O. split; [lia|].
    case_decide as Hd; [by apply elem_of_nil in Hd|done]. }
  destruct IH as (s1&fs1&Hr&Hs1).
  { intros c Hc. apply HA, elem_of_app. by left. }
  { intros c Hc. assert (Hin : c ∈ A ++ [x]) by (apply elem_of_app; by left). specialize (Hmax c Hin). rewrite occ_app in Hmax. lia. }
  assert (Hx : x ∈ A ++ [x]) by (apply elem_of_app; right; by left).
  destruct (HA x Hx) as (Hl&d&Hd&Hnz&Hst). rewrite foldl_app, Hr. simpl. rewrite Hd. simpl.
  destruct (Hs1 x) as [Hrx Hsx].
  destruct (acquire_spec s1 x d Subs.Resume Hl Hnz) as (s2&fs2&Hr2&Hstx&Hs2).
  { rewrite Hrx, Hsx. destruct (decide (x ∈ A)) as [Hin|Hin]; [right; by rewrite Hd|].
    destruct Hst as [Hz|?]; [|by right]. left. rewrite Hz. rewrite occ_elem in Hin. lia. }
  { rewrite Hrx. specialize (Hmax x Hx). rewrite occ_app, occ_cons, decide_True in Hmax by done. lia. }
  rewrite Hr2. simpl. eexists _, _. split; [done|]. intros c. destruct (Hs2 c) as [Hc Hstc], (Hs1 c) as [Hc1 Hst1].
  rewrite occ_app, occ_cons. change (occ c []) with O. destruct (decide (c = x)) as [->|Hne].
  - rewrite Hc, Hrx, Hstx, decide_True, decide_True by done. rewrite Hd. split; [lia|done].
  - rewrite Hc, Hc1, Hstc, Hst1, (decide_False (P := x = c)) by done. split; [lia|].
    destruct (decide (c ∈ A)) as [Hin|Hin].
    + by rewrite decide_True by (apply elem_of_app; by left).
    + rewrite decide_False; [done|]. by rewrite elem_of_app, list_elem_of_singleton; intros [?|?].
Qed.
End references.

(** *** The whole pass *)
Section pass.
Context {Uuid DateTime : Type} `{EqDecision Uuid}.
Context (d : BindingsDocument) (a : AppliedBindings) (Hv : valid_wiring d) (Ha : applied_ok d a).
Implicit Types (ss : SurfaceStores Uuid DateTime) (p : @Pass Uuid DateTime).

Lemma inputs_in i b : b ∈ inputs_of a i → b ∈ d_subscriptions d ∧ b_instance b = i.
Proof. unfold inputs_of. rewrite (ap_doc _ _ Ha). intros [? ?]%list_elem_of_filter. done. Qed.

Lemma inputs_bindable i : Forall (λ b, surface_bindable_address (b_channel b) = true) (inputs_of a i).
Proof.
  apply Forall_forall. intros b [Hb _]%inputs_in. apply (v_bindable _ Hv), elem_of_app. left. by apply list_elem_of_fmap_2.
Qed.

Lemma inputs_ports i : NoDup (b_port <$> inputs_of a i).
Proof.
  unfold inputs_of. rewrite (ap_doc _ _ Ha). pose proof (v_inputs _ Hv) as Hnd. revert Hnd.
  generalize (d_subscriptions d) as l. intros l. induction l as [|b l IH]; intros Hnd; [apply NoDup_nil_2|].
  apply NoDup_cons in Hnd as [Hb Hnd]. rewrite filter_cons. case_decide as Hd; [|by apply IH]. simpl. apply NoDup_cons.
  split; [|by apply IH]. intros (x&Hx&[Hxi Hxl]%list_elem_of_filter)%list_elem_of_fmap. apply Hb, list_elem_of_fmap.
  exists x. split; [|done]. by rewrite Hx, Hd, Hxi.
Qed.

Lemma wanted_stated i channel :
  channel ∈ wanted a i → is_local_channel channel = false ∧ is_Some (wire_depths a channel).
Proof.
  intros (b&->&[Hw Hb]%list_elem_of_filter)%list_elem_of_fmap. unfold on_wire in Hw.
  destruct (is_local_channel (b_channel b)) eqn:Hl; [done|]. split; [done|]. rewrite (ap_wire _ _ Ha). unfold stated.
  destruct (on_channel (b_channel b) (d_subscriptions d)) as [|x bs] eqn:Hon.
  - apply inputs_in in Hb as [Hb _]. exfalso. eapply not_elem_of_nil. rewrite <- Hon. by apply list_elem_of_filter.
  - unfold on_wire. rewrite Hl. by eexists.
Qed.

(** What one instance's turn leaves. *)
Lemma instance_pass restate i e p :
  ps_regs p !! i = Some e → (∀ b, b ∈ d_subscriptions d → is_Some (stores (ps_stores p) !! b_channel b)) →
  ∃ p' spare missing, reconcile_instance a restate i p = Returns p' ∧
    diff_refs restate (wanted a i) (reg_subs e) = (spare, missing) ∧
    ps_regs p' = <[i := mkRegistration (reg_generation e) (wanted a i) (reg_failed e)]> (ps_regs p) ∧
    ps_release p' = ps_release p ++ spare ∧ ps_acquire p' = ps_acquire p ++ missing ∧
    (∀ channel, is_Some (stores (ps_stores p') !! channel) ↔ is_Some (stores (ps_stores p) !! channel)) ∧
    (∀ channel, ring_at (ps_stores p') channel = ring_at (ps_stores p) channel) ∧
    ∀ channel k, cursor_at (ps_stores p') channel k =
      if decide (bk_instance k = i)
      then if reg_failed e then None
           else placed (ring_at (ps_stores p) channel) (cursor_at (ps_stores p) channel k) (binding_at (inputs_of a i) channel (bk_port k))
      else cursor_at (ps_stores p) channel k.
Proof.
  intros He Hst. unfold reconcile_instance. rewrite He. cbn [rust_expect mbind panics_bind].
  rewrite (wanted_of_spec _ (inputs_bindable i)). cbn [mbind panics_bind]. fold (wanted a i).
  destruct (instance_positions (inputs_of a i) i (reg_failed e) (ps_stores p) (inputs_ports i)) as (ss'&Hr&Hdom&Hring&Hcur).
  { intros b [Hb _]%inputs_in. by apply Hst. }
  cbv zeta in Hr |- *. unfold positions. cbn [mbind panics_bind] in *. unfold SurfaceStores in *. rewrite Hr. cbn [mbind panics_bind].
  destruct (diff_refs restate (wanted a i) (reg_subs e)) as [spare missing] eqn:Hdiff.
  eexists _, spare, missing. split; [done|]. done.
Qed.

(** The state of the pass after the instances of [L]. *)
Record passed_over (restate : list string) (p0 : @Pass Uuid DateTime) (L : list string) (p : @Pass Uuid DateTime) : Prop := {
  po_regs i : ps_regs p !! i =
    if decide (i ∈ L) then (λ e, mkRegistration (reg_generation e) (wanted a i) (reg_failed e)) <$> ps_regs p0 !! i
    else ps_regs p0 !! i;
  po_stores channel : is_Some (stores (ps_stores p) !! channel) ↔ is_Some (stores (ps_stores p0) !! channel);
  po_rings channel : ring_at (ps_stores p) channel = ring_at (ps_stores p0) channel;
  po_cursors channel k : cursor_at (ps_stores p) channel k =
    match (if decide (bk_instance k ∈ L) then ps_regs p0 !! bk_instance k else None) with
    | Some e => if reg_failed e then None
                else placed (ring_at (ps_stores p0) channel) (cursor_at (ps_stores p0) channel k)
                       (binding_at (inputs_of a (bk_instance k)) channel (bk_port k))
    | None => cursor_at (ps_stores p0) channel k
    end;
  po_refs channel : (ref_total (ps_regs p) channel + occ channel (ps_release p) =
                     ref_total (ps_regs p0) channel + occ channel (ps_acquire p))%nat;
  po_release channel :
    (occ channel (ps_release p) ≤ sum_list_with (λ i, occ channel (subs_of (ps_regs p0) i)) L)%nat ∧
    (channel ∈ restate → occ channel (ps_release p) = sum_list_with (λ i, occ channel (subs_of (ps_regs p0) i)) L);
  po_acquire channel : channel ∈ ps_acquire p → ∃ i, i ∈ L ∧ channel ∈ wanted a i;
}.

Lemma sum_list_with_snoc {A} (f : A → nat) (l : list A) x : sum_list_with f (l ++ [x]) = (sum_list_with f l + f x)%nat.
Proof. induction l as [|y l IH]; simpl; lia. Qed.

Lemma pass_spec restate p0 L :
  NoDup L → (∀ i, i ∈ L → is_Some (ps_regs p0 !! i)) →
  (∀ b, b ∈ d_subscriptions d → is_Some (stores (ps_stores p0) !! b_channel b)) →
  ps_release p0 = [] → ps_acquire p0 = [] →
  ∃ p, foldl (λ acc i, p ← acc; reconcile_instance a restate i p) (Returns p0) L = Returns p ∧ passed_over restate p0 L p.
Proof.
  intros Hnd Hin Hst Hrel Hacq. induction L as [|i L IH] using rev_ind.
  { exists p0. split; [done|]. split; try done.
    - intros channel. by rewrite Hrel, Hacq.
    - intros channel. rewrite Hrel. by change (occ channel []) with O.
    - intros channel. rewrite Hacq. by intros ?%elem_of_nil. }
  apply NoDup_snoc in Hnd as [Hnd Hi]. destruct IH as (p&Hr&[Hregs Hdom Hring Hcur Href Hrl Haq]); [done|intros; apply Hin, elem_of_app; by left|].
  assert (is_Some (ps_regs p0 !! i)) as [e He0] by (apply Hin, elem_of_app; right; by left).
  assert (He : ps_regs p !! i = Some e) by (by rewrite Hregs, decide_False).
  destruct (instance_pass restate i e p He) as (p'&spare&missing&Hr'&Hdiff&Hregs'&Hrl'&Haq'&Hdom'&Hring'&Hcur').
  { intros b Hb. by apply Hdom, Hst. }
  exists p'. rewrite foldl_app, Hr. simpl. split; [done|].
  pose proof (diff_refs_spec restate (wanted a i) (reg_subs e)) as Hspec. rewrite Hdiff in Hspec.
  assert (Hsubs : subs_of (ps_regs p0) i = reg_subs e) by (unfold subs_of; by rewrite He0).
  split.
  - intros j. rewrite Hregs'. destruct (decide (i = j)) as [<-|Hne].
    + rewrite lookup_insert_eq, decide_True, He0 by (apply elem_of_app; right; by left). done.
    + rewrite lookup_insert_ne, Hregs by done. destruct (decide (j ∈ L)) as [Hj|Hj].
      * by rewrite decide_True by (apply elem_of_app; by left).
      * rewrite decide_False; [done|]. by rewrite elem_of_app, list_elem_of_singleton; intros [?|?].
  - intros channel. by rewrite Hdom', Hdom.
  - intros channel. by rewrite Hring', Hring.
  - intros channel k. rewrite Hcur'. destruct (decide (bk_instance k = i)) as [Hk|Hk].
    + rewrite Hk. rewrite decide_True, He0 by (apply elem_of_app; right; by left). rewrite Hring, Hcur, Hk.
      by rewrite decide_False by done.
    + rewrite Hcur. destruct (decide (bk_instance k ∈ L)) as [Hj|Hj].
      * by rewrite decide_True by (apply elem_of_app; by left).
      * rewrite decide_False; [done|]. by rewrite elem_of_app, list_elem_of_singleton; intros [?|?].
  - intros channel. rewrite Hregs', Hrl', Haq', !occ_app.
    pose proof (ref_total_insert (ps_regs p) i (mkRegistration (reg_generation e) (wanted a i) (reg_failed e)) channel) as Hins.
    simpl in Hins. assert (Hs : subs_of (ps_regs p) i = reg_subs e) by (unfold subs_of; by rewrite He). rewrite Hs in Hins.
    destruct (Hspec channel) as (H1&_). specialize (Href channel). lia.
  - intros channel. rewrite Hrl', occ_app, sum_list_with_snoc, Hsubs. destruct (Hspec channel) as (H1&H2&H3), (Hrl channel) as [H4 H5].
    split; [lia|]. intros Hc. rewrite (H3 Hc), (H5 Hc). done.
  - intros channel. rewrite Haq', elem_of_app. intros [Hc|Hc].
    + destruct (Haq channel Hc) as (j&Hj&?). exists j. split; [apply elem_of_app; by left|done].
    + exists i. split; [apply elem_of_app; right; by left|]. apply occ_elem. apply occ_elem in Hc. destruct (Hspec channel) as (_&H2&_). lia.
Qed.

(** The table the wiring asks for. *)
Definition rewired (m : gmap string Registration) : gmap string Registration :=
  map_imap (λ i e, Some (mkRegistration (reg_generation e) (wanted a i) (reg_failed e))) m.

Lemma passed_rewired restate p0 p : passed_over restate p0 (address_order (ps_regs p0)) p → ps_regs p = rewired (ps_regs p0).
Proof.
  intros Hp. apply map_eq. intros i. rewrite (po_regs _ _ _ _ Hp). unfold rewired. rewrite map_lookup_imap.
  destruct (ps_regs p0 !! i) as [e|] eqn:He; simpl.
  - by rewrite decide_True by (apply elem_of_address_order; by eexists).
  - by case_decide.
Qed.

(** Each reference the table holds is one the subscriptions count, over what others hold. *)
Definition refs_counted (others : string → N) (m : gmap string Registration) (s : Subscriptions) : Prop :=
  ∀ channel, refcount_of s channel = others channel + N.of_nat (ref_total m channel).

(** What a channel is held at is what the wiring states, unless the pass restates it. *)
Lemma held_statement s channel dp :
  0 < refcount_of s channel → wire_depths a channel = Some dp → channel ∉ restated a s →
  (∀ e, channels s !! channel = Some e → resume_policy e = Subs.Resume) →
  statement s channel = Some (dp, Subs.Resume).
Proof.
  intros Hpos Hdp Hno Hpol. unfold statement, refcount_of in *. destruct (channels s !! channel) as [e|] eqn:He; [|lia]. simpl.
  rewrite (Hpol e) by done. do 2 f_equal. destruct (decide (depths e = dp)) as [?|Hne]; [done|]. destruct Hno.
  unfold restated. apply list_elem_of_filter. rewrite Hdp. unfold depths_of. rewrite He. simpl. split.
  - rewrite bool_decide_eq_false_2; [done|]. by intros [= ?].
  - unfold held_channels. apply list_elem_of_filter. unfold refcount_of. rewrite He. split; [done|].
    apply elem_of_address_order. by rewrite He.
Qed.

Lemma reconcile_pass others r ss s :
  (∀ channel dp, wire_depths a channel = Some dp → 0 < Subs.push_depth dp ∨ 0 < Subs.retain_depth dp) →
  (∀ b, b ∈ d_subscriptions d → is_Some (stores ss !! b_channel b)) →
  refs_counted others (reg_entries r) s →
  (∀ channel, is_Some (wire_depths a channel) → others channel = 0 ∧
     ∀ e, channels s !! channel = Some e → resume_policy e = Subs.Resume) →
  (∀ channel, others channel + N.of_nat (ref_total (rewired (reg_entries r)) channel) ≤ u32_max) →
  ∃ p s' frames, reconcile r a ss s = Returns (mkRegistrations (rewired (reg_entries r)) (next_generation r), ps_stores p, s', frames) ∧
    passed_over (restated a s) (mkPass (reg_entries r) ss [] []) (address_order (reg_entries r)) p ∧
    refs_counted others (rewired (reg_entries r)) s' ∧
    ∀ channel i, is_Some (reg_entries r !! i) → channel ∈ wanted a i → depths_of s' channel = wire_depths a channel.
Proof.
  intros Hnz Hst Hrefs Hown Hmax. set (p0 := mkPass (reg_entries r) ss [] []).
  destruct (pass_spec (restated a s) p0 (address_order (reg_entries r))) as (p&Hr&Hp);
    [apply NoDup_address_order|by intros i ?%elem_of_address_order|done|done|done|].
  pose proof (passed_rewired _ _ _ Hp) as Hregs. simpl in Hregs.
  destruct (release_all_spec (Uuid := Uuid) (ps_release p) s) as (s1&fs1&Hr1&Hs1).
  { intros c. rewrite Hrefs. destruct (po_release _ _ _ _ Hp c) as [Hle _]. simpl in Hle. fold (ref_total (reg_entries r) c) in Hle. lia. }
  assert (Hcount : ∀ c, refcount_of s1 c + N.of_nat (occ c (ps_acquire p)) =
    others c + N.of_nat (ref_total (rewired (reg_entries r)) c)).
  { intros c. rewrite (proj1 (Hs1 c)), Hrefs. pose proof (po_refs _ _ _ _ Hp c) as Href. rewrite Hregs in Href. simpl in Href.
    destruct (po_release _ _ _ _ Hp c) as [Hle _]. simpl in Hle. fold (ref_total (reg_entries r) c) in Hle. lia. }
  assert (Hkept : ∀ c dp, wire_depths a c = Some dp → 0 < refcount_of s1 c → statement s1 c = Some (dp, Subs.Resume)).
  { intros c dp Hdp Hpos. destruct (Hs1 c) as [Hc Hsame]. destruct (Hown c) as [Hz Hpol]; [by eexists|].
    rewrite (Hsame Hpos). apply held_statement; [lia|done| |done].
    intros Hin. destruct (po_release _ _ _ _ Hp c) as [_ Hall]. specialize (Hall Hin). simpl in Hall.
    fold (ref_total (reg_entries r) c) in Hall. pose proof (Hrefs c). lia. }
  destruct (acquire_all_spec (Uuid := Uuid) a (ps_acquire p) s1) as (s2&fs2&Hr2&Hs2).
  { intros c (i&_&Hw)%(po_acquire _ _ _ _ Hp). apply wanted_stated in Hw as [Hl [dp Hdp]]. split; [done|].
    exists dp. split; [done|]. split; [by eapply Hnz|]. destruct (N.eq_0_gt_0_cases (refcount_of s1 c)); [by left|right; by apply Hkept]. }
  { intros c _. rewrite Hcount. apply Hmax. }
  exists p, s2, (fs1 ++ fs2). split_and!.
  - unfold reconcile. fold p0. rewrite Hr. cbn [mbind panics_bind]. rewrite Hr1. cbn [mbind panics_bind]. rewrite Hr2.
    cbn [mbind panics_bind]. by rewrite Hregs.
  - done.
  - intros c. rewrite (proj1 (Hs2 c)). apply Hcount.
  - intros c i [e He] Hw. destruct (wanted_stated i c Hw) as [_ [dp Hdp]]. rewrite Hdp.
    assert (statement s2 c = Some (dp, Subs.Resume)) as Hfin; [|unfold statement, depths_of in *; destruct (channels s2 !! c); by simplify_eq/=].
    rewrite (proj2 (Hs2 c)). case_decide as Hin; [by rewrite Hdp|]. apply Hkept; [done|].
    assert (0 < ref_total (rewired (reg_entries r)) c)%nat.
    { rewrite (ref_total_delete _ i (mkRegistration (reg_generation e) (wanted a i) (reg_failed e))).
      - apply occ_elem in Hw. simpl. lia.
      - unfold rewired. by rewrite map_lookup_imap, He. }
    specialize (Hcount c). rewrite occ_elem in Hin. lia.
Qed.
End pass.
End Agreement.

(** ** A wired instance runs *)
Module Assembly.
Import Envelope Proto Subs Budget Publish Router Activation Buffer BufferRun Wiring Indexed Registrations Schedules Agreement
  Ring Cursor Core CoreRun Store StoreFacts.
#[local] Open Scope N_scope.

Section stores.
Context {Uuid DateTime : Type} `{EqDecision Uuid}.
Implicit Types (ss : SurfaceStores Uuid DateTime) (st : ChannelStore Uuid DateTime BindingKey) (k : BindingKey).

(** A store whose channel keeps its invariant, of a size a page can index. *)
Definition sound_store st : Prop :=
  Core.wf (core st) ∧ depth (ring (core st)) ≤ 4294967295 ∧ len (Deferred.parked (deferred (core st))) ≤ 4294967295.
Definition sound ss : Prop := map_Forall (λ _ st, sound_store st) (stores ss).

Lemma attach_sound st k pd : sound_store st → sound_store (store_attach st k pd).1.
Proof.
  intros (Hwf&Hd&Hp). unfold store_attach. pose proof (attach_wf (core st) k pd Hwf) as Hw. unfold attach in *.
  destruct (pd =? 0); [by split|]. by destruct (cursors (core st) !! k); split.
Qed.

Lemma detach_sound st k : sound_store st → sound_store (store_detach st k).
Proof.
  intros (Hwf&Hd&Hp). split; [|done]. simpl. apply with_cursors_wf; [done|]. apply map_Forall_delete, Hwf.
Qed.

Lemma detach_fold_sound st ks : sound_store st → sound_store (foldl store_detach st ks).
Proof. revert st. induction ks as [|k ks IH]; intros st Hst; [done|]. by apply IH, detach_sound. Qed.

Lemma attach_all_sound pos ss ss' : sound ss → attach_all pos ss = Returns ss' → sound ss'.
Proof.
  unfold attach_all. revert ss'. induction pos as [|[[c k] pd] pos IH] using rev_ind; intros ss' Hs; [by intros [= <-]|].
  rewrite foldl_app. simpl. destruct (foldl _ _ pos) as [ss1|]; [|done]. simpl.
  destruct (stores ss1 !! c) as [st|] eqn:Hst; [|done]. intros [= <-].
  apply map_Forall_insert_2; [|by apply IH]. apply attach_sound. by eapply (IH ss1).
Qed.

Lemma reconcile_instance_sound a restate i (p p' : @Pass Uuid DateTime) :
  sound (ps_stores p) → reconcile_instance a restate i p = Returns p' → sound (ps_stores p').
Proof.
  intros Hs. unfold reconcile_instance. destruct (ps_regs p !! i) as [e|]; [|done]. simpl.
  destruct (wanted_of _) as [w|]; [|done]. simpl.
  set (swept := with_stores _ _). assert (Hsw : sound swept).
  { intros c st. unfold swept. simpl. rewrite map_lookup_imap. destruct (stores (ps_stores p) !! c) as [st0|] eqn:Hst; [|done].
    intros [= <-]. by apply detach_fold_sound, (Hs c). }
  destruct (diff_refs _ _ _) as [spare missing]. destruct (reg_failed e); simpl; [by intros [= <-]|].
  destruct (attach_all _ swept) as [ss'|] eqn:Ha; [|done]. simpl. intros [= <-]. simpl. by eapply attach_all_sound.
Qed.

Lemma pass_sound a restate L (p p' : @Pass Uuid DateTime) :
  sound (ps_stores p) → foldl (λ acc i, p ← acc; reconcile_instance a restate i p) (Returns p) L = Returns p' → sound (ps_stores p').
Proof.
  revert p'. induction L as [|i L IH] using rev_ind; intros p' Hs; [by intros [= <-]|]. rewrite foldl_app. simpl.
  destruct (foldl _ _ L) as [p1|]; [|done]. simpl. by apply reconcile_instance_sound, IH.
Qed.

Lemma reconcile_sound r a ss s r' ss' s' frames :
  sound ss → reconcile r a ss s = Returns (r', ss', s', frames) → sound ss'.
Proof.
  intros Hs. unfold reconcile. destruct (foldl _ _ _) as [p|] eqn:Hp; [|done]. cbn [mbind panics_bind].
  destruct (release_all _ _) as [[s1 f1]|]; [|done]. cbn [mbind panics_bind]. destruct (acquire_all _ _ _) as [[s2 f2]|]; [|done].
  intros [= _ <- _ _]. eapply pass_sound; [|exact Hp]. done.
Qed.

(** Serving a sound store answers a window unless a push-enabled port has no position, and
    leaves the ring, the schedule and the table of positions. *)
Lemma serve_sound st k (dp : SubscriptionDepths) :
  sound_store st → (0 < Subs.push_depth dp → is_Some (cursors (core st) !! k)) →
  ∃ st' w, Store.serve st k dp = Returns (st', Some w) ∧ sound_store st' ∧ served_new_from w ≤ 4294967295 ∧
    ∀ k', is_Some (cursors (core st) !! k') → is_Some (cursors (core st') !! k').
Proof.
  intros (Hwf&Hd&Hp) Hpos. rewrite serve_core. pose proof (wf_ring _ Hwf) as Hr.
  destruct (serve_wf (core st) k (Subs.push_depth dp) (Subs.retain_depth dp) Hwf) as (c'&res&Hs&Hwf').
  pose proof (serve_cases (core st) k (Subs.push_depth dp) (Subs.retain_depth dp) Hwf) as Hc.
  assert (Hlen : len (entries (ring (core st))) ≤ 4294967295) by (pose proof (wf_depth _ Hr); lia).
  assert (Hnew : ∀ cur, new_from (window cur (ring (core st)) (Subs.push_depth dp) (Subs.retain_depth dp)) ≤ 4294967295).
  { intros cur. rewrite window_new_from by done. rewrite len_tail by done. lia. }
  destruct (cursors (core st) !! k) as [cur|] eqn:Hk.
  - assert (∃ cs w adv, c' = with_cursors (core st) (<[k := cs]> (cursors (core st))) ∧ res = Some (w, adv) ∧ new_from w ≤ 4294967295)
      as (cs&w&adv&->&->&Hw).
    { cbv zeta in Hc. destruct (_ && _); [destruct Hc as (adv&Hc&_)|]; rewrite Hc in Hs; injection Hs as <- <-; eauto 10. }
    rewrite Hs. simpl. eexists _, _. split; [done|]. split; [by split|]. split; [done|]. intros k'. simpl.
    destruct (decide (k = k')) as [<-|Hne]; [rewrite lookup_insert_eq; by eexists|by rewrite lookup_insert_ne].
  - destruct (N.ltb_spec 0 (Subs.push_depth dp)) as [Hpl|Hpl]; [by destruct (Hpos Hpl)|].
    rewrite Hc. simpl. eexists _, _. split; [done|]. split; [by split|]. split; [|done]. simpl.
    rewrite len_tail by done. lia.
Qed.

(** What the bindings [l] of an instance need of the stores. *)
Definition readable (instance : string) (l : list Binding) ss : Prop :=
  ∀ b, b ∈ l → is_Some (stores ss !! b_channel b) ∧
    (0 < b_push_depth b → is_Some (cursor_at ss (b_channel b) (mkKey instance (b_port b)))).
End stores.

Section assembly.
Context {Uuid DateTime P : Type} `{EqDecision Uuid, Chrono DateTime, EnvelopeJson Uuid DateTime}.
Context `{!PlanePolicy P Uuid DateTime}.
Context (d : BindingsDocument) (a : AppliedBindings) (Hv : valid_wiring d) (Ha : applied_ok d a).
Implicit Types (ss : SurfaceStores Uuid DateTime) (sc : Schedules).

(** What serving keeps. *)
Definition kept ss ss' : Prop :=
  (∀ c, is_Some (stores ss !! c) → is_Some (stores ss' !! c)) ∧
  ∀ c k, is_Some (cursor_at ss c k) → is_Some (cursor_at ss' c k).

#[local] Instance kept_refl : Reflexive kept.
Proof. by split. Qed.

#[local] Instance kept_trans : Transitive kept.
Proof. intros x y z [H1 H2] [H3 H4]. split; auto. Qed.

Lemma window_port_total i ss b :
  sound ss → readable i [b] ss →
  ∃ ss' w cs, window_port i ss b = Returns (ss', w, cs) ∧ Activation.port w = b_port b ∧ sound ss' ∧ kept ss ss'.
Proof.
  intros Hs Hb. destruct (Hb b) as [[st Hst] Hcur]; [by left|]. unfold window_port. rewrite Hst. simpl.
  destruct (serve_sound st (mkKey i (b_port b)) (mkDepths (b_push_depth b) (b_retain_depth b))) as (st'&w&->&Hst'&Hw&Hk).
  { by apply (Hs (b_channel b)). }
  { unfold cursor_at in Hcur. by rewrite Hst in Hcur. }
  simpl. destruct (N.leb_spec (served_new_from w) 4294967295); [|lia]. simpl. eexists _, _, _. split; [done|].
  split; [done|]. split; [by apply map_Forall_insert_2|]. split.
  - intros c Hc. simpl. destruct (decide (b_channel b = c)) as [<-|Hne]; [rewrite lookup_insert_eq; by eexists|by rewrite lookup_insert_ne].
  - intros c k. unfold cursor_at. simpl. destruct (decide (b_channel b = c)) as [<-|Hne].
    + rewrite lookup_insert_eq, Hst. apply Hk.
    + by rewrite lookup_insert_ne.
Qed.

Lemma window_ports_total i ss :
  sound ss → readable i (inputs_of a i) ss →
  ∃ ss' ports cs, window_ports i a ss = Returns (ss', ports, cs) ∧
    Activation.port <$> ports = b_port <$> inputs_of a i ∧ sound ss' ∧ kept ss ss'.
Proof.
  unfold window_ports. generalize (inputs_of a i) as l. intros l Hs. induction l as [|b l IH] using rev_ind; intros Hl.
  { by exists ss, [], []. }
  destruct IH as (ss1&ports&cs&Hr&Hp&Hs1&[Hst Hk]); [intros x Hx; apply Hl, elem_of_app; by left|].
  rewrite foldl_app, Hr. simpl.
  destruct (window_port_total i ss1 b Hs1) as (ss2&w&cs2&Hw&Hpw&Hs2&Hk2).
  { intros x ->%list_elem_of_singleton. destruct (Hl b) as [H1 H2]; [apply elem_of_app; right; by left|]. auto. }
  rewrite Hw. simpl. eexists _, _, _. split; [done|]. rewrite !fmap_app, Hp. simpl. rewrite Hpw. split; [done|].
  split; [done|]. by transitivity ss1.
Qed.

(** Every local output has a ring to park in, and no schedule is longer than an index. *)
Definition schedulable i (cx : @ActivationCtx Uuid DateTime P) : Prop :=
  (∀ o, o ∈ outputs_of a i → is_local_channel (o_channel o) = true → is_Some (stores (cx_stores cx) !! o_channel o)) ∧
  ∀ c, len (view_get (cx_views cx) c (Some i)) ≤ 4294967295.

Lemma outputs_bindable i o : o ∈ outputs_of a i → surface_bindable_address (o_channel o) = true.
Proof.
  unfold outputs_of. rewrite (ap_doc _ _ Ha). intros [_ Ho]%list_elem_of_filter.
  apply (v_bindable _ Hv), elem_of_app. right. by apply list_elem_of_fmap_2.
Qed.

Lemma deferred_window_total i (cx : @ActivationCtx Uuid DateTime P) o :
  sound (cx_stores cx) → schedulable i cx → o ∈ outputs_of a i → ∃ w ids, deferred_window i cx o = Returns (w, ids).
Proof.
  intros Hs [Hst Hlen] Ho. unfold deferred_window. rewrite transportable_returns by (by eapply outputs_bindable).
  cbn [mbind panics_bind]. unfold on_wire.
  assert (Hp : ∃ parked, (if negb (is_local_channel (o_channel o)) then Returns (view_get (cx_views cx) (o_channel o) (Some i))
    else parked_for (cx_router cx) (cx_stores cx) (o_channel o) (Sub i)) = Returns parked ∧ len parked ≤ 4294967295).
  { destruct (is_local_channel (o_channel o)) eqn:Hl; [|by eexists]. unfold parked_for. rewrite Hl. simpl.
    destruct (principal (cx_router cx)) as [who|]; [|by exists []].
    destruct (Hst o Ho Hl) as [st Hso]. unfold store_for. rewrite Hso. simpl. eexists. split; [done|].
    destruct (Hs _ _ Hso) as (_&_&Hpk). etrans; [|exact Hpk]. unfold len. rewrite length_fmap.
    unfold store_deferred_for_sender, deferred_for_sender, Deferred.for_sender.
    match goal with |- N.of_nat (length (filter ?Q ?l)) ≤ _ => pose proof (length_filter Q l) end. lia. }
  destruct Hp as (parked&->&Hpl). cbn [mbind panics_bind]. destruct (N.leb_spec (len parked) 4294967296); [|lia].
  cbn. by eexists _, _.
Qed.

Lemma deferred_windows_total i (cx : @ActivationCtx Uuid DateTime P) :
  cx_bindings cx = a → sound (cx_stores cx) → schedulable i cx → ∃ ws ids, deferred_windows i cx = Returns (ws, ids).
Proof.
  intros Hcx Hs Hsc. unfold deferred_windows. rewrite Hcx.
  assert (Hin : ∀ o, o ∈ outputs_of a i → o ∈ outputs_of a i) by done. revert Hin.
  generalize (outputs_of a i) at 1 3 as l. intros l. induction l as [|o l IH] using rev_ind; intros Hin; [by eexists _, _|].
  destruct IH as (ws&ids&Hr); [intros x Hx; apply Hin, elem_of_app; by left|]. rewrite foldl_app, Hr. simpl.
  destruct (deferred_window_total i cx o Hs Hsc) as (w&pids&->); [apply Hin, elem_of_app; right; by left|]. by eexists _, _.
Qed.

Lemma foldl_insert_spec {A V} (key : A → string) (f : A → V) (l : list A) (m : gmap string V) k v :
  foldl (λ m o, <[key o := f o]> m) m l !! k = Some v → (∃ o, o ∈ l ∧ key o = k ∧ v = f o) ∨ m !! k = Some v ∧ k ∉ key <$> l.
Proof.
  revert m. induction l as [|o l IH]; intros m; simpl.
  { intros Hm. right. split; [done|]. by intros ?%elem_of_nil. }
  intros [(x&Hx&?&?)|[Hm Hnot]]%IH; [left; exists x; split; [by right|done]|].
  destruct (decide (key o = k)) as [<-|Hne].
  - rewrite lookup_insert_eq in Hm. injection Hm as <-. left. exists o. split; [by left|done].
  - rewrite lookup_insert_ne in Hm by done. right. split; [done|]. by apply not_elem_of_cons.
Qed.

Lemma foldl_insert_is_Some {A V} (key : A → string) (f : A → V) (l : list A) (m : gmap string V) o :
  o ∈ l → is_Some (foldl (λ m o, <[key o := f o]> m) m l !! key o).
Proof.
  assert (Hkeep : ∀ l (m : gmap string V) k, is_Some (m !! k) → is_Some (foldl (λ m o, <[key o := f o]> m) m l !! k)).
  { clear. induction l as [|x l IH]; intros m k Hm; [done|]. simpl. apply IH. apply lookup_insert_is_Some'. by right. }
  revert m. induction l as [|x l IH]; intros m; [by intros ?%elem_of_nil|]. intros [<-|Ho]%elem_of_cons; simpl.
  - apply Hkeep. rewrite lookup_insert_eq. by eexists.
  - by apply IH.
Qed.

Lemma declared_ports_total i : is_declared_instance a i = true → ∃ ports, declared_ports a i = Returns ports.
Proof.
  intros Hd%bool_decide_eq_true. unfold declared_ports. rewrite (ap_ports _ _ Ha).
  pose proof (ap_component _ _ Ha i) as Hc. unfold component in Hc. destruct Hd as [x Hx]. rewrite Hx in Hc. simpl in Hc.
  destruct (list_find _ _) as [[j c]|]; simpl in *; [by eexists|]. by destruct (nth_checked _ _).
Qed.

(** The lengths a body and its channel's address may have. *)
Definition composable i (max_body : N) : Prop :=
  max_body + MAX_PUBLISH_BYTES_PER_ACTIVATION ≤ u64_max ∧
  ∀ o, o ∈ outputs_of a i → str_len (o_channel o) + 2 * max_body ≤ u64_max.

Lemma seed_buffer_total sc i ports ids (cx : @ActivationCtx Uuid DateTime P) :
  cx_bindings cx = a → is_Some (sc_instances sc !! i) → is_declared_instance a i = true → composable i (cx_max_body_bytes cx) →
  ∃ b, seed_buffer sc i ports ids cx = Returns b ∧ buffer_ok b ∧ buf_entries b = [] ∧ defer_ops b = [] ∧ deferred_ids b = ids.
Proof.
  intros Hcx [s Hs] Hd [Hcap Hlen]. unfold seed_buffer. rewrite Hs, Hcx. cbn [rust_expect mbind panics_bind].
  destruct (declared_ports_total i Hd) as [vocab ->]. cbn [mbind panics_bind]. eexists. split; [done|]. split_and!; [|done|done|done].
  apply buffer_new_ok. split; [done|]. intros port spec Hspec.
  apply (foldl_insert_spec o_port (λ o, mkOutput (o_channel o) (o_urgency o))) in Hspec as [(o&Ho&<-&->)|[Hno _]]; [|by rewrite lookup_empty in Hno].
  split; [by eapply outputs_bindable|]. split; [by apply Hlen|]. by apply foldl_insert_is_Some.
Qed.

(** Assembly is total on an instance the wiring declares and the pass has placed. *)
Lemma assemble_total sc i gen sync (cx : @ActivationCtx Uuid DateTime P) s :
  cx_bindings cx = a → sc_instances sc !! i = Some s → is_in_flight s = None → is_declared_instance a i = true →
  sound (cx_stores cx) → readable i (inputs_of a i) (cx_stores cx) → schedulable i cx → composable i (cx_max_body_bytes cx) →
  ∃ sc' ss' ra, assemble_windows sc i gen sync cx = Returns (sc', ss', ra) ∧
    in_flight sc' i = true ∧ mount_debt sc' i = Settled ∧ dispatch_cursor sc' = Some i ∧
    ra_instance ra = i ∧ ra_generation ra = gen ∧
    Activation.port <$> ports (ra_activation ra) = (b_port <$> inputs_of a i) ++ option_list (fst <$> sync) ∧
    buffer_ok (ra_buffer ra) ∧ buf_entries (ra_buffer ra) = [] ∧ defer_ops (ra_buffer ra) = [] ∧ sound ss'.
Proof.
  intros Hcx Hs Hfl Hd Hsound Hread Hsched Hcomp. unfold assemble_windows. rewrite Hs. cbn [rust_expect mbind panics_bind].
  rewrite bool_decide_eq_true_2 by done. cbn [rust_assert mbind panics_bind]. rewrite Hcx.
  destruct (window_ports_total i (cx_stores cx) Hsound Hread) as (ss'&ws&charges&->&Hports&Hsound'&[Hst _]). cbn [mbind panics_bind].
  set (sc0 := mkSchedules _ _). pose proof (Ladder.enact_charges_enacted i sc0 charges) as He.
  destruct (enact_charges sc0 i charges) as [sc1 drops]. simpl in He.
  assert (∃ s1, sc_instances sc1 !! i = Some s1 ∧ is_in_flight s1 = Some (mkInFlight (fst <$> sync)) ∧ is_mount s1 = Settled) as (s1&Hs1&Hf1&Hm1).
  { pose proof (Ladder.en_tracked _ _ _ _ _ He i) as Ht. simpl in Ht. rewrite lookup_insert_eq in Ht. simpl in Ht.
    destruct (sc_instances sc1 !! i) as [s1|]; [|done]. exists s1. split; [done|]. simpl in Ht. injection Ht as H1 H2. by rewrite H1, H2. }
  set (cx' := mkCtx a ss' (cx_router cx) (cx_views cx) (cx_max_body_bytes cx) (cx_now_ms cx)).
  destruct (deferred_windows_total i cx') as (defs&ids&->); [done|done| |].
  { destruct Hsched as [H1 H2]. split; [|done]. intros o Ho Hl. by apply Hst, H1. }
  cbn [mbind panics_bind]. destruct (seed_buffer_total sc1 i (match sync with Some (port, request) => ws ++ [mkPortWindow port [to_envelope_json request] 0 0] | None => ws end) ids cx')
    as (b&->&Hb&Hbe&Hbo&_); [done|by eexists|done|done|].
  cbn [mbind panics_bind]. eexists _, _, _. split; [done|]. unfold in_flight, mount_debt. rewrite Hs1. simpl. rewrite Hf1, Hm1.
  split_and!; try done.
  - exact (Ladder.en_cursor _ _ _ _ _ He).
  - destruct sync as [[port req]|]; simpl; [by rewrite fmap_app, Hports|by rewrite app_nil_r].
Qed.
End assembly.
End Assembly.

(** ** Theorems *)
Module PageProps.
Import Envelope Proto Subs Budget Publish Router Activation Buffer BufferRun Wiring Indexed Registrations Schedules Agreement
  Assembly Rotation Ladder Ring Cursor Core Store.
#[local] Open Scope N_scope.

Section props.
Context {Uuid DateTime P : Type} `{EqDecision Uuid, Chrono DateTime, EnvelopeJson Uuid DateTime}.
Context `{!PlanePolicy P Uuid DateTime}.
Implicit Types (ss : SurfaceStores Uuid DateTime) (s : Subscriptions) (r : Registrations) (sc : Schedules).

(** What a pass over the registrations relies on: every channel the wiring states has a depth
    (the bootstrap's own rule), every bound channel has a store, the references the table holds
    are the ones the subscriptions count over those [others] hold, nobody else holds a wired
    channel and whoever holds one resumes it, and no count passes the counter. *)
Record wireable (others : string → N) (a : AppliedBindings) r ss s : Prop := {
  wr_depths channel dp : wire_depths a channel = Some dp → 0 < Subs.push_depth dp ∨ 0 < Subs.retain_depth dp;
  wr_stores b : b ∈ d_subscriptions (a_doc a) → is_Some (stores ss !! b_channel b);
  wr_counted : refs_counted others (reg_entries r) s;
  wr_owned channel : is_Some (wire_depths a channel) →
    others channel = 0 ∧ ∀ e, channels s !! channel = Some e → resume_policy e = Subs.Resume;
  wr_fits channel : others channel + N.of_nat (ref_total (rewired a (reg_entries r)) channel) ≤ u32_max;
}.

(** The pass under [wireable], with the positions it leaves. *)
Lemma wireable_reconciles max body dj a others r ss s :
  apply_document max body dj = Returns (Ok a) → wireable others a r ss s →
  ∃ d ss' s' frames, valid_wiring d ∧ applied_ok d a ∧
    reconcile r a ss s = Returns (mkRegistrations (rewired a (reg_entries r)) (next_generation r), ss', s', frames) ∧
    refs_counted others (rewired a (reg_entries r)) s' ∧
    (∀ channel i, is_Some (reg_entries r !! i) → channel ∈ wanted a i → depths_of s' channel = wire_depths a channel) ∧
    (∀ channel, is_Some (stores ss' !! channel) ↔ is_Some (stores ss !! channel)) ∧
    (∀ channel, ring_at ss' channel = ring_at ss channel) ∧
    ∀ channel k, cursor_at ss' channel k =
      match reg_entries r !! bk_instance k with
      | Some e => if reg_failed e then None
                  else placed (ring_at ss channel) (cursor_at ss channel k) (binding_at (inputs_of a (bk_instance k)) channel (bk_port k))
      | None => cursor_at ss channel k
      end.
Proof.
  intros Hap [Hnz Hst Hrefs Hown Hmax]. destruct (applied_inv _ _ _ _ Hap) as (d&_&Hv&Ha&_). rewrite (ap_doc _ _ Ha) in Hst.
  destruct (reconcile_pass d a Hv Ha others r ss s Hnz Hst Hrefs Hown Hmax) as (p&s'&frames&Hr&[_ Hdom Hring Hcur _ _ _]&Hrefs'&Hdep).
  exists d, (ps_stores p), s', frames. split_and!; try done. intros channel k. rewrite Hcur. simpl.
  destruct (reg_entries r !! bk_instance k) as [e|] eqn:He.
  - by rewrite decide_True by (apply elem_of_address_order; by eexists).
  - by case_decide.
Qed.

Lemma binding_at_input (l : list Binding) b :
  NoDup (b_port <$> l) → b ∈ l → binding_at l (b_channel b) (b_port b) = Some b.
Proof.
  induction l as [|x l IH] using rev_ind; intros Hnd Hb; [by apply elem_of_nil in Hb|].
  rewrite fmap_app in Hnd. apply NoDup_snoc in Hnd as [Hnd Hx]. rewrite binding_at_snoc by done.
  apply elem_of_app in Hb as [Hb| ->%list_elem_of_singleton]; [|by rewrite decide_True].
  rewrite decide_False; [by apply IH|]. intros [Hp _]. apply Hx. rewrite Hp. by apply list_elem_of_fmap_2.
Qed.

(** C35: (page rotation) Dispatch starves no one but for the calls that move its rotation: in any
    run of turns and sync calls in which an instance could run whenever the rotation was
    asked, whichever others were ready beside it, it has been handed out, by a turn or by a
    call, once more turns have passed than every other instance could take in as many rounds
    as there were calls, and one more: with no call, once as many turns have passed as
    instances are tracked. *)
Theorem rotation_starves_no_one (U : list string) (x : string) (last : option string)
    (turns : list (@turn Uuid DateTime)) :
  dispatching (P := P) U x last turns → x ∈ U →
  (S (calls_in turns) * pred (length U) < dispatches_in turns)%nat →
  x ∈ ra_instance ∘ tn_ready <$> turns.
Proof.
  intros Hd Hx Hlen. destruct (decide (x ∈ ra_instance ∘ tn_ready <$> turns)) as [?|Hno]; [done|].
  pose proof (dispatching_bounded U x last turns Hx Hd Hno). pose proof (ahead_bound U last x Hx). lia.
Qed.

(** C28: (page registrations) One pass makes the page agree with its wiring: it never unwinds;
    every registered instance holds exactly the references its bindings ask for, which is what
    the subscriptions count over everyone else's; every channel one of them reads is held at
    the depths the wiring states; a position exists exactly where an unfailed instance has a
    push-enabled binding, keeping what it was owed if it had one; the rings and every
    unregistered reader are left alone. *)
Theorem reconcile_agrees_with_the_wiring (max : N) (body : string) (dj : option BindingsDocument) (a : AppliedBindings)
    (others : string → N) r ss s :
  apply_document max body dj = Returns (Ok a) → wireable others a r ss s →
  ∃ r' ss' s' frames, reconcile r a ss s = Returns (r', ss', s', frames) ∧
    next_generation r' = next_generation r ∧
    (∀ i, reg_entries r' !! i =
       (λ e, mkRegistration (reg_generation e) (wanted a i) (reg_failed e)) <$> reg_entries r !! i) ∧
    refs_counted others (reg_entries r') s' ∧
    (∀ channel i, is_Some (reg_entries r !! i) → channel ∈ wanted a i → depths_of s' channel = wire_depths a channel) ∧
    (∀ channel, ring_at ss' channel = ring_at ss channel) ∧
    ∀ channel k, cursor_at ss' channel k =
      match reg_entries r !! bk_instance k with
      | Some e => if reg_failed e then None
                  else placed (ring_at ss channel) (cursor_at ss channel k) (binding_at (inputs_of a (bk_instance k)) channel (bk_port k))
      | None => cursor_at ss channel k
      end.
Proof.
  intros Hap Hw. destruct (wireable_reconciles _ _ _ _ _ _ _ _ Hap Hw) as (d&ss'&s'&frames&_&_&Hr&Hrefs&Hdep&_&Hring&Hcur).
  exists (mkRegistrations (rewired a (reg_entries r)) (next_generation r)), ss', s', frames. split_and!; try done.
  intros i. simpl. unfold rewired. rewrite map_lookup_imap. by destruct (reg_entries r !! i).
Qed.

(** C9: (page scheduler) What the wiring promises an instance, the scheduler delivers: once a
    pass has run, every unfailed instance the wiring declares and that is not already running
    assembles, with or without a sync call, never unwinding: it is then in flight, its mount is
    settled, it has one window per bound input in declaration order (and the call's own), and
    the empty publish buffer it is handed keeps the buffer's invariant. *)
Theorem wired_instance_always_assembles (max : N) (body : string) (dj : option BindingsDocument) (a : AppliedBindings)
    (others : string → N) r ss s sc (i : string) (e : Registration) (sch : InstanceSchedule) (gen : N)
    (call : option (string * MessageEnvelope Uuid DateTime)) (rt : LocalRouter P) (views : @DeferredViews Uuid)
    (max_body now_ms : N) :
  apply_document max body dj = Returns (Ok a) → wireable others a r ss s → sound ss →
  reg_entries r !! i = Some e → reg_failed e = false → is_declared_instance a i = true →
  sc_instances sc !! i = Some sch → is_in_flight sch = None →
  schedulable a i (mkCtx a ss rt views max_body now_ms) → composable a i max_body →
  ∃ r' ss1 s1 frames, reconcile r a ss s = Returns (r', ss1, s1, frames) ∧
    ∃ sc' ss2 ra, assemble_windows sc i gen call (mkCtx a ss1 rt views max_body now_ms) = Returns (sc', ss2, ra) ∧
      in_flight sc' i = true ∧ mount_debt sc' i = Settled ∧ dispatch_cursor sc' = Some i ∧
      Activation.port <$> ports (ra_activation ra) = (b_port <$> inputs_of a i) ++ option_list (fst <$> call) ∧
      buffer_ok (ra_buffer ra) ∧ buf_entries (ra_buffer ra) = [] ∧ defer_ops (ra_buffer ra) = [].
Proof.
  intros Hap Hw Hs He Hf Hd Hsc Hfl Hsched Hcomp.
  destruct (wireable_reconciles _ _ _ _ _ _ _ _ Hap Hw) as (d&ss1&s1&frames&Hv&Ha&Hr&_&_&Hdom&_&Hcur).
  do 4 eexists. split; [exact Hr|]. assert (Hs1 : sound ss1) by (by eapply reconcile_sound).
  assert (Hread : readable i (inputs_of a i) ss1).
  { intros b Hb. assert (is_Some (stores ss !! b_channel b)) as [st Hst].
    { apply (wr_stores _ _ _ _ _ Hw). unfold inputs_of in Hb. by apply list_elem_of_filter in Hb as [_ Hb]. }
    split; [apply Hdom; by eexists|]. intros Hpd. rewrite Hcur. simpl. rewrite He, Hf.
    rewrite binding_at_input by (done || by eapply inputs_ports). unfold placed, ring_at, attached_at. rewrite Hst. simpl.
    destruct (N.eqb_spec (b_push_depth b) 0); [lia|]. by eexists. }
  assert (Hsched1 : schedulable a i (mkCtx a ss1 rt views max_body now_ms)).
  { destruct Hsched as [H1 H2]. split; [|done]. intros o Ho Hl. by apply Hdom, H1. }
  destruct (assemble_total d a Hv Ha sc i gen call (mkCtx a ss1 rt views max_body now_ms) sch eq_refl Hsc Hfl Hd Hs1 Hread Hsched1 Hcomp)
    as (sc'&ss2&ra&Hasm&H1&H2&H3&_&_&H4&H5&H6&H7&_). eauto 20.
Qed.

(** Withdrawing an instance: its references are given back, its positions dropped. *)
Lemma deregister_spec others r i e ss s :
  reg_entries r !! i = Some e → refs_counted others (reg_entries r) s →
  ∃ ss' s' frames,
    deregister r i ss s = Returns (mkRegistrations (delete i (reg_entries r)) (next_generation r), ss', s', frames) ∧
    refs_counted others (delete i (reg_entries r)) s' ∧
    ∀ channel k, cursor_at ss' channel k = if decide (bk_instance k = i) then None else cursor_at ss channel k.
Proof.
  intros He Hrefs. unfold deregister. rewrite He. cbn [rust_expect mbind panics_bind].
  destruct (release_all_spec (Uuid := Uuid) (reg_subs e) s) as (s'&frames&->&Hs).
  { intros c. rewrite Hrefs, (ref_total_delete _ _ _ c He). lia. }
  cbn [mbind panics_bind]. do 3 eexists. split; [done|]. split.
  - intros c. rewrite (proj1 (Hs c)), Hrefs, (ref_total_delete _ _ _ c He). lia.
  - intros channel k. unfold cursor_at, detach_matching. simpl. rewrite lookup_fmap.
    destruct (stores ss !! channel) as [st|]; simpl; [|by case_decide]. rewrite (proj2 (detach_fold st _)).
    destruct (decide (bk_instance k = i)) as [Hi|Hi].
    + case_decide as Hin; [done|]. destruct (cursors (core st) !! k) as [c|] eqn:Hc; [|done]. destruct Hin.
      apply list_elem_of_filter. split; [by apply bool_decide_eq_true|apply readers_spec; by eexists].
    + rewrite decide_False; [done|]. by intros [?%bool_decide_eq_true _]%list_elem_of_filter.
Qed.

Lemma rewired_insert a m i e :
  rewired a (<[i := e]> m) = <[i := mkRegistration (reg_generation e) (wanted a i) (reg_failed e)]> (rewired a m).
Proof. unfold rewired. by rewrite map_imap_insert. Qed.

(** C29: (page registrations) Registering an instance on a page that already agrees with its
    wiring, and withdrawing it again, gives everything back: neither unwinds, the table and
    every channel's count are what they were, no position of it is left in any store, and no
    generation is ever minted twice. *)
Theorem register_then_deregister_gives_everything_back (max : N) (body : string) (dj : option BindingsDocument)
    (a : AppliedBindings) (others : string → N) r ss s (i : string) :
  apply_document max body dj = Returns (Ok a) → reg_entries r !! i = None → rewired a (reg_entries r) = reg_entries r →
  wireable others a (mkRegistrations (<[i := mkRegistration (next_generation r) [] false]> (reg_entries r))
                       (u64_add (next_generation r) 1)) ss s →
  ∃ r1 ss1 s1 fs1 r2 ss2 s2 fs2,
    register r i (Some a) ss s = Returns (r1, ss1, s1, fs1) ∧ deregister r1 i ss1 s1 = Returns (r2, ss2, s2, fs2) ∧
    generation_of r1 i = Some (next_generation r) ∧ next_generation r2 = u64_add (next_generation r) 1 ∧
    reg_entries r2 = reg_entries r ∧
    (∀ channel, refcount_of s2 channel = refcount_of s channel) ∧
    (∀ channel k, bk_instance k = i → cursor_at ss2 channel k = None) ∧
    ∀ channel k, bk_instance k ≠ i → cursor_at ss2 channel k = cursor_at ss1 channel k.
Proof.
  intros Hap Hnew Hfix Hw. destruct (wireable_reconciles _ _ _ _ _ _ _ _ Hap Hw) as (d&ss1&s1&fs1&_&_&Hr&Hrefs&_).
  simpl in Hr, Hrefs. rewrite rewired_insert, Hfix in Hr, Hrefs. simpl in Hr, Hrefs.
  set (e := mkRegistration (next_generation r) (wanted a i) false) in *.
  set (r1 := mkRegistrations (<[i := e]> (reg_entries r)) (u64_add (next_generation r) 1)) in *.
  destruct (deregister_spec others r1 i e ss1 s1) as (ss2&s2&fs2&Hdr&Hrefs2&Hcur); [by apply lookup_insert_eq|done|].
  exists r1, ss1, s1, fs1. do 4 eexists. split; [|split; [exact Hdr|]].
  { unfold register. rewrite bool_decide_eq_true_2 by done. exact Hr. }
  simpl in Hrefs2 |- *. rewrite (delete_insert_id _ _ _ Hnew) in Hrefs2 |- *. split_and!; try done.
  - unfold generation_of. simpl. by rewrite lookup_insert_eq.
  - intros channel. rewrite Hrefs2, (wr_counted _ _ _ _ _ Hw channel). simpl.
    pose proof (ref_total_insert (reg_entries r) i (mkRegistration (next_generation r) [] false) channel) as Hi.
    unfold subs_of in Hi. rewrite Hnew in Hi. change (occ channel []) with O in Hi. simpl in Hi.
    change (occ channel []) with O in Hi. rewrite Nat.add_0_r in Hi. by rewrite Hi.
  - intros channel k Hk. by rewrite Hcur, decide_True.
  - intros channel k Hk. by rewrite Hcur, decide_False.
Qed.

Lemma undeclared_unbound d a i :
  valid_wiring d → applied_ok d a → is_declared_instance a i = false → inputs_of a i = [] ∧ outputs_of a i = [] ∧
  a_declared_out_ports a !! i = None.
Proof.
  intros Hv Ha Hd. assert (Hno : ∀ c, c ∈ d_components d → ce_instance c ≠ i).
  { intros c Hc <-. apply bool_decide_eq_false in Hd. apply Hd. pose proof (ap_component _ _ Ha (ce_instance c)) as Hcomp.
    rewrite (find_some_component _ _ _ Hc eq_refl (v_instances _ Hv)) in Hcomp. unfold component in Hcomp.
    by destruct (a_components a !! ce_instance c). }
  assert (Hnil : ∀ {A} (f : A → string) (l : list A), (∀ x, x ∈ l → f x ≠ i) → filter (λ x, f x = i) l = []).
  { intros A f l Hl. induction l as [|x l IH]; [done|]. rewrite filter_cons, decide_False by (apply Hl; by left).
    apply IH. intros y Hy. apply Hl. by right. }
  unfold inputs_of, outputs_of. rewrite (ap_doc _ _ Ha). split_and!.
  - apply Hnil. intros b Hb <-. destruct (v_readers _ Hv b Hb) as (c&Hc&Hi). by apply (Hno c).
  - apply Hnil. intros o Ho <-. destruct (v_writers _ Hv o Ho) as (c&Hc&Hi&_). by apply (Hno c).
  - rewrite (ap_ports _ _ Ha). destruct (list_find _ _) as [[j c]|] eqn:Hf; [|done].
    apply list_find_Some in Hf as (Hj&Hi&_). apply list_elem_of_lookup_2 in Hj. by destruct (Hno c Hj).
Qed.

(** C40: (page scheduler) The scheduler has no answer for an instance the wiring does not
    declare: once it is registered on a wired page its mount is owed, so dispatch finds it
    could run, and assembling it unwinds on its missing port vocabulary. *)
Theorem undeclared_instance_is_run_and_unwinds (max : N) (body : string) (dj : option BindingsDocument) (a : AppliedBindings)
    r ss sc (i : string) (e : Registration) (gen : N) (cx : @ActivationCtx Uuid DateTime P) :
  apply_document max body dj = Returns (Ok a) → is_declared_instance a i = false →
  reg_entries r !! i = Some e → reg_failed e = false → sc_instances sc !! i = None → cx_bindings cx = a →
  ∃ sc', track sc i true = Returns sc' ∧ could_run sc' r ss i ∧ is_Some (ready sc' r ss) ∧
    assemble sc' i gen cx = Panics "surface client: no declared port vocabulary for instance".
Proof.
  intros Hap Hd He Hf Hsc Hcx. destruct (applied_inv _ _ _ _ Hap) as (d&_&Hv&Ha&_).
  destruct (undeclared_unbound d a i Hv Ha Hd) as (Hin&Hout&Hvocab).
  unfold track. rewrite bool_decide_eq_true_2 by done. cbn [rust_assert mbind panics_bind]. eexists. split; [done|].
  set (sc' := with_instances _ _). assert (Hs : sc_instances sc' !! i = Some (mkSchedule None Owed 0 ∅ ∅ 0 0)) by apply lookup_insert_eq.
  assert (Hcould : could_run sc' r ss i).
  { split.
    - apply list_elem_of_filter. unfold in_flight, is_registered, is_failed. rewrite Hs, He. simpl. rewrite Hf.
      split; [done|]. apply elem_of_address_order. eexists. exact Hs.
    - unfold is_ready_now, mount_debt. rewrite Hs. done. }
  split; [done|]. split.
  { pose proof (ready_spec sc' r ss) as Hspec. destruct (ready sc' r ss) as [x|]; [by eexists|]. by destruct (Hspec i). }
  unfold assemble, assemble_windows. rewrite Hs. cbn [rust_expect mbind panics_bind].
  rewrite bool_decide_eq_true_2 by done. cbn [rust_assert mbind panics_bind]. unfold window_ports. rewrite Hcx, Hin.
  cbn [foldl mbind panics_bind]. unfold enact_charges. cbn [foldl]. unfold deferred_windows. cbn [cx_bindings]. rewrite Hout.
  cbn [foldl mbind panics_bind]. unfold seed_buffer. cbn [sc_instances]. rewrite lookup_insert_eq.
  cbn [rust_expect mbind panics_bind cx_bindings]. unfold declared_ports. by rewrite Hvocab.
Qed.
End props.

(** *** Witnesses: the page of the wiring's own example *)
#[local] Existing Instance EvalInstances.millis_chrono.
#[local] Instance demo_json : EnvelopeJson N Z := λ e, Envelope.body e.
#[local] Instance demo_policy : PlanePolicy N N Z :=
  {| admits _ _ _ := true; guard _ _ _ b := Returns (Carry b); observe n _ := Returns n |}.

Definition demo_apply : panics (result AppliedBindings BindingsError) :=
  apply_document 4294967295 "body" (Some WiringProps.demo_document).
Definition demo_applied : AppliedBindings :=
  match demo_apply with Returns (Ok a) => a | _ => mkApplied "" WiringProps.demo_document ∅ ∅ ∅ ∅ ∅ ∅ ∅ ∅ end.

Lemma demo_applies : apply_document 4294967295 "body" (Some WiringProps.demo_document) = Returns (Ok demo_applied).
Proof.
  assert (Hok : match demo_apply with Returns (Ok _) => true | _ => false end = true) by (vm_compute; reflexivity).
  unfold demo_applied. change (apply_document 4294967295 "body" (Some WiringProps.demo_document)) with demo_apply.
  by destruct demo_apply as [[a|e]|why].
Qed.

Definition demo_regs : Registrations := mkRegistrations (<["bar" := mkRegistration 0 [] false]> ∅) (u64_add 0 1).
Definition demo_stores : SurfaceStores N Z :=
  mkStores 7 (<["brenn:room" := store_new 7 4]> (<["local:bar" := store_new 7 5]> ∅)).

Lemma demo_sound : sound demo_stores.
Proof.
  assert (Hnew : ∀ n : N, n ≤ 4294967295 → sound_store (store_new 7 n : ChannelStore N Z BindingKey)).
  { intros n Hn. split; [apply CoreRun.core_new_wf|]. split; [done|]. simpl. vm_compute. discriminate. }
  apply map_Forall_insert_2; [apply Hnew; lia|]. apply map_Forall_insert_2; [apply Hnew; lia|apply map_Forall_empty].
Qed.

Lemma demo_wire channel dp : wire_depths demo_applied channel = Some dp → dp = mkDepths 4 3.
Proof.
  destruct (applied_inv _ _ _ _ demo_applies) as (d&[= <-]&_&Ha&_). rewrite (ap_wire _ _ Ha). unfold stated, on_channel. simpl.
  destruct (decide ("brenn:room" = channel)) as [<-|Hroom]; [by intros [= <-]|].
  rewrite !filter_cons, filter_nil. simpl. rewrite !(decide_False (P := "brenn:room" = channel)) by done.
  destruct (decide ("local:bar" = channel)) as [<-|Hbar]; [by intros [=]|done].
Qed.

Lemma demo_wireable : wireable (λ _, 0) demo_applied demo_regs demo_stores subs_new.
Proof.
  destruct (applied_inv _ _ _ _ demo_applies) as (d&[= <-]&_&Ha&_). split.
  - intros channel dp ->%demo_wire. simpl. lia.
  - rewrite (ap_doc _ _ Ha). intros b Hb. repeat (apply elem_of_cons in Hb as [->|Hb]; [by eexists|]). by apply elem_of_nil in Hb.
  - intros channel. reflexivity.
  - intros channel _. split; [done|]. intros e. simpl. by rewrite lookup_empty.
  - intros channel. unfold demo_regs. simpl. rewrite rewired_insert.
    pose proof (ref_total_insert (rewired demo_applied ∅) "bar" (mkRegistration 0 (wanted demo_applied "bar") false) channel) as Ht.
    assert (Hw : wanted demo_applied "bar" = ["brenn:room"%string]).
    { unfold wanted, inputs_of. rewrite (ap_doc _ _ Ha). reflexivity. }
    rewrite Hw in Ht |- *. simpl in Ht |- *. change (ref_total (rewired demo_applied ∅) channel) with 0%nat in Ht.
    rewrite occ_cons in Ht. change (occ channel []) with 0%nat in Ht. unfold u32_max. case_decide; lia.
Qed.

Lemma reconcile_agrees_with_the_wiring_witness :
  ∃ r' ss' s' frames, reconcile demo_regs demo_applied demo_stores subs_new = Returns (r', ss', s', frames) ∧
    refs_counted (λ _, 0) (reg_entries r') s' ∧
    cursor_at ss' "brenn:room" (mkKey "bar" "in") = Some (mkCursor 1 2) ∧
    cursor_at ss' "local:bar" (mkKey "bar" "in") = None.
Proof.
  destruct (reconcile_agrees_with_the_wiring _ _ _ _ _ _ _ _ demo_applies demo_wireable) as (r'&ss'&s'&fs&Hr&_&_&Hc&_&_&Hcur).
  exists r', ss', s', fs. split; [exact Hr|]. split; [exact Hc|]. rewrite !Hcur. split; vm_compute; reflexivity.
Defined.

Lemma register_then_deregister_gives_everything_back_witness :
  ∃ r1 ss1 s1 fs1 r2 ss2 s2 fs2,
    register (mkRegistrations ∅ 0) "bar" (Some demo_applied) demo_stores subs_new = Returns (r1, ss1, s1, fs1) ∧
    deregister r1 "bar" ss1 s1 = Returns (r2, ss2, s2, fs2) ∧ next_generation r2 = 1 ∧
    refcount_of s2 "brenn:room" = 0 ∧ cursor_at ss2 "brenn:room" (mkKey "bar" "in") = None.
Proof.
  destruct (register_then_deregister_gives_everything_back _ _ _ _ (λ _, 0) (mkRegistrations ∅ 0) demo_stores subs_new "bar"
    demo_applies (lookup_empty _) (map_imap_empty _) demo_wireable) as (r1&ss1&s1&fs1&r2&ss2&s2&fs2&H1&H2&_&H3&_&H4&H5&_).
  exists r1, ss1, s1, fs1, r2, ss2, s2, fs2. split; [exact H1|]. split; [exact H2|]. split; [exact H3|].
  split; [exact (H4 "brenn:room")|]. exact (H5 "brenn:room" (mkKey "bar" "in") eq_refl).
Defined.

Lemma wired_instance_always_assembles_witness :
  ∃ r' ss1 s1 frames, reconcile demo_regs demo_applied demo_stores subs_new = Returns (r', ss1, s1, frames) ∧
    ∃ sc' ss2 ra,
      assemble_windows (mkSchedules {["bar" := mkSchedule None Owed 0 ∅ ∅ 0 0]} None) "bar" 0 None
        (mkCtx demo_applied ss1 (router_new 0) ∅ 1000 50) = Returns (sc', ss2, ra) ∧
      in_flight sc' "bar" = true ∧ Activation.port <$> ports (ra_activation ra) = ["in"%string].
Proof.
  destruct (wired_instance_always_assembles _ _ _ _ (λ _, 0) demo_regs demo_stores subs_new
    (mkSchedules {["bar" := mkSchedule None Owed 0 ∅ ∅ 0 0]} None) "bar" (mkRegistration 0 [] false) (mkSchedule None Owed 0 ∅ ∅ 0 0)
    0 None (router_new 0) ∅ 1000 50 demo_applies demo_wireable demo_sound (lookup_insert_eq _ _ _) eq_refl)
    as (r'&ss1&s1&fs&Hr&sc'&ss2&ra&Ha&Hf&_&_&Hp&_).
  - vm_compute. reflexivity.
  - vm_compute. reflexivity.
  - reflexivity.
  - split; [|intros c; vm_compute; discriminate]. intros o Ho Hl. exfalso. revert Ho Hl.
    change (outputs_of demo_applied "bar") with [mkOutputBinding "brenn:room" "bar" "out" Normal 1000 4000].
    by intros ->%list_elem_of_singleton.
  - split; [vm_compute; discriminate|].
    change (outputs_of demo_applied "bar") with [mkOutputBinding "brenn:room" "bar" "out" Normal 1000 4000].
    intros o ->%list_elem_of_singleton. vm_compute. discriminate.
  - exists r', ss1, s1, fs. split; [exact Hr|]. exists sc', ss2, ra. split; [exact Ha|]. split; [exact Hf|]. rewrite Hp.
    vm_compute. reflexivity.
Defined.

Lemma undeclared_instance_is_run_and_unwinds_witness :
  ∃ sc', track schedules_new "ghost" true = Returns sc' ∧
    assemble sc' "ghost" 0 (mkCtx demo_applied demo_stores (router_new 0) ∅ 1000 50) =
      Panics "surface client: no declared port vocabulary for instance".
Proof.
  destruct (undeclared_instance_is_run_and_unwinds _ _ _ _ (mkRegistrations {["ghost" := mkRegistration 0 [] false]} 1) demo_stores
    schedules_new "ghost" (mkRegistration 0 [] false) 0 (mkCtx demo_applied demo_stores (router_new 0) ∅ 1000 50) demo_applies)
    as (sc'&Ht&_&_&Hp); [vm_compute; reflexivity|reflexivity|reflexivity|reflexivity|reflexivity|].
  exists sc'. split; [exact Ht|exact Hp].
Defined.

(** Both instances registered and owed their mount, and the two turns that follow. *)
Definition demo_both : Registrations :=
  mkRegistrations (<["clock" := mkRegistration 1 [] false]> (reg_entries demo_regs)) 2.
Definition demo_wired : SurfaceStores N Z :=
  (result_of (demo_both, demo_stores, subs_new, []) (reconcile demo_both demo_applied demo_stores subs_new)).1.1.2.
Definition demo_start : Schedules :=
  mkSchedules (<["bar" := mkSchedule None Owed 0 ∅ ∅ 0 0]> (<["clock" := mkSchedule None Owed 0 ∅ ∅ 0 0]> ∅)) None.
Definition demo_nothing : @ReadyActivation N :=
  mkReady "" 0 (mkActivation [] [] None None) (buffer_new ∅ ∅ ∅ 0 ∅) no_verdicts.
Definition demo_step sc (ss : SurfaceStores N Z) (i : string) : Schedules * SurfaceStores N Z * @ReadyActivation N :=
  result_of (sc, ss, demo_nothing) (assemble sc i 0 (mkCtx demo_applied ss (router_new 0) ∅ 1000 50)).
Definition demo_turn sc (ss : SurfaceStores N Z) (i : string) : @turn N Z :=
  mkTurn sc demo_both ss None (demo_step sc ss i).1.1 (demo_step sc ss i).2.
Definition demo_first : @turn N Z := demo_turn demo_start demo_wired "bar".
Definition demo_second : @turn N Z := demo_turn (tn_sc' demo_first) (demo_step demo_start demo_wired "bar").1.2 "clock".

Lemma demo_taken sc ss i x :
  returned (assemble sc i 0 (mkCtx demo_applied ss (router_new 0) ∅ 1000 50)) = true →
  ready sc demo_both ss = Some i → could_run sc demo_both ss x → taken (P := N) x (demo_turn sc ss i).
Proof.
  intros Hret Hready Hx. split; [done|].
  exists i, 0, (mkCtx demo_applied ss (router_new 0) ∅ 1000 50), (demo_step sc ss i).1.2. split; [done|]. simpl.
  rewrite (returned_result (sc, ss, demo_nothing) _ Hret). unfold demo_step. by destruct (result_of _ _) as [[? ?] ?].
Qed.

Lemma demo_tracked sc i : address_order (sc_instances sc) = ["bar"; "clock"]%string → is_Some (sc_instances sc !! i) → i ∈ ["bar"; "clock"]%string.
Proof. intros <- Hi. by apply elem_of_address_order. Qed.

Lemma demo_could_run sc (ss : SurfaceStores N Z) i :
  bool_decide (i ∈ runnable sc demo_both) = true → is_ready_now sc ss i = true → could_run sc demo_both ss i.
Proof. intros ?%bool_decide_eq_true ?. by split. Qed.

Lemma rotation_starves_no_one_witness :
  "clock"%string ∈ ra_instance ∘ tn_ready <$> [demo_first; demo_second].
Proof.
  apply (rotation_starves_no_one (P := N) ["bar"; "clock"]%string "clock" None [demo_first; demo_second]).
  - split; [reflexivity|]. split; [intros i; apply demo_tracked; vm_compute; reflexivity|].
    split; [apply demo_taken; [..|apply demo_could_run]; vm_compute; reflexivity|].
    split; [reflexivity|]. split; [intros i; apply demo_tracked; vm_compute; reflexivity|].
    split; [apply demo_taken; [..|apply demo_could_run]; vm_compute; reflexivity|]. exact I.
  - right. left.
  - vm_compute. lia.
Defined.

(** *** Calls set the rotation back *)

(** Three components, the first of which calls the third. *)
Definition three_document : BindingsDocument :=
  mkDocument 5
    [mkComponent "bar" "protobar" 4 [] [] [] ["ask"]%string ∅; mkComponent "clock" "clock" 4 [] [] [] [] ∅;
     mkComponent "zed" "zed" 4 [] [] ["press"]%string [] ∅]
    [] [] [mkCallBinding "bar" "ask" "zed" "press"] []
    "bar" (mkPlatform "brenn:geometry" "brenn:status" 60 None None).
Definition three_applied : AppliedBindings :=
  match apply_document 4294967295 "body" (Some three_document) with
  | Returns (Ok a) => a | _ => mkApplied "" three_document ∅ ∅ ∅ ∅ ∅ ∅ ∅ ∅ end.
Definition three_regs : Registrations :=
  mkRegistrations (<["bar" := mkRegistration 0 [] false]> (<["clock" := mkRegistration 1 [] false]>
    (<["zed" := mkRegistration 2 [] false]> ∅))) 3.
Definition three_cx : @ActivationCtx N Z N := mkCtx three_applied (mkStores 7 ∅) (router_new 0) ∅ 1000 50.
(** All three owed their mount, resuming after [last]. *)
Definition three_start (last : string) : Schedules :=
  mkSchedules (<["bar" := mkSchedule None Owed 0 ∅ ∅ 0 0]> (<["clock" := mkSchedule None Owed 0 ∅ ∅ 0 0]>
    (<["zed" := mkSchedule None Owed 0 ∅ ∅ 0 0]> ∅))) (Some last).
Definition three_request : MessageEnvelope N Z :=
  mkEnvelope 1 "page" "press" "bar" 0%Z "ring" None None None None Normal Brenn.
Definition three_turn : @turn N Z :=
  let '(sc', _, ra) := result_of (three_start "zed", mkStores 7 ∅, demo_nothing) (assemble (three_start "zed") "bar" 0 three_cx) in
  mkTurn (three_start "zed") three_regs (mkStores 7 ∅) None sc' ra.
Definition three_call : @turn N Z :=
  let '(sc', _, ra) := result_of (three_start "bar", mkStores 7 ∅, demo_nothing)
    (assemble_sync (three_start "bar") "zed" 2 "press" three_request three_cx) in
  mkTurn (three_start "bar") three_regs (mkStores 7 ∅) (Some ("press"%string, three_request)) sc' ra.
Fixpoint three_rounds (n : nat) : list (@turn N Z) :=
  match n with 0%nat => [] | S n => three_turn :: three_call :: three_rounds n end.

(** The bound cannot drop its calls: a component that answers a call after each turn of another
    keeps the one between them, ready all along, from ever being handed out. *)
Theorem calls_starve_a_ready_instance n :
  dispatching (P := N) ["bar"; "clock"; "zed"]%string "clock" (Some "zed"%string) (three_rounds n) ∧
  dispatches_in (three_rounds n) = n ∧ "clock"%string ∉ ra_instance ∘ tn_ready <$> three_rounds n.
Proof.
  assert (Htr : ∀ last i, is_Some (sc_instances (three_start last) !! i) → i ∈ ["bar"; "clock"; "zed"]%string).
  { intros last i Hi. apply elem_of_address_order in Hi.
    replace (address_order (sc_instances (three_start last))) with ["bar"; "clock"; "zed"]%string in Hi; [done|].
    vm_compute. reflexivity. }
  induction n as [|n (Hd&Hn&Hx)]; [split; [done|split; [done|apply not_elem_of_nil]]|].
  cbn [three_rounds]. split_and!.
  - split; [reflexivity|]. split; [apply (Htr "zed"%string)|]. split.
    { split; [split; [by apply (bool_decide_unpack _); vm_compute|vm_compute; reflexivity]|].
      exists "bar"%string, 0, three_cx, (mkStores 7 ∅). split; vm_compute; reflexivity. }
    split; [reflexivity|]. split; [apply (Htr "bar"%string)|]. split; [|exact Hd].
    exists "zed"%string, 2, three_cx, (mkStores 7 ∅). vm_compute. reflexivity.
  - unfold dispatches_in in *. rewrite !filter_cons. change (is_call three_turn) with false. change (is_call three_call) with true.
    repeat case_decide; try done. cbn [length]. by rewrite Hn.
  - rewrite !fmap_cons, !not_elem_of_cons. split; [by vm_compute|]. split; [by vm_compute|done].
Qed.
End PageProps.
