(* ===== verification/Completion.v ===== *)
(** * What a page writes ([surface/kernel/src/outbound.rs], [flush.rs])

    [Outbound] is the surface's outbound side: port publishes, reports and telemetry with
    their answers, and the per-instance outboxes with the gate a flush passes before it is
    offered the wire. [Completion] commits, discards or kills an activation. The length of a
    frame's JSON is the class [FrameJson], the body of an error report the class
    [ReportJson]. *)

From S2P Require Import Prelude Envelope Ring Cursor Deferred RingCore Budget Activation Proto Subs AttachStore Conn Publish Router Text Grants Buffer Wiring Page.

#[local] Open Scope string_scope.
#[local] Open Scope N_scope.
#[local] Open Scope list_scope.

(** [serde_json::to_string(&frame).len()]. *)
Class FrameJson (Uuid : Type) := frame_json_len : Proto.ClientFrame Uuid → N.
(** [ErrorReportDocument::to_body], of a source, a message and a level. *)
Class ReportJson := report_to_body : string → string → Wiring.LogLevel → string.

Module Outbound.
Import Envelope Proto Conn Publish Buffer Wiring.

(** [PLATFORM_URGENCY]. *)
Definition PLATFORM_URGENCY : Urgency := Normal.
(** [MAX_LOG_MESSAGE_BYTES]. *)
Definition MAX_LOG_MESSAGE_BYTES : N := 4 * 1024.
(** [MAX_LOG_SOURCE_BYTES]. *)
Definition MAX_LOG_SOURCE_BYTES : N := 256.

(** [PublishStatus]. *)
Inductive PublishStatus :=
| StatusOk
| StatusRateLimited
| StatusBodyTooLarge (length max : N)
| StatusUnboundPort
| StatusNotConnected
| StatusConnectionLost
| StatusFailed
| StatusRefused.

(** [PublishCheckReject]. *)
Inductive PublishCheckReject := RejectNotConnected | RejectUnboundPort | RejectBodyTooLarge (length max : N).

(** [PublishStatus::from], of a rejection. *)
Definition status_of_reject (r : PublishCheckReject) : PublishStatus :=
  match r with
  | RejectNotConnected => StatusNotConnected
  | RejectUnboundPort => StatusUnboundPort
  | RejectBodyTooLarge l m => StatusBodyTooLarge l m
  end.

(** [check_publish]; [output_bound] is asked only of a reachable port. *)
Definition check_publish (reachable : bool) (output_bound : unit → bool) (body_len max_body_bytes : N)
    : result unit PublishCheckReject :=
  if negb reachable then Err RejectNotConnected
  else if negb (output_bound ()) then Err RejectUnboundPort
  else if max_body_bytes <? body_len then Err (RejectBodyTooLarge body_len max_body_bytes)
  else Ok ().

(** [PortPublish]. *)
Record PortPublish := mkPortPublish {
  pp_instance : string;
  pp_port : string;
  pp_body : string;
  pp_urgency : option Urgency;
  pp_correlation : N;
}.

(** [ResolvedOutput]. *)
Record ResolvedOutput := mkResolved { ro_channel : string; ro_urgency : Urgency }.

(** [resolve_output]. *)
Definition resolve_output (a : AppliedBindings) (instance port : string) (u : option Urgency) : panics (option ResolvedOutput) :=
  b ← applied_output a instance port;
  Returns ((λ b, mkResolved (o_channel b) (default (o_urgency b) u)) <$> (b : option OutputBinding)).

(** [publishes_on]. *)
Definition publishes_on (a : AppliedBindings) (instance channel : string) : bool :=
  existsb (λ b, bool_decide (o_channel b = channel)) (outputs_of a instance).

(** [ErrorReport]. *)
Record ErrorReport := mkErrorReport {
  er_level : LogLevel;
  er_source : string;
  er_message : string;
  er_subject : option string;
}.

(** [LostFlush]. *)
Record LostFlush (Uuid : Type) := mkLost { lf_instance : string; lf_batch : FlushBatch Uuid }.
Arguments mkLost {Uuid}.
Arguments lf_instance {Uuid}.
Arguments lf_batch {Uuid}.

(** [TelemetryKind]. *)
Inductive TelemetryKind := Geometry | Status.

(** [TelemetryKind::channel]. *)
Definition telemetry_channel (k : TelemetryKind) (a : AppliedBindings) : string :=
  match k with
  | Geometry => p_geometry_channel (d_platform (a_doc a))
  | Status => p_status_channel (d_platform (a_doc a))
  end.

(** [PublishTag]. *)
Inductive PublishTag :=
| TagPort (instance port : string) (correlation : N)
| TagErrorReport
| TagTelemetry (kind : TelemetryKind).

(** [PublishAnswer]. *)
Inductive PublishAnswer :=
| AnswerPort (instance port : string) (correlation : N) (status : PublishStatus)
| AnswerTelemetryDropped (kind : TelemetryKind) (outcome : PublishOutcome).

(** [SurfaceOutbound]. *)
Record SurfaceOutbound (Uuid : Type) := mkOutbound {
  ob_pending : gmap N PublishTag;
  ob_outboxes : Outboxes Uuid string;
  ob_next_correlation : N;
  ob_telemetry_dropped : N;
}.
Arguments mkOutbound {Uuid}.
Arguments ob_pending {Uuid}.
Arguments ob_outboxes {Uuid}.
Arguments ob_next_correlation {Uuid}.
Arguments ob_telemetry_dropped {Uuid}.

(** The order of [LogLevel]: ascending severity. *)
Definition level_rank (l : LogLevel) : N :=
  match l with Trace => 0 | Debugging => 1 | Info => 2 | Warn => 3 | ErrorLevel => 4 end.

(** [publish_status]. *)
Definition publish_status (o : PublishOutcome) : PublishStatus :=
  match o with
  | PublishOk => StatusOk
  | RateLimited => StatusRateLimited
  | BodyTooLarge l m => StatusBodyTooLarge l m
  | Failed => StatusFailed
  end.

Section outbound.
Context {Uuid : Type} `{FrameJson Uuid, ReportJson}.
Implicit Types (o : SurfaceOutbound Uuid) (b : FlushBatch Uuid) (a : AppliedBindings).

Definition with_outboxes o (x : Outboxes Uuid string) : SurfaceOutbound Uuid :=
  mkOutbound (ob_pending o) x (ob_next_correlation o) (ob_telemetry_dropped o).

(** [SurfaceOutbound::default]. *)
Definition outbound_new : SurfaceOutbound Uuid := mkOutbound ∅ outboxes_new 0 0.

(** [SurfaceOutbound::send]. *)
Definition outbound_send o (tag : PublishTag) (request : PublishRequest) : panics (SurfaceOutbound Uuid * ClientFrame Uuid) :=
  let correlation := ob_next_correlation o in
  '(p, frame) ← Publish.send (ob_pending o) correlation tag request;
  Returns (mkOutbound p (ob_outboxes o) (u64_add correlation 1) (ob_telemetry_dropped o), frame).

(** [SurfaceOutbound::publish_port]. *)
Definition publish_port o (out : ResolvedOutput) (req : PortPublish) : panics (SurfaceOutbound Uuid * ClientFrame Uuid) :=
  outbound_send o (TagPort (pp_instance req) (pp_port req) (pp_correlation req))
    (mkRequest (ro_channel out) (Some (pp_instance req)) (pp_body req) (ro_urgency out)).

(** [SurfaceOutbound::report]. *)
Definition outbound_report o a (report : ErrorReport) : panics (SurfaceOutbound Uuid * option (ClientFrame Uuid)) :=
  let platform := d_platform (a_doc a) in
  match p_error_channel platform with
  | None => Returns (o, None)
  | Some channel =>
      floor ← rust_expect (p_error_report_floor platform) "surface client: an error channel states a floor";
      if level_rank (er_level report) <? level_rank floor then Returns (o, None)
      else
        source ← truncate_report_field (er_source report) MAX_LOG_SOURCE_BYTES;
        message ← truncate_report_field (er_message report) MAX_LOG_MESSAGE_BYTES;
        '(o, frame) ← outbound_send o TagErrorReport
          (mkRequest channel (er_subject report) (report_to_body source message (er_level report)) PLATFORM_URGENCY);
        Returns (o, Some frame)
  end.

(** [SurfaceOutbound::publish_telemetry]. *)
Definition publish_telemetry o a (kind : TelemetryKind) (body : string) : panics (SurfaceOutbound Uuid * ClientFrame Uuid) :=
  outbound_send o (TagTelemetry kind) (mkRequest (telemetry_channel kind a) None body PLATFORM_URGENCY).

(** [SurfaceOutbound::on_publish_result]. *)
Definition on_publish_result o (correlation : option N) (outcome : PublishOutcome)
    : SurfaceOutbound Uuid * result (option PublishAnswer) string :=
  let '(p, r) := Publish.on_result (ob_pending o) correlation in
  let o := mkOutbound p (ob_outboxes o) (ob_next_correlation o) (ob_telemetry_dropped o) in
  match r with
  | Err e => (o, Err e)
  | Ok (TagPort instance port c) => (o, Ok (Some (AnswerPort instance port c (publish_status outcome))))
  | Ok TagErrorReport => (o, Ok None)
  | Ok (TagTelemetry kind) =>
      match outcome with
      | PublishOk => (o, Ok None)
      | RateLimited | BodyTooLarge _ _ =>
          (mkOutbound p (ob_outboxes o) (ob_next_correlation o) (u64_add (ob_telemetry_dropped o) 1),
           Ok (Some (AnswerTelemetryDropped kind outcome)))
      | Failed => (o, Err "PublishResult refused a document the wiring names")
      end
  end.

(** [SurfaceOutbound::fail_pending]. *)
Definition fail_pending o : SurfaceOutbound Uuid * list PublishAnswer :=
  let '(p, failed) := Publish.fail_all (ob_pending o) in
  (mkOutbound p (ob_outboxes o) (ob_next_correlation o) (ob_telemetry_dropped o),
   omap (λ x : N * PublishTag, match x.2 with
     | TagPort instance port c => Some (AnswerPort instance port c StatusConnectionLost)
     | TagErrorReport | TagTelemetry _ => None
     end) failed).

(** [SurfaceOutbound::is_registered]. *)
Definition outbound_is_registered o (instance : string) : bool :=
  bool_decide (is_Some (registrants (ob_outboxes o) !! instance)).

(** [SurfaceOutbound::register]. *)
Definition outbound_register o (instance : string) a : panics (SurfaceOutbound Uuid) :=
  c ← component a instance;
  entry ← rust_expect c "surface client: no component entry for registered instance";
  x ← Publish.register (ob_outboxes o) instance (Some instance) (ce_parked_batch_depth entry);
  Returns (with_outboxes o x).

(** [SurfaceOutbound::deregister]. *)
Definition outbound_deregister o (instance : string) : panics (SurfaceOutbound Uuid * list (FlushBatch Uuid)) :=
  if negb (outbound_is_registered o instance) then Returns (o, [])
  else '(x, lost) ← Publish.deregister (ob_outboxes o) instance; Returns (with_outboxes o x, lost).

(** The closing loop of [reconcile]. *)
Definition close_stale o (stale : list string) : panics (SurfaceOutbound Uuid * list (LostFlush Uuid)) :=
  foldl (λ acc instance,
    '(o, lost) ← acc;
    '(x, batches) ← Publish.deregister (ob_outboxes o) instance;
    Returns (with_outboxes o x, lost ++ (mkLost instance <$> batches))) (Returns (o, [])) stale.

(** Its opening loop. *)
Definition open_missing o a (registered : list string) : panics (SurfaceOutbound Uuid) :=
  foldl (λ acc instance,
    o ← acc;
    if negb (outbound_is_registered o instance) && is_declared_instance a instance then outbound_register o instance a
    else Returns o) (Returns o) registered.

(** [SurfaceOutbound::reconcile]. *)
Definition outbound_reconcile o a (registered : list string) : panics (SurfaceOutbound Uuid * list (LostFlush Uuid)) :=
  let stale := filter (λ open, open ∉ registered) (keys str_le (ob_outboxes o)) in
  '(o, lost) ← close_stale o stale;
  o ← open_missing o a registered;
  Returns (o, lost).

(** [FlushBatch::frame_bytes]. *)
Definition frame_bytes b (attribution : option string) : N :=
  frame_json_len (PublishBatch attribution u64_max (batch_entries b) (batch_ops b)).

(** [fits_the_caps]. *)
Definition fits_the_caps (instance : string) b (facts : AttachmentFacts) : bool :=
  match check_batch_legality (batch_entries b) (batch_ops b) (fact_max_body_bytes facts) with
  | Ok _ => frame_bytes b (Some instance) <=? fact_max_frame_bytes facts
  | Err _ => false
  end.

(** [survives]. *)
Definition survives a (instance : string) b (facts : option AttachmentFacts) : bool :=
  forallb (λ e, publishes_on a instance (entry_channel e)) (batch_entries b) &&
  forallb (λ op, publishes_on a instance (Proto.op_channel op)) (batch_ops b) &&
  match facts with Some facts => fits_the_caps instance b facts | None => true end.

(** [SurfaceOutbound::flush]. *)
Definition outbound_flush o a (facts : option AttachmentFacts) (instance : string) b (now : N)
    : panics (SurfaceOutbound Uuid * OutboxSteps Uuid string) :=
  '(x, steps) ← (if negb (survives a instance b facts) then refuse_flush (ob_outboxes o) instance now
                 else Publish.flush (ob_outboxes o) instance b now);
  Returns (with_outboxes o x, steps).

(** [SurfaceOutbound::discard_parked]. *)
Definition outbound_discard_parked o (instance : string) (now : N) : panics (SurfaceOutbound Uuid * Discarded) :=
  '(x, d) ← Publish.discard_parked (ob_outboxes o) instance now; Returns (with_outboxes o x, d).

(** [SurfaceOutbound::on_attached]. *)
Definition outbound_on_attached o a (facts : AttachmentFacts) (now : N) : panics (SurfaceOutbound Uuid * OutboxSteps Uuid string) :=
  '(x, steps) ← Publish.on_attached str_le (ob_outboxes o) (fact_max_body_bytes facts) now
                  (λ instance b, survives a instance b (Some facts));
  Returns (with_outboxes o x, steps).

(** [SurfaceOutbound::on_detached]. *)
Definition outbound_on_detached o : SurfaceOutbound Uuid * OutboxSteps Uuid string :=
  let '(x, steps) := Publish.on_detached (ob_outboxes o) in (with_outboxes o x, steps).

(** [SurfaceOutbound::on_batch_result]. *)
Definition outbound_on_batch_result o (correlation : N) (outcome : PublishBatchOutcome) (now : N)
    : panics (SurfaceOutbound Uuid * result (BatchAnswer Uuid string) string) :=
  '(x, r) ← Publish.on_batch_result (ob_outboxes o) correlation outcome now; Returns (with_outboxes o x, r).

(** [SurfaceOutbound::on_retry_tick]. *)
Definition outbound_on_retry_tick o (now : N) : panics (SurfaceOutbound Uuid * OutboxSteps Uuid string) :=
  '(x, steps) ← Publish.on_retry_tick str_le (ob_outboxes o) now; Returns (with_outboxes o x, steps).

(** [SurfaceOutbound::dropped_count], [SurfaceOutbound::rate_limited_count]. *)
Definition outbound_dropped_count o (instance : string) : N := dropped_count (ob_outboxes o) instance.
Definition outbound_rate_limited_count o (instance : string) : N := rate_limited_count (ob_outboxes o) instance.
End outbound.
End Outbound.

Module Completion.
Import Envelope Proto Conn Store Publish Router Buffer Wiring Outbound Registrations Schedules.

Section completion.
Context {Uuid DateTime P : Type} `{EqDecision Uuid, Chrono DateTime, FrameJson Uuid}.
Context `{!PlanePolicy P Uuid DateTime}.

(** [FlushCtx]. *)
Record FlushCtx := mkFlushCtx {
  fc_bindings : AppliedBindings;
  fc_facts : option AttachmentFacts;
  fc_stores : SurfaceStores Uuid DateTime;
  fc_router : LocalRouter P;
  fc_outbound : SurfaceOutbound Uuid;
  fc_registrations : Registrations;
  fc_schedules : Schedules;
  fc_now_ms : N;
  fc_now : N;
}.

(** [PlaneRefusal]. *)
Record PlaneRefusal := mkRefusal { rf_port : string; rf_channel : string; rf_reason : string }.

(** [FlushReport]. *)
Record FlushReport := mkFlushReport {
  fr_steps : OutboxSteps Uuid string;
  fr_drops : DropVerdicts;
  fr_refusals : list PlaneRefusal;
}.

(** [FlushReport::default]. *)
Definition report_new : FlushReport := mkFlushReport (mkSteps [] [] None) no_verdicts [].

(** [Killed]. *)
Record Killed := mkKilled { k_first : bool; k_discarded : N; k_retry_wakeup : option TimerChange }.

(** Field updates. *)
Definition with_ctx_stores (c : FlushCtx) (ss : SurfaceStores Uuid DateTime) : FlushCtx :=
  mkFlushCtx (fc_bindings c) (fc_facts c) ss (fc_router c) (fc_outbound c) (fc_registrations c) (fc_schedules c) (fc_now_ms c) (fc_now c).
Definition with_ctx_router (c : FlushCtx) (r : LocalRouter P) : FlushCtx :=
  mkFlushCtx (fc_bindings c) (fc_facts c) (fc_stores c) r (fc_outbound c) (fc_registrations c) (fc_schedules c) (fc_now_ms c) (fc_now c).
Definition with_ctx_outbound (c : FlushCtx) (o : SurfaceOutbound Uuid) : FlushCtx :=
  mkFlushCtx (fc_bindings c) (fc_facts c) (fc_stores c) (fc_router c) o (fc_registrations c) (fc_schedules c) (fc_now_ms c) (fc_now c).
Definition with_ctx_registrations (c : FlushCtx) (r : Registrations) : FlushCtx :=
  mkFlushCtx (fc_bindings c) (fc_facts c) (fc_stores c) (fc_router c) (fc_outbound c) r (fc_schedules c) (fc_now_ms c) (fc_now c).
Definition with_ctx_schedules (c : FlushCtx) (s : Schedules) : FlushCtx :=
  mkFlushCtx (fc_bindings c) (fc_facts c) (fc_stores c) (fc_router c) (fc_outbound c) (fc_registrations c) s (fc_now_ms c) (fc_now c).
Definition with_report_refusal (rep : FlushReport) (x : PlaneRefusal) : FlushReport :=
  mkFlushReport (fr_steps rep) (fr_drops rep) (fr_refusals rep ++ [x]).
Definition with_report_drops (rep : FlushReport) (v : DropVerdicts) : FlushReport :=
  mkFlushReport (fr_steps rep) (merge (fr_drops rep) v) (fr_refusals rep).

(** One op of [apply_confined_ops]. *)
Definition apply_confined_op (instance : string) (s : FlushCtx * FlushReport) (op : BufferedDeferOp Uuid)
    : panics (FlushCtx * FlushReport) :=
  let '(ctx, rep) := s in
  '(ss, answer) ← apply_op (fc_router ctx) (fc_stores ctx)
    (mkOpRequest (bo_channel op) (Sub instance) (bo_message_id op) (bo_kind op) (fc_now_ms ctx));
  let ctx := with_ctx_stores ctx ss in
  match answer with
  | AnswerApplied => Returns (ctx, rep)
  | AnswerNotParked _ => Returns (with_ctx_schedules ctx (count_deferred_race (fc_schedules ctx) instance), rep)
  | AnswerRefused reason => Returns (ctx, with_report_refusal rep (mkRefusal (bo_port op) (bo_channel op) reason))
  end.

(** [apply_confined_ops]. *)
Definition apply_confined_ops (instance : string) (s : FlushCtx * FlushReport) (ops : list (BufferedDeferOp Uuid))
    : panics (FlushCtx * FlushReport) :=
  foldl (λ acc op, s ← acc; apply_confined_op instance s op) (Returns s) ops.

(** One entry of [route_publishes]. *)
Definition route_publish (instance : string) (s : FlushCtx * FlushReport * list BatchEntry)
    (x : BufferedPublish * MessageStamp Uuid DateTime) : panics (FlushCtx * FlushReport * list BatchEntry) :=
  let '(ctx, rep, entries) := s in
  let '(e, stamp) := x in
  t ← channel_is_transportable (bf_channel e);
  if (t : bool) then
    Returns (ctx, rep, entries ++ [mkEntry (bf_channel e) (bf_body e) (bf_urgency e) (bf_deliver_after e)])
  else
    '(r, ss, outcome) ← route (fc_router ctx) (fc_stores ctx)
      (mkRoute (bf_channel e) (Sub instance) (bf_body e) stamp (bf_urgency e) (bf_deliver_after e));
    let ctx := with_ctx_router (with_ctx_stores ctx ss) r in
    match outcome with
    | Routed overflow =>
        let '(sc, v) := charge_overflow (fc_schedules ctx) (fc_bindings ctx) (bf_channel e) overflow in
        Returns (with_ctx_schedules ctx sc, with_report_drops rep v, entries)
    | Parked _ => Returns (ctx, rep, entries)
    | ScheduleDropped _ => Returns (with_ctx_schedules ctx (count_deferred_drop (fc_schedules ctx) instance), rep, entries)
    | RouteRefused reason => Returns (ctx, with_report_refusal rep (mkRefusal (bf_port e) (bf_channel e) reason), entries)
    | NoIdentity => Panics "surface client: published before the page had an identity"
    end.

(** [route_publishes]. *)
Definition route_publishes (instance : string) (s : FlushCtx * FlushReport) (publishes : list BufferedPublish)
    (stamps : list (MessageStamp Uuid DateTime)) : panics (FlushCtx * FlushReport * list BatchEntry) :=
  foldl (λ acc x, s ← acc; route_publish instance s x) (Returns (s.1, s.2, [])) (zip publishes stamps).

(** The partition of [flush_ok]: the ops bound for the wire, and the confined ones. *)
Definition partition_ops (ops : list (BufferedDeferOp Uuid)) : panics (list (BufferedDeferOp Uuid) * list (BufferedDeferOp Uuid)) :=
  foldl (λ acc op,
    '(w, c) ← acc;
    t ← channel_is_transportable (bo_channel op);
    Returns (if (t : bool) then (w ++ [op], c) else (w, c ++ [op]))) (Returns ([], [])) ops.

(** [flush_ok]. *)
Definition flush_ok (ctx : FlushCtx) (instance : string) (buffer : PublishBuffer Uuid)
    (stamps : list (MessageStamp Uuid DateTime)) : panics (FlushCtx * FlushReport) :=
  flushed ← buffer_take buffer;
  _ ← rust_assert (len (bfl_publishes flushed) =? len stamps) "surface client: one envelope stamp per buffered publish";
  sc ← finish_ok (fc_schedules ctx) instance (bfl_carry flushed);
  let ctx := with_ctx_schedules ctx sc in
  '(wire_ops, confined_ops) ← partition_ops (bfl_defer_ops flushed);
  s ← apply_confined_ops instance (ctx, report_new) confined_ops;
  '(ctx, rep, entries) ← route_publishes instance s (bfl_publishes flushed) stamps;
  let batch := mkBatch entries (wire_op <$> wire_ops) in
  if negb (batch_is_empty batch) then
    '(o, steps) ← outbound_flush (fc_outbound ctx) (fc_bindings ctx) (fc_facts ctx) instance batch (fc_now ctx);
    Returns (with_ctx_outbound ctx o, mkFlushReport steps (fr_drops rep) (fr_refusals rep))
  else Returns (ctx, rep).

(** [discard_err]. *)
Definition discard_err (ctx : FlushCtx) (instance : string) (buffer : PublishBuffer Uuid) : panics FlushCtx :=
  sc ← finish_err (fc_schedules ctx) instance (into_carry buffer);
  Returns (with_ctx_schedules ctx sc).

(** [kill]. *)
Definition kill (ctx : FlushCtx) (instance : string) : panics (FlushCtx * Killed) :=
  '(r, ss, first) ← fail (fc_registrations ctx) instance (fc_stores ctx);
  let ctx := with_ctx_stores (with_ctx_registrations ctx r) ss in
  if negb (first : bool) then Returns (ctx, mkKilled false 0 None)
  else
    sc ← finish_terminal (fc_schedules ctx) instance;
    let ctx := with_ctx_schedules ctx sc in
    '(o, d) ← outbound_discard_parked (fc_outbound ctx) instance (fc_now ctx);
    Returns (with_ctx_outbound ctx o, mkKilled true (flushes d) (discarded_change d)).
End completion.
End Completion.
