(* ===== verification/Completing.v ===== *)
(** * What a completed activation commits

    Theorems about [Completion]: a flush is a run of the router over its confined half, in
    call order and its ops first, and one call of the outboxes over the other half; and a
    page whose contract has not moved never refuses its own flush. *)

From S2P Require Import Prelude Envelope Ring Cursor Deferred RingCore Budget Activation Proto Subs AttachStore Conn Publish Router Text Grants Buffer Wiring Page Paging Completion.

#[local] Open Scope string_scope.
#[local] Open Scope N_scope.
#[local] Open Scope list_scope.

Module Committed.
Import Envelope Activation Proto Conn Store Publish OutboxInv OutboxRun Router RouterRun Buffer BufferRun Wiring Outbound Registrations Schedules Completion.

Section committed.
Context {Uuid DateTime P : Type} `{EqDecision Uuid, Chrono DateTime, FrameJson Uuid}.
Context `{!PlanePolicy P Uuid DateTime}.
Implicit Types (ctx : @FlushCtx Uuid DateTime P) (rep : @FlushReport Uuid) (b : PublishBuffer Uuid).

(** The router's calls for a buffer's confined half: the ops, then the publishes, each in
    call order. *)
Definition op_event (instance : string) (now : N) (op : BufferedDeferOp Uuid) : RouterEvent Uuid DateTime :=
  EvApply (mkOpRequest (bo_channel op) (Sub instance) (bo_message_id op) (bo_kind op) now).
Definition publish_event (instance : string) (x : BufferedPublish * MessageStamp Uuid DateTime) : RouterEvent Uuid DateTime :=
  EvRoute (mkRoute (bf_channel x.1) (Sub instance) (bf_body x.1) x.2 (bf_urgency x.1) (bf_deliver_after x.1)).
Definition confined_ops (ops : list (BufferedDeferOp Uuid)) : list (BufferedDeferOp Uuid) :=
  filter (λ op, on_wire (bo_channel op) = false) ops.
Definition confined_publishes (l : list (BufferedPublish * MessageStamp Uuid DateTime)) : list (BufferedPublish * MessageStamp Uuid DateTime) :=
  filter (λ x, on_wire (bf_channel x.1) = false) l.
Definition confined_events (instance : string) (now : N) b (stamps : list (MessageStamp Uuid DateTime)) : list (RouterEvent Uuid DateTime) :=
  (op_event instance now <$> confined_ops (defer_ops b)) ++
  (publish_event instance <$> confined_publishes (zip (buf_entries b) stamps)).

(** The rest of a schedule, beside its counts. *)
Definition running (s : InstanceSchedule) : option InFlight * MountDebt * gmap string N :=
  (is_in_flight s, is_mount s, is_carry_mt s).
Definition same_running (sc sc' : Schedules) : Prop :=
  ∀ i, running <$> sc_instances sc' !! i = running <$> sc_instances sc !! i.

(** Everything of the context but its confined state and its schedules. *)
Definition same_page ctx ctx' : Prop :=
  fc_bindings ctx' = fc_bindings ctx ∧ fc_facts ctx' = fc_facts ctx ∧ fc_outbound ctx' = fc_outbound ctx ∧
  fc_registrations ctx' = fc_registrations ctx ∧ fc_now_ms ctx' = fc_now_ms ctx ∧ fc_now ctx' = fc_now ctx ∧
  same_running (fc_schedules ctx) (fc_schedules ctx').

#[export] Instance same_page_refl : Reflexive same_page.
Proof. intros ctx. by split_and!. Qed.

#[export] Instance same_page_trans : Transitive same_page.
Proof.
  intros x y z (H1&H2&H3&H4&H5&H6&H7) (G1&G2&G3&G4&G5&G6&G7). split_and!; congruence.
Qed.

Lemma alter_running sc i (f : InstanceSchedule → InstanceSchedule) :
  (∀ s, running (f s) = running s) → same_running sc (with_instances sc (alter f i (sc_instances sc))).
Proof.
  intros Hf j. simpl. destruct (decide (i = j)) as [<-|Hne]; [|by rewrite lookup_alter_ne].
  rewrite lookup_alter_eq. destruct (sc_instances sc !! i); simpl; by rewrite ?Hf.
Qed.

Lemma enact_running sc i cs : same_running sc (enact_charges sc i cs).1.
Proof.
  intros j. pose proof (Ladder.en_tracked _ _ _ _ _ (Ladder.enact_charges_enacted i sc cs) j) as Ht.
  destruct (sc_instances (enact_charges sc i cs).1 !! j) as [s|], (sc_instances sc !! j) as [s'|]; [|done|done|done]. simpl in Ht |- *.
  injection Ht as H1 H2 H3 H4 H5 H6. unfold running. congruence.
Qed.

Lemma charge_running sc a channel over : same_running sc (charge_overflow sc a channel over).1.
Proof.
  unfold charge_overflow. generalize (merge_sort key_le over) as l, no_verdicts as v. intros l. revert sc.
  induction l as [|o l IH]; intros sc v; [by intros i|]. cbn [foldl].
  destruct (binding_noise a _ _) as [noise|]; [|apply IH].
  destruct (enact_charges sc _ _) as [sc1 v1] eqn:He. intros j. rewrite IH.
  pose proof (enact_running sc (bk_instance (Core.subscriber o)) [mkCharge (bk_port (Core.subscriber o)) channel noise (Core.evicted o)
    (if noise_ge noise Envelope.Fatal then Core.evicted o else 0)] j) as Hr. rewrite He in Hr. exact Hr.
Qed.

(** One op, as one call of the router. *)
Lemma apply_confined_op_run i ctx rep op r ss :
  router_step (fc_router ctx, fc_stores ctx) (op_event i (fc_now_ms ctx) op) = Returns (r, ss) →
  ∃ ctx' rep', apply_confined_op i (ctx, rep) op = Returns (ctx', rep') ∧ fr_steps rep' = fr_steps rep ∧
    fc_router ctx' = r ∧ fc_router ctx' = fc_router ctx ∧ fc_stores ctx' = ss ∧ same_page ctx ctx'.
Proof.
  unfold apply_confined_op. simpl. destruct (apply_op _ _ _) as [[ss' answer]|]; [|done]. simpl. intros [= <- <-].
  destruct answer as [|da|reason]; eexists _, _; (split; [done|]); unfold same_page; (split_and!; try done).
  by apply alter_running.
Qed.

Lemma apply_confined_ops_run i ops ctx rep r ss :
  router_run (fc_router ctx, fc_stores ctx) (op_event i (fc_now_ms ctx) <$> ops) = Returns (r, ss) →
  ∃ ctx' rep', apply_confined_ops i (ctx, rep) ops = Returns (ctx', rep') ∧ fr_steps rep' = fr_steps rep ∧
    fc_router ctx' = r ∧ fc_router ctx' = fc_router ctx ∧ fc_stores ctx' = ss ∧ same_page ctx ctx'.
Proof.
  revert ctx rep. induction ops as [|op ops IH]; intros ctx rep; cbn [fmap list_fmap router_run].
  { intros [= <- <-]. by exists ctx, rep. }
  destruct (router_step _ _) as [[r1 ss1]|] eqn:Hs; [|done]. cbn [mbind panics_bind]. intros Hrun.
  destruct (apply_confined_op_run i ctx rep op r1 ss1 Hs) as (ctx1&rep1&H1&Hrep1&Hr1&Hsame1&Hss1&Hp1).
  pose proof Hp1 as (_&_&_&_&Hms&_&_). rewrite <- Hr1, <- Hss1, <- Hms in Hrun.
  destruct (IH ctx1 rep1 Hrun) as (ctx2&rep2&H2&Hrep2&Hr2&Hsame2&Hss2&Hp2).
  exists ctx2, rep2. unfold apply_confined_ops in *. cbn [foldl mbind panics_bind]. rewrite H1.
  split_and!; [done|congruence|done|congruence|done|by etrans].
Qed.

Lemma route_keeps_principal (r r' : LocalRouter P) (ss ss' : SurfaceStores Uuid DateTime) req o :
  route r ss req = Returns (r', ss', o) → principal r' = principal r ∧ (is_Some (principal r) → o ≠ NoIdentity).
Proof.
  unfold route. destruct (rust_assert (is_local_channel _) _); [|done]. cbn [mbind panics_bind].
  destruct (rust_assert _ _); [|done]. cbn [mbind panics_bind]. destruct (principal r) as [p|] eqn:Hp.
  2: { intros [= <- <- <-]. split; [done|]. by intros [? ?]. }
  destruct (guard _ _ _ _) as [[|]|]; cbn [mbind panics_bind]; [|by intros [= <- <- <-]|done]. destruct (still_ahead req) as [[t|]|]; [| |done]; cbn [mbind panics_bind].
  - destruct (store_for ss _); [|done]. cbn [mbind panics_bind]. destruct (store_park _ _ _ _) as [? []]; by intros [= <- <- <-].
  - destruct (observe _ _); [|done]. cbn [mbind panics_bind].
    destruct (store_for ss _); [|done]. cbn [mbind panics_bind]. destruct (append_minted _ _) as [[st' over]|]; [|done].
    by intros [= <- <- <-].
Qed.

(** One confined publish, as one call of the router. *)
Lemma route_publish_run i ctx rep entries x r ss :
  surface_bindable_address (bf_channel x.1) = true → on_wire (bf_channel x.1) = false → is_Some (principal (fc_router ctx)) →
  router_step (fc_router ctx, fc_stores ctx) (publish_event i x) = Returns (r, ss) →
  ∃ ctx' rep', route_publish i (ctx, rep, entries) x = Returns (ctx', rep', entries) ∧ fr_steps rep' = fr_steps rep ∧
    fc_router ctx' = r ∧ fc_stores ctx' = ss ∧ is_Some (principal (fc_router ctx')) ∧ same_page ctx ctx'.
Proof.
  destruct x as [e stamp]. simpl. intros Hb Hw Hp. unfold route_publish. rewrite transportable_returns, Hw by done.
  cbn [mbind panics_bind]. destruct (route _ _ _) as [[[r' ss'] o]|] eqn:Hr; [|done]. cbn [mbind panics_bind]. intros [= <- <-].
  apply route_keeps_principal in Hr as [Hpr Hid]. rewrite <- Hpr in Hp.
  destruct o as [over|t|cap|reason|]; [| | | |by destruct Hid; rewrite <- ?Hpr].
  - cbn [fc_schedules with_ctx_router with_ctx_stores fc_bindings]. destruct (charge_overflow _ _ _ _) as [sc v] eqn:Hc.
    eexists _, _. split; [done|]. unfold same_page. split_and!; try done. simpl.
    pose proof (charge_running (fc_schedules ctx) (fc_bindings ctx) (bf_channel e) over) as Hch. rewrite Hc in Hch. exact Hch.
  - eexists _, _. split; [done|]. unfold same_page. by split_and!.
  - eexists _, _. split; [done|]. unfold same_page. split_and!; try done. by apply alter_running.
  - eexists _, _. split; [done|]. unfold same_page. by split_and!.
Qed.

Lemma route_publishes_run i l ctx rep entries r ss :
  Forall (λ x, surface_bindable_address (bf_channel x.1) = true) l → is_Some (principal (fc_router ctx)) →
  router_run (fc_router ctx, fc_stores ctx) (publish_event i <$> confined_publishes l) = Returns (r, ss) →
  ∃ ctx' rep', foldl (λ acc x, s ← acc; route_publish i s x) (Returns (ctx, rep, entries)) l =
      Returns (ctx', rep', entries ++ wire_entries l.*1) ∧ fr_steps rep' = fr_steps rep ∧
    fc_router ctx' = r ∧ fc_stores ctx' = ss ∧ same_page ctx ctx'.
Proof.
  intros Hall. revert ctx rep entries. induction Hall as [|[e stamp] l Hx _ IH]; intros ctx rep entries Hp.
  { intros [= <- <-]. exists ctx, rep. cbn [foldl fmap list_fmap]. unfold wire_entries. simpl. rewrite app_nil_r. by split_and!. }
  simpl in Hx. unfold confined_publishes. rewrite filter_cons. cbn [fst]. destruct (on_wire (bf_channel e)) eqn:Hw; cbn [foldl mbind panics_bind].
  - rewrite decide_False by done. intros Hrun.
    assert (Hone : route_publish i (ctx, rep, entries) (e, stamp) = Returns (ctx, rep, entries ++ [wire_entry e])).
    { unfold route_publish. by rewrite transportable_returns, Hw by done. }
    rewrite Hone. destruct (IH ctx rep (entries ++ [wire_entry e]) Hp Hrun) as (ctx'&rep'&Hf&Hrest).
    exists ctx', rep'. rewrite Hf. split; [|done]. unfold wire_entries. simpl.
    rewrite filter_cons, decide_True by (by rewrite Hw). simpl. by rewrite <- app_assoc.
  - rewrite decide_True by done. cbn [fmap list_fmap router_run].
    destruct (router_step _ _) as [[r1 ss1]|] eqn:Hs; [|done]. cbn [mbind panics_bind]. intros Hrun.
    destruct (route_publish_run i ctx rep entries (e, stamp) r1 ss1 Hx Hw Hp Hs) as (ctx1&rep1&H1&Hrep1&Hr1&Hss1&Hp1&Hpg1).
    rewrite <- Hr1, <- Hss1 in Hrun. destruct (IH ctx1 rep1 entries Hp1 Hrun) as (ctx2&rep2&Hf&Hrep2&Hr2&Hss2&Hpg2).
    exists ctx2, rep2. rewrite H1, Hf. unfold wire_entries. simpl. rewrite filter_cons, decide_False by (rewrite Hw; intros []).
    split_and!; [done|congruence|done|done|by etrans].
Qed.

Lemma partition_ops_spec ops :
  Forall (λ o, surface_bindable_address (bo_channel o) = true) ops →
  partition_ops ops = Returns (filter (λ o, on_wire (bo_channel o)) ops, confined_ops ops).
Proof.
  unfold partition_ops, confined_ops. induction ops as [|o ops IH] using rev_ind; intros Hall; [done|].
  apply Forall_app in Hall as [Hall Ho]. rewrite Forall_singleton in Ho. rewrite foldl_app, IH by done. cbn [foldl mbind panics_bind].
  rewrite (transportable_returns (bo_channel o) Ho). cbn [mbind panics_bind]. rewrite !filter_app, !filter_cons, !filter_nil.
  destruct (on_wire (bo_channel o)); simpl; by rewrite ?app_nil_r.
Qed.
End committed.
End Committed.

Module CompletionProps.
Import Envelope Activation Proto Budget Conn Store Publish OutboxInv OutboxRun Router RouterRun Buffer BufferRun Wiring Indexed Outbound
  Registrations Schedules Completion Committed.

Section props.
Context {Uuid DateTime P : Type} `{EqDecision Uuid, Chrono DateTime, FrameJson Uuid}.
Context `{!PlanePolicy P Uuid DateTime}.
Implicit Types (ctx : @FlushCtx Uuid DateTime P) (b : PublishBuffer Uuid) (a : AppliedBindings).

Lemma router_run_split (s s' : LocalRouter P * SurfaceStores Uuid DateTime) es es' :
  router_run s (es ++ es') = Returns s' → ∃ s1, router_run s es = Returns s1 ∧ router_run s1 es' = Returns s'.
Proof.
  revert s. induction es as [|e es IH]; intros s; [by exists s|]. cbn [app router_run].
  destruct (router_step s e) as [s1|]; [|done]. apply IH.
Qed.

(** The part of a flush bound for the wire. *)
Definition wire_batch b : FlushBatch Uuid := mkBatch (wire_entries (buf_entries b)) (wire_ops (defer_ops b)).

(** The schedules once an ok activation is over. *)
Definition finished ctx (i : string) b (s : InstanceSchedule) : Schedules :=
  with_instances (fc_schedules ctx) (<[i := with_carry (with_in_flight s None) (sinks (gate b))]> (sc_instances (fc_schedules ctx))).

Lemma flush_ok_run i ctx b stamps s r ss :
  buffer_ok b → length stamps = length (buf_entries b) → sc_instances (fc_schedules ctx) !! i = Some s →
  is_Some (principal (fc_router ctx)) →
  router_run (fc_router ctx, fc_stores ctx) (confined_events i (fc_now_ms ctx) b stamps) = Returns (r, ss) →
  ∃ ctx1 rep1, same_page (with_ctx_schedules ctx (finished ctx i b s)) ctx1 ∧ fc_router ctx1 = r ∧ fc_stores ctx1 = ss ∧
    fr_steps rep1 = mkSteps [] [] None ∧
    flush_ok ctx i b stamps =
      if negb (batch_is_empty (wire_batch b)) then
        '(o, steps) ← outbound_flush (fc_outbound ctx) (fc_bindings ctx) (fc_facts ctx) i (wire_batch b) (fc_now ctx);
        Returns (with_ctx_outbound ctx1 o, mkFlushReport steps (fr_drops rep1) (fr_refusals rep1))
      else Returns (ctx1, rep1).
Proof.
  intros Hb Hlen Hs Hp Hrun. apply router_run_split in Hrun as ([r1 ss1]&Hops&Hpubs).
  destruct (apply_confined_ops_run i (confined_ops (defer_ops b)) (with_ctx_schedules ctx (finished ctx i b s)) report_new r1 ss1 Hops)
    as (ctx1&rep1&H1&Hrep1&Hr1&Hsame&Hss1&Hpg1).
  assert (Hbind : Forall (λ x : BufferedPublish * MessageStamp Uuid DateTime, surface_bindable_address (bf_channel x.1) = true) (zip (buf_entries b) stamps)).
  { rewrite <- (Forall_fmap fst (λ e, surface_bindable_address (bf_channel e) = true)).
    rewrite fst_zip by lia. apply (bok_bindable_entries _ Hb). }
  rewrite <- Hr1, <- Hss1 in Hpubs.
  destruct (route_publishes_run i (zip (buf_entries b) stamps) ctx1 rep1 [] r ss Hbind) as (ctx2&rep2&H2&Hrep2&Hr2&Hss2&Hpg2);
    [by rewrite Hsame|done|].
  exists ctx2, rep2. assert (Hpg : same_page (with_ctx_schedules ctx (finished ctx i b s)) ctx2) by (by etrans).
  split; [done|]. split; [done|]. split; [done|]. split; [by rewrite Hrep2, Hrep1|].
  unfold flush_ok. rewrite take_returns by done. cbn [mbind panics_bind bfl_publishes bfl_carry bfl_defer_ops].
  rewrite (proj2 (N.eqb_eq _ _)) by (unfold len; lia). cbn [rust_assert mbind panics_bind].
  unfold finish_ok, on_schedule. rewrite Hs. cbn [rust_expect mbind panics_bind].
  rewrite partition_ops_spec by apply (bok_bindable_ops _ Hb). cbn [mbind panics_bind].
  fold (finished ctx i b s). rewrite H1. cbn [mbind panics_bind]. unfold route_publishes. cbn [fst snd].
  rewrite H2. cbn [mbind panics_bind]. rewrite fst_zip by lia. cbn [app]. fold (wire_ops (defer_ops b)). fold (wire_batch b).
  destruct Hpg as (->&->&->&_&_&->&_). done.
Qed.

Lemma outbound_flush_total (o : SurfaceOutbound Uuid) a facts i (bt : FlushBatch Uuid) now :
  ok (ob_outboxes o) → is_Some (registrants (ob_outboxes o) !! i) → batch_is_empty bt = false →
  body_cap (ob_outboxes o) = fact_max_body_bytes <$> facts → next_correlation (ob_outboxes o) < u64_max →
  ∃ o' steps, outbound_flush o a facts i bt now = Returns (o', steps) ∧ ok (ob_outboxes o') ∧
    step str_le (ob_outboxes o) (if survives a i bt facts then EvFlush i bt now else EvRefuse i now) =
      Returns (ob_outboxes o', frames steps).
Proof.
  intros Hok Hreg Hne Hcap Hmax. unfold outbound_flush. destruct (survives a i bt facts) eqn:Hsv; simpl.
  - assert (Hleg : legal_in (body_cap (ob_outboxes o)) bt).
    { rewrite Hcap. destruct facts as [f|]; [|done]. simpl. unfold survives in Hsv. apply andb_true_iff in Hsv as [_ Hf].
      unfold fits_the_caps in Hf. by destruct (check_batch_legality _ _ _) as [[]|]. }
    destruct (step_good str_le (ob_outboxes o) (EvFlush i bt now) Hok) as (o1&fs&Hs&Hok1&_); [done|].
    simpl in Hs. destruct (Publish.flush (ob_outboxes o) i bt now) as [[o2 st]|]; [|done]. simpl in Hs. injection Hs as <- <-.
    simpl. eexists _, _. split; [done|]. done.
  - destruct (step_good str_le (ob_outboxes o) (EvRefuse i now) Hok) as (o1&fs&Hs&Hok1&_); [done|].
    simpl in Hs. destruct (refuse_flush (ob_outboxes o) i now) as [[o2 st]|]; [|done]. simpl in Hs. injection Hs as <- <-.
    simpl. eexists _, _. split; [done|]. done.
Qed.

(** C16: (page completion) An ok activation's buffer commits whole and in order, never
    unwinding under a plane policy that answers for what it admits: its confined ops and then
    its confined publishes are the router's calls, each in call order and each under the
    plane's guard; everything else leaves as one batch, in
    call order, offered once to the instance's outbox, or refused there whole when the wiring
    or the caps in force no longer admit it; and the instance is no longer running, with what
    it left of its budgets carried over. *)
Theorem ok_activation_commits_in_order (Q : string → Origin → string → Prop) (ready : P → Prop) (i : string) ctx b
    (stamps : list (MessageStamp Uuid DateTime)) (s : InstanceSchedule) :
  plane_contract Q ready → guarded_all Q (fc_stores ctx) → ready (policy (fc_router ctx)) →
  router_admissible (fc_router ctx, fc_stores ctx) (confined_events i (fc_now_ms ctx) b stamps) →
  is_Some (principal (fc_router ctx)) → buffer_ok b → length stamps = length (buf_entries b) →
  sc_instances (fc_schedules ctx) !! i = Some s → ok (ob_outboxes (fc_outbound ctx)) →
  is_Some (registrants (ob_outboxes (fc_outbound ctx)) !! i) →
  body_cap (ob_outboxes (fc_outbound ctx)) = fact_max_body_bytes <$> fc_facts ctx →
  next_correlation (ob_outboxes (fc_outbound ctx)) < u64_max →
  ∃ ctx' rep s', flush_ok ctx i b stamps = Returns (ctx', rep) ∧
    router_run (fc_router ctx, fc_stores ctx) (confined_events i (fc_now_ms ctx) b stamps) = Returns (fc_router ctx', fc_stores ctx') ∧
    guarded_all Q (fc_stores ctx') ∧ ready (policy (fc_router ctx')) ∧ ok (ob_outboxes (fc_outbound ctx')) ∧ fc_registrations ctx' = fc_registrations ctx ∧
    sc_instances (fc_schedules ctx') !! i = Some s' ∧ is_in_flight s' = None ∧ is_carry_mt s' = into_carry b ∧
    if batch_is_empty (wire_batch b) then fc_outbound ctx' = fc_outbound ctx ∧ frames (fr_steps rep) = []
    else
      step str_le (ob_outboxes (fc_outbound ctx))
        (if survives (fc_bindings ctx) i (wire_batch b) (fc_facts ctx) then EvFlush i (wire_batch b) (fc_now ctx)
         else EvRefuse i (fc_now ctx)) =
        Returns (ob_outboxes (fc_outbound ctx'), frames (fr_steps rep)).
Proof.
  intros Hq Hg Hrd Had Hp Hb Hlen Hs Hok Hreg Hcap Hmax.
  destruct (router_run_good Q ready Hq (fc_router ctx, fc_stores ctx) _ Hg Hrd Had) as ([r ss]&Hrun&Hg'&Hrd').
  destruct (flush_ok_run i ctx b stamps s r ss Hb Hlen Hs Hp Hrun) as (ctx1&rep1&Hpg&Hr&Hss&Hst&Hfl). rewrite Hfl, Hrun.
  assert (∃ s', sc_instances (fc_schedules ctx1) !! i = Some s' ∧ is_in_flight s' = None ∧ is_carry_mt s' = into_carry b) as (s'&Hs'&Hf'&Hc').
  { destruct Hpg as (_&_&_&_&_&_&Hrn). specialize (Hrn i). simpl in Hrn. rewrite lookup_insert_eq in Hrn. simpl in Hrn.
    destruct (sc_instances (fc_schedules ctx1) !! i) as [s'|]; [|done]. injection Hrn as H1 _ H3. by exists s'. }
  pose proof Hpg as (_&_&Ho&Hrg&_).
  destruct (batch_is_empty (wire_batch b)) eqn:He; simpl.
  - exists ctx1, rep1, s'. rewrite Ho, Hst, Hr, Hss. split_and!; done.
  - destruct (outbound_flush_total (fc_outbound ctx) (fc_bindings ctx) (fc_facts ctx) i (wire_batch b) (fc_now ctx) Hok Hreg He Hcap Hmax)
      as (o'&steps&->&Hok'&Hstep). simpl. eexists _, _, s'. split; [done|]. simpl. rewrite Hr, Hss. split_and!; done.
Qed.

Lemma publishes_on_spec a i channel : (∃ o, o ∈ outputs_of a i ∧ o_channel o = channel) → publishes_on a i channel = true.
Proof.
  intros (o&Ho&<-). unfold publishes_on. apply existsb_exists. exists o. split; [by apply list_elem_of_In|by apply bool_decide_eq_true].
Qed.

(** Where the buffer of a run writes: channels its instance is wired to. *)
Definition wired_to a (i : string) (outs : gmap string OutputSpec) : Prop :=
  ∀ port spec, outs !! port = Some spec → publishes_on a i (out_channel spec) = true.

Lemma seeded_wired sc i ports ids (cx : @ActivationCtx Uuid DateTime P) b :
  seed_buffer sc i ports ids cx = Returns b → wired_to (cx_bindings cx) i (outputs b) ∧ buf_entries b = [] ∧ defer_ops b = [] ∧
    max_body_bytes (gate b) = cx_max_body_bytes cx.
Proof.
  unfold seed_buffer. destruct (sc_instances sc !! i); [|done]. cbn [rust_expect mbind panics_bind].
  destruct (declared_ports _ _); [|done]. cbn [mbind panics_bind]. intros [= <-]. split; [|done]. intros port spec Hspec. simpl in Hspec.
  apply (Assembly.foldl_insert_spec o_port (λ o, mkOutput (o_channel o) (o_urgency o))) in Hspec as [(o&Ho&_&->)|[Hn _]];
    [|by rewrite lookup_empty in Hn]. apply publishes_on_spec. by exists o.
Qed.

Lemma entry_added_wired a i outs ca e : wired_to a i outs → entry_added outs ca = Some e → publishes_on a i (bf_channel e) = true.
Proof.
  intros Hw. unfold entry_added. destruct (accepted ca.2); [|done]. simpl.
  destruct ca.1 as [|port ?|port ? ?|port ? ?|? ?|? ? ? ?]; try done;
    (destruct (outs !! port) as [spec|] eqn:Ho; [|done]); intros [= <-]; by eapply Hw.
Qed.

Lemma op_added_wired a i outs (parked : gmap string (list Uuid)) ca o :
  wired_to a i outs → op_added outs parked ca = Some o → publishes_on a i (bo_channel o) = true.
Proof.
  intros Hw. unfold op_added. destruct (accepted ca.2); [|done]. simpl.
  destruct ca.1 as [|? ?|? ? ?|? ? ?|port index|port index body da]; try done;
    (destruct (outs !! port) as [spec|] eqn:Ho; [|done]); simpl; (destruct (parked !! port) as [ids|]; [|done]); simpl;
    (destruct (ids !! N.to_nat index); [|done]); intros [= <-]; by eapply Hw.
Qed.
End props.

Section own_flush.
Context {Uuid DateTime P : Type} `{EqDecision Uuid, Chrono DateTime, EnvelopeJson Uuid DateTime, FrameJson Uuid, DebugStr}.
Context `{!PlanePolicy P Uuid DateTime}.
(** What the frame cap takes of the JSON encoder, of the frame as the page composes it. *)
Context (entry_len : BatchEntry → N) (op_len : BatchDeferredOp Uuid → N) (shell_len : N).
Context (Hentry : ∀ e, entry_len e ≤ JSON_ESCAPE_EXPANSION * entry_bytes e + BATCH_OP_OVERHEAD_BYTES).
Context (Hop : ∀ o, op_len o ≤ JSON_ESCAPE_EXPANSION * op_bytes o + BATCH_OP_OVERHEAD_BYTES).
Context (Hshell : shell_len ≤ PUBLISH_FRAME_OVERHEAD_BYTES).

(** C27: (page completion) A page whose contract has not moved never refuses its own flush:
    whatever a component calls in an activation of a wired instance, the batch it leaves for
    the wire passes, under the wiring and the caps it was seeded with, every gate whose
    refusal would drop it: each entry and op names a channel the instance publishes on, the
    batch is legal, and the composed frame is within what the peer reads. *)
Theorem page_never_refuses_its_own_flush (max : N) (body : string) (dj : option BindingsDocument) (a : AppliedBindings)
    (sc : Schedules) (i : string) (ports : list (PortWindow string)) (ids : gmap string (list Uuid))
    (cx : @ActivationCtx Uuid DateTime P) (b0 b : PublishBuffer Uuid) (cs : list component_call)
    (answers : list component_answer) (facts : AttachmentFacts) :
  apply_document max body dj = Returns (Ok a) → cx_bindings cx = a → Assembly.composable a i (cx_max_body_bytes cx) →
  seed_buffer sc i ports ids cx = Returns b0 → component_run (DateTime := DateTime) b0 cs = Returns (b, answers) →
  fact_max_body_bytes facts = cx_max_body_bytes cx →
  max_client_frame_bytes (cx_max_body_bytes cx) = Returns (fact_max_frame_bytes facts) →
  (∀ ps os, frame_json_len (PublishBatch (Some i) u64_max ps os) ≤ ProtoProps.frame_size entry_len op_len shell_len ps os) →
  survives a i (wire_batch b) (Some facts) = true.
Proof.
  intros Hap Hcx Hcomp Hseed Hrun Hbody Hframe Hjson. destruct (applied_inv _ _ _ _ Hap) as (d&_&Hv&Ha&_).
  assert (is_Some (sc_instances sc !! i) ∧ is_declared_instance a i = true) as [Htr Hdecl].
  { unfold seed_buffer in Hseed. destruct (sc_instances sc !! i); [|done]. split; [by eexists|]. rewrite Hcx in Hseed.
    unfold declared_ports in Hseed. rewrite (ap_ports _ _ Ha) in Hseed. apply bool_decide_eq_true.
    pose proof (ap_component _ _ Ha i) as Hc. unfold component in Hc.
    destruct (a_components a !! i); [by eexists|]. simpl in Hc. injection Hc as Hc. rewrite <- Hc in Hseed. done. }
  destruct (Assembly.seed_buffer_total d a Hv Ha sc i ports ids cx Hcx Htr Hdecl Hcomp) as (b1&Hs1&Hok&_).
  rewrite Hseed in Hs1. injection Hs1 as <-. destruct (seeded_wired sc i ports ids cx b0 Hseed) as (Hw&He0&Ho0&Hm0). rewrite Hcx in Hw.
  destruct (component_run_ok (DateTime := DateTime) b0 cs Hok) as (b2&an2&Hr2&Hok2&(_&_&_&Hm)&_&He&Ho).
  rewrite Hrun in Hr2. injection Hr2 as <- <-. rewrite He0 in He. rewrite Ho0 in Ho. simpl in He, Ho.
  assert (Hleg : check_batch_legality (batch_entries (wire_batch b)) (batch_ops (wire_batch b)) (fact_max_body_bytes facts) = Ok ()).
  { rewrite Hbody, <- Hm0, <- Hm. by apply buffered_batch_legal. }
  unfold survives. rewrite !andb_true_iff. split; [split|].
  - apply forallb_forall. intros e He'%list_elem_of_In. simpl in He'. apply list_elem_of_fmap in He' as (x&->&[_ Hx]%list_elem_of_filter).
    simpl. rewrite He in Hx. apply list_elem_of_omap in Hx as (ca&_&Hca). by eapply entry_added_wired.
  - apply forallb_forall. intros e He'%list_elem_of_In. simpl in He'. apply list_elem_of_fmap in He' as (x&->&[_ Hx]%list_elem_of_filter).
    simpl. rewrite Ho in Hx. apply list_elem_of_omap in Hx as (ca&_&Hca). by eapply op_added_wired.
  - unfold fits_the_caps. rewrite Hleg. apply N.leb_le. unfold frame_bytes. etrans; [apply Hjson|].
    rewrite Hbody in Hleg.
    destruct Hok2 as [Hg [Hcap _] Hn Hk _ _ Hc]. destruct Hg as [Hge Hgo _ _ _].
    apply (ProtoProps.legal_batch_fits_frame_cap entry_len op_len shell_len Hentry Hop Hshell _ _ (cx_max_body_bytes cx)); [| |done|done]; simpl.
    + unfold wire_entries, wire_ops. rewrite !len_fmap. unfold len in *.
      pose proof (length_filter (λ e, on_wire (bf_channel e)) (buf_entries b)).
      pose proof (length_filter (λ o, on_wire (bo_channel o)) (defer_ops b)).
      unfold MAX_PUBLISHES_PER_ACTIVATION, u64_max in *. lia.
    + unfold wire_charge in Hc. lia.
Qed.
End own_flush.

(** *** Witnesses *)
#[local] Existing Instance EvalInstances.millis_chrono.
#[local] Instance plain_debug : DebugStr := λ s, s.
#[local] Instance body_json : EnvelopeJson nat Z := λ e, Envelope.body e.
(** A plane that carries every body but the empty one. *)
#[local] Instance wary_policy : PlanePolicy N nat Z :=
  {| admits _ _ _ := true; guard _ _ _ b := Returns (if String.eqb b "" then GuardRefused "empty" else Carry b); observe n _ := Returns n |}.

Definition room_entry (e : BatchEntry) : N := 6 * entry_bytes e + 200.
Definition room_op (o : BatchDeferredOp nat) : N := 6 * op_bytes o + 100.
#[local] Instance room_json : FrameJson nat := λ f,
  match f with PublishBatch _ _ ps os => ProtoProps.frame_size room_entry room_op 80 ps os | _ => 0 end.

Definition room_cx : @ActivationCtx nat Z N :=
  mkCtx PageProps.demo_applied (mkStores 7%nat (<["brenn:room" := store_new 7%nat 4]> (<["local:bar" := store_new 7%nat 5]> ∅)))
    (mkRouter 0 (Some "surface:hall") None) ∅ 1000 50.
Definition room_schedules : Schedules := mkSchedules {["bar" := mkSchedule (Some (mkInFlight None)) Settled 0 ∅ ∅ 0 0]} None.
Definition room_fallback : PublishBuffer nat := buffer_new ∅ ∅ ∅ 0 ∅.
Definition room_seed : PublishBuffer nat := result_of room_fallback (seed_buffer room_schedules "bar" [] {["out" := [3%nat]]} room_cx).
Definition room_calls : list component_call :=
  [CallPublish "out" "hello"; CallCancel "out" 0; CallPublishDeferred "out" "later" 90; CallPublish "alt" "unwired"].
Definition room_run : PublishBuffer nat * list component_answer :=
  result_of (room_fallback, []) (component_run (DateTime := Z) room_seed room_calls).
Definition room_facts : AttachmentFacts := mkFacts 4 "surface:hall" "s" 30 1000 (result_of 0 (max_client_frame_bytes 1000)) false.

Lemma room_composable : Assembly.composable PageProps.demo_applied "bar" 1000.
Proof.
  split; [vm_compute; discriminate|].
  change (outputs_of PageProps.demo_applied "bar") with [mkOutputBinding "brenn:room" "bar" "out" Normal 1000 4000].
  intros o ->%list_elem_of_singleton. vm_compute. discriminate.
Qed.

Lemma page_never_refuses_its_own_flush_witness :
  survives PageProps.demo_applied "bar" (wire_batch room_run.1) (Some room_facts) = true ∧
  length (batch_entries (wire_batch room_run.1)) = 1%nat.
Proof.
  split; [|vm_compute; reflexivity].
  apply (page_never_refuses_its_own_flush (P := N) (DateTime := Z) room_entry room_op 80) with
    (max := 4294967295) (body := "body") (dj := Some WiringProps.demo_document) (sc := room_schedules) (ports := [])
    (ids := {["out" := [3%nat]]}) (cx := room_cx) (b0 := room_seed) (cs := room_calls) (answers := room_run.2).
  - intros e. unfold room_entry, JSON_ESCAPE_EXPANSION, BATCH_OP_OVERHEAD_BYTES. lia.
  - intros o. unfold room_op, JSON_ESCAPE_EXPANSION, BATCH_OP_OVERHEAD_BYTES. lia.
  - vm_compute. discriminate.
  - exact PageProps.demo_applies.
  - reflexivity.
  - exact room_composable.
  - apply returned_result. vm_compute. reflexivity.
  - rewrite (returned_result (room_fallback, []) (component_run (DateTime := Z) room_seed room_calls)) by (vm_compute; reflexivity).
    fold room_run. by destruct room_run.
  - reflexivity.
  - apply returned_result. vm_compute. reflexivity.
  - intros ps os. reflexivity.
Defined.

(** A component that publishes on both sides. *)
Definition both_outs : gmap string OutputSpec :=
  <["out" := mkOutput "brenn:room" Normal]> (<["near" := mkOutput "local:bar" High]> ∅).
Definition both_sinks : gmap string N := <["out" := 2000]> (<["near" := 1000]> ∅).
Definition both_start : PublishBuffer nat := buffer_new both_outs {["out"; "near"]} both_sinks 1000 ∅.
Definition both_calls : list component_call := [CallPublish "near" "there"; CallPublish "out" "hello"].
Definition both_buffer : PublishBuffer nat := (result_of (both_start, []) (component_run (DateTime := Z) both_start both_calls)).1.

Lemma both_ok : buffer_ok both_buffer.
Proof.
  assert (Hs : seeded both_outs both_sinks 1000).
  { split; [vm_compute; discriminate|]. intros port spec. unfold both_outs, both_sinks.
    rewrite !lookup_insert_Some, lookup_empty. intros [[<- <-]|[_ [[<- <-]|[_ ?]]]]; [| |done];
      (split; [done|]; split; [vm_compute; discriminate|]; vm_compute; eauto). }
  destruct (component_run_ok (DateTime := Z) both_start both_calls (buffer_new_ok _ _ _ _ _ Hs)) as (b&an&Hr&Hb&_).
  unfold both_buffer. by rewrite Hr.
Qed.

Definition both_outboxes : Outboxes nat string := result_of outboxes_new (Publish.register outboxes_new "bar" (Some "bar") 4).

Lemma both_outboxes_ok : ok both_outboxes.
Proof.
  destruct (step_good (Uuid := nat) str_le outboxes_new (EvRegister "bar" (Some "bar") 4)) as (o1&fs&Hs&Hok&_); [apply new_ok|done|].
  simpl in Hs. unfold both_outboxes. destruct (Publish.register _ _ _ _) as [o|]; [|done]. simpl in Hs |- *. by injection Hs as <- _.
Qed.

Definition both_ctx : @FlushCtx nat Z N :=
  mkFlushCtx PageProps.demo_applied None (cx_stores room_cx) (cx_router room_cx) (mkOutbound ∅ both_outboxes 0 0)
    (mkRegistrations ∅ 0) room_schedules 50 50.
Definition both_stamps : list (MessageStamp nat Z) := [mkStamp 1%nat 40%Z; mkStamp 2%nat 41%Z].
Definition both_nonempty (c : string) (o : Origin) (b : string) : Prop := b ≠ "".

Lemma both_guarded : guarded_all both_nonempty (fc_stores both_ctx).
Proof.
  assert (Hnew : ∀ c st, stores (fc_stores both_ctx) !! c = Some st → ∃ d, st = store_new 7%nat d).
  { intros c st Hc. simpl in Hc. rewrite !lookup_insert_Some, lookup_empty in Hc.
    destruct Hc as [[_ <-]|[_ [[_ <-]|[_ ?]]]]; [by eexists|by eexists|done]. }
  split; intros c st Hc _; destruct (Hnew c st Hc) as [d ->]; [|done].
  split; simpl; try (intros * []%not_elem_of_nil). apply CoreRun.core_new_wf.
Qed.

Lemma both_admissible : router_admissible (fc_router both_ctx, fc_stores both_ctx) (confined_events "bar" 50 both_buffer both_stamps).
Proof.
  assert (confined_events "bar" 50 both_buffer both_stamps =
    [EvRoute (mkRoute "local:bar" (Sub "bar") "there" (mkStamp 1%nat 40%Z) High None)]) as -> by (vm_compute; reflexivity).
  split; [|intros; exact I]. split; [reflexivity|]. split; [reflexivity|]. split; [vm_compute; discriminate|].
  exists (store_new 7%nat 5). split; [reflexivity|]. split; [split; intros e He; by apply elem_of_nil in He|].
  split; vm_compute; reflexivity.
Qed.

Lemma ok_activation_commits_in_order_witness :
  ∃ ctx' rep s', flush_ok both_ctx "bar" both_buffer both_stamps = Returns (ctx', rep) ∧
    guarded_all both_nonempty (fc_stores ctx') ∧ sc_instances (fc_schedules ctx') !! "bar" = Some s' ∧ is_in_flight s' = None ∧
    frames (fr_steps rep) = [].
Proof.
  destruct (ok_activation_commits_in_order both_nonempty (λ _, True) "bar" both_ctx both_buffer both_stamps
    (mkSchedule (Some (mkInFlight None)) Settled 0 ∅ ∅ 0 0)) as (ctx'&rep&s'&Hf&_&Hg&_&_&_&Hs&Hfl&_&Hrest).
  - split; simpl; [|eauto|eauto]. intros p c o raw bd. destruct (String.eqb_spec raw ""); [done|]. by intros [= <-].
  - exact both_guarded.
  - exact I.
  - exact both_admissible.
  - by eexists.
  - exact both_ok.
  - vm_compute. reflexivity.
  - reflexivity.
  - exact both_outboxes_ok.
  - by eexists.
  - reflexivity.
  - vm_compute. reflexivity.
  - exists ctx', rep, s'. split; [exact Hf|]. split; [exact Hg|]. split; [exact Hs|]. split; [exact Hfl|].
    assert (He : batch_is_empty (wire_batch both_buffer) = false) by (vm_compute; reflexivity). rewrite He in Hrest.
    assert (Hsv : survives (fc_bindings both_ctx) "bar" (wire_batch both_buffer) (fc_facts both_ctx) = true) by (vm_compute; reflexivity).
    rewrite Hsv in Hrest.
    assert (Hno : match step str_le (ob_outboxes (fc_outbound both_ctx)) (EvFlush "bar" (wire_batch both_buffer) (fc_now both_ctx)) with
                  | Returns (_, fs) => match fs with [] => true | _ => false end | Panics _ => false end = true) by (vm_compute; reflexivity).
    rewrite Hrest in Hno. by destruct (frames (fr_steps rep)).
Defined.
End CompletionProps.
