(* ===== verification/Mqtt.v ===== *)
(** * MQTT addresses and topic filters ([brenn-lib/src/mqtt/address.rs],
    [brenn-lib/src/access/mqtt_match.rs])

    Parsing [mqtt:<client>:<topic>], the wildcard rules of a filter, matching a concrete
    topic against a filter, and the subset test between two filters that access control
    rests on. *)

From S2P Require Import Prelude Text Envelope.
From Stdlib Require Import Ascii.

#[local] Open Scope list_scope.

Module Mqtt.
Import Text.

Definition MQTT_PREFIX : string := "mqtt:".

(** [is_mqtt_address]. *)
Definition is_mqtt_address (addr : string) : bool :=
  match strip_prefix MQTT_PREFIX addr with Some _ => true | None => false end.

(** [MqttAddress]. *)
Record MqttAddress := mkAddress { client : string; topic : string }.

(** [MqttAddress::format]. *)
Definition format (a : MqttAddress) : string := MQTT_PREFIX +:+ client a +:+ ":" +:+ topic a.

(** What [validate_topic_filter] refuses. *)
Inductive FilterError := HashNotWhole (seg : bytes) | HashNotLast | PlusNotWhole (seg : bytes).

(** Why an address is refused. *)
Inductive InvalidDetail :=
| MissingSeparator
| BadClientSlug (client : string)
| EmptyTopic
| TopicTooLong (bytes : N)
| TopicHasNul
| BadFilter (e : FilterError).

(** The [MqttError]s of address parsing. *)
Inductive MqttError :=
| WrongProtocol (address : string)
| AddressInvalid (address : string) (detail : InvalidDetail)
| WildcardNotAllowed (address : string).

(** [is_valid_client_slug]: [[A-Za-z0-9._~-]+]. *)
Definition slug_char (c : ascii) : bool :=
  Envelope.is_ascii_alphanumeric c || Ascii.eqb c "." || Ascii.eqb c "_" || Ascii.eqb c "~"
  || Ascii.eqb c "-".
Definition is_valid_client_slug (slug : string) : bool :=
  negb (String.eqb slug "") && string_all slug_char slug.

(** [find(c)], with the text before and after the first occurrence. *)
Fixpoint split_first (c : ascii) (s : string) : option (string * string) :=
  match s with
  | EmptyString => None
  | String a s =>
      if Ascii.eqb a c then Some (EmptyString, s)
      else match split_first c s with
           | Some (l, r) => Some (String a l, r)
           | None => None
           end
  end.

(** [str::contains(c)]. *)
Fixpoint contains_char (c : ascii) (s : string) : bool :=
  match s with
  | EmptyString => false
  | String a s => Ascii.eqb a c || contains_char c s
  end.

(** [parse_mqtt_address]. *)
Definition parse_mqtt_address (addr : string) : result MqttAddress MqttError :=
  match strip_prefix MQTT_PREFIX addr with
  | None => Err (WrongProtocol addr)
  | Some rest =>
      match split_first ":" rest with
      | None => Err (AddressInvalid addr MissingSeparator)
      | Some (client, topic) =>
          if negb (is_valid_client_slug client) then Err (AddressInvalid addr (BadClientSlug client))
          else if String.eqb topic "" then Err (AddressInvalid addr EmptyTopic)
          else if (65535 <? str_len topic)%N then Err (AddressInvalid addr (TopicTooLong (str_len topic)))
          else if contains_char (chr 0) topic then Err (AddressInvalid addr TopicHasNul)
          else Ok (mkAddress client topic)
      end
  end.

(** [topic.split('/')]. *)
Definition segments (topic : string) : list bytes := split_at "/" (str topic).

Definition hash : bytes := str "#".
Definition plus : bytes := str "+".
Definition seg_eqb (a b : bytes) : bool := bool_decide (a = b).
Definition seg_contains (c : ascii) (seg : bytes) : bool := existsb (Ascii.eqb c) seg.

(** The loop of [validate_topic_filter]. *)
Fixpoint validate_segments (segs : list bytes) : result unit FilterError :=
  match segs with
  | [] => Ok ()
  | seg :: rest =>
      let is_last := bool_decide (rest = []) in
      if seg_contains "#" seg && negb (seg_eqb seg hash) then Err (HashNotWhole seg)
      else if seg_contains "#" seg && negb is_last then Err HashNotLast
      else if seg_contains "+" seg && negb (seg_eqb seg plus) then Err (PlusNotWhole seg)
      else validate_segments rest
  end.

(** [validate_topic_filter]. *)
Definition validate_topic_filter (topic : string) : result unit FilterError :=
  validate_segments (segments topic).

(** [validate_topic_filter_str]. *)
Definition validate_topic_filter_str (topic : string) : result unit FilterError :=
  validate_topic_filter topic.

(** [parse_topic_filter]. *)
Definition parse_topic_filter (addr : string) : result MqttAddress MqttError :=
  match parse_mqtt_address addr with
  | Err e => Err e
  | Ok parsed =>
      match validate_topic_filter (topic parsed) with
      | Err detail => Err (AddressInvalid addr (BadFilter detail))
      | Ok _ => Ok parsed
      end
  end.

(** [parse_topic_name]. *)
Definition parse_topic_name (addr : string) : result MqttAddress MqttError :=
  match parse_mqtt_address addr with
  | Err e => Err e
  | Ok parsed =>
      if contains_char "+" (topic parsed) || contains_char "#" (topic parsed)
      then Err (WildcardNotAllowed addr)
      else Ok parsed
  end.

(** The loop of [mqtt_topic_matches]; its two indices advance together. *)
Fixpoint matches_segments (filter topic : list bytes) : bool :=
  match filter with
  | [] => bool_decide (topic = [])
  | fseg :: filter =>
      if seg_eqb fseg hash then true
      else match topic with
           | [] => false
           | tseg :: topic =>
               if seg_eqb fseg plus then matches_segments filter topic
               else if negb (seg_eqb fseg tseg) then false
               else matches_segments filter topic
           end
  end.

(** [segments[0].starts_with('$')]. *)
Definition system_topic (topic : list bytes) : bool :=
  match topic with
  | (c :: _) :: _ => Ascii.eqb c "$"
  | _ => false
  end.

(** The first segment of a filter is a wildcard. *)
Definition leading_wildcard (filter : list bytes) : bool :=
  match filter with
  | f :: _ => seg_eqb f hash || seg_eqb f plus
  | [] => false
  end.

(** [mqtt_topic_matches]. *)
Definition mqtt_topic_matches (filter topic : string) : bool :=
  if leading_wildcard (segments filter) && system_topic (segments topic) then false
  else matches_segments (segments filter) (segments topic).

(** The loop of [filter_covers]; its two indices advance together. *)
Fixpoint covers_segments (allowed requested : list bytes) : bool :=
  match allowed with
  | [] => bool_decide (requested = [])
  | aseg :: allowed =>
      if seg_eqb aseg hash then true
      else match requested with
           | [] => false
           | rseg :: requested =>
               if seg_eqb rseg hash then false
               else if seg_eqb aseg plus then covers_segments allowed requested
               else if seg_eqb rseg plus || negb (seg_eqb rseg aseg) then false
               else covers_segments allowed requested
           end
  end.

(** [filter_covers]. *)
Definition filter_covers (allowed requested : string) : bool :=
  covers_segments (segments allowed) (segments requested).
End Mqtt.

Module MqttProps.
Import Text TextProps Mqtt.

Lemma seg_eqb_spec a b : reflect (a = b) (seg_eqb a b).
Proof. apply bool_decide_reflect. Qed.

(** Case on the segment comparisons of the goal and hypotheses. *)
Ltac by_seg :=
  repeat match goal with
  | |- context [seg_eqb ?a ?b] => destruct (seg_eqb_spec a b)
  | H : context [seg_eqb ?a ?b] |- _ => destruct (seg_eqb_spec a b)
  end.

Lemma seg_contains_spec c seg : seg_contains c seg = true ↔ c ∈ seg.
Proof.
  unfold seg_contains. rewrite existsb_exists. setoid_rewrite <-list_elem_of_In. split.
  - intros (x&Hx&->%Ascii.eqb_eq). done.
  - intros Hc. exists c. by rewrite Ascii.eqb_refl.
Qed.

(** *** Addresses *)

Definition address_wf (a : MqttAddress) : Prop :=
  is_valid_client_slug (client a) = true ∧ topic a ≠ ""%string ∧
  (str_len (topic a) ≤ 65535)%N ∧ contains_char (chr 0) (topic a) = false.

Lemma split_first_Some c s l r :
  split_first c s = Some (l, r) ↔ s = l +:+ String c r ∧ contains_char c l = false.
Proof.
  revert l r. induction s as [|a s IH]; intros l r; cbn [split_first].
  { split; [done|]. intros [? _]. by destruct l. }
  assert (Hnil : EmptyString +:+ String c r = String c r) by done.
  assert (Hcons : ∀ b l, String b l +:+ String c r = String b (l +:+ String c r)) by done.
  destruct (Ascii.eqb_spec a c) as [->|Hne].
  - split; [by intros [= <- <-]|]. intros [Hs Hc]. destruct l as [|b l]; rewrite ?Hnil, ?Hcons in Hs.
    + by injection Hs as ->.
    + injection Hs as <- Hs. simpl in Hc. by rewrite Ascii.eqb_refl in Hc.
  - split.
    + intros Hs. destruct (split_first c s) as [[l' r']|]; [|done]. injection Hs as <- <-.
      destruct (proj1 (IH l' r') eq_refl) as [-> Hc]. simpl. by destruct (Ascii.eqb_spec a c).
    + intros [Hs Hc]. destruct l as [|b l]; rewrite ?Hnil, ?Hcons in Hs; [by injection Hs as -> _|].
      injection Hs as <- Hs. simpl in Hc. apply orb_false_iff in Hc as [_ Hc].
      by rewrite (proj2 (IH l r) (conj Hs Hc)).
Qed.

Lemma slug_no_colon s : string_all slug_char s = true → contains_char ":" s = false.
Proof.
  induction s as [|a s IH]; simpl; [done|]. intros [Ha Hs]%andb_prop.
  destruct (Ascii.eqb_spec a ":") as [->|]; [done|]. by apply IH.
Qed.

(** (mqtt) parsing and formatting are inverse: a string parses to an address exactly
    when it is that address's canonical form and the address is well formed, its client a
    slug and its topic of 1 to 65535 bytes without NUL. *)
Theorem mqtt_address_roundtrip s a :
  parse_mqtt_address s = Ok a ↔ s = format a ∧ address_wf a.
Proof.
  unfold parse_mqtt_address, format, address_wf. destruct a as [c t]. cbn [client topic].
  destruct (strip_prefix MQTT_PREFIX s) as [rest|] eqn:Hp.
  2:{ split; [done|]. intros [-> _]. rewrite (proj2 (strip_prefix_Some _ _ _) eq_refl) in Hp. done. }
  apply strip_prefix_Some in Hp as ->.
  assert (MQTT_PREFIX +:+ rest = MQTT_PREFIX +:+ c +:+ ":" +:+ t ↔ rest = c +:+ String ":" t) as ->.
  { split; [by intros ?%string_app_inj|by intros ->]. }
  split.
  - destruct (split_first ":" rest) as [[c' t']|] eqn:Hs; [|done]. apply split_first_Some in Hs as [-> _].
    destruct (is_valid_client_slug c') eqn:Hv; [|done]. cbn [negb].
    destruct (String.eqb_spec t' ""); [done|]. case_bool; [done|].
    destruct (contains_char (chr 0) t') eqn:Hn; [done|]. intros [= -> ->]. by rewrite Hv, Hn.
  - intros (->&Hv&Ht&Hl&Hn).
    assert (contains_char ":" c = false).
    { unfold is_valid_client_slug in Hv. apply andb_prop in Hv as [_ Hv]. by apply slug_no_colon. }
    rewrite (proj2 (split_first_Some ":" _ c t)) by done. rewrite Hv. cbn [negb].
    destruct (String.eqb_spec t ""); [done|]. case_bool; [lia|]. by rewrite Hn.
Qed.

(** *** Filters *)

(** A segment that is neither wildcard holds no wildcard character. *)
Definition plain (seg : bytes) : Prop := ("#"%char ∉ seg) ∧ ("+"%char ∉ seg).

Lemma seg_contains_reflect c seg : reflect (c ∈ seg) (seg_contains c seg).
Proof. apply iff_reflect. symmetry. apply seg_contains_spec. Qed.

Lemma hash_in_hash : "#"%char ∈ hash.
Proof. apply list_elem_of_here. Qed.

Lemma plus_in_plus : "+"%char ∈ plus.
Proof. apply list_elem_of_here. Qed.

Lemma plus_not_in_hash : "+"%char ∉ hash.
Proof. intros [?|[]%not_elem_of_nil]%elem_of_cons. done. Qed.

Lemma hash_not_in_plus : "#"%char ∉ plus.
Proof. intros [?|[]%not_elem_of_nil]%elem_of_cons. done. Qed.
#[local] Hint Resolve hash_in_hash plus_in_plus plus_not_in_hash hash_not_in_plus : core.

Lemma validate_cons seg rest :
  validate_segments (seg :: rest) = Ok () ↔
  ((seg = hash ∧ rest = []) ∨ seg = plus ∨ plain seg) ∧ validate_segments rest = Ok ().
Proof.
  cbn [validate_segments]. unfold plain.
  destruct (seg_contains_reflect "#" seg) as [Hh|Hh];
    destruct (seg_contains_reflect "+" seg) as [Hp|Hp]; simpl;
    destruct (seg_eqb_spec seg hash) as [Eh|Eh]; destruct (seg_eqb_spec seg plus) as [Ep|Ep]; simpl;
    try (destruct (bool_decide_reflect (rest = [])) as [Er|Er]; simpl);
    (split; [intros Hv|intros [[[? ?]|[?|[? ?]]] Hv]]); try done; subst; try done; try (by destruct Hh);
    try (by destruct Hp); try tauto; exfalso;
    solve [by apply plus_not_in_hash|by apply hash_not_in_plus].
Qed.

(** *** Soundness of the subset test *)

Lemma covers_sound A R t :
  covers_segments A R = true → matches_segments R t = true → matches_segments A t = true.
Proof.
  revert R t. induction A as [|a A IH]; intros R t; simpl.
  - intros ->%bool_decide_eq_true. done.
  - destruct (seg_eqb_spec a hash); [done|]. destruct R as [|r R]; [done|]. simpl.
    destruct (seg_eqb_spec r hash); [done|]. destruct t as [|x t]; [done|].
    destruct (seg_eqb_spec a plus) as [->|].
    + destruct (seg_eqb_spec r plus); [apply IH|]. destruct (seg_eqb_spec r x); [apply IH|done].
    + destruct (seg_eqb_spec r plus); [done|]. simpl. destruct (seg_eqb_spec r a) as [->|]; [|done].
      simpl. destruct (seg_eqb_spec a x); [|done]. apply IH.
Qed.

(** *** Its completeness: a filter that is not covered matches a topic that escapes *)

(** A level no literal of [A] names. *)
Definition fresh (A : list bytes) : bytes := replicate (S (sum_list_with length A)) "x"%char.

Lemma fresh_not_in A : fresh A ∉ A.
Proof.
  intros Hin. assert (length (fresh A) ≤ sum_list_with length A) as Hl.
  { revert Hin. generalize (fresh A). intros f. induction A as [|a A IH]; intros Hin; [by apply not_elem_of_nil in Hin|].
    apply elem_of_cons in Hin as [->|Hin]; simpl; [lia|]. specialize (IH Hin). lia. }
  unfold fresh in Hl. rewrite length_replicate in Hl. lia.
Qed.

(** The concrete levels of a filter: [f] for [+], [T] for the levels under [#]. *)
Fixpoint inst (f : bytes) (T R : list bytes) : list bytes :=
  match R with
  | [] => []
  | r :: R => if seg_eqb r hash then T else (if seg_eqb r plus then f else r) :: inst f T R
  end.

Lemma matches_inst f T R : matches_segments R (inst f T R) = true.
Proof.
  induction R as [|r R IH]; simpl; [done|]. destruct (seg_eqb_spec r hash); [done|].
  destruct (seg_eqb_spec r plus); [done|]. destruct (seg_eqb_spec r r); [done|]. done.
Qed.

Lemma escape_below f A R :
  f ∉ A → covers_segments A R = false →
  ∃ n, matches_segments A (inst f (replicate n f) R) = false.
Proof.
  revert R. induction A as [|a A IH]; intros R Hf Hc; simpl in *.
  - apply bool_decide_eq_false in Hc. destruct R as [|r R]; [done|]. exists 1. simpl.
    by destruct (seg_eqb r hash).
  - apply not_elem_of_cons in Hf as [Ha Hf].
    destruct (seg_eqb_spec a hash); [done|]. destruct R as [|r R]; [by exists 0|]. simpl.
    destruct (seg_eqb_spec r hash); [by exists 0|]. destruct (seg_eqb_spec a plus) as [->|]; [by apply IH|].
    destruct (seg_eqb_spec r plus) as [->|]; simpl in Hc.
    { exists 0. by destruct (seg_eqb_spec a f). }
    destruct (seg_eqb_spec r a) as [->|]; simpl in Hc.
    + destruct (IH R Hf Hc) as [k Hn]. exists k. by destruct (seg_eqb_spec a a).
    + exists 0. by destruct (seg_eqb_spec a r).
Qed.

(** Under a [#] that stands for at least one level. *)
Lemma escape_hash f A :
  f ∉ A → validate_segments A = Ok () → covers_segments A [hash] = false →
  (∃ n, matches_segments A (replicate (S n) f) = false) ∨ A = [plus; hash].
Proof.
  intros Hf Hv Hc. destruct A as [|a A]; [left; by exists 0|]. simpl in Hc.
  destruct (seg_eqb_spec a hash) as [|Hah]; [done|].
  apply not_elem_of_cons in Hf as [Ha Hf]. destruct (decide (a = plus)) as [->|Hp].
  - destruct A as [|b A]; [left; by exists 1|].
    apply validate_cons in Hv as [_ Hv]. apply validate_cons in Hv as [Hb Hv].
    destruct (decide (b = hash)) as [->|Hb'].
    + right. destruct Hb as [[_ ->]|[Hb|[Hb _]]]; [done|done|].
      exfalso. apply Hb. done.
    + left. exists 0. simpl. by destruct (seg_eqb_spec b hash).
  - left. exists 0. simpl. destruct (seg_eqb_spec a hash); [done|].
    destruct (seg_eqb_spec a plus); [done|]. by destruct (seg_eqb_spec a f).
Qed.

(** The pairs the subset test denies although a topic, having at least one character,
    cannot tell them apart: as segments and as text. *)
Definition exception (A R : list bytes) : Prop :=
  (A = [plus; hash] ∧ R = [hash]) ∨
  ((A = [[]; plus; hash] ∨ A = [plus; plus; hash]) ∧ R = [[]; hash]).
Definition exceptions : list (string * string) :=
  [("+/#", "#"); ("/+/#", "/#"); ("+/+/#", "/#")]%string.

Lemma hash_is_last (R : list bytes) : validate_segments (hash :: R) = Ok () → R = [].
Proof.
  intros [Hk _]%validate_cons. destruct Hk as [[_ ->]|[?|[Hk _]]]; [done|done|].
  exfalso. apply Hk. done.
Qed.

(** At the root a topic has at least one level, and is not one empty level. *)
Lemma escape_root f A R :
  f ∉ A → f ≠ [] → A ≠ [] → R ≠ [] → R ≠ [[]] → validate_segments A = Ok () → validate_segments R = Ok () →
  covers_segments A R = false →
  (∃ n, let ls := inst f (replicate n f) R in ls ≠ [] ∧ ls ≠ [[]] ∧ matches_segments A ls = false) ∨
  exception A R.
Proof.
  intros Hf Hfn HA HR HR1 HvA HvR Hc. destruct R as [|r R]; [done|].
  destruct (seg_eqb_spec r hash) as [->|Hr].
  { apply hash_is_last in HvR as ->. destruct (escape_hash f A Hf HvA Hc) as [[k Hn]|Hx].
    - left. exists (S k). split_and!; [done| |done]. simpl. by intros [= ? _].
    - right. left. done. }
  assert (∀ n, inst f (replicate n f) (r :: R) ≠ []) as Hn0.
  { intros n. simpl. by destruct (seg_eqb_spec r hash). }
  destruct (decide (r :: R = [[]; hash])) as [[= -> ->]|Hrr].
  - destruct A as [|a A]; [done|]. simpl in Hc. destruct (seg_eqb_spec a hash); [done|].
    apply validate_cons in HvA as [_ HvA]. apply not_elem_of_cons in Hf as [Ha Hf].
    destruct (decide (a = plus ∨ a = [])) as [Hk|Hk].
    + assert (covers_segments A [hash] = false) as Hc'.
      { destruct Hk as [->| ->]; exact Hc. }
      destruct (escape_hash f A Hf HvA Hc') as [[k Hn]|Hx].
      * left. exists (S k). split_and!; [apply Hn0|done|]. destruct Hk as [->| ->]; exact Hn.
      * right. right. destruct Hk as [->| ->]; subst A; tauto.
    + left. exists 1. split_and!; [done|done|]. simpl.
      destruct (seg_eqb_spec a hash); [done|]. destruct (seg_eqb_spec a plus); [naive_solver|].
      destruct (seg_eqb_spec a []); [naive_solver|done].
  - left. destruct (escape_below f A (r :: R) Hf Hc) as [k Hn]. exists k. split_and!; [apply Hn0| |done].
    simpl. destruct (seg_eqb_spec r hash); [done|]. destruct (seg_eqb_spec r plus); [by intros [= ? _]|].
    intros [= -> Hnil]. destruct R as [|r' R]; [done|]. simpl in Hnil.
    destruct (seg_eqb_spec r' hash) as [->|]; [|done]. apply validate_cons in HvR as [_ HvR].
    apply hash_is_last in HvR as ->. done.
Qed.

(** *** Topics *)

(** A concrete topic name: not empty, no wildcards. *)
Definition concrete (t : string) : Prop := t ≠ ""%string ∧ ("#"%char ∉ str t) ∧ ("+"%char ∉ str t).

Definition level (seg : bytes) : Prop := plain seg ∧ ("/"%char ∉ seg).

Lemma fresh_level A : level (fresh A).
Proof.
  unfold level, plain, fresh. split_and!; intros (?&_)%elem_of_replicate; done.
Qed.

Lemma inst_levels f n R :
  level f → validate_segments R = Ok () → Forall (λ r, "/"%char ∉ r) R →
  Forall level (inst f (replicate n f) R).
Proof.
  intros Hf Hv Hs. induction Hs as [|r R Hr Hs IH]; simpl; [constructor|].
  apply validate_cons in Hv as [Hk Hv]. specialize (IH Hv).
  destruct (seg_eqb_spec r hash).
  { apply Forall_forall. by intros x (->&_)%elem_of_replicate. }
  constructor; [|done]. destruct (seg_eqb_spec r plus); [done|]. split; [naive_solver|done].
Qed.

Lemma join_levels ls :
  Forall level ls → ("#"%char ∉ join_with "/" ls) ∧ ("+"%char ∉ join_with "/" ls).
Proof.
  induction 1 as [|l ls [[? ?] ?] Hls IH]; simpl; [split; apply not_elem_of_nil|].
  destruct ls; [done|]. rewrite !not_elem_of_app, !not_elem_of_cons. naive_solver.
Qed.

Lemma segments_join ls :
  ls ≠ [] → Forall level ls → segments (unstr (join_with "/" ls)) = ls.
Proof.
  intros Hne Hls. unfold segments. rewrite str_unstr. apply split_join; [done|].
  eapply Forall_impl; [exact Hls|]. by intros ? [_ ?].
Qed.

Lemma segments_inj s t : segments s = segments t → s = t.
Proof.
  intros Heq. unfold segments in Heq.
  rewrite <-(unstr_str s), <-(unstr_str t), <-(join_split_at "/" (str s)), Heq.
  by rewrite join_split_at.
Qed.

Lemma inst_not_system f n R :
  f ≠ [] → head f ≠ Some "$"%char → system_topic R = false → system_topic (inst f (replicate n f) R) = false.
Proof.
  intros Hne Hf HR.
  assert (∀ l, system_topic (f :: l) = false) as Hsf.
  { intros l. destruct f as [|c f]; [done|]. simpl in *. destruct (Ascii.eqb_spec c "$") as [->|]; done. }
  destruct R as [|r R]; [done|]. simpl. destruct (seg_eqb_spec r hash).
  - destruct n; simpl; [done|exact (Hsf [])].
  - destruct (seg_eqb_spec r plus); [exact (Hsf [])|done].
Qed.

(** A requested filter that does not name a system topic matches none. *)
Lemma system_topic_unmatched requested topic :
  system_topic (segments requested) = false → system_topic (segments topic) = true →
  mqtt_topic_matches requested topic = false.
Proof.
  intros Hr Ht. unfold mqtt_topic_matches. rewrite Ht. destruct (segments requested) as [|r R] eqn:HR.
  { by apply split_at_nonempty in HR. }
  simpl. destruct (seg_eqb_spec r hash); [done|]. destruct (seg_eqb_spec r plus); [done|]. simpl.
  destruct (segments topic) as [|x t]; [done|]. destruct (seg_eqb_spec r x) as [->|]; [|done].
  simpl in *. congruence.
Qed.

Lemma matches_ordinary filter topic :
  system_topic (segments topic) = false →
  mqtt_topic_matches filter topic = matches_segments (segments filter) (segments topic).
Proof. intros Ht. unfold mqtt_topic_matches. by rewrite Ht, andb_false_r. Qed.

(** An uncovered filter lets through a topic the allowed filter does not match. *)
Lemma uncovered_escapes allowed requested :
  validate_topic_filter allowed = Ok () → validate_topic_filter requested = Ok () →
  requested ≠ ""%string → system_topic (segments requested) = false →
  filter_covers allowed requested = false →
  (∃ t, concrete t ∧ mqtt_topic_matches requested t = true ∧ mqtt_topic_matches allowed t = false) ∨
  (allowed, requested) ∈ exceptions.
Proof.
  intros HA HR Hne Hsys Hc. set (f := fresh (segments allowed)).
  destruct (escape_root f (segments allowed) (segments requested)) as [(n&Hi&Hi1&Hm)|Hx];
    [apply fresh_not_in|done|apply split_at_nonempty|apply split_at_nonempty| |done|done|done| |].
  - intros He. by apply Hne, segments_inj.
  - left. set (ls := inst f (replicate n f) (segments requested)) in *.
    assert (Forall level ls) as Hls by (apply inst_levels; [apply fresh_level|done|apply split_at_pieces]).
    assert (system_topic ls = false) as Hs by (by apply inst_not_system).
    exists (unstr (join_with "/" ls)). pose proof (segments_join ls Hi Hls) as Hseg.
    split_and!.
    + split; [|rewrite str_unstr; by apply join_levels].
      intros He. apply Hi1. by rewrite <-Hseg, He.
    + rewrite matches_ordinary, Hseg by by rewrite Hseg. apply matches_inst.
    + by rewrite matches_ordinary, Hseg by by rewrite Hseg.
  - right. assert (∃ a r, (a, r) ∈ exceptions ∧ segments allowed = segments a ∧ segments requested = segments r)
      as (a&r&Hin&Ha&Hr).
    { destruct Hx as [[-> ->]|[[->| ->] ->]];
        [exists "+/#"%string, "#"%string|exists "/+/#"%string, "/#"%string|exists "+/+/#"%string, "/#"%string];
        (split_and!; [unfold exceptions; repeat first [apply list_elem_of_here|apply list_elem_of_further]
                     |reflexivity|reflexivity]). }
    by rewrite (segments_inj _ _ Ha), (segments_inj _ _ Hr).
Qed.

(** A segment list the exceptions deny is still contained, on any topic that has a
    character. *)
Lemma exceptions_contained allowed requested t :
  (allowed, requested) ∈ exceptions → t ≠ ""%string →
  mqtt_topic_matches requested t = true → mqtt_topic_matches allowed t = true.
Proof.
  intros Hin Hne. assert (segments t ≠ [[]]) as Hs by (intros Hs; by apply Hne, segments_inj).
  unfold mqtt_topic_matches. pose proof (split_at_nonempty "/" (str t)) as Hn. fold (segments t) in Hn.
  unfold exceptions in Hin. repeat (apply elem_of_cons in Hin as [[= -> ->]|Hin]); [| | |by apply not_elem_of_nil in Hin].
  - change (segments "#") with [hash]. change (segments "+/#") with [plus; hash].
    destruct (segments t) as [|x l]; [done|]. simpl. destruct x as [|c x]; [done|]. by destruct (Ascii.eqb c "$").
  - change (segments "/#") with [[]; hash]. change (segments "/+/#") with [[]; plus; hash].
    destruct (segments t) as [|x [|y l]]; [done| |]; simpl; destruct (seg_eqb_spec [] x) as [<-|]; done.
  - change (segments "/#") with [[]; hash]. change (segments "+/+/#") with [plus; plus; hash].
    destruct (segments t) as [|x [|y l]]; [done| |]; simpl; destruct (seg_eqb_spec [] x) as [<-|]; done.
Qed.

(** C38: (mqtt) the subset test is exact. For valid filters, the requested one not empty and
    not naming a system topic, [filter_covers] grants exactly when every concrete topic the
    requested filter matches is matched by the allowed one too, [$]-topics included; the
    only filters contained and still denied are the three of [exceptions], which differ on
    no topic that has a character. Nothing is over-granted. *)
Theorem filter_covers_is_containment allowed requested :
  validate_topic_filter allowed = Ok () → validate_topic_filter requested = Ok () →
  requested ≠ ""%string → system_topic (segments requested) = false →
  (∀ t, concrete t → mqtt_topic_matches requested t = true → mqtt_topic_matches allowed t = true) ↔
  filter_covers allowed requested = true ∨ (allowed, requested) ∈ exceptions.
Proof.
  intros HA HR Hne Hsys. split.
  - intros Hall. destruct (filter_covers allowed requested) eqn:Hc; [by left|]. right.
    destruct (uncovered_escapes allowed requested) as [(t&Ht&Hr&Ha)|]; try done.
    rewrite Hall in Ha; done.
  - intros [Hc|Hx] t [Hte _] Hm; [|by eapply exceptions_contained].
    destruct (system_topic (segments t)) eqn:Hs.
    { by rewrite system_topic_unmatched in Hm. }
    rewrite matches_ordinary in * by done. by eapply covers_sound.
Qed.

Lemma mqtt_address_roundtrip_check :
  parse_mqtt_address "mqtt:ha:device:aa/state" = Ok (mkAddress "ha" "device:aa/state").
Proof. reflexivity. Qed.

Lemma filter_covers_is_containment_witness :
  (∀ t, concrete t → mqtt_topic_matches "sensors/+/temp" t = true → mqtt_topic_matches "sensors/#" t = true) ↔
  filter_covers "sensors/#" "sensors/+/temp" = true ∨ ("sensors/#", "sensors/+/temp")%string ∈ exceptions.
Proof. apply (filter_covers_is_containment "sensors/#" "sensors/+/temp"); done. Defined.
End MqttProps.
