(* ===== verification/Access.v ===== *)
(** * Access control ([brenn-lib/src/access/], [brenn-lib/src/tools/mod.rs])

    The policy an enforcement point consults: granted capabilities, the matchers that
    narrow them, the decisions over both, and the three builders that resolve an operator's
    configuration into a policy or refuse it by unwinding. *)

From S2P Require Import Prelude Envelope Grants Mqtt.
From Stdlib Require Import Ascii.

#[local] Open Scope list_scope.

#[global] Instance AppCapability_countable : Countable Caps.AppCapability.
Proof.
  refine (inj_countable Caps.capability_word Caps.capability_parse _).
  intros c. exact (proj2 (parse_word _ c) eq_refl).
Defined.

Module Access.
Import Envelope Mqtt.

(** ** Tool grants ([tools/mod.rs]) *)

(** [AclClause]. *)
Record AclClause := mkClause { requirements : gmap string string }.

(** [AclClause::matches]. *)
Definition clause_matches (c : AclClause) (attrs : gmap string string) : bool :=
  forallb (λ '(k, allowed),
             match attrs !! k with
             | Some v => String.eqb allowed "*" || String.eqb allowed v
             | None => false
             end) (map_to_list (requirements c)).

(** [acl_admits]. *)
Definition acl_admits (acl : list AclClause) (attrs : gmap string string) : bool :=
  match acl with
  | [] => true
  | _ => existsb (λ c, clause_matches c attrs) acl
  end.

(** [ResolvedRateLimit]. *)
Record ResolvedRateLimit := mkRateLimit { burst : N; sustained_per_minute : N }.

(** [ResolvedToolGrant]. *)
Record ResolvedToolGrant := mkToolGrant {
  acl : list AclClause;
  rate_limit : option ResolvedRateLimit;
}.

(** [ResolvedToolGrant::acl_allows]. *)
Definition acl_allows (g : ResolvedToolGrant) (attrs : gmap string string) : bool :=
  acl_admits (acl g) attrs.

(** ** Matchers ([acl.rs]) *)

(** [MqttSubMatcher]. *)
Record MqttSubMatcher := mkSubMatcher { sub_client : string; topic_filter : string }.

(** [MqttClientMatcher]. *)
Record MqttClientMatcher := mkClientMatcher { pub_client : string }.

(** [ChannelMatcher]. *)
Inductive ChannelMatcher := Exact (s : string) | Prefix (p : string).

(** [WebhookMatcher]. *)
Record WebhookMatcher := mkWebhookMatcher { endpoint : string }.

(** [ChannelMatcher::matches]. *)
Definition channel_matches (m : ChannelMatcher) (channel : string) : bool :=
  match m with
  | Exact s => String.eqb channel s
  | Prefix p => match strip_prefix p channel with Some _ => true | None => false end
  end.

(** [AclSet]. *)
Record AclSet := mkAcls {
  mqtt_subscribe : list MqttSubMatcher;
  mqtt_publish : list MqttClientMatcher;
  brenn_subscribe : list ChannelMatcher;
  brenn_publish : list ChannelMatcher;
  ephemeral_subscribe : list ChannelMatcher;
  ephemeral_publish : list ChannelMatcher;
  local_publish : list ChannelMatcher;
  local_subscribe : list ChannelMatcher;
  webhook : list WebhookMatcher;
}.

(** ** The policy and its decisions ([mod.rs]) *)

(** [GrantSet]. *)
Record GrantSet := mkGrantSet { caps : gset Caps.AppCapability }.

(** [GrantSet::has]. *)
Definition has (g : GrantSet) (cap : Caps.AppCapability) : bool := bool_decide (cap ∈ caps g).

(** [GrantSet::insert]: the new set, and whether the capability is new to it. *)
Definition grant_insert (g : GrantSet) (cap : Caps.AppCapability) : GrantSet * bool :=
  (mkGrantSet ({[cap]} ∪ caps g), negb (has g cap)).

(** [AppPolicy]. *)
Record AppPolicy := mkPolicy {
  grants : GrantSet;
  acls : AclSet;
  tool_grants : gmap string ResolvedToolGrant;
}.

(** [AppPolicy::has_grant]. *)
Definition has_grant (p : AppPolicy) (cap : Caps.AppCapability) : bool := has (grants p) cap.

(** [AppPolicy::tool_grant]. *)
Definition tool_grant (p : AppPolicy) (tool : string) : option ResolvedToolGrant := tool_grants p !! tool.

(** [AppPolicy::mqtt_acl_covers]. *)
Definition mqtt_acl_covers (p : AppPolicy) (client requested_filter : string) : bool :=
  existsb (λ m, String.eqb (sub_client m) client && filter_covers (topic_filter m) requested_filter)
    (mqtt_subscribe (acls p)).

(** [AppPolicy::acl_covers]. *)
Definition acl_covers (l : list ChannelMatcher) (channel : string) : bool :=
  existsb (λ m, channel_matches m channel) l.

(** [AppPolicy::brenn_acl_covers]. *)
Definition brenn_acl_covers (p : AppPolicy) (channel : string) : bool :=
  acl_covers (brenn_subscribe (acls p)) channel.

(** [AppPolicy::webhook_acl_covers]. *)
Definition webhook_acl_covers (p : AppPolicy) (ep : string) : bool :=
  existsb (λ m, String.eqb (endpoint m) ep) (webhook (acls p)).

(** [AppPolicy::allows_mqtt_dynamic_subscribe]. *)
Definition allows_mqtt_dynamic_subscribe (p : AppPolicy) (client requested_filter : string) : bool :=
  has (grants p) Caps.DynamicSubscribe && has (grants p) Caps.MqttSubscribe
  && mqtt_acl_covers p client requested_filter.

(** [AppPolicy::allows_brenn_dynamic_subscribe]. *)
Definition allows_brenn_dynamic_subscribe (p : AppPolicy) (channel : string) : bool :=
  has (grants p) Caps.DynamicSubscribe && has (grants p) Caps.MessagingSubscribe
  && brenn_acl_covers p channel.

(** [AppPolicy::allows_webhook_dynamic_subscribe]. *)
Definition allows_webhook_dynamic_subscribe (p : AppPolicy) (ep : string) : bool :=
  has (grants p) Caps.DynamicSubscribe && has (grants p) Caps.Webhook && webhook_acl_covers p ep.

(** [AppPolicy::allows_ephemeral_delivery]. *)
Definition allows_ephemeral_delivery (p : AppPolicy) (channel : string) : bool :=
  has (grants p) Caps.EphemeralSubscribe && acl_covers (ephemeral_subscribe (acls p)) channel.

(** [AppPolicy::allows_local_delivery]. *)
Definition allows_local_delivery (p : AppPolicy) (channel : string) : bool :=
  has (grants p) Caps.LocalSubscribe && acl_covers (local_subscribe (acls p)) channel.

(** [AppPolicy::allows_ephemeral_dynamic_subscribe]. *)
Definition allows_ephemeral_dynamic_subscribe (p : AppPolicy) (channel : string) : bool :=
  has (grants p) Caps.DynamicSubscribe && allows_ephemeral_delivery p channel.

(** [AppPolicy::allows_local_dynamic_subscribe]. *)
Definition allows_local_dynamic_subscribe (p : AppPolicy) (channel : string) : bool :=
  has (grants p) Caps.DynamicSubscribe && allows_local_delivery p channel.

(** [AppPolicy::allows_mqtt_delivery]. *)
Definition allows_mqtt_delivery (p : AppPolicy) (client topic : string) : bool :=
  has (grants p) Caps.MqttSubscribe && mqtt_acl_covers p client topic.

(** [AppPolicy::allows_brenn_delivery]. *)
Definition allows_brenn_delivery (p : AppPolicy) (channel : string) : bool :=
  has (grants p) Caps.MessagingSubscribe && brenn_acl_covers p channel.

(** [AppPolicy::allows_webhook_delivery]. *)
Definition allows_webhook_delivery (p : AppPolicy) (ep : string) : bool :=
  has (grants p) Caps.Webhook && webhook_acl_covers p ep.

(** [AppPolicy::allows_brenn_publish]. *)
Definition allows_brenn_publish (p : AppPolicy) (channel : string) : bool :=
  has (grants p) Caps.MessagingPublish && acl_covers (brenn_publish (acls p)) channel.

(** [AppPolicy::allows_ephemeral_publish]. *)
Definition allows_ephemeral_publish (p : AppPolicy) (channel : string) : bool :=
  has (grants p) Caps.EphemeralPublish && acl_covers (ephemeral_publish (acls p)) channel.

(** [AppPolicy::allows_local_publish]. *)
Definition allows_local_publish (p : AppPolicy) (channel : string) : bool :=
  has (grants p) Caps.LocalPublish && acl_covers (local_publish (acls p)) channel.

(** [AppPolicy::allows_mqtt_publish]. *)
Definition allows_mqtt_publish (p : AppPolicy) (client : string) : bool :=
  has (grants p) Caps.MqttPublish
  && existsb (λ m, String.eqb (pub_client m) client) (mqtt_publish (acls p)).

(** [AppPolicy::allows_channel_access]. *)
Definition allows_channel_access (p : AppPolicy) (channel_address : string) : bool :=
  match split_address channel_address with
  | Some (Mqtt, _) =>
      match parse_mqtt_address channel_address with
      | Err _ => false
      | Ok addr =>
          match validate_topic_filter_str (topic addr) with
          | Err _ => false
          | Ok _ => allows_mqtt_delivery p (client addr) (topic addr)
          end
      end
  | Some (Brenn, channel) => allows_brenn_delivery p channel
  | Some (Ephemeral, channel) => allows_ephemeral_delivery p channel
  | Some (Webhook, ep) => allows_webhook_delivery p ep
  | Some (PwaPush, _) => false
  | Some (Local, channel) => allows_local_delivery p channel
  | None => false
  end.

(** ** Authored shapes ([raw.rs]) *)

(** [MqttSubMatcherRaw]. *)
Record MqttSubMatcherRaw := mkSubRaw { raw_client : string; raw_filter : string }.

(** [MqttClientMatcherRaw]. *)
Record MqttClientMatcherRaw := mkClientRaw { raw_pub_client : string }.

(** [ChannelMatcherRaw]. *)
Inductive ChannelMatcherRaw := RawExact (s : string) | RawPrefix (p : string).

(** [WebhookMatcherRaw]. *)
Record WebhookMatcherRaw := mkWebhookRaw { raw_endpoint : string }.

(** [AppAclRaw]. *)
Record AppAclRaw := mkAppAclRaw {
  app_mqtt_subscribe : list MqttSubMatcherRaw;
  app_mqtt_publish : list MqttClientMatcherRaw;
  app_brenn_subscribe : list ChannelMatcherRaw;
  app_brenn_publish : list ChannelMatcherRaw;
  app_ephemeral_publish : list ChannelMatcherRaw;
  app_ephemeral_subscribe : list ChannelMatcherRaw;
  app_local_publish : list ChannelMatcherRaw;
  app_webhook : list WebhookMatcherRaw;
}.

(** [AttachAclsRaw]. *)
Record AttachAclsRaw := mkAttachAclsRaw {
  attach_subscribe : list ChannelMatcherRaw;
  attach_publish : list ChannelMatcherRaw;
  attach_ephemeral_subscribe : list ChannelMatcherRaw;
  attach_ephemeral_publish : list ChannelMatcherRaw;
}.

(** [WasmAclsRaw]. *)
Record WasmAclsRaw := mkWasmAclsRaw {
  wasm_subscribe : list ChannelMatcherRaw;
  wasm_ephemeral_subscribe : list ChannelMatcherRaw;
  wasm_publish : list ChannelMatcherRaw;
  wasm_ephemeral_publish : list ChannelMatcherRaw;
  wasm_local_publish : list ChannelMatcherRaw;
  wasm_local_subscribe : list ChannelMatcherRaw;
  wasm_mqtt_publish : list MqttClientMatcherRaw;
  wasm_mqtt_subscribe : list MqttSubMatcherRaw;
  wasm_webhook : list WebhookMatcherRaw;
}.
End Access.

(** ** Resolution ([resolve.rs]) *)
Module Resolve.
Import Envelope Mqtt Access.

(** [.iter().map(f).collect()] where [f] may unwind. *)
Fixpoint collect {A B} (f : A → panics B) (l : list A) : panics (list B) :=
  match l with
  | [] => Returns []
  | x :: l => y ← f x; ys ← collect f l; Returns (y :: ys)
  end.

(** [resolve_channel]. *)
Definition resolve_channel (raw : ChannelMatcherRaw) : panics ChannelMatcher :=
  match raw with
  | RawExact s =>
      _ ← rust_assert (negb (String.eqb s "")) "exact matcher is empty";
      _ ← rust_assert (negb (is_auto_channel_name s)) "exact matcher reaches into the reserved auto namespace";
      Returns (Exact s)
  | RawPrefix p =>
      _ ← rust_assert (negb (String.eqb p "")) "prefix matcher is empty";
      _ ← rust_assert (ends_at_matcher_boundary p) "prefix matcher must end at a segment boundary";
      _ ← rust_assert (negb (is_auto_channel_name p)) "prefix matcher reaches into the reserved auto namespace";
      Returns (Prefix p)
  end.

(** The subscribe matcher once its client is accepted. *)
Definition resolve_filter (m : MqttSubMatcherRaw) : panics MqttSubMatcher :=
  match validate_topic_filter_str (raw_filter m) with
  | Err _ => Panics "matcher has invalid topic filter"
  | Ok _ => Returns (mkSubMatcher (raw_client m) (raw_filter m))
  end.

(** The webhook entry of each builder. *)
Definition resolve_webhook (m : WebhookMatcherRaw) : panics WebhookMatcher :=
  _ ← rust_assert (negb (String.eqb (raw_endpoint m) "")) "webhook matcher has an empty endpoint slug";
  Returns (mkWebhookMatcher (raw_endpoint m)).

(** The grant loop of the builders: each capability at most once. *)
Fixpoint insert_grants {G} (cap_of : G → panics (option Caps.AppCapability)) (set : GrantSet) (l : list G)
    : panics GrantSet :=
  match l with
  | [] => Returns set
  | g :: l =>
      o ← cap_of g;
      match o with
      | None => insert_grants cap_of set l
      | Some cap =>
          let '(set, newly_inserted) := grant_insert set cap in
          _ ← rust_assert newly_inserted "duplicate grant";
          insert_grants cap_of set l
      end
  end.

Definition no_grants : GrantSet := mkGrantSet ∅.

Section App.
Context {MqttClientIdentity : Type}.

(** [validate_mqtt_client]. *)
Definition validate_mqtt_client (client : string) (mqtt_clients : gmap string MqttClientIdentity) : panics unit :=
  _ ← rust_assert (is_valid_client_slug client) "matcher has invalid client slug";
  rust_assert (bool_decide (is_Some (mqtt_clients !! client))) "matcher names unconfigured MQTT client".

(** An authored capability, refused when an agent may not hold it. *)
Definition authorable (cap : Caps.AppCapability) : panics (option Caps.AppCapability) :=
  match Caps.llm_authorable cap with
  | Err reason => Panics reason
  | Ok _ => Returns (Some cap)
  end.

(** [build_app_policy]. *)
Definition build_app_policy (granted : list Caps.AppCapability) (acl : AppAclRaw)
    (mqtt_clients : gmap string MqttClientIdentity) : panics AppPolicy :=
  grant_set ← insert_grants authorable no_grants granted;
  mqtt_sub ← collect (λ m, _ ← validate_mqtt_client (raw_client m) mqtt_clients; resolve_filter m)
               (app_mqtt_subscribe acl);
  mqtt_pub ← collect (λ m, _ ← validate_mqtt_client (raw_pub_client m) mqtt_clients;
                           Returns (mkClientMatcher (raw_pub_client m))) (app_mqtt_publish acl);
  brenn_sub ← collect resolve_channel (app_brenn_subscribe acl);
  brenn_pub ← collect resolve_channel (app_brenn_publish acl);
  eph_sub ← collect resolve_channel (app_ephemeral_subscribe acl);
  eph_pub ← collect resolve_channel (app_ephemeral_publish acl);
  loc_pub ← collect resolve_channel (app_local_publish acl);
  hooks ← collect resolve_webhook (app_webhook acl);
  Returns (mkPolicy grant_set
    (mkAcls mqtt_sub mqtt_pub brenn_sub brenn_pub eph_sub eph_pub loc_pub [] hooks) ∅).
End App.

(** The capability a component grant adds, or the refusal of a page capability. *)
Definition wasm_capability (g : CG.ComponentGrant) : panics (option Caps.AppCapability) :=
  match Grants.component_capability g with
  | Some cap => Returns (Some cap)
  | None =>
      match g with
      | CG.Tools | CG.Calls | CG.Provides => Returns None
      | _ => Panics "granted a page capability"
      end
  end.

(** [if !list.is_empty() { grant_set.insert(cap); }]. *)
Definition derive_grant {A} (l : list A) (cap : Caps.AppCapability) (set : GrantSet) : GrantSet :=
  match l with
  | [] => set
  | _ => (grant_insert set cap).1
  end.

(** The grants [build_wasm_policy] derives from the lists that are not empty. *)
Definition derive_grants (raw : WasmAclsRaw) (set : GrantSet) : GrantSet :=
  let set := derive_grant (wasm_subscribe raw) Caps.MessagingSubscribe set in
  let set := derive_grant (wasm_mqtt_subscribe raw) Caps.MqttSubscribe set in
  let set := derive_grant (wasm_webhook raw) Caps.Webhook set in
  let set := derive_grant (wasm_ephemeral_publish raw) Caps.EphemeralPublish set in
  let set := derive_grant (wasm_local_publish raw) Caps.LocalPublish set in
  let set := derive_grant (wasm_ephemeral_subscribe raw) Caps.EphemeralSubscribe set in
  derive_grant (wasm_local_subscribe raw) Caps.LocalSubscribe set.

(** [build_wasm_policy]. *)
Definition build_wasm_policy (granted : list CG.ComponentGrant) (raw : WasmAclsRaw) : panics AppPolicy :=
  grant_set ← insert_grants wasm_capability no_grants granted;
  let grant_set := derive_grants raw grant_set in
  brenn_sub ← collect resolve_channel (wasm_subscribe raw);
  eph_sub ← collect resolve_channel (wasm_ephemeral_subscribe raw);
  brenn_pub ← collect resolve_channel (wasm_publish raw);
  eph_pub ← collect resolve_channel (wasm_ephemeral_publish raw);
  loc_pub ← collect resolve_channel (wasm_local_publish raw);
  loc_sub ← collect resolve_channel (wasm_local_subscribe raw);
  mqtt_pub ← collect (λ m, _ ← rust_assert (is_valid_client_slug (raw_pub_client m)) "invalid client slug";
                           Returns (mkClientMatcher (raw_pub_client m))) (wasm_mqtt_publish raw);
  mqtt_sub ← collect (λ m, _ ← rust_assert (is_valid_client_slug (raw_client m)) "invalid client slug";
                           resolve_filter m) (wasm_mqtt_subscribe raw);
  hooks ← collect resolve_webhook (wasm_webhook raw);
  Returns (mkPolicy grant_set
    (mkAcls mqtt_sub mqtt_pub brenn_sub brenn_pub eph_sub eph_pub loc_pub loc_sub hooks) ∅).

(** [build_attach_policy]. *)
Definition build_attach_policy (granted : list AG.AttachGrant) (raw : AttachAclsRaw) : panics AppPolicy :=
  grant_set ← insert_grants (λ g, Returns (Some (AG.attach_capability g))) no_grants granted;
  brenn_sub ← collect resolve_channel (attach_subscribe raw);
  brenn_pub ← collect resolve_channel (attach_publish raw);
  eph_sub ← collect resolve_channel (attach_ephemeral_subscribe raw);
  eph_pub ← collect resolve_channel (attach_ephemeral_publish raw);
  Returns (mkPolicy grant_set (mkAcls [] [] brenn_sub brenn_pub eph_sub eph_pub [] [] []) ∅).
End Resolve.

Module AccessProps.
Import Envelope Mqtt MqttProps Access Resolve.

(** *** What resolution guarantees *)

(** A matcher an operator may author: never empty, a prefix ending at a boundary, and
    neither reaching into the auto namespace. *)
Definition channel_matcher_wf (m : ChannelMatcher) : Prop :=
  match m with
  | Exact s => s ≠ ""%string ∧ is_auto_channel_name s = false
  | Prefix p => p ≠ ""%string ∧ ends_at_matcher_boundary p = true ∧ is_auto_channel_name p = false
  end.

Record acls_wf (a : AclSet) : Prop := mkAclsWf {
  wf_mqtt_subscribe : Forall (λ m, is_valid_client_slug (sub_client m) = true ∧
                                   validate_topic_filter (topic_filter m) = Ok ()) (mqtt_subscribe a);
  wf_mqtt_publish : Forall (λ m, is_valid_client_slug (pub_client m) = true) (mqtt_publish a);
  wf_channels : Forall channel_matcher_wf
    (brenn_subscribe a ++ brenn_publish a ++ ephemeral_subscribe a ++ ephemeral_publish a ++
     local_publish a ++ local_subscribe a);
  wf_webhook : Forall (λ m, endpoint m ≠ ""%string) (webhook a);
}.

Lemma bind_returns {A B} (m : panics A) (f : A → panics B) b :
  (x ← m; f x) = Returns b ↔ ∃ a, m = Returns a ∧ f a = Returns b.
Proof. destruct m; simpl; naive_solver. Qed.

Lemma assert_returns b why u : rust_assert b why = Returns u ↔ b = true.
Proof. destruct b, u; done. Qed.

(** Reads a chain of binds that returned. *)
Ltac returned :=
  repeat match goal with
  | H : (_ ← _; _) = Returns _ |- _ => apply bind_returns in H as (?&?&?)
  | H : rust_assert _ _ = Returns _ |- _ => apply assert_returns in H
  | H : Returns _ = Returns _ |- _ => injection H as H
  end.

Lemma collect_Forall {A B} (f : A → panics B) (P : B → Prop) l r :
  (∀ x y, f x = Returns y → P y) → collect f l = Returns r → Forall P r.
Proof.
  intros Hf. revert r. induction l as [|x l IH]; intros r; simpl.
  - intros [= <-]. constructor.
  - intros H. returned. subst r. constructor; eauto.
Qed.

Lemma resolve_channel_wf raw m : resolve_channel raw = Returns m → channel_matcher_wf m.
Proof.
  destruct raw as [s|p]; simpl; intros H; returned; subst m; simpl;
    rewrite !negb_true_iff in *; split_and?; try done; by apply String.eqb_neq.
Qed.

Lemma resolve_filter_wf m r :
  resolve_filter m = Returns r → sub_client r = raw_client m ∧ validate_topic_filter (topic_filter r) = Ok ().
Proof.
  unfold resolve_filter, validate_topic_filter_str. destruct (validate_topic_filter (raw_filter m)) as [[]|] eqn:Hv;
    [|done]. by intros [= <-].
Qed.

Lemma resolve_webhook_wf m r : resolve_webhook m = Returns r → endpoint r ≠ ""%string.
Proof.
  unfold resolve_webhook. intros H. returned. subst r. simpl. rewrite negb_true_iff in *. by apply String.eqb_neq.
Qed.

(** A policy one of the builders returned. *)
Inductive built : AppPolicy → Prop :=
| built_app {I} granted acl (clients : gmap string I) p :
    build_app_policy granted acl clients = Returns p → built p
| built_wasm granted raw p : build_wasm_policy granted raw = Returns p → built p
| built_attach granted raw p : build_attach_policy granted raw = Returns p → built p.

Ltac all_channels :=
  rewrite ?Forall_app; split_and?; try (eapply collect_Forall; [apply resolve_channel_wf|eassumption]);
  try constructor.

Lemma built_acls_wf p : built p → acls_wf (acls p).
Proof.
  intros [I granted acl clients q H|granted raw q H|granted raw q H].
  - unfold build_app_policy in H. returned. subst q. cbn [acls]. split; cbn.
    + eapply collect_Forall; [|eassumption]. intros m r Hm. simpl in Hm. returned.
      destruct (resolve_filter_wf m r ltac:(assumption)) as [-> ?]. unfold validate_mqtt_client in *. by returned.
    + eapply collect_Forall; [|eassumption]. intros m r Hm. simpl in Hm. returned. subst r.
      unfold validate_mqtt_client in *. by returned.
    + all_channels.
    + eapply collect_Forall; [apply resolve_webhook_wf|eassumption].
  - unfold build_wasm_policy in H. returned. subst q. cbn [acls]. split; cbn.
    + eapply collect_Forall; [|eassumption]. intros m r Hm. simpl in Hm. returned.
      by destruct (resolve_filter_wf m r ltac:(assumption)) as [-> ?].
    + eapply collect_Forall; [|eassumption]. intros m r Hm. simpl in Hm. returned. by subst r.
    + all_channels.
    + eapply collect_Forall; [apply resolve_webhook_wf|eassumption].
  - unfold build_attach_policy in H. returned. subst q. cbn [acls]. split; cbn; try constructor.
    all_channels.
Qed.

(** C37: (access) every resolved policy is well formed: whatever an operator wrote for an
    agent, a component or an attacher, a builder that returns has only matchers that passed
    their rules, MQTT clients valid slugs with valid filters, channel matchers not empty,
    prefixes ending at a segment boundary, endpoints not empty. Anything else unwound. *)
Theorem resolved_policies_are_well_formed p : built p → acls_wf (acls p).
Proof. apply built_acls_wf. Qed.

(** *** The auto namespace *)

Lemma ends_with_boundary_segment c p r :
  (Ascii.eqb c "." || Ascii.eqb c "/") = true → ends_with_char p c = true →
  first_segment (p +:+ r) = first_segment p.
Proof.
  intros Hc. induction p as [|a p IH]; simpl; [done|]. change (String a p +:+ r) with (String a (p +:+ r)).
  cbn [first_segment]. destruct (Ascii.eqb a "." || Ascii.eqb a "/") eqn:Ha; [done|].
  intros He. f_equal. apply IH. destruct p as [|b p]; [|done]. simpl in He.
  apply Ascii.eqb_eq in He as ->. congruence.
Qed.

Lemma auto_segment name : is_auto_channel_name name = true ↔ first_segment name = "auto"%string.
Proof. by apply (segment_test "auto" name). Qed.

Lemma matcher_misses_auto m ch :
  channel_matcher_wf m → is_auto_channel_name ch = true → channel_matches m ch = false.
Proof.
  intros Hm Hch. destruct m as [s|q]; simpl in *.
  - destruct (String.eqb_spec ch s) as [->|]; [|done]. destruct Hm. congruence.
  - destruct Hm as (_&Hb&Ha). destruct (strip_prefix q ch) as [r|] eqn:Hs; [|done].
    apply strip_prefix_Some in Hs as ->. apply auto_segment in Hch.
    apply not_true_iff_false in Ha. destruct Ha. apply auto_segment. rewrite <-Hch. symmetry.
    unfold ends_at_matcher_boundary in Hb. simpl in Hb. rewrite orb_false_r in Hb.
    apply orb_prop in Hb as [Hb|Hb]; by eapply ends_with_boundary_segment in Hb.
Qed.

Lemma covers_misses_auto l ch :
  Forall channel_matcher_wf l → is_auto_channel_name ch = true → acl_covers l ch = false.
Proof.
  intros Hl Hch. unfold acl_covers. apply not_true_iff_false. rewrite existsb_exists.
  intros (m&Hin%list_elem_of_In&Hm). rewrite Forall_forall in Hl.
  by rewrite matcher_misses_auto in Hm by auto.
Qed.

(** (access) no authored matcher reaches an auto channel. Under a resolved policy a name
    in the auto namespace is refused by every channel decision, delivery and publish, in
    every scheme that names channels, and so is access to its address; prefixes cannot
    straddle the namespace because they end at a segment boundary. *)
Theorem auto_channels_are_out_of_reach p ch :
  built p → is_auto_channel_name ch = true →
  allows_brenn_delivery p ch = false ∧ allows_ephemeral_delivery p ch = false ∧
  allows_local_delivery p ch = false ∧ allows_brenn_publish p ch = false ∧
  allows_ephemeral_publish p ch = false ∧ allows_local_publish p ch = false ∧
  Forall (λ s, allows_channel_access p (prefix s +:+ ch) = false) [Brenn; Ephemeral; Local].
Proof.
  intros Hp Hch. destruct (built_acls_wf p Hp) as [_ _ Hwf _]. rewrite !Forall_app in Hwf.
  destruct Hwf as (?&?&?&?&?&?).
  assert (∀ l b, Forall channel_matcher_wf l → b && acl_covers l ch = false) as Hno.
  { intros l b Hl. by rewrite covers_misses_auto, andb_false_r. }
  unfold allows_channel_access, allows_brenn_delivery, allows_ephemeral_delivery, allows_local_delivery,
    allows_brenn_publish, allows_ephemeral_publish, allows_local_publish, brenn_acl_covers in *.
  split_and!; try by apply Hno.
  repeat constructor; rewrite split_prefix; by apply Hno.
Qed.

(** *** Two factors *)

(** Whether a matcher of the list for a scheme covers the address. *)
Definition narrowed (p : AppPolicy) (s : ChannelScheme) (address rest : string) : Prop :=
  match s with
  | Brenn => acl_covers (brenn_subscribe (acls p)) rest = true
  | Ephemeral => acl_covers (ephemeral_subscribe (acls p)) rest = true
  | Local => acl_covers (local_subscribe (acls p)) rest = true
  | Webhook => webhook_acl_covers p rest = true
  | Mqtt => ∃ a, parse_topic_filter address = Ok a ∧ mqtt_acl_covers p (client a) (topic a) = true
  | PwaPush => False
  end.

(** (access) access takes both factors. An address may be held, received or read
    exactly when it splits into a scheme and a remainder, the policy grants the capability
    whose transport is subscribing on that scheme, and a matcher of that scheme's list
    covers it (for MQTT, one that covers the parsed and validated filter); egress-only and
    unclassified addresses never are. *)
Theorem access_takes_grant_and_matcher p address :
  allows_channel_access p address = true ↔
  ∃ s rest cap, split_address address = Some (s, rest) ∧ has_grant p cap = true ∧
    Caps.capability_transport cap = Some (Planes.Subscribe, s) ∧ narrowed p s address rest.
Proof.
  unfold allows_channel_access. destruct (split_address address) as [[s rest]|] eqn:Hs.
  2:{ split; [done|]. by intros (?&?&?&?&_). }
  assert (∀ cap0, Caps.capability_transport cap0 = Some (Planes.Subscribe, s) →
    (∃ s' rest' cap, Some (s, rest) = Some (s', rest') ∧ has_grant p cap = true ∧
      Caps.capability_transport cap = Some (Planes.Subscribe, s') ∧ narrowed p s' address rest') ↔
    has_grant p cap0 = true ∧ narrowed p s address rest) as Hone.
  { intros cap0 H0. split; [|naive_solver]. intros (s'&rest'&cap&[= <- <-]&Hg&Hc&Hn).
    assert (cap = cap0) as -> by (destruct cap, cap0; simpl in *; congruence). done. }
  unfold allows_brenn_delivery, allows_ephemeral_delivery, allows_local_delivery,
    allows_webhook_delivery, allows_mqtt_delivery, brenn_acl_covers, has_grant in *.
  destruct s.
  - rewrite (Hone Caps.MessagingSubscribe eq_refl), andb_true_iff. done.
  - rewrite (Hone Caps.EphemeralSubscribe eq_refl), andb_true_iff. done.
  - rewrite (Hone Caps.LocalSubscribe eq_refl), andb_true_iff. done.
  - rewrite (Hone Caps.MqttSubscribe eq_refl). cbn [narrowed].
    unfold parse_topic_filter, validate_topic_filter_str.
    destruct (parse_mqtt_address address) as [a|]; [|naive_solver].
    destruct (validate_topic_filter (topic a)) as [|]; [|naive_solver].
    rewrite andb_true_iff. naive_solver.
  - rewrite (Hone Caps.Webhook eq_refl), andb_true_iff. done.
  - split; [done|]. by intros (?&?&?&[= <- <-]&_&_&?).
Qed.

(** (access) what reaches an MQTT subscriber was allowed by the operator: when access to
    an [mqtt:] address is allowed, every ordinary topic its filter matches is matched by one
    of the policy's own filters for that client. *)
Theorem mqtt_access_stays_within_the_allowed_filters p address rest t :
  split_address address = Some (Mqtt, rest) → allows_channel_access p address = true →
  system_topic (segments t) = false →
  ∃ a, parse_topic_filter address = Ok a ∧
    (mqtt_topic_matches (topic a) t = true →
     ∃ m, m ∈ mqtt_subscribe (acls p) ∧ sub_client m = client a ∧
          mqtt_topic_matches (topic_filter m) t = true).
Proof.
  intros Hs Ha Ht. unfold allows_channel_access in Ha. rewrite Hs in Ha. unfold parse_topic_filter.
  destruct (parse_mqtt_address address) as [a|]; [|done]. unfold validate_topic_filter_str in Ha.
  destruct (validate_topic_filter (topic a)); [|done]. exists a. split; [done|]. intros Hm.
  apply andb_prop in Ha as [_ Ha]. unfold mqtt_acl_covers in Ha. rewrite existsb_exists in Ha.
  destruct Ha as (m&Hin%list_elem_of_In&[Hc%String.eqb_eq Hf]%andb_prop). exists m. split_and!; [done|done|].
  rewrite matches_ordinary in * by done. by eapply covers_sound.
Qed.

(** *** Grants *)

Lemma has_spec g cap : has g cap = true ↔ cap ∈ caps g.
Proof. apply bool_decide_eq_true. Qed.

(** The grant loop adds what its elements name, each once. *)
Lemma insert_grants_spec {G} (cap_of : G → panics (option Caps.AppCapability)) l : ∀ set set',
  insert_grants cap_of set l = Returns set' →
  (∀ c, has set' c = true ↔ has set c = true ∨ ∃ g, g ∈ l ∧ cap_of g = Returns (Some c)) ∧
  Forall (λ g, ∃ o, cap_of g = Returns o ∧ ∀ c, o = Some c → has set c = false) l.
Proof.
  induction l as [|g l IH]; intros set set'; simpl.
  - intros [= <-]. split; [|constructor]. intros c. split; [by left|].
    intros [?|(?&?%not_elem_of_nil&_)]; done.
  - intros H. apply bind_returns in H as (o&Ho&H). destruct o as [cap|].
    + simpl in H. returned. rewrite negb_true_iff in *.
      edestruct IH as [Hc Hf]; [eassumption|]. split.
      * intros c. rewrite Hc, !has_spec. simpl. rewrite elem_of_union, elem_of_singleton.
        setoid_rewrite elem_of_cons. split.
        -- intros [[->|?]|(h&?&?)]; [right; exists g; tauto|by left|right; exists h; tauto].
        -- intros [?|(h&[->|?]&Hh)]; [tauto| |right; by exists h].
           left. left. rewrite Ho in Hh. by injection Hh.
      * constructor; [exists (Some cap); split; [done|by intros c [= <-]]|]. eapply Forall_impl; [exact Hf|].
        intros h (o&Hh&Hset). exists o. split; [done|]. intros c ->. specialize (Hset c eq_refl).
        apply not_true_iff_false. apply not_true_iff_false in Hset. rewrite has_spec in *. simpl in Hset. set_solver.
    + edestruct IH as [Hc Hf]; [eassumption|]. split.
      * intros c. rewrite Hc. setoid_rewrite elem_of_cons. split.
        -- intros [?|(h&?&?)]; [by left|right; exists h; tauto].
        -- intros [?|(h&[->|?]&Hh)]; [by left|congruence|right; by exists h].
      * constructor; [by exists None|done].
Qed.

Lemma authorable_Some cap o : authorable cap = Returns o ↔ o = Some cap ∧ Caps.llm_authorable cap = Ok ().
Proof. unfold authorable. destruct (Caps.llm_authorable cap) as [[]|]; naive_solver. Qed.

(** (access) an agent holds the capabilities it was written, all of them authorable,
    and nothing is derived from its lists; in particular matchers for [local:] publishing
    without the [local_publish] grant authorize no publish. *)
Theorem app_policy_holds_exactly_the_authored_grants {I} granted acl (clients : gmap string I) p :
  build_app_policy granted acl clients = Returns p →
  (∀ c, has_grant p c = true ↔ c ∈ granted) ∧
  Forall (λ c, Caps.llm_authorable c = Ok ()) granted ∧
  (Caps.LocalPublish ∉ granted → ∀ ch, allows_local_publish p ch = false).
Proof.
  intros H. unfold build_app_policy in H. apply bind_returns in H as (set&Hset&H). returned. subst p.
  apply insert_grants_spec in Hset as [Hc Hf].
  assert (∀ c, has set c = true ↔ c ∈ granted) as Hiff.
  { intros c. rewrite Hc. rewrite Forall_forall in Hf. split.
    - intros [Hn|(g&Hg&Ho)].
      + by apply has_spec in Hn; set_solver.
      + apply authorable_Some in Ho as [[= ->] _]. done.
    - intros Hin. right. exists c. split; [done|]. destruct (Hf c Hin) as (o&Ho&_).
      apply authorable_Some in Ho as Ho'. by destruct Ho' as [-> _]. }
  split_and!.
  - exact Hiff.
  - eapply Forall_impl; [exact Hf|]. intros c (o&[_ ?]%authorable_Some&_). done.
  - intros Hn ch. unfold allows_local_publish. simpl. destruct (has set Caps.LocalPublish) eqn:Hh; [|done].
    apply Hiff in Hh. done.
Qed.

(** *** Witnesses *)

Definition demo_raw : AppAclRaw :=
  mkAppAclRaw [mkSubRaw "home" "sensors/#"] [] [RawPrefix "alerts/"] [] [] [] [RawExact "panel"] [].
Definition demo_clients : gmap string unit := {["home"%string := ()]}.
Definition demo_granted : list Caps.AppCapability := [Caps.MqttSubscribe; Caps.MessagingSubscribe].
Definition demo_policy : AppPolicy :=
  match build_app_policy demo_granted demo_raw demo_clients with
  | Returns p => p
  | Panics _ => mkPolicy no_grants (mkAcls [] [] [] [] [] [] [] [] []) ∅
  end.

Lemma demo_builds : build_app_policy demo_granted demo_raw demo_clients = Returns demo_policy.
Proof.
  assert (match build_app_policy demo_granted demo_raw demo_clients with Returns _ => true | Panics _ => false end = true)
    as Hr by (vm_compute; reflexivity).
  unfold demo_policy. by destruct (build_app_policy demo_granted demo_raw demo_clients).
Qed.

Lemma demo_built : built demo_policy.
Proof. eapply built_app. exact demo_builds. Qed.

Lemma resolved_policies_are_well_formed_witness : acls_wf (acls demo_policy).
Proof. apply (resolved_policies_are_well_formed demo_policy demo_built). Defined.

Lemma auto_channels_are_out_of_reach_witness :
  allows_brenn_delivery demo_policy "auto.7f" = false.
Proof. apply (auto_channels_are_out_of_reach demo_policy "auto.7f" demo_built eq_refl). Defined.

Lemma mqtt_access_stays_within_the_allowed_filters_witness :
  ∃ a, parse_topic_filter "mqtt:home:sensors/+/temp" = Ok a ∧
    (mqtt_topic_matches (topic a) "sensors/attic/temp" = true →
     ∃ m, m ∈ mqtt_subscribe (acls demo_policy) ∧ sub_client m = client a ∧
          mqtt_topic_matches (topic_filter m) "sensors/attic/temp" = true).
Proof.
  apply (mqtt_access_stays_within_the_allowed_filters demo_policy _ "home:sensors/+/temp"); vm_compute; reflexivity.
Defined.

Lemma app_policy_holds_exactly_the_authored_grants_witness :
  (∀ c, has_grant demo_policy c = true ↔ c ∈ demo_granted) ∧
  Forall (λ c, Caps.llm_authorable c = Ok ()) demo_granted ∧
  (Caps.LocalPublish ∉ demo_granted → ∀ ch, allows_local_publish demo_policy ch = false).
Proof.
  apply (app_policy_holds_exactly_the_authored_grants demo_granted demo_raw demo_clients demo_policy demo_builds).
Defined.
End AccessProps.
