(* ===== verification/TokenBucket.v ===== *)
(** * The token bucket ([brenn-lib/src/token_bucket.rs])

    A burst capacity refilled by whole intervals. The clock reading of a call is an
    argument; instants and durations are in nanoseconds, and the only saturation a [Duration]
    product could meet is written out. *)

From S2P Require Import Prelude.

#[local] Open Scope N_scope.

Module Bucket.

(** [TokenBucketOutcome]. *)
Inductive TokenBucketOutcome :=
| Granted
| GrantedAfterSuppression (suppressed : N)
| Denied (first : bool).

(** [TokenBucketConfig]. *)
Record TokenBucketConfig := mkBucketConfig {
  cfg_capacity : N;
  cfg_refill_interval : N;
  cfg_refill_amount : N;
}.

(** [TokenBucket]. *)
Record TokenBucket := mkBucket {
  capacity : N;
  refill_interval : N;
  refill_amount : N;
  tokens : N;
  last_refill : N;
  suppressed : N;
  in_suppression : bool;
}.

(** [Duration::MAX] in nanoseconds: [u64::MAX] seconds and 999999999. *)
Definition DURATION_MAX : N := u64_max * 1000000000 + 999999999.

Definition u32_saturating_mul (a b : N) : N := N.min (a * b) u32_max.
Definition duration_saturating_mul (d k : N) : N := N.min (d * k) DURATION_MAX.

(** [TokenBucket::new]. *)
Definition new (cap interval amount now : N) : panics TokenBucket :=
  _ ← rust_assert (negb (interval =? 0)) "TokenBucket refill_interval must be non-zero";
  Returns (mkBucket cap interval amount cap now 0 false).

(** The refill of [try_consume_n]: [Instant::elapsed] saturates at zero, and is a
    [Duration]. *)
Definition refill (b : TokenBucket) (now : N) : TokenBucket :=
  let elapsed := N.min (now - last_refill b) DURATION_MAX in
  let intervals := elapsed / refill_interval b in
  if 0 <? intervals then
    let intervals := N.min intervals u32_max in
    let amount := u32_saturating_mul (refill_amount b) intervals in
    mkBucket (capacity b) (refill_interval b) (refill_amount b)
      (N.min (u32_saturating_add (tokens b) amount) (capacity b))
      (last_refill b + duration_saturating_mul (refill_interval b) intervals)
      (suppressed b) (in_suppression b)
  else b.

(** The draw of [try_consume_n], after the refill. *)
Definition draw (b : TokenBucket) (n : N) : TokenBucket * TokenBucketOutcome :=
  if n <=? tokens b then
    let left := tokens b - n in
    if 0 <? suppressed b then
      (mkBucket (capacity b) (refill_interval b) (refill_amount b) left (last_refill b) 0 false,
       GrantedAfterSuppression (suppressed b))
    else
      (mkBucket (capacity b) (refill_interval b) (refill_amount b) left (last_refill b)
         (suppressed b) (in_suppression b), Granted)
  else
    (mkBucket (capacity b) (refill_interval b) (refill_amount b) (tokens b) (last_refill b)
       (u64_saturating_add (suppressed b) 1) true,
     Denied (negb (in_suppression b))).

(** [TokenBucket::try_consume_n]. *)
Definition try_consume_n (b : TokenBucket) (now n : N) : panics (TokenBucket * TokenBucketOutcome) :=
  _ ← rust_assert (0 <? n) "TokenBucket::try_consume_n needs a non-zero draw";
  Returns (draw (refill b now) n).

(** [TokenBucket::try_consume]. *)
Definition try_consume (b : TokenBucket) (now : N) : panics (TokenBucket * TokenBucketOutcome) :=
  try_consume_n b now 1.

(** [TokenBucket::configured]. *)
Definition configured (b : TokenBucket) : TokenBucketConfig :=
  mkBucketConfig (capacity b) (refill_interval b) (refill_amount b).
End Bucket.

Module BucketProps.
Import Bucket.

Definition granted (o : TokenBucketOutcome) : bool :=
  match o with Denied _ => false | _ => true end.

(** A call is its clock reading and its draw. *)
Abbreviation call := (N * N)%type.

(** The calls made of a bucket, in order, with their outcomes. *)
Fixpoint run_calls (b : TokenBucket) (calls : list call) : panics (TokenBucket * list TokenBucketOutcome) :=
  match calls with
  | [] => Returns (b, [])
  | (now, n) :: calls =>
      r ← try_consume_n b now n;
      s ← run_calls r.1 calls;
      Returns (s.1, r.2 :: s.2)
  end.

(** The tokens the granted draws took. *)
Definition spent (calls : list call) (os : list TokenBucketOutcome) : N :=
  foldr N.add 0 (zip_with (λ (c : call) o, if granted o then c.2 else 0) calls os).

Definition shaped (cap interval amount : N) (b : TokenBucket) : Prop :=
  capacity b = cap ∧ refill_interval b = interval ∧ refill_amount b = amount ∧
  tokens b ≤ cap ∧ cap ≤ u32_max ∧ (in_suppression b = true ↔ 0 < suppressed b) ∧ suppressed b ≤ u64_max.

(** What a refill credits is paid for by whole intervals of the clock. *)
Lemma refill_spec cap interval amount b now :
  interval ≠ 0 → shaped cap interval amount b → last_refill b ≤ now →
  shaped cap interval amount (refill b now) ∧
  ∃ k, last_refill (refill b now) = last_refill b + interval * k ∧
    last_refill (refill b now) ≤ now ∧
    tokens b ≤ tokens (refill b now) ∧ tokens (refill b now) ≤ tokens b + amount * k.
Proof.
  intros Hi (Hc&Hn&Ha&Ht&Hw&Hs&Hu) Hl. unfold refill. rewrite Hn. case_bool.
  2:{ split; [done|]. exists 0. rewrite N.mul_0_r. split_and!; lia. }
  set (e := N.min (now - last_refill b) DURATION_MAX) in *. set (q := e / interval) in *.
  set (k := N.min q u32_max).
  assert (interval * q ≤ e) as Hq by (apply N.Div0.mul_div_le).
  assert (interval * k ≤ e) as Hk by (transitivity (interval * q); [apply N.mul_le_mono_l; lia|done]).
  assert (duration_saturating_mul interval k = interval * k) as ->
    by (unfold duration_saturating_mul; lia).
  split; [unfold shaped; simpl; split_and!; try done; lia|]. exists k.
  simpl. unfold u32_saturating_add, u32_saturating_mul. rewrite Ha, Hc. split_and!; lia.
Qed.

Lemma draw_shaped cap interval amount b n :
  shaped cap interval amount b → shaped cap interval amount (draw b n).1.
Proof.
  intros (Hc&Hn&Ha&Ht&Hw&Hs&Hu). unfold draw, shaped, u64_saturating_add.
  repeat case_bool; simpl; split_and!; try done; try lia; try tauto;
    (split; intros; [unfold u64_max in *; lia|done]).
Qed.

(** A draw takes what it granted and nothing else, and leaves the clock alone. *)
Lemma draw_spends b n :
  tokens (draw b n).1 + (if granted (draw b n).2 then n else 0) = tokens b ∧
  last_refill (draw b n).1 = last_refill b.
Proof. unfold draw. repeat case_bool; simpl; lia. Qed.

(** Clock readings that do not run backwards, from an instant on. *)
Fixpoint ascending (t : N) (calls : list call) : Prop :=
  match calls with
  | [] => True
  | (now, n) :: calls => t ≤ now ∧ 0 < n ∧ ascending now calls
  end.

Lemma try_consume_returns b now n :
  0 < n → try_consume_n b now n = Returns (draw (refill b now) n).
Proof. intros Hn. unfold try_consume_n. case_bool; [done|lia]. Qed.

(** One draw: what it took and what is left come out of the balance and the whole intervals
    the refill clock advanced by. *)
Lemma consume_conserves cap interval amount b now n :
  interval ≠ 0 → 0 < n → shaped cap interval amount b → last_refill b ≤ now →
  ∃ b' o k, try_consume_n b now n = Returns (b', o) ∧ shaped cap interval amount b' ∧
    last_refill b' = last_refill b + interval * k ∧ last_refill b' ≤ now ∧
    (if granted o then n else 0) + tokens b' ≤ tokens b + amount * k.
Proof.
  intros Hi Hn Hb Hl. rewrite try_consume_returns by done.
  destruct (refill_spec cap interval amount b now) as (Hb1&k&Hl1&Hnow&_&Ht1); [done..|].
  destruct (draw_spends (refill b now) n) as [Hd Hdl].
  exists (draw (refill b now) n).1, (draw (refill b now) n).2, k.
  split; [by destruct (draw (refill b now) n)|]. split_and!; [by apply draw_shaped|lia..].
Qed.

(** A bucket that has granted [used] draws of one since it was made full at [t0], last asked
    no later than [t]. *)
Definition metered (cap interval amount t0 t used : N) (b : TokenBucket) : Prop :=
  shaped cap interval amount b ∧
  ∃ k, last_refill b = t0 + interval * k ∧ last_refill b ≤ t ∧ used + tokens b ≤ cap + amount * k.

Lemma metered_new cap interval amount t0 b :
  cap ≤ u32_max → new cap interval amount t0 = Returns b →
  interval ≠ 0 ∧ metered cap interval amount t0 t0 0 b.
Proof.
  unfold new. intros Hcap. destruct (N.eqb_spec interval 0) as [|Hi]; [done|]. simpl. intros [= <-].
  split; [done|]. split; [unfold shaped; simpl; split_and!; try done; lia|]. exists 0. simpl. lia.
Qed.

Lemma metered_later cap interval amount t0 t t' used used' b :
  metered cap interval amount t0 t used b → t ≤ t' → used' ≤ used → metered cap interval amount t0 t' used' b.
Proof. intros (?&k&?&?&?) ? ?. split; [done|]. exists k. split_and!; [done|lia..]. Qed.

Lemma metered_consume cap interval amount t0 t used b now :
  interval ≠ 0 → metered cap interval amount t0 t used b → t ≤ now →
  ∃ b' o, try_consume b now = Returns (b', o) ∧
    metered cap interval amount t0 now (used + (if granted o then 1 else 0)) b'.
Proof.
  intros Hi (Hb&k&Hk&Ht&Hu) Hle.
  destruct (consume_conserves cap interval amount b now 1) as (b'&o&k'&Hr&Hb'&Hl&Hn&Hs); [done|lia|done|lia|].
  exists b', o. split; [done|]. split; [done|]. exists (k + k'). split_and!; lia.
Qed.

Lemma metered_bound cap interval amount t0 t used b :
  interval ≠ 0 → metered cap interval amount t0 t used b → used ≤ cap + amount * ((t - t0) / interval).
Proof.
  intros Hi (_&k&Hk&Ht&Hu). assert (k ≤ (t - t0) / interval) by (apply N.div_le_lower_bound; lia).
  pose proof (N.mul_le_mono_l k ((t - t0) / interval) amount). lia.
Qed.

(** The last clock reading. *)
Definition final (t : N) (calls : list call) : N := from_option fst t (last calls).

Lemma final_cons t now n calls : final t ((now, n) :: calls) = final now calls.
Proof. unfold final. rewrite last_cons. by destruct (last calls). Qed.

(** Tokens are conserved over a run: what was spent and what is left come out of the
    starting balance and the whole intervals the refill clock advanced by. *)
Lemma run_conserves cap interval amount calls : interval ≠ 0 → ∀ b t,
  shaped cap interval amount b → last_refill b ≤ t → ascending t calls →
  ∃ b' os, run_calls b calls = Returns (b', os) ∧ length os = length calls ∧
    shaped cap interval amount b' ∧ last_refill b' ≤ final t calls ∧
    ∃ k, last_refill b' = last_refill b + interval * k ∧
      spent calls os + tokens b' ≤ tokens b + amount * k.
Proof.
  intros Hi. induction calls as [|[now n] calls IH]; intros b t Hb Hl Ha.
  { exists b, []. split_and!; [done|done|done|done|]. exists 0. unfold spent. simpl. lia. }
  destruct Ha as (Htn&Hn&Ha).
  destruct (consume_conserves cap interval amount b now n) as (b1&o&k1&Hr1&Hb1&Hl1&Hn1&Hs1); [done|done|done|lia|].
  destruct (IH b1 now) as (b'&os&Hr&Hlen&Hb'&Hf&k2&Hl2&Hs2); [done|done|done|].
  cbn [run_calls]. rewrite Hr1. cbn [mbind panics_bind fst snd]. rewrite Hr. cbn [mbind panics_bind fst snd].
  eexists b', _. split_and!; [done|simpl; lia|done|by rewrite final_cons|].
  exists (k1 + k2). split; [lia|]. unfold spent in *. cbn [zip_with foldr snd]. lia.
Qed.

(** *** Suppression windows *)

(** The outcome a draw reports after [k] denials in a row. *)
Definition reported (k : N) (passed : bool) : TokenBucketOutcome :=
  if passed then if 0 <? k then GrantedAfterSuppression k else Granted
  else Denied (k =? 0).

(** The outcomes of a run that starts after [k] denials, by which draws were admitted. *)
Fixpoint told (k : N) (passed : list bool) : list TokenBucketOutcome :=
  match passed with
  | [] => []
  | a :: passed => reported k a :: told (if a then 0 else k + 1) passed
  end.

Lemma refill_suppression b now :
  suppressed (refill b now) = suppressed b ∧ in_suppression (refill b now) = in_suppression b.
Proof. unfold refill. by case_bool. Qed.

Lemma granted_reported k a : granted (reported k a) = a.
Proof. unfold reported. destruct a; [by case_bool|done]. Qed.

Lemma draw_reports b n k :
  suppressed b = k → in_suppression b = (0 <? k) → k < u64_max →
  (draw b n).2 = reported k (n <=? tokens b) ∧
  let k' := if n <=? tokens b then 0 else k + 1 in
  suppressed (draw b n).1 = k' ∧ in_suppression (draw b n).1 = (0 <? k').
Proof.
  intros Hs Hin Hk. unfold draw, reported, u64_saturating_add. rewrite Hin, Hs.
  repeat case_bool; simpl; split_and!; try done; try lia;
    repeat case_bool; simpl; try done; try lia.
Qed.

Lemma run_reports calls : ∀ b k,
  suppressed b = k → in_suppression b = (0 <? k) → k + len calls ≤ u64_max →
  Forall (λ c, 0 < c.2) calls →
  ∃ b' os, run_calls b calls = Returns (b', os) ∧ os = told k (granted <$> os).
Proof.
  induction calls as [|[now n] calls IH]; intros b k Hs Hin Hk Hn; [by exists b, []|].
  apply Forall_cons in Hn as [Hn0 Hn]. rewrite len_cons in Hk. cbn [run_calls]. simpl in Hn0.
  rewrite try_consume_returns by done. cbn [mbind panics_bind].
  destruct (refill_suppression b now) as [Hs1 Hin1].
  destruct (draw_reports (refill b now) n k) as (Ho&Hs2&Hin2); [congruence|congruence|lia|].
  destruct (IH (draw (refill b now) n).1 (if n <=? tokens (refill b now) then 0 else k + 1))
    as (b'&os&Hr&Hos); [done|done| |done|].
  { case_bool; lia. }
  rewrite Hr. cbn [mbind panics_bind fst snd]. eexists _, _. split; [done|]. rewrite Ho. cbn [fmap list_fmap].
  rewrite granted_reported. cbn [told]. f_equal. exact Hos.
Qed.

(** (token bucket) a bucket bounds spending over any window. From a full bucket, over any
    calls on a clock that does not run backwards, no call unwinds, and the tokens granted by
    the time of the last call never exceed the burst plus the refill of the whole intervals
    elapsed, at any interleaving of draw sizes; what is left never exceeds the burst. *)
Theorem bucket_bounds_spending cap interval amount t0 b calls :
  cap ≤ u32_max → new cap interval amount t0 = Returns b → ascending t0 calls →
  ∃ b' os, run_calls b calls = Returns (b', os) ∧ length os = length calls ∧
    tokens b' ≤ cap ∧
    spent calls os + tokens b' ≤ cap + amount * ((final t0 calls - t0) / interval).
Proof.
  intros Hcap Hnew Ha. unfold new in Hnew. destruct (N.eqb_spec interval 0) as [|Hi]; [done|].
  simpl in Hnew. injection Hnew as <-.
  destruct (run_conserves cap interval amount calls Hi (mkBucket cap interval amount cap t0 0 false) t0)
    as (b'&os&Hr&Hlen&(_&_&_&Ht&_)&Hf&k&Hk&Hs); [|done|done|].
  { unfold shaped. simpl. split_and!; try done; lia. }
  exists b', os. split_and!; [done|done|done|]. simpl in *.
  etransitivity; [exact Hs|]. apply N.add_le_mono_l, N.mul_le_mono_l.
  apply N.div_le_lower_bound; lia.
Qed.

(** (token bucket) each suppression window is announced once and accounted for in full.
    The outcomes of any run depend on which draws were admitted alone: a denial says [first]
    exactly when it opens a window, and the grant that ends one reports the number of
    denials in it. *)
Theorem suppression_windows_are_told_exactly cap interval amount t0 b calls :
  new cap interval amount t0 = Returns b → len calls ≤ u64_max → Forall (λ c, 0 < c.2) calls →
  ∃ b' os, run_calls b calls = Returns (b', os) ∧ os = told 0 (granted <$> os).
Proof.
  intros Hnew Hlen Hn. unfold new in Hnew. destruct (interval =? 0); [done|]. simpl in Hnew.
  injection Hnew as <-. by apply (run_reports calls _ 0).
Qed.

(** (token bucket) a draw that fits the burst is not starved: once the clock is [k] whole
    intervals past the last refill, with [k] refills worth the draw, it is granted; and a
    draw wider than the burst never is. *)
Theorem waiting_long_enough_grants cap interval amount b now n k :
  interval ≠ 0 → shaped cap interval amount b → last_refill b + interval * k ≤ now →
  now - last_refill b ≤ DURATION_MAX → 0 < n → n ≤ amount * k →
  ∃ b' o, try_consume_n b now n = Returns (b', o) ∧ (granted o = true ↔ n ≤ cap).
Proof.
  intros Hi Hb Hk Hd Hn Hnk. rewrite try_consume_returns by done.
  exists (draw (refill b now) n).1, (draw (refill b now) n).2. split; [by destruct (draw (refill b now) n)|].
  destruct (refill_spec cap interval amount b now) as (Hb1&_); [done|done|lia|].
  destruct Hb1 as (_&_&_&Ht1&_). destruct Hb as (Hc&Hin&Ha&Ht&Hw&_).
  assert (n ≤ cap → n ≤ tokens (refill b now)) as Henough.
  { intros Hnc. unfold refill. rewrite Hin, Ha, Hc.
    set (q := N.min (now - last_refill b) DURATION_MAX / interval).
    assert (k ≤ q) as Hkq by (apply N.div_le_lower_bound; [done|lia]).
    assert (k ≠ 0) by (intros ->; lia). case_bool; [|lia]. simpl.
    unfold u32_saturating_add, u32_saturating_mul.
    assert (N.min n u32_max ≤ amount * N.min q u32_max) as Hm; [|lia].
    destruct (N.le_gt_cases q u32_max).
    - rewrite (N.min_l q) by done. transitivity (amount * k); [lia|]. by apply N.mul_le_mono_l.
    - rewrite (N.min_r q) by lia. assert (1 ≤ amount) by (destruct amount; lia).
      transitivity (1 * u32_max); [lia|]. by apply N.mul_le_mono_r. }
  simpl. unfold draw. repeat case_bool; simpl; split; try done; try lia.
Qed.

(** *** Witnesses *)

Definition demo_calls : list call := [(5, 2); (6, 1); (7, 1); (30, 2)].

Lemma bucket_bounds_spending_witness :
  ∃ b' os, run_calls (mkBucket 3 10 1 3 0 0 false) demo_calls = Returns (b', os) ∧
    length os = length demo_calls ∧ tokens b' ≤ 3 ∧
    spent demo_calls os + tokens b' ≤ 3 + 1 * ((final 0 demo_calls - 0) / 10).
Proof.
  apply (bucket_bounds_spending 3 10 1 0); [vm_compute; done|reflexivity|].
  simpl. split_and!; vm_compute; done.
Defined.

Lemma suppression_windows_are_told_exactly_witness :
  ∃ b' os, run_calls (mkBucket 3 10 1 3 0 0 false) demo_calls = Returns (b', os) ∧
    os = told 0 (granted <$> os).
Proof.
  apply (suppression_windows_are_told_exactly 3 10 1 0); [reflexivity|vm_compute; done|].
  repeat constructor.
Defined.

Lemma waiting_long_enough_grants_witness :
  ∃ b' o, try_consume_n (mkBucket 3 10 1 0 0 4 true) 25 2 = Returns (b', o) ∧ (granted o = true ↔ 2 ≤ 3).
Proof.
  apply (waiting_long_enough_grants 3 10 1 (mkBucket 3 10 1 0 0 4 true) 25 2 2);
    unfold shaped; simpl; split_and?; vm_compute; done.
Defined.
End BucketProps.
