(* ===== verification/Directory.v ===== *)
(** * The channel directory ([brenn-lib/src/messaging/directory.rs], depths of
    [messaging/config.rs])

    Channels and their subscribers, indexed by id and by address under one lock. Each
    operation is a step on the three indexes; the invariant that keeps them one directory,
    and the identity of a subscriber on a channel, are proved over every run. *)

From S2P Require Import Prelude Envelope Activation.

#[local] Open Scope list_scope.

Module Directory.
Import Envelope.

(** ** Depths *)

(** [Depth]. *)
Inductive Depth := Bounded (n : N) | Unbounded.

#[export] Instance Depth_eq_dec : EqDecision Depth.
Proof. solve_decision. Defined.

(** The derived order of [Depth]: variants in declaration order. *)
Definition depth_leb (a b : Depth) : bool :=
  match a, b with
  | Bounded a, Bounded b => (a <=? b)%N
  | Bounded _, Unbounded => true
  | Unbounded, Bounded _ => false
  | Unbounded, Unbounded => true
  end.

(** [Depth::is_push_enabled]. *)
Definition is_push_enabled (d : Depth) : bool :=
  match d with
  | Bounded n => negb (n =? 0)%N
  | Unbounded => true
  end.

(** [Depth::narrowed_by]. *)
Definition narrowed_by (d other : Depth) : Depth :=
  match d, other with
  | Unbounded, narrower => narrower
  | wider, Unbounded => wider
  | Bounded a, Bounded b => Bounded (N.min a b)
  end.

(** [Depth::widened_by]. *)
Definition widened_by (d other : Depth) : Depth :=
  match d, other with
  | Bounded a, Bounded b => Bounded (N.max a b)
  | _, _ => Unbounded
  end.

(** What a config document may spell a depth as, and the [DepthVisitor] reading of it. *)
Inductive DepthText := TextU64 (v : N) | TextI64 (v : Z) | TextStr (v : string).
Definition visit_depth (t : DepthText) : option Depth :=
  match t with
  | TextU64 v => Some (Bounded v)
  | TextI64 v => if (v <? 0)%Z then None else Some (Bounded (Z.to_N v))
  | TextStr v => if String.eqb v "unbounded" then Some Unbounded else None
  end.

(** [resolve_wasm_window_depth]. *)
Definition resolve_wasm_window_depth (d : Depth) : panics Depth :=
  match d with
  | Unbounded => Returns (Bounded Activation.WINDOW_DEPTH_CEILING)
  | Bounded n =>
      _ ← rust_assert (n <=? Activation.WINDOW_DEPTH_CEILING)%N "depth above the window ceiling";
      Returns (Bounded n)
  end.

(** ** Subscribers *)

(** [AttachKind], [AttachScope]. *)
Inductive AttachKind := KindSurface | KindRemote.
Record AttachScope := mkScope { scope_kind : AttachKind; scope_slug : string }.

(** [SubscriberEntryKind]. *)
Inductive SubscriberEntryKind :=
| App (slug : string)
| Wasm (slug : string)
| Surface (slug : string)
| Remote (slug : string)
| System (component : string)
| ChatConversation (app_slug : string) (conversation_id : Z).

#[export] Instance SubscriberEntryKind_eq_dec : EqDecision SubscriberEntryKind.
Proof. solve_decision. Defined.

(** [SubscriberEntryKind::slug]. *)
Definition slug (k : SubscriberEntryKind) : string :=
  match k with
  | App s | Wasm s | System s | Surface s | Remote s => s
  | ChatConversation app_slug _ => app_slug
  end.

(** [SubscriberEntryKind::for_attach]. *)
Definition for_attach (scope : AttachScope) : SubscriberEntryKind :=
  match scope_kind scope with
  | KindSurface => Surface (scope_slug scope)
  | KindRemote => Remote (scope_slug scope)
  end.

(** [SubscriberEntryKind::attach_slug]. *)
Definition attach_slug (k : SubscriberEntryKind) : option string :=
  match k with
  | Surface s | Remote s => Some s
  | App _ | Wasm _ | System _ | ChatConversation _ _ => None
  end.

(** [std::mem::discriminant]. *)
Definition discriminant (k : SubscriberEntryKind) : N :=
  match k with
  | App _ => 0 | Wasm _ => 1 | Surface _ => 2 | Remote _ => 3 | System _ => 4
  | ChatConversation _ _ => 5
  end.

(** [SubscriberEntryKind::same_principal]. *)
Definition same_principal (k other : SubscriberEntryKind) : bool :=
  match k, other with
  | ChatConversation app_slug conv, ChatConversation other_app other_conv =>
      String.eqb app_slug other_app && (conv =? other_conv)%Z
  | _, _ => (discriminant k =? discriminant other)%N && String.eqb (slug k) (slug other)
  end.

(** [WakeMin]. *)
Inductive WakeMin := WakeVeryLow | WakeLow | WakeNormal | WakeHigh | WakeNever.

(** [WakeMin::wakes]. *)
Definition wakes (w : WakeMin) (u : Urgency) : bool :=
  match w with
  | WakeNever => false
  | WakeVeryLow => (urgency_rank VeryLow <=? urgency_rank u)%Z
  | WakeLow => (urgency_rank Low <=? urgency_rank u)%Z
  | WakeNormal => (urgency_rank Normal <=? urgency_rank u)%Z
  | WakeHigh => (urgency_rank High <=? urgency_rank u)%Z
  end.

(** [WakeMin::as_str]. *)
Definition wake_as_str (w : WakeMin) : string :=
  match w with
  | WakeVeryLow => "very-low" | WakeLow => "low" | WakeNormal => "normal" | WakeHigh => "high"
  | WakeNever => "never"
  end.

(** [WakeMin::parse]. *)
Definition wake_parse (s : string) : option WakeMin :=
  if String.eqb s "very-low" then Some WakeVeryLow
  else if String.eqb s "low" then Some WakeLow
  else if String.eqb s "normal" then Some WakeNormal
  else if String.eqb s "high" then Some WakeHigh
  else if String.eqb s "never" then Some WakeNever
  else None.

(** [SubscriberEntry]. *)
Record SubscriberEntry := mkSubscriber {
  kind : SubscriberEntryKind;
  push_depth : Depth;
  retain_depth : Depth;
  noise : NoiseLevel;
  wake_min : option WakeMin;
}.

(** [SendRate]. *)
Record SendRate := mkSendRate {
  rate_burst : N;
  refill_interval_secs : N;
  rate_refill : N;
}.

(** [SendRate::default]. *)
Definition default_send_rate : SendRate := mkSendRate 240 1 30.

(** [SendRate::validate]. *)
Definition validate_send_rate (r : SendRate) : panics unit :=
  _ ← rust_assert (1 <=? refill_interval_secs r)%N "send_rate.refill_interval_secs must be >= 1";
  _ ← rust_assert (1 <=? rate_burst r)%N "send_rate.burst must be >= 1";
  rust_assert (1 <=? rate_refill r)%N "send_rate.refill must be >= 1".

(** The fields of a [ResolvedChannel] the modelled code reads. *)
Record ResolvedChannel := mkResolved {
  channel_retain_depth : Depth;
  standing_retain_depth : Depth;
  channel_noise : NoiseLevel;
  send_rate : SendRate;
}.

(** ** Channels *)

Section channels.
Context {Uuid : Type} `{Countable Uuid}.

(** [ChannelEntry]. *)
Record ChannelEntry := mkChannel {
  uuid : Uuid;
  address : string;
  description : option string;
  resolved_channel : ResolvedChannel;
  subscribers : list SubscriberEntry;
  transport_type : ChannelScheme;
  mount : option string;
}.

(** [ChannelEntry::capabilities]. *)
Definition entry_capabilities (e : ChannelEntry) : panics ChannelCapabilities :=
  rust_expect (capabilities (transport_type e)) "channel entry has egress-only transport".

Definition within_standing (standing : Depth) (s : SubscriberEntry) : bool :=
  depth_leb (push_depth s) standing && depth_leb (retain_depth s) standing.

(** [ChannelEntry::reap_frontier]. *)
Definition reap_frontier (e : ChannelEntry) : panics (option N) :=
  let standing := standing_retain_depth (resolved_channel e) in
  _ ← rust_assert (forallb (within_standing standing) (subscribers e)) "the depth ceiling was bypassed";
  Returns (match standing with
           | Unbounded => None
           | Bounded n => Some n
           end).

(** [ChannelEntry::app_subscriber]. *)
Definition app_subscriber (e : ChannelEntry) (app_slug : string) : option SubscriberEntry :=
  snd <$> list_find (λ s, kind s = App app_slug) (subscribers e).

(** [DirectoryInner], under the lock of [MessagingDirectory]. *)
Record MessagingDirectory := mkDirectory {
  by_uuid : gmap Uuid ChannelEntry;
  by_address : gmap string Uuid;
  order : list Uuid;
}.

(** [MessagingDirectory::new]. *)
Definition new : MessagingDirectory := mkDirectory ∅ ∅ [].

(** One turn of [MessagingDirectory::from_arcs]. *)
Definition push_entry (d : MessagingDirectory) (e : ChannelEntry) : MessagingDirectory :=
  mkDirectory (<[uuid e := e]> (by_uuid d)) (<[address e := uuid e]> (by_address d)) (order d ++ [uuid e]).

(** [MessagingDirectory::from_arcs]. *)
Definition from_arcs (entries : list ChannelEntry) : MessagingDirectory := foldl push_entry new entries.

(** [MessagingDirectory::with_entries]. *)
Definition with_entries (entries : list ChannelEntry) : MessagingDirectory := from_arcs entries.

(** [MessagingDirectory::resolve]. *)
Definition resolve (d : MessagingDirectory) (addr : string) : option ChannelEntry :=
  u ← by_address d !! addr; by_uuid d !! u.

(** [MessagingDirectory::by_uuid]. *)
Definition entry_by_uuid (d : MessagingDirectory) (u : Uuid) : option ChannelEntry := by_uuid d !! u.

(** [MessagingDirectory::list]. *)
Definition list_channels (d : MessagingDirectory) : panics (list ChannelEntry) :=
  rust_expect (mapM (λ u, by_uuid d !! u) (order d)) "order references a uuid not present in by_uuid".

(** [MessagingDirectory::list_durable]. *)
Definition list_durable (d : MessagingDirectory) : panics (list ChannelEntry) :=
  l ← list_channels d;
  foldr (λ e acc, caps ← entry_capabilities e; rest ← acc;
                  Returns (if durable caps then e :: rest else rest)) (Returns []) l.

(** The [find] of [add_subscriber]: replace the first entry of the same principal. *)
Fixpoint replace_subscriber (s : SubscriberEntry) (l : list SubscriberEntry) : option (list SubscriberEntry) :=
  match l with
  | [] => None
  | x :: l =>
      if same_principal (kind x) (kind s) then Some (s :: l)
      else match replace_subscriber s l with
           | Some l => Some (x :: l)
           | None => None
           end
  end.

Definition with_subscribers (e : ChannelEntry) (l : list SubscriberEntry) : ChannelEntry :=
  mkChannel (uuid e) (address e) (description e) (resolved_channel e) l (transport_type e) (mount e).

Definition put_entry (d : MessagingDirectory) (u : Uuid) (e : ChannelEntry) : MessagingDirectory :=
  mkDirectory (<[u := e]> (by_uuid d)) (by_address d) (order d).

(** [MessagingDirectory::add_subscriber]. *)
Definition add_subscriber (d : MessagingDirectory) (u : Uuid) (s : SubscriberEntry) : MessagingDirectory * bool :=
  match by_uuid d !! u with
  | None => (d, false)
  | Some e =>
      let l := match replace_subscriber s (subscribers e) with
               | Some l => l
               | None => subscribers e ++ [s]
               end in
      (put_entry d u (with_subscribers e l), true)
  end.

(** [MessagingDirectory::remove_subscriber]. *)
Definition remove_subscriber (d : MessagingDirectory) (u : Uuid) (k : SubscriberEntryKind)
    : MessagingDirectory * option N :=
  match by_uuid d !! u with
  | None => (d, None)
  | Some e =>
      let l := filter (λ s, same_principal (kind s) k = false) (subscribers e) in
      if Nat.eqb (length l) (length (subscribers e)) then (d, None)
      else (put_entry d u (with_subscribers e l), Some (len l))
  end.

(** [MessagingDirectory::set_description]. *)
Definition set_description (d : MessagingDirectory) (u : Uuid) (desc : option string) : MessagingDirectory * bool :=
  match by_uuid d !! u with
  | None => (d, false)
  | Some e =>
      (put_entry d u (mkChannel (uuid e) (address e) desc (resolved_channel e) (subscribers e)
                        (transport_type e) (mount e)), true)
  end.

(** [MessagingDirectory::add_channel]. *)
Definition add_channel (d : MessagingDirectory) (e : ChannelEntry) : panics MessagingDirectory :=
  _ ← rust_assert (bool_decide (by_uuid d !! uuid e = None)) "add_channel: uuid already present";
  _ ← rust_assert (bool_decide (by_address d !! address e = None)) "add_channel: address already present";
  Returns (mkDirectory (<[uuid e := e]> (by_uuid d)) (<[address e := uuid e]> (by_address d))
             (order d ++ [uuid e])).

(** [MessagingDirectory::remove_channel]. *)
Definition remove_channel (d : MessagingDirectory) (u : Uuid) : MessagingDirectory * bool :=
  match by_uuid d !! u with
  | None => (d, false)
  | Some e =>
      (mkDirectory (delete u (by_uuid d)) (delete (address e) (by_address d))
         (filter (λ v, v ≠ u) (order d)), true)
  end.
End channels.
Arguments ChannelEntry : clear implicits.
Arguments MessagingDirectory Uuid {_ _}.
End Directory.

(** ** Runs *)
Module DirectoryRun.
Import Envelope Directory.

Section run.
Context {Uuid : Type} `{Countable Uuid}.
Implicit Types (d : MessagingDirectory Uuid) (e : ChannelEntry Uuid) (u : Uuid).

Inductive dir_op :=
| AddSubscriber u (s : SubscriberEntry)
| RemoveSubscriber u (k : SubscriberEntryKind)
| SetDescription u (desc : option string)
| AddChannel e
| RemoveChannel u.

Definition dir_step d (op : dir_op) : panics (MessagingDirectory Uuid) :=
  match op with
  | AddSubscriber u s => Returns (add_subscriber d u s).1
  | RemoveSubscriber u k => Returns (remove_subscriber d u k).1
  | SetDescription u desc => Returns (set_description d u desc).1
  | AddChannel e => add_channel d e
  | RemoveChannel u => Returns (remove_channel d u).1
  end.

Fixpoint dir_run d (ops : list dir_op) : panics (MessagingDirectory Uuid) :=
  match ops with
  | [] => Returns d
  | op :: ops => d' ← dir_step d op; dir_run d' ops
  end.

(** One directory: the address index and the order are those of the entries, and each
    channel holds a subscriber once. *)
Record dir_wf d : Prop := mkDirWf {
  dwf_id : ∀ u e, by_uuid d !! u = Some e → uuid e = u;
  dwf_address : ∀ a u, by_address d !! a = Some u ↔ ∃ e, by_uuid d !! u = Some e ∧ address e = a;
  dwf_order : NoDup (order d);
  dwf_listed : ∀ u, u ∈ order d ↔ is_Some (by_uuid d !! u);
  dwf_subs : ∀ u e, by_uuid d !! u = Some e → NoDup (kind <$> subscribers e);
}.

Lemma same_principal_eq k k' : same_principal k k' = true ↔ k = k'.
Proof.
  destruct k, k'; simpl; split; intros Heq; try done;
    repeat match goal with
    | H : _ && _ = true |- _ => apply andb_prop in H as [? ?]
    | H : String.eqb _ _ = true |- _ => apply String.eqb_eq in H as ->
    | H : Z.eqb _ _ = true |- _ => apply Z.eqb_eq in H as ->
    end; try done; injection Heq; intros; subst; rewrite ?String.eqb_refl, ?Z.eqb_refl; done.
Qed.

Lemma same_principal_ne k k' : same_principal k k' = false ↔ k ≠ k'.
Proof. rewrite <-not_true_iff_false, same_principal_eq. done. Qed.

(** Replacing keeps the principals, in order, and changes only the one named. *)
Lemma replace_subscriber_spec s l :
  match replace_subscriber s l with
  | Some l' => ∃ l1 x l2, l = l1 ++ x :: l2 ∧ l' = l1 ++ s :: l2 ∧ kind x = kind s
  | None => kind s ∉ kind <$> l
  end.
Proof.
  induction l as [|x l IH]; simpl; [apply not_elem_of_nil|].
  destruct (same_principal (kind x) (kind s)) eqn:Hk.
  - apply same_principal_eq in Hk. by exists [], x, l.
  - apply same_principal_ne in Hk. destruct (replace_subscriber s l) as [l'|].
    + destruct IH as (l1&y&l2&->&->&Hy). by exists (x :: l1), y, l2.
    + apply not_elem_of_cons. naive_solver.
Qed.

(** The subscribers [add_subscriber] leaves on a channel. *)
Definition added (s : SubscriberEntry) (l : list SubscriberEntry) : list SubscriberEntry :=
  match replace_subscriber s l with Some l' => l' | None => l ++ [s] end.

Lemma added_kinds s l :
  kind <$> added s l = if decide (kind s ∈ kind <$> l) then kind <$> l else (kind <$> l) ++ [kind s].
Proof.
  unfold added. pose proof (replace_subscriber_spec s l) as Hs. destruct (replace_subscriber s l).
  - destruct Hs as (l1&x&l2&->&->&Hx). rewrite decide_True; [by rewrite !fmap_app; simpl; rewrite Hx|].
    rewrite fmap_app. simpl. rewrite Hx. set_solver.
  - rewrite decide_False by done. by rewrite fmap_app.
Qed.

Lemma added_nodup s l : NoDup (kind <$> l) → NoDup (kind <$> added s l).
Proof.
  intros Hl. rewrite added_kinds. case_decide; [done|]. apply NoDup_app. split_and!; [done| |apply NoDup_singleton].
  intros k Hk ->%list_elem_of_singleton. done.
Qed.

(** Membership after an add: the new entry, and every entry of another principal. *)
Lemma elem_of_added s l x :
  NoDup (kind <$> l) → x ∈ added s l ↔ x = s ∨ (x ∈ l ∧ kind x ≠ kind s).
Proof.
  intros Hl. unfold added. pose proof (replace_subscriber_spec s l) as Hs.
  destruct (replace_subscriber s l) as [l'|].
  - destruct Hs as (l1&y&l2&->&->&Hy). rewrite fmap_app in Hl. simpl in Hl.
    apply NoDup_app in Hl as (_&Hd&Hr). apply NoDup_cons in Hr as [Hr _].
    rewrite !elem_of_app, !elem_of_cons. split.
    + intros [Hx|[->|Hx]]; [|by left|].
      * right. split; [by left|]. intros Hk. apply (Hd (kind x)); [by apply list_elem_of_fmap_2|].
        rewrite Hk, <-Hy. left.
      * right. split; [tauto|]. intros Hk. apply Hr. rewrite Hy, <-Hk. by apply list_elem_of_fmap_2.
    + intros [->|[[Hx|[->|Hx]] Hk]]; tauto.
  - rewrite elem_of_app, list_elem_of_singleton. split; [|tauto].
    intros [Hx| ->]; [|by left]. right. split; [done|]. intros Hk. apply Hs. rewrite <-Hk.
    by apply list_elem_of_fmap_2.
Qed.

Lemma new_dir_wf : dir_wf (@new Uuid _ _).
Proof.
  split; simpl.
  - intros u e Hu. by rewrite lookup_empty in Hu.
  - intros a u. rewrite lookup_empty. split; [done|]. intros (e&He&_). by rewrite lookup_empty in He.
  - constructor.
  - intros u. rewrite lookup_empty. split; [by intros ?%not_elem_of_nil|by intros [? ?]].
  - intros u e Hu. by rewrite lookup_empty in Hu.
Qed.

(** Changing an entry in place, its id and address kept. *)
Lemma put_entry_wf d u e e' :
  dir_wf d → by_uuid d !! u = Some e → uuid e' = uuid e → address e' = address e →
  NoDup (kind <$> subscribers e') → dir_wf (put_entry d u e').
Proof.
  intros [Hid Ha Ho Hl Hs] He Hu' Ha' Hn. split; simpl.
  - intros v x Hx. apply lookup_insert_Some in Hx as [[-> <-]|[_ Hx]]; [rewrite Hu'|]; eauto.
  - intros a v. rewrite Ha. split; intros (x&Hx&Hax).
    + destruct (decide (v = u)) as [->|].
      * exists e'. rewrite lookup_insert_eq. split; [done|]. rewrite Ha'. congruence.
      * exists x. by rewrite lookup_insert_ne.
    + apply lookup_insert_Some in Hx as [[-> <-]|[_ Hx]]; [|by exists x].
      exists e. split; [done|congruence].
  - done.
  - intros v. rewrite Hl, lookup_insert_is_Some. destruct (decide (u = v)) as [->|]; [|naive_solver].
    split; [by left|]. intros _. by exists e.
  - intros v x Hx. apply lookup_insert_Some in Hx as [[-> <-]|[_ Hx]]; eauto.
Qed.

Lemma add_channel_spec d e :
  (∃ d', add_channel d e = Returns d' ∧ d' = push_entry d e ∧
     by_uuid d !! uuid e = None ∧ by_address d !! address e = None) ∨
  (∃ why, add_channel d e = Panics why ∧
     (is_Some (by_uuid d !! uuid e) ∨ is_Some (by_address d !! address e))).
Proof.
  unfold add_channel. destruct (by_uuid d !! uuid e) as [x|] eqn:Hu; simpl; [right; eauto|].
  destruct (by_address d !! address e) as [x|] eqn:Ha; simpl; [right; eauto|]. left. eauto.
Qed.

Lemma push_entry_wf d e :
  dir_wf d → by_uuid d !! uuid e = None → by_address d !! address e = None →
  NoDup (kind <$> subscribers e) → dir_wf (push_entry d e).
Proof.
  intros [Hid Ha Ho Hl Hs] Hu Had Hn. split; simpl.
  - intros v x Hx. apply lookup_insert_Some in Hx as [[<- <-]|[_ Hx]]; eauto.
  - intros a v. rewrite lookup_insert_Some. split.
    + intros [[<- <-]|[Hne Hv]]; [exists e; by rewrite lookup_insert_eq|].
      apply Ha in Hv as (x&Hx&Hax). exists x. split; [|done]. rewrite lookup_insert_ne; [done|].
      intros Heq. rewrite Heq in Hu. congruence.
    + intros (x&Hx&Hax). apply lookup_insert_Some in Hx as [[<- <-]|[Hne Hx]]; [by left|].
      right. split; [|apply Ha; by exists x]. intros Heq. rewrite Heq in Had.
      rewrite (proj2 (Ha a v)) in Had; [done|by exists x].
  - apply NoDup_app. split_and!; [done| |apply NoDup_singleton].
    intros v Hv ->%list_elem_of_singleton. apply Hl in Hv as [? ?]. congruence.
  - intros v. rewrite elem_of_app, Hl, list_elem_of_singleton, lookup_insert_is_Some.
    destruct (decide (uuid e = v)); naive_solver.
  - intros v x Hx. apply lookup_insert_Some in Hx as [[<- <-]|[_ Hx]]; eauto.
Qed.

Lemma remove_channel_wf d u : dir_wf d → dir_wf (remove_channel d u).1.
Proof.
  intros Hd. pose proof Hd as [Hid Ha Ho Hl Hs]. unfold remove_channel.
  destruct (by_uuid d !! u) as [e|] eqn:He; [|done]. split; simpl.
  - intros v x Hx. apply lookup_delete_Some in Hx as [_ Hx]. eauto.
  - intros a v. rewrite lookup_delete_Some, Ha. split.
    + intros (Hne&x&Hx&Hax). exists x. split; [|done]. apply lookup_delete_Some. split; [|done].
      intros ->. apply Hne. congruence.
    + intros (x&Hx&Hax). apply lookup_delete_Some in Hx as [Hne Hx]. split; [|by exists x].
      intros Hea. apply Hne. assert (by_address d !! a = Some u) as Hau by (apply Ha; exists e; by split).
      assert (by_address d !! a = Some v) as Hav by (apply Ha; by exists x). congruence.
  - by apply NoDup_filter.
  - intros v. rewrite list_elem_of_filter, Hl. split.
    + intros [Hne [x Hx]]. exists x. by rewrite lookup_delete_ne.
    + intros [x Hx]. apply lookup_delete_Some in Hx as [Hne Hx]. split; [done|]. by exists x.
  - intros v x Hx. apply lookup_delete_Some in Hx as [_ Hx]. eauto.
Qed.

Lemma remove_subscriber_wf d u k : dir_wf d → dir_wf (remove_subscriber d u k).1.
Proof.
  intros Hd. unfold remove_subscriber. destruct (by_uuid d !! u) as [e|] eqn:He; [|done].
  destruct (Nat.eqb _ _); [done|]. eapply put_entry_wf; try done.
  simpl. pose proof (dwf_subs _ Hd _ _ He) as Hn. clear -Hn. induction (subscribers e) as [|s l IH]; [constructor|].
  simpl in Hn. apply NoDup_cons in Hn as [Hs Hn]. rewrite filter_cons. case_decide; [|auto].
  simpl. apply NoDup_cons. split; [|auto]. intros Hin. apply Hs.
  apply list_elem_of_fmap in Hin as (x&->&[_ Hx]%list_elem_of_filter). by apply list_elem_of_fmap_2.
Qed.

(** The channels an operation brings declare each subscriber once. *)
Definition op_ok (op : dir_op) : Prop :=
  match op with AddChannel e => NoDup (kind <$> subscribers e) | _ => True end.

Lemma dir_step_wf d op d' : dir_wf d → op_ok op → dir_step d op = Returns d' → dir_wf d'.
Proof.
  intros Hd Hop. destruct op as [u s|u k|u desc|e|u]; simpl.
  - intros [= <-]. unfold add_subscriber. destruct (by_uuid d !! u) as [e|] eqn:He; [|done].
    eapply put_entry_wf; try done. simpl. apply (added_nodup s). by eapply dwf_subs.
  - intros [= <-]. by apply remove_subscriber_wf.
  - intros [= <-]. unfold set_description. destruct (by_uuid d !! u) as [e|] eqn:He; [|done].
    eapply put_entry_wf; try done. simpl. by eapply dwf_subs.
  - intros He. destruct (add_channel_spec d e) as [(d''&Hr&->&Hu&Ha)|(why&Hp&_)]; [|congruence].
    rewrite Hr in He. injection He as <-. by apply push_entry_wf.
  - intros [= <-]. by apply remove_channel_wf.
Qed.

Lemma dir_run_wf ops : ∀ d d', dir_wf d → Forall op_ok ops → dir_run d ops = Returns d' → dir_wf d'.
Proof.
  induction ops as [|op ops IH]; intros d d' Hd Hops; simpl; [by intros [= <-]|].
  apply Forall_cons in Hops as [Hop Hops]. destruct (dir_step d op) as [d1|] eqn:Hs; [|done].
  simpl. apply IH; [by eapply dir_step_wf|done].
Qed.

Lemma resolve_spec d a e :
  dir_wf d → resolve d a = Some e ↔ by_uuid d !! uuid e = Some e ∧ address e = a.
Proof.
  intros [Hid Ha _ _ _]. unfold resolve. split.
  - intros (u&Hu&He)%bind_Some. rewrite (Hid _ _ He). split; [done|].
    apply Ha in Hu as (x&Hx&Hax). congruence.
  - intros [He Hax]. apply bind_Some. exists (uuid e). split; [|done]. apply Ha. by exists e.
Qed.
End run.
Arguments dir_op : clear implicits.
End DirectoryRun.

Module DirectoryProps.
Import Envelope Directory DirectoryRun.

Section props.
Context {Uuid : Type} `{Countable Uuid}.

(** Listing a well-formed directory. *)
Lemma list_channels_spec (d : MessagingDirectory Uuid) :
  dir_wf d → ∃ l, list_channels d = Returns l ∧ NoDup (uuid <$> l) ∧ ∀ e, e ∈ l ↔ by_uuid d !! uuid e = Some e.
Proof.
  intros [Hid _ Ho Hl _]. unfold list_channels.
  destruct (mapM (λ u, by_uuid d !! u) (order d)) as [l|] eqn:Hm.
  - exists l. apply mapM_Some in Hm. assert (uuid <$> l = order d) as Hu.
    { clear -Hm Hid. induction Hm as [|u e us es He _ IH]; [done|]. rewrite fmap_cons, IH. f_equal. eauto. }
    split_and!; [done|by rewrite Hu|]. intros e. split.
    + intros [i Hi]%list_elem_of_lookup_1. destruct (Forall2_lookup_r _ _ _ _ _ Hm Hi) as (u&_&Hu').
      by rewrite (Hid _ _ Hu').
    + intros He. assert (uuid e ∈ order d) as Hin by (apply Hl; by exists e).
      apply list_elem_of_lookup_1 in Hin as [i Hi]. destruct (Forall2_lookup_l _ _ _ _ _ Hm Hi) as (x&Hx&Hux).
      apply list_elem_of_lookup_2 in Hx. congruence.
  - exfalso. apply mapM_None in Hm. apply Exists_exists in Hm as (u&Hu&Hn).
    apply Hl in Hu as [? ?]. congruence.
Qed.

(** (directory) the three indexes stay one directory. Over any sequence of operations
    from the empty one, whatever channels come and go, an address resolves exactly to the
    entry that carries it, listing never unwinds and lists each channel exactly once, and no
    channel holds the same subscriber twice. *)
Theorem directory_stays_one (ops : list (dir_op Uuid)) d :
  Forall op_ok ops → dir_run new ops = Returns d →
  (∀ a e, resolve d a = Some e ↔ by_uuid d !! uuid e = Some e ∧ address e = a) ∧
  (∃ l, list_channels d = Returns l ∧ NoDup (uuid <$> l) ∧
        ∀ e, e ∈ l ↔ by_uuid d !! uuid e = Some e) ∧
  (∀ u e, by_uuid d !! u = Some e → NoDup (kind <$> subscribers e)).
Proof.
  intros Hops Hrun. pose proof (dir_run_wf ops new d new_dir_wf Hops Hrun) as Hd.
  split_and!; [intros a e; by apply resolve_spec|by apply list_channels_spec|by apply dwf_subs].
Qed.

(** (directory) a subscriber is its principal. Adding one replaces exactly the entry of
    the same principal, or appends when there is none, touching no other subscriber and no
    other channel; a principal is the kind with its slug and conversation, so two
    conversations of one app are two subscribers. *)
Theorem add_subscriber_replaces_its_principal (ops : list (dir_op Uuid)) d u s e :
  Forall op_ok ops → dir_run new ops = Returns d → by_uuid d !! u = Some e →
  ∃ d' e', add_subscriber d u s = (d', true) ∧ by_uuid d' !! u = Some e' ∧
    uuid e' = u ∧ address e' = address e ∧
    (∀ x, x ∈ subscribers e' ↔ x = s ∨ (x ∈ subscribers e ∧ same_principal (kind x) (kind s) = false)) ∧
    (∀ v, v ≠ u → by_uuid d' !! v = by_uuid d !! v) ∧ by_address d' = by_address d.
Proof.
  intros Hops Hrun He. pose proof (dir_run_wf ops new d new_dir_wf Hops Hrun) as Hd.
  unfold add_subscriber. rewrite He. eexists _, _. split; [done|]. cbn [put_entry by_uuid].
  split; [apply lookup_insert_eq|]. split_and!.
  - simpl. by apply (dwf_id _ Hd).
  - done.
  - intros x. simpl. rewrite same_principal_ne. apply (elem_of_added s). by eapply dwf_subs.
  - intros v Hv. by apply lookup_insert_ne.
  - done.
Qed.

(** A subscriber's identity is its kind: comparing principals is comparing kinds. *)
Theorem principal_is_kind k k' : same_principal k k' = true ↔ k = k'.
Proof. apply same_principal_eq. Qed.

(** Narrowing by a channel's standing depth keeps the reap frontier answerable. *)
Lemma narrowed_within d standing : depth_leb (narrowed_by d standing) standing = true.
Proof. destruct d, standing; simpl; try done; apply N.leb_le; lia. Qed.
End props.

Definition demo_sub : SubscriberEntry := mkSubscriber (ChatConversation "home" 7) (Bounded 4) (Bounded 4) Silent None.
Definition demo_channel : ChannelEntry N :=
  mkChannel 1%N "brenn:room" None (mkResolved (Bounded 8) (Bounded 8) Silent default_send_rate) [] Brenn None.
Definition demo_ops : list (dir_op N) := [AddChannel demo_channel; AddSubscriber 1%N demo_sub].
Definition demo_dir : MessagingDirectory N :=
  (add_subscriber (push_entry new demo_channel) 1%N demo_sub).1.

Lemma directory_stays_one_witness :
  (∀ a e, resolve demo_dir a = Some e ↔ by_uuid demo_dir !! uuid e = Some e ∧ address e = a) ∧
  (∃ l, list_channels demo_dir = Returns l ∧ NoDup (uuid <$> l) ∧
        ∀ e, e ∈ l ↔ by_uuid demo_dir !! uuid e = Some e) ∧
  (∀ u e, by_uuid demo_dir !! u = Some e → NoDup (kind <$> subscribers e)).
Proof.
  apply (directory_stays_one demo_ops demo_dir); [|vm_compute; reflexivity].
  repeat constructor.
Defined.

Lemma add_subscriber_replaces_its_principal_witness :
  ∃ d' e', add_subscriber demo_dir 1%N demo_sub = (d', true) ∧ by_uuid d' !! 1%N = Some e' ∧
    uuid e' = 1%N ∧ address e' = address (with_subscribers demo_channel [demo_sub]) ∧
    (∀ x, x ∈ subscribers e' ↔
       x = demo_sub ∨ (x ∈ [demo_sub] ∧ same_principal (kind x) (kind demo_sub) = false)) ∧
    (∀ v, v ≠ 1%N → by_uuid d' !! v = by_uuid demo_dir !! v) ∧ by_address d' = by_address demo_dir.
Proof.
  apply (add_subscriber_replaces_its_principal demo_ops demo_dir 1%N demo_sub
           (with_subscribers demo_channel [demo_sub])); [|vm_compute; reflexivity..].
  repeat constructor.
Defined.
End DirectoryProps.
