(* ===== verification/Identity.v ===== *)
(** * Participant identities ([brenn-lib/src/messaging/identity.rs])

    Publishers and subscribers are named by one string namespace. The substrate never
    parses a name except at the recovery points here, so what matters is that a name
    reads back as the thing it was minted for, and that no attacher's scope claims
    another's names. [IdentityProps] proves both. *)

From S2P Require Import Prelude Envelope Mqtt Directory.
From Stdlib Require Import Ascii DecimalString DecimalN.

#[local] Open Scope list_scope.
#[local] Open Scope string_scope.

Module Identity.
Import Envelope Directory.

(** ** [i64] as text *)

Definition in_i64 (z : Z) : bool :=
  ((- 9223372036854775808 <=? z) && (z <=? 9223372036854775807))%Z.

(** [format!("{n}")] of an [i64]. *)
Definition i64_to_string (z : Z) : string :=
  let digits := NilZero.string_of_uint (N.to_uint (Z.abs_N z)) in
  if (z <? 0)%Z then String "-" digits else digits.

(** The digits of [str::parse::<i64>]: at least one, and nothing else. *)
Definition parse_digits (s : string) : option N := N.of_uint <$> NilZero.uint_of_string s.

Definition within_i64 (z : Z) : option Z := if in_i64 z then Some z else None.

(** [str::parse::<i64>]: an optional sign, then digits in range. *)
Definition i64_parse (s : string) : option Z :=
  match s with
  | String "+" rest => n ← parse_digits rest; within_i64 (Z.of_N n)
  | String "-" rest => n ← parse_digits rest; within_i64 (- Z.of_N n)
  | _ => n ← parse_digits s; within_i64 (Z.of_N n)
  end.

(** ** Identities *)

(** [ParticipantId]: an opaque string. *)
Definition ParticipantId : Type := string.

Inductive SubscriberKind :=
| KConversation (id : Z)
| KWasm (slug : string)
| KSurface (slug : string) (inst : option string)
| KRemote (slug : string)
| KSystem (component : string).

Definition REMOTE_PREFIX : string := "remote:".

(** [AttachKind::as_str]. *)
Definition attach_kind_as_str (k : AttachKind) : string :=
  match k with KindSurface => "surface" | KindRemote => "remote" end.

(** [AttachKind::mints_sub_identities]. *)
Definition mints_sub_identities (k : AttachKind) : bool :=
  match k with KindSurface => true | KindRemote => false end.

#[export] Instance AttachKind_eq_dec : EqDecision AttachKind.
Proof. solve_decision. Defined.

(** [assert!(!s.is_empty())] and one [assert!(!s.contains(c))] per character. *)
Definition assert_join_key (s : string) (banned : list ascii) : panics unit :=
  _ ← rust_assert (negb (String.eqb s "")) "must not be empty";
  rust_assert (forallb (λ c, negb (Mqtt.contains_char c s)) banned) "must not contain a separator".

(** [ParticipantId::for_conversation]. *)
Definition for_conversation (id : Z) : ParticipantId := "conversation:" +:+ i64_to_string id.

(** [ParticipantId::for_app]. *)
Definition for_app (app_slug server : string) : panics ParticipantId :=
  _ ← assert_join_key app_slug ["@"; ":"]%char;
  _ ← rust_assert (negb (String.eqb server "")) "server must not be empty";
  Returns ("app:" +:+ app_slug +:+ "@" +:+ server).

(** [ParticipantId::for_wasm]. *)
Definition for_wasm (slug : string) : panics ParticipantId :=
  _ ← assert_join_key slug [":"; "@"]%char; Returns ("wasm:" +:+ slug).

(** [ParticipantId::for_surface]. *)
Definition for_surface (slug : string) : panics ParticipantId :=
  _ ← assert_join_key slug [":"; "@"; "#"]%char; Returns ("surface:" +:+ slug).

(** [ParticipantId::for_surface_component]. *)
Definition for_surface_component (slug inst : string) : panics ParticipantId :=
  base ← for_surface slug;
  _ ← assert_join_key inst [":"; "@"; "#"]%char;
  Returns (surface_sub_identity base inst).

(** [ParticipantId::for_remote]. *)
Definition for_remote (slug : string) : panics ParticipantId :=
  _ ← assert_join_key slug [":"; "@"; "#"]%char; Returns (REMOTE_PREFIX +:+ slug).

(** [ParticipantId::for_system]. *)
Definition for_system (component : string) : panics ParticipantId :=
  _ ← assert_join_key component [":"; "@"]%char; Returns ("system:" +:+ component).

(** [as_remote_slug], [as_system_component], [as_wasm_slug]. *)
Definition as_remote_slug (p : ParticipantId) : panics string :=
  rust_expect (strip_prefix REMOTE_PREFIX p) "not a remote identity".
Definition as_system_component (p : ParticipantId) : panics string :=
  rust_expect (strip_prefix "system:" p) "not a system identity".
Definition as_wasm_slug (p : ParticipantId) : panics string :=
  rust_expect (strip_prefix "wasm:" p) "not a wasm identity".

(** [ParticipantId::as_surface_slug]. *)
Definition as_surface_slug (p : ParticipantId) : panics string :=
  rest ← rust_expect (strip_prefix "surface:" p) "not a surface identity";
  Returns (match Mqtt.split_first SURFACE_SUB_IDENTITY_SEP rest with
           | Some (slug, _) => slug
           | None => rest
           end).

(** [ParticipantId::surface_component]. *)
Definition surface_component (p : ParticipantId) : panics (option string) :=
  rest ← rust_expect (strip_prefix "surface:" p) "not a surface identity";
  Returns (snd <$> Mqtt.split_first SURFACE_SUB_IDENTITY_SEP rest).

(** [ParticipantId::surface_component_of]. *)
Definition surface_component_of (sender : string) : option (string * string) :=
  rest ← strip_prefix "surface:" sender; Mqtt.split_first SURFACE_SUB_IDENTITY_SEP rest.

Definition has_prefix (p s : string) : bool := bool_decide (is_Some (strip_prefix p s)).

(** [ParticipantId::is_structured]. *)
Definition is_structured (s : string) : bool :=
  has_prefix "app:" s || has_prefix "conversation:" s || has_prefix "wasm:" s
  || has_prefix "surface:" s || has_prefix "remote:" s || has_prefix "system:" s.

(** [ParticipantId::kind]. *)
Definition identity_kind (p : ParticipantId) : panics SubscriberKind :=
  match strip_prefix "conversation:" p with
  | Some rest =>
      id ← rust_expect (i64_parse rest) "malformed conversation identity";
      Returns (KConversation id)
  | None =>
  match strip_prefix "wasm:" p with
  | Some slug => Returns (KWasm slug)
  | None =>
  if has_prefix "surface:" p then
    slug ← as_surface_slug p;
    inst ← surface_component p;
    Returns (KSurface slug inst)
  else
  match strip_prefix "remote:" p with
  | Some slug => Returns (KRemote slug)
  | None =>
  match strip_prefix "system:" p with
  | Some component => Returns (KSystem component)
  | None =>
      if has_prefix "app:" p then Panics "app: identities are publisher-side only"
      else Panics "unrecognized identity kind"
  end end end end.

(** [ParticipantId::as_conversation_id]. *)
Definition as_conversation_id (p : ParticipantId) : panics Z :=
  rust_expect (rest ← strip_prefix "conversation:" p; i64_parse rest) "not a conversation identity".

(** ** Scopes *)

(** [AttachScope::principal]. *)
Definition scope_principal (sc : AttachScope) (attribution : option string) : panics ParticipantId :=
  match scope_kind sc, attribution with
  | KindSurface, Some inst => for_surface_component (scope_slug sc) inst
  | KindSurface, None => for_surface (scope_slug sc)
  | KindRemote, None => for_remote (scope_slug sc)
  | KindRemote, Some _ => Panics "a remote declares no sub-identities"
  end.

(** [AttachScope::covers]. *)
Definition covers (sc : AttachScope) (principal : string) : panics bool :=
  bare ← scope_principal sc None;
  Returns (String.eqb principal bare
           || ((str_len bare <? str_len principal)%N && has_prefix bare principal
               && bool_decide (String.get (String.length bare) principal = Some "#"%char))).

(** [AttachScope::registry_key]. *)
Definition registry_key (sc : AttachScope) : string :=
  match scope_kind sc with
  | KindSurface => scope_slug sc
  | KindRemote => REMOTE_PREFIX +:+ scope_slug sc
  end.

(** [AttachScope::sub_identity_of]. *)
Definition sub_identity_of (sc : AttachScope) (sender : string) : option string :=
  if negb (mints_sub_identities (scope_kind sc)) then None
  else
    '(slug, inst) ← surface_component_of sender;
    if String.eqb slug (scope_slug sc) then Some inst else None.
End Identity.

Module IdentityProps.
Import Envelope Directory Identity.

(** *** Text *)

Lemma uint_digit_head d c rest :
  NilEmpty.string_of_uint d = String c rest →
  c ≠ "+"%char ∧ c ≠ "-"%char.
Proof. destruct d; simpl; intros [= <- _]; done. Qed.

Lemma digits_head n :
  ∃ c rest, NilZero.string_of_uint (N.to_uint n) = String c rest ∧ c ≠ "+"%char ∧ c ≠ "-"%char.
Proof.
  unfold NilZero.string_of_uint. destruct (N.to_uint n) eqn:E; [by exists "0"%char, ""|..];
    simpl; do 2 eexists; (split; [reflexivity|done]).
Qed.

Lemma to_uint_nonnil n : N.to_uint n ≠ Decimal.Nil.
Proof. destruct n as [|p]; [done|]. apply DecimalPos.Unsigned.to_uint_nonnil. Qed.

Lemma parse_digits_of n : parse_digits (NilZero.string_of_uint (N.to_uint n)) = Some n.
Proof.
  unfold parse_digits. rewrite NilZero.usu by apply to_uint_nonnil. simpl.
  by rewrite DecimalN.Unsigned.of_to.
Qed.

Lemma i64_roundtrip z : in_i64 z = true → i64_parse (i64_to_string z) = Some z.
Proof.
  intros Hz. unfold i64_to_string. pose proof (digits_head (Z.abs_N z)) as (c&rest&Hd&Hp&Hm).
  pose proof (parse_digits_of (Z.abs_N z)) as Hval. rewrite Hd in Hval |- *.
  destruct (Z.ltb_spec z 0).
  - cbn [i64_parse]. rewrite Hval. simpl. replace (- Z.of_N (Z.abs_N z))%Z with z by lia.
    unfold within_i64. by rewrite Hz.
  - assert (Hi : i64_parse (String c rest) = (n ← parse_digits (String c rest); within_i64 (Z.of_N n))).
    { destruct c as [[] [] [] [] [] [] [] []]; try reflexivity; done. }
    rewrite Hi, Hval. simpl. replace (Z.of_N (Z.abs_N z)) with z by lia.
    unfold within_i64. by rewrite Hz.
Qed.

Lemma string_app_assoc (a b c : string) : a +:+ b +:+ c = (a +:+ b) +:+ c.
Proof. induction a as [|x a IH]; [done|]. exact (f_equal (String x) IH). Qed.

Lemma string_app_nil_r (a : string) : a +:+ "" = a.
Proof. induction a as [|x a IH]; [done|]. exact (f_equal (String x) IH). Qed.

Lemma strip_prefix_app p s : strip_prefix p (p +:+ s) = Some s.
Proof. by apply strip_prefix_Some. Qed.

Lemma has_prefix_app p s : has_prefix p (p +:+ s) = true.
Proof. unfold has_prefix. rewrite strip_prefix_app. apply bool_decide_eq_true. by eexists. Qed.

Lemma split_first_absent c s : Mqtt.contains_char c s = false → Mqtt.split_first c s = None.
Proof.
  induction s as [|a s IH]; simpl; [done|]. intros [Ha Hs]%orb_false_iff.
  rewrite Ha. by rewrite IH.
Qed.

Lemma split_first_app c l r :
  Mqtt.contains_char c l = false → Mqtt.split_first c (l +:+ String c r) = Some (l, r).
Proof. intros. by apply MqttProps.split_first_Some. Qed.

(** *** What the constructors admit *)

Lemma assert_join_key_Returns s banned :
  assert_join_key s banned = Returns () ↔
  s ≠ "" ∧ Forall (λ c, Mqtt.contains_char c s = false) banned.
Proof.
  unfold assert_join_key. destruct (String.eqb_spec s ""); simpl; [by split; [|intros []]|].
  assert (Hall : forallb (λ c, negb (Mqtt.contains_char c s)) banned = true ↔
    Forall (λ c, Mqtt.contains_char c s = false) banned).
  { induction banned as [|c banned IH]; simpl; [by split|].
    rewrite andb_true_iff, Forall_cons, negb_true_iff. naive_solver. }
  destruct (forallb _ _); simpl; naive_solver.
Qed.

Lemma join_key_bind {A} s banned (k : panics A) r :
  (assert_join_key s banned ≫= λ _, k) = Returns r →
  s ≠ "" ∧ Forall (λ c, Mqtt.contains_char c s = false) banned ∧ k = Returns r.
Proof.
  intros Hb. destruct (assert_join_key s banned) as [[]|] eqn:Ha; [|done].
  apply assert_join_key_Returns in Ha as [??]. done.
Qed.

(** What a minted identity spells. *)
Lemma for_surface_Returns slug p :
  for_surface slug = Returns p →
  p = "surface:" +:+ slug ∧ slug ≠ "" ∧ Mqtt.contains_char ":" slug = false ∧
  Mqtt.contains_char "#" slug = false.
Proof.
  intros (Hne&Hb&[= <-])%join_key_bind. rewrite !Forall_cons in Hb. naive_solver.
Qed.

Lemma for_surface_component_Returns slug inst p :
  for_surface_component slug inst = Returns p →
  p = "surface:" +:+ (slug +:+ String "#" inst) ∧ for_surface slug = Returns ("surface:" +:+ slug).
Proof.
  unfold for_surface_component. destruct (for_surface slug) as [base|] eqn:Hs; [|done].
  intros (_&_&[= <-])%join_key_bind. apply for_surface_Returns in Hs as (->&_).
  split; [|done]. unfold surface_sub_identity. by rewrite string_app_assoc, <-string_app_assoc.
Qed.

Lemma for_remote_Returns slug p :
  for_remote slug = Returns p →
  p = "remote:" +:+ slug ∧ slug ≠ "" ∧ Mqtt.contains_char ":" slug = false ∧
  Mqtt.contains_char "#" slug = false.
Proof. intros (Hne&Hb&[= <-])%join_key_bind. rewrite !Forall_cons in Hb. naive_solver. Qed.

(** The subscriber-side constructors, by the kind they mint for. *)
Definition mint (k : SubscriberKind) : panics ParticipantId :=
  match k with
  | KConversation id => Returns (for_conversation id)
  | KWasm slug => for_wasm slug
  | KSurface slug None => for_surface slug
  | KSurface slug (Some inst) => for_surface_component slug inst
  | KRemote slug => for_remote slug
  | KSystem component => for_system component
  end.

(** A conversation id is an [i64]. *)
Definition kind_ok (k : SubscriberKind) : Prop :=
  match k with KConversation id => in_i64 id = true | _ => True end.

Lemma surface_kind slug rest :
  Mqtt.contains_char "#" slug = false →
  identity_kind ("surface:" +:+ (slug +:+ rest)) =
    match rest with
    | "" => Returns (KSurface slug None)
    | String "#" inst => Returns (KSurface slug (Some inst))
    | _ => identity_kind ("surface:" +:+ (slug +:+ rest))
    end.
Proof.
  intros Hs. destruct rest as [|c inst].
  - rewrite string_app_nil_r. unfold identity_kind, as_surface_slug, surface_component.
    rewrite has_prefix_app, !strip_prefix_app. simpl. by rewrite split_first_absent.
  - destruct (decide (c = "#"%char)) as [->|Hc].
    + unfold identity_kind, as_surface_slug, surface_component.
      rewrite has_prefix_app, !strip_prefix_app. simpl. by rewrite split_first_app.
    + destruct c as [[] [] [] [] [] [] [] []]; done.
Qed.

(** (identities) a subscriber's name reads back as what it was minted for. Whatever
    kind of subscriber a constructor accepts, classifying the string it minted answers that
    kind with every part intact, so two subscribers never share a name; and an application's
    publisher name, which is no subscriber, is refused rather than classified. *)
Theorem identities_read_back (k : SubscriberKind) (p : ParticipantId) :
  mint k = Returns p → kind_ok k →
  identity_kind p = Returns k ∧ is_structured p = true ∧
  (∀ k', kind_ok k' → mint k' = Returns p → k' = k) ∧
  (∀ app_slug server, for_app app_slug server ≠ Returns p).
Proof.
  assert (Hread : ∀ k p, mint k = Returns p → kind_ok k → identity_kind p = Returns k).
  { clear. intros [id|slug|slug [inst|]|slug|component] p; cbn [mint].
    - intros [= <-] Hid. unfold for_conversation, identity_kind.
      rewrite strip_prefix_app, i64_roundtrip by done. done.
    - by intros (_&_&[= <-])%join_key_bind.
    - intros [-> (_&_&_&Hs)%for_surface_Returns]%for_surface_component_Returns _.
      by rewrite surface_kind.
    - intros (->&_&_&Hs)%for_surface_Returns _.
      rewrite <-(string_app_nil_r slug) at 1. by rewrite surface_kind.
    - by intros (->&_)%for_remote_Returns.
    - by intros (_&_&[= <-])%join_key_bind. }
  intros Hm Hk. pose proof (Hread k p Hm Hk) as Hkind. split_and!.
  - done.
  - revert Hkind. unfold identity_kind, is_structured, has_prefix.
    repeat case_match; try done; intros _; simplify_eq; rewrite ?orb_true_iff, ?bool_decide_eq_true;
      naive_solver.
  - intros k' Hk' Hm'. pose proof (Hread k' p Hm' Hk'). congruence.
  - intros app_slug server (_&_&Happ)%join_key_bind.
    destruct (negb _); [|done]. injection Happ as <-. by cbv in Hkind.
Qed.

(** *** Scopes *)

Lemma scope_principal_Returns sc att p :
  scope_principal sc att = Returns p →
  p = attach_kind_as_str (scope_kind sc) +:+ String ":" (scope_slug sc +:+
        match att with Some inst => String "#" inst | None => "" end) ∧
  scope_principal sc None = Returns (attach_kind_as_str (scope_kind sc) +:+ String ":" (scope_slug sc)) ∧
  scope_slug sc ≠ "" ∧ Mqtt.contains_char ":" (scope_slug sc) = false ∧
  Mqtt.contains_char "#" (scope_slug sc) = false.
Proof.
  destruct sc as [[] slug]; unfold scope_principal; simpl; destruct att as [inst|].
  - intros [-> Hs]%for_surface_component_Returns.
    pose proof Hs as (_&?&?&?)%for_surface_Returns. done.
  - intros Hs. pose proof Hs as (->&?&?&?)%for_surface_Returns.
    rewrite string_app_nil_r. done.
  - done.
  - intros Hs. pose proof Hs as (->&?&?&?)%for_remote_Returns.
    rewrite string_app_nil_r. done.
Qed.

Lemma has_prefix_spec p s : has_prefix p s = true ↔ ∃ r, s = p +:+ r.
Proof.
  unfold has_prefix. rewrite bool_decide_eq_true. unfold is_Some.
  by setoid_rewrite strip_prefix_Some.
Qed.

Lemma get_app_head (p r : string) c rest :
  r = String c rest → String.get (String.length p) (p +:+ r) = Some c.
Proof. intros ->. exact (eq_sym (String.append_correct2 p (String c rest) 0)). Qed.

Lemma str_len_app a b : (str_len (a +:+ b) = str_len a + str_len b)%N.
Proof.
  unfold str_len. induction a as [|x a IH]; [done|].
  change (String.length (String x a +:+ b)) with (S (String.length (a +:+ b))).
  cbn [String.length]. lia.
Qed.

(** The test as a set: the bare identity, and it followed by [#] and anything. *)
Lemma covers_spec sc bare p :
  scope_principal sc None = Returns bare →
  covers sc p = Returns (bool_decide (p = bare) || has_prefix (bare +:+ "#") p).
Proof.
  intros Hb. unfold covers. rewrite Hb. simpl. f_equal.
  rewrite (bool_decide_ext (p = bare) (String.eqb p bare = true)) by (symmetry; apply String.eqb_eq).
  destruct (String.eqb_spec p bare) as [->|Hne]; [done|]. simpl.
  apply eq_true_iff_eq. rewrite has_prefix_spec, !andb_true_iff, bool_decide_eq_true, has_prefix_spec.
  split.
  - intros [[Hlen [r ->]] Hget]. destruct r as [|c r].
    { by rewrite string_app_nil_r in Hne. }
    rewrite (get_app_head bare _ c r eq_refl) in Hget. injection Hget as ->.
    exists r. by rewrite <-string_app_assoc.
  - intros [r ->]. rewrite <-string_app_assoc. split_and!.
    + rewrite N.ltb_lt, str_len_app. unfold str_len. simpl. lia.
    + by eexists.
    + by apply (get_app_head bare _ "#" r).
Qed.

Lemma first_mark c a b ra rb :
  Mqtt.contains_char c a = false → Mqtt.contains_char c b = false →
  a +:+ String c ra = b +:+ String c rb → a = b ∧ ra = rb.
Proof.
  intros Ha Hb Heq. pose proof (split_first_app c a ra Ha) as H1.
  rewrite Heq, split_first_app in H1 by done. by injection H1 as -> ->.
Qed.

Lemma absent_app c a b :
  Mqtt.contains_char c (a +:+ b) = Mqtt.contains_char c a || Mqtt.contains_char c b.
Proof.
  induction a as [|x a IH]; [done|]. change (String x a +:+ b) with (String x (a +:+ b)).
  cbn [Mqtt.contains_char]. by rewrite IH, orb_assoc.
Qed.

(** The scheme of an attacher's identity says its kind, the rest its slug. *)
Lemma scheme_and_slug k k' a b :
  attach_kind_as_str k +:+ String ":" a = attach_kind_as_str k' +:+ String ":" b → k = k' ∧ a = b.
Proof.
  intros [Hk ->]%first_mark; [|by destruct k|by destruct k']. split; [|done]. by destruct k, k'.
Qed.

(** A slug, then a marked tail or nothing, determines both. *)
Definition tail_of (att : option string) : string :=
  match att with Some inst => String "#" inst | None => "" end.

Lemma slug_and_tail a b att att' :
  Mqtt.contains_char "#" a = false → Mqtt.contains_char "#" b = false →
  a +:+ tail_of att = b +:+ tail_of att' → a = b ∧ att = att'.
Proof.
  intros Ha Hb. destruct att as [i|], att' as [i'|]; simpl; rewrite ?string_app_nil_r.
  - by intros [-> ->]%first_mark.
  - intros <-. rewrite absent_app in Hb. simpl in Hb. by rewrite orb_true_r in Hb.
  - intros ->. rewrite absent_app in Ha. simpl in Ha. by rewrite orb_true_r in Ha.
  - done.
Qed.

Lemma sub_identity_of_minted k a k' b att :
  Mqtt.contains_char "#" b = false → (k' = KindRemote → att = None) →
  sub_identity_of (mkScope k a) (attach_kind_as_str k' +:+ String ":" (b +:+ tail_of att)) =
    if decide (k = k' ∧ a = b) then att else None.
Proof.
  intros Hb Hr. unfold sub_identity_of. destruct k; simpl.
  2:{ case_decide as Hd; [|done]. destruct Hd as [<- _]. by rewrite Hr. }
  destruct k'; [|by case_decide as Hd; [destruct Hd|]].
  unfold surface_component_of.
  change (attach_kind_as_str KindSurface +:+ String ":" (b +:+ tail_of att))
    with ("surface:" +:+ (b +:+ tail_of att)).
  rewrite strip_prefix_app. destruct att as [inst|]; cbn [tail_of option_bind mbind].
  - rewrite split_first_app by done. simpl. destruct (String.eqb_spec b a) as [->|Hne].
    + by rewrite decide_True.
    + rewrite decide_False; naive_solver.
  - rewrite string_app_nil_r, split_first_absent by done. by case_decide.
Qed.

Lemma covers_minted k a k' b att :
  Mqtt.contains_char "#" a = false → Mqtt.contains_char "#" b = false →
  let bare := attach_kind_as_str k +:+ String ":" a in
  let p := attach_kind_as_str k' +:+ String ":" (b +:+ tail_of att) in
  bool_decide (p = bare) || has_prefix (bare +:+ "#") p = bool_decide (k = k' ∧ a = b).
Proof.
  intros Ha Hb bare p. subst bare p. apply eq_true_iff_eq.
  rewrite orb_true_iff, has_prefix_spec, !bool_decide_eq_true. split.
  - intros [[-> Heq]%scheme_and_slug|[r Heq]].
    + rewrite <-(string_app_nil_r a) in Heq. by apply (slug_and_tail _ _ _ None) in Heq as [-> _].
    + rewrite <-!string_app_assoc in Heq. apply scheme_and_slug in Heq as [-> Heq].
      by apply (slug_and_tail _ _ _ (Some r)) in Heq as [-> _].
  - intros [-> ->]. destruct att as [inst|]; simpl; [right|left; by rewrite string_app_nil_r].
    exists inst. by rewrite <-!string_app_assoc.
Qed.

Lemma registry_key_minted k a k' b :
  Mqtt.contains_char ":" a = false → Mqtt.contains_char ":" b = false →
  registry_key (mkScope k a) = registry_key (mkScope k' b) → k = k' ∧ a = b.
Proof.
  intros Ha Hb. unfold registry_key. destruct k, k'; simpl; try done.
  - intros ->. by rewrite absent_app in Ha.
  - intros <-. by rewrite absent_app in Hb.
  - intros Heq. split; [done|]. by apply (string_app_inj REMOTE_PREFIX).
Qed.

(** (identities) an attacher's scope claims exactly its own principals. Whichever
    attacher minted a principal, under a sub-identity or bare, the scope test answers yes
    for that attacher and no for every other: no slug that merely starts alike, no surface
    and remote of the same slug. The sub-identity it reports is the one the principal was
    minted under, and no two attachers share the key their sessions are registered at. *)
Theorem scopes_are_disjoint (sc sc' : AttachScope) (att : option string) (bare p : ParticipantId) :
  scope_principal sc None = Returns bare → scope_principal sc' att = Returns p →
  covers sc p = Returns (bool_decide (scope_kind sc = scope_kind sc' ∧ scope_slug sc = scope_slug sc')) ∧
  (sub_identity_of sc p = if decide (scope_kind sc = scope_kind sc' ∧ scope_slug sc = scope_slug sc') then att else None) ∧
  (registry_key sc = registry_key sc' ↔ sc = sc').
Proof.
  intros Hb Hp. rewrite (covers_spec _ _ _ Hb).
  assert (Hr : scope_kind sc' = KindRemote → att = None).
  { destruct sc' as [[] ?]; [done|]. by destruct att. }
  apply scope_principal_Returns in Hb as (->&_&Hne&Hc&Hh).
  apply scope_principal_Returns in Hp as (->&_&Hne'&Hc'&Hh').
  destruct sc as [k a], sc' as [k' b]. cbn [scope_kind scope_slug] in *.
  rewrite string_app_nil_r. split_and!.
  - f_equal. by apply covers_minted.
  - etrans; [by apply sub_identity_of_minted|].
    repeat case_decide; naive_solver.
  - split; [|by intros [= -> ->]]. by intros [-> ->]%registry_key_minted.
Qed.

Lemma identities_read_back_witness :
  identity_kind "surface:kitchen#agenda" = Returns (KSurface "kitchen" (Some "agenda")) ∧
  identity_kind "conversation:-7" = Returns (KConversation (-7)).
Proof.
  split.
  - apply (identities_read_back (KSurface "kitchen" (Some "agenda"))); [reflexivity|exact I].
  - apply (identities_read_back (KConversation (-7))); reflexivity.
Defined.

Lemma scopes_are_disjoint_witness :
  covers (mkScope KindSurface "kit") "surface:kitchen#agenda" = Returns false ∧
  covers (mkScope KindSurface "kitchen") "surface:kitchen#agenda" = Returns true ∧
  covers (mkScope KindRemote "kitchen") "surface:kitchen#agenda" = Returns false.
Proof.
  split_and!.
  - apply (scopes_are_disjoint (mkScope KindSurface "kit") (mkScope KindSurface "kitchen")
      (Some "agenda") "surface:kit"); reflexivity.
  - apply (scopes_are_disjoint (mkScope KindSurface "kitchen") (mkScope KindSurface "kitchen")
      (Some "agenda") "surface:kitchen"); reflexivity.
  - apply (scopes_are_disjoint (mkScope KindRemote "kitchen") (mkScope KindSurface "kitchen")
      (Some "agenda") "remote:kitchen"); reflexivity.
Defined.
End IdentityProps.
