(* ===== verification/Serve.v ===== *)
(** * The attachment server's subscription plane ([attach/server/src/subscription.rs],
    [cursor.rs], [profile.rs], [session.rs]; the replay contract of
    [brenn-messaging-store/src/store/])

    What one connection is subscribed to, where each subscription stands, and how every
    delivery reaches the socket. A channel's retention is the class [RetentionStore], whose
    ring instance is the ring of [Ring]; the access floor is [Access], the subscribe bucket
    [TokenBucket], the directory [Directory]. The cursor's JSON is the class [CursorCodec]. *)

From S2P Require Import Prelude Envelope Ring Cursor Proto Access TokenBucket Directory Subs.

#[local] Open Scope N_scope.
#[local] Open Scope list_scope.

(** [Wire], the inner shape of a cursor. *)
Record Wire (Uuid : Type) := mkWire {
  w_incarnation : Z;
  w_channel : string;
  w_epoch : Uuid;
  w_seq : N;
}.
Arguments mkWire {Uuid}.
Arguments w_incarnation {Uuid}.
Arguments w_channel {Uuid}.
Arguments w_epoch {Uuid}.
Arguments w_seq {Uuid}.

(** [serde_json] on a cursor's inner shape: what is written reads back. *)
Class CursorCodec (Uuid : Type) := {
  encode : Wire Uuid → string;
  decode : string → option (Wire Uuid);
  decode_encode w : decode (encode w) = Some w;
}.

Module Store.
Import Envelope Directory.

Section store.
Context {M Uuid : Type} `{EqDecision Uuid}.

(** [StoreReplay]. *)
Record StoreReplay := mkStoreReplay {
  sr_epoch : Uuid;
  sr_messages : list (Ring.Retained M);
  sr_decision : Ring.ReplayDecision;
}.

(** [clamp_replay]; [usize] is 64 bits wide, so the conversion of the limit never fails. *)
Definition clamp_replay (r : StoreReplay) (limit : Depth) : StoreReplay :=
  match limit with
  | Unbounded => r
  | Bounded n =>
      if len (sr_messages r) <=? n then r
      else mkStoreReplay (sr_epoch r)
             (drop (N.to_nat (len (sr_messages r) - n)) (sr_messages r))
             (match sr_decision r with
              | Ring.Exact => Ring.Gap Ring.BeyondRetained
              | d => d
              end)
  end.

(** [RingStore::replay_from]. *)
Definition ring_replay_from (r : Ring.RetainedRing M Uuid) (cursor : option (Ring.Resume Uuid)) (limit : Depth)
    : StoreReplay :=
  let rep := Ring.replay r cursor in
  clamp_replay (mkStoreReplay (Ring.epoch r) (Ring.messages rep) (Ring.decision rep)) limit.
End store.
Arguments StoreReplay : clear implicits.
End Store.

(** [RetentionStore::replay_from], and what its contract promises a resuming consumer. *)
Class RetentionStore (St M Uuid : Type) `{EqDecision Uuid} :=
  replay_from : St → option (Ring.Resume Uuid) → Directory.Depth → Store.StoreReplay M Uuid.

Module Serve.
Import Envelope Proto Directory Store.

(** ** Cursors ([cursor.rs]) *)

Section cursors.
Context {Uuid : Type} `{CursorCodec Uuid}.

(** [CursorState]. *)
Record CursorState := mkCursorState {
  cs_incarnation : Z;
  cs_channel : string;
  cs_resume : Ring.Resume Uuid;
}.

(** [wrap]. *)
Definition wrap (w : Wire Uuid) : Proto.Cursor := mkToken (encode w).

(** [mint]. *)
Definition mint (incarnation : Z) (channel : string) (resume : Ring.Resume Uuid) : Proto.Cursor :=
  wrap (mkWire incarnation channel (Ring.resume_epoch resume) (Ring.resume_seq resume)).

(** [cursor::parse]. *)
Definition parse_cursor (c : Proto.Cursor) : option CursorState :=
  match c with
  | mkToken inner =>
      (λ w, mkCursorState (w_incarnation w) (w_channel w) (Ring.mkResume (w_epoch w) (w_seq w))) <$> decode inner
  end.
End cursors.
Arguments CursorState : clear implicits.

(** ** The profile ([profile.rs]) *)

(** [SubscriptionFacts]. *)
Record SubscriptionFacts := mkFacts { push_depth : N; retain_depth : N }.

(** [SubscriptionFacts::push_enabled]. *)
Definition push_enabled (f : SubscriptionFacts) : bool := 1 <=? push_depth f.

(** [SubscriptionFacts::replay_clamp]. *)
Definition replay_clamp (f : SubscriptionFacts) : Depth := Bounded (N.max (push_depth f) (retain_depth f)).

(** The answers of an [AttachProfile] the subscription plane asks for. *)
Record AttachProfile := mkProfile {
  attacher : string;
  subscribable : string → option SubscriptionFacts;
  subscribe_burst : N;
  max_active_subscriptions : N;
  runtime_entry : string → option SubscriberEntry;
}.

(** ** The connection ([subscription.rs]) *)

(** Which rule of the protocol a client broke. *)
Inductive Rule :=
| Unsubscribable
| DuplicateSubscribe
| BeyondCap
| NoWindow
| UnparseableCursor
| ForeignCursor
| NotActive
| RateExceeded
| UndeclaredAttribution
| Unpublishable
| MalformedChannel
| PersistentOversized
| EmptyBatch
| TooManyEntries
| TooManyControlOps
| TooManyBytes
| IllegalBatch
| UnrepresentableTime
| ForeignMessage
| AlertUngranted
| AlertOversized
| UnparseableFrame
| HelloAgain.

(** [FrameOutcome]. *)
Inductive FrameOutcome := Continue | Violation (rule : Rule) | Disconnect.

(** One second, in nanoseconds. *)
Definition SUBSCRIBE_REFILL : N := 1000000000.

(** [subscribe_bucket]. *)
Definition subscribe_bucket (p : AttachProfile) (now : N) : panics Bucket.TokenBucket :=
  Bucket.new (subscribe_burst p) SUBSCRIBE_REFILL 1 now.

(** [ActiveChannels]: the connection's own map and the set shared with the registry. *)
Record ActiveChannels := mkActive {
  active : gmap string SubscriptionFacts;
  shared : gset string;
}.

(** [ActiveChannels::new]. *)
Definition active_new (s : gset string) : ActiveChannels := mkActive ∅ s.

(** [ActiveChannels::activate]. *)
Definition activate (a : ActiveChannels) (channel : string) (f : SubscriptionFacts) : ActiveChannels :=
  mkActive (<[channel := f]> (active a)) ({[channel]} ∪ shared a).

(** [ActiveChannels::deactivate]. *)
Definition deactivate (a : ActiveChannels) (channel : string) : ActiveChannels * bool :=
  match active a !! channel with
  | Some _ => (mkActive (delete channel (active a)) (shared a ∖ {[channel]}), true)
  | None => (a, false)
  end.

(** [ActiveChannels::facts]. *)
Definition facts (a : ActiveChannels) (channel : string) : option SubscriptionFacts := active a !! channel.

(** [ActiveChannels::is_active]. *)
Definition is_active (a : ActiveChannels) (channel : string) : bool :=
  match active a !! channel with Some _ => true | None => false end.

(** [ActiveChannels::len]. *)
Definition active_len (a : ActiveChannels) : N := N.of_nat (size (active a)).

(** [ActiveChannels::channels]; no theorem depends on the order. *)
Definition active_channels (a : ActiveChannels) : list string := address_order (active a).

Section plane.
Context {Uuid DateTime St : Type} `{Countable Uuid} `{CursorCodec Uuid}.
Context `{!RetentionStore St (MessageEnvelope Uuid DateTime) Uuid}.
Abbreviation Env := (MessageEnvelope Uuid DateTime).

(** [WireCursors]. *)
Record WireCursors := mkWireCursors {
  span_seq : gmap string N;
  incarnation : Z;
  pos : gmap string (Ring.Resume Uuid);
}.

(** [WireCursors::new]. *)
Definition cursors_new (i : Z) : WireCursors := mkWireCursors ∅ i ∅.

(** [WireCursors::start_span]. *)
Definition start_span (w : WireCursors) (channel : string) (epoch : Uuid) (anchor : N) : WireCursors :=
  mkWireCursors (<[channel := 0]> (span_seq w)) (incarnation w)
    (<[channel := Ring.mkResume epoch anchor]> (pos w)).

(** [WireCursors::clear]. *)
Definition clear (w : WireCursors) (channel : string) : WireCursors :=
  mkWireCursors (delete channel (span_seq w)) (incarnation w) (delete channel (pos w)).

(** [WireCursors::pos_of]. *)
Definition pos_of (w : WireCursors) (channel : string) : option (Ring.Resume Uuid) := pos w !! channel.

(** [WireCursors::next_seq]. *)
Definition next_seq (w : WireCursors) (channel : string) : panics (WireCursors * N) :=
  seq ← rust_expect (span_seq w !! channel) "attach session: Deliver on a channel with no started span";
  let seq := u64_add seq 1 in
  Returns (mkWireCursors (<[channel := seq]> (span_seq w)) (incarnation w) (pos w), seq).

(** [WireCursors::next]. *)
Definition next (w : WireCursors) (channel : string) (retained_seq : N) : panics (WireCursors * (N * Proto.Cursor)) :=
  r ← next_seq w channel;
  let '(w, seq) := r in
  p ← rust_expect (pos w !! channel) "attach session: Deliver on a channel with no anchored position";
  let p := Ring.mkResume (Ring.resume_epoch p) (N.max (Ring.resume_seq p) retained_seq) in
  Returns (mkWireCursors (span_seq w) (incarnation w) (<[channel := p]> (pos w)),
           (seq, mint (incarnation w) channel p)).

(** [PassRow]. *)
Record PassRow := mkPassRow {
  pr_envelope : Env;
  pr_dropped : N;
  pr_retained_seq : N;
}.

(** The writer's end of the connection: whether it is there, and what it was handed. *)
Record Writer := mkWriter {
  tx_open : bool;
  tx_sent : list (ServerFrame Uuid DateTime);
  frames_out : N;
}.

(** [send_frame]. *)
Definition send_frame (t : Writer) (f : ServerFrame Uuid DateTime) : Writer * FrameOutcome :=
  if tx_open t then (mkWriter true (tx_sent t ++ [f]) (u64_add (frames_out t) 1), Continue)
  else (t, Disconnect).

(** The rows of [send_pass], minted in order. *)
Fixpoint mint_rows (w : WireCursors) (channel : string) (pass : list PassRow)
    : panics (WireCursors * list (DeliverRow Uuid DateTime)) :=
  match pass with
  | [] => Returns (w, [])
  | p :: pass =>
      r ← next w channel (pr_retained_seq p);
      let '(w, (seq, cursor)) := r in
      rest ← mint_rows w channel pass;
      Returns (rest.1, mkRow (pr_envelope p) seq cursor (pr_dropped p) :: rest.2)
  end.

(** [send_pass]. *)
Definition send_pass (w : WireCursors) (t : Writer) (channel : string) (pass : list PassRow)
    : panics (WireCursors * Writer * FrameOutcome) :=
  match pass with
  | [] => Returns (w, t, Continue)
  | _ =>
      r ← mint_rows w channel pass;
      let '(t, o) := send_frame t (Deliver channel r.2) in
      Returns (r.1, t, o)
  end.

(** The bus as a session reaches it: the directory, and the store of each channel. *)
Record Bus := mkBus {
  directory : MessagingDirectory Uuid;
  stores : gmap Uuid St;
}.

(** [Messenger::store_for]. *)
Definition store_for (b : Bus) (e : ChannelEntry Uuid) : panics St :=
  rust_expect (stores b !! uuid e) "the directory and the store registry disagree".

(** [Messenger::store_for_address]. *)
Definition store_for_address (b : Bus) (channel : string) : panics St :=
  e ← rust_expect (resolve (directory b) channel) "store requested for channel not in the directory";
  store_for b e.

(** The rows of a pass: the loss rides the first. *)
Definition pass_rows (lost : N) (window : list (Ring.Retained Env)) : list PassRow :=
  match window with
  | [] => []
  | m :: rest =>
      mkPassRow (Ring.message m) lost (Ring.seq m)
      :: ((λ m, mkPassRow (Ring.message m) 0 (Ring.seq m)) <$> rest)
  end.

(** [drain_channel]. *)
Definition drain_channel (policy : Access.AppPolicy) (b : Bus) (a : ActiveChannels) (w : WireCursors) (t : Writer)
    (channel : string) : panics (WireCursors * Writer * FrameOutcome) :=
  cursor ← rust_expect (pos_of w channel) "attach session: drain on a channel with no anchored position";
  f ← rust_expect (facts a channel) "attach session: drain on a channel with no active subscription";
  st ← store_for_address b channel;
  let replay := replay_from st (Some cursor) (replay_clamp f) in
  let '(window, lost) :=
    match sr_decision replay with
    | Ring.Gap _ =>
        let '(suffix, lost) := Cursor.gap_suffix (sr_messages replay) (Ring.resume_seq cursor) in
        (suffix, if push_enabled f then lost else 0)
    | _ => (sr_messages replay, 0)
    end in
  match window with
  | [] => Returns (w, t, Continue)
  | _ =>
      if negb (Access.allows_channel_access policy channel) then Returns (w, t, Continue)
      else send_pass w t channel (pass_rows lost window)
  end.

(** The loop of [drain_all]. *)
Fixpoint drain_list (policy : Access.AppPolicy) (b : Bus) (a : ActiveChannels) (w : WireCursors) (t : Writer)
    (cs : list string) : panics (WireCursors * Writer * FrameOutcome) :=
  match cs with
  | [] => Returns (w, t, Continue)
  | c :: cs =>
      r ← drain_channel policy b a w t c;
      let '(w, t, o) := r in
      match o with
      | Disconnect => Returns (w, t, Disconnect)
      | _ => drain_list policy b a w t cs
      end
  end.

(** [drain_all]. *)
Definition drain_all (policy : Access.AppPolicy) (b : Bus) (a : ActiveChannels) (w : WireCursors) (t : Writer)
    : panics (WireCursors * Writer * FrameOutcome) :=
  drain_list policy b a w t (active_channels a).

(** [LiveDelivery]. *)
Record LiveDelivery := mkLive { live_envelope : Env; live_seq : N }.

(** One turn of [send_live]. *)
Definition send_live_one (policy : Access.AppPolicy) (b : Bus) (a : ActiveChannels) (w : WireCursors) (t : Writer)
    (d : LiveDelivery) : panics (WireCursors * Writer * FrameOutcome) :=
  let channel := channel (live_envelope d) in
  if negb (is_active a channel) then Returns (w, t, Continue)
  else if negb (Access.allows_channel_access policy channel) then Returns (w, t, Continue)
  else
    p ← rust_expect (pos_of w channel) "attach session: live delivery on a channel with no anchored position";
    let p := Ring.resume_seq p in
    if live_seq d <=? p then Returns (w, t, Continue)
    else if live_seq d =? u64_add p 1 then
      send_pass w t channel [mkPassRow (live_envelope d) 0 (live_seq d)]
    else drain_channel policy b a w t channel.

(** [send_live]. *)
Fixpoint send_live (policy : Access.AppPolicy) (b : Bus) (a : ActiveChannels) (w : WireCursors) (t : Writer)
    (batch : list LiveDelivery) : panics (WireCursors * Writer * FrameOutcome) :=
  match batch with
  | [] => Returns (w, t, Continue)
  | d :: batch =>
      r ← send_live_one policy b a w t d;
      let '(w, t, o) := r in
      match o with
      | Disconnect => Returns (w, t, Disconnect)
      | _ => send_live policy b a w t batch
      end
  end.

(** [DeferredViewPush]. *)
Record DeferredViewPush := mkViewPush {
  view_channel : string;
  view_attribution : option string;
  view_entries : list (DeferredViewEntry Uuid);
}.

(** [SessionPush]. *)
Inductive SessionPush := PushLive (d : LiveDelivery) | PushView (v : DeferredViewPush).

(** [send_deferred_view]. *)
Definition send_deferred_view (t : Writer) (v : DeferredViewPush) : Writer * FrameOutcome :=
  send_frame t (DeferredView (view_channel v) (view_attribution v) (view_entries v)).

(** The views of [send_session_pushes], in arrival order. *)
Fixpoint send_views (t : Writer) (vs : list DeferredViewPush) : Writer * FrameOutcome :=
  match vs with
  | [] => (t, Continue)
  | v :: vs =>
      let '(t, o) := send_deferred_view t v in
      match o with
      | Disconnect => (t, Disconnect)
      | _ => send_views t vs
      end
  end.

(** [send_session_pushes]. *)
Definition send_session_pushes (policy : Access.AppPolicy) (b : Bus) (a : ActiveChannels) (w : WireCursors)
    (t : Writer) (pushes : list SessionPush) : panics (WireCursors * Writer * FrameOutcome) :=
  let rows := omap (λ p, match p with PushLive d => Some d | PushView _ => None end) pushes in
  let views := omap (λ p, match p with PushView v => Some v | PushLive _ => None end) pushes in
  r ← (match rows with
       | [] => Returns (w, t, Continue)
       | _ => send_live policy b a w t rows
       end);
  let '(w, t, o) := r in
  match o with
  | Disconnect => Returns (w, t, Disconnect)
  | _ => let '(t, o) := send_views t views in Returns (w, t, o)
  end.

(** [charge_subscribe_token]. *)
Definition charge_subscribe_token (bucket : Bucket.TokenBucket) (now : N)
    : panics (Bucket.TokenBucket * result unit FrameOutcome) :=
  r ← Bucket.try_consume bucket now;
  Returns (r.1, match r.2 with
                | Bucket.Denied _ => Err (Violation RateExceeded)
                | _ => Ok ()
                end).

(** [handle_unsubscribe]. *)
Definition handle_unsubscribe (a : ActiveChannels) (w : WireCursors) (channel : string)
    : ActiveChannels * WireCursors * FrameOutcome :=
  let '(a, was_active) := deactivate a channel in
  if was_active then (a, clear w channel, Continue) else (a, w, Violation NotActive).

(** [parse_resume_cursor]. *)
Definition parse_resume_cursor (c : Proto.Cursor) (channel : string) : result (CursorState Uuid) FrameOutcome :=
  match parse_cursor c with
  | None => Err (Violation UnparseableCursor)
  | Some s => if String.eqb (cs_channel s) channel then Ok s else Err (Violation ForeignCursor)
  end.

(** [resume_answer]. *)
Definition resume_answer (d : Ring.ReplayDecision) (echoed_seq : option N) : option GapInfo * N :=
  match d with
  | Ring.Fresh => (None, 0)
  | Ring.UpToDate | Ring.Exact => (None, default 0 echoed_seq)
  | Ring.Gap Ring.BeyondRetained => (Some (mkGap BeyondRetained), 0)
  | Ring.Gap Ring.EpochChanged => (Some (mkGap EpochChanged), 0)
  | Ring.Gap Ring.ResumeAhead => (Some (mkGap EpochChanged), 0)
  end.

(** [ensure_runtime_entry]. *)
Definition ensure_runtime_entry (p : AttachProfile) (d : MessagingDirectory Uuid) (e : ChannelEntry Uuid)
    (channel : string) : MessagingDirectory Uuid :=
  match runtime_entry p channel with
  | None => d
  | Some m =>
      let standing := standing_retain_depth (resolved_channel e) in
      let m := mkSubscriber (kind m) (narrowed_by (Directory.push_depth m) standing)
                 (narrowed_by (Directory.retain_depth m) standing) (noise m) (wake_min m) in
      if existsb (λ x, same_principal (kind x) (kind m)
                       && bool_decide (Directory.push_depth x = Directory.push_depth m)
                       && bool_decide (Directory.retain_depth x = Directory.retain_depth m)) (subscribers e)
      then d
      else (add_subscriber d (uuid e) m).1
  end.

(** [SubscribeRequest]. *)
Record SubscribeRequest := mkRequest {
  req_channel : string;
  req_push_depth : N;
  req_retain_depth : N;
  req_resume : option Proto.Cursor;
}.

(** [replay_count]: [window.len() as u32]. *)
Definition as_u32 (n : N) : N := n mod (u32_max + 1).

(** What [handle_subscribe] does once the request is admitted and the channel found. *)
Definition open_subscription (p : AttachProfile) (policy : Access.AppPolicy) (b : Bus) (e : ChannelEntry Uuid)
    (a : ActiveChannels) (w : WireCursors) (t : Writer) (channel : string) (f : SubscriptionFacts)
    (echoed : option (CursorState Uuid)) : panics (Bus * ActiveChannels * WireCursors * Writer * FrameOutcome) :=
  let a := activate a channel f in
  let b := mkBus (ensure_runtime_entry p (directory b) e channel) (stores b) in
  let stale := match echoed with
               | Some s => (incarnation w <? cs_incarnation s)%Z
               | None => false
               end in
  let store_cursor := if stale then None else cs_resume <$> echoed in
  st ← store_for b e;
  let replay := replay_from st store_cursor (replay_clamp f) in
  let '(gap, anchor) := resume_answer (sr_decision replay) (Ring.resume_seq <$> store_cursor) in
  let gap := if stale then Some (mkGap EpochChanged) else gap in
  let w := start_span w channel (sr_epoch replay) anchor in
  let floor_ok := Access.allows_channel_access policy channel in
  let replay_count := if floor_ok then as_u32 (len (sr_messages replay)) else 0 in
  let '(t, o) := send_frame t (SubscribeResult channel SubscribeOk replay_count gap) in
  match o with
  | Disconnect => Returns (b, a, w, t, Disconnect)
  | _ =>
      if negb floor_ok then Returns (b, a, w, t, Continue)
      else
        r ← send_pass w t channel (pass_rows 0 (sr_messages replay));
        let '(w, t, o) := r in Returns (b, a, w, t, o)
  end.

(** [handle_subscribe]. *)
Definition handle_subscribe (p : AttachProfile) (policy : Access.AppPolicy) (b : Bus) (a : ActiveChannels)
    (w : WireCursors) (t : Writer) (r : SubscribeRequest)
    : panics (Bus * ActiveChannels * WireCursors * Writer * FrameOutcome) :=
  let channel := req_channel r in
  match subscribable p channel with
  | None => Returns (b, a, w, t, Violation Unsubscribable)
  | Some bound =>
      if is_active a channel then Returns (b, a, w, t, Violation DuplicateSubscribe)
      else if max_active_subscriptions p <=? active_len a then Returns (b, a, w, t, Violation BeyondCap)
      else
        let f := mkFacts (N.min (req_push_depth r) (push_depth bound))
                   (N.min (req_retain_depth r) (retain_depth bound)) in
        if (push_depth f =? 0) && (retain_depth f =? 0) then Returns (b, a, w, t, Violation NoWindow)
        else
          match (match req_resume r with
                 | None => Ok None
                 | Some c => match parse_resume_cursor c channel with
                             | Ok s => Ok (Some s)
                             | Err o => Err o
                             end
                 end) with
          | Err o => Returns (b, a, w, t, o)
          | Ok echoed =>
              match resolve (directory b) channel with
              | None =>
                  let '(t, o) := send_frame t (SubscribeResult channel Unavailable 0 None) in
                  Returns (b, a, w, t, o)
              | Some e => open_subscription p policy b e a w t channel f echoed
              end
          end
  end.
End plane.
Arguments WireCursors : clear implicits.
Arguments Writer : clear implicits.
Arguments PassRow : clear implicits.
Arguments LiveDelivery : clear implicits.
Arguments SessionPush : clear implicits.
Arguments DeferredViewPush : clear implicits.
Arguments Bus Uuid St {_ _}.
End Serve.

(** ** The replay contract *)
Module Contract.
Import Envelope Directory Store.

(** What a decision says of a cursor, a channel whose newest position is [hw], and the
    number of messages answered. *)
Definition decides {Uuid} (epoch : Uuid) (hw : N) (cur : option (Ring.Resume Uuid)) (n : N)
    (d : Ring.ReplayDecision) : Prop :=
  match cur with
  | None => d = Ring.Fresh
  | Some c =>
      match d with
      | Ring.Fresh => False
      | Ring.UpToDate => Ring.resume_epoch c = epoch ∧ Ring.resume_seq c = hw ∧ n = 0
      | Ring.Exact => Ring.resume_epoch c = epoch ∧ Ring.resume_seq c + n = hw ∧ 0 < n
      | Ring.Gap Ring.BeyondRetained => Ring.resume_epoch c = epoch ∧ Ring.resume_seq c + n < hw
      | Ring.Gap Ring.ResumeAhead => Ring.resume_epoch c = epoch ∧ hw < Ring.resume_seq c
      | Ring.Gap Ring.EpochChanged => Ring.resume_epoch c ≠ epoch
      end
  end.

(** An answer to a resume: the newest messages, dense up to the newest position, each the
    one at its position, no more than asked for, with a decision that says which of them
    the cursor was owed; and something, when the channel keeps anything the cursor is
    behind. *)
Record answers {M Uuid} (epoch : Uuid) (hw kept : N) (message_at : N → option M) (cur : option (Ring.Resume Uuid)) (limit : Depth)
    (r : StoreReplay M Uuid) : Prop := mkAnswers {
  ans_epoch : sr_epoch r = epoch;
  ans_bound : len (sr_messages r) ≤ hw;
  ans_dense : Ring.seq <$> sr_messages r = run (hw + 1 - len (sr_messages r)) (length (sr_messages r));
  ans_content : Forall (λ m, message_at (Ring.seq m) = Some (Ring.message m)) (sr_messages r);
  ans_limit : ∀ n, limit = Bounded n → len (sr_messages r) ≤ n;
  ans_decides : decides epoch hw cur (len (sr_messages r)) (sr_decision r);
  ans_some : 0 < kept → limit ≠ Bounded 0 → sr_decision r ≠ Ring.UpToDate → sr_messages r ≠ [];
}.
End Contract.

(** A store that keeps the contract: its numbering domain, its newest position, how many
    messages it holds, and which. *)
Class RetentionLaws (St M Uuid : Type) `{RetentionStore St M Uuid} := {
  store_epoch : St → Uuid;
  high_water : St → N;
  kept : St → N;
  message_at : St → N → option M;
  store_ok : St → Prop;
  high_water_fits st : store_ok st → high_water st < u64_max;
  replay_answers st cur limit :
    store_ok st → Contract.answers (store_epoch st) (high_water st) (kept st) (message_at st) cur limit (replay_from st cur limit);
}.

Module RingStore.
Import Envelope Directory Store Contract.

Section ring.
Context {M Uuid : Type} `{EqDecision Uuid}.
Implicit Types (r : Ring.RetainedRing M Uuid).

Lemma clamp_answers (epoch : Uuid) hw k at_ cur limit (rep : StoreReplay M Uuid) :
  answers epoch hw k at_ cur Unbounded rep → answers epoch hw k at_ cur limit (clamp_replay rep limit).
Proof.
  intros [He Hb Hd Hc _ Hdec Hs]. destruct limit as [n|]; [|by split].
  unfold clamp_replay. destruct (N.leb_spec (len (sr_messages rep)) n) as [Hn|Hn].
  { split; try done; [by intros ? [= <-]|]. intros Hk _. by apply Hs. }
  set (ms := drop (N.to_nat (len (sr_messages rep) - n)) (sr_messages rep)).
  assert (len ms = n) as Hlen by (unfold ms; rewrite len_drop; lia).
  split; simpl; try done.
  - lia.
  - unfold ms. apply Ring.drop_dense; [lia|done].
  - by apply Forall_drop.
  - intros ? [= <-]. lia.
  - rewrite Hlen. destruct cur as [c|]; [|by simpl in Hdec; rewrite Hdec].
    simpl in Hdec. destruct (sr_decision rep) as [| | |[| |]]; simpl; try done; try lia.
    + destruct Hdec. split; [done|lia].
    + destruct Hdec. split; [done|lia].
  - intros _ Hn0 _ Hnil. rewrite Hnil in Hlen. rewrite len_nil in Hlen. congruence.
Qed.

(** Everything a ring holds above a position it still covers. *)
Lemma since_covers r c :
  Ring.wf r → Ring.next_seq r < u64_max → c < Ring.newest_seq r → Ring.next_seq r - len (Ring.entries r) ≤ c + 1 →
  c + len (Ring.since r c) = Ring.newest_seq r ∧ 0 < len (Ring.since r c).
Proof.
  intros Hwf Hmax Hc Hcov. rewrite Ring.newest_seq_wf in * by done. unfold Ring.since. rewrite len_drop.
  unfold Ring.offset_after. destruct (Ring.entries r) as [|front es] eqn:He.
  { rewrite len_nil in *. destruct Hwf as [? Hl _ _]. rewrite He, len_nil in Hl. lia. }
  pose proof (Ring.head_seq_wf r front es Hwf He) as Hf. rewrite He in Hf. destruct Hwf as [? Hl _ _].
  rewrite He in Hl. unfold u64_saturating_sub, u64_saturating_add, usize_saturating, usize_max in *. lia.
Qed.

(** The message a ring holds at a position. *)
Definition held r (s : N) : option M :=
  Ring.message <$> Ring.entries r !! N.to_nat (s - (Ring.next_seq r - len (Ring.entries r))).

Lemma held_entries r : Ring.wf r → Forall (λ m, held r (Ring.seq m) = Some (Ring.message m)) (Ring.entries r).
Proof.
  intros Hwf. apply Forall_lookup_2. intros i m Hi. unfold held.
  pose proof (list_lookup_fmap Ring.seq (Ring.entries r) i) as Hs. rewrite Hi, (Ring.wf_dense r Hwf) in Hs.
  apply lookup_run in Hs as [-> _].
  replace (N.to_nat (Ring.next_seq r - len (Ring.entries r) + N.of_nat i - (Ring.next_seq r - len (Ring.entries r))))
    with i by lia. by rewrite Hi.
Qed.

Lemma ring_answers r cur :
  Ring.wf r → Ring.next_seq r < u64_max →
  answers (Ring.epoch r) (Ring.newest_seq r) (len (Ring.entries r)) (held r) cur Unbounded
    (mkStoreReplay (Ring.epoch r) (Ring.messages (Ring.replay r cur)) (Ring.decision (Ring.replay r cur))).
Proof.
  intros Hwf Hmax. pose proof Hwf as [Hnext Hl Hd _]. pose proof (Ring.newest_seq_wf r Hwf) as Hnew.
  assert (Hall : ∀ d, decides (Ring.epoch r) (Ring.newest_seq r) cur (len (Ring.entries r)) d →
    answers (Ring.epoch r) (Ring.newest_seq r) (len (Ring.entries r)) (held r) cur Unbounded
      (mkStoreReplay (Ring.epoch r) (Ring.entries r) d)).
  { intros d Hdec. split; simpl; try done; [lia| |by apply held_entries|].
    - rewrite Hnew. by replace (Ring.next_seq r - 1 + 1) with (Ring.next_seq r) by lia.
    - intros Hk _ _ Hn. rewrite Hn in Hk. done. }
  unfold Ring.replay. destruct cur as [c|]; [|by apply Hall].
  destruct (decide (Ring.resume_epoch c ≠ Ring.epoch r)) as [He|He]; [by apply Hall|].
  apply dec_stable in He. case_bool; [by apply Hall|].
  destruct (N.eqb_spec (Ring.resume_seq c) (Ring.newest_seq r)) as [Heq|Hne].
  { split; simpl; rewrite ?len_nil; try done; lia. }
  destruct (Ring.entries r) as [|front es] eqn:Hes.
  { apply Hall. simpl. rewrite len_nil. split; [done|lia]. }
  pose proof (Ring.head_seq_wf r front es Hwf Hes) as Hf. rewrite <-Hes in *.
  rewrite u64_add_small by lia. case_bool.
  - destruct (since_covers r (Ring.resume_seq c)) as [Hs Hpos]; [done|done|lia|lia|].
    split; simpl; try done; try lia.
    + unfold Ring.since in *. rewrite Hnew. replace (Ring.next_seq r - 1 + 1) with (Ring.next_seq r) by lia.
      by apply Ring.drop_dense.
    + apply Forall_drop. by apply held_entries.
    + intros _ _ _ Hnil. rewrite Hnil in Hpos. done.
  - apply Hall. simpl. split; [done|]. lia.
Qed.

(** A ring with room to number is such a store. *)
#[export] Instance ring_store : RetentionStore (Ring.RetainedRing M Uuid) M Uuid := ring_replay_from.

#[export] Program Instance ring_laws : RetentionLaws (Ring.RetainedRing M Uuid) M Uuid := {|
  store_epoch := Ring.epoch;
  high_water := Ring.newest_seq;
  kept r := len (Ring.entries r);
  message_at := held;
  store_ok r := Ring.wf r ∧ Ring.next_seq r < u64_max;
|}.
Next Obligation. intros st [Hwf Hm]. rewrite Ring.newest_seq_wf by done. lia. Qed.
Next Obligation. intros st cur limit [Hwf Hm]. apply clamp_answers. by apply ring_answers. Qed.
End ring.
End RingStore.
