(* ===== verification/Serving.v ===== *)
(** * A connection being served

    [ServeRun] runs the subscription plane of [Serve] turn after turn over a growing bus, and
    beside it the attacher's own subscriptions ([Subs]) on the frames it is sent; [ServeProps]
    states what the two ends keep between them. Everything is proved against the class
    [RetentionLaws]; the witnesses run on rings. *)

From S2P Require Import Prelude Envelope Ring Cursor Proto Access TokenBucket Directory Subs Serve.

#[local] Open Scope N_scope.
#[local] Open Scope list_scope.

(** ** What a delivery does *)
Module ServeRun.
Import Envelope Proto Directory Store Contract Serve.

Section run.
Context {Uuid DateTime St : Type} `{Countable Uuid} `{CursorCodec Uuid}.
Context `{!RetentionStore St (MessageEnvelope Uuid DateTime) Uuid}.
Context `{!RetentionLaws St (MessageEnvelope Uuid DateTime) Uuid}.
Implicit Types (policy : Access.AppPolicy) (b : Bus Uuid St) (a : ActiveChannels).
Implicit Types (w : WireCursors Uuid) (t : Writer Uuid DateTime) (c : string).

(** The rows a pass becomes: numbered from the span's next, each at its own position, the
    loss on the first. *)
Record delivered (inc : Z) (c : string) (e : Uuid) (n p : N)
    (rows : list (DeliverRow Uuid DateTime)) (p' lost : N) : Prop := mkDelivered {
  dl_some : rows ≠ [];
  dl_seqs : row_seq <$> rows = run (n + 1) (length rows);
  dl_cursors : row_cursor <$> rows =
    (λ q, mint inc c (Ring.mkResume e q)) <$> run (p' + 1 - len rows) (length rows);
  dl_room : p + len rows ≤ p';
  dl_lost : row_dropped <$> take 1 rows = [lost];
  dl_tail : Forall (λ r, row_dropped r = 0) (drop 1 rows);
}.

(** What a pass leaves: the channel's span and position moved, one frame more. *)
Definition span_to w c (n : N) (p : Ring.Resume Uuid) : WireCursors Uuid :=
  mkWireCursors (<[c := n]> (span_seq w)) (incarnation w) (<[c := p]> (pos w)).
Definition one_more t (f : ServerFrame Uuid DateTime) : Writer Uuid DateTime :=
  mkWriter true (tx_sent t ++ [f]) (u64_add (frames_out t) 1).
Definition sent t (fs : list (ServerFrame Uuid DateTime)) : Writer Uuid DateTime := foldl one_more t fs.

Lemma sent_app t fs fs' : sent t (fs ++ fs') = sent (sent t fs) fs'.
Proof. apply foldl_app. Qed.

Lemma sent_open t fs : tx_open t = true → tx_open (sent t fs) = true.
Proof. revert t. induction fs as [|f fs IH]; intros t Ht; [done|]. by apply IH. Qed.

Lemma sent_sent t fs : tx_sent (sent t fs) = tx_sent t ++ fs.
Proof.
  revert t. induction fs as [|f fs IH]; intros t; simpl; [by rewrite app_nil_r|].
  rewrite IH. simpl. by rewrite <-app_assoc.
Qed.

Lemma send_frame_open t f : tx_open t = true → send_frame t f = (sent t [f], Continue).
Proof. intros Ht. unfold send_frame. by rewrite Ht. Qed.

(** What a drain or a live delivery owes a subscription as loss: the positions passed
    over, to one that asked for pushes. *)
Definition owed (f : SubscriptionFacts) (p p' : N) (rows : list (DeliverRow Uuid DateTime)) : N :=
  if push_enabled f then p' - p - len rows else 0.

(** One channel's share of a step: nothing, or one frame that moves its span and position. *)
Inductive moved (f : SubscriptionFacts) c w : list (ServerFrame Uuid DateTime) → WireCursors Uuid → Prop :=
| moved_none : moved f c w [] w
| moved_sent n p rows p' :
    span_seq w !! c = Some n → pos w !! c = Some p →
    delivered (incarnation w) c (Ring.resume_epoch p) n (Ring.resume_seq p) rows p'
      (owed f (Ring.resume_seq p) p' rows) →
    moved f c w [Deliver c rows] (span_to w c (n + len rows) (Ring.mkResume (Ring.resume_epoch p) p')).

(** Minting a pass whose positions are a dense run above the channel's. *)
Lemma mint_rows_spec c (pass : list (PassRow Uuid DateTime)) : ∀ w n p s,
  span_seq w !! c = Some n → pos w !! c = Some p → Ring.resume_seq p ≤ s → n + len pass ≤ u64_max →
  pr_retained_seq <$> pass = run (s + 1) (length pass) →
  ∃ rows, mint_rows w c pass =
      Returns (mkWireCursors (<[c := n + len pass]> (span_seq w)) (incarnation w)
                 (<[c := match pass with
                         | [] => p
                         | _ => Ring.mkResume (Ring.resume_epoch p) (s + len pass)
                         end]> (pos w)), rows) ∧
    row_seq <$> rows = run (n + 1) (length pass) ∧
    row_dropped <$> rows = pr_dropped <$> pass ∧
    row_envelope <$> rows = pr_envelope <$> pass ∧
    row_cursor <$> rows = (λ q, mint (incarnation w) c (Ring.mkResume (Ring.resume_epoch p) q)) <$>
                          run (s + 1) (length pass) ∧
    length rows = length pass.
Proof.
  induction pass as [|x pass IH]; intros w n p s Hn Hp Hs Hmax Hpass; cbn [mint_rows].
  { exists []. rewrite len_nil, N.add_0_r, !insert_id by done. by destruct w. }
  rewrite len_cons in Hmax. injection Hpass as Hx Hpass. unfold next, next_seq. rewrite Hn.
  cbn [rust_expect mbind panics_bind pos]. rewrite Hp. cbn [rust_expect mbind panics_bind span_seq incarnation].
  rewrite u64_add_small by lia. rewrite Hx, N.max_r by lia.
  set (p1 := Ring.mkResume (Ring.resume_epoch p) (s + 1)).
  destruct (IH (mkWireCursors (<[c:=n + 1]> (span_seq w)) (incarnation w) (<[c:=p1]> (pos w))) (n + 1) p1 (s + 1))
    as (rows&Hr&Hseq&Hdrop&Henv&Hcur&Hlen); cbn [span_seq pos incarnation];
    [apply lookup_insert_eq|apply lookup_insert_eq|simpl; lia|lia|done|].
  rewrite Hr. cbn [mbind panics_bind fst snd incarnation span_seq pos]. rewrite !insert_insert_eq.
  eexists. split_and!.
  - rewrite len_cons. replace (n + 1 + len pass) with (n + (len pass + 1)) by lia. do 3 f_equal.
    destruct pass; [by rewrite len_nil|]. unfold p1. simpl. by replace (s + 1 + len (p0 :: pass))
      with (s + (len (p0 :: pass) + 1)) by lia.
  - cbn [fmap list_fmap run length row_seq]. by rewrite <-Hseq.
  - cbn [fmap list_fmap row_dropped]. by rewrite <-Hdrop.
  - cbn [fmap list_fmap row_envelope]. by rewrite <-Henv.
  - cbn [fmap list_fmap run length row_cursor]. f_equal. exact Hcur.
  - cbn [length]. by rewrite Hlen.
Qed.

Lemma pass_rows_spec lost (win : list (Ring.Retained (MessageEnvelope Uuid DateTime))) :
  length (pass_rows lost win) = length win ∧
  pr_retained_seq <$> pass_rows lost win = Ring.seq <$> win ∧
  pr_envelope <$> pass_rows lost win = Ring.message <$> win ∧
  (win ≠ [] → pr_dropped <$> take 1 (pass_rows lost win) = [lost]) ∧
  Forall (λ x, pr_dropped x = 0) (drop 1 (pass_rows lost win)).
Proof.
  destruct win as [|m win]; simpl; [split_and!; constructor || done|].
  rewrite length_fmap. split_and!; [done| | |done|].
  - f_equal. by rewrite <-list_fmap_compose.
  - f_equal. by rewrite <-list_fmap_compose.
  - apply Forall_fmap, Forall_true. done.
Qed.

Lemma Forall_fmap_eq {A B} (g : A → N) (h : B → N) (l : list A) (k : list B) :
  g <$> l = h <$> k → Forall (λ x, h x = 0) k → Forall (λ x, g x = 0) l.
Proof.
  intros Heq Hk. apply (Forall_fmap g (λ x, x = 0)). rewrite Heq. by apply Forall_fmap.
Qed.

(** A pass of a dense run of positions above the channel's, over an open connection. *)
Lemma send_pass_sends c w t n p (pass : list (PassRow Uuid DateTime)) p' lost :
  tx_open t = true →
  span_seq w !! c = Some n → pos w !! c = Some p → pass ≠ [] → n ≤ Ring.resume_seq p → p' ≤ u64_max →
  Ring.resume_seq p + len pass ≤ p' →
  pr_retained_seq <$> pass = run (p' + 1 - len pass) (length pass) →
  pr_dropped <$> take 1 pass = [lost] → Forall (λ x, pr_dropped x = 0) (drop 1 pass) →
  ∃ rows, length rows = length pass ∧ row_envelope <$> rows = pr_envelope <$> pass ∧
    delivered (incarnation w) c (Ring.resume_epoch p) n (Ring.resume_seq p) rows p' lost ∧
    send_pass w t c pass =
      Returns (span_to w c (n + len rows) (Ring.mkResume (Ring.resume_epoch p) p'),
               sent t [Deliver c rows], Continue).
Proof.
  intros Ht Hn Hp Hne Hnp Hmax Hroom Hseqs Hlost Htail.
  destruct (mint_rows_spec c pass w n p (p' - len pass)) as (rows&Hr&Hseq&Hdrop&Henv&Hcur&Hlen);
    [done|done|lia|lia|by replace (p' - len pass + 1) with (p' + 1 - len pass) by lia|].
  replace (p' - len pass + 1) with (p' + 1 - len pass) in Hcur by lia.
  replace (p' - len pass + len pass) with p' in Hr by lia.
  assert (len rows = len pass) as Hl by (unfold len; congruence).
  exists rows. split_and!; [done|done| |].
  - split.
    + by destruct rows, pass.
    + by rewrite Hlen.
    + rewrite Hl, Hlen. exact Hcur.
    + lia.
    + by rewrite <-Hlost, !fmap_take, Hdrop.
    + eapply Forall_fmap_eq; [|exact Htail]. by rewrite !fmap_drop, Hdrop.
  - unfold send_pass, send_frame. destruct pass as [|x pass]; [done|]. rewrite Hr, Ht, Hl. done.
Qed.

(** *** The store of an active channel *)

Definition store_at b c : option St := e ← resolve (directory b) c; stores b !! uuid e.

(** The bus can serve a connection: every active channel is there, keeps the contract, and
    numbers in the domain of the connection's position, which is not ahead of it. *)
Definition serves b a w : Prop :=
  ∀ c f, active a !! c = Some f →
    ∃ st p n, store_at b c = Some st ∧ store_ok st ∧ pos w !! c = Some p ∧ span_seq w !! c = Some n ∧
      store_epoch st = Ring.resume_epoch p ∧ Ring.resume_seq p ≤ high_water st ∧ n ≤ Ring.resume_seq p ∧
      (push_depth f ≠ 0 ∨ retain_depth f ≠ 0).

Lemma store_for_address_at b c st : store_at b c = Some st → store_for_address b c = Returns st.
Proof.
  unfold store_at, store_for_address, store_for. intros (e&He&Hst)%bind_Some. by rewrite He; simpl; rewrite Hst.
Qed.

(** The suffix a drain serves, and the loss it reports. *)
Lemma drain_window (st : St) (p : Ring.Resume Uuid) limit f :
  store_ok st → store_epoch st = Ring.resume_epoch p → Ring.resume_seq p ≤ high_water st →
  let r := replay_from st (Some p) limit in
  ∃ win, Ring.resume_seq p + len win ≤ high_water st ∧
    Ring.seq <$> win = run (high_water st + 1 - len win) (length win) ∧
    match sr_decision r with
    | Ring.Gap _ =>
        let '(suffix, lost) := Cursor.gap_suffix (sr_messages r) (Ring.resume_seq p) in
        (suffix, if push_enabled f then lost else 0)
    | _ => (sr_messages r, 0)
    end = (win, match win with
                | [] => 0
                | _ => if push_enabled f then high_water st - Ring.resume_seq p - len win else 0
                end) ∧
    (0 < kept st → limit ≠ Bounded 0 → win = [] → Ring.resume_seq p = high_water st).
Proof.
  intros Hok He Hle r. pose proof (replay_answers st (Some p) limit Hok) as [_ Hb Hd _ _ Hdec Hs].
  pose proof (high_water_fits st Hok) as Hfit. fold r in Hb, Hd, Hdec, Hs. exists (sr_messages r).
  assert (Hnil : 0 < kept st → limit ≠ Bounded 0 → sr_messages r = [] →
    Ring.resume_seq p = high_water st).
  { intros Hk Hl Hn. specialize (Hs Hk Hl). destruct (sr_decision r); try by destruct Hs.
    simpl in Hdec. tauto. }
  simpl in Hdec. destruct (sr_decision r) as [| | |[| |]] eqn:Hr.
  - done.
  - destruct Hdec as (_&Hp&Hn). assert (sr_messages r = []) as -> by by apply len_zero_nil.
    rewrite len_nil. split_and!; [lia|done|done|done].
  - destruct Hdec as (_&Hp&Hn). split_and!; [lia|done| |done].
    f_equal. destruct (sr_messages r); [done|]. destruct (push_enabled f); [|done]. lia.
  - destruct Hdec. congruence.
  - destruct Hdec as [_ Hp]. split_and!; [lia|done| |done].
    assert (Cursor.gap_suffix (sr_messages r) (Ring.resume_seq p) =
      (sr_messages r, match sr_messages r with [] => 0 | _ => high_water st - Ring.resume_seq p - len (sr_messages r) end)) as ->.
    { unfold Cursor.gap_suffix. rewrite filter_all.
      - f_equal. destruct (sr_messages r) as [|m ms] eqn:Hm; [done|]. simpl in Hd. injection Hd as Hm1 _.
        rewrite Hm1. rewrite (u64_sub_small _ (Ring.resume_seq p)), u64_sub_small by lia. lia.
      - apply Forall_forall. intros m Hm. apply (list_elem_of_fmap_2 Ring.seq) in Hm. rewrite Hd in Hm.
        apply elem_of_run in Hm. lia. }
    by destruct (sr_messages r), (push_enabled f).
  - destruct Hdec as [_ Hp]. lia.
Qed.

(** The channel's position is one its store has assigned. *)
Definition in_reach b c w : Prop :=
  ∀ st p, store_at b c = Some st → pos w !! c = Some p → Ring.resume_seq p ≤ high_water st.

(** The channel's position is its store's newest. *)
Definition caught_up b c w : Prop :=
  ∀ st, store_at b c = Some st → 0 < kept st →
    ∃ p, pos w !! c = Some p ∧ Ring.resume_seq p = high_water st.

Lemma serves_moved b a w c f fs w' :
  serves b a w → active a !! c = Some f → moved f c w fs w' → in_reach b c w' → serves b a w'.
Proof.
  intros Hs Hf Hm Hreach. destruct Hm as [|n p rows p' Hn Hp Hd]; [done|].
  intros c' f' Hf'. destruct (Hs c' f' Hf') as (st&q&m&Hst&Hok&Hq&Hm&He&Hle&Hmq&Hk).
  destruct (decide (c' = c)) as [->|Hne].
  - exists st, (Ring.mkResume (Ring.resume_epoch p) p'), (n + len rows). simpl. rewrite !lookup_insert_eq.
    pose proof (dl_room _ _ _ _ _ _ _ _ Hd). simplify_eq.
    split_and!; try done; [|lia].
    refine (Hreach st (Ring.mkResume (Ring.resume_epoch p) p') Hst _). apply lookup_insert_eq.
  - exists st, q, m. simpl. by rewrite !lookup_insert_ne.
Qed.

Lemma drain_channel_moves policy b a w t c f :
  tx_open t = true → serves b a w → active a !! c = Some f →
  ∃ fs w', drain_channel policy b a w t c = Returns (w', sent t fs, Continue) ∧ moved f c w fs w' ∧
    in_reach b c w' ∧ (Access.allows_channel_access policy c = true → caught_up b c w').
Proof.
  intros Ht Hs Hf. destruct (Hs c f Hf) as (st&p&n&Hst&Hok&Hp&Hn&He&Hle&Hnp&Hk).
  unfold drain_channel, pos_of, facts. rewrite Hp, Hf. cbn [rust_expect mbind panics_bind].
  rewrite (store_for_address_at _ _ _ Hst). cbn [mbind panics_bind].
  destruct (drain_window st p (replay_clamp f) f Hok He Hle) as (win&Hb&Hd&->&Hcu).
  pose proof (high_water_fits st Hok).
  assert (replay_clamp f ≠ Bounded 0) as Hcl by (unfold replay_clamp; intros [= ?]; lia).
  assert (in_reach b c w) as Hreach by (intros st' p'; rewrite Hst, Hp; congruence).
  destruct win as [|m win].
  { exists [], w. split_and!; [done|by constructor|done|]. intros _ st' Hst' Hkept.
    rewrite Hst in Hst'. injection Hst' as <-. exists p. auto. }
  destruct (Access.allows_channel_access policy c) eqn:Hfloor; simpl negb; cbv iota.
  2: { exists [], w. split_and!; [done|by constructor|done|done]. }
  set (lost := if push_enabled f then _ else _).
  destruct (pass_rows_spec lost (m :: win)) as (Hlen&Hseq&Henv&Hdrop&Htail).
  assert (len (pass_rows lost (m :: win)) = len (m :: win)) as Hl by (unfold len; congruence).
  destruct (send_pass_sends c w t n p (pass_rows lost (m :: win)) (high_water st) lost)
    as (rows&Hrows&_&Hdel&Hsend); try done; [lia|lia|by rewrite Hseq, Hl, Hlen|].
  assert (len rows = len (m :: win)) as Hlr by (unfold len in *; congruence).
  eexists _, _. split; [exact Hsend|]. split_and!.
  - apply moved_sent; [done|done|]. unfold owed. by rewrite Hlr.
  - intros st' p' Hst' Hp'. simpl in Hp'. rewrite lookup_insert_eq in Hp'. simplify_eq. simpl. lia.
  - intros _ st' Hst' _. simplify_eq. eexists. simpl. by rewrite lookup_insert_eq.
Qed.

(** A live delivery carries a position its channel has assigned. *)
Definition assigned b (d : LiveDelivery Uuid DateTime) : Prop :=
  ∀ st, store_at b (channel (live_envelope d)) = Some st → live_seq d ≤ high_water st.

Lemma send_live_one_moves policy b a w t d :
  tx_open t = true → serves b a w → assigned b d →
  send_live_one policy b a w t d = Returns (w, t, Continue) ∨
  ∃ c f fs w', active a !! c = Some f ∧ send_live_one policy b a w t d = Returns (w', sent t fs, Continue) ∧
    moved f c w fs w' ∧ in_reach b c w'.
Proof.
  intros Ht Hs Ha. unfold send_live_one. set (c := channel (live_envelope d)). unfold is_active.
  destruct (active a !! c) as [f|] eqn:Hf; simpl negb; cbv iota; [|by left].
  destruct (Access.allows_channel_access policy c); simpl negb; cbv iota; [|by left].
  destruct (Hs c f Hf) as (st&p&n&Hst&Hok&Hp&Hn&He&Hle&Hnp&Hk). unfold pos_of. rewrite Hp.
  cbn [rust_expect mbind panics_bind]. pose proof (high_water_fits st Hok). specialize (Ha st Hst).
  rewrite u64_add_small by lia.
  destruct (N.leb_spec (live_seq d) (Ring.resume_seq p)) as [Hseen|Hnew]; [by left|]. right. exists c, f.
  destruct (N.eqb_spec (live_seq d) (Ring.resume_seq p + 1)) as [Hnext|Hahead].
  - destruct (send_pass_sends c w t n p [mkPassRow (live_envelope d) 0 (live_seq d)] (live_seq d) 0)
      as (rows&Hrows&_&Hdel&Hsend); try done; [lia| | |].
    + rewrite len_cons, len_nil. lia.
    + unfold len. simpl. f_equal. lia.
    + assert (len rows = 1) as Hlr by (unfold len; by rewrite Hrows).
      eexists _, _. split_and!; [done|exact Hsend| |].
      * apply moved_sent; [done|done|]. unfold owed. rewrite Hlr, Hnext in *.
        replace (Ring.resume_seq p + 1 - Ring.resume_seq p - 1) with 0 by lia. by destruct (push_enabled f).
      * intros st' p' Hst' Hp'. simpl in Hp'. rewrite lookup_insert_eq in Hp'. simplify_eq. simpl. lia.
  - destruct (drain_channel_moves policy b a w t c f) as (fs&w'&?&?&?&_); [done|done|done|]. by exists fs, w'.
Qed.

(** *** Whole turns *)

(** What a connection sends: a channel's share at a time, and views between them. *)
Inductive steps a : WireCursors Uuid → list (ServerFrame Uuid DateTime) → WireCursors Uuid → Prop :=
| steps_nil w : steps a w [] w
| steps_move c f w fs w1 fs' w2 :
    active a !! c = Some f → moved f c w fs w1 → steps a w1 fs' w2 → steps a w (fs ++ fs') w2
| steps_view v w fs w' :
    steps a w fs w' →
    steps a w (DeferredView (view_channel v) (view_attribution v) (view_entries v) :: fs) w'.

Lemma steps_app a w fs w1 fs' w2 : steps a w fs w1 → steps a w1 fs' w2 → steps a w (fs ++ fs') w2.
Proof.
  intros Hs Hs'. induction Hs as [|c f w fs w1' fs1 w2' Hf Hm _ IH|v w fs w' _ IH]; [done| |].
  - rewrite <-app_assoc. eapply steps_move; eauto.
  - simpl. apply steps_view. auto.
Qed.

(** A turn over [b]: the frames sent, served still, and no channel let go of what it had
    caught up to. *)
Definition turned b a w t (r : panics (WireCursors Uuid * Writer Uuid DateTime * FrameOutcome))
    (fs : list (ServerFrame Uuid DateTime)) (w' : WireCursors Uuid) : Prop :=
  r = Returns (w', sent t fs, Continue) ∧ steps a w fs w' ∧ serves b a w' ∧
  (∀ c, caught_up b c w → caught_up b c w').

Lemma caught_up_moved b a w c' f fs w' c :
  moved f c' w fs w' → in_reach b c' w' → caught_up b c w → caught_up b c w'.
Proof.
  intros [|n p rows p' Hn Hp Hd] Hreach Hcu; [done|]. intros st Hst Hk.
  destruct (Hcu st Hst Hk) as (q&Hq&Hhw). simpl. destruct (decide (c' = c)) as [->|Hne].
  - eexists. rewrite lookup_insert_eq. split; [done|]. simpl.
    pose proof (dl_room _ _ _ _ _ _ _ _ Hd). simplify_eq.
    pose proof (Hreach st (Ring.mkResume (Ring.resume_epoch p) p') Hst (lookup_insert_eq _ _ _)) as Hle. simpl in Hle. lia.
  - exists q. by rewrite lookup_insert_ne.
Qed.

Lemma turned_nil b a w t : serves b a w → turned b a w t (Returns (w, t, Continue)) [] w.
Proof. intros Hs. by split_and!; [|constructor| |]. Qed.

Lemma turned_move b a w t c f fs w1 k fs' w2 :
  active a !! c = Some f → moved f c w fs w1 → serves b a w → in_reach b c w1 →
  (serves b a w1 → turned b a w1 (sent t fs) k fs' w2) → turned b a w t k (fs ++ fs') w2.
Proof.
  intros Hf Hm Hs Hr Hk. pose proof (serves_moved _ _ _ _ _ _ _ Hs Hf Hm Hr) as Hs1.
  destruct (Hk Hs1) as (->&Hst&Hs2&Hcu). split_and!; [by rewrite sent_app|by eapply steps_move|done|].
  intros c' Hc'. by eapply Hcu, caught_up_moved.
Qed.

Lemma drain_list_turns policy b a cs : ∀ w t,
  tx_open t = true → serves b a w → Forall (λ c, is_Some (active a !! c)) cs →
  ∃ fs w', turned b a w t (drain_list policy b a w t cs) fs w' ∧
    Forall (λ c, Access.allows_channel_access policy c = true → caught_up b c w') cs.
Proof.
  induction cs as [|c cs IH]; intros w t Ht Hs Hcs; simpl.
  { exists [], w. split; [by apply turned_nil|constructor]. }
  apply Forall_cons in Hcs as [[f Hf] Hcs].
  destruct (drain_channel_moves policy b a w t c f Ht Hs Hf) as (fs&w1&->&Hm&Hr&Hcu). simpl.
  pose proof (serves_moved _ _ _ _ _ _ _ Hs Hf Hm Hr) as Hs1.
  destruct (IH w1 (sent t fs)) as (fs'&w2&Hk&Hall); [by apply sent_open|done|done|].
  exists (fs ++ fs'), w2. split; [by eapply turned_move|]. constructor; [|done].
  intros Ha. destruct Hk as (_&_&_&Hkeep). auto.
Qed.

Lemma send_live_turns policy b a batch : ∀ w t,
  tx_open t = true → serves b a w → Forall (assigned b) batch →
  ∃ fs w', turned b a w t (send_live policy b a w t batch) fs w'.
Proof.
  induction batch as [|d batch IH]; intros w t Ht Hs Hb; simpl.
  { exists [], w. by apply turned_nil. }
  apply Forall_cons in Hb as [Hd Hb].
  destruct (send_live_one_moves policy b a w t d Ht Hs Hd) as [->|(c&f&fs&w1&Hf&->&Hm&Hr)]; simpl; [by apply IH|].
  pose proof (serves_moved _ _ _ _ _ _ _ Hs Hf Hm Hr) as Hs1.
  destruct (IH w1 (sent t fs)) as (fs'&w2&Hk); [by apply sent_open|done|done|].
  exists (fs ++ fs'), w2. by eapply turned_move.
Qed.

Lemma send_views_sends vs : ∀ t, tx_open t = true →
  ∃ fs, send_views t vs = (sent t fs, Continue) ∧ ∀ a w, steps a w fs w.
Proof.
  induction vs as [|v vs IH]; intros t Ht; simpl; [exists []; split; [done|constructor]|].
  unfold send_deferred_view. rewrite send_frame_open by done.
  destruct (IH (sent t [DeferredView (view_channel v) (view_attribution v) (view_entries v)]) ltac:(done))
    as (fs&->&Hs).
  eexists (_ :: fs). split; [done|]. intros a w. apply steps_view, Hs.
Qed.

Lemma send_session_pushes_turns policy b a w t pushes :
  tx_open t = true → serves b a w → (∀ d, PushLive d ∈ pushes → assigned b d) →
  ∃ fs w', turned b a w t (send_session_pushes policy b a w t pushes) fs w'.
Proof.
  intros Ht Hs Hp. unfold send_session_pushes.
  set (views := omap _ _). set (rows := omap _ _).
  assert (∃ fs w', turned b a w t (match rows with
    | [] => Returns (w, t, Continue) | _ => send_live policy b a w t rows end) fs w') as (fs&w'&Hr&Hst&Hs'&Hcu).
  { assert (Forall (assigned b) rows) as Hrows.
    { apply Forall_forall. intros d (x&Hx&Hd)%list_elem_of_omap. destruct x; [|done]. injection Hd as ->. auto. }
    destruct rows; [exists [], w; by apply turned_nil|by apply send_live_turns]. }
  rewrite Hr. cbn [mbind panics_bind].
  destruct (send_views_sends views (sent t fs)) as (fs'&->&Hv); [by apply sent_open|].
  exists (fs ++ fs'), w'. split_and!; [by rewrite sent_app| |done|done]. by eapply steps_app.
Qed.

(** What wakes a connection's send side: pushes from the bus, or a drain. *)
Inductive Work := Pushes (ps : list (SessionPush Uuid DateTime)) | Drain.

Definition do_work policy b a w t (x : Work) : panics (WireCursors Uuid * Writer Uuid DateTime * FrameOutcome) :=
  match x with
  | Pushes ps => send_session_pushes policy b a w t ps
  | Drain => drain_all policy b a w t
  end.

(** Turn after turn, each over the bus as it is then, until the writer is gone. *)
Fixpoint turns policy a w t (ops : list (Bus Uuid St * Work))
    : panics (WireCursors Uuid * Writer Uuid DateTime * FrameOutcome) :=
  match ops with
  | [] => Returns (w, t, Continue)
  | (b, x) :: ops =>
      r ← do_work policy b a w t x;
      let '(w, t, o) := r in
      match o with Disconnect => Returns (w, t, Disconnect) | _ => turns policy a w t ops end
  end.

(** Between turns the bus keeps every active channel, in its numbering domain, and only
    assigns more positions. *)
Definition follows a b b' : Prop :=
  ∀ c st, is_Some (active a !! c) → store_at b c = Some st →
    ∃ st', store_at b' c = Some st' ∧ store_ok st' ∧ store_epoch st' = store_epoch st ∧
      high_water st ≤ high_water st'.

Fixpoint attends a b (ops : list (Bus Uuid St * Work)) : Prop :=
  match ops with
  | [] => True
  | (b', x) :: ops =>
      follows a b b' ∧ match x with Pushes ps => ∀ d, PushLive d ∈ ps → assigned b' d | Drain => True end ∧
      attends a b' ops
  end.

(** The bus as the last turn finds it. *)
Fixpoint final_bus b (ops : list (Bus Uuid St * Work)) : Bus Uuid St :=
  match ops with [] => b | (b', _) :: ops => final_bus b' ops end.

Lemma serves_follows a b b' w : serves b a w → follows a b b' → serves b' a w.
Proof.
  intros Hs Hf c f Hc. destruct (Hs c f Hc) as (st&p&n&Hst&Hok&Hp&Hn&He&Hle&Hnp&Hk).
  destruct (Hf c st) as (st'&?&?&?&?); [by eexists|done|]. exists st', p, n. split_and!; try done; [congruence|lia].
Qed.

Lemma do_work_turns policy b a w t x :
  tx_open t = true → serves b a w →
  match x with Pushes ps => ∀ d, PushLive d ∈ ps → assigned b d | Drain => True end →
  ∃ fs w', turned b a w t (do_work policy b a w t x) fs w' ∧
    (x = Drain → ∀ c, is_Some (active a !! c) → Access.allows_channel_access policy c = true → caught_up b c w').
Proof.
  intros Ht Hs Hx. destruct x as [ps|]; simpl.
  - destruct (send_session_pushes_turns policy b a w t ps Ht Hs Hx) as (fs&w'&Hk). by exists fs, w'.
  - destruct (drain_list_turns policy b a (active_channels a) w t Ht Hs) as (fs&w'&Hk&Hall).
    { apply Forall_forall. intros c Hc. by apply elem_of_address_order in Hc. }
    exists fs, w'. split; [done|]. intros _ c Hc. rewrite Forall_forall in Hall. apply Hall.
    by apply elem_of_address_order.
Qed.

Lemma turns_steps policy a ops : ∀ b w t,
  tx_open t = true → serves b a w → attends a b ops →
  ∃ fs w', turns policy a w t ops = Returns (w', sent t fs, Continue) ∧ steps a w fs w' ∧
    serves (final_bus b ops) a w'.
Proof.
  induction ops as [|[b' x] ops IH]; intros b w t Ht Hs Ha; simpl.
  { exists [], w. split_and!; [done|constructor|done]. }
  destruct Ha as (Hf&Hx&Ha). pose proof (serves_follows _ _ _ _ Hs Hf) as Hs'.
  destruct (do_work_turns policy b' a w t x Ht Hs' Hx) as (fs&w1&(->&Hst&Hs1&_)&_).
  cbn [mbind panics_bind].
  destruct (IH b' w1 (sent t fs)) as (fs'&w2&->&Hst'&Hlast); [by apply sent_open|done|done|].
  exists (fs ++ fs'), w2. by split_and!; [rewrite sent_app|eapply steps_app|].
Qed.

(** *** The attacher's side of the same frames *)

(** The attacher taking a frame of its subscriptions: [None] is a frame it would drop the
    connection for, or discard. *)
Definition receive (s : Subs.Subscriptions) (f : ServerFrame Uuid DateTime) : option Subs.Subscriptions :=
  match f with
  | Deliver c rows => match Subs.on_deliver s c rows with (s', Ok (Subs.Accept _)) => Some s' | _ => None end
  | SubscribeResult c o n g =>
      match Subs.on_subscribe_result (Uuid := Uuid) s c o n g with
      | (s', Ok (Subs.Opened ack)) => if Subs.ack_live ack then Some s' else None
      | _ => None
      end
  | DeferredView _ _ _ => Some s
  | _ => None
  end.

Fixpoint receives (s : Subs.Subscriptions) (fs : list (ServerFrame Uuid DateTime)) : option Subs.Subscriptions :=
  match fs with
  | [] => Some s
  | f :: fs => s' ← receive s f; receives s' fs
  end.

Lemma receives_app s fs fs' : receives s (fs ++ fs') = s' ← receives s fs; receives s' fs'.
Proof. revert s. induction fs as [|f fs IH]; intros s; simpl; [done|]. destruct (receive s f); simpl; auto. Qed.

(** One channel's span as both ends hold it: the attacher has accepted the numbers up to
    the server's, and what it would resume from is the server's own position. *)
Definition span_agrees (s : Subs.Subscriptions) w c : Prop :=
  ∃ e n p, Subs.channels s !! c = Some e ∧ Subs.wire e = Subs.Active ∧ Subs.has_been_active e = true ∧
    span_seq w !! c = Some n ∧ pos w !! c = Some p ∧
    Subs.span_hw e = (if n =? 0 then None else Some n) ∧
    (Subs.resume_policy e = Subs.Resume → n ≠ 0 → Subs.token e = Some (mint (incarnation w) c p)).

Definition in_span a w (s : Subs.Subscriptions) : Prop := ∀ c, is_Some (active a !! c) → span_agrees s w c.

Lemma take_rows_run (rows : list (DeliverRow Uuid DateTime)) : ∀ hw n,
  match hw with None => True | Some m => m ≤ n end → row_seq <$> rows = run (n + 1) (length rows) → rows ≠ [] →
  Subs.take_rows hw rows = Some (Some (n + len rows)).
Proof.
  induction rows as [|r rows IH]; intros hw n Hhw Hr Hne; [done|]. injection Hr as Hx Hr.
  assert (Subs.take_rows hw (r :: rows) = Subs.take_rows (Some (n + 1)) rows) as ->.
  { simpl. rewrite Hx. destruct hw as [m|]; [|done]. by destruct (N.leb_spec (n + 1) m); [lia|]. }
  rewrite len_cons. destruct rows as [|r' rows]; [simpl; rewrite len_nil; do 2 f_equal; lia|].
  rewrite (IH _ (n + 1)); [do 2 f_equal; lia|lia|done|done].
Qed.

Lemma delivered_last inc c e n p rows p' lost :
  delivered inc c e n p rows p' lost →
  ∃ head rest, rows = head :: rest ∧ row_dropped head = lost ∧ Forall (λ r, row_dropped r = 0) rest ∧
    row_cursor (default head (list.last rest)) = mint inc c (Ring.mkResume e p').
Proof.
  intros [Hne _ Hcur Hroom Hl Ht]. destruct rows as [|head rest]; [done|].
  exists head, rest. simpl in Hl, Ht. injection Hl as Hl. split_and!; [done|done|by rewrite drop_0 in Ht|].
  assert (list.last (head :: rest) = Some (default head (list.last rest))) as Hlast.
  { rewrite last_cons. by destruct (list.last rest). }
  apply (f_equal list.last) in Hcur. rewrite !fmap_last, Hlast in Hcur. cbn [length] in Hcur.
  rewrite run_snoc, last_snoc in Hcur. simpl in Hcur. injection Hcur as ->. do 2 f_equal.
  rewrite len_cons in *. unfold len in *. lia.
Qed.

(** The attacher accepts a pass the server delivers in its span. *)
Lemma accepts_delivered (s : Subs.Subscriptions) w c n p rows p' lost :
  span_agrees s w c → span_seq w !! c = Some n → pos w !! c = Some p →
  delivered (incarnation w) c (Ring.resume_epoch p) n (Ring.resume_seq p) rows p' lost →
  ∃ e', receive s (Deliver c rows) = Some (Subs.with_channels s (<[c := e']> (Subs.channels s))) ∧
    Subs.on_deliver s c rows = (Subs.with_channels s (<[c := e']> (Subs.channels s)), Ok (Subs.Accept lost)) ∧
    span_agrees (Subs.with_channels s (<[c := e']> (Subs.channels s)))
      (span_to w c (n + len rows) (Ring.mkResume (Ring.resume_epoch p) p')) c.
Proof.
  intros (e&n'&q&He&Hw&Hba&Hn'&Hq&Hhw&Htok) Hn Hp Hd. rewrite Hn in Hn'. rewrite Hp in Hq. simplify_eq.
  destruct (delivered_last _ _ _ _ _ _ _ _ Hd) as (head&rest&->&<-&Hrest&Hlast).
  assert (Subs.take_rows (Subs.span_hw e) (head :: rest) = Some (Some (n' + len (head :: rest)))) as Htake.
  { apply take_rows_run; [rewrite Hhw; by destruct (n' =? 0)|apply Hd|done]. }
  assert (existsb (λ row, negb (row_dropped row =? 0)) rest = false) as Hex.
  { apply not_true_iff_false. rewrite existsb_exists. intros (r&Hr&Hz). apply list_elem_of_In in Hr.
    rewrite Forall_forall in Hrest. by rewrite (Hrest r Hr) in Hz. }
  eexists. unfold receive, Subs.on_deliver. rewrite Hex, He, Hba, decide_True by done. rewrite Htake, Hlast.
  split_and!; [done|done|]. eexists _, _, _. simpl. rewrite !lookup_insert_eq. split_and!; try done; simpl.
  - destruct (N.eqb_spec (n' + len (head :: rest)) 0) as [Hz|_]; [rewrite len_cons in Hz; lia|done].
  - by destruct (Subs.resume_policy e).
Qed.

Lemma span_agrees_other (s : Subs.Subscriptions) w c c' e n p :
  c ≠ c' → span_agrees s w c' →
  span_agrees (Subs.with_channels s (<[c := e]> (Subs.channels s))) (span_to w c n p) c'.
Proof.
  intros Hne (e'&n'&p'&?&?&?&?&?&?&?). exists e', n', p'. simpl. by rewrite !lookup_insert_ne.
Qed.

Lemma steps_accepted a w fs w' (s : Subs.Subscriptions) :
  steps a w fs w' → in_span a w s → ∃ s', receives s fs = Some s' ∧ in_span a w' s'.
Proof.
  intros Hst. revert s. induction Hst as [w|c f w fs w1 fs' w2 Hf Hm _ IH|v w fs w' _ IH]; intros s Hin.
  - by exists s.
  - rewrite receives_app. destruct Hm as [|n p rows p' Hn Hp Hd]; [by apply IH|].
    destruct (accepts_delivered s w c n p rows p' _ (Hin c (mk_is_Some _ _ Hf)) Hn Hp Hd) as (e'&Hr&_&Hag).
    cbn [receives]. rewrite Hr. cbn [mbind option_bind]. apply IH. intros c' Hc'.
    destruct (decide (c = c')) as [<-|Hne]; [done|]. by apply span_agrees_other, Hin.
  - simpl. by apply IH.
Qed.

(** *** Accounting *)

(** The positions a frame accounts for on a channel: the rows it carries and the loss it
    reports. *)
Definition told_frame c (f : ServerFrame Uuid DateTime) : N :=
  match f with
  | Deliver c' rows => if decide (c' = c) then len rows + foldr N.add 0 (row_dropped <$> rows) else 0
  | _ => 0
  end.
Definition told c (fs : list (ServerFrame Uuid DateTime)) : N := foldr N.add 0 (told_frame c <$> fs).

Lemma told_app c fs fs' : told c (fs ++ fs') = told c fs + told c fs'.
Proof. unfold told. induction fs as [|f fs IH]; [done|]. rewrite <-app_comm_cons, !fmap_cons. simpl. rewrite IH. lia. Qed.

Lemma no_loss (rows : list (DeliverRow Uuid DateTime)) :
  Forall (λ r, row_dropped r = 0) rows → foldr N.add 0 (row_dropped <$> rows) = 0.
Proof. induction 1 as [|r rows Hr _ IH]; [done|]. rewrite fmap_cons. simpl. by rewrite Hr, IH. Qed.

Lemma told_delivered inc c e n p rows p' lost :
  delivered inc c e n p rows p' lost → told c [Deliver c rows] = len rows + lost.
Proof.
  intros Hd. destruct (delivered_last _ _ _ _ _ _ _ _ Hd) as (head&rest&->&<-&Hrest&_).
  unfold told. simpl. rewrite decide_True by done. rewrite no_loss by done. lia.
Qed.

Lemma steps_told a w fs w' c f p :
  steps a w fs w' → active a !! c = Some f → pos w !! c = Some p →
  ∃ p', pos w' !! c = Some p' ∧ Ring.resume_epoch p' = Ring.resume_epoch p ∧
    Ring.resume_seq p + told c fs ≤ Ring.resume_seq p' ∧
    (push_enabled f = true → Ring.resume_seq p' = Ring.resume_seq p + told c fs).
Proof.
  intros Hst Hf. revert p. induction Hst as [w|c1 f1 w fs w1 fs' w2 Hf1 Hm _ IH|v w fs w' _ IH]; intros p Hp.
  - exists p. unfold told. simpl. split_and!; try done; lia.
  - rewrite told_app. destruct Hm as [|n q rows q' Hn Hq Hd].
    { destruct (IH p Hp) as (p'&?&?&?&?). exists p'. unfold told at 1 3. simpl. split_and!; try done; lia. }
    destruct (decide (c1 = c)) as [->|Hne].
    + rewrite Hf in Hf1. rewrite Hp in Hq. simplify_eq.
      destruct (IH (Ring.mkResume (Ring.resume_epoch q) q')) as (p'&Hp'&He&Hle&Heq); [by simpl; rewrite lookup_insert_eq|].
      exists p'. rewrite (told_delivered _ _ _ _ _ _ _ _ Hd). pose proof (dl_room _ _ _ _ _ _ _ _ Hd).
      simpl in He, Hle, Heq. unfold owed. split_and!; [done|done| |].
      * destruct (push_enabled f1); lia.
      * intros Hpush. rewrite Hpush in *. specialize (Heq eq_refl). lia.
    + assert (told c [Deliver c1 rows] = 0) as -> by (unfold told; simpl; by rewrite decide_False).
      destruct (IH p) as (p'&?&?&?&?); [by simpl; rewrite lookup_insert_ne|]. by exists p'.
  - destruct (IH p Hp) as (p'&?&?&?&?). exists p'. unfold told. simpl. by fold (told c fs).
Qed.

(** *** Opening a subscription *)

Lemma ensure_runtime_entry_uuid prof (d : MessagingDirectory Uuid) e c c' :
  uuid <$> resolve (ensure_runtime_entry prof d e c) c' = uuid <$> resolve d c'.
Proof.
  unfold ensure_runtime_entry. destruct (runtime_entry prof c) as [m|]; [|done].
  destruct (existsb _ _); [done|]. unfold add_subscriber.
  destruct (by_uuid d !! uuid e) as [e0|] eqn:He; [|done]. unfold resolve. simpl.
  destruct (by_address d !! c') as [u|]; [|done]. simpl. destruct (decide (uuid e = u)) as [<-|Hne].
  - by rewrite lookup_insert_eq, He.
  - by rewrite lookup_insert_ne.
Qed.

Lemma store_at_ensured prof b e c c' :
  store_at (mkBus (ensure_runtime_entry prof (directory b) e c) (stores b)) c' = store_at b c'.
Proof.
  pose proof (ensure_runtime_entry_uuid prof (directory b) e c c') as Hu. unfold store_at. simpl.
  destruct (resolve (ensure_runtime_entry _ _ _ _) c'), (resolve (directory b) c'); simplify_eq/=; congruence.
Qed.

(** What the attacher is told of a resume from position [q]: with no gap it gets every
    position after it, and nothing it already has; a gap beyond what is retained says that
    positions are missing. *)
Definition resume_told (epoch : Uuid) (hw : N) (q : Ring.Resume Uuid) (gap : option GapInfo) (anchor n : N) : Prop :=
  match gap with
  | None => Ring.resume_epoch q = epoch ∧ anchor = Ring.resume_seq q ∧ Ring.resume_seq q + n = hw
  | Some g =>
      anchor = 0 ∧
      match reason g with
      | BeyondRetained => Ring.resume_epoch q = epoch ∧ Ring.resume_seq q + n < hw
      | EpochChanged => Ring.resume_epoch q ≠ epoch ∨ hw < Ring.resume_seq q
      end
  end.

Lemma resume_answer_told st cur limit :
  store_ok st →
  let r := replay_from st cur limit in
  let ga := resume_answer (sr_decision r) (Ring.resume_seq <$> cur) in
  ga.2 + len (sr_messages r) ≤ high_water st ∧
  match cur with
  | None => ga = (None, 0)
  | Some q => resume_told (store_epoch st) (high_water st) q ga.1 ga.2 (len (sr_messages r))
  end.
Proof.
  intros Hok r ga. pose proof (replay_answers st cur limit Hok) as [_ Hb _ _ _ Hdec _]. fold r in Hb, Hdec.
  unfold ga. destruct cur as [q|]; simpl in Hdec.
  - destruct (sr_decision r) as [| | |[| |]]; simpl; try done.
    + destruct Hdec as (?&?&?). split_and!; try done; lia.
    + destruct Hdec as (?&?&?). split_and!; try done; lia.
    + split_and!; [lia|done|by left].
    + destruct Hdec. split_and!; [lia|done|by right].
  - rewrite Hdec. simpl. split; [lia|done].
Qed.

(** How a subscription opens on [st]: the answer's gap, the span's start, and the replay
    that follows the answer, if any. *)
Record opens (st : St) w c (floor_ok : bool) (echoed : option (CursorState Uuid)) (gap : option GapInfo)
    (rows : list (DeliverRow Uuid DateTime)) (w' : WireCursors Uuid) : Prop := mkOpens {
  op_content : Forall2 (λ x row, message_at st x = Some (row_envelope row))
    (run (high_water st + 1 - len rows) (length rows)) rows;
  op_span : ∃ anchor, let w1 := start_span w c (store_epoch st) anchor in
    anchor ≤ high_water st ∧
    (rows = [] ∧ w' = w1 ∨
     delivered (incarnation w) c (store_epoch st) 0 anchor rows (high_water st) 0 ∧
     w' = span_to w1 c (len rows) (Ring.mkResume (store_epoch st) (high_water st))) ∧
    match echoed with
    | None => gap = None
    | Some s =>
        if (incarnation w <? cs_incarnation s)%Z then gap = Some (mkGap EpochChanged)
        else floor_ok = true → resume_told (store_epoch st) (high_water st) (cs_resume s) gap anchor (len rows)
    end;
}.

(** The frames of an opening. *)
Definition opening_frames c (n : N) (gap : option GapInfo) (rows : list (DeliverRow Uuid DateTime))
    : list (ServerFrame Uuid DateTime) :=
  SubscribeResult c SubscribeOk n gap :: match rows with [] => [] | _ => [Deliver c rows] end.

Lemma open_subscription_opens prof policy b e a w t c f echoed st :
  tx_open t = true → stores b !! uuid e = Some st → store_ok st →
  let floor_ok := Access.allows_channel_access policy c in
  ∃ w' n gap rows,
    open_subscription prof policy b e a w t c f echoed =
      Returns (mkBus (ensure_runtime_entry prof (directory b) e c) (stores b), activate a c f, w',
               sent t (opening_frames c n gap rows), Continue) ∧
    opens st w c floor_ok echoed gap rows w'.
Proof.
  intros Ht Hst Hok floor_ok. unfold open_subscription, store_for. cbn [stores]. rewrite Hst.
  cbn [rust_expect mbind panics_bind]. set (stale := match echoed with Some _ => _ | None => _ end).
  set (cur := if stale then None else cs_resume <$> echoed).
  pose proof (resume_answer_told st cur (replay_clamp f) Hok) as Htold.
  pose proof (replay_answers st cur (replay_clamp f) Hok) as [He Hb Hd Hcont _ _ _].
  pose proof (high_water_fits st Hok) as Hfit. set (r := replay_from st cur (replay_clamp f)) in *.
  cbv zeta in Htold. destruct (resume_answer _ _) as [gap0 anchor]. simpl in Htold. destruct Htold as [Hanchor Htold].
  rewrite send_frame_open by done. rewrite He. fold floor_ok.
  set (gap := if stale then _ else gap0). set (w1 := start_span w c (store_epoch st) anchor).
  assert (Hgap : match echoed with
    | None => gap = None
    | Some s => if (incarnation w <? cs_incarnation s)%Z then gap = Some (mkGap EpochChanged)
                else resume_told (store_epoch st) (high_water st) (cs_resume s) gap anchor (len (sr_messages r))
    end).
  { unfold gap, stale, cur in *. destruct echoed as [s|]; simpl in Htold; [|congruence].
    unfold stale in Htold. by destruct (_ <? _)%Z. }
  destruct floor_ok eqn:Hfloor; simpl negb; cbv iota.
  2: { eexists w1, _, gap, []. split; [done|]. split; [constructor|]. exists anchor. split_and!; [lia|by left|].
       destruct echoed as [s|]; [|done]. by destruct (_ <? _)%Z. }
  destruct (sr_messages r) as [|m ms] eqn:Hms.
  { eexists w1, _, gap, []. split; [done|]. split; [constructor|]. exists anchor. split_and!; [lia|by left|].
    destruct echoed as [s|]; [|done]. by destruct (_ <? _)%Z. }
  destruct (pass_rows_spec 0 (m :: ms)) as (Hlen&Hseq&Henv&Hdrop&Htail).
  assert (len (pass_rows 0 (m :: ms)) = len (m :: ms)) as Hl by (unfold len; congruence).
  destruct (send_pass_sends c w1 (sent t [SubscribeResult c SubscribeOk (as_u32 (len (m :: ms))) gap]) 0
    (Ring.mkResume (store_epoch st) anchor) (pass_rows 0 (m :: ms)) (high_water st) 0)
    as (rows&Hrows&Hcopy&Hdel&->); try done;
    [apply lookup_insert_eq|apply lookup_insert_eq|simpl; lia|lia|rewrite Hl; simpl; lia|by rewrite Hseq, Hl, Hlen|].
  assert (len rows = len (m :: ms)) as Hlr by (unfold len in *; congruence).
  eexists _, (as_u32 (len (m :: ms))), gap, rows. split.
  { cbn [mbind panics_bind]. unfold opening_frames.
    destruct rows; [by destruct (dl_some _ _ _ _ _ _ _ _ Hdel)|]. rewrite <-sent_app. done. }
  split.
  - rewrite Hlr, Hrows, Hlen, <-Hd. rewrite Henv in Hcopy. clear -Hcont Hcopy.
    revert rows Hcopy. induction Hcont as [|x l Hx _ IH]; intros [|row rows] Hcopy; try done.
    injection Hcopy as Hrow Hcopy. rewrite fmap_cons. constructor; [by rewrite Hrow|by apply IH].
  - exists anchor. split_and!; [lia|by right|]. rewrite Hlr. destruct echoed as [s|]; [|done]. by destruct (_ <? _)%Z.
Qed.

(** Where an opening leaves its own channel, and the others. *)
Lemma opens_span st w c fl echoed gap rows w' :
  opens st w c fl echoed gap rows w' →
  incarnation w' = incarnation w ∧
  (∀ c', c ≠ c' → span_seq w' !! c' = span_seq w !! c' ∧ pos w' !! c' = pos w !! c') ∧
  ∃ p, span_seq w' !! c = Some (len rows) ∧ pos w' !! c = Some p ∧ Ring.resume_epoch p = store_epoch st ∧
    Ring.resume_seq p ≤ high_water st ∧ len rows ≤ Ring.resume_seq p.
Proof.
  intros [_ (anchor&Hle&[[-> ->]|[Hd ->]]&_)]; simpl; (split; [done|]).
  - split; [intros c' Hne; by rewrite !lookup_insert_ne by done|].
    exists (Ring.mkResume (store_epoch st) anchor). simpl.
    split_and!; [apply lookup_insert_eq|apply lookup_insert_eq|done|lia|rewrite len_nil; lia].
  - split; [intros c' Hne; by rewrite !lookup_insert_ne by done|].
    exists (Ring.mkResume (store_epoch st) (high_water st)). simpl. pose proof (dl_room _ _ _ _ _ _ _ _ Hd).
    split_and!; [apply lookup_insert_eq|apply lookup_insert_eq|done|lia|lia].
Qed.

Lemma serves_opened prof b a w c f e st fl echoed gap rows w' :
  serves b a w → resolve (directory b) c = Some e → stores b !! uuid e = Some st → store_ok st →
  (push_depth f ≠ 0 ∨ retain_depth f ≠ 0) → opens st w c fl echoed gap rows w' →
  serves (mkBus (ensure_runtime_entry prof (directory b) e c) (stores b)) (activate a c f) w'.
Proof.
  intros Hs He Hst Hok Hk Ho. destruct (opens_span _ _ _ _ _ _ _ _ Ho) as (_&Hother&p&Hn&Hp&Hep&Hle&Hlen).
  intros c' f' Hf'. rewrite store_at_ensured. simpl in Hf'. destruct (decide (c = c')) as [<-|Hne].
  - rewrite lookup_insert_eq in Hf'. injection Hf' as <-. exists st, p, (len rows).
    unfold store_at. rewrite He. simpl. split_and!; try done; lia.
  - rewrite lookup_insert_ne in Hf' by done. destruct (Hs c' f' Hf') as (st'&q&n&?&?&?&?&?&?&?&?).
    destruct (Hother c' Hne) as [-> ->]. exists st', q, n. by split_and!.
Qed.

(** The attacher has asked for the channel as it now wants it. *)
Definition asked (s : Subs.Subscriptions) c : Prop :=
  ∃ e, Subs.channels s !! c = Some e ∧ Subs.wire e = Subs.Pending ∧ Subs.refcount e ≠ 0 ∧ Subs.span_hw e = None ∧
    Subs.stated e = Some (Subs.depths e, Subs.resume_policy e).

Lemma opening_accepted a (s : Subs.Subscriptions) w c f st fl echoed gap rows w' n :
  in_span a w s → asked s c → opens st w c fl echoed gap rows w' →
  ∃ s', receives s (opening_frames c n gap rows) = Some s' ∧ in_span (activate a c f) w' s'.
Proof.
  intros Hin (e&He&Hw&Hrc&Hhw&Hstd) Ho. destruct (opens_span _ _ _ _ _ _ _ _ Ho) as (Hinc&Hother&_).
  set (e1 := Subs.mkSub (Subs.refcount e) (Subs.depths e) (Subs.resume_policy e) Subs.Active (Subs.token e) None
               true false (Subs.stated e)).
  set (s1 := Subs.with_channels s (<[c := e1]> (Subs.channels s))).
  assert (receive s (SubscribeResult c SubscribeOk n gap) = Some s1) as Hopen.
  { unfold receive, Subs.on_subscribe_result. rewrite He, decide_True by done.
    rewrite bool_decide_true by done. destruct (N.eqb_spec (Subs.refcount e) 0); [done|]. simpl.
    by rewrite Hhw. }
  unfold opening_frames. cbn [receives]. rewrite Hopen. cbn [mbind option_bind].
  assert (Hrest : ∀ s' c', Subs.channels s' !! c' = Subs.channels s !! c' → c ≠ c' →
    is_Some (active (activate a c f) !! c') → span_agrees s' w' c').
  { intros s' c' Hs' Hne [f' Hf']. simpl in Hf'. rewrite lookup_insert_ne in Hf' by done.
    destruct (Hin c') as (e'&n'&p'&?&?&?&?&?&?&?); [by eexists|]. exists e', n', p'.
    destruct (Hother c' Hne) as [-> ->]. by rewrite Hs', Hinc. }
  destruct Ho as [_ (anchor&_&[[-> ->]|[Hd ->]]&_)].
  - exists s1. split; [done|]. intros c' Hc'. destruct (decide (c = c')) as [<-|Hne].
    + exists e1, 0, (Ring.mkResume (store_epoch st) anchor). simpl. by rewrite !lookup_insert_eq.
    + apply Hrest; [|done|done]. simpl. by rewrite lookup_insert_ne.
  - set (w1 := start_span w c (store_epoch st) anchor) in *.
    destruct (accepts_delivered s1 w1 c 0 (Ring.mkResume (store_epoch st) anchor) rows (high_water st) 0)
      as (e2&Hr&_&Hag).
    + exists e1, 0, (Ring.mkResume (store_epoch st) anchor). simpl. by rewrite !lookup_insert_eq.
    + apply lookup_insert_eq.
    + apply lookup_insert_eq.
    + exact Hd.
    + destruct rows as [|row rows]; [by destruct (dl_some _ _ _ _ _ _ _ _ Hd)|].
      cbn [receives]. rewrite Hr. eexists. split; [done|]. intros c' Hc'.
      destruct (decide (c = c')) as [<-|Hne]; [done|]. apply Hrest; [|done|done].
      simpl. by rewrite !lookup_insert_ne.
Qed.

Lemma Forall2_and_fmap {A B D} (P : A → B → Prop) (g : B → D) (h : A → D) (l : list A) (k : list B) :
  Forall2 P l k → g <$> k = h <$> l → Forall2 (λ x y, g y = h x ∧ P x y) l k.
Proof.
  induction 1 as [|x y l k Hxy _ IH]; intros Heq; [constructor|].
  injection Heq as Hg Heq. constructor; [done|by apply IH].
Qed.

(** *** The request *)

(** What a subscribe must satisfy to be admitted: the channel is subscribable and not yet
    open, the connection has room, and some window was asked for; and a token, if echoed,
    is one minted for this channel. *)
Record admitted prof a (r : SubscribeRequest) (f : SubscriptionFacts) (echoed : option (CursorState Uuid)) : Prop :=
  mkAdmitted {
  adm_facts : ∃ bound, subscribable prof (req_channel r) = Some bound ∧
    f = mkFacts (N.min (req_push_depth r) (push_depth bound)) (N.min (req_retain_depth r) (retain_depth bound));
  adm_new : active a !! req_channel r = None;
  adm_room : active_len a < max_active_subscriptions prof;
  adm_window : push_depth f ≠ 0 ∨ retain_depth f ≠ 0;
  adm_token : match echoed with
              | None => req_resume r = None
              | Some s => cs_channel s = req_channel r ∧
                          req_resume r = Some (mint (cs_incarnation s) (cs_channel s) (cs_resume s))
              end;
}.

Lemma parse_mint inc c (q : Ring.Resume Uuid) : parse_cursor (mint inc c q) = Some (mkCursorState inc c q).
Proof. unfold parse_cursor, mint, wrap. rewrite decode_encode. by destruct q. Qed.

Lemma handle_subscribe_admitted prof policy b a w t r f echoed e :
  admitted prof a r f echoed → resolve (directory b) (req_channel r) = Some e →
  handle_subscribe prof policy b a w t r = open_subscription prof policy b e a w t (req_channel r) f echoed.
Proof.
  intros [(bound&Hb&->) Hnew Hroom Hwin Htok] He. unfold handle_subscribe, is_active. rewrite Hb, Hnew.
  destruct (N.leb_spec (max_active_subscriptions prof) (active_len a)) as [?|_]; [lia|]. simpl in Hwin.
  set (f := mkFacts _ _) in *.
  assert ((push_depth f =? 0) && (retain_depth f =? 0) = false) as ->.
  { apply andb_false_iff. rewrite !N.eqb_neq. done. }
  destruct echoed as [s|].
  - destruct Htok as [Hc ->]. unfold parse_resume_cursor. rewrite parse_mint. simpl. rewrite <-Hc, String.eqb_refl.
    rewrite Hc, He. by destruct s.
  - by rewrite Htok, He.
Qed.
End run.
End ServeRun.

(** ** Properties *)
Module ServeProps.
Import Envelope Proto Directory Store RingStore Serve ServeRun.

Section props.
Context {Uuid DateTime St : Type} `{Countable Uuid} `{CursorCodec Uuid}.
Context `{!RetentionStore St (MessageEnvelope Uuid DateTime) Uuid}.
Context `{!RetentionLaws St (MessageEnvelope Uuid DateTime) Uuid}.
Implicit Types (policy : Access.AppPolicy) (b : Bus Uuid St) (a : ActiveChannels).
Implicit Types (w : WireCursors Uuid) (t : Writer Uuid DateTime) (c : string).

(** C20: (served end to end) the attacher accepts every delivery. Over any sequence of turns,
    pushes and drains in whatever order while the channels go on being published to, the
    session never unwinds, and the attacher's own subscriptions take every frame it is sent:
    none regresses, none is empty, none is for a channel it does not hold. At the end both
    ends agree on each span, and the token the attacher would resume from is the server's
    own position. *)
Theorem attacher_accepts_every_delivery policy a (ops : list (Bus Uuid St * Work)) b w t (s : Subs.Subscriptions) :
  tx_open t = true → serves b a w → attends a b ops → in_span a w s →
  ∃ fs w' s', turns policy a w t ops = Returns (w', sent t fs, Continue) ∧
    receives s fs = Some s' ∧ in_span a w' s' ∧ serves (final_bus b ops) a w'.
Proof.
  intros Ht Hs Ha Hin. destruct (turns_steps policy a ops b w t Ht Hs Ha) as (fs&w'&Hr&Hst&Hs').
  destruct (steps_accepted _ _ _ _ s Hst Hin) as (s'&?&?). by exists fs, w', s'.
Qed.

(** C21: (served end to end) no position is lost in silence, and none is sent twice. Over any
    such turns, on a subscription with a push window the rows sent and the losses reported
    add up to exactly the positions its cursor moved by; on a context feed, which reports no
    loss, the rows are no more than that. *)
Theorem positions_are_delivered_or_told policy a (ops : list (Bus Uuid St * Work)) b w t c f p :
  tx_open t = true → serves b a w → attends a b ops → active a !! c = Some f → pos w !! c = Some p →
  ∃ fs w' p', turns policy a w t ops = Returns (w', sent t fs, Continue) ∧ pos w' !! c = Some p' ∧
    Ring.resume_epoch p' = Ring.resume_epoch p ∧ Ring.resume_seq p + told c fs ≤ Ring.resume_seq p' ∧
    (push_enabled f = true → Ring.resume_seq p' = Ring.resume_seq p + told c fs).
Proof.
  intros Ht Hs Ha Hf Hp. destruct (turns_steps policy a ops b w t Ht Hs Ha) as (fs&w'&Hr&Hst&_).
  destruct (steps_told _ _ _ _ _ _ _ Hst Hf Hp) as (p'&?&?&?&?). by exists fs, w', p'.
Qed.

(** (served end to end) a drain catches every subscription up. Whatever a connection had
    missed, one drain leaves each channel its policy still admits, and that retains anything
    at all, at the newest position the channel has assigned. *)
Theorem drain_catches_up policy b a w t :
  tx_open t = true → serves b a w →
  ∃ fs w', drain_all policy b a w t = Returns (w', sent t fs, Continue) ∧
    ∀ c st, is_Some (active a !! c) → Access.allows_channel_access policy c = true →
      store_at b c = Some st → 0 < kept st →
      ∃ p, pos w' !! c = Some p ∧ Ring.resume_seq p = high_water st.
Proof.
  intros Ht Hs. destruct (do_work_turns policy b a w t Drain Ht Hs I) as (fs&w'&(Hr&_)&Hcu).
  exists fs, w'. split; [done|]. intros c st Hc Hal Hst Hk. by apply (Hcu eq_refl c Hc Hal st Hst Hk).
Qed.

(** (subscribe) an admitted subscribe opens one span at both ends. The server answers it,
    sends the replay, if any, as one pass, and is left serving the channel; the attacher that
    asked takes the answer and the replay, and the two agree on this span as on every other. *)
Theorem subscribe_opens_a_span prof policy b a w t r f echoed e st (s : Subs.Subscriptions) :
  tx_open t = true → serves b a w → in_span a w s → asked s (req_channel r) → admitted prof a r f echoed →
  resolve (directory b) (req_channel r) = Some e → stores b !! uuid e = Some st → store_ok st →
  ∃ b' w' fs s', handle_subscribe prof policy b a w t r =
      Returns (b', activate a (req_channel r) f, w', sent t fs, Continue) ∧
    serves b' (activate a (req_channel r) f) w' ∧
    receives s fs = Some s' ∧ in_span (activate a (req_channel r) f) w' s'.
Proof.
  intros Ht Hs Hin Hask Had He Hst Hok. rewrite (handle_subscribe_admitted _ _ _ _ _ _ _ _ _ _ Had He).
  destruct (open_subscription_opens prof policy b e a w t (req_channel r) f echoed st Ht Hst Hok)
    as (w'&n&gap&rows&Hr&Ho).
  destruct (opening_accepted a s w _ f st _ _ _ _ _ n Hin Hask Ho) as (s'&?&?).
  eexists _, w', _, s'. split_and!; [exact Hr| |done|done].
  eapply serves_opened; try done. apply Had.
Qed.

(** C22: (resume) a resumed subscription misses nothing in silence. A cursor this server
    minted for the channel, at whatever position, comes back readable; an answer with no gap
    is followed by exactly the positions after it, up to the newest, each with the message
    the channel holds there; an answer that says
    beyond-retained is one where some were evicted; and epoch-changed is said only when the
    channel was numbered anew or had never assigned the position. *)
Theorem resume_is_exact_or_says_so prof policy b a w t r f inc q e st :
  tx_open t = true → admitted prof a r f (Some (mkCursorState inc (req_channel r) q)) →
  resolve (directory b) (req_channel r) = Some e → stores b !! uuid e = Some st → store_ok st →
  Access.allows_channel_access policy (req_channel r) = true → (inc ≤ incarnation w)%Z →
  ∃ b' w' n gap rows, handle_subscribe prof policy b a w t r =
      Returns (b', activate a (req_channel r) f, w', sent t (opening_frames (req_channel r) n gap rows), Continue) ∧
    match gap with
    | None =>
        Ring.resume_epoch q = store_epoch st ∧ Ring.resume_seq q + len rows = high_water st ∧
        Forall2 (λ x row, row_cursor row = mint (incarnation w) (req_channel r) (Ring.mkResume (store_epoch st) x) ∧
                          message_at st x = Some (row_envelope row))
          (run (Ring.resume_seq q + 1) (length rows)) rows
    | Some g =>
        match reason g with
        | BeyondRetained => Ring.resume_epoch q = store_epoch st ∧ Ring.resume_seq q + len rows < high_water st
        | EpochChanged => Ring.resume_epoch q ≠ store_epoch st ∨ high_water st < Ring.resume_seq q
        end
    end.
Proof.
  intros Ht Had He Hst Hok Hal Hinc. rewrite (handle_subscribe_admitted _ _ _ _ _ _ _ _ _ _ Had He).
  destruct (open_subscription_opens prof policy b e a w t (req_channel r) f
    (Some (mkCursorState inc (req_channel r) q)) st Ht Hst Hok) as (w'&n&gap&rows&Hr&[Hcont (anchor&_&Hrows&Htold)]).
  eexists _, w', n, gap, rows. split; [exact Hr|]. simpl in Htold.
  destruct (Z.ltb_spec (incarnation w) inc) as [?|_]; [lia|]. specialize (Htold Hal). unfold resume_told in Htold.
  destruct gap as [g|]; [tauto|]. destruct Htold as (Hep&->&Hsum). split_and!; [done|done|].
  destruct Hrows as [[-> _]|[Hd _]]; [constructor|]. pose proof (dl_cursors _ _ _ _ _ _ _ _ Hd) as Hcur.
  replace (high_water st + 1 - len rows) with (Ring.resume_seq q + 1) in * by lia.
  by apply (Forall2_and_fmap _ row_cursor (λ x, mint _ _ (Ring.mkResume _ x))).
Qed.

(** (deprovision) a drain after the channel left the directory unwinds. The subscription
    is still active and its position anchored, but the drain names its store by address. *)
Theorem drain_of_a_removed_channel_unwinds policy b a w t c e :
  DirectoryRun.dir_wf (directory b) → serves b a w → is_Some (active a !! c) → resolve (directory b) c = Some e →
  let gone := mkBus (remove_channel (directory b) (uuid e)).1 (stores b) in
  ∃ why, drain_channel policy gone a w t c = Panics why.
Proof.
  intros Hwf Hs [f Hf] He gone. destruct (Hs c f Hf) as (st&p&n&_&_&Hp&_).
  unfold drain_channel, pos_of, facts. rewrite Hp, Hf. cbn [rust_expect mbind panics_bind].
  assert (resolve (directory gone) c = None) as Hnone.
  { apply (DirectoryRun.resolve_spec _ _ _ Hwf) in He as [He Haddr]. unfold gone, remove_channel, resolve. simpl.
    rewrite He. simpl. rewrite Haddr, lookup_delete_eq. done. }
  unfold store_for_address. rewrite Hnone. by eexists.
Qed.
End props.

(** *** Witnesses: channels numbered by [N], kept in rings *)

Fixpoint bits (p : positive) : string :=
  match p with xH => EmptyString | xO p => String Ascii.zero (bits p) | xI p => String Ascii.one (bits p) end.
Fixpoint unbits (s : string) : positive :=
  match s with EmptyString => xH | String a s => if Ascii.eqb a Ascii.zero then xO (unbits s) else xI (unbits s) end.

Lemma unbits_bits p : unbits (bits p) = p.
Proof. induction p; simpl; congruence. Qed.

#[local] Instance Wire_eq_dec : EqDecision (Wire N).
Proof. solve_decision. Defined.
#[local] Instance Wire_countable : Countable (Wire N) :=
  inj_countable' (λ v, (w_incarnation v, w_channel v, w_epoch v, w_seq v))
    (λ x, mkWire x.1.1.1 x.1.1.2 x.1.2 x.2) ltac:(by intros []).
Lemma N_decode_encode (v : Wire N) : countable.decode (unbits (bits (countable.encode v))) = Some v.
Proof. by rewrite unbits_bits, countable.decode_encode. Qed.

#[local] Instance N_codec : CursorCodec N := {|
  encode v := bits (countable.encode v);
  decode x := countable.decode (unbits x);
  decode_encode := N_decode_encode;
|}.

Definition demo_env (x : N) : MessageEnvelope N N :=
  mkEnvelope x "src" "brenn:alerts/door" "app:a" 0 "hello" None None None None Normal Brenn.
Definition demo_ring (n : nat) : Ring.RetainedRing (MessageEnvelope N N) N :=
  foldl (λ r x, (Ring.append r (demo_env x)).1) (Ring.new 7 2) (run 1 n).
Definition demo_entry : ChannelEntry N := mkChannel 9 "brenn:alerts/door" None (mkResolved (Bounded 2) (Bounded 2) Silent default_send_rate) [] Brenn None.
Definition demo_bus (n : nat) : Bus N (Ring.RetainedRing (MessageEnvelope N N) N) :=
  mkBus (with_entries [demo_entry]) {[9 := demo_ring n]}.
Definition demo_facts : SubscriptionFacts := mkFacts 2 2.
Definition demo_active : ActiveChannels := activate (active_new ∅) "brenn:alerts/door" demo_facts.
Definition demo_cursors : WireCursors N := start_span (cursors_new 3) "brenn:alerts/door" 7 1.
Definition demo_writer : Writer N N := mkWriter true [] 0.
Definition demo_sub : Subs.ChannelSubscription :=
  Subs.mkSub 1 (Subs.mkDepths 2 2) Subs.Resume Subs.Active None None true false None.
Definition demo_subs : Subs.Subscriptions := Subs.mkSubs {["brenn:alerts/door"%string := demo_sub]} true.
Definition demo_policy : Access.AppPolicy := AccessProps.demo_policy.

Lemma demo_ring_ok n :
  (n ≤ 5)%nat → store_ok (M := MessageEnvelope N N) (Uuid := N) (demo_ring n).
Proof.
  intros Hn. unfold demo_ring. cbn [store_ok ring_laws].
  do 6 (destruct n as [|n]; [split; [repeat (apply Ring.append_wf; [|by vm_compute]); apply Ring.new_wf|by vm_compute]|]).
  lia.
Qed.

Lemma demo_active_only c f : active demo_active !! c = Some f → c = "brenn:alerts/door"%string ∧ f = demo_facts.
Proof. unfold demo_active. simpl. rewrite lookup_insert_Some, lookup_empty. naive_solver. Qed.

Lemma demo_serves n : (1 ≤ n ≤ 5)%nat → serves (demo_bus n) demo_active demo_cursors.
Proof.
  intros Hn c f [-> ->]%demo_active_only. exists (demo_ring n), (Ring.mkResume 7 1), 0.
  split_and!; try done; [by apply demo_ring_ok; lia| | |by left].
  - by do 6 (destruct n as [|n]; [vm_compute; done|]); lia.
  - do 6 (destruct n as [|n]; [first [lia|vm_compute; done]|]); lia.
Qed.

Lemma demo_in_span : in_span demo_active demo_cursors demo_subs.
Proof.
  intros c [f [-> ->]%demo_active_only]. by exists demo_sub, 0, (Ring.mkResume 7 1).
Qed.

(** Four more messages arrive, the second of them pushed, before a drain. *)
Definition demo_turns : list (Bus N (Ring.RetainedRing (MessageEnvelope N N) N) * Work) :=
  [(demo_bus 2, Pushes [PushLive (mkLive (demo_env 2) 2)]); (demo_bus 5, Drain)].

Lemma demo_follows n m : (1 ≤ n ≤ m)%nat → (m ≤ 5)%nat → follows demo_active (demo_bus n) (demo_bus m).
Proof.
  intros Hn Hm c st [f [-> ->]%demo_active_only] [= <-]. exists (demo_ring m).
  split_and!; [done|by apply demo_ring_ok| |];
    do 6 (destruct m as [|m]; [do 6 (destruct n as [|n]; [first [lia|vm_compute; done]|]); lia|]); lia.
Qed.

Lemma demo_attends : attends demo_active (demo_bus 1) demo_turns.
Proof.
  split; [by apply demo_follows; lia|]. split; [|by split; [apply demo_follows; lia|]].
  intros d [[= ->]|?%not_elem_of_nil]%elem_of_cons; [|done]. intros st [= <-]. by vm_compute.
Qed.

Lemma attacher_accepts_every_delivery_witness :
  ∃ fs w' s', turns demo_policy demo_active demo_cursors demo_writer demo_turns = Returns (w', sent demo_writer fs, Continue) ∧
    receives demo_subs fs = Some s' ∧ in_span demo_active w' s' ∧ serves (final_bus (demo_bus 1) demo_turns) demo_active w'.
Proof.
  apply (attacher_accepts_every_delivery demo_policy demo_active demo_turns (demo_bus 1) demo_cursors demo_writer demo_subs).
  - reflexivity.
  - apply demo_serves. lia.
  - apply demo_attends.
  - apply demo_in_span.
Defined.

Lemma positions_are_delivered_or_told_witness :
  ∃ fs w' p', turns demo_policy demo_active demo_cursors demo_writer demo_turns = Returns (w', sent demo_writer fs, Continue) ∧
    pos w' !! "brenn:alerts/door"%string = Some p' ∧ Ring.resume_epoch p' = 7 ∧
    1 + told "brenn:alerts/door" fs ≤ Ring.resume_seq p' ∧
    (push_enabled demo_facts = true → Ring.resume_seq p' = 1 + told "brenn:alerts/door" fs).
Proof.
  apply (positions_are_delivered_or_told demo_policy demo_active demo_turns (demo_bus 1) demo_cursors demo_writer
    "brenn:alerts/door" demo_facts (Ring.mkResume 7 1)).
  - reflexivity.
  - apply demo_serves. lia.
  - apply demo_attends.
  - reflexivity.
  - reflexivity.
Defined.

(** The run itself: one row live, then two of the three missed, the loss on the first. *)
Example demo_turns_frames :
  match turns demo_policy demo_active demo_cursors demo_writer demo_turns with
  | Returns (_, t, _) =>
      (λ f, match f with Deliver _ rows => (λ r, (message_id (row_envelope r), row_seq r, row_dropped r)) <$> rows | _ => [] end)
      <$> tx_sent t
  | Panics _ => []
  end = [[(2, 1, 0)]; [(4, 2, 1); (5, 3, 0)]].
Proof. vm_compute. reflexivity. Qed.

Lemma drain_catches_up_witness :
  ∃ fs w', drain_all demo_policy (demo_bus 5) demo_active demo_cursors demo_writer = Returns (w', sent demo_writer fs, Continue) ∧
    ∀ c st, is_Some (active demo_active !! c) → Access.allows_channel_access demo_policy c = true →
      store_at (demo_bus 5) c = Some st → 0 < kept (M := MessageEnvelope N N) (Uuid := N) st →
      ∃ p, pos w' !! c = Some p ∧ Ring.resume_seq p = high_water (M := MessageEnvelope N N) (Uuid := N) st.
Proof.
  apply (drain_catches_up demo_policy (demo_bus 5) demo_active demo_cursors demo_writer).
  - reflexivity.
  - apply demo_serves. lia.
Defined.

(** A second connection of the same attacher, subscribing anew from position 4. *)
Definition demo_profile : AttachProfile :=
  mkProfile "app:a" (λ _, Some demo_facts) 4 8 (λ _, None).
Definition demo_request (k : option Cursor) : SubscribeRequest := mkRequest "brenn:alerts/door" 2 2 k.
Definition demo_asking : Subs.Subscriptions :=
  Subs.mkSubs {["brenn:alerts/door"%string :=
    Subs.mkSub 1 (Subs.mkDepths 2 2) Subs.Resume Subs.Pending None None false false
      (Some (Subs.mkDepths 2 2, Subs.Resume))]} true.

Lemma demo_admitted :
  admitted (Uuid := N) demo_profile (active_new ∅)
    (demo_request (Some (mint 3 "brenn:alerts/door" (Ring.mkResume 7 4)))) demo_facts
    (Some (mkCursorState 3 "brenn:alerts/door" (Ring.mkResume 7 4))).
Proof. split; [by exists demo_facts|done|done|by left|done]. Qed.

Lemma subscribe_opens_a_span_witness :
  ∃ b' w' fs s', handle_subscribe demo_profile demo_policy (demo_bus 5) (active_new ∅) (cursors_new 3) demo_writer
      (demo_request (Some (mint 3 "brenn:alerts/door" (Ring.mkResume 7 4)))) =
      Returns (b', activate (active_new ∅) "brenn:alerts/door" demo_facts, w', sent demo_writer fs, Continue) ∧
    serves b' (activate (active_new ∅) "brenn:alerts/door" demo_facts) w' ∧
    receives demo_asking fs = Some s' ∧ in_span (activate (active_new ∅) "brenn:alerts/door" demo_facts) w' s'.
Proof.
  apply (subscribe_opens_a_span demo_profile demo_policy (demo_bus 5) (active_new ∅) (cursors_new 3) demo_writer
    (demo_request (Some (mint 3 "brenn:alerts/door" (Ring.mkResume 7 4)))) demo_facts
    (Some (mkCursorState 3 "brenn:alerts/door" (Ring.mkResume 7 4))) demo_entry (demo_ring 5) demo_asking).
  - reflexivity.
  - intros c f Hf. simpl in Hf. by rewrite lookup_empty in Hf.
  - intros c [f Hf]. simpl in Hf. by rewrite lookup_empty in Hf.
  - by eexists.
  - apply demo_admitted.
  - reflexivity.
  - reflexivity.
  - apply demo_ring_ok. lia.
Defined.

Lemma resume_is_exact_or_says_so_witness :
  ∃ b' w' n gap rows, handle_subscribe demo_profile demo_policy (demo_bus 5) (active_new ∅) (cursors_new 3) demo_writer
      (demo_request (Some (mint 3 "brenn:alerts/door" (Ring.mkResume 7 4)))) =
      Returns (b', activate (active_new ∅) "brenn:alerts/door" demo_facts, w',
               sent demo_writer (opening_frames "brenn:alerts/door" n gap rows), Continue) ∧
    (gap = None → len rows = 1).
Proof.
  destruct (resume_is_exact_or_says_so demo_profile demo_policy (demo_bus 5) (active_new ∅) (cursors_new 3) demo_writer
    (demo_request (Some (mint 3 "brenn:alerts/door" (Ring.mkResume 7 4)))) demo_facts 3 (Ring.mkResume 7 4)
    demo_entry (demo_ring 5)) as (b'&w'&n&gap&rows&Hr&Hgap).
  - reflexivity.
  - apply demo_admitted.
  - reflexivity.
  - reflexivity.
  - apply demo_ring_ok. lia.
  - vm_compute. reflexivity.
  - simpl. lia.
  - exists b', w', n, gap, rows. split; [exact Hr|]. intros ->. destruct Hgap as (_&Hlen&_).
    change (4 + len rows = 5) in Hlen. lia.
Defined.

(** And the answer has no gap. *)
Example demo_resume_frames :
  match handle_subscribe demo_profile demo_policy (demo_bus 5) (active_new ∅) (cursors_new 3) demo_writer
      (demo_request (Some (mint 3 "brenn:alerts/door" (Ring.mkResume 7 4)))) with
  | Returns (_, _, _, t, _) =>
      (λ f, match f with
            | Deliver _ rows => Some ((λ r, message_id (row_envelope r)) <$> rows)
            | SubscribeResult _ SubscribeOk _ None => Some []
            | _ => None
            end) <$> tx_sent t
  | Panics _ => []
  end = [Some []; Some [5]].
Proof. vm_compute. reflexivity. Qed.

Lemma drain_of_a_removed_channel_unwinds_witness :
  ∃ why, drain_channel demo_policy (mkBus (remove_channel (directory (demo_bus 5)) 9).1 (stores (demo_bus 5)))
    demo_active demo_cursors demo_writer "brenn:alerts/door" = Panics why.
Proof.
  apply (drain_of_a_removed_channel_unwinds demo_policy (demo_bus 5) demo_active demo_cursors demo_writer
    "brenn:alerts/door" demo_entry).
  - apply DirectoryRun.push_entry_wf; [apply DirectoryRun.new_dir_wf|done|done|constructor].
  - apply demo_serves. lia.
  - by eexists.
  - reflexivity.
Defined.
End ServeProps.
