(* ===== verification/Registry.v ===== *)
(** * The session registry ([attach/server/src/registry.rs]) and a route's use of it
    ([brenn-server/src/routes/surface.rs])

    Which sessions an attacher has attached, and which still owe work after they left. The
    mailbox and the close signal a handle shares with its session's task are kept in a store
    of their own, by session id. [Sessions] is the life of a session as a step relation: a
    route registers it, gives it up or takes a drain ticket, the session detaches, and the
    route finishes; steps of different sessions interleave freely, each under the registry's
    lock. *)

From S2P Require Import Prelude Envelope Proto Serve.

#[local] Open Scope N_scope.
#[local] Open Scope list_scope.

Module Registry.
Import Serve.

(** [PUSH_QUEUE_FRAMES]. *)
Definition PUSH_QUEUE_FRAMES : N := 256.

(** [CloseReason]. *)
Record CloseReason := mkReason { code : N; detail : string }.

(** [CloseReason::new]. *)
Definition reason_new (code : N) (detail : string) : panics CloseReason :=
  _ ← rust_assert (N.of_nat (String.length detail) <=? 123) "reason text over the websocket close-reason limit";
  Returns (mkReason code detail).

(** [SessionCaps]. *)
Record SessionCaps := mkCaps { per_attacher : N; per_account : N }.

(** [RegisterRejection]. *)
Inductive RegisterRejection := AttacherFull (current : N) | AccountCapExceeded (account_current : N).

Section registry.
Context {Uuid DateTime : Type} `{Countable Uuid}.

(** [AttachSessionHandle], less what it shares with the session's task. *)
Record AttachSessionHandle := mkHandle { session_id : Uuid; account : string }.

(** The task's end of a handle: the push queue, whether the task still reads it, and the
    close signal. *)
Record Mailbox := mkMailbox {
  push_queue : list (SessionPush Uuid DateTime);
  push_open : bool;
  close : option CloseReason;
}.

(** [AttachRegistry]. *)
Record AttachRegistry := mkRegistry {
  inner : gmap string (list AttachSessionHandle);
  draining : gmap string N;
  mailboxes : gmap Uuid Mailbox;
}.
Implicit Types (r : AttachRegistry) (h : AttachSessionHandle) (a : string).

(** [AttachRegistry::default]. *)
Definition registry_default : AttachRegistry := mkRegistry ∅ ∅ ∅.

(** [mpsc::Sender::try_send]. *)
Definition try_send (m : Mailbox) (p : SessionPush Uuid DateTime) : Mailbox * bool :=
  if push_open m && (len (push_queue m) <? PUSH_QUEUE_FRAMES)
  then (mkMailbox (push_queue m ++ [p]) (push_open m) (close m), true)
  else (m, false).

Definition account_count (hs : list AttachSessionHandle) (acc : string) : N :=
  len (filter (λ h, account h = acc) hs).

(** [AttachRegistry::try_register]; the guard is the pair it unregisters by. *)
Definition try_register r a h (m : Mailbox) (caps : SessionCaps)
    : AttachRegistry * result (string * Uuid) RegisterRejection :=
  let hs := default [] (inner r !! a) in
  let account_current := account_count hs (account h) in
  if per_account caps <=? account_current then (r, Err (AccountCapExceeded account_current))
  else
    let current := len hs in
    if per_attacher caps <=? current then (r, Err (AttacherFull current))
    else (mkRegistry (<[a := hs ++ [h]]> (inner r)) (draining r) (<[session_id h := m]> (mailboxes r)),
          Ok (a, session_id h)).

(** [AttachRegistry::sessions]. *)
Definition sessions r a : list AttachSessionHandle := default [] (inner r !! a).

(** [AttachSessionHandle::try_push_deferred_view]. *)
Definition try_push_deferred_view r h (v : DeferredViewPush Uuid) : AttachRegistry * bool :=
  match mailboxes r !! session_id h with
  | Some m =>
      let '(m, took) := try_send m (PushView v) in
      (mkRegistry (inner r) (draining r) (<[session_id h := m]> (mailboxes r)), took)
  | None => (r, false)
  end.

(** [AttachRegistry::push_deferred_view]. *)
Definition push_deferred_view r a (v : DeferredViewPush Uuid) : AttachRegistry :=
  foldl (λ r h, (try_push_deferred_view r h v).1) r (sessions r a).

(** One [close.send] of [close_all]. *)
Definition close_one (reason : CloseReason) r h : AttachRegistry :=
  match mailboxes r !! session_id h with
  | Some m =>
      mkRegistry (inner r) (draining r)
        (<[session_id h := mkMailbox (push_queue m) (push_open m) (Some reason)]> (mailboxes r))
  | None => r
  end.

(** [AttachRegistry::close_all]. *)
Definition close_all r a (reason : CloseReason) : AttachRegistry * N :=
  let hs := sessions r a in (foldl (close_one reason) r hs, len hs).

(** [AttachRegistry::count]. *)
Definition count r a : N := match inner r !! a with Some hs => len hs | None => 0 end.

(** [AttachRegistry::is_quiet]. The two locks are taken one after the other, so the second
    read may find a later registry than the first. *)
Definition is_quiet r r_later a : bool :=
  if negb (count r a =? 0) then false else default 0 (draining r_later !! a) =? 0.

(** [AttachRegistry::drain_ticket]. *)
Definition drain_ticket r a : AttachRegistry :=
  mkRegistry (inner r) (<[a := u64_add (default 0 (draining r !! a)) 1]> (draining r)) (mailboxes r).

(** [AttachDrainTicket::drop]. *)
Definition ticket_drop r a : AttachRegistry :=
  match draining r !! a with
  | None => r
  | Some n =>
      let n := u64_sub n 1 in
      mkRegistry (inner r) (if n =? 0 then delete a (draining r) else <[a := n]> (draining r)) (mailboxes r)
  end.

(** [AttachSessionGuard::unregister_returning_remaining]. *)
Definition unregister_returning_remaining r a (sid : Uuid) : AttachRegistry * N :=
  match inner r !! a with
  | Some hs =>
      let hs := filter (λ h, session_id h ≠ sid) hs in
      (mkRegistry (match hs with [] => delete a (inner r) | _ => <[a := hs]> (inner r) end)
         (draining r) (mailboxes r), len hs)
  | None => (r, 0)
  end.

(** [AttachSessionGuard::drop]. *)
Definition guard_drop r a (sid : Uuid) : AttachRegistry := (unregister_returning_remaining r a sid).1.
End registry.
Arguments AttachSessionHandle : clear implicits.
Arguments Mailbox : clear implicits.
Arguments AttachRegistry Uuid DateTime {_ _}.
End Registry.

(** ** The life of a session *)
Module Sessions.
Import Serve Registry.

(** Where a session's route has got to: a slot held, a ticket taken beside it, the slot
    released with the terminal action still owed, and done; or the slot given up before the
    session ran. *)
Inductive Phase := Registered | Ticketed | Detached | Finished | Abandoned.
#[export] Instance Phase_eq_dec : EqDecision Phase.
Proof. solve_decision. Defined.

Definition attached (p : Phase) : bool := match p with Registered | Ticketed => true | _ => false end.
Definition owes (p : Phase) : bool := match p with Ticketed | Detached => true | _ => false end.

Record Life := mkLife { life_attacher : string; life_account : string; phase : Phase }.
Definition in_phase (l : Life) (p : Phase) : Life := mkLife (life_attacher l) (life_account l) p.

(** What a step tells: whose it was, and for a detach, whether the session was told it was
    the last. *)
Inductive Label :=
| LRegister (a : string)
| LAbandon (a : string)
| LDetach (a : string) (last_detach : bool)
| LOther.

Section sessions.
Context {Uuid DateTime : Type} `{Countable Uuid} (caps : string → SessionCaps).

Record World := mkWorld { reg : AttachRegistry Uuid DateTime; lives : gmap Uuid Life }.
Implicit Types (w : World) (r : AttachRegistry Uuid DateTime) (sid : Uuid) (l : Life) (a : string).

(** The steps of [surface_ws_handler] on the registry, and of the planes that reach it. *)
Inductive step w : Label → World → Prop :=
| step_register a h m r g :
    lives w !! session_id h = None → try_register (reg w) a h m (caps a) = (r, Ok g) →
    step w (LRegister a) (mkWorld r (<[session_id h := mkLife a (account h) Registered]> (lives w)))
| step_refused a h m r e :
    try_register (reg w) a h m (caps a) = (r, Err e) → step w LOther (mkWorld r (lives w))
| step_abandon sid l :
    lives w !! sid = Some l → phase l = Registered →
    step w (LAbandon (life_attacher l))
      (mkWorld (guard_drop (reg w) (life_attacher l) sid) (<[sid := in_phase l Abandoned]> (lives w)))
| step_ticket sid l :
    lives w !! sid = Some l → phase l = Registered → default 0 (draining (reg w) !! life_attacher l) < u64_max →
    step w LOther (mkWorld (drain_ticket (reg w) (life_attacher l)) (<[sid := in_phase l Ticketed]> (lives w)))
| step_detach sid l r n :
    lives w !! sid = Some l → phase l = Ticketed →
    unregister_returning_remaining (reg w) (life_attacher l) sid = (r, n) →
    step w (LDetach (life_attacher l) (n =? 0)) (mkWorld r (<[sid := in_phase l Detached]> (lives w)))
| step_guard_drop sid l :
    lives w !! sid = Some l → phase l = Detached →
    step w LOther (mkWorld (guard_drop (reg w) (life_attacher l) sid) (lives w))
| step_finish sid l :
    lives w !! sid = Some l → phase l = Detached →
    step w LOther (mkWorld (ticket_drop (reg w) (life_attacher l)) (<[sid := in_phase l Finished]> (lives w)))
| step_view a v : step w LOther (mkWorld (push_deferred_view (reg w) a v) (lives w))
| step_close a reason : step w LOther (mkWorld (close_all (reg w) a reason).1 (lives w)).

Inductive steps : World → list Label → World → Prop :=
| steps_refl w : steps w [] w
| steps_cons w x w' xs w'' : step w x w' → steps w' xs w'' → steps w (x :: xs) w''.

Definition start : World := mkWorld registry_default ∅.

(** *** The invariant *)

Definition owing (m : gmap Uuid Life) a : nat :=
  size (filter (λ kl : Uuid * Life, life_attacher kl.2 = a ∧ owes (phase kl.2) = true) m).

Definition owes_one l a : nat := if decide (life_attacher l = a) then if owes (phase l) then 1 else 0 else 0.

Lemma owing_fresh m k l a : m !! k = None → owing (<[k := l]> m) a = (owes_one l a + owing m a)%nat.
Proof.
  intros Hk. unfold owing. destruct (decide (life_attacher l = a ∧ owes (phase l) = true)) as [[Hl Ho]|Hl].
  - rewrite map_filter_insert_True by done. rewrite map_size_insert_None; [|apply map_lookup_filter_None; by left].
    unfold owes_one. by rewrite decide_True, Ho.
  - rewrite map_filter_insert_False by done. rewrite delete_id by done. unfold owes_one.
    case_decide; [|done]. destruct (owes (phase l)); [|done]. by destruct Hl.
Qed.

Lemma owing_update m k l l' a :
  m !! k = Some l → (owing (<[k := l']> m) a + owes_one l a = owing m a + owes_one l' a)%nat.
Proof.
  intros Hk. rewrite <-(insert_delete_id m k l Hk) at 2. rewrite <-insert_delete_eq.
  rewrite !owing_fresh by apply lookup_delete_eq. lia.
Qed.

(** The slots say what the sessions' lives say: one per attached session, within the caps,
    and never an empty list. *)
Record slots_ok r (m : gmap Uuid Life) : Prop := mkSlots {
  sl_slots a h : h ∈ sessions r a ↔
    ∃ p, m !! session_id h = Some (mkLife a (account h) p) ∧ attached p = true;
  sl_nodup a : NoDup (session_id <$> sessions r a);
  sl_empty a : inner r !! a ≠ Some [];
  sl_total a : len (sessions r a) ≤ per_attacher (caps a);
  sl_account a acc : account_count (sessions r a) acc ≤ per_account (caps a);
}.

(** And the ticket counts: one per session that owes work. *)
Record tickets_ok r (m : gmap Uuid Life) : Prop := mkTickets {
  tk_count a : default 0 (draining r !! a) = N.of_nat (owing m a);
  tk_zero a : draining r !! a ≠ Some 0;
}.

Definition ok w : Prop := slots_ok (reg w) (lives w) ∧ tickets_ok (reg w) (lives w).

Lemma sessions_unregister r a sid a' :
  sessions (unregister_returning_remaining r a sid).1 a' =
  if decide (a' = a) then filter (λ h, session_id h ≠ sid) (sessions r a) else sessions r a'.
Proof.
  unfold sessions, unregister_returning_remaining. destruct (inner r !! a) as [hs|] eqn:Ha; simpl.
  - destruct (filter _ hs) as [|h hs'] eqn:Hf; simpl; case_decide; subst;
      by rewrite ?lookup_delete_eq, ?lookup_insert_eq, ?lookup_delete_ne, ?lookup_insert_ne, ?Ha by done.
  - case_decide; subst; by rewrite ?Ha.
Qed.

Lemma unregister_remaining r a sid :
  (unregister_returning_remaining r a sid).2 = len (sessions (unregister_returning_remaining r a sid).1 a).
Proof.
  rewrite sessions_unregister, decide_True by done. unfold sessions, unregister_returning_remaining.
  by destruct (inner r !! a).
Qed.

Lemma unregister_draining r a sid : draining (unregister_returning_remaining r a sid).1 = draining r.
Proof. unfold unregister_returning_remaining. by destruct (inner r !! a). Qed.

Lemma unregister_never_empty r a sid a' :
  inner r !! a' ≠ Some [] → inner (unregister_returning_remaining r a sid).1 !! a' ≠ Some [].
Proof.
  intros Hne. unfold unregister_returning_remaining. destruct (inner r !! a) as [hs|]; [|done]. simpl.
  destruct (filter _ hs); [by rewrite lookup_delete_Some; intros [_ ?]|].
  rewrite lookup_insert_Some. intros [[_ ?]|[_ ?]]; done.
Qed.

Lemma account_count_filter (P : AttachSessionHandle Uuid → Prop) `{∀ h, Decision (P h)} hs acc :
  account_count (filter P hs) acc ≤ account_count hs acc.
Proof.
  unfold account_count, len. induction hs as [|h hs IH]; [done|]. rewrite !filter_cons.
  destruct (decide (P h)); rewrite ?filter_cons; destruct (decide (account h = acc)); simpl; lia.
Qed.

Lemma NoDup_fmap_filter {A B} (f : A → B) (P : A → Prop) `{∀ x, Decision (P x)} (l : list A) :
  NoDup (f <$> l) → NoDup (f <$> filter P l).
Proof.
  intros Hn. eapply sublist_NoDup; [exact Hn|]. apply fmap_sublist, sublist_filter.
Qed.

(** A slot released: its session is attached no longer, whatever it becomes. *)
Lemma slots_unregister r m sid l l' :
  slots_ok r m → m !! sid = Some l → attached (phase l') = false →
  slots_ok (unregister_returning_remaining r (life_attacher l) sid).1 (<[sid := l']> m).
Proof.
  intros [Hs Hn He Ht Hacc] Hl Hl'. split.
  - intros a h. rewrite sessions_unregister. case_decide as Ha.
    + subst. rewrite list_elem_of_filter, Hs. split.
      * intros (Hne&p&Hp&Hat). exists p. by rewrite lookup_insert_ne.
      * intros (p&Hp&Hat). rewrite lookup_insert_Some in Hp. destruct Hp as [[_ ->]|[Hne Hp]]; [by simpl in Hl'; congruence|].
        split; [done|]. by exists p.
    + rewrite Hs. split; intros (p&Hp&Hat); exists p; (split; [|done]).
      * rewrite lookup_insert_ne; [done|]. intros ->. rewrite Hl in Hp. injection Hp as ->. done.
      * rewrite lookup_insert_Some in Hp. destruct Hp as [[_ ->]|[_ Hp]]; [by simpl in Hl'; congruence|done].
  - intros a. rewrite sessions_unregister. case_decide; [by apply NoDup_fmap_filter|done].
  - intros a. by apply unregister_never_empty.
  - intros a. rewrite sessions_unregister. case_decide as Ha; [|done]. subst.
    etrans; [apply len_filter_le|done].
  - intros a acc. rewrite sessions_unregister. case_decide as Ha; [|done]. subst.
    etrans; [apply account_count_filter|apply Hacc].
Qed.

Lemma sessions_register r a h m c r' g a' :
  try_register r a h m c = (r', Ok g) →
  draining r' = draining r ∧ inner r' = <[a := sessions r a ++ [h]]> (inner r) ∧
  sessions r' a' = (if decide (a' = a) then sessions r a ++ [h] else sessions r a') ∧
  len (sessions r a) < per_attacher c ∧ account_count (sessions r a) (account h) < per_account c.
Proof.
  unfold try_register, sessions. repeat case_bool; try done. intros [= <- <-]. simpl.
  split_and!; try done. case_decide; subst; by rewrite ?lookup_insert_eq, ?lookup_insert_ne by done.
Qed.

Lemma slots_register r m a h b r' g :
  slots_ok r m → m !! session_id h = None → try_register r a h b (caps a) = (r', Ok g) →
  slots_ok r' (<[session_id h := mkLife a (account h) Registered]> m).
Proof.
  intros [Hs Hn He Ht Hacc] Hm Hr.
  pose proof (λ a', sessions_register r a h b (caps a) r' g a' Hr) as Hreg.
  assert (Hnew : ∀ a' x, x ∈ sessions r a' → session_id x ≠ session_id h).
  { intros a' x (p&Hp&_)%Hs Heq. rewrite Heq in Hp. congruence. }
  split.
  - intros a' x. destruct (Hreg a') as (_&_&->&_). case_decide as Ha; subst.
    + rewrite elem_of_app, list_elem_of_singleton, Hs. split.
      * intros [(p&Hp&Hat)| ->]; [|exists Registered; by rewrite lookup_insert_eq].
        exists p. split; [|done]. rewrite lookup_insert_ne; [done|]. intros Heq. rewrite Heq in Hm. congruence.
      * intros (p&Hp&Hat). apply lookup_insert_Some in Hp as [[Heq Hp]|[_ Hp]]; [|left; by exists p].
        right. destruct x, h. simpl in *. injection Hp as -> _. by subst.
    + rewrite Hs. split; intros (p&Hp&Hat); exists p; (split; [|done]).
      * rewrite lookup_insert_ne; [done|]. intros Heq. rewrite Heq in Hm. congruence.
      * apply lookup_insert_Some in Hp as [[_ Hp]|[_ Hp]]; [by injection Hp as ->|done].
  - intros a'. destruct (Hreg a') as (_&_&->&_). case_decide; subst; [|done].
    rewrite fmap_app. apply NoDup_app. split_and!; [done| |apply NoDup_singleton].
    intros k (x&->&Hx)%list_elem_of_fmap Hin. apply list_elem_of_singleton in Hin. by apply (Hnew _ _ Hx).
  - intros a'. destruct (Hreg a') as (_&->&_). rewrite lookup_insert_Some. intros [[_ Hx]|[_ Hx]]; [|by apply He in Hx].
    by destruct (sessions r a).
  - intros a'. destruct (Hreg a') as (_&_&->&Hlt&_). case_decide; subst; [|done].
    rewrite len_app, len_cons, len_nil. lia.
  - intros a' acc. destruct (Hreg a') as (_&_&->&_&Hlt). case_decide; subst; [|done].
    unfold account_count in *. rewrite filter_app, len_app, filter_cons. case_decide as Hx; subst;
      rewrite ?len_cons, filter_nil, len_nil; [lia|]. rewrite N.add_0_r. apply Hacc.
Qed.

(** A session that stays attached, or stays detached, moves no slot. *)
Lemma slots_same r m sid l p :
  slots_ok r m → m !! sid = Some l → attached p = attached (phase l) → slots_ok r (<[sid := in_phase l p]> m).
Proof.
  intros [Hs Hn He Ht Hacc] Hl Hp. split; try done. intros a h. rewrite Hs.
  destruct (decide (sid = session_id h)) as [->|Hne]; [|by rewrite lookup_insert_ne].
  rewrite lookup_insert_eq, Hl. destruct l as [la lacc lp]. unfold in_phase in *. simpl in *.
  split; intros (q&[= -> -> <-]&Hq); eexists; (split; [done|]); congruence.
Qed.

Lemma slots_frame r r' m : inner r' = inner r → slots_ok r m → slots_ok r' m.
Proof. intros Hi [Hs Hn He Ht Hacc]. unfold sessions in *. split; intros; unfold sessions; rewrite Hi; eauto. Qed.

Lemma tickets_frame r r' m : draining r' = draining r → tickets_ok r m → tickets_ok r' m.
Proof. intros Hd [Hc Hz]. by split; intros; rewrite Hd. Qed.

Lemma push_deferred_view_frame r a v :
  inner (push_deferred_view r a v) = inner r ∧ draining (push_deferred_view r a v) = draining r.
Proof.
  unfold push_deferred_view. generalize (sessions r a). intros hs. revert r.
  induction hs as [|h hs IH]; intros r; [done|]. simpl. destruct (IH (try_push_deferred_view r h v).1) as [-> ->].
  unfold try_push_deferred_view. destruct (mailboxes r !! session_id h) as [b|]; [|done]. by destruct (try_send b _).
Qed.

Lemma close_all_frame r a reason :
  inner (close_all r a reason).1 = inner r ∧ draining (close_all r a reason).1 = draining r.
Proof.
  unfold close_all. simpl. generalize (sessions r a). intros hs. revert r.
  induction hs as [|h hs IH]; intros r; [done|]. simpl. destruct (IH (close_one reason r h)) as [-> ->].
  unfold close_one. by destruct (mailboxes r !! session_id h).
Qed.

(** Tickets follow what a session owes. *)
Lemma tickets_same r m sid l p :
  tickets_ok r m → m !! sid = Some l → owes p = owes (phase l) → tickets_ok r (<[sid := in_phase l p]> m).
Proof.
  intros [Hc Hz] Hl Hp. split; [|done]. intros a. rewrite Hc. f_equal.
  pose proof (owing_update m sid l (in_phase l p) a Hl) as Ho. unfold owes_one, in_phase in *. simpl in Ho.
  rewrite Hp in Ho. lia.
Qed.

Lemma tickets_new r m sid l : tickets_ok r m → m !! sid = None → owes (phase l) = false → tickets_ok r (<[sid := l]> m).
Proof.
  intros [Hc Hz] Hm Hp. split; [|done]. intros a. rewrite Hc, owing_fresh by done. unfold owes_one.
  rewrite Hp. by case_decide.
Qed.

Lemma tickets_take r m sid l :
  tickets_ok r m → m !! sid = Some l → phase l = Registered →
  default 0 (draining r !! life_attacher l) < u64_max →
  tickets_ok (drain_ticket r (life_attacher l)) (<[sid := in_phase l Ticketed]> m).
Proof.
  intros [Hc Hz] Hl Hp Hroom. split; intros a; simpl; rewrite ?lookup_insert_Some.
  - pose proof (owing_update m sid l (in_phase l Ticketed) a Hl) as Ho. unfold owes_one, in_phase in *. simpl in Ho.
    rewrite Hp in Ho. simpl in Ho. destruct (decide (life_attacher l = a)) as [<-|Hne].
    + rewrite lookup_insert_eq. simpl. rewrite u64_add_small by lia. rewrite Hc. lia.
    + rewrite lookup_insert_ne, Hc by done. f_equal. lia.
  - intros [[_ Hx]|[_ Hx]]; [|by apply Hz in Hx]. rewrite u64_add_small in Hx by lia. lia.
Qed.

Lemma tickets_drop r m sid l :
  tickets_ok r m → m !! sid = Some l → phase l = Detached →
  tickets_ok (ticket_drop r (life_attacher l)) (<[sid := in_phase l Finished]> m).
Proof.
  intros [Hc Hz] Hl Hp. unfold ticket_drop.
  assert (Hother : ∀ a, (owing (<[sid:=in_phase l Finished]> m) a + (if decide (life_attacher l = a) then 1 else 0) = owing m a)%nat).
  { intros a. pose proof (owing_update m sid l (in_phase l Finished) a Hl) as Ho. unfold owes_one, in_phase in *.
    simpl in Ho. rewrite Hp in Ho. simpl in Ho. destruct (decide (life_attacher l = a)); lia. }
  pose proof (Hother (life_attacher l)) as Hown. rewrite decide_True in Hown by done.
  pose proof (Hc (life_attacher l)) as Hcnt. destruct (draining r !! life_attacher l) as [n|] eqn:Hd; simpl in Hcnt; [|lia].
  rewrite u64_sub_small by lia. split; intros a; simpl.
  - specialize (Hother a). destruct (decide (life_attacher l = a)) as [<-|Hne].
    + destruct (N.eqb_spec (n - 1) 0); [rewrite lookup_delete_eq|rewrite lookup_insert_eq]; simpl; lia.
    + destruct (N.eqb_spec (n - 1) 0); [rewrite lookup_delete_ne by done|rewrite lookup_insert_ne by done]; rewrite Hc; f_equal; lia.
  - destruct (N.eqb_spec (n - 1) 0); [rewrite lookup_delete_Some; intros [_ Hx]; by apply Hz in Hx|].
    rewrite lookup_insert_Some. intros [[_ Hx]|[_ Hx]]; [lia|by apply Hz in Hx].
Qed.

Lemma guard_drop_gone r m a sid l :
  slots_ok r m → m !! sid = Some l → attached (phase l) = false → slots_ok (guard_drop r (life_attacher l) sid) m.
Proof. intros Hs Hl Ha. rewrite <-(insert_id m sid l) by done. by apply slots_unregister. Qed.

Lemma registry_start_ok : ok start.
Proof.
  split; split; unfold sessions; simpl.
  - intros a h. rewrite lookup_empty. simpl. split; [by intros ?%not_elem_of_nil|].
    intros (p&Hp&_). by rewrite lookup_empty in Hp.
  - intros a. rewrite lookup_empty. constructor.
  - intros a. by rewrite lookup_empty.
  - intros a. rewrite lookup_empty. simpl. rewrite len_nil. lia.
  - intros a acc. rewrite lookup_empty. unfold account_count. simpl. rewrite filter_nil, len_nil. lia.
  - intros a. by rewrite lookup_empty.
  - intros a. by rewrite lookup_empty.
Qed.

Lemma step_ok w x w' : ok w → step w x w' → ok w'.
Proof.
  intros [Hs Ht] Hst. destruct Hst as [a h b r g Hnew Hr|a h b r e Hr|sid l Hl Hp|sid l Hl Hp Hroom|sid l r n Hl Hp Hr
    |sid l Hl Hp|sid l Hl Hp|a v|a reason]; (split; simpl).
  - by eapply slots_register.
  - apply tickets_new; [|done|done]. by eapply tickets_frame; [apply (sessions_register _ _ _ _ _ _ _ a Hr)|].
  - revert Hr. unfold try_register. repeat case_bool; by intros [= <- _].
  - revert Hr. unfold try_register. repeat case_bool; by intros [= <- _].
  - by apply slots_unregister.
  - apply tickets_same; [|done|by rewrite Hp]. eapply tickets_frame; [apply unregister_draining|done].
  - apply slots_same; [by eapply slots_frame; [|exact Hs]|done|by rewrite Hp].
  - by apply tickets_take.
  - pose proof (slots_unregister _ _ sid l (in_phase l Detached) Hs Hl eq_refl) as Hx. by rewrite Hr in Hx.
  - apply tickets_same; [|done|by rewrite Hp]. eapply tickets_frame; [|exact Ht].
    pose proof (unregister_draining (reg w) (life_attacher l) sid) as Hx. by rewrite Hr in Hx.
  - apply (guard_drop_gone _ _ (life_attacher l)); [done|done|by rewrite Hp].
  - eapply tickets_frame; [apply unregister_draining|done].
  - apply slots_same; [|done|by rewrite Hp]. eapply slots_frame; [|exact Hs].
    unfold ticket_drop. by destruct (draining _ !! _).
  - by apply tickets_drop.
  - eapply slots_frame; [apply push_deferred_view_frame|done].
  - eapply tickets_frame; [apply push_deferred_view_frame|done].
  - eapply slots_frame; [apply close_all_frame|done].
  - eapply tickets_frame; [apply close_all_frame|done].
Qed.

Lemma steps_ok w xs w' : ok w → steps w xs w' → ok w'.
Proof. intros Hw Hst. induction Hst as [|w x w' xs w'' Hx _ IH]; [done|]. by eapply IH, step_ok. Qed.
End sessions.
Arguments World Uuid DateTime {_ _}.
End Sessions.

Module RegistryProps.
Import Serve Registry Sessions.

Section props.
Context {Uuid DateTime : Type} `{Countable Uuid} (caps : string → SessionCaps).
Implicit Types (w : World Uuid DateTime) (a : string) (xs : list Label).
Abbreviation steps := (steps caps).
Abbreviation step := (step caps).

(** (registry) the caps hold over every interleaving. Whatever sessions register, detach or
    are given up, in whatever order, an attacher never has more slots than its cap, no
    account more than its share of them, and an attacher with no session leaves no entry
    behind. *)
Theorem session_caps_hold xs w a acc :
  steps start xs w →
  len (sessions (reg w) a) ≤ per_attacher (caps a) ∧
  account_count (sessions (reg w) a) acc ≤ per_account (caps a) ∧
  (sessions (reg w) a = [] → inner (reg w) !! a = None).
Proof.
  intros Hst. destruct (steps_ok caps _ _ _ (registry_start_ok caps) Hst) as [[_ _ He Ht Hacc] _]. split_and!; [done|done|].
  unfold sessions. specialize (He a). destruct (inner (reg w) !! a) as [hs|]; [|done]. simpl. by intros ->.
Qed.

(** A session's life only goes forward. *)
Lemma step_forward w x w' sid l :
  step w x w' → lives w !! sid = Some l → attached (phase l) = false →
  ∃ p, lives w' !! sid = Some (in_phase l p) ∧ attached p = false.
Proof.
  intros Hst Hl Ha. assert (Hid : lives w !! sid = Some (in_phase l (phase l))) by (rewrite Hl; by destruct l).
  destruct Hst as [a h b r g Hnew Hr|a h b r e Hr|k l0 Hk Hp|k l0 Hk Hp Hroom|k l0 r n Hk Hp Hr
    |k l0 Hk Hp|k l0 Hk Hp|a v|a reason]; simpl; try by exists (phase l).
  - exists (phase l). rewrite lookup_insert_ne; [done|]. intros Heq. rewrite Heq in Hnew. congruence.
  - exists (phase l). rewrite lookup_insert_ne; [done|]. intros ->. simplify_eq. by rewrite Hp in Ha.
  - exists (phase l). rewrite lookup_insert_ne; [done|]. intros ->. simplify_eq. by rewrite Hp in Ha.
  - exists (phase l). rewrite lookup_insert_ne; [done|]. intros ->. simplify_eq. by rewrite Hp in Ha.
  - destruct (decide (k = sid)) as [->|Hne].
    + simplify_eq. exists Finished. by rewrite lookup_insert_eq.
    + exists (phase l). by rewrite lookup_insert_ne.
Qed.

Lemma steps_forward w xs w' sid l :
  steps w xs w' → lives w !! sid = Some l → attached (phase l) = false →
  ∃ p, lives w' !! sid = Some (in_phase l p) ∧ attached p = false.
Proof.
  intros Hst. revert l. induction Hst as [w|w x w1 xs w2 Hx _ IH]; intros l Hl Ha.
  - exists (phase l). rewrite Hl. by destruct l.
  - destruct (step_forward _ _ _ _ _ Hx Hl Ha) as (p&Hp&Hpa).
    destruct (IH _ Hp Hpa) as (q&Hq&Hqa). by exists q.
Qed.

Lemma owing_pos (m : gmap Uuid Life) sid l :
  m !! sid = Some l → owes (phase l) = true → (0 < owing m (life_attacher l))%nat.
Proof.
  intros Hl Ho. rewrite <-(insert_delete_id m sid l Hl), owing_fresh by apply lookup_delete_eq.
  unfold owes_one. rewrite decide_True, Ho by done. lia.
Qed.

Lemma attached_slot w sid l :
  ok caps w → lives w !! sid = Some l → attached (phase l) = true → sessions (reg w) (life_attacher l) ≠ [].
Proof.
  intros [Hs _] Hl Ha Hnil.
  assert (mkHandle sid (life_account l) ∈ sessions (reg w) (life_attacher l)) as Hin.
  { apply (sl_slots _ _ _ Hs). exists (phase l). simpl. rewrite Hl. by destruct l. }
  rewrite Hnil in Hin. by apply not_elem_of_nil in Hin.
Qed.

(** (registry) a quiet attacher owes nothing. The question reads the slots first and the
    tickets later, with any steps in between. When it answers quiet, every session the
    attacher had registered by the first read has run its terminal action by the second,
    or was given up before it ran; and an attacher all of whose sessions are done is quiet. *)
Theorem quiet_means_every_session_is_done xs ys w w' a :
  steps start xs w → steps w ys w' →
  (is_quiet (reg w) (reg w') a = true →
   ∀ sid l, lives w !! sid = Some l → life_attacher l = a →
     ∃ l', lives w' !! sid = Some l' ∧ (phase l' = Finished ∨ phase l' = Abandoned)) ∧
  ((∀ sid l, lives w !! sid = Some l → life_attacher l = a → phase l = Finished ∨ phase l = Abandoned) →
   is_quiet (reg w) (reg w) a = true).
Proof.
  intros Hst Hst'. pose proof (steps_ok caps _ _ _ (registry_start_ok caps) Hst) as [Hs Ht].
  destruct (steps_ok caps _ _ _ (conj Hs Ht) Hst') as [_ [Hc' _]]. unfold is_quiet, count. split.
  - intros Hq sid l Hl <-. destruct (negb _) eqn:Hn in Hq; [done|]. apply negb_false_iff, N.eqb_eq in Hn.
    assert (attached (phase l) = false) as Hat.
    { destruct (attached (phase l)) eqn:Hat; [|done]. destruct (attached_slot w sid l (conj Hs Ht) Hl Hat).
      unfold sessions. destruct (inner (reg w) !! life_attacher l); [by apply len_zero_nil|done]. }
    destruct (steps_forward _ _ _ _ _ Hst' Hl Hat) as (p&Hp&Hpa). exists (in_phase l p). split; [done|].
    apply N.eqb_eq in Hq. rewrite Hc' in Hq.
    destruct p; simpl; try done; [|by left|by right]. pose proof (owing_pos _ _ _ Hp eq_refl) as Hpos. simpl in Hpos. lia.
  - intros Hdone. destruct (inner (reg w) !! a) as [[|h hs]|] eqn:Ha; simpl.
    + by destruct (sl_empty _ _ _ Hs a).
    + assert (h ∈ sessions (reg w) a) as Hin by (unfold sessions; rewrite Ha; apply list_elem_of_here).
      apply (sl_slots _ _ _ Hs) in Hin as (p&Hp&Hat). destruct (Hdone _ _ Hp eq_refl) as [E|E]; simpl in E; by subst.
    + rewrite (tk_count _ _ Ht). apply N.eqb_eq. unfold owing.
      replace (filter _ (lives w)) with (∅ : gmap Uuid Life); [by rewrite map_size_empty|]. symmetry.
      apply map_empty. intros sid. apply map_lookup_filter_None. destruct (lives w !! sid) as [l|] eqn:Hl; [|by left].
      right. intros ? [= <-] [Hla Ho]. simpl in *. destruct (Hdone _ _ Hl Hla) as [E|E]; by rewrite E in Ho.
Qed.

(** How many sessions of an attacher were told they were its last. *)
Definition told_last a (x : Label) : bool :=
  match x with LDetach b true => bool_decide (b = a) | _ => false end.
Definition lasts a xs : N := len (filter (λ x, told_last a x = true) xs).

(** The labels that bring a session in, or let one go unseen. *)
Definition coming_or_given_up a (x : Label) : bool :=
  match x with LRegister b | LAbandon b => bool_decide (b = a) | _ => false end.

Lemma step_sessions w x w' a :
  ok caps w → step w x w' → coming_or_given_up a x = false →
  match x with
  | LDetach b last => if decide (b = a)
                      then sessions (reg w) a ≠ [] ∧ last = bool_decide (sessions (reg w') a = [])
                      else sessions (reg w') a = sessions (reg w) a
  | _ => sessions (reg w') a = sessions (reg w) a
  end.
Proof.
  intros [Hs Ht] Hst Hx. destruct Hst as [b h m r g Hnew Hr|b h m r e Hr|sid l Hl Hp|sid l Hl Hp Hroom|sid l r n Hl Hp Hr
    |sid l Hl Hp|sid l Hl Hp|b v|b reason]; simpl in *.
  - destruct (sessions_register _ _ _ _ _ _ _ a Hr) as (_&_&->&_). rewrite decide_False; [done|].
    intros ->. by rewrite bool_decide_eq_false in Hx.
  - revert Hr. unfold try_register. repeat case_bool; by intros [= <- _].
  - unfold guard_drop. rewrite sessions_unregister, decide_False; [done|]. intros ->. by rewrite bool_decide_eq_false in Hx.
  - done.
  - pose proof (sessions_unregister (reg w) (life_attacher l) sid a) as Hu. rewrite Hr in Hu. simpl in Hu.
    destruct (decide (life_attacher l = a)) as [<-|Hne]; [|by rewrite decide_False in Hu by congruence].
    pose proof (unregister_remaining (reg w) (life_attacher l) sid) as Hn. rewrite Hr in Hn. simpl in Hn. split.
    + apply (attached_slot w sid l (conj Hs Ht) Hl). by rewrite Hp.
    + rewrite Hn. destruct (sessions r (life_attacher l)); [done|]. rewrite len_cons.
      rewrite bool_decide_false by done. apply N.eqb_neq. lia.
  - unfold guard_drop. rewrite sessions_unregister. case_decide; [|done]. subst. apply filter_all, Forall_forall.
    intros h Hh Heq. apply (sl_slots _ _ _ Hs) in Hh as (p&Hpp&Hat). rewrite Heq, Hl in Hpp. injection Hpp as Hpp.
    rewrite Hpp in Hp. simpl in Hp. by rewrite Hp in Hat.
  - unfold sessions, ticket_drop. by destruct (draining _ !! _).
  - unfold sessions. by destruct (push_deferred_view_frame (reg w) b v) as [-> _].
  - destruct (close_all_frame (reg w) b reason) as [E _]. simpl in E. unfold sessions at 1. by rewrite E.
Qed.

(** While nobody comes, an empty attacher stays empty. *)
Lemma steps_empty w ys w' a :
  ok caps w → steps w ys w' → Forall (λ x, coming_or_given_up a x = false) ys →
  sessions (reg w) a = [] → sessions (reg w') a = [].
Proof.
  intros Hw Hst Hys. revert Hw. induction Hst as [w|w x w1 ys w2 Hx _ IH]; intros Hw E; [done|].
  apply Forall_cons in Hys as [Hcx Hys]. pose proof (step_sessions _ _ _ a Hw Hx Hcx) as Hss.
  apply IH; [done|by eapply step_ok|].
  destruct x as [b|b|b last|]; rewrite ?Hss; try done. destruct (decide (b = a)); [by destruct Hss|by rewrite Hss].
Qed.

(** (registry) exactly one session is told it was the last. While an attacher's sessions
    leave by detaching, in any order and however the other attachers' steps fall between,
    the one that empties the attacher is told so and no other is. *)
Theorem one_session_is_told_it_was_last xs ys w w' a :
  steps start xs w → steps w ys w' → Forall (λ x, coming_or_given_up a x = false) ys →
  sessions (reg w) a ≠ [] → lasts a ys = if bool_decide (sessions (reg w') a = []) then 1 else 0.
Proof.
  intros Hst. pose proof (steps_ok caps _ _ _ (registry_start_ok caps) Hst) as Hw. clear Hst xs. intros Hst Hys Hne.
  assert (Hgen : lasts a ys = if bool_decide (sessions (reg w) a = []) then 0
                              else if bool_decide (sessions (reg w') a = []) then 1 else 0).
  2: { by rewrite Hgen, (bool_decide_false (sessions (reg w) a = [])). }
  clear Hne. induction Hst as [w|w x w1 ys w2 Hx Hst IH]; [by destruct (bool_decide _)|].
  apply Forall_cons in Hys as [Hcx Hys]. pose proof (step_sessions _ _ _ a Hw Hx Hcx) as Hss.
  specialize (IH (step_ok caps _ _ _ Hw Hx) Hys). unfold lasts in *. rewrite filter_cons.
  destruct x as [b|b|b last|]; simpl in *; rewrite ?Hss in IH; try done.
  destruct (decide (b = a)) as [->|Hba].
  - destruct Hss as [Hne ->]. rewrite (bool_decide_false (sessions (reg w) a = [])) by done.
    destruct (bool_decide (sessions (reg w1) a = [])) eqn:E.
    + rewrite decide_True by by apply bool_decide_true. rewrite len_cons, IH.
      apply bool_decide_eq_true in E. rewrite (bool_decide_true (sessions (reg w2) a = [])); [done|].
      by eapply steps_empty; [eapply step_ok| | |].
    + rewrite decide_False by done. exact IH.
  - rewrite Hss in IH. rewrite decide_False; [exact IH|]. destruct last; [|done]. by rewrite bool_decide_eq_true.
Qed.

(** (registry) a view reaches every session of the attacher that has room, once, behind what
    it already holds, and no other session. *)
Theorem view_reaches_every_session_with_room xs w a v sid b :
  steps start xs w → mailboxes (reg w) !! sid = Some b →
  mailboxes (push_deferred_view (reg w) a v) !! sid =
  Some (if bool_decide (sid ∈ session_id <$> sessions (reg w) a) then (try_send b (PushView v)).1 else b).
Proof.
  intros Hst. pose proof (steps_ok caps _ _ _ (registry_start_ok caps) Hst) as [[_ Hn _ _ _] _]. specialize (Hn a).
  unfold push_deferred_view. revert Hn. generalize (sessions (reg w) a). intros hs. generalize (reg w).
  revert b. clear Hst. induction hs as [|h hs IH]; intros b r Hn Hb.
  { rewrite bool_decide_false; [done|]. apply not_elem_of_nil. }
  rewrite fmap_cons in Hn |- *. apply NoDup_cons in Hn as [Hh Hn]. simpl.
  destruct (decide (sid = session_id h)) as [->|Hne].
  - rewrite (IH (try_send b (PushView v)).1); [|done|].
    + rewrite bool_decide_false by done. rewrite bool_decide_true by apply list_elem_of_here. done.
    + unfold try_push_deferred_view. rewrite Hb. destruct (try_send b (PushView v)). simpl. apply lookup_insert_eq.
  - rewrite (IH b); [|done|].
    + by rewrite (bool_decide_ext (sid ∈ session_id h :: _) (sid ∈ session_id <$> hs)) by (rewrite elem_of_cons; tauto).
    + unfold try_push_deferred_view. destruct (mailboxes r !! session_id h) as [b'|]; [|done].
      destruct (try_send b' _). simpl. by rewrite lookup_insert_ne.
Qed.
End props.

(** *** Witnesses: an attacher of two sessions *)

Definition demo_caps (a : string) : SessionCaps := mkCaps 3 2.
Definition demo_box : Mailbox N N := mkMailbox [] true None.
Definition demo_handle (sid : N) : AttachSessionHandle N := mkHandle sid "ann".
Definition demo_life (p : Phase) : Life := mkLife "bar" "ann" p.

Definition demo_joined : list Label := [LRegister "bar"; LRegister "bar"; LOther; LOther].
Definition demo_left : list Label := [LDetach "bar" false; LDetach "bar" true].

Definition demo_two : World N N :=
  mkWorld (mkRegistry {["bar"%string := [demo_handle 1; demo_handle 2]]} {["bar"%string := 2]}
             {[1 := demo_box; 2 := demo_box]})
    {[1 := demo_life Ticketed; 2 := demo_life Ticketed]}.

Lemma demo_join : steps demo_caps start demo_joined demo_two.
Proof.
  eapply steps_cons; [eapply (step_register demo_caps _ "bar" (demo_handle 1) demo_box); reflexivity|].
  eapply steps_cons; [eapply (step_register demo_caps _ "bar" (demo_handle 2) demo_box); reflexivity|].
  eapply steps_cons; [apply (step_ticket demo_caps _ 1 (demo_life Registered)); reflexivity|].
  eapply steps_cons; [apply (step_ticket demo_caps _ 2 (demo_life Registered)); reflexivity|].
  apply steps_refl.
Qed.

(** The two sessions leave, the second with its mailbox read to the end. *)
Definition demo_none (one two : Phase) (n : N) : World N N :=
  mkWorld (mkRegistry ∅ (if n =? 0 then ∅ else {["bar"%string := n]}) {[1 := demo_box; 2 := demo_box]})
    {[1 := demo_life one; 2 := demo_life two]}.

Lemma demo_leave : steps demo_caps demo_two demo_left (demo_none Detached Detached 2).
Proof.
  eapply steps_cons; [eapply (step_detach demo_caps _ 1 (demo_life Ticketed) _ 1); reflexivity|].
  eapply steps_cons; [eapply (step_detach demo_caps _ 2 (demo_life Ticketed) _ 0); reflexivity|].
  apply steps_refl.
Qed.

Lemma demo_end : steps demo_caps (demo_none Detached Detached 2) [LOther; LOther] (demo_none Finished Finished 0).
Proof.
  eapply steps_cons; [apply (step_finish demo_caps _ 1 (demo_life Detached)); reflexivity|].
  eapply steps_cons; [apply (step_finish demo_caps _ 2 (demo_life Detached)); reflexivity|].
  apply steps_refl.
Qed.

Lemma steps_trans w xs w1 ys w2 : steps demo_caps w xs w1 → steps demo_caps w1 ys w2 → steps (Uuid := N) (DateTime := N) demo_caps w (xs ++ ys) w2.
Proof. intros Hs. induction Hs as [|w x w' xs w1 Hx _ IH]; intros Ht; [done|]. simpl. eapply steps_cons; eauto. Qed.

Lemma session_caps_hold_witness :
  len (sessions (reg demo_two) "bar") ≤ per_attacher (demo_caps "bar") ∧
  account_count (sessions (reg demo_two) "bar") "ann" ≤ per_account (demo_caps "bar") ∧
  (sessions (reg demo_two) "bar" = [] → inner (reg demo_two) !! "bar"%string = None).
Proof. apply (session_caps_hold demo_caps demo_joined demo_two "bar" "ann" demo_join). Defined.

Lemma quiet_means_every_session_is_done_witness :
  ∃ l', lives (demo_none Finished Finished 0) !! 1 = Some l' ∧ (phase l' = Finished ∨ phase l' = Abandoned).
Proof.
  destruct (quiet_means_every_session_is_done demo_caps (demo_joined ++ demo_left) [LOther; LOther]
    (demo_none Detached Detached 2) (demo_none Finished Finished 0) "bar") as [Hq _].
  - apply (steps_trans _ _ demo_two); [apply demo_join|apply demo_leave].
  - apply demo_end.
  - apply (Hq eq_refl 1 (demo_life Detached)); reflexivity.
Defined.

Lemma one_session_is_told_it_was_last_witness : lasts "bar" demo_left = 1.
Proof.
  apply (one_session_is_told_it_was_last demo_caps demo_joined demo_left demo_two (demo_none Detached Detached 2) "bar").
  - apply demo_join.
  - apply demo_leave.
  - by repeat constructor.
  - done.
Defined.

Lemma view_reaches_every_session_with_room_witness :
  mailboxes (push_deferred_view (reg demo_two) "bar" (mkViewPush "brenn:x" None [])) !! 1 =
  Some (mkMailbox [PushView (mkViewPush "brenn:x" None [])] true None).
Proof.
  apply (view_reaches_every_session_with_room demo_caps demo_joined demo_two "bar" (mkViewPush "brenn:x" None []) 1 demo_box
    demo_join). reflexivity.
Defined.

(** (registry) a slot given up swallows the last detach. A page whose build is stale holds a
    slot from its registration until the route gives it up. The attacher's only session
    detaching in between is told it was not the last, the drop that then empties the
    attacher tells nobody, and the terminal action is run by no one. *)
Theorem slot_given_up_swallows_the_last_detach :
  ∃ xs w, steps (Uuid := N) (DateTime := N) demo_caps start xs w ∧
    LDetach "bar" false ∈ xs ∧ sessions (reg w) "bar" = [] ∧ lasts "bar" xs = 0.
Proof.
  exists [LRegister "bar"; LOther; LRegister "bar"; LDetach "bar" false; LAbandon "bar"], (demo_none Detached Abandoned 1).
  split_and!; [|by do 3 right; left|done|done].
  eapply steps_cons; [eapply (step_register demo_caps _ "bar" (demo_handle 1) demo_box); reflexivity|].
  eapply steps_cons; [apply (step_ticket demo_caps _ 1 (demo_life Registered)); reflexivity|].
  eapply steps_cons; [eapply (step_register demo_caps _ "bar" (demo_handle 2) demo_box); reflexivity|].
  eapply steps_cons; [eapply (step_detach demo_caps _ 1 (demo_life Ticketed) _ 1); reflexivity|].
  eapply steps_cons; [apply (step_abandon demo_caps _ 2 (demo_life Registered)); reflexivity|].
  apply steps_refl.
Qed.
End RegistryProps.
