(* ===== verification/Session.v ===== *)
(** * The attachment server's publish plane, alert plane and frame dispatch
    ([attach/server/src/publish.rs], [session.rs]; the name gate of
    [brenn-lib/src/messaging/gates.rs])

    What an attacher may write and as whom, the atomic flush, the mirror of what it has
    parked, and the routing of each client frame to its plane. The bus a handler reaches is
    the class [Messenger]: the theorems hold of any, so they say what the handlers do and not
    what a bus would have to do for them. Subscribe and unsubscribe are [Serve], the shared
    mailboxes [Registry], the rate gates [TokenBucket]. *)

From S2P Require Import Prelude Envelope Ring Proto Budget Access TokenBucket Directory Subs Serve Registry.

#[local] Open Scope N_scope.
#[local] Open Scope list_scope.

(** ** What the plane asks of the bus *)

Module Plane.
Import Envelope.

(** [PublishResult]. *)
Inductive BusResult (Uuid : Type) :=
| ResOk (message_id : Uuid) (address : string) (remaining_budget : option N)
| ResBudgetExhausted
| ResUnknownChannel (address : string)
| ResMalformedAddress (address : string)
| ResMissingSender
| ResAclDenied (address : string)
| ResBodyTooLarge (length max : N)
| ResRateLimited
| ResDeferredQuotaExceeded (cap : N)
| ResImpetusUnauthorized.
Arguments ResOk {Uuid}.
Arguments ResBudgetExhausted {Uuid}.
Arguments ResUnknownChannel {Uuid}.
Arguments ResMalformedAddress {Uuid}.
Arguments ResMissingSender {Uuid}.
Arguments ResAclDenied {Uuid}.
Arguments ResBodyTooLarge {Uuid}.
Arguments ResRateLimited {Uuid}.
Arguments ResDeferredQuotaExceeded {Uuid}.
Arguments ResImpetusUnauthorized {Uuid}.

(** [AttachSendVerdict]. *)
Inductive AttachSendVerdict := SendAdmitted | SendDenied.

(** [MissingChannelPosture]. *)
Inductive MissingChannelPosture := MissingInvariant | MissingRace.

(** [DeferralOutcome]. *)
Inductive DeferralOutcome (DateTime : Type) :=
| DeferralApplied
| NotDeferred (deliver_after : option DateTime)
| WrongSender.
Arguments DeferralApplied {DateTime}.
Arguments NotDeferred {DateTime}.
Arguments WrongSender {DateTime}.

(** [DeferredMessage]. *)
Record DeferredMessage (Uuid DateTime : Type) := mkParked {
  parked_release_at : DateTime;
  parked_envelope : MessageEnvelope Uuid DateTime;
}.
Arguments mkParked {Uuid DateTime}.
Arguments parked_release_at {Uuid DateTime}.
Arguments parked_envelope {Uuid DateTime}.

(** [AttachBatchPublish]. *)
Record AttachBatchPublish (DateTime : Type) := mkBatchPublish {
  bp_channel : string;
  bp_body : string;
  bp_urgency : Urgency;
  bp_publish_ts_ns : Z;
  bp_deliver_after : option DateTime;
}.
Arguments mkBatchPublish {DateTime}.
Arguments bp_channel {DateTime}.
Arguments bp_body {DateTime}.
Arguments bp_urgency {DateTime}.
Arguments bp_publish_ts_ns {DateTime}.
Arguments bp_deliver_after {DateTime}.
End Plane.

(** The methods of [Messenger] a session calls; each may unwind on a broken invariant of the
    bus. *)
Class Messenger (B St Uuid DateTime : Type) `{Countable Uuid} := {
  publish_from_attacher :
    B → Directory.AttachScope → option string → string → string → Envelope.Urgency → panics (B * Plane.BusResult Uuid);
  draw_attach_send_budget_for_batch :
    B → Directory.AttachScope → option string → N → panics (B * Plane.AttachSendVerdict);
  cancel_deferred_for_sender :
    B → string → string → Uuid → DateTime → panics (B * Plane.DeferralOutcome DateTime);
  edit_deferred_for_sender :
    B → string → string → Uuid → option string → option DateTime → DateTime →
    panics (B * Plane.DeferralOutcome DateTime);
  publish_batch_from_attacher :
    B → Directory.AttachScope → option string → list (Plane.AttachBatchPublish DateTime) →
    Plane.MissingChannelPosture → panics (B * N);
  deferred_view_for_sender : B → string → string → panics (list (Plane.DeferredMessage Uuid DateTime));
  record_deferred_control_race : B → string → string → B;
  dispatch_kick : B → B;
  served : B → Serve.Bus Uuid St;
  with_served : B → Serve.Bus Uuid St → B;
}.

(** [chrono]'s order on instants, and [char::escape_debug] over a text's characters. *)
Class ChronoOrd (DateTime : Type) := later : DateTime → DateTime → bool.
Class EscapeDebug := escape_debug : string → list string.

Module Session.
Import Envelope Proto Serve Registry Plane.

(** [BODY_TOO_LARGE_VIOLATION_THRESHOLD]. *)
Definition BODY_TOO_LARGE_VIOLATION_THRESHOLD : N := 8.

(** [ALERT_BURST], and [ALERT_REFILL] in nanoseconds. *)
Definition ALERT_BURST : N := 5.
Definition ALERT_REFILL : N := 300 * 1000000000.

(** [PublishPosture]. *)
Inductive PublishPosture := Invariant | Diagnostic.

(** [DeferredTarget]. *)
Record DeferredTarget := mkTarget { target_channel : string; target_attribution : option string }.

(** [PublishRate]. *)
Record PublishRate := mkRate { burst : N; per_sec : N }.

(** The answers of an [AttachProfile] the publish and alert planes ask for. *)
Record PublishProfile := mkPublishProfile {
  subscriptions : AttachProfile;
  publishable : option string → string → bool;
  profile_admit : option string → option string;
  publish_posture : string → PublishPosture;
  attach_scope : Directory.AttachScope;
  missing_channel_posture : MissingChannelPosture;
  deferred_view_targets : list DeferredTarget;
  publish_rate : PublishRate;
  alert_granted : bool;
  attribution_may_alert : string → bool;
}.

(** [AttachSessionCtx], its plain fields; the session's id as it is displayed and as it is
    sent. *)
Record Ctx := mkCtx {
  profile : PublishProfile;
  policy : Access.AppPolicy;
  max_body_bytes : N;
  ctx_session_id : string;
  ctx_session_simple : string;
  ctx_account : string;
}.

(** [AttributionPublishCounters]. *)
Record AttributionPublishCounters := mkColumn { col_publishes : N; col_rate_limited : N }.

(** [SessionCounters]; the frames out are the writer's. *)
Record SessionCounters := mkCounters {
  frames_in : N;
  publishes : N;
  publish_rate_limited : N;
  publish_body_too_large : N;
  publish_body_cap_disagreement : N;
  alerts_dispatched : N;
  alerts_suppressed : N;
  by_attribution : gmap string AttributionPublishCounters;
}.

Definition counters_default : SessionCounters := mkCounters 0 0 0 0 0 0 0 ∅.

Definition column (c : SessionCounters) (name : string) : AttributionPublishCounters :=
  default (mkColumn 0 0) (by_attribution c !! name).

(** [SessionCounters::publish_ok]. *)
Definition count_publish_ok (attribution : option string) (c : SessionCounters) : SessionCounters :=
  mkCounters (frames_in c) (u64_add (publishes c) 1) (publish_rate_limited c) (publish_body_too_large c)
    (publish_body_cap_disagreement c) (alerts_dispatched c) (alerts_suppressed c)
    (match attribution with
     | None => by_attribution c
     | Some n => <[n := mkColumn (u64_add (col_publishes (column c n)) 1) (col_rate_limited (column c n))]> (by_attribution c)
     end).

(** [SessionCounters::publish_rate_limited]. *)
Definition count_rate_limited (attribution : option string) (c : SessionCounters) : SessionCounters :=
  mkCounters (frames_in c) (publishes c) (u64_add (publish_rate_limited c) 1) (publish_body_too_large c)
    (publish_body_cap_disagreement c) (alerts_dispatched c) (alerts_suppressed c)
    (match attribution with
     | None => by_attribution c
     | Some n => <[n := mkColumn (col_publishes (column c n)) (u64_add (col_rate_limited (column c n)) 1)]> (by_attribution c)
     end).

(** [counters.publish_body_too_large += 1]. *)
Definition count_too_large (c : SessionCounters) : SessionCounters :=
  mkCounters (frames_in c) (publishes c) (publish_rate_limited c) (u64_add (publish_body_too_large c) 1)
    (publish_body_cap_disagreement c) (alerts_dispatched c) (alerts_suppressed c) (by_attribution c).

(** [counters.publish_body_cap_disagreement += 1]. *)
Definition count_disagreement (c : SessionCounters) : SessionCounters :=
  mkCounters (frames_in c) (publishes c) (publish_rate_limited c) (publish_body_too_large c)
    (u64_add (publish_body_cap_disagreement c) 1) (alerts_dispatched c) (alerts_suppressed c) (by_attribution c).

(** [counters.alerts_suppressed += 1], [counters.alerts_dispatched += 1]. *)
Definition count_suppressed (c : SessionCounters) : SessionCounters :=
  mkCounters (frames_in c) (publishes c) (publish_rate_limited c) (publish_body_too_large c)
    (publish_body_cap_disagreement c) (alerts_dispatched c) (u64_add (alerts_suppressed c) 1) (by_attribution c).
Definition count_dispatched (c : SessionCounters) : SessionCounters :=
  mkCounters (frames_in c) (publishes c) (publish_rate_limited c) (publish_body_too_large c)
    (publish_body_cap_disagreement c) (u64_add (alerts_dispatched c) 1) (alerts_suppressed c) (by_attribution c).

(** One page handed to the alert dispatcher. *)
Record Page := mkPage { page_severity : AlertSeverity; page_title : string; page_body : string }.

(** [AttachScope::registry_key]. *)
Definition registry_key (s : Directory.AttachScope) : string :=
  match Directory.scope_kind s with
  | Directory.KindSurface => Directory.scope_slug s
  | Directory.KindRemote => "remote:" +:+ Directory.scope_slug s
  end.

(** [well_formed_name]. *)
Definition well_formed_name (addr : string) (scheme : ChannelScheme) : option string :=
  match strip_prefix (prefix scheme) addr with
  | None => None
  | Some name => if is_unreserved_name name then Some name else None
  end.

(** [TRUNCATION_MARKER]. *)
Definition TRUNCATION_MARKER : string := "…(truncated)".

(** The loop of [sanitize_untrusted_str]. *)
Fixpoint sanitize_chars (out : string) (cs : list string) (max_bytes : N) : string :=
  match cs with
  | [] => out
  | c :: cs =>
      if max_bytes <? N.of_nat (String.length (out +:+ c)) then out +:+ TRUNCATION_MARKER
      else sanitize_chars (out +:+ c) cs max_bytes
  end.

(** [sanitize_untrusted_str]. *)
Definition sanitize_untrusted_str `{EscapeDebug} (raw : string) (max_bytes : N) : string :=
  sanitize_chars EmptyString (escape_debug raw) max_bytes.

(** [Vec::dedup]. *)
Fixpoint dedup (l : list string) : list string :=
  match l with
  | x :: ((y :: _) as l') => if String.eqb x y then dedup l' else x :: dedup l'
  | l => l
  end.

Section plane.
Context {B St Uuid DateTime : Type} `{Countable Uuid} `{Chrono DateTime} `{ChronoOrd DateTime}.
Context `{!Messenger B St Uuid DateTime} `{EscapeDebug}.

(** What a handler reaches through its context. *)
Record World := mkWorld {
  bus : B;
  registry : AttachRegistry Uuid DateTime;
  tx : Writer Uuid DateTime;
  pages : list Page;
}.

Definition with_bus (w : World) (b : B) : World := mkWorld b (registry w) (tx w) (pages w).

(** [super::session::send_frame]. *)
Definition answer (w : World) (f : ServerFrame Uuid DateTime) : World * FrameOutcome :=
  let '(t, o) := send_frame (tx w) f in (mkWorld (bus w) (registry w) t (pages w), o).

(** [admit_attribution_or_violate]. *)
Definition admit_attribution_or_violate (x : Ctx) (attribution : option string) : result string FrameOutcome :=
  match profile_admit (profile x) attribution with
  | Some p => Ok p
  | None => Err (Violation UndeclaredAttribution)
  end.

(** [assert_publishable]. *)
Definition assert_publishable (x : Ctx) (attribution : option string) (channel : string)
    : panics (result unit FrameOutcome) :=
  if negb (publishable (profile x) attribution channel) then Returns (Err (Violation Unpublishable))
  else
    _ ← rust_assert (negb (is_local_channel channel)) "publishable channel is page-local";
    Returns (match (s ← scheme_of channel; well_formed_name channel s) with
             | Some _ => Ok ()
             | None => Err (Violation MalformedChannel)
             end).

(** [PublishRequest]. *)
Record PublishRequest := mkPublish {
  pub_channel : string;
  pub_attribution : option string;
  pub_body : string;
  pub_urgency : Urgency;
  pub_correlation : option N;
}.

(** The wire answer to the bus's own, and the counter it moves: step 5 of [handle_publish]. *)
Definition publish_outcome (posture : PublishPosture) (attribution : option string) (res : BusResult Uuid)
    (c : SessionCounters) : panics (SessionCounters * PublishOutcome) :=
  match res with
  | ResOk _ _ _ => Returns (count_publish_ok attribution c, PublishOk)
  | ResBodyTooLarge l m => Returns (count_disagreement c, BodyTooLarge l m)
  | ResMissingSender | ResAclDenied _ | ResUnknownChannel _ | ResMalformedAddress _
  | ResDeferredQuotaExceeded _ | ResImpetusUnauthorized =>
      match posture with
      | Diagnostic => Returns (c, Failed)
      | Invariant => Panics "publish rejected: a broken boot invariant"
      end
  | ResBudgetExhausted | ResRateLimited => Returns (count_rate_limited attribution c, RateLimited)
  end.

(** [handle_publish]. *)
Definition handle_publish (x : Ctx) (w : World) (bucket : Bucket.TokenBucket) (now : N) (r : PublishRequest)
    (c : SessionCounters) : panics (World * Bucket.TokenBucket * SessionCounters * FrameOutcome) :=
  match admit_attribution_or_violate x (pub_attribution r) with
  | Err v => Returns (w, bucket, c, v)
  | Ok _ =>
      ok ← assert_publishable x (pub_attribution r) (pub_channel r);
      match ok with
      | Err v => Returns (w, bucket, c, v)
      | Ok _ =>
          let size := N.of_nat (String.length (pub_body r)) in
          if max_body_bytes x <? size then
            let c := count_too_large c in
            if BODY_TOO_LARGE_VIOLATION_THRESHOLD <=? publish_body_too_large c
            then Returns (w, bucket, c, Violation PersistentOversized)
            else
              let '(w, o) := answer w (PublishResult (pub_correlation r) (BodyTooLarge size (max_body_bytes x))) in
              Returns (w, bucket, c, o)
          else
            drawn ← Bucket.try_consume bucket now;
            let '(bucket, granted) := drawn in
            match granted with
            | Bucket.Denied _ =>
                let c := count_rate_limited (pub_attribution r) c in
                let '(w, o) := answer w (PublishResult (pub_correlation r) RateLimited) in
                Returns (w, bucket, c, o)
            | _ =>
                done ← publish_from_attacher (bus w) (attach_scope (profile x)) (pub_attribution r) (pub_channel r)
                         (pub_body r) (pub_urgency r);
                let w := with_bus w done.1 in
                out ← publish_outcome (publish_posture (profile x) (pub_channel r)) (pub_attribution r) done.2 c;
                let '(c, outcome) := out in
                let '(w, o) := answer w (PublishResult (pub_correlation r) outcome) in
                Returns (w, bucket, c, o)
            end
      end
  end.

(** ** The parked-set mirror *)

(** [deferred_view_entries]. *)
Definition deferred_view_entries (parked : list (DeferredMessage Uuid DateTime)) : panics (list (DeferredViewEntry Uuid)) :=
  foldr (λ m acc,
    ms ← rust_expect (let z := timestamp_millis (parked_release_at m) in if (z <? 0)%Z then None else Some (Z.to_N z))
           "a parked release time is at or after the epoch";
    rest ← acc;
    Returns (mkViewEntry (message_id (parked_envelope m)) (body (parked_envelope m)) ms :: rest)) (Returns []) parked.

(** [parked_sender]. *)
Definition parked_sender (x : Ctx) (attribution : option string) : panics string :=
  rust_expect (profile_admit (profile x) attribution) "parked set for an attribution the profile does not declare".

(** [broadcast_deferred_view]. *)
Definition broadcast_deferred_view (x : Ctx) (w : World) (attribution : option string) (channel : string)
    : panics World :=
  sender ← parked_sender x attribution;
  parked ← deferred_view_for_sender (bus w) channel sender;
  entries ← deferred_view_entries parked;
  Returns (mkWorld (bus w)
             (push_deferred_view (registry w) (registry_key (attach_scope (profile x)))
                (mkViewPush channel attribution entries)) (tx w) (pages w)).

(** [emit_views]. *)
Definition emit_views (x : Ctx) (w : World) (attribution : option string) (channels : list string) : panics World :=
  foldl (λ acc channel, w ← acc; broadcast_deferred_view x w attribution channel) (Returns w)
    (dedup (merge_sort str_le channels)).

(** The loop of [seed_deferred_views]; the orphans it then reports are log lines. *)
Fixpoint seed_targets (x : Ctx) (w : World) (targets : list DeferredTarget) : panics (World * FrameOutcome) :=
  match targets with
  | [] => Returns (w, Continue)
  | d :: targets =>
      sender ← parked_sender x (target_attribution d);
      parked ← deferred_view_for_sender (bus w) (target_channel d) sender;
      entries ← deferred_view_entries parked;
      match entries with
      | [] => seed_targets x w targets
      | _ =>
          let '(w, o) := answer w (DeferredView (target_channel d) (target_attribution d) entries) in
          match o with
          | Disconnect => Returns (w, Disconnect)
          | _ => seed_targets x w targets
          end
      end
  end.

(** [seed_deferred_views]. *)
Definition seed_deferred_views (x : Ctx) (w : World) : panics (World * FrameOutcome) :=
  seed_targets x w (deferred_view_targets (profile x)).

(** ** The atomic flush *)

(** [PublishBatchRequest]. *)
Record PublishBatchRequest := mkBatch {
  batch_attribution : option string;
  batch_correlation : N;
  batch_publishes : list BatchEntry;
  batch_ops : list (BatchDeferredOp Uuid);
}.

(** [ResolvedBatchEntry]. *)
Record ResolvedBatchEntry := mkResolvedEntry {
  re_channel : string;
  re_body : string;
  re_urgency : Urgency;
  re_deliver_after : option DateTime;
}.

(** [ResolvedDeferredOp]. *)
Record ResolvedDeferredOp := mkResolvedOp {
  ro_channel : string;
  ro_message_id : Uuid;
  ro_edit : option (option string * option DateTime);
}.

(** [resolve_batch_entries]. *)
Fixpoint resolve_batch_entries (x : Ctx) (attribution : option string) (es : list BatchEntry) (flush_now : DateTime)
    : panics (result (list ResolvedBatchEntry) FrameOutcome) :=
  match es with
  | [] => Returns (Ok [])
  | e :: es =>
      ok ← assert_publishable x attribution (entry_channel e);
      match ok with
      | Err v => Returns (Err v)
      | Ok _ =>
          match (match entry_deliver_after e with
                 | None => Ok None
                 | Some ms =>
                     match utc_from_epoch_ms ms with
                     | None => Err (Violation UnrepresentableTime)
                     | Some t => Ok (if later t flush_now then Some t else None)
                     end
                 end) with
          | Err v => Returns (Err v)
          | Ok t =>
              rest ← resolve_batch_entries x attribution es flush_now;
              Returns (match rest with
                       | Err v => Err v
                       | Ok rest => Ok (mkResolvedEntry (entry_channel e) (entry_body e) (entry_urgency e) t :: rest)
                       end)
          end
      end
  end.

(** [resolve_deferred_ops]. *)
Fixpoint resolve_deferred_ops (x : Ctx) (attribution : option string) (os : list (BatchDeferredOp Uuid))
    : panics (result (list ResolvedDeferredOp) FrameOutcome) :=
  match os with
  | [] => Returns (Ok [])
  | o :: os =>
      ok ← assert_publishable x attribution (op_channel o);
      match ok with
      | Err v => Returns (Err v)
      | Ok _ =>
          match (match op_kind o with
                 | Cancel => Ok None
                 | Edit b None => Ok (Some (b, None))
                 | Edit b (Some ms) =>
                     match utc_from_epoch_ms ms with
                     | None => Err (Violation UnrepresentableTime)
                     | Some t => Ok (Some (b, Some t))
                     end
                 end) with
          | Err v => Returns (Err v)
          | Ok edit =>
              rest ← resolve_deferred_ops x attribution os;
              Returns (match rest with
                       | Err v => Err v
                       | Ok rest => Ok (mkResolvedOp (op_channel o) (op_message_id o) edit :: rest)
                       end)
          end
      end
  end.

(** [OpEffect]. *)
Inductive OpEffect := Applied | Raced.

(** [apply_deferred_op]. *)
Definition apply_deferred_op (w : World) (sender : string) (op : ResolvedDeferredOp) (now : DateTime)
    : panics (World * result OpEffect FrameOutcome) :=
  r ← match ro_edit op with
      | None => cancel_deferred_for_sender (bus w) (ro_channel op) sender (ro_message_id op) now
      | Some (b, release_at) =>
          edit_deferred_for_sender (bus w) (ro_channel op) sender (ro_message_id op) b release_at now
      end;
  let w := with_bus w r.1 in
  Returns (match r.2 with
           | DeferralApplied => (w, Ok Applied)
           | NotDeferred _ => (with_bus w (record_deferred_control_race (bus w) sender (ro_channel op)), Ok Raced)
           | WrongSender => (w, Err (Violation ForeignMessage))
           end).

(** The op loop of [handle_publish_batch]: the channels touched and whether any op applied,
    with the violation that ended it, if one did. *)
Fixpoint apply_ops (w : World) (sender : string) (ops : list ResolvedDeferredOp) (now : DateTime)
    (op_channels : list string) (applied_any : bool)
    : panics (World * list string * bool * option FrameOutcome) :=
  match ops with
  | [] => Returns (w, op_channels, applied_any, None)
  | op :: ops =>
      r ← apply_deferred_op w sender op now;
      let '(w, effect) := r in
      match effect with
      | Err v => Returns (w, op_channels, applied_any, Some v)
      | Ok e =>
          apply_ops w sender ops now (op_channels ++ [ro_channel op])
            (applied_any || match e with Applied => true | Raced => false end)
      end
  end.

Definition kick_if (applied_any : bool) (w : World) : World :=
  if applied_any then with_bus w (dispatch_kick (bus w)) else w.

(** The stamping pass: [max(prev + 1, now)], the clock read once per entry. *)
Fixpoint stamp (clock : list Z) (prev : option Z) (es : list ResolvedBatchEntry) : list (AttachBatchPublish DateTime) :=
  match es with
  | [] => []
  | e :: es =>
      let now_ns := default 0%Z (head clock) in
      let ts := match prev with None => now_ns | Some p => Z.max (p + 1) now_ns end in
      mkBatchPublish (re_channel e) (re_body e) (re_urgency e) ts (re_deliver_after e)
      :: stamp (tail clock) (Some ts) es
  end.

Definition body_bytes (es : list BatchEntry) : N :=
  foldr (λ e n, N.of_nat (String.length (entry_body e)) + n) 0 es.
Definition edit_bytes (os : list (BatchDeferredOp Uuid)) : N :=
  foldr (λ o n, match op_kind o with Edit (Some b) _ => N.of_nat (String.length b) | _ => 0 end + n) 0 os.

(** Step 2 of [handle_publish_batch]: the batch's shape. *)
Definition batch_shape (x : Ctx) (r : PublishBatchRequest) : option FrameOutcome :=
  match batch_publishes r, batch_ops r with
  | [], [] => Some (Violation EmptyBatch)
  | _, _ =>
      if Budget.MAX_PUBLISHES_PER_ACTIVATION <? len (batch_publishes r) then Some (Violation TooManyEntries)
      else if Budget.MAX_PUBLISHES_PER_ACTIVATION <? len (batch_ops r) then Some (Violation TooManyControlOps)
      else if Budget.MAX_PUBLISH_BYTES_PER_ACTIVATION <? body_bytes (batch_publishes r) + edit_bytes (batch_ops r)
      then Some (Violation TooManyBytes)
      else match check_batch_legality (batch_publishes r) (batch_ops r) (max_body_bytes x) with
           | Err _ => Some (Violation IllegalBatch)
           | Ok _ => None
           end
  end.

(** Steps 1 to 3 of [handle_publish_batch], which read and decide and change nothing. *)
Definition resolve_batch (x : Ctx) (r : PublishBatchRequest) (flush_now : DateTime)
    : panics (result (string * list ResolvedBatchEntry * list ResolvedDeferredOp) FrameOutcome) :=
  match admit_attribution_or_violate x (batch_attribution r) with
  | Err v => Returns (Err v)
  | Ok sender =>
      match batch_shape x r with
      | Some v => Returns (Err v)
      | None =>
          es ← resolve_batch_entries x (batch_attribution r) (batch_publishes r) flush_now;
          match es with
          | Err v => Returns (Err v)
          | Ok es =>
              os ← resolve_deferred_ops x (batch_attribution r) (batch_ops r);
              Returns (match os with
                       | Err v => Err v
                       | Ok os => Ok (sender, es, os)
                       end)
          end
      end
  end.

(** Steps 5 to 7: the ops, then the stamped publishes, then the views. *)
Definition apply_batch (x : Ctx) (w : World) (r : PublishBatchRequest) (sender : string)
    (es : list ResolvedBatchEntry) (os : list ResolvedDeferredOp) (flush_now : DateTime) (clock : list Z)
    (c : SessionCounters) : panics (World * SessionCounters * FrameOutcome) :=
  applied ← apply_ops w sender os flush_now [] false;
  let '(w, op_channels, applied_any, violation) := applied in
  let w := kick_if applied_any w in
  match violation with
  | Some v =>
      w ← emit_views x w (batch_attribution r) op_channels;
      Returns (w, c, v)
  | None =>
      let batch := stamp clock None es in
      done ← publish_batch_from_attacher (bus w) (attach_scope (profile x)) (batch_attribution r) batch
               (missing_channel_posture (profile x));
      let w := with_bus w done.1 in
      let c := N.iter (u64_sub (len batch) done.2) (count_publish_ok (batch_attribution r)) c in
      let touched := (re_channel <$> filter (λ e, is_Some (re_deliver_after e)) es) ++ op_channels in
      w ← emit_views x w (batch_attribution r) touched;
      let '(w, o) := answer w (PublishBatchResult (batch_correlation r) BatchOk) in
      Returns (w, c, o)
  end.

(** [handle_publish_batch]. *)
Definition handle_publish_batch (x : Ctx) (w : World) (r : PublishBatchRequest) (flush_now : DateTime) (clock : list Z)
    (c : SessionCounters) : panics (World * SessionCounters * FrameOutcome) :=
  resolved ← resolve_batch x r flush_now;
  match resolved with
  | Err v => Returns (w, c, v)
  | Ok (sender, es, os) =>
      draw ← rust_expect (let n := N.max (len es) 1 in if n <=? u32_max then Some n else None)
               "batch length is capped well below u32::MAX";
      drawn ← draw_attach_send_budget_for_batch (bus w) (attach_scope (profile x)) (batch_attribution r) draw;
      let w := with_bus w drawn.1 in
      match drawn.2 with
      | SendDenied =>
          let c := N.iter (len es) (count_rate_limited (batch_attribution r)) c in
          let '(w, o) := answer w (PublishBatchResult (batch_correlation r) BatchRateLimited) in
          Returns (w, c, o)
      | SendAdmitted => apply_batch x w r sender es os flush_now clock c
      end
  end.

(** ** Alerts ([handle_alert]) *)

Definition nl : string := String (Ascii.Ascii false true false true false false false false) EmptyString.

(** [handle_alert]. *)
Definition handle_alert (x : Ctx) (w : World) (bucket : Bucket.TokenBucket) (now : N) (c : SessionCounters)
    (attribution : option string) (severity : AlertSeverity) (title body : string)
    : panics (World * Bucket.TokenBucket * SessionCounters * FrameOutcome) :=
  if negb (alert_granted (profile x)) then Returns (w, bucket, c, Violation AlertUngranted)
  else
    match admit_attribution_or_violate x attribution with
    | Err v => Returns (w, bucket, c, v)
    | Ok principal =>
        if match attribution with Some i => negb (attribution_may_alert (profile x) i) | None => false end
        then Returns (w, bucket, c, Violation AlertUngranted)
        else if (MAX_ALERT_TITLE_BYTES <? N.of_nat (String.length title))
                || (MAX_ALERT_BODY_BYTES <? N.of_nat (String.length body))
        then Returns (w, bucket, c, Violation AlertOversized)
        else
          drawn ← Bucket.try_consume bucket now;
          let '(bucket, granted) := drawn in
          match granted with
          | Bucket.Denied _ => Returns (w, bucket, count_suppressed c, Continue)
          | _ =>
              let title := sanitize_untrusted_str title MAX_ALERT_TITLE_BYTES in
              let body := sanitize_untrusted_str body MAX_ALERT_BODY_BYTES in
              let page := mkPage severity ("Attacher " +:+ principal +:+ ": " +:+ title)
                            (body +:+ nl +:+ "attacher=" +:+ attacher (subscriptions (profile x)) +:+ " account="
                             +:+ ctx_account x +:+ " session=" +:+ ctx_session_id x) in
              Returns (mkWorld (bus w) (registry w) (tx w) (pages w ++ [page]), bucket, count_dispatched c, Continue)
          end
    end.

(** ** Dispatch ([session.rs]) *)

(** [SessionBuckets]. *)
Record SessionBuckets := mkBuckets {
  bucket_subscribe : Bucket.TokenBucket;
  bucket_publish : Bucket.TokenBucket;
  bucket_alert : Bucket.TokenBucket;
}.

(** [SessionBuckets::new]. *)
Definition buckets_new (p : PublishProfile) (now : N) : panics SessionBuckets :=
  s ← subscribe_bucket (subscriptions p) now;
  b ← Bucket.new (burst (publish_rate p)) 1000000000 (per_sec (publish_rate p)) now;
  a ← Bucket.new ALERT_BURST ALERT_REFILL 1 now;
  Returns (mkBuckets s b a).

(** [SessionState]. *)
Record SessionState := mkState {
  active : ActiveChannels;
  cursors : WireCursors Uuid;
  buckets : SessionBuckets;
  counters : SessionCounters;
}.

(** [SessionState::new]. *)
Definition state_new (p : PublishProfile) (active_channels : gset string) (store_incarnation : Z) (now : N)
    : panics SessionState :=
  b ← buckets_new p now;
  Returns (mkState (active_new active_channels) (cursors_new store_incarnation) b counters_default).

Definition count_frame_in (c : SessionCounters) : SessionCounters :=
  mkCounters (u64_add (frames_in c) 1) (publishes c) (publish_rate_limited c) (publish_body_too_large c)
    (publish_body_cap_disagreement c) (alerts_dispatched c) (alerts_suppressed c) (by_attribution c).

Context `{CursorCodec Uuid} `{!RetentionStore St (MessageEnvelope Uuid DateTime) Uuid}.
Context (parse_frame : string → option (ClientFrame Uuid)).

(** The clocks a frame's handling reads: the monotonic one, the wall clock of a flush, and
    its stamps. *)
Record Clock := mkClock { instant : N; wall : DateTime; stamps : list Z }.

Definition with_tx (w : World) (t : Writer Uuid DateTime) : World := mkWorld (bus w) (registry w) t (pages w).
Definition with_subscribe (s : SessionState) (b : Bucket.TokenBucket) : SessionState :=
  mkState (active s) (cursors s) (mkBuckets b (bucket_publish (buckets s)) (bucket_alert (buckets s))) (counters s).

(** [handle_client_frame]. *)
Definition handle_client_frame (x : Ctx) (w : World) (text : string) (s : SessionState) (k : Clock)
    : panics (World * SessionState * FrameOutcome) :=
  match parse_frame text with
  | None => Returns (w, s, Violation UnparseableFrame)
  | Some (ClientHello _ _) => Returns (w, s, Violation HelloAgain)
  | Some (Subscribe channel push_depth retain_depth resume) =>
      charged ← charge_subscribe_token (bucket_subscribe (buckets s)) (instant k);
      let s := with_subscribe s charged.1 in
      match charged.2 with
      | Err v => Returns (w, s, v)
      | Ok _ =>
          r ← handle_subscribe (subscriptions (profile x)) (policy x) (served (bus w)) (active s) (cursors s) (tx w)
                (mkRequest channel push_depth retain_depth resume);
          let '(b, a, cs, t, o) := r in
          Returns (mkWorld (with_served (bus w) b) (registry w) t (pages w),
                   mkState a cs (buckets s) (counters s), o)
      end
  | Some (Unsubscribe channel) =>
      charged ← charge_subscribe_token (bucket_subscribe (buckets s)) (instant k);
      let s := with_subscribe s charged.1 in
      match charged.2 with
      | Err v => Returns (w, s, v)
      | Ok _ =>
          let '(a, cs, o) := handle_unsubscribe (active s) (cursors s) channel in
          Returns (w, mkState a cs (buckets s) (counters s), o)
      end
  | Some (Publish channel attribution body urgency correlation) =>
      r ← handle_publish x w (bucket_publish (buckets s)) (instant k)
            (mkPublish channel attribution body urgency correlation) (counters s);
      let '(w, b, c, o) := r in
      Returns (w, mkState (active s) (cursors s)
                    (mkBuckets (bucket_subscribe (buckets s)) b (bucket_alert (buckets s))) c, o)
  | Some (PublishBatch attribution correlation es os) =>
      r ← handle_publish_batch x w (mkBatch attribution correlation es os) (wall k) (stamps k) (counters s);
      let '(w, c, o) := r in Returns (w, mkState (active s) (cursors s) (buckets s) c, o)
  | Some (Alert attribution severity title body) =>
      r ← handle_alert x w (bucket_alert (buckets s)) (instant k) (counters s) attribution severity title body;
      let '(w, b, c, o) := r in
      Returns (w, mkState (active s) (cursors s)
                    (mkBuckets (bucket_subscribe (buckets s)) (bucket_publish (buckets s)) b) c, o)
  end.

(** The text arm of [read_frames]. *)
Definition on_text (x : Ctx) (w : World) (text : string) (s : SessionState) (k : Clock)
    : panics (World * SessionState * FrameOutcome) :=
  handle_client_frame x w text (mkState (active s) (cursors s) (buckets s) (count_frame_in (counters s))) k.
End plane.
Arguments World B Uuid DateTime {_ _}.
Arguments SessionState Uuid : clear implicits.
Arguments Clock : clear implicits.
Arguments PublishBatchRequest : clear implicits.
Arguments ResolvedBatchEntry : clear implicits.
Arguments ResolvedDeferredOp : clear implicits.
End Session.
