(* ===== verification/Attach.v ===== *)
(** * The life of one attachment, server side ([attach/server/src/socket.rs], the session loop
    of [session.rs])

    [Socket] is the handshake and the writer task that owns the socket's sink; [Attachment]
    the opening, the read loop with its five wakers, and the teardown. What a peer sends is a
    sequence of socket reads, what wakes the loop a sequence of events, and each write of the
    writer task takes or does not by a reading of the sink; the theorems hold of all of
    them. *)

From S2P Require Import Prelude Envelope Ring Proto Access TokenBucket Directory Subs Serve Registry Session.

#[local] Open Scope N_scope.
#[local] Open Scope list_scope.

Module Socket.
Import Envelope Proto Serve Registry Session.

(** [HELLO_TIMEOUT], in nanoseconds. *)
Definition HELLO_TIMEOUT : N := 30 * 1000000000.

(** The websocket messages of [axum]. *)
Inductive Message := Text (text : string) | Binary | Ping | Pong | Close.

(** [InboundError], as [classify_read_error] tells it. *)
Inductive InboundError := Oversized | Transport.

(** What one [ws_stream.next()] yields; a stream that ended is [Ended]. *)
Inductive Inbound := Received (m : Message) | ReadError (e : InboundError) | Ended.

(** The rules a handshake can break. *)
Inductive HelloRule := NoHelloInTime | BinaryBeforeHello | OversizedBeforeHello | UnparseableHello | NotHello.

(** [Handshake]. *)
Inductive Handshake :=
| Agreed (version : N)
| Incompatible (peer : VersionRange)
| HelloViolation (rule : HelloRule)
| HelloDisconnect.

Section socket.
Context {Uuid DateTime : Type} (parse_frame : string → option (ClientFrame Uuid)).

(** [server_hello]. *)
Definition server_hello (ident : string) : ServerFrame Uuid DateTime := ServerHello SUPPORTED_VERSIONS ident.

(** [classify_hello]. *)
Definition classify_hello (text : string) : Handshake :=
  match parse_frame text with
  | None => HelloViolation UnparseableHello
  | Some (ClientHello versions _) =>
      match negotiate SUPPORTED_VERSIONS versions with
      | Some version => Agreed version
      | None => Incompatible versions
      end
  | Some _ => HelloViolation NotHello
  end.

(** [read_client_hello] over the reads to come, each with the time it arrives at after the
    upgrade; a read past the bound, or none, is the timeout. *)
Fixpoint read_client_hello (reads : list (N * Inbound)) (within : N) : Handshake :=
  match reads with
  | [] => HelloViolation NoHelloInTime
  | (at_ns, i) :: reads =>
      if within <? at_ns then HelloViolation NoHelloInTime
      else
        match i with
        | Received (Text text) => classify_hello text
        | Received (Ping | Pong) => read_client_hello reads within
        | Received Binary => HelloViolation BinaryBeforeHello
        | Received Close | Ended => HelloDisconnect
        | ReadError Oversized => HelloViolation OversizedBeforeHello
        | ReadError Transport => HelloDisconnect
        end
  end.

(** [welcome]. *)
Definition welcome (x : Ctx) (version heartbeat_secs : N) : panics (ServerFrame Uuid DateTime) :=
  cap ← max_client_frame_bytes (max_body_bytes x);
  Returns (Welcome version (attacher (subscriptions (profile x))) (ctx_session_simple x) heartbeat_secs
             (max_body_bytes x) cap (alert_granted (profile x))).

(** ** The writer task *)

(** What the task writes to the sink. *)
Inductive Written := WFrame (f : ServerFrame Uuid DateTime) | WPing | WClose (r : CloseReason).

(** The session's end of the close oneshot: held, used, or dropped unused. *)
Inductive CloseSlot := CloseHeld | CloseSent (r : CloseReason) | CloseDropped.

(** The task's variables, with the two channels it reads and how its next writes fare. *)
Record WriterTask := mkTask {
  rx : list (ServerFrame Uuid DateTime);
  rx_open : bool;
  close_rx : CloseSlot;
  wrote_frame_since_tick : bool;
  close_settled : bool;
  written : list Written;
  sink : list bool;
}.

(** What the session does to the task's channels, and the arm of the select that fires. *)
Inductive WriterEvent :=
| Enqueue (f : ServerFrame Uuid DateTime)
| SendClose (r : CloseReason)
| DropCloseSender
| DropSender
| RecvArm
| CloseArm
| TickArm.

(** [write_with_watchdog]: whether the write took. *)
Definition write_with_watchdog (t : WriterTask) (m : Written) : WriterTask * bool :=
  match sink t with
  | true :: s =>
      (mkTask (rx t) (rx_open t) (close_rx t) (wrote_frame_since_tick t) (close_settled t) (written t ++ [m]) s, true)
  | _ => (t, false)
  end.

Definition with_rx (t : WriterTask) (q : list (ServerFrame Uuid DateTime)) : WriterTask :=
  mkTask q (rx_open t) (close_rx t) (wrote_frame_since_tick t) (close_settled t) (written t) (sink t).
Definition with_wrote (t : WriterTask) (b : bool) : WriterTask :=
  mkTask (rx t) (rx_open t) (close_rx t) b (close_settled t) (written t) (sink t).

(** The flush of the close arm: every queued frame, or the write that failed. *)
Fixpoint flush_queue (q : list (ServerFrame Uuid DateTime)) (t : WriterTask) : WriterTask * bool :=
  match q with
  | [] => (with_rx t [], true)
  | f :: q =>
      let '(t, ok) := write_with_watchdog (with_rx t q) (WFrame f) in
      if (ok : bool) then flush_queue q t else (t, false)
  end.

(** [write_close]. *)
Definition write_close (t : WriterTask) (r : CloseReason) : WriterTask := (write_with_watchdog t (WClose r)).1.

(** One turn of [writer_task]: the task after it, and whether it goes on. An arm that is not
    ready does not fire. *)
Definition writer_step (t : WriterTask) (e : WriterEvent) : WriterTask * bool :=
  match e with
  | Enqueue f => (if rx_open t then with_rx t (rx t ++ [f]) else t, true)
  | SendClose r =>
      (match close_rx t with
       | CloseHeld => mkTask (rx t) (rx_open t) (CloseSent r) (wrote_frame_since_tick t) (close_settled t) (written t) (sink t)
       | _ => t
       end, true)
  | DropCloseSender =>
      (match close_rx t with
       | CloseHeld => mkTask (rx t) (rx_open t) CloseDropped (wrote_frame_since_tick t) (close_settled t) (written t) (sink t)
       | _ => t
       end, true)
  | DropSender =>
      (mkTask (rx t) false (close_rx t) (wrote_frame_since_tick t) (close_settled t) (written t) (sink t), true)
  | RecvArm =>
      match rx t with
      | f :: q =>
          let '(t, ok) := write_with_watchdog (with_rx t q) (WFrame f) in
          if (ok : bool) then (with_wrote t true, true) else (t, false)
      | [] =>
          if rx_open t then (t, true)
          else (match close_rx t with CloseSent r => write_close t r | _ => t end, false)
      end
  | CloseArm =>
      if close_settled t then (t, true)
      else
        match close_rx t with
        | CloseHeld => (t, true)
        | CloseDropped =>
            (mkTask (rx t) (rx_open t) (close_rx t) (wrote_frame_since_tick t) true (written t) (sink t), true)
        | CloseSent r =>
            let '(t, ok) := flush_queue (rx t) t in
            (if (ok : bool) then write_close t r else t, false)
        end
  | TickArm =>
      let '(t, ok) := write_with_watchdog t WPing in
      if negb ok then (t, false)
      else if wrote_frame_since_tick t then (with_wrote t false, true)
      else
        let '(t, ok) := write_with_watchdog t (WFrame Heartbeat) in
        if (ok : bool) then (with_wrote t false, true) else (t, false)
  end.

(** [writer_task], over the events of its life: an exited task takes no more. *)
Fixpoint writer_task (t : WriterTask) (es : list WriterEvent) : WriterTask * bool :=
  match es with
  | [] => (t, true)
  | e :: es => let '(t, on) := writer_step t e in if (on : bool) then writer_task t es else (t, false)
  end.

(** The task as it is spawned. *)
Definition task_new (sink : list bool) : WriterTask := mkTask [] true CloseHeld false false [] sink.
End socket.
Arguments WriterTask : clear implicits.
Arguments WriterEvent : clear implicits.
Arguments Written : clear implicits.
End Socket.

Module Attachment.
Import Envelope Proto Serve Registry Session Socket.

(** What a security event of an attachment names. *)
Inductive Breach := AtHello (rule : HelloRule) | InDispatch (rule : Rule) | BinaryFrame | OversizedFrame.

(** [Opening]. *)
Inductive Opening := Attached | Closed (violation : option Breach).

(** [ReadExit]. *)
Inductive ReadExit := Peer | ReadViolation (b : Breach) | HostClose (r : CloseReason).

(** [AttachSessionOutcome]. *)
Record AttachSessionOutcome := mkOutcome { last_detach : bool; violation : bool }.

Section attachment.
Context {B St Uuid DateTime : Type} `{Countable Uuid} `{Chrono DateTime} `{ChronoOrd DateTime}.
Context `{!Messenger B St Uuid DateTime} `{EscapeDebug} `{CursorCodec Uuid}.
Context `{!RetentionStore St (MessageEnvelope Uuid DateTime) Uuid}.
Context (parse_frame : string → option (ClientFrame Uuid)).

#[local] Abbreviation World := (Session.World B Uuid DateTime).
#[local] Abbreviation SessionState := (Session.SessionState Uuid).

(** [open_attachment]. *)
Definition open_attachment (x : Ctx) (w : World) (reads : list (N * Inbound)) (heartbeat_secs : N) (ident : string)
    : panics (World * Opening) :=
  let '(w, o) := answer w (server_hello ident) in
  match o with
  | Disconnect => Returns (w, Closed None)
  | _ =>
      match read_client_hello parse_frame reads HELLO_TIMEOUT with
      | Incompatible _ | HelloDisconnect => Returns (w, Closed None)
      | HelloViolation rule => Returns (w, Closed (Some (AtHello rule)))
      | Agreed version =>
          f ← welcome x version heartbeat_secs;
          let '(w, o) := answer w f in
          match o with
          | Continue =>
              seeded ← seed_deferred_views x w;
              let '(w, o) := seeded in
              Returns (w, match o with Continue => Attached | _ => Closed None end)
          | _ => Returns (w, Closed None)
          end
      end
  end.

(** What wakes the read loop: pushes taken from the queue, the drain nudge with what it found
    queued, a socket read with the instant it was handled by, the close signal, and the
    liveness tick. *)
Inductive Wake :=
| Pushed (pushes : list (SessionPush Uuid DateTime))
| Nudged (pushes : list (SessionPush Uuid DateTime))
| Read (i : Inbound) (k : Clock DateTime) (handled : N)
| Signalled (r : option CloseReason)
| Ticked (now : N).

Definition pushes_sent (x : Ctx) (w : World) (s : SessionState) (pushes : list (SessionPush Uuid DateTime))
    : panics (World * SessionState * FrameOutcome) :=
  r ← send_session_pushes (policy x) (served (bus w)) (active s) (cursors s) (tx w) pushes;
  let '(cs, t, o) := r in Returns (with_tx w t, mkState (active s) cs (buckets s) (counters s), o).

Definition drained (x : Ctx) (w : World) (s : SessionState) : panics (World * SessionState * FrameOutcome) :=
  r ← drain_all (policy x) (served (bus w)) (active s) (cursors s) (tx w);
  let '(cs, t, o) := r in Returns (with_tx w t, mkState (active s) cs (buckets s) (counters s), o).

Definition unless_gone (r : World * SessionState * FrameOutcome) (last_inbound : N)
    : World * SessionState * N * option ReadExit :=
  let '(w, s, o) := r in (w, s, last_inbound, match o with Disconnect => Some Peer | _ => None end).

(** One turn of [read_frames]. *)
Definition read_turn (x : Ctx) (reap_after : N) (w : World) (s : SessionState) (last_inbound : N) (e : Wake)
    : panics (World * SessionState * N * option ReadExit) :=
  match e with
  | Pushed pushes =>
      r ← pushes_sent x w s pushes;
      Returns (unless_gone r last_inbound)
  | Nudged pushes =>
      r ← (match pushes with [] => Returns (w, s, Continue) | _ => pushes_sent x w s pushes end);
      let '(w, s, o) := r in
      match o with
      | Disconnect => Returns (w, s, last_inbound, Some Peer)
      | _ =>
          r ← drained x w s;
          Returns (unless_gone r last_inbound)
      end
  | Read (Received (Text text)) k handled =>
      r ← on_text parse_frame x w text s k;
      let '(w, s, o) := r in
      Returns (match o with
               | Continue => (w, s, handled, None)
               | Violation rule => (w, s, last_inbound, Some (ReadViolation (InDispatch rule)))
               | Disconnect => (w, s, last_inbound, Some Peer)
               end)
  | Read (Received Binary) _ _ => Returns (w, s, last_inbound, Some (ReadViolation BinaryFrame))
  | Read (Received (Ping | Pong)) _ handled => Returns (w, s, handled, None)
  | Read (Received Close) _ _ | Read Ended _ _ => Returns (w, s, last_inbound, Some Peer)
  | Read (ReadError Oversized) _ _ => Returns (w, s, last_inbound, Some (ReadViolation OversizedFrame))
  | Read (ReadError Transport) _ _ => Returns (w, s, last_inbound, Some Peer)
  | Signalled r => Returns (w, s, last_inbound, HostClose <$> r)
  | Ticked now => Returns (w, s, last_inbound, if reap_after <? now - last_inbound then Some Peer else None)
  end.

(** [read_frames], over the wakes to come: the exit, or none when it still waits. *)
Fixpoint read_frames (x : Ctx) (reap_after : N) (w : World) (s : SessionState) (last_inbound : N) (es : list Wake)
    : panics (World * SessionState * option ReadExit) :=
  match es with
  | [] => Returns (w, s, None)
  | e :: es =>
      r ← read_turn x reap_after w s last_inbound e;
      let '(w, s, last_inbound, exit) := r in
      match exit with
      | Some v => Returns (w, s, Some v)
      | None => read_frames x reap_after w s last_inbound es
      end
  end.

(** How an attachment came out: the route's outcome, the close frame the writer was handed and
    the security event logged; [None] while the loop still waits. *)
Record Ending := mkEnding {
  outcome : AttachSessionOutcome;
  close_frame : option CloseReason;
  security_event : option Breach;
}.

(** The teardown of [attach_session]: the one security event, the slot released and counted,
    the guard's own release after it. *)
Definition teardown (w : World) (attacher : string) (sid : Uuid) (detail : option Breach) (close : option CloseReason)
    : World * Ending :=
  let '(r, remaining) := unregister_returning_remaining (registry w) attacher sid in
  let r := guard_drop r attacher sid in
  (mkWorld (bus w) r (tx w) (pages w),
   mkEnding (mkOutcome (remaining =? 0) (match detail with Some _ => true | None => false end)) close detail).

(** [attach_session]: a guard is the attacher and session id it was registered under. *)
Definition attach_session (x : Ctx) (w : World) (guard : string * Uuid) (active_channels : gset string)
    (store_incarnation : Z) (heartbeat_secs : N) (ident : string) (started opened : N)
    (reads : list (N * Inbound)) (es : list Wake) : panics (World * option Ending) :=
  s ← state_new (profile x) active_channels store_incarnation started;
  r ← open_attachment x w reads heartbeat_secs ident;
  let '(w, opening) := r in
  match opening with
  | Closed detail => let '(w, e) := teardown w guard.1 guard.2 detail None in Returns (w, Some e)
  | Attached =>
      r ← read_frames x (heartbeat_secs * 1000000000 * 3) w s opened es;
      let '(w, s, exit) := r in
      Returns (match exit with
               | None => (w, None)
               | Some Peer => let '(w, e) := teardown w guard.1 guard.2 None None in (w, Some e)
               | Some (ReadViolation b) => let '(w, e) := teardown w guard.1 guard.2 (Some b) None in (w, Some e)
               | Some (HostClose r) => let '(w, e) := teardown w guard.1 guard.2 None (Some r) in (w, Some e)
               end)
  end.
End attachment.
End Attachment.
