(* ===== verification/Attached.v ===== *)
(** * What an attachment's server half guarantees

    Theorems about [Session] (the publish, flush and alert planes) and [Attach] (the opening,
    the read loop, the writer task). [whenever] reads a handler's postcondition off a
    computation that may unwind; where a theorem says a handler returns, it says so as an
    equation. *)

From S2P Require Import Prelude Envelope Ring Proto Budget Access TokenBucket Directory Subs Publish Serve Serving Registry Session Attach.

#[local] Open Scope N_scope.
#[local] Open Scope list_scope.

(** ** Postconditions *)

Definition whenever {A} (m : panics A) (Q : A → Prop) : Prop :=
  match m with Returns a => Q a | Panics _ => True end.

Lemma whenever_bind {A B} (m : panics A) (f : A → panics B) Q :
  whenever m (λ a, whenever (f a) Q) → whenever (m ≫= f) Q.
Proof. by destruct m. Qed.

Lemma whenever_ret {A} (a : A) (Q : A → Prop) : Q a → whenever (Returns a) Q.
Proof. done. Qed.

Lemma whenever_mono {A} (m : panics A) (P Q : A → Prop) :
  whenever m P → (∀ a, P a → Q a) → whenever m Q.
Proof. destruct m; simpl; auto. Qed.

Lemma whenever_any {A} (m : panics A) (Q : A → Prop) : (∀ a, Q a) → whenever m Q.
Proof. destruct m; simpl; auto. Qed.

Lemma whenever_at {A} (m : panics A) (Q : A → Prop) a : whenever m Q → m = Returns a → Q a.
Proof. by intros Hw ->. Qed.

Create HintDb planes.

(** Walk a handler's branches to the values it returns. *)
Ltac walk :=
  repeat match goal with
  | |- whenever (Panics _) _ => exact I
  | |- whenever (Returns _) _ => apply whenever_ret; cbv beta
  | |- whenever (mbind _ _) _ => apply whenever_bind
  | |- whenever (let '(_, _) := ?p in _) _ => destruct p as [? ?] eqn:?
  | |- whenever (match ?s with _ => _ end) _ => destruct s eqn:?
  | |- whenever (rust_expect ?o _) _ => destruct o eqn:?; unfold rust_expect at 1
  | |- whenever (rust_assert ?o _) _ => destruct o eqn:?; unfold rust_assert at 1
  end.

Module PlaneProps.
Import Envelope Proto Serve Registry Plane Session Socket Attachment.

Section props.
Context {B St Uuid DateTime : Type} `{Countable Uuid} `{Chrono DateTime} `{ChronoOrd DateTime}.
Context `{!Messenger B St Uuid DateTime} `{EscapeDebug} `{CursorCodec Uuid}.
Context `{!RetentionStore St (MessageEnvelope Uuid DateTime) Uuid}.
#[local] Abbreviation World := (Session.World B Uuid DateTime).
#[local] Abbreviation Writer := (Serve.Writer Uuid DateTime).
#[local] Abbreviation ServerFrame := (Proto.ServerFrame Uuid DateTime).

(** *** What delivery leaves alone *)

(** The publishes a writer has confirmed. *)
Definition confirms (f : ServerFrame) : bool :=
  match f with PublishResult _ PublishOk => true | _ => false end.
Definition confirmed (t : Writer) : N := len (filter (λ f, confirms f = true) (tx_sent t)).

Lemma confirmed_send t f : confirmed (send_frame t f).1 ≤ confirmed t + (if confirms f then 1 else 0).
Proof.
  unfold send_frame, confirmed. destruct (tx_open t); simpl; [|lia].
  rewrite filter_app, len_app, filter_cons. destruct (confirms f); simpl; unfold len; simpl; lia.
Qed.

Lemma confirmed_quiet t f t' o : send_frame t f = (t', o) → confirms f = false → confirmed t' ≤ confirmed t.
Proof. intros Hs Hf. pose proof (confirmed_send t f). rewrite Hs, Hf in *. simpl in *. lia. Qed.

Lemma send_pass_quiet w t c pass :
  whenever (send_pass w t c pass) (λ r, confirmed r.1.2 ≤ confirmed t).
Proof.
  unfold send_pass. destruct pass; [simpl; lia|]. apply whenever_bind, whenever_any. intros [w' rows]. simpl.
  destruct (send_frame t _) as [t' o] eqn:Hs. simpl. by eapply confirmed_quiet.
Qed.

Lemma drain_channel_quiet pol b a w t c :
  whenever (drain_channel pol b a w t c) (λ r, confirmed r.1.2 ≤ confirmed t).
Proof.
  unfold drain_channel, store_for_address, store_for.
  walk; try apply send_pass_quiet; reflexivity.
Qed.

Lemma drain_list_quiet pol b a cs : ∀ w t,
  whenever (drain_list pol b a w t cs) (λ r, confirmed r.1.2 ≤ confirmed t).
Proof.
  induction cs as [|c cs IH]; intros w t; simpl; [done|].
  apply whenever_bind. eapply whenever_mono; [apply drain_channel_quiet|].
  intros [[w' t'] o] Hq. simpl in Hq. destruct o; [eapply whenever_mono; [apply IH|simpl; lia]..|done].
Qed.

Lemma send_live_one_quiet pol b a w t d :
  whenever (send_live_one pol b a w t d) (λ r, confirmed r.1.2 ≤ confirmed t).
Proof.
  unfold send_live_one. walk; try apply send_pass_quiet; try apply drain_channel_quiet; reflexivity.
Qed.

Lemma send_live_quiet pol b a ds : ∀ w t,
  whenever (send_live pol b a w t ds) (λ r, confirmed r.1.2 ≤ confirmed t).
Proof.
  induction ds as [|d ds IH]; intros w t; simpl; [done|].
  apply whenever_bind. eapply whenever_mono; [apply send_live_one_quiet|].
  intros [[w' t'] o] Hq. simpl in Hq. destruct o; [eapply whenever_mono; [apply IH|simpl; lia]..|done].
Qed.

Lemma send_views_quiet vs : ∀ t : Writer, confirmed (send_views t vs).1 ≤ confirmed t.
Proof.
  induction vs as [|v vs IH]; intros t; simpl; [done|]. unfold send_deferred_view.
  destruct (send_frame t _) as [t' o] eqn:Hs. apply confirmed_quiet in Hs as Hq; [|done].
  destruct o; [etransitivity; [apply IH|done]..|done].
Qed.

Lemma send_session_pushes_quiet pol b a w t ps :
  whenever (send_session_pushes pol b a w t ps) (λ r, confirmed r.1.2 ≤ confirmed t).
Proof.
  unfold send_session_pushes. cbv zeta. apply whenever_bind.
  eapply (whenever_mono _ (λ r, confirmed r.1.2 ≤ confirmed t)).
  { case_match; [apply whenever_ret; reflexivity|apply send_live_quiet]. }
  intros [[w' t'] o] Hq. simpl in Hq. pose proof (λ vs, send_views_quiet vs t') as Hv.
  destruct o; walk; simpl; try lia.
  all: match goal with E : send_views _ ?vs = _ |- _ => specialize (Hv vs); rewrite E in Hv; simpl in Hv; lia end.
Qed.

Lemma handle_subscribe_quiet p pol b a w t r :
  whenever (handle_subscribe p pol b a w t r) (λ r, confirmed r.1.2 ≤ confirmed t).
Proof.
  unfold handle_subscribe, open_subscription, store_for.
  walk; simpl; try reflexivity;
    try (eapply confirmed_quiet; [eassumption|done]).
  all: try (eapply whenever_mono; [apply send_pass_quiet|]; intros [[? ?] ?] Hq; simpl in *;
            etransitivity; [exact Hq|]; eapply confirmed_quiet; [eassumption|done]).
Qed.

(** *** What each handler spends *)

(** A handler's draw on its bucket: none, or one that took a token if it was used. *)
Definition drew (b b' : Bucket.TokenBucket) (now used : N) : Prop :=
  (b' = b ∧ used = 0) ∨
  ∃ o, Bucket.try_consume b now = Returns (b', o) ∧ used = if BucketProps.granted o then 1 else 0.

Lemma metered_drew cap interval amount t0 t used b b' now n :
  interval ≠ 0 → BucketProps.metered cap interval amount t0 t used b → t ≤ now → drew b b' now n →
  BucketProps.metered cap interval amount t0 now (used + n) b'.
Proof.
  intros Hi Hm Ht [[-> ->]|(o&Ho&->)].
  - eapply BucketProps.metered_later; [exact Hm|lia|lia].
  - destruct (BucketProps.metered_consume _ _ _ _ _ _ _ now Hi Hm Ht) as (b1&o1&Ho1&Hm1).
    rewrite Ho in Ho1. by injection Ho1 as -> ->.
Qed.

Lemma answer_confirms (w w' : World) f o :
  answer w f = (w', o) →
  confirmed (tx w') ≤ confirmed (tx w) + (if confirms f then 1 else 0) ∧
  bus w' = bus w ∧ registry w' = registry w ∧ pages w' = pages w.
Proof.
  unfold answer. pose proof (confirmed_send (tx w) f). destruct (send_frame (tx w) f) as [t p].
  intros [= <- <-]. simpl in *. auto.
Qed.

(** The counter of oversized bodies a session that goes on has not run out. *)
Definition under_threshold (c : SessionCounters) : Prop :=
  publish_body_too_large c < BODY_TOO_LARGE_VIOLATION_THRESHOLD.

Lemma publish_outcome_too_large post att (res : BusResult Uuid) c :
  whenever (publish_outcome post att res c) (λ r, publish_body_too_large r.1 = publish_body_too_large c).
Proof. unfold publish_outcome. walk; simpl; try done. Qed.

Lemma handle_publish_spends x (w : World) b now r c :
  under_threshold c →
  whenever (handle_publish x w b now r c) (λ '(w', b', c', o),
    pages w' = pages w ∧ registry w' = registry w ∧
    (∃ n, drew b b' now n ∧ confirmed (tx w') ≤ confirmed (tx w) + n) ∧
    publish_body_too_large c' ≤ BODY_TOO_LARGE_VIOLATION_THRESHOLD ∧
    (o = Continue → under_threshold c' ∧ publish_body_too_large c' = publish_body_too_large c +
       (if max_body_bytes x <? N.of_nat (String.length (pub_body r)) then 1 else 0))).
Proof.
  intros Hc. unfold under_threshold in *. unfold handle_publish, assert_publishable.
  assert (publish_body_too_large (count_too_large c) = publish_body_too_large c + 1) as Hinc.
  { apply u64_add_small. unfold BODY_TOO_LARGE_VIOLATION_THRESHOLD, u64_max in *. lia. }
  walk.
  all: repeat match goal with E : answer _ _ = _ |- _ => apply answer_confirms in E as (?&?&?&?) end.
  all: repeat match goal with E : (_ <=? _) = _ |- _ => rewrite ?N.leb_le, ?N.leb_gt in E end.
  4: {
    destruct (Bucket.try_consume b now) as [[b' o]|] eqn:Hb; [|exact I]. apply whenever_ret.
    assert (∀ n, n = (if BucketProps.granted o then 1 else 0) → drew b b' now n) as Hd by (right; eauto).
    destruct o as [|k|first]; cbv beta iota.
    1,2: apply whenever_bind, whenever_any; intros [m res]; apply whenever_bind;
      (eapply whenever_mono; [apply publish_outcome_too_large|]); intros [c' out]; cbn [fst]; intros Hc'; walk;
      match goal with E : answer _ _ = _ |- _ => apply answer_confirms in E as (?&?&?&?) end;
      (split_and!; [done|done|exists 1; split; [by apply Hd|]|lia|intros _; split; lia]); simpl in *; destruct out; lia.
    walk. match goal with E : answer _ _ = _ |- _ => apply answer_confirms in E as (?&?&?&?) end.
    split_and!; [done|done|exists 0; split; [by apply Hd|simpl in *; lia]|simpl; lia|intros _; split; simpl; lia]. }
  all: split_and!; [done|done|exists 0; split; [by left|simpl in *; lia]|lia|intros Hgo].
  all: try discriminate Hgo; try (split; lia).
  all: exfalso; subst; unfold admit_attribution_or_violate in *; repeat case_match; congruence.
Qed.

(** What a batch's own steps leave alone: the writer until the answer, the pages, and who is
    registered. *)
Definition kept (w w' : World) : Prop :=
  tx w' = tx w ∧ pages w' = pages w ∧
  inner (registry w') = inner (registry w) ∧ draining (registry w') = draining (registry w).

Lemma kept_refl (w : World) : kept w w.
Proof. unfold kept. auto. Qed.

Lemma kept_trans (w w' w'' : World) : kept w w' → kept w' w'' → kept w w''.
Proof. unfold kept. intros (->&->&->&->). auto. Qed.

Lemma kept_bus (w : World) b : kept w (with_bus w b).
Proof. unfold kept. auto. Qed.

Lemma broadcast_keeps x (w : World) att c :
  whenever (broadcast_deferred_view x w att c) (λ w', kept w w' ∧ bus w' = bus w).
Proof.
  unfold broadcast_deferred_view. do 3 (apply whenever_bind, whenever_any; intros ?). apply whenever_ret.
  unfold kept. simpl. destruct (Sessions.push_deferred_view_frame (registry w)
    (registry_key (attach_scope (profile x))) (mkViewPush c att a1)) as [-> ->]. auto.
Qed.

Lemma emit_views_keeps x (w : World) att cs :
  whenever (emit_views x w att cs) (λ w', kept w w' ∧ bus w' = bus w).
Proof.
  unfold emit_views. generalize (dedup (merge_sort str_le cs)) as l. intros l.
  assert (∀ m, whenever m (λ w', kept w w' ∧ bus w' = bus w) →
    whenever (foldl (λ acc c, w ← acc; broadcast_deferred_view x w att c) m l) (λ w', kept w w' ∧ bus w' = bus w)) as Hf.
  { induction l as [|c l IH]; intros m Hm; simpl; [done|]. apply IH. apply whenever_bind.
    eapply whenever_mono; [exact Hm|]. intros w1 [Hk Hb]. eapply whenever_mono; [apply broadcast_keeps|].
    intros w2 [Hk2 Hb2]. split; [by eapply kept_trans|congruence]. }
  apply Hf, whenever_ret. split; [apply kept_refl|done].
Qed.

Lemma apply_deferred_op_keeps (w : World) sender op now :
  whenever (apply_deferred_op w sender op now) (λ r, kept w r.1).
Proof.
  unfold apply_deferred_op. apply whenever_bind, whenever_any. intros [b out]. apply whenever_ret.
  destruct out; repeat split.
Qed.

Lemma apply_ops_keeps sender ops now : ∀ (w : World) cs any,
  whenever (apply_ops w sender ops now cs any) (λ r, kept w r.1.1.1).
Proof.
  induction ops as [|op ops IH]; intros w cs any; [apply kept_refl|]. cbn [apply_ops].
  apply whenever_bind. eapply whenever_mono; [apply apply_deferred_op_keeps|]. intros [w1 e] Hk. cbn [fst] in Hk.
  destruct e as [e|v]; [|done]. eapply whenever_mono; [apply IH|]. intros r Hr. by eapply kept_trans.
Qed.

Lemma iter_rate_limited_too_large n att c :
  publish_body_too_large (N.iter n (count_rate_limited att) c) = publish_body_too_large c.
Proof. induction n using N.peano_ind; [done|]. by rewrite N.iter_succ. Qed.

Lemma iter_publish_ok_too_large n att c :
  publish_body_too_large (N.iter n (count_publish_ok att) c) = publish_body_too_large c.
Proof. induction n using N.peano_ind; [done|]. by rewrite N.iter_succ. Qed.

(** The batch path confirms no single publish, pages nobody and counts no oversized body. *)
Definition unspent (w w' : World) (c c' : SessionCounters) : Prop :=
  confirmed (tx w') ≤ confirmed (tx w) ∧ pages w' = pages w ∧
  publish_body_too_large c' = publish_body_too_large c ∧
  inner (registry w') = inner (registry w) ∧ draining (registry w') = draining (registry w).

Lemma kept_answered (w w1 w2 : World) c c' f o :
  kept w w1 → answer w1 f = (w2, o) → confirms f = false →
  publish_body_too_large c' = publish_body_too_large c → unspent w w2 c c'.
Proof.
  intros (Ht&Hp&Hi&Hd) (Hc&Hb&Hr&Hp2)%answer_confirms Hf Hl. rewrite Hf, Ht in Hc. unfold unspent.
  rewrite Hp2, Hr. split_and!; [lia|done..].
Qed.

Lemma apply_batch_unspent x (w : World) r sender es os now clock c :
  whenever (apply_batch x w r sender es os now clock c) (λ '(w', c', o), unspent w w' c c').
Proof.
  unfold apply_batch. apply whenever_bind. eapply whenever_mono; [apply apply_ops_keeps|].
  intros [[[w1 cs] any] v] Hk. cbn [fst] in Hk.
  assert (kept w (kick_if any w1)) as Hk1 by (unfold kick_if; destruct any; [by eapply kept_trans; [|apply kept_bus]|done]).
  destruct v as [v|].
  - apply whenever_bind. eapply whenever_mono; [apply emit_views_keeps|]. intros w2 [Hk2 _]. apply whenever_ret.
    destruct (kept_trans _ _ _ Hk1 Hk2) as (Ht&?&?&?). unfold unspent. rewrite Ht. auto.
  - apply whenever_bind, whenever_any. intros [b n]. apply whenever_bind.
    eapply whenever_mono; [apply emit_views_keeps|]. intros w2 [Hk2 _].
    destruct (answer w2 _) as [w3 o] eqn:Ha. apply whenever_ret.
    eapply kept_answered; [|exact Ha|done|apply iter_publish_ok_too_large].
    eapply kept_trans; [exact Hk1|]. eapply kept_trans; [apply kept_bus|exact Hk2].
Qed.

Lemma handle_publish_batch_unspent x (w : World) r now clock c :
  whenever (handle_publish_batch x w r now clock c) (λ '(w', c', o), unspent w w' c c').
Proof.
  assert (unspent w w c c) as Hrefl by (unfold unspent; auto).
  unfold handle_publish_batch. apply whenever_bind, whenever_any. intros [[[sender es] os]|v]; [|done].
  do 2 (apply whenever_bind, whenever_any; intros ?). destruct a0 as [b []]; cbn [fst snd].
  - eapply whenever_mono; [apply apply_batch_unspent|]. intros [[w' c'] o] Hu. exact Hu.
  - destruct (answer _ _) as [w3 o] eqn:Ha. apply whenever_ret.
    eapply kept_answered; [apply (kept_bus w b)|exact Ha|done|apply iter_rate_limited_too_large].
Qed.

Lemma handle_alert_spends x (w : World) b now c att sev title body :
  whenever (handle_alert x w b now c att sev title body) (λ '(w', b', c', o),
    tx w' = tx w ∧ registry w' = registry w ∧
    (∃ n, drew b b' now n ∧ len (pages w') = len (pages w) + n) ∧
    publish_body_too_large c' = publish_body_too_large c).
Proof.
  unfold handle_alert. walk.
  4: { destruct (Bucket.try_consume b now) as [[b' o]|] eqn:Hb; [|exact I]. apply whenever_ret.
    assert (∀ n, n = (if BucketProps.granted o then 1 else 0) → drew b b' now n) as Hd by (right; eauto).
    destruct o; apply whenever_ret; split_and!; try done;
      [exists 1|exists 1|exists 0]; (split; [by apply Hd|]); simpl; len_lia. }
  all: split_and!; [done|done|exists 0; split; [by left|lia]|done].
Qed.

(** *** A session's meters *)

(** The registry is the same but for its mailboxes. *)
Definition same_slots (r r' : AttachRegistry Uuid DateTime) : Prop :=
  inner r' = inner r ∧ draining r' = draining r.

Lemma same_slots_refl r : same_slots r r.
Proof. done. Qed.

Lemma same_slots_trans r r' r'' : same_slots r r' → same_slots r' r'' → same_slots r r''.
Proof. unfold same_slots. intros [-> ->]. auto. Qed.

(** What a session begun at [t0] has confirmed and paged by [t], against its two buckets. *)
Record within_rates (x : Ctx) (t0 t : N) (w0 w : World) (s : SessionState Uuid) : Prop := {
  rates_publish : ∃ n, confirmed (tx w) ≤ confirmed (tx w0) + n ∧
    BucketProps.metered (burst (publish_rate (profile x))) 1000000000 (per_sec (publish_rate (profile x))) t0 t n
      (bucket_publish (buckets s));
  rates_alert : ∃ n, len (pages w) ≤ len (pages w0) + n ∧
    BucketProps.metered ALERT_BURST ALERT_REFILL 1 t0 t n (bucket_alert (buckets s));
  rates_oversized : publish_body_too_large (counters s) ≤ BODY_TOO_LARGE_VIOLATION_THRESHOLD;
  rates_slots : same_slots (registry w0) (registry w);
}.

(** A turn that spends nothing keeps the meters. *)
Lemma within_rates_idle x t0 t t' w0 w s w' s' :
  within_rates x t0 t w0 w s → t ≤ t' → confirmed (tx w') ≤ confirmed (tx w) → pages w' = pages w →
  bucket_publish (buckets s') = bucket_publish (buckets s) → bucket_alert (buckets s') = bucket_alert (buckets s) →
  publish_body_too_large (counters s') = publish_body_too_large (counters s) →
  same_slots (registry w) (registry w') → within_rates x t0 t' w0 w' s'.
Proof.
  intros [(n&Hn&Hp) (m&Hm&Ha) Ho Hs] Ht Hc Hpg Hb Hb' Hl Hr. split.
  - exists n. split; [lia|]. rewrite Hb. by eapply BucketProps.metered_later.
  - exists m. rewrite Hpg. split; [lia|]. rewrite Hb'. by eapply BucketProps.metered_later.
  - by rewrite Hl.
  - by eapply same_slots_trans.
Qed.

Context (parse_frame : string → option (ClientFrame Uuid)).

(** A wake that brings a single publish with a body over the cap. *)
Definition oversized_text x (text : string) : bool :=
  match parse_frame text with
  | Some (Proto.Publish _ _ body _ _) => max_body_bytes x <? N.of_nat (String.length body)
  | _ => false
  end.
Definition oversized x (e : Attachment.Wake (Uuid := Uuid) (DateTime := DateTime)) : bool :=
  match e with Read (Received (Text text)) _ _ => oversized_text x text | _ => false end.

(** The counter goes up by one for each, and a session that goes on is still under it. *)
Definition counts_oversized (over : bool) (s s' : SessionState Uuid) : Prop :=
  under_threshold (counters s') ∧
  publish_body_too_large (counters s') = publish_body_too_large (counters s) + (if over then 1 else 0).

Lemma counts_none s s' :
  under_threshold (counters s) → publish_body_too_large (counters s') = publish_body_too_large (counters s) →
  counts_oversized false s s'.
Proof. unfold counts_oversized, under_threshold. intros. lia. Qed.

Lemma on_text_meters x t0 t w0 w text s k :
  within_rates x t0 t w0 w s → under_threshold (counters s) → t ≤ instant k →
  whenever (on_text parse_frame x w text s k) (λ '(w', s', o),
    within_rates x t0 (instant k) w0 w' s' ∧ (o = Continue → counts_oversized (oversized_text x text) s s')).
Proof.
  intros Hw Hu Ht. unfold on_text, handle_client_frame, oversized_text. destruct (parse_frame text) as [f|].
  2: { split; [by eapply within_rates_idle|done]. }
  destruct f; cbn [counters buckets bucket_publish bucket_alert bucket_subscribe].
  - split; [by eapply within_rates_idle|by intros _; apply counts_none].
  - apply whenever_bind, whenever_any. intros [b r]. destruct r as [u|v]; cbn [fst snd].
    + apply whenever_bind. eapply whenever_mono; [apply handle_subscribe_quiet|].
      intros [[[[b' a] cs] t'] o] Hq. cbn [fst snd] in Hq. split; [by eapply within_rates_idle|by intros _; apply counts_none].
    + split; [by eapply within_rates_idle|by intros _; apply counts_none].
  - apply whenever_bind, whenever_any. intros [b r]. destruct r as [u|v]; cbn [fst snd].
    + destruct (handle_unsubscribe _ _ _) as [[a cs] o]. split; [by eapply within_rates_idle|by intros _; apply counts_none].
    + split; [by eapply within_rates_idle|by intros _; apply counts_none].
  - apply whenever_bind. eapply whenever_mono; [by apply handle_publish_spends|].
    intros [[[w' b'] c'] o] (Hpg&Hr&(n&Hd&Hn)&Hl&Hgo). split; [|intros Ho; by destruct (Hgo Ho)].
    destruct Hw as [(m&Hm&Hp) (a&Ha&Hal) Ho Hs]. split; [| |exact Hl|by rewrite Hr].
    + exists (m + n). split; [simpl in *; lia|]. by eapply metered_drew.
    + exists a. rewrite Hpg. split; [done|]. by eapply BucketProps.metered_later.
  - apply whenever_bind. eapply whenever_mono; [apply handle_publish_batch_unspent|].
    intros [[w' c'] o] (Hc&Hpg&Hl&Hi&Hdr). split.
    + by eapply within_rates_idle.
    + intros _. by apply counts_none.
  - apply whenever_bind. eapply whenever_mono; [apply handle_alert_spends|].
    intros [[[w' b'] c'] o] (Htx&Hr&(n&Hd&Hn)&Hl). split.
    + destruct Hw as [(m&Hm&Hp) (a&Ha&Hal) Ho Hs]. split; [| |by simpl in *; rewrite Hl|by rewrite Hr].
      * exists m. rewrite Htx. split; [done|]. by eapply BucketProps.metered_later.
      * exists (a + n). rewrite Hn. split; [lia|]. by eapply metered_drew.
    + intros _. by apply counts_none.
Qed.

#[local] Abbreviation Wake := (Attachment.Wake (Uuid := Uuid) (DateTime := DateTime)).

(** The monotonic clock of a turn, and of a run: a turn that reads none keeps it. *)
Definition clock_of (t : N) (e : Wake) : N := match e with Read _ k _ => instant k | _ => t end.
Definition clock_after (t : N) (es : list Wake) : N := foldl clock_of t es.
Fixpoint on_clock (t : N) (es : list Wake) : Prop :=
  match es with
  | [] => True
  | e :: es => t ≤ clock_of t e ∧ on_clock (clock_of t e) es
  end.

Lemma pushes_sent_meters x t0 t w0 w s ps :
  within_rates x t0 t w0 w s →
  whenever (pushes_sent x w s ps) (λ '(w', s', o), within_rates x t0 t w0 w' s' ∧ counters s' = counters s).
Proof.
  intros Hw. unfold pushes_sent. apply whenever_bind. eapply whenever_mono; [apply send_session_pushes_quiet|].
  intros [[cs t'] o] Hq. simpl in Hq. split; [by eapply within_rates_idle|done].
Qed.

Lemma drained_meters x t0 t w0 w s :
  within_rates x t0 t w0 w s →
  whenever (drained x w s) (λ '(w', s', o), within_rates x t0 t w0 w' s' ∧ counters s' = counters s).
Proof.
  intros Hw. unfold drained. apply whenever_bind. eapply whenever_mono; [apply drain_list_quiet|].
  intros [[cs t'] o] Hq. simpl in Hq. split; [by eapply within_rates_idle|done].
Qed.

Lemma read_turn_meters x reap t0 t w0 w s li e :
  within_rates x t0 t w0 w s → under_threshold (counters s) → t ≤ clock_of t e →
  whenever (read_turn parse_frame x reap w s li e) (λ '(w', s', li', exit),
    within_rates x t0 (clock_of t e) w0 w' s' ∧ (exit = None → counts_oversized (oversized x e) s s')).
Proof.
  intros Hw Hu Ht.
  assert (∀ ex : option ReadExit, within_rates x t0 (clock_of t e) w0 w s ∧ (ex = None → counts_oversized false s s)) as Hsame.
  { intros ex. split; [by eapply within_rates_idle|by intros _; apply counts_none]. }
  destruct e as [ps|ps|i k handled|r|now]; cbn [read_turn clock_of] in *; try (apply whenever_ret; apply Hsame; fail).
  - apply whenever_bind. eapply whenever_mono; [by apply pushes_sent_meters|].
    intros [[w' s'] o] [Hw' Hc']. destruct o; (split; [done|]); by rewrite <-?Hc'; intros; apply counts_none; rewrite ?Hc'.
  - apply whenever_bind. eapply (whenever_mono _ (λ '(w', s', o), within_rates x t0 t w0 w' s' ∧ counters s' = counters s)).
    { destruct ps; [done|]. by apply pushes_sent_meters. }
    intros [[w1 s1] o] [Hw1 Hc1].
    assert (whenever (drained x w1 s1 ≫= λ r, Returns (unless_gone r li))
      (λ '(w', s', li', exit), within_rates x t0 t w0 w' s' ∧ (exit = None → counts_oversized false s s'))) as Hd.
    { apply whenever_bind. eapply whenever_mono; [by apply drained_meters|]. intros [[w2 s2] o'] [? Hc2].
      split; [done|]. intros _. apply counts_none; [done|congruence]. }
    by destruct o.
  - destruct i as [m|e|]; [|destruct e; apply whenever_ret; apply Hsame|apply whenever_ret; apply (Hsame (Some Peer))].
    destruct m as [text| | | |]; [|apply whenever_ret; apply Hsame..].
    apply whenever_bind. eapply whenever_mono; [by eapply on_text_meters|].
    intros [[w' s'] o] [Hw' Hgo]. destruct o; (split; [exact Hw'|]); [intros _; by apply Hgo|done|done].
Qed.

Lemma read_frames_meters x reap t0 w0 es : ∀ t w s li,
  within_rates x t0 t w0 w s → under_threshold (counters s) → on_clock t es →
  whenever (read_frames parse_frame x reap w s li es) (λ '(w', s', exit), (∃ t', t' ≤ clock_after t es ∧
      within_rates x t0 t' w0 w' s') ∧
    (exit = None → under_threshold (counters s') ∧
       publish_body_too_large (counters s') = publish_body_too_large (counters s) +
         len (filter (λ e, oversized x e = true) es))).
Proof.
  induction es as [|e es IH]; intros t w s li Hw Hu Hc; cbn [read_frames].
  { apply whenever_ret. split; [exists t; split; [reflexivity|done]|]. intros _. split; [done|].
    rewrite filter_nil, len_nil. lia. }
  destruct Hc as [Ht Hc]. apply whenever_bind. eapply whenever_mono; [by eapply read_turn_meters|].
  intros [[[w1 s1] li1] [v|]] [Hw1 Hu1].
  - apply whenever_ret. split; [|done]. exists (clock_of t e). split; [|done].
    clear -Hc. cbn [clock_after foldl]. revert t e Hc. induction es as [|e' es IH]; intros t e Hc; [reflexivity|].
    destruct Hc as [Hle Hc]. simpl. etransitivity; [exact Hle|]. by apply (IH (clock_of t e) e').
  - destruct (Hu1 eq_refl) as [Hu2 Hn].
    eapply whenever_mono; [eapply (IH (clock_of t e)); [exact Hw1|done|exact Hc]|]. intros [[w2 s2] ex] [Hx Hgo].
    split; [exact Hx|]. intros He. destruct (Hgo He) as [? Hn2]. split; [done|]. rewrite Hn2, Hn, filter_cons.
    destruct (oversized x e); case_decide; try done; rewrite ?len_cons; lia.
Qed.

(** C26: (session) an attachment stays within its rates. Over any frames, pushes, nudges and
    ticks on a clock that does not run backwards, the single publishes confirmed to an
    attachment never exceed its burst and the whole seconds elapsed times its rate; the
    alerts it pages never exceed five and one for each whole five minutes elapsed; and it
    still goes on only if it has sent at most seven single publishes with a body over the
    cap: the eighth ends it. *)
Theorem attachment_stays_within_its_rates x act inc t0 s w reap li es w' s' exit :
  burst (publish_rate (profile x)) ≤ u32_max → state_new (profile x) act inc t0 = Returns s → on_clock t0 es →
  read_frames parse_frame x reap w s li es = Returns (w', s', exit) →
  confirmed (tx w') ≤ confirmed (tx w) + burst (publish_rate (profile x)) +
    per_sec (publish_rate (profile x)) * ((clock_after t0 es - t0) / 1000000000) ∧
  len (pages w') ≤ len (pages w) + 5 + (clock_after t0 es - t0) / (300 * 1000000000) ∧
  (exit = None → len (filter (λ e, oversized x e = true) es) ≤ 7).
Proof.
  intros Hb Hs Hc Hr. unfold state_new, buckets_new in Hs.
  destruct (subscribe_bucket _ t0) as [sb|] eqn:Hsb; [|done].
  destruct (Bucket.new (burst _) _ _ t0) as [pb|] eqn:Hpb; [|done].
  destruct (Bucket.new ALERT_BURST ALERT_REFILL 1 t0) as [ab|] eqn:Hab; [|done]. injection Hs as <-.
  apply BucketProps.metered_new in Hpb as [Hpi Hpm]; [|done].
  apply BucketProps.metered_new in Hab as [Hai Ham]; [|by vm_compute].
  assert (within_rates x t0 t0 w w (mkState (active_new act) (cursors_new inc) (mkBuckets sb pb ab) counters_default)) as Hw.
  { split; [exists 0; split; [lia|done]|exists 0; split; [lia|done]|by vm_compute|apply same_slots_refl]. }
  pose proof (read_frames_meters x reap t0 w es t0 w _ li Hw ltac:(by vm_compute) Hc) as Hf.
  rewrite Hr in Hf. destruct Hf as [(t'&Ht'&[(n&Hn&Hp) (m&Hm&Ha) _ _]) Hover].
  apply (BucketProps.metered_later _ _ _ _ _ (clock_after t0 es) _ n) in Hp; [|done..].
  apply (BucketProps.metered_later _ _ _ _ _ (clock_after t0 es) _ m) in Ha; [|done..].
  apply BucketProps.metered_bound in Hp; [|done]. apply BucketProps.metered_bound in Ha; [|done].
  unfold ALERT_BURST, ALERT_REFILL in Ha. split_and!; [lia|lia|].
  intros He. destruct (Hover He) as [Hu Hc']. unfold under_threshold, BODY_TOO_LARGE_VIOLATION_THRESHOLD in Hu. simpl in Hc'. lia.
Qed.

(** *** Single publishes *)

(** The refusals a boot-validated channel never meets. *)
Definition excluded (res : BusResult Uuid) : bool :=
  match res with
  | ResMissingSender | ResAclDenied _ | ResUnknownChannel _ | ResMalformedAddress _
  | ResDeferredQuotaExceeded _ | ResImpetusUnauthorized => true
  | _ => false
  end.

Lemma publish_outcome_told post att res c :
  (excluded res = true → post = Diagnostic) →
  ∃ c' out, publish_outcome post att res c = Returns (c', out) ∧ (out = PublishOk ↔ ∃ i a m, res = ResOk i a m).
Proof.
  intros He. destruct res; simpl in *; rewrite ?He by done; eexists _, _; (split; [done|]);
    split; try done; try (by intros (?&?&?&?)); eauto.
Qed.

Lemma answer_open (w : World) f :
  tx_open (tx w) = true → ∃ w', answer w f = (w', Continue) ∧
    tx_sent (tx w') = tx_sent (tx w) ++ [f] ∧ tx_open (tx w') = true ∧
    bus w' = bus w ∧ registry w' = registry w ∧ pages w' = pages w.
Proof. intros Ho. unfold answer, send_frame. rewrite Ho. eexists. by split_and!. Qed.

Lemma assert_publishable_returns x att ch :
  (∀ c, publishable (profile x) att c = true → is_local_channel c = false) →
  ∃ r, assert_publishable x att ch = Returns r ∧ (r = Ok () ∨ ∃ v, r = Err (Violation v)).
Proof.
  intros Hl. unfold assert_publishable. destruct (publishable (profile x) att ch) eqn:Hp; simpl; [|eauto].
  rewrite (Hl ch Hp). simpl. eexists. split; [done|]. case_match; eauto.
Qed.

(** (session) a single publish is refused whole or answered once. A handler whose profile
    publishes no page-local channel, over a bus that answers and keeps its boot invariants,
    returns. Either the frame is a violation, and then it reached neither the bus nor the
    wire nor the rate bucket; or it is answered by one [PublishResult] of its own
    correlation, which says [Ok] exactly when the bus published it. *)
Theorem publish_is_answered_once_or_refused_whole x (w : World) b now r c bus' res :
  tx_open (tx w) = true →
  (∀ ch, publishable (profile x) (pub_attribution r) ch = true → is_local_channel ch = false) →
  publish_from_attacher (bus w) (attach_scope (profile x)) (pub_attribution r) (pub_channel r) (pub_body r)
    (pub_urgency r) = Returns (bus', res) →
  (excluded res = true → publish_posture (profile x) (pub_channel r) = Diagnostic) →
  ∃ w' b' c' o, handle_publish x w b now r c = Returns (w', b', c', o) ∧
    ((∃ v, o = Violation v ∧ w' = w ∧ b' = b) ∨
     (∃ out, o = Continue ∧ tx_sent (tx w') = tx_sent (tx w) ++ [PublishResult (pub_correlation r) out] ∧
        registry w' = registry w ∧ pages w' = pages w ∧
        (bus w' = bus w ∧ out ≠ PublishOk ∨
         bus w' = bus' ∧ (out = PublishOk ↔ ∃ i a m, res = ResOk i a m)))).
Proof.
  intros Ho Hl Hbus He. unfold handle_publish, admit_attribution_or_violate.
  destruct (profile_admit _ _) as [p|]; [|eexists _, _, _, _; split; [done|left; eauto]].
  destruct (assert_publishable_returns x (pub_attribution r) (pub_channel r) Hl) as (q&->&[->|[v ->]]);
    cbn [mbind panics_bind]; [|eexists _, _, _, _; split; [done|left; eauto]].
  destruct (_ <? _).
  { destruct (_ <=? _); [eexists _, _, _, _; split; [done|left; eauto]|].
    destruct (answer_open w (PublishResult (pub_correlation r) (BodyTooLarge (N.of_nat (String.length (pub_body r))) (max_body_bytes x))) Ho)
      as (w'&->&Ht&_&Hb&Hr&Hp). eexists _, _, _, _. split; [done|]. right. eexists. split_and!; [done..|]. by left. }
  unfold Bucket.try_consume. rewrite BucketProps.try_consume_returns by done. cbn [mbind panics_bind].
  destruct (publish_outcome_told _ (pub_attribution r) _ c He) as (c'&out&Hout&Hok).
  destruct (Bucket.draw _ 1) as [b' [|k|first]].
  1,2: rewrite Hbus; cbn [mbind panics_bind fst snd]; rewrite Hout; cbn [mbind panics_bind];
    destruct (answer_open (with_bus w bus') (PublishResult (pub_correlation r) out) Ho) as (w'&->&Ht&_&Hb&Hr&Hp);
    eexists _, _, _, _; (split; [done|]); right; eexists; (split_and!; [done..|]); by right.
  destruct (answer_open w (PublishResult (pub_correlation r) RateLimited) Ho) as (w'&->&Ht&_&Hb&Hr&Hp).
  eexists _, _, _, _. split; [done|]. right. eexists. split_and!; [done..|]. by left.
Qed.

End props.

(** *** A bus that takes everything *)

Module Demo.
Import EvalInstances Serve.RingStore.
#[export] Existing Instance ServeProps.N_codec.

#[export] Instance millis_ord : ChronoOrd Z := λ a b, (b <? a)%Z.
#[export] Instance plain_escape : EscapeDebug := λ s, [s].

Abbreviation Rings := (Ring.RetainedRing (MessageEnvelope N Z) N).

#[export] Instance open_bus : Messenger () Rings N Z := {
  publish_from_attacher b _ _ c _ _ := Returns (b, ResOk 1 c None);
  draw_attach_send_budget_for_batch b _ _ _ := Returns (b, SendAdmitted);
  cancel_deferred_for_sender b _ _ _ _ := Returns (b, DeferralApplied);
  edit_deferred_for_sender b _ _ _ _ _ _ := Returns (b, DeferralApplied);
  publish_batch_from_attacher b _ _ _ _ := Returns (b, 0);
  deferred_view_for_sender _ _ _ := Returns [];
  record_deferred_control_race b _ _ := b;
  dispatch_kick b := b;
  served _ := mkBus (Directory.with_entries []) ∅;
  with_served b _ := b;
}.

Definition demo_profile : PublishProfile :=
  mkPublishProfile (mkProfile "surface:bar" (λ _, None) 4 8 (λ _, None)) (λ _ c, String.eqb c "brenn:door")
    (λ a, match a with None => Some "surface:bar"%string | Some _ => None end) (λ _, Invariant)
    (Directory.mkScope Directory.KindSurface "bar") MissingInvariant [] (mkRate 2 1) true (λ _, false).
Definition demo_ctx : Ctx := mkCtx demo_profile AccessProps.demo_policy 64 "s-1" "s1" "ann".
Definition demo_world : World () N Z := mkWorld () registry_default (mkWriter true [] 0) [].

(** A parser of four frames. *)
Definition demo_parse (text : string) : option (ClientFrame N) :=
  if String.eqb text "publish" then Some (Proto.Publish "brenn:door" None "hi" Normal (Some 1))
  else if String.eqb text "alert" then Some (Alert None Warning "smoke" "in the hall")
  else if String.eqb text "hello" then Some (ClientHello (mkRange 3 5) "page")
  else None.

Definition demo_read (text : string) (t : N) : Wake (Uuid := N) (DateTime := Z) := Read (Received (Text text)) (mkClock t 0%Z []) t.
Definition demo_wakes : list Wake :=
  [demo_read "publish" 5; demo_read "publish" 6; demo_read "publish" 7; Nudged []; demo_read "alert" 8; Ticked 9].
End Demo.
Import EvalInstances Serve.RingStore Demo.

Lemma attachment_stays_within_its_rates_witness :
  ∃ s w' s' exit, state_new demo_profile ∅ 3 0 = Returns s ∧
    read_frames demo_parse demo_ctx 90 demo_world s 0 demo_wakes = Returns (w', s', exit) ∧
    confirmed (tx w') ≤ 0 + 2 + 1 * ((clock_after 0 demo_wakes - 0) / 1000000000) ∧
    len (pages w') ≤ 0 + 5 + (clock_after 0 demo_wakes - 0) / (300 * 1000000000) ∧
    (exit = None → len (filter (λ e, oversized demo_parse demo_ctx e = true) demo_wakes) ≤ 7).
Proof.
  destruct (state_new (Uuid := N) demo_profile ∅ 3 0) as [s|] eqn:Hs; [|by vm_compute in Hs].
  destruct (read_frames demo_parse demo_ctx 90 demo_world s 0 demo_wakes) as [[[w' s'] exit]|] eqn:Hr.
  - exists s, w', s', exit. split; [done|]. split; [done|].
    apply (attachment_stays_within_its_rates demo_parse demo_ctx ∅ 3 0 s demo_world 90 0 demo_wakes w' s' exit);
      [by vm_compute|exact Hs|simpl; lia|exact Hr].
  - exfalso. revert Hr. injection Hs as <-. by vm_compute.
Defined.

Lemma publish_is_answered_once_or_refused_whole_witness :
  ∃ w' b' c' o,
    handle_publish demo_ctx demo_world (Bucket.mkBucket 2 1000000000 1 2 0 0 false) 5
      (mkPublish "brenn:door" None "hi" Normal (Some 1)) counters_default = Returns (w', b', c', o) ∧
    ((∃ v, o = Violation v ∧ w' = demo_world ∧ b' = Bucket.mkBucket 2 1000000000 1 2 0 0 false) ∨
     (∃ out, o = Continue ∧ tx_sent (tx w') = [] ++ [PublishResult (Some 1) out] ∧
        registry w' = registry demo_world ∧ pages w' = [] ∧
        (bus w' = () ∧ out ≠ PublishOk ∨ bus w' = () ∧ (out = PublishOk ↔ ∃ i a m, ResOk 1 "brenn:door" None = ResOk (Uuid := N) i a m)))).
Proof.
  apply (publish_is_answered_once_or_refused_whole demo_ctx demo_world _ _
    (mkPublish "brenn:door" None "hi" Normal (Some 1)) counters_default () (ResOk 1 "brenn:door" None)).
  - done.
  - intros ch Hch. apply String.eqb_eq in Hch as ->. done.
  - done.
  - done.
Defined.
End PlaneProps.
