(* ===== verification/Flush.v ===== *)
(** * The atomic flush, end to end

    Theorems about [handle_publish_batch] and the parked-set mirror it restates. [recorded]
    is any bus with the calls made of it written down, so that the order in which a flush
    reaches the bus is a list; the last theorem takes a component's calls through the page's
    buffer ([Buffer]) and its outbox ([Publish.batch_frame]) to the server's checks. *)

From S2P Require Import Prelude Envelope Ring Proto Budget Access TokenBucket Directory Subs Publish Buffer Serve Registry Session Attach Attached.

#[local] Open Scope N_scope.
#[local] Open Scope list_scope.

Module FlushProps.
Import Envelope Proto Serve Registry Plane Session PlaneProps.

(** ** Sorting and [dedup] *)

Lemma dedup_cons x y l : dedup (x :: y :: l) = if String.eqb x y then dedup (y :: l) else x :: dedup (y :: l).
Proof. done. Qed.

Lemma elem_of_dedup l c : c ∈ dedup l ↔ c ∈ l.
Proof.
  induction l as [|x [|y l] IH]; [done|done|]. rewrite dedup_cons. destruct (String.eqb_spec x y) as [->|Hne].
  - rewrite IH. set_solver.
  - rewrite elem_of_cons, IH. set_solver.
Qed.

Lemma dedup_sorted l : StronglySorted str_le l → NoDup (dedup l).
Proof.
  induction l as [|x [|y l] IH]; intros Hs; [constructor|repeat constructor; set_solver|].
  apply StronglySorted_inv in Hs as [Hs Hx]. rewrite dedup_cons. destruct (String.eqb_spec x y) as [->|Hne]; [by apply IH|].
  apply NoDup_cons. split; [|by apply IH]. rewrite elem_of_dedup. intros [->|Hin]%elem_of_cons; [done|].
  apply Forall_cons in Hx as [Hxy _]. apply StronglySorted_inv in Hs as [_ Hy].
  rewrite Forall_forall in Hy. specialize (Hy x Hin). apply Hne. by apply (anti_symm str_le).
Qed.

(** The channels of a restatement: each touched one, once. *)
Definition once (cs : list string) : list string := dedup (merge_sort str_le cs).

Lemma once_spec cs : NoDup (once cs) ∧ ∀ c, c ∈ once cs ↔ c ∈ cs.
Proof.
  split; [apply dedup_sorted, StronglySorted_merge_sort; apply _|].
  intros c. unfold once. by rewrite elem_of_dedup, merge_sort_Permutation.
Qed.

(** ** Stamps *)

(** Timestamps each above the last. *)
Fixpoint ascending_from (prev : option Z) (ts : list Z) : Prop :=
  match ts with
  | [] => True
  | t :: ts => match prev with None => True | Some p => (p < t)%Z end ∧ ascending_from (Some t) ts
  end.

Section props.
Context {B St Uuid DateTime : Type} `{Countable Uuid} `{Chrono DateTime} `{ChronoOrd DateTime}.
Context `{!Messenger B St Uuid DateTime} `{EscapeDebug}.

Lemma stamp_spec (es : list (ResolvedBatchEntry DateTime)) : ∀ clock prev,
  ascending_from prev (bp_publish_ts_ns <$> stamp clock prev es) ∧
  ((λ b, (bp_channel b, bp_body b, bp_urgency b, bp_deliver_after b)) <$> stamp clock prev es) =
  ((λ e, (re_channel e, re_body e, re_urgency e, re_deliver_after e)) <$> es).
Proof.
  induction es as [|e es IH]; intros clock prev; [done|]. cbn [stamp]. rewrite !fmap_cons.
  cbn [bp_channel bp_body bp_urgency bp_deliver_after bp_publish_ts_ns ascending_from].
  destruct (IH (tail clock) (Some match prev with None => default 0%Z (head clock)
    | Some p => Z.max (p + 1) (default 0%Z (head clock)) end)) as [Ha Hf]. rewrite Hf.
  split; [split; [|exact Ha]|done]. destruct prev; [lia|done].
Qed.

(** ** The mirror *)

(** What a sender has parked on a channel, as the wire states it. *)
Definition viewed (b : B) (sender c : string) : panics (list (DeferredViewEntry Uuid)) :=
  parked ← deferred_view_for_sender b c sender; deferred_view_entries parked.

(** (session) a flush restates each channel it touched exactly once. Where the sender is
    admitted and its parked sets are readable, [emit_views] returns; the attacher's sessions
    have been pushed one view for each distinct channel touched, in address order, each the
    sender's parked set as the bus holds it after the flush, and nothing else has changed. *)
Theorem views_restate_each_touched_channel_once x (w : World B Uuid DateTime) att sender cs entries :
  profile_admit (profile x) att = Some sender →
  (∀ c, c ∈ cs → viewed (bus w) sender c = Returns (entries c)) →
  ∃ l, NoDup l ∧ (∀ c, c ∈ l ↔ c ∈ cs) ∧
    emit_views x w att cs = Returns (mkWorld (bus w)
      (foldl (λ r c, push_deferred_view r (registry_key (attach_scope (profile x))) (mkViewPush c att (entries c)))
         (registry w) l) (tx w) (pages w)).
Proof.
  intros Hp Hv. destruct (once_spec cs) as [Hn Hin]. exists (once cs). split_and!; [done|done|].
  unfold emit_views. fold (once cs).
  assert (∀ c, c ∈ once cs → viewed (bus w) sender c = Returns (entries c)) as Hv'.
  { intros c Hc. by apply Hv, Hin. }
  clear Hn Hin Hv. revert w Hv'. generalize (once cs) as l. induction l as [|c l IH]; intros w Hv; [by destruct w|].
  cbn [foldl]. assert (broadcast_deferred_view x w att c = Returns (mkWorld (bus w)
    (push_deferred_view (registry w) (registry_key (attach_scope (profile x))) (mkViewPush c att (entries c))) (tx w) (pages w))) as Hb.
  { unfold broadcast_deferred_view, parked_sender. rewrite Hp. cbn [rust_expect mbind panics_bind].
    specialize (Hv c ltac:(set_solver)). unfold viewed in Hv.
    destruct (deferred_view_for_sender (bus w) c sender) as [parked|]; [|done]. cbn [mbind panics_bind] in *.
    by rewrite Hv. }
  cbn [mbind panics_bind]. rewrite Hb. rewrite IH; [done|]. intros c' Hc'. apply Hv. set_solver.
Qed.
End props.

(** ** What a batch asks for *)

Section given.
Context {Uuid DateTime : Type} `{Chrono DateTime} `{ChronoOrd DateTime}.

Definition representable (t : option N) : Prop :=
  match t with None => True | Some ms => is_Some (utc_from_epoch_ms (DateTime := DateTime) ms) end.

(** An entry as it is to be published at [now]: its release time is kept while it is still to
    come, and is the publish itself once it has come. *)
Definition given_entry (now : DateTime) (e : BatchEntry) : ResolvedBatchEntry DateTime :=
  mkResolvedEntry (entry_channel e) (entry_body e) (entry_urgency e)
    (ms ← entry_deliver_after e; t ← utc_from_epoch_ms ms; if later t now then Some t else None).

(** A control op, with its edit and the edit's release time. *)
Definition given_op (o : BatchDeferredOp Uuid) : ResolvedDeferredOp Uuid DateTime :=
  mkResolvedOp (op_channel o) (op_message_id o)
    match op_kind o with Cancel => None | Edit b t => Some (b, t ≫= utc_from_epoch_ms) end.

Definition entry_time (e : BatchEntry) : option N := entry_deliver_after e.
Definition control_time (o : BatchDeferredOp Uuid) : option N := match op_kind o with Cancel => None | Edit _ t => t end.

(** What resolving keeps of a batch, which is all of it, and that it refuses by violation only. *)
Lemma assert_publishable_violates x att ch :
  whenever (assert_publishable x att ch) (λ r, ∀ v, r = Err v → ∃ rule, v = Violation rule).
Proof. unfold assert_publishable. walk; intros v Hv; try (by injection Hv as <-; eauto). case_match; naive_solver. Qed.

Lemma resolve_entries_keeps x att now es :
  whenever (resolve_batch_entries x att es now) (λ r,
    match r with
    | Ok rs => rs = (given_entry now <$> es) ∧ Forall (representable ∘ entry_time) es
    | Err v => ∃ rule, v = Violation rule
    end).
Proof.
  induction es as [|e es IH]; cbn [resolve_batch_entries]; [by split|]. apply whenever_bind.
  eapply whenever_mono; [apply assert_publishable_violates|]. intros [u|v] Hv; [|by apply whenever_ret, Hv].
  set (t := match entry_deliver_after e with None => _ | Some _ => _ end).
  assert (match t with
          | Ok t => t = re_deliver_after (given_entry now e) ∧ representable (entry_time e)
          | Err v => v = Violation UnrepresentableTime
          end) as Ht.
  { unfold t, given_entry, representable, entry_time. simpl. destruct (entry_deliver_after e) as [ms|]; [|done].
    simpl. destruct (utc_from_epoch_ms ms); simpl; eauto. }
  destruct t as [t|v]; [|by apply whenever_ret; eauto]. destruct Ht as [-> Hrep].
  apply whenever_bind. eapply whenever_mono; [exact IH|].
  intros [rs|v] Hr; apply whenever_ret; [|done]. destruct Hr as [-> Hall]. split; [done|]. by constructor.
Qed.

Lemma resolve_ops_keeps x att (os : list (BatchDeferredOp Uuid)) :
  whenever (resolve_deferred_ops x att os) (λ r,
    match r with
    | Ok rs => rs = (given_op <$> os) ∧ Forall (representable ∘ control_time) os
    | Err v => ∃ rule, v = Violation rule
    end).
Proof.
  induction os as [|o os IH]; cbn [resolve_deferred_ops]; [by split|]. apply whenever_bind.
  eapply whenever_mono; [apply assert_publishable_violates|]. intros [u|v] Hv; [|by apply whenever_ret, Hv].
  set (t := match op_kind o with Cancel => _ | Edit _ _ => _ end).
  assert (match t with
          | Ok t => t = ro_edit (given_op o) ∧ representable (control_time o)
          | Err v => v = Violation UnrepresentableTime
          end) as Ht.
  { unfold t, given_op, representable, control_time. simpl. destruct (op_kind o) as [|body [ms|]]; [done| |done].
    simpl. destruct (utc_from_epoch_ms ms); simpl; eauto. }
  destruct t as [t|v]; [|by apply whenever_ret; eauto]. destruct Ht as [-> Hrep].
  apply whenever_bind. eapply whenever_mono; [exact IH|].
  intros [rs|v] Hr; apply whenever_ret; [|done]. destruct Hr as [-> Hall]. split; [done|]. by constructor.
Qed.

Lemma resolve_batch_keeps x (r : PublishBatchRequest Uuid) now :
  whenever (resolve_batch x r now) (λ q,
    match q with
    | Ok (sender, es, os) =>
        profile_admit (profile x) (batch_attribution r) = Some sender ∧
        es = (given_entry now <$> batch_publishes r) ∧ os = (given_op <$> batch_ops r) ∧
        Forall (representable ∘ entry_time) (batch_publishes r) ∧ Forall (representable ∘ control_time) (batch_ops r)
    | Err v => ∃ rule, v = Violation rule
    end).
Proof.
  unfold resolve_batch, admit_attribution_or_violate. destruct (profile_admit _ _) as [sender|]; [|by apply whenever_ret; eauto].
  destruct (batch_shape x r) as [v|] eqn:Hs.
  { apply whenever_ret. revert Hs. unfold batch_shape. repeat case_match; intros [= <-]; eauto. }
  apply whenever_bind. eapply whenever_mono; [apply resolve_entries_keeps|]. intros [es|v] He; [|by apply whenever_ret].
  apply whenever_bind. eapply whenever_mono; [apply resolve_ops_keeps|]. intros [os|v] Ho; apply whenever_ret; [|done].
  naive_solver.
Qed.
End given.

(** ** The order of a flush *)

(** A call that changes the bus, with what was asked and what it answered. *)
Inductive Call (Uuid DateTime : Type) :=
| CPublish (channel : string)
| CDraw (scope : Directory.AttachScope) (att : option string) (n : N) (verdict : AttachSendVerdict)
| COp (sender : string) (op : ResolvedDeferredOp Uuid DateTime) (now : DateTime) (out : DeferralOutcome DateTime)
| CRace (sender channel : string)
| CKick
| CBatch (scope : Directory.AttachScope) (att : option string) (batch : list (AttachBatchPublish DateTime))
    (posture : MissingChannelPosture) (missed : N).
Arguments CPublish {Uuid DateTime}.
Arguments CDraw {Uuid DateTime}.
Arguments COp {Uuid DateTime}.
Arguments CRace {Uuid DateTime}.
Arguments CKick {Uuid DateTime}.
Arguments CBatch {Uuid DateTime}.

Section order.
Context {B St Uuid DateTime : Type} `{Countable Uuid} `{Chrono DateTime} `{ChronoOrd DateTime}.
Context `{M : !Messenger B St Uuid DateTime} `{EscapeDebug}.
#[local] Abbreviation Log := (list (Call Uuid DateTime)).
#[local] Abbreviation World := (Session.World (Log * B) Uuid DateTime).

Definition log {A} (c : A → Call Uuid DateTime) (l : Log) (m : panics (B * A)) : panics ((Log * B) * A) :=
  r ← m; Returns ((l ++ [c r.2], r.1), r.2).

(** Any bus, with what changed it written down. *)
#[local] Instance recorded : Messenger (Log * B) St Uuid DateTime := {
  publish_from_attacher b scope att c body u := log (λ _, CPublish c) b.1 (publish_from_attacher b.2 scope att c body u);
  draw_attach_send_budget_for_batch b scope att n :=
    log (CDraw scope att n) b.1 (draw_attach_send_budget_for_batch b.2 scope att n);
  cancel_deferred_for_sender b c s id now :=
    log (COp s (mkResolvedOp c id None) now) b.1 (cancel_deferred_for_sender b.2 c s id now);
  edit_deferred_for_sender b c s id body at_ now :=
    log (COp s (mkResolvedOp c id (Some (body, at_))) now) b.1 (edit_deferred_for_sender b.2 c s id body at_ now);
  publish_batch_from_attacher b scope att batch posture :=
    log (CBatch scope att batch posture) b.1 (publish_batch_from_attacher b.2 scope att batch posture);
  deferred_view_for_sender b c s := deferred_view_for_sender b.2 c s;
  record_deferred_control_race b s c := (b.1 ++ [CRace s c], record_deferred_control_race b.2 s c);
  dispatch_kick b := (b.1 ++ [CKick], dispatch_kick b.2);
  served b := served b.2;
  with_served b v := (b.1, with_served b.2 v);
}.

Lemma log_logs {A} c (l : Log) (m : panics (B * A)) : whenever (log c l m) (λ r, r.1.1 = l ++ [c r.2]).
Proof. by destruct m. Qed.

(** The calls of control ops run through: each applied, or lost to a release that came first
    and recorded as the race it is. *)
Inductive ran (sender : string) (now : DateTime) : list (ResolvedDeferredOp Uuid DateTime) → Log → Prop :=
| ran_none : ran sender now [] []
| ran_applied op ops l : ran sender now ops l → ran sender now (op :: ops) (COp sender op now DeferralApplied :: l)
| ran_raced op ops t l :
    ran sender now ops l →
    ran sender now (op :: ops) (COp sender op now (NotDeferred t) :: CRace sender (ro_channel op) :: l).

(** Whether any of them applied. *)
Definition applied_any (l : Log) : bool :=
  existsb (λ c, match c with COp _ _ _ DeferralApplied => true | _ => false end) l.

Lemma apply_deferred_op_calls (w : World) sender op now :
  whenever (apply_deferred_op w sender op now) (λ r, kept w r.1 ∧
    ∃ out, (bus r.1).1 = (bus w).1 ++ COp sender op now out ::
             (match out with NotDeferred _ => [CRace sender (ro_channel op)] | _ => [] end) ∧
      r.2 = match out with
            | DeferralApplied => Ok Applied
            | NotDeferred _ => Ok Raced
            | WrongSender => Err (Violation ForeignMessage)
            end).
Proof.
  unfold apply_deferred_op. apply whenever_bind.
  eapply (whenever_mono _ (λ r, r.1.1 = (bus w).1 ++ [COp sender op now r.2])).
  { destruct op as [ch id [[body t]|]]; simpl; (eapply whenever_mono; [apply log_logs|]); intros r Hr; exact Hr. }
  intros [[l b] out]. cbn [fst snd]. intros ->. apply whenever_ret. destruct out as [|da|]; cbn [fst snd].
  - split; [apply kept_bus|]. by exists DeferralApplied.
  - split; [repeat split|]. exists (NotDeferred da). split; [|done]. cbn. by rewrite <-app_assoc.
  - split; [apply kept_bus|]. by exists WrongSender.
Qed.

Lemma apply_ops_calls sender ops now : ∀ (w : World) cs any,
  whenever (apply_ops w sender ops now cs any) (λ '(w', cs', any', v), kept w w' ∧
    ∃ l, any' = any || applied_any l ∧
      match v with
      | None => ran sender now ops l ∧ (bus w').1 = (bus w).1 ++ l
      | Some o => o = Violation ForeignMessage ∧
          ∃ before op after, ops = before ++ op :: after ∧ ran sender now before l ∧
            (bus w').1 = (bus w).1 ++ l ++ [COp sender op now WrongSender]
      end).
Proof.
  induction ops as [|op ops IH]; intros w cs any; cbn [apply_ops].
  { apply whenever_ret. split; [apply kept_refl|]. exists []. simpl. rewrite orb_false_r, app_nil_r. by repeat constructor. }
  apply whenever_bind. eapply whenever_mono; [apply apply_deferred_op_calls|].
  intros [w1 e] (Hk&out&Hl&He). cbn [fst snd] in *. subst e.
  assert (Hgo : ∀ (e : OpEffect) pre, (bus w1).1 = (bus w).1 ++ pre →
    (∀ k, applied_any (pre ++ k) = (match e with Applied => true | Raced => false end) || applied_any k) →
    (∀ before k, ran sender now before k → ran sender now (op :: before) (pre ++ k)) →
    whenever (apply_ops w1 sender ops now (cs ++ [ro_channel op])
        (any || match e with Applied => true | Raced => false end)) (λ '(w', cs', any', v), kept w w' ∧
      ∃ l, any' = any || applied_any l ∧
        match v with
        | None => ran sender now (op :: ops) l ∧ (bus w').1 = (bus w).1 ++ l
        | Some o => o = Violation ForeignMessage ∧
            ∃ before op' after, op :: ops = before ++ op' :: after ∧ ran sender now before l ∧
              (bus w').1 = (bus w).1 ++ l ++ [COp sender op' now WrongSender]
        end)).
  { intros e pre Hb Ha Hr. eapply whenever_mono; [apply IH|].
    intros [[[w2 cs2] any2] v] (Hk2&l2&->&Hv). split; [by eapply kept_trans|]. exists (pre ++ l2).
    rewrite Ha, orb_assoc. split; [done|]. destruct v as [v|].
    - destruct Hv as (->&before&op'&after&->&Hran&Hbus). split; [done|]. exists (op :: before), op', after.
      split_and!; [done|by apply Hr|]. by rewrite Hbus, Hb, !app_assoc.
    - destruct Hv as [Hran Hbus]. split; [by apply Hr|]. by rewrite Hbus, Hb, !app_assoc. }
  destruct out as [|t|]; cbn [app] in Hl.
  - apply (Hgo Applied [COp sender op now DeferralApplied] Hl); [done|]. intros. by constructor.
  - apply (Hgo Raced [COp sender op now (NotDeferred t); CRace sender (ro_channel op)] Hl); [done|]. intros. by constructor.
  - apply whenever_ret. split; [done|]. exists []. simpl. rewrite orb_false_r. split; [done|]. split; [done|].
    exists [], op, ops. split_and!; [done|constructor|done].
Qed.

Definition kicks (k : bool) : Log := if k then [CKick] else [].

(** How a flush can come out: what it answered and counted, and the calls it made of the bus,
    in order. *)
Inductive flushed (x : Ctx) (w : World) (r : PublishBatchRequest Uuid) (now : DateTime) (c : SessionCounters)
    : World → SessionCounters → FrameOutcome → Log → Prop :=
| flushed_refused v : flushed x w r now c w c (Violation v) []
| flushed_denied w' :
    tx_sent (tx w') = tx_sent (tx w) ++ [PublishBatchResult (batch_correlation r) BatchRateLimited] →
    registry w' = registry w → pages w' = pages w →
    flushed x w r now c w' (N.iter (len (batch_publishes r)) (count_rate_limited (batch_attribution r)) c) Continue
      [CDraw (attach_scope (profile x)) (batch_attribution r) (N.max (len (batch_publishes r)) 1) SendDenied]
| flushed_foreign w' sender before op after ops :
    profile_admit (profile x) (batch_attribution r) = Some sender →
    (given_op <$> batch_ops r) = before ++ op :: after → ran sender now before ops →
    tx w' = tx w → pages w' = pages w →
    flushed x w r now c w' c (Violation ForeignMessage)
      (CDraw (attach_scope (profile x)) (batch_attribution r) (N.max (len (batch_publishes r)) 1) SendAdmitted ::
       ops ++ [COp sender op now WrongSender] ++ kicks (applied_any ops))
| flushed_applied w' sender ops stamps missed :
    profile_admit (profile x) (batch_attribution r) = Some sender →
    ran sender now (given_op <$> batch_ops r) ops →
    length stamps = length (batch_publishes r) → ascending_from None stamps →
    tx_sent (tx w') = tx_sent (tx w) ++ [PublishBatchResult (batch_correlation r) BatchOk] → pages w' = pages w →
    flushed x w r now c w'
      (N.iter (u64_sub (len (batch_publishes r)) missed) (count_publish_ok (batch_attribution r)) c) Continue
      (CDraw (attach_scope (profile x)) (batch_attribution r) (N.max (len (batch_publishes r)) 1) SendAdmitted ::
       ops ++ kicks (applied_any ops) ++
       [CBatch (attach_scope (profile x)) (batch_attribution r)
          (zip_with (λ e ts, mkBatchPublish (re_channel e) (re_body e) (re_urgency e) ts (re_deliver_after e))
             (given_entry now <$> batch_publishes r) stamps)
          (missing_channel_posture (profile x)) missed]).

Lemma kick_if_calls any (w : World) : (bus (kick_if any w)).1 = (bus w).1 ++ kicks any ∧ kept w (kick_if any w).
Proof. destruct any; [split; [done|apply kept_bus]|]. cbn. rewrite app_nil_r. split; [done|apply kept_refl]. Qed.

Lemma stamp_stamps (es : list (ResolvedBatchEntry DateTime)) : ∀ clock prev,
  ∃ stamps, length stamps = length es ∧ ascending_from prev stamps ∧
    stamp clock prev es =
      zip_with (λ e ts, mkBatchPublish (re_channel e) (re_body e) (re_urgency e) ts (re_deliver_after e)) es stamps.
Proof.
  intros clock prev. destruct (stamp_spec es clock prev) as [Ha _]. exists (bp_publish_ts_ns <$> stamp clock prev es).
  split_and!; [|done|]; clear Ha; revert clock prev; induction es as [|e es IH]; intros clock prev; [done| |done|];
    cbn [stamp]; rewrite fmap_cons; cbn [length zip_with bp_publish_ts_ns]; f_equal; apply IH.
Qed.

Lemma apply_batch_calls x (w w1 : World) r sender now clock c l :
  kept w w1 → (bus w1).1 = l → tx_open (tx w) = true → profile_admit (profile x) (batch_attribution r) = Some sender →
  whenever (apply_batch x w1 r sender (given_entry now <$> batch_publishes r) (given_op <$> batch_ops r) now clock c)
    (λ '(w', c', o), ∃ calls, (bus w').1 = l ++ calls ∧
      flushed x w r now c w' c' o
        (CDraw (attach_scope (profile x)) (batch_attribution r) (N.max (len (batch_publishes r)) 1) SendAdmitted :: calls)).
Proof.
  intros Hk Hl Hopen Hadm. unfold apply_batch. apply whenever_bind.
  eapply whenever_mono; [apply apply_ops_calls|]. intros [[[w2 cs] any] v] (Hk2&ops&Hany&Hv). simpl in Hany. subst any.
  destruct (kick_if_calls (applied_any ops) w2) as [Hb3 Hk3].
  pose proof (kept_trans _ _ _ (kept_trans _ _ _ Hk Hk2) Hk3) as Hkk. destruct v as [v|].
  - destruct Hv as (->&before&op&after&Hops&Hran&Hb2). rewrite Hb2, Hl in Hb3.
    apply whenever_bind. eapply whenever_mono; [apply emit_views_keeps|].
    intros w4 [Hk4 Hb4]. apply whenever_ret. exists (ops ++ [COp sender op now WrongSender] ++ kicks (applied_any ops)).
    rewrite Hb4. split; [by rewrite Hb3, <-!app_assoc|].
    destruct (kept_trans _ _ _ Hkk Hk4) as (Ht&Hp&_). by eapply flushed_foreign.
  - destruct Hv as [Hran Hb2]. rewrite Hb2, Hl in Hb3.
    apply whenever_bind. eapply whenever_mono; [apply log_logs|]. intros [[l4 b4] n4]. cbn [fst snd]. intros Hl4.
    apply whenever_bind. eapply whenever_mono; [apply emit_views_keeps|]. intros w5 [Hk5 Hb5].
    pose proof (kept_trans _ _ _ (kept_trans _ _ _ Hkk (kept_bus _ (l4, b4))) Hk5) as (Htx&Hpg&_).
    destruct (answer_open w5 (PublishBatchResult (batch_correlation r) BatchOk)) as (w6&->&Hs6&_&Hb6&_&Hp6); [by rewrite Htx|].
    destruct (stamp_stamps (given_entry now <$> batch_publishes r) clock None) as (stamps&Hlen&Hasc&Hst). rewrite Hst in Hl4 |- *.
    rewrite length_fmap in Hlen. apply whenever_ret. eexists. split.
    + rewrite Hb6, Hb5. simpl. rewrite Hl4, Hb3. by rewrite <-!app_assoc.
    + assert (len (zip_with (λ e ts, mkBatchPublish (re_channel e) (re_body e) (re_urgency e) ts (re_deliver_after e))
        (given_entry now <$> batch_publishes r) stamps) = len (batch_publishes r)) as ->.
      { unfold len. rewrite length_zip_with, length_fmap. lia. }
      eapply flushed_applied; [done|done|done|done|by rewrite Hs6, Htx|by rewrite Hp6, Hpg].
Qed.

Lemma handle_publish_batch_calls x (w : World) r now clock c :
  tx_open (tx w) = true →
  whenever (handle_publish_batch x w r now clock c) (λ '(w', c', o), ∃ calls,
    (bus w').1 = (bus w).1 ++ calls ∧ flushed x w r now c w' c' o calls).
Proof.
  intros Hopen. unfold handle_publish_batch. apply whenever_bind.
  eapply whenever_mono; [apply resolve_batch_keeps|]. intros [[[sender es] os]|v].
  2: { intros [rule ->]. apply whenever_ret. exists []. rewrite app_nil_r. split; [done|constructor]. }
  intros (Hadm&->&->&_&_). apply whenever_bind. rewrite len_fmap. set (draw := N.max (len (batch_publishes r)) 1).
  unfold rust_expect. cbv zeta. fold draw. destruct (draw <=? u32_max); [|done]. apply whenever_ret, whenever_bind.
  eapply whenever_mono; [apply log_logs|]. intros [[l b] verdict]. cbn [fst snd]. intros Hl. subst l. destruct verdict.
  - eapply whenever_mono; [by eapply (apply_batch_calls x w (with_bus w _)); [apply kept_bus|..]|].
    intros [[w' c'] o] (calls&Hb&Hf). eexists. split; [|exact Hf]. rewrite Hb. simpl. by rewrite <-app_assoc.
  - destruct (answer_open (with_bus w ((bus w).1 ++ [CDraw (attach_scope (profile x)) (batch_attribution r) draw SendDenied], b))
      (PublishBatchResult (batch_correlation r) BatchRateLimited) Hopen) as (w'&->&Hs&_&Hb&Hr&Hp).
    apply whenever_ret. eexists. split; [|by apply flushed_denied]. by rewrite Hb.
Qed.

(** C25: (session) a flush reaches the bus in order. Over any bus, a flush the server handles
    is refused before it has touched the bus, the wire or a counter; or draws the sender's
    budget once, one token for each publish and one for a batch of none, and if that is
    denied does nothing but count and say so; or then runs the control ops in the order
    given, each the cancel or the edit it was, recording the races lost, and stops at one
    aimed at another sender's message without publishing or counting; or after them all
    hands over every publish in the order given, with its channel, body, urgency and, where
    still to come, its release time, in one call under strictly ascending stamps, counts
    those the bus did not miss, and answers [Ok] once. The dispatcher is kicked once, right
    after the ops, exactly when one of them applied. *)
Theorem flush_reaches_the_bus_in_order x (w : World) r now clock c w' c' o :
  tx_open (tx w) = true → handle_publish_batch x w r now clock c = Returns (w', c', o) →
  ∃ calls, (bus w').1 = (bus w).1 ++ calls ∧ flushed x w r now c w' c' o calls.
Proof.
  intros Hopen Hh. pose proof (handle_publish_batch_calls x w r now clock c Hopen) as Hw. rewrite Hh in Hw. exact Hw.
Qed.
End order.

(** ** The page's gates and the server's *)

Section conforming.
Import Buffer BufferRun.
Context {Uuid DateTime K : Type} `{Countable K} `{Chrono DateTime} `{ChronoOrd DateTime} `{DebugStr}.

(** A channel the profile lets this attribution write, spelled as the bus could have. *)
Definition writable (x : Ctx) (att : option string) (c : string) : Prop :=
  publishable (profile x) att c = true ∧ is_local_channel c = false ∧
  is_Some (s ← scheme_of c; well_formed_name c s).

(** The two ends agree on the wiring: what the page binds an output to, on the wire, the
    server's profile lets the attribution write. *)
Definition wired_alike (x : Ctx) (att : option string) (outs : gmap string OutputSpec) : Prop :=
  ∀ port spec, outs !! port = Some spec → on_wire (out_channel spec) = true → writable x att (out_channel spec).

Lemma writable_admitted x att c : writable x att c → assert_publishable x att c = Returns (Ok ()).
Proof.
  intros (Hp&Hl&n&Hn). unfold assert_publishable. rewrite Hp, Hl. cbn [negb rust_assert mbind panics_bind]. by rewrite Hn.
Qed.

Lemma checked_representable da :
  Budget.check_deliver_after (DateTime := DateTime) da = Ok () → representable (DateTime := DateTime) da.
Proof. unfold Budget.check_deliver_after, representable. destruct da as [ms|]; [|done]. by destruct (utc_from_epoch_ms ms) as [t|]; [exists t|]. Qed.

Lemma resolve_entries_ok x att now es :
  Forall (λ e, writable x att (entry_channel e) ∧ representable (DateTime := DateTime) (entry_time e)) es →
  ∃ rs : list (ResolvedBatchEntry DateTime), resolve_batch_entries x att es now = Returns (Ok rs).
Proof.
  induction 1 as [|e es [Hw Ht] _ [rs IH]]; [by eexists|]. cbn [resolve_batch_entries].
  rewrite writable_admitted by done. cbn [mbind panics_bind]. unfold entry_time in Ht.
  destruct (entry_deliver_after e) as [ms|]; [destruct Ht as [t ->]|]; rewrite IH; by eexists.
Qed.

Lemma resolve_ops_ok x att (os : list (BatchDeferredOp Uuid)) :
  Forall (λ o, writable x att (op_channel o) ∧ representable (DateTime := DateTime) (control_time o)) os →
  ∃ rs : list (ResolvedDeferredOp Uuid DateTime), resolve_deferred_ops x att os = Returns (Ok rs).
Proof.
  induction 1 as [|o os [Hw Ht] _ [rs IH]]; [by eexists|]. cbn [resolve_deferred_ops].
  rewrite writable_admitted by done. cbn [mbind panics_bind]. unfold control_time in Ht.
  destruct (op_kind o) as [|body [ms|]]; [|destruct Ht as [t ->]|]; rewrite IH; by eexists.
Qed.

(** What is bound for the wire is no more than what the gate counted. *)
Lemma wire_bytes (es : list BufferedPublish) (os : list (BufferedDeferOp Uuid)) :
  body_bytes (wire_entries es) + edit_bytes (wire_ops os) ≤
  sum (str_len ∘ bf_body <$> es) + sum (edit_charge ∘ bo_kind <$> os).
Proof.
  assert (Hcons : ∀ (e : BatchEntry) l, body_bytes (e :: l) = str_len (entry_body e) + body_bytes l) by done.
  assert (Hedit : ∀ (o : BufferedDeferOp Uuid) l, edit_bytes (wire_op o :: l) = edit_charge (bo_kind o) + edit_bytes l).
  { by intros [p ch id [|[body|] da]] l. }
  assert (body_bytes (wire_entries es) ≤ sum (str_len ∘ bf_body <$> es)).
  { unfold wire_entries. induction es as [|e es IH]; [done|]. rewrite filter_cons, fmap_cons, sum_cons. case_decide.
    - rewrite fmap_cons, Hcons. unfold compose at 1. simpl entry_body. lia.
    - lia. }
  assert (edit_bytes (wire_ops os) ≤ sum (edit_charge ∘ bo_kind <$> os)); [|lia].
  unfold wire_ops. induction os as [|o os IH]; [done|]. rewrite filter_cons, fmap_cons, sum_cons. case_decide.
  - rewrite fmap_cons, Hedit. unfold compose at 1. lia.
  - lia.
Qed.

Lemma gated_entries x att (b : PublishBuffer Uuid) :
  wired_alike x att (outputs b) → gated (DateTime := DateTime) b →
  Forall (λ e, writable x att (entry_channel e) ∧ representable (DateTime := DateTime) (entry_time e)) (wire_entries (buf_entries b)).
Proof.
  intros Hwire [_ He _]. apply Forall_fmap, Forall_forall. intros e [Hon Hin]%list_elem_of_filter. rewrite Forall_forall in He.
  destruct (He e Hin) as [Hda (port&spec&Hp&Hch)]. simpl. unfold entry_time. simpl. split; [|by apply checked_representable].
  rewrite Hch in Hon |- *. apply (Hwire port spec Hp). by destruct (on_wire _).
Qed.

Lemma gated_ops x att (b : PublishBuffer Uuid) :
  wired_alike x att (outputs b) → gated (DateTime := DateTime) b →
  Forall (λ o, writable x att (op_channel o) ∧ representable (DateTime := DateTime) (control_time o)) (wire_ops (defer_ops b)).
Proof.
  intros Hwire [_ _ Ho]. apply Forall_fmap, Forall_forall. intros o [Hon Hin]%list_elem_of_filter. rewrite Forall_forall in Ho.
  destruct (Ho o Hin) as [Hda (port&spec&Hp&Hch)]. simpl. split.
  - rewrite Hch in Hon |- *. apply (Hwire port spec Hp). by destruct (on_wire _).
  - apply checked_representable in Hda. unfold control_time, op_time in *. simpl. by destruct (bo_kind o).
Qed.

Lemma gated_shape x att corr (b : PublishBuffer Uuid) :
  buffer_ok b → gated (DateTime := DateTime) b →
  Publish.batch_is_empty (Publish.mkBatch (wire_entries (buf_entries b)) (wire_ops (defer_ops b))) = false →
  check_batch_legality (wire_entries (buf_entries b)) (wire_ops (defer_ops b)) (max_body_bytes x) = Ok () →
  batch_shape x (mkBatch att corr (wire_entries (buf_entries b)) (wire_ops (defer_ops b))) = None.
Proof.
  intros [[Hge Hgo Hgb _ _] _ He Ho _ _ _] [Hb _ _] Hne Hleg. unfold batch_shape. cbn [batch_publishes batch_ops].
  pose proof (wire_bytes (buf_entries b) (defer_ops b)) as Hw. unfold buffered_bytes in Hb.
  assert (len (wire_entries (buf_entries b)) ≤ len (buf_entries b)) as Hl1.
  { unfold wire_entries. rewrite len_fmap. unfold len. pose proof (length_filter (λ e, on_wire (bf_channel e)) (buf_entries b)). lia. }
  assert (len (wire_ops (defer_ops b)) ≤ len (defer_ops b)) as Hl2.
  { unfold wire_ops. rewrite len_fmap. unfold len. pose proof (length_filter (λ o, on_wire (bo_channel o)) (defer_ops b)). lia. }
  rewrite (proj2 (N.ltb_ge _ (len (wire_entries _)))), (proj2 (N.ltb_ge _ (len (wire_ops _)))), (proj2 (N.ltb_ge _ (_ + _))), Hleg by lia.
  unfold Publish.batch_is_empty in Hne. cbn [Publish.batch_entries Publish.batch_ops] in Hne.
  by destruct (wire_entries _), (wire_ops _).
Qed.

(** C24: (session) a page's flush is never refused. Whatever a component calls of the buffer it
    was seeded with, the batch it leaves for the wire, once its outbox has taken it, goes out
    under whatever body cap the [Welcome] of the day stated as a frame the server resolves
    whole, as long as the server admits the attribution and lets it write what the page
    bound: the server goes on with the frame's entries and ops themselves, in order, with
    their bodies, urgencies, edits and release times, and every one of those times exists. *)
Theorem conforming_flush_is_never_refused x outs declared sink_mt max parked cs (b : PublishBuffer Uuid) answers
    (o0 o o' : Publish.Outboxes Uuid K) k t0 taken att corr es os sender now :
  seeded outs sink_mt max →
  component_run (DateTime := DateTime) (buffer_new outs declared sink_mt max parked) cs = Returns (b, answers) →
  Publish.flush o0 k (Publish.mkBatch (wire_entries (buf_entries b)) (wire_ops (defer_ops b))) t0 = Returns taken →
  Publish.batch_frame o k (Publish.mkBatch (wire_entries (buf_entries b)) (wire_ops (defer_ops b))) =
    Returns (o', PublishBatch att corr es os) →
  Publish.body_cap o = Some (max_body_bytes x) →
  profile_admit (profile x) att = Some sender → wired_alike x att outs →
  resolve_batch x (mkBatch att corr es os) now = Returns (Ok (sender, given_entry now <$> es, given_op <$> os)) ∧
  Forall (representable (DateTime := DateTime) ∘ entry_time) es ∧ Forall (representable (DateTime := DateTime) ∘ control_time) os ∧
  es = wire_entries (buf_entries b) ∧ os = wire_ops (defer_ops b).
Proof.
  intros Hseed Hrun Htake Hf Hcap Hadm Hwire.
  pose proof (buffer_new_ok outs declared sink_mt max parked Hseed) as Hb0.
  destruct (component_run_ok (DateTime := DateTime) _ cs Hb0) as (b1&an1&Hr1&_&(Houts&_)&_).
  rewrite Hrun in Hr1. injection Hr1 as <- <-. simpl in Houts. rewrite <-Houts in Hwire.
  destruct (gated_run cs _ _ _ Hb0 (gated_new _ _ _ _ _) Hrun) as [Hb Hg].
  unfold Publish.flush in Htake. destruct (Publish.batch_is_empty _) eqn:Hne; [done|]. clear Htake.
  unfold Publish.batch_frame in Hf. rewrite Hcap in Hf. cbn [rust_expect mbind panics_bind] in Hf.
  destruct (check_batch_legality _ _ (max_body_bytes x)) as [[]|] eqn:Hlaw; [|done]. cbn [rust_assert mbind panics_bind] in Hf.
  destruct (Publish.registrants o !! k) as [r|]; [|done]. cbn [rust_expect mbind panics_bind] in Hf.
  destruct (Publish.in_flight r); [done|]. injection Hf as <- <- <- <- <-. cbn [Publish.batch_entries Publish.batch_ops] in *.
  destruct (resolve_entries_ok x (Publish.attribution r) now _ (gated_entries _ _ _ Hwire Hg)) as [rs Hrs].
  destruct (resolve_ops_ok x (Publish.attribution r) _ (gated_ops _ _ _ Hwire Hg)) as [ro Hro].
  assert (resolve_batch x (mkBatch (Publish.attribution r) (Publish.next_correlation o) (wire_entries (buf_entries b))
    (wire_ops (defer_ops b))) now = Returns (Ok (sender, rs, ro))) as Hr.
  { unfold resolve_batch, admit_attribution_or_violate. rewrite gated_shape by done. cbn [batch_attribution batch_publishes batch_ops].
    rewrite Hadm, Hrs. cbn [mbind panics_bind]. by rewrite Hro. }
  pose proof (resolve_batch_keeps x (mkBatch (Publish.attribution r) (Publish.next_correlation o)
    (wire_entries (buf_entries b)) (wire_ops (defer_ops b))) now) as Hk. rewrite Hr in Hk.
  destruct Hk as (_&->&->&?&?). done.
Qed.
End conforming.

(** ** Witnesses *)
Import EvalInstances Demo.

Lemma views_restate_each_touched_channel_once_witness :
  ∃ l, NoDup l ∧ (∀ c, c ∈ l ↔ c ∈ ["brenn:b"%string; "brenn:a"%string; "brenn:b"%string]) ∧
    emit_views demo_ctx demo_world None ["brenn:b"%string; "brenn:a"%string; "brenn:b"%string] = Returns (mkWorld ()
      (foldl (λ r c, push_deferred_view r (registry_key (Directory.mkScope Directory.KindSurface "bar")) (mkViewPush c None []))
         registry_default l) (mkWriter true [] 0) []).
Proof.
  apply (views_restate_each_touched_channel_once demo_ctx demo_world None "surface:bar"
    ["brenn:b"%string; "brenn:a"%string; "brenn:b"%string] (λ _, [])); done.
Defined.

Definition demo_batch : PublishBatchRequest N :=
  mkBatch None 4 [mkEntry "brenn:door" "one" Normal None; mkEntry "brenn:door" "two" Normal (Some 5)]
    [mkDeferredOp "brenn:door" 3 Cancel].
#[local] Existing Instance recorded.
Definition demo_logged : World (list (Call N Z) * ()) N Z := mkWorld ([], ()) registry_default (mkWriter true [] 0) [].

Lemma flush_reaches_the_bus_in_order_witness :
  ∃ w' c' o, handle_publish_batch demo_ctx demo_logged demo_batch 0%Z [10%Z; 10%Z] counters_default = Returns (w', c', o) ∧
  ∃ calls, (bus w').1 = [] ++ calls ∧ flushed demo_ctx demo_logged demo_batch 0%Z counters_default w' c' o calls.
Proof.
  destruct (handle_publish_batch demo_ctx demo_logged demo_batch 0%Z [10%Z; 10%Z] counters_default)
    as [[[w' c'] o]|] eqn:Hr; [|by vm_compute in Hr].
  exists w', c', o. split; [done|].
  exact (flush_reaches_the_bus_in_order demo_ctx demo_logged demo_batch 0%Z [10%Z; 10%Z] counters_default w' c' o eq_refl Hr).
Defined.

(** The calls themselves, on that flush. *)
Example demo_flush_calls :
  (λ r, (bus r.1.1).1) <$> match handle_publish_batch demo_ctx demo_logged demo_batch 0%Z [10%Z; 10%Z] counters_default with
                           | Returns r => Some r | Panics _ => None end =
  Some [CDraw (Directory.mkScope Directory.KindSurface "bar") None 2 SendAdmitted;
        COp "surface:bar" (mkResolvedOp "brenn:door" 3 None) 0%Z DeferralApplied; CKick;
        CBatch (Directory.mkScope Directory.KindSurface "bar") None
          [mkBatchPublish "brenn:door" "one" Normal 10 None; mkBatchPublish "brenn:door" "two" Normal 11 (Some 5%Z)]
          MissingInvariant 0].
Proof. vm_compute. reflexivity. Qed.

(** A page with one output on that channel and one confined to it, a message of its own parked
    there, and the outbox its flush goes through. *)
Definition door_outs : gmap string Buffer.OutputSpec :=
  {["out" := Buffer.mkOutput "brenn:door" Normal; "near" := Buffer.mkOutput "local:bar" Normal]}.
Definition door_sinks : gmap string N := {["out" := 3000; "near" := 3000]}.
Definition door_calls : list Buffer.BufferRun.component_call :=
  [Buffer.BufferRun.CallPublish "out" "one"; Buffer.BufferRun.CallPublishDeferred "out" "two" 5;
   Buffer.BufferRun.CallPublish "near" "here"; Buffer.BufferRun.CallCancel "out" 0].
#[local] Instance door_debug : Buffer.DebugStr := λ s, s.
Definition door_outboxes : Publish.Outboxes N N :=
  Publish.mkOutboxes {[7 := Publish.mkOutbox 0 None 2 [] None 0 false 0]} ∅ 4 1 (Some 64) false.

Lemma door_seeded : Buffer.BufferRun.seeded door_outs door_sinks 64.
Proof.
  split; [vm_compute; discriminate|]. intros port spec. unfold door_outs, door_sinks.
  rewrite lookup_insert_Some, lookup_singleton_Some. intros [[<- <-]|[_ [<- <-]]]; (split; [done|]; split; [vm_compute; discriminate|eauto]).
Qed.

Lemma door_wired_alike : wired_alike demo_ctx None door_outs.
Proof.
  intros port spec. unfold door_outs. rewrite lookup_insert_Some, lookup_singleton_Some. intros [[<- <-]|[_ [<- <-]]] Hon; [|done].
  split_and!; [done|done|by exists "door"%string].
Qed.

Lemma conforming_flush_is_never_refused_witness :
  resolve_batch demo_ctx demo_batch 0%Z =
    Returns (Ok ("surface:bar"%string, given_entry 0%Z <$> batch_publishes demo_batch, given_op <$> batch_ops demo_batch)).
Proof.
  assert (Hrun : match Buffer.BufferRun.component_run (DateTime := Z) (Buffer.buffer_new door_outs {["out"; "near"]} door_sinks 64 {["out" := [3]]}) door_calls with
    | Returns (b, _) => (Buffer.BufferRun.wire_entries (Buffer.buf_entries b), Buffer.BufferRun.wire_ops (Buffer.defer_ops b)) =
                          (batch_publishes demo_batch, batch_ops demo_batch)
    | Panics _ => False end) by (vm_compute; reflexivity).
  destruct (Buffer.BufferRun.component_run (DateTime := Z) (Buffer.buffer_new door_outs {["out"; "near"]} door_sinks 64 {["out" := [3]]}) door_calls)
    as [[b answers]|] eqn:Hr; [|done].
  pose proof (f_equal fst Hrun) as He. pose proof (f_equal snd Hrun) as Ho. cbn [fst snd] in He, Ho. clear Hrun.
  destruct (Publish.flush door_outboxes 7 (Publish.mkBatch (batch_publishes demo_batch) (batch_ops demo_batch)) 0) as [taken|] eqn:Ht; [|by vm_compute in Ht].
  destruct (Publish.batch_frame door_outboxes 7 (Publish.mkBatch (batch_publishes demo_batch) (batch_ops demo_batch))) as [[o' f]|] eqn:Hf; [|by vm_compute in Hf].
  assert (f = PublishBatch None 4 (batch_publishes demo_batch) (batch_ops demo_batch)) as ->
    by (vm_compute in Hf; by injection Hf as <- <-).
  rewrite <-He, <-Ho in Hf, Ht.
  destruct (conforming_flush_is_never_refused demo_ctx door_outs {["out"; "near"]} door_sinks 64 {["out" := [3]]} door_calls b answers
    door_outboxes door_outboxes o' 7 0 taken None 4 _ _ "surface:bar" 0%Z door_seeded Hr Ht Hf eq_refl eq_refl door_wired_alike) as (Hres&_).
  rewrite He, Ho in Hres. exact Hres.
Defined.
End FlushProps.
