(* ===== verification/Lifecycle.v ===== *)
(** * The life of an attachment: theorems

    About [Attach]: when an attachment is attached and what it has said by then, that it
    gives up its slot however it ends, when silence reaps it, and what the writer task writes
    and in which order. *)

From S2P Require Import Prelude Envelope Ring Proto Access TokenBucket Directory Subs Serve Registry Session Attach Attached.

#[local] Open Scope N_scope.
#[local] Open Scope list_scope.

Module LifeProps.
Import Envelope Proto Serve Registry Plane Session Socket Attachment PlaneProps.

(** ** The writer task *)

Section writer.
Context {Uuid DateTime : Type}.
#[local] Abbreviation ServerFrame := (Proto.ServerFrame Uuid DateTime).
#[local] Abbreviation Task := (WriterTask Uuid DateTime).
#[local] Abbreviation Event := (WriterEvent Uuid DateTime).
Implicit Types (t : Task) (l : list (Written Uuid DateTime)) (es : list Event).

(** The pings written since the last text frame. *)
Definition silence_step (n : N) (m : Written Uuid DateTime) : N :=
  match m with WPing => n + 1 | WFrame _ => 0 | WClose _ => n end.
Definition silence (n : N) l : N := foldl silence_step n l.
Definition is_text (m : Written Uuid DateTime) : bool := match m with WFrame _ => true | _ => false end.
Definition is_ping (m : Written Uuid DateTime) : bool := match m with WPing => true | _ => false end.
Definition pings l : N := len (filter (λ m, is_ping m = true) l).

(** A trace whose every prefix has at most [k] pings behind its last text. *)
Fixpoint quiet_at_most (k n : N) l : Prop :=
  match l with
  | [] => True
  | m :: l => silence_step n m ≤ k ∧ quiet_at_most k (silence_step n m) l
  end.

Lemma quiet_snoc k l m : ∀ n,
  quiet_at_most k n (l ++ [m]) ↔ quiet_at_most k n l ∧ silence_step (silence n l) m ≤ k.
Proof. induction l as [|a l IH]; intros n; simpl; [tauto|]. rewrite IH. tauto. Qed.

Lemma silence_snoc n l m : silence n (l ++ [m]) = silence_step (silence n l) m.
Proof. unfold silence. by rewrite foldl_app. Qed.

(** The task between turns: a frame written since the last tick ends the silence, and a tick
    that found one opens a silence of one ping. *)
Definition paced t : Prop :=
  quiet_at_most 2 0 (written t) ∧ silence 0 (written t) ≤ (if wrote_frame_since_tick t then 0 else 1).

Lemma write_spec t m t' ok :
  write_with_watchdog t m = (t', ok) →
  written t' = written t ++ (if ok then [m] else []) ∧ wrote_frame_since_tick t' = wrote_frame_since_tick t ∧
  rx t' = rx t ∧ rx_open t' = rx_open t ∧ close_rx t' = close_rx t.
Proof. unfold write_with_watchdog. destruct (sink t) as [|[] s]; intros [= <- <-]; simpl; rewrite ?app_nil_r; done. Qed.

Lemma write_quiet t m t' ok :
  write_with_watchdog t m = (t', ok) → quiet_at_most 2 0 (written t) → silence_step (silence 0 (written t)) m ≤ 2 →
  quiet_at_most 2 0 (written t').
Proof.
  intros (->&_)%write_spec Hq Hs. destruct ok; [|by rewrite app_nil_r]. by apply quiet_snoc.
Qed.

Lemma flush_queue_quiet q : ∀ t t' ok,
  flush_queue q t = (t', ok) → quiet_at_most 2 0 (written t) → silence 0 (written t) ≤ 2 →
  quiet_at_most 2 0 (written t') ∧ silence 0 (written t') ≤ 2.
Proof.
  induction q as [|f q IH]; intros t t' ok; cbn [flush_queue]; [by intros [= <- <-]|].
  destruct (write_with_watchdog (with_rx t q) (WFrame f)) as [t1 ok1] eqn:Hw. intros Hf Hq Hs.
  pose proof (write_quiet _ _ _ _ Hw Hq) as Hq1. apply write_spec in Hw as (Hw&_). cbn [with_rx written] in Hw, Hq1.
  assert (silence 0 (written t1) ≤ 2) as Hs1.
  { rewrite Hw. destruct ok1; [rewrite silence_snoc; simpl; lia|by rewrite app_nil_r]. }
  destruct ok1; [eapply IH; [exact Hf|apply Hq1; simpl; lia|done]|]. injection Hf as <- <-. split; [apply Hq1; simpl; lia|done].
Qed.

Lemma write_close_quiet t r :
  quiet_at_most 2 0 (written t) → silence 0 (written t) ≤ 2 → quiet_at_most 2 0 (written (write_close t r)).
Proof. intros Hq Hs. unfold write_close. destruct (write_with_watchdog t _) as [t' ok] eqn:Hw. by eapply write_quiet. Qed.

Lemma writer_step_paced t e t' on :
  writer_step t e = (t', on) → paced t → quiet_at_most 2 0 (written t') ∧ (on = true → paced t').
Proof.
  intros Hstep [Hq Hs]. assert (silence 0 (written t) ≤ 1) as Hs1 by (destruct (wrote_frame_since_tick t); lia).
  destruct e; cbn [writer_step] in Hstep.
  - destruct (rx_open t); injection Hstep as <- <-; by repeat split.
  - destruct (close_rx t); injection Hstep as <- <-; by repeat split.
  - destruct (close_rx t); injection Hstep as <- <-; by repeat split.
  - injection Hstep as <- <-. by repeat split.
  - destruct (rx t) as [|f q].
    + destruct (rx_open t); injection Hstep as <- <-; [by repeat split|].
      split; [|done]. destruct (close_rx t); try done. apply write_close_quiet; [done|lia].
    + destruct (write_with_watchdog (with_rx t q) (WFrame f)) as [t1 ok] eqn:Hw.
      pose proof (write_quiet _ _ _ _ Hw Hq ltac:(simpl; lia)) as Hq1. apply write_spec in Hw as (Hw&_).
      destruct ok; injection Hstep as <- <-; [|done]. split; [done|]. intros _. split; [done|].
      cbn [with_wrote written wrote_frame_since_tick]. rewrite Hw, silence_snoc. simpl. lia.
  - destruct (close_settled t); [injection Hstep as <- <-; by repeat split|].
    destruct (close_rx t) as [|r|]; [injection Hstep as <- <-; by repeat split| |injection Hstep as <- <-; by repeat split].
    destruct (flush_queue (rx t) t) as [t1 ok] eqn:Hf. injection Hstep as <- <-. split; [|done].
    apply flush_queue_quiet in Hf as [Hq1 Hs2]; [|done|lia]. destruct ok; [by apply write_close_quiet|done].
  - destruct (write_with_watchdog t WPing) as [t1 ok] eqn:Hw.
    pose proof (write_quiet _ _ _ _ Hw Hq ltac:(simpl; lia)) as Hq1. apply write_spec in Hw as (Hw&Hwr&_).
    destruct ok; cbn [negb] in Hstep; [|by injection Hstep as <- <-]. rewrite Hwr in Hstep.
    destruct (wrote_frame_since_tick t).
    + injection Hstep as <- <-. split; [done|]. intros _. split; [done|].
      cbn [with_wrote written wrote_frame_since_tick]. rewrite Hw, silence_snoc. simpl. lia.
    + destruct (write_with_watchdog t1 (WFrame Heartbeat)) as [t2 ok2] eqn:Hw2.
      pose proof (write_quiet _ _ _ _ Hw2 Hq1 ltac:(simpl; lia)) as Hq2. apply write_spec in Hw2 as (Hw2&_).
      destruct ok2; injection Hstep as <- <-; [|done]. split; [done|]. intros _. split; [done|].
      cbn [with_wrote written wrote_frame_since_tick]. rewrite Hw2, silence_snoc. simpl. lia.
Qed.

Lemma writer_task_quiet es : ∀ t, paced t → quiet_at_most 2 0 (written (writer_task t es).1).
Proof.
  induction es as [|e es IH]; intros t Hp; cbn [writer_task]; [apply Hp|].
  destruct (writer_step t e) as [t1 on] eqn:Hstep. apply writer_step_paced in Hstep as [Hq Hp1]; [|done].
  destruct on; [by apply IH, Hp1|done].
Qed.

(** A text-free stretch holds no more pings than the silence it ends in. *)
Lemma stretch_quiet k pre seg : ∀ n post,
  quiet_at_most k n (pre ++ seg ++ post) → Forall (λ m, is_text m = false) seg → n ≤ k → pings seg ≤ k.
Proof.
  intros n post Hq Hseg Hn.
  assert (∀ n' l, quiet_at_most k n' l → n' ≤ k → ∀ a b, l = a ++ b → silence n' a ≤ k ∧ quiet_at_most k (silence n' a) b) as Hsplit.
  { clear. intros n' l Hq Hn a. revert n' l Hq Hn. induction a as [|m a IH]; intros n' l Hq Hn b ->; [done|].
    destruct Hq as [Hm Hq]. simpl. by eapply IH. }
  destruct (Hsplit n _ Hq Hn pre (seg ++ post) eq_refl) as [Hs Hq1].
  destruct (Hsplit _ _ Hq1 Hs seg post eq_refl) as [Hs2 _].
  assert (∀ n', pings seg ≤ silence n' seg) as Hp; [|etransitivity; [apply Hp|exact Hs2]].
  clear -Hseg. intros n'. enough (n' + pings seg ≤ silence n' seg) by lia. revert n'.
  induction Hseg as [|m seg Hm _ IH]; intros n'; [unfold pings, len; simpl; lia|].
  simpl. specialize (IH (silence_step n' m)). unfold pings in *. rewrite filter_cons.
  destruct m; simpl in *; try done; repeat case_decide; try done; rewrite ?len_cons; lia.
Qed.

(** (writer) the writer breaks its silence. Whatever frames, closes and ticks drive it
    and however its writes fare, no stretch of what it writes holds three pings and no text
    frame: an attacher that cannot see pings still hears a frame by the second tick after
    the last, within the three heartbeats its silence rule allows. *)
Theorem writer_breaks_its_silence (sink : list bool) es pre seg post :
  written (writer_task (task_new sink) es).1 = pre ++ seg ++ post →
  Forall (λ m, is_text m = false) seg → pings seg ≤ 2.
Proof.
  intros Hw Hseg. apply (stretch_quiet 2 pre seg 0 post); [|done|done]. rewrite <-Hw.
  apply writer_task_quiet. by split; simpl.
Qed.

(** *** Order *)

(** The frames a session composed, as opposed to the task's own heartbeats. *)
Definition composed (f : ServerFrame) : option ServerFrame := match f with Heartbeat => None | _ => Some f end.
Definition payload (q : list ServerFrame) : list ServerFrame := omap composed q.
Definition data l : list ServerFrame := omap (λ m, match m with WFrame f => composed f | _ => None end) l.
Definition is_close (m : Written Uuid DateTime) : bool := match m with WClose _ => true | _ => false end.

(** The frames a session's events put on the queue while its sender was held, and the reason
    it gave. *)
Fixpoint queued (held : bool) es : list ServerFrame :=
  match es with
  | [] => []
  | Enqueue f :: es => (if held then payload [f] else []) ++ queued held es
  | DropSender :: es => queued false es
  | _ :: es => queued held es
  end.
Definition slot_step (c : CloseSlot) (e : Event) : CloseSlot :=
  match c, e with
  | CloseHeld, SendClose r => CloseSent r
  | CloseHeld, DropCloseSender => CloseDropped
  | _, _ => c
  end.

(** What the task still owes is on its queue, and it has closed nothing. *)
Record in_order (all : list ServerFrame) t : Prop := {
  order_frames : data (written t) ++ payload (rx t) = all;
  order_open : Forall (λ m, is_close m = false) (written t);
}.

Lemma data_app l k : data (l ++ k) = data l ++ data k.
Proof. apply omap_app. Qed.

Lemma payload_nil : payload [] = [].
Proof. done. Qed.

Lemma payload_cons f q : payload (f :: q) = data [WFrame f] ++ payload q.
Proof. unfold payload, data. simpl. by destruct (composed f). Qed.

(** Taking a frame off the queue and writing it. *)
Lemma write_frame_in_order all t f q t' ok :
  in_order all t → rx t = f :: q → write_with_watchdog (with_rx t q) (WFrame f) = (t', ok) →
  (ok = true → in_order all t' ∧ rx t' = q) ∧ data (written t') `prefix_of` all ∧
  Forall (λ m, is_close m = false) (written t').
Proof.
  intros [Hf Ho] Hrx (Hw&_&Hr&_)%write_spec. cbn [with_rx written rx] in *. rewrite Hrx, payload_cons in Hf.
  assert (Forall (λ m, is_close m = false) (written t')) as Ho'.
  { rewrite Hw. apply Forall_app. split; [done|]. destruct ok; by repeat constructor. }
  split_and!; [|rewrite Hw; destruct ok|done].
  - intros ->. split; [|done]. split; [|done]. by rewrite Hw, Hr, data_app, <-app_assoc.
  - rewrite data_app, <-Hf, app_assoc. by apply prefix_app_r.
  - rewrite app_nil_r, <-Hf. by apply prefix_app_r.
Qed.

Lemma flush_in_order all q : ∀ t t' ok,
  in_order all t → rx t = q → flush_queue q t = (t', ok) →
  (ok = true → data (written t') = all) ∧ data (written t') `prefix_of` all ∧
  Forall (λ m, is_close m = false) (written t').
Proof.
  induction q as [|f q IH]; intros t t' ok Hi Hrx; cbn [flush_queue].
  - intros [= <- <-]. destruct Hi as [Hf Ho]. rewrite Hrx in Hf. rewrite payload_nil, app_nil_r in Hf.
    cbn [with_rx written]. split_and!; [done|by rewrite Hf|done].
  - destruct (write_with_watchdog (with_rx t q) (WFrame f)) as [t1 ok1] eqn:Hw. intros Hf.
    destruct (write_frame_in_order _ _ _ _ _ _ Hi Hrx Hw) as (Hgo&Hp&Hc).
    destruct ok1; [destruct (Hgo eq_refl); by eapply IH|]. by injection Hf as <- <-.
Qed.

(** How a finished task left its trace: in order, and with at most a close at the end, after
    every frame. *)
Definition finished (all : list ServerFrame) (slot : CloseSlot) l : Prop :=
  data l `prefix_of` all ∧
  (Forall (λ m, is_close m = false) l ∨
   ∃ r k, l = k ++ [WClose r] ∧ Forall (λ m, is_close m = false) k ∧ data l = all ∧ slot = CloseSent r).

Lemma write_close_finished all slot t r :
  data (written t) = all → Forall (λ m, is_close m = false) (written t) → slot = CloseSent r →
  finished all slot (written (write_close t r)).
Proof.
  intros Hd Ho Hs. unfold write_close. destruct (write_with_watchdog t (WClose r)) as [t' ok] eqn:Hw.
  apply write_spec in Hw as (Hw&_). cbn [fst]. rewrite Hw. destruct ok.
  - assert (data (written t ++ [WClose r]) = all) as Hd' by (by rewrite data_app, app_nil_r).
    split; [by rewrite Hd'|]. right. by exists r, (written t).
  - rewrite app_nil_r. split; [by rewrite Hd|by left].
Qed.

Lemma writer_step_in_order all t e t' on :
  writer_step t e = (t', on) → in_order all t →
  let all' := all ++ queued (rx_open t) [e] in
  if on then in_order all' t' ∧ close_rx t' = slot_step (close_rx t) e ∧
             rx_open t' = (match e with DropSender => false | _ => rx_open t end)
  else finished all' (slot_step (close_rx t) e) (written t').
Proof.
  intros Hstep Hi. pose proof Hi as [Hf Ho].
  destruct e; cbn [writer_step queued] in *; rewrite ?app_nil_r.
  - destruct (rx_open t) eqn:Hop; injection Hstep as <- <-; (split; [|cbn; by destruct (close_rx t)]); [|by rewrite app_nil_r].
    split; [|done]. cbn [with_rx written rx]. unfold payload in *. by rewrite omap_app, app_assoc, Hf.
  - destruct (close_rx t) eqn:Hc; injection Hstep as <- <-; rewrite ?Hc; by repeat split.
  - destruct (close_rx t) eqn:Hc; injection Hstep as <- <-; rewrite ?Hc; by repeat split.
  - injection Hstep as <- <-. split; [done|]. by destruct (close_rx t).
  - destruct (rx t) as [|f q] eqn:Hrx.
    + destruct (rx_open t) eqn:Hop; injection Hstep as <- <-; [split; [done|]; by destruct (close_rx t)|].
      rewrite payload_nil, app_nil_r in Hf. destruct (close_rx t) eqn:Hc; [by split; [rewrite Hf|left]| |by split; [rewrite Hf|left]].
      by apply write_close_finished.
    + destruct (write_with_watchdog (with_rx t q) (WFrame f)) as [t1 ok] eqn:Hw.
      destruct (write_frame_in_order _ _ _ _ _ _ Hi Hrx Hw) as (Hgo&Hp&Hcl). apply write_spec in Hw as (_&_&_&Hro&Hcr).
      destruct ok; injection Hstep as <- <-; [|by split; [|left]].
      destruct (Hgo eq_refl) as [[Hf1 Ho1] _]. split; [by split|]. cbn [with_wrote close_rx rx_open with_rx] in *.
      rewrite Hcr, Hro. by destruct (close_rx t).
  - assert (slot_step (close_rx t) CloseArm = close_rx t) as Hslot by (by destruct (close_rx t)).
    destruct (close_settled t); [by injection Hstep as <- <-|].
    destruct (close_rx t) as [|r|] eqn:Hc; [injection Hstep as <- <-; by rewrite Hc| |injection Hstep as <- <-; by repeat split].
    destruct (flush_queue (rx t) t) as [t1 ok] eqn:Hfl. injection Hstep as <- <-.
    destruct (flush_in_order _ _ _ _ _ Hi eq_refl Hfl) as (Hd&Hp&Hcl).
    destruct ok; [apply write_close_finished; auto|by split; [|left]].
  - assert (slot_step (close_rx t) TickArm = close_rx t) as Hslot by (by destruct (close_rx t)). rewrite Hslot.
    destruct (write_with_watchdog t WPing) as [t1 ok] eqn:Hw. apply write_spec in Hw as (Hw&Hwr&Hrx&Hro&Hcr).
    assert (in_order all t1) as Hi1.
    { split; rewrite Hw; [rewrite Hrx, data_app; destruct ok; by rewrite app_nil_r|].
      apply Forall_app. split; [done|]. destruct ok; by repeat constructor. }
    assert (finished all (close_rx t) (written t1)) as Hfin.
    { split; [|left; apply Hi1]. rewrite <-(order_frames _ _ Hi1). by apply prefix_app_r. }
    destruct ok; cbn [negb] in Hstep; [|by injection Hstep as <- <-].
    destruct (wrote_frame_since_tick t1); [injection Hstep as <- <-; split; [by destruct Hi1|done]|].
    destruct (write_with_watchdog t1 (WFrame Heartbeat)) as [t2 ok2] eqn:Hw2. apply write_spec in Hw2 as (Hw2&_&Hrx2&Hro2&Hcr2).
    assert (in_order all t2) as Hi2.
    { destruct Hi1 as [Hf1 Ho1]. split; rewrite Hw2; [rewrite Hrx2, data_app; destruct ok2; by rewrite app_nil_r|].
      apply Forall_app. split; [done|]. destruct ok2; by repeat constructor. }
    destruct ok2; injection Hstep as <- <-.
    + split; [by destruct Hi2|]. cbn [with_wrote close_rx rx_open]. by rewrite Hcr2, Hro2, Hcr, Hro.
    + split; [|left; apply Hi2]. rewrite <-(order_frames _ _ Hi2). by apply prefix_app_r.
Qed.

Lemma queued_cons held e es :
  queued held (e :: es) = queued held [e] ++ queued (match e with DropSender => false | _ => held end) es.
Proof. destruct e; cbn [queued]; rewrite ?app_nil_r; done. Qed.

Lemma writer_task_in_order es : ∀ all t t' on,
  writer_task t es = (t', on) → in_order all t →
  data (written t') `prefix_of` all ++ queued (rx_open t) es ∧
  (Forall (λ m, is_close m = false) (written t') ∨
   ∃ r k taken, written t' = k ++ [WClose r] ∧ Forall (λ m, is_close m = false) k ∧ taken `prefix_of` es ∧
     data (written t') = all ++ queued (rx_open t) taken ∧ foldl slot_step (close_rx t) taken = CloseSent r).
Proof.
  induction es as [|e es IH]; intros all t t' on; cbn [writer_task].
  { intros [= <- <-] [Hf Ho]. split; [|by left]. rewrite <-Hf. cbn [queued]. rewrite app_nil_r. by apply prefix_app_r. }
  destruct (writer_step t e) as [t1 on1] eqn:Hstep. intros Ht Hi.
  pose proof (writer_step_in_order all t e t1 on1 Hstep Hi) as Hs. cbv zeta in Hs. rewrite queued_cons.
  destruct on1.
  - destruct Hs as (Hi1&Hc1&Ho1). destruct (IH _ _ _ _ Ht Hi1) as [Hp Hend]. rewrite Ho1 in Hp, Hend.
    split; [by rewrite app_assoc|]. destruct Hend as [|(r&k&tk&Hw&Hk&Htk&Hd&Hsl)]; [by left|right].
    exists r, k, (e :: tk). split_and!; [done|done|by apply prefix_cons|by rewrite queued_cons, app_assoc|].
    simpl. by rewrite <-Hc1.
  - injection Ht as <- <-. destruct Hs as [Hp Hend]. split; [rewrite app_assoc; by apply prefix_app_r|].
    destruct Hend as [|(r&k&Hw&Hk&Hd&Hsl)]; [by left|right].
    exists r, k, [e]. split_and!; [done|done|by apply prefix_cons, prefix_nil|done|done].
Qed.

(** C34: (writer) the writer keeps the order it was given. What it has written of the session's
    frames is a prefix of what the session queued, in order and each once, whatever arm of
    the select fires when and wherever a write fails; a close frame is written at most once,
    after it nothing, before it every frame the session had queued by then, and it carries
    the first reason the session handed over. *)
Theorem writer_keeps_order_and_closes_last (sink : list bool) es t on :
  writer_task (task_new sink) es = (t, on) →
  data (written t) `prefix_of` queued true es ∧
  (Forall (λ m, is_close m = false) (written t) ∨
   ∃ r k taken, written t = k ++ [WClose r] ∧ Forall (λ m, is_close m = false) k ∧ taken `prefix_of` es ∧
     data (written t) = queued true taken ∧ foldl slot_step CloseHeld taken = CloseSent r).
Proof. intros Ht. apply (writer_task_in_order es [] _ _ _ Ht). by split. Qed.

End writer.

(** ** Opening *)

Section life.
Context {B St Uuid DateTime : Type} `{Countable Uuid} `{Chrono DateTime} `{ChronoOrd DateTime}.
Context `{!Messenger B St Uuid DateTime} `{EscapeDebug} `{CursorCodec Uuid}.
Context `{!RetentionStore St (MessageEnvelope Uuid DateTime) Uuid}.
Context (parse_frame : string → option (ClientFrame Uuid)).
#[local] Abbreviation World := (Session.World B Uuid DateTime).

(** A peer that said [Hello] in time, behind nothing but liveness frames. *)
Definition said_hello (reads : list (N * Inbound)) (within : N) (peer : VersionRange) : Prop :=
  ∃ pre at_ns text post ident, reads = pre ++ (at_ns, Received (Text text)) :: post ∧ at_ns ≤ within ∧
    Forall (λ r, r.1 ≤ within ∧ (r.2 = Received Ping ∨ r.2 = Received Pong)) pre ∧
    parse_frame text = Some (ClientHello peer ident).

Lemma classify_agreed text v :
  classify_hello parse_frame text = Agreed v ↔
  ∃ peer ident, parse_frame text = Some (ClientHello peer ident) ∧ negotiate SUPPORTED_VERSIONS peer = Some v.
Proof.
  unfold classify_hello. destruct (parse_frame text) as [[]|]; try (by split; [|intros (?&?&?&?)]).
  destruct (negotiate SUPPORTED_VERSIONS versions) eqn:Hn; split; try done; naive_solver.
Qed.

Lemma read_hello_agreed reads within v :
  read_client_hello parse_frame reads within = Agreed v ↔
  ∃ peer, said_hello reads within peer ∧ negotiate SUPPORTED_VERSIONS peer = Some v.
Proof.
  induction reads as [|[at_ns i] reads IH]; cbn [read_client_hello].
  { split; [done|]. intros (peer&(pre&?&?&?&?&Hr&_)&_). by destruct pre. }
  assert (∀ peer, said_hello ((at_ns, i) :: reads) within peer ↔ at_ns ≤ within ∧
    ((∃ text ident, i = Received (Text text) ∧ parse_frame text = Some (ClientHello peer ident)) ∨
     (i = Received Ping ∨ i = Received Pong) ∧ said_hello reads within peer)) as Hcons.
  { intros peer. split.
    - intros (pre&a&text&post&ident&Hr&Ha&Hpre&Hp). destruct pre as [|r pre]; [injection Hr as -> -> ->; by eauto 10|injection Hr as <- ->].
      apply Forall_cons in Hpre as [[? ?] Hpre]. split; [done|]. right. split; [done|]. by exists pre, a, text, post, ident.
    - intros [Ha [(text&ident&->&Hp)|[Hi (pre&a&text&post&ident&->&Ha'&Hpre&Hp)]]].
      + by exists [], at_ns, text, reads, ident.
      + exists ((at_ns, i) :: pre), a, text, post, ident. split_and!; try done. by constructor. }
  destruct (N.ltb_spec within at_ns) as [Hlt|Hle].
  { split; [done|]. intros (peer&[Ha _]%Hcons&_). lia. }
  destruct i as [[text| | | |]|[]|]; try (rewrite IH); try rewrite classify_agreed.
  all: split; try done; try (intros (peer&[_ [(?&?&?&?)|[[?|?] ?]]]%Hcons&?); naive_solver).
  - intros (peer&ident&Hp&Hn). exists peer. split; [|done]. apply Hcons. naive_solver.
  - intros (peer&Hs&Hn). exists peer. split; [|done]. apply Hcons. naive_solver.
  - intros (peer&Hs&Hn). exists peer. split; [|done]. apply Hcons. naive_solver.
Qed.

(** A parked set as the opening reads it. *)
Definition seeds (x : Ctx) (b : B) (d : DeferredTarget) : panics (list (DeferredViewEntry Uuid)) :=
  sender ← parked_sender x (target_attribution d);
  parked ← deferred_view_for_sender b (target_channel d) sender;
  deferred_view_entries parked.

(** The mirrors an opening states: the parked sets that are not empty. *)
Definition mirrors (entries : DeferredTarget → list (DeferredViewEntry Uuid)) (ds : list DeferredTarget)
    : list (ServerFrame Uuid DateTime) :=
  omap (λ d, match entries d with
             | [] => None
             | l => Some (DeferredView (target_channel d) (target_attribution d) l)
             end) ds.

Lemma seed_targets_states x entries ds : ∀ w : World,
  tx_open (tx w) = true → (∀ d, d ∈ ds → seeds x (bus w) d = Returns (entries d)) →
  ∃ w', seed_targets x w ds = Returns (w', Continue) ∧ tx_sent (tx w') = tx_sent (tx w) ++ mirrors entries ds ∧
    bus w' = bus w ∧ registry w' = registry w ∧ pages w' = pages w.
Proof.
  induction ds as [|d ds IH]; intros w Ho Hv; [exists w; by rewrite app_nil_r|]. cbn [seed_targets].
  pose proof (Hv d ltac:(set_solver)) as Hd. unfold seeds in Hd.
  destruct (parked_sender x (target_attribution d)) as [sender|]; [|done]. cbn [mbind panics_bind] in *.
  destruct (deferred_view_for_sender (bus w) (target_channel d) sender) as [parked|]; [|done]. cbn [mbind panics_bind] in *.
  rewrite Hd. cbn [mbind panics_bind]. unfold mirrors. cbn [omap list_omap].
  destruct (entries d) as [|e es]; [apply IH; [done|]; intros; apply Hv; set_solver|].
  destruct (answer_open w (DeferredView (target_channel d) (target_attribution d) (e :: es)) Ho)
    as (w1&->&Hs1&Ho1&Hb1&Hr1&Hp1).
  destruct (IH w1 Ho1) as (w2&->&Hs2&Hb2&Hr2&Hp2); [intros d' Hd'; rewrite Hb1; apply Hv; set_solver|].
  exists w2. rewrite Hs2, Hs1, <-app_assoc. split_and!; [done..|congruence|congruence|congruence].
Qed.

(** (attachment) an attachment opens exactly on a common version. With a writer that
    takes frames and parked sets that read, the opening ends; it ends attached exactly when
    the peer said [Hello] within the time allowed, behind nothing but liveness frames, with
    a range that shares a version with the server's; and the frames sent by then are the
    server's [Hello], the [Welcome] stating that version and the frame cap derived from the
    body cap, and the parked sets that are not empty, in that order, before any answer.
    Otherwise nothing is sent but the [Hello]. *)
Theorem attached_exactly_on_a_common_version x (w : World) reads heartbeat ident cap entries :
  tx_open (tx w) = true → max_client_frame_bytes (max_body_bytes x) = Returns cap →
  (∀ d, d ∈ deferred_view_targets (profile x) → seeds x (bus w) d = Returns (entries d)) →
  ∃ w' op, open_attachment parse_frame x w reads heartbeat ident = Returns (w', op) ∧
    bus w' = bus w ∧ registry w' = registry w ∧ pages w' = pages w ∧
    match op with
    | Attached => ∃ peer v, said_hello reads HELLO_TIMEOUT peer ∧ negotiate SUPPORTED_VERSIONS peer = Some v ∧
        tx_sent (tx w') = tx_sent (tx w) ++
          [ServerHello SUPPORTED_VERSIONS ident;
           Welcome v (attacher (subscriptions (profile x))) (ctx_session_simple x) heartbeat (max_body_bytes x) cap
             (alert_granted (profile x))] ++ mirrors entries (deferred_view_targets (profile x))
    | Closed _ => (¬ ∃ peer v, said_hello reads HELLO_TIMEOUT peer ∧ negotiate SUPPORTED_VERSIONS peer = Some v) ∧
        tx_sent (tx w') = tx_sent (tx w) ++ [ServerHello SUPPORTED_VERSIONS ident]
    end.
Proof.
  intros Ho Hcap Hv. unfold open_attachment.
  destruct (answer_open w (server_hello ident) Ho) as (w1&->&Hs1&Ho1&Hb1&Hr1&Hp1).
  assert (∀ v, read_client_hello parse_frame reads HELLO_TIMEOUT = Agreed v ↔ ∃ peer, said_hello reads HELLO_TIMEOUT peer ∧
    negotiate SUPPORTED_VERSIONS peer = Some v) as Hh by (intros v; apply read_hello_agreed).
  destruct (read_client_hello parse_frame reads HELLO_TIMEOUT) as [v|peer|rule|] eqn:Hread.
  2-4: eexists w1, _; split; [done|]; (split_and!; [done..| |done]);
    intros (peer'&v&Hs&Hn); assert (∃ p, said_hello reads HELLO_TIMEOUT p ∧ negotiate SUPPORTED_VERSIONS p = Some v) as Hx
      by eauto; by apply Hh in Hx.
  destruct (proj1 (Hh v) eq_refl) as (peer&Hs&Hn). unfold welcome. rewrite Hcap. cbn [mbind panics_bind].
  match goal with |- context [answer w1 ?f] => destruct (answer_open w1 f Ho1) as (w2&->&Hs2&Ho2&Hb2&Hr2&Hp2) end.
  destruct (seed_targets_states x entries (deferred_view_targets (profile x)) w2 Ho2) as (w3&Hseed&Hs3&Hb3&Hr3&Hp3).
  { intros d Hd. rewrite Hb2, Hb1. by apply Hv. }
  unfold seed_deferred_views. rewrite Hseed. cbn [mbind panics_bind]. exists w3, Attached.
  split_and!; [done|congruence|congruence|congruence|]. exists peer, v. split_and!; [done|done|].
  by rewrite Hs3, Hs2, Hs1, <-!app_assoc.
Qed.

(** ** Slots *)

Lemma handle_publish_slots x (w : World) b now r c :
  whenever (handle_publish x w b now r c) (λ '(w', b', c', o), registry w' = registry w).
Proof.
  unfold handle_publish. walk; try done.
  all: try (apply whenever_any; intros ?; walk; try done).
  all: repeat match goal with E : answer _ _ = _ |- _ => apply answer_confirms in E as (_&_&E&_) end.
  all: try done.
  all: apply whenever_any; intros ?; walk; try done.
  all: try (apply whenever_any; intros ?; walk; try (apply whenever_any; intros ?; walk)).
  all: repeat match goal with E : answer _ _ = _ |- _ => apply answer_confirms in E as (_&_&E&_) end.
  all: done.
Qed.

Lemma on_text_slots x (w : World) text s k :
  whenever (on_text parse_frame x w text s k) (λ '(w', s', o), same_slots (registry w) (registry w')).
Proof.
  unfold on_text, handle_client_frame. destruct (parse_frame text) as [f|]; [|done].
  destruct f; [done|..]; cbn [counters buckets bucket_publish bucket_alert bucket_subscribe].
  - apply whenever_bind, whenever_any. intros [b [u|v]]; [|done]. apply whenever_bind, whenever_any.
    by intros [[[[b' a] cs] t'] o].
  - apply whenever_bind, whenever_any. intros [b [u|v]]; [|done]. by destruct (handle_unsubscribe _ _ _) as [[a cs] o].
  - apply whenever_bind. eapply whenever_mono; [apply handle_publish_slots|].
    intros [[[w' b'] c'] o] Hr. apply whenever_ret. by rewrite Hr.
  - apply whenever_bind. eapply whenever_mono; [apply handle_publish_batch_unspent|].
    intros [[w' c'] o] (_&_&_&Hi&Hd). by split.
  - apply whenever_bind. eapply whenever_mono; [apply handle_alert_spends|].
    intros [[[w' b'] c'] o] (_&Hr&_). apply whenever_ret. by rewrite Hr.
Qed.

Lemma read_turn_slots x reap (w : World) s li e :
  whenever (read_turn parse_frame x reap w s li e) (λ '(w', s', li', exit), same_slots (registry w) (registry w')).
Proof.
  assert (∀ w s ps, whenever (pushes_sent x w s ps) (λ '(w', s', o), same_slots (registry w) (registry w'))) as Hps.
  { intros. apply whenever_bind, whenever_any. by intros [[cs t'] o]. }
  assert (∀ w s, whenever (drained x w s) (λ '(w', s', o), same_slots (registry w) (registry w'))) as Hdr.
  { intros. apply whenever_bind, whenever_any. by intros [[cs t'] o]. }
  destruct e as [ps|ps|i k handled|r|now]; cbn [read_turn]; try done.
  - apply whenever_bind. eapply whenever_mono; [apply Hps|]. by intros [[w' s'] o].
  - apply whenever_bind. eapply (whenever_mono _ (λ '(w', s', o), same_slots (registry w) (registry w'))).
    { destruct ps; [done|]. apply Hps. }
    intros [[w1 s1] o] Hs1.
    assert (whenever (drained x w1 s1 ≫= λ r, Returns (unless_gone r li))
      (λ '(w', s', li', exit), same_slots (registry w) (registry w'))) as Hd.
    { apply whenever_bind. eapply whenever_mono; [apply Hdr|]. intros [[w2 s2] o'] Hs2.
      apply whenever_ret. simpl. by eapply same_slots_trans. }
    by destruct o.
  - destruct i as [[text| | | |]|[]|]; try done. apply whenever_bind. eapply whenever_mono; [apply on_text_slots|].
    intros [[w' s'] o] Hs. by destruct o.
Qed.

Lemma read_frames_slots x reap es : ∀ (w : World) s li,
  whenever (read_frames parse_frame x reap w s li es) (λ '(w', s', exit), same_slots (registry w) (registry w')).
Proof.
  induction es as [|e es IH]; intros w s li; cbn [read_frames]; [done|]. apply whenever_bind.
  eapply whenever_mono; [apply read_turn_slots|]. intros [[[w1 s1] li1] [v|]] Hs; [done|].
  eapply whenever_mono; [apply IH|]. intros [[w2 s2] ex] Hs2. by eapply same_slots_trans.
Qed.

Lemma open_attachment_slots x (w : World) reads hb ident :
  whenever (open_attachment parse_frame x w reads hb ident) (λ '(w', op), registry w' = registry w).
Proof.
  assert (∀ ds w, whenever (seed_targets x w ds) (λ '(w', o), registry w' = registry w)) as Hseed.
  { induction ds as [|d ds IH]; intros w0; cbn [seed_targets]; [done|].
    do 3 (apply whenever_bind, whenever_any; intros ?). destruct a1; [apply IH|].
    destruct (answer w0 _) as [w1 o] eqn:Ha. apply answer_confirms in Ha as (_&_&Hr&_).
    destruct o; [eapply whenever_mono; [apply IH|]; intros [w2 o2] ->; done..|done]. }
  unfold open_attachment. destruct (answer w _) as [w1 o1] eqn:Ha1. apply answer_confirms in Ha1 as (_&_&Hr1&_).
  assert (whenever (match read_client_hello parse_frame reads HELLO_TIMEOUT with
    | Incompatible _ | HelloDisconnect => Returns (w1, Closed None)
    | HelloViolation rule => Returns (w1, Closed (Some (AtHello rule)))
    | Agreed version => f ← welcome x version hb; let '(w, o) := answer w1 f in
        match o with Continue => seeded ← seed_deferred_views x w; let '(w, o) := seeded in
          Returns (w, match o with Continue => Attached | _ => Closed None end) | _ => Returns (w, Closed None) end
    end) (λ '(w', op), registry w' = registry w)) as Hgo.
  { destruct (read_client_hello _ _ _); try done. apply whenever_bind, whenever_any. intros f.
    destruct (answer w1 f) as [w2 o2] eqn:Ha2. apply answer_confirms in Ha2 as (_&_&Hr2&_).
    destruct o2; [|by simpl; congruence..]. apply whenever_bind. eapply whenever_mono; [apply Hseed|].
    intros [w3 o3] Hr3. apply whenever_ret. congruence. }
  by destruct o1.
Qed.

Lemma unregister_sessions (r r' : AttachRegistry Uuid DateTime) a sid n :
  unregister_returning_remaining r a sid = (r', n) →
  (∀ b, sessions r' b = if decide (b = a) then filter (λ h, session_id h ≠ sid) (sessions r a) else sessions r b) ∧
  n = len (sessions r' a) ∧ draining r' = draining r.
Proof.
  intros Hu. pose proof (λ b, Sessions.sessions_unregister r a sid b) as Hs.
  pose proof (Sessions.unregister_remaining r a sid) as Hn. rewrite Hu in Hs, Hn. cbn [fst snd] in *.
  split_and!; [done|done|]. revert Hu. unfold unregister_returning_remaining. by destruct (inner r !! a); intros [= <- <-].
Qed.

Lemma teardown_slots (w : World) a sid detail close w' e :
  teardown w a sid detail close = (w', e) →
  (∀ b, sessions (registry w') b = if decide (b = a) then filter (λ h, session_id h ≠ sid) (sessions (registry w) a)
                                   else sessions (registry w) b) ∧
  draining (registry w') = draining (registry w) ∧
  (last_detach (outcome e) = true ↔ sessions (registry w') a = []) ∧
  close_frame e = close ∧ security_event e = detail ∧ (violation (outcome e) = true ↔ is_Some detail).
Proof.
  unfold teardown, guard_drop. destruct (unregister_returning_remaining (registry w) a sid) as [r n] eqn:Hu.
  destruct (unregister_returning_remaining r a sid) as [r2 n2] eqn:Hu2. intros [= <- <-]. simpl.
  apply unregister_sessions in Hu as (Hs&->&Hd). apply unregister_sessions in Hu2 as (Hs2&_&Hd2).
  assert (∀ b, sessions r2 b = sessions r b) as Heq.
  { intros b. rewrite Hs2. case_decide as Hb; [subst b|done]. rewrite Hs, decide_True by done.
    by rewrite list_filter_filter_l by tauto. }
  split_and!; [intros b; by rewrite Heq|congruence| |done|done|].
  - rewrite Heq, N.eqb_eq. split; [apply len_zero_nil|by intros ->].
  - destruct detail; by split.
Qed.

(** How an attachment is left behind: its guard's session gone from the registry and nothing
    else, and the route told what it needs. *)
Definition released (w w' : World) (guard : string * Uuid) (e : Ending) : Prop :=
  (∀ b, sessions (registry w') b =
     if decide (b = guard.1) then filter (λ h, session_id h ≠ guard.2) (sessions (registry w) guard.1)
     else sessions (registry w) b) ∧
  draining (registry w') = draining (registry w) ∧
  (last_detach (outcome e) = true ↔ sessions (registry w') guard.1 = []) ∧
  (violation (outcome e) = true ↔ is_Some (security_event e)).

(** What ended it. A breach of the handshake is a hello the server's own got out ahead of. *)
Definition hello_breach (w : World) (reads : list (N * Inbound)) (ident : string) : option Breach :=
  match (answer w (server_hello ident)).2, read_client_hello parse_frame reads HELLO_TIMEOUT with
  | Disconnect, _ => None
  | _, HelloViolation rule => Some (AtHello rule)
  | _, _ => None
  end.

(** A breach while attached is a binary frame, an oversized one, or a text the dispatch judges
    a violation. *)
Definition wake_breach x (w : World) (s : SessionState Uuid) (e : Wake (Uuid := Uuid) (DateTime := DateTime)) : option Breach :=
  match e with
  | Read (Received Binary) _ _ => Some BinaryFrame
  | Read (ReadError Oversized) _ _ => Some OversizedFrame
  | Read (Received (Text text)) k _ =>
      match on_text parse_frame x w text s k with
      | Returns (_, _, Violation rule) => Some (InDispatch rule)
      | _ => None
      end
  | _ => None
  end.

(** The host asked for the end. *)
Definition asked_close (e : Wake (Uuid := Uuid) (DateTime := DateTime)) : option CloseReason :=
  match e with Signalled r => r | _ => None end.

(** The ending names its cause: at the handshake, its breach; after it, that of the wake the
    read loop ended on, every earlier one having left it reading. *)
Definition ended_by x (w : World) act inc hb ident t0 t1 reads es (e : Ending) : Prop :=
  ∃ w1 op, open_attachment parse_frame x w reads hb ident = Returns (w1, op) ∧
    match op with
    | Closed _ => security_event e = hello_breach w reads ident ∧ close_frame e = None
    | Attached =>
        ∃ s pre wake post w2 s2, state_new (profile x) act inc t0 = Returns s ∧ es = pre ++ wake :: post ∧
          read_frames parse_frame x (hb * 1000000000 * 3) w1 s t1 pre = Returns (w2, s2, None) ∧
          security_event e = wake_breach x w2 s2 wake ∧ close_frame e = asked_close wake
    end.

Lemma teardown_released (w w1 w2 : World) guard d c e :
  same_slots (registry w) (registry w1) → teardown w1 guard.1 guard.2 d c = (w2, e) →
  released w w2 guard e ∧ security_event e = d ∧ close_frame e = c.
Proof.
  intros [Hi Hdr] (Hs&Hd&Hl&Hc&Hsec&Hv)%teardown_slots. unfold released. rewrite Hc, Hsec.
  split_and!; [|congruence|done|done|done|done]. intros b. rewrite Hs. unfold sessions. by rewrite Hi.
Qed.

Lemma open_attachment_breach x (w : World) reads hb ident :
  whenever (open_attachment parse_frame x w reads hb ident)
    (λ '(w', op), match op with Closed d => d = hello_breach w reads ident | Attached => True end).
Proof.
  unfold open_attachment, hello_breach. destruct (answer w _) as [w1 o1]. simpl.
  assert (whenever (match read_client_hello parse_frame reads HELLO_TIMEOUT with
    | Incompatible _ | HelloDisconnect => Returns (w1, Closed None)
    | HelloViolation rule => Returns (w1, Closed (Some (AtHello rule)))
    | Agreed version => f ← welcome x version hb; let '(w, o) := answer w1 f in
        match o with Continue => seeded ← seed_deferred_views x w; let '(w, o) := seeded in
          Returns (w, match o with Continue => Attached | _ => Closed None end) | _ => Returns (w, Closed None) end
    end) (λ '(w', op), match op with Attached => True | Closed d => d = match read_client_hello parse_frame reads HELLO_TIMEOUT with
                          | HelloViolation rule => Some (AtHello rule) | _ => None end end)) as Hgo.
  { destruct (read_client_hello _ _ _); try done. apply whenever_bind, whenever_any. intros f.
    destruct (answer w1 f) as [w2 o2]. destruct o2; [|done..]. apply whenever_bind, whenever_any. by intros [w3 []]. }
  by destruct o1.
Qed.

Lemma read_turn_exit x reap (w : World) s li e :
  whenever (read_turn parse_frame x reap w s li e) (λ '(_, _, _, exit),
    ∀ v, exit = Some v →
      match v with
      | Peer => wake_breach x w s e = None ∧ asked_close e = None
      | ReadViolation b => wake_breach x w s e = Some b ∧ asked_close e = None
      | HostClose r => wake_breach x w s e = None ∧ asked_close e = Some r
      end).
Proof.
  destruct e as [ps|ps|i k handled|r|now]; cbn [read_turn wake_breach asked_close].
  - apply whenever_bind, whenever_any. intros [[w' s'] []]; simpl; naive_solver.
  - apply whenever_bind, whenever_any. intros [[w' s'] []].
    1,2: apply whenever_bind, whenever_any; intros [[w2 s2] []]; simpl; naive_solver.
    simpl. naive_solver.
  - destruct i as [[text| | | |]|[]|]; simpl; try naive_solver.
    destruct (on_text parse_frame x w text s k) as [[[w' s'] []]|]; simpl; naive_solver.
  - destruct r; simpl; naive_solver.
  - destruct (reap <? now - li); simpl; naive_solver.
Qed.

Lemma read_frames_exit x reap es : ∀ (w : World) s li w' s' v,
  read_frames parse_frame x reap w s li es = Returns (w', s', Some v) →
  ∃ pre wake post w2 s2, es = pre ++ wake :: post ∧
    read_frames parse_frame x reap w s li pre = Returns (w2, s2, None) ∧
    match v with
    | Peer => wake_breach x w2 s2 wake = None ∧ asked_close wake = None
    | ReadViolation b => wake_breach x w2 s2 wake = Some b ∧ asked_close wake = None
    | HostClose r => wake_breach x w2 s2 wake = None ∧ asked_close wake = Some r
    end.
Proof.
  induction es as [|e es IH]; intros w s li w' s' v; cbn [read_frames]; [done|].
  pose proof (read_turn_exit x reap w s li e) as Hx.
  destruct (read_turn parse_frame x reap w s li e) as [[[[w1 s1] li1] [u|]]|] eqn:Ht; [| |done]; cbn [mbind panics_bind whenever] in *.
  - intros [= <- <- <-]. exists [], e, es, w, s. split_and!; [done|done|]. by apply Hx.
  - intros Hr. destruct (IH _ _ _ _ _ _ Hr) as (pre&wake&post&w2&s2&->&Hpre&Hv).
    exists (e :: pre), wake, post, w2, s2. split_and!; [done| |done]. cbn [read_frames]. rewrite Ht. exact Hpre.
Qed.

(** C33: (attachment) an attachment gives up its slot however it ends, and says why: refused at
    the handshake, hung up, reaped, in violation or closed by the host. When it has ended,
    its session and no other has left the registry, the tickets are as they were, and the
    route is told it was the last exactly when none remains; the one security event is
    logged exactly when the hello, or the wake the loop ended on, broke the protocol, names
    that breach and is what the route is told; and a close frame is handed over exactly when
    that wake was the host asking for the end, with the host's reason. *)
Theorem attachment_gives_up_its_slot x (w : World) guard act inc hb ident t0 t1 reads es w' e :
  attach_session parse_frame x w guard act inc hb ident t0 t1 reads es = Returns (w', Some e) →
  released w w' guard e ∧ ended_by x w act inc hb ident t0 t1 reads es e.
Proof.
  unfold attach_session, ended_by. destruct (state_new _ _ _ _) as [s|] eqn:Hst; [|done]. cbn [mbind panics_bind].
  pose proof (open_attachment_slots x w reads hb ident) as Hop.
  pose proof (open_attachment_breach x w reads hb ident) as Hbr.
  destruct (open_attachment parse_frame x w reads hb ident) as [[w1 op]|]; [|done]. cbn [whenever mbind panics_bind] in *.
  destruct op as [|d].
  - pose proof (read_frames_slots x (hb * 1000000000 * 3) es w1 s t1) as Hrf. rewrite Hop in Hrf.
    destruct (read_frames _ _ _ w1 s t1 es) as [[[w2 s2] [v|]]|] eqn:Hr; try done; cbn [whenever mbind panics_bind] in *.
    apply read_frames_exit in Hr as (pre&wake&post&w3&s3&Hes&Hpre&Hv).
    destruct v as [|b|r]; (destruct (teardown w2 _ _ _ _) as [w4 e4] eqn:Ht; intros [= <- <-];
      destruct (teardown_released w w2 w4 guard _ _ e4 Hrf Ht) as (Hrel&Hse&Hcl); split; [exact Hrel|];
      exists w1, Attached; split; [done|]; exists s, pre, wake, post, w3, s3; rewrite Hse, Hcl;
      destruct Hv as [-> ->]; done).
  - destruct (teardown w1 _ _ _ _) as [w3 e3] eqn:Ht. intros [= <- <-].
    destruct (teardown_released w w1 w3 guard d None e3) as (Hrel&Hse&Hcl); [by rewrite Hop|exact Ht|].
    split; [exact Hrel|]. exists w1, (Closed d). split; [done|]. rewrite Hse, Hcl. by rewrite Hbr.
Qed.

(** ** Liveness *)

(** When the attacher was last heard, over the wakes of a loop that went on. *)
Definition heard_step (li : N) (e : Wake (Uuid := Uuid) (DateTime := DateTime)) : N :=
  match e with Read (Received (Text _ | Ping | Pong)) _ handled => handled | _ => li end.
Definition heard (li : N) (es : list (Wake (Uuid := Uuid) (DateTime := DateTime))) : N := foldl heard_step li es.

Lemma read_turn_heard x reap (w : World) s li e :
  whenever (read_turn parse_frame x reap w s li e) (λ '(w', s', li', exit), exit = None → li' = heard_step li e).
Proof.
  destruct e as [ps|ps|i k handled|r|now]; cbn [read_turn heard_step]; try done.
  - apply whenever_bind, whenever_any. by intros [[w' s'] o].
  - apply whenever_bind, whenever_any. intros [[w' s'] o].
    destruct o; [apply whenever_bind, whenever_any; by intros [[w2 s2] o2]..|done].
  - destruct i as [[text| | | |]|[]|]; try done. apply whenever_bind, whenever_any. by intros [[w' s'] []].
Qed.

(** (attachment) silence and only silence reaps. A loop still reading after any wakes
    meets a liveness tick: it ends, as if the peer had hung up, exactly when more than the
    reap interval has passed since a text frame, ping or pong was last handled; pushes,
    nudges and earlier ticks do not count as hearing from the attacher. *)
Theorem reaped_exactly_on_silence x reap (w : World) s li es now w' s' :
  read_frames parse_frame x reap w s li es = Returns (w', s', None) →
  read_frames parse_frame x reap w s li (es ++ [Ticked now]) =
    Returns (w', s', if reap <? now - heard li es then Some Peer else None).
Proof.
  revert w s li. induction es as [|e es IH]; intros w s li; cbn [app read_frames].
  { intros [= <- <-]. cbn [read_turn mbind panics_bind]. by destruct (reap <? _). }
  pose proof (read_turn_heard x reap w s li e) as Hh.
  destruct (read_turn parse_frame x reap w s li e) as [[[[w1 s1] li1] [v|]]|]; cbn [mbind panics_bind whenever] in *; try done.
  intros Hr. rewrite (IH _ _ _ Hr). unfold heard. cbn [foldl]. by rewrite (Hh eq_refl).
Qed.
End life.

(** ** Witnesses *)
Import EvalInstances Serve.RingStore Demo.

Definition demo_events : list (WriterEvent N Z) :=
  [Enqueue (PublishResult (Some 1) PublishOk); TickArm; RecvArm; TickArm; TickArm; Enqueue (PublishResult (Some 2) RateLimited);
   SendClose (mkReason 4001 "reload"); CloseArm; RecvArm].
Definition demo_sink : list bool := replicate 20 true.

(** What the task writes on those events: a heartbeat only at the ticks that found nothing
    written, the frame still queued ahead of the close. *)
Example demo_written :
  written (writer_task (task_new demo_sink) demo_events).1 =
  [WPing; WFrame Heartbeat; WFrame (PublishResult (Some 1) PublishOk); WPing; WPing; WFrame Heartbeat;
   WFrame (PublishResult (Some 2) RateLimited); WClose (mkReason 4001 "reload")].
Proof. vm_compute. reflexivity. Qed.

Lemma writer_breaks_its_silence_witness : pings (Uuid := N) (DateTime := Z) [WPing; WPing] ≤ 2.
Proof.
  apply (writer_breaks_its_silence demo_sink demo_events
    [WPing; WFrame Heartbeat; WFrame (PublishResult (Some 1) PublishOk)] [WPing; WPing]
    [WFrame Heartbeat; WFrame (PublishResult (Some 2) RateLimited); WClose (mkReason 4001 "reload")]).
  - vm_compute. reflexivity.
  - by repeat constructor.
Defined.

Lemma writer_keeps_order_and_closes_last_witness :
  ∃ t, writer_task (task_new demo_sink) demo_events = (t, false) ∧
  data (written t) `prefix_of` queued true demo_events ∧
  (Forall (λ m, is_close m = false) (written t) ∨
   ∃ r k taken, written t = k ++ [WClose r] ∧ Forall (λ m, is_close m = false) k ∧ taken `prefix_of` demo_events ∧
     data (written t) = queued true taken ∧ foldl slot_step CloseHeld taken = CloseSent r).
Proof.
  destruct (writer_task (task_new demo_sink) demo_events) as [t on] eqn:Ht.
  exists t. assert (on = false) as -> by (vm_compute in Ht; by injection Ht as _ <-).
  split; [done|]. exact (writer_keeps_order_and_closes_last demo_sink demo_events t false Ht).
Defined.

Definition demo_reads : list (N * Inbound) := [(1, Received Ping); (2, Received (Text "hello"))].

Lemma attached_exactly_on_a_common_version_witness :
  ∃ w' op, open_attachment demo_parse demo_ctx demo_world demo_reads 30 "build" = Returns (w', op) ∧
    bus w' = () ∧ registry w' = registry demo_world ∧ pages w' = [] ∧
    match op with
    | Attached => ∃ peer v, said_hello demo_parse demo_reads HELLO_TIMEOUT peer ∧ negotiate SUPPORTED_VERSIONS peer = Some v ∧
        tx_sent (tx w') = [] ++ [ServerHello SUPPORTED_VERSIONS "build"; Welcome v "surface:bar" "s1" 30 64 139648 true] ++ []
    | Closed _ => (¬ ∃ peer v, said_hello demo_parse demo_reads HELLO_TIMEOUT peer ∧ negotiate SUPPORTED_VERSIONS peer = Some v) ∧
        tx_sent (tx w') = [] ++ [ServerHello SUPPORTED_VERSIONS "build"]
    end.
Proof.
  apply (attached_exactly_on_a_common_version demo_parse demo_ctx demo_world demo_reads 30 "build" 139648 (λ _, [])).
  - done.
  - vm_compute. reflexivity.
  - intros d Hd. by apply not_elem_of_nil in Hd.
Defined.

Definition demo_held : AttachRegistry N Z :=
  (try_register registry_default "bar" (mkHandle 1 "ann") (mkMailbox [] true None) (mkCaps 4 4)).1.
Definition demo_attached : World () N Z := mkWorld () demo_held (mkWriter true [] 0) [].

Lemma attachment_gives_up_its_slot_witness :
  ∃ w' e, attach_session demo_parse demo_ctx demo_attached ("bar"%string, 1) ∅ 3 30 "build" 0 2 demo_reads
      (demo_wakes ++ [Signalled (Some (mkReason 4001 "reload"))]) = Returns (w', Some e) ∧
    released demo_attached w' ("bar"%string, 1) e ∧ close_frame e = Some (mkReason 4001 "reload") ∧ security_event e = None.
Proof.
  destruct (attach_session demo_parse demo_ctx demo_attached ("bar"%string, 1) ∅ 3 30 "build" 0 2 demo_reads
    (demo_wakes ++ [Signalled (Some (mkReason 4001 "reload"))])) as [[w' [e|]]|] eqn:Ha.
  - exists w', e. split; [done|].
    destruct (attachment_gives_up_its_slot demo_parse demo_ctx demo_attached ("bar"%string, 1) ∅ 3 30 "build" 0 2 demo_reads
      (demo_wakes ++ [Signalled (Some (mkReason 4001 "reload"))]) w' e Ha) as [Hr _].
    split; [exact Hr|]. vm_compute in Ha. by injection Ha as _ <-.
  - exfalso. by vm_compute in Ha.
  - exfalso. by vm_compute in Ha.
Defined.

Lemma reaped_exactly_on_silence_witness :
  ∃ s w' s', state_new demo_profile ∅ 3 0 = Returns s ∧
    read_frames demo_parse demo_ctx 90 demo_world s 0 demo_wakes = Returns (w', s', None) ∧
    read_frames demo_parse demo_ctx 90 demo_world s 0 (demo_wakes ++ [Ticked 99]) = Returns (w', s', Some Peer).
Proof.
  destruct (state_new (Uuid := N) demo_profile ∅ 3 0) as [s|] eqn:Hs; [|by vm_compute in Hs].
  destruct (read_frames demo_parse demo_ctx 90 demo_world s 0 demo_wakes) as [[[w' s'] [v|]]|] eqn:Hr.
  1,3: exfalso; revert Hr; injection Hs as <-; by vm_compute.
  exists s, w', s'. split_and!; [done|done|].
  exact (reaped_exactly_on_silence demo_parse demo_ctx 90 demo_world s 0 demo_wakes 99 w' s' Hr).
Defined.
End LifeProps.
