(* ===== verification/Retention.v ===== *)
(** * Retention stores: the contract and its in-memory half
    ([brenn-messaging-store/src/store/{mod,ring,registry}.rs])

    A channel's messages live in a store between publish and delivery. [Retention] holds
    what every store speaks: messages on their way in, outcomes, windows, and the clock
    conversions. [RingStore] is the store of a non-durable channel: one [RingCore], the
    application each position is held under, and a publish counter. [RingStores] is the
    process's set of them. Every instant is a [chrono] value; the ring works in epoch
    milliseconds. *)

From S2P Require Import Prelude Envelope Ring Cursor Deferred RingCore Directory Serve Session.

#[local] Open Scope N_scope.
#[local] Open Scope list_scope.

(** ** Instants *)

(** [chrono::DateTime<Utc>] at second and nanosecond grain, and its text:
    [to_rfc3339_secs] is [to_rfc3339_opts(SecondsFormat::Secs, false)], and
    [parse_from_rfc3339] the parser of the same name, read in UTC. *)
Class ChronoSecs (DateTime : Type) := {
  timestamp : DateTime → Z;
  timestamp_subsec_nanos : DateTime → N;
  from_timestamp : Z → N → option DateTime;
  to_rfc3339_secs : DateTime → string;
  parse_from_rfc3339 : string → option DateTime;
}.

(** An instant of the years 0000 to 9999, the ones RFC 3339 can spell. *)
Definition four_digit_year {DateTime} `{ChronoSecs DateTime} (a : DateTime) : Prop :=
  (-62167219200 ≤ timestamp a ≤ 253402300799)%Z.

(** Documented behaviour of [chrono]: an instant is a count of nanoseconds from the epoch,
    ordered by it; the accessors round towards the past; the constructors invert them, and
    accept whatever an accessor answered. (A leap second, which no clock read answers, is not
    on the line.) A text of a four-digit year is of fixed width, most significant field
    first, so it orders as the instants do, and reads back as the whole second; any other
    year is spelled with a sign, which orders before every digit and which the parser
    refuses. *)
Class ChronoLine (DateTime : Type) `{Chrono DateTime, ChronoSecs DateTime, ChronoOrd DateTime} := {
  nanos_of : DateTime → Z;
  nanos_of_inj a b : nanos_of a = nanos_of b → a = b;
  later_nanos a b : later a b = (nanos_of b <? nanos_of a)%Z;
  timestamp_millis_nanos a : timestamp_millis a = (nanos_of a / 1000000)%Z;
  timestamp_nanos a : timestamp a = (nanos_of a / 1000000000)%Z;
  subsec_nanos a : Z.of_N (timestamp_subsec_nanos a) = (nanos_of a mod 1000000000)%Z;
  millis_range a : (- 9223372036854775808 ≤ timestamp_millis a ≤ 9223372036854775807)%Z;
  from_millis_total a : is_Some (from_timestamp_millis (timestamp_millis a));
  from_millis_nanos z a : from_timestamp_millis z = Some a → nanos_of a = (z * 1000000)%Z;
  from_secs_total a n : n < 1000000000 → is_Some (from_timestamp (timestamp a) n);
  from_ns_total z :
    (- 9223372036854775808 ≤ z ≤ 9223372036854775807)%Z →
    is_Some (from_timestamp (z / 1000000000) (Z.to_N (z mod 1000000000)));
  from_secs_nanos z n a :
    from_timestamp z n = Some a → nanos_of a = (z * 1000000000 + Z.of_N n)%Z;
  rfc3339_order a b :
    four_digit_year a → four_digit_year b →
    String.compare (to_rfc3339_secs a) (to_rfc3339_secs b) = (timestamp a ?= timestamp b)%Z;
  rfc3339_reads a :
    four_digit_year a → parse_from_rfc3339 (to_rfc3339_secs a) = from_timestamp (timestamp a) 0;
  rfc3339_signed a b :
    ¬ four_digit_year a → four_digit_year b →
    String.compare (to_rfc3339_secs a) (to_rfc3339_secs b) = Lt;
  rfc3339_refused a : ¬ four_digit_year a → parse_from_rfc3339 (to_rfc3339_secs a) = None;
}.

(** A clock to evaluate the definitions at: nanoseconds within a calendar range, with the
    seconds since the year 0000 in twelve digits for text. *)
Module NanoClock.

(** [n] in [w] decimal digits, and back. *)
Fixpoint digits (w : nat) (n : N) : string :=
  match w with
  | O => ""
  | S w => String (Ascii.ascii_of_N (48 + n / 10 ^ N.of_nat w)) (digits w (n mod 10 ^ N.of_nat w))
  end.
Fixpoint read_digits (acc : N) (s : string) : option N :=
  match s with
  | EmptyString => Some acc
  | String c s =>
      let d := Ascii.N_of_ascii c in
      if (48 <=? d) && (d <=? 57) then read_digits (10 * acc + (d - 48)) s else None
  end.

Lemma digit_bounds w n : n < 10 ^ N.of_nat (S w) → n / 10 ^ N.of_nat w ≤ 9 ∧ n mod 10 ^ N.of_nat w < 10 ^ N.of_nat w.
Proof.
  intros Hn. rewrite Nat2N.inj_succ, N.pow_succ_r' in Hn. assert (0 < 10 ^ N.of_nat w) by (apply N.neq_0_lt_0, N.pow_nonzero; lia).
  split; [|apply N.mod_lt; lia]. enough (n / 10 ^ N.of_nat w < 10) by lia. apply N.Div0.div_lt_upper_bound. lia.
Qed.

Lemma digit_code d : d ≤ 9 → Ascii.N_of_ascii (Ascii.ascii_of_N (48 + d)) = 48 + d.
Proof. intros. apply Ascii.N_ascii_embedding. lia. Qed.

Lemma digits_read w : ∀ n acc, n < 10 ^ N.of_nat w → read_digits acc (digits w n) = Some (acc * 10 ^ N.of_nat w + n).
Proof.
  induction w as [|w IH]; intros n acc Hn; [change (10 ^ N.of_nat 0) with 1 in *; simpl; f_equal; lia|].
  cbn [digits read_digits]. destruct (digit_bounds w n Hn) as [Hd Hm]. rewrite digit_code by done.
  pose proof (N.Div0.div_mod n (10 ^ N.of_nat w)) as Hdm. rewrite IH by done. rewrite Nat2N.inj_succ, N.pow_succ_r'.
  clear Hn IH. generalize dependent (n mod 10 ^ N.of_nat w). generalize dependent (n / 10 ^ N.of_nat w).
  generalize (10 ^ N.of_nat w). intros p q Hq r Hr ->.
  replace ((48 <=? 48 + q) && (48 + q <=? 57)) with true by (symmetry; apply andb_true_iff; split; apply N.leb_le; lia).
  f_equal. replace (48 + q - 48) with q by lia. lia.
Qed.

Lemma digits_compare w : ∀ n m,
  n < 10 ^ N.of_nat w → m < 10 ^ N.of_nat w → String.compare (digits w n) (digits w m) = (n ?= m).
Proof.
  induction w as [|w IH]; intros n m Hn Hm; [change (10 ^ N.of_nat 0) with 1 in *; simpl; symmetry; apply N.compare_eq_iff; lia|].
  cbn [digits String.compare]. destruct (digit_bounds w n Hn) as [Hdn Hn'], (digit_bounds w m Hm) as [Hdm Hm'].
  unfold Ascii.compare. rewrite !digit_code by done. rewrite IH by done.
  pose proof (N.Div0.div_mod n (10 ^ N.of_nat w)) as En. pose proof (N.Div0.div_mod m (10 ^ N.of_nat w)) as Em.
  clear Hn Hm IH. revert En Em Hn' Hm' Hdn Hdm.
  generalize (n mod 10 ^ N.of_nat w) (n / 10 ^ N.of_nat w) (m mod 10 ^ N.of_nat w) (m / 10 ^ N.of_nat w).
  generalize (10 ^ N.of_nat w). intros p r q r' q' -> -> Hr Hr' _ _.
  destruct (N.compare_spec (48 + q) (48 + q')) as [He|Hl|Hl].
  - assert (q = q') as -> by lia. destruct (N.compare_spec r r'); symmetry;
      [apply N.compare_eq_iff|apply N.compare_lt_iff|apply N.compare_gt_iff]; lia.
  - symmetry. apply N.compare_lt_iff. assert (p * (q + 1) ≤ p * q') by (apply N.mul_le_mono_l; lia). lia.
  - symmetry. apply N.compare_gt_iff. assert (p * (q' + 1) ≤ p * q) by (apply N.mul_le_mono_l; lia). lia.
Qed.

Lemma digits_length w : ∀ n, String.length (digits w n) = w.
Proof. induction w as [|w IH]; intros n; simpl; [done|]. by rewrite IH. Qed.

Definition spelled (secs : Z) : bool := ((-62167219200 <=? secs) && (secs <=? 253402300799))%Z.
Definition seconds_text (secs : Z) : string :=
  if spelled secs then digits 12 (Z.to_N (secs + 62167219200)) else if (secs <? 0)%Z then "-" else "+".
Definition read_seconds (s : string) : option Z :=
  if (String.length s =? 12)%nat then (λ n, Z.of_N n - 62167219200)%Z <$> read_digits 0 s else None.

Lemma spelled_digits secs : spelled secs = true → Z.to_N (secs + 62167219200) < 10 ^ N.of_nat 12.
Proof. unfold spelled. intros [Hl Hu]%andb_true_iff. change (10 ^ N.of_nat 12) with 1000000000000. lia. Qed.

Lemma seconds_text_read secs : spelled secs = true → read_seconds (seconds_text secs) = Some secs.
Proof.
  intros Hs. unfold read_seconds, seconds_text. rewrite Hs, digits_length. cbn [Nat.eqb].
  rewrite digits_read by (by apply spelled_digits). cbn. f_equal. unfold spelled in Hs. lia.
Qed.

Lemma seconds_text_compare a b :
  spelled a = true → spelled b = true → String.compare (seconds_text a) (seconds_text b) = (a ?= b)%Z.
Proof.
  intros Ha Hb. unfold seconds_text. rewrite Ha, Hb, digits_compare by (by apply spelled_digits).
  unfold spelled in *. destruct (Z.compare_spec a b); [apply N.compare_eq_iff|apply N.compare_lt_iff|apply N.compare_gt_iff]; lia.
Qed.

Lemma seconds_text_signed a b : spelled a = false → spelled b = true → String.compare (seconds_text a) (seconds_text b) = Lt.
Proof.
  intros Ha Hb. pose proof (spelled_digits b Hb) as Hn. unfold seconds_text. rewrite Ha, Hb.
  generalize dependent (Z.to_N (b + 62167219200)). intros n Hn. cbn [digits].
  destruct (digit_bounds 11 n Hn) as [Hd _].
  assert (Hlt : ∀ c s t, Ascii.N_of_ascii c < 48 →
    String.compare (String c s) (String (Ascii.ascii_of_N (48 + n / 10 ^ N.of_nat 11)) t) = Lt).
  { intros c s t Hc. cbn [String.compare]. unfold Ascii.compare. rewrite digit_code by done.
    rewrite (proj2 (N.compare_lt_iff _ (48 + n / 10 ^ N.of_nat 11))); [done|].
    eapply N.lt_le_trans; [exact Hc|apply N.le_add_r]. }
  destruct (a <? 0)%Z; apply Hlt; vm_compute; reflexivity.
Qed.

Definition in_calendar (secs : Z) : bool := ((-8000000000000 <=? secs) && (secs <? 8000000000000))%Z.

Record Instant := mkInstant { ns : Z; calendar : in_calendar (ns / 1000000000) = true }.

Definition instant (z : Z) : option Instant :=
  match decide (in_calendar (z / 1000000000) = true) with
  | left H => Some (mkInstant z H)
  | right _ => None
  end.

#[export] Instance nano_chrono : Chrono Instant := {|
  from_timestamp_millis z := instant (z * 1000000);
  timestamp_millis a := (ns a / 1000000)%Z;
|}.
#[export] Instance nano_secs : ChronoSecs Instant := {|
  timestamp a := (ns a / 1000000000)%Z;
  timestamp_subsec_nanos a := Z.to_N (ns a mod 1000000000);
  from_timestamp s n := if n <? 1000000000 then instant (s * 1000000000 + Z.of_N n) else None;
  to_rfc3339_secs a := seconds_text (ns a / 1000000000);
  parse_from_rfc3339 s := secs ← read_seconds s; instant (secs * 1000000000);
|}.
#[export] Instance nano_ord : ChronoOrd Instant := λ a b, (ns b <? ns a)%Z.

Lemma instant_Some z a : instant z = Some a → ns a = z.
Proof. unfold instant. by case_decide; intros [= <-]. Qed.

Lemma instant_total z : in_calendar (z / 1000000000) = true → is_Some (instant z).
Proof. intros. unfold instant. by case_decide; eauto. Qed.

#[export] Program Instance nano_line : ChronoLine Instant := {| nanos_of := ns |}.
Next Obligation.
  intros [z Hz] [z' Hz']. simpl. intros ->. f_equal. apply proof_irrel.
Qed.
Next Obligation. done. Qed.
Next Obligation. done. Qed.
Next Obligation. done. Qed.
Next Obligation. intros a. simpl. rewrite Z2N.id; [done|]. apply Z.mod_pos_bound. lia. Qed.
Next Obligation.
  intros [z Hz]. simpl. unfold in_calendar in Hz.
  pose proof (Z.div_mod z 1000000000 ltac:(lia)). pose proof (Z.mod_pos_bound z 1000000000 ltac:(lia)).
  pose proof (Z.div_mod z 1000000 ltac:(lia)). pose proof (Z.mod_pos_bound z 1000000 ltac:(lia)). lia.
Qed.
Next Obligation.
  intros [z Hz]. simpl. apply instant_total.
  replace (z / 1000000 * 1000000 / 1000000000)%Z with (z / 1000000000)%Z; [done|].
  pose proof (Z.div_mod z 1000000000 ltac:(lia)). pose proof (Z.mod_pos_bound z 1000000000 ltac:(lia)).
  pose proof (Z.div_mod z 1000000 ltac:(lia)). pose proof (Z.mod_pos_bound z 1000000 ltac:(lia)).
  apply Z.div_unique with (r := (z / 1000000 * 1000000 - 1000000000 * (z / 1000000000))%Z); lia.
Qed.
Next Obligation. intros z a Ha. by apply instant_Some in Ha. Qed.
Next Obligation.
  intros [z Hz] n Hn. simpl. destruct (N.ltb_spec n 1000000000); [|lia]. apply instant_total.
  replace ((z / 1000000000 * 1000000000 + Z.of_N n) / 1000000000)%Z with (z / 1000000000)%Z; [done|].
  apply Z.div_unique with (r := Z.of_N n); lia.
Qed.
Next Obligation.
  intros z Hz. simpl. pose proof (Z.mod_pos_bound z 1000000000 ltac:(lia)).
  pose proof (Z.div_mod z 1000000000 ltac:(lia)).
  destruct (N.ltb_spec (Z.to_N (z mod 1000000000)) 1000000000); [|lia]. apply instant_total.
  rewrite Z2N.id by lia.
  replace ((z / 1000000000 * 1000000000 + z mod 1000000000) / 1000000000)%Z with (z / 1000000000)%Z.
  - unfold in_calendar. lia.
  - apply Z.div_unique with (r := (z mod 1000000000)%Z); lia.
Qed.
Next Obligation.
  intros z n a. simpl. destruct (n <? 1000000000); [|done]. apply instant_Some.
Qed.
Next Obligation. intros a b [? ?] [? ?]. simpl in *. apply seconds_text_compare; unfold spelled; lia. Qed.
Next Obligation.
  intros a [? ?]. simpl in *. rewrite seconds_text_read by (unfold spelled; lia). cbn. by rewrite Z.add_0_r.
Qed.
Next Obligation.
  intros a b Ha [? ?]. unfold four_digit_year in Ha. simpl in *. apply seconds_text_signed; unfold spelled; lia.
Qed.
Next Obligation.
  intros a Ha. unfold four_digit_year in Ha. simpl in *. unfold seconds_text.
  replace (spelled _) with false by (unfold spelled; lia). by destruct (_ <? 0)%Z.
Qed.

(** An instant by its nanoseconds, for examples. *)
Definition at_ns (z : Z) : Instant :=
  match instant z with Some a => a | None => mkInstant 0 eq_refl end.
End NanoClock.

(** An [i64] addition or multiplication wraps. *)
Definition i64_wrap (z : Z) : Z :=
  ((z + 9223372036854775808) mod 18446744073709551616 - 9223372036854775808)%Z.

Module Retention.
Import Envelope Directory Plane.

Section instants.
Context {DateTime : Type} `{Chrono DateTime, ChronoSecs DateTime, ChronoOrd DateTime}.

(** [Ord::min] on instants: the first where the two are equal. *)
Definition instant_min (a b : DateTime) : DateTime := if later a b then b else a.

(** [ns_to_utc]. *)
Definition ns_to_utc (ns : Z) : panics DateTime :=
  rust_expect (from_timestamp (ns / 1000000000) (Z.to_N (ns mod 1000000000)))
    "publish_ts_ns is out of range for DateTime<Utc>".

(** [utc_to_ns]. *)
Definition utc_to_ns (dt : DateTime) : Z :=
  i64_wrap (i64_wrap (timestamp dt * 1000000000) + Z.of_N (timestamp_subsec_nanos dt)).

(** [release_time_of]. *)
Definition release_time_of (ts : DateTime) : panics N :=
  let ms := timestamp_millis ts in
  if (ms <? 0)%Z then Panics "messaging store: release time precedes the Unix epoch"
  else Returns (Z.to_N ms).

(** [instant_of]. *)
Definition instant_of (release_time : N) : panics DateTime :=
  _ ← rust_assert (release_time <=? i64_max) "messaging store: release time out of range";
  rust_expect (from_timestamp_millis (Z.of_N release_time))
    "messaging store: release time out of range".
End instants.

(** [depth_bound]. *)
Definition depth_bound (limit : Depth) : N :=
  match limit with
  | Bounded n => n
  | Unbounded => u64_max
  end.

(** [ReplyTarget]. *)
Record ReplyTarget (Uuid : Type) := mkReplyTarget { target_uuid : Uuid; target_address : string }.
Arguments mkReplyTarget {Uuid}.
Arguments target_uuid {Uuid}.
Arguments target_address {Uuid}.

(** [NewMessage]. *)
Record NewMessage (Uuid DateTime : Type) := mkNewMessage {
  nm_source : string;
  nm_sender : string;
  nm_body : string;
  nm_urgency : Urgency;
  nm_envelope_type : ChannelScheme;
  nm_reply_to : option (ReplyTarget Uuid);
  nm_delivery_deadline : option DateTime;
  nm_impetus : option Impetus;
  nm_publish_ts_ns : Z;
}.
Arguments mkNewMessage {Uuid DateTime}.
Arguments nm_source {Uuid DateTime}.
Arguments nm_sender {Uuid DateTime}.
Arguments nm_body {Uuid DateTime}.
Arguments nm_urgency {Uuid DateTime}.
Arguments nm_envelope_type {Uuid DateTime}.
Arguments nm_reply_to {Uuid DateTime}.
Arguments nm_delivery_deadline {Uuid DateTime}.
Arguments nm_impetus {Uuid DateTime}.
Arguments nm_publish_ts_ns {Uuid DateTime}.

(** [Committed]; a [MessageSeq] is its number. *)
Record Committed (Uuid : Type) := mkCommitted { committed_uuid : Uuid; committed_seq : N }.
Arguments mkCommitted {Uuid}.
Arguments committed_uuid {Uuid}.
Arguments committed_seq {Uuid}.

(** [SubscriberWindow]. *)
Record SubscriberWindow (M : Type) := mkSubscriberWindow {
  sw_entries : list (N * M);
  sw_new_from : N;
  sw_push_enabled : bool;
}.
Arguments mkSubscriberWindow {M}.
Arguments sw_entries {M}.
Arguments sw_new_from {M}.
Arguments sw_push_enabled {M}.

(** [SubscriberWindow::empty]. *)
Definition empty_window {M} : SubscriberWindow M := mkSubscriberWindow [] 0 false.

(** [SubscriberWindow::new_entries]: a slice from a position past the end unwinds. *)
Definition sw_new_entries {M} (w : SubscriberWindow M) : panics (list (N * M)) :=
  _ ← rust_assert (sw_new_from w <=? len (sw_entries w)) "range start index out of range";
  Returns (drop (N.to_nat (sw_new_from w)) (sw_entries w)).

(** [SubscriberWindow::advance_span]. *)
Definition sw_advance_span {M} (w : SubscriberWindow M) : option (N * N) :=
  if negb (sw_push_enabled w) then None
  else
    l ← last (sw_entries w);
    f ← head (sw_entries w);
    Some (l.1, f.1).

(** [compose_window]. *)
Definition compose_window {M} (entries : list (N * M)) (next_owed : N) (push_limit : Depth)
    : SubscriberWindow M :=
  mkSubscriberWindow entries
    (Cursor.new_boundary entries.*1 next_owed (depth_bound push_limit))
    (Directory.is_push_enabled push_limit).

(** [DeliverableSubscriber]. *)
Record DeliverableSubscriber (DateTime : Type) := mkDeliverable {
  ds_subscriber : string;
  ds_app_slug : option string;
  ds_max_unseen_urgency : Urgency;
  ds_earliest_unseen_deadline : option DateTime;
}.
Arguments mkDeliverable {DateTime}.
Arguments ds_subscriber {DateTime}.
Arguments ds_app_slug {DateTime}.
Arguments ds_max_unseen_urgency {DateTime}.
Arguments ds_earliest_unseen_deadline {DateTime}.

(** [OverflowEvent]. *)
Record OverflowEvent := mkOverflowEvent {
  ov_subscriber : string;
  ov_dropped : N;
  ov_app_slug : option string;
}.

(** [AppendOutcome]. *)
Record AppendOutcome (Uuid : Type) := mkAppendOutcome {
  ao_committed : Committed Uuid;
  ao_overflow : list OverflowEvent;
}.
Arguments mkAppendOutcome {Uuid}.
Arguments ao_committed {Uuid}.
Arguments ao_overflow {Uuid}.

(** [ReleaseOutcome], whose [Released] entries pair a seq with its envelope. *)
Record ReleaseOutcome (M : Type) := mkReleaseOutcome {
  ro_released : list (Ring.Retained M);
  ro_overflow : list OverflowEvent;
}.
Arguments mkReleaseOutcome {M}.
Arguments ro_released {M}.
Arguments ro_overflow {M}.

(** [Ord::max] on the urgency ladder. *)
Definition urgency_max (a b : Urgency) : Urgency :=
  if (urgency_rank b <? urgency_rank a)%Z then a else b.
End Retention.

(** ** The store of a non-durable channel *)

Module RingStore.
Import Envelope Directory Plane Retention.

Definition MAX_RING_RETAIN_DEPTH : N := 4096.

Section store.
Context {Uuid DateTime : Type} `{Countable Uuid, Chrono DateTime, ChronoSecs DateTime, ChronoOrd DateTime}.

Abbreviation message := (MessageEnvelope Uuid DateTime).

(** [RingStore], with the [RingState] under its lock. *)
Record RingStore := mkStore {
  st_epoch : Uuid;
  st_channel_uuid : Uuid;
  st_address : string;
  st_capabilities : ChannelCapabilities;
  publishes : N;
  core : Core.RingCore message Uuid string;
  app_slugs : gmap string string;
}.

(** [RetainedMessage], [Appended] and [ReleasedBatch]. *)
Record Appended := mkAppended { retained : Ring.Retained message; appended_overflow : list OverflowEvent }.
Record ReleasedBatch := mkReleased { messages : list (Ring.Retained message); batch_overflow : list OverflowEvent }.

Definition with_core (st : RingStore) (c : Core.RingCore message Uuid string) : RingStore :=
  mkStore (st_epoch st) (st_channel_uuid st) (st_address st) (st_capabilities st) (publishes st) c
    (app_slugs st).
Definition with_slugs (st : RingStore) (m : gmap string string) : RingStore :=
  mkStore (st_epoch st) (st_channel_uuid st) (st_address st) (st_capabilities st) (publishes st)
    (core st) m.

(** [RingStore::with_epoch]. *)
Definition with_epoch (channel_uuid : Uuid) (address : string) (retain_depth : Depth) (epoch : Uuid)
    : panics RingStore :=
  caps ← rust_expect (scheme ← scheme_of address; capabilities scheme)
           "messaging store: names no pub/sub channel, so it holds no retention";
  _ ← rust_assert (negb (durable caps)) "messaging store: ring-backed but its scheme is durable";
  match retain_depth with
  | Unbounded => Panics "messaging store: non-durable and cannot retain an unbounded window"
  | Bounded depth =>
      _ ← rust_assert (depth <=? MAX_RING_RETAIN_DEPTH) "messaging store: retain_depth exceeds the sanity cap";
      Returns (mkStore epoch channel_uuid address caps 0 (Core.core_new epoch depth) ∅)
  end.

(** [RingStore::announce]. *)
Definition announce (st : RingStore) : RingStore :=
  mkStore (st_epoch st) (st_channel_uuid st) (st_address st) (st_capabilities st)
    (u64_add (publishes st) 1) (core st) (app_slugs st).

(** [RingStore::app_slug]. *)
Definition app_slug (slugs : gmap string string) (subscriber : string) : panics string :=
  rust_expect (slugs !! subscriber) "messaging store: subscriber holds a position under no application".

(** [RingStore::overflow_events]. *)
Definition overflow_events (slugs : gmap string string) (overflow : list (Core.CursorOverflow string))
    : panics (list OverflowEvent) :=
  mapM (λ event,
    slug ← app_slug slugs (Core.subscriber event);
    Returns (mkOverflowEvent (Core.subscriber event) (Core.evicted event) (Some slug))) overflow.

(** [RingStore::append]. *)
Definition append (st : RingStore) (envelope : message) : panics (RingStore * Appended) :=
  let '(c, report) := Core.core_append (core st) envelope in
  overflow ← overflow_events (app_slugs st) (Core.report_overflow report);
  Returns (announce (with_core st c),
           mkAppended (Ring.mkRetained (Core.report_seq report) envelope) overflow).

(** [RingStore::retained_tail], [retained_len], [newest_seq] and [replay]. *)
Definition retained_tail (st : RingStore) (n : N) : list (Ring.Retained message) :=
  Ring.tail (Core.ring (core st)) n.
Definition retained_len (st : RingStore) : N := len (Ring.entries (Core.ring (core st))).
Definition newest_seq (st : RingStore) : N := Ring.newest_seq (Core.ring (core st)).
Definition replay (st : RingStore) (resume : option (Ring.Resume Uuid)) : Ring.Replay message :=
  Ring.replay (Core.ring (core st)) resume.

(** [RingStore::attach]. *)
Definition attach (st : RingStore) (subscriber app_slug : string) (push_depth : N)
    : RingStore * Core.Attached :=
  let '(c, attached) := Core.attach (core st) subscriber push_depth in
  (with_slugs (with_core st c)
     (if Core.is_attached c subscriber then <[subscriber := app_slug]> (app_slugs st)
      else delete subscriber (app_slugs st)), attached).

(** [RingStore::attach_from]. *)
Definition attach_from (st : RingStore) (subscriber app_slug : string) (push_depth floor_next_owed : N)
    : panics (RingStore * Core.Attached) :=
  '(c, attached) ← Core.attach_from (core st) subscriber push_depth floor_next_owed;
  Returns (with_slugs (with_core st c) (<[subscriber := app_slug]> (app_slugs st)), attached).

(** [RingStore::detach]. *)
Definition detach (st : RingStore) (subscriber : string) : RingStore * option N :=
  let '(c, dropped) := Core.detach (core st) subscriber in
  (with_slugs (with_core st c) (delete subscriber (app_slugs st)), Cursor.next_owed <$> dropped).

(** [RingStore::is_attached], [RingStore::attached]. *)
Definition is_attached (st : RingStore) (subscriber : string) : bool :=
  Core.is_attached (core st) subscriber.
Definition attached (st : RingStore) : list string := (map_to_list (Core.cursors (core st))).*1.

(** One turn of the loop of [deliverable_subscribers], over the entries newest first. *)
Definition fold_suffix (acc : list Urgency * list (option DateTime))
    (entry : N * Urgency * option DateTime) : list Urgency * list (option DateTime) :=
  let '(loudest_from, earliest_from) := acc in
  let '(_, urgency, deadline) := entry in
  let running := match last loudest_from with
                 | Some max => urgency_max max urgency
                 | None => urgency
                 end in
  let soonest := match mjoin (last earliest_from), deadline with
                 | Some a, Some b => Some (instant_min a b)
                 | Some a, None => Some a
                 | None, b => b
                 end in
  (loudest_from ++ [running], earliest_from ++ [soonest]).

(** [RingStore::deliverable_subscribers]. *)
Definition deliverable_subscribers (st : RingStore) : panics (list (DeliverableSubscriber DateTime)) :=
  let ring := Core.ring (core st) in
  let retained := (λ entry, (Ring.seq entry, urgency (Ring.message entry),
                             delivery_deadline (Ring.message entry))) <$> Ring.tail ring u64_max in
  let '(loudest, earliest) := foldl fold_suffix ([], []) (rev retained) in
  let loudest_from := rev loudest in
  let earliest_from := rev earliest in
  mapM (λ p : string * Cursor.SubscriberCursor,
    let first_unseen := prefix_count (λ e, e.1.1 <? Cursor.next_owed p.2) retained in
    slug ← app_slug (app_slugs st) p.1;
    max_unseen ← rust_expect (loudest_from !! first_unseen)
                   "ring: a deliverable cursor trails a retained message";
    Returns (mkDeliverable p.1 (Some slug) max_unseen (mjoin (earliest_from !! first_unseen))))
    (filter (λ p : string * Cursor.SubscriberCursor, Cursor.has_deliverable p.2 ring = true)
       (map_to_list (Core.cursors (core st)))).

(** [RingStore::has_deliverable]: the inherent method, which unwinds for a subscriber that is
    not attached. *)
Definition has_deliverable (st : RingStore) (subscriber : string) : panics bool :=
  if negb (Core.is_attached (core st) subscriber) then Panics "messaging store: no queue for subscriber"
  else Returns (Core.core_has_deliverable (core st) subscriber).

(** [RingStore::window]. *)
Definition window (st : RingStore) (subscriber : string) (push_limit retain_limit : N)
    : RingStore * option (Cursor.Window message) :=
  let '(c, w) := Core.core_window (core st) subscriber push_limit retain_limit in
  (with_core st c, w).

(** [RingStore::advance]. *)
Definition advance (st : RingStore) (subscriber : string) (through seen_floor : N)
    : panics (RingStore * option Cursor.Advance) :=
  '(c, a) ← Core.core_advance (core st) subscriber through seen_floor;
  Returns (with_core st c, a).

(** [RingStore::park]. *)
Definition park (st : RingStore) (envelope : message) (release_at : DateTime)
    : panics (RingStore * result Uuid Deferred.QuotaExceeded) :=
  at_ ← release_time_of release_at;
  let '(c, r) := Core.core_park (core st) (env_sender envelope) envelope at_ in
  Returns (with_core st c,
           match r with
           | Ok _ => Ok (message_id envelope)
           | Err e => Err e
           end).

(** [RingStore::next_release]. *)
Definition next_release (st : RingStore) : panics (option DateTime) :=
  match Core.core_next_release (core st) with
  | Some at_ => t ← instant_of at_; Returns (Some t)
  | None => Returns None
  end.

(** [RingStore::release_due]. *)
Definition release_due (st : RingStore) (now : DateTime) : panics (RingStore * ReleasedBatch) :=
  at_ ← release_time_of now;
  let '(c, report) := Core.core_release_due (core st) at_ in
  overflow ← overflow_events (app_slugs st) (Core.release_overflow report);
  let batch := Core.released report in
  Returns (foldl (λ st _, announce st) (with_core st c) batch, mkReleased batch overflow).

(** [RingStore::view]. *)
Definition view (entry : Deferred.Deferred message) : panics (DeferredMessage Uuid DateTime) :=
  at_ ← instant_of (Deferred.release_at entry);
  Returns (mkParked at_ (Deferred.payload entry)).

(** [RingStore::deferred_for_sender]. *)
Definition deferred_for_sender (st : RingStore) (sender : string)
    : panics (list (DeferredMessage Uuid DateTime)) :=
  mapM view (Core.deferred_for_sender (core st) sender).

(** [sort_unstable] then [dedup] on the senders. *)
Fixpoint dedup (l : list string) : list string :=
  match l with
  | [] => []
  | x :: rest =>
      match rest with
      | y :: _ => if String.eqb x y then dedup rest else x :: dedup rest
      | [] => [x]
      end
  end.

(** [RingStore::deferred_senders]. *)
Definition deferred_senders (st : RingStore) (now : DateTime) : panics (list string) :=
  at_ ← release_time_of now;
  Returns (dedup (merge_sort str_le (Deferred.sender <$> Core.deferred_at (core st) at_))).

(** [RingStore::deferred]. *)
Definition deferred (st : RingStore) (now : DateTime) : panics (list (DeferredMessage Uuid DateTime)) :=
  at_ ← release_time_of now;
  mapM view (Core.deferred_at (core st) at_).

(** [RingStore::deferred_len]. *)
Definition deferred_len (st : RingStore) : N := len (Deferred.parked (Core.deferred (core st))).

(** [RingStore::owned_id]. *)
Definition owned_id (st : RingStore) (sender : string) (message_uuid : Uuid) (now : DateTime)
    : panics (result N (DeferralOutcome DateTime)) :=
  cutoff ← release_time_of now;
  match Core.owned_deferred (core st) sender
          (λ m, bool_decide (message_id m = message_uuid)) cutoff with
  | Core.Owned i _ => Returns (Ok i)
  | Core.WrongSender _ => Returns (Err WrongSender)
  | Core.PastCutoff at_ => t ← instant_of at_; Returns (Err (NotDeferred (Some t)))
  | Core.NotFound => Returns (Err (NotDeferred None))
  end.

(** [RingStore::cancel_deferred]. *)
Definition cancel_deferred (st : RingStore) (sender : string) (message_uuid : Uuid) (now : DateTime)
    : panics (RingStore * DeferralOutcome DateTime) :=
  r ← owned_id st sender message_uuid now;
  match r with
  | Err outcome => Returns (st, outcome)
  | Ok i =>
      let '(c, gone) := Core.cancel_deferred (core st) i in
      Returns (with_core st c, match gone with Some _ => DeferralApplied | None => NotDeferred None end)
  end.

(** The body replacement of [edit_deferred]. *)
Definition with_body (m : message) (b : string) : message :=
  mkEnvelope (message_id m) (source m) (channel m) (env_sender m) (publish_ts m) b (reply_to m)
    (delivery_deadline m) (deliver_after m) (impetus m) (urgency m) (envelope_type m).

(** [RingStore::edit_deferred]. *)
Definition edit_deferred (st : RingStore) (sender : string) (message_uuid : Uuid)
    (body : option string) (release_at : option DateTime) (now : DateTime)
    : panics (RingStore * DeferralOutcome DateTime) :=
  r ← owned_id st sender message_uuid now;
  match r with
  | Err outcome => Returns (st, outcome)
  | Ok i =>
      edited ← match body with
               | Some b =>
                   e ← rust_expect (Core.deferred_entry (core st) i) "checked above";
                   Returns (Some (with_body (Deferred.payload e) b))
               | None => Returns None
               end;
      at_ ← match release_at with
            | Some t => t ← release_time_of t; Returns (Some t)
            | None => Returns None
            end;
      let '(c, r) := Core.edit_deferred (core st) i edited at_ in
      Returns (with_core st c,
               match r with Ok _ => DeferralApplied | Err _ => NotDeferred None end)
  end.

(** [RingStore::envelope_of]; the minted id is an argument. *)
Definition envelope_of (st : RingStore) (fresh : Uuid) (msg : NewMessage Uuid DateTime) : panics message :=
  ts ← ns_to_utc (nm_publish_ts_ns msg);
  Returns (mkEnvelope fresh (nm_source msg) (st_address st) (nm_sender msg) ts (nm_body msg)
             (target_address <$> nm_reply_to msg) (nm_delivery_deadline msg) None (nm_impetus msg)
             (nm_urgency msg) (nm_envelope_type msg)).

(** *** The [RetentionStore] methods that are not the inherent one *)

(** A cursor's view in the shape of the trait. *)
Definition repack (w : Cursor.Window message) : SubscriberWindow message :=
  mkSubscriberWindow ((λ e, (Ring.seq e, Ring.message e)) <$> Cursor.win_entries w)
    (Cursor.new_from w) (Cursor.push_enabled w).

(** [RetentionStore::window]. *)
Definition store_window (st : RingStore) (subscriber : string) (push_limit retain_limit : Depth)
    : RingStore * option (SubscriberWindow message) :=
  let '(st, w) := window st subscriber (depth_bound push_limit) (depth_bound retain_limit) in
  (st, repack <$> w).

(** [RetentionStore::has_deliverable]. *)
Definition store_has_deliverable (st : RingStore) (subscriber : string) : bool :=
  Core.core_has_deliverable (core st) subscriber.

(** [RetentionStore::attach] and [attach_from]. *)
Definition store_attach (st : RingStore) (subscriber app_slug : string) (push_depth : Depth) :=
  attach st subscriber app_slug (depth_bound push_depth).
Definition store_attach_from (st : RingStore) (subscriber app_slug : string) (push_depth : Depth) (floor : N) :=
  attach_from st subscriber app_slug (depth_bound push_depth) floor.

(** [RetentionStore::append]. *)
Definition store_append (st : RingStore) (fresh : Uuid) (msg : NewMessage Uuid DateTime)
    : panics (RingStore * AppendOutcome Uuid) :=
  envelope ← envelope_of st fresh msg;
  '(st, a) ← append st envelope;
  Returns (st, mkAppendOutcome (mkCommitted (message_id envelope) (Ring.seq (retained a)))
                 (appended_overflow a)).

(** [RetentionStore::park]. *)
Definition store_park (st : RingStore) (fresh : Uuid) (msg : NewMessage Uuid DateTime) (release_at : DateTime)
    : panics (RingStore * result Uuid Deferred.QuotaExceeded) :=
  envelope ← envelope_of st fresh msg;
  park st envelope release_at.

(** [RetentionStore::retained_tail]. *)
Definition store_retained_tail (st : RingStore) (limit : Depth) : list message :=
  Ring.message <$> retained_tail st (match limit with Bounded n => n | Unbounded => u64_max end).

(** [RetentionStore::replay_from]. *)
Definition store_replay_from (st : RingStore) (cursor : option (Ring.Resume Uuid)) (limit : Depth)
    : Store.StoreReplay message Uuid :=
  let r := replay st cursor in
  Store.clamp_replay (Store.mkStoreReplay (st_epoch st) (Ring.messages r) (Ring.decision r)) limit.

(** [RetentionStore::release_due]. *)
Definition store_release_due (st : RingStore) (now : DateTime) : panics (RingStore * ReleaseOutcome message) :=
  '(st, batch) ← release_due st now;
  Returns (st, mkReleaseOutcome (messages batch) (batch_overflow batch)).
End store.
Arguments RingStore Uuid DateTime : clear implicits.
Arguments Appended Uuid DateTime : clear implicits.
Arguments ReleasedBatch Uuid DateTime : clear implicits.
End RingStore.

(** ** The process's stores ([registry.rs]) *)

Module RingStores.
Import Envelope Directory RingStore.

Section stores.
Context {Uuid DateTime : Type} `{Countable Uuid, Chrono DateTime, ChronoSecs DateTime, ChronoOrd DateTime}.

(** [RingStores], with the [StoresInner] under its lock. *)
Record RingStores := mkStores {
  stores_epoch : Uuid;
  store_by_uuid : gmap Uuid (RingStore Uuid DateTime);
  store_by_address : gmap string Uuid;
}.

(** [RingStores::empty]; the minted epoch is an argument. *)
Definition empty (epoch : Uuid) : RingStores := mkStores epoch ∅ ∅.

(** [RingStores::register]. *)
Definition register (rs : RingStores) (entry : ChannelEntry Uuid) : panics (RingStores * bool) :=
  caps ← entry_capabilities entry;
  _ ← rust_assert (negb (durable caps)) "messaging stores: durable and must not be ring-backed";
  match store_by_uuid rs !! uuid entry with
  | Some _ => Returns (rs, false)
  | None =>
      match store_by_address rs !! address entry with
      | Some _ => Panics "messaging stores: address is already registered under another uuid"
      | None =>
          store ← with_epoch (uuid entry) (address entry)
                    (channel_retain_depth (resolved_channel entry)) (stores_epoch rs);
          Returns (mkStores (stores_epoch rs) (<[uuid entry := store]> (store_by_uuid rs))
                     (<[address entry := uuid entry]> (store_by_address rs)), true)
      end
  end.

(** [RingStores::build]. *)
Definition build (epoch : Uuid) (entries : list (ChannelEntry Uuid)) : panics RingStores :=
  foldl (λ acc entry,
    rs ← acc;
    '(rs, fresh) ← register rs entry;
    _ ← rust_assert fresh "messaging stores: channel declared twice";
    Returns rs) (Returns (empty epoch)) entries.

(** [RingStores::deregister]. *)
Definition deregister (rs : RingStores) (u : Uuid) : RingStores * bool :=
  match store_by_uuid rs !! u with
  | None => (rs, false)
  | Some store =>
      (mkStores (stores_epoch rs) (delete u (store_by_uuid rs))
         (delete (st_address store) (store_by_address rs)), true)
  end.

(** [RingStores::get], [get_by_address], [stores], [len]. *)
Definition get (rs : RingStores) (u : Uuid) : option (RingStore Uuid DateTime) := store_by_uuid rs !! u.
Definition get_by_address (rs : RingStores) (addr : string) : option (RingStore Uuid DateTime) :=
  u ← store_by_address rs !! addr; store_by_uuid rs !! u.
Definition stores (rs : RingStores) : list (RingStore Uuid DateTime) := (map_to_list (store_by_uuid rs)).*2.
Definition stores_len (rs : RingStores) : N := N.of_nat (size (store_by_uuid rs)).

(** A store behind its [Arc]: what a holder of the handle changed is what the registry holds. *)
Definition put (rs : RingStores) (u : Uuid) (st : RingStore Uuid DateTime) : RingStores :=
  mkStores (stores_epoch rs) (<[u := st]> (store_by_uuid rs)) (store_by_address rs).
End stores.
Arguments RingStores Uuid DateTime {_ _}.
End RingStores.
