(* ===== verification/Retaining.v ===== *)
(** * Theorems about the in-memory stores

    A store is its channel core with names: every operation is a run of the core, so the
    core's theorems are the store's, and no bookkeeping of the store's own can unwind
    ([StoreRun]). [StoreProps] states what a reader of a store may rely on: the wake source
    answers per subscriber what a walk of its unseen suffix would, a parked message cannot
    be observed before release, and the registry's two indexes stay one. *)

From S2P Require Import Prelude Envelope Ring Cursor Deferred RingCore Directory Serve Session Retention.

#[local] Open Scope N_scope.
#[local] Open Scope list_scope.

Module StoreRun.
Import Envelope Directory Plane Retention RingStore.

(** Simplify a [panics] computation whose head is known. *)
Ltac returns := repeat (simpl; match goal with
  | H : ?m = Returns _ |- context [?m ≫= _] => rewrite H
  end); simpl.

Section run.
Context {Uuid DateTime : Type}
  `{Countable Uuid, Chrono DateTime, ChronoSecs DateTime, ChronoOrd DateTime, !ChronoLine DateTime}.
Implicit Types (st : RingStore Uuid DateTime) (m : MessageEnvelope Uuid DateTime) (t now : DateTime).

(** *** Instants *)

Definition after_epoch t : Prop := (0 ≤ timestamp_millis t)%Z.
Definition millis t : N := Z.to_N (timestamp_millis t).

Lemma release_time_of_Returns t : after_epoch t → release_time_of t = Returns (millis t).
Proof. unfold after_epoch, release_time_of. intros. by destruct (Z.ltb_spec (timestamp_millis t) 0); [lia|]. Qed.

(** A release time some instant rounds to. *)
Definition is_instant (n : N) : Prop := ∃ t, after_epoch t ∧ n = millis t.

Lemma instant_of_millis t :
  after_epoch t → ∃ t', instant_of (millis t) = Returns t' ∧
    timestamp_millis t' = timestamp_millis t ∧ later t' t = false.
Proof.
  intros Ht. unfold after_epoch in Ht. unfold instant_of, millis.
  pose proof (millis_range t). destruct (N.leb_spec (Z.to_N (timestamp_millis t)) i64_max) as [Hl|Hl];
    [|unfold i64_max in Hl; lia]. simpl. rewrite Z2N.id by lia.
  destruct (from_millis_total t) as [t' Hf]. rewrite Hf. exists t'. split; [done|].
  apply from_millis_nanos in Hf. rewrite later_nanos, !timestamp_millis_nanos, Hf.
  rewrite timestamp_millis_nanos, Z.div_mul by lia. split; [done|].
  apply Z.ltb_ge. pose proof (Z.mul_div_le (nanos_of t) 1000000). lia.
Qed.

Lemma is_instant_view e :
  is_instant (Deferred.release_at e) →
  ∃ v, view (Uuid := Uuid) e = Returns v ∧ parked_envelope v = Deferred.payload e ∧
    timestamp_millis (parked_release_at v) = Z.of_N (Deferred.release_at e).
Proof.
  intros (t&Ht&Hn). unfold view. rewrite Hn.
  destruct (instant_of_millis t Ht) as (t'&Hi&Hm&_). rewrite Hi. simpl. eexists. split; [done|].
  simpl. split; [done|]. rewrite Hm. unfold millis. unfold after_epoch in Ht. lia.
Qed.

(** *** The store invariant *)

Record store_wf st : Prop := mkStoreWf {
  swf_core : Core.wf (core st);
  swf_slugs : ∀ s, is_Some (app_slugs st !! s) ↔ is_Some (Core.cursors (core st) !! s);
  swf_epoch : Ring.epoch (Core.ring (core st)) = st_epoch st;
  swf_publishes : Ring.next_seq (Core.ring (core st)) = publishes st + 1;
  swf_instants : Forall (λ e, is_instant (Deferred.release_at e)) (Deferred.parked (Core.deferred (core st)));
  swf_class : channel_capabilities (st_address st) = Some (st_capabilities st) ∧
              durable (st_capabilities st) = false;
  swf_depth : Ring.depth (Core.ring (core st)) ≤ MAX_RING_RETAIN_DEPTH;
}.

Lemma with_epoch_wf u addr d ep st : with_epoch u addr d ep = Returns st → store_wf st.
Proof.
  unfold with_epoch. destruct (scheme_of addr ≫= capabilities) as [caps|] eqn:Hc; [|done]. simpl.
  destruct (durable caps) eqn:Hd; [done|]. simpl. destruct d as [n|]; [|done].
  destruct (N.leb_spec n MAX_RING_RETAIN_DEPTH); [|done]. simpl. intros [= <-].
  split; simpl; try done.
  - apply CoreRun.core_new_wf.
  - intros s. rewrite !lookup_empty. done.
Qed.

(** *** Operations as core operations *)

(** Every operation of a store that changes its state. *)
Inductive store_op :=
| SAppend m
| SAttach (s slug : string) (push_depth : Depth)
| SAttachFrom (s slug : string) (push_depth : Depth) (floor : N)
| SDetach (s : string)
| SWindow (s : string) (push_limit retain_limit : Depth)
| SAdvance (s : string) (through seen_floor : N)
| SPark m t
| SRelease now
| SCancel (who : string) (id : Uuid) now
| SEdit (who : string) (id : Uuid) (body : option string) (release_at : option DateTime) now.

(** One operation, with the overflow it reported. *)
Definition store_step st (op : store_op) : panics (RingStore Uuid DateTime * list OverflowEvent) :=
  match op with
  | SAppend m => '(st, a) ← append st m; Returns (st, appended_overflow a)
  | SAttach s slug pd => Returns ((store_attach st s slug pd).1, [])
  | SAttachFrom s slug pd floor => '(st, _) ← store_attach_from st s slug pd floor; Returns (st, [])
  | SDetach s => Returns ((detach st s).1, [])
  | SWindow s pl rl => Returns ((store_window st s pl rl).1, [])
  | SAdvance s through floor => '(st, _) ← advance st s through floor; Returns (st, [])
  | SPark m t => '(st, _) ← park st m t; Returns (st, [])
  | SRelease now => '(st, b) ← release_due st now; Returns (st, batch_overflow b)
  | SCancel who id now => '(st, _) ← cancel_deferred st who id now; Returns (st, [])
  | SEdit who id b t now => '(st, _) ← edit_deferred st who id b t now; Returns (st, [])
  end.

Fixpoint store_run st (ops : list store_op) : panics (RingStore Uuid DateTime * list OverflowEvent) :=
  match ops with
  | [] => Returns (st, [])
  | op :: ops =>
      '(st, ev) ← store_step st op;
      '(st, evs) ← store_run st ops;
      Returns (st, ev ++ evs)
  end.

Definition named (id : Uuid) : MessageEnvelope Uuid DateTime → bool :=
  λ m, bool_decide (message_id m = id).

(** What the operation asks of the channel core. *)
Definition core_ops_of st (op : store_op) : list (@CoreRun.core_op (MessageEnvelope Uuid DateTime) string) :=
  match op with
  | SAppend m => [CoreRun.OpAppend m]
  | SAttach s _ pd => [CoreRun.OpAttach s (depth_bound pd)]
  | SAttachFrom s _ pd floor => [CoreRun.OpAttachFrom s (depth_bound pd) floor]
  | SDetach s => [CoreRun.OpDetach s]
  | SWindow s pl rl => [CoreRun.OpWindow s (depth_bound pl) (depth_bound rl)]
  | SAdvance s through floor => [CoreRun.OpAdvance s through floor]
  | SPark m t => [CoreRun.OpPark (env_sender m) m (millis t)]
  | SRelease now => [CoreRun.OpRelease (millis now)]
  | SCancel who id now =>
      match Core.owned_deferred (core st) who (named id) (millis now) with
      | Core.Owned i _ => [CoreRun.OpCancel i]
      | _ => []
      end
  | SEdit who id b t now =>
      match Core.owned_deferred (core st) who (named id) (millis now) with
      | Core.Owned i e =>
          [CoreRun.OpEdit i (with_body (Deferred.payload e) <$> b) (millis <$> t)]
      | _ => []
      end
  end.

(** The operation's preconditions: instants after 1970, room in the 64-bit counters, and an
    inherited position or an advanced span the channel reached. *)
Definition store_op_ok st (op : store_op) : Prop :=
  foldr (λ cop P, CoreRun.op_ok (core st) cop ∧ P) True (core_ops_of st op) ∧
  match op with
  | SPark _ t => after_epoch t
  | SRelease now | SCancel _ _ now => after_epoch now
  | SEdit _ _ _ t now => after_epoch now ∧ from_option after_epoch True t
  | _ => True
  end.

Fixpoint store_run_ok st (ops : list store_op) : Prop :=
  match ops with
  | [] => True
  | op :: ops =>
      store_op_ok st op ∧
      match store_step st op with
      | Returns (st, _) => store_run_ok st ops
      | Panics _ => True
      end
  end.

(** What the reported events say one subscriber lost. *)
Definition charged (s : string) (evs : list OverflowEvent) : N :=
  foldr (λ ev acc, if decide (ov_subscriber ev = s) then ov_dropped ev + acc else acc) 0 evs.

Lemma charged_app s l k : charged s (l ++ k) = charged s l + charged s k.
Proof. induction l as [|o l IH]; simpl; [lia|]. case_decide; lia. Qed.

(** Naming the applications loses no report and unwinds for nobody attached. *)
Lemma overflow_events_named slugs (over : list (Core.CursorOverflow string)) :
  Forall (λ o, is_Some (slugs !! Core.subscriber o)) over →
  ∃ evs, overflow_events slugs over = Returns evs ∧
    (∀ s, charged s evs = CoreFacts.evicted_of s over) ∧
    Forall (λ ev, ov_app_slug ev = slugs !! ov_subscriber ev) evs.
Proof.
  induction 1 as [|o over [slug Ho] _ (evs&He&Hc&Hn)]; [by exists []|].
  unfold overflow_events, app_slug in *. cbn [mapM]. rewrite Ho. simpl. rewrite He. simpl.
  eexists. split; [done|]. split.
  - intros s. simpl. by rewrite Hc.
  - constructor; [by simpl|done].
Qed.

Lemma overflow_since_attached (c : Core.RingCore (MessageEnvelope Uuid DateTime) Uuid string) f :
  Forall (λ o, is_Some (Core.cursors c !! Core.subscriber o)) (Core.overflow_since c f).
Proof.
  apply Forall_forall. intros o (p&Hin&Hp)%list_elem_of_omap.
  destruct p as [s cur]. cbv zeta in Hp. destruct (0 <? _); simplify_eq. simpl.
  apply elem_of_map_to_list in Hin. by rewrite Hin.
Qed.

Implicit Types (c : Core.RingCore (MessageEnvelope Uuid DateTime) Uuid string).

Lemma core_append_attached c m :
  Forall (λ o, is_Some (Core.cursors c !! Core.subscriber o)) (Core.report_overflow (Core.core_append c m).2).
Proof.
  unfold Core.core_append. destruct (Ring.append (Core.ring c) m) as [r a].
  destruct (_ =? 0); [constructor|]. apply (overflow_since_attached (Core.with_ring c r)).
Qed.

Lemma merge_attached (P : string → Prop) (into more : list (Core.CursorOverflow string)) :
  Forall (λ o, P (Core.subscriber o)) into → Forall (λ o, P (Core.subscriber o)) more →
  Forall (λ o, P (Core.subscriber o)) (Core.merge_overflow into more).
Proof.
  unfold Core.merge_overflow. intros Hi Hm. revert into Hi.
  induction Hm as [|ev more Hev Hm IH]; intros into Hi; simpl; [done|]. apply IH.
  unfold Core.merge_event. destruct (list_find _ into) as [[i e]|] eqn:Hf.
  - apply list_find_from_start in Hf as [Hl _]. apply Forall_insert; [done|].
    simpl. by eapply Forall_lookup_1 in Hi.
  - apply Forall_app. by repeat constructor.
Qed.

Lemma release_loop_attached c due out over :
  Forall (λ o, is_Some (Core.cursors c !! Core.subscriber o)) over →
  Forall (λ o, is_Some (Core.cursors c !! Core.subscriber o))
    (Core.release_overflow (Core.release_loop c due out over).2).
Proof.
  revert c out over. induction due as [|e due IH]; intros c out over Ho; simpl; [done|].
  pose proof (core_append_attached c (Deferred.payload e)) as Ha.
  pose proof (CoreRun.core_append_frame c (Deferred.payload e)) as (Hcs&_&_).
  destruct (Core.core_append c (Deferred.payload e)) as [c1 rep]. simpl in *. rewrite <-Hcs in *.
  apply IH, (merge_attached (λ s, is_Some (Core.cursors c1 !! s))); done.
Qed.

(** *** One step *)

(** The step returns, keeps the invariant, and is the core's own step with the same losses. *)
Definition stepped st (op : store_op) : Prop :=
  ∃ st' ev, store_step st op = Returns (st', ev) ∧ store_wf st' ∧
    (∀ s0, ∃ l, CoreRun.core_run s0 (core st) (core_ops_of st op) = Returns (core st', l) ∧
                charged s0 ev = CoreRun.reported l).

(** Changing the core and the slugs together. *)
Lemma wf_with st c slugs :
  store_wf st → Core.wf c →
  (∀ s, is_Some (slugs !! s) ↔ is_Some (Core.cursors c !! s)) →
  Core.ring c = Core.ring (core st) →
  Forall (λ e, is_instant (Deferred.release_at e)) (Deferred.parked (Core.deferred c)) →
  store_wf (with_slugs (with_core st c) slugs).
Proof. intros [] ? ? Hr ?. split; simpl; rewrite ?Hr; done. Qed.

Lemma run_one s0 c op :
  CoreRun.core_run s0 c [op] =
    ('(c', l) ← CoreRun.core_step s0 c op; Returns (c', CoreRun.add_ledger l CoreRun.no_entry)).
Proof. done. Qed.

Lemma add_no_entry l : CoreRun.reported (CoreRun.add_ledger l CoreRun.no_entry) = CoreRun.reported l.
Proof. simpl. lia. Qed.

(** What one append does to a store. *)
Lemma store_append_wf st m :
  store_wf st → Ring.next_seq (Core.ring (core st)) < u64_max →
  ∃ a, append st m = Returns (announce (with_core st (Core.core_append (core st) m).1), a) ∧
    store_wf (announce (with_core st (Core.core_append (core st) m).1)) ∧
    retained a = Ring.mkRetained (Ring.next_seq (Core.ring (core st))) m ∧
    (∀ s, charged s (appended_overflow a) =
          CoreFacts.evicted_of s (Core.report_overflow (Core.core_append (core st) m).2)).
Proof.
  intros Hwf Hmax. pose proof Hwf as [Hc Hs He Hp Hi Hcl Hd].
  pose proof (CoreRun.core_append_wf _ m Hc Hmax) as Hc'.
  pose proof (core_append_attached (core st) m) as Hat.
  pose proof (CoreRun.core_append_seq _ m Hc Hmax) as Hseq.
  pose proof (CoreRun.core_append_frame (core st) m) as (Hcs&Hdf&Hrg).
  unfold append. destruct (Core.core_append (core st) m) as [c' rep]. simpl in *.
  destruct (overflow_events_named (app_slugs st) (Core.report_overflow rep)) as (evs&Hev&Hch&_).
  { eapply Forall_impl; [exact Hat|]. intros o Ho. by apply Hs. }
  rewrite Hev. simpl. eexists. split; [done|]. split_and!; [|by rewrite Hseq|done].
  pose proof Hc as [Hr _ _ _].
  split; simpl; rewrite ?Hcs, ?Hdf, ?Hrg; try done.
  - rewrite Ring.append_spec by done. done.
  - rewrite Ring.append_spec by done. simpl. rewrite u64_add_small by lia. lia.
  - by rewrite CoreFacts.depth_append.
Qed.

Lemma append_stepped st m :
  store_wf st → store_op_ok st (SAppend m) → stepped st (SAppend m).
Proof.
  intros Hwf [Hok _]. cbn [core_ops_of] in Hok. destruct Hok as [Hok _]. simpl in Hok.
  destruct (store_append_wf st m Hwf Hok) as (a&Ha&Hwf'&_&Hch). unfold stepped. cbn [store_step]. rewrite Ha.
  do 2 eexists. split; [done|]. split; [done|]. intros s0. cbn [core_ops_of]. rewrite run_one.
  cbn [CoreRun.core_step]. simpl in *.
  specialize (Hch s0). destruct (Core.core_append (core st) m) as [c' rep]. simpl in *.
  eexists. split; [done|]. simpl. lia.
Qed.

(** A core operation that reports nothing and leaves the ring alone. *)
Lemma quiet_stepped st st' op cop :
  store_step st op = Returns (st', []) → store_wf st' → core_ops_of st op = [cop] →
  (∀ s0, ∃ l, CoreRun.core_step s0 (core st) cop = Returns (core st', l) ∧ CoreRun.reported l = 0) →
  stepped st op.
Proof.
  intros Hs Hwf Hops Hc. exists st', []. split; [done|]. split; [done|]. intros s0.
  rewrite Hops, run_one. destruct (Hc s0) as (l&->&Hr). simpl. eexists. split; [done|].
  simpl. lia.
Qed.

Lemma attached_insert (slugs : gmap string string) c s slug cur :
  (∀ s, is_Some (slugs !! s) ↔ is_Some (Core.cursors c !! s)) →
  ∀ s', is_Some (<[s := slug]> slugs !! s') ↔ is_Some (<[s := cur]> (Core.cursors c) !! s').
Proof. intros Hs s'. rewrite !lookup_insert_is_Some, Hs. naive_solver. Qed.

Lemma attached_delete (slugs : gmap string string) c s :
  (∀ s, is_Some (slugs !! s) ↔ is_Some (Core.cursors c !! s)) →
  ∀ s', is_Some (delete s slugs !! s') ↔ is_Some (delete s (Core.cursors c) !! s').
Proof. intros Hs s'. rewrite !lookup_delete_is_Some, Hs. naive_solver. Qed.

Lemma attach_store_wf st s slug pd : store_wf st → store_wf (attach st s slug pd).1.
Proof.
  intros Hwf. pose proof Hwf as [Hc Hs He Hp Hi Hcl Hd].
  pose proof (CoreRun.attach_wf (core st) s pd Hc) as Hc'. unfold attach, Core.attach in *.
  destruct (pd =? 0); simpl in *.
  - unfold Core.is_attached. simpl. rewrite lookup_delete_eq.
    rewrite bool_decide_false by (by intros []).
    apply wf_with; try done. by apply attached_delete.
  - destruct (Core.cursors (core st) !! s) as [cur|]; simpl in *;
      unfold Core.is_attached; simpl; rewrite lookup_insert_eq, bool_decide_true by (by eexists);
      (apply wf_with; try done; by apply attached_insert).
Qed.

Lemma attach_from_store_wf st s slug pd floor :
  store_wf st → 0 < pd → 1 ≤ floor ≤ Ring.next_seq (Core.ring (core st)) →
  ∃ st' a, attach_from st s slug pd floor = Returns (st', a) ∧ store_wf st' ∧
    Core.attach_from (core st) s pd floor = Returns (core st', a).
Proof.
  intros Hwf Hpd Hf. pose proof Hwf as [Hc Hs He Hp Hi Hcl Hd].
  destruct (CoreRun.attach_from_wf (core st) s pd floor Hc Hpd Hf) as (c'&a&Ha&Hc').
  unfold attach_from. rewrite Ha. simpl. do 2 eexists. split; [done|]. split; [|done].
  unfold Core.attach_from in Ha. destruct (0 <? pd); [|done]. simpl in Ha.
  destruct (floor <=? _); [|done]. simpl in Ha. injection Ha as Ha.
  destruct (Core.cursors (core st) !! s); simplify_eq; (apply wf_with; try done; by apply attached_insert).
Qed.

Lemma head_fmap {A B} (f : A → B) l : head (f <$> l) = f <$> head l.
Proof. by destruct l. Qed.

(** Moving one position leaves the rest of the store alone. *)
Lemma retuned_wf st s cur cur' :
  store_wf st → Core.cursors (core st) !! s = Some cur → Core.wf (Core.with_cursors (core st) (<[s := cur']> (Core.cursors (core st)))) →
  store_wf (with_core st (Core.with_cursors (core st) (<[s := cur']> (Core.cursors (core st))))).
Proof.
  intros [Hc Hs He Hp Hi Hcl Hd] Hcur Hwf. split; simpl; try done. intros s'. rewrite Hs, lookup_insert_is_Some'.
  split; [by auto|]. intros [->|]; [by rewrite Hcur|done].
Qed.

Lemma window_stepped st s pl rl : store_wf st → stepped st (SWindow s pl rl).
Proof.
  intros Hwf. pose proof (CoreRun.core_window_wf (core st) s (depth_bound pl) (depth_bound rl) (swf_core _ Hwf)) as Hc.
  eapply (quiet_stepped st); [done| |done|].
  - unfold store_window, window, Core.core_window in *.
    destruct (Core.cursors (core st) !! s) as [cur|] eqn:Hcur; simpl in *; [by eapply retuned_wf|].
    by destruct (_ <? _), st.
  - intros s0. exists CoreRun.no_entry. split; [|done]. cbn [CoreRun.core_step]. do 2 f_equal.
    unfold store_window, window. by destruct (Core.core_window _ _ _ _).
Qed.

Lemma advance_stepped st s th fl :
  store_wf st → store_op_ok st (SAdvance s th fl) → stepped st (SAdvance s th fl).
Proof.
  intros Hwf [[[Hfl Hth] _] _]. pose proof (swf_core _ Hwf) as Hc.
  destruct (CoreRun.core_advance_wf (core st) s th fl Hc Hfl Hth) as (c'&r&Ha&Hc').
  eapply (quiet_stepped st (with_core st c')); [| |done|].
  - cbn [store_step]. unfold advance. by rewrite Ha.
  - destruct (Core.cursors (core st) !! s) as [cur|] eqn:Hcur.
    + rewrite (CoreRun.core_advance_spec _ _ _ _ _ Hc Hfl Hth Hcur) in Ha. simplify_eq. by eapply retuned_wf.
    + unfold Core.core_advance in Ha. rewrite Hcur in Ha. simplify_eq. by destruct st.
  - intros s0. cbn [CoreRun.core_step]. rewrite Ha. simpl. eexists. split; [done|].
    unfold CoreRun.advanced_entry. by repeat case_match.
Qed.

(** *** What is parked stays representable *)

Abbreviation entry := (Deferred.Deferred (MessageEnvelope Uuid DateTime)).
Abbreviation parked_set := (Deferred.DeferredSet (MessageEnvelope Uuid DateTime)).
Definition instants (d : parked_set) : Prop :=
  Forall (λ e : entry, is_instant (Deferred.release_at e)) (Deferred.parked d).

Lemma Forall_vec_insert {A} (P : A → Prop) i x l : P x → Forall P l → Forall P (vec_insert i x l).
Proof. intros. rewrite vec_insert_perm. by constructor. Qed.

Lemma Forall_vec_remove {A} (P : A → Prop) i l : Forall P l → Forall P (vec_remove i l).
Proof. intros. unfold vec_remove. apply Forall_app. split; [by apply Forall_take|by apply Forall_drop]. Qed.

Lemma park_instants (d : parked_set) who m t :
  instants d → after_epoch t → instants (Deferred.park d who m (millis t)).1.
Proof.
  intros Hd Ht. unfold Deferred.park, instants. case_match; simpl; [done|].
  apply Forall_vec_insert; [|done]. by exists t.
Qed.

Lemma cancel_instants (d : parked_set) i : instants d → instants (Deferred.cancel d i).1.
Proof.
  intros Hd. unfold Deferred.cancel, instants. destruct (list_find _ _) as [[k e]|] eqn:Hf; [|done]. simpl.
  by apply Forall_vec_remove.
Qed.

Lemma edit_instants (d : parked_set) i (m : option (MessageEnvelope Uuid DateTime)) (t : option DateTime) :
  instants d → from_option after_epoch True t → instants (Deferred.edit d i m (millis <$> t)).1.
Proof.
  intros Hd Ht. unfold Deferred.edit, instants. destruct (list_find _ _) as [[k e]|] eqn:Hf; [|done].
  apply list_find_from_start in Hf as [Hk _].
  assert (He : Forall (λ e : entry, is_instant (Deferred.release_at e))
                 (<[k := Deferred.with_payload e m]> (Deferred.parked d))).
  { apply Forall_insert; [done|]. simpl. by eapply Forall_lookup_1 in Hd. }
  destruct t as [t|]; simpl; [|done].
  apply Forall_vec_insert; [by exists t|]. by apply Forall_vec_remove.
Qed.

Lemma wf_with_core st c :
  store_wf st → Core.wf c → Core.ring c = Core.ring (core st) → Core.cursors c = Core.cursors (core st) →
  instants (Core.deferred c) → store_wf (with_core st c).
Proof. intros [] ? Hr Hc ?. split; simpl; rewrite ?Hr, ?Hc; done. Qed.

(** A step that only changes what is parked. *)
Lemma deferred_stepped st op cop d :
  store_wf st → store_step st op = Returns (with_core st (Core.with_deferred (core st) d), []) →
  core_ops_of st op = [cop] → CoreRun.op_ok (core st) cop → instants d →
  (∀ s0, CoreRun.core_step s0 (core st) cop =
           Returns (Core.with_deferred (core st) d, CoreRun.no_entry)) →
  stepped st op.
Proof.
  intros Hwf Hstep Hops Hok Hd Hcore. pose proof (swf_core _ Hwf) as Hc.
  destruct (CoreRun.core_step_wf "" (core st) cop Hc Hok) as (c'&l&Hs&Hc').
  rewrite Hcore in Hs. injection Hs as <- _.
  eapply quiet_stepped; [exact Hstep| |exact Hops|].
  - by apply wf_with_core.
  - intros s0. rewrite Hcore. by eexists.
Qed.

Lemma park_stepped st m t :
  store_wf st → store_op_ok st (SPark m t) → stepped st (SPark m t).
Proof.
  intros Hwf [Hok Ht]. cbn [core_ops_of] in Hok. destruct Hok as [Hok _].
  eapply (deferred_stepped st _ _ (Deferred.park (Core.deferred (core st)) (env_sender m) m (millis t)).1);
    [done| |done|done| |].
  - cbn [store_step]. unfold park. rewrite release_time_of_Returns by done. simpl.
    unfold Core.core_park. by destruct (Deferred.park _ _ _ _).
  - apply park_instants; [by apply swf_instants|done].
  - intros s0. cbn [CoreRun.core_step]. unfold Core.core_park. by destruct (Deferred.park _ _ _ _).
Qed.

(** The name lookup returns, and answers [Ok] exactly when the core says [Owned]. *)
Lemma owned_id_Returns st who id now :
  store_wf st → after_epoch now →
  ∃ r, owned_id st who id now = Returns r ∧
    match Core.owned_deferred (core st) who (named id) (millis now) with
    | Core.Owned i e => r = Ok i
    | Core.WrongSender _ => r = Err WrongSender
    | _ => ∃ at_ : option DateTime, r = Err (NotDeferred at_)
    end.
Proof.
  intros Hwf Hn. unfold owned_id. rewrite release_time_of_Returns by done. simpl. unfold named.
  destruct (Core.owned_deferred _ _ _ _) as [i e|o|at_|] eqn:Ho; try (by eexists); [|by eauto].
  assert (is_instant at_) as (t&Ht&->).
  { unfold Core.owned_deferred in Ho. destruct (list_find _ _) as [[k e]|] eqn:Hf; [|done].
    apply list_find_from_start in Hf as [Hk _]. case_decide; [done|].
    destruct (_ <=? _); simplify_eq. pose proof (swf_instants _ Hwf) as Hi.
    eapply Forall_lookup_1 in Hk; [|exact Hi]. done. }
  destruct (instant_of_millis t Ht) as (t'&->&_). simpl. eauto.
Qed.

(** A refused cancel or edit changes nothing. *)
Lemma refused_stepped st op :
  store_wf st → store_step st op = Returns (st, []) → core_ops_of st op = [] → stepped st op.
Proof.
  intros Hwf Hs Hops. exists st, []. split; [done|]. split; [done|]. intros s0. rewrite Hops.
  by eexists.
Qed.

Lemma cancel_stepped st who id now :
  store_wf st → store_op_ok st (SCancel who id now) → stepped st (SCancel who id now).
Proof.
  intros Hwf [Hok Hn]. destruct (owned_id_Returns st who id now Hwf Hn) as (r&Hr&Hcase).
  pose proof (cancel_instants (Core.deferred (core st))) as Hci. cbn [core_ops_of] in Hok.
  destruct (Core.owned_deferred _ _ _ _) as [i e|o|at_|] eqn:Ho.
  1:{ destruct Hok as [Hok _]. subst r.
      eapply (deferred_stepped st _ _ (Deferred.cancel (Core.deferred (core st)) i).1);
        [done| |cbn [core_ops_of]; by rewrite Ho|done|by apply Hci, swf_instants|].
      - cbn [store_step]. unfold cancel_deferred. rewrite Hr. simpl. unfold Core.cancel_deferred.
        by destruct (Deferred.cancel _ _).
      - intros s0. cbn [CoreRun.core_step]. unfold Core.cancel_deferred. by destruct (Deferred.cancel _ _). }
  all: apply refused_stepped; [done| |cbn [core_ops_of]; by rewrite Ho];
    cbn [store_step]; unfold cancel_deferred; rewrite Hr; (subst r || destruct Hcase as [? ->]); done.
Qed.

Lemma owned_entry st who id cutoff i e :
  store_wf st → Core.owned_deferred (core st) who (named id) cutoff = Core.Owned i e →
  Core.deferred_entry (core st) i = Some e.
Proof.
  intros Hwf Ho. pose proof (Core.wf_deferred _ (swf_core _ Hwf)) as Hd. unfold Core.owned_deferred in Ho.
  destruct (list_find _ _) as [[k e']|] eqn:Hf; [|done]. apply list_find_from_start in Hf as [Hk Hm].
  case_decide; [done|]. destruct (_ <=? _); [done|]. injection Ho as <- <-.
  unfold Core.deferred_entry. rewrite DeferredSpec.get_contents by done.
  apply DeferredSpec.lookup_contents; [by destruct Hd|]. split; [by eapply list_elem_of_lookup_2|done].
Qed.

Lemma edit_stepped st who id b (t : option DateTime) now :
  store_wf st → store_op_ok st (SEdit who id b t now) → stepped st (SEdit who id b t now).
Proof.
  intros Hwf [Hok [Hn Ht]]. destruct (owned_id_Returns st who id now Hwf Hn) as (r&Hr&Hcase).
  cbn [core_ops_of] in Hok.
  destruct (Core.owned_deferred _ _ _ _) as [i e|o|at_|] eqn:Ho.
  1:{ destruct Hok as [Hok _]. subst r. set (m := with_body (Deferred.payload e) <$> b).
      eapply (deferred_stepped st _ _ (Deferred.edit (Core.deferred (core st)) i m (millis <$> t)).1);
        [done| |cbn [core_ops_of]; by rewrite Ho|done|by apply edit_instants, Ht; apply swf_instants|].
      - cbn [store_step]. unfold edit_deferred. rewrite Hr. simpl.
        rewrite (owned_entry _ _ _ _ _ _ Hwf Ho). unfold Core.edit_deferred.
        assert (Hb : match b with Some b => Returns (Some (with_body (Deferred.payload e) b)) | None => Returns None end
                     = Returns m) by (by destruct b).
        destruct b as [b|], t as [t|]; simpl in *; rewrite ?release_time_of_Returns by done; simpl;
          subst m; simpl; by destruct (Deferred.edit _ _ _ _).
      - intros s0. cbn [CoreRun.core_step]. unfold Core.edit_deferred. by destruct (Deferred.edit _ _ _ _). }
  all: apply refused_stepped; [done| |cbn [core_ops_of]; by rewrite Ho];
    cbn [store_step]; unfold edit_deferred; rewrite Hr; (subst r || destruct Hcase as [? ->]); done.
Qed.

(** *** Release passes *)

Lemma announce_many {A} st (n : list A) :
  let st' := foldl (λ st _, announce st) st n in
  core st' = core st ∧ app_slugs st' = app_slugs st ∧ st_epoch st' = st_epoch st ∧
  st_address st' = st_address st ∧ st_capabilities st' = st_capabilities st ∧
  st_channel_uuid st' = st_channel_uuid st ∧
  (publishes st + len n ≤ u64_max → publishes st' = publishes st + len n).
Proof.
  revert st. induction n as [|x n IH]; intros st; simpl.
  { rewrite len_nil. split_and!; try done. lia. }
  destruct (IH (announce st)) as (?&?&?&?&?&?&Hp). rewrite len_cons. split_and!; try done.
  intros Hl. simpl in Hp. rewrite Hp; rewrite u64_add_small; lia.
Qed.

Lemma release_stepped st now :
  store_wf st → store_op_ok st (SRelease now) → stepped st (SRelease now).
Proof.
  intros Hwf [Hok Hn]. cbn [core_ops_of] in Hok. destruct Hok as [Hok _].
  pose proof Hwf as [Hc Hs He Hp Hi Hcl Hd]. cbn [CoreRun.op_ok] in Hok.
  pose proof (CoreRun.core_release_wf _ _ Hc Hok) as Hc'.
  unfold stepped. cbn [store_step]. unfold release_due. rewrite release_time_of_Returns by done. simpl.
  unfold Core.core_release_due in *.
  pose proof (Deferred.release_due_wf (Core.deferred (core st)) (millis now) (Core.wf_deferred _ Hc)) as Hdw.
  assert (Hdi : instants (Deferred.release_due (Core.deferred (core st)) (millis now)).1).
  { unfold Deferred.release_due, instants. simpl. by apply Forall_drop. }
  destruct (Deferred.release_due (Core.deferred (core st)) (millis now)) as [d due] eqn:Hrel. simpl in Hok, Hdw, Hdi.
  assert (Hcap : Deferred.cap d = Deferred.cap (Core.deferred (core st))).
  { unfold Deferred.release_due in Hrel. by injection Hrel as <- _. }
  pose proof (CoreRun.with_deferred_wf _ _ Hc Hdw Hcap) as Hcd.
  pose proof (CoreRun.release_loop_spec (Core.with_deferred (core st) d) due [] [] Hcd Hok) as Hspec.
  pose proof (release_loop_attached (Core.with_deferred (core st) d) due [] [] (Forall_nil_2 _)) as Hat.
  destruct (Core.release_loop (Core.with_deferred (core st) d) due [] []) as [c' rep] eqn:Hloop.
  simpl in Hc', Hat. destruct Hspec as (_&Hcs&Hdf&Hdp&Hnx&_&Hrg&Hout). simpl in *.
  destruct (overflow_events_named (app_slugs st) (Core.release_overflow rep)) as (evs&Hev&Hch&_).
  { eapply Forall_impl; [exact Hat|]. intros o Ho. by apply Hs. }
  rewrite Hev. simpl. do 2 eexists. split; [done|].
  assert (Hlen : len (Core.released rep) = len due).
  { rewrite Hout. unfold len. rewrite length_zip_with, length_run, length_fmap. lia. }
  pose proof (announce_many (with_core st c') (Core.released rep)) as (E1&E2&E3&E4&E5&E6&E7).
  cbv zeta in *. rewrite Hlen in E7. simpl in *. split.
  - split; rewrite ?E1, ?E2, ?E3, ?E4, ?E5; try done; simpl.
    + intros s. by rewrite Hcs.
    + rewrite <-He, Hrg. clear. generalize (Core.ring (core st)).
      induction due as [|e due IH]; intros r; simpl; [done|]. rewrite IH.
      unfold Ring.append. destruct (_ =? 0); [done|].
      unfold Ring.trim. by destruct (Ring.trim_loop _ _ _).
    + rewrite Hnx, E7; lia.
    + by rewrite Hdf.
    + by rewrite Hdp.
  - intros s0. rewrite E1. rewrite ?Hloop.
    simpl. eexists. split; [done|]. simpl. rewrite Hch. lia.
Qed.

Lemma store_step_core st op : store_wf st → store_op_ok st op → stepped st op.
Proof.
  intros Hwf Hok. destruct op as [m|s slug pd|s slug pd floor|s|s pl rl|s th fl|m t|now|who id now|who id b t now].
  - by apply append_stepped.
  - eapply (quiet_stepped st); [done|by apply attach_store_wf|done|].
    intros s0. cbn [CoreRun.core_step]. exists CoreRun.no_entry. split; [|done]. f_equal. f_equal.
    unfold store_attach, attach. by destruct (Core.attach _ _ _).
  - destruct Hok as [Hok _]. cbn [core_ops_of] in Hok. destruct Hok as [[Hpd Hf] _].
    destruct (attach_from_store_wf st s slug (depth_bound pd) floor Hwf Hpd Hf) as (st'&a&Ha&Hwf'&Hcore).
    eapply (quiet_stepped st st'); [|done|done|].
    + cbn [store_step]. unfold store_attach_from. by rewrite Ha.
    + intros s0. cbn [CoreRun.core_step]. rewrite Hcore. by eexists.
  - eapply (quiet_stepped st); [done| |done|].
    + simpl. pose proof Hwf as [Hc Hs He Hp Hi Hcl Hd]. apply wf_with; try done.
      * apply CoreRun.with_cursors_wf; [done|]. apply map_Forall_delete, Hc.
      * by apply attached_delete.
    + intros s0. by eexists.
  - by apply window_stepped.
  - by apply advance_stepped.
  - by apply park_stepped.
  - by apply release_stepped.
  - by apply cancel_stepped.
  - by apply edit_stepped.
Qed.

(** No operation moves a store to another channel or another epoch. *)
Definition same_channel st st' : Prop :=
  st_address st' = st_address st ∧ st_channel_uuid st' = st_channel_uuid st ∧
  st_epoch st' = st_epoch st ∧ st_capabilities st' = st_capabilities st.

Lemma store_step_same_channel st op st' ev : store_step st op = Returns (st', ev) → same_channel st st'.
Proof.
  destruct op; cbn [store_step];
    unfold append, store_attach, attach, store_attach_from, attach_from, detach, store_window,
      window, advance, park, release_due, cancel_deferred, edit_deferred, mbind, panics_bind;
    intros Hs; repeat (case_match; simplify_eq/=); try done.
  pose proof (announce_many (with_core st r) (Core.released r1)) as (?&?&?&?&?&?&_). done.
Qed.

Lemma store_run_same_channel st ops st' evs : store_run st ops = Returns (st', evs) → same_channel st st'.
Proof.
  revert st evs. induction ops as [|op ops IH]; intros st evs; simpl; [by intros [= <- _]|].
  destruct (store_step st op) as [[st1 ev]|] eqn:Hs; [|done]. simpl.
  destruct (store_run st1 ops) as [[st2 evs2]|] eqn:Hr; [|done]. simpl. intros [= <- _].
  apply store_step_same_channel in Hs as (?&?&?&?). apply IH in Hr as (?&?&?&?).
  unfold same_channel. split_and!; congruence.
Qed.

Lemma store_run_core st ops :
  store_wf st → store_run_ok st ops →
  ∃ st' evs, store_run st ops = Returns (st', evs) ∧ store_wf st' ∧
    ∀ s0, ∃ cops l, CoreRun.core_run s0 (core st) cops = Returns (core st', l) ∧
      charged s0 evs = CoreRun.reported l.
Proof.
  revert st. induction ops as [|op ops IH]; intros st Hwf Hok; simpl.
  { do 2 eexists. split; [done|]. split; [done|]. intros s0. by exists [], CoreRun.no_entry. }
  destruct Hok as [Hok Hrest]. destruct (store_step_core st op Hwf Hok) as (st1&ev&Hs&Hwf1&Hc1).
  rewrite Hs in Hrest |- *. destruct (IH st1 Hwf1 Hrest) as (st2&evs&Hr&Hwf2&Hc2).
  simpl. rewrite Hr. simpl. do 2 eexists. split; [done|]. split; [done|]. intros s0.
  destruct (Hc1 s0) as (l1&R1&E1), (Hc2 s0) as (cops&l2&R2&E2).
  exists (core_ops_of st op ++ cops), (CoreRun.add_ledger l1 l2).
  rewrite CoreRun.core_run_app, R1. simpl. rewrite R2. simpl. split; [done|].
  rewrite charged_app. lia.
Qed.
End run.
End StoreRun.

(** ** The wake source *)
Module Wake.
Import Envelope Directory Plane Retention RingStore StoreRun.

Section wake.
Context {Uuid DateTime : Type}
  `{Countable Uuid, Chrono DateTime, ChronoSecs DateTime, ChronoOrd DateTime, !ChronoLine DateTime}.
Implicit Types (st : RingStore Uuid DateTime) (m : MessageEnvelope Uuid DateTime).

(** The loudest of some urgencies, the soonest of some deadlines. *)
Definition loudest (l : list Urgency) : option Urgency :=
  foldr (λ u acc, Some (match acc with Some max => urgency_max max u | None => u end)) None l.
Definition soonest (l : list (option DateTime)) : option DateTime :=
  foldr (λ d acc, match acc, d with
                  | Some a, Some b => Some (instant_min a b)
                  | Some a, None => Some a
                  | None, b => b
                  end) None l.

Lemma loudest_spec l :
  match loudest l with
  | None => l = []
  | Some u => u ∈ l ∧ Forall (λ v, (urgency_rank v ≤ urgency_rank u)%Z) l
  end.
Proof.
  induction l as [|u l IH]; simpl; [done|]. destruct (loudest l) as [max|].
  - destruct IH as [Hin Hle]. unfold urgency_max.
    destruct (Z.ltb_spec (urgency_rank u) (urgency_rank max)).
    + split; [by right|]. constructor; [lia|done].
    + split; [by left|]. constructor; [lia|]. eapply Forall_impl; [exact Hle|]. simpl. lia.
  - subst l. split; [by left|]. by repeat constructor.
Qed.

Lemma soonest_spec l :
  match soonest l with
  | None => Forall (λ d, d = None) l
  | Some t => Some t ∈ l ∧ Forall (λ d, from_option (λ t', later t t' = false) True d) l
  end.
Proof.
  induction l as [|d l IH]; simpl; [constructor|]. destruct (soonest l) as [a|], d as [b|].
  - destruct IH as [Hin Hle]. unfold instant_min. destruct (later a b) eqn:Hab.
    + split; [by left|]. constructor; [simpl; rewrite later_nanos; lia|].
      eapply Forall_impl; [exact Hle|]. intros [t'|]; [|done]. simpl.
      rewrite !later_nanos in *. rewrite !Z.ltb_ge in *. rewrite Z.ltb_lt in Hab. lia.
    + split; [by right|]. by constructor.
  - destruct IH as [Hin Hle]. split; [by right|]. by constructor.
  - split; [by left|]. constructor; [simpl; rewrite later_nanos; lia|].
    eapply Forall_impl; [exact IH|]. by intros ? ->.
  - by constructor.
Qed.

(** The two folds, as one pass from the newest entry back. *)
Fixpoint suffix_views (l : list (N * Urgency * option DateTime)) : list Urgency * list (option DateTime) :=
  match l with
  | [] => ([], [])
  | (_, u, d) :: l =>
      let '(us, ds) := suffix_views l in
      (match head us with Some max => urgency_max max u | None => u end :: us,
       match mjoin (head ds), d with
       | Some a, Some b => Some (instant_min a b)
       | Some a, None => Some a
       | None, b => b
       end :: ds)
  end.

Lemma last_rev {A} (l : list A) : last (rev l) = head l.
Proof. destruct l as [|x l]; [done|]. simpl. by rewrite last_snoc. Qed.

Lemma fold_suffix_views l :
  foldl fold_suffix ([], []) (rev l) = (rev (suffix_views l).1, rev (suffix_views l).2).
Proof.
  induction l as [|[[n u] d] l IH]; [done|]. simpl rev. rewrite foldl_app, IH. simpl.
  destruct (suffix_views l) as [us ds]. simpl. by rewrite !last_rev.
Qed.

Lemma suffix_views_lookup l i :
  (i < length l)%nat →
  (suffix_views l).1 !! i = loudest (drop i l).*1.*2 ∧
  (suffix_views l).2 !! i = Some (soonest (drop i l).*2).
Proof.
  revert i. induction l as [|[[n u] d] l IH]; intros i Hi; simpl in *; [lia|].
  assert (Hhead : head (suffix_views l).1 = loudest l.*1.*2 ∧ mjoin (head (suffix_views l).2) = soonest l.*2).
  { destruct l as [|x l]; [done|]. destruct (IH 0%nat) as [E1 E2]; [simpl; lia|].
    rewrite drop_0 in *. rewrite <-!head_lookup in *. rewrite E1, E2. done. }
  destruct (suffix_views l) as [us ds]. simpl in Hhead, IH. destruct Hhead as [Hu Hd].
  destruct i as [|i]; simpl; [|apply IH; lia]. rewrite Hu, Hd. split; [|done].
  reflexivity.
Qed.

(** What a subscriber has not seen and retention still holds. *)
Definition unseen st (s : string) : list (MessageEnvelope Uuid DateTime) :=
  match Core.cursors (core st) !! s with
  | Some cur => Ring.message <$> filter (λ e, Cursor.next_owed cur ≤ Ring.seq e) (Ring.entries (Core.ring (core st)))
  | None => []
  end.

(** In a run of ascending seqs, what is at or after a position is a suffix. *)
Lemma filter_from_prefix (l : list (Ring.Retained (MessageEnvelope Uuid DateTime))) a owed :
  Ring.seq <$> l = run a (length l) →
  filter (λ e, owed ≤ Ring.seq e) l = drop (prefix_count (λ e, Ring.seq e <? owed) l) l.
Proof.
  revert a. induction l as [|e l IH]; intros a Hl; [done|].
  rewrite fmap_cons in Hl. cbn [length run] in Hl. injection Hl as He Hl.
  rewrite filter_cons. cbn [prefix_count]. destruct (N.ltb_spec (Ring.seq e) owed).
  - rewrite decide_False by lia. simpl. by eapply IH.
  - rewrite decide_True by lia. simpl. f_equal. apply filter_all.
    apply Forall_forall. intros x Hx. assert (Hs : Ring.seq x ∈ Ring.seq <$> l) by (by apply list_elem_of_fmap_2).
    rewrite Hl in Hs. apply elem_of_run in Hs. lia.
Qed.

Lemma prefix_count_fmap {A B} (f : A → B) p l : prefix_count p (f <$> l) = prefix_count (p ∘ f) l.
Proof.
  induction l as [|x l IH]; [done|]. rewrite fmap_cons. cbn [prefix_count]. unfold compose in *.
  destruct (p (f x)); [|done]. by rewrite IH.
Qed.

(** A position is owed something exactly when its unseen suffix is not empty. *)
Lemma deliverable_row st s cur :
  store_wf st → Core.cursors (core st) !! s = Some cur →
  Cursor.has_deliverable cur (Core.ring (core st)) = true ↔ unseen st s ≠ [].
Proof.
  intros [[Hr _ _ Hcur] _ _ _ _ _ _] Hs. unfold Cursor.has_deliverable, unseen. rewrite Hs.
  apply Hcur in Hs as [Hpd _]. unfold Cursor.is_push_enabled.
  rewrite !andb_true_iff, N.ltb_lt, N.leb_le, Ring.newest_seq_wf by done.
  pose proof Hr as [Hn Hl Hd _]. split.
  - intros [[_ Hne] Hle] Hnil%fmap_nil_inv. unfold Ring.is_empty in Hne.
    assert (Hin : Ring.next_seq (Core.ring (core st)) - 1 ∈ Ring.seq <$> Ring.entries (Core.ring (core st))).
    { rewrite Hd. apply elem_of_run. destruct (Ring.entries _); [done|]. rewrite len_cons in *. simpl. unfold len in *. lia. }
    apply list_elem_of_fmap in Hin as (e&He&Hin).
    assert (e ∈ filter (λ e, Cursor.next_owed cur ≤ Ring.seq e) (Ring.entries (Core.ring (core st)))) as Hf.
    { apply list_elem_of_filter. split; [lia|done]. }
    rewrite Hnil in Hf. by apply not_elem_of_nil in Hf.
  - intros Hne. destruct (filter _ _) as [|e es] eqn:Hf; [done|].
    assert (He : e ∈ filter (λ e, Cursor.next_owed cur ≤ Ring.seq e) (Ring.entries (Core.ring (core st))))
      by (rewrite Hf; by left).
    apply list_elem_of_filter in He as [Hle Hin]. pose proof (Ring.elem_seq_wf _ _ Hr Hin).
    split; [split; [done|]|lia]. unfold Ring.is_empty. destruct (Ring.entries _); [by apply not_elem_of_nil in Hin|done].
Qed.

(** What the pass must say of a subscriber. *)
Definition says st (s : string) (d : DeliverableSubscriber DateTime) : Prop :=
  ds_subscriber d = s ∧ ds_app_slug d = app_slugs st !! s ∧
  loudest (urgency <$> unseen st s) = Some (ds_max_unseen_urgency d) ∧
  ds_earliest_unseen_deadline d = soonest (delivery_deadline <$> unseen st s).

Definition row_of (entry : Ring.Retained (MessageEnvelope Uuid DateTime)) : N * Urgency * option DateTime :=
  (Ring.seq entry, urgency (Ring.message entry), delivery_deadline (Ring.message entry)).

Lemma tail_all (r : Ring.RetainedRing (MessageEnvelope Uuid DateTime) Uuid) :
  Ring.wf r → Ring.tail r u64_max = Ring.entries r.
Proof.
  intros [Hn Hl _ _]. unfold Ring.tail, usize_saturating, usize_max.
  replace (N.to_nat _) with 0%nat by lia. done.
Qed.

(** One subscriber's row of the pass. *)
Lemma row_says st s cur :
  store_wf st → Core.cursors (core st) !! s = Some cur → unseen st s ≠ [] →
  let retained := row_of <$> Ring.entries (Core.ring (core st)) in
  let first_unseen := prefix_count (λ e, e.1.1 <? Cursor.next_owed cur) retained in
  ∃ slug max, app_slugs st !! s = Some slug ∧
    (suffix_views retained).1 !! first_unseen = Some max ∧
    says st s (mkDeliverable s (Some slug) max (mjoin ((suffix_views retained).2 !! first_unseen))).
Proof.
  intros Hwf Hs Hne. cbv zeta. pose proof Hwf as [[Hr _ _ _] Hsl _ _ _ _ _].
  destruct (proj2 (Hsl s)) as [slug Hslug]; [by rewrite Hs|].
  rewrite prefix_count_fmap. unfold says. simpl.
  unfold unseen in *. rewrite Hs in *.
  rewrite (filter_from_prefix _ _ _ (Ring.wf_dense _ Hr)) in *.
  set (es := Ring.entries (Core.ring (core st))) in *.
  set (k := prefix_count (λ e, Ring.seq e <? Cursor.next_owed cur) es) in *.
  change (prefix_count _ es) with k.
  assert (Hk : (k < length (row_of <$> es))%nat).
  { rewrite length_fmap. destruct (decide (k < length es)%nat); [done|]. exfalso. apply Hne.
    rewrite drop_ge by lia. done. }
  destruct (suffix_views_lookup _ _ Hk) as [E1 E2]. rewrite E1, E2.
  rewrite <-!fmap_drop, <-!list_fmap_compose. simpl.
  destruct (loudest (urgency <$> (Ring.message <$> drop k es))) as [max|] eqn:Hmax.
  - exists slug, max. rewrite <-!list_fmap_compose in *. split_and!; done.
  - exfalso. pose proof (loudest_spec (urgency <$> (Ring.message <$> drop k es))) as Hsp. rewrite Hmax in Hsp.
    by apply fmap_nil_inv in Hsp.
Qed.

Lemma mapM_Returns {A B} (f : A → panics B) (P : A → B → Prop) (l : list A) :
  Forall (λ x, ∃ y, f x = Returns y ∧ P x y) l → ∃ k, mapM f l = Returns k ∧ Forall2 P l k.
Proof.
  induction 1 as [|x l (y&Hy&HP) _ (k&Hk&Hall)]; [by exists []|].
  exists (y :: k). simpl. rewrite Hy. simpl. rewrite Hk. split; [done|by constructor].
Qed.

(** The pass returns one row per subscriber that is owed something. *)
Lemma wake_rows st :
  store_wf st →
  ∃ ds, deliverable_subscribers st = Returns ds ∧
    Forall2 (λ p d, says st p.1 d)
      (filter (λ p : string * Cursor.SubscriberCursor, Cursor.has_deliverable p.2 (Core.ring (core st)) = true)
         (map_to_list (Core.cursors (core st)))) ds.
Proof.
  intros Hwf. pose proof Hwf as [[Hr _ _ _] _ _ _ _ _ _].
  unfold deliverable_subscribers. rewrite tail_all by done.
  change ((λ entry, (Ring.seq entry, urgency (Ring.message entry), delivery_deadline (Ring.message entry)))
            <$> Ring.entries (Core.ring (core st))) with (row_of <$> Ring.entries (Core.ring (core st))).
  rewrite fold_suffix_views, !rev_involutive.
  apply mapM_Returns. apply Forall_forall. intros [s cur] [Hd Hin%elem_of_map_to_list]%list_elem_of_filter.
  simpl in *. pose proof (proj1 (deliverable_row st s cur Hwf Hin) Hd) as Hne.
  destruct (row_says st s cur Hwf Hin Hne) as (slug&max&Hslug&Hmax&Hsays).
  unfold app_slug. rewrite Hslug. simpl. rewrite Hmax. simpl. eauto.
Qed.
End wake.
End Wake.

(** ** Runs of the registry *)
Module StoresRun.
Import Envelope Directory Retention RingStore RingStores StoreRun.

Section run.
Context {Uuid DateTime : Type}
  `{Countable Uuid, Chrono DateTime, ChronoSecs DateTime, ChronoOrd DateTime, !ChronoLine DateTime}.
Implicit Types (rs : RingStores Uuid DateTime) (st : RingStore Uuid DateTime).

(** Provision a channel, deprovision one, or drive one through its handle. *)
Inductive stores_op :=
| Register (entry : ChannelEntry Uuid)
| Deregister (u : Uuid)
| Drive (u : Uuid) (ops : list (@store_op Uuid DateTime)).

Definition stores_step rs (op : stores_op) : panics (RingStores Uuid DateTime) :=
  match op with
  | Register entry => '(rs, _) ← register rs entry; Returns rs
  | Deregister u => Returns (deregister rs u).1
  | Drive u ops =>
      match get rs u with
      | None => Returns rs
      | Some st => '(st, _) ← store_run st ops; Returns (put rs u st)
      end
  end.

Fixpoint stores_run rs (ops : list stores_op) : panics (RingStores Uuid DateTime) :=
  match ops with
  | [] => Returns rs
  | op :: ops => rs ← stores_step rs op; stores_run rs ops
  end.

(** Each operation a handle drives meets its precondition. *)
Fixpoint stores_ok rs (ops : list stores_op) : Prop :=
  match ops with
  | [] => True
  | op :: ops =>
      match op with
      | Drive u sops => from_option (λ st, store_run_ok st sops) True (get rs u)
      | _ => True
      end ∧
      match stores_step rs op with
      | Returns rs => stores_ok rs ops
      | Panics _ => True
      end
  end.

(** The two indexes are one, and every store is the store of its channel and of this
    incarnation. *)
Record stores_wf rs : Prop := mkStoresWf {
  rwf_index a u : store_by_address rs !! a = Some u ↔ ∃ st, store_by_uuid rs !! u = Some st ∧ st_address st = a;
  rwf_stores u st : store_by_uuid rs !! u = Some st →
    st_channel_uuid st = u ∧ st_epoch st = stores_epoch rs ∧ store_wf st;
}.

Lemma empty_stores_wf e : stores_wf (empty e).
Proof.
  split; simpl.
  - intros a u. rewrite lookup_empty. split; [done|]. intros (st&Hst&_). by rewrite lookup_empty in Hst.
  - intros u st. by rewrite lookup_empty.
Qed.

Lemma with_epoch_names u a d ep st :
  with_epoch u a d ep = Returns st → st_channel_uuid st = u ∧ st_address st = a ∧ st_epoch st = ep.
Proof.
  unfold with_epoch. destruct (scheme_of a ≫= capabilities); [|done]. simpl. destruct (negb _); [|done].
  simpl. destruct d; [|done]. destruct (_ <=? _); [|done]. simpl. by intros [= <-].
Qed.

Lemma register_wf rs entry rs' b : stores_wf rs → register rs entry = Returns (rs', b) → stores_wf rs'.
Proof.
  intros [Hi Hs]. unfold register. destruct (entry_capabilities entry) as [caps|]; [|done]. simpl.
  destruct (negb (durable caps)); [|done]. simpl.
  destruct (store_by_uuid rs !! uuid entry) as [st0|] eqn:Hu; [by intros [= <- _]|].
  destruct (store_by_address rs !! address entry) as [u0|] eqn:Ha; [done|].
  destruct (with_epoch _ _ _ _) as [st|] eqn:Hw; [|done]. simpl. intros [= <- _].
  pose proof (with_epoch_names _ _ _ _ _ Hw) as (Hcu&Hca&Hce). split; simpl.
  - intros a u. destruct (decide (u = uuid entry)) as [->|Hne].
    + rewrite lookup_insert_eq. split.
      * intros Hl. destruct (decide (a = address entry)) as [->|Hna]; [by eauto|].
        rewrite lookup_insert_ne in Hl by done. apply Hi in Hl as (st'&Hst'&_). congruence.
      * intros (st'&[= <-]&<-). by rewrite Hca, lookup_insert_eq.
    + rewrite (lookup_insert_ne (store_by_uuid rs)) by done. rewrite <-Hi.
      destruct (decide (a = address entry)) as [->|Hna]; [|by rewrite lookup_insert_ne].
      rewrite lookup_insert_eq, Ha. split; congruence.
  - intros u st'. rewrite lookup_insert_Some. intros [[<- <-]|[_ Hst']]; [|by apply Hs].
    split_and!; [done..|]. by eapply with_epoch_wf.
Qed.

Lemma deregister_wf rs u : stores_wf rs → stores_wf (deregister rs u).1.
Proof.
  intros [Hi Hs]. unfold deregister. destruct (store_by_uuid rs !! u) as [st|] eqn:Hu; [|by split].
  split; simpl.
  - intros a u'. rewrite lookup_delete_Some, Hi. setoid_rewrite lookup_delete_Some. split.
    + intros (Hne&st'&Hst'&<-). exists st'. split; [|done]. split; [|done]. intros ->. congruence.
    + intros (st'&[Hne Hst']&<-). split; [|by eauto]. intros Heq.
      assert (store_by_address rs !! st_address st = Some u) as E1 by (apply Hi; eauto).
      assert (store_by_address rs !! st_address st = Some u') as E2 by (apply Hi; eauto).
      congruence.
  - intros u' st' [_ Hst']%lookup_delete_Some. by apply Hs.
Qed.

(** A store put back in its place. *)
Lemma put_wf rs u st st' :
  stores_wf rs → get rs u = Some st → store_wf st' → same_channel st st' → stores_wf (put rs u st').
Proof.
  intros [Hi Hs] Hu Hwf (Ha&Hc&He&_). unfold get in Hu. pose proof (Hs _ _ Hu) as (Hcu&Hce&_). split; simpl.
  - intros a u'. rewrite Hi. split.
    + intros (x&Hx&<-). destruct (decide (u' = u)) as [->|Hne].
      * exists st'. rewrite lookup_insert_eq. split; [done|]. congruence.
      * exists x. by rewrite lookup_insert_ne.
    + intros (x&Hx&<-). apply lookup_insert_Some in Hx as [[<- <-]|[_ Hx]]; eauto.
  - intros u' x. rewrite lookup_insert_Some. intros [[<- <-]|[_ Hx]]; [|by apply Hs].
    split_and!; [congruence..|done].
Qed.

Lemma drive_wf rs u st ops st' evs :
  stores_wf rs → get rs u = Some st → store_run_ok st ops → store_run st ops = Returns (st', evs) →
  stores_wf (put rs u st').
Proof.
  intros Hrs Hu Hok Hrun. pose proof (rwf_stores _ Hrs _ _ Hu) as (_&_&Hwf).
  destruct (store_run_core st ops Hwf Hok) as (st2&evs2&Hr2&Hwf2&_). rewrite Hrun in Hr2. injection Hr2 as <- <-.
  eapply put_wf; try done. by eapply store_run_same_channel.
Qed.

Lemma stores_run_wf rs ops rs' :
  stores_wf rs → stores_ok rs ops → stores_run rs ops = Returns rs' → stores_wf rs'.
Proof.
  revert rs. induction ops as [|op ops IH]; intros rs Hwf Hok; simpl; [by intros [= <-]|].
  destruct Hok as [Hop Hrest]. destruct (stores_step rs op) as [rs1|] eqn:Hs; [|done]. simpl.
  apply IH; [|done]. destruct op as [entry|u|u sops]; simpl in Hs.
  - destruct (register rs entry) as [[rs2 b]|] eqn:Hr; simplify_eq/=. by eapply register_wf.
  - injection Hs as <-. by apply deregister_wf.
  - destruct (get rs u) as [st|] eqn:Hu; [|by simplify_eq]. simpl in Hop.
    destruct (store_run st sops) as [[st' evs]|] eqn:Hr; simplify_eq/=. by eapply drive_wf.
Qed.
End run.
End StoresRun.

(** ** What a reader may rely on *)
Module StoreProps.
Import Envelope Directory Plane Retention RingStore RingStores StoreRun Wake StoresRun.

Section props.
Context {Uuid DateTime : Type}
  `{Countable Uuid, Chrono DateTime, ChronoSecs DateTime, ChronoOrd DateTime, !ChronoLine DateTime}.
Implicit Types (st : RingStore Uuid DateTime) (m : MessageEnvelope Uuid DateTime).

Lemma next_release_Returns st : store_wf st → ∃ t, next_release st = Returns t.
Proof.
  intros Hwf. unfold next_release, Core.core_next_release, Deferred.next_release.
  pose proof (swf_instants _ Hwf) as Hi. destruct (Deferred.parked _) as [|e es]; [by eauto|]. simpl.
  apply Forall_cons in Hi as [(t&Ht&->) _]. destruct (instant_of_millis t Ht) as (t'&->&_). simpl. eauto.
Qed.

Lemma views_Return (l : list (Deferred.Deferred (MessageEnvelope Uuid DateTime))) :
  Forall (λ e, is_instant (Deferred.release_at e)) l →
  ∃ vs, mapM view l = Returns vs ∧ parked_envelope <$> vs = Deferred.payload <$> l.
Proof.
  intros Hl. destruct (mapM_Returns view (λ e v, parked_envelope v = Deferred.payload e) l) as (vs&Hv&Hall).
  { eapply Forall_impl; [exact Hl|]. intros e (v&Hv&Hp&_)%is_instant_view. eauto. }
  exists vs. split; [done|]. clear Hv Hl. induction Hall; simpl; [done|]. by f_equal.
Qed.

(** (retention) a store is its channel core, with names. From construction on, whatever
    sequence of operations drives it, no call of the store unwinds: each position has an
    application to be charged under, each parked message a time that reads back. It counts
    exactly the messages that entered retention, answers its wake source, its schedule and
    each sender's view; and it did what some sequence of core operations does, naming the
    losses the core's ledger counts. *)
Theorem ring_store_is_its_core (u : Uuid) (addr : string) (d : Depth) (ep : Uuid) st0 ops :
  with_epoch u addr d ep = Returns st0 → store_run_ok st0 ops →
  ∃ st evs, store_run st0 ops = Returns (st, evs) ∧
    publishes st = newest_seq st ∧
    (∀ s, is_Some (app_slugs st !! s) ↔ is_attached st s = true) ∧
    (∃ ds, deliverable_subscribers st = Returns ds) ∧ (∃ t, next_release st = Returns t) ∧
    (∀ who, ∃ vs, deferred_for_sender st who = Returns vs ∧
       parked_envelope <$> vs = Deferred.payload <$> Core.deferred_for_sender (core st) who) ∧
    ∀ s0, ∃ cops l, CoreRun.core_run s0 (core st0) cops = Returns (core st, l) ∧
      charged s0 evs = CoreRun.reported l.
Proof.
  intros Hw Hok. apply with_epoch_wf in Hw as Hwf0.
  destruct (store_run_core st0 ops Hwf0 Hok) as (st&evs&Hr&Hwf&Hcore).
  exists st, evs. pose proof Hwf as [[Hring _ _ _] Hsl _ Hp Hi _ _]. split_and!; try done.
  - unfold newest_seq. rewrite Ring.newest_seq_wf by done. lia.
  - intros s. unfold is_attached, Core.is_attached. by rewrite bool_decide_eq_true.
  - destruct (wake_rows st Hwf) as (ds&Hds&_). eauto.
  - by apply next_release_Returns.
  - intros who. apply views_Return. apply Forall_forall. intros e [_ He]%list_elem_of_filter.
    rewrite Forall_forall in Hi. by apply Hi.
Qed.

(** (retention) the wake source reads each subscriber's own unseen suffix. The pass folds
    the retained window once and indexes into the folds, yet its answer is what a separate
    walk would say of each subscriber: a row, under the application it attached with, for
    exactly those whose unseen suffix is not empty, carrying the loudest urgency and the
    soonest deadline in that suffix and nothing from below it. *)
Theorem wake_source_reads_each_unseen_suffix st :
  store_wf st →
  ∃ ds, deliverable_subscribers st = Returns ds ∧ NoDup (ds_subscriber <$> ds) ∧
    (∀ s, s ∈ ds_subscriber <$> ds ↔ unseen st s ≠ []) ∧
    ∀ d, d ∈ ds →
      let us := urgency <$> unseen st (ds_subscriber d) in
      let deadlines := delivery_deadline <$> unseen st (ds_subscriber d) in
      ds_app_slug d = app_slugs st !! ds_subscriber d ∧
      ds_max_unseen_urgency d ∈ us ∧
      Forall (λ v, (urgency_rank v ≤ urgency_rank (ds_max_unseen_urgency d))%Z) us ∧
      match ds_earliest_unseen_deadline d with
      | None => Forall (λ x, x = None) deadlines
      | Some t => Some t ∈ deadlines ∧ Forall (λ x, from_option (λ t', later t t' = false) True x) deadlines
      end.
Proof.
  intros Hwf. destruct (wake_rows st Hwf) as (ds&Hds&Hall). exists ds. split; [done|].
  set (l := filter _ _) in Hall.
  assert (Hnames : ds_subscriber <$> ds = l.*1).
  { clear Hds. induction Hall as [|p d l' ds' [Hp _] _ IH]; [done|]. rewrite !fmap_cons. by f_equal. }
  assert (Hin : ∀ s, s ∈ l.*1 ↔ unseen st s ≠ []).
  { intros s. rewrite list_elem_of_fmap. split.
    - intros ([s' cur]&->&[Hd Hp%elem_of_map_to_list]%list_elem_of_filter). by eapply deliverable_row.
    - intros Hne. unfold unseen in Hne. destruct (Core.cursors (core st) !! s) as [cur|] eqn:Hs; [|done].
      exists (s, cur). split; [done|]. apply list_elem_of_filter. split; [|by apply elem_of_map_to_list].
      simpl. apply (deliverable_row st s cur Hwf Hs). unfold unseen. by rewrite Hs. }
  rewrite Hnames. split_and!; [|done|].
  - subst l. eapply NoDup_fmap_fst; [|by apply NoDup_filter, NoDup_map_to_list].
    intros s c1 c2 [_ L1%elem_of_map_to_list]%list_elem_of_filter [_ L2%elem_of_map_to_list]%list_elem_of_filter.
    simpl in *. congruence.
  - intros d Hd. cbv zeta. apply list_elem_of_lookup in Hd as (i&Hi).
    destruct (Forall2_lookup_r _ _ _ _ _ Hall Hi) as (p&_&(Hs&Hslug&Hmax&Hmin)). rewrite Hs in *.
    split; [done|].
    pose proof (loudest_spec (urgency <$> unseen st p.1)) as Hl. rewrite Hmax in Hl.
    pose proof (soonest_spec (delivery_deadline <$> unseen st p.1)) as Hm. rewrite <-Hmin in Hm.
    destruct Hl. done.
Qed.

(** (retention) the two indexes of the process's stores stay one. Through any sequence
    of provisioning, deprovisioning and use, a store is found by an address exactly when it
    is the store of the channel with that address, every store carries the one boot epoch,
    and provisioning a channel again changes nothing: what it retains is kept. *)
Theorem ring_registry_stays_one (e : Uuid) ops (rs : RingStores Uuid DateTime) :
  stores_ok (empty e) ops → stores_run (empty e) ops = Returns rs →
  (∀ a st, get_by_address rs a = Some st ↔ ∃ u, get rs u = Some st ∧ st_address st = a) ∧
  (∀ u st, get rs u = Some st → st_channel_uuid st = u ∧ st_epoch st = e ∧ durable (st_capabilities st) = false) ∧
  (∀ entry, is_Some (get rs (uuid entry)) →
     register rs entry = Returns (rs, false) ∨ ∃ why, register rs entry = Panics why) ∧
  (∀ u, get (deregister rs u).1 u = None ∧
     ∀ st, get rs u = Some st → get_by_address (deregister rs u).1 (st_address st) = None).
Proof.
  intros Hok Hrun. pose proof (stores_run_wf _ _ _ (empty_stores_wf e) Hok Hrun) as Hwf.
  assert (He : stores_epoch rs = e).
  { clear Hok Hwf. assert (Hg : ∀ rs0, stores_epoch rs0 = e → stores_run rs0 ops = Returns rs → stores_epoch rs = e).
    { clear Hrun. induction ops as [|op ops IH]; intros rs0 E0; simpl; [by intros [= <-]|].
      destruct (stores_step rs0 op) as [rs1|] eqn:Hs; [|done]. simpl. apply IH.
      destruct op; simpl in Hs; unfold register, deregister, mbind, panics_bind in Hs;
        repeat (case_match; simplify_eq/=); done. }
    by apply (Hg (empty e)). }
  pose proof Hwf as [Hi Hs]. unfold get, get_by_address. split_and!.
  - intros a st. split.
    + destruct (store_by_address rs !! a) as [u|] eqn:Ha; [|done]. simpl. intros Hu.
      exists u. split; [done|]. apply Hi in Ha as (st'&Hst'&<-). congruence.
    + intros (u&Hu&<-). assert (Ha : store_by_address rs !! st_address st = Some u) by (apply Hi; eauto).
      rewrite Ha. done.
  - intros u st Hu. destruct (Hs _ _ Hu) as (?&?&Hst). destruct (swf_class _ Hst). split_and!; congruence.
  - intros entry [st Hst]. unfold register. destruct (entry_capabilities entry) as [caps|why]; [|by eauto]. simpl.
    destruct (negb (durable caps)); simpl; [|by eauto]. rewrite Hst. by left.
  - intros u. unfold deregister. destruct (store_by_uuid rs !! u) as [st|] eqn:Hu; simpl.
    + split; [by rewrite lookup_delete_eq|]. intros st' [= <-]. by rewrite lookup_delete_eq.
    + done.
Qed.

(** A pass takes a parked entry exactly when it is due. *)
Lemma released_when_due (d : Deferred.DeferredSet (MessageEnvelope Uuid DateTime)) now e :
  Deferred.wf d → e ∈ Deferred.parked d →
  let '(d', due) := Deferred.release_due d now in
  if Deferred.release_at e <=? now then e ∈ due else e ∈ Deferred.parked d'.
Proof.
  intros Hd He. pose proof (DeferredSpec.release_due_split d now Hd) as [Hdue Hkept].
  destruct (Deferred.release_due d now) as [d' due]. simpl in *. rewrite Hdue, Hkept.
  case_bool; apply list_elem_of_filter; (split; [lia|done]).
Qed.

(** (retention) a parked message cannot be observed before its time. Parking changes
    nothing any reader of the channel can see. A pass before the release time leaves it
    parked under its sender; a pass at or after it moves it into retention; and the set
    refuses, changing nothing, exactly when it holds as many messages as the channel's
    depth. *)
Theorem parked_message_is_unobservable st m t :
  store_wf st → store_op_ok st (SPark m t) →
  ∃ st' r, park st m t = Returns (st', r) ∧
    (∀ n, store_retained_tail st' n = store_retained_tail st n) ∧
    (∀ cur limit, store_replay_from st' cur limit = store_replay_from st cur limit) ∧
    deliverable_subscribers st' = deliverable_subscribers st ∧
    (∀ s pl rl, (store_window st' s pl rl).2 = (store_window st s pl rl).2) ∧
    publishes st' = publishes st ∧
    (∀ cap, r = Err (Deferred.mkQuotaExceeded cap) ↔
       cap = Ring.depth (Core.ring (core st)) ∧ cap ≤ deferred_len st ∧ st' = st) ∧
    (r = Ok (message_id m) ∨ ∃ q, r = Err q) ∧
    (r = Ok (message_id m) →
       deferred_len st' = deferred_len st + 1 ∧
       ∃ e, Deferred.payload e = m ∧ Deferred.release_at e = millis t ∧
         e ∈ Core.deferred_for_sender (core st') (env_sender m) ∧
         ∀ now, after_epoch now →
           let '(d, due) := Deferred.release_due (Core.deferred (core st')) (millis now) in
           if millis t <=? millis now then e ∈ due else e ∈ Deferred.parked d).
Proof.
  intros Hwf [Hok Ht]. cbn [core_ops_of] in Hok. destruct Hok as [Hok _]. cbn [CoreRun.op_ok] in Hok.
  unfold park. rewrite release_time_of_Returns by done. simpl. unfold Core.core_park.
  pose proof (swf_core _ Hwf) as Hc. pose proof (Core.wf_deferred _ Hc) as Hd. pose proof (Core.wf_cap _ Hc) as Hcap.
  pose proof (Deferred.park_wf _ (env_sender m) m (millis t) Hd Hok) as Hd'. unfold Deferred.park in *.
  rewrite Hcap in *. destruct (N.leb_spec (Ring.depth (Core.ring (core st))) (len (Deferred.parked (Core.deferred (core st))))) as [Hfull|Hroom].
  - do 2 eexists. split; [done|]. assert (Hst : with_core st (Core.with_deferred (core st) (Core.deferred (core st))) = st).
    { destruct st as [? ? ? ? ? [] ?]. done. }
    rewrite Hst. split_and!; try done.
    + intros cap. simpl. split; [intros [= <-]; done|by intros (->&_&_)].
    + right. by eexists.
  - do 2 eexists. split; [done|].
    set (e := Deferred.mkDeferred (Deferred.next_id (Core.deferred (core st))) (env_sender m) (millis t) m).
    assert (Hin : e ∈ vec_insert (Deferred.position_for (Deferred.parked (Core.deferred (core st))) (millis t)
       (Deferred.next_id (Core.deferred (core st)))) e (Deferred.parked (Core.deferred (core st)))).
    { rewrite vec_insert_perm. by left. }
    split_and!; try done.
    + intros s pl rl. unfold store_window, window, Core.core_window. simpl.
      destruct (Core.cursors (core st) !! s); [done|]. by destruct (0 <? depth_bound pl).
    + intros cap. split; [done|]. intros (->&Hle&_). unfold deferred_len in Hle. lia.
    + by left.
    + intros _. split.
      { unfold deferred_len. simpl. unfold len. rewrite vec_insert_perm. simpl. lia. }
      exists e. split_and!; try done.
      { unfold Core.deferred_for_sender, Deferred.for_sender. apply list_elem_of_filter. done. }
      intros now Hn. by apply (released_when_due _ (millis now) e).
Qed.
End props.

(** A room of depth 2 with a chat and a panel reading it. *)
Section demo.
Import NanoClock.

Definition demo_message (id : N) (u : Urgency) (by_ : option Instant) : MessageEnvelope N Instant :=
  mkEnvelope id "node" "ephemeral:room" "app:home@node" (at_ns 0) "hello" None by_ None None u Ephemeral.
Definition demo_ops : list (@store_op N Instant) :=
  [SAttach "conversation:1" "home" (Bounded 4); SAppend (demo_message 1 High None);
   SAppend (demo_message 2 Low (Some (at_ns 9000000000))); SWindow "conversation:1" (Bounded 4) (Bounded 4); SAdvance "conversation:1" 2 1;
   SAttach "wasm:panel" "panel" (Bounded 4);
   SAppend (demo_message 3 Normal None); SPark (demo_message 4 Low None) (at_ns 5000000000);
   SCancel "app:home@node" 9 (at_ns 1000000); SRelease (at_ns 6000000000)].
Definition demo_store : RingStore N Instant :=
  match with_epoch 5 "ephemeral:room" (Bounded 2) 7 with Returns st => st | Panics _ =>
    mkStore 0 0 "" CONFINED 0 (Core.core_new 0 0) ∅ end.

Lemma demo_store_ok : store_run_ok demo_store demo_ops.
Proof. vm_compute. repeat split; repeat constructor; discriminate. Qed.

Lemma demo_store_built : with_epoch 5 "ephemeral:room" (Bounded 2) 7 = Returns demo_store.
Proof. reflexivity. Qed.

(** The store after the run. *)
Definition demo_end : RingStore N Instant :=
  match store_run demo_store demo_ops with Returns (st, _) => st | Panics _ => demo_store end.

Lemma demo_end_wf : store_wf demo_end.
Proof.
  destruct (store_run_core demo_store demo_ops) as (st&evs&Hr&Hwf&_).
  - by eapply with_epoch_wf, demo_store_built.
  - exact demo_store_ok.
  - unfold demo_end. rewrite Hr. done.
Qed.

Lemma ring_store_is_its_core_witness :
  ∃ st evs, store_run demo_store demo_ops = Returns (st, evs) ∧ publishes st = 4 ∧ publishes st = newest_seq st ∧
    charged "wasm:panel" evs = 2.
Proof.
  destruct (ring_store_is_its_core 5 "ephemeral:room" (Bounded 2) 7 demo_store demo_ops demo_store_built demo_store_ok)
    as (st&evs&Hr&Hp&_).
  exists st, evs. split; [exact Hr|]. vm_compute in Hr. injection Hr as <- <-.
  split; [reflexivity|]. split; [exact Hp|]. vm_compute. reflexivity.
Defined.

Lemma wake_source_reads_each_unseen_suffix_witness :
  store_wf demo_end ∧ ∃ ds, deliverable_subscribers demo_end = Returns ds ∧ NoDup (ds_subscriber <$> ds) ∧
    "conversation:1" ∈ ds_subscriber <$> ds.
Proof.
  split; [exact demo_end_wf|].
  destruct (wake_source_reads_each_unseen_suffix demo_end demo_end_wf) as (ds&Hds&Hnd&Hin&_).
  exists ds. split; [exact Hds|]. split; [exact Hnd|]. apply Hin. vm_compute. discriminate.
Defined.

Definition demo_entry : ChannelEntry N :=
  mkChannel 5 "ephemeral:room" None (mkResolved (Bounded 2) (Bounded 2) Silent default_send_rate) [] Ephemeral None.
Definition demo_stores_ops : list (@stores_op N Instant) := [Register demo_entry; Drive 5 demo_ops; Register demo_entry].
Definition demo_stores : RingStores N Instant := mkStores 7 {[5 := demo_end]} {["ephemeral:room" := 5]}.

Lemma ring_registry_stays_one_witness :
  get_by_address demo_stores "ephemeral:room" = Some demo_end ∧ st_epoch demo_end = 7.
Proof.
  destruct (ring_registry_stays_one 7 demo_stores_ops demo_stores) as (Ha&Hu&_).
  - vm_compute. repeat split; repeat constructor; discriminate.
  - vm_compute. reflexivity.
  - split; [|by apply (Hu 5)]. apply Ha. exists 5. split; reflexivity.
Defined.

Lemma parked_message_is_unobservable_witness :
  store_wf demo_end ∧ ∃ st' r, park demo_end (demo_message 8 Low None) (at_ns 7000000000) = Returns (st', r) ∧
    publishes st' = 4 ∧ deferred_len st' = deferred_len demo_end + 1.
Proof.
  split; [exact demo_end_wf|].
  destruct (parked_message_is_unobservable demo_end (demo_message 8 Low None) (at_ns 7000000000) demo_end_wf)
    as (st'&r&Hp&_&_&_&_&Hpub&_&_&Hok).
  { vm_compute. repeat split; discriminate. }
  exists st', r. split; [exact Hp|]. split; [rewrite Hpub; vm_compute; reflexivity|].
  apply Hok. vm_compute in Hp. injection Hp as _ <-. reflexivity.
Defined.
End demo.
End StoreProps.
