(* ===== verification/DbStore.v ===== *)
(** * The durable store ([brenn-messaging-store/src/store/db.rs] and its queries in
    [brenn-messaging-store/src/db/{bus,cursors,deferral,budget}.rs])

    A durable channel's messages live in SQLite. The database is its tables: the channel
    rows with their sequence allocators, the message rows, the cursor rows, the send
    budgets. A query is the function its SQL text denotes; columns hold what their text
    decodes to, except that a stored time is its text ([format_ts_for_db]), which SQLite
    compares byte by byte. A uniqueness index or a [CHECK] that a statement would
    break unwinds, as the [expect] on the statement does. Transactions are steps: the one
    connection is held under a lock. *)

From S2P Require Import Prelude Envelope Ring Cursor Deferred RingCore Directory Serve Session Retention.

#[local] Open Scope N_scope.
#[local] Open Scope list_scope.

Module Db.
Import Envelope Directory Plane Retention.

(** [EnvelopeTypeColumn]. *)
Inductive EnvelopeTypeColumn := Bus (scheme : ChannelScheme) | Ingress.

#[export] Instance EnvelopeTypeColumn_eq_dec : EqDecision EnvelopeTypeColumn.
Proof. solve_decision. Defined.

(** [EnvelopeTypeColumn::as_str], [EnvelopeTypeColumn::parse]. *)
Definition column_as_str (c : EnvelopeTypeColumn) : string :=
  match c with Bus s => scheme_as_str s | Ingress => "ingress" end.
Definition column_parse (s : string) : option EnvelopeTypeColumn :=
  if String.eqb s "ingress" then Some Ingress else Bus <$> scheme_parse s.

(** [Sink]. *)
Inductive Sink := SinkDrop | SinkArchive.

#[export] Instance Sink_eq_dec : EqDecision Sink.
Proof. solve_decision. Defined.

(** [BudgetDecrement]. *)
Inductive BudgetDecrement := BudgetOk (remaining : N) | BudgetIsExhausted.

Section db.
Context {Uuid DateTime : Type} `{Countable Uuid, Chrono DateTime, ChronoSecs DateTime, ChronoOrd DateTime}.

Abbreviation message := (MessageEnvelope Uuid DateTime).

(** A row of [messaging_channels]. *)
Record ChannelRow := mkChannelRow {
  ch_address : string;
  ch_resume_epoch : Uuid;
  ch_last_retained_seq : N;
}.

(** A row of [messaging_messages]. *)
Record MessageRow := mkMessageRow {
  row_id : N;
  row_uuid : Uuid;
  row_channel : option Uuid;
  row_source : string;
  row_sender : string;
  row_body : string;
  row_urgency : Urgency;
  row_reply_to : option Uuid;
  row_deadline : option string;
  row_deliver_after : option string;
  row_publish_ts_ns : Z;
  row_envelope_type : EnvelopeTypeColumn;
  row_retained_seq : option N;
  row_impetus : option Impetus;
}.

(** A row of [messaging_subscriber_cursors], under its key. *)
Record CursorRow := mkCursorRow {
  cr_app_slug : string;
  cr_push_depth : Depth;
  cr_next_owed_seq : N;
}.

(** The database. *)
Record Database := mkDb {
  channels : gmap Uuid ChannelRow;
  messages : list MessageRow;
  cursors : gmap (Uuid * string) CursorRow;
  budgets : gmap Z N;
}.

Definition with_messages (db : Database) (l : list MessageRow) : Database :=
  mkDb (channels db) l (cursors db) (budgets db).
Definition with_cursors (db : Database) (c : gmap (Uuid * string) CursorRow) : Database :=
  mkDb (channels db) (messages db) c (budgets db).
Definition with_budgets (db : Database) (b : gmap Z N) : Database :=
  mkDb (channels db) (messages db) (cursors db) b.

(** *** Stored times *)

(** [format_ts_for_db]: [SecondsFormat::Secs], so the sub-second part is dropped. *)
Definition format_ts_for_db (t : DateTime) : string := to_rfc3339_secs t.
(** [parse_rfc3339]. *)
Definition parse_rfc3339 (s : string) : option DateTime := parse_from_rfc3339 s.

(** *** Rows *)

Definition on_channel (u : Uuid) (r : MessageRow) : bool := bool_decide (row_channel r = Some u).
Definition is_retained (r : MessageRow) : bool := bool_decide (is_Some (row_retained_seq r)).
Definition is_parked (r : MessageRow) : bool := bool_decide (is_Some (row_deliver_after r)).
Definition seq_of (r : MessageRow) : N := default 0 (row_retained_seq r).
Definition due_at (r : MessageRow) : string := default "" (row_deliver_after r).

(** The row id SQLite gives an [INTEGER PRIMARY KEY]: one past the largest in use. *)
Definition next_row_id (db : Database) : N := foldr N.max 0 (row_id <$> messages db) + 1.

Definition seq_le (a b : MessageRow) : Prop := seq_of a ≤ seq_of b.
#[global] Instance seq_le_dec : RelDecision seq_le.
Proof. unfold seq_le. solve_decision. Defined.

(** [ORDER BY deliver_after ASC, id ASC]. *)
Definition release_le (a b : MessageRow) : Prop :=
  String.ltb (due_at a) (due_at b) = true ∨ (due_at a = due_at b ∧ row_id a ≤ row_id b).
#[global] Instance release_le_dec : RelDecision release_le.
Proof. unfold release_le. solve_decision. Defined.

(** The retained rows of a channel, [ORDER BY retained_seq]. *)
Definition retained_rows (db : Database) (u : Uuid) : list MessageRow :=
  merge_sort seq_le (filter (λ r, on_channel u r && is_retained r = true) (messages db)).

(** The unreleased rows of a channel, [ORDER BY deliver_after ASC, id ASC]. *)
Definition parked_rows (db : Database) (u : Uuid) : list MessageRow :=
  merge_sort release_le (filter (λ r, on_channel u r && is_parked r = true) (messages db)).

(** [depth_limit]: a row cap as SQLite spells it, a negative one being no cap. *)
Definition depth_limit (d : Depth) : Z :=
  match d with
  | Unbounded => (-1)%Z
  | Bounded n => i64_wrap (Z.of_N n)
  end.

(** [LIMIT n] on rows read newest first, and then reversed. *)
Definition newest_rows {A} (limit : Z) (rows : list A) : list A :=
  if (limit <? 0)%Z then rows else drop (length rows - Z.to_nat limit) rows.

(** *** Reading a message back ([envelope_row.rs]) *)

(** [row_to_envelope], over its two joins: a row whose channel is gone joins nothing. *)
Definition row_to_envelope (db : Database) (r : MessageRow) : option (panics message) :=
  u ← row_channel r;
  c ← channels db !! u;
  Some (
    scheme ← match row_envelope_type r with
             | Bus s => Returns s
             | Ingress => Panics "messaging: unknown envelope_type"
             end;
    ts ← ns_to_utc (row_publish_ts_ns r);
    Returns (mkEnvelope (row_uuid r) (row_source r) (ch_address c) (row_sender r) ts (row_body r)
      (u ← row_reply_to r; ch_address <$> channels db !! u)
      (row_deadline r ≫= parse_rfc3339) (row_deliver_after r ≫= parse_rfc3339)
      (row_impetus r) (row_urgency r) scheme)).

(** Read the rows of a query that joins the channel. *)
Definition read_rows {A} (db : Database) (f : MessageRow → message → panics A) (rows : list MessageRow)
    : panics (list A) :=
  mapM (λ p : MessageRow * panics message, m ← p.2; f p.1 m)
    (omap (λ r, pair r <$> row_to_envelope db r) rows).

(** [load_channel_retained_window_seq]. *)
Definition load_channel_retained_window_seq (db : Database) (u : Uuid) (limit : Depth)
    : panics (list (N * message)) :=
  read_rows db (λ r m, Returns (seq_of r, m)) (newest_rows (depth_limit limit) (retained_rows db u)).

(** [load_channel_messages_after_seq]. *)
Definition load_channel_messages_after_seq (db : Database) (u : Uuid) (after : N) (clamp : Depth)
    : panics (list (N * message)) :=
  read_rows db (λ r m, Returns (seq_of r, m))
    (newest_rows (depth_limit clamp) (filter (λ r, after < seq_of r) (retained_rows db u))).

(** [load_channel_retained_tail]. *)
Definition load_channel_retained_tail (db : Database) (u : Uuid) (limit : Depth)
    : panics (list (N * message)) :=
  read_rows db (λ r m, Returns (row_id r, m)) (newest_rows (depth_limit limit) (retained_rows db u)).

(** [channel_last_retained_seq]. *)
Definition channel_last_retained_seq (db : Database) (u : Uuid) : panics N :=
  rust_expect (ch_last_retained_seq <$> channels db !! u) "messaging: channel has no row".

(** [channel_retention_frontier]. *)
Definition channel_retention_frontier (db : Database) (u : Uuid) : option N :=
  seq_of <$> head (retained_rows db u).

(** [retention_frontier_or_next]. *)
Definition retention_frontier_or_next (db : Database) (u : Uuid) : panics N :=
  match channel_retention_frontier db u with
  | Some s => Returns s
  | None => n ← channel_last_retained_seq db u; Returns (n + 1)
  end.

(** [retained_tail_floor_seq]. *)
Definition retained_tail_floor_seq (db : Database) (u : Uuid) (limit : Depth) : option N :=
  seq_of <$> head (newest_rows (depth_limit limit) (retained_rows db u)).

(** [primed_position]. *)
Definition primed_position (db : Database) (u : Uuid) (push_depth : Depth) : panics N :=
  match retained_tail_floor_seq db u push_depth with
  | Some s => Returns s
  | None => n ← channel_last_retained_seq db u; Returns (n + 1)
  end.

(** [channel_resume_epoch]. *)
Definition channel_resume_epoch (db : Database) (u : Uuid) : panics Uuid :=
  rust_expect (ch_resume_epoch <$> channels db !! u) "messaging: channel has no row".

(** [channel_retained_count_after_seq]. *)
Definition channel_retained_count_after_seq (db : Database) (u : Uuid) (after : N) : N :=
  len (filter (λ r, after < seq_of r) (retained_rows db u)).

(** *** Writing a message *)

(** [allocate_retained_seqs]. *)
Definition allocate_retained_seqs (db : Database) (u : Uuid) (count : N) : panics (Database * N) :=
  _ ← rust_assert (0 <? count) "messaging: allocate_retained_seqs: empty block";
  c ← rust_expect (channels db !! u) "messaging: channel has no row";
  let high := ch_last_retained_seq c + count in
  Returns (mkDb (<[u := mkChannelRow (ch_address c) (ch_resume_epoch c) high]> (channels db))
             (messages db) (cursors db) (budgets db), high).

(** [allocate_retained_seq]. *)
Definition allocate_retained_seq (db : Database) (u : Uuid) : panics (Database * N) :=
  allocate_retained_seqs db u 1.

(** The constraints of [messaging_messages]: the unique uuid, the unique position on a
    channel, the scheduling columns reserved to [brenn] rows. *)
Definition row_admitted (db : Database) (r : MessageRow) : bool :=
  forallb (λ x, negb (bool_decide (row_uuid x = row_uuid r)) &&
                (negb (is_retained x) || negb (is_retained r) ||
                 negb (bool_decide (row_channel x = row_channel r)) || negb (seq_of x =? seq_of r)))
    (messages db)
  && (bool_decide (row_envelope_type r = Bus Brenn)
      || (negb (is_parked r) && negb (bool_decide (is_Some (row_deadline r)))))
  && match row_channel r with Some u => bool_decide (is_Some (channels db !! u)) | None => true end
  && match row_reply_to r with Some u => bool_decide (is_Some (channels db !! u)) | None => true end.

(** [insert_message_in_tx], and [insert_message] around it; the minted uuid is an argument. *)
Definition insert_message (db : Database) (fresh : Uuid) (u : Uuid) (source sender body : string)
    (urgency : Urgency) (envelope_type : ChannelScheme) (reply_to : option Uuid)
    (delivery_deadline deliver_after : option DateTime) (impetus : option Impetus) (publish_ts_ns : Z)
    : panics (Database * option N) :=
  '(db, retained_seq) ←
    match deliver_after with
    | None => '(db, s) ← allocate_retained_seq db u; Returns (db, Some s)
    | Some _ => Returns (db, None)
    end;
  let r := mkMessageRow (next_row_id db) fresh (Some u) source sender body urgency reply_to
             (format_ts_for_db <$> delivery_deadline) (format_ts_for_db <$> deliver_after)
             publish_ts_ns (Bus envelope_type) retained_seq impetus in
  _ ← rust_assert (row_admitted db r) "messaging: insert message";
  Returns (with_messages db (messages db ++ [r]), retained_seq).

(** *** Eviction *)

(** The part of a span past a cursor that no earlier pass reported. *)
Definition evicted_span (old_frontier new_frontier : N) (subscriber : string) (cr : CursorRow)
    : option OverflowEvent :=
  let dropped := new_frontier - N.max (cr_next_owed_seq cr) old_frontier in
  if 0 <? dropped then Some (mkOverflowEvent subscriber dropped (Some (cr_app_slug cr))) else None.

(** [channel_subscriber_cursors]. *)
Definition channel_subscriber_cursors (db : Database) (u : Uuid) : list (string * CursorRow) :=
  omap (λ p : (Uuid * string) * CursorRow, if decide (p.1.1 = u) then Some (p.1.2, p.2) else None)
    (map_to_list (cursors db)).

(** A line of the archive: the evicted row under its channel's own address and scheme. *)
Definition archive_row (db : Database) (address : string) (scheme : ChannelScheme) (r : MessageRow)
    : panics message :=
  deadline ← match row_deadline r with
             | Some s => d ← rust_expect (parse_rfc3339 s) "bus_gc_evict_channel: invalid rfc3339"; Returns (Some d)
             | None => Returns None
             end;
  after ← match row_deliver_after r with
          | Some s => d ← rust_expect (parse_rfc3339 s) "bus_gc_evict_channel: invalid rfc3339"; Returns (Some d)
          | None => Returns None
          end;
  ts ← ns_to_utc (row_publish_ts_ns r);
  Returns (mkEnvelope (row_uuid r) (row_source r) address (row_sender r) ts (row_body r)
    (u ← row_reply_to r; ch_address <$> channels db !! u) deadline after (row_impetus r) (row_urgency r) scheme).

(** What an eviction pass answers: the rows it deleted, whom that cost, and the lines it
    appended to the archive before deleting. *)
Record BusGcEviction := mkEviction {
  messages_evicted : N;
  gc_overflow : list OverflowEvent;
  archived : list message;
}.

(** [bus_gc_evict_channel]. *)
Definition bus_gc_evict_channel (db : Database) (u : Uuid) (address : string) (scheme : ChannelScheme)
    (frontier : N) (sink : Sink) (archive_path : option string) : panics (Database * BusGcEviction) :=
  _ ← rust_assert (negb (bool_decide (sink = SinkArchive)) || bool_decide (is_Some archive_path))
        "bus_gc_evict_channel: sink=Archive but archive_path is None";
  let bus r := negb (bool_decide (row_envelope_type r = Ingress)) in
  let rows := filter (λ r, bus r = true) (retained_rows db u) in
  let limit := i64_wrap (Z.of_N frontier) in
  if (Z.of_N (len rows) <=? limit)%Z then Returns (db, mkEviction 0 [] [])
  else
    old_frontier ← retention_frontier_or_next db u;
    let keep := row_id <$> newest_rows limit rows in
    let eligible r := bool_decide (row_id r ∉ keep) in
    archived ← match sink with
               | SinkArchive => mapM (archive_row db address scheme) (filter (λ r, eligible r = true) rows)
               | SinkDrop => Returns []
               end;
    let evict r := on_channel u r && bus r && is_retained r && eligible r in
    let db' := with_messages db (filter (λ r, evict r = false) (messages db)) in
    new_frontier ← retention_frontier_or_next db' u;
    Returns (db', mkEviction (len (filter (λ r, evict r = true) (messages db)))
                    (omap (λ p, evicted_span old_frontier new_frontier p.1 p.2) (channel_subscriber_cursors db u))
                    archived).

(** *** Cursors ([cursors.rs]) *)

(** [load_subscriber_cursor]. *)
Definition load_subscriber_cursor (db : Database) (u : Uuid) (s : string) : option CursorRow :=
  cursors db !! (u, s).

(** [ensure_subscriber_cursor]. *)
Definition ensure_subscriber_cursor (db : Database) (u : Uuid) (s app_slug : string) (push_depth : Depth)
    (primed : N) : panics (Database * bool) :=
  _ ← rust_assert (Directory.is_push_enabled push_depth) "messaging: cursor requested for sampled subscriber";
  match load_subscriber_cursor db u s with
  | Some cr =>
      Returns (with_cursors db (<[(u, s) := mkCursorRow app_slug push_depth (cr_next_owed_seq cr)]> (cursors db)),
               false)
  | None =>
      _ ← rust_assert (bool_decide (is_Some (channels db !! u))) "insert subscriber cursor";
      Returns (with_cursors db (<[(u, s) := mkCursorRow app_slug push_depth primed]> (cursors db)), true)
  end.

(** [set_subscriber_cursor_position]. *)
Definition set_subscriber_cursor_position (db : Database) (u : Uuid) (s : string) (next_owed : N)
    : panics Database :=
  cr ← rust_expect (cursors db !! (u, s)) "messaging: holds no cursor on channel to move";
  Returns (with_cursors db (<[(u, s) := mkCursorRow (cr_app_slug cr) (cr_push_depth cr) next_owed]> (cursors db))).

(** [retune_subscriber_cursor_depth]. *)
Definition retune_subscriber_cursor_depth (db : Database) (u : Uuid) (s : string) (push_depth : Depth) : Database :=
  match cursors db !! (u, s) with
  | Some cr => with_cursors db (<[(u, s) := mkCursorRow (cr_app_slug cr) push_depth (cr_next_owed_seq cr)]> (cursors db))
  | None => db
  end.

(** [delete_subscriber_cursor]. *)
Definition delete_subscriber_cursor (db : Database) (u : Uuid) (s : string) : Database :=
  with_cursors db (delete (u, s) (cursors db)).

(** [cursor_has_deliverable]. *)
Definition cursor_has_deliverable (db : Database) (u : Uuid) (s : string) : bool :=
  match cursors db !! (u, s) with
  | Some cr => existsb (λ r, cr_next_owed_seq cr <=? seq_of r) (retained_rows db u)
  | None => false
  end.

(** [MAX] over the urgency ranks, [MIN] over the deadline texts that are not [NULL]. *)
Definition max_urgency (l : list Urgency) : option Urgency :=
  foldr (λ u acc, Some (match acc with Some m => urgency_max m u | None => u end)) None l.
Definition min_deadline (l : list (option string)) : option string :=
  foldr (λ d acc, match d, acc with
                  | Some a, Some b => Some (if String.leb a b then a else b)
                  | Some a, None => Some a
                  | None, acc => acc
                  end) None l.

(** [deliverable_cursor_subscribers]. *)
Definition deliverable_cursor_subscribers (db : Database) (u : Uuid)
    : panics (list (DeliverableSubscriber DateTime)) :=
  mapM (λ p : string * CursorRow * Urgency * list MessageRow,
          let '(s, cr, max, rows) := p in
          deadline ← match min_deadline (row_deadline <$> rows) with
                     | Some raw => d ← rust_expect (parse_rfc3339 raw) "malformed delivery_deadline";
                                   Returns (Some d)
                     | None => Returns None
                     end;
          Returns (mkDeliverable s (Some (cr_app_slug cr)) max deadline))
    (omap (λ p : string * CursorRow,
             let rows := filter (λ r, cr_next_owed_seq p.2 ≤ seq_of r) (retained_rows db u) in
             max ← max_urgency (row_urgency <$> rows);
             Some (p.1, p.2, max, rows))
       (channel_subscriber_cursors db u)).

(** *** Parked messages ([deferral.rs]) *)

(** [row_to_message_envelope] differs from [row_to_envelope] in refusing an unreadable time. *)
Definition row_to_message_envelope (db : Database) (r : MessageRow) : option (panics message) :=
  p ← row_to_envelope db r;
  Some (
    _ ← rust_assert (match row_deadline r with Some s => bool_decide (is_Some (parse_rfc3339 s)) | None => true end)
          "messaging: invalid rfc3339 in db";
    _ ← rust_assert (match row_deliver_after r with Some s => bool_decide (is_Some (parse_rfc3339 s)) | None => true end)
          "messaging: invalid rfc3339 in db";
    p).

Definition read_parked {A} (db : Database) (f : MessageRow → message → panics A) (rows : list MessageRow)
    : panics (list A) :=
  mapM (λ p : MessageRow * panics message, m ← p.2; f p.1 m)
    (omap (λ r, pair r <$> row_to_message_envelope db r) rows).

(** [parse_release]. *)
Definition parse_release (s : string) : panics DateTime :=
  rust_expect (parse_rfc3339 s) "messaging: malformed deliver_after in db".

(** [list_deferred_for_sender]. *)
Definition list_deferred_for_sender (db : Database) (u : Uuid) (sender : string)
    : panics (list (DeferredMessage Uuid DateTime)) :=
  read_parked db (λ r m, t ← parse_release (due_at r); Returns (mkParked t m))
    (filter (λ r, row_sender r = sender) (parked_rows db u)).

(** [list_deferred_senders]. *)
Definition list_deferred_senders (db : Database) (u : Uuid) (now : DateTime) : list string :=
  RingStore.dedup (merge_sort str_le
    (row_sender <$> filter (λ r, String.ltb (format_ts_for_db now) (due_at r) = true) (parked_rows db u))).

(** [count_deferred]. *)
Definition count_deferred (db : Database) (u : Uuid) : N := len (parked_rows db u).

(** [deferred_cap_refusal]. *)
Definition deferred_cap_refusal (db : Database) (u : Uuid) (cap : Depth) : option N :=
  match cap with
  | Unbounded => None
  | Bounded cap => if cap <=? count_deferred db u then Some cap else None
  end.

(** [lookup_deferred]: id, sender and release time. *)
Definition lookup_deferred (db : Database) (u id : Uuid) : option (panics (N * string * DateTime)) :=
  r ← head (filter (λ r, on_channel u r && is_parked r && bool_decide (row_uuid r = id) = true) (messages db));
  Some (t ← parse_release (due_at r); Returns (row_id r, row_sender r, t)).

(** The recheck both [delete_deferred] and [edit_deferred] open with. *)
Definition still_parked (db : Database) (u : Uuid) (id : N) (now : DateTime) : bool :=
  existsb (λ r, (row_id r =? id) && on_channel u r && is_parked r && String.ltb (format_ts_for_db now) (due_at r))
    (messages db).

(** [delete_deferred]. *)
Definition delete_deferred (db : Database) (u : Uuid) (id : N) (now : DateTime) : Database * bool :=
  if negb (still_parked db u id now) then (db, false)
  else (with_messages db (filter (λ r, row_id r ≠ id) (messages db)), true).

Definition with_body (r : MessageRow) (b : string) : MessageRow :=
  mkMessageRow (row_id r) (row_uuid r) (row_channel r) (row_source r) (row_sender r) b (row_urgency r)
    (row_reply_to r) (row_deadline r) (row_deliver_after r) (row_publish_ts_ns r) (row_envelope_type r)
    (row_retained_seq r) (row_impetus r).
Definition with_schedule (r : MessageRow) (at_ : option string) (s : option N) : MessageRow :=
  mkMessageRow (row_id r) (row_uuid r) (row_channel r) (row_source r) (row_sender r) (row_body r) (row_urgency r)
    (row_reply_to r) (row_deadline r) at_ (row_publish_ts_ns r) (row_envelope_type r) s (row_impetus r).

(** [UPDATE messaging_messages SET ... WHERE id = ?]. *)
Definition update_row (db : Database) (id : N) (f : MessageRow → MessageRow) : Database :=
  with_messages db ((λ r, if row_id r =? id then f r else r) <$> messages db).

(** [edit_deferred]. *)
Definition db_edit_deferred (db : Database) (u : Uuid) (id : N) (body : option string)
    (release_at : option DateTime) (now : DateTime) : Database * bool :=
  if negb (still_parked db u id now) then (db, false)
  else
    let db := match body with Some b => update_row db id (λ r, with_body r b) | None => db end in
    let db := match release_at with
              | Some t => update_row db id (λ r, with_schedule r (Some (format_ts_for_db t)) (row_retained_seq r))
              | None => db
              end in
    (db, true).

(** [earliest_channel_release]. *)
Definition earliest_channel_release (db : Database) (u : Uuid) : panics (option DateTime) :=
  match head (parked_rows db u) with
  | Some r => t ← parse_release (due_at r); Returns (Some t)
  | None => Returns None
  end.

Definition without_deliver_after (m : message) : message :=
  mkEnvelope (message_id m) (source m) (channel m) (env_sender m) (publish_ts m) (body m) (reply_to m)
    (delivery_deadline m) None (impetus m) (urgency m) (envelope_type m).

(** The second loop of [release_due_for_channel]: number each due row and clear its schedule. *)
Fixpoint release_rows (db : Database) (u : Uuid) (due : list (N * message)) (out : list (Ring.Retained message))
    : panics (Database * list (Ring.Retained message)) :=
  match due with
  | [] => Returns (db, out)
  | (id, m) :: due =>
      '(db, s) ← allocate_retained_seq db u;
      let db := update_row db id (λ r, with_schedule r None (Some s)) in
      release_rows db u due (out ++ [Ring.mkRetained s m])
  end.

(** [release_due_for_channel]. *)
Definition release_due_for_channel (db : Database) (u : Uuid) (now : DateTime)
    : panics (Database * list (Ring.Retained message)) :=
  due ← read_parked db (λ r m, Returns (row_id r, without_deliver_after m))
          (filter (λ r, str_le (due_at r) (format_ts_for_db now)) (parked_rows db u));
  release_rows db u due [].

(** *** Send budgets ([budget.rs]) *)

(** [reset_send_budget]. *)
Definition reset_send_budget (db : Database) (conv : Z) (budget : N) : Database :=
  with_budgets db (<[conv := budget]> (budgets db)).

(** [decrement_send_budget]. *)
Definition decrement_send_budget (db : Database) (conv : Z) (default_budget : N) : Database * BudgetDecrement :=
  let b := match budgets db !! conv with Some b => b | None => default_budget end in
  let db := with_budgets db (<[conv := b]> (budgets db)) in
  if 0 <? b then (with_budgets db (<[conv := b - 1]> (budgets db)), BudgetOk (b - 1))
  else (db, BudgetIsExhausted).

(** [refund_send_budget]. *)
Definition refund_send_budget (db : Database) (conv : Z) (default_budget : N) : Database :=
  match budgets db !! conv with
  | Some b => if b <? default_budget then with_budgets db (<[conv := b + 1]> (budgets db)) else db
  | None => db
  end.

(** [read_send_budget]. *)
Definition read_send_budget (db : Database) (conv : Z) : option N := budgets db !! conv.
End db.
Arguments Database Uuid {_ _}.
Arguments MessageRow Uuid : clear implicits.
Arguments ChannelRow Uuid : clear implicits.
Arguments BusGcEviction Uuid DateTime : clear implicits.
End Db.

(** ** The store ([store/db.rs]) *)

Module DbStore.
Import Envelope Directory Plane Retention Db.

(** [DbStore]. The epoch it caches is immutable for the row's lifetime, so reading the row
    each time answers the same. *)
Record DbStore (Uuid : Type) := mkDbStore {
  ds_channel_uuid : Uuid;
  ds_address : string;
  deferred_cap : Depth;
}.
Arguments mkDbStore {Uuid}.
Arguments ds_channel_uuid {Uuid}.
Arguments ds_address {Uuid}.
Arguments deferred_cap {Uuid}.

Section store.
Context {Uuid DateTime : Type} `{Countable Uuid, Chrono DateTime, ChronoSecs DateTime, ChronoOrd DateTime}.
Implicit Types (st : DbStore Uuid) (db : Database Uuid).

Abbreviation message := (MessageEnvelope Uuid DateTime).

(** [seq_column]. *)
Definition seq_column (s : N) : panics N :=
  _ ← rust_assert (s <=? i64_max) "messaging: retained_seq out of range"; Returns s.

(** [DbStore::frontier]. *)
Definition db_frontier st db : panics N := retention_frontier_or_next db (ds_channel_uuid st).

(** [DbStore::maintain_cursor]. *)
Definition maintain_cursor st db (s app_slug : string) (push_depth : Depth) (floor : option N)
    : panics (Database Uuid * Core.Attached) :=
  if negb (Directory.is_push_enabled push_depth)
  then Returns (delete_subscriber_cursor db (ds_channel_uuid st) s, Core.Existing)
  else
    tail ← primed_position db (ds_channel_uuid st) push_depth;
    primed ← match floor with
             | Some floor =>
                 head ← channel_last_retained_seq db (ds_channel_uuid st);
                 f ← seq_column floor;
                 _ ← rust_assert (f <=? head + 1) "messaging store: inherited floor is above the next seq";
                 Returns (N.max tail f)
             | None => Returns tail
             end;
    '(db, created) ← ensure_subscriber_cursor db (ds_channel_uuid st) s app_slug push_depth primed;
    Returns (db, match created with true => Core.Created | false => Core.Existing end).

(** [RetentionStore::attach], [attach_from] and [detach]. *)
Definition attach st db (s app_slug : string) (push_depth : Depth) : panics (Database Uuid * Core.Attached) :=
  maintain_cursor st db s app_slug push_depth None.
Definition attach_from st db (s app_slug : string) (push_depth : Depth) (floor : N)
    : panics (Database Uuid * Core.Attached) :=
  _ ← rust_assert (Directory.is_push_enabled push_depth) "messaging store: attach_from at a sampled push depth";
  maintain_cursor st db s app_slug push_depth (Some floor).
Definition detach st db (s : string) : Database Uuid * option N :=
  (delete_subscriber_cursor db (ds_channel_uuid st) s,
   cr_next_owed_seq <$> load_subscriber_cursor db (ds_channel_uuid st) s).

(** [RetentionStore::window]. *)
Definition window st db (s : string) (push_limit retain_limit : Depth)
    : panics (Database Uuid * option (SubscriberWindow message)) :=
  let read db next_owed :=
    let span := match push_limit, retain_limit with
                | Unbounded, _ | _, Unbounded => Unbounded
                | p, r => Bounded (N.max (depth_bound p) (depth_bound r))
                end in
    entries ← load_channel_retained_window_seq db (ds_channel_uuid st) span;
    Returns (db, Some (compose_window entries next_owed push_limit)) in
  match load_subscriber_cursor db (ds_channel_uuid st) s with
  | Some cr =>
      read (if Directory.is_push_enabled push_limit && negb (bool_decide (cr_push_depth cr = push_limit))
            then retune_subscriber_cursor_depth db (ds_channel_uuid st) s push_limit else db)
        (cr_next_owed_seq cr)
  | None =>
      if Directory.is_push_enabled push_limit then Returns (db, None)
      else n ← channel_last_retained_seq db (ds_channel_uuid st); read db (n + 1)
  end.

(** [RetentionStore::advance]. *)
Definition advance st db (s : string) (through seen_floor : N)
    : panics (Database Uuid * option Cursor.Advance) :=
  _ ← rust_assert (seen_floor <=? u64_saturating_add through 1)
        "messaging store: seen_floor is above the window it came from";
  match load_subscriber_cursor db (ds_channel_uuid st) s with
  | None => Returns (db, None)
  | Some cr =>
      let next_owed := cr_next_owed_seq cr in
      let dropped := u64_saturating_sub seen_floor next_owed in
      noise ← if dropped =? 0 then Returns 0
              else f ← db_frontier st db; Returns (u64_saturating_sub seen_floor (N.max next_owed f));
      db ← if next_owed <=? through
           then p ← seq_column (u64_add through 1);
                set_subscriber_cursor_position db (ds_channel_uuid st) s p
           else Returns db;
      Returns (db, Some (Cursor.mkAdvance dropped noise))
  end.

(** [RetentionStore::deliverable_subscribers], [has_deliverable]. *)
Definition deliverable_subscribers st db : panics (list (DeliverableSubscriber DateTime)) :=
  deliverable_cursor_subscribers db (ds_channel_uuid st).
Definition has_deliverable st db (s : string) : bool := cursor_has_deliverable db (ds_channel_uuid st) s.

(** The insert both [append] and [park] make. *)
Definition insert_new st db (fresh : Uuid) (msg : NewMessage Uuid DateTime) (deliver_after : option DateTime)
    : panics (Database Uuid * option N) :=
  insert_message db fresh (ds_channel_uuid st) (nm_source msg) (nm_sender msg) (nm_body msg) (nm_urgency msg)
    (nm_envelope_type msg) (target_uuid <$> nm_reply_to msg) (nm_delivery_deadline msg) deliver_after
    (nm_impetus msg) (nm_publish_ts_ns msg).

(** [RetentionStore::append]. *)
Definition append st db (fresh : Uuid) (msg : NewMessage Uuid DateTime)
    : panics (Database Uuid * AppendOutcome Uuid) :=
  '(db, inserted) ← insert_new st db fresh msg None;
  seq ← rust_expect inserted "messaging: an appended message is assigned a retained_seq";
  Returns (db, mkAppendOutcome (mkCommitted fresh seq) []).

(** [RetentionStore::park]. *)
Definition park st db (fresh : Uuid) (msg : NewMessage Uuid DateTime) (release_at : DateTime)
    : panics (Database Uuid * result Uuid Deferred.QuotaExceeded) :=
  match deferred_cap_refusal db (ds_channel_uuid st) (deferred_cap st) with
  | Some cap => Returns (db, Err (Deferred.mkQuotaExceeded cap))
  | None =>
      '(db, _) ← insert_new st db fresh msg (Some release_at);
      Returns (db, Ok fresh)
  end.

(** [RetentionStore::retained_tail]. *)
Definition retained_tail st db (limit : Depth) : panics (list message) :=
  rows ← load_channel_retained_tail db (ds_channel_uuid st) limit; Returns rows.*2.

(** [store_retained]. *)
Definition store_retained (p : N * message) : Ring.Retained message := Ring.mkRetained p.1 p.2.

(** [RetentionStore::replay_from]. *)
Definition replay_from st db (cursor : option (Ring.Resume Uuid)) (limit : Depth)
    : panics (Store.StoreReplay message Uuid) :=
  epoch ← channel_resume_epoch db (ds_channel_uuid st);
  let cap := narrowed_by (deferred_cap st) limit in
  let window decision :=
    rows ← load_channel_retained_window_seq db (ds_channel_uuid st) cap;
    Returns (Store.mkStoreReplay epoch (store_retained <$> rows) decision) in
  match cursor with
  | None => window Ring.Fresh
  | Some c =>
      if decide (Ring.resume_epoch c ≠ epoch) then window (Ring.Gap Ring.EpochChanged)
      else
        last_seq ← channel_last_retained_seq db (ds_channel_uuid st);
        if Ring.resume_seq c =? last_seq then Returns (Store.mkStoreReplay epoch [] Ring.UpToDate)
        else if last_seq <? Ring.resume_seq c then window (Ring.Gap Ring.ResumeAhead)
        else
          after ← seq_column (Ring.resume_seq c);
          let owed := last_seq - Ring.resume_seq c in
          let present := channel_retained_count_after_seq db (ds_channel_uuid st) after in
          let fits := match cap with Unbounded => true | Bounded cap => owed <=? cap end in
          if (present =? owed) && fits then
            rows ← load_channel_messages_after_seq db (ds_channel_uuid st) after cap;
            Returns (Store.mkStoreReplay epoch (store_retained <$> rows) Ring.Exact)
          else window (Ring.Gap Ring.BeyondRetained)
  end.

(** [RetentionStore::next_release], [release_due]. *)
Definition next_release st db : panics (option DateTime) := earliest_channel_release db (ds_channel_uuid st).
Definition release_due st db (now : DateTime) : panics (Database Uuid * ReleaseOutcome message) :=
  '(db, released) ← release_due_for_channel db (ds_channel_uuid st) now;
  Returns (db, mkReleaseOutcome released []).

(** [RetentionStore::deferred_for_sender], [deferred_senders], [deferred_len]. *)
Definition deferred_for_sender st db (sender : string) : panics (list (DeferredMessage Uuid DateTime)) :=
  list_deferred_for_sender db (ds_channel_uuid st) sender.
Definition deferred_senders st db (now : DateTime) : list string :=
  list_deferred_senders db (ds_channel_uuid st) now.
Definition deferred_len st db : N := count_deferred db (ds_channel_uuid st).

(** The checks [cancel_deferred] and [edit_deferred] share: the row id, or the answer. *)
Definition actionable st db (sender : string) (message_uuid : Uuid) (now : DateTime)
    : panics (result N (DeferralOutcome DateTime)) :=
  match lookup_deferred db (ds_channel_uuid st) message_uuid with
  | None => Returns (Err (NotDeferred None))
  | Some found =>
      '(id, owner, release_at) ← found;
      if negb (String.eqb owner sender) then Returns (Err WrongSender)
      else if negb (later release_at now) then Returns (Err (NotDeferred (Some release_at)))
      else Returns (Ok id)
  end.

(** [RetentionStore::cancel_deferred]. *)
Definition cancel_deferred st db (sender : string) (message_uuid : Uuid) (now : DateTime)
    : panics (Database Uuid * DeferralOutcome DateTime) :=
  r ← actionable st db sender message_uuid now;
  match r with
  | Err outcome => Returns (db, outcome)
  | Ok id =>
      let '(db, gone) := delete_deferred db (ds_channel_uuid st) id now in
      Returns (db, if gone then DeferralApplied else NotDeferred None)
  end.

(** [RetentionStore::edit_deferred]. *)
Definition edit_deferred st db (sender : string) (message_uuid : Uuid) (body : option string)
    (release_at : option DateTime) (now : DateTime) : panics (Database Uuid * DeferralOutcome DateTime) :=
  r ← actionable st db sender message_uuid now;
  match r with
  | Err outcome => Returns (db, outcome)
  | Ok id =>
      let '(db, applied) := db_edit_deferred db (ds_channel_uuid st) id body release_at now in
      Returns (db, if applied then DeferralApplied else NotDeferred None)
  end.
End store.
End DbStore.
