(* ===== verification/Durable.v ===== *)
(** * Theorems about the durable store

    [DbFacts] is the invariant of the tables: on every channel the retained positions are a
    dense run up to the allocator, a row is parked or retained and never both, and every
    cursor stands at or below the next position. [DbSim] relates a channel of the database to
    a channel core that never evicts on append: each store operation is the core's, and an
    eviction pass is a depth cut on it, so a durable channel keeps the same book of losses a
    non-durable one does. Stored times are text: the relation holds them to the years 0000 to
    9999, and [DurableProps] says what a release time outside them does. *)

From S2P Require Import Prelude Envelope Ring Cursor Deferred RingCore Directory Serve Session Retention Retaining DbStore.

#[local] Open Scope N_scope.
#[local] Open Scope list_scope.

Module DbFacts.
Import Envelope Directory Plane Retention Db DbStore.

Section facts.
Context {Uuid DateTime : Type}
  `{Countable Uuid, Chrono DateTime, ChronoSecs DateTime, ChronoOrd DateTime, !ChronoLine DateTime}.
Implicit Types (db : Database Uuid) (r : MessageRow Uuid) (u : Uuid).

(** *** The invariant *)

(** A stored time is the text of an instant RFC 3339 can spell. *)
Definition readable (s : string) : Prop := ∃ t : DateTime, four_digit_year t ∧ s = format_ts_for_db t.

Lemma readable_parses s : readable s → is_Some (parse_rfc3339 (DateTime := DateTime) s).
Proof. intros (t&Ht&->). unfold parse_rfc3339, format_ts_for_db. rewrite rfc3339_reads by done. by apply from_secs_total. Qed.

Record row_wf r : Prop := mkRowWf {
  rw_state : is_parked r = negb (is_retained r);
  rw_bus : ∃ s, row_envelope_type r = Bus s;
  rw_ts : (- 9223372036854775808 ≤ row_publish_ts_ns r ≤ 9223372036854775807)%Z;
  rw_deadline : from_option readable True (row_deadline r);
  rw_after : from_option readable True (row_deliver_after r);
}.

(** The retained positions of a channel are a dense run up to its allocator. *)
Definition dense db u (last : N) : Prop :=
  len (retained_rows db u) ≤ last ∧
  seq_of <$> retained_rows db u = run (last + 1 - len (retained_rows db u)) (length (retained_rows db u)).

Record db_wf db : Prop := mkDbWf {
  dw_ids : NoDup (row_id <$> messages db);
  dw_rows r u : r ∈ messages db → row_channel r = Some u → row_wf r ∧ is_Some (channels db !! u);
  dw_dense u c : channels db !! u = Some c → dense db u (ch_last_retained_seq c);
  dw_room u c : channels db !! u = Some c → ch_last_retained_seq c < i64_max;
  dw_cursors u s cr : cursors db !! (u, s) = Some cr →
    Directory.is_push_enabled (cr_push_depth cr) = true ∧
    ∃ c, channels db !! u = Some c ∧ 1 ≤ cr_next_owed_seq cr ≤ ch_last_retained_seq c + 1;
}.

(** *** Sorted reads *)

#[local] Instance seq_le_trans : Transitive (seq_le (Uuid := Uuid)).
Proof. unfold seq_le. intros ???. lia. Qed.
#[local] Instance seq_le_total : Total (seq_le (Uuid := Uuid)).
Proof. intros a b. unfold seq_le. lia. Qed.

Lemma run_sorted (l : list (MessageRow Uuid)) a :
  seq_of <$> l = run a (length l) → StronglySorted (λ x y, seq_of x < seq_of y) l.
Proof.
  revert a. induction l as [|r l IH]; intros a Hl; [constructor|].
  rewrite fmap_cons in Hl. cbn [length run] in Hl. injection Hl as Hr Hl.
  constructor; [by eapply IH|]. apply Forall_forall. intros x Hx.
  assert (Hs : seq_of x ∈ seq_of <$> l) by (by apply list_elem_of_fmap_2).
  rewrite Hl in Hs. apply elem_of_run in Hs. lia.
Qed.

Lemma sorted_weak (l : list (MessageRow Uuid)) :
  StronglySorted (λ x y, seq_of x < seq_of y) l → StronglySorted seq_le l.
Proof.
  induction 1 as [|r l _ IH Hr]; constructor; [done|]. eapply Forall_impl; [exact Hr|].
  unfold seq_le. simpl. lia.
Qed.

Lemma sorted_inj (l : list (MessageRow Uuid)) x y :
  StronglySorted (λ x y, seq_of x < seq_of y) l → x ∈ l → y ∈ l → seq_of x = seq_of y → x = y.
Proof.
  induction 1 as [|r l _ IH Hr]; [by intros ?%not_elem_of_nil|].
  rewrite Forall_forall in Hr. rewrite !elem_of_cons. intros [->|Hx] [->|Hy] Heq; try done.
  - specialize (Hr _ Hy). simpl in Hr. lia.
  - specialize (Hr _ Hx). simpl in Hr. lia.
  - by apply IH.
Qed.

(** The read of a channel's retention is the one ascending listing of its retained rows. *)
Lemma retained_rows_unique db u l a :
  l ≡ₚ filter (λ r, on_channel u r && is_retained r = true) (messages db) →
  seq_of <$> l = run a (length l) → retained_rows db u = l.
Proof.
  intros Hp Hl. pose proof (run_sorted l a Hl) as Hs. unfold retained_rows.
  apply (StronglySorted_unique_strong seq_le).
  - intros x y Hx Hy Hxy Hyx. rewrite merge_sort_Permutation, <-Hp in Hx.
    apply (sorted_inj l x y Hs Hx Hy). unfold seq_le in *. lia.
  - apply StronglySorted_merge_sort; apply _.
  - by apply sorted_weak.
  - by rewrite merge_sort_Permutation.
Qed.

Lemma retained_rows_perm db u :
  retained_rows db u ≡ₚ filter (λ r, on_channel u r && is_retained r = true) (messages db).
Proof. apply merge_sort_Permutation. Qed.

Lemma elem_of_retained db u r :
  r ∈ retained_rows db u ↔ r ∈ messages db ∧ row_channel r = Some u ∧ is_retained r = true.
Proof.
  rewrite retained_rows_perm, list_elem_of_filter. unfold on_channel.
  rewrite andb_true_iff, bool_decide_eq_true. naive_solver.
Qed.

Lemma retained_rows_ext db db' u :
  filter (λ r, on_channel u r && is_retained r = true) (messages db') =
    filter (λ r, on_channel u r && is_retained r = true) (messages db) →
  retained_rows db' u = retained_rows db u.
Proof. intros Heq. unfold retained_rows. by rewrite Heq. Qed.

(** *** Ids *)

Lemma max_ge (l : list N) x : x ∈ l → x ≤ foldr N.max 0 l.
Proof.
  induction l as [|y l IH]; simpl; [by intros ?%not_elem_of_nil|].
  rewrite elem_of_cons. intros [->|Hx]; [lia|]. apply IH in Hx. lia.
Qed.

Lemma next_row_id_fresh db : next_row_id db ∉ row_id <$> messages db.
Proof. intros Hin%max_ge. unfold next_row_id in Hin. lia. Qed.

Lemma id_inj db r r' :
  NoDup (row_id <$> messages db) → r ∈ messages db → r' ∈ messages db → row_id r = row_id r' → r = r'.
Proof.
  generalize (messages db). induction l as [|x l IH]; [by intros _ ?%not_elem_of_nil|].
  rewrite fmap_cons, NoDup_cons. intros [Hx Hnd]. rewrite !elem_of_cons.
  intros [->|Hr] [->|Hr'] Heq; try done.
  - exfalso. apply Hx. rewrite Heq. by apply list_elem_of_fmap_2.
  - exfalso. apply Hx. rewrite <-Heq. by apply list_elem_of_fmap_2.
  - by apply IH.
Qed.

Lemma NoDup_ids_filter (P : MessageRow Uuid → Prop) `{!∀ r, Decision (P r)} (l : list (MessageRow Uuid)) :
  NoDup (row_id <$> l) → NoDup (row_id <$> filter P l).
Proof.
  induction l as [|r l IH]; [done|]. rewrite fmap_cons. intros [Hr Hnd]%NoDup_cons.
  rewrite filter_cons. case_decide; [|by apply IH]. rewrite fmap_cons. constructor; [|by apply IH].
  intros (x&Hx&[_ Hin]%list_elem_of_filter)%list_elem_of_fmap. apply Hr. rewrite Hx. by apply list_elem_of_fmap_2.
Qed.

(** *** Reading back *)

(** The two databases name the channels alike. *)
Definition same_names db db' : Prop := ∀ u, ch_address <$> channels db' !! u = ch_address <$> channels db !! u.

Lemma row_to_envelope_names db db' r :
  same_names db db' → row_to_envelope (DateTime := DateTime) db' r = row_to_envelope db r.
Proof.
  intros Hn. unfold row_to_envelope. destruct (row_channel r) as [u|]; [|done]. cbn.
  pose proof (Hn u) as Hu. destruct (channels db' !! u) as [c'|], (channels db !! u) as [c|]; try done.
  simpl in *. injection Hu as Hu. rewrite Hu.
  destruct (row_reply_to r) as [v|]; [|done]. cbn. by rewrite Hn.
Qed.

Lemma row_reads db r u :
  row_wf r → row_channel r = Some u → is_Some (channels db !! u) →
  ∃ m, row_to_envelope (DateTime := DateTime) db r = Some (Returns m) ∧
       row_to_message_envelope db r = Some (Returns m) ∧
       message_id m = row_uuid r ∧ env_sender m = row_sender r ∧ body m = row_body r ∧
       urgency m = row_urgency r ∧ delivery_deadline m = row_deadline r ≫= parse_rfc3339 ∧
       deliver_after m = row_deliver_after r ≫= parse_rfc3339.
Proof.
  intros [Hst [sch Hb] Hts Hd Ha] Hu [c Hc]. unfold row_to_message_envelope, row_to_envelope.
  rewrite Hu. cbn. rewrite Hc. cbn. rewrite Hb. cbn. unfold ns_to_utc.
  destruct (from_ns_total _ Hts) as [t Ht]. rewrite Ht. cbn. eexists. split; [done|]. split; [|done].
  repeat f_equal.
  assert (Hread : ∀ o : option string, from_option readable True o →
    match o with Some s => bool_decide (is_Some (parse_rfc3339 (DateTime := DateTime) s)) | None => true end = true).
  { intros [s|] Ho; [|done]. by apply bool_decide_eq_true, readable_parses. }
  rewrite (Hread _ Hd). cbn. rewrite (Hread _ Ha). done.
Qed.

(** A query over rows that all read back. *)
Lemma read_rows_Returns {A} db (f : MessageRow Uuid → MessageEnvelope Uuid DateTime → panics A)
    (g : MessageRow Uuid → MessageEnvelope Uuid DateTime → A) rows ms :
  Forall2 (λ r m, row_to_envelope db r = Some (Returns m)) rows ms →
  (∀ r m, f r m = Returns (g r m)) →
  read_rows db f rows = Returns (zip_with g rows ms).
Proof.
  intros Hall Hf. unfold read_rows. induction Hall as [|r m rows ms Hr _ IH]; [done|].
  cbn [omap list_omap]. rewrite Hr. cbn. rewrite Hf. cbn. cbn in IH. by rewrite IH.
Qed.

Lemma read_parked_Returns {A} db (f : MessageRow Uuid → MessageEnvelope Uuid DateTime → panics A)
    (g : MessageRow Uuid → MessageEnvelope Uuid DateTime → A) rows ms :
  Forall2 (λ r m, row_to_message_envelope db r = Some (Returns m)) rows ms →
  Forall2 (λ r m, f r m = Returns (g r m)) rows ms →
  read_parked db f rows = Returns (zip_with g rows ms).
Proof.
  intros Hall Hf. unfold read_parked. revert Hf. induction Hall as [|r m rows ms Hr _ IH]; [done|].
  intros [Hrm Hf]%Forall2_cons_1. cbn [omap list_omap]. rewrite Hr. cbn. rewrite Hrm. cbn. cbn in IH.
  by rewrite IH.
Qed.

Lemma rows_read db rows u :
  db_wf db → Forall (λ r, r ∈ messages db ∧ row_channel r = Some u) rows →
  ∃ ms, Forall2 (λ r (m : MessageEnvelope Uuid DateTime), row_to_envelope db r = Some (Returns m)) rows ms ∧
        Forall2 (λ r (m : MessageEnvelope Uuid DateTime), row_to_message_envelope db r = Some (Returns m)) rows ms.
Proof.
  intros Hwf. induction 1 as [|r rows [Hin Hu] _ (ms&H1'&H2')]; [by exists []|].
  destruct (dw_rows _ Hwf r u Hin Hu) as [Hrow Hc].
  destruct (row_reads db r u Hrow Hu Hc) as (m&Hm&Hm'&_). exists (m :: ms). by split; constructor.
Qed.
End facts.
End DbFacts.

(** ** A channel of the database as a channel core *)

Module DbSim.
Import Envelope Directory Plane Retention Db DbStore DbFacts.

Section sim.
Context {Uuid DateTime : Type}
  `{Countable Uuid, Chrono DateTime, ChronoSecs DateTime, ChronoOrd DateTime, !ChronoLine DateTime}.
Implicit Types (db : Database Uuid) (r : MessageRow Uuid) (u : Uuid) (st : DbStore Uuid).

Abbreviation message := (MessageEnvelope Uuid DateTime).
Implicit Types (c : Core.RingCore message Uuid string).

Definition cur_of (cr : CursorRow) : Cursor.SubscriberCursor :=
  Cursor.mkCursor (cr_next_owed_seq cr) (depth_bound (cr_push_depth cr)).

Definition reads db r (e : Ring.Retained message) : Prop :=
  row_to_envelope db r = Some (Returns (Ring.message e)) ∧ Ring.seq e = seq_of r.

(** The channel's rows are what a core of unlimited depth, parking nothing, holds. *)
Record sim db u c : Prop := mkSim {
  sim_channel : ∃ ch, channels db !! u = Some ch ∧ Ring.epoch (Core.ring c) = ch_resume_epoch ch ∧
                      Ring.next_seq (Core.ring c) = ch_last_retained_seq ch + 1;
  sim_depth : Ring.depth (Core.ring c) = u64_max;
  sim_rows : Forall2 (reads db) (retained_rows db u) (Ring.entries (Core.ring c));
  sim_cursors s : Core.cursors c !! s = cur_of <$> cursors db !! (u, s);
  sim_deferred : Core.deferred c = Deferred.set_new (Some u64_max);
}.

(** *** Every well-formed channel is one *)

Lemma enabled_bound (d : Depth) : Directory.is_push_enabled d = (0 <? depth_bound d).
Proof. by destruct d as [[|]|]. Qed.

Lemma sim_seqs db u c :
  sim db u c → seq_of <$> retained_rows db u = Ring.seq <$> Ring.entries (Core.ring c).
Proof.
  intros Hs. pose proof (sim_rows _ _ _ Hs) as Hr. induction Hr as [|r e rs es [_ Hre] _ IH]; [done|].
  rewrite !fmap_cons, Hre. by f_equal.
Qed.

Lemma sim_len db u c : sim db u c → len (retained_rows db u) = len (Ring.entries (Core.ring c)).
Proof. intros Hs. unfold len. by rewrite (Forall2_length _ _ _ (sim_rows _ _ _ Hs)). Qed.

(** The channel's own cursors. *)
Definition own_cursors db u : gmap string Cursor.SubscriberCursor :=
  cur_of <$> default ∅ (map_curry (M1 := gmap Uuid) (M2 := gmap string) (cursors db) !! u).

Lemma lookup_own_cursors db u s : own_cursors db u !! s = cur_of <$> cursors db !! (u, s).
Proof.
  unfold own_cursors. rewrite lookup_fmap, <-lookup_map_curry.
  by destruct (map_curry (cursors db) !! u); simpl; rewrite ?lookup_empty.
Qed.

Lemma wf_sim db u ch :
  db_wf (DateTime := DateTime) db → channels db !! u = Some ch → ∃ c, sim db u c ∧ Core.wf c.
Proof.
  intros Hwf Hch. pose proof (dw_room _ Hwf _ _ Hch) as Hmax. destruct (rows_read db (retained_rows db u) u Hwf) as (ms&Hms&_).
  { apply Forall_forall. intros r (Hr&Hu&_)%elem_of_retained. done. }
  set (es := zip_with (λ r m, Ring.mkRetained (seq_of r) m) (retained_rows db u) ms).
  assert (Hrd : Forall2 (reads db) (retained_rows db u) es).
  { unfold es. induction Hms as [|r m rs ms Hm _ IH]; [constructor|]. constructor; [by split|done]. }
  pose proof (Forall2_length _ _ _ Hrd) as Hlen.
  assert (Hseq : Ring.seq <$> es = seq_of <$> retained_rows db u).
  { clear -Hrd. induction Hrd as [|r e rs es' [_ Hre] _ IH]; [done|]. rewrite !fmap_cons, Hre. by f_equal. }
  exists (Core.mkCore (Ring.mkRing (ch_resume_epoch ch) u64_max (ch_last_retained_seq ch + 1) es)
            (Deferred.set_new (Some u64_max)) (own_cursors db u)).
  destruct (dw_dense _ Hwf u ch Hch) as [Hle Hd]. unfold len in *.
  split; [split; simpl; [by exists ch|done|done|by apply lookup_own_cursors|done]|].
  split; simpl; [|apply Deferred.set_new_wf|done|].
  - unfold i64_max, u64_max in *. split; unfold len; simpl; [unfold u64_max; lia|lia| |unfold u64_max; lia].
    rewrite Hseq, Hd, Hlen. by f_equal.
  - intros s cur Hs. rewrite lookup_own_cursors in Hs.
    destruct (cursors db !! (u, s)) as [cr|] eqn:Hcr; simplify_eq/=.
    destruct (dw_cursors _ Hwf u s cr Hcr) as (Hp&ch'&Hch'&?). rewrite enabled_bound in Hp. apply N.ltb_lt in Hp.
    simplify_eq. split; [lia|done].
Qed.

(** *** and conversely *)

Definition rows_ok db : Prop :=
  NoDup (row_id <$> messages db) ∧
  (∀ r u, r ∈ messages db → row_channel r = Some u → row_wf (DateTime := DateTime) r ∧ is_Some (channels db !! u)) ∧
  (∀ u ch, channels db !! u = Some ch → ch_last_retained_seq ch < i64_max) ∧
  (∀ u s, is_Some (cursors db !! (u, s)) → is_Some (channels db !! u)).

Lemma wf_rows_ok db : db_wf (DateTime := DateTime) db → rows_ok db.
Proof.
  intros [Hi Hr _ Hm Hc]. split_and!; [done|done|done|]. intros u s [cr Hcr].
  destruct (Hc _ _ _ Hcr) as (_&ch&Hch&_). eauto.
Qed.

Lemma sim_wf db :
  rows_ok db → (∀ u ch, channels db !! u = Some ch → ∃ c, sim db u c ∧ Core.wf c) →
  db_wf (DateTime := DateTime) db.
Proof.
  intros (Hi&Hr&Hm&Hk) Hall. split; [done|done| |done|].
  - intros u ch Hch. destruct (Hall _ _ Hch) as (c&Hs&[Hrg _ _ _]).
    destruct (sim_channel _ _ _ Hs) as (ch'&Hch'&_&Hn). simplify_eq.
    pose proof (sim_len _ _ _ Hs) as Hl. pose proof (sim_seqs _ _ _ Hs) as Hq.
    destruct Hrg as [_ Hlt Hd _]. split; [lia|]. unfold len in *.
    rewrite Hq, Hd. f_equal; lia.
  - intros u s cr Hcr. destruct (Hk u s) as [ch Hch]; [by rewrite Hcr|].
    destruct (Hall _ _ Hch) as (c&Hs&[_ _ _ Hcur]).
    destruct (sim_channel _ _ _ Hs) as (ch'&Hch'&_&Hn). simplify_eq.
    pose proof (sim_cursors _ _ _ Hs s) as Hcs. rewrite Hcr in Hcs. apply Hcur in Hcs as [Hp Ho]. simpl in *.
    rewrite enabled_bound. split; [by apply N.ltb_lt|]. exists ch. split; [done|lia].
Qed.

(** A channel nothing of which changed. *)
Lemma sim_frame db db' u c :
  sim db u c → same_names db db' → channels db' !! u = channels db !! u →
  retained_rows db' u = retained_rows db u → (∀ s, cursors db' !! (u, s) = cursors db !! (u, s)) →
  sim db' u c.
Proof.
  intros [Hc Hd Hr Hcs Hdf] Hn Hu Hrows Hcur. split; try done.
  - by rewrite Hu.
  - rewrite Hrows. eapply Forall2_impl; [exact Hr|]. intros r e [? ?]. split; [|done].
    by rewrite (row_to_envelope_names db db').
  - intros s. by rewrite Hcur.
Qed.

(** *** Changing the message table *)

Lemma filter_update (P : MessageRow Uuid → bool) (f : MessageRow Uuid → MessageRow Uuid) id (l : list (MessageRow Uuid)) :
  (∀ r, r ∈ l → row_id r = id → P r = false ∧ P (f r) = false) →
  filter (λ r, P r = true) ((λ r, if row_id r =? id then f r else r) <$> l) = filter (λ r, P r = true) l.
Proof.
  induction l as [|r l IH]; intros Hf; [done|]. rewrite fmap_cons, !filter_cons.
  rewrite IH by (intros; apply Hf; [by right|done]).
  destruct (N.eqb_spec (row_id r) id) as [Hid|]; [|done].
  destruct (Hf r) as [-> ->]; [by left|done|]. done.
Qed.

Lemma filter_admit (P : MessageRow Uuid → bool) (f : MessageRow Uuid → MessageRow Uuid) (l : list (MessageRow Uuid)) r0 :
  NoDup (row_id <$> l) → r0 ∈ l → P r0 = false → P (f r0) = true →
  filter (λ r, P r = true) ((λ r, if row_id r =? row_id r0 then f r else r) <$> l) ≡ₚ
    filter (λ r, P r = true) l ++ [f r0].
Proof.
  intros Hnd (l1&l2&->)%list_elem_of_split Hp Hp'.
  assert (Hother : ∀ k : list (MessageRow Uuid), row_id r0 ∉ row_id <$> k →
    (λ r, if row_id r =? row_id r0 then f r else r) <$> k = k).
  { induction k as [|x k IH]; [done|]. rewrite !fmap_cons, not_elem_of_cons. intros [Hx Hk].
    rewrite IH by done. destruct (N.eqb_spec (row_id x) (row_id r0)); [congruence|done]. }
  rewrite !fmap_app, !fmap_cons. rewrite fmap_app, fmap_cons in Hnd. apply NoDup_app in Hnd as (_&H1'&[H2' _]%NoDup_cons).
  rewrite (Hother l1), (Hother l2), N.eqb_refl; [|done|intros Hin; by apply (H1' _ Hin), list_elem_of_here].
  rewrite !filter_app, !filter_cons, Hp, Hp'. simpl.
  rewrite <-(app_assoc (filter _ l1)). apply Permutation_app_head.
  apply Permutation_cons_append.
Qed.

(** One more retained row, numbered next. *)
Lemma retained_snoc db db' u r last :
  dense db u last → seq_of r = last + 1 →
  filter (λ r, on_channel u r && is_retained r = true) (messages db') ≡ₚ
    filter (λ r, on_channel u r && is_retained r = true) (messages db) ++ [r] →
  retained_rows db' u = retained_rows db u ++ [r].
Proof.
  intros [Hle Hd] Hr Hp. apply (retained_rows_unique _ _ _ (last + 1 - len (retained_rows db u))).
  - rewrite Hp. apply Permutation_app_tail. apply retained_rows_perm.
  - rewrite fmap_app, Hd, length_app. simpl. rewrite Nat.add_1_r, run_snoc. repeat f_equal.
    unfold len in *. lia.
Qed.
End sim.
End DbSim.

(** ** Runs of a durable channel *)

Module DbRun.
Import Envelope Directory Plane Retention Db DbStore DbFacts DbSim.

Section run.
Context {Uuid DateTime : Type}
  `{Countable Uuid, Chrono DateTime, ChronoSecs DateTime, ChronoOrd DateTime, !ChronoLine DateTime}.
Implicit Types (db : Database Uuid) (r : MessageRow Uuid) (u : Uuid) (st : DbStore Uuid).
Implicit Types (c : Core.RingCore (MessageEnvelope Uuid DateTime) Uuid string).

(** Every operation on a channel that changes the database. *)
Inductive db_op :=
| DAppend (fresh : Uuid) (msg : NewMessage Uuid DateTime)
| DPark (fresh : Uuid) (msg : NewMessage Uuid DateTime) (release_at : DateTime)
| DAttach (s slug : string) (push_depth : Depth)
| DAttachFrom (s slug : string) (push_depth : Depth) (floor : N)
| DDetach (s : string)
| DWindow (s : string) (push_limit retain_limit : Depth)
| DAdvance (s : string) (through seen_floor : N)
| DRelease (now : DateTime)
| DCancel (who : string) (id : Uuid) (now : DateTime)
| DEdit (who : string) (id : Uuid) (body : option string) (release_at : option DateTime) (now : DateTime)
| DCollect (scheme : ChannelScheme) (frontier : N) (sink : Sink) (archive_path : option string).

(** What an operation told: the losses it reported, the window it served, what an advance
    passed over, what it released. *)
Record told := mkTold {
  t_overflow : list OverflowEvent;
  t_window : option (SubscriberWindow (MessageEnvelope Uuid DateTime));
  t_advance : option Cursor.Advance;
  t_released : list (Ring.Retained (MessageEnvelope Uuid DateTime));
}.
Definition silent : told := mkTold [] None None [].

Definition db_step st db (op : db_op) : panics (Database Uuid * told) :=
  match op with
  | DAppend fresh msg => '(db, a) ← DbStore.append st db fresh msg; Returns (db, mkTold (ao_overflow a) None None [])
  | DPark fresh msg t => '(db, _) ← DbStore.park st db fresh msg t; Returns (db, silent)
  | DAttach s slug pd => '(db, _) ← DbStore.attach st db s slug pd; Returns (db, silent)
  | DAttachFrom s slug pd floor => '(db, _) ← DbStore.attach_from st db s slug pd floor; Returns (db, silent)
  | DDetach s => Returns ((DbStore.detach st db s).1, silent)
  | DWindow s pl rl => '(db, w) ← DbStore.window st db s pl rl; Returns (db, mkTold [] w None [])
  | DAdvance s through floor => '(db, a) ← DbStore.advance st db s through floor; Returns (db, mkTold [] None a [])
  | DRelease now => '(db, o) ← DbStore.release_due st db now; Returns (db, mkTold (ro_overflow o) None None (ro_released o))
  | DCancel who id now => '(db, _) ← DbStore.cancel_deferred st db who id now; Returns (db, silent)
  | DEdit who id b t now => '(db, _) ← DbStore.edit_deferred st db who id b t now; Returns (db, silent)
  | DCollect scheme frontier sink path =>
      '(db, e) ← bus_gc_evict_channel (DateTime := DateTime) db (ds_channel_uuid st) (ds_address st) scheme frontier sink path;
      Returns (db, mkTold (gc_overflow e) None None [])
  end.

(** The operation's preconditions, in the state it is asked in: among them, that a time it
    stores is one the table's text can spell. *)
Definition depth_fits (d : Depth) : Prop := depth_bound d ≤ u64_max.

Definition msg_ok db (fresh : Uuid) (msg : NewMessage Uuid DateTime) : Prop :=
  (fresh ∉ row_uuid <$> messages db) ∧
  (- 9223372036854775808 ≤ nm_publish_ts_ns msg ≤ 9223372036854775807)%Z ∧
  match nm_reply_to msg with Some t => is_Some (channels db !! target_uuid t) | None => True end ∧
  (nm_envelope_type msg = Brenn ∨ nm_delivery_deadline msg = None) ∧
  from_option four_digit_year True (nm_delivery_deadline msg).

Definition due_rows db u (now : DateTime) : list (MessageRow Uuid) :=
  filter (λ r, str_le (due_at r) (format_ts_for_db now)) (parked_rows db u).

Definition op_pre st db (ch : ChannelRow Uuid) (op : db_op) : Prop :=
  match op with
  | DAppend fresh msg => msg_ok db fresh msg ∧ ch_last_retained_seq ch + 1 < i64_max
  | DPark fresh msg t => msg_ok db fresh msg ∧ nm_envelope_type msg = Brenn ∧ four_digit_year t
  | DAttach _ _ pd => depth_fits pd
  | DAttachFrom _ _ pd floor =>
      depth_fits pd ∧ Directory.is_push_enabled pd = true ∧ 1 ≤ floor ≤ ch_last_retained_seq ch + 1
  | DWindow _ pl rl => depth_fits pl ∧ depth_fits rl
  | DAdvance _ through floor => floor ≤ through + 1 ∧ through ≤ ch_last_retained_seq ch
  | DRelease now => ch_last_retained_seq ch + len (due_rows db (ds_channel_uuid st) now) < i64_max
  | DEdit _ _ _ t _ => from_option four_digit_year True t
  | DCollect _ frontier sink path => frontier ≤ i64_max ∧ (sink = SinkArchive → is_Some path)
  | _ => True
  end.

Definition db_op_ok st db (op : db_op) : Prop :=
  match channels db !! ds_channel_uuid st with
  | None => False
  | Some ch => op_pre st db ch op
  end.

Lemma op_ok_at st db op ch :
  channels db !! ds_channel_uuid st = Some ch → op_pre st db ch op → db_op_ok st db op.
Proof. intros Hch. unfold db_op_ok. by rewrite Hch. Qed.

(** The envelope is the message handed in. *)
Definition carries (fresh : Uuid) (msg : NewMessage Uuid DateTime) (m : MessageEnvelope Uuid DateTime) : Prop :=
  message_id m = fresh ∧ source m = nm_source msg ∧ env_sender m = nm_sender msg ∧ body m = nm_body msg ∧
  urgency m = nm_urgency msg ∧ impetus m = nm_impetus msg ∧ envelope_type m = nm_envelope_type msg ∧
  deliver_after m = None.

(** What the operation is on the channel core [c]: the operations it runs there, and the
    answers the core gives to them. *)
Definition core_does c (op : db_op) (out : told)
    (ops : list (@CoreRun.core_op (MessageEnvelope Uuid DateTime) string)) : Prop :=
  match op with
  | DAppend fresh msg => ∃ m, ops = [CoreRun.OpAppend m] ∧ carries fresh msg m
  | DAttach s _ pd => ops = [CoreRun.OpAttach s (depth_bound pd)]
  | DAttachFrom s _ pd floor => ops = [CoreRun.OpAttachFrom s (depth_bound pd) floor]
  | DDetach s => ops = [CoreRun.OpDetach s]
  | DWindow s pl rl =>
      ops = [CoreRun.OpWindow s (depth_bound pl) (depth_bound rl)] ∧
      t_window out = RingStore.repack <$> (Core.core_window c s (depth_bound pl) (depth_bound rl)).2
  | DAdvance s through floor =>
      ops = [CoreRun.OpAdvance s through floor] ∧
      ∃ c', Core.core_advance c s through floor = Returns (c', t_advance out)
  | DRelease _ => ops = (λ e, CoreRun.OpAppend (Ring.message e)) <$> t_released out
  | DPark _ _ _ | DCancel _ _ _ | DEdit _ _ _ _ _ => ops = []
  | DCollect _ frontier _ _ => ops = [CoreRun.OpSetDepth frontier; CoreRun.OpSetDepth u64_max]
  end.

(** Where a channel's retention begins. *)
Definition table_frontier db u : N :=
  match channels db !! u with
  | Some ch => ch_last_retained_seq ch + 1 - len (retained_rows db u)
  | None => 0
  end.

(** What the operation told one subscriber. *)
Definition db_entry st db (s0 : string) (op : db_op) (out : told) : CoreRun.ledger :=
  match op with
  | DAdvance s through floor =>
      match t_advance out, cursors db !! (ds_channel_uuid st, s) with
      | Some a, Some cr =>
          if decide (s = s0)
          then CoreRun.mkLedger (through + 1 - N.max floor (cr_next_owed_seq cr)) (Cursor.dropped a) 0 (Cursor.noise_charge a)
                 (N.min (through + 1) (table_frontier db (ds_channel_uuid st)) - N.max floor (cr_next_owed_seq cr))
          else CoreRun.no_entry
      | _, _ => CoreRun.no_entry
      end
  | _ => CoreRun.eviction_entry (StoreRun.charged s0 (t_overflow out))
  end.

(** A step returns, keeps the tables well formed, is the core's own run with the same book,
    and is nothing to the other channels. *)
Definition stepped st db (op : db_op) : Prop :=
  ∃ db' out, db_step st db op = Returns (db', out) ∧ db_wf (DateTime := DateTime) db' ∧
    (∀ c s0, sim db (ds_channel_uuid st) c → Core.wf c →
       ∃ ops c', core_does c op out ops ∧ CoreRun.run_ok s0 c ops ∧ CoreRun.core_run s0 c ops = Returns (c', db_entry st db s0 op out) ∧
         Core.wf c' ∧ sim db' (ds_channel_uuid st) c') ∧
    (∀ u c, u ≠ ds_channel_uuid st → sim db u c → sim db' u c) ∧ same_names db db'.

(** Nothing of another channel changed. *)
Definition frame db db' u : Prop :=
  ∀ v, v ≠ u → channels db' !! v = channels db !! v ∧ retained_rows db' v = retained_rows db v ∧
               ∀ s, cursors db' !! (v, s) = cursors db !! (v, s).

Lemma frame_trans db1 db2 db3 u : frame db1 db2 u → frame db2 db3 u → frame db1 db3 u.
Proof.
  intros H1' H2' v Hv. destruct (H1' v Hv) as (E1&E2&E3), (H2' v Hv) as (E1'&E2'&E3').
  split_and!; [congruence..|]. intros s. by rewrite E3'.
Qed.

Lemma wf_after db db' u :
  db_wf (DateTime := DateTime) db → is_Some (channels db !! u) → rows_ok (DateTime := DateTime) db' →
  same_names db db' → frame db db' u →
  (∀ c, sim db u c → Core.wf c → ∃ c', Core.wf c' ∧ sim db' u c') →
  db_wf (DateTime := DateTime) db' ∧ (∀ v c, v ≠ u → sim db v c → sim db' v c).
Proof.
  intros Hwf [ch Hch] Hrows Hn Hframe Hcore.
  assert (Hother : ∀ v c, v ≠ u → sim db v c → sim db' v c).
  { intros v c Hne Hs. destruct (Hframe v Hne) as (?&?&?). by eapply sim_frame. }
  split; [|done]. apply sim_wf; [done|]. intros v ch' Hch'.
  destruct (decide (v = u)) as [->|Hne].
  - destruct (wf_sim db _ ch Hwf Hch) as (c&Hs&Hc). destruct (Hcore c Hs Hc) as (c'&?&?). by exists c'.
  - rewrite (proj1 (Hframe v Hne)) in Hch'. destruct (wf_sim db v ch' Hwf Hch') as (c&Hs&Hc).
    exists c. split; [by apply Hother|done].
Qed.

Lemma stepped_intro st db op db' out :
  db_wf (DateTime := DateTime) db → is_Some (channels db !! ds_channel_uuid st) →
  db_step st db op = Returns (db', out) → rows_ok (DateTime := DateTime) db' → same_names db db' →
  frame db db' (ds_channel_uuid st) →
  (∀ c s0, sim db (ds_channel_uuid st) c → Core.wf c →
     ∃ ops c', core_does c op out ops ∧ CoreRun.run_ok s0 c ops ∧ CoreRun.core_run s0 c ops = Returns (c', db_entry st db s0 op out) ∧
       Core.wf c' ∧ sim db' (ds_channel_uuid st) c') →
  stepped st db op.
Proof.
  intros Hwf Hch Hstep Hrows Hn Hframe Hcore. exists db', out. split; [done|].
  destruct (wf_after db db' (ds_channel_uuid st)) as [? ?]; try done.
  intros c Hs Hc. destruct (Hcore c "" Hs Hc) as (?&c'&_&_&_&?&?). by exists c'.
Qed.

(** An operation on what is parked alone. *)
Lemma table_quiet_stepped st db op l :
  db_wf (DateTime := DateTime) db → is_Some (channels db !! ds_channel_uuid st) →
  db_step st db op = Returns (with_messages db l, silent) → (∀ c, core_does c op silent []) →
  (∀ s0, db_entry st db s0 op silent = CoreRun.no_entry) →
  NoDup (row_id <$> l) →
  (∀ r u, r ∈ l → row_channel r = Some u → row_wf (DateTime := DateTime) r ∧ is_Some (channels db !! u)) →
  (∀ u, filter (λ r, on_channel u r && is_retained r = true) l =
        filter (λ r, on_channel u r && is_retained r = true) (messages db)) →
  stepped st db op.
Proof.
  intros Hwf Hch Hstep Hdoes He Hnd Hrw Hf. destruct (wf_rows_ok _ Hwf) as (_&_&Hm&Hk).
  assert (Hr : ∀ u, retained_rows (with_messages db l) u = retained_rows db u).
  { intros u. by apply retained_rows_ext. }
  eapply stepped_intro; [done|done|exact Hstep|by split_and!|done|done|].
  intros c s0 Hs Hc. exists [], c. rewrite He. split_and!; [done..|].
  by eapply sim_frame.
Qed.

(** An operation on one subscriber's cursor alone. *)
Lemma cursor_stepped st db op out s (o : option CursorRow) cop :
  db_wf (DateTime := DateTime) db → is_Some (channels db !! ds_channel_uuid st) →
  db_step st db op =
    Returns (with_cursors db (partial_alter (λ _, o) (ds_channel_uuid st, s) (cursors db)), out) →
  (∀ c, sim db (ds_channel_uuid st) c → Core.wf c → core_does c op out [cop]) →
  (∀ c s0, sim db (ds_channel_uuid st) c → Core.wf c →
     ∃ c', CoreRun.op_ok c cop ∧ CoreRun.core_step s0 c cop = Returns (c', db_entry st db s0 op out) ∧ Core.wf c' ∧
       Core.ring c' = Core.ring c ∧ Core.deferred c' = Core.deferred c ∧
       Core.cursors c' = partial_alter (λ _, cur_of <$> o) s (Core.cursors c)) →
  stepped st db op.
Proof.
  intros Hwf Hch Hstep Hdoes Hcore. destruct (wf_rows_ok _ Hwf) as (Hi&Hr&Hm&Hk).
  assert (Hne : ∀ u s', (u, s') ≠ (ds_channel_uuid st, s) →
    partial_alter (λ _, o) (ds_channel_uuid st, s) (cursors db) !! (u, s') = cursors db !! (u, s')).
  { intros u s' ?. by rewrite lookup_partial_alter_ne. }
  eapply stepped_intro; [done|done|exact Hstep| |done| |].
  - split_and!; try done. simpl. intros u s' Hs'.
    destruct (decide ((u, s') = (ds_channel_uuid st, s))) as [[= -> ->]|?]; [done|].
    rewrite Hne in Hs' by done. eauto.
  - intros u Hu. split; [done|]. split; [done|]. intros s'. simpl. apply Hne. congruence.
  - intros c s0 Hs Hc. destruct (Hcore c s0 Hs Hc) as (c'&Hop&Hc'&?&Hrg&Hdf&Hcs). exists [cop], c'.
    split_and!; [by apply Hdoes| | |done|].
    { cbn [CoreRun.run_ok]. by rewrite Hc'. }
    { cbn [CoreRun.core_run]. rewrite Hc'. simpl.
      by destruct (db_entry st db s0 op out); unfold CoreRun.add_ledger; simpl; rewrite !N.add_0_r. }
    destruct Hs as [Hsc Hsd Hsr Hscu Hsdf]. split; rewrite ?Hrg, ?Hdf; try done.
    intros s'. rewrite Hcs. simpl. destruct (decide (s' = s)) as [->|?].
    + by rewrite !lookup_partial_alter_eq.
    + rewrite !lookup_partial_alter_ne by congruence. apply Hscu.
Qed.

(** *** Reads *)

Lemma newest_rows_spec {A} (d : Depth) (l : list A) :
  depth_fits d → len l ≤ i64_max →
  newest_rows (depth_limit d) l = drop (N.to_nat (len l - depth_bound d)) l.
Proof.
  unfold depth_fits, len, i64_max. intros Hd Hl. destruct d as [n|]; simpl in *.
  - unfold newest_rows, i64_wrap. unfold u64_max in Hd.
    destruct (N.le_gt_cases n 9223372036854775807) as [Hn|Hn].
    + rewrite Z.mod_small by lia. replace (_ + _ - _)%Z with (Z.of_N n) by lia.
      destruct (Z.ltb_spec (Z.of_N n) 0); [lia|]. f_equal. lia.
    + replace (Z.of_N n + 9223372036854775808)%Z with
        ((Z.of_N n - 9223372036854775808) + 1 * 18446744073709551616)%Z by lia.
      rewrite Z.mod_add, Z.mod_small by lia.
      destruct (Z.ltb_spec (Z.of_N n - 9223372036854775808 - 9223372036854775808) 0); [|lia].
      replace (N.to_nat _) with O by lia. done.
  - unfold newest_rows. simpl. replace (N.to_nat _) with O; [done|]. unfold u64_max. lia.
Qed.

Lemma head_seqs (l : list (MessageRow Uuid)) : seq_of <$> head l = head (seq_of <$> l).
Proof. by destruct l. Qed.

Lemma head_run a n : head (run a n) = match n with O => None | _ => Some a end.
Proof. by destruct n. Qed.

(** The oldest of the newest [k] rows, and where a fresh cursor starts. *)
Lemma tail_floor db u ch d :
  db_wf (DateTime := DateTime) db → channels db !! u = Some ch → depth_fits d →
  default (ch_last_retained_seq ch + 1) (retained_tail_floor_seq db u d) =
    ch_last_retained_seq ch + 1 - N.min (depth_bound d) (len (retained_rows db u)).
Proof.
  intros Hwf Hch Hd. pose proof (dw_room _ Hwf _ _ Hch). destruct (dw_dense _ Hwf u ch Hch) as [Hle Hden].
  unfold retained_tail_floor_seq. rewrite newest_rows_spec by (done || lia).
  set (k := N.to_nat _). rewrite head_seqs, fmap_drop, Hden, drop_run, head_run.
  unfold len in *. destruct (_ - k)%nat eqn:Hk; simpl; lia.
Qed.

Lemma primed_position_Returns db u ch d :
  db_wf (DateTime := DateTime) db → channels db !! u = Some ch → depth_fits d →
  primed_position db u d =
    Returns (ch_last_retained_seq ch + 1 - N.min (depth_bound d) (len (retained_rows db u))).
Proof.
  intros Hwf Hch Hd. rewrite <-tail_floor by done. unfold primed_position, channel_last_retained_seq.
  by destruct (retained_tail_floor_seq db u d); rewrite ?Hch.
Qed.

Lemma frontier_Returns db u ch :
  db_wf (DateTime := DateTime) db → channels db !! u = Some ch →
  retention_frontier_or_next db u = Returns (ch_last_retained_seq ch + 1 - len (retained_rows db u)).
Proof.
  intros Hwf Hch. destruct (dw_dense _ Hwf u ch Hch) as [Hle Hden].
  unfold retention_frontier_or_next, channel_retention_frontier, channel_last_retained_seq.
  rewrite head_seqs, Hden, head_run, Hch. unfold len in *. destruct (length _) eqn:Hk; simpl; [|done].
  by rewrite N.sub_0_r.
Qed.

(** *** Cursor operations *)

Lemma sim_ring db u c ch :
  sim db u c → channels db !! u = Some ch →
  Ring.next_seq (Core.ring c) = ch_last_retained_seq ch + 1 ∧ len (Ring.entries (Core.ring c)) = len (retained_rows db u).
Proof.
  intros Hs Hch. destruct (sim_channel _ _ _ Hs) as (?&?&_&?). simplify_eq. split; [done|].
  symmetry. by apply sim_len.
Qed.

Lemma detach_stepped st db s :
  db_wf (DateTime := DateTime) db → db_op_ok st db (DDetach s) → stepped st db (DDetach s).
Proof.
  unfold db_op_ok. intros Hwf Hok. destruct (channels db !! ds_channel_uuid st) as [ch|] eqn:Hch; [|done].
  eapply (cursor_stepped _ _ _ _ s None); [done|by rewrite Hch|done|done|].
  intros c s0 Hs Hc. eexists. split; [done|]. split; [done|]. split; [|done].
  apply CoreRun.with_cursors_wf; [done|]. destruct Hc. by apply map_Forall_delete.
Qed.

Lemma enabled_attach (d : Depth) : (depth_bound d =? 0) = negb (Directory.is_push_enabled d).
Proof. by destruct d as [[|]|]. Qed.

Lemma attach_stepped st db s slug pd :
  db_wf (DateTime := DateTime) db → db_op_ok st db (DAttach s slug pd) → stepped st db (DAttach s slug pd).
Proof.
  unfold db_op_ok. intros Hwf Hok. destruct (channels db !! ds_channel_uuid st) as [ch|] eqn:Hch; [|done].
  pose proof (λ c, CoreRun.attach_wf c s (depth_bound pd)) as Hcw.
  destruct (Directory.is_push_enabled pd) eqn:Hpd.
  2:{ eapply (cursor_stepped _ _ _ silent s None); [done|by rewrite Hch| |done|].
      { cbn [db_step]. unfold DbStore.attach, maintain_cursor. by rewrite Hpd. }
      intros c s0 Hs Hc. eexists. split; [done|]. split; [done|]. split; [by apply Hcw|]. unfold Core.attach.
      by rewrite enabled_attach, Hpd. }
  pose proof (primed_position_Returns db _ ch pd Hwf Hch Hok) as Hprime.
  set (next := match cursors db !! (ds_channel_uuid st, s) with
               | Some cr => cr_next_owed_seq cr
               | None => ch_last_retained_seq ch + 1 - N.min (depth_bound pd) (len (retained_rows db (ds_channel_uuid st)))
               end).
  eapply (cursor_stepped _ _ _ silent s (Some (mkCursorRow slug pd next))); [done|by rewrite Hch| |done|].
  - cbn [db_step]. unfold DbStore.attach, maintain_cursor. rewrite Hpd, Hprime. simpl.
    unfold ensure_subscriber_cursor, load_subscriber_cursor. rewrite Hpd, Hch. unfold next.
    by destruct (cursors db !! _).
  - intros c s0 Hs Hc. eexists. split; [done|]. split; [done|]. split; [by apply Hcw|]. unfold Core.attach.
    rewrite enabled_attach, Hpd. simpl. rewrite (sim_cursors _ _ _ Hs). unfold next.
    destruct (cursors db !! _) as [cr|]; simpl; [done|]. split; [done|]. split; [done|].
    destruct (sim_ring _ _ _ _ Hs Hch) as [Hn Hl]. destruct Hc as [Hr _ _ _].
    unfold cur_of. simpl. rewrite <-Hn, <-Hl, <-CoreFacts.primed_next_owed by done. done.
Qed.

Lemma attach_from_stepped st db s slug pd floor :
  db_wf (DateTime := DateTime) db → db_op_ok st db (DAttachFrom s slug pd floor) →
  stepped st db (DAttachFrom s slug pd floor).
Proof.
  unfold db_op_ok. intros Hwf Hok. destruct (channels db !! ds_channel_uuid st) as [ch|] eqn:Hch; [|done].
  destruct Hok as (Hfits&Hpd&Hfloor). pose proof (dw_room _ Hwf _ _ Hch) as Hmax.
  pose proof (primed_position_Returns db _ ch pd Hwf Hch Hfits) as Hprime.
  set (prime := ch_last_retained_seq ch + 1 - N.min (depth_bound pd) (len (retained_rows db (ds_channel_uuid st)))) in *.
  set (next := match cursors db !! (ds_channel_uuid st, s) with
               | Some cr => cr_next_owed_seq cr
               | None => N.max prime floor
               end).
  eapply (cursor_stepped _ _ _ silent s (Some (mkCursorRow slug pd next))); [done|by rewrite Hch| |done|].
  - cbn [db_step]. unfold DbStore.attach_from, maintain_cursor. rewrite Hpd, Hprime. simpl.
    unfold channel_last_retained_seq, seq_column. rewrite Hch. simpl.
    destruct (N.leb_spec floor i64_max); [|unfold i64_max in *; lia]. simpl.
    destruct (N.leb_spec floor (ch_last_retained_seq ch + 1)); [|lia]. simpl.
    unfold ensure_subscriber_cursor, load_subscriber_cursor. rewrite Hpd, Hch. unfold next.
    by destruct (cursors db !! _).
  - intros c s0 Hs Hc. destruct (sim_ring _ _ _ _ Hs Hch) as [Hn Hl].
    rewrite enabled_bound in Hpd. pose proof Hpd as Hpos. apply N.ltb_lt in Hpos.
    destruct (CoreRun.attach_from_wf c s (depth_bound pd) floor) as (c'&a&Ha&Hc'); [done|done|lia|].
    exists c'. cbn [CoreRun.core_step]. rewrite Ha. split; [simpl; lia|]. split; [done|]. split; [done|].
    assert (Hp : Cursor.primed_at_least (Core.ring c) (depth_bound pd) floor =
                 cur_of (mkCursorRow slug pd (N.max prime floor))).
    { destruct Hc as [Hr _ _ _]. unfold Cursor.primed_at_least.
      by rewrite CoreFacts.primed_next_owed, Hn, Hl. }
    unfold Core.attach_from in Ha. rewrite Hpd, Hp in Ha. simpl in Ha.
    destruct (floor <=? _) in Ha; [|done]. simpl in Ha. rewrite (sim_cursors _ _ _ Hs) in Ha.
    unfold next. by destruct (cursors db !! _) as [cr|]; simpl in Ha; injection Ha as <- _.
Qed.

(** *** Serving *)

Definition plain (e : Ring.Retained (MessageEnvelope Uuid DateTime)) : N * MessageEnvelope Uuid DateTime :=
  (Ring.seq e, Ring.message e).

Lemma read_forall2 db (rows : list (MessageRow Uuid)) (es : list (Ring.Retained (MessageEnvelope Uuid DateTime))) :
  Forall2 (reads db) rows es →
  read_rows db (λ r m, Returns (seq_of r, m)) rows = Returns (plain <$> es).
Proof.
  intros Hr. rewrite (read_rows_Returns db _ (λ r m, (seq_of r, m)) _ (Ring.message <$> es)).
  - f_equal. induction Hr as [|r e rs es [_ He] _ IH]; [done|]. rewrite !fmap_cons. simpl.
    unfold plain at 1. rewrite He. f_equal. exact IH.
  - induction Hr as [|r e rs es [? _] _ IH]; [constructor|]. rewrite fmap_cons. by constructor.
  - done.
Qed.

Lemma read_window db u c k :
  sim db u c →
  read_rows db (λ r m, Returns (seq_of r, m)) (drop k (retained_rows db u)) =
    Returns (plain <$> drop k (Ring.entries (Core.ring c))).
Proof. intros Hs. apply read_forall2, Forall2_drop, Hs. Qed.

Definition span_of (pl rl : Depth) : Depth :=
  match pl, rl with
  | Unbounded, _ | _, Unbounded => Unbounded
  | p, r => Bounded (N.max (depth_bound p) (depth_bound r))
  end.

Lemma span_of_bound pl rl :
  depth_fits pl → depth_fits rl →
  depth_bound (span_of pl rl) = N.max (depth_bound pl) (depth_bound rl) ∧ depth_fits (span_of pl rl).
Proof. unfold depth_fits. destruct pl, rl; simpl; lia. Qed.

Lemma load_window db u c ch d :
  sim db u c → Core.wf c → db_wf (DateTime := DateTime) db → channels db !! u = Some ch → depth_fits d →
  load_channel_retained_window_seq db u d = Returns (plain <$> Ring.tail (Core.ring c) (depth_bound d)).
Proof.
  intros Hs [Hr _ _ _] Hwf Hch Hd. pose proof (dw_room _ Hwf _ _ Hch).
  destruct (dw_dense _ Hwf u ch Hch) as [Hle _]. unfold load_channel_retained_window_seq.
  rewrite newest_rows_spec by (done || lia). rewrite (read_window db u c) by done.
  by rewrite Cursor.tail_drop, (sim_len _ _ _ Hs).
Qed.

Lemma plain_seqs es : (plain <$> es).*1 = Ring.seq <$> es.
Proof. rewrite <-list_fmap_compose. done. Qed.

Lemma plain_span (es : list (Ring.Retained (MessageEnvelope Uuid DateTime))) nf en :
  sw_advance_span (mkSubscriberWindow (plain <$> es) nf en) = Cursor.advance_span (Cursor.mkWindow es nf en).
Proof.
  unfold sw_advance_span, Cursor.advance_span. simpl. destruct en; [|done]. simpl.
  rewrite fmap_last. by destruct (last es), es.
Qed.

Lemma sim_ring_fun db u c c' : sim db u c → sim db u c' → Core.ring c = Core.ring c'.
Proof.
  intros [(ch&Hch&He&Hn) Hd Hr _ _] [(ch'&Hch'&He'&Hn') Hd' Hr' _ _]. simplify_eq.
  assert (Hes : Ring.entries (Core.ring c) = Ring.entries (Core.ring c')).
  { revert Hr'. generalize (Ring.entries (Core.ring c')). clear -Hr.
    induction Hr as [|r e rs es [Hre Hse] _ IH]; intros es' Hr'.
    - by apply Forall2_nil_inv_l in Hr'.
    - apply Forall2_cons_inv_l in Hr' as (e'&es''&[Hre' Hse']&Hr'&->).
      rewrite Hre in Hre'. simplify_eq. f_equal; [|by apply IH].
      destruct e, e'. simpl in *. by simplify_eq. }
  destruct (Core.ring c), (Core.ring c'). simpl in *. congruence.
Qed.

Lemma filter_plain a b (es : list (Ring.Retained (MessageEnvelope Uuid DateTime))) :
  len (filter (λ e : N * _, a ≤ e.1 ∧ e.1 < b) (plain <$> es)) = len (filter (λ e, a ≤ Ring.seq e ∧ Ring.seq e < b) es).
Proof.
  unfold len. f_equal. induction es as [|e es IH]; [done|]. rewrite fmap_cons, !filter_cons. simpl.
  case_decide; simpl; congruence.
Qed.

Lemma unseen_plain next (es : list (Ring.Retained (MessageEnvelope Uuid DateTime))) :
  len (filter (λ e : N * _, next ≤ e.1) (plain <$> es)) = len (filter (λ e, next ≤ Ring.seq e) es).
Proof.
  unfold len. f_equal. induction es as [|e es IH]; [done|]. rewrite fmap_cons, !filter_cons. simpl.
  case_decide; simpl; congruence.
Qed.

(** The row a window leaves behind, and the window. *)
Definition retuned (cr : CursorRow) (pl : Depth) : CursorRow :=
  mkCursorRow (cr_app_slug cr) (if Directory.is_push_enabled pl then pl else cr_push_depth cr) (cr_next_owed_seq cr).

Definition with_cursor db u s (cr : option CursorRow) : Database Uuid :=
  with_cursors db (partial_alter (λ _, cr) (u, s) (cursors db)).

Lemma with_cursor_id db u s : with_cursor db u s (cursors db !! (u, s)) = db.
Proof. unfold with_cursor. rewrite partial_alter_self. by destruct db. Qed.

Lemma retuned_same cr pl :
  Directory.is_push_enabled pl && negb (bool_decide (cr_push_depth cr = pl)) = false → retuned cr pl = cr.
Proof.
  unfold retuned. destruct cr as [slug pd next]. simpl. destruct (Directory.is_push_enabled pl); [|done]. simpl.
  intros Heq%negb_false_iff%bool_decide_eq_true. by rewrite Heq.
Qed.

Lemma load_with_cursors db m u d :
  load_channel_retained_window_seq (DateTime := DateTime) (with_cursors db m) u d =
    load_channel_retained_window_seq db u d.
Proof. done. Qed.

Lemma window_Returns st db c ch s pl rl :
  sim db (ds_channel_uuid st) c → Core.wf c → db_wf (DateTime := DateTime) db →
  channels db !! ds_channel_uuid st = Some ch → depth_fits pl → depth_fits rl →
  DbStore.window st db s pl rl =
    Returns match cursors db !! (ds_channel_uuid st, s) with
            | Some cr =>
                (with_cursor db (ds_channel_uuid st) s (Some (retuned cr pl)),
                 Some (compose_window (plain <$> Ring.tail (Core.ring c) (N.max (depth_bound pl) (depth_bound rl)))
                         (cr_next_owed_seq cr) pl))
            | None =>
                (db, if Directory.is_push_enabled pl then None
                     else Some (compose_window (plain <$> Ring.tail (Core.ring c) (N.max (depth_bound pl) (depth_bound rl)))
                                  (ch_last_retained_seq ch + 1) pl))
            end.
Proof.
  intros Hs Hc Hwf Hch Hp Hr. destruct (span_of_bound pl rl Hp Hr) as [Hb Hf]. rewrite <-Hb.
  pose proof (load_window db _ c ch (span_of pl rl) Hs Hc Hwf Hch Hf) as Hw.
  unfold DbStore.window, load_subscriber_cursor. fold (span_of pl rl).
  destruct (cursors db !! (ds_channel_uuid st, s)) as [cr|] eqn:Hcr.
  - destruct (_ && _) eqn:Hre.
    + unfold retune_subscriber_cursor_depth. rewrite Hcr.
      apply andb_true_iff in Hre as [Hen _]. unfold retuned. rewrite Hen.
      rewrite load_with_cursors, Hw. done.
    + rewrite Hw. simpl. by rewrite retuned_same, <-Hcr, with_cursor_id.
  - destruct (Directory.is_push_enabled pl); [done|]. unfold channel_last_retained_seq. rewrite Hch. simpl.
    by rewrite Hw.
Qed.

(** Advancing over a span the channel has numbered. *)
Lemma advance_Returns st db s cr th f floor :
  cursors db !! (ds_channel_uuid st, s) = Some cr → retention_frontier_or_next db (ds_channel_uuid st) = Returns f →
  th < i64_max → floor ≤ th + 1 →
  DbStore.advance st db s th floor =
    Returns (with_cursor db (ds_channel_uuid st) s
               (Some (mkCursorRow (cr_app_slug cr) (cr_push_depth cr) (N.max (cr_next_owed_seq cr) (th + 1)))),
             Some (Cursor.mkAdvance (floor - cr_next_owed_seq cr) (floor - N.max (cr_next_owed_seq cr) f))).
Proof.
  intros Hcr Hf Hmax Hfl. unfold DbStore.advance, u64_saturating_add, i64_max in *.
  destruct (N.leb_spec floor (N.min (th + 1) u64_max)) as [_|]; [|unfold u64_max in *; lia]. simpl.
  unfold load_subscriber_cursor. rewrite Hcr. unfold u64_saturating_sub, db_frontier. rewrite Hf.
  assert (Hnoise : (if floor - cr_next_owed_seq cr =? 0 then Returns 0
                    else Returns (floor - N.max (cr_next_owed_seq cr) f)) =
                   Returns (floor - N.max (cr_next_owed_seq cr) f)).
  { destruct (N.eqb_spec (floor - cr_next_owed_seq cr) 0); [|done]. f_equal. lia. }
  cbn [mbind panics_bind]. rewrite Hnoise. cbn [mbind panics_bind].
  destruct (N.leb_spec (cr_next_owed_seq cr) th) as [Hle|Hgt].
  - unfold seq_column. rewrite u64_add_small by (unfold u64_max; lia). unfold i64_max.
    destruct (N.leb_spec (th + 1) 9223372036854775807); [|lia]. simpl.
    unfold set_subscriber_cursor_position. rewrite Hcr. rewrite (N.max_r _ (th + 1)) by lia. done.
  - rewrite (N.max_l _ (th + 1)) by lia. cbn.
    replace (mkCursorRow _ _ _) with cr by (by destruct cr). by rewrite <-Hcr, with_cursor_id.
Qed.

(** A window composed from rows is the core's. *)
Lemma compose_repack (cur : Cursor.SubscriberCursor) (r : Ring.RetainedRing (MessageEnvelope Uuid DateTime) Uuid) pl rl :
  compose_window (plain <$> Ring.tail r (N.max (depth_bound pl) (depth_bound rl))) (Cursor.next_owed cur) pl =
    RingStore.repack (Cursor.window cur r (depth_bound pl) (depth_bound rl)).
Proof. unfold compose_window, RingStore.repack, Cursor.window. cbn. by rewrite plain_seqs, enabled_bound. Qed.

Lemma compose_sampled (r : Ring.RetainedRing (MessageEnvelope Uuid DateTime) Uuid) next pl rl :
  Ring.wf r → Directory.is_push_enabled pl = false →
  compose_window (plain <$> Ring.tail r (N.max (depth_bound pl) (depth_bound rl))) next pl =
    RingStore.repack (Cursor.mkWindow (Ring.tail r (depth_bound rl)) (len (Ring.tail r (depth_bound rl))) false).
Proof.
  intros Hr Hp. rewrite (compose_repack (Cursor.mkCursor next 0)). rewrite enabled_bound in Hp. apply N.ltb_ge in Hp.
  replace (depth_bound pl) with 0 by lia. unfold RingStore.repack.
  rewrite Cursor.window_new_from by done. cbn. rewrite N.max_0_l. f_equal. lia.
Qed.

Lemma core_window_answer db c ch st s pl rl :
  sim db (ds_channel_uuid st) c → Core.wf c → channels db !! ds_channel_uuid st = Some ch →
  match cursors db !! (ds_channel_uuid st, s) with
  | Some cr =>
      Some (compose_window (plain <$> Ring.tail (Core.ring c) (N.max (depth_bound pl) (depth_bound rl))) (cr_next_owed_seq cr) pl)
  | None =>
      if Directory.is_push_enabled pl then None
      else Some (compose_window (plain <$> Ring.tail (Core.ring c) (N.max (depth_bound pl) (depth_bound rl))) (ch_last_retained_seq ch + 1) pl)
  end = RingStore.repack <$> (Core.core_window c s (depth_bound pl) (depth_bound rl)).2.
Proof.
  intros Hs [Hr _ _ _] Hch. unfold Core.core_window. rewrite (sim_cursors _ _ _ Hs).
  destruct (cursors db !! _) as [cr|]; cbn -[RingStore.repack compose_window].
  - f_equal. rewrite <-compose_repack. by destruct (0 <? _).
  - rewrite <-enabled_bound. destruct (Directory.is_push_enabled pl) eqn:Hp; [done|]. cbn -[RingStore.repack compose_window].
    f_equal. by apply compose_sampled.
Qed.

Lemma table_window_stepped st db s pl rl :
  db_wf (DateTime := DateTime) db → db_op_ok st db (DWindow s pl rl) → stepped st db (DWindow s pl rl).
Proof.
  unfold db_op_ok. intros Hwf Hok. destruct (channels db !! ds_channel_uuid st) as [ch|] eqn:Hch; [|done].
  destruct Hok as [Hp Hr]. destruct (wf_sim db _ ch Hwf Hch) as (c0&Hs0&Hc0).
  pose proof (window_Returns st db c0 ch s pl rl Hs0 Hc0 Hwf Hch Hp Hr) as Hw.
  pose proof (core_window_answer db c0 ch st s pl rl Hs0 Hc0 Hch) as Ha.
  set (row := (λ cr, retuned cr pl) <$> cursors db !! (ds_channel_uuid st, s)).
  assert (Hstep : DbStore.window st db s pl rl = Returns (with_cursor db (ds_channel_uuid st) s row,
    RingStore.repack <$> (Core.core_window c0 s (depth_bound pl) (depth_bound rl)).2)).
  { rewrite Hw, <-Ha. unfold row. destruct (cursors db !! _) as [cr|] eqn:Hcr; [done|]. cbn. by rewrite <-Hcr, with_cursor_id. }
  eapply (cursor_stepped _ _ _ _ s row); [done|by rewrite Hch| | |].
  - cbn [db_step]. rewrite Hstep. done.
  - intros c Hs Hc. split; [done|]. cbn [t_window]. rewrite <-Ha, <-(core_window_answer db c ch st s pl rl Hs Hc Hch).
    by rewrite (sim_ring_fun _ _ _ _ Hs Hs0).
  - intros c s0 Hs Hc. exists (Core.core_window c s (depth_bound pl) (depth_bound rl)).1.
    split; [done|]. split; [done|]. split; [by apply CoreRun.core_window_wf|].
    unfold Core.core_window, row. rewrite (sim_cursors _ _ _ Hs).
    destruct (cursors db !! _) as [cr|] eqn:Hcr; cbn.
    + split; [done|]. split; [done|]. unfold insert, map_insert. f_equal. f_equal. unfold cur_of, retuned. cbn.
      rewrite enabled_bound. by destruct (0 <? _).
    + assert (Hid : partial_alter (λ _, None) s (Core.cursors c) = Core.cursors c).
      { rewrite <-(partial_alter_self (Core.cursors c) s) at 2. by rewrite (sim_cursors _ _ _ Hs), Hcr. }
      rewrite Hid. by destruct (0 <? _).
Qed.

Lemma sim_frontier db u c : sim db u c → Core.wf c → Cursor.frontier (Core.ring c) = table_frontier db u.
Proof.
  intros Hs [Hr _ _ _]. unfold table_frontier. destruct (sim_channel _ _ _ Hs) as (ch&Hch&_&Hn).
  by rewrite Cursor.frontier_wf, Hch, Hn, (sim_len _ _ _ Hs).
Qed.

Lemma table_advance_stepped st db s th fl :
  db_wf (DateTime := DateTime) db → db_op_ok st db (DAdvance s th fl) → stepped st db (DAdvance s th fl).
Proof.
  unfold db_op_ok. intros Hwf Hok. destruct (channels db !! ds_channel_uuid st) as [ch|] eqn:Hch; [|done].
  destruct Hok as [Hfl Hth]. pose proof (dw_room _ Hwf _ _ Hch) as Hmax.
  pose proof (frontier_Returns db _ ch Hwf Hch) as Hf.
  assert (Htf : table_frontier db (ds_channel_uuid st) = ch_last_retained_seq ch + 1 - len (retained_rows db (ds_channel_uuid st)))
    by (unfold table_frontier; by rewrite Hch).
  rewrite <-Htf in Hf.
  assert (Hroom : ∀ c, sim db (ds_channel_uuid st) c → th < Ring.next_seq (Core.ring c)).
  { intros c Hs. destruct (sim_ring _ _ _ _ Hs Hch) as [-> _]. lia. }
  destruct (cursors db !! (ds_channel_uuid st, s)) as [cr|] eqn:Hcr.
  - eapply (cursor_stepped _ _ _ (mkTold [] None _ []) s (Some _)); [done|by rewrite Hch| | |].
    + cbn [db_step]. rewrite (advance_Returns st db s cr th _ fl Hcr Hf) by (done || lia). done.
    + intros c Hs Hc. split; [done|]. cbn [t_advance].
      rewrite (CoreRun.core_advance_spec c s th fl (cur_of cr)); [|done|done|by apply Hroom|by rewrite (sim_cursors _ _ _ Hs), Hcr].
      rewrite (sim_frontier _ _ _ Hs Hc). by eexists.
    + intros c s0 Hs Hc. assert (Hcur : Core.cursors c !! s = Some (cur_of cr)) by (by rewrite (sim_cursors _ _ _ Hs), Hcr).
      pose proof (Hroom c Hs) as Hn. destruct (CoreRun.core_advance_wf c s th fl Hc Hfl Hn) as (c'&r&Ha&Hc').
      exists c'. split; [done|]. cbn [CoreRun.core_step]. unfold CoreRun.advanced_entry. rewrite Ha. cbn [mbind panics_bind].
      rewrite (CoreRun.core_advance_spec c s th fl (cur_of cr)) in Ha by done. injection Ha as <- <-.
      rewrite Hcur. unfold db_entry, CoreRun.span_unseen, CoreRun.span_retired. cbn [t_advance]. rewrite Hcr, (sim_frontier _ _ _ Hs Hc).
      split; [done|]. split; [done|]. split; [done|]. done.
  - eapply (cursor_stepped _ _ _ (mkTold [] None None []) s None); [done|by rewrite Hch| | |].
    + cbn [db_step]. unfold DbStore.advance, load_subscriber_cursor, u64_saturating_add. rewrite Hcr.
      destruct (N.leb_spec fl (N.min (th + 1) u64_max)) as [_|]; [|unfold i64_max, u64_max in *; lia]. cbn.
      do 2 f_equal. rewrite <-Hcr. symmetry. apply with_cursor_id.
    + intros c Hs Hc. split; [done|]. unfold Core.core_advance. rewrite (sim_cursors _ _ _ Hs), Hcr. by eexists.
    + intros c s0 Hs Hc. assert (Hcur : Core.cursors c !! s = None) by (by rewrite (sim_cursors _ _ _ Hs), Hcr).
      exists c. cbn [CoreRun.core_step]. unfold CoreRun.advanced_entry, Core.core_advance. rewrite Hcur. cbn [mbind panics_bind].
      split; [split; [done|by apply Hroom]|]. unfold db_entry. cbn [t_advance]. split; [done|]. split; [done|].
      split; [done|]. split; [done|]. cbn. rewrite <-Hcur. by rewrite partial_alter_self.
Qed.

(** An advance books its span. *)
Lemma advance_entry_books st db s0 th fl cr db' out :
  cursors db !! (ds_channel_uuid st, s0) = Some cr → db_step st db (DAdvance s0 th fl) = Returns (db', out) →
  CoreRun.shown (db_entry st db s0 (DAdvance s0 th fl) out) = th + 1 - N.max fl (cr_next_owed_seq cr) ∧
  CoreRun.crossed (db_entry st db s0 (DAdvance s0 th fl) out) =
    N.min (th + 1) (table_frontier db (ds_channel_uuid st)) - N.max fl (cr_next_owed_seq cr).
Proof.
  intros Hcr. cbn [db_step]. unfold DbStore.advance, load_subscriber_cursor. rewrite Hcr.
  rewrite bind_Returns. intros ([d a]&Ha&[= <- <-]). unfold db_entry. cbn [t_advance].
  rewrite bind_Returns in Ha. destruct Ha as (_u&_&Ha). rewrite bind_Returns in Ha. destruct Ha as (n&_&Ha).
  rewrite bind_Returns in Ha. destruct Ha as (d'&_&[= <- <-]). rewrite Hcr, decide_True by done. done.
Qed.

(** *** Entering retention *)

Definition bumped (ch : ChannelRow Uuid) : ChannelRow Uuid :=
  mkChannelRow (ch_address ch) (ch_resume_epoch ch) (ch_last_retained_seq ch + 1).

Lemma bumped_names db db' u ch :
  channels db !! u = Some ch → channels db' = <[u := bumped ch]> (channels db) → same_names db db'.
Proof.
  intros Hch Heq v. rewrite Heq. destruct (decide (v = u)) as [->|?].
  - by rewrite lookup_insert_eq, Hch.
  - by rewrite lookup_insert_ne.
Qed.

Lemma names_known db db' u : same_names db db' → is_Some (channels db !! u) → is_Some (channels db' !! u).
Proof. intros Hn [ch Hch]. specialize (Hn u). rewrite Hch in Hn. by destruct (channels db' !! u). Qed.

(** A row retained under the next number is an append to the core, which loses nothing. *)
Lemma sim_append db db' u c ch r m :
  sim db u c → Core.wf c → channels db !! u = Some ch → ch_last_retained_seq ch + 1 < i64_max →
  channels db' = <[u := bumped ch]> (channels db) → cursors db' = cursors db →
  retained_rows db' u = retained_rows db u ++ [r] →
  row_to_envelope db' r = Some (Returns m) → seq_of r = ch_last_retained_seq ch + 1 →
  sim db' u (Core.core_append c m).1 ∧ Core.wf (Core.core_append c m).1 ∧
  Core.report_overflow (Core.core_append c m).2 = [].
Proof.
  intros Hs Hc Hch Hmax Hch' Hcu Hrows Hm Hr. destruct (sim_ring _ _ _ _ Hs Hch) as [Hn Hl].
  pose proof (bumped_names _ _ _ _ Hch Hch') as Hnames. pose proof Hc as [Hrg _ _ _].
  assert (Hroom : Ring.next_seq (Core.ring c) < u64_max) by (unfold i64_max, u64_max in *; lia).
  pose proof (CoreRun.core_append_wf c m Hc Hroom) as Hc'.
  assert (Hz : len (Ring.entries (Core.ring c)) + 1 - Ring.depth (Core.ring c) = 0).
  { rewrite (sim_depth _ _ _ Hs). destruct Hrg. lia. }
  destruct Hs as [(ch0&Hch0&He&_) Hd Hsr Hcs Hdf]. assert (ch0 = ch) as -> by congruence.
  rewrite Hd in Hz. unfold Core.core_append in Hc' |- *. rewrite Ring.append_spec in Hc' |- * by done.
  rewrite Hd, Hz in Hc' |- *. destruct (N.eqb_spec u64_max 0); [done|]. simpl in Hc' |- *.
  split; [|done]. split; simpl; try done.
  - exists (bumped ch). rewrite Hch', lookup_insert_eq. split; [done|]. split; [done|]. simpl. lia.
  - rewrite Hrows. rewrite drop_0. apply Forall2_app.
    + eapply Forall2_impl; [exact Hsr|]. intros x e [? ?]. split; [|done]. by rewrite (row_to_envelope_names db db').
    + constructor; [|constructor]. split; simpl; [done|lia].
  - intros s. by rewrite Hcu.
Qed.

(** The row an insert writes. *)
Definition new_row db (fresh u : Uuid) (msg : NewMessage Uuid DateTime) (after : option DateTime) (seq : option N)
    : MessageRow Uuid :=
  mkMessageRow (next_row_id db) fresh (Some u) (nm_source msg) (nm_sender msg) (nm_body msg) (nm_urgency msg)
    (target_uuid <$> nm_reply_to msg) (format_ts_for_db <$> nm_delivery_deadline msg) (format_ts_for_db <$> after)
    (nm_publish_ts_ns msg) (Bus (nm_envelope_type msg)) seq (nm_impetus msg).

Lemma stored_readable (t : DateTime) : four_digit_year t → readable (DateTime := DateTime) (format_ts_for_db t).
Proof. intros Ht. by exists t. Qed.

Lemma new_row_wf db fresh u msg after seq :
  (- 9223372036854775808 ≤ nm_publish_ts_ns msg ≤ 9223372036854775807)%Z →
  from_option four_digit_year True (nm_delivery_deadline msg) → from_option four_digit_year True after →
  bool_decide (is_Some after) = negb (bool_decide (is_Some seq)) →
  row_wf (DateTime := DateTime) (new_row db fresh u msg after seq).
Proof.
  intros Hts Hdl Haf Hst. split; simpl; [| by eexists|done| |].
  - unfold is_parked, is_retained. simpl. rewrite <-Hst. apply bool_decide_ext. by rewrite fmap_is_Some.
  - destruct (nm_delivery_deadline msg); simpl; [by apply stored_readable|done].
  - destruct after; simpl; [by apply stored_readable|done].
Qed.

(** The table's constraints hold of it. *)
Lemma new_row_admitted db db0 fresh u msg after seq ch :
  db_wf (DateTime := DateTime) db → channels db !! u = Some ch → msg_ok db fresh msg →
  messages db0 = messages db → same_names db db0 →
  (∀ n, seq = Some n → n = ch_last_retained_seq ch + 1) → (after = None ∨ nm_envelope_type msg = Brenn) →
  row_admitted db0 (new_row db0 fresh u msg after seq) = true.
Proof.
  intros Hwf Hch (Hfresh&_&Hreply&Htype&_) Hms Hn Hseq Hafter. unfold row_admitted. rewrite Hms.
  rewrite !andb_true_iff. split_and!.
  - apply forallb_forall. intros x Hx%list_elem_of_In. simpl. apply andb_true_iff. split.
    + apply negb_true_iff, bool_decide_eq_false. intros Heq. apply Hfresh. rewrite <-Heq. by apply list_elem_of_fmap_2.
    + destruct (is_retained x) eqn:Hrx; [|done]. simpl. destruct seq as [n|]; [|done]. simpl.
      case_bool_decide as Hcx; [|done]. simpl. apply negb_true_iff, N.eqb_neq. rewrite (Hseq n eq_refl). unfold seq_of at 2. simpl.
      assert (Hin : seq_of x ∈ seq_of <$> retained_rows db u) by (apply list_elem_of_fmap_2, elem_of_retained; done).
      destruct (dw_dense _ Hwf u ch Hch) as [Hle Hd]. rewrite Hd in Hin. apply elem_of_run in Hin. unfold len in *. lia.
  - simpl. apply orb_true_iff. destruct Htype as [->| ->]; [by left; rewrite bool_decide_true|].
    destruct Hafter as [->| ->]; [by right|by left; rewrite bool_decide_true].
  - simpl. apply bool_decide_eq_true. eapply names_known; [done|]. by rewrite Hch.
  - simpl. destruct (nm_reply_to msg); simpl; [|done]. apply bool_decide_eq_true. by eapply names_known.
Qed.

(** A row added to the table. *)
Lemma snoc_rows_ok db db0 r u :
  rows_ok (DateTime := DateTime) db → same_names db db0 → messages db0 = messages db → cursors db0 = cursors db →
  (∀ v ch, channels db0 !! v = Some ch → ch_last_retained_seq ch < i64_max) →
  row_id r = next_row_id db0 → row_channel r = Some u → row_wf (DateTime := DateTime) r → is_Some (channels db0 !! u) →
  rows_ok (DateTime := DateTime) (with_messages db0 (messages db0 ++ [r])).
Proof.
  intros (Hi&Hr&_&Hk) Hn Hms Hcu Hmax Hid Hu Hw Hch. split_and!; simpl.
  - rewrite fmap_app. apply NoDup_app. split_and!; [by rewrite Hms| |apply NoDup_singleton].
    intros x Hx Hx1%list_elem_of_singleton. subst x. rewrite Hid in Hx. by apply next_row_id_fresh in Hx.
  - rewrite Hms. intros x v [Hx|Hx%list_elem_of_singleton]%elem_of_app Hv.
    + destruct (Hr x v Hx Hv) as [? ?]. split; [done|by eapply names_known].
    + subst x. rewrite Hu in Hv. by simplify_eq.
  - done.
  - rewrite Hcu. intros v s Hs. eapply names_known; [done|]. eauto.
Qed.

Lemma insert_new_Returns st db db0 fresh msg after seq :
  row_admitted db0 (new_row db0 fresh (ds_channel_uuid st) msg after seq) = true →
  match after with
  | None => '(db1, n) ← allocate_retained_seq db (ds_channel_uuid st); Returns (db1, Some n)
  | Some _ => Returns (db, None)
  end = Returns (db0, seq) →
  insert_new st db fresh msg after =
    Returns (with_messages db0 (messages db0 ++ [new_row db0 fresh (ds_channel_uuid st) msg after seq]), seq).
Proof.
  intros Hadm Hal. unfold insert_new, insert_message. rewrite Hal. cbn [mbind panics_bind].
  unfold new_row in *. rewrite Hadm. done.
Qed.

Definition bump db u (ch : ChannelRow Uuid) : Database Uuid :=
  mkDb (<[u := bumped ch]> (channels db)) (messages db) (cursors db) (budgets db).

Lemma allocate_Returns db u ch :
  channels db !! u = Some ch → allocate_retained_seq db u = Returns (bump db u ch, ch_last_retained_seq ch + 1).
Proof. intros Hch. unfold allocate_retained_seq, allocate_retained_seqs. simpl. rewrite Hch. done. Qed.

Lemma table_append_stepped st db fresh msg :
  db_wf (DateTime := DateTime) db → db_op_ok st db (DAppend fresh msg) → stepped st db (DAppend fresh msg).
Proof.
  unfold db_op_ok. intros Hwf Hok. set (u := ds_channel_uuid st) in *.
  destruct (channels db !! u) as [ch|] eqn:Hch; [|done]. destruct Hok as [Hmsg Hmax].
  set (db0 := bump db u ch). set (r := new_row db0 fresh u msg None (Some (ch_last_retained_seq ch + 1))).
  assert (Hn : same_names db db0) by (by eapply bumped_names).
  pose proof Hmsg as (_&Hts&_&_&Hdl).
  assert (Hrw : row_wf (DateTime := DateTime) r) by (by apply new_row_wf).
  assert (Hk : is_Some (channels db0 !! u)) by (eapply names_known; [done|by rewrite Hch]).
  set (db' := with_messages db0 (messages db0 ++ [r])).
  assert (Hadm : row_admitted db0 r = true).
  { eapply new_row_admitted; try done; [|by left]. by intros ? [= <-]. }
  assert (Hstep : db_step st db (DAppend fresh msg) = Returns (db', silent)).
  { cbn [db_step]. unfold DbStore.append.
    rewrite (insert_new_Returns st db db0 fresh msg None (Some (ch_last_retained_seq ch + 1))); [done|done|].
    fold u. by rewrite (allocate_Returns db u ch). }
  destruct (row_reads db' r u Hrw eq_refl Hk) as (m&Hm&_&Hid&Hsd&Hb&Hur&_&Haf).
  assert (Hrows : retained_rows db' u = retained_rows db u ++ [r]).
  { apply (retained_snoc _ _ _ _ (ch_last_retained_seq ch)); [by apply (dw_dense _ Hwf)|done|].
    simpl. rewrite filter_app. cbn. unfold on_channel, is_retained. simpl. by rewrite !bool_decide_true. }
  eapply stepped_intro; [done|by exists ch|exact Hstep| |done| |].
  - eapply snoc_rows_ok; try done; [by apply wf_rows_ok|]. simpl. intros v ch'.
    destruct (decide (v = u)) as [->|?]; [rewrite lookup_insert_eq; intros [= <-]; done|].
    rewrite lookup_insert_ne by done. apply (dw_room _ Hwf).
  - intros v Hv. split; [simpl; by rewrite lookup_insert_ne|]. split; [|done].
    apply retained_rows_ext. simpl. rewrite filter_app, filter_cons_False, filter_nil, app_nil_r; [done|].
    unfold on_channel. simpl. rewrite bool_decide_false; [done|]. intros [= Heq]. by apply Hv.
  - intros c s0 Hs Hc. destruct (sim_append db db' u c ch r m Hs Hc Hch Hmax) as (Hs'&Hc'&Hov); try done.
    exists [CoreRun.OpAppend m], (Core.core_append c m).1. split_and!; [| | |done|done].
    + exists m. split; [done|]. unfold carries.
      revert Hm. unfold row_to_envelope. cbn [row_channel new_row r mbind option_bind].
      destruct (channels db' !! u); [|done]. cbn. unfold ns_to_utc.
      destruct (from_timestamp _ _); [|done]. cbn. intros [= <-]. done.
    + destruct (sim_ring _ _ _ _ Hs Hch) as [Hnx _]. cbn. rewrite Hnx. split; [unfold u64_max, i64_max in *; lia|].
      by destruct (Core.core_append c m).
    + cbn [CoreRun.core_run CoreRun.core_step]. destruct (Core.core_append c m) as [c' rep]. simpl in *.
      rewrite Hov. done.
Qed.

(** *** What is parked *)

Lemma with_messages_id db : with_messages db (messages db) = db.
Proof. by destruct db. Qed.

Lemma noop_stepped st db op :
  db_wf (DateTime := DateTime) db → is_Some (channels db !! ds_channel_uuid st) →
  db_step st db op = Returns (db, silent) → (∀ c, core_does c op silent []) →
  (∀ s0, db_entry st db s0 op silent = CoreRun.no_entry) → stepped st db op.
Proof.
  intros Hwf Hch Hstep ? ?. destruct (wf_rows_ok _ Hwf) as (?&?&_).
  apply (table_quiet_stepped st db op (messages db)); try done. by rewrite with_messages_id.
Qed.

(** What an admitted park leaves. *)
Lemma park_Returns st db ch fresh msg t :
  db_wf (DateTime := DateTime) db → channels db !! ds_channel_uuid st = Some ch → msg_ok db fresh msg →
  nm_envelope_type msg = Brenn → deferred_cap_refusal db (ds_channel_uuid st) (deferred_cap st) = None →
  DbStore.park st db fresh msg t =
    Returns (with_messages db (messages db ++ [new_row db fresh (ds_channel_uuid st) msg (Some t) None]), Ok fresh).
Proof.
  intros Hwf Hch Hmsg Hbr Hcap. unfold DbStore.park. rewrite Hcap.
  rewrite (insert_new_Returns st db db fresh msg (Some t) None); [done| |done].
  eapply new_row_admitted; try done. by right.
Qed.

Lemma table_park_stepped st db fresh msg t :
  db_wf (DateTime := DateTime) db → db_op_ok st db (DPark fresh msg t) → stepped st db (DPark fresh msg t).
Proof.
  unfold db_op_ok. intros Hwf Hok. set (u := ds_channel_uuid st) in *.
  destruct (channels db !! u) as [ch|] eqn:Hch; [|done]. destruct Hok as (Hmsg&Hbr&Ht).
  destruct (deferred_cap_refusal db u (deferred_cap st)) as [cap|] eqn:Hcap.
  { apply noop_stepped; [done|by exists ch| |done|done]. cbn [db_step]. unfold DbStore.park. fold u. by rewrite Hcap. }
  set (r := new_row db fresh u msg (Some t) None). pose proof Hmsg as (_&Hts&_&_&Hdl).
  destruct (snoc_rows_ok db db r u) as (Hnd&Hrw&_); try done.
  { by apply wf_rows_ok. }
  { apply (dw_room _ Hwf). }
  { by apply new_row_wf. }
  apply (table_quiet_stepped st db _ (messages db ++ [r])); [done|by exists ch| |done|done|done|done|].
  - cbn [db_step]. by rewrite (park_Returns st db ch).
  - intros v. rewrite filter_app, filter_cons_False, filter_nil, app_nil_r; [done|].
    by rewrite andb_comm.
Qed.

Lemma actionable_cases st db who id now :
  db_wf (DateTime := DateTime) db →
  (∃ o, DbStore.actionable st db who id now = Returns (Err o)) ∨
  (∃ r, DbStore.actionable st db who id now = Returns (Ok (row_id r)) ∧ r ∈ messages db ∧ is_retained r = false).
Proof.
  intros Hwf. unfold DbStore.actionable, lookup_deferred.
  destruct (head _) as [r|] eqn:Hh; cbn; [|by left; eexists].
  apply head_Some_elem_of in Hh. rewrite list_elem_of_filter, !andb_true_iff in Hh.
  destruct Hh as [[[Hon%bool_decide_eq_true Hpk] _] Hin].
  destruct (dw_rows _ Hwf r _ Hin Hon) as [[Hst _ _ _ Haf] _].
  unfold parse_release. unfold is_parked in Hpk. apply bool_decide_eq_true in Hpk as [z Hz].
  unfold due_at. rewrite Hz in Haf |- *. simpl in Haf |- *. apply readable_parses in Haf as [d Hd]. rewrite Hd. cbn.
  destruct (String.eqb _ _); [|by left; eexists]. destruct (later _ _); [|by left; eexists].
  right. exists r. split; [done|]. split; [done|]. rewrite <-(negb_involutive (is_retained r)), <-Hst.
  unfold is_parked. by rewrite Hz, bool_decide_true.
Qed.

(** The table after edits to one parked row: same retention, still well formed. *)
Definition table_ok db id (l : list (MessageRow Uuid)) : Prop :=
  NoDup (row_id <$> l) ∧
  (∀ r u, r ∈ l → row_channel r = Some u → row_wf (DateTime := DateTime) r ∧ is_Some (channels db !! u)) ∧
  (∀ u, filter (λ r, on_channel u r && is_retained r = true) l =
        filter (λ r, on_channel u r && is_retained r = true) (messages db)) ∧
  (∀ r, r ∈ l → row_id r = id → is_retained r = false).

Lemma table_ok_init db r :
  db_wf (DateTime := DateTime) db → r ∈ messages db → is_retained r = false → table_ok db (row_id r) (messages db).
Proof.
  intros Hwf Hin Hret. split_and!; [apply Hwf|apply (dw_rows _ Hwf)|done|]. intros x Hx Hid.
  by rewrite (id_inj db x r (dw_ids _ Hwf) Hx Hin Hid).
Qed.

Lemma table_ok_update db id l (f : MessageRow Uuid → MessageRow Uuid) :
  table_ok db id l →
  (∀ r, row_id (f r) = row_id r ∧ row_channel (f r) = row_channel r ∧ row_retained_seq (f r) = row_retained_seq r) →
  (∀ r u, r ∈ l → row_channel r = Some u → is_retained r = false → row_wf (DateTime := DateTime) r → row_wf (DateTime := DateTime) (f r)) →
  table_ok db id ((λ r, if row_id r =? id then f r else r) <$> l).
Proof.
  intros (Hnd&Hrw&Hf&Hp) Hsame Hwf.
  assert (Hret : ∀ r, is_retained (f r) = is_retained r).
  { intros r. unfold is_retained. by destruct (Hsame r) as (_&_&->). }
  split_and!.
  - replace (row_id <$> _) with (row_id <$> l); [done|]. rewrite <-list_fmap_compose. apply list_fmap_ext.
    intros _ r _. simpl. destruct (row_id r =? id); [|done]. by rewrite (proj1 (Hsame r)).
  - intros x u (r&->&Hr)%list_elem_of_fmap Hu. destruct (N.eqb_spec (row_id r) id) as [Hid|]; [|by apply Hrw].
    destruct (Hsame r) as (_&Hc&_). rewrite Hc in Hu. destruct (Hrw r u Hr Hu). split; [|done]. eauto.
  - intros u. rewrite <-Hf. apply (filter_update (λ r, on_channel u r && is_retained r)).
    intros r Hr Hid. rewrite Hret, (Hp r Hr Hid). by rewrite !andb_false_r.
  - intros x (r&->&Hr)%list_elem_of_fmap Hid. destruct (N.eqb_spec (row_id r) id); [|by apply Hp].
    rewrite Hret. by apply Hp.
Qed.

Lemma table_ok_delete db id l : table_ok db id l → table_ok db id (filter (λ r, row_id r ≠ id) l).
Proof.
  intros (Hnd&Hrw&Hf&Hp). split_and!.
  - by apply NoDup_ids_filter.
  - intros r u [_ Hr]%list_elem_of_filter. by apply Hrw.
  - intros u. rewrite <-Hf. clear -Hp. induction l as [|r l IH]; [done|].
    rewrite (filter_cons _ r). case_decide as Hid; rewrite !filter_cons.
    + rewrite IH; [done|]. intros; apply Hp; [by right|done].
    + rewrite IH by (intros; apply Hp; [by right|done]). rewrite (Hp r); [|by left|done].
      by rewrite andb_false_r.
  - intros r [_ Hr]%list_elem_of_filter. by apply Hp.
Qed.

Lemma table_stepped st db op id l :
  db_wf (DateTime := DateTime) db → is_Some (channels db !! ds_channel_uuid st) → table_ok db id l →
  db_step st db op = Returns (with_messages db l, silent) → (∀ c, core_does c op silent []) →
  (∀ s0, db_entry st db s0 op silent = CoreRun.no_entry) → stepped st db op.
Proof. intros Hwf Hch (?&?&?&_) ? ? ?. by apply (table_quiet_stepped st db op l). Qed.

Lemma ok_known st db op : db_op_ok st db op → is_Some (channels db !! ds_channel_uuid st).
Proof. unfold db_op_ok. by destruct (channels db !! ds_channel_uuid st). Qed.

Lemma table_cancel_stepped st db who id now :
  db_wf (DateTime := DateTime) db → db_op_ok st db (DCancel who id now) → stepped st db (DCancel who id now).
Proof.
  intros Hwf Hch%ok_known. destruct (actionable_cases st db who id now Hwf) as [(o&Ho)|(r&Hr&Hin&Hret)].
  { apply noop_stepped; try done. cbn [db_step]. unfold DbStore.cancel_deferred. by rewrite Ho. }
  destruct (still_parked db (ds_channel_uuid st) (row_id r) now) eqn:Hsp.
  - eapply table_stepped; [done|done|by apply table_ok_delete, (table_ok_init db r)| |done|done].
    cbn [db_step]. unfold DbStore.cancel_deferred, delete_deferred. rewrite Hr. simpl. by rewrite Hsp.
  - apply noop_stepped; try done. cbn [db_step]. unfold DbStore.cancel_deferred, delete_deferred.
    rewrite Hr. simpl. by rewrite Hsp.
Qed.

Lemma with_body_wf r b : row_wf (DateTime := DateTime) r → row_wf (DateTime := DateTime) (with_body r b).
Proof. intros []. by split. Qed.

Lemma rescheduled_wf r (t : DateTime) :
  four_digit_year t → is_retained r = false → row_wf (DateTime := DateTime) r →
  row_wf (DateTime := DateTime) (with_schedule r (Some (format_ts_for_db t)) (row_retained_seq r)).
Proof.
  intros Ht Hret [Hst Hb Hts Hd Ha]. split; try done; simpl; [|by apply stored_readable].
  unfold is_retained in *. simpl. by rewrite Hret.
Qed.

Lemma table_edit_stepped st db who id b t now :
  db_wf (DateTime := DateTime) db → db_op_ok st db (DEdit who id b t now) → stepped st db (DEdit who id b t now).
Proof.
  intros Hwf Hop. pose proof (ok_known _ _ _ Hop) as Hch.
  assert (Hyear : from_option four_digit_year True t) by (unfold db_op_ok in Hop; by destruct (channels db !! _)).
  destruct (actionable_cases st db who id now Hwf) as [(o&Ho)|(r&Hr&Hin&Hret)].
  { apply noop_stepped; try done. cbn [db_step]. unfold DbStore.edit_deferred. by rewrite Ho. }
  destruct (still_parked db (ds_channel_uuid st) (row_id r) now) eqn:Hsp.
  2:{ apply noop_stepped; try done. cbn [db_step]. unfold DbStore.edit_deferred, db_edit_deferred.
      rewrite Hr. simpl. by rewrite Hsp. }
  set (db1 := match b with Some b => update_row db (row_id r) (λ r, with_body r b) | None => db end).
  set (db2 := match t with
              | Some t => update_row db1 (row_id r) (λ r, with_schedule r (Some (format_ts_for_db t)) (row_retained_seq r))
              | None => db1
              end).
  assert (H1' : table_ok db (row_id r) (messages db1) ∧ db1 = with_messages db (messages db1)).
  { pose proof (table_ok_init db r Hwf Hin Hret). unfold db1. destruct b as [b|]; [|by rewrite with_messages_id].
    split; [|done]. apply table_ok_update; [done|done|]. intros. by apply with_body_wf. }
  assert (H2' : table_ok db (row_id r) (messages db2) ∧ db2 = with_messages db (messages db2)).
  { unfold db2. destruct t as [t|]; [|done]. destruct H1' as [Ht Heq]. split; [|by rewrite Heq].
    apply table_ok_update; [done|done|]. intros. by apply rescheduled_wf. }
  destruct H2' as [Ht Heq]. eapply table_stepped; [done|done|exact Ht| |done|done].
  cbn [db_step]. unfold DbStore.edit_deferred, db_edit_deferred. rewrite Hr. simpl. rewrite Hsp. simpl.
  fold db1. fold db2. by rewrite Heq.
Qed.

(** *** Releasing *)

Definition retained_as (s : N) (r : MessageRow Uuid) : MessageRow Uuid := with_schedule r None (Some s).

Definition number db u ch (id : N) : Database Uuid :=
  update_row (bump db u ch) id (retained_as (ch_last_retained_seq ch + 1)).

(** A parked row of the channel, and what it reads as once released. *)
Definition parked_as db u (id : N) (m : MessageEnvelope Uuid DateTime) : Prop :=
  ∃ r m0, r ∈ messages db ∧ row_id r = id ∧ row_channel r = Some u ∧ is_retained r = false ∧
    row_to_envelope db r = Some (Returns m0) ∧ m = without_deliver_after m0.

Lemma number_rows_ok db u ch r :
  db_wf (DateTime := DateTime) db → channels db !! u = Some ch → ch_last_retained_seq ch + 1 < i64_max →
  r ∈ messages db → row_channel r = Some u → rows_ok (DateTime := DateTime) (number db u ch (row_id r)).
Proof.
  intros Hwf Hch Hmax Hin Hu. destruct (wf_rows_ok _ Hwf) as (Hnd&Hrw&Hm&Hk).
  assert (Hn : same_names db (bump db u ch)) by (by eapply bumped_names).
  split_and!; simpl.
  - replace (row_id <$> _) with (row_id <$> messages db); [done|]. rewrite <-list_fmap_compose. apply list_fmap_ext.
    intros _ x _. simpl. by destruct (row_id x =? row_id r).
  - intros y v (x&->&Hx)%list_elem_of_fmap Hv. destruct (N.eqb_spec (row_id x) (row_id r)) as [Hid|].
    + destruct (Hrw x v Hx Hv) as [[_ Hb Hts Hd _] Hkv]. split; [by split|by apply (names_known db (bump db u ch))].
    + destruct (Hrw x v Hx Hv) as [? ?]. split; [done|by apply (names_known db (bump db u ch))].
  - intros v ch'. destruct (decide (v = u)) as [->|?]; [rewrite lookup_insert_eq; intros [= <-]; done|].
    rewrite lookup_insert_ne by done. apply Hm.
  - intros v s Hs. eapply (names_known db (bump db u ch)); [done|]. eauto.
Qed.

Lemma number_rows db u ch r :
  db_wf (DateTime := DateTime) db → channels db !! u = Some ch →
  r ∈ messages db → row_channel r = Some u → is_retained r = false →
  retained_rows (number db u ch (row_id r)) u =
    retained_rows db u ++ [retained_as (ch_last_retained_seq ch + 1) r] ∧
  (∀ v, v ≠ u → retained_rows (number db u ch (row_id r)) v = retained_rows db v).
Proof.
  intros Hwf Hch Hin Hu Hret. split.
  - apply (retained_snoc _ _ _ _ (ch_last_retained_seq ch)); [by apply (dw_dense _ Hwf)|done|].
    apply (filter_admit (λ r, on_channel u r && is_retained r)); [apply Hwf|done|by rewrite Hret, andb_false_r|].
    unfold on_channel, is_retained. simpl. by rewrite Hu, !bool_decide_true.
  - intros v Hv. apply retained_rows_ext. apply (filter_update (λ r, on_channel v r && is_retained r)).
    intros x Hx Hid. apply (id_inj db x r (dw_ids _ Hwf) Hx Hin) in Hid as ->.
    unfold on_channel. simpl. rewrite Hu. rewrite bool_decide_false by congruence. done.
Qed.

Lemma number_one db u ch id m :
  db_wf (DateTime := DateTime) db → channels db !! u = Some ch → ch_last_retained_seq ch + 1 < i64_max →
  parked_as db u id m →
  let db' := number db u ch id in
  db_wf (DateTime := DateTime) db' ∧ same_names db db' ∧ frame db db' u ∧
  (∀ c, sim db u c → Core.wf c →
     sim db' u (Core.core_append c m).1 ∧ Core.wf (Core.core_append c m).1 ∧
     Core.report_overflow (Core.core_append c m).2 = []) ∧
  (∀ id' m', id' ≠ id → parked_as db u id' m' → parked_as db' u id' m').
Proof.
  intros Hwf Hch Hmax (r&m0&Hin&<-&Hu&Hret&Hm0&->) db'.
  assert (Hn : same_names db db') by (by eapply bumped_names).
  destruct (number_rows db u ch r Hwf Hch Hin Hu Hret) as [Hrows Hothers].
  assert (Hf : frame db db' u).
  { intros v Hv. split; [simpl; by rewrite lookup_insert_ne|]. split; [by apply Hothers|done]. }
  assert (Hrd : row_to_envelope db' (retained_as (ch_last_retained_seq ch + 1) r) = Some (Returns (without_deliver_after m0))).
  { rewrite (row_to_envelope_names db db') by done. revert Hm0. unfold row_to_envelope, retained_as. cbn.
    rewrite Hu. cbn. rewrite Hch. cbn. destruct (row_envelope_type r); [|done]. cbn.
    unfold ns_to_utc. destruct (from_timestamp _ _); [|done]. cbn. by intros [= <-]. }
  assert (Hcore : ∀ c, sim db u c → Core.wf c →
    sim db' u (Core.core_append c (without_deliver_after m0)).1 ∧ Core.wf (Core.core_append c (without_deliver_after m0)).1 ∧
    Core.report_overflow (Core.core_append c (without_deliver_after m0)).2 = []).
  { intros c Hs Hc. by eapply (sim_append db db' u c ch). }
  destruct (wf_after db db' u) as [Hwf' _]; try done.
  { by apply number_rows_ok. }
  { intros c Hs Hc. destruct (Hcore c Hs Hc) as (?&?&_). by eexists. }
  split_and!; try done. intros id' m' Hne (r'&m1&Hin'&Hid'&Hu'&Hret'&Hm1&->). exists r', m1.
  split_and!; try done; [|by rewrite (row_to_envelope_names db db')].
  simpl. apply list_elem_of_fmap. exists r'. split; [|done]. by destruct (N.eqb_spec (row_id r') (row_id r)); [congruence|].
Qed.

Lemma names_trans db1 db2 db3 : same_names db1 db2 → same_names db2 db3 → same_names db1 db3.
Proof. intros H1' H2' u. by rewrite H2'. Qed.

Lemma release_rows_spec db u ch due out :
  db_wf (DateTime := DateTime) db → channels db !! u = Some ch → ch_last_retained_seq ch + len due < i64_max →
  NoDup due.*1 → Forall (λ p, parked_as db u p.1 p.2) due →
  ∃ db' es, release_rows db u due out = Returns (db', out ++ es) ∧ db_wf (DateTime := DateTime) db' ∧
    same_names db db' ∧ frame db db' u ∧ Ring.message <$> es = due.*2 ∧
    ∀ c s0, sim db u c → Core.wf c →
      ∃ c', CoreRun.run_ok s0 c ((λ e, CoreRun.OpAppend (Ring.message e)) <$> es) ∧
        CoreRun.core_run s0 c ((λ e, CoreRun.OpAppend (Ring.message e)) <$> es) = Returns (c', CoreRun.no_entry) ∧
        Core.wf c' ∧ sim db' u c'.
Proof.
  revert db ch out. induction due as [|[id m] due IH]; intros db ch out Hwf Hch Hmax Hnd Hall.
  { exists db, []. rewrite app_nil_r. split_and!; [done|done|done|done|done|]. intros c s0 Hs Hc. by exists c. }
  rewrite len_cons in Hmax. rewrite fmap_cons in Hnd. apply NoDup_cons in Hnd as [Hid Hnd].
  apply Forall_cons in Hall as [Hp Hall].
  destruct (number_one db u ch id m Hwf Hch) as (Hwf1&Hn1&Hf1&Hc1&Hp1); [lia|done|].
  set (db1 := number db u ch id) in *. set (e := Ring.mkRetained (ch_last_retained_seq ch + 1) m).
  destruct (IH db1 (bumped ch) (out ++ [e])) as (db'&es&Hr&Hwf'&Hn'&Hf'&Hes&Hc'); try done.
  { simpl. by rewrite lookup_insert_eq. }
  { simpl. lia. }
  { apply Forall_forall. intros [id' m'] Hin. rewrite Forall_forall in Hall. apply Hp1; [|by apply (Hall _ Hin)].
    simpl. intros ->. apply Hid. by apply (list_elem_of_fmap_2 fst _ (id, m')). }
  exists db', (e :: es). split_and!; [| done|by eapply names_trans|by eapply frame_trans|by rewrite fmap_cons, Hes|].
  { cbn [release_rows]. rewrite (allocate_Returns db u ch) by done. cbn [mbind panics_bind].
    etrans; [exact Hr|by rewrite <-app_assoc]. }
  intros c s0 Hs Hc. destruct (Hc1 c Hs Hc) as (Hs1&Hcw1&Hov). rewrite fmap_cons.
  destruct (sim_ring _ _ _ _ Hs Hch) as [Hnx _].
  cbn [CoreRun.core_run CoreRun.run_ok CoreRun.op_ok CoreRun.core_step Ring.message e].
  destruct (Core.core_append c m) as [c1 rep]. simpl in *. rewrite Hov.
  destruct (Hc' c1 s0 Hs1 Hcw1) as (c2&?&->&?&?). simpl. exists c2. split_and!; try done.
  rewrite Hnx. unfold i64_max, u64_max in *. lia.
Qed.

Lemma row_envelope_id db r (m : MessageEnvelope Uuid DateTime) :
  row_to_envelope db r = Some (Returns m) → message_id m = row_uuid r.
Proof.
  unfold row_to_envelope. destruct (row_channel r); [|done]. cbn. destruct (channels db !! _); [|done]. cbn.
  destruct (row_envelope_type r); [|done]. cbn. unfold ns_to_utc. destruct (from_timestamp _ _); [|done]. cbn.
  by intros [= <-].
Qed.

(** What is due, as the release reads it. *)
Lemma due_reads db u now :
  db_wf (DateTime := DateTime) db →
  ∃ due, read_parked db (λ r m, Returns (row_id r, without_deliver_after m)) (due_rows db u now) = Returns due ∧
    len due = len (due_rows db u now) ∧ NoDup due.*1 ∧ Forall (λ p, parked_as db u p.1 p.2) due ∧
    message_id <$> due.*2 = row_uuid <$> due_rows db u now.
Proof.
  intros Hwf.
  assert (Hin : ∀ r, r ∈ due_rows db u now → r ∈ messages db ∧ row_channel r = Some u ∧ is_retained r = false).
  { intros r [_ Hr]%list_elem_of_filter. unfold parked_rows in Hr.
    rewrite merge_sort_Permutation, list_elem_of_filter, andb_true_iff in Hr.
    destruct Hr as [[Hon%bool_decide_eq_true Hpk] Hr]. destruct (dw_rows _ Hwf r u Hr Hon) as [[Hst _ _ _ _] _].
    split_and!; [done|done|]. rewrite Hpk in Hst. by destruct (is_retained r). }
  assert (Hnd : NoDup (row_id <$> due_rows db u now)).
  { apply NoDup_ids_filter. unfold parked_rows. rewrite merge_sort_Permutation. apply NoDup_ids_filter. apply Hwf. }
  destruct (rows_read db (due_rows db u now) u Hwf) as (ms&He&Hm).
  { apply Forall_forall. intros r Hr. by destruct (Hin r Hr) as (?&?&_). }
  exists (zip_with (λ r m, (row_id r, without_deliver_after m)) (due_rows db u now) ms). split.
  { apply read_parked_Returns; [done|]. clear -Hm. induction Hm; by constructor. }
  revert Hin Hnd. induction He as [|r m rows ms Hr _ IH]; intros Hin Hnd; [by split_and!; constructor|].
  apply Forall2_cons_1 in Hm as [_ Hm]. rewrite fmap_cons in Hnd. apply NoDup_cons in Hnd as [Hid Hnd].
  destruct IH as (Hl&Hnd'&Hall&Hids); [done|by intros; apply Hin; right|done|]. cbn [zip_with].
  split_and!; [by rewrite !len_cons, Hl| | |].
  - rewrite fmap_cons. constructor; [|done]. intros Hbad. apply Hid. clear -Hbad.
    revert ms Hbad. induction rows as [|x rows IH]; intros [|y ms]; cbn; try by intros ?%not_elem_of_nil.
    rewrite !elem_of_cons. intros [?|?]; [by left|right; by eapply IH].
  - constructor; [|done]. destruct (Hin r) as (?&?&?); [by left|]. by exists r, m.
  - rewrite !fmap_cons, Hids. simpl. by rewrite (row_envelope_id db r m).
Qed.

(** What one release pass answers, by identity. *)
Lemma release_ids st db ch now :
  db_wf (DateTime := DateTime) db → channels db !! ds_channel_uuid st = Some ch →
  ch_last_retained_seq ch + len (due_rows db (ds_channel_uuid st) now) < i64_max →
  ∃ db' out, DbStore.release_due st db now = Returns (db', out) ∧
    (λ e, message_id (Ring.message e)) <$> ro_released out = row_uuid <$> due_rows db (ds_channel_uuid st) now.
Proof.
  intros Hwf Hch Hok. destruct (due_reads db (ds_channel_uuid st) now Hwf) as (due&Hd&Hl&Hnd&Hall&Hids).
  destruct (release_rows_spec db _ ch due [] Hwf Hch) as (db'&es&Hr&_&_&_&Hes&_); [lia|done|done|].
  exists db', (mkReleaseOutcome es []). split.
  - unfold DbStore.release_due, release_due_for_channel. fold (due_rows db (ds_channel_uuid st) now).
    rewrite Hd. simpl. rewrite Hr. done.
  - cbn [ro_released]. rewrite <-Hids, <-Hes, <-list_fmap_compose. done.
Qed.

Lemma table_release_stepped st db now :
  db_wf (DateTime := DateTime) db → db_op_ok st db (DRelease now) → stepped st db (DRelease now).
Proof.
  unfold db_op_ok. intros Hwf Hok. destruct (channels db !! ds_channel_uuid st) as [ch|] eqn:Hch; [|done].
  cbn [op_pre] in Hok. destruct (due_reads db (ds_channel_uuid st) now Hwf) as (due&Hd&Hl&Hnd&Hall&Hids).
  destruct (release_rows_spec db _ ch due [] Hwf Hch) as (db'&es&Hr&Hwf'&Hn&Hf&Hes&Hc); [lia|done|done|].
  exists db', (mkTold [] None None es). split_and!; [|done| | |done].
  - cbn [db_step]. unfold DbStore.release_due, release_due_for_channel. fold (due_rows db (ds_channel_uuid st) now).
    rewrite Hd. simpl. rewrite Hr. done.
  - intros c s0 Hs Hcw. destruct (Hc c s0 Hs Hcw) as (c'&?&?&?&?). do 2 eexists. by split_and!.
  - intros v c Hv Hs. destruct (Hf v Hv) as (?&?&?). by eapply sim_frame.
Qed.

(** *** Collecting *)

(** Cutting a core to a depth and restoring it. *)
Lemma cut_core c f s0 :
  Core.wf c → Ring.depth (Core.ring c) = u64_max → Core.deferred c = Deferred.set_new (Some u64_max) →
  let r := Core.ring c in
  let old := Ring.next_seq r - len (Ring.entries r) in
  let new := N.max old (Ring.next_seq r - f) in
  ∃ c', CoreRun.core_run s0 c [CoreRun.OpSetDepth f; CoreRun.OpSetDepth u64_max] =
      Returns (c', CoreRun.eviction_entry (match Core.cursors c !! s0 with
                                         | Some cur => new - N.max (Cursor.next_owed cur) old
                                         | None => 0
                                         end)) ∧
    Core.wf c' ∧ Core.cursors c' = Core.cursors c ∧ Core.deferred c' = Core.deferred c ∧
    Core.ring c' = Ring.mkRing (Ring.epoch r) u64_max (Ring.next_seq r)
                     (drop (N.to_nat (len (Ring.entries r) - f)) (Ring.entries r)).
Proof.
  intros Hc Hd Hdf. cbv zeta. pose proof Hc as [Hr _ _ Hcur].
  set (old := Ring.next_seq (Core.ring c) - len (Ring.entries (Core.ring c))).
  set (new := N.max old (Ring.next_seq (Core.ring c) - f)).
  set (c1 := (Core.core_set_depth c f).1). set (c2 := (Core.core_set_depth c1 u64_max).1).
  assert (Hc1 : Core.wf c1) by (by apply CoreRun.core_set_depth_wf).
  assert (Hc2 : Core.wf c2) by (by apply CoreRun.core_set_depth_wf).
  pose proof Hc1 as [Hr1 _ _ _].
  assert (Hf : Cursor.frontier (Core.ring c) = old) by (by apply Cursor.frontier_wf).
  assert (Hf1 : Cursor.frontier (Core.ring c1) = new) by (unfold c1; simpl; by rewrite CoreFacts.frontier_set_depth, Hf).
  assert (Hf2 : Cursor.frontier (Core.ring c2) = new).
  { unfold c2. simpl. rewrite CoreFacts.frontier_set_depth by done. simpl in Hf1. rewrite Hf1.
    rewrite CoreFacts.next_seq_set_depth by done. destruct Hr as [? _ _ _]. lia. }
  exists c2. split_and!; [|done|done|simpl; by rewrite Hdf|].
  - assert (Hrun : CoreRun.core_run s0 c [CoreRun.OpSetDepth f; CoreRun.OpSetDepth u64_max] =
      Returns (c2, CoreRun.eviction_entry (CoreFacts.evicted_of s0 (Core.overflow_since c1 (Cursor.frontier (Core.ring c))) +
        (CoreFacts.evicted_of s0 (Core.overflow_since c2 (Cursor.frontier (Core.ring c1))) + 0)))) by done.
    rewrite Hrun, !CoreFacts.evicted_of_overflow_since. repeat f_equal. change (Core.cursors c2) with (Core.cursors c).
    change (Core.cursors c1) with (Core.cursors c).
    destruct (Core.cursors c !! s0) as [cur|] eqn:Hs; [|done]. destruct (Hcur _ _ Hs) as [Hpd _].
    rewrite !CoreFacts.evicted_since_spec, Hf, Hf1, Hf2 by done. lia.
  - unfold c2. simpl. rewrite !Ring.set_depth_spec by (done || by apply Ring.set_depth_wf). simpl. f_equal.
    destruct Hr as [? ? _ _]. rewrite len_drop. replace (N.to_nat (_ - u64_max)) with O; [done|]. lia.
Qed.

(** Deleting every row of a channel but the newest. *)
Lemma elem_of_drop_inv {A} (l : list A) k x : x ∈ drop k l → x ∈ l.
Proof. intros Hx. rewrite <-(take_drop k l), elem_of_app. by right. Qed.

Lemma keep_suffix (l : list (MessageRow Uuid)) k :
  NoDup (row_id <$> l) → filter (λ r, row_id r ∈ row_id <$> drop k l) l = drop k l.
Proof.
  revert k. induction l as [|r l IH]; intros k; [by rewrite drop_nil|].
  rewrite fmap_cons. intros [Hr Hnd]%NoDup_cons. destruct k as [|k].
  - rewrite drop_0, filter_all; [done|]. apply Forall_forall. intros x Hx. by apply list_elem_of_fmap_2.
  - cbn [drop]. rewrite filter_cons_False; [by apply IH|]. intros (x&Hx&Hin)%list_elem_of_fmap.
    apply Hr. rewrite Hx. apply list_elem_of_fmap_2. by apply elem_of_drop_inv in Hin.
Qed.

Lemma evict_rows db u k last :
  NoDup (row_id <$> messages db) → dense db u last →
  let keep := row_id <$> drop k (retained_rows db u) in
  let evict r := on_channel u r && is_retained r && bool_decide (row_id r ∉ keep) in
  let db' := with_messages db (filter (λ r, evict r = false) (messages db)) in
  retained_rows db' u = drop k (retained_rows db u) ∧ ∀ v, v ≠ u → retained_rows db' v = retained_rows db v.
Proof.
  intros Hnd [Hle Hd] keep evict db'. split.
  - apply (retained_rows_unique _ _ _ (last + 1 - len (retained_rows db u) + N.of_nat k)).
    + simpl. rewrite list_filter_filter.
      assert (Hids : NoDup (row_id <$> retained_rows db u)).
      { rewrite retained_rows_perm. by apply NoDup_ids_filter. }
      rewrite <-(keep_suffix (retained_rows db u) k Hids). fold keep. rewrite retained_rows_perm, list_filter_filter.
      apply reflexive_eq, list_filter_iff. intros r. unfold evict.
      destruct (on_channel u r && is_retained r); simpl; [|naive_solver]. rewrite bool_decide_eq_false.
      split; [naive_solver|]. intros [_ Hk]. split; [by apply dec_stable|done].
    + rewrite fmap_drop, Hd, drop_run, length_drop. done.
  - intros v Hv. apply retained_rows_ext. simpl. rewrite list_filter_filter. apply list_filter_iff.
    intros r. split; [by intros [? _]|]. intros Hr. split; [done|]. unfold evict, on_channel in *.
    apply andb_true_iff in Hr as [Hr%bool_decide_eq_true _]. rewrite bool_decide_false; [done|congruence].
Qed.

(** What a pass reports to one subscriber. *)
Definition total {A} (g : A → N) (l : list A) : N := foldr (λ x acc, g x + acc) 0 l.

Lemma total_zero {A} (g : A → N) (l : list A) : (∀ y, y ∈ l → g y = 0) → total g l = 0.
Proof.
  induction l as [|y l IH]; intros Hg; [done|]. cbn. rewrite (Hg y) by (by left). apply IH.
  intros z Hz. apply Hg. by right.
Qed.

Lemma total_one {A} (g : A → N) (l : list A) x :
  NoDup l → x ∈ l → (∀ y, y ∈ l → y ≠ x → g y = 0) → total g l = g x.
Proof.
  induction l as [|y l IH]; [by intros _ ?%not_elem_of_nil|]. intros [Hy Hnd]%NoDup_cons Hx Hg. cbn. fold (total g l).
  apply elem_of_cons in Hx as [->|Hx].
  - rewrite total_zero; [lia|]. intros z Hz. apply Hg; [by right|]. by intros ->.
  - rewrite (Hg y), IH; [done|done|done| |by left|by intros ->]. intros z Hz. apply Hg. by right.
Qed.

Definition span_charge (old new : N) (k : Uuid * string) (p : (Uuid * string) * CursorRow) : N :=
  if decide (p.1 = k) then new - N.max (cr_next_owed_seq p.2) old else 0.

Lemma charged_total u old new s0 (l : list ((Uuid * string) * CursorRow)) :
  StoreRun.charged s0 (omap (λ p, evicted_span old new p.1 p.2)
    (omap (λ p : (Uuid * string) * CursorRow, if decide (p.1.1 = u) then Some (p.1.2, p.2) else None) l)) =
  total (span_charge old new (u, s0)) l.
Proof.
  induction l as [|[[v s] cr] l IH]; [done|]. cbn [omap list_omap]. cbn [total foldr]. fold (total (span_charge old new (u, s0)) l).
  rewrite <-IH. unfold span_charge. simpl. destruct (decide (v = u)) as [->|Hv]; simpl.
  2:{ by rewrite decide_False by congruence. }
  unfold evicted_span at 1. destruct (decide (s = s0)) as [->|Hs].
  - rewrite decide_True by done. destruct (N.ltb_spec 0 (new - N.max (cr_next_owed_seq cr) old)); simpl.
    + by rewrite decide_True.
    + by replace (new - N.max (cr_next_owed_seq cr) old) with 0 by lia.
  - rewrite decide_False by congruence. destruct (0 <? _); simpl; [by rewrite decide_False|done].
Qed.

Lemma charged_spans db u old new s0 :
  StoreRun.charged s0 (omap (λ p, evicted_span old new p.1 p.2) (channel_subscriber_cursors db u)) =
    match cursors db !! (u, s0) with
    | Some cr => new - N.max (cr_next_owed_seq cr) old
    | None => 0
    end.
Proof.
  unfold channel_subscriber_cursors. rewrite charged_total. destruct (cursors db !! (u, s0)) as [cr|] eqn:Hcr.
  - rewrite (total_one _ _ ((u, s0), cr)); [|apply NoDup_map_to_list|by apply elem_of_map_to_list|].
    { unfold span_charge. simpl. by rewrite decide_True. }
    intros [k x] Hin%elem_of_map_to_list Hne. unfold span_charge. simpl. rewrite decide_False; [done|].
    intros ->. apply Hne. congruence.
  - apply total_zero. intros [k x] Hin%elem_of_map_to_list. unfold span_charge. simpl.
    rewrite decide_False; [done|]. intros ->. congruence.
Qed.

Lemma archive_row_Returns db address scheme r :
  row_wf (DateTime := DateTime) r → ∃ m, archive_row (DateTime := DateTime) db address scheme r = Returns m.
Proof.
  intros [_ _ Hts Hd Ha]. unfold archive_row, ns_to_utc. destruct (from_ns_total _ Hts) as [t Ht]. rewrite Ht.
  destruct (row_deadline r) as [d|]; [apply readable_parses in Hd as [d' Hd]; rewrite Hd|];
    (destruct (row_deliver_after r) as [a|]; [apply readable_parses in Ha as [a' Ha]; rewrite Ha|]); cbn; eauto.
Qed.

Lemma retained_bus db u r :
  db_wf (DateTime := DateTime) db → r ∈ messages db → row_channel r = Some u →
  negb (bool_decide (row_envelope_type r = Ingress)) = true.
Proof.
  intros Hwf Hin Hu. destruct (dw_rows _ Hwf r u Hin Hu) as [[_ [s Hs] _ _ _] _]. rewrite Hs. done.
Qed.

(** What a pass does to the tables and what it reports. *)
Lemma collect_Returns db u ch address scheme f sink path :
  db_wf (DateTime := DateTime) db → channels db !! u = Some ch → f ≤ i64_max → (sink = SinkArchive → is_Some path) →
  let rows := retained_rows db u in
  let old := ch_last_retained_seq ch + 1 - len rows in
  let new := N.max old (ch_last_retained_seq ch + 1 - f) in
  ∃ db' ev, bus_gc_evict_channel (DateTime := DateTime) db u address scheme f sink path = Returns (db', ev) ∧
    rows_ok (DateTime := DateTime) db' ∧ channels db' = channels db ∧ cursors db' = cursors db ∧
    retained_rows db' u = drop (N.to_nat (len rows - f)) rows ∧
    (∀ v, v ≠ u → retained_rows db' v = retained_rows db v) ∧
    ∀ s0, StoreRun.charged s0 (gc_overflow ev) =
      match cursors db !! (u, s0) with Some cr => new - N.max (cr_next_owed_seq cr) old | None => 0 end.
Proof.
  intros Hwf Hch Hf Hpath. cbv zeta. set (rows := retained_rows db u).
  destruct (wf_rows_ok _ Hwf) as (Hnd&Hrw&Hmx&Hk). destruct (dw_dense _ Hwf u ch Hch) as [Hle Hden]. fold rows in Hle, Hden.
  assert (Hbus : filter (λ r, negb (bool_decide (row_envelope_type r = Ingress)) = true) rows = rows).
  { apply filter_all, Forall_forall. intros r (?&?&_)%elem_of_retained. by eapply retained_bus. }
  assert (Hlim : i64_wrap (Z.of_N f) = Z.of_N f).
  { unfold i64_wrap, i64_max in *. rewrite Z.mod_small by lia. lia. }
  unfold bus_gc_evict_channel. fold rows. rewrite Hbus, Hlim.
  assert (Hassert : negb (bool_decide (sink = SinkArchive)) || bool_decide (is_Some path) = true).
  { destruct sink; [done|]. simpl. apply bool_decide_eq_true. by apply Hpath. }
  rewrite Hassert. cbn [mbind panics_bind rust_assert].
  destruct (Z.leb_spec (Z.of_N (len rows)) (Z.of_N f)) as [Hfew|Hmany].
  { exists db, (mkEviction 0 [] []). split_and!; try done.
    - replace (N.to_nat _) with O by lia. done.
    - intros s0. destruct (cursors db !! _); [cbn; lia|done]. }
  rewrite (frontier_Returns db u ch Hwf Hch). fold rows. cbn [mbind panics_bind].
  set (k := N.to_nat (len rows - f)).
  assert (Hnew : newest_rows (Z.of_N f) rows = drop k rows).
  { unfold newest_rows. destruct (Z.ltb_spec (Z.of_N f) 0); [lia|]. f_equal. unfold k, len. lia. }
  rewrite Hnew.
  destruct (evict_rows db u k (ch_last_retained_seq ch) Hnd (conj Hle Hden)) as [Hcut Hother]. fold rows in Hcut, Hother.
  set (db' := with_messages db (filter (λ r, on_channel u r && is_retained r && bool_decide (row_id r ∉ row_id <$> drop k rows) = false) (messages db))) in *.
  assert (Hdb : with_messages db (filter (λ r, on_channel u r && negb (bool_decide (row_envelope_type r = Ingress)) &&
     is_retained r && bool_decide (row_id r ∉ row_id <$> drop k rows) = false) (messages db)) = db').
  { unfold db'. f_equal. apply filter_ext_in. intros r Hin. destruct (on_channel u r) eqn:Hon; [|done].
    apply bool_decide_eq_true in Hon. by rewrite (retained_bus db u r Hwf Hin Hon). }
  assert (Harch : ∃ a, match sink with
      | SinkArchive => mapM (archive_row (DateTime := DateTime) db address scheme)
                         (filter (λ r, bool_decide (row_id r ∉ row_id <$> drop k rows) = true) rows)
      | SinkDrop => Returns []
      end = Returns a).
  { destruct sink; [by eexists|].
    destruct (Wake.mapM_Returns (archive_row (DateTime := DateTime) db address scheme) (λ _ _, True)
      (filter (λ r, bool_decide (row_id r ∉ row_id <$> drop k rows) = true) rows)) as (a&Ha&_); [|by eexists].
    apply Forall_forall. intros r [_ (Hin&Hu&_)%elem_of_retained]%list_elem_of_filter.
    destruct (Hrw r u Hin Hu) as [Hr _]. destruct (archive_row_Returns db address scheme r Hr). by eexists. }
  destruct Harch as [a ->]. cbn [mbind panics_bind]. rewrite Hdb.
  assert (Hfr : retention_frontier_or_next db' u = Returns (ch_last_retained_seq ch + 1 - f)).
  { unfold retention_frontier_or_next, channel_retention_frontier, channel_last_retained_seq.
    rewrite Hcut, head_seqs, fmap_drop, Hden, drop_run, head_run. fold rows. change (channels db') with (channels db).
    rewrite Hch. unfold k, len in *. destruct (_ - _)%nat eqn:Hn; simpl; f_equal; lia. }
  rewrite Hfr. cbn [mbind panics_bind]. do 2 eexists. split; [done|]. split_and!; try done.
  - split_and!; [by apply NoDup_ids_filter| |done|done]. intros r v [_ Hr]%list_elem_of_filter. by apply Hrw.
  - intros s0. cbn [gc_overflow]. rewrite charged_spans. destruct (cursors db !! _); [lia|done].
Qed.

Lemma collect_stepped st db scheme f sink path :
  db_wf (DateTime := DateTime) db → db_op_ok st db (DCollect scheme f sink path) →
  stepped st db (DCollect scheme f sink path).
Proof.
  unfold db_op_ok. intros Hwf Hok. destruct (channels db !! ds_channel_uuid st) as [ch|] eqn:Hch; [|done].
  destruct Hok as [Hf Hp].
  destruct (collect_Returns db _ ch (ds_address st) scheme f sink path Hwf Hch Hf Hp)
    as (db'&ev&Hgc&Hrows&Hcs&Hcu&Hcut&Hother&Hch').
  assert (Hn : same_names db db') by (intros v; by rewrite Hcs).
  eapply (stepped_intro st db _ db' (mkTold (gc_overflow ev) None None [])); [done|by rewrite Hch| |done|done| |].
  - cbn [db_step]. by rewrite Hgc.
  - intros v Hv. rewrite Hcs, Hcu. split_and!; [done|by apply Hother|done].
  - intros c s0 Hs Hc. destruct (sim_ring _ _ _ _ Hs Hch) as [Hnx Hl].
    destruct (cut_core c f s0 Hc (sim_depth _ _ _ Hs) (sim_deferred _ _ _ Hs)) as (c'&Hrun&Hc'&Hcc&Hcd&Hcr).
    exists [CoreRun.OpSetDepth f; CoreRun.OpSetDepth u64_max], c'. split_and!; [done|done| |done|].
    + rewrite Hrun. f_equal. f_equal. cbn [db_entry]. f_equal. cbn [t_overflow]. rewrite Hch', (sim_cursors _ _ _ Hs), Hnx, Hl.
      by destruct (cursors db !! _).
    + destruct Hs as [(ch0&Hch0&He&Hn0) Hd Hr Hcus Hdf]. split; rewrite ?Hcr, ?Hcc, ?Hcd, ?Hcs, ?Hcu; simpl; try done; [by exists ch0|].
      rewrite Hcut, <-Hl. apply Forall2_drop. eapply Forall2_impl; [exact Hr|]. intros r e [? ?]. split; [|done].
      by rewrite (row_to_envelope_names db db').
Qed.

Lemma db_step_ok st db op : db_wf (DateTime := DateTime) db → db_op_ok st db op → stepped st db op.
Proof.
  destruct op; auto using table_append_stepped, table_park_stepped, attach_stepped, attach_from_stepped, detach_stepped,
    table_window_stepped, table_advance_stepped, table_release_stepped, table_cancel_stepped, table_edit_stepped, collect_stepped.
Qed.

(** *** Resuming *)

Lemma plain_retained (es : list (Ring.Retained (MessageEnvelope Uuid DateTime))) : store_retained <$> (plain <$> es) = es.
Proof. rewrite <-list_fmap_compose. induction es as [|[]]; [done|]. rewrite fmap_cons. by f_equal. Qed.

(** Cutting an answer that is a whole window is reading a shorter window. *)
Lemma clamp_window (epoch : Uuid) (r : Ring.RetainedRing (MessageEnvelope Uuid DateTime) Uuid) d cap :
  Ring.wf r → Ring.depth r = u64_max → d ≠ Ring.Exact →
  Store.clamp_replay (Store.mkStoreReplay epoch (Ring.entries r) d) cap =
    Store.mkStoreReplay epoch (Ring.tail r (depth_bound cap)) d.
Proof.
  intros Hr Hd Hne. rewrite Cursor.tail_drop by done. destruct cap as [n|]; simpl.
  - destruct (N.leb_spec (len (Ring.entries r)) n) as [Hn|Hn]; [by replace (N.to_nat _) with O by lia|].
    by destruct d.
  - destruct Hr as [_ _ _ Hl]. rewrite Hd in Hl. by replace (N.to_nat _) with O by lia.
Qed.

(** Cutting an exact answer is reading the same shorter window. *)
Lemma clamp_since (epoch : Uuid) (r : Ring.RetainedRing (MessageEnvelope Uuid DateTime) Uuid) s n :
  Ring.wf r → n < len (Ring.since r s) →
  Store.clamp_replay (Store.mkStoreReplay epoch (Ring.since r s) Ring.Exact) (Bounded n) =
    Store.mkStoreReplay epoch (Ring.tail r n) (Ring.Gap Ring.BeyondRetained).
Proof.
  intros Hr Hn. rewrite Cursor.tail_drop by done. unfold Store.clamp_replay. cbn [Store.sr_messages Store.sr_epoch Store.sr_decision].
  destruct (N.leb_spec (len (Ring.since r s)) n); [lia|]. f_equal. unfold Ring.since in *. rewrite len_drop in *.
  rewrite drop_drop. f_equal. lia.
Qed.

Lemma rows_since db u c after :
  sim db u c → Core.wf c → after ≤ u64_max →
  Forall2 (reads db) (filter (λ r, after < seq_of r) (retained_rows db u)) (Ring.since (Core.ring c) after).
Proof.
  intros Hs [Hr _ _ _] Ha. rewrite RingSpec.since_filter by done. pose proof (sim_rows _ _ _ Hs) as Hall. clear -Hall.
  induction Hall as [|r e rs es [? Hse] _ IH]; [done|]. rewrite !filter_cons, Hse.
  case_decide; [|done]. by constructor.
Qed.

Lemma count_since db u c after :
  sim db u c → Core.wf c → after ≤ u64_max →
  channel_retained_count_after_seq db u after = len (Ring.since (Core.ring c) after).
Proof. intros Hs Hc Ha. unfold channel_retained_count_after_seq, len. by rewrite (Forall2_length _ _ _ (rows_since db u c after Hs Hc Ha)). Qed.

Lemma load_since db u c after cap :
  sim db u c → Core.wf c → after ≤ u64_max → depth_fits cap → len (Ring.since (Core.ring c) after) ≤ i64_max →
  len (Ring.since (Core.ring c) after) ≤ depth_bound cap →
  load_channel_messages_after_seq db u after cap = Returns (plain <$> Ring.since (Core.ring c) after).
Proof.
  intros Hs Hc Ha Hfit Hlen Hcap. pose proof (rows_since db u c after Hs Hc Ha) as Hrows.
  pose proof (count_since db u c after Hs Hc Ha) as Hn. unfold channel_retained_count_after_seq in Hn.
  unfold load_channel_messages_after_seq. rewrite newest_rows_spec by (done || lia).
  replace (N.to_nat _) with O by lia. by rewrite drop_0, (read_forall2 _ _ _ Hrows).
Qed.

(** A cursor behind the newest position. *)
Lemma replay_behind st db c ch after cap :
  sim db (ds_channel_uuid st) c → Core.wf c → channels db !! ds_channel_uuid st = Some ch →
  ch_last_retained_seq ch < i64_max → depth_fits cap → after < ch_last_retained_seq ch →
  let r := Core.ring c in
  let window := Returns (Store.clamp_replay (Store.mkStoreReplay (Ring.epoch r) (Ring.entries r) (Ring.Gap Ring.BeyondRetained)) cap) in
  (if (channel_retained_count_after_seq db (ds_channel_uuid st) after =? ch_last_retained_seq ch - after) &&
      match cap with Unbounded => true | Bounded n => ch_last_retained_seq ch - after <=? n end
   then rows ← load_channel_messages_after_seq db (ds_channel_uuid st) after cap;
        Returns (Store.mkStoreReplay (Ring.epoch r) (store_retained <$> rows) Ring.Exact)
   else window) =
  Returns (Store.clamp_replay
    (let rep := match Ring.entries r with
       | oldest :: _ => if Ring.seq oldest <=? u64_add after 1 then Ring.mkReplay (Ring.since r after) Ring.Exact
                        else Ring.mkReplay (Ring.entries r) (Ring.Gap Ring.BeyondRetained)
       | [] => Ring.mkReplay (Ring.entries r) (Ring.Gap Ring.BeyondRetained)
       end in Store.mkStoreReplay (Ring.epoch r) (Ring.messages rep) (Ring.decision rep)) cap).
Proof.
  intros Hs Hc Hch Hmax Hfit Hlt. cbv zeta. unfold i64_max in Hmax. destruct (sim_ring _ _ _ _ Hs Hch) as [Hn Hl]. pose proof Hc as [Hr _ _ _].
  assert (Ha : after ≤ u64_max) by (unfold u64_max; lia). rewrite (count_since db _ c) by done.
  destruct (Ring.entries (Core.ring c)) as [|front es] eqn:Hes.
  { unfold Ring.since. rewrite Hes, drop_nil, len_nil. by destruct (N.eqb_spec 0 (ch_last_retained_seq ch - after)); [lia|]. }
  pose proof (Ring.head_seq_wf _ _ _ Hr Hes) as Hfront. rewrite <-Hes in *. rewrite Hn in Hfront.
  rewrite u64_add_small by (unfold u64_max; lia).
  destruct (N.leb_spec (Ring.seq front) (after + 1)) as [Hcov|Hgap].
  - destruct (RingStore.since_covers (Core.ring c) after) as [Hall _]; [done|unfold u64_max; lia| |lia|].
    { rewrite Ring.newest_seq_wf, Hn by done. lia. }
    rewrite Ring.newest_seq_wf, Hn in Hall by done.
    replace (ch_last_retained_seq ch - after) with (len (Ring.since (Core.ring c) after)) by lia.
    rewrite N.eqb_refl. cbn [andb Ring.messages Ring.decision].
    destruct (N.leb_spec (len (Ring.since (Core.ring c) after)) (depth_bound cap)) as [Hcap|Hcap].
    + rewrite (load_since db _ c) by (done || unfold i64_max; lia). cbn [mbind panics_bind]. rewrite plain_retained.
      destruct cap as [n|]; [|done]. cbn in *. destruct (N.leb_spec (len (Ring.since (Core.ring c) after)) n); [done|lia].
    + destruct cap as [n|]; [|exfalso; simpl in Hcap; unfold u64_max in Hcap; lia]. cbn [depth_bound] in Hcap.
      destruct (N.leb_spec (len (Ring.since (Core.ring c) after)) n); [lia|].
      rewrite clamp_since, clamp_window by (done || apply (sim_depth _ _ _ Hs)). done.
  - destruct (N.eqb_spec (len (Ring.since (Core.ring c) after)) (ch_last_retained_seq ch - after)) as [Hbad|_]; [|done].
    exfalso. unfold Ring.since in Hbad. rewrite len_drop in Hbad. destruct Hr as [_ Hlt' _ _]. rewrite Hn in Hlt'. lia.
Qed.

Lemma replay_is_rings st db c ch cur limit :
  sim db (ds_channel_uuid st) c → Core.wf c → db_wf (DateTime := DateTime) db →
  channels db !! ds_channel_uuid st = Some ch → depth_fits (narrowed_by (deferred_cap st) limit) →
  DbStore.replay_from st db cur limit =
    Returns (Store.ring_replay_from (Core.ring c) cur (narrowed_by (deferred_cap st) limit)).
Proof.
  intros Hs Hc Hwf Hch Hfit. unfold DbStore.replay_from, channel_resume_epoch, channel_last_retained_seq. rewrite Hch.
  pose proof (load_window db _ c ch _ Hs Hc Hwf Hch Hfit) as Hw. pose proof (dw_room _ Hwf _ _ Hch) as Hmax.
  destruct (sim_ring _ _ _ _ Hs Hch) as [Hn Hl]. pose proof Hc as [Hr _ _ _].
  assert (He : ch_resume_epoch ch = Ring.epoch (Core.ring c)).
  { destruct (sim_channel _ _ _ Hs) as (?&?&?&_). by simplify_eq. }
  cbn [fmap option_fmap option_map rust_expect mbind panics_bind]. rewrite He, Hw. cbn [mbind panics_bind].
  set (cap := narrowed_by (deferred_cap st) limit) in *.
  assert (Hwin : ∀ d, d ≠ Ring.Exact →
    Returns (Store.mkStoreReplay (Ring.epoch (Core.ring c)) (store_retained <$> (plain <$> Ring.tail (Core.ring c) (depth_bound cap))) d) =
    Returns (Store.clamp_replay (Store.mkStoreReplay (Ring.epoch (Core.ring c)) (Ring.entries (Core.ring c)) d) cap)).
  { intros d Hd. by rewrite plain_retained, clamp_window by (done || apply (sim_depth _ _ _ Hs)). }
  unfold Store.ring_replay_from, Ring.replay. rewrite Ring.newest_seq_wf, Hn by done.
  replace (ch_last_retained_seq ch + 1 - 1) with (ch_last_retained_seq ch) by lia.
  destruct cur as [cu|]; [|by apply Hwin]. case_decide; [by apply Hwin|].
  destruct (N.eqb_spec (Ring.resume_seq cu) (ch_last_retained_seq ch)) as [Heq|Hneq].
  { rewrite Heq. destruct (N.ltb_spec (ch_last_retained_seq ch) (ch_last_retained_seq ch)); [lia|].
    unfold Store.clamp_replay. simpl. destruct cap as [n|]; [|done]. by destruct n. }
  destruct (N.ltb_spec (ch_last_retained_seq ch) (Ring.resume_seq cu)) as [|Hlt]; [by apply Hwin|].
  unfold seq_column. destruct (N.leb_spec (Ring.resume_seq cu) i64_max); [|lia]. cbn [mbind panics_bind rust_assert].
  rewrite Hwin by done. apply (replay_behind st db c ch (Ring.resume_seq cu) cap); done || lia.
Qed.
End run.
End DbRun.

(** ** What the durable store promises *)

Module DurableProps.
Import Envelope Directory Plane Retention Db DbStore DbFacts DbSim DbRun.

Section props.
Context {Uuid DateTime : Type}
  `{Countable Uuid, Chrono DateTime, ChronoSecs DateTime, ChronoOrd DateTime, !ChronoLine DateTime}.
Implicit Types (db : Database Uuid) (u : Uuid) (st : DbStore Uuid).

(** Operations on the stores of one database, in the order the connection served them. *)
Abbreviation steps := (list (DbStore Uuid * @db_op Uuid DateTime)).

Fixpoint db_run db (ops : steps) : panics (Database Uuid * list (@told Uuid DateTime)) :=
  match ops with
  | [] => Returns (db, [])
  | (st, op) :: ops =>
      '(db, out) ← db_step st db op;
      '(db, outs) ← db_run db ops;
      Returns (db, out :: outs)
  end.

Fixpoint db_run_ok db (ops : steps) : Prop :=
  match ops with
  | [] => True
  | (st, op) :: ops =>
      db_op_ok st db op ∧
      match db_step st db op with
      | Returns (db, _) => db_run_ok db ops
      | Panics _ => True
      end
  end.

(** What the run told one subscriber of channel [u]. *)
Fixpoint db_book u (s0 : string) db (ops : steps) : CoreRun.ledger :=
  match ops with
  | [] => CoreRun.no_entry
  | (st, op) :: ops =>
      match db_step st db op with
      | Returns (db', out) =>
          if decide (ds_channel_uuid st = u)
          then CoreRun.add_ledger (db_entry st db s0 op out) (db_book u s0 db' ops)
          else db_book u s0 db' ops
      | Panics _ => CoreRun.no_entry
      end
  end.

(** The core operations the run is on channel [u], from one core to another: each step's
    operations, and the core's own answers to them. *)
Inductive run_does u (s0 : string) : Core.RingCore (MessageEnvelope Uuid DateTime) Uuid string → steps →
    list (@told Uuid DateTime) → list (@CoreRun.core_op (MessageEnvelope Uuid DateTime) string) →
    Core.RingCore (MessageEnvelope Uuid DateTime) Uuid string → Prop :=
| does_nothing c : run_does u s0 c [] [] [] c
| does_here st op out ops outs cops cops' c c1 l c2 :
    ds_channel_uuid st = u → core_does c op out cops → CoreRun.core_run s0 c cops = Returns (c1, l) →
    run_does u s0 c1 ops outs cops' c2 →
    run_does u s0 c ((st, op) :: ops) (out :: outs) (cops ++ cops') c2
| does_elsewhere st op out ops outs cops' c c2 :
    ds_channel_uuid st ≠ u → run_does u s0 c ops outs cops' c2 →
    run_does u s0 c ((st, op) :: ops) (out :: outs) cops' c2.

Lemma add_ledger_nil_l l : CoreRun.add_ledger CoreRun.no_entry l = l.
Proof. by destruct l. Qed.
Lemma core_run_parts s0 (c : Core.RingCore (MessageEnvelope Uuid DateTime) Uuid string) ops ops' c1 l1 c2 l2 :
  CoreRun.core_run s0 c ops = Returns (c1, l1) → CoreRun.core_run s0 c1 ops' = Returns (c2, l2) →
  CoreRun.core_run s0 c (ops ++ ops') = Returns (c2, CoreRun.add_ledger l1 l2).
Proof. intros H1' H2'. rewrite CoreRun.core_run_app, H1'. simpl. by rewrite H2'. Qed.

Lemma run_ok_app s0 (c : Core.RingCore (MessageEnvelope Uuid DateTime) Uuid string) ops ops' c1 l1 :
  CoreRun.core_run s0 c ops = Returns (c1, l1) → CoreRun.run_ok s0 c ops → CoreRun.run_ok s0 c1 ops' →
  CoreRun.run_ok s0 c (ops ++ ops').
Proof.
  revert c l1. induction ops as [|op ops IH]; intros c l1; simpl; [by intros [= -> <-]|].
  destruct (CoreRun.core_step s0 c op) as [[c0 l0]|]; [|done]. simpl.
  destruct (CoreRun.core_run s0 c0 ops) as [[c' l']|] eqn:Hr; [|done]. simpl. intros [= -> <-] [? ?] ?.
  split; [done|]. by eapply IH.
Qed.

(** Everything at once: the run returns, and is the core's. *)
Lemma db_run_core u s0 ops db c :
  db_wf (DateTime := DateTime) db → db_run_ok db ops → sim db u c → Core.wf c →
  ∃ db' outs cops c', db_run db ops = Returns (db', outs) ∧ db_wf (DateTime := DateTime) db' ∧
    run_does u s0 c ops outs cops c' ∧ CoreRun.run_ok s0 c cops ∧
    CoreRun.core_run s0 c cops = Returns (c', db_book u s0 db ops) ∧ Core.wf c' ∧ sim db' u c'.
Proof.
  revert db c. induction ops as [|[st op] ops IH]; intros db c Hwf Hok Hs Hc.
  { exists db, [], [], c. split_and!; try done. constructor. }
  destruct Hok as [Hop Hrest]. cbn [db_run db_book].
  destruct (db_step_ok st db op Hwf Hop) as (db1&out&Hstep&Hwf1&Hhere&Helse&_). rewrite Hstep in Hrest |- *.
  destruct (decide (ds_channel_uuid st = u)) as [<-|Hne].
  - destruct (Hhere c s0 Hs Hc) as (cops1&c1&Hd1&Hk1&Hr1&Hc1&Hs1).
    destruct (IH db1 c1 Hwf1 Hrest Hs1 Hc1) as (db'&outs&cops&c'&Hr&Hwf'&Hd&Hk&Hcr&Hc'&Hs').
    exists db', (out :: outs), (cops1 ++ cops), c'. cbn [mbind panics_bind]. rewrite Hr.
    split_and!; try done; [by eapply does_here|by eapply run_ok_app|by eapply core_run_parts].
  - destruct (IH db1 c Hwf1 Hrest) as (db'&outs&cops&c'&Hr&Hwf'&Hd&Hk&Hcr&Hc'&Hs'); [by apply Helse|done|].
    exists db', (out :: outs), cops, c'. cbn [mbind panics_bind]. rewrite Hr.
    split_and!; try done. by constructor.
Qed.

(** (durable) The tables stay well formed and no operation on them unwinds. From
    well-formed tables, any sequence of appends, parks, attaches, detaches, windows, advances,
    releases, cancels, edits and collections, on any of the database's channels, returns, and leaves
    tables in which every channel's retained positions are a dense run up to its allocator,
    every row is parked or retained and not both, and every cursor stands in [1, next]. *)
Theorem durable_tables_stay_well_formed db ops :
  db_wf (DateTime := DateTime) db → db_run_ok db ops →
  ∃ db' outs, db_run db ops = Returns (db', outs) ∧ db_wf (DateTime := DateTime) db'.
Proof.
  revert db. induction ops as [|[st op] ops IH]; intros db Hwf Hok; [by exists db, []|].
  destruct Hok as [Hop Hrest]. destruct (db_step_ok st db op Hwf Hop) as (db1&out&Hstep&Hwf1&_).
  cbn [db_run]. rewrite Hstep in Hrest |- *. destruct (IH db1 Hwf1 Hrest) as (db'&outs&Hr&Hwf').
  cbn [mbind panics_bind]. rewrite Hr. by exists db', (out :: outs).
Qed.

(** C11: (durable) A durable channel is the channel core every other channel is, of unlimited
    depth: each operation on the database is the core's own operation (a window or an
    advance is the core's, a release is the appends of what it released, a collection is a
    cut to the frontier and back, and what is parked is not yet in the core), in any order,
    windows and their advances apart included; each window served and each advance's answer
    is the one the core gives at that point, and positions and reports are the same, whatever
    runs on the other channels of the database in between. The times stored are of the years
    0000 to 9999. *)
Theorem durable_channel_is_its_core u s0 ops db ch :
  db_wf (DateTime := DateTime) db → db_run_ok db ops → channels db !! u = Some ch →
  ∃ c db' outs cops c', sim db u c ∧ Core.wf c ∧
    db_run db ops = Returns (db', outs) ∧ run_does u s0 c ops outs cops c' ∧
    CoreRun.core_run s0 c cops = Returns (c', db_book u s0 db ops) ∧ Core.wf c' ∧ sim db' u c'.
Proof.
  intros Hwf Hok Hch. destruct (wf_sim db u ch Hwf Hch) as (c&Hs&Hc).
  destruct (db_run_core u s0 ops db c Hwf Hok Hs Hc) as (db'&outs&cops&c'&?&_&?&_&?&?&?). by exists c, db', outs, cops, c'.
Qed.

(** The run leaves the subscriber its cursor, and no pass empties the channel. *)
Definition db_keeps u (s0 : string) (p : DbStore Uuid * @db_op Uuid DateTime) : Prop :=
  ds_channel_uuid p.1 = u →
  match p.2 with
  | DAttach s _ pd => s = s0 → Directory.is_push_enabled pd = true
  | DDetach s => s ≠ s0
  | DCollect _ f _ _ => 0 < f
  | _ => True
  end.

Lemma run_does_keeps u s0 c ops outs cops c' :
  run_does u s0 c ops outs cops c' → Forall (db_keeps u s0) ops → Forall (CoreRun.keeps s0) cops.
Proof.
  induction 1 as [|st op out ops outs cops cops' c c1 l c2 Hu Hd _ _ IH|st op out ops outs cops' c c2 Hu _ IH]; [done| |].
  - intros [Hk Hks]%Forall_cons. apply Forall_app. split; [|by apply IH]. specialize (Hk Hu). simpl in Hk.
    destruct op; simpl in Hd; try (subst; repeat constructor; done).
    + destruct Hd as (m&->&_). by repeat constructor.
    + subst. repeat constructor. simpl. intros ->. apply N.ltb_lt. rewrite <-enabled_bound. by apply Hk.
    + destruct Hd as [-> _]. by repeat constructor.
    + destruct Hd as [-> _]. by repeat constructor.
    + subst. clear. induction (t_released out); by constructor.
  - intros [_ Hks]%Forall_cons. by apply IH.
Qed.

(** What a cursor already lost below its channel's retention. *)
Definition db_pending db u (cr : CursorRow) : N := table_frontier db u - cr_next_owed_seq cr.

Lemma sim_pending db u c cr :
  sim db u c → Core.wf c → CoreRun.pending c (cur_of cr) = db_pending db u cr.
Proof.
  intros Hs Hc. unfold CoreRun.pending, db_pending. by rewrite (sim_frontier db u c).
Qed.

(** A window read from the tables, as the core's books count it. *)
Lemma table_window_booked st db ch s pl rl db' w th fl :
  db_wf (DateTime := DateTime) db → channels db !! ds_channel_uuid st = Some ch → depth_fits pl → depth_fits rl →
  DbStore.window st db s pl rl = Returns (db', Some w) → sw_advance_span w = Some (th, fl) →
  db_op_ok (DateTime := DateTime) st db (DAdvance s th fl) ∧
  (∀ a b, len (filter (λ e : N * MessageEnvelope Uuid DateTime, a ≤ e.1 ∧ e.1 < b) (sw_entries w)) = N.min (th + 1) b - N.max fl a) ∧
  (∀ a, len (filter (λ e : N * MessageEnvelope Uuid DateTime, a ≤ e.1) (sw_entries w)) = th + 1 - N.max fl a) ∧
  table_frontier db (ds_channel_uuid st) ≤ fl.
Proof.
  intros Hwf Hch Hp Hr Hw Hspan. destruct (wf_sim db _ ch Hwf Hch) as (c&Hs&Hc).
  rewrite (window_Returns st db c ch) in Hw by done. apply (f_equal (λ p, match p with Returns (_, w) => w | Panics _ => None end)) in Hw.
  assert (Hcw : RingStore.repack <$> (Core.core_window c s (depth_bound pl) (depth_bound rl)).2 = Some w).
  { rewrite <-(core_window_answer db c ch st s pl rl Hs Hc Hch). by destruct (cursors db !! _). }
  destruct (Core.core_window c s (depth_bound pl) (depth_bound rl)).2 as [w0|] eqn:Hw0; [|done]. injection Hcw as <-.
  assert (Hsp0 : Cursor.advance_span w0 = Some (th, fl)).
  { destruct w0 as [es nf en]. rewrite <-Hspan. symmetry. exact (plain_span es nf en). }
  destruct (CoreRun.window_span_dense _ _ _ _ _ _ _ Hc Hw0 Hsp0) as (Hd&Hl&Hn).
  change (sw_entries (RingStore.repack w0)) with (plain <$> Cursor.win_entries w0).
  destruct (sim_ring _ _ _ _ Hs Hch) as [Hnx _].
  split; [eapply op_ok_at; [done|]; simpl; lia|]. split_and!.
  - intros a b. rewrite <-Hl, <-(CoreRun.dense_between _ _ a b Hd). apply filter_plain.
  - intros a. rewrite <-Hl, <-(CoreRun.dense_above _ _ a Hd). apply unseen_plain.
  - rewrite <-(sim_frontier db _ c) by done.
    pose proof (CoreRun.window_none_retired c s (depth_bound pl) (depth_bound rl) w0 (Cursor.mkCursor 0 0) Hc Hw0) as Hz.
    cbn in Hz. rewrite (CoreRun.dense_between _ _ _ _ Hd) in Hz. pose proof Hc as [Hrg _ _ _].
    pose proof (Cursor.frontier_bounds _ Hrg).
    assert (0 < len (Cursor.win_entries w0)).
    { unfold Cursor.advance_span in Hsp0. destruct (Cursor.push_enabled w0); [|done]. cbn in Hsp0.
      destruct (Cursor.win_entries w0); [done|]. rewrite len_cons. lia. }
    lia.
Qed.

(** C12: (durable) Durable retention loses nothing silently. Over any run that leaves a
    subscriber its cursor, windows cut and advanced over at separate times included, with
    collections at a positive frontier, the cursor moves over exactly the messages the
    windows it advanced over showed plus the drops its advances reported; and those drops,
    plus what is still pending below the channel's retention, are exactly the losses the
    collections reported plus the noise the advances charged, less the messages crossed:
    those a window had already shown when a collection, coming before the window's advance,
    reported them. What an advance over a window books as shown is the number of entries of
    that window its cursor had not passed, and as crossed, the number of those no longer
    retained, none if nothing was collected in between. The times stored are of the years
    0000 to 9999. *)
Theorem durable_run_accounts_for_every_loss u s0 ops db cr :
  db_wf (DateTime := DateTime) db → db_run_ok db ops → cursors db !! (u, s0) = Some cr →
  Forall (db_keeps u s0) ops →
  (∃ db' outs cr', db_run db ops = Returns (db', outs) ∧ cursors db' !! (u, s0) = Some cr' ∧
    let l := db_book u s0 db ops in
    cr_next_owed_seq cr' = cr_next_owed_seq cr + CoreRun.shown l + CoreRun.lost l ∧
    CoreRun.reported l + CoreRun.noise l + db_pending db u cr = CoreRun.lost l + CoreRun.crossed l + db_pending db' u cr') ∧
  (∀ st pl rl db' w th fl, ds_channel_uuid st = u → depth_fits pl → depth_fits rl →
    DbStore.window st db s0 pl rl = Returns (db', Some w) → sw_advance_span w = Some (th, fl) →
    db_op_ok (DateTime := DateTime) st db (DAdvance s0 th fl) ∧ table_frontier db u ≤ fl ∧
    ∀ db1 cr1 db2 (out : @told Uuid DateTime),
      cursors db1 !! (u, s0) = Some cr1 → db_step st db1 (DAdvance s0 th fl) = Returns (db2, out) →
      let l := db_entry st db1 s0 (DAdvance s0 th fl) out in
      CoreRun.shown l = len (filter (λ e : N * MessageEnvelope Uuid DateTime, cr_next_owed_seq cr1 ≤ e.1) (sw_entries w)) ∧
      CoreRun.crossed l = len (filter (λ e : N * MessageEnvelope Uuid DateTime, cr_next_owed_seq cr1 ≤ e.1 ∧ e.1 < table_frontier db1 u) (sw_entries w))).
Proof.
  intros Hwf Hok Hcr Hk. destruct (dw_cursors _ Hwf u s0 cr Hcr) as (_&ch&Hch&_). split.
  - destruct (wf_sim db u ch Hwf Hch) as (c&Hs&Hc).
    destruct (db_run_core u s0 ops db c Hwf Hok Hs Hc) as (db'&outs&cops&c'&Hrun&_&Hd&Hko&Hcr'&Hc'&Hs').
    destruct (CoreRun.core_run_accounts s0 cops c (cur_of cr)) as (c2&l&cur'&Hr2&Hcur'&Ho&Ha); try done.
    { by rewrite (sim_depth _ _ _ Hs). }
    { by rewrite (sim_cursors _ _ _ Hs), Hcr. }
    { by eapply run_does_keeps. }
    rewrite Hcr' in Hr2. simplify_eq. rewrite (sim_cursors _ _ _ Hs') in Hcur'.
    destruct (cursors db' !! (u, s0)) as [cr'|] eqn:Hcs; simplify_eq/=. exists db', outs, cr'.
    rewrite (sim_pending db u c), (sim_pending db' u c2) in Ha by done. done.
  - intros st pl rl db' w th fl <- Hp Hr Hw Hspan.
    destruct (table_window_booked st db ch s0 pl rl db' w th fl) as (Hadv&Hbt&Hab&Hfr); try done.
    split; [done|]. split; [done|]. intros db1 cr1 db2 out Hcr1 Hstep. cbv zeta. rewrite Hbt, Hab.
    by apply (advance_entry_books st db1 s0 th fl cr1 db2).
Qed.

(** (durable) A durable channel answers a resuming consumer as an in-memory ring holding
    the same messages would: same epoch, same decision, same messages under the same
    positions, cut to the channel's own depth and the limit asked for; so its answers keep
    the replay contract. *)
Theorem durable_replay_is_the_rings st db ch cur limit :
  db_wf (DateTime := DateTime) db → channels db !! ds_channel_uuid st = Some ch →
  depth_fits (narrowed_by (deferred_cap st) limit) →
  ∃ c, sim db (ds_channel_uuid st) c ∧ Core.wf c ∧
    DbStore.replay_from st db cur limit =
      Returns (Store.ring_replay_from (Core.ring c) cur (narrowed_by (deferred_cap st) limit)) ∧
    Contract.answers (ch_resume_epoch ch) (ch_last_retained_seq ch) (len (retained_rows db (ds_channel_uuid st)))
      (RingStore.held (Core.ring c)) cur (narrowed_by (deferred_cap st) limit)
      (Store.ring_replay_from (Core.ring c) cur (narrowed_by (deferred_cap st) limit)).
Proof.
  intros Hwf Hch Hfit. destruct (wf_sim db _ ch Hwf Hch) as (c&Hs&Hc). exists c. split_and!; [done|done|by eapply replay_is_rings|].
  apply RingStore.clamp_answers. destruct (sim_channel _ _ _ Hs) as (ch0&Hch0&He&Hn). simplify_eq.
  pose proof (dw_room _ Hwf _ _ Hch). destruct Hc as [Hr _ _ _]. rewrite <-He, (sim_len _ _ _ Hs).
  replace (ch_last_retained_seq ch) with (Ring.newest_seq (Core.ring c)) by (rewrite Ring.newest_seq_wf, Hn by done; lia).
  apply RingStore.ring_answers; [done|]. unfold i64_max, u64_max in *. lia.
Qed.

(** Texts of four-digit years order as their seconds. *)
Lemma text_le (a b : DateTime) :
  four_digit_year a → four_digit_year b →
  str_le (format_ts_for_db a) (format_ts_for_db b) ↔ (timestamp a ≤ timestamp b)%Z.
Proof.
  intros Ha Hb. unfold str_le, String.leb, format_ts_for_db. rewrite rfc3339_order by done.
  rewrite <-Z.compare_le_iff. by destruct (timestamp a ?= timestamp b)%Z.
Qed.

(** What a park adds to the schedule, whatever its time. *)
Lemma parked_due st db ch fresh msg t now :
  db_wf (DateTime := DateTime) db → channels db !! ds_channel_uuid st = Some ch → msg_ok db fresh msg →
  nm_envelope_type msg = Brenn → deferred_cap_refusal db (ds_channel_uuid st) (deferred_cap st) = None →
  ∃ db1, DbStore.park st db fresh msg t = Returns (db1, Ok fresh) ∧
    len (parked_rows db1 (ds_channel_uuid st)) = len (parked_rows db (ds_channel_uuid st)) + 1 ∧
    (four_digit_year t → db_wf (DateTime := DateTime) db1) ∧ channels db1 = channels db ∧
    (fresh ∈ row_uuid <$> due_rows db1 (ds_channel_uuid st) now ↔ str_le (format_ts_for_db t) (format_ts_for_db now)) ∧
    ∃ r, r ∈ parked_rows db1 (ds_channel_uuid st) ∧ row_uuid r = fresh ∧ row_deliver_after r = Some (format_ts_for_db t).
Proof.
  intros Hwf Hch Hmsg Hbr Hcap. rewrite (park_Returns st db ch) by done.
  set (r := new_row db fresh _ msg (Some t) None). set (db1 := with_messages db _).
  assert (Hpk : parked_rows db1 (ds_channel_uuid st) ≡ₚ parked_rows db (ds_channel_uuid st) ++ [r]).
  { unfold parked_rows. rewrite !merge_sort_Permutation. cbn [messages db1 with_messages]. rewrite filter_app, filter_cons_True, filter_nil; [done|].
    unfold on_channel, is_parked. simpl. by rewrite !bool_decide_true. }
  exists db1. split_and!; [done| | |done| |].
  - pose proof (Permutation_length Hpk) as Hl. rewrite length_app in Hl. simpl in Hl. unfold len. lia.
  - intros Ht. destruct (table_park_stepped st db fresh msg t Hwf) as (d&o&Hst&Hd&_); [unfold db_op_ok; by rewrite Hch|].
    cbn [db_step] in Hst. rewrite (park_Returns st db ch) in Hst by done. cbn in Hst. by simplify_eq.
  - split.
    + intros (x&Hx&[Hdue Hin]%list_elem_of_filter)%list_elem_of_fmap. rewrite Hpk, elem_of_app, list_elem_of_singleton in Hin.
      destruct Hin as [Hin| ->]; [|done]. exfalso. destruct Hmsg as [Hf _]. apply Hf. rewrite Hx. apply list_elem_of_fmap_2.
      unfold parked_rows in Hin. rewrite merge_sort_Permutation, list_elem_of_filter in Hin. tauto.
    + intros Hle. apply (list_elem_of_fmap_2 row_uuid _ r). apply list_elem_of_filter. split; [done|].
      rewrite Hpk, elem_of_app, list_elem_of_singleton. by right.
  - exists r. split; [|done]. rewrite Hpk, elem_of_app, list_elem_of_singleton. by right.
Qed.

(** A due row whose text does not read back unwinds the pass. *)
Lemma unreadable_unwinds db (rows : list (MessageRow Uuid)) r u :
  r ∈ rows → row_channel r = Some u → is_Some (channels db !! u) →
  (∃ z, row_deliver_after r = Some z ∧ parse_rfc3339 (DateTime := DateTime) z = None) →
  ∃ why, read_parked (A := N * MessageEnvelope Uuid DateTime) db (λ r m, Returns (row_id r, without_deliver_after m)) rows = Panics why.
Proof.
  intros Hin Hu [ch Hch] (z&Hz&Hbad). unfold read_parked. induction rows as [|x rows IH]; [by apply not_elem_of_nil in Hin|].
  cbn [omap list_omap]. apply elem_of_cons in Hin as [<-|Hin].
  - assert (Hf : bool_decide (is_Some (parse_rfc3339 (DateTime := DateTime) z)) = false).
    { apply bool_decide_eq_false. rewrite Hbad. by intros [? [=]]. }
    assert (Hrd : ∃ why, row_to_message_envelope (DateTime := DateTime) db r = Some (Panics why)).
    { unfold row_to_message_envelope, row_to_envelope. rewrite Hu. cbn. rewrite Hch. cbn. rewrite Hz, Hf.
      destruct (match row_deadline r with Some _ => _ | None => _ end); cbn; by eexists. }
    destruct Hrd as [why Hrd]. rewrite Hrd. by eexists.
  - destruct (IH Hin) as [why Hw]. destruct (row_to_message_envelope db x) as [[m|w]|]; [|by eexists|by exists why].
    exists why. cbn. cbn in Hw. by rewrite Hw.
Qed.

Lemma signed_release_unwinds st db ch r (t now : DateTime) :
  channels db !! ds_channel_uuid st = Some ch → r ∈ parked_rows db (ds_channel_uuid st) →
  row_deliver_after r = Some (format_ts_for_db t) → ¬ four_digit_year t →
  str_le (format_ts_for_db t) (format_ts_for_db now) →
  ∃ why, DbStore.release_due st db now = Panics why.
Proof.
  intros Hch Hr Htext Ht Hle. unfold DbStore.release_due, release_due_for_channel.
  assert (Hin : r ∈ filter (λ r, str_le (due_at r) (format_ts_for_db now)) (parked_rows db (ds_channel_uuid st))).
  { apply list_elem_of_filter. split; [|done]. unfold due_at. by rewrite Htext. }
  assert (Hu : row_channel r = Some (ds_channel_uuid st)).
  { unfold parked_rows in Hr. rewrite merge_sort_Permutation, list_elem_of_filter, andb_true_iff in Hr.
    destruct Hr as [[Hon%bool_decide_eq_true _] _]. done. }
  destruct (unreadable_unwinds db _ r (ds_channel_uuid st) Hin Hu) as [why Hw]; [by rewrite Hch| |].
  { eexists. split; [done|]. unfold parse_rfc3339, format_ts_for_db. by apply rfc3339_refused. }
  rewrite Hw. by eexists.
Qed.

(** C32: (durable) A message parked on a durable channel is released by the second, in the
    years 0000 to 9999: a pass at [now] releases it exactly when [now] has reached the whole
    second its release time falls in, so up to one second before that time. A message parked
    for any other year unwinds the next pass, whenever it runs: its text carries a sign,
    which orders before every four-digit year, so it is due at once, and the parser refuses
    it. *)
Theorem durable_release_is_by_the_second st db ch fresh msg t now :
  db_wf (DateTime := DateTime) db → channels db !! ds_channel_uuid st = Some ch → msg_ok db fresh msg →
  nm_envelope_type msg = Brenn → deferred_cap_refusal db (ds_channel_uuid st) (deferred_cap st) = None →
  ch_last_retained_seq ch + len (parked_rows db (ds_channel_uuid st)) + 1 < i64_max → four_digit_year now →
  ∃ db1, DbStore.park st db fresh msg t = Returns (db1, Ok fresh) ∧
    (four_digit_year t → ∃ db2 out, DbStore.release_due st db1 now = Returns (db2, out) ∧
      (fresh ∈ (λ e, message_id (Ring.message e)) <$> ro_released out ↔ (timestamp t ≤ timestamp now)%Z)) ∧
    (¬ four_digit_year t → ∃ why, DbStore.release_due st db1 now = Panics why).
Proof.
  intros Hwf Hch Hmsg Hbr Hcap Hmax Hnow.
  destruct (parked_due st db ch fresh msg t now) as (db1&Hpark&Hlen&Hwf1&Hchs&Hdue&r&Hr&_&Htext); try done.
  exists db1. split; [done|]. split.
  - intros Ht. destruct (release_ids st db1 ch now (Hwf1 Ht)) as (db2&out&Hrel&Hids); [by rewrite Hchs| |].
    { pose proof (length_filter (λ r, str_le (due_at r) (format_ts_for_db now)) (parked_rows db1 (ds_channel_uuid st))).
      unfold due_rows, len in *. lia. }
    exists db2, out. split; [done|]. rewrite Hids, Hdue. by apply text_le.
  - intros Ht. apply (signed_release_unwinds st db1 ch r t now); try done; [by rewrite Hchs|].
    unfold str_le, String.leb, format_ts_for_db. by rewrite rfc3339_signed.
Qed.
End props.

(** *** A database to evaluate them at *)

Module Demo.
Import NanoClock.

Definition msg (sender : string) : NewMessage N Instant :=
  mkNewMessage "local" sender "hello" Normal Brenn None None None 0.

(** Two channels; the first has a reader. *)
Definition start : Database N :=
  mkDb {[1 := mkChannelRow "brenn:a" 7 0; 2 := mkChannelRow "brenn:b" 8 0]} []
    {[(1, "app:r") := mkCursorRow "r" (Bounded 2) 1]} ∅.
Definition store1 : DbStore N := mkDbStore 1 "brenn:a" (Bounded 8).
Definition store2 : DbStore N := mkDbStore 2 "brenn:b" (Bounded 8).

Lemma start_wf : db_wf (Uuid := N) (DateTime := Instant) start.
Proof.
  apply sim_wf.
  - split_and!; [constructor|by intros ? ? ?%not_elem_of_nil| |].
    + intros u ch Hu. unfold start in Hu. cbn [channels] in Hu.
      apply lookup_insert_Some in Hu as [[_ <-]|[_ Hu]]; [done|]. by apply lookup_singleton_Some in Hu as [_ <-].
    + intros u s [cr Hc]. unfold start in Hc. cbn [cursors] in Hc. apply lookup_singleton_Some in Hc as [[= <- <-] _]. by eexists.
  - intros u ch Hu.
    exists (Core.mkCore (Ring.mkRing (ch_resume_epoch ch) u64_max 1 []) (Deferred.set_new (Some u64_max)) (own_cursors start u)).
    assert (Hlast : ch_last_retained_seq ch = 0).
    { unfold start in Hu. cbn [channels] in Hu. apply lookup_insert_Some in Hu as [[_ <-]|[_ Hu]]; [done|].
      by apply lookup_singleton_Some in Hu as [_ <-]. }
    split; [split; cbn; [by exists ch; rewrite Hlast|done|done|by apply lookup_own_cursors|done]|].
    split; cbn; [apply (Ring.new_wf (ch_resume_epoch ch) u64_max)|apply Deferred.set_new_wf|done|].
    intros s cur Hs. rewrite lookup_own_cursors in Hs. destruct (cursors start !! (u, s)) as [cr|] eqn:Hcr; [|done].
    unfold start in Hcr. cbn [cursors] in Hcr. apply lookup_singleton_Some in Hcr as [_ <-]. simplify_eq/=. lia.
Qed.

(** Three messages land and the reader is shown the newest two; two more land, it is shown
    them, and a pass keeps one before it advances; the other channel parks and releases
    meanwhile. *)
Definition ops : list (DbStore N * @db_op N Instant) :=
  [(store1, DAppend 101 (msg "x")); (store2, DPark 102 (msg "y") (at_ns 1900000000)); (store1, DAppend 103 (msg "x"));
   (store1, DAppend 104 (msg "x")); (store1, DWindow "app:r" (Bounded 2) (Bounded 0)); (store1, DAdvance "app:r" 3 2);
   (store1, DAppend 105 (msg "x")); (store1, DAppend 106 (msg "x")); (store1, DWindow "app:r" (Bounded 2) (Bounded 0));
   (store1, DCollect Brenn 1 SinkDrop None); (store2, DRelease (at_ns 1000000000));
   (store2, DAttachFrom "app:q" "q" Unbounded 1); (store1, DAdvance "app:r" 5 4)].

Definition next (st : DbStore N) (db : Database N) (op : @db_op N Instant) : Database N :=
  match db_step st db op with Returns (db, _) => db | Panics _ => db end.

Lemma run_ok_cons st db op ops :
  db_op_ok st db op → db_run_ok (next st db op) ops → db_run_ok db ((st, op) :: ops).
Proof. intros Ho Hr. split; [done|]. unfold next in Hr. by destruct (db_step st db op) as [[]|]. Qed.

(** Discharge the preconditions of one operation on an evaluated database, then evaluate it. *)
Ltac admitted_op :=
  eapply op_ok_at; [vm_compute; reflexivity|];
  unfold op_pre, msg_ok, depth_fits, four_digit_year;
  repeat match goal with |- _ ∧ _ => split end; try (vm_compute; congruence); try (by left); try (by vm_compute);
  try (cbn; repeat (apply not_elem_of_cons; split; [done|]); apply not_elem_of_nil).
Ltac run_op :=
  apply run_ok_cons; [admitted_op|];
  match goal with |- db_run_ok ?d _ =>
    let d' := eval vm_compute in d in replace d with d' by (vm_compute; reflexivity) end.

Lemma ops_ok : db_run_ok start ops.
Proof. unfold ops. repeat run_op. exact I. Qed.

Lemma ops_keep : Forall (db_keeps 1 "app:r") ops.
Proof. unfold ops. repeat (apply Forall_cons; split; [done|]). constructor. Qed.
End Demo.
Import NanoClock.

Lemma durable_tables_stay_well_formed_witness :
  ∃ db' outs, db_run Demo.start Demo.ops = Returns (db', outs) ∧ db_wf (DateTime := NanoClock.Instant) db'.
Proof. apply (durable_tables_stay_well_formed Demo.start Demo.ops Demo.start_wf Demo.ops_ok). Defined.

Lemma durable_channel_is_its_core_witness :
  ∃ c db' outs cops c', sim Demo.start 1 c ∧ Core.wf c ∧
    db_run Demo.start Demo.ops = Returns (db', outs) ∧ run_does 1 "app:r" c Demo.ops outs cops c' ∧
    CoreRun.core_run "app:r" c cops = Returns (c', db_book 1 "app:r" Demo.start Demo.ops) ∧ Core.wf c' ∧ sim db' 1 c'.
Proof.
  apply (durable_channel_is_its_core 1 "app:r" Demo.ops Demo.start (mkChannelRow "brenn:a" 7 0) Demo.start_wf Demo.ops_ok).
  reflexivity.
Defined.

(** Five messages landed: the reader was shown four, one of which the pass retired, and
    reported, before the reader's advance; the one it never saw was dropped by its own depth. *)
Lemma durable_run_accounts_for_every_loss_witness :
  db_book 1 "app:r" Demo.start Demo.ops = CoreRun.mkLedger 4 1 1 1 1 ∧
  ∃ db' outs cr', db_run Demo.start Demo.ops = Returns (db', outs) ∧ cursors db' !! (1, "app:r") = Some cr' ∧
    let l := db_book 1 "app:r" Demo.start Demo.ops in
    cr_next_owed_seq cr' = 1 + CoreRun.shown l + CoreRun.lost l ∧
    CoreRun.reported l + CoreRun.noise l + db_pending Demo.start 1 (mkCursorRow "r" (Bounded 2) 1) =
      CoreRun.lost l + CoreRun.crossed l + db_pending db' 1 cr'.
Proof.
  split; [vm_compute; reflexivity|].
  apply (durable_run_accounts_for_every_loss 1 "app:r" Demo.ops Demo.start (mkCursorRow "r" (Bounded 2) 1)
    Demo.start_wf Demo.ops_ok eq_refl Demo.ops_keep).
Defined.

Lemma durable_replay_is_the_rings_witness :
  ∃ c, sim Demo.start 1 c ∧ Core.wf c ∧
    DbStore.replay_from Demo.store1 Demo.start (Some (Ring.mkResume 7 0)) (Bounded 4) =
      Returns (Store.ring_replay_from (Core.ring c) (Some (Ring.mkResume 7 0)) (Bounded 4)) ∧
    Contract.answers 7 0 0 (RingStore.held (Core.ring c)) (Some (Ring.mkResume 7 0)) (Bounded 4)
      (Store.ring_replay_from (Core.ring c) (Some (Ring.mkResume 7 0)) (Bounded 4)).
Proof.
  apply (durable_replay_is_the_rings Demo.store1 Demo.start (mkChannelRow "brenn:a" 7 0) (Some (Ring.mkResume 7 0)) (Bounded 4)
    Demo.start_wf eq_refl). vm_compute. congruence.
Defined.

(** A message due at 1.9 s is released at 1.0 s, while its release time is still ahead; one
    due in the year 10000 unwinds the pass. *)
Lemma durable_release_is_by_the_second_witness :
  (later (NanoClock.at_ns 1900000000) (NanoClock.at_ns 1000000000) = true ∧
   ∃ db1 db2 out, DbStore.park Demo.store1 Demo.start 102 (Demo.msg "y") (NanoClock.at_ns 1900000000) = Returns (db1, Ok 102) ∧
    DbStore.release_due Demo.store1 db1 (NanoClock.at_ns 1000000000) = Returns (db2, out) ∧
    (102 ∈ (λ e, message_id (Ring.message e)) <$> ro_released out ↔
     (timestamp (NanoClock.at_ns 1900000000) ≤ timestamp (NanoClock.at_ns 1000000000))%Z)) ∧
  (∃ db1 why, DbStore.park Demo.store1 Demo.start 102 (Demo.msg "y") (NanoClock.at_ns 253402300800000000000) = Returns (db1, Ok 102) ∧
    DbStore.release_due Demo.store1 db1 (NanoClock.at_ns 1000000000) = Panics why).
Proof.
  assert (Hmsg : msg_ok Demo.start 102 (Demo.msg "y")).
  { unfold msg_ok. split_and!; [apply not_elem_of_nil|vm_compute; congruence|vm_compute; congruence|done|by left|done]. }
  assert (Hnow : four_digit_year (NanoClock.at_ns 1000000000)) by (split; vm_compute; congruence).
  split.
  - split; [reflexivity|].
    destruct (durable_release_is_by_the_second Demo.store1 Demo.start (mkChannelRow "brenn:a" 7 0) 102 (Demo.msg "y")
      (NanoClock.at_ns 1900000000) (NanoClock.at_ns 1000000000) Demo.start_wf eq_refl Hmsg eq_refl eq_refl eq_refl Hnow)
      as (db1&Hp&Hin&_).
    destruct Hin as (db2&out&Hr&Hiff); [split; vm_compute; congruence|]. exists db1, db2, out. split; [exact Hp|]. split; [exact Hr|exact Hiff].
  - destruct (durable_release_is_by_the_second Demo.store1 Demo.start (mkChannelRow "brenn:a" 7 0) 102 (Demo.msg "y")
      (NanoClock.at_ns 253402300800000000000) (NanoClock.at_ns 1000000000) Demo.start_wf eq_refl Hmsg eq_refl eq_refl eq_refl Hnow)
      as (db1&Hp&_&Hout).
    destruct Hout as (why&Hr); [intros [_ Hu]; by vm_compute in Hu|]. exists db1, why. split; [exact Hp|exact Hr].
Defined.
End DurableProps.
