(* ===== verification/Bus.v ===== *)
(** * The messenger: publish pipeline and its registries
    ([brenn-messaging/src/publish/mod.rs], [live.rs], the store and overflow half of [lib.rs];
    [brenn-messaging-store/src/store/targets.rs]; [brenn-lib/src/messaging/{tombstone,gates}.rs])

    [Targets] is the registry of subscribers: who may read or publish what, and who is fed
    live. [Messaging] is the state of the [Messenger]: the database, the rings, the
    directory, the buckets and the counters, with the store a channel is reached through.
    [Ladder] is its subscribers: overflow noise, attaching and detaching, deferred control,
    send budgets. [Pipeline] is the publish every principal goes through. The router an
    attached session sits behind answers the questions of [WakeRouter] and is otherwise
    written to, so what it was handed is a log of the state. A clock read and a minted uuid
    are arguments of the operation that makes them. *)

From S2P Require Import Prelude Envelope Ring Cursor Deferred RingCore Grants Access TokenBucket Directory Serve Session Identity Retention DbStore.

#[local] Open Scope N_scope.
#[local] Open Scope list_scope.

(** ** Who is registered *)

Module Targets.
Import Envelope Directory Identity.

(** [SubscriberEntryKind] as a key. *)
#[export] Instance SubscriberEntryKind_countable : Countable SubscriberEntryKind.
Proof.
  refine (inj_countable'
    (λ k, match k with
          | App s => (0, s, 0%Z) | Wasm s => (1, s, 0%Z) | Surface s => (2, s, 0%Z) | Remote s => (3, s, 0%Z)
          | System s => (4, s, 0%Z) | ChatConversation s i => (5, s, i)
          end)
    (λ p, match p with
          | (0, s, _) => App s | (1, s, _) => Wasm s | (2, s, _) => Surface s | (3, s, _) => Remote s
          | (4, s, _) => System s | (_, s, i) => ChatConversation s i
          end) _). by intros [].
Defined.

(** [Lookup]. *)
Inductive Lookup (T : Type) := Live (value : T) | Retired | Unknown.
Arguments Live {T}.
Arguments Retired {T}.
Arguments Unknown {T}.

(** [Lookup::live]. *)
Definition lookup_live {T} (l : Lookup T) : option T :=
  match l with Live v => Some v | Retired | Unknown => None end.

Section registry.
Context {V : Type}.

(** [TombstonedRegistry], with the [Tables] under its lock. *)
Record TombstonedRegistry := mkTombstoned {
  live : gmap SubscriberEntryKind V;
  retired : gset SubscriberEntryKind;
}.

(** [TombstonedRegistry::with_live]. *)
Definition with_live (l : gmap SubscriberEntryKind V) : TombstonedRegistry := mkTombstoned l ∅.

(** [TombstonedRegistry::register]. *)
Definition register (t : TombstonedRegistry) (k : SubscriberEntryKind) (v : V) : panics TombstonedRegistry :=
  _ ← rust_assert (bool_decide (live t !! k = None)) "duplicate registration";
  Returns (mkTombstoned (<[k := v]> (live t)) (retired t ∖ {[k]})).

(** [TombstonedRegistry::replace]. *)
Definition replace (t : TombstonedRegistry) (k : SubscriberEntryKind) (v : V) : panics TombstonedRegistry :=
  _ ← rust_assert (bool_decide (is_Some (live t !! k))) "replace of unregistered";
  Returns (mkTombstoned (<[k := v]> (live t)) (retired t)).

(** [TombstonedRegistry::register_all]. *)
Definition register_all (t : TombstonedRegistry) (entries : list (SubscriberEntryKind * V)) : panics TombstonedRegistry :=
  foldl (λ acc p, t ← acc; register t p.1 p.2) (Returns t) entries.

(** [TombstonedRegistry::retire]. *)
Definition retire (t : TombstonedRegistry) (k : SubscriberEntryKind) : panics TombstonedRegistry :=
  _ ← rust_assert (bool_decide (is_Some (live t !! k))) "retire of unregistered";
  Returns (mkTombstoned (delete k (live t)) ({[k]} ∪ retired t)).

(** [TombstonedRegistry::is_retired], [TombstonedRegistry::is_live]. *)
Definition is_retired (t : TombstonedRegistry) (k : SubscriberEntryKind) : bool := bool_decide (k ∈ retired t).
Definition is_live (t : TombstonedRegistry) (k : SubscriberEntryKind) : bool := bool_decide (is_Some (live t !! k)).

(** [TombstonedRegistry::map], [TombstonedRegistry::get]. *)
Definition registry_map {T} (t : TombstonedRegistry) (k : SubscriberEntryKind) (f : V → T) : Lookup T :=
  match live t !! k with
  | Some v => Live (f v)
  | None => if is_retired t k then Retired else Unknown
  end.
Definition registry_get (t : TombstonedRegistry) (k : SubscriberEntryKind) : Lookup V := registry_map t k (λ v, v).

(** [TombstonedRegistry::counts]. *)
Definition counts (t : TombstonedRegistry) : N * N := (N.of_nat (size (live t)), N.of_nat (size (retired t))).
End registry.
Arguments TombstonedRegistry V : clear implicits.

(** [WakeEconomics]. *)
Inductive WakeEconomics := Eager | UrgencyGated.

#[export] Instance WakeEconomics_eq_dec : EqDecision WakeEconomics.
Proof. solve_decision. Defined.

(** [SubscriberRegistration]. *)
Record SubscriberRegistration := mkRegistration { reg_policy : Access.AppPolicy; reg_wake : WakeEconomics }.

(** The fields of an [AppConfig] the bus reads. *)
Record AppConfig := mkApp {
  app_policy : Access.AppPolicy;
  chat_harness_policy : Access.AppPolicy;
  messaging_budget : option N;
  messaging_default_send_budget : N;
}.

(** [AppConfig::messaging_send_budget]. *)
Definition messaging_send_budget (a : AppConfig) : N :=
  match messaging_budget a with Some b => b | None => messaging_default_send_budget a end.

(** [AttachFeedTarget]. *)
Record AttachFeedTarget := mkFeedTarget { ft_kind : SubscriberEntryKind; ft_push_enabled : bool }.

(** [AttachFeedTarget::subscriber]. *)
Definition feed_subscriber (t : AttachFeedTarget) : panics ParticipantId :=
  match ft_kind t with
  | Surface s => for_surface s
  | Remote s => for_remote s
  | _ => Panics "attach feed target: only attach-shaped subscribers take the row-less live feed"
  end.

(** [TargetResolver]. *)
Record TargetResolver := mkResolver {
  resolver_apps : gmap string AppConfig;
  resolver_subscribers : TombstonedRegistry SubscriberRegistration;
}.

(** [TargetResolver::registration]. *)
Definition registration (r : TargetResolver) (k : SubscriberEntryKind) : option SubscriberRegistration :=
  lookup_live (registry_get (resolver_subscribers r) k).

(** [TargetResolver::policy]. *)
Definition resolver_policy (r : TargetResolver) (k : SubscriberEntryKind) : option Access.AppPolicy :=
  match k with
  | App s => app_policy <$> resolver_apps r !! s
  | ChatConversation s _ => chat_harness_policy <$> resolver_apps r !! s
  | other => lookup_live (registry_map (resolver_subscribers r) other reg_policy)
  end.

(** [TargetResolver::wake_economics]. *)
Definition wake_economics (r : TargetResolver) (k : SubscriberEntryKind) : option WakeEconomics :=
  match k with
  | App s | ChatConversation s _ => (λ _, UrgencyGated) <$> resolver_apps r !! s
  | other => lookup_live (registry_map (resolver_subscribers r) other reg_wake)
  end.

(** [TargetResolver::attach_feed_targets]. *)
Definition attach_feed_targets (r : TargetResolver) (channel_address : string) (subs : list SubscriberEntry)
    : list AttachFeedTarget :=
  omap (λ s,
    match attach_slug (kind s) with
    | None => None
    | Some _ =>
        if match resolver_policy r (kind s) with
           | Some p => Access.allows_channel_access p channel_address
           | None => false
           end
        then Some (mkFeedTarget (kind s) (Directory.is_push_enabled (push_depth s)))
        else None
    end) subs.

(** [wakes_at]. *)
Definition wakes_at (w : WakeEconomics) (wake_min : option WakeMin) (u : Urgency) : panics bool :=
  match w, wake_min with
  | Eager, _ => Returns true
  | UrgencyGated, Some wm => Returns (wakes wm u)
  | UrgencyGated, None => Panics "UrgencyGated subscriber carries no wake_min"
  end.
End Targets.

(** ** The messenger's state, its stores and its noise ladder ([lib.rs]) *)

(** [DeliveryShape]. *)
Inductive DeliveryShape := Inline | ParkedWake.

(** The questions the messenger asks of its [WakeRouter], the binary crate's adapter. *)
Class WakeRouter := {
  any_attach_session_subscribed : string → list Targets.AttachFeedTarget → bool;
  any_surface_session_attached : string → bool;
  delivery_shape : Directory.SubscriberEntryKind → DeliveryShape;
}.

Module Messaging.
Import Envelope Directory Identity Plane Retention Db Targets.

(** Count [n] more under a key: [*map.entry(k).or_insert(0) += n]. *)
Definition count_more {K} `{Countable K} (k : K) (n : N) (c : gmap K N) : gmap K N :=
  <[k := u64_add (default 0 (c !! k)) n]> c.

(** Look a key up in a per-flush cache, computing it on a miss: [entry(k).or_insert_with(f)]. *)
Definition memo {K V} `{Countable K} (cache : gmap K V) (k : K) (f : panics V) : panics (gmap K V * V) :=
  match cache !! k with
  | Some v => Returns (cache, v)
  | None => v ← f; Returns (<[k := v]> cache, v)
  end.

Section messenger.
Context {Uuid DateTime : Type} `{Countable Uuid, Chrono DateTime, ChronoSecs DateTime, ChronoOrd DateTime}.

Abbreviation message := (MessageEnvelope Uuid DateTime).

(** What the messenger hands its router, and the kick it gives the dispatcher. *)
Inductive RouterCall :=
| Deliver (key : SubscriberEntryKind) (envelope : message) (retained_seq : N)
| DeliverContext (key : SubscriberEntryKind) (envelope : message) (retained_seq : N)
| RaiseAlarm (channel : string) (subscriber : ParticipantId) (count : N)
| PushSurfaceDeferredView (slug inst channel : string) (view : list (DeferredMessage Uuid DateTime))
| WakeOwed (key : SubscriberEntryKind) (subscriber : ParticipantId) (spawn_permitted : bool)
| KickDispatcher.

(** [Messenger]. The application table is the resolver's: one [AppTable] is shared by both.
    [called] is what its router was handed, oldest first. *)
Record MessengerState := mkMessenger {
  db : Database Uuid;
  directory : MessagingDirectory Uuid;
  server_source : string;
  targets : TargetResolver;
  max_body_bytes : N;
  ring_stores : RingStores.RingStores Uuid DateTime;
  db_stores : gmap Uuid (DbStore.DbStore Uuid);
  nondurable_dynamic_subs : gset (Uuid * string);
  stranded_warned : gset (Uuid * string);
  acl_denied_warned : gset (Uuid * string);
  attach_send_budgets : gmap string Bucket.TokenBucket;
  send_rate_buckets : gmap (string * Uuid) Bucket.TokenBucket;
  publish_rate_limited : gmap string N;
  publish_denied : gmap (string * string) N;
  dropped_deferred : gmap (string * string) N;
  deferred_control_races : gmap (string * string) N;
  metered_drops : gmap (string * string) N;
  called : list RouterCall;
}.
Implicit Types (m : MessengerState) (entry : ChannelEntry Uuid).

Definition apps m : gmap string AppConfig := resolver_apps (targets m).

Definition with_db m x : MessengerState :=
  mkMessenger x (directory m) (server_source m) (targets m) (max_body_bytes m) (ring_stores m) (db_stores m)
    (nondurable_dynamic_subs m) (stranded_warned m) (acl_denied_warned m) (attach_send_budgets m)
    (send_rate_buckets m) (publish_rate_limited m) (publish_denied m) (dropped_deferred m)
    (deferred_control_races m) (metered_drops m) (called m).
Definition with_directory m x : MessengerState :=
  mkMessenger (db m) x (server_source m) (targets m) (max_body_bytes m) (ring_stores m) (db_stores m)
    (nondurable_dynamic_subs m) (stranded_warned m) (acl_denied_warned m) (attach_send_budgets m)
    (send_rate_buckets m) (publish_rate_limited m) (publish_denied m) (dropped_deferred m)
    (deferred_control_races m) (metered_drops m) (called m).
Definition with_rings m x : MessengerState :=
  mkMessenger (db m) (directory m) (server_source m) (targets m) (max_body_bytes m) x (db_stores m)
    (nondurable_dynamic_subs m) (stranded_warned m) (acl_denied_warned m) (attach_send_budgets m)
    (send_rate_buckets m) (publish_rate_limited m) (publish_denied m) (dropped_deferred m)
    (deferred_control_races m) (metered_drops m) (called m).
Definition with_db_stores m x : MessengerState :=
  mkMessenger (db m) (directory m) (server_source m) (targets m) (max_body_bytes m) (ring_stores m) x
    (nondurable_dynamic_subs m) (stranded_warned m) (acl_denied_warned m) (attach_send_budgets m)
    (send_rate_buckets m) (publish_rate_limited m) (publish_denied m) (dropped_deferred m)
    (deferred_control_races m) (metered_drops m) (called m).
Definition with_warned m x y : MessengerState :=
  mkMessenger (db m) (directory m) (server_source m) (targets m) (max_body_bytes m) (ring_stores m) (db_stores m)
    (nondurable_dynamic_subs m) x y (attach_send_budgets m)
    (send_rate_buckets m) (publish_rate_limited m) (publish_denied m) (dropped_deferred m)
    (deferred_control_races m) (metered_drops m) (called m).
Definition with_attach_budgets m x : MessengerState :=
  mkMessenger (db m) (directory m) (server_source m) (targets m) (max_body_bytes m) (ring_stores m) (db_stores m)
    (nondurable_dynamic_subs m) (stranded_warned m) (acl_denied_warned m) x
    (send_rate_buckets m) (publish_rate_limited m) (publish_denied m) (dropped_deferred m)
    (deferred_control_races m) (metered_drops m) (called m).
Definition with_send_rates m x y : MessengerState :=
  mkMessenger (db m) (directory m) (server_source m) (targets m) (max_body_bytes m) (ring_stores m) (db_stores m)
    (nondurable_dynamic_subs m) (stranded_warned m) (acl_denied_warned m) (attach_send_budgets m)
    x y (publish_denied m) (dropped_deferred m)
    (deferred_control_races m) (metered_drops m) (called m).
Definition with_denied m x : MessengerState :=
  mkMessenger (db m) (directory m) (server_source m) (targets m) (max_body_bytes m) (ring_stores m) (db_stores m)
    (nondurable_dynamic_subs m) (stranded_warned m) (acl_denied_warned m) (attach_send_budgets m)
    (send_rate_buckets m) (publish_rate_limited m) x (dropped_deferred m)
    (deferred_control_races m) (metered_drops m) (called m).
Definition with_dropped m x y : MessengerState :=
  mkMessenger (db m) (directory m) (server_source m) (targets m) (max_body_bytes m) (ring_stores m) (db_stores m)
    (nondurable_dynamic_subs m) (stranded_warned m) (acl_denied_warned m) (attach_send_budgets m)
    (send_rate_buckets m) (publish_rate_limited m) (publish_denied m) x y (metered_drops m) (called m).
Definition with_metered m x : MessengerState :=
  mkMessenger (db m) (directory m) (server_source m) (targets m) (max_body_bytes m) (ring_stores m) (db_stores m)
    (nondurable_dynamic_subs m) (stranded_warned m) (acl_denied_warned m) (attach_send_budgets m)
    (send_rate_buckets m) (publish_rate_limited m) (publish_denied m) (dropped_deferred m)
    (deferred_control_races m) x (called m).
Definition call m (c : RouterCall) : MessengerState :=
  mkMessenger (db m) (directory m) (server_source m) (targets m) (max_body_bytes m) (ring_stores m) (db_stores m)
    (nondurable_dynamic_subs m) (stranded_warned m) (acl_denied_warned m) (attach_send_budgets m)
    (send_rate_buckets m) (publish_rate_limited m) (publish_denied m) (dropped_deferred m)
    (deferred_control_races m) (metered_drops m) (called m ++ [c]).

(** [Messenger::dispatch_kick]. *)
Definition dispatch_kick m : MessengerState := call m KickDispatcher.

(** [Messenger::record_dropped_deferred], [Messenger::record_deferred_control_race]. *)
Definition record_dropped_deferred m (principal channel : string) : MessengerState :=
  with_dropped m (count_more (principal, channel) 1 (dropped_deferred m)) (deferred_control_races m).
Definition record_deferred_control_race m (consumer channel : string) : MessengerState :=
  with_dropped m (dropped_deferred m) (count_more (consumer, channel) 1 (deferred_control_races m)).

(** *** Stores *)

(** An [Arc<dyn RetentionStore>]: a table's store, or the ring of a channel. *)
Inductive StoreHandle := InTable (st : DbStore.DbStore Uuid) | InRing (u : Uuid).

(** [Messenger::store_for]. *)
Definition store_for m entry : panics (MessengerState * StoreHandle) :=
  caps ← entry_capabilities entry;
  if durable caps then
    match db_stores m !! uuid entry with
    | Some st => Returns (m, InTable st)
    | None =>
        let st := DbStore.mkDbStore (uuid entry) (address entry) (channel_retain_depth (resolved_channel entry)) in
        Returns (with_db_stores m (<[uuid entry := st]> (db_stores m)), InTable st)
    end
  else
    _ ← rust_expect (RingStores.get (ring_stores m) (uuid entry))
          "messaging: non-durable channel is in the directory but has no retention store";
    Returns (m, InRing (uuid entry)).

(** [Messenger::store_for_address], [Messenger::store_for_bound_output]. *)
Definition store_for_address m (addr : string) : panics (MessengerState * StoreHandle) :=
  entry ← rust_expect (resolve (directory m) addr) "messaging: store requested for channel not in the directory";
  store_for m entry.
Definition store_for_bound_output m (addr : string) : panics (MessengerState * StoreHandle) :=
  entry ← rust_expect (resolve (directory m) addr) "messaging: a bound output port must resolve";
  store_for m entry.

(** [Messenger::ring_store]. *)
Definition ring_store m (u : Uuid) : panics (RingStore.RingStore Uuid DateTime) :=
  rust_expect (RingStores.get (ring_stores m) u) "messaging: channel has no ring store".

(** A store method, on the table's database or on the ring behind its handle. *)
Definition on_table {A} m (f : Database Uuid → panics (Database Uuid * A)) : panics (MessengerState * A) :=
  '(d, a) ← f (db m); Returns (with_db m d, a).
Definition on_ring {A} m (u : Uuid)
    (f : RingStore.RingStore Uuid DateTime → panics (RingStore.RingStore Uuid DateTime * A))
    : panics (MessengerState * A) :=
  st ← ring_store m u;
  '(st, a) ← f st;
  Returns (with_rings m (RingStores.put (ring_stores m) u st), a).

(** The methods of [RetentionStore] the messenger calls, each through the handle's table. *)
Definition dyn_append m (h : StoreHandle) (fresh : Uuid) (msg : NewMessage Uuid DateTime)
    : panics (MessengerState * AppendOutcome Uuid) :=
  match h with
  | InTable st => on_table m (λ d, DbStore.append st d fresh msg)
  | InRing u => on_ring m u (λ st, RingStore.store_append st fresh msg)
  end.
Definition dyn_park m (h : StoreHandle) (fresh : Uuid) (msg : NewMessage Uuid DateTime) (release_at : DateTime)
    : panics (MessengerState * result Uuid Deferred.QuotaExceeded) :=
  match h with
  | InTable st => on_table m (λ d, DbStore.park st d fresh msg release_at)
  | InRing u => on_ring m u (λ st, RingStore.store_park st fresh msg release_at)
  end.
Definition dyn_next_release m (h : StoreHandle) : panics (option DateTime) :=
  match h with
  | InTable st => DbStore.next_release st (db m)
  | InRing u => st ← ring_store m u; RingStore.next_release st
  end.
Definition dyn_release_due m (h : StoreHandle) (now : DateTime) : panics (MessengerState * ReleaseOutcome message) :=
  match h with
  | InTable st => on_table m (λ d, DbStore.release_due st d now)
  | InRing u => on_ring m u (λ st, RingStore.store_release_due st now)
  end.
Definition dyn_deferred_for_sender m (h : StoreHandle) (sender : string)
    : panics (list (DeferredMessage Uuid DateTime)) :=
  match h with
  | InTable st => DbStore.deferred_for_sender st (db m) sender
  | InRing u => st ← ring_store m u; RingStore.deferred_for_sender st sender
  end.
Definition dyn_deferred_senders m (h : StoreHandle) (now : DateTime) : panics (list string) :=
  match h with
  | InTable st => Returns (DbStore.deferred_senders st (db m) now)
  | InRing u => st ← ring_store m u; RingStore.deferred_senders st now
  end.
Definition dyn_cancel_deferred m (h : StoreHandle) (sender : string) (id : Uuid) (now : DateTime)
    : panics (MessengerState * DeferralOutcome DateTime) :=
  match h with
  | InTable st => on_table m (λ d, DbStore.cancel_deferred st d sender id now)
  | InRing u => on_ring m u (λ st, RingStore.cancel_deferred st sender id now)
  end.
Definition dyn_edit_deferred m (h : StoreHandle) (sender : string) (id : Uuid) (body : option string)
    (release_at : option DateTime) (now : DateTime) : panics (MessengerState * DeferralOutcome DateTime) :=
  match h with
  | InTable st => on_table m (λ d, DbStore.edit_deferred st d sender id body release_at now)
  | InRing u => on_ring m u (λ st, RingStore.edit_deferred st sender id body release_at now)
  end.
Definition dyn_attach m (h : StoreHandle) (subscriber app_slug : string) (push_depth : Depth)
    : panics (MessengerState * Core.Attached) :=
  match h with
  | InTable st => on_table m (λ d, DbStore.attach st d subscriber app_slug push_depth)
  | InRing u => on_ring m u (λ st, Returns (RingStore.store_attach st subscriber app_slug push_depth))
  end.
Definition dyn_attach_from m (h : StoreHandle) (subscriber app_slug : string) (push_depth : Depth) (floor : N)
    : panics (MessengerState * Core.Attached) :=
  match h with
  | InTable st => on_table m (λ d, DbStore.attach_from st d subscriber app_slug push_depth floor)
  | InRing u => on_ring m u (λ st, RingStore.store_attach_from st subscriber app_slug push_depth floor)
  end.
Definition dyn_detach m (h : StoreHandle) (subscriber : string) : panics (MessengerState * option N) :=
  match h with
  | InTable st => on_table m (λ d, Returns (DbStore.detach st d subscriber))
  | InRing u => on_ring m u (λ st, Returns (RingStore.detach st subscriber))
  end.
Definition dyn_window m (h : StoreHandle) (subscriber : string) (push retain : Depth)
    : panics (MessengerState * option (SubscriberWindow message)) :=
  match h with
  | InTable st => on_table m (λ d, DbStore.window st d subscriber push retain)
  | InRing u => on_ring m u (λ st, Returns (RingStore.store_window st subscriber push retain))
  end.
Definition dyn_advance m (h : StoreHandle) (subscriber : string) (through seen_floor : N)
    : panics (MessengerState * option Cursor.Advance) :=
  match h with
  | InTable st => on_table m (λ d, DbStore.advance st d subscriber through seen_floor)
  | InRing u => on_ring m u (λ st, RingStore.advance st subscriber through seen_floor)
  end.
Definition dyn_has_deliverable m (h : StoreHandle) (subscriber : string) : panics bool :=
  match h with
  | InTable st => Returns (DbStore.has_deliverable st (db m) subscriber)
  | InRing u => st ← ring_store m u; Returns (RingStore.store_has_deliverable st subscriber)
  end.
Definition dyn_deliverable_subscribers m (h : StoreHandle) : panics (list (DeliverableSubscriber DateTime)) :=
  match h with
  | InTable st => DbStore.deliverable_subscribers st (db m)
  | InRing u => st ← ring_store m u; RingStore.deliverable_subscribers st
  end.
End messenger.
Arguments MessengerState Uuid DateTime {_ _}.
Arguments RouterCall Uuid DateTime : clear implicits.
Arguments StoreHandle Uuid : clear implicits.
End Messaging.

(** ** Overflow, positions and schedules *)

Module Ladder.
Import Envelope Directory Identity Plane Retention Targets Messaging.

(** [registered_subscriber]'s comparison of a registration with what an identity names. *)
Definition matches_kind (k : SubscriberEntryKind) (named : SubscriberKind) (app_slug : option string) : bool :=
  match k, named with
  | App registered, KConversation _ =>
      match app_slug with Some s => String.eqb registered s | None => false end
  | Wasm registered, KWasm s => String.eqb registered s
  | System registered, KSystem s => String.eqb registered s
  | Surface registered, KSurface s _ => String.eqb registered s
  | Remote registered, KRemote s => String.eqb registered s
  | ChatConversation _ conversation_id, KConversation id => (conversation_id =? id)%Z
  | _, _ => false
  end.

(** [OverflowNoise]. *)
Inductive OverflowNoise := Noise (l : NoiseLevel) | AttachExempt | Unregistered.

(** [registration_key]. *)
Definition registration_key (target : ParticipantId) (target_app_slug : string) : panics SubscriberEntryKind :=
  k ← identity_kind target;
  match k with
  | KConversation _ =>
      _ ← rust_assert (negb (String.eqb target_app_slug "")) "registration_key: empty target_app_slug";
      Returns (App target_app_slug)
  | KWasm s => Returns (Wasm s)
  | KSurface s _ => Returns (Surface s)
  | KRemote s => Returns (Remote s)
  | KSystem c => Returns (System c)
  end.

Section ladder.
Context {Uuid DateTime : Type} `{Countable Uuid, Chrono DateTime, ChronoSecs DateTime, ChronoOrd DateTime}.
Implicit Types (m : MessengerState Uuid DateTime) (entry : ChannelEntry Uuid).

(** [registered_subscriber]: the identity is read once there is a registration to compare. *)
Definition registered_subscriber entry (subscriber : ParticipantId) (app_slug : option string)
    : panics (option SubscriberEntry) :=
  match subscribers entry with
  | [] => Returns None
  | subs =>
      named ← identity_kind subscriber;
      Returns (snd <$> list_find (λ s, matches_kind (kind s) named app_slug = true) subs)
  end.

(** [overflow_noise_for]. *)
Definition overflow_noise_for entry (subscriber : ParticipantId) (app_slug : option string)
    : panics OverflowNoise :=
  r ← registered_subscriber entry subscriber app_slug;
  Returns (match r with
           | None => Unregistered
           | Some registration =>
               match attach_slug (kind registration) with
               | Some _ => AttachExempt
               | None => Noise (noise registration)
               end
           end).

(** [Messenger::enact_overflow_noise]. *)
Definition enact_overflow_noise m (channel : string) (subscriber : ParticipantId) (level : NoiseLevel) (n : N)
    : panics (MessengerState Uuid DateTime) :=
  if n =? 0 then Returns m
  else
    m ← match level with
        | Silent => Returns m
        | Metered | Alarm => Returns (with_metered m (count_more (channel, subscriber) n (metered_drops m)))
        | Fatal => Panics "enact_overflow_noise reached noise = fatal"
        end;
    Returns (match level with Alarm => call m (RaiseAlarm channel subscriber n) | _ => m end).

(** One event of [Messenger::enact_overflow_events]. *)
Definition enact_overflow_event entry m (event : OverflowEvent) : panics (MessengerState Uuid DateTime) :=
  verdict ← overflow_noise_for entry (ov_subscriber event) (ov_app_slug event);
  match verdict with
  | Noise level => enact_overflow_noise m (address entry) (ov_subscriber event) level (ov_dropped event)
  | AttachExempt => Returns m
  | Unregistered =>
      k ← identity_kind (ov_subscriber event);
      match k with
      | KConversation _ => Panics "messaging: overflow for a conversation under no App registration"
      | _ => Returns m
      end
  end.

(** [Messenger::enact_overflow_events]. *)
Definition enact_overflow_events m entry (events : list OverflowEvent) : panics (MessengerState Uuid DateTime) :=
  foldl (λ acc event, m ← acc; enact_overflow_event entry m event) (Returns m) events.

(** [Messenger::enact_overflow_for_channel]. *)
Definition enact_overflow_for_channel m (addr : string) (events : list OverflowEvent)
    : panics (MessengerState Uuid DateTime) :=
  match events with
  | [] => Returns m
  | _ =>
      entry ← rust_expect (resolve (directory m) addr) "messaging: overflow for channel not in the directory";
      enact_overflow_events m entry events
  end.

(** [Messenger::drop_counter], [Messenger::forget_metered_drops]. *)
Definition drop_counter m (channel : string) (subscriber : ParticipantId) : panics N :=
  _ ← rust_expect (resolve (directory m) channel) "messaging: drop counter for channel not in the directory";
  Returns (default 0 (metered_drops m !! (channel, subscriber))).
Definition forget_metered_drops m (channel : string) (subscriber : ParticipantId) : MessengerState Uuid DateTime :=
  with_metered m (delete (channel, subscriber) (metered_drops m)).

(** *** Positions *)

(** [Messenger::attach_ring_subscriber]. *)
Definition attach_ring_subscriber m (u : Uuid) (subscriber : ParticipantId) (push_depth : N)
    : panics (MessengerState Uuid DateTime * Core.Attached) :=
  k ← registration_key subscriber "";
  on_ring m u (λ st, Returns (RingStore.attach st subscriber (slug k) push_depth)).

(** [Messenger::attach_subscriber_from], [Messenger::attach_subscriber]. *)
Definition attach_subscriber_from m (addr app_slug : string) (subscriber : ParticipantId) (push_depth : Depth)
    (floor : option N) : panics (MessengerState Uuid DateTime * Core.Attached) :=
  entry ← rust_expect (resolve (directory m) addr) "messaging: a wired input must resolve";
  '(m, h) ← store_for m entry;
  match floor with
  | Some floor => dyn_attach_from m h subscriber app_slug push_depth floor
  | None => dyn_attach m h subscriber app_slug push_depth
  end.
Definition attach_subscriber m (addr app_slug : string) (subscriber : ParticipantId) (push_depth : Depth) :=
  attach_subscriber_from m addr app_slug subscriber push_depth None.

(** [Messenger::detach_subscriber]. *)
Definition detach_subscriber m (addr : string) (subscriber : ParticipantId)
    : panics (MessengerState Uuid DateTime * option N) :=
  entry ← rust_expect (resolve (directory m) addr) "messaging: detach for channel not in the directory";
  '(m, h) ← store_for m entry;
  '(m, dropped) ← dyn_detach m h subscriber;
  Returns (forget_metered_drops m (address entry) subscriber, dropped).

(** [Messenger::advance_subscriber]. *)
Definition advance_subscriber m (addr : string) (subscriber : ParticipantId) (through seen_floor : N)
    (level : NoiseLevel) : panics (MessengerState Uuid DateTime * option Cursor.Advance) :=
  entry ← rust_expect (resolve (directory m) addr) "messaging: advance for channel not in the directory";
  '(m, h) ← store_for m entry;
  '(m, outcome) ← dyn_advance m h subscriber through seen_floor;
  match outcome with
  | None => Returns (m, None)
  | Some a =>
      m ← enact_overflow_noise m (address entry) subscriber level (Cursor.noise_charge a);
      Returns (m, Some a)
  end.

(** *** Schedules *)

(** [Messenger::deferred_view_for_sender]. *)
Definition deferred_view_for_sender m (addr sender : string)
    : panics (MessengerState Uuid DateTime * list (DeferredMessage Uuid DateTime)) :=
  '(m, h) ← store_for_bound_output m addr;
  view ← dyn_deferred_for_sender m h sender;
  Returns (m, view).

(** [Messenger::cancel_deferred_for_sender], [Messenger::edit_deferred_for_sender]. *)
Definition cancel_deferred_for_sender m (addr sender : string) (id : Uuid) (now : DateTime)
    : panics (MessengerState Uuid DateTime * DeferralOutcome DateTime) :=
  '(m, h) ← store_for_bound_output m addr;
  dyn_cancel_deferred m h sender id now.
Definition edit_deferred_for_sender m (addr sender : string) (id : Uuid) (body : option string)
    (release_at : option DateTime) (now : DateTime)
    : panics (MessengerState Uuid DateTime * DeferralOutcome DateTime) :=
  '(m, h) ← store_for_bound_output m addr;
  dyn_edit_deferred m h sender id body release_at now.

(** *** Send budgets of the attach plane *)

(** [AttachSendBudget]; [refill] in nanoseconds. *)
Record AttachSendBudget := mkSendBudget { budget_burst : N; budget_refill : N }.

(** [bucket_for]. *)
Definition bucket_for (b : AttachSendBudget) (now : N) : panics Bucket.TokenBucket :=
  Bucket.new (budget_burst b) (budget_refill b) 1 now.

(** [attach_principal_budgets]. *)
Definition attach_principal_budgets (scope : AttachScope) (principals : list (option string * AttachSendBudget))
    : panics (list (ParticipantId * AttachSendBudget)) :=
  mapM (λ p, id ← scope_principal scope p.1; Returns (id, p.2)) principals.

(** The insertion loop of [with_attach_send_budgets] and [set_attach_send_budgets]. *)
Definition install_budgets (map : gmap string Bucket.TokenBucket) (fresh : list (ParticipantId * Bucket.TokenBucket))
    : panics (gmap string Bucket.TokenBucket) :=
  foldl (λ acc p,
    map ← acc;
    _ ← rust_assert (bool_decide (map !! p.1 = None)) "duplicate budget for attach principal";
    Returns (<[p.1 := p.2]> map)) (Returns map) fresh.

(** [Messenger::with_attach_send_budgets]. *)
Definition with_attach_send_budgets m (principals : list (ParticipantId * AttachSendBudget)) (now : N)
    : panics (MessengerState Uuid DateTime) :=
  fresh ← mapM (λ p, b ← bucket_for p.2 now; Returns (p.1, b)) principals;
  map ← install_budgets (attach_send_budgets m) fresh;
  Returns (with_attach_budgets m map).

(** [retain(|principal, _| !scope.covers(principal))]. *)
Definition without_scope (scope : AttachScope) (map : gmap string Bucket.TokenBucket)
    : panics (gmap string Bucket.TokenBucket) :=
  kept ← mapM (λ p : string * Bucket.TokenBucket, c ← covers scope p.1; Returns (p, c)) (map_to_list map);
  Returns (list_to_map (filter (λ p, p.2 = false) kept).*1).

(** [Messenger::set_attach_send_budgets]. *)
Definition set_attach_send_budgets m (scope : AttachScope) (principals : list (ParticipantId * AttachSendBudget))
    (now : N) : panics (MessengerState Uuid DateTime) :=
  fresh ← mapM (λ p : ParticipantId * AttachSendBudget,
             c ← covers scope p.1;
             _ ← rust_assert c "set_attach_send_budgets: principal is outside scope";
             b ← bucket_for p.2 now; Returns (p.1, b)) principals;
  kept ← without_scope scope (attach_send_budgets m);
  map ← install_budgets kept fresh;
  Returns (with_attach_budgets m map).

(** [Messenger::remove_attach_send_budgets]. *)
Definition remove_attach_send_budgets m (scope : AttachScope) : panics (MessengerState Uuid DateTime) :=
  kept ← without_scope scope (attach_send_budgets m);
  Returns (with_attach_budgets m kept).

(** [Messenger::forget_send_rate_buckets]. *)
Definition forget_send_rate_buckets m (us : list Uuid) : MessengerState Uuid DateTime :=
  match us with
  | [] => m
  | _ => with_send_rates m (filter (λ p : (string * Uuid) * Bucket.TokenBucket, p.1.2 ∉ us) (send_rate_buckets m))
           (publish_rate_limited m)
  end.
End ladder.
End Ladder.

(** ** Publishing ([publish/mod.rs], [live.rs], [gates.rs]) *)

Module Pipeline.
Import Envelope Directory Identity Plane Retention Targets Messaging Ladder.

(** [PublishOrigin]. *)
Inductive PublishOrigin := FromConversation (id : Z) | FromSystem.

#[export] Instance PublishOrigin_eq_dec : EqDecision PublishOrigin.
Proof. solve_decision. Defined.

(** [PublishPrincipal]. *)
Inductive PublishPrincipal :=
| PApp (app : string)
| PAttach (scope : AttachScope) (attribution : option string) (platform : bool)
| PSystem (component : string)
| PConversation (id : Z) (app : string).

(** [DenialKind]. *)
Inductive DenialKind :=
| DenyMalformedAddress | DenyUnknownChannel | DenyMissingSender | DenyAclDenied | DenyBodyTooLarge
| DenyGrantAbsent | DenyImpetusUnauthorized.

(** [DenialKind::as_str]. *)
Definition denial_as_str (k : DenialKind) : string :=
  match k with
  | DenyMalformedAddress => "malformed_address"
  | DenyUnknownChannel => "unknown_channel"
  | DenyMissingSender => "missing_sender"
  | DenyAclDenied => "acl_denied"
  | DenyBodyTooLarge => "body_too_large"
  | DenyGrantAbsent => "grant_absent"
  | DenyImpetusUnauthorized => "impetus_unauthorized"
  end.

(** [PublishResult::signal_kind]. *)
Definition signal_kind {Uuid} (r : BusResult Uuid) : option DenialKind :=
  match r with
  | ResMalformedAddress _ => Some DenyMalformedAddress
  | ResUnknownChannel _ => Some DenyUnknownChannel
  | ResMissingSender => Some DenyMissingSender
  | ResAclDenied _ => Some DenyAclDenied
  | ResBodyTooLarge _ _ => Some DenyBodyTooLarge
  | ResImpetusUnauthorized => Some DenyImpetusUnauthorized
  | ResOk _ _ _ | ResBudgetExhausted | ResRateLimited | ResDeferredQuotaExceeded _ => None
  end.

(** [PublishResult::denied_address]. *)
Definition denied_address {Uuid} (r : BusResult Uuid) : option string :=
  match r with
  | ResMalformedAddress a | ResUnknownChannel a | ResAclDenied a => Some a
  | _ => None
  end.

(** *** The gates *)

(** [resolve_publish_sender]. *)
Definition resolve_publish_sender (apps : gmap string AppConfig) (s : string) (grant : Caps.AppCapability)
    : option AppConfig :=
  a ← apps !! s; if Access.has_grant (app_policy a) grant then Some a else None.

(** [publish_acl_allows]. *)
Definition publish_acl_allows (policy : Access.AppPolicy) (scheme : ChannelScheme) (name : string) : bool :=
  match scheme with
  | Brenn => Access.allows_brenn_publish policy name
  | Ephemeral => Access.allows_ephemeral_publish policy name
  | Local => Access.allows_local_publish policy name
  | Mqtt | Webhook | PwaPush => false
  end.

(** [reply_to_visible]. *)
Definition reply_to_visible (policy : Access.AppPolicy) (scheme : ChannelScheme) (name addr : string) : bool :=
  publish_acl_allows policy scheme name || Access.allows_channel_access policy addr.

(** [check_body_size], with [BodySizeExceeded]. *)
Definition check_body_size (body : string) (max : N) : result unit (N * N) :=
  if max <? str_len body then Err (str_len body, max) else Ok tt.

(** The grant layer 1 demands of a publish on a scheme. *)
Definition publish_grant (scheme : ChannelScheme) : Caps.AppCapability :=
  match scheme with
  | Ephemeral => Caps.EphemeralPublish
  | Local => Caps.LocalPublish
  | _ => Caps.MessagingPublish
  end.

Definition granted_policy (grant : Caps.AppCapability) (p : option Access.AppPolicy) : option Access.AppPolicy :=
  p ← p; if Access.has_grant p grant then Some p else None.

Section pipeline.
Context {Uuid DateTime : Type} `{Countable Uuid, Chrono DateTime, ChronoSecs DateTime, ChronoOrd DateTime}.
Context `{WakeRouter}.
Implicit Types (m : MessengerState Uuid DateTime) (entry : ChannelEntry Uuid) (p : PublishPrincipal).

Abbreviation message := (MessageEnvelope Uuid DateTime).
Abbreviation outcome := (panics (MessengerState Uuid DateTime * BusResult Uuid)).

(** The clock reads of one publish, in the order it makes them, and the id it mints. *)
Record Reads := mkReads {
  at_budget : N;
  at_bucket : N;
  at_rate : N;
  at_schedule : DateTime;
  at_stamp : DateTime;
  minted : Uuid;
}.

(** [Messenger::principal_identity]. *)
Definition principal_identity m p : panics ParticipantId :=
  match p with
  | PApp s => for_app s (server_source m)
  | PAttach scope attribution _ => scope_principal scope attribution
  | PSystem component => for_system component
  | PConversation id _ => Returns (for_conversation id)
  end.

(** The authority a principal publishes under: step 2 of [publish_gated]. *)
Definition publish_authority m p (grant : Caps.AppCapability) : option (Access.AppPolicy * option N) :=
  match p with
  | PApp s =>
      a ← resolve_publish_sender (apps m) s grant;
      Some (app_policy a, Some (messaging_send_budget a))
  | PAttach scope _ _ =>
      q ← granted_policy grant (reg_policy <$> registration (targets m) (for_attach scope)); Some (q, None)
  | PSystem component =>
      q ← granted_policy grant (reg_policy <$> registration (targets m) (System component)); Some (q, None)
  | PConversation _ s =>
      q ← granted_policy grant (chat_harness_policy <$> apps m !! s); Some (q, None)
  end.

(** Step 1's shape gate: the channel name an address spells, for this principal. *)
Definition publish_name p (addr : string) (scheme : ChannelScheme) : option string :=
  let is_system := match p with PSystem _ => true | _ => false end in
  match strip_prefix (prefix Brenn) addr with
  | Some name =>
      if is_system && is_reserved_channel name
      then (if String.eqb name "" then None else Some name)
      else Session.well_formed_name addr scheme
  | None => Session.well_formed_name addr scheme
  end.

(** Step 3a: what a reply address resolves to, shape first, then visibility, then existence. *)
Definition reply_target m (policy : Access.AppPolicy) (reply_to : option string)
    : result (option (ReplyTarget Uuid)) (BusResult Uuid) :=
  match reply_to with
  | None => Ok None
  | Some rt =>
      match Session.well_formed_name rt Brenn with
      | None => Err (ResMalformedAddress rt)
      | Some name =>
          if negb (reply_to_visible policy Brenn name rt) then Err (ResAclDenied rt)
          else match resolve (directory m) rt with
               | Some c => Ok (Some (mkReplyTarget (uuid c) (address c)))
               | None => Err (ResUnknownChannel rt)
               end
      end
  end.

(** What the gates that spend nothing admitted. *)
Record Admission := mkAdmission {
  ad_channel : ChannelEntry Uuid;
  ad_caps : ChannelCapabilities;
  ad_scheme : ChannelScheme;
  ad_budget : option N;
  ad_reply : option (ReplyTarget Uuid);
}.

(** Steps 1 to 3a of [Messenger::publish_gated]: every gate that spends nothing, in order. *)
Definition validate m p (addr body : string) (reply_to : option string) (impetus : option Impetus)
    : panics (result Admission (BusResult Uuid)) :=
  match scheme_of addr with
  | None => Returns (Err (ResMalformedAddress addr))
  | Some scheme =>
  match publish_name p addr scheme with
  | None => Returns (Err (ResMalformedAddress addr))
  | Some name =>
  match resolve (directory m) addr with
  | None => Returns (Err (ResUnknownChannel addr))
  | Some entry =>
      caps ← entry_capabilities entry;
      match publish_authority m p (publish_grant scheme) with
      | None => Returns (Err ResMissingSender)
      | Some (policy, budget) =>
          if negb (publish_acl_allows policy scheme name) then Returns (Err (ResAclDenied addr))
          else if bool_decide (is_Some impetus) && negb (Access.has_grant policy Caps.MintImpetus)
          then Returns (Err ResImpetusUnauthorized)
          else match check_body_size body (max_body_bytes m) with
               | Err (n, max) => Returns (Err (ResBodyTooLarge n max))
               | Ok _ =>
                   match reply_target m policy reply_to with
                   | Err e => Returns (Err e)
                   | Ok reply => Returns (Ok (mkAdmission entry caps scheme budget reply))
                   end
               end
      end
  end end end.

(** [Messenger::draw_attach_send_budget]. *)
Definition draw_attach_send_budget m (principal : ParticipantId) (n now : N)
    : panics (MessengerState Uuid DateTime * AttachSendVerdict) :=
  b ← rust_expect (attach_send_budgets m !! principal) "draw_attach_send_budget: no send budget";
  '(b, o) ← Bucket.try_consume_n b now n;
  Returns (with_attach_budgets m (<[principal := b]> (attach_send_budgets m)),
           match o with Bucket.Denied _ => SendDenied | _ => SendAdmitted end).

(** [Messenger::draw_attach_send_budget_for_batch]. *)
Definition draw_attach_send_budget_for_batch m (scope : AttachScope) (attribution : option string) (n now : N)
    : panics (MessengerState Uuid DateTime * AttachSendVerdict) :=
  principal ← scope_principal scope attribution;
  draw_attach_send_budget m principal n now.

(** [SendRate::bucket]. *)
Definition rate_bucket (r : SendRate) (now : N) : panics Bucket.TokenBucket :=
  Bucket.new (rate_burst r) (refill_interval_secs r * 1000000000) (rate_refill r) now.

(** [Messenger::draw_send_rate]. *)
Definition draw_send_rate m (sender : string) entry (at_bucket at_rate : N)
    : panics (MessengerState Uuid DateTime * bool) :=
  b ← match send_rate_buckets m !! (sender, uuid entry) with
      | Some b => Returns b
      | None => rate_bucket (send_rate (resolved_channel entry)) at_bucket
      end;
  '(b, o) ← Bucket.try_consume b at_rate;
  let buckets := <[(sender, uuid entry) := b]> (send_rate_buckets m) in
  Returns (match o with
           | Bucket.Denied _ =>
               (with_send_rates m buckets (count_more sender 1 (publish_rate_limited m)), false)
           | _ => (with_send_rates m buckets (publish_rate_limited m), true)
           end).

(** Steps 3b to 5 of [Messenger::publish_gated]: the attach budget, the send rate, the
    conversation's budget. *)
Definition spend m (r : Reads) (origin : PublishOrigin) p (sender : string) (ad : Admission)
    : panics (MessengerState Uuid DateTime * result (option N) (BusResult Uuid)) :=
  '(m, attach) ←
    match p with
    | PAttach _ _ false =>
        if durable (ad_caps ad) then draw_attach_send_budget m sender 1 (at_budget r) else Returns (m, SendAdmitted)
    | _ => Returns (m, SendAdmitted)
    end;
  match attach with
  | SendDenied => Returns (m, Err ResBudgetExhausted)
  | SendAdmitted =>
      '(m, admitted) ← draw_send_rate m sender (ad_channel ad) (at_bucket r) (at_rate r);
      if negb admitted then Returns (m, Err ResRateLimited)
      else match origin with
           | FromSystem => Returns (m, Ok None)
           | FromConversation id =>
               budget ← rust_expect (ad_budget ad) "Conversation origin requires a send budget";
               let '(d, o) := Db.decrement_send_budget (db m) id budget in
               Returns (with_db m d,
                        match o with
                        | Db.BudgetOk remaining => Ok (Some remaining)
                        | Db.BudgetIsExhausted => Err ResBudgetExhausted
                        end)
           end
  end.

(** *** The live feed *)

(** [surface_feed_envelope]. *)
Definition surface_feed_envelope (id : Uuid) (source channel sender : string) (publish_ts_ns : Z) (body : string)
    (reply_to : option string) (delivery_deadline deliver_after : option DateTime) (impetus : option Impetus)
    (urgency : Urgency) (scheme : ChannelScheme) : panics message :=
  ts ← ns_to_utc publish_ts_ns;
  Returns (mkEnvelope id source channel sender ts body reply_to delivery_deadline deliver_after impetus urgency scheme).

(** [Messenger::attached_feed_targets]. *)
Definition attached_feed_targets m entry : list AttachFeedTarget :=
  let current := default entry (resolve (directory m) (address entry)) in
  let ts := attach_feed_targets (targets m) (address entry) (subscribers current) in
  match ts with
  | [] => []
  | _ => if any_attach_session_subscribed (address entry) ts then ts else []
  end.

(** [Messenger::fan_out_attach_feed]; a failed delivery is only logged. *)
Definition fan_out_attach_feed m (ts : list AttachFeedTarget) (envelope : message) (retained_seq : N)
    : MessengerState Uuid DateTime :=
  foldl (λ m t, call m (if ft_push_enabled t then Deliver (ft_kind t) envelope retained_seq
                        else DeliverContext (ft_kind t) envelope retained_seq)) m ts.

(** [i64::try_from(seq).expect(..)]. *)
Definition wire_seq (s : N) : panics N :=
  _ ← rust_assert (s <=? i64_max) "messaging: retention position out of range"; Returns s.

(** Steps 6 to 8 of [Messenger::publish_gated]: commit, feed, kick. *)
Definition commit m (r : Reads) (origin : PublishOrigin) (sender : string) (ad : Admission)
    (body : string) (urgency : Urgency) (reply_to : option string) (deliver_after delivery_deadline : option DateTime)
    (impetus : option Impetus) (remaining : option N) : outcome :=
  let entry := ad_channel ad in
  let publish_ts_ns := utc_to_ns (at_stamp r) in
  '(m, h) ← store_for m entry;
  let msg := mkNewMessage (server_source m) sender body urgency (ad_scheme ad) (ad_reply ad) delivery_deadline
               impetus publish_ts_ns in
  '(m, committed) ←
    match deliver_after with
    | Some release_at =>
        '(m, parked) ← dyn_park m h (minted r) msg release_at;
        match parked with
        | Ok id => Returns (m, Ok (id, None))
        | Err q =>
            m ← match origin with
                | FromConversation conv =>
                    budget ← rust_expect (ad_budget ad) "Conversation origin requires a send budget";
                    Returns (with_db m (Db.refund_send_budget (db m) conv budget))
                | FromSystem => Returns m
                end;
            Returns (m, Err (ResDeferredQuotaExceeded (Deferred.quota_cap q)))
        end
    | None =>
        '(m, out) ← dyn_append m h (minted r) msg;
        m ← enact_overflow_events m entry (ao_overflow out);
        Returns (m, Ok (committed_uuid (ao_committed out), Some (committed_seq (ao_committed out))))
    end;
  match committed with
  | Err refusal => Returns (m, refusal)
  | Ok (id, retained_seq) =>
      m ← match retained_seq with
          | Some s =>
              if transportable (ad_caps ad) then
                match attached_feed_targets m entry with
                | [] => Returns m
                | ts =>
                    envelope ← surface_feed_envelope id (server_source m) (address entry) sender publish_ts_ns body
                                 reply_to delivery_deadline deliver_after impetus urgency (ad_scheme ad);
                    s ← wire_seq s;
                    Returns (fan_out_attach_feed m ts envelope s)
                end
              else Returns m
          | None => Returns m
          end;
      Returns (dispatch_kick m, ResOk id (address entry) remaining)
  end.

(** [Messenger::publish_gated]. *)
Definition publish_gated m (r : Reads) (origin : PublishOrigin) p (sender addr body : string) (urgency : Urgency)
    (reply_to : option string) (deliver_after delivery_deadline : option DateTime) (impetus : option Impetus)
    : outcome :=
  v ← validate m p addr body reply_to impetus;
  match v with
  | Err refusal => Returns (m, refusal)
  | Ok ad =>
      '(m, paid) ← spend m r origin p sender ad;
      match paid with
      | Err refusal => Returns (m, refusal)
      | Ok remaining =>
          let deliver_after := da ← deliver_after; if later da (at_schedule r) then Some da else None in
          commit m r origin sender ad body urgency reply_to deliver_after delivery_deadline impetus remaining
      end
  end.

(** [Messenger::record_publish_denial]. *)
Definition record_publish_denial m (sender : string) (res : BusResult Uuid) : MessengerState Uuid DateTime :=
  match signal_kind res with
  | Some k => with_denied m (count_more (sender, denial_as_str k) 1 (publish_denied m))
  | None => m
  end.

(** [Messenger::publish_core]. *)
Definition publish_core m (r : Reads) (origin : PublishOrigin) p (addr body : string) (urgency : Urgency)
    (reply_to : option string) (deliver_after delivery_deadline : option DateTime) (impetus : option Impetus)
    : outcome :=
  sender ← principal_identity m p;
  '(m, res) ← publish_gated m r origin p sender addr body urgency reply_to deliver_after delivery_deadline impetus;
  Returns (record_publish_denial m sender res, res).

(** [Messenger::publish]. *)
Definition publish m (r : Reads) (origin : PublishOrigin) (app addr body : string) (urgency : Urgency)
    (reply_to : option string) (deliver_after delivery_deadline : option DateTime) : outcome :=
  _ ← rust_assert (match origin with FromSystem => false | _ => true end)
        "Messenger::publish called with PublishOrigin::System";
  publish_core m r origin (PApp app) addr body urgency reply_to deliver_after delivery_deadline None.

(** [Messenger::publish_from_attacher]. *)
Definition publish_from_attacher m (r : Reads) (scope : AttachScope) (attribution : option string)
    (addr body : string) (urgency : Urgency) : outcome :=
  publish_core m r FromSystem (PAttach scope attribution false) addr body urgency None None None None.

(** [Messenger::publish_from_surface_platform]. *)
Definition publish_from_surface_platform m (r : Reads) (s addr body : string) (urgency : Urgency) : outcome :=
  publish_core m r FromSystem (PAttach (mkScope KindSurface s) None true) addr body urgency None None None None.

(** [Messenger::publish_from_system]. *)
Definition publish_from_system m (r : Reads) (component addr body : string) (urgency : Urgency)
    (reply_to : option string) : outcome :=
  publish_core m r FromSystem (PSystem component) addr body urgency reply_to None None None.

(** [Messenger::publish_from_conversation]. *)
Definition publish_from_conversation m (r : Reads) (id : Z) (app addr body : string) (urgency : Urgency) : outcome :=
  publish_core m r FromSystem (PConversation id app) addr body urgency None None None None.
End pipeline.
Arguments Reads Uuid DateTime : clear implicits.
Arguments Admission Uuid : clear implicits.
End Pipeline.
