(* ===== verification/Delivery.v ===== *)
(** * Flushes, sweeps and activation windows
    ([brenn-messaging/src/{publish/mod,live,lib}.rs])

    [Flushes] is what an activation's buffered publishes go through: one transaction for the
    durable entries, the prepaid entry points for the rest. [Sweeps] is what the dispatcher
    runs: releasing what has come due, waking who is owed, and assembling the windows an
    activation is handed. What other tasks do while a flush waits is an argument of it; so
    are its clock reads and the ids it mints. *)

From S2P Require Import Prelude Envelope Ring Cursor Deferred RingCore Activation Grants Access TokenBucket Directory Serve Session Identity Retention DbStore Bus.

#[local] Open Scope N_scope.
#[local] Open Scope list_scope.

Module Flushes.
Import Envelope Directory Identity Plane Retention Targets Messaging Ladder Pipeline.

(** [WasmPublish]. *)
Record WasmPublish (DateTime : Type) := mkWasmPublish {
  wp_channel : string;
  wp_body : string;
  wp_urgency : Urgency;
  wp_reply_to : option string;
  wp_deliver_after : option DateTime;
}.
Arguments mkWasmPublish {DateTime}.
Arguments wp_channel {DateTime}.
Arguments wp_body {DateTime}.
Arguments wp_urgency {DateTime}.
Arguments wp_reply_to {DateTime}.
Arguments wp_deliver_after {DateTime}.

(** [PrepaidDestination]; the ring is reached through its channel's id. *)
Record PrepaidDestination (Uuid : Type) := mkDestination {
  pd_sender : ParticipantId;
  pd_scheme : ChannelScheme;
  pd_entry : ChannelEntry Uuid;
}.
Arguments mkDestination {Uuid}.
Arguments pd_sender {Uuid}.
Arguments pd_scheme {Uuid}.
Arguments pd_entry {Uuid}.

(** [PrepaidEntry]. *)
Record PrepaidEntry (DateTime : Type) := mkPrepaid { pe_body : string; pe_urgency : Urgency; pe_publish_ts : DateTime }.
Arguments mkPrepaid {DateTime}.
Arguments pe_body {DateTime}.
Arguments pe_urgency {DateTime}.
Arguments pe_publish_ts {DateTime}.

Section flushes.
Context {Uuid DateTime : Type} `{Countable Uuid, Chrono DateTime, ChronoSecs DateTime, ChronoOrd DateTime}.
Context `{WakeRouter}.
Implicit Types (m : MessengerState Uuid DateTime) (entry : ChannelEntry Uuid).

Abbreviation message := (MessageEnvelope Uuid DateTime).
Abbreviation Messenger := (MessengerState Uuid DateTime).
Abbreviation batch_entry := (AttachBatchPublish DateTime * Uuid)%type.

(** *** Entries already paid for ([live.rs]) *)

(** [Messenger::resolve_prepaid]. *)
Definition resolve_prepaid m (sender : ParticipantId) (policy : Access.AppPolicy) (addr : string)
    : panics (PrepaidDestination Uuid) :=
  entry ← rust_expect (resolve (directory m) addr) "prepaid publish: bound output is not in the directory";
  caps ← entry_capabilities entry;
  _ ← rust_assert (negb (durable caps) && transportable caps) "prepaid publish: not a transportable ring channel";
  '(scheme, name) ← rust_expect (split_address (address entry)) "an address always carries its scheme";
  _ ← rust_assert (publish_acl_allows policy scheme name) "prepaid publish: no publish ACL covering bound output";
  _ ← ring_store m (uuid entry);
  Returns (mkDestination sender scheme entry).

(** [Messenger::prepaid_envelope]. *)
Definition prepaid_envelope m (dest : PrepaidDestination Uuid) (e : PrepaidEntry DateTime) (fresh : Uuid)
    : panics message :=
  match check_body_size (pe_body e) (max_body_bytes m) with
  | Err _ => Panics "prepaid publish: body over the cap"
  | Ok _ =>
      Returns (mkEnvelope fresh (server_source m) (address (pd_entry dest)) (pd_sender dest) (pe_publish_ts e)
                 (pe_body e) None None None None (pe_urgency e) (pd_scheme dest))
  end.

(** [Messenger::publish_prepaid]. *)
Definition publish_prepaid m (dest : PrepaidDestination Uuid) (e : PrepaidEntry DateTime) (fresh : Uuid)
    : panics (Messenger * RingStore.Appended Uuid DateTime) :=
  envelope ← prepaid_envelope m dest e fresh;
  '(m, appended) ← on_ring m (uuid (pd_entry dest)) (λ st, RingStore.append st envelope);
  match attached_feed_targets m (pd_entry dest) with
  | [] => Returns (m, appended)
  | ts =>
      s ← wire_seq (Ring.seq (RingStore.retained appended));
      Returns (fan_out_attach_feed m ts (Ring.message (RingStore.retained appended)) s, appended)
  end.

(** [Messenger::park_prepaid]. *)
Definition park_prepaid m (dest : PrepaidDestination Uuid) (e : PrepaidEntry DateTime) (release_at : DateTime)
    (fresh : Uuid) : panics (Messenger * result Uuid Deferred.QuotaExceeded) :=
  envelope ← prepaid_envelope m dest e fresh;
  on_ring m (uuid (pd_entry dest)) (λ st, RingStore.park st envelope release_at).

(** *** An attacher's flush *)

(** [Messenger::insert_message]: no impetus, no deadline. *)
Definition insert_flushed m entry (scheme : ChannelScheme) (source sender body : string) (urgency : Urgency)
    (publish_ts_ns : Z) (reply_to : option Uuid) (deliver_after : option DateTime) (fresh : Uuid)
    : panics (Messenger * option N) :=
  on_table m (λ d, Db.insert_message d fresh (uuid entry) source sender body urgency scheme
                     reply_to None deliver_after None publish_ts_ns).

(** The pre-pass of [publish_batch_from_attacher]: what vanished, what is durable, what is
    not. *)
Record Split := mkSplit {
  sp_vanished : list string;
  sp_durable : list (batch_entry * ChannelEntry Uuid);
  sp_nondurable : list (batch_entry * ChannelEntry Uuid);
}.

Definition split_entry m (policy : Access.AppPolicy) (posture : MissingChannelPosture) (acc : Split) (e : batch_entry)
    : panics Split :=
  let addr := bp_channel e.1 in
  let vanish := mkSplit (sp_vanished acc ++ [addr]) (sp_durable acc) (sp_nondurable acc) in
  let keep entry :=
    caps ← entry_capabilities entry;
    Returns (if durable caps
             then mkSplit (sp_vanished acc) (sp_durable acc ++ [(e, entry)]) (sp_nondurable acc)
             else mkSplit (sp_vanished acc) (sp_durable acc) (sp_nondurable acc ++ [(e, entry)])) in
  match resolve (directory m) addr, posture with
  | None, MissingRace => Returns vanish
  | None, MissingInvariant => Panics "publish_batch_from_attacher: bound output is not in the directory"
  | Some entry, MissingInvariant => keep entry
  | Some entry, MissingRace =>
      '(scheme, name) ← rust_expect (split_address (address entry)) "an address always carries its scheme";
      if publish_acl_allows policy scheme name then keep entry else Returns vanish
  end.

Definition split_batch m (policy : Access.AppPolicy) (posture : MissingChannelPosture) (es : list batch_entry)
    : panics Split :=
  foldl (λ acc e, acc ← acc; split_entry m policy posture acc e) (Returns (mkSplit [] [] [])) es.

(** A flush under way: the feeds held until the lock is gone, what vanished, and the
    schedules a cap refused. *)
Record Flush := mkFlush {
  fl_messenger : Messenger;
  fl_cache : gmap string (option (list AttachFeedTarget));
  fl_feeds : list (message * N * list AttachFeedTarget);
  fl_vanished : list string;
  fl_refused : list (string * N);
}.

(** The feed targets of a durable target of the flush, or that it is gone. *)
Definition durable_targets m (policy : Access.AppPolicy) (posture : MissingChannelPosture) (addr : string)
    : panics (option (list AttachFeedTarget)) :=
  name ← rust_expect (Session.well_formed_name addr Brenn) "publish_batch_from_attacher: not a brenn: address";
  _ ← rust_assert (publish_acl_allows policy Brenn name) "publish_batch_from_attacher: no brenn_publish ACL";
  match resolve (directory m) addr, posture with
  | None, MissingRace => Returns None
  | None, MissingInvariant => Panics "publish_batch_from_attacher: bound output is not in the directory"
  | Some ch, _ => Returns (Some (attach_feed_targets (targets m) (address ch) (subscribers ch)))
  end.

(** Whether a committed row is fed, and to whom. *)
Definition held_feed (entry : ChannelEntry Uuid) (ts : list AttachFeedTarget) : bool :=
  match ts with [] => false | _ => any_attach_session_subscribed (address entry) ts end.

(** One durable entry, under the lock. *)
Definition apply_durable (policy : Access.AppPolicy) (posture : MissingChannelPosture) (sender : string) (f : Flush)
    (p : batch_entry * ChannelEntry Uuid) : panics Flush :=
  let '((e, fresh), entry) := p in
  let addr := bp_channel e in
  let m := fl_messenger f in
  '(cache, cached) ← memo (fl_cache f) addr (durable_targets m policy posture addr);
  match cached with
  | None => Returns (mkFlush m cache (fl_feeds f) (fl_vanished f ++ [addr]) (fl_refused f))
  | Some ts =>
      match check_body_size (bp_body e) (max_body_bytes m) with
      | Err _ => Panics "publish_batch_from_attacher: entry body over the cap"
      | Ok _ =>
          match bp_deliver_after e with
          | Some release_at =>
              match Db.deferred_cap_refusal (db m) (uuid entry) (channel_retain_depth (resolved_channel entry)) with
              | Some cap =>
                  Returns (mkFlush m cache (fl_feeds f) (fl_vanished f) (fl_refused f ++ [(address entry, cap)]))
              | None =>
                  '(m, _) ← insert_flushed m entry Brenn (server_source m) sender (bp_body e) (bp_urgency e)
                              (bp_publish_ts_ns e) None (Some release_at) fresh;
                  Returns (mkFlush m cache (fl_feeds f) (fl_vanished f) (fl_refused f))
              end
          | None =>
              '(m, inserted) ← insert_flushed m entry Brenn (server_source m) sender (bp_body e) (bp_urgency e)
                                 (bp_publish_ts_ns e) None None fresh;
              if held_feed entry ts then
                envelope ← surface_feed_envelope fresh (server_source m) (address entry) sender (bp_publish_ts_ns e)
                             (bp_body e) None None None None (bp_urgency e) Brenn;
                s ← rust_expect inserted "publish: an unparked durable message holds a retention position";
                Returns (mkFlush m cache (fl_feeds f ++ [(envelope, s, ts)]) (fl_vanished f) (fl_refused f))
              else Returns (mkFlush m cache (fl_feeds f) (fl_vanished f) (fl_refused f))
          end
      end
  end.

(** The feeds, once the lock is gone. *)
Definition fan_out_feeds m (feeds : list (message * N * list AttachFeedTarget)) : Messenger :=
  foldl (λ m f, fan_out_attach_feed m f.2 f.1.1 f.1.2) m feeds.

(** One non-durable entry, on its ring. *)
Definition apply_nondurable (policy : Access.AppPolicy) (sender : ParticipantId)
    (acc : Messenger * gmap string (PrepaidDestination Uuid) * list (string * N))
    (p : batch_entry * ChannelEntry Uuid)
    : panics (Messenger * gmap string (PrepaidDestination Uuid) * list (string * N)) :=
  let '(m, cache, refused) := acc in
  let '((e, fresh), entry) := p in
  '(cache, dest) ← memo cache (bp_channel e) (resolve_prepaid m sender policy (bp_channel e));
  ts ← ns_to_utc (bp_publish_ts_ns e);
  let prepaid := mkPrepaid (bp_body e) (bp_urgency e) ts in
  match bp_deliver_after e with
  | Some release_at =>
      '(m, r) ← park_prepaid m dest prepaid release_at fresh;
      Returns (m, cache, match r with
                         | Ok _ => refused
                         | Err q => refused ++ [(address entry, Deferred.quota_cap q)]
                         end)
  | None =>
      '(m, appended) ← publish_prepaid m dest prepaid fresh;
      m ← enact_overflow_events m entry (RingStore.appended_overflow appended);
      Returns (m, cache, refused)
  end.

(** [Messenger::publish_batch_from_attacher]. [lock_wait] is what the rest of the process did
    while the flush waited for the database lock, [ring_wait] what it did while the durable
    feeds went out. *)
Definition publish_batch_from_attacher (lock_wait ring_wait : Messenger → Messenger) m (scope : AttachScope)
    (attribution : option string) (es : list batch_entry) (posture : MissingChannelPosture) : panics (Messenger * N) :=
  match es with
  | [] => Returns (m, 0)
  | _ =>
      policy ← rust_expect (reg_policy <$> registration (targets m) (for_attach scope))
                 "publish_batch_from_attacher: no registered policy";
      sender ← scope_principal scope attribution;
      sp ← split_batch m policy posture es;
      f ← foldl (λ acc p, f ← acc; apply_durable policy posture sender f p)
            (Returns (mkFlush (lock_wait m) ∅ [] (sp_vanished sp) [])) (sp_durable sp);
      '(m, _, refused) ←
        foldl (λ acc p, a ← acc; apply_nondurable policy sender a p)
          (Returns (ring_wait (fan_out_feeds (fl_messenger f) (fl_feeds f)), ∅, fl_refused f)) (sp_nondurable sp);
      let m := foldl (λ m r, record_dropped_deferred m sender r.1) m refused in
      Returns (dispatch_kick m, len refused + len (fl_vanished f))
  end.

(** *** A component's flush *)

(** One entry on its way: the clock as it is stamped, the id it is given. *)
Abbreviation wasm_entry := (WasmPublish DateTime * DateTime * Uuid)%type.

(** The durable half of [publish_from_wasm] under way, and the entries it leaves to the
    rings. *)
Record WasmFlush := mkWasmFlush {
  wf_messenger : Messenger;
  wf_cache : gmap string (ChannelEntry Uuid * list AttachFeedTarget);
  wf_prev_ts : option Z;
  wf_feeds : list (message * N * list AttachFeedTarget);
  wf_pending : list (ChannelEntry Uuid * NewMessage Uuid DateTime * option DateTime * Uuid);
  wf_refused : list (string * N);
}.

Definition apply_wasm (sender : string) (flush_now : DateTime) (f : WasmFlush) (e : wasm_entry) : panics WasmFlush :=
  let '(p, clock, fresh) := e in
  let m := wf_messenger f in
  let addr := wp_channel p in
  entry ← rust_expect (resolve (directory m) addr) "publish_from_wasm: channel not in directory";
  reply ← match wp_reply_to p with
          | Some rt =>
              t ← rust_expect (resolve (directory m) rt) "publish_from_wasm: reply_to channel not in directory";
              Returns (Some (mkReplyTarget (uuid t) (address t)))
          | None => Returns None
          end;
  caps ← entry_capabilities entry;
  let release := da ← wp_deliver_after p; if later da flush_now then Some da else None in
  if negb (durable caps) then
    scheme ← rust_expect (scheme_of addr) "publish_from_wasm: channel carries no scheme prefix";
    let msg := mkNewMessage (server_source m) sender (wp_body p) (wp_urgency p) scheme reply None None
                 (utc_to_ns clock) in
    Returns (mkWasmFlush m (wf_cache f) (wf_prev_ts f) (wf_feeds f)
               (wf_pending f ++ [(entry, msg, release, fresh)]) (wf_refused f))
  else
    '(cache, (entry, ts)) ← memo (wf_cache f) addr
       (Returns (entry, attach_feed_targets (targets m) (address entry) (subscribers entry)));
    let now_ns := utc_to_ns clock in
    let publish_ts_ns := match wf_prev_ts f with
                         | None => now_ns
                         | Some prev => Z.max (i64_wrap (prev + 1)) now_ns
                         end in
    match (r ← release; Db.deferred_cap_refusal (db m) (uuid entry) (channel_retain_depth (resolved_channel entry))) with
    | Some cap =>
        Returns (mkWasmFlush m cache (Some publish_ts_ns) (wf_feeds f) (wf_pending f)
                   (wf_refused f ++ [(address entry, cap)]))
    | None =>
        '(m, inserted) ← insert_flushed m entry Brenn (server_source m) sender (wp_body p) (wp_urgency p)
                           publish_ts_ns (target_uuid <$> reply) release fresh;
        feeds ← match release with
                | Some _ => Returns (wf_feeds f)
                | None =>
                    if held_feed entry ts then
                      envelope ← surface_feed_envelope fresh (server_source m) (address entry) sender publish_ts_ns
                                   (wp_body p) (wp_reply_to p) None None None (wp_urgency p) Brenn;
                      s ← rust_expect inserted "publish: an unparked durable message holds a retention position";
                      Returns (wf_feeds f ++ [(envelope, s, ts)])
                    else Returns (wf_feeds f)
                end;
        Returns (mkWasmFlush m cache (Some publish_ts_ns) feeds (wf_pending f) (wf_refused f))
    end.

(** One entry the durable half left to its ring. *)
Definition apply_pending (acc : Messenger * list (string * N))
    (p : ChannelEntry Uuid * NewMessage Uuid DateTime * option DateTime * Uuid)
    : panics (Messenger * list (string * N)) :=
  let '(m, refused) := acc in
  let '(entry, msg, release, fresh) := p in
  '(m, h) ← store_for m entry;
  match release with
  | Some release_at =>
      '(m, r) ← dyn_park m h fresh msg release_at;
      Returns (m, match r with
                  | Ok _ => refused
                  | Err q => refused ++ [(address entry, Deferred.quota_cap q)]
                  end)
  | None =>
      '(m, out) ← dyn_append m h fresh msg;
      m ← enact_overflow_events m entry (ao_overflow out);
      match attached_feed_targets m entry with
      | [] => Returns (m, refused)
      | ts =>
          envelope ← surface_feed_envelope (committed_uuid (ao_committed out)) (server_source m) (address entry)
                       (nm_sender msg) (nm_publish_ts_ns msg) (nm_body msg) (target_address <$> nm_reply_to msg)
                       None None None (nm_urgency msg) (nm_envelope_type msg);
          s ← wire_seq (committed_seq (ao_committed out));
          Returns (fan_out_attach_feed m ts envelope s, refused)
      end
  end.

(** [Messenger::publish_from_wasm]. *)
Definition publish_from_wasm m (consumer : string) (es : list wasm_entry) (flush_now : DateTime) : panics Messenger :=
  match es with
  | [] => Returns m
  | _ =>
      sender ← for_wasm consumer;
      f ← foldl (λ acc e, f ← acc; apply_wasm sender flush_now f e)
            (Returns (mkWasmFlush m ∅ None [] [] [])) es;
      '(m, refused) ← foldl (λ acc p, a ← acc; apply_pending a p)
                        (Returns (fan_out_feeds (wf_messenger f) (wf_feeds f), wf_refused f)) (wf_pending f);
      Returns (dispatch_kick (foldl (λ m r, record_dropped_deferred m consumer r.1) m refused))
  end.

(** [Messenger::publish_transport_ingress]; whether a body reads back as its transport's
    envelope is the deserializer's answer. *)
Definition publish_transport_ingress (reads_as : ChannelScheme → string → bool) m entry
    (source sender body : string) (urgency : Urgency) (clock : DateTime) (fresh : Uuid) : panics Messenger :=
  _ ← match transport_type entry with
      | Webhook | Mqtt =>
          rust_assert (reads_as (transport_type entry) body) "publish_transport_ingress: malformed envelope"
      | _ => Panics "publish_transport_ingress: unexpected transport type"
      end;
  '(m, _) ← insert_flushed m entry (transport_type entry) source sender body urgency (utc_to_ns clock) None None fresh;
  Returns (dispatch_kick m).
End flushes.
End Flushes.

(** ** The dispatcher's sweeps, and what an activation is handed ([lib.rs]) *)

Module Sweeps.
Import Envelope Directory Identity Plane Retention Targets Messaging Ladder Pipeline.

(** [ReleaseSweep], [WakeSweep]. *)
Record ReleaseSweep (DateTime : Type) := mkReleaseSweep { rs_released : N; rs_next_release : option DateTime }.
Arguments mkReleaseSweep {DateTime}.
Arguments rs_released {DateTime}.
Arguments rs_next_release {DateTime}.
Record WakeSweep (DateTime : Type) := mkWakeSweep { fired_deadline_wake : bool; next_deadline : option DateTime }.
Arguments mkWakeSweep {DateTime}.
Arguments fired_deadline_wake {DateTime}.
Arguments next_deadline {DateTime}.

(** [ParkedSet]. *)
Record ParkedSet := mkParkedSet { ps_channel : string; ps_instance : string }.

(** [WasmInputPort], with the fields of its [ResolvedSubscription] the assembly reads. *)
Record WasmInputPort := mkInputPort {
  in_port : string;
  in_channel : string;
  in_push_depth : Depth;
  in_retain_depth : Depth;
}.

(** [PortSnapshot]. *)
Record PortSnapshot (M : Type) := mkSnapshot {
  snap_port : string;
  snap_channel : string;
  snap_capabilities : ChannelCapabilities;
  snap_entries : list (N * M);
  snap_new_from : N;
  snap_push_enabled : bool;
}.
Arguments mkSnapshot {M}.
Arguments snap_port {M}.
Arguments snap_channel {M}.
Arguments snap_capabilities {M}.
Arguments snap_entries {M}.
Arguments snap_new_from {M}.
Arguments snap_push_enabled {M}.

(** [PortSnapshot::advance_span], [PortSnapshot::new_entries]. *)
Definition snap_advance_span {M} (s : PortSnapshot M) : option (N * N) :=
  if negb (snap_push_enabled s) then None
  else l ← last (snap_entries s); f ← head (snap_entries s); Some (l.1, f.1).
Definition snap_new_entries {M} (s : PortSnapshot M) : panics (list (N * M)) :=
  _ ← rust_assert (snap_new_from s <=? len (snap_entries s)) "range start index out of range";
  Returns (drop (N.to_nat (snap_new_from s)) (snap_entries s)).

(** The derived order of a pair of strings, and [Vec::dedup] on sorted ones. *)
Definition pair_le (a b : string * string) : Prop := a.1 ≠ b.1 ∧ str_le a.1 b.1 ∨ a.1 = b.1 ∧ str_le a.2 b.2.
#[export] Instance pair_le_dec : RelDecision pair_le.
Proof. unfold pair_le. solve_decision. Defined.
Fixpoint dedup_pairs (l : list (string * string)) : list (string * string) :=
  match l with
  | x :: ((y :: _) as l') => if decide (x = y) then dedup_pairs l' else x :: dedup_pairs l'
  | l => l
  end.

(** [window_depth]. *)
Definition window_depth (d : Depth) : panics N :=
  match d with
  | Bounded n => _ ← rust_assert (n <=? Activation.WINDOW_DEPTH_CEILING) "depth above the window ceiling"; Returns n
  | Unbounded => Panics "not a bounded depth at or below the window ceiling"
  end.

Section sweeps.
Context {Uuid DateTime : Type} `{Countable Uuid, Chrono DateTime, ChronoSecs DateTime, ChronoOrd DateTime}.
Context `{WakeRouter}.
Implicit Types (m : MessengerState Uuid DateTime) (entry : ChannelEntry Uuid).

Abbreviation message := (MessageEnvelope Uuid DateTime).
Abbreviation Messenger := (MessengerState Uuid DateTime).

(** The earlier of what is known and one more instant: [map_or(due, |cur| cur.min(due))]. *)
Definition earlier (cur due : option DateTime) : option DateTime :=
  match due, cur with
  | Some d, Some c => Some (instant_min c d)
  | Some d, None => Some d
  | None, c => c
  end.

(** [Messenger::next_deferred_release]. *)
Definition next_deferred_release m : panics (Messenger * option DateTime) :=
  es ← list_channels (directory m);
  foldl (λ acc entry,
    '(m, cur) ← acc;
    '(m, h) ← store_for m entry;
    due ← dyn_next_release m h;
    Returns (m, earlier cur due)) (Returns (m, None)) es.

(** [Messenger::push_released_surface_views]. *)
Definition push_released_surface_views m (addr : string) (released : list (Ring.Retained message)) : panics Messenger :=
  let components := dedup_pairs (merge_sort pair_le
    (omap (λ r, surface_component_of (env_sender (Ring.message r))) released)) in
  foldl (λ acc p,
    m ← acc;
    if negb (any_surface_session_attached p.1) then Returns m
    else
      sender ← for_surface_component p.1 p.2;
      '(m, view) ← deferred_view_for_sender m addr sender;
      Returns (call m (PushSurfaceDeferredView p.1 p.2 addr view))) (Returns m) components.

(** One channel's turn of [release_due_messages]. *)
Definition release_channel (now : DateTime) (acc : Messenger * ReleaseSweep DateTime) entry
    : panics (Messenger * ReleaseSweep DateTime) :=
  let '(m, sweep) := acc in
  '(m, h) ← store_for m entry;
  due ← dyn_next_release m h;
  if match due with Some d => negb (later d now) | None => false end then
    '(m, out) ← dyn_release_due m h now;
    m ← enact_overflow_events m entry (ro_overflow out);
    caps ← entry_capabilities entry;
    m ← (if transportable caps && negb (Nat.eqb (length (ro_released out)) 0) then
           let ts := attached_feed_targets m entry in
           foldl (λ acc r, m ← acc; s ← wire_seq (Ring.seq r);
                           Returns (fan_out_attach_feed m ts (Ring.message r) s)) (Returns m) (ro_released out)
         else Returns m);
    m ← push_released_surface_views m (address entry) (ro_released out);
    remaining ← dyn_next_release m h;
    Returns (m, mkReleaseSweep (rs_released sweep + len (ro_released out))
                  (earlier (rs_next_release sweep) remaining))
  else Returns (m, mkReleaseSweep (rs_released sweep) (earlier (rs_next_release sweep) due)).

(** [Messenger::release_due_messages]. *)
Definition release_due_messages m (now : DateTime) : panics (Messenger * ReleaseSweep DateTime) :=
  es ← list_channels (directory m);
  foldl (λ acc entry, a ← acc; release_channel now a entry) (Returns (m, mkReleaseSweep 0 None)) es.

(** [Messenger::parked_attach_sub_identities]. *)
Definition parked_attach_sub_identities m (scope : AttachScope) (now : DateTime) : panics (Messenger * list ParkedSet) :=
  if negb (mints_sub_identities (scope_kind scope)) then Returns (m, [])
  else
    es ← list_channels (directory m);
    '(m, found) ← foldl (λ acc entry,
      '(m, found) ← acc;
      '(m, h) ← store_for m entry;
      senders ← dyn_deferred_senders m h now;
      Returns (m, found ++ omap (λ s, pair (address entry) <$> sub_identity_of scope s) senders))
      (Returns (m, [])) es;
    Returns (m, (λ p : string * string, mkParkedSet p.1 p.2) <$> dedup_pairs (merge_sort pair_le found)).

(** [Messenger::channel_access_allowed]. *)
Definition channel_access_allowed m (k : SubscriberEntryKind) (addr : string) : bool :=
  match resolver_policy (targets m) k with
  | Some p => Access.allows_channel_access p addr
  | None => false
  end.

(** [Messenger::warn_stranded_subscriber], [Messenger::warn_acl_denied]: the set each reports
    a pair once by. *)
Definition warn_stranded_subscriber m entry (subscriber : ParticipantId) : panics Messenger :=
  k ← identity_kind subscriber;
  Returns (match k with
           | KWasm _ | KSystem _ =>
               with_warned m ({[(uuid entry, subscriber)]} ∪ stranded_warned m) (acl_denied_warned m)
           | _ => m
           end).
Definition warn_acl_denied m entry (subscriber : ParticipantId) : Messenger :=
  with_warned m (stranded_warned m) ({[(uuid entry, subscriber)]} ∪ acl_denied_warned m).

(** One owed subscriber's turn of [wake_owed_subscribers]. *)
Definition wake_owed (now : DateTime) entry (acc : Messenger * WakeSweep DateTime)
    (owed : DeliverableSubscriber DateTime) : panics (Messenger * WakeSweep DateTime) :=
  let '(m, sweep) := acc in
  r ← registered_subscriber entry (ds_subscriber owed) (ds_app_slug owed);
  match r with
  | None => m ← warn_stranded_subscriber m entry (ds_subscriber owed); Returns (m, sweep)
  | Some registration =>
      economics ← match delivery_shape (kind registration) with
                  | ParkedWake => Returns Eager
                  | Inline => rust_expect (wake_economics (targets m) (kind registration))
                                "wake walk: inline subscriber has no wake economics"
                  end;
      if negb (channel_access_allowed m (kind registration) (address entry))
      then Returns (warn_acl_denied m entry (ds_subscriber owed), sweep)
      else
        let due := match ds_earliest_unseen_deadline owed with
                   | Some deadline => negb (later deadline now)
                   | None => false
                   end in
        let next := if due then next_deadline sweep
                    else earlier (next_deadline sweep) (ds_earliest_unseen_deadline owed) in
        permitted ← (if due then Returns true
                     else wakes_at economics (wake_min registration) (ds_max_unseen_urgency owed));
        Returns (call m (WakeOwed (kind registration) (ds_subscriber owed) permitted),
                 mkWakeSweep (fired_deadline_wake sweep || due) next)
  end.

(** One channel's turn of [wake_owed_subscribers]. *)
Definition wake_channel (now : DateTime) (acc : Messenger * WakeSweep DateTime) entry
    : panics (Messenger * WakeSweep DateTime) :=
  if negb (existsb (λ s, Directory.is_push_enabled (push_depth s)) (subscribers entry)) then Returns acc
  else
    '(m, h) ← store_for acc.1 entry;
    owed ← dyn_deliverable_subscribers m h;
    foldl (λ acc o, a ← acc; wake_owed now entry a o) (Returns (m, acc.2)) owed.

(** [Messenger::wake_owed_subscribers]. *)
Definition wake_owed_subscribers m (now : DateTime) : panics (Messenger * WakeSweep DateTime) :=
  es ← list_channels (directory m);
  foldl (λ acc entry, a ← acc; wake_channel now a entry) (Returns (m, mkWakeSweep false None)) es.

(** *** Activation windows *)

(** [Messenger::resolve_activation_inputs]. *)
Definition resolve_activation_inputs m (inputs : list WasmInputPort)
    : panics (Messenger * list (ChannelEntry Uuid * StoreHandle Uuid)) :=
  entries ← mapM (λ i, rust_expect (resolve (directory m) (in_channel i)) "input port names a channel not in the directory")
              inputs;
  foldl (λ acc entry, '(m, out) ← acc; '(m, h) ← store_for m entry; Returns (m, out ++ [(entry, h)]))
    (Returns (m, [])) entries.

(** [Messenger::activation_port_access]. *)
Definition activation_port_access m (subscriber : ParticipantId) (entries : list (ChannelEntry Uuid))
    : panics (Messenger * list bool) :=
  s ← as_wasm_slug subscriber;
  Returns (foldl (λ acc entry,
    let '(m, out) := acc in
    let ok := channel_access_allowed m (Wasm s) (address entry) in
    (if ok then m else warn_acl_denied m entry subscriber, out ++ [ok])) (m, []) entries).

(** The trigger fold of [load_activation_snapshot]: stop at the first ready port. *)
Fixpoint any_port_ready m (subscriber : ParticipantId) (ports : list (WasmInputPort * StoreHandle Uuid * bool))
    : panics bool :=
  match ports with
  | [] => Returns false
  | (i, h, ok) :: ports =>
      let push := Directory.is_push_enabled (in_push_depth i) in
      deliverable ← (if ok && push then dyn_has_deliverable m h subscriber else Returns false);
      if Activation.is_ready (Activation.mkReadiness ok push deliverable) then Returns true
      else any_port_ready m subscriber ports
  end.

(** [Messenger::window_activation_ports]. *)
Fixpoint window_activation_ports m (subscriber : ParticipantId) (ports : list (WasmInputPort * StoreHandle Uuid * bool))
    : panics (Messenger * list (SubscriberWindow message)) :=
  match ports with
  | [] => Returns (m, [])
  | (i, h, ok) :: ports =>
      '(m, w) ←
        (if negb ok then Returns (m, empty_window)
         else
           push ← window_depth (in_push_depth i);
           retain ← window_depth (in_retain_depth i);
           '(m, w) ← dyn_window m h subscriber (Bounded push) (Bounded retain);
           w ← rust_expect w "messaging: no position for WASM subscriber";
           Returns (m, w));
      '(m, ws) ← window_activation_ports m subscriber ports;
      Returns (m, w :: ws)
  end.

(** [RetentionStore::capabilities]. *)
Definition handle_capabilities m (h : StoreHandle Uuid) : panics ChannelCapabilities :=
  match h with
  | InTable _ => Returns DURABLE_TRANSPORTABLE
  | InRing u => st ← ring_store m u; Returns (RingStore.st_capabilities st)
  end.

(** [Messenger::activation_snapshots]. *)
Definition activation_snapshots m (ports : list (WasmInputPort * StoreHandle Uuid * SubscriberWindow message))
    : panics (list (PortSnapshot message)) :=
  mapM (λ p : WasmInputPort * StoreHandle Uuid * SubscriberWindow message,
    let '(i, h, w) := p in
    caps ← handle_capabilities m h;
    Returns (mkSnapshot (in_port i) (in_channel i) caps (sw_entries w) (sw_new_from w)
               (Directory.is_push_enabled (in_push_depth i)))) ports.

(** [Messenger::load_activation_snapshot]; the count of scans it keeps for tests is not part
    of the state. *)
Definition load_activation_snapshot m (subscriber : ParticipantId) (inputs : list WasmInputPort)
    (mount : Activation.MountDebt) : panics (Messenger * option (Activation.Wake * list (PortSnapshot message))) :=
  '(m, resolved) ← resolve_activation_inputs m inputs;
  '(m, access) ← activation_port_access m subscriber resolved.*1;
  let ports := zip (zip inputs resolved.*2) access in
  ready ← match mount with
          | Activation.Owed => Returns false
          | _ => any_port_ready m subscriber ports
          end;
  match Activation.readiness mount ready with
  | None => Returns (m, None)
  | Some wake =>
      '(m, windows) ← window_activation_ports m subscriber ports;
      fresh ← mapM sw_new_entries windows;
      if match wake with Activation.Delivery => forallb (λ l, Nat.eqb (length l) 0) fresh | _ => false end
      then Returns (m, None)
      else
        snaps ← activation_snapshots m (zip (zip inputs resolved.*2) windows);
        Returns (m, Some (wake, snaps))
  end.

(** [Messenger::load_sync_activation_snapshot]. *)
Definition load_sync_activation_snapshot m (subscriber : ParticipantId) (inputs : list WasmInputPort)
    : panics (Messenger * list (PortSnapshot message)) :=
  '(m, resolved) ← resolve_activation_inputs m inputs;
  '(m, access) ← activation_port_access m subscriber resolved.*1;
  '(m, windows) ← window_activation_ports m subscriber (zip (zip inputs resolved.*2) access);
  snaps ← activation_snapshots m (zip (zip inputs resolved.*2) windows);
  Returns (m, snaps).
End sweeps.
End Sweeps.
