(* ===== verification/Publishing.v ===== *)
(** * What publishing guarantees

    Theorems about [Bus]: a publish is admitted exactly within its principal's policy, a
    denial costs its sender nothing but a count, and a reply address tells its sender
    nothing about channels it cannot see; a conversation's budget bounds what it sends; what
    is fed live is what a subscriber reads back. *)

From S2P Require Import Prelude Envelope Ring Cursor Deferred RingCore Grants Access TokenBucket Directory Serve Session Identity Retention Retaining DbStore Durable Bus.

#[local] Open Scope N_scope.
#[local] Open Scope list_scope.

(** ** Running a call backwards *)

(** Invert every call that returned. *)
Ltac returned :=
  repeat match goal with
  | H : Returns _ = Returns _ |- _ => injection H as H; try subst; simplify_eq
  | H : Panics _ = Returns _ |- _ => discriminate H
  | H : (_ ≫= _) = Returns _ |- _ => apply bind_Returns in H as (?&?&H)
  | H : rust_expect _ _ = Returns _ |- _ => apply expect_Returns in H
  | H : rust_assert _ _ = Returns _ |- _ => apply assert_Returns in H
  | p : (_ * _)%type |- _ => destruct p; cbn [fst snd] in *
  end.

(** Case on what a hypothesis matches on. *)
Ltac split_on H := match type of H with context [match ?x with _ => _ end] => destruct x eqn:? end.

Module Gated.
Import Envelope Directory Identity Plane Retention Targets Messaging Ladder Pipeline.

Section gated.
Context {Uuid DateTime : Type} `{Countable Uuid, Chrono DateTime, ChronoSecs DateTime, ChronoOrd DateTime}.
Context `{WakeRouter}.
Implicit Types (m : MessengerState Uuid DateTime) (r : Reads Uuid DateTime) (entry : ChannelEntry Uuid).

(** The policy a principal publishes under. *)
Definition authority_of m (p : PublishPrincipal) : option Access.AppPolicy :=
  match p with
  | PApp s => app_policy <$> apps m !! s
  | PAttach scope _ _ => reg_policy <$> registration (targets m) (for_attach scope)
  | PSystem c => reg_policy <$> registration (targets m) (System c)
  | PConversation _ s => chat_harness_policy <$> apps m !! s
  end.

(** Its budget, where a conversation's sends are counted. *)
Definition budget_of m (p : PublishPrincipal) : option N :=
  match p with PApp s => messaging_send_budget <$> apps m !! s | _ => None end.

Lemma publish_authority_spec m p g :
  publish_authority m p g =
  match authority_of m p with
  | Some q => if Access.has_grant q g then Some (q, budget_of m p) else None
  | None => None
  end.
Proof.
  destruct p as [s|scope a b|c|i s]; simpl; unfold resolve_publish_sender, granted_policy;
    [destruct (apps m !! s)|destruct (registration _ _)|destruct (registration _ _)|destruct (apps m !! s)];
    simpl; try done; by repeat case_match.
Qed.

(** What makes a publish admissible: the address, the policy, the size, the reply address. *)
Record may_publish m (p : PublishPrincipal) (addr body : string) (reply_to : option string)
    (impetus : option Impetus) entry : Prop := mkMayPublish {
  mp_channel : resolve (directory m) addr = Some entry;
  mp_policy : ∃ scheme name policy,
    scheme_of addr = Some scheme ∧ publish_name p addr scheme = Some name ∧
    authority_of m p = Some policy ∧ Access.has_grant policy (publish_grant scheme) = true ∧
    publish_acl_allows policy scheme name = true ∧
    (is_Some impetus → Access.has_grant policy Caps.MintImpetus = true) ∧
    (∀ rt, reply_to = Some rt → ∃ rname,
       Session.well_formed_name rt Brenn = Some rname ∧ reply_to_visible policy Brenn rname rt = true ∧
       is_Some (resolve (directory m) rt));
  mp_size : str_len body ≤ max_body_bytes m;
}.

Lemma reply_target_Ok m policy rt t :
  reply_target m policy rt = Ok t ↔
  t = (rt ← rt; c ← resolve (directory m) rt; Some (mkReplyTarget (uuid c) (address c))) ∧
  (∀ a, rt = Some a → ∃ rname,
     Session.well_formed_name a Brenn = Some rname ∧ reply_to_visible policy Brenn rname a = true ∧
     is_Some (resolve (directory m) a)).
Proof.
  unfold reply_target. destruct rt as [a|]; simpl; [|split; [by intros [= <-]|by intros [-> _]]].
  destruct (Session.well_formed_name a Brenn) as [rname|] eqn:Hn.
  2:{ split; [done|]. intros [_ Hv]. destruct (Hv a eq_refl) as (?&?&_). congruence. }
  destruct (reply_to_visible policy Brenn rname a) eqn:Hv; simpl.
  2:{ split; [done|]. intros [_ Ha]. destruct (Ha a eq_refl) as (?&?&?&_). congruence. }
  destruct (resolve (directory m) a) as [c|] eqn:Hr; simpl.
  2:{ split; [done|]. intros [_ Ha]. destruct (Ha a eq_refl) as (?&_&_&[? ?]). congruence. }
  split; [intros [= <-]; split; [done|]|by intros [-> _]].
  intros ? [= <-]. rewrite Hr. by eauto.
Qed.

(** The gates that spend nothing admit exactly what is admissible. *)
Lemma validate_Ok m p addr body rt imp v :
  validate m p addr body rt imp = Returns v →
  match v with
  | Ok ad => may_publish m p addr body rt imp (ad_channel ad) ∧ entry_capabilities (ad_channel ad) = Returns (ad_caps ad) ∧
             scheme_of addr = Some (ad_scheme ad) ∧ ad_budget ad = budget_of m p ∧
             ad_reply ad = (rt ← rt; c ← resolve (directory m) rt; Some (mkReplyTarget (uuid c) (address c)))
  | Err e => is_Some (signal_kind e) ∧ ∀ entry, ¬ may_publish m p addr body rt imp entry
  end.
Proof.
  unfold validate, check_body_size. intros Hv.
  destruct (scheme_of addr) as [scheme|] eqn:Hs.
  2:{ returned. split; [by eexists|]. intros e [_ (?&?&?&?&_) _]. congruence. }
  destruct (publish_name p addr scheme) as [name|] eqn:Hn.
  2:{ returned. split; [by eexists|]. intros e [_ (?&?&?&?&?&_) _]. congruence. }
  destruct (resolve (directory m) addr) as [entry|] eqn:Hr.
  2:{ returned. split; [by eexists|]. intros e [? _ _]. congruence. }
  returned. rewrite publish_authority_spec in Hv.
  destruct (authority_of m p) as [policy|] eqn:Ha.
  2:{ returned. split; [by eexists|]. intros e [_ (?&?&?&?&?&?&_) _]. congruence. }
  destruct (Access.has_grant policy (publish_grant scheme)) eqn:Hg.
  2:{ returned. split; [by eexists|]. intros e [_ (?&?&?&?&?&?&?&_) _]. congruence. }
  destruct (publish_acl_allows policy scheme name) eqn:Hacl; simpl in Hv.
  2:{ returned. split; [by eexists|]. intros e [_ (?&?&?&?&?&?&?&?&_) _]. congruence. }
  destruct (bool_decide (is_Some imp) && negb (Access.has_grant policy Caps.MintImpetus)) eqn:Hi.
  { returned. split; [by eexists|]. intros e [_ (?&?&?&?&?&?&_&_&Himp&_) _].
    apply andb_prop in Hi as [Hi%bool_decide_eq_true Hm%negb_true_iff]. specialize (Himp Hi). congruence. }
  destruct (N.ltb_spec (max_body_bytes m) (str_len body)).
  { returned. split; [by eexists|]. intros e [_ _ ?]. lia. }
  destruct (reply_target m policy rt) as [t|e] eqn:Ht; returned.
  - apply reply_target_Ok in Ht as [-> Ht]. cbn. split_and!; try done. split; [done| |done].
    exists scheme, name, policy. split_and!; try done. intros Hsi.
    apply andb_false_iff in Hi as [Hi%bool_decide_eq_false|Hi%negb_false_iff]; [done|done].
  - split.
    + unfold reply_target in Ht. repeat case_match; simplify_eq; by eexists.
    + intros en [_ (sc&nm&po&?&?&?&_&_&_&Hrt) _]. simplify_eq.
      assert (reply_target m policy rt = Ok (rt ← rt; c ← resolve (directory m) rt; Some (mkReplyTarget (uuid c) (address c)))) as Hok
        by (apply reply_target_Ok; done). congruence.
Qed.

(** A messenger whose buckets have been drawn on. *)
Definition metered m ab rb rl : MessengerState Uuid DateTime := with_send_rates (with_attach_budgets m ab) rb rl.

(** What the spending gates do: draw on buckets, and take one from the conversation's budget. *)
Lemma spend_spec m r o p s ad m' paid :
  spend m r o p s ad = Returns (m', paid) →
  ∃ ab rb rl,
    match paid with
    | Err e => (e = ResBudgetExhausted ∨ e = ResRateLimited) ∧
        (m' = metered m ab rb rl ∨ ∃ id b, o = FromConversation id ∧ ad_budget ad = Some b ∧
           Db.decrement_send_budget (db m) id b = (db m', Db.BudgetIsExhausted) ∧
           m' = with_db (metered m ab rb rl) (db m'))
    | Ok rem =>
        match o with
        | FromSystem => rem = None ∧ m' = metered m ab rb rl
        | FromConversation id => ∃ b n, rem = Some n ∧ ad_budget ad = Some b ∧
            Db.decrement_send_budget (db m) id b = (db m', Db.BudgetOk n) ∧
            m' = with_db (metered m ab rb rl) (db m')
        end
    end.
Proof.
  unfold spend. rewrite bind_Returns. intros ([m1 att]&Hatt&Hs).
  assert (∃ ab, m1 = with_attach_budgets m ab) as [ab ->].
  { assert (m = with_attach_budgets m (attach_send_budgets m)) by (by destruct m).
    unfold draw_attach_send_budget in Hatt. repeat (returned; try case_match); by eexists. }
  destruct att; returned.
  2:{ exists ab, (send_rate_buckets m), (publish_rate_limited m). split; [by left|]. left. by destruct m. }
  rename select (draw_send_rate _ _ _ _ _ = _) into Hd.
  match type of Hd with _ = Returns (?x, ?b) => assert (∃ rb rl, x = metered m ab rb rl) as (rb&rl&->) end.
  { unfold draw_send_rate in Hd. returned. split_on Hd; simplify_eq; by do 2 eexists. }
  exists ab, rb, rl. split_on Hs; returned; [split; [by right|by left]|].
  destruct o as [id|]; returned; [|done].
  destruct (Db.decrement_send_budget _ id _) as [d [n|]] eqn:Hdec; returned; [by do 2 eexists|].
  split; [by left|]. right. by exists id; eexists.
Qed.

Lemma spend_not_denied m r o p s ad m' e :
  spend m r o p s ad = Returns (m', Err e) → signal_kind e = None.
Proof. intros (?&?&?&[->| ->]&_)%spend_spec; done. Qed.

(** The message a publish commits. *)
Definition committed_message m r (s : string) (ad : Admission Uuid) (body : string) (u : Urgency)
    (dd : option DateTime) (imp : option Impetus) : NewMessage Uuid DateTime :=
  mkNewMessage (server_source m) s body u (ad_scheme ad) (ad_reply ad) dd imp (utc_to_ns (at_stamp r)).

(** What a retained message is fed as: nothing, or its envelope to every target held live. *)
Definition fed m (ad : Admission Uuid) (envelope : panics (MessageEnvelope Uuid DateTime)) (seq : N) m' : Prop :=
  let ts := attached_feed_targets m (ad_channel ad) in
  (m' = m ∧ (transportable (ad_caps ad) = false ∨ ts = [])) ∨
  (∃ e, transportable (ad_caps ad) = true ∧ ts ≠ [] ∧ envelope = Returns e ∧ seq ≤ i64_max ∧
        m' = fan_out_attach_feed m ts e seq).

Lemma commit_spec m r o s ad body u rt da dd imp rem m' res :
  commit m r o s ad body u rt da dd imp rem = Returns (m', res) →
  ∃ m1 h, store_for m (ad_channel ad) = Returns (m1, h) ∧
  match da with
  | Some t => ∃ m2 pr, dyn_park m1 h (minted r) (committed_message m1 r s ad body u dd imp) t = Returns (m2, pr) ∧
      match pr with
      | Ok id => m' = dispatch_kick m2 ∧ res = ResOk id (address (ad_channel ad)) rem
      | Err q => res = ResDeferredQuotaExceeded (Deferred.quota_cap q) ∧
          match o with
          | FromConversation c => ∃ b, ad_budget ad = Some b ∧ m' = with_db m2 (Db.refund_send_budget (db m2) c b)
          | FromSystem => m' = m2
          end
      end
  | None => ∃ m2 out m3 m4,
      dyn_append m1 h (minted r) (committed_message m1 r s ad body u dd imp) = Returns (m2, out) ∧
      enact_overflow_events m2 (ad_channel ad) (ao_overflow out) = Returns m3 ∧
      fed m3 ad (surface_feed_envelope (committed_uuid (ao_committed out)) (server_source m3) (address (ad_channel ad)) s
                   (utc_to_ns (at_stamp r)) body rt dd None imp u (ad_scheme ad))
        (committed_seq (ao_committed out)) m4 ∧
      m' = dispatch_kick m4 ∧ res = ResOk (committed_uuid (ao_committed out)) (address (ad_channel ad)) rem
  end.
Proof.
  unfold commit. rewrite bind_Returns. intros ([m1 h]&Hst&Hc). exists m1, h. split; [done|].
  rewrite bind_Returns in Hc. destruct Hc as ([m2 c]&Hc&Hf). fold (committed_message m1 r s ad body u dd imp) in Hc.
  destruct da as [t|].
  - rewrite bind_Returns in Hc. destruct Hc as ([m3 pr]&Hp&Hc). exists m3, pr. split; [done|].
    destruct pr as [id|q]; returned; [done|]. split; [done|]. destruct o; returned; [by eexists|done].
  - rewrite bind_Returns in Hc. destruct Hc as ([m3 out]&Ha&Hc). returned.
    rename select (enact_overflow_events _ _ _ = _) into He.
    match goal with Hx : _ = Returns ?x |- context [dispatch_kick ?x = _] => rename Hx into Hfd; exists m3, out, m2, x end.
    split; [done|]. split; [done|]. split; [|done].
    unfold fed. destruct (transportable (ad_caps ad)); returned; [|by left; split; [|left]].
    destruct (attached_feed_targets m2 (ad_channel ad)) as [|t ts] eqn:Hts; returned; [by left; split; [|right]|].
    rename select (wire_seq _ = _) into Hw. unfold wire_seq in Hw. returned.
    right. eexists. split_and!; try done. by apply N.leb_le.
Qed.

Lemma commit_not_denied m r o s ad body u rt da dd imp rem m' e :
  commit m r o s ad body u rt da dd imp rem = Returns (m', e) → signal_kind e = None.
Proof.
  intros (m1&h&_&Hc)%commit_spec. destruct da as [t|].
  - destruct Hc as (?&[]&_&Hr); [by destruct Hr as [_ ->]|by destruct Hr as [-> _]].
  - by destruct Hc as (?&?&?&?&_&_&_&_&->).
Qed.

(** A publish is its gates, then what it spends, then its commit. *)
Lemma publish_core_spec m r o p addr body u rt da dd imp m' res :
  publish_core m r o p addr body u rt da dd imp = Returns (m', res) →
  ∃ s v, principal_identity m p = Returns s ∧ validate m p addr body rt imp = Returns v ∧
  match v with
  | Err e => res = e ∧ m' = record_publish_denial m s e
  | Ok ad => ∃ m1 paid, spend m r o p s ad = Returns (m1, paid) ∧
      match paid with
      | Err e => m' = m1 ∧ res = e ∧ signal_kind res = None
      | Ok rem =>
          commit m1 r o s ad body u rt (da ← da; if later da (at_schedule r) then Some da else None) dd imp rem
          = Returns (m', res) ∧ signal_kind res = None
      end
  end.
Proof.
  unfold publish_core, publish_gated. rewrite bind_Returns. intros (s&Hs&Hp).
  rewrite bind_Returns in Hp. destruct Hp as ([m1 res']&Hp&Hm). rewrite bind_Returns in Hp.
  destruct Hp as (v&Hv&Hp). exists s, v. split_and!; [done|done|]. injection Hm as <- <-.
  destruct v as [ad|e]; [|by returned].
  rewrite bind_Returns in Hp. destruct Hp as ([m2 paid]&Hsp&Hp). exists m2, paid. split; [done|].
  unfold record_publish_denial. destruct paid as [rem|e].
  - by rewrite (commit_not_denied _ _ _ _ _ _ _ _ _ _ _ _ _ _ Hp).
  - returned. by rewrite (spend_not_denied _ _ _ _ _ _ _ _ Hsp).
Qed.
End gated.
End Gated.

(** ** What a step leaves alone *)

Module Frame.
Import Envelope Directory Identity Plane Retention Targets Messaging Ladder Pipeline.

Section frame.
Context {Uuid DateTime : Type} `{Countable Uuid, Chrono DateTime, ChronoSecs DateTime, ChronoOrd DateTime}.
Context `{WakeRouter}.
Implicit Types (m : MessengerState Uuid DateTime) (r : Reads Uuid DateTime) (entry : ChannelEntry Uuid).

(** Two messengers that differ in what they told their router and metered at most. *)
Record quiet m m' : Prop := mkQuiet {
  q_db : db m' = db m;
  q_directory : directory m' = directory m;
  q_source : server_source m' = server_source m;
  q_targets : targets m' = targets m;
  q_max : max_body_bytes m' = max_body_bytes m;
  q_rings : ring_stores m' = ring_stores m;
  q_tables : db_stores m' = db_stores m;
  q_attach : attach_send_budgets m' = attach_send_budgets m;
  q_rates : send_rate_buckets m' = send_rate_buckets m;
  q_denied : publish_denied m' = publish_denied m;
}.

#[global] Instance quiet_preorder : PreOrder quiet.
Proof. split; [by intros m|]. intros a b c [] []. split; congruence. Qed.

Lemma call_quiet m c : quiet m (call m c).
Proof. done. Qed.

Lemma fan_out_quiet m ts e s : quiet m (fan_out_attach_feed m ts e s).
Proof.
  unfold fan_out_attach_feed. revert m. induction ts as [|t ts IH]; intros m; simpl; [done|].
  etrans; [|apply IH]. apply call_quiet.
Qed.

Lemma noise_quiet m c s l n m' : enact_overflow_noise m c s l n = Returns m' → quiet m m'.
Proof. unfold enact_overflow_noise. intros He. destruct (n =? 0); returned; [done|]. destruct l; returned; done. Qed.

Lemma event_quiet entry m ev m' : enact_overflow_event entry m ev = Returns m' → quiet m m'.
Proof.
  unfold enact_overflow_event. intros He. returned. split_on He; returned; [by eapply noise_quiet|done|].
  split_on He; returned; done.
Qed.

(** A fold of calls that may unwind, one at a time. *)
Lemma fold_Panics {A S} (f : S → A → panics S) (l : list A) why :
  foldl (λ acc x, s ← acc; f s x) (Panics why) l = Panics why.
Proof. induction l; done. Qed.

Lemma fold_Returns {A S} (f : S → A → panics S) (R : S → S → Prop) `{!PreOrder R} (l : list A) s s' :
  (∀ s x s', f s x = Returns s' → R s s') →
  foldl (λ acc x, s ← acc; f s x) (Returns s) l = Returns s' → R s s'.
Proof.
  intros Hf. revert s. induction l as [|x l IH]; intros s; simpl; [by intros [= <-]|].
  destruct (f s x) as [t|why] eqn:Hx; [|by rewrite fold_Panics]. intros Hl. etrans; [by eapply Hf|by apply IH].
Qed.

Lemma events_quiet m entry evs m' : enact_overflow_events m entry evs = Returns m' → quiet m m'.
Proof. apply fold_Returns; [apply _|]. intros. by eapply event_quiet. Qed.

Lemma fed_quiet m ad e s m' : Gated.fed m ad e s m' → quiet m m'.
Proof. intros [[-> _]|(?&_&_&_&_&->)]; [done|apply fan_out_quiet]. Qed.

(** Asking for a store opens at most a table's handle. *)
Lemma store_for_spec m entry m' h :
  store_for m entry = Returns (m', h) →
  (∃ x, m' = with_db_stores m x) ∧ ∃ caps, entry_capabilities entry = Returns caps ∧
  match h with
  | InTable st => durable caps = true ∧ db_stores m' !! uuid entry = Some st ∧
      db_stores m' = <[uuid entry := st]> (db_stores m) ∧
      (db_stores m !! uuid entry = Some st ∨
       db_stores m !! uuid entry = None ∧
       st = DbStore.mkDbStore (uuid entry) (address entry) (channel_retain_depth (resolved_channel entry)))
  | InRing u => durable caps = false ∧ u = uuid entry ∧ m' = m ∧ is_Some (RingStores.get (ring_stores m) u)
  end.
Proof.
  unfold store_for. rewrite bind_Returns. intros (caps&Hc&Hs). destruct (durable caps) eqn:Hd.
  - destruct (db_stores m !! uuid entry) as [st|] eqn:Hst; simplify_eq.
    + split; [exists (db_stores m'); by destruct m'|]. exists caps. split_and!; try done; [by rewrite insert_id|by left].
    + split; [by eexists|]. exists caps. split_and!; try done; [simpl; by rewrite lookup_insert_eq|by right].
  - returned. split; [exists (db_stores m'); by destruct m'|]. exists caps. split_and!; try done.
Qed.

(** *** Budgets *)

Lemma allocate_budgets (d d' : Db.Database Uuid) u n s :
  Db.allocate_retained_seqs d u n = Returns (d', s) → Db.budgets d' = Db.budgets d.
Proof. unfold Db.allocate_retained_seqs. intros Ha. by returned. Qed.

Lemma insert_budgets (d d' : Db.Database Uuid) fresh u src s b urg et rt (dd da : option DateTime) imp ts q :
  Db.insert_message d fresh u src s b urg et rt dd da imp ts = Returns (d', q) → Db.budgets d' = Db.budgets d.
Proof.
  unfold Db.insert_message. rewrite bind_Returns. intros ([d1 s1]&Ha&Hi). returned.
  destruct da; returned; [done|]. simpl. by eapply allocate_budgets.
Qed.

Lemma append_budgets m h fresh msg m' out :
  dyn_append m h fresh msg = Returns (m', out) → Db.budgets (db m') = Db.budgets (db m).
Proof.
  destruct h; simpl; intros Ha; [|unfold on_ring in Ha; by returned].
  unfold on_table, DbStore.append in Ha. returned. unfold DbStore.insert_new in *. by eapply insert_budgets.
Qed.

Lemma park_budgets m h fresh msg t m' out :
  dyn_park m h fresh msg t = Returns (m', out) → Db.budgets (db m') = Db.budgets (db m).
Proof.
  destruct h; simpl; intros Ha; [|unfold on_ring in Ha; by returned].
  unfold on_table, DbStore.park in Ha. returned. rename select (_ = Returns (_, out)) into Hp.
  split_on Hp; returned; [done|]. unfold DbStore.insert_new in *. by eapply insert_budgets.
Qed.

(** What a conversation has left to send, its application's budget standing in for a row it
    does not have yet. *)
Definition sends_left m (id : Z) (b : N) : N := default b (Db.budgets (db m) !! id).

Lemma decrement_left (d d' : Db.Database Uuid) id b o :
  Db.decrement_send_budget d id b = (d', o) →
  (∀ id', id' ≠ id → Db.budgets d' !! id' = Db.budgets d !! id') ∧
  match o with
  | Db.BudgetOk n => Db.budgets d' !! id = Some n ∧ default b (Db.budgets d !! id) = n + 1
  | Db.BudgetIsExhausted => Db.budgets d' !! id = Some 0 ∧ default b (Db.budgets d !! id) = 0
  end.
Proof.
  unfold Db.decrement_send_budget. set (x := match Db.budgets d !! id with Some b => b | None => b end).
  assert (x = default b (Db.budgets d !! id)) as Hx by (unfold x; by destruct (Db.budgets d !! id)).
  rewrite <-Hx. destruct (N.ltb_spec 0 x); intros [= <- <-]; simpl.
  - split; [intros; by rewrite !lookup_insert_ne|]. rewrite lookup_insert_eq. split; [done|lia].
  - split; [intros; by rewrite lookup_insert_ne|]. rewrite lookup_insert_eq. split; [f_equal|]; lia.
Qed.

Lemma refund_left (d : Db.Database Uuid) id b n :
  Db.budgets d !! id = Some n → n < b →
  Db.budgets (Db.refund_send_budget d id b) !! id = Some (n + 1) ∧
  ∀ id', id' ≠ id → Db.budgets (Db.refund_send_budget d id b) !! id' = Db.budgets d !! id'.
Proof.
  intros Hn Hb. unfold Db.refund_send_budget. rewrite Hn. destruct (N.ltb_spec n b); [|lia]. simpl.
  split; [by rewrite lookup_insert_eq|]. intros. by rewrite lookup_insert_ne.
Qed.

Definition is_ok (res : BusResult Uuid) : bool := match res with ResOk _ _ _ => true | _ => false end.

(** A commit changes no budget, but for the refund of a schedule its channel refused. *)
Lemma commit_left m r o s ad body u rt da dd imp rem m' res :
  commit m r o s ad body u rt da dd imp rem = Returns (m', res) →
  match o with
  | FromConversation c =>
      if is_ok res then Db.budgets (db m') = Db.budgets (db m)
      else ∃ b d, ad_budget ad = Some b ∧ Db.budgets d = Db.budgets (db m) ∧ db m' = Db.refund_send_budget d c b
  | FromSystem => Db.budgets (db m') = Db.budgets (db m)
  end.
Proof.
  intros (m1&h&Hst&Hc)%Gated.commit_spec. apply store_for_spec in Hst as [[x ->] _]. destruct da as [t|].
  - destruct Hc as (m2&pr&Hp%park_budgets&Hr). simpl in Hp. destruct pr as [id|q].
    + destruct Hr as [-> ->]. simpl. by destruct o.
    + destruct Hr as [-> Hr]. destruct o as [c|]; [|by subst]. destruct Hr as (b&Hb&->). simpl. by eauto.
  - destruct Hc as (m2&out&m3&m4&Ha%append_budgets&He%events_quiet&Hf%fed_quiet&->&->). simpl in *.
    assert (Db.budgets (db m4) = Db.budgets (db m)) as Heq by (rewrite (q_db _ _ Hf), (q_db _ _ He); done).
    by destruct o.
Qed.

(** One publish: a conversation pays one for what it lands and nothing for what it does not,
    and pays for nobody else. *)
Lemma publish_left m r o p addr body u rt da dd imp m' res id b :
  publish_core m r o p addr body u rt da dd imp = Returns (m', res) →
  (o = FromConversation id → Gated.budget_of m p = Some b) → sends_left m id b ≤ b →
  sends_left m' id b + (if decide (o = FromConversation id) then (if is_ok res then 1 else 0) else 0)
  = sends_left m id b.
Proof.
  intros (s&v&_&Hv&Hr)%Gated.publish_core_spec Hb Hle. unfold sends_left in *.
  assert (Hrec : ∀ e, Db.budgets (db (record_publish_denial m s e)) = Db.budgets (db m))
    by (intros e; unfold record_publish_denial; by destruct (signal_kind e)).
  pose proof (Gated.validate_Ok _ _ _ _ _ _ _ Hv) as Hval. destruct v as [ad|e].
  2:{ destruct Hr as [-> ->]. rewrite Hrec. destruct Hval as [[k Hk] _]. by destruct e; try done; case_decide; simpl; lia. }
  destruct Hval as (_&_&_&Had&_). destruct Hr as (m1&paid&Hsp&Hr).
  apply Gated.spend_spec in Hsp as (ab&rb&rl&Hsp). destruct paid as [rem|e].
  2:{ destruct Hr as (->&->&_). destruct Hsp as [Hre [->|(c&bc&->&Hbc&Hdec&_)]].
      - destruct Hre as [-> | ->]; by case_decide; simpl; lia.
      - apply decrement_left in Hdec as [Hoth [Hz H0']]. destruct (decide (c = id)) as [->|Hne].
        + assert (Some b = Some bc) as [= <-] by (rewrite <-Hb by done; congruence).
          rewrite Hz, H0'. destruct Hre as [-> | ->]; by case_decide.
        + rewrite Hoth by done. case_decide; simplify_eq; lia. }
  destruct Hr as [Hc _]. apply commit_left in Hc. destruct o as [c|].
  2:{ destruct Hsp as [-> ->]. rewrite Hc. case_decide; [done|]. simpl. lia. }
  destruct Hsp as (bc&n&->&Hbc&Hdec&Hm1). apply decrement_left in Hdec as [Hoth [Hn Hn1]].
  destruct (decide (c = id)) as [->|Hne].
  - rewrite decide_True by done.
    assert (Some b = Some bc) as [= <-] by (rewrite <-Hb by done; congruence).
    destruct (is_ok res); [by rewrite Hc, Hn, Hn1|]. destruct Hc as (b'&d&Hb'&Hd&->).
    assert (b' = b) as -> by congruence. rewrite <-Hd in Hn.
    destruct (refund_left d id b n Hn) as [-> _]; [lia|]. simpl. lia.
  - rewrite decide_False by congruence. rewrite <-Hoth by done.
    destruct (is_ok res); [rewrite Hc; lia|]. destruct Hc as (b'&d&_&Hd&->). rewrite <-Hd.
    unfold Db.refund_send_budget. destruct (Db.budgets d !! c) as [x|] eqn:Hx; [|lia].
    destruct (x <? b'); [simpl; rewrite lookup_insert_ne by done|]; lia.
Qed.

(** *** Configuration *)

(** What no message changes. *)
Definition config m := (directory m, targets m, server_source m, max_body_bytes m).

Lemma quiet_config m m' : quiet m m' → config m' = config m.
Proof. intros []. unfold config. congruence. Qed.

Lemma on_table_config {A} m (f : Db.Database Uuid → panics (Db.Database Uuid * A)) m' a :
  on_table m f = Returns (m', a) → config m' = config m.
Proof. unfold on_table. intros Hf. by returned. Qed.

Lemma on_ring_config {A} m u (f : RingStore.RingStore Uuid DateTime → panics (RingStore.RingStore Uuid DateTime * A)) m' a :
  on_ring m u f = Returns (m', a) → config m' = config m.
Proof. unfold on_ring. intros Hf. by returned. Qed.

Lemma append_config m h fresh msg m' out : dyn_append m h fresh msg = Returns (m', out) → config m' = config m.
Proof. destruct h; [apply on_table_config|apply on_ring_config]. Qed.
Lemma park_config m h fresh msg t m' out : dyn_park m h fresh msg t = Returns (m', out) → config m' = config m.
Proof. destruct h; [apply on_table_config|apply on_ring_config]. Qed.

Lemma spend_config m r o p s ad m' paid : spend m r o p s ad = Returns (m', paid) → config m' = config m.
Proof.
  intros (ab&rb&rl&Hsp)%Gated.spend_spec. destruct paid as [rem|e].
  - destruct o as [c|]; [by destruct Hsp as (?&?&_&_&_&->)|by destruct Hsp as [_ ->]].
  - destruct Hsp as [_ [->|(?&?&_&_&_&->)]]; done.
Qed.

Lemma commit_config m r o s ad body u rt da dd imp rem m' res :
  commit m r o s ad body u rt da dd imp rem = Returns (m', res) → config m' = config m.
Proof.
  intros (m1&h&Hst&Hc)%Gated.commit_spec. apply store_for_spec in Hst as [[x ->] _]. destruct da as [t|].
  - destruct Hc as (m2&pr&Hp%park_config&Hr). destruct pr as [id|q]; [by destruct Hr as [-> _]|].
    destruct Hr as [_ Hr]. destruct o; [by destruct Hr as (?&_&->)|by subst].
  - destruct Hc as (m2&out&m3&m4&Ha%append_config&He%events_quiet%quiet_config&Hf%fed_quiet%quiet_config&->&_).
    simpl in *. etrans; [exact Hf|]. by etrans; [exact He|].
Qed.

(** A publish leaves the configuration alone. *)
Lemma publish_config m r o p addr body u rt da dd imp m' res :
  publish_core m r o p addr body u rt da dd imp = Returns (m', res) → config m' = config m.
Proof.
  intros (s&v&_&Hv&Hr)%Gated.publish_core_spec. destruct v as [ad|e].
  2:{ destruct Hr as [_ ->]. unfold record_publish_denial. by destruct (signal_kind e). }
  destruct Hr as (m1&paid&Hsp%spend_config&Hr). rewrite <-Hsp.
  destruct paid as [rem|e]; [|by destruct Hr as (->&_)]. destruct Hr as [Hc _]. by eapply commit_config.
Qed.
End frame.
End Frame.
