(* ===== verification/Feeding.v ===== *)
(** * What is fed is what is kept

    The messenger's own invariant: its directory, its rings and its tables describe one set
    of channels. Publishing keeps it, and under it the envelope a live session is handed is
    the one a subscriber reads back out of retention, at the same position. *)

From S2P Require Import Prelude Envelope Ring Cursor Deferred RingCore Grants Access TokenBucket Directory Serve Session Identity Retention Retaining DbStore Durable Bus Publishing.

#[local] Open Scope N_scope.
#[local] Open Scope list_scope.

Module Keeping.
Import Envelope Directory Identity Plane Retention Targets Messaging Ladder Pipeline Frame.

Section keeping.
Context {Uuid DateTime : Type}
  `{Countable Uuid, Chrono DateTime, ChronoSecs DateTime, ChronoOrd DateTime, !ChronoLine DateTime}.
Context `{WakeRouter}.
Implicit Types (m : MessengerState Uuid DateTime) (r : Reads Uuid DateTime) (entry : ChannelEntry Uuid).
Implicit Types (d : Db.Database Uuid) (st : DbStore.DbStore Uuid) (msg : NewMessage Uuid DateTime).

(** One set of channels. *)
Record bus_wf m : Prop := mkBusWf {
  bw_dir : DirectoryRun.dir_wf (directory m);
  bw_scheme u entry : by_uuid (directory m) !! u = Some entry → scheme_of (address entry) = Some (transport_type entry);
  bw_rings : StoresRun.stores_wf (ring_stores m);
  bw_db : DbFacts.db_wf (DateTime := DateTime) (db m);
  bw_ring u entry caps :
    by_uuid (directory m) !! u = Some entry → entry_capabilities entry = Returns caps → durable caps = false →
    ∃ rs, RingStores.get (ring_stores m) u = Some rs ∧ RingStore.st_address rs = address entry ∧
      (channel_retain_depth (resolved_channel entry) ≠ Bounded 0 → 0 < Ring.depth (Core.ring (RingStore.core rs)));
  bw_row u entry caps :
    by_uuid (directory m) !! u = Some entry → entry_capabilities entry = Returns caps → durable caps = true →
    ∃ c, Db.channels (db m) !! u = Some c ∧ Db.ch_address c = address entry;
  bw_table u st : db_stores m !! u = Some st → DbStore.ds_channel_uuid st = u;
}.

(** Room left in every channel's counters. *)
Definition room m : Prop :=
  (∀ u c, Db.channels (db m) !! u = Some c → Db.ch_last_retained_seq c + 1 < i64_max) ∧
  (∀ u rs, RingStores.get (ring_stores m) u = Some rs →
     Ring.next_seq (Core.ring (RingStore.core rs)) < u64_max ∧ Deferred.next_id (Core.deferred (RingStore.core rs)) < u64_max).

(** *** Appending to a table *)

Lemma utc_to_ns_range (t : DateTime) : (- 9223372036854775808 ≤ utc_to_ns t ≤ 9223372036854775807)%Z.
Proof.
  unfold utc_to_ns, i64_wrap.
  match goal with |- context [((?x + _) mod 18446744073709551616)%Z] =>
    pose proof (Z.mod_pos_bound (x + 9223372036854775808) 18446744073709551616 ltac:(lia)) end. lia.
Qed.

(** The times a message brings to a table are ones its columns hold. *)
Definition msg_times msg : Prop :=
  (- 9223372036854775808 ≤ nm_publish_ts_ns msg ≤ 9223372036854775807)%Z ∧
  from_option four_digit_year True (nm_delivery_deadline msg).

(** What an admitted row tells of the message it was made from. *)
Lemma admitted_ok d d0 fresh u msg after seq :
  Db.messages d0 = Db.messages d → DbFacts.same_names d d0 →
  msg_times msg →
  Db.row_admitted d0 (DbRun.new_row d0 fresh u msg after seq) = true →
  DbRun.msg_ok d fresh msg ∧ (is_Some after → nm_envelope_type msg = Brenn).
Proof.
  intros Hms Hn [Hts Hdl]. unfold Db.row_admitted. rewrite !andb_true_iff, Hms. intros (((Hrow&Hty)&_)&Hrt).
  unfold DbRun.msg_ok. split; [split; [|split; [done|split; [|split; [|done]]]]|].
  - intros Hin. apply list_elem_of_fmap in Hin as (x&Hx&Hin). rewrite forallb_forall in Hrow.
    specialize (Hrow x). rewrite <-list_elem_of_In in Hrow. specialize (Hrow Hin).
    apply andb_prop in Hrow as [Hrow _]. apply negb_true_iff, bool_decide_eq_false in Hrow. by apply Hrow.
  - simpl in Hrt. destruct (nm_reply_to msg); [|done]. simpl in *. apply bool_decide_eq_true in Hrt.
    destruct Hrt as [c Hc]. specialize (Hn (target_uuid r)). rewrite Hc in Hn.
    by destruct (Db.channels d !! target_uuid r).
  - simpl in Hty. apply orb_true_iff in Hty as [Hty%bool_decide_eq_true|Hty].
    + injection Hty as ->. by left.
    + right. apply andb_prop in Hty as [_ Hty]. simpl in Hty. by destruct (nm_delivery_deadline msg).
  - intros [t ->]. simpl in Hty. apply orb_true_iff in Hty as [Hty%bool_decide_eq_true|Hty]; [by injection Hty|done].
Qed.

Lemma table_append st d ch fresh msg d' out :
  DbFacts.db_wf (DateTime := DateTime) d → Db.channels d !! DbStore.ds_channel_uuid st = Some ch →
  msg_times msg →
  Db.ch_last_retained_seq ch + 1 < i64_max →
  DbStore.append st d fresh msg = Returns (d', out) →
  let u := DbStore.ds_channel_uuid st in
  let row := DbRun.new_row (DbRun.bump d u ch) fresh u msg None (Some (Db.ch_last_retained_seq ch + 1)) in
  DbFacts.db_wf (DateTime := DateTime) d' ∧ DbFacts.same_names d d' ∧
  out = mkAppendOutcome (mkCommitted fresh (Db.ch_last_retained_seq ch + 1)) [] ∧
  Db.retained_rows d' u = Db.retained_rows d u ++ [row].
Proof.
  intros Hwf Hch Hts Hmax Ha u row. set (d0 := DbRun.bump d u ch).
  assert (Hn : DbFacts.same_names d d0) by (by eapply DbRun.bumped_names).
  pose proof Ha as Ha'. unfold DbStore.append, DbStore.insert_new, Db.insert_message in Ha'.
  rewrite (DbRun.allocate_Returns d (DbStore.ds_channel_uuid st) ch Hch) in Ha'. cbn [mbind panics_bind] in Ha'. returned.
  rename select (Db.row_admitted _ _ = true) into Hadm.
  destruct (admitted_ok d d0 fresh u msg None (Some (Db.ch_last_retained_seq ch + 1)) eq_refl Hn Hts Hadm) as [Hok _].
  destruct (DbRun.table_append_stepped st d fresh msg Hwf) as (d2&out2&Hstep&Hwf2&_&_&Hn2).
  { eapply DbRun.op_ok_at; [done|]. by split. }
  cbn [DbRun.db_step] in Hstep. rewrite Ha in Hstep. cbn in Hstep. injection Hstep as <- _.
  simplify_eq. split_and!; [done|done|done|].
  apply (DbSim.retained_snoc _ _ _ _ (Db.ch_last_retained_seq ch)); [by apply (DbFacts.dw_dense _ Hwf)|done|].
  simpl. rewrite filter_app. cbn. unfold Db.on_channel, Db.is_retained. simpl. by rewrite !bool_decide_true.
Qed.

Lemma table_park st d ch fresh msg t d' out :
  DbFacts.db_wf (DateTime := DateTime) d → Db.channels d !! DbStore.ds_channel_uuid st = Some ch →
  msg_times msg → four_digit_year t →
  DbStore.park st d fresh msg t = Returns (d', out) →
  DbFacts.db_wf (DateTime := DateTime) d' ∧ DbFacts.same_names d d'.
Proof.
  intros Hwf Hch Hts Hyear Hp. pose proof Hp as Hp'. unfold DbStore.park in Hp'.
  destruct (Db.deferred_cap_refusal _ _ _) as [cap|]; [by returned|].
  unfold DbStore.insert_new, Db.insert_message in Hp'. cbn [mbind panics_bind] in Hp'. returned.
  rename select (Db.row_admitted _ _ = true) into Hadm.
  destruct (admitted_ok d d fresh (DbStore.ds_channel_uuid st) msg (Some t) None eq_refl (λ _, eq_refl) Hts Hadm) as [Hok Hbr].
  destruct (DbRun.table_park_stepped st d fresh msg t Hwf) as (d2&out2&Hstep&Hwf2&_&_&Hn2).
  { eapply DbRun.op_ok_at; [done|]. split; [done|]. split; [by apply Hbr|done]. }
  cbn [DbRun.db_step] in Hstep. rewrite Hp in Hstep. cbn in Hstep. by injection Hstep as <- _.
Qed.

(** *** Appending to a ring *)

Lemma ring_append (rs rs' : RingStore.RingStore Uuid DateTime) fresh msg out :
  StoreRun.store_wf rs → Ring.next_seq (Core.ring (RingStore.core rs)) < u64_max →
  RingStore.store_append rs fresh msg = Returns (rs', out) →
  ∃ e, RingStore.envelope_of rs fresh msg = Returns e ∧
  StoreRun.store_wf rs' ∧ StoreRun.same_channel rs rs' ∧
  Core.ring (RingStore.core rs') = (Ring.append (Core.ring (RingStore.core rs)) e).1 ∧
  ao_committed out = mkCommitted fresh (Ring.next_seq (Core.ring (RingStore.core rs))).
Proof.
  intros Hwf Hmax. unfold RingStore.store_append. rewrite bind_Returns. intros (e&He&Ha). exists e. split; [done|].
  destruct (StoreRun.store_append_wf rs e Hwf Hmax) as (a&Hap&Hwf'&Hret&_). rewrite Hap in Ha. returned.
  split_and!; [done| | |].
  - done.
  - simpl. apply CoreRun.core_append_frame.
  - rewrite Hret. simpl. unfold RingStore.envelope_of in He. by returned.
Qed.

Lemma ring_park (rs rs' : RingStore.RingStore Uuid DateTime) fresh msg t out :
  StoreRun.store_wf rs → Deferred.next_id (Core.deferred (RingStore.core rs)) < u64_max →
  RingStore.store_park rs fresh msg t = Returns (rs', out) →
  StoreRun.store_wf rs' ∧ StoreRun.same_channel rs rs' ∧
  Core.ring (RingStore.core rs') = Core.ring (RingStore.core rs).
Proof.
  intros Hwf Hmax. unfold RingStore.store_park. rewrite bind_Returns. intros (e&_&Hp).
  assert (Ht : StoreRun.after_epoch t).
  { unfold RingStore.park, release_time_of in Hp. returned. unfold StoreRun.after_epoch.
    rename select (_ = Returns _) into Hr. destruct (Z.ltb_spec (timestamp_millis t) 0); [done|lia]. }
  destruct (StoreRun.park_stepped rs e t Hwf) as (rs2&evs&Hs&Hwf2&_); [by repeat split|].
  pose proof (StoreRun.store_step_same_channel _ _ _ _ Hs) as Hsame.
  cbn [StoreRun.store_step] in Hs. rewrite Hp in Hs. cbn in Hs. injection Hs as <- _. split_and!; [done|done|].
  unfold RingStore.park, Core.core_park in Hp. rewrite StoreRun.release_time_of_Returns in Hp by done.
  cbn in Hp. destruct (Deferred.park _ _ _ _). by injection Hp as <- _.
Qed.

(** *** The invariant, step by step *)

Lemma bus_wf_ext m m' :
  db m' = db m → directory m' = directory m → ring_stores m' = ring_stores m → db_stores m' = db_stores m →
  bus_wf m → bus_wf m'.
Proof. intros Hd Hdir Hr Ht []. split; rewrite ?Hd, ?Hdir, ?Hr, ?Ht; done. Qed.

Lemma quiet_wf m m' : quiet m m' → bus_wf m → bus_wf m'.
Proof. intros []. by apply bus_wf_ext. Qed.

Lemma with_db_wf m d' :
  bus_wf m → DbFacts.db_wf (DateTime := DateTime) d' → DbFacts.same_names (db m) d' → bus_wf (with_db m d').
Proof.
  intros [Hdir Hs Hr Hd Hring Hrow Ht] Hwf Hn. split; try done. intros u entry caps He Hc Hdu.
  destruct (Hrow u entry caps He Hc Hdu) as (c&Hch&Ha). simpl. specialize (Hn u). rewrite Hch in Hn. simpl in Hn.
  destruct (Db.channels d' !! u) as [c'|] eqn:Hc'; [|done]. exists c'. split; [done|]. simpl in Hn. congruence.
Qed.

Lemma with_ring_wf m u rs rs' :
  bus_wf m → RingStores.get (ring_stores m) u = Some rs → StoreRun.store_wf rs' → StoreRun.same_channel rs rs' →
  Ring.depth (Core.ring (RingStore.core rs')) = Ring.depth (Core.ring (RingStore.core rs)) →
  bus_wf (with_rings m (RingStores.put (ring_stores m) u rs')).
Proof.
  intros [Hdir Hs Hr Hd Hring Hrow Ht] Hu Hwf Hsame Hdep. split; try done.
  - by eapply StoresRun.put_wf.
  - intros v entry caps He Hc Hdu. destruct (Hring v entry caps He Hc Hdu) as (x&Hx&Ha&Hz).
    unfold RingStores.get in *. simpl. destruct (decide (v = u)) as [->|Hne].
    + rewrite lookup_insert_eq. exists rs'. assert (x = rs) as -> by congruence. split_and!; [done| |].
      * destruct Hsame as (->&_). done.
      * by rewrite Hdep.
    + rewrite lookup_insert_ne by done. by exists x.
Qed.

Lemma store_for_wf m entry m1 h : bus_wf m → store_for m entry = Returns (m1, h) → bus_wf m1.
Proof.
  intros Hwf [[x Hm1] (caps&_&Hh)]%store_for_spec. destruct h as [st|u]; [|by destruct Hh as (_&_&->&_)].
  destruct Hh as (_&_&Htab&Hst). subst m1. destruct Hwf as [Hdir Hs Hr Hd Hring Hrow Ht]. split; try done.
  simpl in *. subst x. intros u st'. rewrite lookup_insert_Some. intros [[<- <-]|[_ Hst']]; [|by apply Ht].
  destruct Hst as [Hst|[_ ->]]; [by apply Ht|done].
Qed.

(** The store of a listed channel: its table's row, or its ring. *)
Definition handle_of m entry (h : StoreHandle Uuid) : Prop :=
  match h with
  | InTable st => DbStore.ds_channel_uuid st = uuid entry ∧
      ∃ c, Db.channels (db m) !! uuid entry = Some c ∧ Db.ch_address c = address entry
  | InRing u => u = uuid entry ∧
      ∃ rs, RingStores.get (ring_stores m) u = Some rs ∧ RingStore.st_address rs = address entry ∧
        (channel_retain_depth (resolved_channel entry) ≠ Bounded 0 → 0 < Ring.depth (Core.ring (RingStore.core rs)))
  end.

Lemma store_for_handle m addr entry m1 h :
  bus_wf m → resolve (directory m) addr = Some entry → store_for m entry = Returns (m1, h) →
  handle_of m1 entry h ∧ address entry = addr.
Proof.
  intros Hwf Hres Hst. pose proof (store_for_wf _ _ _ _ Hwf Hst) as Hwf1.
  apply store_for_spec in Hst as [[x Hm1] (caps&Hc&Hh)]. unfold resolve in Hres.
  destruct (by_address (directory m) !! addr) as [u|] eqn:Ha; [|done]. simpl in Hres.
  apply (DirectoryRun.dwf_address _ (bw_dir _ Hwf)) in Ha as (e'&He'&<-). assert (e' = entry) as -> by congruence.
  pose proof (DirectoryRun.dwf_id _ (bw_dir _ Hwf) _ _ Hres) as Hu. subst u. split; [|done].
  destruct h as [st|u]; simpl.
  - destruct Hh as (Hd&Hst&_). split; [by apply (bw_table _ Hwf1)|]. subst m1. by apply (bw_row _ Hwf _ _ caps).
  - destruct Hh as (Hd&->&->&_). split; [done|]. by apply (bw_ring _ Hwf _ _ caps).
Qed.

Lemma dyn_append_wf m entry h fresh msg m' out :
  bus_wf m → room m → handle_of m entry h → msg_times msg → dyn_append m h fresh msg = Returns (m', out) → bus_wf m'.
Proof.
  intros Hwf [Hrt Hrr] Hh Hts. destruct h as [st|u]; simpl in *.
  - destruct Hh as [Hu (c&Hc&_)]. rewrite <-Hu in Hc. unfold on_table. intros Ha. returned.
    rename select (DbStore.append _ _ _ _ = _) into Happ.
    eapply table_append in Happ as (?&?&_); [|by apply Hwf|done|done|by eapply Hrt]. by apply with_db_wf.
  - destruct Hh as [-> (rs&Hrs&_)]. unfold on_ring, ring_store. rewrite Hrs. cbn [rust_expect mbind panics_bind].
    rewrite bind_Returns. intros ([rs' o]&Hop&[= <- <-]). pose proof (StoresRun.rwf_stores _ (bw_rings _ Hwf) _ _ Hrs) as (_&_&Hswf).
    destruct (Hrr _ _ Hrs) as [Hn _].
    apply ring_append in Hop as (e&_&Hwf'&Hsame&Hring&_); [|done..]. eapply with_ring_wf; try done.
    destruct (StoreRun.swf_core _ Hswf) as [Hrg _ _ _]. rewrite Hring. by apply CoreFacts.depth_append.
Qed.

Lemma dyn_park_wf m entry h fresh msg t m' out :
  bus_wf m → room m → handle_of m entry h → msg_times msg → four_digit_year t → dyn_park m h fresh msg t = Returns (m', out) → bus_wf m'.
Proof.
  intros Hwf [Hrt Hrr] Hh Hts Hyear. destruct h as [st|u]; simpl in *.
  - destruct Hh as [Hu (c&Hc&_)]. rewrite <-Hu in Hc. unfold on_table. intros Ha. returned.
    rename select (DbStore.park _ _ _ _ _ = _) into Hp.
    eapply table_park in Hp as (?&?); [|by apply Hwf|done|done|done]. by apply with_db_wf.
  - destruct Hh as [-> (rs&Hrs&_)]. unfold on_ring, ring_store. rewrite Hrs. cbn [rust_expect mbind panics_bind].
    rewrite bind_Returns. intros ([rs' o]&Hop&[= <- <-]). pose proof (StoresRun.rwf_stores _ (bw_rings _ Hwf) _ _ Hrs) as (_&_&Hswf).
    destruct (Hrr _ _ Hrs) as [_ Hn].
    apply ring_park in Hop as (Hwf'&Hsame&Hring); [|done..]. eapply with_ring_wf; try done. by rewrite Hring.
Qed.

(** A budget written is no business of the tables. *)
Lemma budgets_wf m d' :
  bus_wf m → Db.messages d' = Db.messages (db m) → Db.channels d' = Db.channels (db m) →
  Db.cursors d' = Db.cursors (db m) → bus_wf (with_db m d').
Proof.
  intros Hwf Hm Hc Hu. apply with_db_wf; [done| |intros u; by rewrite Hc].
  destruct (bw_db _ Hwf) as [Hi Hr Hd Hro Hcu].
  assert (Hrows : ∀ u, Db.retained_rows d' u = Db.retained_rows (db m) u) by (intros u; unfold Db.retained_rows; by rewrite Hm).
  split; rewrite ?Hm, ?Hc, ?Hu; try done. intros u c. unfold DbFacts.dense. rewrite Hrows. by apply Hd.
Qed.

Lemma decrement_rows d d' id b o :
  Db.decrement_send_budget d id b = (d', o) →
  Db.messages d' = Db.messages d ∧ Db.channels d' = Db.channels d ∧ Db.cursors d' = Db.cursors d.
Proof. unfold Db.decrement_send_budget. cbv zeta. destruct (0 <? _); by intros [= <- _]. Qed.

Lemma refund_rows d id b :
  Db.messages (Db.refund_send_budget d id b) = Db.messages d ∧
  Db.channels (Db.refund_send_budget d id b) = Db.channels d ∧
  Db.cursors (Db.refund_send_budget d id b) = Db.cursors d.
Proof. unfold Db.refund_send_budget. by repeat case_match. Qed.

Lemma spend_wf m r o p s ad m' paid :
  bus_wf m → spend m r o p s ad = Returns (m', paid) → bus_wf m' ∧ (room m → room m').
Proof.
  intros Hwf (ab&rb&rl&Hsp)%Gated.spend_spec.
  assert (Hmet : bus_wf (Gated.metered m ab rb rl)) by (by apply (bus_wf_ext m)).
  assert (Hdec : ∀ id b x, Db.decrement_send_budget (db m) id b = (db m', x) →
    m' = with_db (Gated.metered m ab rb rl) (db m') → bus_wf m' ∧ (room m → room m')).
  { intros id b x (Hm&Hc&Hu)%decrement_rows Heq. rewrite Heq. split; [by apply budgets_wf|].
    intros [Hrt Hrr]. split; [simpl; by rewrite Hc|done]. }
  destruct paid as [rem|e].
  - destruct o as [c|]; [destruct Hsp as (b&n&_&_&Hd&Heq); by eapply Hdec|by destruct Hsp as [_ ->]].
  - destruct Hsp as [_ [->|(id&b&_&_&Hd&Heq)]]; [done|by eapply Hdec].
Qed.

Lemma commit_wf m r o s ad addr body u rt da dd imp rem m' res :
  bus_wf m → room m → from_option four_digit_year True da → from_option four_digit_year True dd → resolve (directory m) addr = Some (ad_channel ad) →
  commit m r o s ad body u rt da dd imp rem = Returns (m', res) → bus_wf m'.
Proof.
  intros Hwf Hroom Hda Hdd Hres (m1&h&Hst&Hc)%Gated.commit_spec.
  pose proof (store_for_wf _ _ _ _ Hwf Hst) as Hwf1. pose proof (store_for_handle _ _ _ _ _ Hwf Hres Hst) as [Hh _].
  apply store_for_spec in Hst as [[x Hm1] _].
  assert (room m1) as Hroom1 by (by subst m1).
  assert (Hts : ∀ m, msg_times (Gated.committed_message m r s ad body u dd imp)) by (intros ?; split; [apply utc_to_ns_range|done]).
  destruct da as [t|].
  - destruct Hc as (m2&pr&Hp&Hr). eapply dyn_park_wf in Hp as Hwf2; try done. destruct pr as [id|q].
    + destruct Hr as [-> _]. eapply quiet_wf; [apply call_quiet|done].
    + destruct Hr as [_ Hr]. destruct o as [c|]; [|by subst]. destruct Hr as (b&_&->).
      destruct (refund_rows (db m2) c b) as (?&?&?). by apply budgets_wf.
  - destruct Hc as (m2&out&m3&m4&Ha&He%events_quiet&Hf%fed_quiet&->&_). eapply dyn_append_wf in Ha as Hwf2; try done.
    eapply quiet_wf; [|exact Hwf2]. etrans; [exact He|]. etrans; [exact Hf|]. apply call_quiet.
Qed.

Lemma publish_wf m r o p addr body u rt da dd imp m' res :
  bus_wf m → room m →
  (∀ t, da = Some t → later t (at_schedule r) = true → four_digit_year t) → from_option four_digit_year True dd →
  publish_core m r o p addr body u rt da dd imp = Returns (m', res) → bus_wf m'.
Proof.
  intros Hwf Hroom Hda Hdd (s&v&_&Hv&Hr)%Gated.publish_core_spec.
  pose proof (Gated.validate_Ok _ _ _ _ _ _ _ Hv) as Hval. destruct v as [ad|e].
  2:{ destruct Hr as [_ ->]. unfold record_publish_denial. destruct (signal_kind e); [by apply (bus_wf_ext m)|done]. }
  destruct Hval as [[Hres _ _] _]. destruct Hr as (m1&paid&Hsp&Hr).
  pose proof (spend_config _ _ _ _ _ _ _ _ Hsp) as Hcfg. apply spend_wf in Hsp as [Hwf1 Hroom1]; [|done].
  destruct paid as [rem|e]; [|by destruct Hr as [-> _]]. destruct Hr as [Hc _].
  eapply commit_wf; [exact Hwf1|by apply Hroom1| |exact Hdd| |exact Hc].
  { destruct da as [t|]; simpl; [|done]. destruct (later t _) eqn:Hl; [|done]. by apply Hda. }
  unfold config in Hcfg. by injection Hcfg as -> _ _ _.
Qed.

(** *** Reading back the newest message *)

(** The newest message of a channel, as its store answers a reader of one. *)
Definition newest_retained m (h : StoreHandle Uuid) : panics (list (N * MessageEnvelope Uuid DateTime)) :=
  match h with
  | InTable st => Db.load_channel_retained_window_seq (db m) (DbStore.ds_channel_uuid st) (Bounded 1)
  | InRing u =>
      rs ← ring_store m u;
      Returns ((λ e, (Ring.seq e, Ring.message e)) <$> RingStore.retained_tail rs 1)
  end.

(** The envelope a message becomes on a channel. *)
Definition envelope_on (fresh : Uuid) (addr : string) msg : panics (MessageEnvelope Uuid DateTime) :=
  surface_feed_envelope fresh (nm_source msg) addr (nm_sender msg) (nm_publish_ts_ns msg) (nm_body msg)
    (target_address <$> nm_reply_to msg) (nm_delivery_deadline msg) None (nm_impetus msg) (nm_urgency msg)
    (nm_envelope_type msg).

Lemma whole_second (t : DateTime) : timestamp_subsec_nanos t = 0 → four_digit_year t → Db.parse_rfc3339 (Db.format_ts_for_db t) = Some t.
Proof.
  intros H0' Hy. unfold Db.parse_rfc3339, Db.format_ts_for_db. rewrite rfc3339_reads by done.
  destruct (from_secs_total t 0) as [t' Ht']; [done|]. rewrite Ht'. f_equal. apply nanos_of_inj.
  rewrite (from_secs_nanos _ _ _ Ht'), timestamp_nanos. pose proof (subsec_nanos t) as Hs. rewrite H0' in Hs.
  pose proof (Z.div_mod (nanos_of t) 1000000000 ltac:(lia)). lia.
Qed.

Lemma table_newest st d ch fresh msg d' out e :
  DbFacts.db_wf (DateTime := DateTime) d → Db.channels d !! DbStore.ds_channel_uuid st = Some ch →
  msg_times msg → Db.ch_last_retained_seq ch + 1 < i64_max → DbStore.append st d fresh msg = Returns (d', out) →
  (∀ t, nm_reply_to msg = Some t → Db.ch_address <$> Db.channels d !! target_uuid t = Some (target_address t)) →
  from_option (λ t, timestamp_subsec_nanos t = 0) True (nm_delivery_deadline msg) →
  envelope_on fresh (Db.ch_address ch) msg = Returns e →
  Db.load_channel_retained_window_seq d' (DbStore.ds_channel_uuid st) (Bounded 1)
  = Returns [(committed_seq (ao_committed out), e)].
Proof.
  intros Hwf Hch Hts Hmax Ha Hrt Hdd He. eapply table_append in Ha as (Hwf'&Hn&->&Hrows); [|done..].
  unfold Db.load_channel_retained_window_seq. rewrite Hrows. unfold Db.newest_rows.
  change (Db.depth_limit (Bounded 1)) with 1%Z. cbn [Z.ltb Z.compare]. change (Z.to_nat 1) with 1%nat.
  rewrite length_app. cbn [length]. rewrite Nat.add_sub, drop_app_length.
  set (row := DbRun.new_row _ _ _ _ _ _).
  assert (Hr : Db.row_to_envelope d' row = Some (Returns e)).
  { unfold Db.row_to_envelope, row, DbRun.new_row. cbn [Db.row_channel mbind option_bind].
    pose proof (Hn (DbStore.ds_channel_uuid st)) as Hna. rewrite Hch in Hna. simpl in Hna.
    destruct (Db.channels d' !! DbStore.ds_channel_uuid st) as [c'|]; [|done]. simpl in Hna. injection Hna as Hna.
    f_equal. cbn. rewrite Hna. unfold envelope_on, surface_feed_envelope in He.
    assert ((target_uuid <$> nm_reply_to msg) ≫= (λ u, Db.ch_address <$> Db.channels d' !! u)
            = target_address <$> nm_reply_to msg) as ->.
    { destruct (nm_reply_to msg) as [t|]; simpl; [|done]. by rewrite (Hn (target_uuid t)), (Hrt t eq_refl). }
    assert ((Db.format_ts_for_db <$> nm_delivery_deadline msg) ≫= Db.parse_rfc3339 = nm_delivery_deadline msg) as ->.
    { destruct Hts as [_ Hy]. destruct (nm_delivery_deadline msg) as [t|]; simpl in *; [by apply whole_second|done]. }
    f_equal. exact He. }
  unfold Db.read_rows. cbn [omap list_omap]. rewrite Hr. done.
Qed.

Lemma tail_one (es : list (Ring.Retained (MessageEnvelope Uuid DateTime))) x :
  drop (length (es ++ [x]) - 1) (es ++ [x]) = [x].
Proof. rewrite length_app. simpl. by rewrite Nat.add_sub, drop_app_length. Qed.

Lemma ring_newest (rs rs' : RingStore.RingStore Uuid DateTime) fresh msg out e :
  StoreRun.store_wf rs → Ring.next_seq (Core.ring (RingStore.core rs)) < u64_max →
  0 < Ring.depth (Core.ring (RingStore.core rs)) →
  RingStore.store_append rs fresh msg = Returns (rs', out) →
  envelope_on fresh (RingStore.st_address rs) msg = Returns e →
  RingStore.retained_tail rs' 1 = [Ring.mkRetained (committed_seq (ao_committed out)) e].
Proof.
  intros Hwf Hmax Hdep Ha He. apply ring_append in Ha as (e'&He'&Hwf'&_&Hring&->); [|done..].
  assert (e' = e) as ->.
  { unfold envelope_on, surface_feed_envelope in He. unfold RingStore.envelope_of in He'.
    destruct (ns_to_utc _); [|done]. simpl in *. congruence. }
  unfold RingStore.retained_tail. destruct (StoreRun.swf_core _ Hwf) as [Hrg _ _ _], (StoreRun.swf_core _ Hwf') as [Hrg' _ _ _].
  rewrite Cursor.tail_drop, Hring, Ring.append_spec by done. simpl. set (es := Ring.entries _).
  replace (N.to_nat (len es + 1 - Ring.depth (Core.ring (RingStore.core rs))))
    with (length es - (N.to_nat (Ring.depth (Core.ring (RingStore.core rs))) - 1))%nat by (unfold len; lia).
  rewrite drop_app_le by lia. set (es' := drop _ es). unfold len.
  replace (N.to_nat (N.of_nat (length (es' ++ [Ring.mkRetained (Ring.next_seq (Core.ring (RingStore.core rs))) e])) - 1))
    with (length (es' ++ [Ring.mkRetained (Ring.next_seq (Core.ring (RingStore.core rs))) e]) - 1)%nat by lia.
  apply tail_one.
Qed.

(** *** What the router is told *)

Definition feed_call (e : MessageEnvelope Uuid DateTime) (s : N) (t : AttachFeedTarget) : RouterCall Uuid DateTime :=
  if ft_push_enabled t then Deliver (ft_kind t) e s else DeliverContext (ft_kind t) e s.

Lemma fan_out_called m ts e s : called (fan_out_attach_feed m ts e s) = called m ++ (feed_call e s <$> ts).
Proof.
  unfold fan_out_attach_feed. revert m. induction ts as [|t ts IH]; intros m; simpl; [by rewrite app_nil_r|].
  rewrite IH. simpl. by rewrite <-app_assoc.
Qed.

Definition is_alarm (c : RouterCall Uuid DateTime) : Prop := match c with RaiseAlarm _ _ _ => True | _ => False end.

(** More was told, all of it alarms. *)
Definition alarmed m m' : Prop := ∃ l, called m' = called m ++ l ∧ Forall is_alarm l.
#[local] Instance alarmed_preorder : PreOrder alarmed.
Proof.
  split; [intros m; exists []; by rewrite app_nil_r|]. intros a b c (l&Hl&Fl) (k&Hk&Fk). exists (l ++ k).
  rewrite Hk, Hl, app_assoc. split; [done|by apply Forall_app].
Qed.

Lemma events_alarmed m entry evs m' : enact_overflow_events m entry evs = Returns m' → alarmed m m'.
Proof.
  apply fold_Returns; [apply _|]. intros m1 ev m2 He. unfold enact_overflow_event in He. returned.
  assert (Hn : ∀ c s l n, enact_overflow_noise m1 c s l n = Returns m2 → alarmed m1 m2).
  { intros c s l n. unfold enact_overflow_noise. destruct (n =? 0); [by intros [= <-]|]. intros Hl. returned.
    destruct l; returned; [done|exists []; by rewrite app_nil_r|eexists; by split; [|constructor; [|constructor]]]. }
  split_on He; returned; [by eapply Hn|done|]. split_on He; returned; done.
Qed.

Lemma spend_called m r o p s ad m' paid : spend m r o p s ad = Returns (m', paid) → called m' = called m.
Proof.
  intros (ab&rb&rl&Hsp)%Gated.spend_spec. destruct paid as [rem|e].
  - destruct o as [c|]; [by destruct Hsp as (?&?&_&_&_&->)|by destruct Hsp as [_ ->]].
  - destruct Hsp as [_ [->|(?&?&_&_&_&->)]]; done.
Qed.

Lemma append_called m h fresh msg m' out : dyn_append m h fresh msg = Returns (m', out) → called m' = called m.
Proof. destruct h; simpl; [unfold on_table|unfold on_ring]; intros Ha; by returned. Qed.

(** *** One commit *)

(** The append, read back through the handle. *)
Lemma append_newest m entry h fresh msg m' out e :
  bus_wf m → room m → handle_of m entry h → msg_times msg → dyn_append m h fresh msg = Returns (m', out) →
  channel_retain_depth (resolved_channel entry) ≠ Bounded 0 →
  (∀ t, nm_reply_to msg = Some t → Db.ch_address <$> Db.channels (db m) !! target_uuid t = Some (target_address t)) →
  from_option (λ t, timestamp_subsec_nanos t = 0) True (nm_delivery_deadline msg) →
  envelope_on fresh (address entry) msg = Returns e →
  committed_uuid (ao_committed out) = fresh ∧
  newest_retained m' h = Returns [(committed_seq (ao_committed out), e)].
Proof.
  intros Hwf [Hrt Hrr] Hh Hts Ha Hdep Hrep Hdd He. destruct h as [st|u]; simpl in *.
  - destruct Hh as [Hu (c&Hc&Hca)]. rewrite <-Hu in Hc. unfold on_table in Ha. returned.
    rename select (DbStore.append _ _ _ _ = _) into Happ. rewrite <-Hca in He. simpl. split.
    + eapply table_append in Happ as (_&_&->&_); [done|by apply Hwf|done|done|by eapply Hrt].
    + eapply table_newest; try done; [by apply Hwf|by eapply Hrt].
  - destruct Hh as [-> (rs&Hrs&Hra&Hrd)]. unfold on_ring, ring_store in Ha. rewrite Hrs in Ha.
    cbn [rust_expect mbind panics_bind] in Ha. rewrite bind_Returns in Ha. destruct Ha as ([rs' o]&Hop&[= <- <-]).
    pose proof (StoresRun.rwf_stores _ (bw_rings _ Hwf) _ _ Hrs) as (_&_&Hswf). destruct (Hrr _ _ Hrs) as [Hn _].
    split; [by apply ring_append in Hop as (?&_&_&_&_&->)|].
    unfold ring_store, RingStores.get. simpl. rewrite lookup_insert_eq. simpl. rewrite <-Hra in He.
    erewrite ring_newest; try done. by apply Hrd.
Qed.

Lemma envelope_on_total fresh addr msg : msg_times msg → ∃ e, envelope_on fresh addr msg = Returns e ∧ message_id e = fresh.
Proof.
  intros Hts. unfold envelope_on, surface_feed_envelope, ns_to_utc. destruct (from_ns_total _ (proj1 Hts)) as [t ->]. by eexists.
Qed.

Lemma targets_config m m' entry : config m' = config m → attached_feed_targets m' entry = attached_feed_targets m entry.
Proof. unfold config, attached_feed_targets. by intros [= -> -> _ _]. Qed.

(** The store asked for again is the store. *)
Lemma store_for_again m entry m1 h m' l :
  store_for m entry = Returns (m1, h) → db_stores m' = db_stores m1 → newest_retained m' h = Returns l →
  store_for m' entry = Returns (m', h).
Proof.
  intros [_ (caps&Hcaps&Hk)]%store_for_spec Htab Hnew. unfold store_for. rewrite Hcaps. simpl. destruct h as [st|u].
  - destruct Hk as (->&Hst&_). by rewrite Htab, Hst.
  - destruct Hk as (->&->&_). simpl in Hnew. unfold ring_store in Hnew. returned.
    rename select (RingStores.get _ _ = Some _) into Hg. by rewrite Hg.
Qed.

Lemma newest_quiet m m' h : quiet m m' → newest_retained m' h = newest_retained m h.
Proof. intros []. destruct h; simpl; unfold ring_store; congruence. Qed.

Lemma append_tables m h fresh msg m' out : dyn_append m h fresh msg = Returns (m', out) → db_stores m' = db_stores m.
Proof. destruct h; simpl; [unfold on_table|unfold on_ring]; intros Ha; by returned. Qed.

(** What the feed told the router. *)
Lemma fed_called m ad e q m' :
  Gated.fed m ad (Returns e) q m' →
  called m' = called m ++ (feed_call e q <$> (if transportable (ad_caps ad) then attached_feed_targets m (ad_channel ad) else [])).
Proof.
  intros [[-> Hn]|(e'&->&_&[= <-]&_&->)]; [|apply fan_out_called].
  destruct Hn as [->| ->]; [|destruct (transportable _)]; simpl; by rewrite app_nil_r.
Qed.

Lemma deadline_split (dd : option DateTime) :
  from_option (λ t, timestamp_subsec_nanos t = 0 ∧ four_digit_year t) True dd →
  from_option (λ t, timestamp_subsec_nanos t = 0) True dd ∧ from_option four_digit_year True dd.
Proof. by destruct dd. Qed.

Lemma commit_feeds m r o s ad addr body u dd imp rem m' id a rem' :
  bus_wf m → room m → resolve (directory m) addr = Some (ad_channel ad) →
  commit m r o s ad body u (target_address <$> ad_reply ad) None dd imp rem = Returns (m', ResOk id a rem') →
  channel_retain_depth (resolved_channel (ad_channel ad)) ≠ Bounded 0 →
  (∀ t, ad_reply ad = Some t → Db.ch_address <$> Db.channels (db m) !! target_uuid t = Some (target_address t)) →
  from_option (λ t, timestamp_subsec_nanos t = 0 ∧ four_digit_year t) True dd →
  ∃ h e q alarms, store_for m' (ad_channel ad) = Returns (m', h) ∧ newest_retained m' h = Returns [(q, e)] ∧
    message_id e = id ∧ Forall is_alarm alarms ∧
    called m' = called m ++ alarms
      ++ (feed_call e q <$> (if transportable (ad_caps ad) then attached_feed_targets m (ad_channel ad) else []))
      ++ [KickDispatcher].
Proof.
  intros Hwf Hroom Hres Hc Hdep Hrep [Hdd Hyear]%deadline_split.
  apply Gated.commit_spec in Hc as (m1&h&Hst&m2&out&m3&m4&Ha&He&Hf&->&[= -> -> ->]).
  pose proof (store_for_wf _ _ _ _ Hwf Hst) as Hwf1. pose proof (store_for_handle _ _ _ _ _ Hwf Hres Hst) as [Hh Haddr].
  pose proof (store_for_spec _ _ _ _ Hst) as [[x Hm1] _].
  set (msg := Gated.committed_message m1 r s ad body u dd imp) in *.
  assert (msg_times msg) as Hts by (split; [apply utc_to_ns_range|done]).
  destruct (envelope_on_total (minted r) (address (ad_channel ad)) msg Hts) as (e&Hee&Hid).
  destruct (append_newest m1 (ad_channel ad) h (minted r) msg m2 out e) as [Hcu Hnew]; try done; [by subst m1..|].
  pose proof (append_config _ _ _ _ _ _ Ha) as Hcfg2. pose proof (append_called _ _ _ _ _ _ Ha) as Hcl2.
  pose proof (events_quiet _ _ _ _ He) as Hq3. pose proof (fed_quiet _ _ _ _ _ Hf) as Hq4.
  apply events_alarmed in He as (al&Hal&Fal).
  assert (Hcfg3 : config m3 = config m) by (rewrite (quiet_config _ _ Hq3), Hcfg2; by subst m1).
  assert (Hsrc : server_source m3 = server_source m1) by (injection Hcfg3 as _ _ -> _; by subst m1).
  rewrite Hcu, Hsrc in Hf. change (surface_feed_envelope _ _ _ _ _ _ _ _ _ _ _ _) with
    (envelope_on (minted r) (address (ad_channel ad)) msg) in Hf. rewrite Hee in Hf. apply fed_called in Hf.
  assert (Hn4 : newest_retained (dispatch_kick m4) h = Returns [(committed_seq (ao_committed out), e)]).
  { rewrite <-Hnew. apply newest_quiet. etrans; [exact Hq3|]. by etrans; [exact Hq4|]. }
  exists h, e, (committed_seq (ao_committed out)), al. split_and!; [|done|congruence|done|].
  - eapply store_for_again; [exact Hst| |exact Hn4]. simpl.
    rewrite (q_tables _ _ Hq4), (q_tables _ _ Hq3). by eapply append_tables.
  - simpl. rewrite Hf, Hal, Hcl2, (targets_config m m3) by done. subst m1. by rewrite <-!app_assoc.
Qed.

(** A reply address that was admitted names a table's row. *)
Lemma reply_row m rt c :
  bus_wf m → resolve (directory m) rt = Some c → is_Some (Session.well_formed_name rt Brenn) →
  Db.ch_address <$> Db.channels (db m) !! uuid c = Some (address c) ∧ address c = rt.
Proof.
  intros Hwf Hres [name Hn]. unfold resolve in Hres. destruct (by_address (directory m) !! rt) as [u|] eqn:Ha; [|done].
  simpl in Hres. apply (DirectoryRun.dwf_address _ (bw_dir _ Hwf)) in Ha as (e'&He'&<-).
  assert (e' = c) as -> by congruence. pose proof (DirectoryRun.dwf_id _ (bw_dir _ Hwf) _ _ Hres) as ->. split; [|done].
  unfold Session.well_formed_name in Hn. destruct (strip_prefix _ _) as [rest|] eqn:Hp; [|done].
  assert (Hsch : scheme_of (address c) = Some Brenn).
  { unfold scheme_of, split_address. change BRENN_ADDRESS_PREFIX with (prefix Brenn). by rewrite Hp. }
  pose proof (bw_scheme _ Hwf _ _ Hres) as Ht. rewrite Hsch in Ht. injection Ht as Ht.
  destruct (bw_row _ Hwf _ _ DURABLE_TRANSPORTABLE Hres) as (row&Hr&Hra).
  - unfold entry_capabilities. by rewrite <-Ht.
  - done.
  - rewrite Hr. simpl. by rewrite Hra.
Qed.
End keeping.
End Keeping.

(** ** What publishing promises *)

Module PublishProps.
Import Envelope Directory Identity Plane Retention Targets Messaging Ladder Pipeline Frame Keeping.

Section props.
Context {Uuid DateTime : Type}
  `{Countable Uuid, Chrono DateTime, ChronoSecs DateTime, ChronoOrd DateTime, !ChronoLine DateTime}.
Context `{WakeRouter}.
Implicit Types (m : MessengerState Uuid DateTime) (r : Reads Uuid DateTime) (entry : ChannelEntry Uuid).

(** C14: (publish) A publish is denied exactly when it is outside its principal's policy, and
    a denial costs nothing: what is admitted is an address that resolves, under a policy that
    holds the scheme's grant and covers the channel, with impetus only by the grant to mint
    it, a body within the cap, and a reply address the policy can see and that resolves; a
    refusal for want of any of these leaves the messenger as it was but for one count under
    its sender and its kind. *)
Theorem denied_exactly_outside_policy_and_for_free m r o p addr body u rt da dd imp m' res :
  publish_core m r o p addr body u rt da dd imp = Returns (m', res) →
  (signal_kind res = None ∧ ∃ entry, Gated.may_publish m p addr body rt imp entry) ∨
  (∃ s k, principal_identity m p = Returns s ∧ signal_kind res = Some k ∧
     (∀ entry, ¬ Gated.may_publish m p addr body rt imp entry) ∧
     m' = with_denied m (count_more (s, denial_as_str k) 1 (publish_denied m))).
Proof.
  intros (s&v&Hs&Hv&Hr)%Gated.publish_core_spec. pose proof (Gated.validate_Ok _ _ _ _ _ _ _ Hv) as Hval.
  destruct v as [ad|e].
  - left. destruct Hval as [Hmay _]. split; [|by eexists]. destruct Hr as (m1&paid&_&Hr).
    destruct paid; [by destruct Hr as [_ Hk]|by destruct Hr as (_&_&Hk)].
  - right. destruct Hr as [-> ->]. destruct Hval as [[k Hk] Hno]. exists s, k. split_and!; try done.
    unfold record_publish_denial. by rewrite Hk.
Qed.

(** C15: (publish) A reply address is no oracle: a sender that cannot see the address it names
    is answered, and leaves the messenger, the same whatever the directory holds there. Two
    directories that agree on the channel published to give one outcome. *)
Theorem reply_address_is_no_oracle m (dir : MessagingDirectory Uuid) r o p addr body u rt da dd imp :
  resolve dir addr = resolve (directory m) addr →
  (∀ policy name, Gated.authority_of m p = Some policy → Session.well_formed_name rt Brenn = Some name →
     reply_to_visible policy Brenn name rt = false) →
  publish_core (with_directory m dir) r o p addr body u (Some rt) da dd imp =
  ('(m', res) ← publish_core m r o p addr body u (Some rt) da dd imp; Returns (with_directory m' dir, res)).
Proof.
  intros Hres Hhid.
  assert (validate (with_directory m dir) p addr body (Some rt) imp = validate m p addr body (Some rt) imp ∧
               (∀ ad, validate m p addr body (Some rt) imp ≠ Returns (Ok ad))) as [Hsame Hrej].
  { split.
    - unfold validate. destruct (scheme_of addr) as [scheme|]; [|done]. destruct (publish_name p addr scheme); [|done].
      simpl. rewrite Hres. destruct (resolve (directory m) addr) as [entry|]; [|done].
      destruct (entry_capabilities entry); [|done]. simpl. rewrite !Gated.publish_authority_spec.
      change (Gated.authority_of (with_directory m dir) p) with (Gated.authority_of m p).
      destruct (Gated.authority_of m p) as [policy|] eqn:Hpol; [|done]. destruct (Access.has_grant _ _); [|done].
      destruct (negb _); [done|]. destruct (_ && _); [done|]. destruct (check_body_size _ _); [|done].
      unfold reply_target. destruct (Session.well_formed_name rt Brenn) as [name|] eqn:Hn; [|done].
      by rewrite (Hhid policy name eq_refl eq_refl).
    - intros ad Hok%Gated.validate_Ok. destruct Hok as [[_ (sc&nm&po&_&_&Hpo&_&_&_&Hr) _] _].
      destruct (Hr rt eq_refl) as (rname&Hn&Hvis&_). by rewrite (Hhid po rname) in Hvis. }
  unfold publish_core, publish_gated. rewrite Hsame.
  change (principal_identity (with_directory m dir) p) with (principal_identity m p).
  destruct (principal_identity m p) as [s|]; [|done]. simpl.
  destruct (validate m p addr body (Some rt) imp) as [[ad|e]|]; [by destruct (Hrej ad)| |done].
  simpl. unfold record_publish_denial. by destruct (signal_kind e).
Qed.

(** A publish, as its caller asks for it. *)
Record Request := mkRequest {
  rq_reads : Reads Uuid DateTime;
  rq_origin : PublishOrigin;
  rq_principal : PublishPrincipal;
  rq_addr : string;
  rq_body : string;
  rq_urgency : Urgency;
  rq_reply_to : option string;
  rq_deliver_after : option DateTime;
  rq_deadline : option DateTime;
  rq_impetus : option Impetus;
}.

Fixpoint publish_all m (l : list Request) : panics (MessengerState Uuid DateTime * list (BusResult Uuid)) :=
  match l with
  | [] => Returns (m, [])
  | q :: l =>
      '(m, res) ← publish_core m (rq_reads q) (rq_origin q) (rq_principal q) (rq_addr q) (rq_body q) (rq_urgency q)
                    (rq_reply_to q) (rq_deliver_after q) (rq_deadline q) (rq_impetus q);
      '(m, out) ← publish_all m l;
      Returns (m, res :: out)
  end.

(** How many of a conversation's publishes landed. *)
Definition landed (id : Z) (l : list Request) (out : list (BusResult Uuid)) : N :=
  foldr N.add 0 (zip_with (λ q res, if decide (rq_origin q = FromConversation id)
                                    then (if is_ok res then 1 else 0) else 0) l out).

(** (publish) A conversation's send budget is exactly what it spends: over any run of
    publishes, its own and everybody else's, the messages it landed and what it has left add
    up to what it had. So no run lands more than the budget, and a publish that was denied,
    rate-limited or refused by a full schedule cost it nothing. *)
Theorem conversation_budget_bounds_sends l : ∀ m id b m' out,
  publish_all m l = Returns (m', out) →
  (∀ q, q ∈ l → rq_origin q = FromConversation id → Gated.budget_of m (rq_principal q) = Some b) →
  sends_left m id b ≤ b →
  landed id l out + sends_left m' id b = sends_left m id b.
Proof.
  induction l as [|q l IH]; intros m id b m' out; [by intros [= <- <-]|].
  cbn [publish_all]. rewrite bind_Returns. intros ([m1 res]&Hp&Hr). rewrite bind_Returns in Hr.
  destruct Hr as ([m2 out2]&Hl&[= <- <-]). intros Hb Hle.
  pose proof (publish_config _ _ _ _ _ _ _ _ _ _ _ _ _ Hp) as Hcfg.
  eapply publish_left in Hp; [|intros Ho; apply Hb; [set_solver|exact Ho]|exact Hle].
  apply (IH _ id b) in Hl; [| |lia].
  - unfold landed in *. simpl. lia.
  - intros q' Hq' Ho. specialize (Hb q' ltac:(set_solver) Ho). unfold Gated.budget_of, apps in *.
    injection Hcfg as _ -> _ _. done.
Qed.

(** C17: (publish) What is fed live is what is kept: after a publish that was not scheduled,
    the newest message its channel's store reads back carries the id the publisher was told,
    and every attached session that was handed anything was handed that envelope at that
    position, and only sessions of subscribers the delivery policy covers; the messenger's
    directory, rings and tables still describe one set of channels. A deadline is taken to
    fall on a whole second of the years 0000 to 9999: a table keeps no other. *)
Theorem fed_message_is_the_retained_one m r o p addr body u rt da dd imp m' id a rem :
  bus_wf m → room m →
  publish_core m r o p addr body u rt da dd imp = Returns (m', ResOk id a rem) →
  (∀ t, da = Some t → later t (at_schedule r) = false) →
  from_option (λ t, timestamp_subsec_nanos t = 0 ∧ four_digit_year t) True dd →
  (∀ entry, resolve (directory m) addr = Some entry → channel_retain_depth (resolved_channel entry) ≠ Bounded 0) →
  bus_wf m' ∧ ∃ entry h e q alarms ts,
    resolve (directory m) addr = Some entry ∧ store_for m' entry = Returns (m', h) ∧
    newest_retained m' h = Returns [(q, e)] ∧ message_id e = id ∧
    called m' = called m ++ alarms ++ (feed_call e q <$> ts) ++ [KickDispatcher] ∧ Forall is_alarm alarms ∧
    ∀ t, t ∈ ts → ∃ policy, resolver_policy (targets m) (ft_kind t) = Some policy ∧
      Access.allows_channel_access policy (address entry) = true.
Proof.
  intros Hwf Hroom Hp Hda Hdd Hdep. split.
  { eapply publish_wf; [exact Hwf|exact Hroom| |by apply deadline_split|exact Hp]. intros t Ht Hl. by rewrite (Hda t Ht) in Hl. }
  apply Gated.publish_core_spec in Hp as (s&v&_&Hv&Hr). pose proof (Gated.validate_Ok _ _ _ _ _ _ _ Hv) as Hval.
  destruct v as [ad|e]; [|destruct Hr as [<- _]; by destruct Hval as [[? ?] _]].
  destruct Hval as ([Hres (sc&nm&po&_&_&_&_&_&_&Hrt) _]&_&_&_&Had). destruct Hr as (m1&paid&Hsp&Hr).
  pose proof (spend_config _ _ _ _ _ _ _ _ Hsp) as Hcfg. pose proof (spend_called _ _ _ _ _ _ _ _ Hsp) as Hcl.
  destruct (spend_wf _ _ _ _ _ _ _ _ Hwf Hsp) as [Hwf1 Hroom1]. injection Hcfg as Hdir Htg Hsrc Hmax.
  destruct paid as [rem'|e]; [|destruct Hr as (_&<-&_); by apply Gated.spend_spec in Hsp as (?&?&?&[[?|?] _])].
  destruct Hr as [Hc _].
  replace (da ≫= _) with (@None DateTime) in Hc by (destruct da as [t|]; simpl; [by rewrite (Hda t eq_refl)|done]).
  assert (Hreply : target_address <$> ad_reply ad = rt ∧
    (∀ t, ad_reply ad = Some t → Db.ch_address <$> Db.channels (db m1) !! target_uuid t = Some (target_address t))).
  { rewrite Had. destruct rt as [rt|]; [|done]. simpl. destruct (Hrt rt eq_refl) as (rn&Hn&_&[c Hcr]). rewrite Hcr. simpl.
    rewrite <-Hdir in Hcr. destruct (reply_row m1 rt c Hwf1 Hcr) as [Hrow Hca]; [by rewrite Hn|].
    split; [by rewrite Hca|]. by intros ? [= <-]. }
  destruct Hreply as [Hrta Hrow]. rewrite <-Hrta in Hc.
  eapply commit_feeds in Hc as (h&e&q&al&Hst&Hnew&Hid&Hal&Hcalled); [|done|by apply Hroom1|by rewrite Hdir|by apply Hdep|done|done].
  exists (ad_channel ad), h, e, q, al, (if transportable (ad_caps ad) then attached_feed_targets m1 (ad_channel ad) else []).
  split_and!; try done; [by rewrite Hcalled, Hcl|]. intros t Ht.
  destruct (transportable (ad_caps ad)); [|by apply not_elem_of_nil in Ht]. unfold attached_feed_targets in Ht.
  rewrite Hdir, Htg in Ht. set (ts := attach_feed_targets _ _ _) in Ht.
  assert (t ∈ ts) as Hin.
  { destruct ts as [|t0 ts0]; [done|]. destruct (any_attach_session_subscribed _ _); [done|by apply not_elem_of_nil in Ht]. }
  unfold ts, attach_feed_targets in Hin. apply list_elem_of_omap in Hin as (sub&_&Hsub).
  destruct (attach_slug (kind sub)); [|done]. destruct (resolver_policy (targets m) (kind sub)) as [policy|] eqn:Hpol; [|done].
  destruct (Access.allows_channel_access policy (address (ad_channel ad))) eqn:Hacc; [|done]. injection Hsub as <-. by exists policy.
Qed.
End props.

(** *** A messenger with a table, a ring, an application and an attached surface *)

Module Demo.
Import NanoClock.

#[export] Instance all_attached : WakeRouter :=
  {| any_attach_session_subscribed _ _ := true; any_surface_session_attached _ := true; delivery_shape _ := Inline |}.

Definition policy : Access.AppPolicy :=
  Access.mkPolicy
    (Access.mkGrantSet {[Caps.MessagingPublish; Caps.MessagingSubscribe; Caps.EphemeralPublish; Caps.EphemeralSubscribe]})
    (Access.mkAcls [] [] [Access.Exact "a"] [Access.Exact "a"] [Access.Exact "room"] [Access.Exact "room"] [] [] []) ∅.

Definition entry (u : N) (addr : string) (scheme : ChannelScheme) : ChannelEntry N :=
  mkChannel u addr None (mkResolved (Bounded 2) (Bounded 2) Silent default_send_rate)
    [mkSubscriber (Surface "s") Unbounded Unbounded Silent None] scheme None.
Definition table : ChannelEntry N := entry 1 "brenn:a" Brenn.
Definition ring : ChannelEntry N := entry 5 "ephemeral:room" Ephemeral.

Definition directory : MessagingDirectory N := with_entries [table; ring].
Definition room_ring : RingStore.RingStore N Instant :=
  RingStore.mkStore 7 5 "ephemeral:room" TRANSPORTABLE 0 (Core.core_new 7 2) ∅.
Definition rings : RingStores.RingStores N Instant :=
  RingStores.mkStores 7 {[5 := room_ring]} {["ephemeral:room"%string := 5]}.

Definition bus : MessengerState N Instant :=
  mkMessenger DurableProps.Demo.start directory "srv"
    (mkResolver {["app"%string := mkApp policy policy (Some 1) 5]}
       (with_live {[Surface "s" := mkRegistration policy Eager]}))
    1000 rings ∅ ∅ ∅ ∅ ∅ ∅ ∅ ∅ ∅ ∅ ∅ [].

Definition reads (n : Z) : Reads N Instant := mkReads 0 0 0 (at_ns n) (at_ns n) 900.

Lemma directory_wf : DirectoryRun.dir_wf directory.
Proof.
  apply (DirectoryRun.dir_run_wf [DirectoryRun.AddChannel table; DirectoryRun.AddChannel ring] new).
  - apply DirectoryRun.new_dir_wf.
  - repeat constructor; simpl; apply NoDup_singleton || apply not_elem_of_nil || idtac.
  - reflexivity.
Qed.

Lemma listed u e : by_uuid directory !! u = Some e → (u = 1 ∧ e = table) ∨ (u = 5 ∧ e = ring).
Proof.
  change (by_uuid directory) with (<[5 := ring]> (<[1 := table]> (∅ : gmap N (ChannelEntry N)))).
  rewrite !lookup_insert_Some, lookup_empty. naive_solver.
Qed.

Lemma rings_wf : StoresRun.stores_wf rings.
Proof.
  apply (StoresRun.stores_run_wf (RingStores.empty 7) [StoresRun.Register ring]).
  - apply StoresRun.empty_stores_wf.
  - simpl. done.
  - vm_compute. reflexivity.
Qed.

Lemma bus_ok : bus_wf bus.
Proof.
  split.
  - exact directory_wf.
  - intros u e [[-> ->]|[-> ->]]%listed; reflexivity.
  - exact rings_wf.
  - exact DurableProps.Demo.start_wf.
  - intros u e caps [[-> ->]|[-> ->]]%listed; intros [= <-]; [done|]. intros _. eexists. split; [reflexivity|]. done.
  - intros u e caps [[-> ->]|[-> ->]]%listed; intros [= <-]; [|done]. intros _. by eexists.
  - intros u st. simpl. by rewrite lookup_empty.
Qed.

Lemma bus_room : room bus.
Proof.
  split.
  - intros u c. simpl. rewrite lookup_insert_Some, lookup_singleton_Some. intros [[_ <-]|(_&_&<-)]; done.
  - intros u rs Hrs. unfold RingStores.get in Hrs. cbn in Hrs. apply lookup_singleton_Some in Hrs as [_ <-]. done.
Qed.

(** The messenger a call leaves, and that it left it with an answer. *)
Definition left_by {A} (x : panics (MessengerState N Instant * A)) : MessengerState N Instant :=
  match x with Returns p => p.1 | Panics _ => bus end.
Lemma answers {A} (x : panics (MessengerState N Instant * A)) a : snd <$> x = Returns a → x = Returns (left_by x, a).
Proof. destruct x as [[m b]|]; [|done]. by intros [= <-]. Qed.

(** The application's and the surface's publishes. *)
Definition app_publish (m : MessengerState N Instant) (id : N) (addr : string) :=
  publish_core m (mkReads 0 0 0 (at_ns 5) (at_ns 5) id) (FromConversation 4) (PApp "app") addr "x" Normal None None None None.
End Demo.
Import NanoClock Demo.

Lemma denied_exactly_outside_policy_and_for_free_witness :
  ∃ m', app_publish bus 900 "brenn:b" = Returns (m', ResUnknownChannel "brenn:b") ∧
    m' = with_denied bus (count_more ("app:app@srv", "unknown_channel") 1 ∅).
Proof.
  assert (Hp : app_publish bus 900 "brenn:b" = Returns (left_by (app_publish bus 900 "brenn:b"), ResUnknownChannel "brenn:b"))
    by (apply answers; vm_compute; reflexivity).
  eexists. split; [exact Hp|].
  destruct (denied_exactly_outside_policy_and_for_free _ _ _ _ _ _ _ _ _ _ _ _ _ Hp) as [[[=] _]|(s&k&[= <-]&[= <-]&_&Hm)].
  exact Hm.
Defined.

Lemma reply_address_is_no_oracle_witness :
  let dir := with_entries [table; ring; entry 2 "brenn:b" Brenn] in
  publish_core (with_directory bus dir) (reads 0) (FromConversation 4) (PApp "app") "brenn:a" "x" Normal (Some "brenn:b") None None None
  = Returns (with_directory (with_denied bus (count_more ("app:app@srv", "acl_denied") 1 ∅)) dir, ResAclDenied "brenn:b").
Proof.
  intros dir. rewrite (reply_address_is_no_oracle bus dir).
  - reflexivity.
  - reflexivity.
  - intros policy name [= <-] [= <-]. vm_compute. reflexivity.
Defined.

Lemma conversation_budget_bounds_sends_witness :
  let req id := mkRequest (mkReads 0 0 0 (at_ns 5) (at_ns 5) id) (FromConversation 4) (PApp "app") "ephemeral:room" "x" Normal None None None None in
  let l := [req 900; req 901] in
  snd <$> publish_all bus l = Returns [ResOk 900 "ephemeral:room" (Some 0); ResBudgetExhausted] ∧
  1 + sends_left (left_by (publish_all bus l)) 4 1 = sends_left bus 4 1.
Proof.
  intros req l. assert (Ho : snd <$> publish_all bus l = Returns [ResOk 900 "ephemeral:room" (Some 0); ResBudgetExhausted])
    by (vm_compute; reflexivity).
  split; [exact Ho|].
  apply (conversation_budget_bounds_sends l bus 4 1 _ _ (answers _ _ Ho)); [|vm_compute; discriminate].
  intros q Hq _. unfold l in Hq. repeat (apply elem_of_cons in Hq as [->|Hq]; [reflexivity|]). destruct (not_elem_of_nil _ Hq).
Defined.

Lemma fed_message_is_the_retained_one_witness :
  ∃ m' e q, app_publish bus 900 "brenn:a" = Returns (m', ResOk 900 "brenn:a" (Some 0)) ∧ message_id e = 900 ∧
    newest_retained m' (InTable (DbStore.mkDbStore 1 "brenn:a" (Bounded 2))) = Returns [(q, e)].
Proof.
  assert (Hp : app_publish bus 900 "brenn:a" = Returns (left_by (app_publish bus 900 "brenn:a"), ResOk 900 "brenn:a" (Some 0)))
    by (apply answers; vm_compute; reflexivity).
  destruct (fed_message_is_the_retained_one _ _ _ _ _ _ _ _ _ _ _ _ _ _ _ bus_ok bus_room Hp)
    as (_&e&h&env&q&al&ts&Hres&Hst&Hnew&Hid&_).
  - done.
  - exact I.
  - by intros e [= <-].
  - exists (left_by (app_publish bus 900 "brenn:a")), env, q. split; [exact Hp|]. split; [exact Hid|].
    change (Some table = Some e) in Hres. apply (inj Some) in Hres as <-.
    assert (Hh : snd <$> store_for (left_by (app_publish bus 900 "brenn:a")) table
                 = Returns (InTable (DbStore.mkDbStore 1 "brenn:a" (Bounded 2)))) by (vm_compute; reflexivity).
    rewrite Hst in Hh. injection Hh as ->. exact Hnew.
Defined.
End PublishProps.
