(* ===== verification/Delivering.v ===== *)
(** * What flushes and sweeps guarantee

    Theorems about [Delivery]: an attacher's flush lands in call order, each entry on the
    channel it names, and accounts for every entry; an entry whose target is gone costs itself
    alone, and a ring leaving the directory while the flush waits unwinds it; a release sweep
    leaves parked on every channel exactly what is not due and answers the next instant to
    wake at. *)

From S2P Require Import Prelude Envelope Ring Cursor Deferred RingCore Grants Access TokenBucket Directory Serve Session Identity Retention Retaining DbStore Durable Bus Delivery Publishing Feeding.

#[local] Open Scope N_scope.
#[local] Open Scope list_scope.

Module Flushed.
Import Envelope Directory Identity Plane Retention Targets Messaging Ladder Pipeline Frame Keeping Flushes.

Section flushed.
Context {Uuid DateTime : Type} `{Countable Uuid, Chrono DateTime, ChronoSecs DateTime, ChronoOrd DateTime}.
Context `{WakeRouter}.
Implicit Types (m : MessengerState Uuid DateTime) (entry : ChannelEntry Uuid).

Abbreviation batch_entry := (AttachBatchPublish DateTime * Uuid)%type.

(** The row an entry of a flush becomes, on the channel its address names in [dir]. *)
Definition row_carries (dir : MessagingDirectory Uuid) (source sender : string) (e : batch_entry) (r : Db.MessageRow Uuid) : Prop :=
  ∃ entry, resolve dir (bp_channel e.1) = Some entry ∧ Db.row_channel r = Some (uuid entry) ∧
  Db.row_uuid r = e.2 ∧ Db.row_source r = source ∧ Db.row_sender r = sender ∧ Db.row_body r = bp_body e.1 ∧
  Db.row_urgency r = bp_urgency e.1 ∧ Db.row_publish_ts_ns r = bp_publish_ts_ns e.1 ∧
  Db.row_deliver_after r = Db.format_ts_for_db <$> bp_deliver_after e.1 ∧
  Db.row_reply_to r = None ∧ Db.row_deadline r = None ∧ Db.row_envelope_type r = Db.Bus Brenn.

(** The envelope an entry of a flush becomes on a channel. *)
Definition env_carries (source sender : string) (e : batch_entry) entry (m : MessageEnvelope Uuid DateTime) : Prop :=
  channel m = address entry ∧
  message_id m = e.2 ∧ Envelope.source m = source ∧ env_sender m = sender ∧ body m = bp_body e.1 ∧
  urgency m = bp_urgency e.1 ∧ ns_to_utc (bp_publish_ts_ns e.1) = Returns (publish_ts m) ∧
  reply_to m = None ∧ delivery_deadline m = None ∧ deliver_after m = None.

(** The ring of the channel an entry's address names in [dir] takes it: appended, or parked
    until its release. *)
Definition takes (dir : MessagingDirectory Uuid) (source sender : string) (e : batch_entry)
    (rs rs' : RingStores.RingStores Uuid DateTime) : Prop :=
  ∃ entry st st' env, resolve dir (bp_channel e.1) = Some entry ∧
    RingStores.get rs (uuid entry) = Some st ∧ env_carries source sender e entry env ∧
    rs' = RingStores.put rs (uuid entry) st' ∧
    match bp_deliver_after e.1 with
    | None => ∃ a, RingStore.append st env = Returns (st', a)
    | Some t => ∃ id, RingStore.park st env t = Returns (st', Ok id)
    end.

(** Rings that took entries one after the other. *)
Inductive lands (dir : MessagingDirectory Uuid) (source sender : string) :
    RingStores.RingStores Uuid DateTime → list batch_entry → RingStores.RingStores Uuid DateTime → Prop :=
| lands_nil rs : lands dir source sender rs [] rs
| lands_cons rs e rs1 es rs2 :
    takes dir source sender e rs rs1 → lands dir source sender rs1 es rs2 → lands dir source sender rs (e :: es) rs2.

(** *** The split *)

(** What the pre-pass kept is in call order, with the channel its address names, and every
    entry is somewhere. *)
Definition addressed (dir : MessagingDirectory Uuid) (p : batch_entry * ChannelEntry Uuid) : Prop :=
  resolve dir (bp_channel p.1.1) = Some p.2.

Record splits (dir : MessagingDirectory Uuid) (es : list batch_entry) (sp : @Split Uuid DateTime) : Prop := mkSplits {
  sp_count : len (sp_vanished sp) + len (sp_durable sp) + len (sp_nondurable sp) = len es;
  sp_durable_order : (sp_durable sp).*1 `sublist_of` es;
  sp_nondurable_order : (sp_nondurable sp).*1 `sublist_of` es;
  sp_durable_at : Forall (addressed dir) (sp_durable sp);
  sp_nondurable_at : Forall (addressed dir) (sp_nondurable sp);
}.

Lemma sublist_snoc {A} (l k : list A) x : l `sublist_of` k → l ++ [x] `sublist_of` k ++ [x].
Proof. intros Hl. by apply sublist_app. Qed.
Lemma sublist_snoc_r {A} (l k : list A) x : l `sublist_of` k → l `sublist_of` k ++ [x].
Proof. intros Hl. etrans; [exact Hl|]. apply sublist_inserts_r. done. Qed.

Lemma split_batch_splits m policy posture es sp :
  split_batch m policy posture es = Returns sp → splits (directory m) es sp.
Proof.
  unfold split_batch. revert sp. induction es as [|e es IH] using rev_ind; intros sp.
  { intros [= <-]. split; done || constructor. }
  rewrite foldl_app. cbn [foldl]. rewrite bind_Returns. intros (acc&Hacc&Hs). apply IH in Hacc as [Hc Hd Hn Hda Hna].
  unfold split_entry in Hs.
  assert (Hvan : splits (directory m) (es ++ [e]) (mkSplit (sp_vanished acc ++ [bp_channel e.1]) (sp_durable acc) (sp_nondurable acc))).
  { split; simpl; [rewrite !len_app; unfold len in *; simpl; lia|by apply sublist_snoc_r..|done|done]. }
  assert (Hkeep : ∀ entry caps, resolve (directory m) (bp_channel e.1) = Some entry → splits (directory m) (es ++ [e])
    (if durable caps then mkSplit (sp_vanished acc) (sp_durable acc ++ [(e, entry)]) (sp_nondurable acc)
     else mkSplit (sp_vanished acc) (sp_durable acc) (sp_nondurable acc ++ [(e, entry)]))).
  { intros entry caps Hr. assert (Hone : Forall (addressed (directory m)) [(e, entry)]) by (by constructor).
    destruct (durable caps); split; simpl; rewrite ?fmap_app, ?len_app; simpl;
      try (by apply sublist_snoc); try (by apply sublist_snoc_r); try (by apply Forall_app); try done; unfold len in *; simpl; lia. }
  destruct (resolve (directory m) (bp_channel e.1)) as [entry|] eqn:Hr; destruct posture; returned; try done; try (by apply Hkeep).
  split_on Hs; returned; [by apply Hkeep|done].
Qed.

(** A loop of fallible steps takes its first step first. *)
Lemma fold_step {A S} (f : S → A → panics S) (a : A) (l : list A) s :
  foldl (λ acc x, s ← acc; f s x) (Returns s) (a :: l) = foldl (λ acc x, s ← acc; f s x) (f s a) l.
Proof. done. Qed.

(** *** The durable half *)

Lemma insert_row m entry scheme src sender b u ts rt (da : option DateTime) fresh m' q :
  insert_flushed m entry scheme src sender b u ts rt da fresh = Returns (m', q) →
  config m' = config m ∧ ring_stores m' = ring_stores m ∧
  ∃ r, Db.messages (db m') = Db.messages (db m) ++ [r] ∧ Db.row_uuid r = fresh ∧ Db.row_source r = src ∧
    Db.row_sender r = sender ∧ Db.row_body r = b ∧ Db.row_urgency r = u ∧ Db.row_publish_ts_ns r = ts ∧
    Db.row_deliver_after r = Db.format_ts_for_db <$> da ∧ Db.row_channel r = Some (uuid entry) ∧
    Db.row_reply_to r = rt ∧ Db.row_deadline r = None ∧ Db.row_envelope_type r = Db.Bus scheme.
Proof.
  intros Hi. split; [exact (on_table_config _ _ _ _ Hi)|]. unfold insert_flushed, on_table, Db.insert_message in Hi. returned.
  split; [done|]. simpl.
  assert (Hms : ∀ d1 s1, match da with
      | Some _ => Returns (db m, None)
      | None => '(d, s) ← Db.allocate_retained_seq (db m) (uuid entry); Returns (d, Some s)
      end = Returns (d1, s1) → Db.messages d1 = Db.messages (db m)).
  { intros d1 s1 Ha. destruct da; returned; [done|].
    rename select (Db.allocate_retained_seq _ _ = _) into Hal. unfold Db.allocate_retained_seq, Db.allocate_retained_seqs in Hal. by returned. }
  rename select (match da with Some _ => _ | None => _ end = _) into Ha. apply Hms in Ha. rewrite Ha. by eexists.
Qed.

(** What one durable entry does: its row, or one more that published nothing. *)
Definition durable_step (dir : MessagingDirectory Uuid) (source sender : string) (e : batch_entry) (f f' : @Flush Uuid DateTime _ _) : Prop :=
  config (fl_messenger f') = config (fl_messenger f) ∧ ring_stores (fl_messenger f') = ring_stores (fl_messenger f) ∧
  ((∃ r, Db.messages (db (fl_messenger f')) = Db.messages (db (fl_messenger f)) ++ [r] ∧ row_carries dir source sender e r ∧
      len (fl_vanished f') + len (fl_refused f') = len (fl_vanished f) + len (fl_refused f)) ∨
   (Db.messages (db (fl_messenger f')) = Db.messages (db (fl_messenger f)) ∧
      len (fl_vanished f') + len (fl_refused f') = len (fl_vanished f) + len (fl_refused f) + 1)).

Lemma apply_durable_step dir policy posture sender f p f' :
  addressed dir p → apply_durable policy posture sender f p = Returns f' →
  durable_step dir (server_source (fl_messenger f)) sender p.1 f f'.
Proof.
  destruct p as [[e fresh] entry]. intros Hat. unfold apply_durable. rewrite bind_Returns. intros ([cache cached]&_&Ha).
  unfold durable_step.
  destruct cached as [ts|]; [|returned; split_and!; [done..|right]; simpl; rewrite len_app; unfold len; simpl; split; [done|lia]].
  destruct (check_body_size _ _) as [_u|]; [|done]. destruct (bp_deliver_after e) as [t|] eqn:Hda.
  - destruct (Db.deferred_cap_refusal _ _ _) as [cap|].
    { returned. split_and!; [done..|right]. simpl. rewrite len_app. unfold len. simpl. split; [done|lia]. }
    rewrite bind_Returns in Ha. destruct Ha as ([m1 q]&Hi&[= <-]).
    apply insert_row in Hi as (?&?&r&Hr&?&?&?&?&?&?&?&?&?&?&?). split_and!; [done..|]. left. exists r. simpl.
    split_and!; [done| |done]. exists entry. simpl. rewrite Hda. by split_and!.
  - rewrite bind_Returns in Ha. destruct Ha as ([m1 q]&Hi&Ha).
    apply insert_row in Hi as (Hcfg&Hrg&r&Hr&?&?&?&?&?&?&?&?&?&?&?).
    assert (Hf : fl_messenger f' = m1 ∧ fl_vanished f' = fl_vanished f ∧ fl_refused f' = fl_refused f)
      by (split_on Ha; returned; done).
    destruct Hf as (->&->&->). split_and!; [done..|]. left. exists r. split_and!; [done| |done].
    exists entry. simpl. rewrite Hda. by split_and!.
Qed.

Lemma durable_half dir policy posture sender ds : ∀ f f',
  Forall (addressed dir) ds →
  foldl (λ acc p, f ← acc; apply_durable policy posture sender f p) (Returns f) ds = Returns f' →
  config (fl_messenger f') = config (fl_messenger f) ∧ ring_stores (fl_messenger f') = ring_stores (fl_messenger f) ∧
  ∃ kept rows, kept `sublist_of` ds.*1 ∧
    Db.messages (db (fl_messenger f')) = Db.messages (db (fl_messenger f)) ++ rows ∧
    Forall2 (row_carries dir (server_source (fl_messenger f)) sender) kept rows ∧
    len (fl_vanished f') + len (fl_refused f') + len kept = len (fl_vanished f) + len (fl_refused f) + len ds.
Proof.
  induction ds as [|p ds IH]; intros f f'; [|rewrite fold_step].
  { intros _. intros [= <-]. split; [done|]. split; [done|]. exists [], []. rewrite app_nil_r. split_and!; try done; constructor. }
  intros [Hp Hds]%Forall_cons.
  destruct (apply_durable policy posture sender f p) as [f1|] eqn:Ha; [|by rewrite fold_Panics].
  intros Hl. apply IH in Hl as (Hc2&Hr2&kept&rows&Hk&Hm&Hf&Hn); [|done].
  apply (apply_durable_step dir) in Ha as (Hc1&Hr1&Hs); [|done].
  assert (Hsrc : server_source (fl_messenger f1) = server_source (fl_messenger f)) by (by injection Hc1).
  split; [congruence|]. split; [congruence|]. rewrite Hsrc in Hf. destruct Hs as [(r&Hm1&Hrc&Hn1)|[Hm1 Hn1]].
  - exists (p.1 :: kept), (r :: rows). split_and!; [by constructor| |by constructor|].
    + by rewrite Hm, Hm1, <-app_assoc.
    + unfold len in *. simpl. lia.
  - exists kept, rows. split_and!; [by constructor|congruence|done|]. unfold len in *. simpl. lia.
Qed.

Lemma fan_out_feeds_quiet m feeds : quiet m (fan_out_feeds m feeds).
Proof.
  unfold fan_out_feeds. revert m. induction feeds as [|f feeds IH]; intros m; simpl; [done|].
  etrans; [apply fan_out_quiet|apply IH].
Qed.

(** *** The ring half *)

Lemma put_same (rs : RingStores.RingStores Uuid DateTime) u st : RingStores.get rs u = Some st → RingStores.put rs u st = rs.
Proof. intros Hg. unfold RingStores.put. destruct rs. simpl in *. f_equal. by apply insert_id. Qed.

Lemma prepaid_carries m dest e ts fresh env :
  ns_to_utc (bp_publish_ts_ns e) = Returns ts →
  prepaid_envelope m dest (mkPrepaid (bp_body e) (bp_urgency e) ts) fresh = Returns env →
  env_carries (server_source m) (pd_sender dest) (e, fresh) (pd_entry dest) env.
Proof. intros Hts. unfold prepaid_envelope. destruct (check_body_size _ _); [|done]. by intros [= <-]. Qed.

Lemma refused_park (st st' : RingStore.RingStore Uuid DateTime) env t q :
  RingStore.park st env t = Returns (st', Err q) → st' = st.
Proof.
  unfold RingStore.park, Core.core_park, Deferred.park. rewrite bind_Returns. intros (at_&_&Hp).
  destruct st as [? ? ? ? ? [] ?]. simpl in Hp. repeat case_match; simplify_eq; done.
Qed.

Lemma park_prepaid_spec dir m dest e ts t fresh m' r :
  resolve dir (bp_channel e) = Some (pd_entry dest) → ns_to_utc (bp_publish_ts_ns e) = Returns ts → bp_deliver_after e = Some t →
  park_prepaid m dest (mkPrepaid (bp_body e) (bp_urgency e) ts) t fresh = Returns (m', r) →
  config m' = config m ∧ db m' = db m ∧
  match r with
  | Ok _ => takes dir (server_source m) (pd_sender dest) (e, fresh) (ring_stores m) (ring_stores m')
  | Err _ => ring_stores m' = ring_stores m
  end.
Proof.
  intros Hres Hts Hda. unfold park_prepaid, on_ring. rewrite bind_Returns. intros (env&He&Hp).
  apply (prepaid_carries _ _ _ _ _ _ Hts) in He. rewrite bind_Returns in Hp. destruct Hp as (st&Hst&Hp).
  unfold ring_store in Hst. rewrite expect_Returns in Hst.
  rewrite bind_Returns in Hp. destruct Hp as ([st' r']&Hp&[= <- <-]). split_and!; [done..|]. simpl.
  destruct r' as [id|q]; [|apply refused_park in Hp as ->; by apply put_same].
  exists (pd_entry dest), st, st', env. simpl. rewrite Hda. split_and!; eauto.
Qed.

Lemma publish_prepaid_spec dir m dest e ts fresh m' a :
  resolve dir (bp_channel e) = Some (pd_entry dest) → ns_to_utc (bp_publish_ts_ns e) = Returns ts → bp_deliver_after e = None →
  publish_prepaid m dest (mkPrepaid (bp_body e) (bp_urgency e) ts) fresh = Returns (m', a) →
  config m' = config m ∧ db m' = db m ∧ takes dir (server_source m) (pd_sender dest) (e, fresh) (ring_stores m) (ring_stores m').
Proof.
  intros Hres Hts Hda. unfold publish_prepaid, on_ring. rewrite bind_Returns. intros (env&He&Hp).
  apply (prepaid_carries _ _ _ _ _ _ Hts) in He. rewrite bind_Returns in Hp. destruct Hp as ([m1 a1]&Ho&Hp).
  assert (Hq : quiet m1 m').
  { destruct (attached_feed_targets _ _) as [|t0 ts0]; [by returned|]. rewrite bind_Returns in Hp.
    destruct Hp as (s&_&[= <- _]). exact (fan_out_quiet m1 (t0 :: ts0) _ _). }
  rewrite bind_Returns in Ho. destruct Ho as (st&Hst&Ho). unfold ring_store in Hst. rewrite expect_Returns in Hst.
  rewrite bind_Returns in Ho. destruct Ho as ([st' a']&Ho&[= <- <-]).
  split; [by rewrite (quiet_config _ _ Hq)|]. rewrite (q_rings _ _ Hq), (q_db _ _ Hq). split; [done|].
  exists (pd_entry dest), st, st', env. simpl. rewrite Hda. split_and!; eauto.
Qed.

(** What one non-durable entry does: its ring takes it, or its cap refuses it. *)
Definition ring_step (sender : string) (e : batch_entry) (m m' : MessengerState Uuid DateTime) (refused refused' : list (string * N)) : Prop :=
  config m' = config m ∧ db m' = db m ∧
  (takes (directory m) (server_source m) sender e (ring_stores m) (ring_stores m') ∧ len refused' = len refused ∨
   ring_stores m' = ring_stores m ∧ len refused' = len refused + 1).

(** A remembered destination is the sender's, on the channel its address names. *)
Definition remembered (dir : MessagingDirectory Uuid) (sender : string) (cache : gmap string (PrepaidDestination Uuid)) : Prop :=
  map_Forall (λ addr d, pd_sender d = sender ∧ resolve dir addr = Some (pd_entry d)) cache.

Lemma memo_remembered m policy sender cache addr cache' dest :
  remembered (directory m) sender cache →
  memo cache addr (resolve_prepaid m sender policy addr) = Returns (cache', dest) →
  remembered (directory m) sender cache' ∧ pd_sender dest = sender ∧ resolve (directory m) addr = Some (pd_entry dest).
Proof.
  intros Hc. unfold memo. destruct (cache !! addr) as [d|] eqn:Hl.
  { intros [= <- <-]. split; [done|]. exact (Hc _ _ Hl). }
  rewrite bind_Returns. intros (d&Hr&[= <- <-]).
  assert (Hd : pd_sender d = sender ∧ resolve (directory m) addr = Some (pd_entry d)) by (unfold resolve_prepaid in Hr; by returned).
  split; [by apply map_Forall_insert_2|done].
Qed.

Lemma apply_nondurable_step policy sender m cache refused p m' cache' refused' :
  remembered (directory m) sender cache →
  apply_nondurable policy sender (m, cache, refused) p = Returns (m', cache', refused') →
  remembered (directory m) sender cache' ∧ ring_step sender p.1 m m' refused refused'.
Proof.
  destruct p as [[e fresh] entry]. intros Hc. unfold apply_nondurable. rewrite bind_Returns. intros ([cache1 dest]&Hm&Ha).
  apply memo_remembered in Hm as (Hc1&<-&Hres); [|done]. rewrite bind_Returns in Ha. destruct Ha as (ts&Hts&Ha).
  destruct (bp_deliver_after e) as [t|] eqn:Hda; rewrite bind_Returns in Ha; destruct Ha as ([m1 r]&Hp&Ha).
  - injection Ha as <- <- <-. split; [done|]. eapply park_prepaid_spec in Hp as (?&?&Hr); [|done..].
    split; [done|]. split; [done|]. destruct r; [by left|right]. rewrite len_app. done.
  - eapply publish_prepaid_spec in Hp as (Hcf&Hdb&Ht); [|done..].
    rewrite bind_Returns in Ha. destruct Ha as (m2&Ho&[= <- <- <-]). apply events_quiet in Ho. split; [done|].
    split; [by rewrite (quiet_config _ _ Ho)|]. rewrite (q_rings _ _ Ho), (q_db _ _ Ho). split; [done|]. by left.
Qed.

Lemma ring_half policy sender ds : ∀ m cache refused m' cache' refused',
  remembered (directory m) sender cache →
  foldl (λ acc p, a ← acc; apply_nondurable policy sender a p) (Returns (m, cache, refused)) ds
    = Returns (m', cache', refused') →
  config m' = config m ∧ db m' = db m ∧ ∃ kept, kept `sublist_of` ds.*1 ∧
    lands (directory m) (server_source m) sender (ring_stores m) kept (ring_stores m') ∧
    len refused' + len kept = len refused + len ds.
Proof.
  induction ds as [|p ds IH]; intros m cache refused m' cache' refused' Hc.
  { intros [= <- _ <-]. split; [done|]. split; [done|]. exists []. split_and!; [constructor|constructor|done]. }
  rewrite fold_step.
  destruct (apply_nondurable policy sender (m, cache, refused) p) as [[[m1 cache1] refused1]|] eqn:Ha; [|by rewrite fold_Panics].
  apply apply_nondurable_step in Ha as [Hc1 (Hf1&Hd1&Hs)]; [|done].
  assert (Hsrc : server_source m1 = server_source m ∧ directory m1 = directory m) by (by injection Hf1).
  destruct Hsrc as [Hsrc Hdir]. rewrite <-Hdir in Hc1.
  intros Hl. apply IH in Hl as (Hf&Hd&kept&Hk&Hl&Hn); [|done].
  split; [congruence|]. split; [congruence|]. rewrite Hsrc, Hdir in Hl. destruct Hs as [[Ht Hn1]|[Hr Hn1]].
  - exists (p.1 :: kept). split_and!; [by constructor|by eapply lands_cons|]. unfold len in *. simpl. lia.
  - exists kept. rewrite Hr in Hl. split_and!; [by constructor|done|]. unfold len in *. simpl. lia.
Qed.

Lemma foldl_frame {A S B} (f : S → A → S) (g : S → B) (l : list A) :
  (∀ s a, g (f s a) = g s) → ∀ s, g (foldl f s l) = g s.
Proof. intros Hf. induction l as [|a l IH]; intros s; simpl; [done|]. by rewrite IH. Qed.

(** *** Targets that are gone *)

(** Two calls that come back related, or unwind alike. *)
Definition alike {A B} (R : A → B → Prop) (x : panics A) (y : panics B) : Prop :=
  match x, y with
  | Returns a, Returns b => R a b
  | Panics why, Panics why' => why = why'
  | _, _ => False
  end.

Lemma alike_fold {A S T} (f : S → A → panics S) (g : T → A → panics T) (R : S → T → Prop) (l : list A) :
  (∀ s t a, R s t → alike R (f s a) (g t a)) →
  ∀ x y, alike R x y → alike R (foldl (λ acc a, s ← acc; f s a) x l) (foldl (λ acc a, t ← acc; g t a) y l).
Proof.
  intros Hf. induction l as [|a l IH]; intros x y Hxy; [done|]. simpl. apply IH.
  destruct x as [s|w], y as [t|w']; try done. by apply Hf.
Qed.

(** The posture of a remote counts an entry as gone: its address names no channel, or one
    the policy does not let it publish on. *)
Definition gone_before m (policy : Access.AppPolicy) (e : batch_entry) : Prop :=
  match resolve (directory m) (bp_channel e.1) with
  | None => True
  | Some entry =>
      match split_address (address entry) with
      | Some (scheme, name) => publish_acl_allows policy scheme name = false
      | None => False
      end
  end.

(** The same split, or the same flush under way, but for one more that vanished. *)
Definition split_more (a b : @Split Uuid DateTime) : Prop :=
  sp_durable b = sp_durable a ∧ sp_nondurable b = sp_nondurable a ∧ len (sp_vanished b) = len (sp_vanished a) + 1.
Definition flush_more (f g : @Flush Uuid DateTime _ _) : Prop :=
  fl_messenger g = fl_messenger f ∧ fl_cache g = fl_cache f ∧ fl_feeds g = fl_feeds f ∧ fl_refused g = fl_refused f ∧
  len (fl_vanished g) = len (fl_vanished f) + 1.

Lemma split_entry_more m policy posture a b e :
  split_more a b → alike split_more (split_entry m policy posture a e) (split_entry m policy posture b e).
Proof.
  intros (Hd&Hn&Hv). unfold split_entry. rewrite Hd, Hn.
  assert (Hvan : split_more (mkSplit (sp_vanished a ++ [bp_channel e.1]) (sp_durable a) (sp_nondurable a))
    (mkSplit (sp_vanished b ++ [bp_channel e.1]) (sp_durable a) (sp_nondurable a))).
  { split_and!; [done..|]. simpl. rewrite !len_app. lia. }
  assert (Hkeep : ∀ entry, alike split_more
    (caps ← entry_capabilities entry;
     Returns (if durable caps then mkSplit (sp_vanished a) (sp_durable a ++ [(e, entry)]) (sp_nondurable a)
              else mkSplit (sp_vanished a) (sp_durable a) (sp_nondurable a ++ [(e, entry)])))
    (caps ← entry_capabilities entry;
     Returns (if durable caps then mkSplit (sp_vanished b) (sp_durable a ++ [(e, entry)]) (sp_nondurable a)
              else mkSplit (sp_vanished b) (sp_durable a) (sp_nondurable a ++ [(e, entry)])))).
  { intros entry. destruct (entry_capabilities entry) as [caps|]; [|done]. simpl. by destruct (durable caps). }
  destruct (resolve (directory m) (bp_channel e.1)) as [entry|], posture; try done.
  destruct (split_address (address entry)) as [[scheme name]|]; [|done]. simpl. by destruct (publish_acl_allows _ _ _).
Qed.

(** A gone entry among others splits as the others alone, but for its own count. *)
Lemma split_gone m policy e es1 es2 :
  gone_before m policy e →
  alike split_more (split_batch m policy MissingRace (es1 ++ es2)) (split_batch m policy MissingRace (es1 ++ e :: es2)).
Proof.
  intros Hg. unfold split_batch. rewrite !foldl_app. cbn [foldl].
  destruct (foldl _ _ es1) as [acc|why]; [|cbn [mbind panics_bind]; by rewrite !fold_Panics].

  assert (He : split_entry m policy MissingRace acc e =
    Returns (mkSplit (sp_vanished acc ++ [bp_channel e.1]) (sp_durable acc) (sp_nondurable acc))).
  { unfold split_entry. unfold gone_before in Hg. destruct (resolve _ _) as [entry|]; [|done].
    destruct (split_address _) as [[scheme name]|]; [|done]. simpl. by rewrite Hg. }
  cbn [mbind panics_bind]. rewrite He.
  apply (alike_fold (split_entry m policy MissingRace) (split_entry m policy MissingRace)).
  - intros. by apply split_entry_more.
  - split_and!; [done..|]. simpl. by rewrite len_app.
Qed.

Lemma apply_durable_more policy posture sender f g p :
  flush_more f g → alike flush_more (apply_durable policy posture sender f p) (apply_durable policy posture sender g p).
Proof.
  intros (Hm&Hc&Hf&Hr&Hv). destruct p as [[e fresh] entry]. unfold apply_durable. rewrite Hm, Hc, Hf, Hr.
  destruct (memo _ _ _) as [[cache [ts|]]|]; [| |done]; cbn [mbind panics_bind].
  2: { split_and!; [done..|]. simpl. rewrite !len_app. lia. }
  destruct (check_body_size _ _); [|done]. destruct (bp_deliver_after e).
  - destruct (Db.deferred_cap_refusal _ _ _); [done|]. by destruct (insert_flushed _ _ _ _ _ _ _ _ _ _ _) as [[m1 q]|].
  - destruct (insert_flushed _ _ _ _ _ _ _ _ _ _ _) as [[m1 q]|]; [|done]. cbn [mbind panics_bind].
    destruct (held_feed entry ts); [|done]. destruct (surface_feed_envelope _ _ _ _ _ _ _ _ _ _ _ _); [|done].
    cbn [mbind panics_bind]. by destruct q.
Qed.

(** A ring target the directory no longer names is remembered by no flush, and unwinds it. *)
Lemma apply_nondurable_gone policy sender m cache refused p :
  remembered (directory m) sender cache → resolve (directory m) (bp_channel p.1.1) = None →
  ∃ why, apply_nondurable policy sender (m, cache, refused) p = Panics why.
Proof.
  destruct p as [[e fresh] entry]. intros Hc Hg. simpl in Hg. unfold apply_nondurable, memo.
  destruct (cache !! bp_channel e) as [d|] eqn:Hl.
  { destruct (Hc _ _ Hl) as [_ Hr]. congruence. }
  unfold resolve_prepaid. rewrite Hg. by eexists.
Qed.

Lemma ring_half_gone policy sender ds p : ∀ m cache refused,
  remembered (directory m) sender cache → p ∈ ds → resolve (directory m) (bp_channel p.1.1) = None →
  ∃ why, foldl (λ acc p, a ← acc; apply_nondurable policy sender a p) (Returns (m, cache, refused)) ds = Panics why.
Proof.
  induction ds as [|q ds IH]; intros m cache refused Hc Hin Hg; [by apply not_elem_of_nil in Hin|]. rewrite fold_step.
  destruct (apply_nondurable policy sender (m, cache, refused) q) as [[[m1 cache1] refused1]|why] eqn:Ha;
    [|exists why; apply fold_Panics].
  apply elem_of_cons in Hin as [<-|Hin].
  { destruct (apply_nondurable_gone policy sender m cache refused p Hc Hg) as [why Hw]. congruence. }
  apply apply_nondurable_step in Ha as [Hc1 (Hf1&_)]; [|done].
  assert (Hdir : directory m1 = directory m) by (by injection Hf1). rewrite <-Hdir in Hc1, Hg. by apply IH.
Qed.

(** What the pre-pass leaves to the rings. *)
Lemma split_keeps_ring m policy posture es sp e entry caps :
  split_batch m policy posture es = Returns sp → e ∈ es → resolve (directory m) (bp_channel e.1) = Some entry →
  entry_capabilities entry = Returns caps → durable caps = false → ¬ (posture = MissingRace ∧ gone_before m policy e) →
  (e, entry) ∈ sp_nondurable sp.
Proof.
  intros Hsp Hin Hres Hcap Hd Hng. revert sp Hsp. unfold split_batch.
  induction es as [|x es IH] using rev_ind; intros sp; [by apply not_elem_of_nil in Hin|].
  rewrite foldl_app. cbn [foldl]. rewrite bind_Returns. intros (acc&Hacc&Hs).
  assert (Hgrow : ∀ q, q ∈ sp_nondurable acc → q ∈ sp_nondurable sp).
  { intros q Hq. assert (Hk : ∀ entry' caps', q ∈ sp_nondurable (if durable caps'
      then mkSplit (sp_vanished acc) (sp_durable acc ++ [(x, entry')]) (sp_nondurable acc)
      else mkSplit (sp_vanished acc) (sp_durable acc) (sp_nondurable acc ++ [(x, entry')]))).
    { intros entry' caps'. destruct (durable caps'); simpl; rewrite ?elem_of_app; auto. }
    unfold split_entry in Hs. destruct (resolve (directory m) (bp_channel x.1)) as [entry'|], posture; returned; try done.
    split_on Hs; returned; done. }
  apply elem_of_app in Hin as [Hin|Hin]; [by apply Hgrow, (IH Hin)|].
  apply list_elem_of_singleton in Hin as <-. unfold split_entry in Hs. rewrite Hres, Hcap in Hs. cbn [mbind panics_bind] in Hs.
  rewrite Hd in Hs. destruct posture.
  - injection Hs as <-. simpl. rewrite elem_of_app, list_elem_of_singleton. by right.
  - unfold gone_before in Hng. rewrite Hres in Hng. destruct (split_address _) as [[scheme name]|]; [|done]. simpl in Hs.
    destruct (publish_acl_allows policy scheme name); [|naive_solver]. injection Hs as <-. simpl.
    rewrite elem_of_app, list_elem_of_singleton. by right.
Qed.
End flushed.
End Flushed.

Module FlushProps.
Import Envelope Directory Identity Plane Retention Targets Messaging Ladder Pipeline Frame Keeping Flushes Flushed.

Section props.
Context {Uuid DateTime : Type} `{Countable Uuid, Chrono DateTime, ChronoSecs DateTime, ChronoOrd DateTime}.
Context `{WakeRouter}.
Implicit Types (m : MessengerState Uuid DateTime) (entry : ChannelEntry Uuid).

(** C18: (publish) an attacher's flush lands in call order, each entry on the channel it
    names, and accounts for every entry, whatever else the process does while it waits: the
    durable entries kept are rows appended to the log it found under the lock, in call order,
    each on the channel its address named when the flush began, with the entry's id, stamp,
    body, urgency and release and the attacher's identity; the others kept are taken in call
    order by the rings it found, each by the ring of the channel its address names there, as
    an envelope of that channel; and its answer is exactly how many of the entries are in
    neither. *)
Theorem flush_lands_in_call_order lock_wait ring_wait m scope attribution sender es posture m' n :
  scope_principal scope attribution = Returns sender →
  publish_batch_from_attacher lock_wait ring_wait m scope attribution es posture = Returns (m', n) → es ≠ [] →
  ∃ mid kept rows kept_r,
    kept `sublist_of` es ∧ kept_r `sublist_of` es ∧ n + len kept + len kept_r = len es ∧
    Db.messages (db mid) = Db.messages (db (lock_wait m)) ++ rows ∧
    Forall2 (row_carries (directory m) (server_source (lock_wait m)) sender) kept rows ∧
    config mid = config (lock_wait m) ∧ ring_stores mid = ring_stores (lock_wait m) ∧
    db m' = db (ring_wait mid) ∧
    lands (directory (ring_wait mid)) (server_source (ring_wait mid)) sender (ring_stores (ring_wait mid)) kept_r (ring_stores m').
Proof.
  intros Hs Hb Hne. unfold publish_batch_from_attacher in Hb.
  assert (Hb' := Hb). destruct es as [|e0 es0]; [done|]. remember (e0 :: es0) as es eqn:Hes. clear Hb'.
  rewrite bind_Returns in Hb. destruct Hb as (policy&_&Hb). rewrite Hs in Hb. cbn [mbind panics_bind] in Hb.
  rewrite bind_Returns in Hb. destruct Hb as (sp&Hsp&Hb). apply split_batch_splits in Hsp as [Hc Hd Hn Hda Hna].
  rewrite bind_Returns in Hb. destruct Hb as (f&Hf&Hb).
  apply (durable_half (directory m)) in Hf as (Hcf&Hrf&kept&rows&Hk&Hm&Hrows&Hcount); [|done]. simpl in *.
  rewrite bind_Returns in Hb. destruct Hb as ([[m1 cache] refused]&Hr&[= <- <-]).
  apply ring_half in Hr as (Hc1&Hd1&kept_r&Hkr&Hl&Hcr); [|by apply map_Forall_empty].
  pose proof (fan_out_feeds_quiet (fl_messenger f) (fl_feeds f)) as Hq.
  exists (fan_out_feeds (fl_messenger f) (fl_feeds f)), kept, rows, kept_r.
  rewrite (q_db _ _ Hq), (q_rings _ _ Hq). split_and!.
  - by etrans.
  - by etrans.
  - unfold len in *. simpl in *. lia.
  - done.
  - done.
  - by rewrite (quiet_config _ _ Hq).
  - done.
  - simpl. rewrite (foldl_frame _ db); done.
  - simpl. rewrite (foldl_frame _ ring_stores); done.
Qed.

(** Among other entries, a gone one changes the answer and nothing else. *)
Lemma flush_skips lock_wait ring_wait m scope attribution sender policy (e : AttachBatchPublish DateTime * Uuid) es1 es2 :
  reg_policy <$> registration (targets m) (for_attach scope) = Some policy →
  scope_principal scope attribution = Returns sender → gone_before m policy e → es1 ++ es2 ≠ [] →
  publish_batch_from_attacher lock_wait ring_wait m scope attribution (es1 ++ e :: es2) MissingRace =
    ('(m', n) ← publish_batch_from_attacher lock_wait ring_wait m scope attribution (es1 ++ es2) MissingRace;
     Returns (m', n + 1)).
Proof.
  intros Hp Hs Hg Hne. unfold publish_batch_from_attacher.
  destruct (es1 ++ e :: es2) as [|x xs] eqn:Hx; [by destruct es1|]. rewrite <-Hx. clear Hx.
  destruct (es1 ++ es2) as [|y ys] eqn:Hy; [done|]. rewrite <-Hy. clear Hy Hne. rewrite Hp, Hs. cbn [mbind panics_bind rust_expect].
  pose proof (split_gone m policy e es1 es2 Hg) as Hsp.
  destruct (split_batch m policy MissingRace (es1 ++ es2)) as [sp|w], (split_batch m policy MissingRace (es1 ++ e :: es2)) as [sp'|w'];
    try done; [|simpl in Hsp; by rewrite Hsp].
  destruct Hsp as (Hd&Hn&Hv). cbn [mbind panics_bind]. rewrite Hd, Hn.
  pose proof (alike_fold (apply_durable policy MissingRace sender) (apply_durable policy MissingRace sender) flush_more (sp_durable sp)
    (λ f g p, apply_durable_more policy MissingRace sender f g p)
    (Returns (mkFlush (lock_wait m) ∅ [] (sp_vanished sp) [])) (Returns (mkFlush (lock_wait m) ∅ [] (sp_vanished sp') []))) as Hf.
  destruct (foldl _ (Returns (mkFlush _ _ _ (sp_vanished sp) _)) _) as [f|wf], (foldl _ (Returns (mkFlush _ _ _ (sp_vanished sp') _)) _) as [g|wg];
    (specialize (Hf ltac:(by split_and!)); try done); [|simpl in Hf; by rewrite Hf].
  destruct Hf as (Hm&_&Hfe&Hr&Hv'). cbn [mbind panics_bind]. rewrite Hm, Hfe, Hr.
  destruct (foldl _ _ (sp_nondurable sp)) as [[[m1 cache] refused]|]; [|done]. cbn [mbind panics_bind].
  do 2 f_equal. lia.
Qed.

(** C31: (publish) A target that is gone before a flush of a remote's posture begins, or that
    the policy does not cover, costs that entry alone: among any other entries, the flush does
    exactly what it would have done without it, and answers one more; alone, it publishes
    nothing and answers one. A ring target that leaves the directory while any flush waits
    unwinds the whole call, whatever other entries it has. *)
Theorem gone_before_is_counted_gone_during_unwinds lock_wait ring_wait m scope attribution sender policy (e : AttachBatchPublish DateTime * Uuid) :
  reg_policy <$> registration (targets m) (for_attach scope) = Some policy →
  scope_principal scope attribution = Returns sender →
  (gone_before m policy e →
   (∀ es1 es2, es1 ++ es2 ≠ [] →
    publish_batch_from_attacher lock_wait ring_wait m scope attribution (es1 ++ e :: es2) MissingRace =
      ('(m', n) ← publish_batch_from_attacher lock_wait ring_wait m scope attribution (es1 ++ es2) MissingRace;
       Returns (m', n + 1))) ∧
   publish_batch_from_attacher lock_wait ring_wait m scope attribution [e] MissingRace
     = Returns (dispatch_kick (ring_wait (lock_wait m)), 1)) ∧
  (∀ entry caps posture es,
    resolve (directory m) (bp_channel e.1) = Some entry →
    entry_capabilities entry = Returns caps → durable caps = false →
    ¬ (posture = MissingRace ∧ gone_before m policy e) →
    (∀ x, directory x = directory (lock_wait m) → resolve (directory (ring_wait x)) (bp_channel e.1) = None) →
    e ∈ es →
    ∃ why, publish_batch_from_attacher lock_wait ring_wait m scope attribution es posture = Panics why).
Proof.
  intros Hp Hs. split; [intros Hg; split|].
  - intros es1 es2 Hne. by apply (flush_skips lock_wait ring_wait m scope attribution sender policy).
  - unfold publish_batch_from_attacher. rewrite Hp, Hs. pose proof (split_gone m policy e [] [] Hg) as Hsp. simpl app in Hsp.
    change (split_batch m policy MissingRace []) with (Returns (mkSplit [] [] [] : @Split Uuid DateTime)) in Hsp.
    cbn [mbind panics_bind rust_expect].
    destruct (split_batch m policy MissingRace [e]) as [sp|]; [|done]. destruct Hsp as (Hd&Hn&Hv). cbn [mbind panics_bind].
    rewrite Hd, Hn. cbn -[dispatch_kick]. rewrite Hv. done.
  - intros entry caps posture es Hres Hcap Hd Hng Hgone Hin. unfold publish_batch_from_attacher.
    destruct es as [|e0 es0] eqn:Hes; [by apply not_elem_of_nil in Hin|]. rewrite <-Hes in *. clear Hes. rewrite Hp, Hs.
    cbn [mbind panics_bind rust_expect]. destruct (split_batch m policy posture es) as [sp|] eqn:Hsp; [|by eexists].
    pose proof (split_keeps_ring _ _ _ _ _ _ _ _ Hsp Hin Hres Hcap Hd Hng) as Hk. apply split_batch_splits in Hsp as [_ _ _ Hda _].
    cbn [mbind panics_bind]. destruct (foldl _ _ (sp_durable sp)) as [f|] eqn:Hf; [|by eexists]. cbn [mbind panics_bind].
    apply (durable_half (directory m)) in Hf as (Hcf&_); [|done]. simpl in Hcf.
    assert (Hdir : directory (fan_out_feeds (fl_messenger f) (fl_feeds f)) = directory (lock_wait m)).
    { pose proof (quiet_config _ _ (fan_out_feeds_quiet (fl_messenger f) (fl_feeds f))) as Hq.
      injection Hq as -> _ _ _. by injection Hcf as -> _ _ _. }
    destruct (ring_half_gone policy sender (sp_nondurable sp) (e, entry) (ring_wait (fan_out_feeds (fl_messenger f) (fl_feeds f))) ∅
      (fl_refused f) (map_Forall_empty _) Hk) as [why Hw]; [by apply Hgone|].
    rewrite Hw. by eexists.
Qed.
End props.

(** A surface's flush of a durable entry and a scheduled ring entry, and a process that takes
    the ring's channel away while the flush waits. *)
Import PublishProps.Demo NanoClock.

Definition scheduled : AttachBatchPublish Instant * N := (mkBatchPublish "ephemeral:room" "x" Normal 5 (Some (at_ns 50)), 901).
Definition entries : list (AttachBatchPublish Instant * N) := [scheduled; (mkBatchPublish "brenn:a" "y" Normal 6 None, 902)].
Definition surface : AttachScope := mkScope KindSurface "s".
Definition deprovision (m : MessengerState N Instant) : MessengerState N Instant :=
  with_directory m (remove_channel (Messaging.directory m) 5).1.

Lemma flush_lands_in_call_order_witness :
  ∃ m' mid kept rows kept_r,
    publish_batch_from_attacher id id bus surface None entries MissingInvariant = Returns (m', 0) ∧
    len kept + len kept_r = 2 ∧ Db.messages (db mid) = Db.messages (db bus) ++ rows ∧
    Forall2 (row_carries directory "srv" "surface:s") kept rows ∧
    lands directory "srv" "surface:s" (ring_stores mid) kept_r (ring_stores m').
Proof.
  set (call := publish_batch_from_attacher id id bus surface None entries MissingInvariant).
  assert (Hb : call = Returns (left_by call, 0)) by (apply answers; vm_compute; reflexivity).
  destruct (flush_lands_in_call_order id id bus surface None "surface:s" entries MissingInvariant _ _ eq_refl Hb)
    as (mid&kept&rows&kept_r&_&_&Hn&Hm&Hr&Hc&_&_&Hl); [done|].
  exists (left_by call), mid, kept, rows, kept_r. split; [exact Hb|]. split; [exact Hn|]. split; [exact Hm|].
  split; [exact Hr|]. injection Hc as Hdir _ Hsrc _. unfold id in Hl. rewrite Hsrc, Hdir in Hl. exact Hl.
Defined.

(** An entry for a channel nobody declared, among two that land; and the ring gone while the
    flush waits. *)
Definition nowhere : AttachBatchPublish Instant * N := (mkBatchPublish "brenn:zz" "z" Normal 7 None, 903).

Lemma gone_before_is_counted_gone_during_unwinds_witness :
  publish_batch_from_attacher id id bus surface None (scheduled :: nowhere :: tail entries) MissingRace =
    ('(m', n) ← publish_batch_from_attacher id id bus surface None entries MissingRace; Returns (m', n + 1)) ∧
  ∃ why, publish_batch_from_attacher id deprovision bus surface None (tail entries ++ [scheduled]) MissingRace = Panics why.
Proof.
  split.
  - destruct (gone_before_is_counted_gone_during_unwinds id id bus surface None "surface:s" policy nowhere)
      as [Hbefore _]; [reflexivity|reflexivity|].
    destruct Hbefore as [Hb _]; [exact I|]. apply (Hb [scheduled] (tail entries)). discriminate.
  - destruct (gone_before_is_counted_gone_during_unwinds id deprovision bus surface None "surface:s" policy scheduled)
      as [_ Hduring]; [reflexivity|reflexivity|].
    apply (Hduring ring TRANSPORTABLE MissingRace (tail entries ++ [scheduled])); [reflexivity|reflexivity|reflexivity| | |].
    + intros [_ Hg]. vm_compute in Hg. discriminate.
    + intros x Hx. unfold deprovision. simpl. unfold id in Hx. rewrite Hx. reflexivity.
    + apply elem_of_app. right. apply list_elem_of_singleton. reflexivity.
Defined.
End FlushProps.

(** ** What a release sweep leaves *)

Module Swept.
Import Envelope Directory Identity Plane Retention Targets Messaging Ladder Pipeline Frame Keeping Sweeps.

Section swept.
Context {Uuid DateTime : Type}
  `{Countable Uuid, Chrono DateTime, ChronoSecs DateTime, ChronoOrd DateTime, !ChronoLine DateTime}.
Context `{WakeRouter}.
Implicit Types (m : MessengerState Uuid DateTime) (entry : ChannelEntry Uuid).

(** The release times of what is parked on a channel: of its rows in the message table, each
    as its text reads, or of its ring's parked set. *)
Definition table_releases (d : Db.Database Uuid) (u : Uuid) : list (option DateTime) :=
  (λ r, Db.row_deliver_after r ≫= Db.parse_rfc3339) <$> filter (λ r, Db.on_channel u r && Db.is_parked r = true) (Db.messages d).
Definition ring_releases (st : RingStore.RingStore Uuid DateTime) : list (option DateTime) :=
  (λ e, from_timestamp_millis (Z.of_N (Deferred.release_at e))) <$> Deferred.parked (Core.deferred (RingStore.core st)).
Definition releases m entry : list (option DateTime) :=
  match entry_capabilities entry with
  | Returns caps =>
      if durable caps then table_releases (db m) (uuid entry)
      else match RingStores.get (ring_stores m) (uuid entry) with
           | Some st => ring_releases st
           | None => []
           end
  | Panics _ => []
  end.




(** Rows told apart, each with its channel, holding times RFC 3339 spells. *)
Definition rows_ok (d : Db.Database Uuid) : Prop :=
  NoDup (Db.row_id <$> Db.messages d) ∧
  ∀ r u, r ∈ Db.messages d → Db.row_channel r = Some u →
    is_Some (Db.channels d !! u) ∧
    from_option (DbFacts.readable (DateTime := DateTime)) True (Db.row_deliver_after r).

(** A parked set in order, of times some instant rounds to. *)
Definition ring_ok (st : RingStore.RingStore Uuid DateTime) : Prop :=
  Deferred.wf (Core.deferred (RingStore.core st)) ∧ StoreRun.instants (Core.deferred (RingStore.core st)).

(** What a sweep needs of its messenger, table handles where they belong among it. *)
Record sweepable m : Prop := mkSweepable {
  sw_rows : rows_ok (db m);
  sw_rings u st : RingStores.get (ring_stores m) u = Some st → ring_ok st;
  sw_table u st : db_stores m !! u = Some st → DbStore.ds_channel_uuid st = u;
}.


(** Steps that read the stores and change none. *)
Record reads m m' : Prop := mkUntouched {
  rd_db : db m' = db m;
  rd_rings : ring_stores m' = ring_stores m;
  rd_directory : directory m' = directory m;
  rd_tables : sweepable m → sweepable m';
}.
#[global] Instance reads_preorder : PreOrder reads.
Proof. split; [by intros m; split|]. intros a b c [] []. split; try congruence. eauto. Qed.




(** *** The store a channel is asked through *)




(** *** A table's release *)








(** The schedule's order. *)
#[local] Instance release_le_total : Total (Db.release_le (Uuid := Uuid)).
Proof.
  intros a b. unfold Db.release_le, String.ltb. rewrite (String.compare_antisym (Db.due_at b)).
  destruct (String.compare (Db.due_at a) (Db.due_at b)) eqn:Hc; simpl; [|by left; left|by right; left].
  apply String.compare_eq_iff in Hc. destruct (N.le_ge_cases (Db.row_id a) (Db.row_id b)); [left; right|right; right]; done.
Qed.

Lemma str_lt_trans (a b c : string) : String.ltb a b = true → String.ltb b c = true → String.ltb a c = true.
Proof.
  unfold String.ltb. destruct (String.compare a b) eqn:Hab; [done| |done]. destruct (String.compare b c) eqn:Hbc; [done| |done].
  by rewrite (compare_lt_trans _ _ _ Hab Hbc).
Qed.
#[local] Instance release_le_trans : Transitive (Db.release_le (Uuid := Uuid)).
Proof.
  intros a b c [Hab|[Hab Iab]] [Hbc|[Hbc Ibc]]; unfold Db.release_le.
  - left. by eapply str_lt_trans.
  - left. by rewrite <-Hbc.
  - left. by rewrite Hab.
  - right. split; [congruence|lia].
Qed.





(** *** A ring's release *)






(** *** A channel's turn *)

(** What a turn for channel [u] leaves alone. *)
Record elsewhere (u : Uuid) m m' : Prop := mkElsewhere {
  el_sweepable : sweepable m → sweepable m';
  el_releases entry : uuid entry ≠ u → releases m' entry = releases m entry;
  el_directory : directory m' = directory m;
}.
#[global] Instance elsewhere_preorder u : PreOrder (elsewhere u).
Proof.
  split; [by intros m; split|]. intros a b c [] []. split; [eauto|..|congruence].
  intros entry He. rewrite el_releases1, el_releases0; done.
Qed.











(** *** The earliest of many *)


End swept.
End Swept.

Module SweepProps.
Import Envelope Directory Identity Plane Retention Targets Messaging Ladder Pipeline Frame Keeping Sweeps Swept.

Section props.
Context {Uuid DateTime : Type}
  `{Countable Uuid, Chrono DateTime, ChronoSecs DateTime, ChronoOrd DateTime, !ChronoLine DateTime}.
Context `{WakeRouter}.
Implicit Types (m : MessengerState Uuid DateTime) (entry : ChannelEntry Uuid).

End props.

(** One message parked for the third second, swept in the first and in the fourth. *)
Import PublishProps.Demo NanoClock.



End SweepProps.
